(* ===== verification/_CoqProject ===== *)
-Q . S2P
Prelude.v
RustStr.v
UnixPath.v
OrdMap.v
Yaml.v
Expression.v
Evaluate.v
Instances.v
Templates.v
Workflow.v
Permissions.v
Validate.v
Matrix.v
Steps.v
Dependencies.v
Triggers.v
Compile.v
Reusable.v
Expansion.v
Linking.v
Scopes.v
ScopedExpansion.v
ScopedLinking.v
Identities.v
Scheduler.v
SchedulerInv.v
SchedulerProgress.v
SchedulerProps.v
RustText.v
CommandFile.v
Masking.v
Protocol.v
Annotations.v
ProblemMatcher.v
MatcherSpec.v
MatcherRegistry.v
WorkflowCommands.v
WorkflowCommandsProps.v
LogOutput.v
Cache.v
CacheService.v
Concurrency.v
RepositoryAccess.v
TokenCache.v
Artifact.v
ArtifactInv.v
ArtifactProps.v
ArtifactDemo.v
JobContext.v
Actions.v
Runners.v
Traced.v
JobEffects.v
JobSteps.v
JobRun.v
JobThreads.v
JobSafety.v
JobMonitors.v
JobOutcome.v
BaseGroup.v
BaseGroupProps.v
CheckSummary.v
DeploymentPattern.v
DeploymentPolicy.v
ArtifactSubjects.v
GitObjects.v
CheckoutInputs.v
GitEffects.v
Materialize.v
Checkout.v
CheckoutRun.v
CheckoutSafety.v
CheckoutCredentials.v
CheckoutProps.v
Catalog.v
JobDemo.v
RunExecution.v
Agent.v
RunProps.v
