(* ===== verification/Prelude.v ===== *)
(** * GitZero: verification library

    GitZero runs GitHub Actions workflows on a self-hosted machine.  A control
    plane receives webhooks and assigns runs; an agent fetches the repository,
    compiles its workflow files to execution plans and executes them.  This
    library models the core logic of the Rust workspace: the expression language
    ([crates/gitzero-expression/src/lib.rs]), the workflow compiler
    ([crates/gitzero-workflow/src/lib.rs]) and the agent
    ([crates/gitzero-agent/src]), from its entry point down: a run with its
    checkout, its catalog of reusable workflows and its report; the scheduler that
    runs a compiled plan; the execution of one job with its steps and actions, the
    built-in checkout among them; the processing of a step's output (workflow
    commands, problem matchers, masking, the relay to the control plane); the
    choice of a runner; the policies of environments; the attested artifacts; the
    cache and artifact services, the concurrency client and the repository tokens.
    The sections below say which file models what, how the parts meet, what is
    proved and what is left out.

    ** Shape of the translation

    A Rust function that returns [Result<A, E>] becomes a function into
    [outcome E A], whose third constructor [Panic] is what [expect], an indexing,
    a slice off a character boundary or an exhausted fuel produce: a theorem that
    an operation is never [Panic] says that the code neither panics nor loops.
    A loop with early returns is [for_each] over the list it iterates, a
    [collect::<Result<_, _>>()] is [traverse], a [&mut] parameter is an extra
    result.  Error messages are those of the code; of a chain of contexts a job or
    a checkout keeps the outermost one, and a run the whole chain.

    A [BTreeMap<String, _>] is a [gmap string _] and a [BTreeSet<String>] a
    [gset string], iterated in byte order ([OrdMap]); an [IndexMap] and a YAML
    mapping are the lists of their entries; a [String] is its UTF-8 bytes
    ([RustStr]).  A [usize] or [u32] that only counts is a [nat] or a [Z].

    Code that acts on its surroundings is, where it interleaves with other tasks, a
    transition system (the scheduler, base jobs, the clients, the artifact service,
    the agent), and where it is a sequence of calls, a traced program ([Traced]): a
    function of an oracle that answers each effect from the effects before it, and
    that returns the trace of them.  A theorem on a traced program holds for every
    oracle, so for every behaviour of git, of processes, of the file system and of
    the other tasks.

    ** Files

    - [Prelude]: [outcome] and its monad, [for_each], [traverse] and the rule
      [outcome_spec] for them, record updates, tactics, generic lemmas.
    - [RustStr], [RustText]: the operations of [str] and [char] the sources call,
      with their UTF-8 behaviour ([is_char_boundary], [chars], [trim]).
      [UnixPath]: the operations of [Path].
    - [OrdMap]: ordered maps and sets.
    - [Yaml]: YAML and JSON values ([serde_yaml_ng::Value],
      [serde_json::Value]), with the library calls on them as the class
      [ValueLib].
    - [Traced]: traced programs over a family of effects indexed by their answers,
      the monitors of their traces, and the triples that say a monitor accepts what
      a program does.

    The expression crate:
    - [Expression]: the abstract syntax and the analysis of expressions
      ([analyze_expression], [analyze_template], [ExpressionAnalysis]).  The
      third-party parser and the JSON conversion are the classes [ExpressionLib]
      and [JsonLib].
    - [Evaluate]: [EvaluationContext] and its methods [evaluate],
      [evaluate_json], [evaluate_condition] and [render], the property accesses
      with their wildcards ([Selection]), and the functions ([format_values],
      [join], [to_json], [case], ...).
    - [Templates]: what templates mean: [segmented] is the reference reading of a
      template, and the class [TemplateContract] the promise the expression crate
      makes to the compiler, with its instance [expression_templates].

    The workflow crate:
    - [Workflow]: its data.  [Permissions], [Validate], [Matrix], [Steps],
      [Dependencies]: the checks and translations [compile] composes.  [Compile]:
      [compile] itself.
    - [Reusable]: paths, declarations and bindings of reusable workflows.
      [Expansion]: the jobs that replace a call ([expand_reusable_call],
      [expand_dynamic_reusable_call]).  [Linking]: [compile_with_reusables], the
      recursion over called workflows.
    - [Triggers]: [matches_pull_request] and [requires_pull_request_changed_paths],
      with filter patterns translated to regular expressions.  The regex engine
      is the class [RegexLib].
    - [Scopes], [ScopedExpansion], [ScopedLinking]: the structure of a linked plan
      that its execution relies on.  A base id is a path of names joined by [::];
      the jobs of a call form a name space behind its gate, a matrix of calls is a
      result over such name spaces; and expansion, the replacement of a call and
      linking produce and keep it.

    The execution of plans ([executor.rs] of the agent unless another file is
    named):
    - [Identities]: [hydrate_plan_workflow_identities], which keeps that structure.
    - [Scheduler]: the loop of [execute_plan_inner] as a transition system, with the
      functions it calls: [dependency_status], [condition_allows],
      [execute_virtual_job] and the runtimes of the matrices of reusable calls.
      [SchedulerInv]: its invariant and what keeps it.  [SchedulerProgress]: the
      run-time expansion of a dynamic call, progress and termination.
      [SchedulerProps]: the properties, and a concrete run.
    - [BaseGroup]: [execute_base_group]: the concurrency scopes of called workflows
      and the instances of a base job's matrix, as a transition system.
      [BaseGroupProps]: its properties, and that it refines the abstract result of a
      base group that [Scheduler] assumes.
    - [Concurrency]: the concurrency client of [concurrency.rs] as a transition
      system, and its properties.  [RepositoryAccess]: the same for the token
      requests of [repository_access.rs].  [TokenCache]: the tokens of a run, their
      lifetime and their masking ([RunRepositoryAccess]).

    The execution of a job:
    - [JobContext]: what a job's expressions see ([expression_context_with_variables],
      [github_environment], [resolve_reusable_secrets], [resolve_reusable_inputs],
      [expand_dynamic_matrix_job], [resolve_job_concurrency]).
    - [Actions]: [action.rs] and the planning of composite steps.  [Runners]:
      [runs-on], the labels of an agent, and the requirements that reject a run
      before it starts.
    - [JobEffects]: the effects of a job.  [JobSteps]: [execute_step] and the
      actions; [JobRun]: [execute_job] with its background steps, post phases and
      deployment.  [JobThreads]: the threads of a job, which are the job itself and
      the tasks of its background steps, and the orders in which their effects are
      observed.
    - [JobSafety]: monitors of the effects of a job and what every program of
      [JobSteps] and [JobRun] does to them.  [JobMonitors], [JobOutcome]: the
      properties of jobs.  [JobDemo]: a concrete job, a concrete base group.
    - [DeploymentPattern]: [deployment_pattern_matches], the matcher of the branch
      patterns of an environment, and what a pattern means.  [DeploymentPolicy]: the
      requests to the GitHub API and [environment_variables_for_job], which applies the
      policy.
    - [ArtifactSubjects]: [artifact_subject.rs], the artifacts a job declares to be
      attested.  [CheckSummary]: the summary the check of a run shows.

    The output and the files of a step:
    - [CommandFile]: the files [GITHUB_ENV], [GITHUB_OUTPUT], [GITHUB_STATE] and
      [GITHUB_PATH] ([parse_command_file]).
    - [Protocol]: the messages between agent and control plane
      ([crates/gitzero-protocol/src/lib.rs]), and oneshot channels.
    - [Masking]: [SecretMasker].  [Annotations]: the annotations a step makes and
      their limits.
    - [ProblemMatcher]: [problem_matcher.rs], from the definition file to the
      annotations of a line, with concrete matchers.  [MatcherSpec]: its
      correctness; [MatcherRegistry]: the registry of a job.
    - [WorkflowCommands]: [WorkflowCommandProcessor] and the parser of [::command::]
      lines.  [WorkflowCommandsProps]: its invariant and its properties.
      [LogOutput]: the reader that cuts a stream into lines ([read_log_lines]) and
      the relay that masks, forwards and counts them.

    The services of a run:
    - [Cache]: the storage of [cache.rs] (versions and keys, lookup, reservation,
      upload, commit, eviction), its invariant and properties.  [CacheService]: the
      requests the service routes to it.
    - [Artifact]: the artifact service of [artifact.rs]: its records, handlers and
      disk, the handlers cut into tasks where they give up the lock, and the parser
      of block lists.  [ArtifactInv]: the invariant and what each task keeps;
      [ArtifactProps], [ArtifactDemo]: the properties and concrete requests.

    Repositories:
    - [GitObjects]: object ids and refs, and the checks a run passes first.
      [CheckoutInputs]: the inputs the built-in checkout accepts, and the inline
      configuration of git that carries credentials.
    - [GitEffects]: the effects of what follows.  [Materialize]: the shared caches of
      remote repositories and the checkouts made from them
      ([materialize_remote_repository], [materialize_action]).  [Checkout],
      [CheckoutRun]: [execute_checkout_step] and the programs it calls.
      [CheckoutSafety], [CheckoutCredentials], [CheckoutProps]: its properties.
    - [Catalog]: [resolve_reusable_workflow_catalog], the worklist over the workflows
      of the repository and of others, and the identities of workflows.

    Runs:
    - [RunExecution]: [execute_with_services] with the checkout of a run, the
      discovery of its workflows, their concurrent execution, the report, and
      [execute_plan] with its lease.  [Agent]: [main.rs]: the checks of its
      arguments, the address it connects to and the jobs it runs, as a transition
      system over the events of its connection.  [RunProps]: the properties of runs.

    - [Instances]: small concrete instances of the library classes, used only by
      witnesses and examples.

    ** How the parts meet

    The agent ([Agent]) accepts a run while it has a permit and starts a task for
    it.  The task is [execute_with_services] ([RunExecution]): it checks the names
    the run carries ([GitObjects]), starts the cache and artifact services, fetches
    the commit and verifies it, and discovers the workflows: it reads the files of
    the commit, keeps those whose triggers match ([Triggers]), resolves the
    workflows they call ([Catalog]), links each ([Linking]) and gives the jobs the
    identities of their workflows ([Identities]).  Requirements the agent does not
    meet ([Runners]) reject the run.  Otherwise the plans run concurrently, each
    under its lease ([execute_plan]) in the scheduler; their results are tallied,
    the services stop, and the run reports its conclusion with its summary
    ([CheckSummary]).  An error before the report is reported by the agent.

    A workflow file is deserialized to a [Workflow], linked
    ([compile_with_reusables]), which compiles it ([compile]) and replaces each
    call by an expansion of the plan of the called workflow, recursively.
    [compile] plans each job ([plan_job]): validation, matrix, then per
    combination permissions, concurrency, environment and steps; and it checks
    the dependency graph at the end, as the linker does after the replacement.
    The compiler analyses templates and never evaluates them: it is proved
    against [TemplateContract], and [Templates] proves that the evaluator keeps
    the contract.

    The scheduler executes a plan.  [sched_init] is the state before the loop of
    [execute_plan_inner]; an iteration ([sched_step]) starts the ready base jobs
    ([start_ready]) and takes one result ([take_execution]), which completes a
    base job ([complete_base], with the fail-fast of its matrix) or replaces a
    dynamic call by its jobs ([expand_base], with the [expand_dynamic_reusable_call]
    of [Expansion]).  The futures are the records [Running]; which one ends next,
    what the jobs conclude, whether the run is cancelled between two iterations
    and where an error appears are free, within what [execute_base_group] can
    return ([base_group]).  [BaseGroup] is that function: it opens the scopes of the
    called workflows the job is in, expands a matrix that is dynamic, starts
    instances as [max-parallel] allows and collects their conclusions, and every
    result it returns is one that [base_group] allows.

    A job is a program of [JobRun]: it asks for the variables of its environment
    ([DeploymentPolicy]), builds the context of its expressions ([JobContext]),
    checks [runs-on] ([Runners]), runs its steps, which call actions ([Actions])
    that may be composite and call [execute_step] again, and ends with the post
    phases and the outputs.  A background step is a task of its own: the trace of the
    job has its effects where it starts, and [observed] relates the trace to every
    order in which the effects of the job and its tasks may happen.  The checkout step is the effect [ECheckout], fetching
    an action the effect [EMaterialize]; [CheckoutRun] and [Materialize] are the
    programs behind them, over git itself.  The state of [WorkflowCommandProcessor]
    is behind a lock that other tasks share, so each operation on it takes what the
    oracle holds and gives its result back.

    A step of a job runs as a process.  [read_log_lines] cuts its output into
    lines and parts of lines; [WorkflowCommandProcessor] takes each line, executes
    the command it may be (which may add a secret to the masker, a matcher to the
    registry, an annotation to the step) or hands it to the matchers of the
    registry; the relay masks what remains and forwards it, up to the limit of the
    log.  After the step its command files are parsed.  A job that needs a
    concurrency group or a token asks the control plane through
    [ConcurrencyClient] or [RepositoryAccessClient]: each numbers its requests,
    keeps the waiting ones in a map of oneshot senders and is told the answers by
    the connection; a caller that is dropped or cancelled withdraws its request.
    The tokens a run obtains are kept by [RunRepositoryAccess], which puts
    them in the masker before anyone can use them.  The cache service holds the
    archives of [actions/cache] for the jobs of a machine, the artifact service
    the artifacts of a run.

    ** What is proved

    - Linking ([compile_with_reusables_sound]): no panic, the recursion ends, and
      in the plan every need, alias, virtual job and carried plan refers to jobs
      that exist, without cycles.  Its two hypotheses are exact: job keys are
      distinct (they are keys of an [IndexMap]) and no call has a matrix with
      zero combinations - with one, the code panics, as
      [Linking.empty_call_matrix_panics] shows.
    - The catalog ([reusable_catalog_is_closed]): its resolution ends without a
      panic; every call it reaches is there, at most fifty of them, each read at the
      commit that identifies it.
    - Runs: a run starts only on a verified merge commit, waits for all its plans,
      reports once and after its services are down, and reports what its plans amount to,
      unless it was cancelled or a service did not stop
      ([runs_report_once_and_truly]); a run that does not
      panic is reported ([every_run_is_reported]); its result does not depend on the
      order in which its plans end ([results_are_order_independent]); a workflow
      with a concurrency group executes under its lease only, which is released
      exactly once ([workflow_leases_are_released]).
    - The agent never runs more than its parallelism, whatever happens to its
      connection and tasks ([agent_runs_within_capacity]); the identifiers in the
      address it connects to can be read back ([url_component_roundtrip]).
    - Scheduling, for every plan that linking returns: a run never stalls
      ([scheduler_progress]), its loop ends and never panics
      ([scheduler_terminates]), base jobs run once and after their needs, with
      the conclusions these really had ([scheduler_runs_in_order]), and matrices
      of calls keep [max-parallel] and fail-fast ([scheduler_bounds_matrices]).
      The sources must have job keys without colons and other than [gate]: the
      code does not check this, and the examples below show what goes wrong.
      The progress argument descends through nested matrices; the termination
      argument orders the open jobs by the nesting of the plans they carry.
    - Base groups: their results are among those the scheduler's theorems assume
      ([base_groups_refine_the_scheduler]); the instances of a matrix keep
      [max-parallel] and fail-fast ([matrix_instances_run_within_limits]); a group
      whose jobs end does end ([matrix_groups_end]); the scopes
      a job needs are opened together or not at all
      ([concurrency_scopes_open_together]).
    - Checkouts: one that succeeds leaves the commit it selected in a directory of
      the workspace ([checkout_pins_the_commit]); every command of git carries only
      tokens it may use ([checkouts_use_authorized_credentials]); configuring
      credentials replaces those of earlier checkouts and nothing else
      ([checkout_credentials_replace_earlier_ones]).
    - Environments: a job sees the variables of one only when its policy lets the
      ref pass ([environment_variables_follow_the_policy]), and the pattern matcher
      decides what patterns mean ([deployment_patterns_mean_their_reading]).
    - Attested artifacts have names and digests of the right form, at most 500, and
      are never replaced ([artifact_subjects_are_well_formed]); the summary of a run
      fits the limit of GitHub and is cut no earlier than it must
      ([check_summaries_fit]).
    - Expansion: well-formedness, attenuation of the token, the gate/result
      protocol, distinct ids, the run-time expansion of a dynamic matrix.
    - Compilation: never panics, plans each combination exactly once, closed
      acyclic needs, distinct ids, token permissions.
    - Dependencies: accepted exactly when closed and acyclic, and then some
      pending job can always start.
    - Matrices: the loops equal a reference that builds the whole matrix and
      applies the 256-job limit afterwards; origin of every combination.
    - Steps: flattening is faithful, ids are unique, waits refer to earlier
      background steps, none of the panics is reachable.
    - Permissions, concurrency groups, job validation, reusable contracts and
      bindings: soundness of what is accepted, completeness where the code
      states a condition.
    - Triggers: exact conditions, last-match-wins order, no regex injection.
    - Step output: no line of a step that contains a secret known at that point
      reaches the control plane unmasked, nor does a step name, a summary, a reason or
      an annotation ([registered_mask_stays_hidden], [obtained_secrets_stay_hidden];
      deployments and the names of concurrency groups are sent as they are:
      [deployments_are_sent_unmasked]); lines are neither lost nor reordered
      below the limits, commands between [stop-commands] and its token are not
      executed, annotations obey their limits; a stream is cut without loss and
      within the length limit, at character boundaries.
    - Problem matchers: only valid matchers are accepted, a multi-line matcher
      reports exactly the consecutive lines its patterns match, the registry
      keeps one matcher per owner.
    - Cache: entries are never overwritten, an archive is committed only when its
      bytes are there without gap or overlap, lookups return the newest match,
      eviction respects the size limit and the least recent use.
    - Concurrency client and token requests: every request is answered at most
      once, and decided once the connection has answered or closed; a lease is held
      only when it was granted and released when it was given up; the messages
      follow the protocol.  A token is masked before it is used and never used
      after its end.
    - Artifacts: an upload within the limits downloads as the blocks it listed
      ([artifact_roundtrip]), and a finalized artifact stays as it is under any
      interleaving of requests that do not overlap on one artifact
      ([finalized_artifacts_are_immutable]); [ArtifactDemo] shows what overlapping
      ones do.
    - Jobs: in every order in which the effects of a job and of its background steps
      may happen, the steps of each are reported in nested pairs
      ([step_messages_nest]), and a deployment that was announced is concluded when
      the job returns ([deployments_are_concluded]); nothing runs
      after a failure unless its condition asks for the status
      ([nothing_runs_after_a_failure]), a successful job has no failed step and
      has joined its background steps ([job_status_covers_every_step]), post
      phases run last first ([posts_run_last_first]), and joining a background
      step at once is running it in the foreground
      ([background_merge_is_sequential], whose hypothesis on PATH is needed:
      [background_merge_clears_path]).
    - Called workflows have exactly the secrets that each call passes of those of its
      own caller ([called_workflow_secrets]), and the inputs they are passed
      ([reusable_inputs_are_typed]); references of
      actions stay in their repository ([parsed_references_are_safe]); a run is
      rejected only for a job the agent cannot run
      ([rejected_runs_have_an_ineligible_job]).
    - Expressions: evaluation reads only what the analysis reports; rendering
      refines [segmented]; totality; [format]'s brace escapes.

    The examples at the end of [Compile], [Reusable], [Expansion] and [Linking]
    show the behaviours the hypotheses of the theorems exclude: brackets and
    [::] in job ids, a called job named [gate], backslashes in paths, a call with
    an empty matrix.

    ** Fuel

    The template loops ([render_loop], [analyze_loop], [format_loop]) have the
    length of the template as fuel and consume at least one byte per turn; the
    glob loop has one unit per character; [visit] has the size of the graph,
    since each frame marks one more job; [compile_linked_workflow] has the code's
    own limit of ten levels.  [templates_never_panic], [glob_atoms_safe],
    [compile_never_panics] and [compile_with_reusables_sound] prove that the fuel
    is enough.  The loop that cuts the output of a step has the length of one read
    as fuel: each turn consumes a byte.  [parse_blocks] has one unit per byte of the
    list; [json_u64] reads the 128 levels [serde_json] does.  The matcher of
    deployment patterns has one unit per character of pattern and ref, and one
    more; [deployment_patterns_mean_their_reading] includes that this is enough.
    The catalog's worklist has a fuel that [reusable_catalog_is_closed] proves to
    exist; it is a parameter of a run.  [execute_step] takes
    the nesting of composite actions as fuel: the code has no bound, and the
    theorems on jobs hold for every value of it.

    ** Not modelled

    The derived deserializers and serializers of the data; the file walk and the
    digest of [hashFiles]; the TypeScript control plane ([apps/control-plane]).  Of
    the agent: processes, git and the file system themselves, whose answers are
    arbitrary; the transport (HTTP, TLS and the websocket), the command-line parser
    and the host name ([main.rs]).  Of what is modelled: the locks and the file I/O
    of the services, whose errors are not distinguished; the channels of the clients
    beyond their order and whether they are closed; in a run, what a plan does
    besides its result and its messages, which is [execute_plan] and the scheduler;
    in the scheduler, the concurrency of its futures, of which only the order of the
    results is observable (a lease may cancel or fail a base job at any point of the
    model, and fail the run at its end).  A base group takes the execution slots of
    the machine when it asks for them, and what a dropped future still holds after
    an error is not followed.  The effects of a background step are interleaved with
    those of its job and of the other background steps only ([JobThreads]); the
    answers to them are arbitrary, so that they may depend on any order. *)

From Stdlib Require Export Ascii ZArith Lia.
From stdpp Require Export base list gmap strings sorting pretty.

Declare Scope rust_scope.
Delimit Scope rust_scope with rust.
#[global] Open Scope rust_scope.

(** ** Outcomes

    [Result<A, E>] of Rust with the third thing a Rust call can do: panic
    ([expect], an indexing of a map or of a slice, [unreachable!]). *)

Inductive outcome (E A : Type) : Type :=
  | Ok (a : A)
  | Err (e : E)
  | Panic.

Arguments Ok {E A} a.
Arguments Err {E A} e.
Arguments Panic {E A}.

Definition obind {E A B : Type} (c : outcome E A) (k : A → outcome E B) : outcome E B :=
  match c with
  | Ok a => k a
  | Err e => Err e
  | Panic => Panic
  end.

Definition omap_ok {E A B : Type} (f : A → B) (c : outcome E A) : outcome E B :=
  obind c (λ a, Ok (f a)).

Definition map_err {E F A : Type} (f : E → F) (c : outcome E A) : outcome F A :=
  match c with
  | Ok a => Ok a
  | Err e => Err (f e)
  | Panic => Panic
  end.

(** [Option::ok_or_else] and [Option::expect] *)
Definition ok_or {E A : Type} (o : option A) (e : E) : outcome E A :=
  match o with Some a => Ok a | None => Err e end.

Definition expect {E A : Type} (o : option A) : outcome E A :=
  match o with Some a => Ok a | None => Panic end.

Notation "'let?' x ':=' c 'in' k" := (obind c (λ x, k))
  (at level 10, x name, c at level 100, k at level 200,
   format "'[v' 'let?'  x  ':='  c  'in' '/' k ']'") : rust_scope.
Notation "'let?' ' p ':=' c 'in' k" := (obind c (λ x, match x with p => k end))
  (at level 10, p pattern, c at level 100, k at level 200) : rust_scope.
Notation "c ';?' k" := (obind c (λ _ : unit, k))
  (at level 100, k at level 200, right associativity) : rust_scope.

(** The early return [if b { return Err(e) }]. *)
Definition reject_if {E : Type} (b : bool) (e : E) : outcome E unit :=
  if b then Err e else Ok tt.

Definition is_ok {E A : Type} (c : outcome E A) : bool :=
  match c with Ok _ => true | _ => false end.

Lemma is_ok_inv {E A} (c : outcome E A) : is_ok c = true → ∃ a, c = Ok a.
Proof. destruct c; [eauto | done..]. Qed.

Lemma Ok_inj {E A} (a b : A) : @Ok E A a = Ok b → a = b.
Proof. by intros [= ->]. Qed.

Lemma Ok_iff {E A} (a b : A) : a = b ↔ @Ok E A a = Ok b.
Proof. split; [by intros -> | by intros [= ->]]. Qed.

Lemma obind_Ok {E A B} (c : outcome E A) (k : A → outcome E B) b :
  obind c k = Ok b ↔ ∃ a, c = Ok a ∧ k a = Ok b.
Proof.
  split.
  - destruct c; simpl; intros H; try discriminate. eauto.
  - intros (a & -> & ?); done.
Qed.

Lemma obind_Panic {E A B} (c : outcome E A) (k : A → outcome E B) :
  obind c k = Panic ↔ c = Panic ∨ ∃ a, c = Ok a ∧ k a = Panic.
Proof.
  split.
  - destruct c; simpl; intros H; try discriminate; eauto.
  - intros [-> | (a & -> & ?)]; done.
Qed.

Lemma obind_no_panic {E A B} (c : outcome E A) (k : A → outcome E B) :
  c ≠ Panic → (∀ a, c = Ok a → k a ≠ Panic) → obind c k ≠ Panic.
Proof. intros Hc Hk [H | (a & Ha & H)]%obind_Panic; [done|]. by apply (Hk a). Qed.

Lemma obind_assoc {E A B C} (c : outcome E A) (f : A → outcome E B) (g : B → outcome E C) :
  obind (obind c f) g = obind c (λ a, obind (f a) g).
Proof. by destruct c. Qed.

Lemma ok_or_Ok {E A} (o : option A) (e : E) a : ok_or o e = Ok a ↔ o = Some a.
Proof. destruct o; simpl; split; congruence. Qed.

Lemma ok_or_Panic {E A} (o : option A) (e : E) : ok_or o e ≠ Panic.
Proof. by destruct o. Qed.

Lemma expect_Ok {E A} (o : option A) (a : A) : expect (E:=E) o = Ok a ↔ o = Some a.
Proof. destruct o; simpl; split; congruence. Qed.

Lemma expect_Panic {E A} (o : option A) : expect (E:=E) o = Panic ↔ o = None.
Proof. destruct o; simpl; split; congruence. Qed.

Lemma reject_if_Ok {E} b (e : E) u : reject_if b e = Ok u ↔ b = false.
Proof. destruct b, u; simpl; split; congruence. Qed.

Lemma reject_if_Panic {E} b (e : E) : reject_if b e ≠ Panic.
Proof. by destruct b. Qed.

Lemma map_err_Ok {E F A} (f : E → F) (c : outcome E A) a : map_err f c = Ok a ↔ c = Ok a.
Proof. destruct c; simpl; split; congruence. Qed.

Lemma map_err_Panic {E F A} (f : E → F) (c : outcome E A) : map_err f c = Panic ↔ c = Panic.
Proof. destruct c; simpl; split; congruence. Qed.

Lemma omap_ok_Ok {E A B} (f : A → B) (c : outcome E A) b :
  omap_ok f c = Ok b ↔ ∃ a, c = Ok a ∧ b = f a.
Proof. unfold omap_ok. rewrite obind_Ok. naive_solver. Qed.

Lemma omap_ok_Panic {E A B} (f : A → B) (c : outcome E A) :
  omap_ok f c = Panic ↔ c = Panic.
Proof. by destruct c. Qed.

(** [iter().map(f).collect::<Result<Vec<_>, _>>()]: left to right, the first
    failure wins. *)
Fixpoint traverse {E A B : Type} (f : A → outcome E B) (l : list A) : outcome E (list B) :=
  match l with
  | [] => Ok []
  | x :: l =>
      let? y := f x in
      let? ys := traverse f l in
      Ok (y :: ys)
  end.

(** A [for] loop whose body may return early, threading the state it mutates. *)
Fixpoint for_each {E A S : Type} (body : A → S → outcome E S) (l : list A) (s : S) : outcome E S :=
  match l with
  | [] => Ok s
  | x :: l =>
      let? s' := body x s in
      for_each body l s'
  end.

(** [for x in l { if f(x)? { return Ok(true) } } Ok(false)] *)
Fixpoint any_ok {E A : Type} (f : A → outcome E bool) (l : list A) : outcome E bool :=
  match l with
  | [] => Ok false
  | x :: l =>
      let? b := f x in
      if (b : bool) then Ok true else any_ok f l
  end.

Lemma any_ok_ext {E A} (f g : A → outcome E bool) l :
  (∀ x, x ∈ l → f x = g x) → any_ok f l = any_ok g l.
Proof.
  induction l as [|x l IH]; intros H; simpl; [done|].
  rewrite (H x) by set_solver. destruct (g x) as [[]| |]; simpl; try done.
  apply IH. intros y Hy. apply H. set_solver.
Qed.

Lemma any_ok_no_panic {E A} (f : A → outcome E bool) l :
  (∀ x, x ∈ l → f x ≠ Panic) → any_ok f l ≠ Panic.
Proof.
  induction l as [|x l IH]; intros H; simpl; [done|].
  pose proof (H x ltac:(set_solver)). destruct (f x) as [[]| |]; simpl; try done.
  apply IH. intros y Hy. apply H. set_solver.
Qed.

Lemma traverse_Ok {E A B} (f : A → outcome E B) l k :
  traverse f l = Ok k ↔ Forall2 (λ x y, f x = Ok y) l k.
Proof.
  revert k; induction l as [|x l IH]; intros k; simpl.
  - split; [intros [= <-]; constructor | by inversion 1].
  - rewrite obind_Ok. split.
    + intros (y & Hy & H). apply obind_Ok in H as (ys & Hys & [= <-]).
      constructor; [done | by apply IH].
    + inversion 1 as [|? y ? ys Hy Hys]; subst. exists y; split; [done|].
      apply obind_Ok. exists ys; split; [by apply IH | done].
Qed.

Lemma traverse_Panic {E A B} (f : A → outcome E B) l :
  traverse f l = Panic → ∃ x, x ∈ l ∧ f x = Panic.
Proof.
  induction l as [|x l IH]; simpl; [done|].
  rewrite obind_Panic. intros [H | (y & _ & H)].
  - exists x; split; [set_solver | done].
  - apply obind_Panic in H as [H | (? & _ & ?)]; [|done].
    destruct (IH H) as (z & ? & ?); exists z; set_solver.
Qed.

Lemma traverse_no_panic {E A B} (f : A → outcome E B) l :
  (∀ x, x ∈ l → f x ≠ Panic) → traverse f l ≠ Panic.
Proof. intros H Hp. destruct (traverse_Panic f l Hp) as (x & ? & ?). by eapply H. Qed.

Lemma traverse_length {E A B} (f : A → outcome E B) l k :
  traverse f l = Ok k → length k = length l.
Proof. intros H%traverse_Ok. symmetry. by eapply Forall2_length. Qed.

Lemma traverse_ext {E A B} (f g : A → outcome E B) l :
  (∀ x, x ∈ l → f x = g x) → traverse f l = traverse g l.
Proof.
  induction l as [|x l IH]; intros H; simpl; [done|].
  rewrite (H x) by set_solver. rewrite IH; [done|].
  intros y Hy. apply H. set_solver.
Qed.

Lemma for_each_app {E A S} (body : A → S → outcome E S) l1 l2 s :
  for_each body (l1 ++ l2) s = obind (for_each body l1 s) (for_each body l2).
Proof.
  revert s; induction l1 as [|x l IH]; intros s; simpl; [done|].
  destruct (body x s); simpl; auto.
Qed.

(** Loop rule: an invariant that every iteration keeps holds at the exit. *)
Lemma for_each_inv {E A S} (body : A → S → outcome E S) (I : list A → S → Prop) l s s' :
  I [] s →
  (∀ done_ x rest s s', l = done_ ++ x :: rest → I done_ s → body x s = Ok s' →
     I (done_ ++ [x]) s') →
  for_each body l s = Ok s' → I l s'.
Proof.
  intros H0 Hstep.
  enough (∀ l2 done_ s, l = done_ ++ l2 → I done_ s → for_each body l2 s = Ok s' → I l s') as Hgo.
  { by apply (Hgo l []). }
  clear H0 s. induction l2 as [|x l2 IH]; intros done_ s Hl HI; simpl.
  - intros [= <-]. by rewrite app_nil_r in Hl; subst.
  - intros (s1 & H1 & H2)%obind_Ok.
    eapply (IH (done_ ++ [x])); [by rewrite <-app_assoc | | done].
    by eapply Hstep.
Qed.

Lemma for_each_inv_simple {E A S} (body : A → S → outcome E S) (I : S → Prop) l s s' :
  I s →
  (∀ x s s', x ∈ l → I s → body x s = Ok s' → I s') →
  for_each body l s = Ok s' → I s'.
Proof.
  intros H0 Hstep H. refine (for_each_inv body (λ _, I) l s s' H0 _ H).
  intros d x rest s1 s2 -> HI Hb. eapply Hstep; [|done..]. set_solver.
Qed.

(** A loop panics only in an iteration, from a state the earlier ones reached. *)
Lemma for_each_no_panic {E A S} (body : A → S → outcome E S) (I : S → Prop) l s :
  I s →
  (∀ x s, x ∈ l → I s → body x s ≠ Panic) →
  (∀ x s s', x ∈ l → I s → body x s = Ok s' → I s') →
  for_each body l s ≠ Panic.
Proof.
  revert s; induction l as [|x l IH]; intros s HI Hp Hs; simpl; [done|].
  rewrite obind_Panic. intros [H | (s1 & H1 & H2)].
  - by apply (Hp x s) in H; [| apply list_elem_of_here |].
  - revert H2. apply IH.
    + by eapply Hs; [apply list_elem_of_here | |].
    + intros y s2 Hy. apply Hp. by apply list_elem_of_further.
    + intros y s2 s3 Hy. apply Hs. by apply list_elem_of_further.
Qed.

Lemma forallb_false_elem {A} (f : A → bool) l :
  forallb f l = false ↔ ∃ x, x ∈ l ∧ f x = false.
Proof.
  induction l as [|y l IH]; simpl.
  - split; [done|]. by intros (x & ?%not_elem_of_nil & _).
  - rewrite andb_false_iff, IH. setoid_rewrite elem_of_cons. naive_solver.
Qed.

Lemma existsb_true_elem {A} (f : A → bool) l :
  existsb f l = true ↔ ∃ x, x ∈ l ∧ f x = true.
Proof. rewrite existsb_exists. by setoid_rewrite list_elem_of_In. Qed.

Lemma existsb_false_elem {A} (f : A → bool) l :
  existsb f l = false ↔ ∀ x, x ∈ l → f x = false.
Proof.
  induction l as [|y l IH]; simpl.
  - split; [|done]. by intros _ x ?%not_elem_of_nil.
  - rewrite orb_false_iff, IH. setoid_rewrite elem_of_cons. naive_solver.
Qed.

(** A loop that pushes the result of each iteration is a [traverse]. *)
Lemma for_each_traverse {E A B} (f : A → outcome E B) l acc :
  for_each (λ x acc, obind (f x) (λ y, Ok (acc ++ [y]))) l acc =
  omap_ok (app acc) (traverse f l).
Proof.
  unfold omap_ok. revert acc; induction l as [|x l IH]; intros acc; simpl.
  - by rewrite app_nil_r.
  - destruct (f x) as [y| |]; simpl; [|done..]. rewrite IH.
    destruct (traverse f l); simpl; [|done..]. by rewrite <-app_assoc.
Qed.

(** [l.iter().enumerate()], counting from [n]. *)
Fixpoint enumerate_from {A : Type} (n : nat) (l : list A) : list (nat * A) :=
  match l with
  | [] => []
  | x :: l => (n, x) :: enumerate_from (S n) l
  end.

Notation enumerate := (enumerate_from 0).

Lemma enumerate_from_snd {A} n (l : list A) : (enumerate_from n l).*2 = l.
Proof. revert n; induction l as [|x l IH]; intros n; simpl; [done|]. by rewrite IH. Qed.

Lemma elem_of_enumerate_from {A} n (l : list A) i x :
  (i, x) ∈ enumerate_from n l → n ≤ i ∧ l !! (i - n) = Some x.
Proof.
  revert n; induction l as [|y l IH]; intros n; simpl.
  - by intros ?%not_elem_of_nil.
  - rewrite elem_of_cons. intros [[= -> ->] | [H1 H2]%IH].
    + rewrite Nat.sub_diag. auto.
    + split; [lia|]. by replace (i - n) with (S (i - S n)) by lia.
Qed.

(** A loop that pushes one element per iteration and gives up beyond a limit. *)
Lemma for_each_push {E A B} (f : A → B) (limit : nat) (e : E) (l : list A) (acc : list B) :
  length acc ≤ limit →
  for_each (λ x acc, let acc := acc ++ [f x] in
              obind (reject_if (bool_decide (limit < length acc)) e) (λ _, Ok acc)) l acc =
  if decide (length acc + length l ≤ limit) then Ok (acc ++ (f <$> l)) else Err e.
Proof.
  revert acc; induction l as [|x l IH]; intros acc Hacc; cbn [for_each].
  - rewrite decide_True by (simpl; lia). by rewrite app_nil_r.
  - rewrite length_app. case_bool_decide as Hlt; simpl in *.
    + rewrite decide_False by lia. done.
    + rewrite IH by (rewrite length_app; simpl; lia). rewrite length_app. simpl.
      rewrite <-app_assoc. simpl.
      destruct (decide (_ ≤ _)), (decide (_ ≤ _)); (done || lia).
Qed.

(** [Option::is_some] and [is_empty] of a slice. *)
Definition is_some {A : Type} (o : option A) : bool :=
  match o with Some _ => true | None => false end.

Definition is_nil {A : Type} (l : list A) : bool := match l with [] => true | _ => false end.

(** ** Specifications

    [outcome_spec c P Q]: the call does not panic, [P] holds of what it returns
    and [Q] of the error it fails with. *)

Definition outcome_spec {E A : Type} (c : outcome E A) (P : A → Prop) (Q : E → Prop) : Prop :=
  match c with
  | Ok a => P a
  | Err e => Q e
  | Panic => False
  end.

Lemma outcome_spec_mono {E A} (c : outcome E A) (P P' : A → Prop) (Q Q' : E → Prop) :
  outcome_spec c P Q → (∀ a, P a → P' a) → (∀ e, Q e → Q' e) → outcome_spec c P' Q'.
Proof. destruct c; simpl; auto. Qed.

Lemma outcome_spec_bind {E A B} (c : outcome E A) (k : A → outcome E B) (P : B → Prop) (Q : E → Prop) :
  outcome_spec c (λ a, outcome_spec (k a) P Q) Q → outcome_spec (obind c k) P Q.
Proof. by destruct c. Qed.

Lemma outcome_spec_for_each {E A S} (body : A → S → outcome E S) (I : list A → S → Prop)
    (Q : E → Prop) l s :
  I [] s →
  (∀ done_ x rest s, l = done_ ++ x :: rest → I done_ s →
     outcome_spec (body x s) (λ s', I (done_ ++ [x]) s') Q) →
  outcome_spec (for_each body l s) (λ s', I l s') Q.
Proof.
  intros H0 Hstep.
  enough (∀ l2 done_ s, l = done_ ++ l2 → I done_ s →
    outcome_spec (for_each body l2 s) (λ s', I l s') Q) as Hgo.
  { by apply (Hgo l []). }
  clear H0 s. induction l2 as [|x l2 IH]; intros done_ s Hl HI; simpl.
  - by rewrite app_nil_r in Hl; subst.
  - apply outcome_spec_bind. specialize (Hstep done_ x l2 s Hl HI).
    destruct (body x s); simpl in *; auto.
    apply (IH (done_ ++ [x])); [by rewrite <-app_assoc | done].
Qed.

Lemma outcome_spec_no_panic {E A} (c : outcome E A) P Q : outcome_spec c P Q → c ≠ Panic.
Proof. by destruct c. Qed.

(** [ok_inv]: turn every hypothesis [c = Ok a] whose left-hand side is built
    from the combinators above into the facts it says. *)
Ltac ok_inv1 :=
  match goal with
  | H : obind _ _ = Ok _ |- _ =>
      let x := fresh "x" in let H1 := fresh "H" in let H2 := fresh "H" in
      apply obind_Ok in H; destruct H as (x & H1 & H2); simpl in H2
  | H : omap_ok _ _ = Ok _ |- _ =>
      let x := fresh "x" in let H1 := fresh "H" in
      apply omap_ok_Ok in H; destruct H as (x & H1 & ?)
  | H : ok_or _ _ = Ok _ |- _ => apply ok_or_Ok in H
  | H : expect _ = Ok _ |- _ => apply expect_Ok in H
  | H : reject_if _ _ = Ok _ |- _ => apply reject_if_Ok in H
  | H : map_err _ _ = Ok _ |- _ => apply map_err_Ok in H
  | H : Err _ = Ok _ |- _ => discriminate H
  | H : Panic = Ok _ |- _ => discriminate H
  | H : Ok _ = Ok _ |- _ => injection H; clear H; intros; subst
  end.
Ltac ok_inv := repeat ok_inv1.

(** Case analysis on the innermost [match]/[if] that a hypothesis or the goal
    is stuck on. *)
Ltac case_match_hyp H :=
  match type of H with
  | context [ match ?x with _ => _ end ] =>
      lazymatch x with
      | context [ match _ with _ => _ end ] => fail
      | _ => let E := fresh "E" in destruct x eqn:E; simplify_eq/=
      end
  end.

(** ** Field assignment

    [r <| field := v |>] is [r.field = v] on a record whose eta expansion is
    declared as an instance of [Updatable]; the update rebuilds the record from
    its projections, so reading any field back computes. *)

Class Updatable (R : Type) := eta_record : R → R.
Class Setter {R T : Type} (proj : R → T) := set_field : (T → T) → R → R.

Ltac solve_setter :=
  match goal with
  | |- @Setter ?R ?T ?proj =>
      let f := fresh "f" in
      let r := fresh "r" in
      intros f r;
      let e := eval hnf in (@eta_record R _ r) in
      let p := eval pattern (proj r) in e in
      match p with
      | ?g _ => let b := eval cbv beta in (g (f (proj r))) in exact b
      end
  end.

#[export] Hint Extern 1 (Setter _) => solve_setter : typeclass_instances.

Notation "r '<|' proj ':=' v '|>'" := (set_field (proj:=proj) (λ _, v) r)
  (at level 12, left associativity, proj constr, v constr at level 200) : rust_scope.

(** Unfold the updates of a goal down to its records. *)
Ltac unfold_updates := cbv [set_field] in *; cbn in *.
