(* ===== verification/RustStr.v ===== *)
(** * Rust strings

    A Rust [String]/[&str] is its UTF-8 bytes, a [string] here.  A [char] is the
    [string] of its encoding, so [character.to_string()] is the identity.  The
    operations below are those of [std] the sources call, on bytes; the ones
    that look at characters ([chars], [trim], [is_char_boundary]) decode them. *)

From S2P Require Import Prelude.

(** ** Bytes *)

Definition byte_in (lo hi : N) (c : ascii) : bool :=
  bool_decide (lo ≤ N_of_ascii c)%N && bool_decide (N_of_ascii c ≤ hi)%N.

Definition is_ascii_upper (c : ascii) : bool := byte_in 65 90 c.
Definition is_ascii_lower (c : ascii) : bool := byte_in 97 122 c.
Definition is_ascii_alphabetic (c : ascii) : bool := is_ascii_upper c || is_ascii_lower c.
Definition is_ascii_digit (c : ascii) : bool := byte_in 48 57 c.
Definition is_ascii_alphanumeric (c : ascii) : bool := is_ascii_alphabetic c || is_ascii_digit c.
Definition is_ascii_hexdigit (c : ascii) : bool :=
  is_ascii_digit c || byte_in 65 70 c || byte_in 97 102 c.

Definition ascii_lower (c : ascii) : ascii :=
  if is_ascii_upper c then ascii_of_N (N_of_ascii c + 32) else c.

(** A byte that does not start a character: 0b10xx_xxxx. *)
Definition is_continuation (c : ascii) : bool := byte_in 128 191 c.

(** ** Whole strings *)

Fixpoint string_map (f : ascii → ascii) (s : string) : string :=
  match s with
  | String c s => String (f c) (string_map f s)
  | EmptyString => EmptyString
  end.

Fixpoint string_forall (p : ascii → bool) (s : string) : bool :=
  match s with
  | String c s => p c && string_forall p s
  | EmptyString => true
  end.

Fixpoint string_filter (p : ascii → bool) (s : string) : string :=
  match s with
  | String c s => if p c then String c (string_filter p s) else string_filter p s
  | EmptyString => EmptyString
  end.

Definition slen (s : string) : nat := String.length s.
#[global] Arguments slen : simpl never.

Fixpoint stake (n : nat) (s : string) : string :=
  match n, s with
  | S n, String c s => String c (stake n s)
  | _, _ => EmptyString
  end.

Fixpoint sdrop (n : nat) (s : string) : string :=
  match n, s with
  | 0, _ => s
  | S n, String _ s => sdrop n s
  | S _, EmptyString => EmptyString
  end.

Fixpoint srev_append (s acc : string) : string :=
  match s with
  | String c s => srev_append s (String c acc)
  | EmptyString => acc
  end.
Definition srev (s : string) : string := srev_append s "".

Definition sbyte (s : string) (i : nat) : option ascii := String.get i s.

Definition is_empty (s : string) : bool :=
  match s with EmptyString => true | _ => false end.

Definition to_ascii_lowercase (s : string) : string := string_map ascii_lower s.

Definition eq_ignore_ascii_case (a b : string) : bool :=
  bool_decide (to_ascii_lowercase a = to_ascii_lowercase b).

(** ** Searching *)

Fixpoint strip_prefix (p s : string) : option string :=
  match p, s with
  | EmptyString, _ => Some s
  | String a p, String b s => if bool_decide (a = b) then strip_prefix p s else None
  | String _ _, EmptyString => None
  end.

Definition starts_with (p s : string) : bool :=
  match strip_prefix p s with Some _ => true | None => false end.

Definition strip_suffix (p s : string) : option string :=
  srev <$> strip_prefix (srev p) (srev s).

Definition ends_with (p s : string) : bool :=
  match strip_suffix p s with Some _ => true | None => false end.

(** Byte offset of the first occurrence. *)
Fixpoint sfind (p s : string) : option nat :=
  if starts_with p s then Some 0
  else match s with
       | String _ s => S <$> sfind p s
       | EmptyString => None
       end.

Definition contains (p s : string) : bool :=
  match sfind p s with Some _ => true | None => false end.

Fixpoint contains_byte (p : ascii → bool) (s : string) : bool :=
  match s with
  | String c s => p c || contains_byte p s
  | EmptyString => false
  end.

(** [split_once] and [rsplit_once] at a one-byte separator. *)
Fixpoint split_once (sep : ascii) (s : string) : option (string * string) :=
  match s with
  | String c s =>
      if bool_decide (c = sep) then Some (EmptyString, s)
      else '(a, b) ← split_once sep s; Some (String c a, b)
  | EmptyString => None
  end.

Definition rsplit_once (sep : ascii) (s : string) : option (string * string) :=
  '(a, b) ← split_once sep (srev s); Some (srev b, srev a).

(** [split(sep)]: at least one piece. *)
Fixpoint split (sep : ascii) (s : string) : list string :=
  match s with
  | String c s =>
      if bool_decide (c = sep) then EmptyString :: split sep s
      else match split sep s with
           | p :: ps => String c p :: ps
           | [] => [String c EmptyString]
           end
  | EmptyString => [EmptyString]
  end.

Fixpoint trim_start_matches (c : ascii) (s : string) : string :=
  match s with
  | String a r => if bool_decide (a = c) then trim_start_matches c r else s
  | EmptyString => EmptyString
  end.

(** [replace(c, d)] for single bytes. *)
Definition replace_byte (c d : ascii) (s : string) : string :=
  string_map (λ x, if bool_decide (x = c) then d else x) s.

Fixpoint sjoin (sep : string) (l : list string) : string :=
  match l with
  | [] => EmptyString
  | [s] => s
  | s :: l => s +:+ sep +:+ sjoin sep l
  end.

Definition sconcat (l : list string) : string := foldr (λ a b, a +:+ b) "" l.

(** ** Characters *)

Definition lf : ascii := "010"%char.
Definition cr : ascii := "013"%char.
Definition nul : ascii := "000"%char.

(** Encodings of the characters with the Unicode White_Space property. *)
Definition ws1 (a : ascii) : bool := byte_in 9 13 a || bool_decide (a = " "%char).
Definition ws2 (a b : ascii) : bool :=
  bool_decide (N_of_ascii a = 194%N) &&
  (bool_decide (N_of_ascii b = 133%N) || bool_decide (N_of_ascii b = 160%N)).
Definition ws3 (a b c : ascii) : bool :=
  let x := N_of_ascii a in let y := N_of_ascii b in let z := N_of_ascii c in
  bool_decide ((x, y, z) = (225, 154, 128)%N) ||
  bool_decide ((x, y) = (226, 128)%N) &&
    (byte_in 128 138 c || byte_in 168 169 c || bool_decide (z = 175%N)) ||
  bool_decide ((x, y, z) = (226, 129, 159)%N) ||
  bool_decide ((x, y, z) = (227, 128, 128)%N).

Fixpoint trim_start (s : string) : string :=
  match s with
  | String a r1 =>
      if ws1 a then trim_start r1 else
      match r1 with
      | String b r2 =>
          if ws2 a b then trim_start r2 else
          match r2 with
          | String c r3 => if ws3 a b c then trim_start r3 else s
          | EmptyString => s
          end
      | EmptyString => s
      end
  | EmptyString => EmptyString
  end.

(** The same, on a reversed string. *)
Fixpoint trim_start_rev (s : string) : string :=
  match s with
  | String a r1 =>
      if ws1 a then trim_start_rev r1 else
      match r1 with
      | String b r2 =>
          if ws2 b a then trim_start_rev r2 else
          match r2 with
          | String c r3 => if ws3 c b a then trim_start_rev r3 else s
          | EmptyString => s
          end
      | EmptyString => s
      end
  | EmptyString => EmptyString
  end.

Definition trim_end (s : string) : string := srev (trim_start_rev (srev s)).
Definition trim (s : string) : string := trim_end (trim_start s).

(** The characters, each as its encoding; the length of one is read off its
    first byte, as the decoder of [std] does. *)
Fixpoint chars (s : string) : list string :=
  match s with
  | EmptyString => []
  | String a r1 =>
      match r1 with
      | String b r2 =>
          if byte_in 192 223 a then String a (String b "") :: chars r2 else
          match r2 with
          | String c r3 =>
              if byte_in 224 239 a then String a (String b (String c "")) :: chars r3 else
              match r3 with
              | String d r4 =>
                  if byte_in 240 247 a
                  then String a (String b (String c (String d ""))) :: chars r4
                  else String a "" :: chars r1
              | EmptyString => String a "" :: chars r1
              end
          | EmptyString => String a "" :: chars r1
          end
      | EmptyString => String a "" :: chars r1
      end
  end.

(** [str::is_char_boundary]. *)
Definition is_char_boundary (s : string) (i : nat) : bool :=
  match i with
  | 0 => true
  | _ => match sbyte s i with
         | Some c => negb (is_continuation c)
         | None => bool_decide (i = slen s)
         end
  end.

(** [while !value.is_char_boundary(boundary) { boundary -= 1 }] *)
Fixpoint floor_char_boundary (s : string) (i : nat) : nat :=
  if is_char_boundary s i then i
  else match i with
       | S j => floor_char_boundary s j
       | 0 => 0
       end.

(** A one-character string that is an ASCII byte satisfying [p]. *)
Definition char_ascii (p : ascii → bool) (c : string) : bool :=
  match c with
  | String a EmptyString => p a
  | _ => false
  end.

(** ** Decimal digits: [str::parse::<usize>] and [u64] read an optional [+] and
    at least one digit, and fail on overflow. *)

Definition digit_value (c : ascii) : Z := Z.of_N (N_of_ascii c) - 48.

Fixpoint parse_digits (max acc : Z) (s : string) : option Z :=
  match s with
  | EmptyString => Some acc
  | String c s =>
      if is_ascii_digit c then
        let acc := (acc * 10 + digit_value c)%Z in
        if bool_decide (acc ≤ max)%Z then parse_digits max acc s else None
      else None
  end.

Definition parse_unsigned (max : Z) (s : string) : option Z :=
  let digits := match s with
                | String "+" r => r
                | _ => s
                end in
  match digits with
  | EmptyString => None
  | _ => parse_digits max 0 digits
  end.

Definition u64_max : Z := 2 ^ 64 - 1.
Definition usize_max : Z := 2 ^ 64 - 1.
Definition u32_max : Z := 2 ^ 32 - 1.

Definition saturating_add (a b : Z) : Z := Z.min (a + b) u64_max.
Definition saturating_sub (a b : Z) : Z := Z.max (a - b) 0.

(** ** Lemmas *)

Lemma sapp_nil_l s : "" +:+ s = s.
Proof. done. Qed.

Lemma sapp_cons c a b : String c a +:+ b = String c (a +:+ b).
Proof. done. Qed.

Lemma slen_app a b : slen (a +:+ b) = slen a + slen b.
Proof. induction a as [|c a IH]; [done|]. change (S (slen (a +:+ b)) = S (slen a + slen b)). by rewrite IH. Qed.

Lemma sapp_nil_r s : s +:+ "" = s.
Proof. induction s as [|c s IH]; [done|]. change (String c (s +:+ "") = String c s). by rewrite IH. Qed.

Lemma sapp_assoc a b c : (a +:+ b) +:+ c = a +:+ (b +:+ c).
Proof. induction a as [|x a IH]; [done|]. change (String x ((a +:+ b) +:+ c) = String x (a +:+ b +:+ c)). by rewrite IH. Qed.

Lemma slen_sdrop n s : slen (sdrop n s) = slen s - n.
Proof. revert s; induction n; intros [|c s]; simpl; unfold slen in *; simpl; auto. Qed.

Lemma slen_stake n s : slen (stake n s) = n `min` slen s.
Proof. revert s; induction n; intros [|c s]; simpl; unfold slen in *; simpl; auto. Qed.

Lemma stake_sdrop n s : stake n s +:+ sdrop n s = s.
Proof.
  revert s; induction n as [|n IH]; intros [|c s]; simpl; rewrite ?sapp_nil_l, ?sapp_cons, ?IH; done.
Qed.

Lemma sdrop_sdrop n m s : sdrop n (sdrop m s) = sdrop (m + n) s.
Proof. revert s; induction m; intros [|c s]; simpl; auto. by destruct n. Qed.

Lemma sdrop_app_exact a b : sdrop (slen a) (a +:+ b) = b.
Proof. induction a as [|c a IH]; [done | apply IH]. Qed.

Lemma stake_app_exact a b : stake (slen a) (a +:+ b) = a.
Proof. induction a as [|c a IH]; [by destruct b|]. unfold slen in *. simpl. by rewrite IH. Qed.

Lemma sdrop_ge n s : slen s ≤ n → sdrop n s = "".
Proof. revert s; induction n; intros [|c s]; unfold slen in *; simpl; intros; try lia; auto with lia. Qed.

Lemma stake_ge n s : slen s ≤ n → stake n s = s.
Proof.
  revert s; induction n; intros [|c s]; unfold slen in *; simpl; intros; try lia; auto.
  rewrite IHn; auto with lia.
Qed.

Lemma slen_zero s : slen s = 0 → s = "".
Proof. by destruct s. Qed.

Lemma slen_string c s : slen (String c s) = S (slen s).
Proof. done. Qed.

Lemma sapp_inv_head a b c : a +:+ b = a +:+ c → b = c.
Proof. induction a as [|x a IH]; [done|]. intros [= ?]. auto. Qed.

Lemma sapp_inv_tail a b c : a +:+ c = b +:+ c → a = b.
Proof.
  revert b; induction a as [|x a IH]; intros [|y b] H; [done| | |].
  - apply (f_equal slen) in H. rewrite !slen_app, slen_string in H. simpl in H. unfold slen in H. simpl in H. lia.
  - apply (f_equal slen) in H. rewrite !slen_app, slen_string in H. simpl in H. unfold slen in H. simpl in H. lia.
  - injection H as -> H. f_equal. auto.
Qed.

Lemma strip_prefix_Some p s r : strip_prefix p s = Some r ↔ s = p +:+ r.
Proof.
  revert s; induction p as [|a p IH]; intros s; simpl.
  { rewrite sapp_nil_l. naive_solver. }
  rewrite sapp_cons. destruct s as [|b s]; [done|].
  case_bool_decide; subst; rewrite ?IH; naive_solver.
Qed.

Lemma starts_with_true p s : starts_with p s = true ↔ ∃ r, s = p +:+ r.
Proof.
  unfold starts_with. destruct (strip_prefix p s) eqn:E.
  - apply strip_prefix_Some in E. naive_solver.
  - split; [done|]. intros [r Hr%strip_prefix_Some]. congruence.
Qed.

Lemma starts_with_len p s : starts_with p s = true → slen p ≤ slen s.
Proof. intros [r ->]%starts_with_true. rewrite slen_app. lia. Qed.

Lemma starts_with_app p r : starts_with p (p +:+ r) = true.
Proof. apply starts_with_true; eauto. Qed.

Lemma sfind_bound p s i : sfind p s = Some i → i + slen p ≤ slen s.
Proof.
  revert i; induction s as [|c s IH]; intros i; simpl;
    destruct (starts_with p _) eqn:E.
  - intros [= <-]. by apply starts_with_len in E.
  - done.
  - intros [= <-]. apply starts_with_len in E. done.
  - destruct (sfind p s); [|done]. intros [= <-]. rewrite slen_string.
    specialize (IH _ eq_refl). lia.
Qed.

(** What [sfind] finds: an occurrence. *)
Lemma sfind_occurrence p s i :
  sfind p s = Some i → s = stake i s +:+ p +:+ sdrop (i + slen p) s.
Proof.
  revert i; induction s as [|c s IH]; intros i; simpl;
    destruct (starts_with p _) eqn:E; try done.
  - intros [= <-]. apply starts_with_true in E as [r Hr].
    simpl. rewrite sapp_nil_l. rewrite Hr at 2. by rewrite sdrop_app_exact.
  - intros [= <-]. apply starts_with_true in E as [r Hr].
    cbn [stake]. rewrite sapp_nil_l. cbn [Nat.add]. rewrite Hr at 2. by rewrite sdrop_app_exact.
  - destruct (sfind p s) as [j|]; [|done]. intros [= <-]. simpl.
    rewrite sapp_cons. f_equal. by apply IH.
Qed.

Lemma sfind_starts p s : starts_with p s = true → sfind p s = Some 0.
Proof. intros H. destruct s; simpl; by rewrite H. Qed.

Lemma contains_spec p s : contains p s = true ↔ ∃ a b, s = a +:+ p +:+ b.
Proof.
  unfold contains. split.
  - destruct (sfind p s) as [i|] eqn:E; [|done]. intros _.
    apply sfind_occurrence in E. eauto.
  - intros (a & b & ->). induction a as [|c a IH].
    + rewrite sapp_nil_l, sfind_starts; [done | apply starts_with_app].
    + rewrite sapp_cons. simpl. destruct (starts_with p _); [done|].
      by destruct (sfind p (a +:+ p +:+ b)).
Qed.

(** Case folding. *)
Lemma to_ascii_lowercase_app a b :
  to_ascii_lowercase (a +:+ b) = to_ascii_lowercase a +:+ to_ascii_lowercase b.
Proof.
  unfold to_ascii_lowercase. induction a as [|c a IH]; [done|].
  rewrite sapp_cons. simpl. by rewrite IH, sapp_cons.
Qed.

Lemma ascii_lower_idemp c : ascii_lower (ascii_lower c) = ascii_lower c.
Proof. destruct c as [[] [] [] [] [] [] [] []]; reflexivity. Qed.

Lemma to_ascii_lowercase_idemp s :
  to_ascii_lowercase (to_ascii_lowercase s) = to_ascii_lowercase s.
Proof.
  unfold to_ascii_lowercase. induction s; simpl; [done|]. by rewrite ascii_lower_idemp, IHs.
Qed.

Lemma slen_string_map f s : slen (string_map f s) = slen s.
Proof. unfold slen. induction s; simpl; auto. Qed.

(** Boundaries. *)
Lemma floor_char_boundary_le s i : floor_char_boundary s i ≤ i.
Proof.
  induction i as [|i IH]; [done|].
  cbn [floor_char_boundary]. destruct (is_char_boundary s (S i)); lia.
Qed.

Lemma floor_char_boundary_ok s i : is_char_boundary s (floor_char_boundary s i) = true.
Proof.
  induction i as [|i IH]; [done|].
  cbn [floor_char_boundary]. destruct (is_char_boundary s (S i)) eqn:E; [done | apply IH].
Qed.

Lemma sbyte_app_r a b : sbyte (a +:+ b) (slen a) = sbyte b 0.
Proof. unfold sbyte, slen. induction a as [|c a IH]; [done|]. apply IH. Qed.

Lemma is_char_boundary_app a b :
  match b with EmptyString => True | String c _ => is_continuation c = false end →
  is_char_boundary (a +:+ b) (slen a) = true.
Proof.
  intros Hb. unfold is_char_boundary. destruct (slen a) as [|n] eqn:E; [done|].
  rewrite <-E, sbyte_app_r. destruct b as [|c b]; simpl.
  - by rewrite sapp_nil_r, bool_decide_true.
  - by rewrite Hb.
Qed.

(** Decimal numbers stay in range. *)
Lemma parse_digits_range max acc s n :
  (0 ≤ acc ≤ max)%Z → parse_digits max acc s = Some n → (0 ≤ n ≤ max)%Z.
Proof.
  revert acc; induction s as [|c s IH]; intros acc Hacc; simpl; [by intros [= <-]|].
  destruct (is_ascii_digit c) eqn:Hd; [|done].
  case_bool_decide as Hle; [|done]. apply IH. split; [|done].
  unfold is_ascii_digit, byte_in in Hd. apply andb_prop in Hd as [H1 _].
  apply bool_decide_eq_true in H1. unfold digit_value. lia.
Qed.

Lemma parse_unsigned_range max s n :
  (0 ≤ max)%Z → parse_unsigned max s = Some n → (0 ≤ n ≤ max)%Z.
Proof.
  intros Hmax. unfold parse_unsigned.
  destruct (match s with String "+" r => r | _ => s end) eqn:E; [done|].
  intros H. by eapply parse_digits_range in H; [|lia].
Qed.

Create HintDb ruststr.
#[export] Hint Rewrite slen_app slen_sdrop slen_stake slen_string slen_string_map : ruststr.
