(* ===== verification/UnixPath.v ===== *)
(** * [std::path] on Unix

    A path is its bytes; its components are what the library compares and what
    the sources walk over. *)

From S2P Require Import Prelude RustStr.

Inductive Component := RootDir | CurDir | ParentDir | Normal (name : string).

#[export] Instance Component_eq_dec : EqDecision Component.
Proof. solve_decision. Defined.

(** [Path::components]: empty components and inner dots are skipped. *)
Definition part_components (absolute : bool) (entry : nat * string) : list Component :=
  let '(index, part) := entry in
  if is_empty part then []
  else if bool_decide (part = ".") then
    if bool_decide (index = 0) && negb absolute then [CurDir] else []
  else if bool_decide (part = "..") then [ParentDir]
  else [Normal part].

Definition is_absolute (path : string) : bool := starts_with "/" path.

Definition components (path : string) : list Component :=
  (if is_absolute path then [RootDir] else []) ++
  (enumerate (split "/" path) ≫= part_components (is_absolute path)).

(** [Path::parent], as components; [Path] equality compares components. *)
Definition parent (path : string) : option (list Component) :=
  match last (components path) with
  | None | Some RootDir => None
  | Some _ => Some (removelast (components path))
  end.

Definition file_name (path : string) : option string :=
  match last (components path) with Some (Normal name) => Some name | _ => None end.

Definition extension (path : string) : option string :=
  name ← file_name path;
  '(before, after) ← rsplit_once "." name;
  if is_empty before then None else Some after.

(** [Path::join]: an absolute path replaces the base. *)
Definition join (base path : string) : string :=
  if is_absolute path then path
  else if is_empty base || ends_with "/" base then base +:+ path
  else base +:+ "/" +:+ path.

(** [Path::strip_prefix] and [Path::starts_with] compare whole components. *)
Fixpoint strip_components (prefix path : list Component) : option (list Component) :=
  match prefix, path with
  | [], _ => Some path
  | p :: prefix, c :: path => if bool_decide (p = c) then strip_components prefix path else None
  | _ :: _, [] => None
  end.

Definition path_starts_with (path base : string) : bool :=
  match strip_components (components base) (components path) with Some _ => true | None => false end.

Lemma strip_components_Some prefix path rest :
  strip_components prefix path = Some rest ↔ path = prefix ++ rest.
Proof.
  revert path; induction prefix as [|p prefix IH]; intros path; simpl; [naive_solver|].
  destruct path as [|c path]; [naive_solver|]. case_bool_decide; subst; rewrite ?IH; naive_solver.
Qed.

(** [str::from_utf8]: well-formed byte sequences (the table of RFC 3629). *)
Fixpoint valid_utf8 (s : string) : bool :=
  let cont := byte_in 128 191 in
  match s with
  | EmptyString => true
  | String a s1 =>
      if byte_in 0 127 a then valid_utf8 s1 else
      match s1 with
      | EmptyString => false
      | String b s2 =>
          if byte_in 194 223 a then cont b && valid_utf8 s2 else
          match s2 with
          | EmptyString => false
          | String c s3 =>
              if byte_in 224 224 a then byte_in 160 191 b && cont c && valid_utf8 s3
              else if byte_in 237 237 a then byte_in 128 159 b && cont c && valid_utf8 s3
              else if byte_in 225 239 a then cont b && cont c && valid_utf8 s3 else
              match s3 with
              | EmptyString => false
              | String d s4 =>
                  if byte_in 240 240 a then byte_in 144 191 b && cont c && cont d && valid_utf8 s4
                  else if byte_in 241 243 a then cont b && cont c && cont d && valid_utf8 s4
                  else if byte_in 244 244 a then byte_in 128 143 b && cont c && cont d && valid_utf8 s4
                  else false
              end
          end
      end
  end.

(** [Path::to_str] *)
Definition to_str (path : string) : option string := if valid_utf8 path then Some path else None.

(** A path with these components; the root is written once. *)
Definition component_str (component : Component) : string :=
  match component with RootDir => "" | CurDir => "." | ParentDir => ".." | Normal name => name end.

Definition path_of (components : list Component) : string :=
  match components with
  | [RootDir] => "/"
  | _ => sjoin "/" (component_str <$> components)
  end.
