(* ===== verification/OrdMap.v ===== *)
(** * Ordered maps and sets

    [BTreeMap<String, V>] is a [gmap string V], [BTreeSet<String>] a
    [gset string]; what the ordered containers add is that iteration follows
    the byte order of the keys.  An [IndexMap] is the list of its entries in
    insertion order. *)

From S2P Require Import Prelude RustStr.

Definition string_le (a b : string) : Prop := String.leb a b = true.

Lemma string_le_antisym : AntiSymm (=) string_le.
Proof.
  intros a b Hab Hba. unfold string_le, String.leb in *.
  destruct (a ?= b)%string eqn:E; [by apply String.compare_eq_iff | | done].
  rewrite String.compare_antisym, E in Hba. done.
Qed.

Lemma string_le_cons c d a b :
  string_le (String c a) (String d b) ↔ (N_of_ascii c < N_of_ascii d)%N ∨ c = d ∧ string_le a b.
Proof.
  unfold string_le, String.leb. cbn [String.compare]. unfold Ascii.compare.
  destruct (N.compare_spec (N_of_ascii c) (N_of_ascii d)) as [He|Hl|Hg].
  - assert (c = d) as -> by (by rewrite <-(ascii_N_embedding c), He, ascii_N_embedding). split; [by right | by intros [?%N.lt_irrefl|[_ ?]]].
  - split; [by left | done].
  - split; [done|]. intros [Hl|[-> _]]; [exfalso; lia | exfalso; lia].
Qed.

Lemma string_le_trans : Transitive string_le.
Proof.
  intros a. induction a as [|c a IH]; intros b k Hab Hbk; [by destruct k|].
  destruct b as [|d b]; [done|]. destruct k as [|e k]; [done|].
  apply string_le_cons in Hab, Hbk. apply string_le_cons.
  destruct Hab as [?|[-> ?]], Hbk as [?|[-> ?]]; [left; lia | by left.. | right; split; [done | by eapply IH]].
Qed.

#[export] Instance string_le_dec : RelDecision string_le.
Proof. intros a b. unfold string_le. apply _. Defined.

#[export] Instance string_le_total : Total string_le.
Proof.
  intros a b. unfold string_le.
  destruct (String.leb_total a b); auto.
Qed.

Section btree.
Context {V : Type}.
Implicit Types (m : gmap string V) (k : string) (v : V).

Definition entry_le (a b : string * V) : Prop := string_le a.1 b.1.

#[export] Instance entry_le_dec : RelDecision entry_le.
Proof. intros a b. unfold entry_le. apply _. Defined.

#[export] Instance entry_le_total : Total entry_le.
Proof. intros a b. unfold entry_le. apply total, _. Qed.

(** [iter()]: the entries by increasing key. *)
Definition btree_iter (m : gmap string V) : list (string * V) :=
  merge_sort entry_le (map_to_list m).

Definition btree_keys (m : gmap string V) : list string := (btree_iter m).*1.
Definition btree_values (m : gmap string V) : list V := (btree_iter m).*2.
Definition btree_is_empty (m : gmap string V) : bool := bool_decide (m = ∅).
Definition btree_contains (k : string) (m : gmap string V) : bool :=
  match m !! k with Some _ => true | None => false end.

Lemma elem_of_btree_iter m k v : (k, v) ∈ btree_iter m ↔ m !! k = Some v.
Proof. unfold btree_iter. rewrite merge_sort_Permutation. apply elem_of_map_to_list. Qed.

Lemma elem_of_btree_keys m k : k ∈ btree_keys m ↔ is_Some (m !! k).
Proof.
  unfold btree_keys. rewrite list_elem_of_fmap. split.
  - intros ([k' v] & -> & H%elem_of_btree_iter). eauto.
  - intros [v H%elem_of_btree_iter]. by exists (k, v).
Qed.

Lemma elem_of_btree_values m v : v ∈ btree_values m ↔ ∃ k, m !! k = Some v.
Proof.
  unfold btree_values. rewrite list_elem_of_fmap. split.
  - intros ([k v'] & -> & H%elem_of_btree_iter). eauto.
  - intros [k H%elem_of_btree_iter]. by exists (k, v).
Qed.

Lemma NoDup_btree_keys m : NoDup (btree_keys m).
Proof.
  unfold btree_keys, btree_iter. rewrite merge_sort_Permutation.
  apply NoDup_fst_map_to_list.
Qed.

Lemma btree_iter_sorted m : Sorted entry_le (btree_iter m).
Proof. apply Sorted_merge_sort, _. Qed.

(** The first entry that satisfies a predicate is the least one. *)
Lemma find_btree_iter_least (p : string * V → bool) m name value :
  find p (btree_iter m) = Some (name, value) ↔
  m !! name = Some value ∧ p (name, value) = true ∧
  ∀ other v, m !! other = Some v → p (other, v) = true → string_le name other.
Proof.
  assert (StronglySorted entry_le (btree_iter m)) as Hsorted.
  { apply Sorted_StronglySorted; [|apply btree_iter_sorted]. intros ???. apply string_le_trans. }
  rewrite <-elem_of_btree_iter.
  assert (∀ other v, m !! other = Some v ↔ (other, v) ∈ btree_iter m) as Hm by (intros; by rewrite elem_of_btree_iter).
  setoid_rewrite Hm. clear Hm. pose proof (NoDup_btree_keys m) as Hnd. unfold btree_keys in Hnd. revert Hsorted Hnd.
  generalize (btree_iter m). intros l Hsorted Hnd.
  induction l as [|[n v] l IH]; cbn [find].
  { split; [done|]. by intros [?%elem_of_nil _]. }
  inversion Hsorted as [|? ? Hs Hall]; subst. rewrite fmap_cons in Hnd. apply NoDup_cons in Hnd as [Hfresh Hnd].
  rewrite Forall_forall in Hall. destruct (p (n, v)) eqn:E.
  - split.
    + intros [= <- <-]. split; [by left|]. split; [done|]. intros other w [[= -> _]|Hin]%elem_of_cons _.
      * destruct (total string_le n n); done.
      * apply (Hall (other, w) Hin).
    + intros ([[= -> ->]|Hin]%elem_of_cons & Hp & Hleast); [done|]. exfalso.
      apply Hfresh. rewrite (string_le_antisym n name); [by apply (list_elem_of_fmap_2 fst _ (name, value))| |].
      * apply (Hall (name, value) Hin).
      * apply (Hleast n v); [by left | done].
  - rewrite IH by done. split.
    + intros (Hin & Hp & Hleast). split; [by right|]. split; [done|].
      intros other w [[= -> ->]|Hin']%elem_of_cons Hw; [congruence | by eapply Hleast].
    + intros ([[= -> ->]|Hin]%elem_of_cons & Hp & Hleast); [congruence|]. split; [done|]. split; [done|].
      intros other w Hin' Hw. eapply Hleast; [by right | done].
Qed.

Lemma btree_contains_true k m : btree_contains k m = true ↔ is_Some (m !! k).
Proof. unfold btree_contains, is_Some. destruct (m !! k); naive_solver. Qed.

Lemma btree_contains_false k m : btree_contains k m = false ↔ m !! k = None.
Proof. unfold btree_contains. by destruct (m !! k). Qed.
End btree.

(** [BTreeSet]: elements in increasing order. *)
Definition set_iter (X : gset string) : list string := merge_sort string_le (elements X).

Lemma elem_of_set_iter (X : gset string) x : x ∈ set_iter X ↔ x ∈ X.
Proof. unfold set_iter. rewrite merge_sort_Permutation. apply elem_of_elements. Qed.

Lemma NoDup_set_iter (X : gset string) : NoDup (set_iter X).
Proof. unfold set_iter. rewrite merge_sort_Permutation. apply NoDup_elements. Qed.

(** [iter().map(..).collect::<BTreeMap<_, _>>()]: the last entry of a key wins. *)
Definition btree_collect {V : Type} (l : list (string * V)) : gmap string V :=
  foldl (λ m kv, <[kv.1 := kv.2]> m) ∅ l.

(** [map.extend(other)]: entries of [other] replace those of [map]. *)
Definition btree_extend {V : Type} (m other : gmap string V) : gmap string V := other ∪ m.

(** [map.entry(k).or_insert_with(|| v)] *)
Definition entry_or_insert {V : Type} (k : string) (v : V) (m : gmap string V) : gmap string V :=
  match m !! k with Some _ => m | None => <[k := v]> m end.

(** IndexMap lookup. *)
Fixpoint index_get {V : Type} (k : string) (l : list (string * V)) : option V :=
  match l with
  | [] => None
  | (k', v) :: l => if bool_decide (k' = k) then Some v else index_get k l
  end.

Lemma lookup_btree_extend {V} (m other : gmap string V) k :
  btree_extend m other !! k = match other !! k with Some v => Some v | None => m !! k end.
Proof. unfold btree_extend. rewrite lookup_union. by destruct (other !! k), (m !! k). Qed.

Lemma lookup_entry_or_insert {V} k (v : V) m k' :
  entry_or_insert k v m !! k' =
    match m !! k' with
    | Some w => Some w
    | None => if bool_decide (k = k') then Some v else None
    end.
Proof.
  unfold entry_or_insert. case_bool_decide; subst.
  - destruct (m !! k') eqn:E; simpl; [by rewrite E|]. by rewrite lookup_insert_eq.
  - destruct (m !! k) eqn:E.
    + by destruct (m !! k').
    + rewrite lookup_insert_ne by done. by destruct (m !! k').
Qed.

Lemma elem_of_dom_btree_collect {V} (l : list (string * V)) k :
  k ∈ dom (btree_collect l) ↔ k ∈ l.*1.
Proof.
  unfold btree_collect.
  enough (∀ m : gmap string V,
    k ∈ dom (foldl (λ m kv, <[kv.1 := kv.2]> m) m l) ↔ k ∈ dom m ∨ k ∈ l.*1) as ->.
  { set_solver. }
  induction l as [|[k' v] l IH]; intros m; simpl.
  - set_solver.
  - rewrite IH, dom_insert, !elem_of_union, elem_of_singleton, elem_of_cons. tauto.
Qed.

Lemma lookup_btree_collect_Some {V} (l : list (string * V)) k v :
  btree_collect l !! k = Some v → (k, v) ∈ l.
Proof.
  unfold btree_collect.
  enough (∀ m : gmap string V,
    foldl (λ m kv, <[kv.1 := kv.2]> m) m l !! k = Some v → m !! k = Some v ∨ (k, v) ∈ l) as Hgen.
  { intros [?|?]%Hgen; [simplify_map_eq | done]. }
  induction l as [|[k' v'] l IH]; intros m; simpl; [auto|].
  intros [H | H]%IH.
  - destruct (decide (k' = k)) as [->|].
    + rewrite lookup_insert_eq in H. injection H as ->. right. apply list_elem_of_here.
    + rewrite lookup_insert_ne in H by done. auto.
  - right. by apply list_elem_of_further.
Qed.

Lemma lookup_btree_collect_fun {V} (l : list string) (f : string → V) k :
  btree_collect ((λ x, (x, f x)) <$> l) !! k = if bool_decide (k ∈ l) then Some (f k) else None.
Proof.
  destruct (btree_collect _ !! k) as [v|] eqn:E.
  - pose proof E as E'%lookup_btree_collect_Some.
    apply list_elem_of_fmap in E' as (x & [= -> ->] & Hx). by rewrite bool_decide_true.
  - apply not_elem_of_dom in E. rewrite elem_of_dom_btree_collect in E.
    rewrite bool_decide_false; [done|]. intros Hk. apply E.
    rewrite <-list_fmap_compose. apply list_elem_of_fmap. by exists k.
Qed.

Lemma index_get_Some {V} k (l : list (string * V)) v : index_get k l = Some v → (k, v) ∈ l.
Proof.
  induction l as [|[k' v'] l IH]; simpl; [done|].
  case_bool_decide; subst.
  - intros [= ->]. apply list_elem_of_here.
  - intros Hk. apply list_elem_of_further. auto.
Qed.

Create HintDb ordmap.
#[export] Hint Rewrite @elem_of_btree_iter @elem_of_btree_keys @elem_of_btree_values
  elem_of_set_iter @lookup_btree_extend @lookup_entry_or_insert : ordmap.
