(* ===== verification/Yaml.v ===== *)
(** * YAML and JSON values

    The trees the workflow crate receives from [serde_yaml_ng], with the
    constructors its own code matches on, and the library functions it calls on
    them as fields of a class: the documented laws are in the class, the
    functions themselves are not fixed here. *)

From S2P Require Import Prelude RustStr OrdMap.

(** Types of the libraries the sources never look into: YAML numbers, and JSON
    values, which the workflow crate only stores and compares. *)
Class ValueTypes := {
  ynum : Type;
  ynum_eq_dec :: EqDecision ynum;
  json : Type;
  json_eq_dec :: EqDecision json;
}.

(** [serde_yaml_ng::Value]; a [Mapping] is its entries in iteration order. *)
Inductive Value `{VT : ValueTypes} : Type :=
  | VNull
  | VBool (b : bool)
  | VNumber (n : ynum)
  | VString (s : string)
  | VSequence (l : list Value)
  | VMapping (m : list (Value * Value))
  | VTagged (tag : string) (v : Value).

Notation Mapping := (list (Value * Value)).

(** [Mapping::get(Value::String(k))] and [contains_key]: equality on the key. *)
Fixpoint mapping_get `{VT : ValueTypes} (k : string) (m : Mapping) : option Value :=
  match m with
  | [] => None
  | (VString k', v) :: m => if bool_decide (k' = k) then Some v else mapping_get k m
  | _ :: m => mapping_get k m
  end.

Definition mapping_contains `{VT : ValueTypes} (k : string) (m : Mapping) : bool :=
  match mapping_get k m with Some _ => true | None => false end.

Definition is_tagged `{VT : ValueTypes} (v : Value) : bool :=
  match v with VTagged _ _ => true | _ => false end.

(** The accessors ([as_str], ...) answer for the untagged constructors as
    documented; what they say of a tagged value is left open. *)
Class ValueLib `{VT : ValueTypes} := {
  as_str : Value → option string;
  as_bool : Value → option bool;
  as_mapping : Value → option Mapping;
  is_null : Value → bool;
  as_u64 : Value → option Z;
  as_i64 : Value → option Z;
  has_f64 : Value → bool;               (** [as_f64().is_some()] *)
  ynum_display : ynum → string;
  ynum_zero : ynum;                     (** [Number::from(0)] *)
  to_value : Value → outcome string json;   (** [serde_json::to_value], the error displayed *)

  as_str_spec v : is_tagged v = false →
    as_str v = match v with VString s => Some s | _ => None end;
  as_bool_spec v : is_tagged v = false →
    as_bool v = match v with VBool b => Some b | _ => None end;
  as_mapping_spec v : is_tagged v = false →
    as_mapping v = match v with VMapping m => Some m | _ => None end;
  is_null_spec v : is_tagged v = false →
    is_null v = match v with VNull => true | _ => false end;
  as_u64_number v n : is_tagged v = false → as_u64 v = Some n →
    (∃ y, v = VNumber y) ∧ (0 ≤ n ≤ u64_max)%Z;
  has_f64_number v : is_tagged v = false → has_f64 v = true → ∃ y, v = VNumber y;
  as_i64_number v n : is_tagged v = false → as_i64 v = Some n → ∃ y, v = VNumber y;
  to_value_no_panic v : to_value v ≠ Panic;
}.

Section value.
Context `{VL : ValueLib}.

Lemma as_str_string s : as_str (VString s) = Some s.
Proof. by rewrite as_str_spec. Qed.

Lemma as_mapping_mapping m : as_mapping (VMapping m) = Some m.
Proof. by rewrite as_mapping_spec. Qed.

Lemma mapping_get_elem k (m : Mapping) v : mapping_get k m = Some v → (VString k, v) ∈ m.
Proof.
  induction m as [|[k' v'] m IH]; simpl; [done|].
  destruct k'; try (intros H; apply list_elem_of_further; by auto).
  case_bool_decide; subst.
  - intros [= ->]. apply list_elem_of_here.
  - intros Hk. apply list_elem_of_further; auto.
Qed.
End value.

(** [contains_expression] of the matrix expansion. *)
Fixpoint contains_expression `{VT : ValueTypes} (value : Value) : bool :=
  match value with
  | VString s => contains "${{" s
  | VSequence values => existsb contains_expression values
  | VMapping entries =>
      existsb (λ kv, contains_expression kv.1 || contains_expression kv.2) entries
  | VTagged _ v => contains_expression v
  | VNull | VBool _ | VNumber _ => false
  end.

(** [value_contains_expression] of the reusable-workflow inputs. *)
Fixpoint value_contains_expression `{VT : ValueTypes} (value : Value) : bool :=
  match value with
  | VString s => contains "${{" s
  | VSequence values => existsb value_contains_expression values
  | VMapping values =>
      existsb (λ kv, value_contains_expression kv.1 || value_contains_expression kv.2) values
  | VTagged _ v => value_contains_expression v
  | _ => false
  end.
