(* ===== verification/Expression.v ===== *)
(** * Expressions (crates/gitzero-expression)

    The evaluator of GitHub Actions expressions, the analysis that reports what
    an expression may read, and the [${{ ... }}] templates both work on.  The
    parser, the coercions of [Evaluation] and the JSON conversions belong to
    third-party crates and are fields of a class. *)

From Stdlib Require Import SpecFloat.
From S2P Require Import Prelude RustStr OrdMap.

(** ** Data *)

(** [f64] *)
Abbreviation f64 := spec_float.

Inductive ExecutionStatus := Success | Failure | Cancelled | Skipped.

#[export] Instance ExecutionStatus_eq_dec : EqDecision ExecutionStatus.
Proof. solve_decision. Defined.

(** The syntax trees of [github_actions_expressions]; the spans of
    [SpannedExpr] are not used by the evaluator and are dropped. *)
Inductive Literal :=
  | LString (s : string)
  | LNumber (n : f64)
  | LBoolean (b : bool)
  | LNull.

Inductive BinOp := OpAnd | OpOr | OpEq | OpNeq | OpGt | OpGe | OpLt | OpLe.
Inductive UnOp := OpNot.

Inductive Function_ :=
  | FnContains | FnStartsWith | FnEndsWith | FnFormat | FnJoin | FnToJSON | FnFromJSON | FnCase
  | FnHashFiles | FnSuccess | FnAlways | FnCancelled | FnFailure.

Inductive Expr :=
  | ELiteral (l : Literal)
  | EStar
  | EIdentifier (identifier : string)
  | EIndex (index : Expr)
  | ECall (func : Function_) (args : list Expr)
  | EContext (parts : list Expr)
  | EBinExpr (lhs : Expr) (op : BinOp) (rhs : Expr)
  | EUnExpr (op : UnOp) (expr : Expr).

(** [Evaluation]; an object is its entries in the iteration order of its map. *)
Inductive Evaluation :=
  | EvString (s : string)
  | EvNumber (n : f64)
  | EvBoolean (b : bool)
  | EvNull
  | EvArray (l : list Evaluation)
  | EvObject (m : list (string * Evaluation)).

(** The libraries the evaluator calls. *)
Class ExpressionLib := {
  parse_error : Type;
  parse_error_display : parse_error → string;
  expr_parse : string → outcome parse_error Expr;      (** [Expr::parse] *)
  expr_parse_no_panic s : expr_parse s ≠ Panic;
  sema_display : Evaluation → string;                  (** [sema().to_string()] *)
  sema_eq : Evaluation → Evaluation → bool;            (** [sema() == sema()] *)
  sema_gt : Evaluation → Evaluation → bool;
  sema_ge : Evaluation → Evaluation → bool;
  sema_lt : Evaluation → Evaluation → bool;
  sema_le : Evaluation → Evaluation → bool;
  as_boolean : Evaluation → bool;
  sema_display_string s : sema_display (EvString s) = s;
  to_uppercase : string → string;                      (** [str::to_uppercase], Unicode *)
  jnum : Type;
  io_error : Type;
}.

(** [serde_json::Value] *)
Inductive JValue `{ExpressionLib} :=
  | JNull
  | JBool (b : bool)
  | JNumber (n : jnum)
  | JString (s : string)
  | JArray (l : list JValue)
  | JObject (m : gmap string JValue).

Class JsonLib `{ExpressionLib} := {
  eval_of_json : JValue → option Evaluation;           (** [Evaluation::try_from] *)
  json_of_eval : Evaluation → option JValue;           (** [Value::try_from] *)
  to_string_pretty : JValue → option string;
  json_from_str : string → option JValue;
}.

Inductive ExpressionError `{ExpressionLib} :=
  | Parse (e : parse_error)
  | UnknownContext (name : string)
  | InvalidAccess (index value_type : string)
  | UnsupportedFunction (name : string)
  | InvalidFunction (name : string)
  | InvalidHashFilesOption (option : string)
  | InvalidHashFilesPattern (pattern reason : string)
  | HashFilesWorkspace (path : string) (source : io_error)
  | HashFilesIo (path : string) (source : io_error)
  | HashFilesNonUtf8Path (path : string)
  | HashFilesTimeout
  | UnclosedTemplate
  | JsonConversion.

(** The [#[error(...)]] messages. *)
Definition display_error `{ExpressionLib} (e : ExpressionError) : string :=
  match e with
  | Parse e => "invalid GitHub Actions expression: " +:+ parse_error_display e
  | UnknownContext name => "unknown expression context '" +:+ name +:+ "'"
  | InvalidAccess index value_type => "cannot access '" +:+ index +:+ "' on " +:+ value_type
  | UnsupportedFunction name =>
      "function " +:+ name +:+ " is not supported in this execution context"
  | InvalidFunction name => "invalid arguments for expression function " +:+ name
  | InvalidHashFilesOption o => "invalid hashFiles option '" +:+ o +:+ "'"
  | InvalidHashFilesPattern p r => "invalid hashFiles pattern '" +:+ p +:+ "': " +:+ r
  | HashFilesWorkspace path _ => "hashFiles workspace '" +:+ path +:+ "' is unavailable"
  | HashFilesIo path _ => "hashFiles could not read '" +:+ path +:+ "'"
  | HashFilesNonUtf8Path path =>
      "hashFiles encountered a non-UTF-8 path: '" +:+ path +:+ "'"
  | HashFilesTimeout => "hashFiles could not finish within 120 seconds"
  | UnclosedTemplate => "expression template is missing its closing braces"
  | JsonConversion => "expression value cannot be represented as JSON"
  end.

(** ** Analysis *)

Record ExpressionAnalysis := mkAnalysis {
  context_roots : gset string;
  uses_status_function : bool;
  uses_hash_files : bool;
}.

Definition default_analysis : ExpressionAnalysis := mkAnalysis ∅ false false.

Definition analysis_merge (self other : ExpressionAnalysis) : ExpressionAnalysis :=
  mkAnalysis (context_roots self ∪ context_roots other)
    (uses_status_function self || uses_status_function other)
    (uses_hash_files self || uses_hash_files other).

Definition insert_root (root : string) (a : ExpressionAnalysis) : ExpressionAnalysis :=
  mkAnalysis ({[to_ascii_lowercase root]} ∪ context_roots a)
    (uses_status_function a) (uses_hash_files a).

Definition is_status_function (f : Function_) : bool :=
  match f with FnSuccess | FnAlways | FnCancelled | FnFailure => true | _ => false end.

Definition is_hash_files (f : Function_) : bool :=
  match f with FnHashFiles => true | _ => false end.

Fixpoint analyze_spanned_expression (expression : Expr) (analysis : ExpressionAnalysis)
    : ExpressionAnalysis :=
  match expression with
  | ELiteral _ | EStar => analysis
  | EIdentifier identifier => insert_root identifier analysis
  | EIndex index => analyze_spanned_expression index analysis
  | ECall func args =>
      let analysis := mkAnalysis (context_roots analysis)
        (uses_status_function analysis || is_status_function func)
        (uses_hash_files analysis || is_hash_files func) in
      fold_left (λ a argument, analyze_spanned_expression argument a) args analysis
  | EContext parts =>
      let analysis :=
        match parts with
        | [] => analysis
        | head :: _ =>
            match head with
            | EIdentifier identifier => insert_root identifier analysis
            | _ => analyze_spanned_expression head analysis
            end
        end in
      match parts with
      | [] => analysis
      | _ :: rest =>
          fold_left (λ a part,
            match part with
            | EIdentifier _ | EStar | ELiteral _ => a
            | EIndex index => analyze_spanned_expression index a
            | _ => analyze_spanned_expression part a
            end) rest analysis
      end
  | EBinExpr lhs _ rhs =>
      analyze_spanned_expression rhs (analyze_spanned_expression lhs analysis)
  | EUnExpr _ expr => analyze_spanned_expression expr analysis
  end.

(** ** Templates *)

Definition unwrap_expression (source : string) : string :=
  let trimmed := trim source in
  match (value ← strip_prefix "${{" trimmed; strip_suffix "}}" value) with
  | Some value => trim value
  | None => trimmed
  end.

(** The scan of [find_expression_end]: single quotes delimit strings, a doubled
    quote inside a string is an escape, and the first [}}] outside a string is
    the end.  All of the characters compared are ASCII, so scanning bytes and
    scanning characters agree on UTF-8 text. *)
Fixpoint scan_expression_end (quoted : bool) (s : string) (absolute : nat) : option nat :=
  match s with
  | EmptyString => None
  | String character rest =>
      if bool_decide (character = "'"%char) then
        match rest with
        | String next rest' =>
            if quoted && bool_decide (next = "'"%char)
            then scan_expression_end quoted rest' (2 + absolute)
            else scan_expression_end (negb quoted) rest (1 + absolute)
        | EmptyString => None
        end
      else if negb quoted && starts_with "}}" s then Some absolute
      else scan_expression_end quoted rest (1 + absolute)
  end.

Definition find_expression_end (template : string) (start : nat) : option nat :=
  scan_expression_end false (sdrop start template) start.

(** [template[a..b]] *)
Definition slice (s : string) (a b : nat) : string := stake (b - a) (sdrop a s).

Section analyze.
Context `{EL : ExpressionLib}.

Definition analyze_expression (source : string) : outcome ExpressionError ExpressionAnalysis :=
  let source := unwrap_expression source in
  let? expression := map_err Parse (expr_parse source) in
  Ok (analyze_spanned_expression expression default_analysis).

(** The loop of [analyze_template]; [fuel] bounds its iterations, each of
    which moves [cursor] forward, and running out of it is a [Panic]. *)
Fixpoint analyze_loop (fuel : nat) (template : string) (cursor : nat)
    (analysis : ExpressionAnalysis) : outcome ExpressionError ExpressionAnalysis :=
  match sfind "${{" (sdrop cursor template) with
  | None => Ok analysis
  | Some relative_start =>
      let start := cursor + relative_start in
      let expression_start := start + 3 in
      let? expression_end :=
        ok_or (find_expression_end template expression_start) UnclosedTemplate in
      let? one := analyze_expression (slice template expression_start expression_end) in
      match fuel with
      | 0 => Panic
      | S fuel =>
          analyze_loop fuel template (expression_end + 2) (analysis_merge analysis one)
      end
  end.

Definition analyze_template (template : string) : outcome ExpressionError ExpressionAnalysis :=
  analyze_loop (slen template) template 0 default_analysis.
End analyze.
