(* ===== verification/Evaluate.v ===== *)
(** * Evaluation of expressions (crates/gitzero-expression)

    [EvaluationContext] with its evaluator and its [render], and the contract
    with the analysis of [Expression]: an expression or a template reads only
    the contexts its analysis reports. *)

From Stdlib Require Import SpecFloat.
From S2P Require Import Prelude RustStr OrdMap Expression.

(** ** Selections *)

Inductive Selection :=
  | SelOne (value : Evaluation)
  | SelMany (values : list Evaluation).

Definition evaluation_type (value : Evaluation) : string :=
  match value with
  | EvString _ => "a string"
  | EvNumber _ => "a number"
  | EvBoolean _ => "a boolean"
  | EvNull => "null"
  | EvArray _ => "an array"
  | EvObject _ => "an object"
  end.

Definition evaluate_literal (literal : Literal) : Evaluation :=
  match literal with
  | LString value => EvString value
  | LNumber value => EvNumber value
  | LBoolean value => EvBoolean value
  | LNull => EvNull
  end.

(** [value.fract() == 0.0 && value >= 0.0], and then [value as usize], which
    saturates. *)
Definition f64_index (value : f64) : option Z :=
  match value with
  | S754_zero _ => Some 0%Z
  | S754_finite false m e =>
      if bool_decide (0 ≤ e)%Z then Some (Z.min (Zpos m * 2 ^ e) usize_max)
      else if bool_decide (Zpos m mod 2 ^ (- e) = 0)%Z
      then Some (Z.min (Zpos m / 2 ^ (- e)) usize_max)
      else None
  | _ => None
  end.

(** [values.get(index)] for a machine-width index. *)
Definition get_index {A : Type} (l : list A) (index : Z) : option A :=
  if bool_decide (index < Z.of_nat (length l))%Z then l !! Z.to_nat index else None.

Fixpoint find_entry (display_index : string) (m : list (string * Evaluation)) : option Evaluation :=
  match m with
  | [] => None
  | (key, value) :: m =>
      if eq_ignore_ascii_case key display_index then Some value else find_entry display_index m
  end.

Section evaluate.
Context `{EL : ExpressionLib} {JL : JsonLib}.
(** [hash_files(workspace, arguments)]: reads the file system. *)
Variable hash_files : string → list string → outcome ExpressionError string.

Definition array_index (index : Evaluation) (display_index : string) : outcome ExpressionError Z :=
  match index with
  | EvNumber value => ok_or (f64_index value) (InvalidAccess display_index "an array")
  | EvString value =>
      ok_or (parse_unsigned usize_max value) (InvalidAccess value "an array")
  | _ => Err (InvalidAccess display_index "an array")
  end.

Definition access_value (value index : Evaluation) : outcome ExpressionError Evaluation :=
  let display_index := sema_display index in
  match value with
  | EvObject values =>
      match find_entry display_index values with
      | Some value => Ok value
      | None => Ok (EvString "")
      end
  | EvArray values =>
      let? index := array_index index display_index in
      match get_index values index with
      | Some value => Ok value
      | None => Ok (EvString "")
      end
  | EvNull => Ok EvNull
  | EvString value =>
      if is_empty value then Ok (EvString value)
      else Err (InvalidAccess display_index (evaluation_type (EvString value)))
  | other => Err (InvalidAccess display_index (evaluation_type other))
  end.

Definition sel_access (self : Selection) (index : Evaluation) : outcome ExpressionError Selection :=
  match self with
  | SelOne value => omap_ok SelOne (access_value value index)
  | SelMany values => omap_ok SelMany (traverse (λ value, access_value value index) values)
  end.

Definition expand_wildcard (value : Evaluation) : outcome ExpressionError (list Evaluation) :=
  match value with
  | EvArray values => Ok values
  | EvObject values => Ok values.*2
  | other => Err (InvalidAccess "*" (evaluation_type other))
  end.

Definition sel_wildcard (self : Selection) : outcome ExpressionError Selection :=
  match self with
  | SelOne value => omap_ok SelMany (expand_wildcard value)
  | SelMany values =>
      omap_ok (λ values, SelMany (mjoin values)) (traverse expand_wildcard values)
  end.

Definition sel_finish (self : Selection) : Evaluation :=
  match self with
  | SelOne value => value
  | SelMany values => EvArray values
  end.

(** ** Functions *)

(** [contains] *)
Definition fn_contains (arguments : list Evaluation) : outcome ExpressionError Evaluation :=
  match arguments with
  | [haystack; needle] =>
      match haystack with
      | EvArray values => Ok (EvBoolean (existsb (λ value, sema_eq value needle) values))
      | EvObject _ => Err (InvalidFunction "contains")
      | _ => Ok (EvBoolean (contains (to_uppercase (sema_display needle))
                                     (to_uppercase (sema_display haystack))))
      end
  | _ => Err (InvalidFunction "contains")
  end.

Definition is_collection (value : Evaluation) : bool :=
  match value with EvArray _ | EvObject _ => true | _ => false end.

Definition starts_or_ends_with (arguments : list Evaluation) (starts : bool)
    : outcome ExpressionError Evaluation :=
  match arguments with
  | [haystack; needle] =>
      if is_collection haystack || is_collection needle then Ok (EvBoolean false)
      else
        let haystack := to_uppercase (sema_display haystack) in
        let needle := to_uppercase (sema_display needle) in
        Ok (EvBoolean (if starts then starts_with needle haystack
                       else ends_with needle haystack))
  | _ => Err (InvalidFunction (if starts then "startsWith" else "endsWith"))
  end.

(** The loop of [format_values] on the rest of the template from [cursor].
    [index + 1] is a [usize] addition, which wraps in release builds.
    [fuel] bounds the iterations; running out is a [Panic]. *)
Fixpoint format_loop (fuel : nat) (arguments : list Evaluation) (template output : string)
    : outcome ExpressionError string :=
  match template with
  | EmptyString => Ok output
  | String c rest =>
      match fuel with
      | 0 => Panic
      | S fuel =>
          if bool_decide (c = "{"%char) then
            match rest with
            | String "{" rest' => format_loop fuel arguments rest' (output +:+ "{")
            | _ =>
                let? offset := ok_or (sfind "}" rest) (InvalidFunction "format") in
                let? index := ok_or (piece ← head (split ":" (stake offset rest));
                                     parse_unsigned usize_max piece)
                                    (InvalidFunction "format") in
                let? value := ok_or (get_index arguments ((index + 1) mod 2 ^ 64))
                                    (InvalidFunction "format") in
                format_loop fuel arguments (sdrop (1 + offset) rest)
                  (output +:+ sema_display value)
            end
          else if bool_decide (c = "}"%char) then
            match rest with
            | String "}" rest' => format_loop fuel arguments rest' (output +:+ "}")
            | _ => Err (InvalidFunction "format")
            end
          else format_loop fuel arguments rest (output +:+ String c "")
      end
  end.

Definition format_values (arguments : list Evaluation) : outcome ExpressionError Evaluation :=
  match arguments with
  | [] => Err (InvalidFunction "format")
  | template :: _ =>
      let template := sema_display template in
      omap_ok EvString (format_loop (slen template) arguments template "")
  end.

(** [join] *)
Definition fn_join (arguments : list Evaluation) : outcome ExpressionError Evaluation :=
  match arguments with
  | [value] | [value; _] =>
      let separator := match arguments !! 1 with
                       | Some value => sema_display value
                       | None => ","
                       end in
      Ok (EvString match value with
                   | EvArray values => sjoin separator (sema_display <$> values)
                   | EvObject _ => ""
                   | value => sema_display value
                   end)
  | _ => Err (InvalidFunction "join")
  end.

Definition to_json (arguments : list Evaluation) : outcome ExpressionError Evaluation :=
  match arguments with
  | [value] =>
      let? json := ok_or (json_of_eval value) JsonConversion in
      let? json := ok_or (to_string_pretty json) JsonConversion in
      Ok (EvString json)
  | _ => Err (InvalidFunction "toJSON")
  end.

Definition from_json (arguments : list Evaluation) : outcome ExpressionError Evaluation :=
  match arguments with
  | [value] =>
      let? json := ok_or (json_from_str (sema_display value)) (InvalidFunction "fromJSON") in
      ok_or (eval_of_json json) JsonConversion
  | _ => Err (InvalidFunction "fromJSON")
  end.

(** The loop over [arguments[..len - 1].chunks_exact(2)]. *)
Fixpoint case_pairs (default : Evaluation) (pairs : list Evaluation)
    : outcome ExpressionError Evaluation :=
  match pairs with
  | condition :: value :: pairs =>
      match condition with
      | EvBoolean true => Ok value
      | EvBoolean false => case_pairs default pairs
      | _ => Err (InvalidFunction "case")
      end
  | _ => Ok default
  end.

(** [case] *)
Definition fn_case (arguments : list Evaluation) : outcome ExpressionError Evaluation :=
  let len := length arguments in
  if bool_decide (len < 3) || Nat.even len then Err (InvalidFunction "case")
  else
    let? default := expect (last arguments) in
    case_pairs default (take (len - 1) arguments).
End evaluate.

(** ** Contexts *)

Record EvaluationContext := mkContext {
  roots : gmap string Evaluation;
  status : ExecutionStatus;
  workspace : option string;
}.

Definition context_new : EvaluationContext := mkContext ∅ Success None.
Definition with_status (self : EvaluationContext) (s : ExecutionStatus) : EvaluationContext :=
  mkContext (roots self) s (workspace self).
Definition with_workspace (self : EvaluationContext) (w : string) : EvaluationContext :=
  mkContext (roots self) (status self) (Some w).
Definition set_workspace (self : EvaluationContext) (w : string) : EvaluationContext :=
  mkContext (roots self) (status self) (Some w).
Definition set_status (self : EvaluationContext) (s : ExecutionStatus) : EvaluationContext :=
  mkContext (roots self) s (workspace self).
Definition set_roots (self : EvaluationContext) (r : gmap string Evaluation) : EvaluationContext :=
  mkContext r (status self) (workspace self).

Section context.
Context `{EL : ExpressionLib} {JL : JsonLib}.

(** The methods that take [&mut self] return the context they leave, which
    on an error is what they changed before it. *)
Definition insert_json (self : EvaluationContext) (name : string) (value : JValue)
    : EvaluationContext * outcome ExpressionError unit :=
  match eval_of_json value with
  | None => (self, Err JsonConversion)
  | Some value => (set_roots self (<[to_ascii_lowercase name := value]> (roots self)), Ok tt)
  end.

Definition insert_string (self : EvaluationContext) (name value : string) : EvaluationContext :=
  set_roots self (<[to_ascii_lowercase name := EvString value]> (roots self)).

Definition json_type (value : JValue) : string :=
  match value with
  | JString _ => "a string"
  | JNumber _ => "a number"
  | JBool _ => "a boolean"
  | JNull => "null"
  | JArray _ => "an array"
  | JObject _ => "an object"
  end.

Definition extend_json_object (self : EvaluationContext) (name : string)
    (entries : gmap string JValue) : EvaluationContext * outcome ExpressionError unit :=
  let key := to_ascii_lowercase name in
  let removed := roots self !! key in
  let self := set_roots self (delete key (roots self)) in
  let current := match removed with
                 | Some value => json_of_eval value
                 | None => Some (JObject ∅)
                 end in
  match current with
  | None => (self, Err JsonConversion)
  | Some (JObject object) => insert_json self key (JObject (btree_extend object entries))
  | Some current => (self, Err (InvalidAccess name (json_type current)))
  end.
End context.

(** ** The evaluator *)

Section evaluator.
Context `{EL : ExpressionLib} {JL : JsonLib}.
Variable hash_files : string → list string → outcome ExpressionError string.

Definition lookup_root (self : EvaluationContext) (identifier : string)
    : outcome ExpressionError Evaluation :=
  ok_or (roots self !! to_ascii_lowercase identifier) (UnknownContext identifier).

(** [EvaluationContext::hash_files] *)
Definition ctx_hash_files (self : EvaluationContext) (arguments : list Evaluation)
    : outcome ExpressionError Evaluation :=
  let? workspace := ok_or (workspace self) (UnsupportedFunction "hashFiles") in
  omap_ok EvString (hash_files workspace (sema_display <$> arguments)).

Definition status_is (self : EvaluationContext) (s : ExecutionStatus) : Evaluation :=
  EvBoolean (bool_decide (status self = s)).

(** The second [match] of [evaluate_call], on the evaluated arguments. *)
Definition apply_function (self : EvaluationContext) (func : Function_)
    (arguments : list Evaluation) : outcome ExpressionError Evaluation :=
  match func with
  | FnContains => fn_contains arguments
  | FnStartsWith => starts_or_ends_with arguments true
  | FnEndsWith => starts_or_ends_with arguments false
  | FnFormat => format_values arguments
  | FnJoin => fn_join arguments
  | FnToJSON => to_json arguments
  | FnFromJSON => from_json arguments
  | FnCase => fn_case arguments
  | FnHashFiles => ctx_hash_files self arguments
  | FnSuccess | FnAlways | FnCancelled | FnFailure => Panic
  end.

Definition compare_values (op : BinOp) (left right : Evaluation) : outcome ExpressionError bool :=
  match op with
  | OpEq => Ok (sema_eq left right)
  | OpNeq => Ok (negb (sema_eq left right))
  | OpGt => Ok (sema_gt left right)
  | OpGe => Ok (sema_ge left right)
  | OpLt => Ok (sema_lt left right)
  | OpLe => Ok (sema_le left right)
  | OpAnd | OpOr => Panic
  end.

Fixpoint evaluate_expr (self : EvaluationContext) (expression : Expr)
    : outcome ExpressionError Evaluation :=
  match expression with
  | ELiteral literal => Ok (evaluate_literal literal)
  | EContext parts =>
      (* evaluate_context *)
      match parts with
      | [] => Err (UnknownContext "")
      | head :: parts =>
          let? first := match head with
                        | EIdentifier identifier => lookup_root self identifier
                        | other => evaluate_expr self other
                        end in
          omap_ok sel_finish
            (for_each (λ part selection,
               match part with
               | EIdentifier identifier => sel_access selection (EvString identifier)
               | EIndex index =>
                   let? index := evaluate_expr self index in sel_access selection index
               | EStar => sel_wildcard selection
               | other =>
                   let? index := evaluate_expr self other in sel_access selection index
               end) parts (SelOne first))
      end
  | ECall func args =>
      (* evaluate_call *)
      match func with
      | FnSuccess => Ok (status_is self Success)
      | FnAlways => Ok (EvBoolean true)
      | FnCancelled => Ok (status_is self Cancelled)
      | FnFailure => Ok (status_is self Failure)
      | _ =>
          let? arguments := traverse (λ argument, evaluate_expr self argument) args in
          apply_function self func arguments
      end
  | EBinExpr lhs op rhs =>
      (* evaluate_binary *)
      let? left := evaluate_expr self lhs in
      match op with
      | OpAnd => if as_boolean left then evaluate_expr self rhs else Ok left
      | OpOr => if as_boolean left then Ok left else evaluate_expr self rhs
      | _ =>
          let? right := evaluate_expr self rhs in
          let? result := compare_values op left right in
          Ok (EvBoolean result)
      end
  | EUnExpr OpNot expr =>
      let? value := evaluate_expr self expr in
      Ok (EvBoolean (negb (as_boolean value)))
  | EIdentifier identifier => lookup_root self identifier
  | EIndex index => evaluate_expr self index
  | EStar => Err (InvalidAccess "*" "a root expression")
  end.

Definition evaluate (self : EvaluationContext) (source : string)
    : outcome ExpressionError Evaluation :=
  let source := unwrap_expression source in
  let? expression := map_err Parse (expr_parse source) in
  evaluate_expr self expression.

Definition evaluate_json (self : EvaluationContext) (source : string)
    : outcome ExpressionError JValue :=
  let? value := evaluate self source in
  ok_or (json_of_eval value) JsonConversion.

Definition evaluate_condition (self : EvaluationContext) (source : string)
    : outcome ExpressionError bool :=
  let? value := evaluate self source in
  Ok (as_boolean value).

(** The loop of [render]; [fuel] as in [analyze_loop]. *)
Fixpoint render_loop (fuel : nat) (self : EvaluationContext) (template : string)
    (rendered : string) (cursor : nat) : outcome ExpressionError string :=
  match sfind "${{" (sdrop cursor template) with
  | None => Ok (rendered +:+ sdrop cursor template)
  | Some relative_start =>
      let start := cursor + relative_start in
      let rendered := rendered +:+ slice template cursor start in
      let expression_start := start + 3 in
      let? expression_end :=
        ok_or (find_expression_end template expression_start) UnclosedTemplate in
      let? value := evaluate self (slice template expression_start expression_end) in
      match fuel with
      | 0 => Panic
      | S fuel =>
          render_loop fuel self template (rendered +:+ sema_display value)
            (expression_end + 2)
      end
  end.

Definition render (self : EvaluationContext) (template : string)
    : outcome ExpressionError string :=
  render_loop (slen template) self template "" 0.
End evaluator.

(** ** What an expression reads *)

(** Induction over expressions, through the lists of arguments and parts. *)
Section expr_induction.
Variable P : Expr → Prop.
Hypothesis Hlit : ∀ l, P (ELiteral l).
Hypothesis Hstar : P EStar.
Hypothesis Hid : ∀ s, P (EIdentifier s).
Hypothesis Hindex : ∀ e, P e → P (EIndex e).
Hypothesis Hcall : ∀ f args, Forall P args → P (ECall f args).
Hypothesis Hctx : ∀ parts, Forall P parts → P (EContext parts).
Hypothesis Hbin : ∀ l op r, P l → P r → P (EBinExpr l op r).
Hypothesis Hun : ∀ op e, P e → P (EUnExpr op e).

Fixpoint Expr_nested_ind (e : Expr) : P e :=
  let fix all (l : list Expr) : Forall P l :=
    match l with
    | [] => Forall_nil_2 P
    | e :: l => Forall_cons_2 P e l (Expr_nested_ind e) (all l)
    end in
  match e with
  | ELiteral l => Hlit l
  | EStar => Hstar
  | EIdentifier s => Hid s
  | EIndex e => Hindex e (Expr_nested_ind e)
  | ECall f args => Hcall f args (all args)
  | EContext parts => Hctx parts (all parts)
  | EBinExpr l op r => Hbin l op r (Expr_nested_ind l) (Expr_nested_ind r)
  | EUnExpr op e => Hun op e (Expr_nested_ind e)
  end.
End expr_induction.

(** Two contexts that an analysed expression cannot tell apart. *)
Definition agree_on (a : ExpressionAnalysis) (c1 c2 : EvaluationContext) : Prop :=
  (∀ r, r ∈ context_roots a → roots c1 !! r = roots c2 !! r) ∧
  (uses_status_function a = true → status c1 = status c2) ∧
  (uses_hash_files a = true → workspace c1 = workspace c2).

(** [a] reports no more than [b]. *)
Definition analysis_le (a b : ExpressionAnalysis) : Prop :=
  context_roots a ⊆ context_roots b ∧
  (uses_status_function a = true → uses_status_function b = true) ∧
  (uses_hash_files a = true → uses_hash_files b = true).

#[export] Instance analysis_le_preorder : PreOrder analysis_le.
Proof.
  split.
  - intros a. repeat split; auto.
  - intros a b c (?&?&?) (?&?&?). repeat split; [set_solver | auto..].
Qed.

Lemma agree_on_le a b c1 c2 : analysis_le a b → agree_on b c1 c2 → agree_on a c1 c2.
Proof. intros (?&?&?) (?&?&?). repeat split; auto. Qed.

Lemma insert_root_le r a : analysis_le a (insert_root r a).
Proof. repeat split; simpl; auto. set_solver. Qed.

Lemma analysis_merge_le_l a b : analysis_le a (analysis_merge a b).
Proof. repeat split; simpl; [set_solver | intros ->; done..]. Qed.

Lemma analysis_merge_le_r a b : analysis_le b (analysis_merge a b).
Proof. repeat split; simpl; [set_solver | intros ->; by rewrite orb_true_r..]. Qed.

#[export] Hint Resolve insert_root_le analysis_merge_le_l analysis_merge_le_r : core.

Lemma fold_left_le {A} (f : ExpressionAnalysis → A → ExpressionAnalysis) (l : list A) :
  Forall (λ x, ∀ a, analysis_le a (f a x)) l → ∀ a, analysis_le a (fold_left f l a).
Proof.
  induction 1 as [|x l Hx _ IH]; intros a; simpl; [done|].
  etrans; [apply Hx | apply IH].
Qed.

Lemma analyze_part_le (part : Expr) :
  (∀ a, analysis_le a (analyze_spanned_expression part a)) →
  ∀ a, analysis_le a
    (match part with
     | EIdentifier _ | EStar | ELiteral _ => a
     | EIndex index => analyze_spanned_expression index a
     | _ => analyze_spanned_expression part a
     end).
Proof. intros H a. destruct part; try done; apply H. Qed.

(** The analysis accumulates. *)
Lemma analyze_le e : ∀ a, analysis_le a (analyze_spanned_expression e a).
Proof.
  induction e as [l| |s|e IH|f args IH|parts IH|l op r IHl IHr|op e IH] using Expr_nested_ind;
    intros a; simpl; auto; try done.
  - etrans; [|by apply fold_left_le]. repeat split; simpl; [done | intros ->; done..].
  - destruct parts as [|head rest]; [done|].
    inversion IH as [|? ? Hhead Hrest]; subst.
    etrans; [|apply fold_left_le].
    + by destruct head; apply (Hhead a).
    + eapply Forall_impl; [exact Hrest|]. intros part Hpart. by apply analyze_part_le.
  - etrans; [apply IHl | apply IHr].
Qed.

Section reads.
Context `{EL : ExpressionLib} {JL : JsonLib}.
Variable hash_files : string → list string → outcome ExpressionError string.
Notation eval := (evaluate_expr hash_files).

Definition same_value (c1 c2 : EvaluationContext) (e : Expr) : Prop := eval c1 e = eval c2 e.

Lemma agree_root r a c1 c2 :
  agree_on (insert_root r a) c1 c2 → lookup_root c1 r = lookup_root c2 r.
Proof. intros (Hr&_&_). unfold lookup_root. rewrite Hr; [done|]. simpl. set_solver. Qed.

(** Folding the analysis over a list reports what each element needs. *)
Lemma fold_left_same {A} (f : ExpressionAnalysis → A → ExpressionAnalysis)
    (Q : A → Prop) c1 c2 l :
  (∀ x a, x ∈ l → analysis_le a (f a x)) →
  (∀ x a, x ∈ l → agree_on (f a x) c1 c2 → Q x) →
  ∀ a, agree_on (fold_left f l a) c1 c2 → ∀ x, x ∈ l → Q x.
Proof.
  induction l as [|x l IH]; intros Hle HQ a Hagree y Hy; [by apply not_elem_of_nil in Hy|].
  simpl in Hagree. apply elem_of_cons in Hy as [-> | Hy].
  - apply (HQ x a (list_elem_of_here _ _)). eapply agree_on_le; [|exact Hagree].
    apply fold_left_le, Forall_forall. intros z Hz b.
    apply Hle, list_elem_of_further, Hz.
  - eapply IH; [| | exact Hagree | exact Hy]; intros z b Hz.
    + by apply Hle, list_elem_of_further.
    + by apply HQ, list_elem_of_further.
Qed.

Lemma apply_function_same c1 c2 f arguments :
  (is_hash_files f = true → workspace c1 = workspace c2) →
  apply_function hash_files c1 f arguments = apply_function hash_files c2 f arguments.
Proof. intros H. destruct f; try done. simpl. unfold ctx_hash_files. by rewrite H. Qed.

Lemma for_each_ext {E A S} (b1 b2 : A → S → outcome E S) l :
  (∀ x s, x ∈ l → b1 x s = b2 x s) → ∀ s, for_each b1 l s = for_each b2 l s.
Proof.
  induction l as [|x l IH]; intros H s; simpl; [done|].
  rewrite (H x) by apply list_elem_of_here. destruct (b2 x s); simpl; auto.
  apply IH. intros y s' Hy. by apply H, list_elem_of_further.
Qed.

(** A call needs its status, its workspace and its arguments. *)
Lemma evaluate_call_same f args a c1 c2 :
  Forall (λ e, ∀ a c1 c2, agree_on (analyze_spanned_expression e a) c1 c2 →
            same_value c1 c2 e) args →
  agree_on (analyze_spanned_expression (ECall f args) a) c1 c2 →
  same_value c1 c2 (ECall f args).
Proof.
  intros IH Hagree. simpl in Hagree.
  rewrite Forall_forall in IH.
  assert (∀ e, e ∈ args → same_value c1 c2 e) as Hargs.
  { eapply fold_left_same; [| | exact Hagree]; simpl; [intros; apply analyze_le | eauto]. }
  assert (agree_on (mkAnalysis (context_roots a)
    (uses_status_function a || is_status_function f)
    (uses_hash_files a || is_hash_files f)) c1 c2) as (_ & Hstatus & Hws).
  { eapply agree_on_le; [|exact Hagree]. apply fold_left_le, Forall_forall.
    intros; apply analyze_le. }
  unfold same_value; simpl in *.
  assert (traverse (λ e, eval c1 e) args = traverse (λ e, eval c2 e) args) as Htr.
  { apply traverse_ext. intros e He. by apply Hargs. }
  assert (obind (traverse (λ e, eval c1 e) args) (apply_function hash_files c1 f) =
          obind (traverse (λ e, eval c2 e) args) (apply_function hash_files c2 f)) as Happ.
  { rewrite Htr. clear Htr. destruct (traverse _ args); try done. simpl.
    apply apply_function_same. intros Hf. apply Hws. by rewrite Hf, orb_true_r. }
  unfold status_is.
  destruct f; try exact Happ; simpl in *; rewrite ?orb_true_r in *;
    rewrite ?Hstatus by done; done.
Qed.
End reads.

Section contract.
Context `{EL : ExpressionLib} {JL : JsonLib}.
Variable hash_files : string → list string → outcome ExpressionError string.
Notation eval := (evaluate_expr hash_files).

(** A context path needs its head and the indices along it. *)
Lemma evaluate_context_same parts a c1 c2 :
  Forall (λ e, ∀ a c1 c2, agree_on (analyze_spanned_expression e a) c1 c2 →
            same_value hash_files c1 c2 e) parts →
  agree_on (analyze_spanned_expression (EContext parts) a) c1 c2 →
  same_value hash_files c1 c2 (EContext parts).
Proof.
  intros IH Hagree. destruct parts as [|head rest]; [done|].
  apply Forall_cons in IH as [IHhead IHrest]. rewrite Forall_forall in IHrest.
  simpl in Hagree.
  assert (∀ p, p ∈ rest →
    match p with EIdentifier _ | EStar | ELiteral _ => True | EIndex i => same_value hash_files c1 c2 i
    | _ => same_value hash_files c1 c2 p end) as Hrest.
  { eapply fold_left_same; [| | exact Hagree]; simpl.
    - intros p b _. apply analyze_part_le, analyze_le.
    - intros p b Hp Hb. specialize (IHrest p Hp b c1 c2).
      destruct p; try done; by apply IHrest. }
  assert (∀ p, p ∈ rest → ∀ sel, match p with
    | EIdentifier identifier => sel_access sel (EvString identifier)
    | EIndex index => let? index := eval c1 index in sel_access sel index
    | EStar => sel_wildcard sel
    | other => let? index := eval c1 other in sel_access sel index end =
    match p with
    | EIdentifier identifier => sel_access sel (EvString identifier)
    | EIndex index => let? index := eval c2 index in sel_access sel index
    | EStar => sel_wildcard sel
    | other => let? index := eval c2 other in sel_access sel index end) as Hsteps.
  { intros p Hp sel. specialize (Hrest p Hp). unfold same_value in Hrest.
    destruct p; try done; by rewrite Hrest. }
  assert (agree_on (match head with EIdentifier i => insert_root i a
    | _ => analyze_spanned_expression head a end) c1 c2) as Hhead.
  { eapply agree_on_le; [|exact Hagree]. apply fold_left_le, Forall_forall.
    intros p Hp b. apply analyze_part_le, analyze_le. }
  assert ((match head with EIdentifier i => lookup_root c1 i | other => eval c1 other end) =
          (match head with EIdentifier i => lookup_root c2 i | other => eval c2 other end)) as Hfirst.
  { destruct head; try (by apply (IHhead a)); by eapply agree_root. }
  unfold same_value. simpl. rewrite Hfirst.
  destruct (match head with EIdentifier i => lookup_root c2 i | other => eval c2 other end);
    simpl; try done.
  unfold omap_ok. f_equal. apply for_each_ext. intros p sel Hp. by apply Hsteps.
Qed.

(** The evaluator reads what the analysis reports, over syntax trees. *)
Lemma evaluate_expr_same e : ∀ a c1 c2,
  agree_on (analyze_spanned_expression e a) c1 c2 → same_value hash_files c1 c2 e.
Proof.
  induction e as [l| |s|e IH|f args IH|parts IH|l op r IHl IHr|op e IH] using Expr_nested_ind;
    intros a c1 c2 Hagree; try done.
  - unfold same_value. simpl in *. by eapply agree_root.
  - unfold same_value. simpl in *. by eapply IH.
  - by eapply evaluate_call_same.
  - by eapply evaluate_context_same.
  - simpl in Hagree.
    pose proof (IHr _ _ _ Hagree) as Hr.
    pose proof (IHl _ _ _ (agree_on_le _ _ _ _ (analyze_le r _) Hagree)) as Hl.
    unfold same_value in *; simpl. rewrite Hl, Hr. done.
  - unfold same_value in *; simpl in *. destruct op. by erewrite IH.
Qed.
End contract.

(** ** The evaluator does not panic

    Its [unreachable!] arms are unreachable, its [expect] holds, and the loop of
    [format] ends within the length of its template. *)

Section no_panic.
Context `{EL : ExpressionLib} {JL : JsonLib}.
Variable hash_files : string → list string → outcome ExpressionError string.
Hypothesis hash_files_no_panic : ∀ w l, hash_files w l ≠ Panic.

Lemma format_loop_no_panic fuel arguments template output :
  slen template ≤ fuel → format_loop fuel arguments template output ≠ Panic.
Proof.
  revert template output; induction fuel as [|fuel IH]; intros [|c rest] output Hfuel;
    try done; rewrite slen_string in Hfuel; [lia|].
  assert (∀ n output, format_loop fuel arguments (sdrop n rest) output ≠ Panic) as Hrest.
  { intros n o. apply IH. rewrite slen_sdrop. lia. }
  cbn [format_loop]. case_bool_decide; [|case_bool_decide].
  - assert (∀ rest', (let? offset := ok_or (sfind "}" rest') (InvalidFunction "format") in
      let? index := ok_or (piece ← head (split ":" (stake offset rest')); parse_unsigned usize_max piece)
                      (InvalidFunction "format") in
      let? value := ok_or (get_index arguments ((index + 1) mod 2 ^ 64)) (InvalidFunction "format") in
      format_loop fuel arguments (sdrop (1 + offset) rest) (output +:+ sema_display value)) ≠ Panic)
      as Hplace.
    { intros rest'. rewrite !obind_Panic. intros [H1 | (? & _ & H1)]; [by eapply ok_or_Panic|].
      apply obind_Panic in H1 as [H1 | (? & _ & H1)]; [by eapply ok_or_Panic|].
      apply obind_Panic in H1 as [H1 | (? & _ & H1)]; [by eapply ok_or_Panic|].
      by eapply Hrest. }
    destruct rest as [|d rest']; [apply Hplace|].
    pose proof (Hrest 1 (output +:+ "{")) as H1. simpl in H1.
    destruct d as [[] [] [] [] [] [] [] []]; first [apply Hplace | exact H1].
  - destruct rest as [|d rest']; [done|].
    pose proof (Hrest 1 (output +:+ "}")) as H1. simpl in H1.
    destruct d as [[] [] [] [] [] [] [] []]; first [done | exact H1].
  - apply (Hrest 0).
Qed.

Lemma case_pairs_no_panic default pairs : case_pairs default pairs ≠ Panic.
Proof.
  induction pairs as [pairs IH] using (induction_ltof1 _ length).
  destruct pairs as [|[] [|? ?]]; try done. simpl. destruct b; [done|].
  apply IH. unfold ltof. simpl. lia.
Qed.

Lemma access_value_no_panic value index : access_value value index ≠ Panic.
Proof.
  destruct value; simpl; try done.
  - by destruct (is_empty s).
  - rewrite obind_Panic. intros [H | (i & _ & H)].
    + destruct index; simpl in H; first [done | by apply ok_or_Panic in H].
    + by destruct (get_index l i).
  - by destruct (find_entry _ m).
Qed.

Lemma sel_access_no_panic sel index : sel_access sel index ≠ Panic.
Proof.
  destruct sel; simpl; rewrite omap_ok_Panic.
  - apply access_value_no_panic.
  - apply traverse_no_panic. intros x _. apply access_value_no_panic.
Qed.

Lemma sel_wildcard_no_panic sel : sel_wildcard sel ≠ Panic.
Proof.
  destruct sel; simpl; rewrite omap_ok_Panic; [by destruct value|].
  apply traverse_no_panic. by intros [] _.
Qed.

Lemma apply_function_no_panic self f arguments :
  is_status_function f = false → apply_function hash_files self f arguments ≠ Panic.
Proof.
  destruct f; try done; intros _; simpl.
  - destruct arguments as [|[] [|? [|? ?]]]; done.
  - unfold starts_or_ends_with. destruct arguments as [|? [|? [|? ?]]]; try done.
    by destruct (_ || _).
  - unfold starts_or_ends_with. destruct arguments as [|? [|? [|? ?]]]; try done.
    by destruct (_ || _).
  - destruct arguments; [done|]. unfold format_values. rewrite omap_ok_Panic.
    by apply format_loop_no_panic.
  - destruct arguments as [|? [|? [|? ?]]]; done.
  - destruct arguments as [|e [|? ?]]; try done. simpl.
    destruct (json_of_eval e); [simpl | done]. by destruct (to_string_pretty j).
  - destruct arguments as [|e [|? ?]]; try done. simpl.
    destruct (json_from_str _); [simpl | done]. by destruct (eval_of_json j).
  - unfold fn_case. destruct (_ || _) eqn:E; [done|]. apply orb_false_elim in E as [E _].
    apply bool_decide_eq_false in E.
    destruct (last arguments) eqn:El; [apply case_pairs_no_panic|].
    apply last_None in El. subst. simpl in E. lia.
  - unfold ctx_hash_files. destruct (workspace self); simpl; [|done].
    rewrite omap_ok_Panic. apply hash_files_no_panic.
Qed.

Lemma compare_values_no_panic op l r :
  op ≠ OpAnd → op ≠ OpOr → compare_values op l r ≠ Panic.
Proof. by destruct op. Qed.

Lemma evaluate_expr_no_panic self e : evaluate_expr hash_files self e ≠ Panic.
Proof.
  induction e as [l| |s|e IH|f args IH|parts IH|l op r IHl IHr|op e IH] using Expr_nested_ind;
    try done.
  - apply ok_or_Panic.
  - rewrite Forall_forall in IH.
    assert (is_status_function f = false →
      obind (traverse (evaluate_expr hash_files self) args)
        (apply_function hash_files self f) ≠ Panic) as Hf.
    { intros Hs. rewrite obind_Panic. intros [H | (a & _ & H)].
      - by apply traverse_no_panic in H.
      - by apply apply_function_no_panic in H. }
    destruct f; try done; by apply Hf.
  - destruct parts as [|head rest]; [done|]. apply Forall_cons in IH as [IHh IHr].
    rewrite Forall_forall in IHr. cbn [evaluate_expr]. rewrite obind_Panic.
    intros [H | (first & _ & H)].
    { destruct head; try (by apply IHh); by apply ok_or_Panic in H. }
    rewrite omap_ok_Panic in H. revert H. apply (for_each_no_panic _ (λ _, True)); [done| |done].
    intros p sel Hp _. specialize (IHr p Hp).
    destruct p; try apply sel_access_no_panic; try apply sel_wildcard_no_panic;
      rewrite obind_Panic; (intros [H | (v & _ & H)]; [by apply IHr | by apply sel_access_no_panic in H]).
  - cbn [evaluate_expr]. rewrite obind_Panic. intros [H | (v & _ & H)]; [by apply IHl|].
    assert (op ≠ OpAnd → op ≠ OpOr →
      (let? right := evaluate_expr hash_files self r in
       let? result := compare_values op v right in Ok (EvBoolean result)) ≠ Panic) as Hc.
    { intros H1 H2. rewrite obind_Panic. intros [H3 | (w & _ & H3)]; [by apply IHr|].
      apply obind_Panic in H3 as [H3 | (? & _ & ?)]; [|done].
      by apply compare_values_no_panic in H3. }
    destruct op; try (by apply Hc); by destruct (as_boolean v).
  - cbn [evaluate_expr]. destruct op. rewrite obind_Panic. naive_solver.
Qed.

Lemma evaluate_no_panic self source : evaluate hash_files self source ≠ Panic.
Proof.
  unfold evaluate. rewrite obind_Panic, map_err_Panic. intros [H | (e & _ & H)].
  - by apply expr_parse_no_panic in H.
  - by apply evaluate_expr_no_panic in H.
Qed.
End no_panic.
