(* ===== verification/Instances.v ===== *)
(** * Concrete libraries for the examples

    Small executable instances of the third-party interfaces, so that the
    witnesses of the theorems compute.  They are one possible behaviour of the
    libraries, not the libraries: no theorem depends on them. *)

From Stdlib Require Import SpecFloat.
From S2P Require Import Prelude RustStr OrdMap Yaml Expression Evaluate.

#[local] Instance demo_values : ValueTypes := {| ynum := Z; json := string |}.

Definition demo_as_str (v : Value) : option string :=
  match v with VString s => Some s | _ => None end.
Definition demo_as_bool (v : Value) : option bool :=
  match v with VBool b => Some b | _ => None end.
Definition demo_as_mapping (v : Value) : option Mapping :=
  match v with VMapping m => Some m | _ => None end.
Definition demo_as_u64 (v : Value) : option Z :=
  match v with
  | VNumber n => if bool_decide (0 ≤ n ≤ u64_max)%Z then Some n else None
  | _ => None
  end.
Definition demo_as_i64 (v : Value) : option Z :=
  match v with VNumber n => Some n | _ => None end.
Definition demo_has_f64 (v : Value) : bool :=
  match v with VNumber _ => true | _ => false end.
Definition demo_to_value (v : Value) : outcome string string :=
  match v with
  | VString s => Ok s
  | VNumber n => Ok (pretty n)
  | VBool b => Ok (if b then "true" else "false")
  | VNull => Ok "null"
  | _ => Err "unsupported"
  end.

#[local] Program Instance demo_value_lib : ValueLib := {|
  as_str := demo_as_str;
  as_bool := demo_as_bool;
  as_mapping := demo_as_mapping;
  is_null := λ v, match v with VNull => true | _ => false end;
  as_u64 := demo_as_u64;
  as_i64 := demo_as_i64;
  has_f64 := demo_has_f64;
  ynum_display := pretty;
  ynum_zero := 0%Z;
  to_value := demo_to_value;
|}.
Solve All Obligations with (intros []; simpl; intros; try done; try case_bool_decide; naive_solver).

(** Expressions are dotted paths; a source with a quote does not parse. *)
Definition demo_parse (s : string) : outcome string Expr :=
  if contains "'" s then Err "quote"
  else match split "." s with
       | [x] => if contains "()" x then Ok (ECall FnSuccess []) else Ok (EIdentifier x)
       | l => Ok (EContext (EIdentifier <$> l))
       end.

Definition demo_display (v : Evaluation) : string :=
  match v with
  | EvString s => s
  | EvBoolean true => "true"
  | EvBoolean false => "false"
  | _ => ""
  end.

Definition demo_eq (a b : Evaluation) : bool := bool_decide (demo_display a = demo_display b).

#[local] Program Instance demo_expressions : ExpressionLib := {|
  parse_error := string;
  parse_error_display := λ e, e;
  expr_parse := demo_parse;
  sema_display := demo_display;
  sema_eq := demo_eq;
  sema_gt := λ _ _, false;
  sema_ge := demo_eq;
  sema_lt := λ _ _, false;
  sema_le := demo_eq;
  as_boolean := λ v, negb (is_empty (demo_display v));
  to_uppercase := λ s, s;
  jnum := Z;
  io_error := string;
|}.
Next Obligation.
  intros s. unfold demo_parse. destruct (contains "'" s); [done|].
  destruct (split "." s) as [|x [|? ?]]; try done. by destruct (contains "()" x).
Qed.
Next Obligation. done. Qed.

#[local] Instance demo_json : JsonLib := {|
  eval_of_json := λ v,
    match v with JString s => Some (EvString s) | JObject _ => Some (EvObject []) | _ => None end;
  json_of_eval := λ v, match v with EvString s => Some (JString s) | _ => None end;
  to_string_pretty := λ v, match v with JString s => Some s | _ => None end;
  json_from_str := λ s, Some (JString s);
|}.

Definition demo_hash_files (w : string) (l : list string) : outcome ExpressionError string := Ok "".

(** A context with a [github.sha] and an [env]. *)
Definition demo_context (secret : string) : EvaluationContext :=
  mkContext (<["github" := EvObject [("sha", EvString "abc123")]]>
             (<["secrets" := EvObject [("TOKEN", EvString secret)]]> ∅)) Success None.

Example demo_render :
  render demo_hash_files (demo_context "s3cret") "sha=${{ github.sha }}!" = Ok "sha=abc123!".
Proof. vm_compute. reflexivity. Qed.

Example demo_analysis :
  analyze_template "sha=${{ GitHub.sha }}!" = Ok (mkAnalysis {["github"]} false false).
Proof. vm_compute. reflexivity. Qed.
