(* ===== verification/Templates.v ===== *)
(** * Templates: what [render] and [analyze_template] share

    Both walk a template with the same scan.  [segmented] is the reference:
    how a template splits into literal text and embedded expressions.  The
    loops of [Expression] and [Evaluate] are shown to compute on exactly those
    segments, to terminate within their fuel, and to fit together: what the
    analysis does not report, the rendering does not read. *)

From S2P Require Import Prelude RustStr OrdMap Expression Evaluate Instances.

(** ** The scan for the closing braces *)

Lemma scan_expression_end_shift q s a b :
  scan_expression_end q s (a + b) = Nat.add a <$> scan_expression_end q s b.
Proof.
  revert q a b; induction s as [s IH] using (induction_ltof1 _ slen); intros q a b.
  destruct s as [|c s]; [done|]. simpl.
  assert (∀ q' r k, slen r < slen (String c s) →
    scan_expression_end q' r (k + (a + b)) = Nat.add a <$> scan_expression_end q' r (k + b)) as Hgo.
  { intros q' r k Hr. replace (k + (a + b)) with (a + (k + b)) by lia. by apply IH. }
  case_bool_decide.
  - destruct s as [|d s]; [done|].
    destruct (q && bool_decide (d = "'"%char)).
    + apply (Hgo q s 2). rewrite !slen_string. lia.
    + apply (Hgo (negb q) (String d s) 1). rewrite !slen_string. lia.
  - destruct (negb q && starts_with "}}" (String c s)); [done|].
    apply (Hgo q s 1). rewrite !slen_string. lia.
Qed.

Lemma scan_expression_end_bound q s e :
  scan_expression_end q s 0 = Some e → e + 2 ≤ slen s ∧ starts_with "}}" (sdrop e s) = true.
Proof.
  revert q e; induction s as [s IH] using (induction_ltof1 _ slen); intros q e.
  destruct s as [|c s]; [done|]. cbn [scan_expression_end].
  assert (∀ q' r k e, sdrop k (String c s) = r → k + slen r = slen (String c s) → 0 < k →
    scan_expression_end q' r k = Some e →
    e + 2 ≤ slen (String c s) ∧ starts_with "}}" (sdrop e (String c s)) = true) as Hgo.
  { intros q' r k e' Hdrop Hlen Hk Hscan.
    rewrite <-(Nat.add_0_r k), scan_expression_end_shift in Hscan.
    apply fmap_Some in Hscan as (j & Hj & ->).
    apply IH in Hj as [Hj1 Hj2]; [|unfold ltof; lia].
    rewrite <-sdrop_sdrop, Hdrop. split; [lia | done]. }
  case_bool_decide.
  - destruct s as [|d s]; [done|].
    destruct (q && bool_decide (d = "'"%char)); [apply (Hgo q s 2) | apply (Hgo (negb q) (String d s) 1)];
      rewrite ?slen_string; simpl; (done || lia).
  - destruct (negb q && starts_with "}}" (String c s)) eqn:E.
    + intros [= <-]. apply andb_prop in E as [_ E]. split; [|done].
      apply starts_with_len in E. done.
    + apply (Hgo q s 1); rewrite ?slen_string; simpl; (done || lia).
Qed.

Lemma find_expression_end_shift template start :
  find_expression_end template start =
    Nat.add start <$> scan_expression_end false (sdrop start template) 0.
Proof.
  unfold find_expression_end.
  rewrite <-(Nat.add_0_r start) at 2. apply scan_expression_end_shift.
Qed.

(** ** Segments *)

Inductive segment :=
  | SegText (text : string)
  | SegExpr (source : string).

(** [segmented t segs]: the pieces of [t], up to its last closed expression. *)
Inductive segmented : string → list segment → Prop :=
  | segmented_text t :
      sfind "${{" t = None → segmented t [SegText t]
  | segmented_expr t start len segs :
      sfind "${{" t = Some start →
      scan_expression_end false (sdrop (start + 3) t) 0 = Some len →
      segmented (sdrop (start + 3 + len + 2) t) segs →
      segmented t (SegText (stake start t) :: SegExpr (stake len (sdrop (start + 3) t)) :: segs).

Lemma segmented_det t segs segs' : segmented t segs → segmented t segs' → segs = segs'.
Proof.
  intros H; revert segs'. induction H as [t Ht|t start len segs Hs Hl _ IH]; intros segs';
    inversion 1; simplify_eq; [done|].
  do 2 f_equal. by apply IH.
Qed.

Section templates.
Context `{EL : ExpressionLib} {JL : JsonLib}.
Variable hash_files : string → list string → outcome ExpressionError string.

Definition render_segment (self : EvaluationContext) (seg : segment)
    : outcome ExpressionError string :=
  match seg with
  | SegText text => Ok text
  | SegExpr source => omap_ok sema_display (evaluate hash_files self source)
  end.

Definition render_segments (self : EvaluationContext) (segs : list segment)
    : outcome ExpressionError string :=
  omap_ok sconcat (traverse (render_segment self) segs).

Lemma render_segments_cons self seg segs r :
  render_segments self (seg :: segs) = Ok r ↔
  ∃ a b, render_segment self seg = Ok a ∧ render_segments self segs = Ok b ∧ r = a +:+ b.
Proof.
  unfold render_segments. simpl. rewrite omap_ok_Ok. split.
  - intros (l & H & ->). ok_inv. eexists _, _. split_and!; [eassumption | | done].
    match goal with H : traverse _ _ = Ok _ |- _ => by rewrite H end.
  - intros (a & b & -> & H & ->). apply omap_ok_Ok in H as (l & Hl & ->). rewrite Hl. eauto.
Qed.

(** Each iteration leaves less of the template: the fuel is enough. *)
Lemma cursor_progress template cursor start len :
  sfind "${{" (sdrop cursor template) = Some start →
  scan_expression_end false (sdrop (cursor + start + 3) template) 0 = Some len →
  slen template - (cursor + start + 3 + len + 2) < slen template - cursor.
Proof.
  intros Hs%sfind_bound Hl%scan_expression_end_bound.
  rewrite !slen_sdrop in *. change (slen "${{") with 3 in Hs. lia.
Qed.

Lemma loop_fuel_zero template cursor start :
  slen template - cursor ≤ 0 → sfind "${{" (sdrop cursor template) ≠ Some start.
Proof.
  intros Hlen Hs%sfind_bound. rewrite slen_sdrop in Hs. change (slen "${{") with 3 in Hs. lia.
Qed.

Lemma render_loop_segments self template fuel acc cursor r :
  slen template - cursor ≤ fuel →
  render_loop hash_files fuel self template acc cursor = Ok r ↔
  ∃ segs r', segmented (sdrop cursor template) segs ∧
             render_segments self segs = Ok r' ∧ r = acc +:+ r'.
Proof.
  revert acc cursor; induction fuel as [|fuel IH]; intros acc cursor Hfuel;
    cbn [render_loop]; destruct (sfind "${{" (sdrop cursor template)) as [start|] eqn:Hs.
  1: by apply loop_fuel_zero in Hs.
  1, 3: split;
    [ intros [= <-]; exists [SegText (sdrop cursor template)], (sdrop cursor template);
      split_and!; [by constructor | unfold render_segments; simpl; by rewrite sapp_nil_r | done]
    | intros (segs & r' & Hseg & Hr & ->); inversion Hseg; simplify_eq;
      unfold render_segments in Hr; simpl in Hr; injection Hr as <-; by rewrite sapp_nil_r ].
  rewrite find_expression_end_shift.
  assert (sdrop (start + 3) (sdrop cursor template) = sdrop (cursor + start + 3) template) as Hd.
  { rewrite sdrop_sdrop. f_equal. lia. }
  destruct (scan_expression_end false (sdrop (cursor + start + 3) template) 0) as [len|] eqn:Hl; simpl.
  2: { split; [done|]. intros (segs & r' & Hseg & _). inversion Hseg; simplify_eq. congruence. }
  assert (slice template (cursor + start + 3) (cursor + start + 3 + len) =
          stake len (sdrop (start + 3) (sdrop cursor template))) as Hsrc.
  { unfold slice. rewrite Hd. f_equal. lia. }
  assert (slice template cursor (cursor + start) = stake start (sdrop cursor template)) as Htext.
  { unfold slice. f_equal. lia. }
  assert (sdrop (start + 3 + len + 2) (sdrop cursor template) =
          sdrop (cursor + start + 3 + len + 2) template) as Hrest.
  { rewrite sdrop_sdrop. f_equal. lia. }
  assert (slen template - (cursor + start + 3 + len + 2) ≤ fuel) as Hfuel'.
  { pose proof (cursor_progress _ _ _ _ Hs Hl). lia. }
  rewrite obind_Ok, Hsrc, Htext. split.
  - intros (v & Hv & Hloop). apply IH in Hloop as (segs & r' & Hseg & Hr & ->); [|done].
    exists (SegText (stake start (sdrop cursor template)) ::
            SegExpr (stake len (sdrop (start + 3) (sdrop cursor template))) :: segs).
    exists (stake start (sdrop cursor template) +:+ sema_display v +:+ r').
    split_and!; [apply segmented_expr; [done | by rewrite Hd | by rewrite Hrest] | |
                 by rewrite !sapp_assoc].
    apply render_segments_cons. eexists _, _. split_and!; [done | |done].
    apply render_segments_cons. eexists _, _. split_and!; [|exact Hr|done].
    simpl. by rewrite Hv.
  - intros (segs & r' & Hseg & Hr & ->).
    inversion Hseg as [|? start' len' segs' Hs' Hl' Hrest']; [congruence|]. simplify_eq.
    rewrite Hd in Hl'. simplify_eq. rewrite Hrest in Hrest'.
    apply render_segments_cons in Hr as (? & r1 & [= <-] & Hr & ->).
    apply render_segments_cons in Hr as (? & r2 & Hv & Hr & ->).
    simpl in Hv. apply omap_ok_Ok in Hv as (v & Hv & ->).
    exists v; split; [done|]. apply IH; [done|].
    exists segs', r2. split_and!; [done..|]. by rewrite !sapp_assoc.
Qed.
End templates.

(** ** Properties *)

Section properties.
Context `{EL : ExpressionLib} {JL : JsonLib}.
Variable hash_files : string → list string → outcome ExpressionError string.

Lemma evaluate_agree source a c1 c2 :
  analyze_expression source = Ok a → agree_on a c1 c2 →
  evaluate hash_files c1 source = evaluate hash_files c2 source.
Proof.
  unfold analyze_expression, evaluate. intros (e & He & [= <-])%obind_Ok Hagree.
  apply map_err_Ok in He. rewrite He. simpl. by eapply evaluate_expr_same.
Qed.

(** The analysis of a template contains the analyses of its expressions. *)
Lemma analyze_loop_le fuel template cursor acc a :
  analyze_loop fuel template cursor acc = Ok a → analysis_le acc a.
Proof.
  revert cursor acc; induction fuel as [|fuel IH]; intros cursor acc; cbn [analyze_loop];
    (destruct (sfind "${{" (sdrop cursor template)); [|by intros [= <-]]);
    intros (e & He & (one & Hone & H)%obind_Ok)%obind_Ok; [done|].
  apply IH in H. etrans; [|exact H]. apply analysis_merge_le_l.
Qed.

Lemma render_loop_agree fuel template cursor acc a rendered c1 c2 :
  analyze_loop fuel template cursor acc = Ok a → agree_on a c1 c2 →
  render_loop hash_files fuel c1 template rendered cursor =
  render_loop hash_files fuel c2 template rendered cursor.
Proof.
  revert cursor acc rendered; induction fuel as [|fuel IH]; intros cursor acc rendered;
    cbn [analyze_loop render_loop];
    (destruct (sfind "${{" (sdrop cursor template)); [|done]);
    intros (e & He & (one & Hone & H)%obind_Ok)%obind_Ok Hagree; [done|].
  rewrite He. simpl. pose proof H as Hle%analyze_loop_le.
    erewrite evaluate_agree; [| exact Hone |
      by eapply agree_on_le, Hagree; etrans; [apply analysis_merge_le_r | exact Hle]].
    destruct (evaluate _ c2 _); simpl; [|done..]. by eapply IH.
Qed.

Lemma analyze_expression_no_panic source : analyze_expression source ≠ Panic.
Proof.
  unfold analyze_expression. rewrite obind_Panic, map_err_Panic.
  intros [H | (? & _ & ?)]; [by apply expr_parse_no_panic in H | done].
Qed.

Lemma analyze_loop_no_panic fuel template cursor acc :
  slen template - cursor ≤ fuel → analyze_loop fuel template cursor acc ≠ Panic.
Proof.
  revert cursor acc; induction fuel as [|fuel IH]; intros cursor acc Hfuel;
    cbn [analyze_loop]; destruct (sfind "${{" (sdrop cursor template)) as [start|] eqn:Hs; try done.
  { by apply loop_fuel_zero in Hs. }
  rewrite find_expression_end_shift.
  destruct (scan_expression_end false _ 0) as [len|] eqn:Hl; simpl; [|done].
  rewrite obind_Panic. intros [H | (one & _ & H)]; [by apply analyze_expression_no_panic in H|].
  revert H. apply IH. pose proof (cursor_progress _ _ _ _ Hs Hl). lia.
Qed.

Lemma render_loop_no_panic fuel self template rendered cursor :
  (∀ w l, hash_files w l ≠ Panic) →
  slen template - cursor ≤ fuel →
  render_loop hash_files fuel self template rendered cursor ≠ Panic.
Proof.
  intros Hh. revert rendered cursor; induction fuel as [|fuel IH]; intros rendered cursor Hfuel;
    cbn [render_loop]; destruct (sfind "${{" (sdrop cursor template)) as [start|] eqn:Hs; try done.
  { by apply loop_fuel_zero in Hs. }
  rewrite find_expression_end_shift.
  destruct (scan_expression_end false _ 0) as [len|] eqn:Hl; simpl; [|done].
  rewrite obind_Panic. intros [H | (one & _ & H)]; [by apply evaluate_no_panic in H|].
  revert H. apply IH. pose proof (cursor_progress _ _ _ _ Hs Hl). lia.
Qed.

(** an expression reads only what its analysis reports: two contexts that
    agree on the reported roots, and on the status and the workspace when a
    status function or [hashFiles] is reported, give the same result, errors
    included. *)
Theorem evaluate_reads_only_reported source a c1 c2 :
  analyze_expression source = Ok a → agree_on a c1 c2 →
  evaluate hash_files c1 source = evaluate hash_files c2 source.
Proof. apply evaluate_agree. Qed.

(** the same contract for a whole template, which is what the workflow
    compiler relies on when it accepts a [concurrency] group after analysing it. *)
Theorem render_reads_only_reported template a c1 c2 :
  analyze_template template = Ok a → agree_on a c1 c2 →
  render hash_files c1 template = render hash_files c2 template.
Proof. apply render_loop_agree. Qed.

(** C39: [render] refines the segmentation: it succeeds exactly when the
    template splits into closed segments that all render, and its result is
    their concatenation. *)
Theorem render_refines_segments self template r :
  render hash_files self template = Ok r ↔
  ∃ segs, segmented template segs ∧ render_segments hash_files self segs = Ok r.
Proof.
  unfold render. rewrite render_loop_segments by lia. simpl. split.
  - intros (segs & r' & Hseg & Hr & ->). eauto.
  - intros (segs & Hseg & Hr). eauto.
Qed.

(** both template loops terminate within their fuel, and evaluation
    reaches none of its [unreachable!], [expect] or indexing panics. *)
Theorem templates_never_panic self template :
  (∀ w l, hash_files w l ≠ Panic) →
  analyze_template template ≠ Panic ∧ render hash_files self template ≠ Panic.
Proof.
  intros Hh. split.
  - apply analyze_loop_no_panic. lia.
  - apply render_loop_no_panic; [done | lia].
Qed.

(** Doubling the braces of a text, as [format] wants them. *)
Fixpoint escape_braces (s : string) : string :=
  match s with
  | EmptyString => ""
  | String c s =>
      if bool_decide (c = "{"%char) then String "{" (String "{" (escape_braces s))
      else if bool_decide (c = "}"%char) then String "}" (String "}" (escape_braces s))
      else String c (escape_braces s)
  end.

Lemma format_loop_escaped s fuel arguments output :
  slen (escape_braces s) ≤ fuel →
  format_loop fuel arguments (escape_braces s) output = Ok (output +:+ s).
Proof.
  revert fuel output; induction s as [|c s IH]; intros fuel output Hfuel.
  { simpl. destruct fuel; simpl; by rewrite sapp_nil_r. }
  simpl in *. case_bool_decide as Hc; [|case_bool_decide as Hc']; subst;
    rewrite ?slen_string in Hfuel; (destruct fuel as [|fuel]; [lia|]); cbn [format_loop].
  - rewrite bool_decide_true by done. rewrite IH by lia. by rewrite sapp_assoc.
  - rewrite bool_decide_false by done. rewrite bool_decide_true by done.
    rewrite IH by lia. by rewrite sapp_assoc.
  - rewrite !bool_decide_false by done. rewrite IH by lia. by rewrite sapp_assoc.
Qed.

(** [format] undoes brace doubling: formatting an escaped text gives the
    text back, whatever its braces and whatever the arguments. *)
Theorem format_escape_roundtrip s arguments :
  format_values (EvString (escape_braces s) :: arguments) = Ok (EvString s).
Proof.
  unfold format_values. rewrite sema_display_string, format_loop_escaped by done. done.
Qed.
End properties.

(** ** The interface of the expression crate

    What the workflow compiler needs of templates: an analysis that answers,
    and whose answer bounds what a rendering reads. *)

Class TemplateContract `{EL : ExpressionLib} := {
  tc_analyze : string → outcome ExpressionError ExpressionAnalysis;
  tc_render : EvaluationContext → string → outcome ExpressionError string;
  tc_analyze_total template : tc_analyze template ≠ Panic;
  tc_reads template a c1 c2 :
    tc_analyze template = Ok a → agree_on a c1 c2 → tc_render c1 template = tc_render c2 template;
}.

(** [analyze_template] and [render] honour it. *)
Definition expression_templates `{EL : ExpressionLib} `{JL : !JsonLib}
    (hash_files : string → list string → outcome ExpressionError string) : TemplateContract := {|
  tc_analyze := analyze_template;
  tc_render := render hash_files;
  tc_analyze_total template := analyze_loop_no_panic (slen template) template 0 default_analysis
                                 (Nat.le_sub_l _ _);
  tc_reads template a c1 c2 := render_loop_agree hash_files (slen template) template 0
                                 default_analysis a "" c1 c2;
|}.

Section witnesses.
#[local] Existing Instances demo_expressions demo_json.

Lemma evaluate_reads_only_reported_witness :
  evaluate demo_hash_files (demo_context "one") "github.sha" =
  evaluate demo_hash_files (demo_context "two") "github.sha".
Proof.
  apply (evaluate_reads_only_reported demo_hash_files "github.sha"
           (mkAnalysis {["github"]} false false)).
  - vm_compute. reflexivity.
  - split; [|done]. intros r Hr. cbn [context_roots] in Hr. apply elem_of_singleton in Hr as ->. reflexivity.
Defined.

Lemma render_reads_only_reported_witness :
  render demo_hash_files (demo_context "one") "ci-${{ github.sha }}" =
  render demo_hash_files (demo_context "two") "ci-${{ github.sha }}".
Proof.
  apply (render_reads_only_reported demo_hash_files "ci-${{ github.sha }}"
           (mkAnalysis {["github"]} false false)).
  - vm_compute. reflexivity.
  - split; [|done]. intros r Hr. cbn [context_roots] in Hr. apply elem_of_singleton in Hr as ->. reflexivity.
Defined.

Lemma templates_never_panic_witness :
  analyze_template "a ${{ b }} c" ≠ Panic ∧
  render demo_hash_files (demo_context "x") "a ${{ b }} c" ≠ Panic.
Proof. apply (templates_never_panic demo_hash_files). intros w l. discriminate. Defined.
End witnesses.
