(* ===== verification/Workflow.v ===== *)
(** * Workflow data (crates/gitzero-workflow, the types)

    The workflow file as deserialized, the execution plan the compiler makes of
    it, and the hand-written deserializers.  Field names carry a prefix per
    record ([w_] workflow, [j_] job, [s_] step, [pj_] planned job, [ps_] planned
    step); the rest of the name is the source's. *)

From S2P Require Import Prelude RustStr OrdMap Yaml.

(** ** Errors *)

Inductive WorkflowError :=
  | InvalidYaml (message : string)
  | Incompatible (workflow job reason : string)
  | UnsupportedWorkflow (workflow reason : string).

Definition incompatible (workflow job reason : string) : WorkflowError :=
  Incompatible workflow job reason.

Definition unsupported_workflow (workflow reason : string) : WorkflowError :=
  UnsupportedWorkflow workflow reason.

(** ** Scalars and references *)

Record Scalar := mkScalar { scalar_str : string }.

#[export] Instance Scalar_eq_dec : EqDecision Scalar.
Proof. solve_decision. Defined.

Record Needs := mkNeeds { needs_list : list string }.
Record StepReferences := mkStepReferences { references_list : list string }.

Section deserialize.
Context `{VL : ValueLib}.

(** [impl Deserialize for Scalar] *)
Definition deserialize_scalar (value : Value) : outcome string Scalar :=
  match value with
  | VString value => Ok (mkScalar value)
  | VBool value => Ok (mkScalar (if value then "true" else "false"))
  | VNumber value => Ok (mkScalar (ynum_display value))
  | VNull => Ok (mkScalar "")
  | _ => Err "expected a scalar value"
  end.

(** [impl Deserialize for Needs] *)
Definition deserialize_needs (value : Value) : outcome string Needs :=
  match value with
  | VNull => Ok (mkNeeds [])
  | VString value => Ok (mkNeeds [value])
  | VSequence values =>
      omap_ok mkNeeds
        (traverse (λ value, match value with
                            | VString value => Ok value
                            | _ => Err "needs entries must be strings"
                            end) values)
  | _ => Err "needs must be a string or list"
  end.

(** [impl Deserialize for StepReferences] *)
Definition deserialize_step_references (value : Value) : outcome string StepReferences :=
  let non_empty (values : list Value) :=
    match values with [] => false | _ => true end in
  match value with
  | VString value =>
      if is_empty value then Err "wait must be a non-empty string or list"
      else Ok (mkStepReferences [value])
  | VSequence values =>
      if non_empty values then
        omap_ok mkStepReferences
          (traverse (λ value, match value with
                              | VString value =>
                                  if is_empty value
                                  then Err "wait entries must be non-empty strings"
                                  else Ok value
                              | _ => Err "wait entries must be non-empty strings"
                              end) values)
      else Err "wait must be a non-empty string or list"
  | _ => Err "wait must be a non-empty string or list"
  end.
End deserialize.

Definition scalar_map (values : gmap string Scalar) : gmap string string :=
  scalar_str <$> values.

Definition default_workflow_name : string := "GitZero workflow".

(** ** The workflow file *)

Section source.
Context `{VT : ValueTypes}.

Record RunDefaults := mkRunDefaults {
  rd_shell : option string;
  rd_working_directory : option string;
  rd_extra : gmap string Value;
}.

Record Defaults := mkDefaults {
  d_run : RunDefaults;
  d_extra : gmap string Value;
}.

Record JobEnvironmentConfiguration := mkJobEnvironmentConfiguration {
  jec_name : Scalar;
  jec_url : option Scalar;
  jec_deployment : bool;
  jec_extra : gmap string Value;
}.

Inductive JobEnvironment :=
  | EnvName (name : Scalar)
  | EnvConfiguration (configuration : JobEnvironmentConfiguration).

Record ConcurrencyConfiguration := mkConcurrencyConfiguration {
  cc_group : Scalar;
  cc_cancel_in_progress : option Scalar;
  cc_queue : option string;
  cc_extra : gmap string Value;
}.

Inductive Concurrency :=
  | ConcGroup (group : Scalar)
  | ConcConfiguration (configuration : ConcurrencyConfiguration).

Inductive Step := mkStep {
  s_id : option string;
  s_name : option string;
  s_run : option string;
  s_uses : option string;
  s_shell : option string;
  s_working_directory : option string;
  s_env : gmap string Scalar;
  s_with : gmap string Scalar;
  s_condition : option Scalar;
  s_continue_on_error : option Scalar;
  s_timeout_minutes : option Scalar;
  s_background : option Scalar;
  s_wait : option StepReferences;
  s_cancel : option Scalar;
  s_parallel : option (list Step);
  s_extra : gmap string Value;
}.

Record Job := mkJob {
  j_name : option string;
  j_runs_on : option Value;
  j_needs : Needs;
  j_env : gmap string Scalar;
  j_outputs : gmap string Scalar;
  j_defaults : Defaults;
  j_permissions : option Value;
  j_continue_on_error : option Scalar;
  j_timeout_minutes : option Scalar;
  j_concurrency : option Concurrency;
  j_environment : option JobEnvironment;
  j_steps : list Step;
  j_strategy : option Value;
  j_with : gmap string Value;
  j_secrets : option Value;
  j_condition : option Scalar;
  j_container : option Value;
  j_services : option Value;
  j_uses : option string;
  j_extra : gmap string Value;
}.

Record Workflow := mkWorkflow {
  w_name : string;
  w_trigger : Value;
  w_env : gmap string Scalar;
  w_defaults : Defaults;
  w_permissions : option Value;
  w_run_name : option Scalar;
  w_concurrency : option Concurrency;
  w_jobs : list (string * Job);
  w_extra : gmap string Value;
}.

#[export] Instance Job_updatable : Updatable Job := λ j,
  mkJob (j_name j) (j_runs_on j) (j_needs j) (j_env j) (j_outputs j) (j_defaults j)
    (j_permissions j) (j_continue_on_error j) (j_timeout_minutes j) (j_concurrency j)
    (j_environment j) (j_steps j) (j_strategy j) (j_with j) (j_secrets j) (j_condition j)
    (j_container j) (j_services j) (j_uses j) (j_extra j).

#[export] Instance Workflow_updatable : Updatable Workflow := λ w,
  mkWorkflow (w_name w) (w_trigger w) (w_env w) (w_defaults w) (w_permissions w)
    (w_run_name w) (w_concurrency w) (w_jobs w) (w_extra w).
End source.

(** ** The execution plan *)

Record PlannedWorkflowIdentity := mkIdentity {
  id_workflow_ref : string;
  id_workflow_sha : string;
  id_workflow_repository : string;
  id_workflow_file_path : string;
}.

Record PlannedPermissions := mkPermissions {
  p_read : gset string;
  p_write : gset string;
}.

Record PlannedEnvironment := mkPlannedEnvironment {
  pe_name : string;
  pe_url : option string;
  pe_deployment : bool;
}.

Inductive PlannedConcurrencyQueue := QueueSingle | QueueMax.

#[export] Instance PlannedConcurrencyQueue_eq_dec : EqDecision PlannedConcurrencyQueue.
Proof. solve_decision. Defined.

Record PlannedConcurrency := mkPlannedConcurrency {
  pc_group : string;
  pc_cancel_in_progress : string;
  pc_queue : PlannedConcurrencyQueue;
}.

Inductive ReusableInputType := InputString | InputBoolean | InputNumber.

Inductive StepKind :=
  | KCheckout (inputs : gmap string string)
  | KRun (shell script : string)
  | KUses (action : string) (inputs : gmap string string)
  | KWait (step_ids : list string)
  | KWaitAll
  | KCancel (step_id : string).

Record PlannedStep := mkPlannedStep {
  ps_id : string;
  ps_github_action : string;
  ps_name : string;
  ps_environment : gmap string string;
  ps_working_directory : option string;
  ps_condition : option string;
  ps_continue_on_error : option string;
  ps_timeout_minutes : option string;
  ps_background : option string;
  ps_kind : StepKind;
}.

Record PlannedReusableSecretScope := mkSecretScope {
  ss_inherit : bool;
  ss_mappings : gmap string string;
  ss_required : gset string;
}.

Section plan.
Context `{VT : ValueTypes}.

Record PlannedReusableInput := mkReusableInput {
  ri_value : Value;
  ri_input_type : ReusableInputType;
}.

Record PlannedReusableInputScope := mkInputScope {
  ris_inputs : gmap string PlannedReusableInput;
  ris_matrix : gmap string json;
}.

Record PlannedConcurrencyScope := mkConcurrencyScope {
  cs_id : string;
  cs_configuration : PlannedConcurrency;
  cs_reusable_input_scopes : list PlannedReusableInputScope;
}.

(** [PlannedJob], [ExecutionPlan] and [PlannedVirtualJob] refer to each other:
    a dynamic reusable call carries the plan it will expand.  The records take
    the type of virtual jobs as a parameter, and the knot is tied below. *)
Record PlannedJobOf (V : Type) := mkPlannedJob {
  pj_id : string;
  pj_base_id : string;
  pj_name : string;
  pj_defining_workflow_path : string;
  pj_workflow_identity : option PlannedWorkflowIdentity;
  pj_needs : list string;
  pj_need_aliases : gmap string string;
  pj_condition : option string;
  pj_runs_on : Value;
  pj_reusable_input_scopes : list PlannedReusableInputScope;
  pj_reusable_secret_scopes : list PlannedReusableSecretScope;
  pj_virtual_job : option V;
  pj_matrix : gmap string json;
  pj_dynamic_matrix : option Value;
  pj_matrix_fail_fast : bool;
  pj_matrix_max_parallel : option Z;
  pj_strategy_job_index : option nat;
  pj_strategy_job_total : option nat;
  pj_continue_on_error : option string;
  pj_timeout_minutes : option string;
  pj_permissions : PlannedPermissions;
  pj_concurrency : option PlannedConcurrency;
  pj_concurrency_scope_ids : list string;
  pj_concurrency_acquire : list PlannedConcurrencyScope;
  pj_concurrency_release : list string;
  pj_deployment_environment : option PlannedEnvironment;
  pj_environment : gmap string string;
  pj_outputs : gmap string string;
  pj_steps : list PlannedStep;
}.

Record ExecutionPlanOf (V : Type) := mkExecutionPlan {
  ep_workflow_name : string;
  ep_workflow_path : string;
  ep_concurrency : option PlannedConcurrency;
  ep_jobs : list (PlannedJobOf V);
}.

Inductive PlannedVirtualJob :=
  | ReusableGate
  | ReusableResult (jobs : gmap string string) (outputs : gmap string string)
  | ReusableMatrixResult (invocations : list string) (max_parallel : Z) (fail_fast : bool)
  | ReusableDynamicCall (called_plan : ExecutionPlanOf PlannedVirtualJob)
      (inputs : gmap string PlannedReusableInput) (secrets : PlannedReusableSecretScope)
      (outputs : gmap string string).
End plan.

Arguments pj_id {VT V}. Arguments pj_base_id {VT V}. Arguments pj_name {VT V}.
Arguments pj_defining_workflow_path {VT V}. Arguments pj_workflow_identity {VT V}.
Arguments pj_needs {VT V}. Arguments pj_need_aliases {VT V}. Arguments pj_condition {VT V}.
Arguments pj_runs_on {VT V}. Arguments pj_reusable_input_scopes {VT V}.
Arguments pj_reusable_secret_scopes {VT V}. Arguments pj_virtual_job {VT V}.
Arguments pj_matrix {VT V}. Arguments pj_dynamic_matrix {VT V}.
Arguments pj_matrix_fail_fast {VT V}. Arguments pj_matrix_max_parallel {VT V}.
Arguments pj_strategy_job_index {VT V}. Arguments pj_strategy_job_total {VT V}.
Arguments pj_continue_on_error {VT V}. Arguments pj_timeout_minutes {VT V}.
Arguments pj_permissions {VT V}. Arguments pj_concurrency {VT V}.
Arguments pj_concurrency_scope_ids {VT V}. Arguments pj_concurrency_acquire {VT V}.
Arguments pj_concurrency_release {VT V}. Arguments pj_deployment_environment {VT V}.
Arguments pj_environment {VT V}. Arguments pj_outputs {VT V}. Arguments pj_steps {VT V}.
Arguments ep_workflow_name {VT V}. Arguments ep_workflow_path {VT V}.
Arguments ep_concurrency {VT V}. Arguments ep_jobs {VT V}.
Arguments mkPlannedJob {VT V}. Arguments mkExecutionPlan {VT V}.

Notation PlannedJob := (PlannedJobOf PlannedVirtualJob).
Notation ExecutionPlan := (ExecutionPlanOf PlannedVirtualJob).

#[export] Instance PlannedJob_updatable `{VT : ValueTypes} V : Updatable (PlannedJobOf V) := λ j,
  mkPlannedJob (pj_id j) (pj_base_id j) (pj_name j) (pj_defining_workflow_path j)
    (pj_workflow_identity j) (pj_needs j) (pj_need_aliases j) (pj_condition j) (pj_runs_on j)
    (pj_reusable_input_scopes j) (pj_reusable_secret_scopes j) (pj_virtual_job j) (pj_matrix j)
    (pj_dynamic_matrix j) (pj_matrix_fail_fast j) (pj_matrix_max_parallel j)
    (pj_strategy_job_index j) (pj_strategy_job_total j) (pj_continue_on_error j)
    (pj_timeout_minutes j) (pj_permissions j) (pj_concurrency j) (pj_concurrency_scope_ids j)
    (pj_concurrency_acquire j) (pj_concurrency_release j) (pj_deployment_environment j)
    (pj_environment j) (pj_outputs j) (pj_steps j).

#[export] Instance ExecutionPlan_updatable `{VT : ValueTypes} V : Updatable (ExecutionPlanOf V) :=
  λ p, mkExecutionPlan (ep_workflow_name p) (ep_workflow_path p) (ep_concurrency p) (ep_jobs p).

#[export] Instance PlannedConcurrencyScope_updatable `{VT : ValueTypes} :
  Updatable PlannedConcurrencyScope :=
  λ s, mkConcurrencyScope (cs_id s) (cs_configuration s) (cs_reusable_input_scopes s).

#[export] Instance PlannedReusableSecretScope_updatable : Updatable PlannedReusableSecretScope :=
  λ s, mkSecretScope (ss_inherit s) (ss_mappings s) (ss_required s).

(** The base ids of a plan's jobs: what [needs] refer to. *)
Definition base_ids `{VT : ValueTypes} {V} (jobs : list (PlannedJobOf V)) : gset string :=
  list_to_set (pj_base_id <$> jobs).

Lemma elem_of_base_ids `{VT : ValueTypes} {V} (jobs : list (PlannedJobOf V)) b :
  b ∈ base_ids jobs ↔ ∃ j, j ∈ jobs ∧ pj_base_id j = b.
Proof. unfold base_ids. rewrite elem_of_list_to_set, list_elem_of_fmap. naive_solver. Qed.
