(* ===== verification/Permissions.v ===== *)
(** * Token permissions (crates/gitzero-workflow)

    [PlannedPermissions::intersect], which attenuates the token of a called
    workflow, and [planned_permissions], which reads a [permissions:] key.  The
    reference is the access level of each permission, and intersection is the
    minimum of levels. *)

From S2P Require Import Prelude RustStr OrdMap Yaml Workflow Instances.

(** [impl Default for PlannedPermissions] *)
Definition permissions_default : PlannedPermissions :=
  mkPermissions {["contents"; "pull-requests"]} ∅.

Definition intersect (self maximum : PlannedPermissions) : PlannedPermissions :=
  let available := filter (λ permission, permission ∈ p_read maximum ∨ permission ∈ p_write maximum)
                     (p_read self ∪ p_write self) in
  let write := p_write self ∩ p_write maximum in
  let read := available ∖ write in
  mkPermissions read write.

Definition READ_WRITE_TOKEN_PERMISSIONS : list string :=
  ["actions"; "artifact-metadata"; "attestations"; "checks"; "code-quality"; "contents";
   "deployments"; "discussions"; "issues"; "packages"; "pages"; "pull-requests";
   "security-events"; "statuses"].
Definition READ_ONLY_TOKEN_PERMISSIONS : list string := ["vulnerability-alerts"].
Definition TOKEN_PERMISSION_KEYS : list string :=
  ["actions"; "artifact-metadata"; "attestations"; "checks"; "code-quality"; "contents";
   "deployments"; "discussions"; "id-token"; "issues"; "packages"; "pages"; "pull-requests";
   "security-events"; "statuses"; "vulnerability-alerts"].

Definition list_contains (l : list string) (s : string) : bool := bool_decide (s ∈ l).

Section planned.
Context `{VL : ValueLib}.

(** One entry of a permission mapping: the body of the [for] loop. *)
Definition permission_entry (workflow location : string) (entry : Value * Value)
    (acc : PlannedPermissions) : outcome WorkflowError PlannedPermissions :=
  let? name := ok_or (as_str entry.1)
    (unsupported_workflow workflow (location +:+ " permission names must be strings")) in
  if negb (list_contains TOKEN_PERMISSION_KEYS name) then
    Err (unsupported_workflow workflow
           (location +:+ " permission '" +:+ name +:+ "' is not recognized"))
  else
  let? access := ok_or (as_str entry.2)
    (unsupported_workflow workflow
       (location +:+ " permission '" +:+ name +:+ "' must be read, write, or none")) in
  if bool_decide (access = "none") then Ok acc
  else if bool_decide (access = "read") then
    if bool_decide (name ≠ "id-token")
    then Ok (mkPermissions ({[name]} ∪ p_read acc) (p_write acc))
    else Err (unsupported_workflow workflow
                (location +:+ " permission 'id-token' does not support read access"))
  else if bool_decide (access = "write") then
    if bool_decide (name = "id-token") then
      Err (unsupported_workflow workflow
             (location +:+ " permission 'id-token: write' is not supported because GitZero does not issue GitHub OIDC tokens"))
    else if list_contains READ_ONLY_TOKEN_PERMISSIONS name then
      Err (unsupported_workflow workflow
             (location +:+ " permission '" +:+ name +:+ "' supports only read or none access"))
    else Ok (mkPermissions (p_read acc) ({[name]} ∪ p_write acc))
  else
    Err (unsupported_workflow workflow
           (location +:+ " permission '" +:+ name +:+ "' must be read, write, or none")).

Definition planned_permissions (workflow location : string) (value : option Value)
    (inherited : PlannedPermissions) : outcome WorkflowError PlannedPermissions :=
  match value with
  | None => Ok inherited
  | Some value =>
      match value with
      | VString value =>
          if bool_decide (value = "read-all") then
            Ok (mkPermissions
                  (list_to_set (READ_WRITE_TOKEN_PERMISSIONS ++ READ_ONLY_TOKEN_PERMISSIONS)) ∅)
          else if bool_decide (value = "write-all") then
            Err (unsupported_workflow workflow
                   (location +:+ " permissions request write-all, which includes unsupported id-token: write access"))
          else
            Err (unsupported_workflow workflow
                   (location +:+ " permissions must be read-all, write-all, or a permission mapping"))
      | VMapping values =>
          for_each (permission_entry workflow location) values (mkPermissions ∅ ∅)
      | _ =>
          Err (unsupported_workflow workflow
                 (location +:+ " permissions must be read-all, write-all, or a permission mapping"))
      end
  end.
End planned.

(** ** The access level of a permission *)

Inductive access := NoAccess | ReadAccess | WriteAccess.

Definition level (p : PlannedPermissions) (name : string) : access :=
  if bool_decide (name ∈ p_write p) then WriteAccess
  else if bool_decide (name ∈ p_read p) then ReadAccess
  else NoAccess.

Definition access_min (a b : access) : access :=
  match a, b with
  | NoAccess, _ | _, NoAccess => NoAccess
  | ReadAccess, _ | _, ReadAccess => ReadAccess
  | WriteAccess, WriteAccess => WriteAccess
  end.

Definition access_le (a b : access) : Prop := access_min a b = a.

(** Permission sets a token request accepts: known names, no OIDC token, no
    write to a read-only permission. *)
Definition well_formed (p : PlannedPermissions) : Prop :=
  (∀ n, n ∈ p_write p → n ∈ READ_WRITE_TOKEN_PERMISSIONS) ∧
  (∀ n, n ∈ p_read p → n ∈ READ_WRITE_TOKEN_PERMISSIONS ∨ n ∈ READ_ONLY_TOKEN_PERMISSIONS).

Lemma intersect_read_write_disjoint a b : p_read (intersect a b) ## p_write (intersect a b).
Proof. unfold intersect; simpl. set_solver. Qed.

Lemma well_formed_default : well_formed permissions_default.
Proof.
  split; intros n; simpl; [set_solver|]. intros [->%elem_of_singleton | ->%elem_of_singleton]%elem_of_union.
  - left. by apply (bool_decide_unpack _); vm_compute.
  - left. by apply (bool_decide_unpack _); vm_compute.
Qed.

Lemma well_formed_intersect a b : well_formed a → well_formed (intersect a b).
Proof.
  intros [Hw Hr]. split; intros n; simpl; [set_solver|].
  rewrite elem_of_difference, elem_of_filter, elem_of_union. intros [[_ [H|H]] _]; auto.
Qed.

Lemma well_formed_none : well_formed (mkPermissions ∅ ∅).
Proof. split; simpl; set_solver. Qed.

Lemma well_formed_all :
  well_formed (mkPermissions
    (list_to_set (READ_WRITE_TOKEN_PERMISSIONS ++ READ_ONLY_TOKEN_PERMISSIONS)) ∅).
Proof.
  split; intros n Hn; [by apply not_elem_of_empty in Hn|].
  by apply elem_of_list_to_set, elem_of_app in Hn.
Qed.

Lemma key_cases n :
  n ∈ TOKEN_PERMISSION_KEYS →
  n ∈ READ_WRITE_TOKEN_PERMISSIONS ∨ n ∈ READ_ONLY_TOKEN_PERMISSIONS ∨ n = "id-token".
Proof.
  unfold TOKEN_PERMISSION_KEYS, READ_WRITE_TOKEN_PERMISSIONS, READ_ONLY_TOKEN_PERMISSIONS.
  rewrite !elem_of_cons. tauto.
Qed.

Section properties.
Context `{VL : ValueLib}.

Lemma permission_entry_well_formed workflow location entry acc acc' :
  well_formed acc → permission_entry workflow location entry acc = Ok acc' → well_formed acc'.
Proof.
  intros [Hw Hr] H. unfold permission_entry in H. ok_inv.
  unfold list_contains in *.
  repeat case_bool_decide; simplify_eq/=; try (ok_inv; done);
    ok_inv; repeat case_bool_decide; simplify_eq/=; ok_inv; try done.
  all: pose proof (key_cases x ltac:(assumption)); split; intros n; cbn [p_read p_write];
    rewrite ?elem_of_union, ?elem_of_singleton; naive_solver.
Qed.

(** the intersection grants each permission at the lower of the two
    levels, so a called workflow never holds more than its caller. *)
Theorem intersect_is_minimum a b name :
  level (intersect a b) name = access_min (level a name) (level b name).
Proof.
  unfold level, intersect; simpl.
  repeat case_bool_decide; simpl; try done; exfalso; set_solver.
Qed.

(** whatever a [permissions:] key says, an accepted set names known
    permissions only, writes only to writable ones, and never asks for an
    OIDC token. *)
Theorem planned_permissions_well_formed workflow location value inherited p :
  well_formed inherited →
  planned_permissions workflow location value inherited = Ok p →
  well_formed p ∧ level p "id-token" = NoAccess.
Proof.
  intros Hinh H. assert (well_formed p) as Hwf.
  { unfold planned_permissions in H. destruct value as [[]|]; try done; [| |by simplify_eq].
    - case_bool_decide; [|by case_bool_decide]. apply Ok_inj in H. subst p.
      apply well_formed_all.
    - eapply (for_each_inv_simple _ well_formed); [| |exact H].
      + apply well_formed_none.
      + intros entry s s' _. by apply permission_entry_well_formed. }
  split; [done|]. destruct Hwf as [Hw Hr]. unfold level.
  rewrite !bool_decide_false; [done| |].
  - intros [Hin|Hin]%Hr; by apply (bool_decide_pack _) in Hin; vm_compute in Hin.
  - intros Hin%Hw. by apply (bool_decide_pack _) in Hin; vm_compute in Hin.
Qed.
End properties.

Section witnesses.
#[local] Existing Instances demo_values demo_value_lib.

Lemma planned_permissions_well_formed_witness :
  ∃ p, planned_permissions "ci" "workflow"
         (Some (VMapping [(VString "contents", VString "write"); (VString "checks", VString "read")]))
         permissions_default = Ok p ∧ well_formed p ∧ level p "id-token" = NoAccess.
Proof.
  eexists. split; [vm_compute; reflexivity|].
  eapply (planned_permissions_well_formed "ci" "workflow"
    (Some (VMapping [(VString "contents", VString "write"); (VString "checks", VString "read")]))
    permissions_default _ well_formed_default).
  vm_compute. reflexivity.
Defined.
End witnesses.
