(* ===== verification/Validate.v ===== *)
(** * Validation (crates/gitzero-workflow)

    The checks of one workflow or job: [concurrency:], [environment:],
    [defaults:], the fields of a runnable job and of a reusable call. *)

From S2P Require Import Prelude RustStr OrdMap Yaml Expression Evaluate Templates Workflow Instances.

(** The first key of an [extra] map, which is the least one. *)
Definition first_key {V : Type} (m : gmap string V) : option string := head (btree_keys m).

Lemma first_key_None {V} (m : gmap string V) : first_key m = None ↔ m = ∅.
Proof.
  unfold first_key. rewrite head_None. split.
  - intros H. apply map_empty. intros k. destruct (m !! k) as [v|] eqn:E; [|done].
    assert (k ∈ btree_keys m) as Hk by (apply elem_of_btree_keys; eauto).
    rewrite H in Hk. by apply not_elem_of_nil in Hk.
  - intros ->. unfold btree_keys, btree_iter. by rewrite map_to_list_empty.
Qed.

(** [if let Some(feature) = extra.keys().next() { return Err(..) }] *)
Definition no_extra {V : Type} (extra : gmap string V) (error : string → WorkflowError)
    : outcome WorkflowError unit :=
  match first_key extra with
  | Some feature => Err (error feature)
  | None => Ok tt
  end.

Lemma no_extra_Ok {V} (m : gmap string V) e u : no_extra m e = Ok u ↔ m = ∅.
Proof. unfold no_extra. rewrite <-first_key_None. destruct (first_key m), u; naive_solver. Qed.

Lemma no_extra_no_panic {V} (m : gmap string V) e : no_extra m e ≠ Panic.
Proof. unfold no_extra. by destruct (first_key m). Qed.

(** [value.contains(['\0', '\n', '\r'])] *)
Definition has_line_break_or_nul (s : string) : bool :=
  contains_byte (λ c, bool_decide (c = nul ∨ c = lf ∨ c = cr)) s.

(** [Option::iter] *)
Definition option_list {A : Type} (o : option A) : list A :=
  match o with Some a => [a] | None => [] end.

Lemma is_some_false {A} (o : option A) : is_some o = false ↔ o = None.
Proof. by destruct o. Qed.

Section validate.
Context `{VT : ValueTypes} `{EL : ExpressionLib} `{TC : !TemplateContract}.

(** The body of the loop over [group] and [cancel-in-progress]. *)
Definition check_concurrency_field (workflow location : string) (allowed_contexts : list string)
    (field value : string) : outcome WorkflowError unit :=
  let? analysis := map_err (λ error, unsupported_workflow workflow
      (location +:+ " concurrency " +:+ field +:+ " is invalid: " +:+ display_error error))
    (tc_analyze value) in
  let unsupported := base.filter (λ context, context ∉ allowed_contexts)
    (set_iter (context_roots analysis)) in
  reject_if (negb (bool_decide (unsupported = [])) || uses_hash_files analysis
             || uses_status_function analysis)
    (unsupported_workflow workflow
       (location +:+ " concurrency " +:+ field +:+
        " uses a context or function unavailable to GitHub concurrency")).

(** The fields of either spelling of [concurrency:]. *)
Definition concurrency_fields (workflow location : string) (concurrency : Concurrency)
    : outcome WorkflowError (string * string * PlannedConcurrencyQueue) :=
  match concurrency with
  | ConcGroup group => Ok (scalar_str group, "false", QueueSingle)
  | ConcConfiguration configuration =>
      no_extra (cc_extra configuration) (λ feature, unsupported_workflow workflow
        (location +:+ " concurrency key '" +:+ feature +:+ "' is not supported")) ;?
      let value := default "single" (cc_queue configuration) in
      let? queue :=
        if bool_decide (value = "single") then Ok QueueSingle
        else if bool_decide (value = "max") then Ok QueueMax
        else Err (unsupported_workflow workflow
               (location +:+ " concurrency queue must be 'single' or 'max', not '" +:+ value +:+ "'")) in
      Ok (scalar_str (cc_group configuration),
          from_option scalar_str "false" (cc_cancel_in_progress configuration),
          queue)
  end.

Definition planned_concurrency (workflow location : string) (concurrency : option Concurrency)
    (allowed_contexts : list string) : outcome WorkflowError (option PlannedConcurrency) :=
  match concurrency with
  | None => Ok None
  | Some concurrency =>
      let? '(group, cancel_in_progress, queue) := concurrency_fields workflow location concurrency in
      reject_if (is_empty (trim group) || has_line_break_or_nul group
                 || (negb (contains "${{" group) && bool_decide (256 < slen group))
                 || bool_decide (4096 < slen group))
        (unsupported_workflow workflow
           (location +:+ " concurrency group is empty or exceeds its safe bounds")) ;?
      check_concurrency_field workflow location allowed_contexts "group" group ;?
      check_concurrency_field workflow location allowed_contexts "cancel-in-progress"
        cancel_in_progress ;?
      reject_if (negb (contains "${{" cancel_in_progress)
                 && negb (bool_decide (cancel_in_progress = "true" ∨ cancel_in_progress = "false")))
        (unsupported_workflow workflow
           (location +:+ " concurrency cancel-in-progress must be a boolean or expression")) ;?
      reject_if (bool_decide (queue = QueueMax) && bool_decide (cancel_in_progress = "true"))
        (unsupported_workflow workflow
           (location +:+ " concurrency cannot combine queue: max with cancel-in-progress: true")) ;?
      Ok (Some (mkPlannedConcurrency group cancel_in_progress queue))
  end.

Definition planned_environment (workflow job_id : string) (environment : option JobEnvironment)
    : outcome WorkflowError (option PlannedEnvironment) :=
  match environment with
  | None => Ok None
  | Some environment =>
      let? '(name, url, deployment) :=
        match environment with
        | EnvName name => Ok (scalar_str name, None, true)
        | EnvConfiguration configuration =>
            no_extra (jec_extra configuration) (λ feature, incompatible workflow job_id
              ("environment key '" +:+ feature +:+ "' is not supported")) ;?
            Ok (scalar_str (jec_name configuration), scalar_str <$> jec_url configuration,
                jec_deployment configuration)
        end in
      reject_if (is_empty (trim name))
        (incompatible workflow job_id "environment name must not be empty") ;?
      Ok (Some (mkPlannedEnvironment name url deployment))
  end.

Definition validate_defaults (workflow location : string) (defaults : Defaults)
    : outcome WorkflowError unit :=
  no_extra (d_extra defaults) (λ feature, unsupported_workflow workflow
    (location +:+ " defaults key '" +:+ feature +:+ "' is not supported")) ;?
  no_extra (rd_extra (d_run defaults)) (λ feature, unsupported_workflow workflow
    (location +:+ " defaults.run key '" +:+ feature +:+ "' is not supported")) ;?
  reject_if (existsb (contains "${{")
               (option_list (rd_shell (d_run defaults)) ++
                option_list (rd_working_directory (d_run defaults))))
    (unsupported_workflow workflow
       (location +:+ " defaults.run cannot contain expressions")).

Definition validate_job (workflow job_id : string) (job : Job) : outcome WorkflowError unit :=
  reject_if (is_some (j_uses job))
    (incompatible workflow job_id "reusable workflow call was not linked") ;?
  let? _ := ok_or (j_runs_on job)
    (incompatible workflow job_id "runnable job must define runs-on") in
  for_each (λ '(present, feature) _,
      reject_if present (incompatible workflow job_id (feature +:+ " is not supported yet")))
    [(is_some (j_container job), "container"); (is_some (j_services job), "services")] tt ;?
  reject_if (negb (btree_is_empty (j_with job)) || is_some (j_secrets job))
    (incompatible workflow job_id "with and secrets are only valid on reusable workflow calls") ;?
  no_extra (j_extra job) (λ feature, incompatible workflow job_id
    ("job key '" +:+ feature +:+ "' is not supported yet")).


Definition validate_reusable_call_job (workflow job_id : string) (job : Job)
    : outcome WorkflowError unit :=
  reject_if (is_some (j_runs_on job)
             || negb (is_nil (j_steps job))
             || negb (btree_is_empty (j_env job))
             || negb (btree_is_empty (j_outputs job))
             || is_some (j_continue_on_error job)
             || is_some (j_timeout_minutes job)
             || is_some (j_environment job)
             || is_some (j_container job)
             || is_some (j_services job)
             || negb (btree_is_empty (d_extra (j_defaults job)))
             || negb (btree_is_empty (rd_extra (d_run (j_defaults job))))
             || is_some (rd_shell (d_run (j_defaults job)))
             || is_some (rd_working_directory (d_run (j_defaults job))))
    (incompatible workflow job_id "reusable workflow call contains runner-only job fields") ;?
  match j_secrets job with
  | None => Ok tt
  | Some secrets =>
      match secrets with
      | VString value =>
          reject_if (bool_decide (value ≠ "inherit"))
            (incompatible workflow job_id
               "reusable workflow secrets must be a named mapping or 'inherit'")
      | VMapping _ => Ok tt
      | _ => Err (incompatible workflow job_id
               "reusable workflow secrets must be a named mapping or 'inherit'")
      end
  end ;?
  no_extra (j_extra job) (λ feature, incompatible workflow job_id
    ("reusable workflow call key '" +:+ feature +:+ "' is not supported yet")).
End validate.

(** ** Lemmas *)

Ltac no_panic_step :=
  match goal with
  | |- context [match ?x with _ => _ end] => destruct x
  | |- _ => progress cbn [obind omap_ok map_err]
  end.

Section validate_lemmas.
Context `{VT : ValueTypes} `{EL : ExpressionLib} `{TC : !TemplateContract}.

Lemma check_concurrency_field_Ok workflow location allowed field value u :
  check_concurrency_field workflow location allowed field value = Ok u →
  ∃ a, tc_analyze value = Ok a ∧ (∀ r, r ∈ context_roots a → r ∈ allowed) ∧
       uses_hash_files a = false ∧ uses_status_function a = false.
Proof.
  unfold check_concurrency_field. intros (a & Ha%map_err_Ok & H%reject_if_Ok)%obind_Ok.
  exists a. split; [done|].
  apply orb_false_elim in H as [[H1 H2]%orb_false_elim H3].
  split; [|done]. intros r Hr. apply negb_false_iff, bool_decide_eq_true in H1.
  destruct (decide (r ∈ allowed)) as [|Hn]; [done|].
  assert (r ∈ base.filter (λ context, context ∉ allowed) (set_iter (context_roots a))) as Hin.
  { apply list_elem_of_filter. split; [done|]. by apply elem_of_set_iter. }
  rewrite H1 in Hin. by apply not_elem_of_nil in Hin.
Qed.

Lemma check_concurrency_field_no_panic workflow location allowed field value :
  check_concurrency_field workflow location allowed field value ≠ Panic.
Proof.
  unfold check_concurrency_field. rewrite obind_Panic, map_err_Panic.
  intros [H | (? & _ & H)]; [by apply tc_analyze_total in H | by apply reject_if_Panic in H].
Qed.

(** An accepted field renders the same in any two contexts that agree on the
    allowed roots. *)
Lemma check_concurrency_field_reads workflow location allowed field value u c1 c2 :
  check_concurrency_field workflow location allowed field value = Ok u →
  (∀ r, r ∈ allowed → roots c1 !! r = roots c2 !! r) →
  tc_render c1 value = tc_render c2 value.
Proof.
  intros (a & Ha & Hroots & Hh & Hs)%check_concurrency_field_Ok Hagree.
  eapply tc_reads; [done|]. split_and!; [naive_solver | congruence..].
Qed.

Lemma concurrency_fields_no_panic workflow location c :
  concurrency_fields workflow location c ≠ Panic.
Proof.
  unfold concurrency_fields, no_extra. destruct c; [done|].
  destruct (first_key _); [done|]. cbn [obind]. by repeat no_panic_step.
Qed.

Lemma planned_concurrency_no_panic workflow location c allowed :
  planned_concurrency workflow location c allowed ≠ Panic.
Proof.
  unfold planned_concurrency. destruct c as [c|]; [|done].
  rewrite obind_Panic. intros [H | ([[group cancel] queue] & _ & H)].
  { by apply concurrency_fields_no_panic in H. }
  rewrite !obind_Panic in H.
  destruct H as [H | (? & _ & H)]; [by apply reject_if_Panic in H|].
  rewrite !obind_Panic in H.
  destruct H as [H | (? & _ & H)]; [by apply check_concurrency_field_no_panic in H|].
  rewrite !obind_Panic in H.
  destruct H as [H | (? & _ & H)]; [by apply check_concurrency_field_no_panic in H|].
  unfold reject_if in H. by repeat (case_match; simplify_eq/=).
Qed.

Lemma planned_environment_no_panic workflow job_id e :
  planned_environment workflow job_id e ≠ Panic.
Proof. unfold planned_environment, no_extra, reject_if. by repeat no_panic_step. Qed.

Lemma validate_defaults_no_panic workflow location d :
  validate_defaults workflow location d ≠ Panic.
Proof. unfold validate_defaults, no_extra, reject_if. by repeat no_panic_step. Qed.

Lemma validate_job_no_panic workflow job_id j : validate_job workflow job_id j ≠ Panic.
Proof. unfold validate_job, no_extra, reject_if, ok_or; simpl. by repeat no_panic_step. Qed.

Lemma validate_reusable_call_job_no_panic workflow job_id j :
  validate_reusable_call_job workflow job_id j ≠ Panic.
Proof. unfold validate_reusable_call_job, no_extra, reject_if. by repeat no_panic_step. Qed.

Lemma validate_job_Ok workflow job_id j u :
  validate_job workflow job_id j = Ok u →
  j_uses j = None ∧ is_Some (j_runs_on j) ∧ j_container j = None ∧ j_services j = None ∧
  j_with j = ∅ ∧ j_secrets j = None ∧ j_extra j = ∅.
Proof.
  unfold validate_job, reject_if, ok_or; simpl. intros H.
  destruct (j_uses j), (j_runs_on j), (j_container j), (j_services j), (j_secrets j);
    try done; rewrite ?orb_true_r in H; try done; simpl in H.
  rewrite orb_false_r in H. unfold btree_is_empty in H. case_bool_decide; [|done].
  simpl in H. apply no_extra_Ok in H. eauto 10.
Qed.
End validate_lemmas.

Section properties.
Context `{VT : ValueTypes} `{EL : ExpressionLib} `{TC : !TemplateContract}.

(** an accepted [concurrency:] has a group that is neither blank nor
    multi-line and fits the bounds of the scheduler, never queues without
    bound while cancelling, and both of its templates read the allowed
    contexts only: no secret, status or file can leak into the group. *)
Theorem planned_concurrency_sound workflow location c allowed p c1 c2 :
  planned_concurrency workflow location c allowed = Ok (Some p) →
  (∀ r, r ∈ allowed → roots c1 !! r = roots c2 !! r) →
  trim (pc_group p) ≠ "" ∧ has_line_break_or_nul (pc_group p) = false ∧
  slen (pc_group p) ≤ 4096 ∧
  (contains "${{" (pc_group p) = false → slen (pc_group p) ≤ 256) ∧
  (pc_queue p = QueueMax → pc_cancel_in_progress p ≠ "true") ∧
  (pc_cancel_in_progress p ∈ ["true"; "false"] ∨ contains "${{" (pc_cancel_in_progress p) = true) ∧
  tc_render c1 (pc_group p) = tc_render c2 (pc_group p) ∧
  tc_render c1 (pc_cancel_in_progress p) = tc_render c2 (pc_cancel_in_progress p).
Proof.
  unfold planned_concurrency. destruct c as [c|]; [|done].
  intros ([[group cancel] queue] & _ & H)%obind_Ok Hagree.
  apply obind_Ok in H as (? & Hb%reject_if_Ok & H).
  apply obind_Ok in H as (? & Hg & H).
  apply obind_Ok in H as (? & Hc & H).
  apply obind_Ok in H as (? & Hv%reject_if_Ok & H).
  apply obind_Ok in H as (? & Hq%reject_if_Ok & [= <-]); simpl.
  apply orb_false_elim in Hb as [[[He Hl]%orb_false_elim Hs]%orb_false_elim Hm].
  apply bool_decide_eq_false in Hm.
  split_and!; try done; [| lia | | | | by eapply check_concurrency_field_reads..].
  - intros Ht. by rewrite Ht in He.
  - intros Hx. rewrite Hx in Hs. simpl in Hs. apply bool_decide_eq_false in Hs. lia.
  - intros -> ->. done.
  - destruct (contains "${{" cancel); [by right | left]. simpl in Hv.
    apply negb_false_iff, bool_decide_eq_true in Hv. rewrite !elem_of_cons. tauto.
Qed.

(** C40: a job that carries a runner (its [uses:] is absent) is accepted only
    when it names a runner and uses none of the features the planner would
    drop silently: no container, services, call inputs, secrets or unknown
    keys. *)
Theorem validate_job_sound workflow job_id j u :
  validate_job workflow job_id j = Ok u ↔
  u = tt ∧ j_uses j = None ∧ is_Some (j_runs_on j) ∧ j_container j = None ∧ j_services j = None ∧
  j_with j = ∅ ∧ j_secrets j = None ∧ j_extra j = ∅.
Proof.
  split.
  - intros H. split; [by destruct u|]. by eapply validate_job_Ok.
  - intros (-> & Hu & [v Hr] & Hc & Hs & Hw & Hse & He).
    unfold validate_job. rewrite Hu, Hr, Hc, Hs, Hw, Hse. simpl.
    by apply no_extra_Ok.
Qed.
End properties.

Section witnesses.
#[local] Existing Instances demo_values demo_expressions demo_json.
#[local] Instance demo_templates : TemplateContract := expression_templates demo_hash_files.

Lemma planned_concurrency_sound_witness :
  tc_render (demo_context "one") "ci-${{ github.sha }}" =
  tc_render (demo_context "two") "ci-${{ github.sha }}".
Proof.
  apply (planned_concurrency_sound "ci" "workflow"
    (Some (ConcGroup (mkScalar "ci-${{ github.sha }}"))) ["github"; "inputs"; "vars"]
    (mkPlannedConcurrency "ci-${{ github.sha }}" "false" QueueSingle)
    (demo_context "one") (demo_context "two")).
  - vm_compute. reflexivity.
  - intros r Hr. rewrite !elem_of_cons, elem_of_nil in Hr.
    destruct Hr as [-> | [-> | [-> | []]]]; reflexivity.
Defined.
End witnesses.
