(* ===== verification/Matrix.v ===== *)
(** * Matrix strategies (crates/gitzero-workflow)

    [expand_matrix] and [expand_matrix_definition]: the Cartesian product of
    the dimensions, the excludes, the includes and the 256-job limit, proved
    equal to a reference that computes the whole matrix first and applies the
    limit afterwards. *)

From S2P Require Import Prelude RustStr OrdMap Yaml Workflow Instances.

Section matrix.
Context `{VL : ValueLib}.

Abbreviation combination := (gmap string json).

Record MatrixPlan := mkMatrixPlan {
  mp_combinations : list combination;
  mp_dynamic : option Value;
}.

Definition yaml_to_json (value : Value) : outcome string json :=
  map_err (λ error, "matrix value is not JSON-compatible: " +:+ error) (to_value value).

Definition matrix_object_matches (combination filter : combination) : bool :=
  forallb (λ '(key, value), bool_decide (combination !! key = Some value)) (btree_iter filter).

Definition matrix_objects (workflow job_id name : string) (value : Value)
    : outcome WorkflowError (list combination) :=
  match value with
  | VSequence values =>
      traverse (λ value,
        match value with
        | VMapping entries =>
            omap_ok btree_collect
              (traverse (λ '(key, value),
                 let? key := ok_or (as_str key)
                   (incompatible workflow job_id ("matrix " +:+ name +:+ " keys must be strings")) in
                 let? value := map_err (incompatible workflow job_id) (yaml_to_json value) in
                 Ok (key, value)) entries)
        | _ => Err (incompatible workflow job_id
                 ("matrix " +:+ name +:+ " entries must be mappings"))
        end) values
  | _ => Err (incompatible workflow job_id ("matrix " +:+ name +:+ " must be a static list"))
  end.

(** The three local variables of the first loop. *)
Record MatrixParts := mkParts {
  dimensions : list (string * list json);
  includes : list combination;
  excludes : list combination;
}.

Definition matrix_entry (workflow job_id : string) (entry : Value * Value) (parts : MatrixParts)
    : outcome WorkflowError MatrixParts :=
  let '(key, value) := entry in
  let? key := ok_or (as_str key) (incompatible workflow job_id "matrix keys must be strings") in
  if bool_decide (key = "include") then
    let? objects := matrix_objects workflow job_id "include" value in
    Ok (mkParts (dimensions parts) objects (excludes parts))
  else if bool_decide (key = "exclude") then
    let? objects := matrix_objects workflow job_id "exclude" value in
    Ok (mkParts (dimensions parts) (includes parts) objects)
  else
    match value with
    | VSequence values =>
        match values with
        | [] => Err (incompatible workflow job_id
                  ("matrix dimension '" +:+ key +:+ "' cannot be empty"))
        | _ =>
            let? values := traverse (λ value,
              map_err (incompatible workflow job_id) (yaml_to_json value)) values in
            Ok (mkParts (dimensions parts ++ [(key, values)]) (includes parts) (excludes parts))
        end
    | _ => Err (incompatible workflow job_id
              ("matrix dimension '" +:+ key +:+ "' must be a static list"))
    end.

Definition matrix_limit_error (workflow job_id : string) : WorkflowError :=
  incompatible workflow job_id "matrix expands beyond GitHub's 256-job limit".

(** One iteration of the loop over the dimensions: [product]. *)
Definition matrix_dimension (workflow job_id : string) (dimension : string * list json)
    (combinations : list combination) : outcome WorkflowError (list combination) :=
  let '(key, values) := dimension in
  for_each (λ combination,
    for_each (λ value product,
      let product := product ++ [<[key := value]> combination] in
      reject_if (bool_decide (256 < length product)) (matrix_limit_error workflow job_id) ;?
      Ok product) values) combinations [].

Definition include_compatible (original_combination include : combination) : bool :=
  forallb (λ '(key, value),
    match original_combination !! key with
    | None => true
    | Some original => bool_decide (original = value)
    end) (btree_iter include).

(** The inner loop over the original combinations, with [combinations\[index\]]
    panicking out of range. *)
Definition apply_include (include : combination) (original : list combination)
    (combinations : list combination) : outcome WorkflowError (list combination * bool) :=
  for_each (λ '(index, original_combination) '(combinations, applied),
    if include_compatible original_combination include then
      let? current := expect (combinations !! index) in
      Ok (<[index := btree_extend current include]> combinations, true)
    else Ok (combinations, applied)) (enumerate original) (combinations, false).

Definition matrix_include (workflow job_id : string) (original : list combination)
    (include : combination) (combinations : list combination)
    : outcome WorkflowError (list combination) :=
  let? '(combinations, applied) := apply_include include original combinations in
  let combinations := if applied : bool then combinations else combinations ++ [include] in
  reject_if (bool_decide (256 < length combinations)) (matrix_limit_error workflow job_id) ;?
  Ok combinations.

Definition expand_matrix_definition (workflow job_id : string) (matrix : Value)
    : outcome WorkflowError (list combination) :=
  match matrix with
  | VMapping matrix =>
      let? parts := for_each (matrix_entry workflow job_id) matrix (mkParts [] [] []) in
      let combinations :=
        match dimensions parts, includes parts with
        | [], _ :: _ => []
        | _, _ => [∅]
        end in
      let? combinations := for_each (matrix_dimension workflow job_id) (dimensions parts)
                             combinations in
      let combinations := base.filter (λ combination,
        existsb (matrix_object_matches combination) (excludes parts) = false) combinations in
      for_each (matrix_include workflow job_id combinations) (includes parts) combinations
  | _ => Err (incompatible workflow job_id "matrix must resolve to a mapping")
  end.

(** The body of the loop over the keys of [strategy:]. *)
Definition strategy_entry (workflow job_id : string) (entry : Value * Value) (_ : unit)
    : outcome WorkflowError unit :=
  let '(key, value) := entry in
  let? key := ok_or (as_str key) (incompatible workflow job_id "strategy keys must be strings") in
  if bool_decide (key = "matrix") then Ok tt
  else if bool_decide (key = "fail-fast") then
    reject_if (match as_bool value with Some _ => false | None => true end)
      (incompatible workflow job_id "strategy fail-fast must be a static boolean")
  else if bool_decide (key = "max-parallel") then
    reject_if (match as_u64 value with Some n => negb (bool_decide (0 < n)%Z) | None => true end)
      (incompatible workflow job_id "strategy max-parallel must be a positive static integer")
  else Err (incompatible workflow job_id ("strategy key '" +:+ key +:+ "' is not supported yet")).

Definition expand_matrix (workflow job_id : string) (strategy : option Value)
    : outcome WorkflowError MatrixPlan :=
  match strategy with
  | None => Ok (mkMatrixPlan [∅] None)
  | Some strategy =>
      match strategy with
      | VMapping strategy =>
          for_each (strategy_entry workflow job_id) strategy tt ;?
          match mapping_get "matrix" strategy with
          | None => Ok (mkMatrixPlan [∅] None)
          | Some matrix =>
              if contains_expression matrix then Ok (mkMatrixPlan [∅] (Some matrix))
              else
                let? combinations := expand_matrix_definition workflow job_id matrix in
                Ok (mkMatrixPlan combinations None)
          end
      | _ => Err (incompatible workflow job_id "strategy must be a mapping")
      end
  end.

Definition strategy_fail_fast (strategy : option Value) : bool :=
  default true
    (strategy ← strategy; strategy ← as_mapping strategy;
     value ← mapping_get "fail-fast" strategy; as_bool value).

(** [usize::try_from(value).unwrap_or(usize::MAX)] *)
Definition strategy_max_parallel (strategy : option Value) : option Z :=
  strategy ← strategy; strategy ← as_mapping strategy;
  value ← mapping_get "max-parallel" strategy;
  value ← as_u64 value;
  Some (if bool_decide (value ≤ usize_max)%Z then value else usize_max).
End matrix.

(** ** The reference *)

Section reference.
Context `{VL : ValueLib}.

Abbreviation combination := (gmap string json).

Definition cartesian_step (combinations : list combination) (dimension : string * list json)
    : list combination :=
  combinations ≫= λ c, (λ v, <[dimension.1 := v]> c) <$> dimension.2.

Definition cartesian (start : list combination) (dims : list (string * list json)) :=
  foldl cartesian_step start dims.

Definition base_combinations (parts : MatrixParts) : list combination :=
  cartesian (match dimensions parts, includes parts with [], _ :: _ => [] | _, _ => [∅] end)
    (dimensions parts).

(** The points of the product that no exclude matches. *)
Definition original_combinations (parts : MatrixParts) : list combination :=
  base.filter (λ c, existsb (matrix_object_matches c) (excludes parts) = false)
    (base_combinations parts).

(** A combination with every include that agrees with it, in order. *)
Definition augment (ins : list combination) (original current : combination) : combination :=
  foldl (λ c i, if include_compatible original i then btree_extend c i else c) current ins.

(** The includes that agree with no combination, in order. *)
Definition standalone (ins originals : list combination) : list combination :=
  base.filter (λ i, existsb (λ c, include_compatible c i) originals = false) ins.

Definition matrix_reference (parts : MatrixParts) : list combination :=
  let originals := original_combinations parts in
  ((λ c, augment (includes parts) c c) <$> originals) ++ standalone (includes parts) originals.
End reference.

(** ** Lemmas *)

Section lemmas.
Context `{VL : ValueLib}.

Abbreviation combination := (gmap string json).

(** *** The product *)

Lemma matrix_dimension_eq workflow job_id key values combinations :
  matrix_dimension workflow job_id (key, values) combinations =
  if decide (length combinations * length values ≤ 256)
  then Ok (cartesian_step combinations (key, values))
  else Err (matrix_limit_error workflow job_id).
Proof.
  unfold matrix_dimension, cartesian_step; simpl.
  match goal with |- for_each ?b _ _ = _ => set (body := b) end.
  enough (∀ acc, length acc ≤ 256 →
    for_each body combinations acc =
    if decide (length acc + length combinations * length values ≤ 256)
    then Ok (acc ++ (combinations ≫= λ c, (λ v, <[key := v]> c) <$> values))
    else Err (matrix_limit_error workflow job_id)) as Hgen.
  { rewrite Hgen by (simpl; lia). done. }
  induction combinations as [|c combinations IH]; intros acc Hacc.
  - simpl. rewrite decide_True by lia. by rewrite app_nil_r.
  - cbn [for_each]. unfold body at 1.
    rewrite (for_each_push (λ v, <[key := v]> c) 256) by done. simpl.
    destruct (decide (length acc + length values ≤ 256)).
    + simpl. rewrite IH by (rewrite length_app, length_fmap; lia).
      rewrite length_app, length_fmap, <-app_assoc.
      destruct (decide _), (decide _); (done || lia).
    + simpl. by rewrite decide_False by lia.
Qed.

Lemma cartesian_step_length combinations key values :
  length (cartesian_step combinations (key, values)) = length combinations * length values.
Proof.
  unfold cartesian_step; simpl. induction combinations as [|c l IH]; [done|].
  rewrite bind_cons, length_app, length_fmap, IH. cbn [length]. lia.
Qed.

Definition dims_non_empty (dims : list (string * list json)) : Prop :=
  Forall (λ d, d.2 ≠ []) dims.

Lemma cartesian_length_mono combinations dims :
  dims_non_empty dims → length combinations ≤ length (cartesian combinations dims).
Proof.
  intros Hd. revert combinations; induction Hd as [|[k vs] dims Hne _ IH]; intros c; simpl; [done|].
  etrans; [|apply IH]. rewrite cartesian_step_length.
  destruct vs; [done|]. simpl. lia.
Qed.

Lemma matrix_dimensions_eq workflow job_id dims combinations :
  dims_non_empty dims → length combinations ≤ 256 →
  for_each (matrix_dimension workflow job_id) dims combinations =
  if decide (length (cartesian combinations dims) ≤ 256)
  then Ok (cartesian combinations dims) else Err (matrix_limit_error workflow job_id).
Proof.
  intros Hd. revert combinations; induction Hd as [|[k vs] dims Hne Hd IH]; intros c Hc;
    cbn [for_each].
  - simpl. by rewrite decide_True.
  - rewrite matrix_dimension_eq, <-(cartesian_step_length c k vs). simpl.
    destruct (decide (length (cartesian_step c (k, vs)) ≤ 256)); simpl.
    + by apply IH.
    + pose proof (cartesian_length_mono (cartesian_step c (k, vs)) dims Hd).
      by rewrite decide_False by lia.
Qed.

(** *** The includes *)

Definition augment1 (include : combination) (p : combination * combination) : combination :=
  if include_compatible p.1 include then btree_extend p.2 include else p.2.

Lemma apply_include_eq include (ps : list (combination * combination)) tail :
  apply_include include ps.*1 (ps.*2 ++ tail) =
  Ok ((augment1 include <$> ps) ++ tail, existsb (λ c, include_compatible c include) ps.*1).
Proof.
  unfold apply_include.
  enough (∀ heads applied,
    for_each (λ '(index, original_combination) '(combinations, applied),
      if include_compatible original_combination include then
        let? current := expect (combinations !! index) in
        Ok (<[index := btree_extend current include]> combinations, true)
      else Ok (combinations, applied)) (enumerate_from (length heads) ps.*1)
      (heads ++ ps.*2 ++ tail, applied) =
    Ok (E:=WorkflowError) (heads ++ (augment1 include <$> ps) ++ tail,
        applied || existsb (λ c, include_compatible c include) ps.*1)) as Hgen.
  { exact (Hgen [] false). }
  induction ps as [|[c h] ps IH]; intros heads applied; cbn [fmap list_fmap enumerate_from for_each fst snd].
  - simpl. by rewrite orb_false_r.
  - specialize (IH (heads ++ [augment1 include (c, h)])).
    rewrite length_app, Nat.add_comm in IH. cbn [length Nat.add] in IH.
    rewrite <-!app_assoc in IH. cbn [app] in IH.
    assert (augment1 include (c, h) =
            if include_compatible c include then btree_extend h include else h) as Ha by done.
    rewrite Ha in *. clear Ha. cbn [existsb].
    destruct (include_compatible c include); cbn [orb app].
    + rewrite lookup_app_r, Nat.sub_diag by done. cbn [lookup list_lookup expect obind].
      rewrite insert_app_r_alt, Nat.sub_diag by done. cbn.
      rewrite orb_true_r. apply IH.
    + apply IH.
Qed.

Definition step_pair (include : combination) (p : combination * combination)
    : combination * combination := (p.1, augment1 include p).

Lemma standalone_cons i ins originals :
  standalone (i :: ins) originals =
  if existsb (λ c, include_compatible c i) originals then standalone ins originals
  else i :: standalone ins originals.
Proof. unfold standalone. rewrite filter_cons. by destruct (existsb _ originals). Qed.

Lemma matrix_includes_eq workflow job_id ins ps tail :
  length ps + length tail ≤ 256 →
  for_each (matrix_include workflow job_id ps.*1) ins (ps.*2 ++ tail) =
  let result := ((λ p, augment ins p.1 p.2) <$> ps) ++ tail ++ standalone ins ps.*1 in
  if decide (length result ≤ 256) then Ok result else Err (matrix_limit_error workflow job_id).
Proof.
  revert ps tail; induction ins as [|i ins IH]; intros ps tail Hlen; cbn [for_each].
  - simpl. rewrite app_nil_r. rewrite decide_True; [done|].
    rewrite length_app, length_fmap. lia.
  - unfold matrix_include at 1. rewrite apply_include_eq. cbn [obind].
    assert ((step_pair i <$> ps).*1 = ps.*1) as Hfst.
    { rewrite <-list_fmap_compose. by apply list_fmap_ext. }
    assert ((step_pair i <$> ps).*2 = augment1 i <$> ps) as Hsnd.
    { rewrite <-list_fmap_compose. by apply list_fmap_ext. }
    assert (((λ p, augment ins p.1 p.2) <$> (step_pair i <$> ps))
            = ((λ p, augment (i :: ins) p.1 p.2) <$> ps)) as Haug.
    { rewrite <-list_fmap_compose. by apply list_fmap_ext. }
    rewrite standalone_cons.
    destruct (existsb _ ps.*1) eqn:Happ.
    + rewrite bool_decide_false by (rewrite length_app, length_fmap; lia).
      cbn [reject_if obind]. rewrite <-Hfst, <-Hsnd at 1.
      rewrite IH by (rewrite length_fmap; lia). by rewrite Haug, Hfst.
    + case_bool_decide as Hlim; cbn [reject_if obind].
      * rewrite !length_app, length_fmap in Hlim. simpl in Hlim.
        rewrite decide_False; [done|]. rewrite !length_app, length_fmap. simpl. lia.
      * rewrite !length_app, length_fmap in Hlim. simpl in Hlim.
        rewrite <-app_assoc. rewrite <-Hfst, <-Hsnd at 1.
        rewrite IH by (rewrite length_fmap, length_app; simpl; lia).
        rewrite Haug, Hfst, <-app_assoc. done.
Qed.

(** *** Parsing *)

Lemma yaml_to_json_no_panic v : yaml_to_json v ≠ Panic.
Proof. unfold yaml_to_json. rewrite map_err_Panic. apply to_value_no_panic. Qed.

Lemma matrix_objects_no_panic workflow job_id name v :
  matrix_objects workflow job_id name v ≠ Panic.
Proof.
  destruct v; try done. simpl. apply traverse_no_panic. intros [] _; try done.
  rewrite omap_ok_Panic. apply traverse_no_panic. intros [k x] _.
  rewrite obind_Panic. intros [H | (? & _ & H)]; [by apply ok_or_Panic in H|].
  apply obind_Panic in H as [H | (? & _ & H)]; [|done].
  by apply map_err_Panic, yaml_to_json_no_panic in H.
Qed.

Lemma matrix_entry_no_panic workflow job_id entry parts :
  matrix_entry workflow job_id entry parts ≠ Panic.
Proof.
  destruct entry as [k v]. unfold matrix_entry. rewrite obind_Panic.
  intros [H | (key & _ & H)]; [by apply ok_or_Panic in H|].
  repeat case_bool_decide;
    try by apply obind_Panic in H as [H | (? & _ & H)]; [apply matrix_objects_no_panic in H |].
  destruct v as [| | | |[|v l]| |]; try done.
  apply obind_Panic in H as [H | (? & _ & H)]; [|done]. revert H.
  apply traverse_no_panic. intros x _. rewrite map_err_Panic. apply yaml_to_json_no_panic.
Qed.

Lemma matrix_entry_dims workflow job_id entry parts parts' :
  dims_non_empty (dimensions parts) →
  matrix_entry workflow job_id entry parts = Ok parts' → dims_non_empty (dimensions parts').
Proof.
  intros Hd. destruct entry as [k v]. unfold matrix_entry. intros (key & _ & H)%obind_Ok.
  repeat case_bool_decide; try by apply obind_Ok in H as (? & _ & [= <-]).
  destruct v as [| | | |[|v l]| |]; try done.
  apply obind_Ok in H as (vs & Hvs & [= <-]). simpl. apply Forall_app; split; [done|].
  constructor; [|constructor]. apply traverse_length in Hvs. simpl in *. by intros ->.
Qed.

Definition matrix_parts (workflow job_id : string) (matrix : Mapping) :=
  for_each (matrix_entry workflow job_id) matrix (mkParts [] [] []).

Lemma matrix_parts_dims workflow job_id m parts :
  matrix_parts workflow job_id m = Ok parts → dims_non_empty (dimensions parts).
Proof.
  apply (for_each_inv_simple _ (λ p, dims_non_empty (dimensions p))); [constructor|].
  intros e s s' _. apply matrix_entry_dims.
Qed.

Lemma expand_matrix_definition_eq workflow job_id m :
  expand_matrix_definition workflow job_id (VMapping m) =
  let? parts := matrix_parts workflow job_id m in
  if decide (length (base_combinations parts) ≤ 256 ∧ length (matrix_reference parts) ≤ 256)
  then Ok (matrix_reference parts) else Err (matrix_limit_error workflow job_id).
Proof.
  unfold expand_matrix_definition. fold (matrix_parts workflow job_id m).
  destruct (matrix_parts workflow job_id m) as [parts| |] eqn:Hparts; [|done..]. cbn [obind].
  apply matrix_parts_dims in Hparts. fold (base_combinations parts).
  rewrite matrix_dimensions_eq; [|done|by destruct (dimensions parts), (includes parts); simpl; lia].
  fold (base_combinations parts).
  destruct (decide (length (base_combinations parts) ≤ 256)) as [Hb|Hb]; cbn [obind].
  - fold (original_combinations parts). set (os := original_combinations parts).
    assert (length os ≤ 256) as Hos by (etrans; [apply length_filter | done]).
    pose proof (matrix_includes_eq workflow job_id (includes parts) ((λ c, (c, c)) <$> os) []) as He.
    rewrite <-!list_fmap_compose, app_nil_r in He. unfold compose in He. simpl in He.
    rewrite list_fmap_id in He. rewrite He by (rewrite length_fmap; lia).
    unfold matrix_reference. fold os. clear He.
    destruct (decide _), (decide _); (done || naive_solver).
  - rewrite decide_False; [done|]. naive_solver.
Qed.

Lemma expand_matrix_definition_no_panic workflow job_id v :
  expand_matrix_definition workflow job_id v ≠ Panic.
Proof.
  destruct v; try done. rewrite expand_matrix_definition_eq, obind_Panic.
  intros [H | (? & _ & H)]; [|by destruct (decide _)].
  revert H. unfold matrix_parts. apply (for_each_no_panic _ (λ _, True)); [done| |done].
  intros e s _ _. apply matrix_entry_no_panic.
Qed.

Lemma expand_matrix_no_panic workflow job_id strategy :
  expand_matrix workflow job_id strategy ≠ Panic.
Proof.
  destruct strategy as [[| | | | |m|]|]; try done. simpl. rewrite obind_Panic. intros [H | (_ & _ & H)].
  - revert H. apply (for_each_no_panic _ (λ _, True)); [done| |done].
    intros [k v] [] _ _. unfold strategy_entry, ok_or, reject_if.
    destruct (as_str k); cbn [obind]; [|done]. by repeat (case_match; try done).
  - destruct (mapping_get _ _) as [v|]; [|done]. destruct (contains_expression v); [done|].
    apply obind_Panic in H as [H | (? & _ & ?)]; [|done].
    by apply expand_matrix_definition_no_panic in H.
Qed.

(** *** What the includes keep *)

Lemma include_compatible_true original include :
  include_compatible original include = true ↔
  ∀ k v o, include !! k = Some v → original !! k = Some o → o = v.
Proof.
  unfold include_compatible. rewrite forallb_forall. split.
  - intros H k v o Hi Ho. specialize (H (k, v)). simpl in H.
    rewrite Ho in H. rewrite bool_decide_eq_true in H. apply H.
    by apply list_elem_of_In, elem_of_btree_iter.
  - intros H [k v] Hin%list_elem_of_In%elem_of_btree_iter.
    destruct (original !! k) as [o|] eqn:Ho; [|done]. apply bool_decide_eq_true. eauto.
Qed.

Lemma augment_keeps ins (original current : combination) :
  original ⊆ current → original ⊆ augment ins original current.
Proof.
  revert current; induction ins as [|i ins IH]; intros c Hc; simpl; [done|].
  apply IH. destruct (include_compatible original i) eqn:E; [|done].
  rewrite include_compatible_true in E. apply map_subseteq_spec. intros k o Ho.
  rewrite lookup_btree_extend. destruct (i !! k) as [v|] eqn:Hi.
  - f_equal. symmetry. eauto.
  - by apply (lookup_weaken _ _ _ _ Ho).
Qed.

Lemma matrix_object_matches_true (c filter : combination) :
  matrix_object_matches c filter = true ↔ filter ⊆ c.
Proof.
  unfold matrix_object_matches. rewrite forallb_forall, map_subseteq_spec. split.
  - intros H k v Hf. specialize (H (k, v)). simpl in H.
    rewrite bool_decide_eq_true in H. apply H. by apply list_elem_of_In, elem_of_btree_iter.
  - intros H [k v] Hin%list_elem_of_In%elem_of_btree_iter. apply bool_decide_eq_true. auto.
Qed.
End lemmas.

Section properties.
Context `{VL : ValueLib}.

(** C38: the loops of the expansion, with their early exits, compute the
    reference matrix: the product of the dimensions less the excludes, each
    point augmented by the includes that agree with it, then the includes that
    agree with none; and they fail exactly when the product or the result
    exceeds 256 jobs. *)
Theorem expand_matrix_refines_reference workflow job_id m :
  expand_matrix_definition workflow job_id (VMapping m) =
  let? parts := matrix_parts workflow job_id m in
  if decide (length (base_combinations parts) ≤ 256 ∧ length (matrix_reference parts) ≤ 256)
  then Ok (matrix_reference parts)
  else Err (incompatible workflow job_id "matrix expands beyond GitHub's 256-job limit").
Proof. apply expand_matrix_definition_eq. Qed.

(** a strategy never expands to more than 256 jobs, whatever its
    dimensions, and its expansion never indexes out of range. *)
Theorem expand_matrix_bounded workflow job_id strategy :
  expand_matrix workflow job_id strategy ≠ Panic ∧
  ∀ plan, expand_matrix workflow job_id strategy = Ok plan → length (mp_combinations plan) ≤ 256.
Proof.
  split; [apply expand_matrix_no_panic|].
  intros plan. destruct strategy as [[| | | | |m|]|]; simpl; try done.
  2: { intros [= <-]. simpl. lia. }
  intros (_ & _ & H)%obind_Ok. destruct (mapping_get _ _) as [v|].
  2: { injection H as <-. simpl. lia. }
  destruct (contains_expression v); [injection H as <-; simpl; lia|].
  apply obind_Ok in H as (cs & Hc & [= <-]). simpl.
  destruct v; try done. rewrite expand_matrix_definition_eq in Hc.
  apply obind_Ok in Hc as (parts & _ & Hc). destruct (decide _) as [[_ Hl]|]; by simplify_eq.
Qed.

(** every job of a matrix keeps the dimension values of a point of the
    product that no exclude matches - an include can add keys to it but never
    change one - or is an include that disagrees with every such point. *)
Theorem matrix_combination_origin workflow job_id m parts combos x :
  matrix_parts workflow job_id m = Ok parts →
  expand_matrix_definition workflow job_id (VMapping m) = Ok combos →
  x ∈ combos →
  (∃ c, c ∈ base_combinations parts ∧ c ⊆ x ∧ (∀ e, e ∈ excludes parts → ¬ e ⊆ c)) ∨
  (x ∈ includes parts ∧
   ∀ c, c ∈ original_combinations parts → ∃ k v o, x !! k = Some v ∧ c !! k = Some o ∧ o ≠ v).
Proof.
  intros Hparts H Hx. rewrite expand_matrix_definition_eq, Hparts in H. cbn [obind] in H.
  destruct (decide _); [|done]. apply Ok_inj in H. subst combos.
  unfold matrix_reference in Hx. apply elem_of_app in Hx as [Hx | Hx].
  - left. apply list_elem_of_fmap in Hx as (c & -> & Hc).
    exists c. apply list_elem_of_filter in Hc as [He Hc].
    split_and!; [done | by apply augment_keeps |].
    intros e Hin Hsub%matrix_object_matches_true.
    rewrite existsb_false_elem in He. by rewrite (He e Hin) in Hsub.
  - right. apply list_elem_of_filter in Hx as [He Hx]. split; [done|].
    intros c Hc. rewrite existsb_false_elem in He. specialize (He c Hc).
    apply forallb_false_elem in He as ([k v] & Hin%elem_of_btree_iter & Hne).
    destruct (c !! k) as [o|] eqn:Ho; [|done]. apply bool_decide_eq_false in Hne. by exists k, v, o.
Qed.
End properties.

Section witnesses.
#[local] Existing Instances demo_values demo_value_lib.

Definition demo_matrix : Mapping :=
  [(VString "os", VSequence [VString "linux"; VString "mac"]);
   (VString "rust", VSequence [VString "stable"; VString "beta"]);
   (VString "include", VSequence [
      VMapping [(VString "os", VString "linux"); (VString "cache", VString "yes")];
      VMapping [(VString "os", VString "windows")]]);
   (VString "exclude", VSequence [
      VMapping [(VString "os", VString "mac"); (VString "rust", VString "beta")]])].

Example demo_matrix_jobs :
  omap_ok (fmap btree_iter) (expand_matrix_definition "ci" "test" (VMapping demo_matrix)) =
  Ok [[("cache", "yes"); ("os", "linux"); ("rust", "stable")];
      [("cache", "yes"); ("os", "linux"); ("rust", "beta")];
      [("os", "mac"); ("rust", "stable")];
      [("os", "windows")]].
Proof. vm_compute. reflexivity. Qed.

Lemma expand_matrix_bounded_witness :
  length (mp_combinations (mkMatrixPlan [∅] None)) ≤ 256.
Proof. by apply (expand_matrix_bounded "ci" "test" None). Defined.

Lemma matrix_combination_origin_witness :
  ∃ parts (combos : list (gmap string json)) x, x ∈ combos ∧
  ((∃ c, c ∈ base_combinations parts ∧ c ⊆ x ∧ (∀ e, e ∈ excludes parts → ¬ e ⊆ c)) ∨
   (x ∈ includes parts ∧
    ∀ c, c ∈ original_combinations parts → ∃ k v o, x !! k = Some v ∧ c !! k = Some o ∧ o ≠ v)).
Proof.
  destruct (is_ok_inv (matrix_parts "ci" "test" demo_matrix)) as [parts Hp];
    [vm_compute; reflexivity|].
  destruct (is_ok_inv (let? combos := expand_matrix_definition "ci" "test" (VMapping demo_matrix) in
                       expect (combos !! 0))) as [x (combos & Hc & Hx%expect_Ok)%obind_Ok];
    [vm_compute; reflexivity|].
  apply list_elem_of_lookup_2 in Hx. exists parts, combos, x. split; [done|].
  exact (matrix_combination_origin "ci" "test" demo_matrix parts combos x Hp Hc Hx).
Defined.
End witnesses.
