(* ===== verification/Steps.v ===== *)
(** * Steps (crates/gitzero-workflow)

    [compile_steps]: the steps of a job flattened into planned steps, with the
    six variables the recursive [compile_step] threads by reference as the
    fields of one record. *)

From S2P Require Import Prelude RustStr OrdMap Yaml Expression Evaluate Templates Workflow Validate Instances.

(** [actions/checkout@<version>] *)
Definition is_checkout_action (action : string) : bool :=
  match split_once "@" action with
  | Some (name, version) => bool_decide (name = "actions/checkout") && negb (is_empty version)
  | None => false
  end.

Record StepState := mkStepState {
  steps : list PlannedStep;
  action_occurrences : gmap string nat;
  step_ids : gset string;
  background_ids : gmap string string;
  next_step_number : nat;
  next_parallel_group : nat;
}.

#[export] Instance StepState_updatable : Updatable StepState := λ s,
  mkStepState (steps s) (action_occurrences s) (step_ids s) (background_ids s)
    (next_step_number s) (next_parallel_group s).

Definition step_state_new : StepState := mkStepState [] ∅ ∅ ∅ 1 1.

Definition register_step_id (workflow job_id step_id : string) (st : StepState)
    : outcome WorkflowError StepState :=
  let key := to_ascii_lowercase step_id in
  reject_if (bool_decide (key ∈ step_ids st))
    (incompatible workflow job_id ("step id '" +:+ step_id +:+ "' is duplicated")) ;?
  Ok (st <| step_ids := {[key]} ∪ step_ids st |>).

Definition resolve_background_ids (workflow job_id control : string) (ids : list string)
    (background_ids : gmap string string) : outcome WorkflowError (list string) :=
  traverse (λ id,
    ok_or (background_ids !! to_ascii_lowercase id)
      (incompatible workflow job_id
         (control +:+ " references unknown prior background step '" +:+ id +:+ "'"))) ids.

Definition push_step (step : PlannedStep) (st : StepState) : StepState :=
  st <| steps := steps st ++ [step] |>.

(** [let generated_id = format!("step-{}", *next_step_number); *next_step_number += 1;] *)
Definition next_generated_id (st : StepState) : string * StepState :=
  ("step-" +:+ pretty (next_step_number st),
   st <| next_step_number := S (next_step_number st) |>).

Section steps.
Context `{VL : ValueLib}.

(** The unknown keys and the value of [wait-all]. *)
Definition check_step_extra (workflow job_id : string) (step : Step)
    : outcome WorkflowError (option Value) :=
  let wait_all := s_extra step !! "wait-all" in
  match head (base.filter (λ feature, feature ≠ "wait-all") (btree_keys (s_extra step))) with
  | Some feature =>
      Err (incompatible workflow job_id ("step uses unsupported key '" +:+ feature +:+ "'"))
  | None =>
      match wait_all with
      | Some value =>
          reject_if (negb (is_null value))
            (incompatible workflow job_id "wait-all does not accept a value") ;?
          Ok wait_all
      | None => Ok None
      end
  end.

Definition parallel_has_other_fields (step : Step) (wait_all : option Value) : bool :=
  is_some (s_id step) || is_some (s_name step) || is_some (s_run step) || is_some (s_uses step)
  || is_some (s_shell step) || is_some (s_working_directory step)
  || negb (btree_is_empty (s_env step)) || negb (btree_is_empty (s_with step))
  || is_some (s_condition step) || is_some (s_continue_on_error step)
  || is_some (s_timeout_minutes step) || is_some (s_background step)
  || is_some (s_wait step) || is_some (s_cancel step) || is_some wait_all.

Definition parallel_child_is_special (child : Step) : bool :=
  is_some (s_background child) || is_some (s_wait child) || is_some (s_cancel child)
  || is_some (s_parallel child) || btree_contains "wait-all" (s_extra child).

(** [compile_step] on [wait], [wait-all] and [cancel] *)
Definition control_fields (step : Step) (wait_all : option Value) : nat :=
  Nat.b2n (is_some (s_wait step)) + Nat.b2n (is_some wait_all) + Nat.b2n (is_some (s_cancel step)).

Definition control_has_other_fields (step : Step) (wait_all : option Value)
    (parallel_background : bool) : bool :=
  negb (bool_decide (control_fields step wait_all = 1))
  || parallel_background || is_some (s_run step) || is_some (s_uses step)
  || is_some (s_shell step) || is_some (s_working_directory step)
  || negb (btree_is_empty (s_env step)) || negb (btree_is_empty (s_with step))
  || is_some (s_condition step) || is_some (s_timeout_minutes step)
  || is_some (s_background step).

Definition control_kind (workflow job_id : string) (step : Step) (wait_all : option Value)
    (background_ids : gmap string string) : outcome WorkflowError StepKind :=
  match s_wait step with
  | Some wait =>
      let? ids := resolve_background_ids workflow job_id "wait" (references_list wait)
                    background_ids in
      Ok (KWait ids)
  | None =>
      if is_some wait_all then Ok KWaitAll
      else
        let? id := expect (s_cancel step) in
        let? ids := resolve_background_ids workflow job_id "cancel" [scalar_str id]
                      background_ids in
        let? first := expect (ids !! 0) in
        Ok (KCancel first)
  end.

(** [_ => unreachable!("control step kind")] *)
Definition control_name (kind : StepKind) : outcome WorkflowError string :=
  match kind with
  | KWait _ => Ok "Wait for background steps"
  | KWaitAll => Ok "Wait for all background steps"
  | KCancel _ => Ok "Cancel background step"
  | _ => Panic
  end.

Definition control_action (kind : StepKind) : outcome WorkflowError string :=
  match kind with
  | KWait _ => Ok "__wait"
  | KWaitAll => Ok "__wait_all"
  | KCancel _ => Ok "__cancel"
  | _ => Panic
  end.

(** [o.unwrap_or_else(f)] with an [f] that may panic. *)
Definition unwrap_or_else {A} (o : option A) (f : outcome WorkflowError A)
    : outcome WorkflowError A :=
  match o with Some a => Ok a | None => f end.

Definition compile_control_step (workflow job_id : string) (step : Step)
    (wait_all : option Value) (parallel_background : bool) (st : StepState)
    : outcome WorkflowError (string * StepState) :=
  reject_if (control_has_other_fields step wait_all parallel_background)
    (incompatible workflow job_id
       "wait, wait-all, and cancel must be standalone control steps without if") ;?
  let? kind := control_kind workflow job_id step wait_all (background_ids st) in
  let '(generated_id, st) := next_generated_id st in
  let id := default generated_id (s_id step) in
  let? st := register_step_id workflow job_id id st in
  let? name := unwrap_or_else (s_name step) (control_name kind) in
  let? github_action := unwrap_or_else (s_id step) (control_action kind) in
  Ok (id, push_step {|
    ps_id := id;
    ps_github_action := github_action;
    ps_name := name;
    ps_environment := ∅;
    ps_working_directory := None;
    ps_condition := None;
    ps_continue_on_error := scalar_str <$> s_continue_on_error step;
    ps_timeout_minutes := None;
    ps_background := None;
    ps_kind := kind;
  |} st).

(** [compile_step] on an ordinary [run] or [uses] step *)
Definition ordinary_kind (workflow job_id step_name : string) (step : Step)
    (default_shell : option string) : outcome WorkflowError StepKind :=
  match s_run step, s_uses step with
  | Some script, None =>
      if btree_is_empty (s_with step) then
        let shell := match s_shell step with Some shell => Some shell | None => default_shell end in
        Ok (KRun (default "bash -e {0}" shell) script)
      else Err (incompatible workflow job_id
             ("step '" +:+ step_name +:+ "' supplies with inputs to a run step"))
  | None, Some action =>
      if is_checkout_action action then Ok (KCheckout (scalar_map (s_with step)))
      else Ok (KUses action (scalar_map (s_with step)))
  | _, _ => Err (incompatible workflow job_id
             ("step '" +:+ step_name +:+ "' must define exactly one of run or uses"))
  end.

(** [_ => unreachable!("ordinary step kind")] *)
Definition kind_action_base (kind : StepKind) : outcome WorkflowError string :=
  match kind with
  | KRun _ _ => Ok "__run"
  | KCheckout _ => Ok "actionscheckout"
  | KUses action _ =>
      Ok (string_filter is_ascii_alphanumeric (default action (head (split "@" action))))
  | _ => Panic
  end.

Definition is_run (kind : StepKind) : bool :=
  match kind with KRun _ _ => true | _ => false end.

(** [github_action]: the base, then the base with its occurrence count. *)
Definition occurrence_name (kind : StepKind) (action_base : string) (occurrence : nat) : string :=
  if bool_decide (occurrence = 1) then action_base
  else if is_run kind then action_base +:+ "_" +:+ pretty occurrence
  else action_base +:+ pretty occurrence.

Definition compile_ordinary_step (workflow job_id : string) (step : Step)
    (parallel_background : bool) (default_shell default_working_directory : option string)
    (st : StepState) : outcome WorkflowError (string * StepState) :=
  let '(generated_id, st) := next_generated_id st in
  let step_id := default generated_id (s_id step) in
  let? st := register_step_id workflow job_id step_id st in
  let step_name :=
    match s_name step with
    | Some name => name
    | None =>
        match s_uses step with
        | Some uses => uses
        | None => match s_run step with Some _ => "Run" | None => step_id end
        end
    end in
  reject_if (is_some (s_uses step)
             && (is_some (s_shell step) || is_some (s_working_directory step)))
    (incompatible workflow job_id
       ("step '" +:+ step_name +:+ "' assigns run-only shell or working-directory fields")) ;?
  let? kind := ordinary_kind workflow job_id step_name step default_shell in
  let? action_base := unwrap_or_else (s_id step) (kind_action_base kind) in
  let occurrence := S (default 0 (action_occurrences st !! action_base)) in
  let st := st <| action_occurrences := <[action_base := occurrence]> (action_occurrences st) |> in
  let github_action := occurrence_name kind action_base occurrence in
  let background :=
    if parallel_background then Some "true" else scalar_str <$> s_background step in
  let st :=
    if is_some (s_id step) && negb (bool_decide (background = Some "false"))
       && is_some background
    then st <| background_ids :=
                 <[to_ascii_lowercase step_id := step_id]> (background_ids st) |>
    else st in
  Ok (step_id, push_step {|
    ps_id := step_id;
    ps_github_action := github_action;
    ps_name := step_name;
    ps_environment := scalar_map (s_env step);
    ps_working_directory :=
      if is_run kind then
        match s_working_directory step with
        | Some directory => Some directory
        | None => default_working_directory
        end
      else None;
    ps_condition := scalar_str <$> s_condition step;
    ps_continue_on_error := scalar_str <$> s_continue_on_error step;
    ps_timeout_minutes := scalar_str <$> s_timeout_minutes step;
    ps_background := background;
    ps_kind := kind;
  |} st).

Definition parallel_wait_step (id : string) (group_ids : list string) : PlannedStep := {|
  ps_id := id;
  ps_github_action := id;
  ps_name := "Wait for parallel steps";
  ps_environment := ∅;
  ps_working_directory := None;
  ps_condition := None;
  ps_continue_on_error := None;
  ps_timeout_minutes := None;
  ps_background := None;
  ps_kind := KWait group_ids;
|}.

(** [compile_step]: a parallel group, a control step or an ordinary one. *)
Fixpoint compile_step (workflow job_id : string)
    (default_shell default_working_directory : option string)
    (step : Step) (parallel_background : bool) (st : StepState)
    : outcome WorkflowError (string * StepState) :=
  let? wait_all := check_step_extra workflow job_id step in
  match s_parallel step with
  | Some parallel =>
      reject_if parallel_background
        (incompatible workflow job_id "parallel groups cannot be nested") ;?
      reject_if (is_nil parallel)
        (incompatible workflow job_id "parallel must contain at least one step") ;?
      reject_if (parallel_has_other_fields step wait_all)
        (incompatible workflow job_id "parallel cannot be combined with other step fields") ;?
      let group := next_parallel_group st in
      let st := st <| next_parallel_group := S group |> in
      let? '(group_ids, st) := for_each (λ child '(group_ids, st),
        reject_if (parallel_child_is_special child)
          (incompatible workflow job_id "parallel entries must be ordinary run or uses steps") ;?
        let? '(id, st) := compile_step workflow job_id default_shell default_working_directory
                            child true st in
        Ok (group_ids ++ [id], st)) parallel ([], st) in
      let id := "__parallel_" +:+ pretty group +:+ "_wait" in
      let? st := register_step_id workflow job_id id st in
      let st := push_step (parallel_wait_step id group_ids) st in
      Ok (id, st <| next_step_number := S (next_step_number st) |>)
  | None =>
      if bool_decide (0 < control_fields step wait_all)
      then compile_control_step workflow job_id step wait_all parallel_background st
      else compile_ordinary_step workflow job_id step parallel_background default_shell
             default_working_directory st
  end.

Definition compile_steps (workflow job_id : string) (source_steps : list Step)
    (default_shell default_working_directory : option string)
    : outcome WorkflowError (list PlannedStep) :=
  let? st := for_each (λ step st,
    let? '(_, st) := compile_step workflow job_id default_shell default_working_directory
                       step false st in
    Ok st) source_steps step_state_new in
  Ok (steps st).
End steps.

(** ** The invariant of the loop *)

(** The ids a control step waits for or cancels. *)
Definition step_targets (kind : StepKind) : list string :=
  match kind with
  | KWait ids => ids
  | KCancel id => [id]
  | _ => []
  end.

(** The step runs in the background, or its [background:] is an expression
    that may say so. *)
Definition is_background (p : PlannedStep) : Prop :=
  ∃ b, ps_background p = Some b ∧ b ≠ "false".

Definition has_background (ps : list PlannedStep) (id : string) : Prop :=
  ∃ p, p ∈ ps ∧ ps_id p = id ∧ is_background p.

Definition lower_ids (ps : list PlannedStep) : list string :=
  (λ p, to_ascii_lowercase (ps_id p)) <$> ps.

(** Every target of a control step is an earlier background step. *)
Definition refers_back (ps : list PlannedStep) : Prop :=
  ∀ i p, ps !! i = Some p →
  ∀ id, id ∈ step_targets (ps_kind p) → has_background (take i ps) id.

Record steps_ok (ps : list PlannedStep) (ids : gset string) (bg : gmap string string) : Prop := {
  so_ids : ids = list_to_set (lower_ids ps);
  so_nodup : NoDup (lower_ids ps);
  so_background k id : bg !! k = Some id → has_background ps id;
  so_refers : refers_back ps;
}.

Definition state_ok (st : StepState) : Prop :=
  steps_ok (steps st) (step_ids st) (background_ids st).

Lemma has_background_app ps p id : has_background ps id → has_background (ps ++ [p]) id.
Proof. intros (q & ? & ?). exists q. set_solver. Qed.

Lemma has_background_last ps p : is_background p → has_background (ps ++ [p]) (ps_id p).
Proof. exists p. set_solver. Qed.

Lemma steps_ok_push ps ids bg p :
  steps_ok ps ids bg → to_ascii_lowercase (ps_id p) ∉ ids →
  (∀ id, id ∈ step_targets (ps_kind p) → has_background ps id) →
  steps_ok (ps ++ [p]) ({[to_ascii_lowercase (ps_id p)]} ∪ ids) bg.
Proof.
  intros [Hids Hnd Hbg Href] Hfresh Ht. subst ids. split.
  - unfold lower_ids. rewrite fmap_app, list_to_set_app_L. simpl. set_solver.
  - unfold lower_ids. rewrite fmap_app. apply NoDup_app. split_and!; [done| |by apply NoDup_singleton].
    intros x Hx. simpl. rewrite list_elem_of_singleton. intros ->.
    apply Hfresh. by apply elem_of_list_to_set.
  - intros k id Hk. apply has_background_app. eauto.
  - intros i q Hi id Hid. destruct (decide (i < length ps)) as [Hlt|Hge].
    + rewrite lookup_app_l in Hi by done. rewrite take_app_le by lia. eauto.
    + rewrite lookup_app_r in Hi by lia.
      apply list_lookup_singleton_Some in Hi as [Hz <-].
      rewrite take_app_ge by lia.
      replace (i - length ps) with 0 by lia. rewrite app_nil_r. auto.
Qed.

Lemma steps_ok_background ps ids bg k id :
  steps_ok ps ids bg → has_background ps id → steps_ok ps ids (<[k := id]> bg).
Proof.
  intros [Hids Hnd Hbg Href] Hid. split; try done.
  intros k' id'. destruct (decide (k = k')) as [->|Hne].
  - rewrite lookup_insert_eq. by intros [= <-].
  - rewrite lookup_insert_ne by done. apply Hbg.
Qed.

Lemma state_ok_new : state_ok step_state_new.
Proof.
  split; simpl; [done | constructor | by intros k id ?%lookup_empty_Some |].
  intros i p Hi. by rewrite lookup_nil in Hi.
Qed.

Lemma register_step_id_Ok workflow job_id id st st' :
  register_step_id workflow job_id id st = Ok st' ↔
  to_ascii_lowercase id ∉ step_ids st ∧
  st' = st <| step_ids := {[to_ascii_lowercase id]} ∪ step_ids st |>.
Proof.
  unfold register_step_id. case_bool_decide; simpl; split; try done.
  - naive_solver.
  - by intros [= <-].
  - by intros [_ ->].
Qed.

Lemma register_step_id_no_panic workflow job_id id st :
  register_step_id workflow job_id id st ≠ Panic.
Proof. unfold register_step_id. by case_bool_decide. Qed.

Lemma resolve_background_ids_Ok workflow job_id control ids bg resolved :
  resolve_background_ids workflow job_id control ids bg = Ok resolved →
  length resolved = length ids ∧ ∀ id, id ∈ resolved → ∃ k, bg !! k = Some id.
Proof.
  intros H. pose proof (traverse_length _ _ _ H). split; [done|].
  apply traverse_Ok in H. intros id Hid.
  apply list_elem_of_lookup in Hid as [i Hi].
  destruct (Forall2_lookup_r _ _ _ _ _ H Hi) as (x & _ & Hx%ok_or_Ok). eauto.
Qed.

Lemma resolve_background_ids_no_panic workflow job_id control ids bg :
  resolve_background_ids workflow job_id control ids bg ≠ Panic.
Proof. apply traverse_no_panic. intros. apply ok_or_Panic. Qed.

(** ** What a step becomes *)

Section source.
Context `{VL : ValueLib}.

(** The planned step of a plain step, less its id and occurrence count. *)
Definition planned_from (default_shell : option string) (step : Step) (p : PlannedStep) : Prop :=
  (∀ id, s_id step = Some id → ps_id p = id) ∧
  (∀ name, s_name step = Some name → ps_name p = name) ∧
  ps_condition p = scalar_str <$> s_condition step ∧
  ps_continue_on_error p = scalar_str <$> s_continue_on_error step ∧
  ps_timeout_minutes p = scalar_str <$> s_timeout_minutes step ∧
  ps_environment p = scalar_map (s_env step) ∧
  match ps_kind p with
  | KRun shell script =>
      s_run step = Some script ∧ s_uses step = None ∧ s_with step = ∅ ∧
      shell = default (default "bash -e {0}" default_shell) (s_shell step)
  | KUses action inputs =>
      s_uses step = Some action ∧ s_run step = None ∧ is_checkout_action action = false ∧
      inputs = scalar_map (s_with step) ∧ s_shell step = None ∧ s_working_directory step = None
  | KCheckout inputs =>
      ∃ action, s_uses step = Some action ∧ s_run step = None ∧
      is_checkout_action action = true ∧ inputs = scalar_map (s_with step) ∧
      s_shell step = None ∧ s_working_directory step = None
  | KWait _ => is_Some (s_wait step) ∧ s_run step = None ∧ s_uses step = None
  | KWaitAll => is_Some (s_extra step !! "wait-all") ∧ s_run step = None ∧ s_uses step = None
  | KCancel _ => is_Some (s_cancel step) ∧ s_run step = None ∧ s_uses step = None
  end.

(** The steps of a job in execution order: the children of a parallel group,
    then the wait the compiler adds for them. *)
Definition flatten_steps (source : list Step) : list (option Step) :=
  source ≫= λ step,
    match s_parallel step with
    | Some parallel => (Some <$> parallel) ++ [None]
    | None => [Some step]
    end.

Definition planned_as (default_shell : option string) (source : option Step) (p : PlannedStep)
    : Prop :=
  match source with
  | Some step => planned_from default_shell step p
  | None => ∃ ids, ps_kind p = KWait ids
  end.

(** What compiling a step that is not a parallel group does to the state. *)
Record plain_step (default_shell : option string) (step : Step) (parallel_background : bool)
    (st : StepState) (id : string) (st' : StepState) (p : PlannedStep) : Prop := {
  pl_steps : steps st' = steps st ++ [p];
  pl_id : ps_id p = id;
  pl_fresh : to_ascii_lowercase id ∉ step_ids st;
  pl_ids : step_ids st' = {[to_ascii_lowercase id]} ∪ step_ids st;
  pl_background : background_ids st' = background_ids st ∨
    is_background p ∧ background_ids st' = <[to_ascii_lowercase id := id]> (background_ids st);
  pl_targets t : t ∈ step_targets (ps_kind p) → ∃ k, background_ids st !! k = Some t;
  pl_parallel : parallel_background = true → is_background p;
  pl_from : planned_from default_shell step p;
}.

Lemma plain_step_ok default_shell step pb st id st' p :
  plain_step default_shell step pb st id st' p → state_ok st → state_ok st'.
Proof.
  intros [Hs Hid Hf Hids Hbg Ht _ _] Hok. unfold state_ok. rewrite Hs, Hids.
  assert (steps_ok (steps st ++ [p]) ({[to_ascii_lowercase id]} ∪ step_ids st) (background_ids st))
    as Hpush.
  { rewrite <-Hid. apply steps_ok_push; [done | by rewrite Hid|].
    intros t [k Hk]%Ht. by eapply so_background. }
  destruct Hbg as [-> | [Hb ->]]; [done|]. rewrite <-Hid at 3.
  apply steps_ok_background; [done|]. by apply has_background_last.
Qed.
End source.

Lemma btree_not_empty_false {V} (m : gmap string V) : negb (btree_is_empty m) = false ↔ m = ∅.
Proof. unfold btree_is_empty. by rewrite negb_false_iff, bool_decide_eq_true. Qed.

Lemma unwrap_or_else_Ok {A} (o : option A) (f : outcome WorkflowError A) a :
  unwrap_or_else o f = Ok a ↔ o = Some a ∨ o = None ∧ f = Ok a.
Proof. destruct o; simpl; naive_solver. Qed.

(** Split a conjunction of failed [||] tests into the facts they say. *)
Ltac split_orb_false :=
  repeat match goal with
  | H : (_ || _)%bool = false |- _ => apply orb_false_elim in H as [? ?]
  | H : is_some _ = false |- _ => apply is_some_false in H
  | H : negb (btree_is_empty _) = false |- _ => apply btree_not_empty_false in H
  end.

(** Rewrite with the fields known to be absent. *)
Ltac rewrite_absent :=
  repeat match goal with
  | H : _ = None |- _ => rewrite H
  | H : _ = ∅ |- _ => rewrite H
  end.

Section lemmas.
Context `{VL : ValueLib}.

Lemma check_step_extra_Ok workflow job_id step w :
  check_step_extra workflow job_id step = Ok w → w = s_extra step !! "wait-all".
Proof.
  unfold check_step_extra. destruct (head _); [done|].
  destruct (s_extra step !! "wait-all"); [|by intros [= <-]].
  by intros (? & _ & [= <-])%obind_Ok.
Qed.

Lemma check_step_extra_no_panic workflow job_id step :
  check_step_extra workflow job_id step ≠ Panic.
Proof.
  unfold check_step_extra, reject_if. destruct (head _); [done|].
  destruct (s_extra step !! "wait-all"); [|done]. by case_match.
Qed.

(** *** Control steps *)

Lemma control_kind_Ok workflow job_id step w bg kind :
  control_kind workflow job_id step w bg = Ok kind →
  (∀ t, t ∈ step_targets kind → ∃ k, bg !! k = Some t) ∧
  match kind with
  | KWait _ => is_Some (s_wait step)
  | KWaitAll => is_Some w
  | KCancel _ => is_Some (s_cancel step)
  | _ => False
  end.
Proof.
  unfold control_kind. destruct (s_wait step) as [wait|].
  - intros (ids & Hids & [= <-])%obind_Ok. simpl. split; [|done].
    by apply resolve_background_ids_Ok in Hids as [_ ?].
  - destruct w as [w|]; simpl.
    + intros [= <-]. simpl. split; [|done]. by intros t ?%not_elem_of_nil.
    + intros (id & Hid%expect_Ok & H)%obind_Ok.
      apply obind_Ok in H as (ids & Hids & H).
      apply obind_Ok in H as (first & Hfirst%expect_Ok & [= <-]).
      apply resolve_background_ids_Ok in Hids as [_ Hids].
      split; [|rewrite Hid; done]. simpl. intros t ->%list_elem_of_singleton.
      apply Hids. by eapply list_elem_of_lookup_2.
Qed.

Lemma control_kind_no_panic workflow job_id step w bg :
  0 < control_fields step w → control_kind workflow job_id step w bg ≠ Panic.
Proof.
  unfold control_fields, control_kind. intros Hc.
  destruct (s_wait step), w, (s_cancel step) as [cancel|]; simpl in *; try lia; try done.
  all: rewrite obind_Panic; intros [H | (ids & Hids & H)];
    [by apply resolve_background_ids_no_panic in H|]; try done.
  apply resolve_background_ids_Ok in Hids as [Hlen _].
  destruct ids; [done|]. simpl in H. done.
Qed.

Lemma compile_control_step_Ok default_shell workflow job_id step w pb st id st' :
  w = s_extra step !! "wait-all" →
  compile_control_step workflow job_id step w pb st = Ok (id, st') →
  ∃ p, plain_step default_shell step pb st id st' p.
Proof.
  intros Hw. unfold compile_control_step.
  intros (? & Hother%reject_if_Ok & H)%obind_Ok.
  apply obind_Ok in H as (kind & Hkind & H). simpl in H.
  apply obind_Ok in H as (st1 & [Hf ->]%register_step_id_Ok & H).
  apply obind_Ok in H as (name & Hname%unwrap_or_else_Ok & H).
  apply obind_Ok in H as (action & _ & [= Hid <-]).
  apply control_kind_Ok in Hkind as [Ht Hkind].
  unfold control_has_other_fields in Hother. split_orb_false.
  subst w. eexists. split; simpl; try done.
  - rewrite Hid in *. done.
  - by rewrite Hid.
  - by left.
  - congruence.
  - unfold planned_from; simpl. split_and!.
    + intros i Hi. by rewrite Hi.
    + intros n Hn. destruct Hname as [?|[? ?]]; congruence.
    + by rewrite_absent.
    + done.
    + by rewrite_absent.
    + by rewrite_absent.
    + destruct kind; naive_solver.
Qed.

(** *** Ordinary steps *)

Lemma ordinary_kind_Ok workflow job_id name step default_shell kind :
  ordinary_kind workflow job_id name step default_shell = Ok kind →
  step_targets kind = [] ∧
  match kind with
  | KRun shell script =>
      s_run step = Some script ∧ s_uses step = None ∧ s_with step = ∅ ∧
      shell = default (default "bash -e {0}" default_shell) (s_shell step)
  | KUses action inputs =>
      s_uses step = Some action ∧ s_run step = None ∧ is_checkout_action action = false ∧
      inputs = scalar_map (s_with step)
  | KCheckout inputs =>
      ∃ action, s_uses step = Some action ∧ s_run step = None ∧
      is_checkout_action action = true ∧ inputs = scalar_map (s_with step)
  | _ => False
  end.
Proof.
  unfold ordinary_kind, btree_is_empty.
  destruct (s_run step) as [script|], (s_uses step) as [action|]; try done.
  - case_bool_decide; [|done]. intros [= <-]. simpl. by destruct (s_shell step).
  - destruct (is_checkout_action action) eqn:E; intros [= <-]; simpl; [|done].
    split; [done|]. by exists action.
Qed.

Lemma ordinary_kind_no_panic workflow job_id name step default_shell :
  ordinary_kind workflow job_id name step default_shell ≠ Panic.
Proof. unfold ordinary_kind. by repeat case_match. Qed.

Lemma compile_ordinary_step_Ok workflow job_id step pb default_shell dwd st id st' :
  compile_ordinary_step workflow job_id step pb default_shell dwd st = Ok (id, st') →
  ∃ p, plain_step default_shell step pb st id st' p.
Proof.
  unfold compile_ordinary_step. simpl.
  intros (st1 & [Hf ->]%register_step_id_Ok & H)%obind_Ok.
  apply obind_Ok in H as (? & Hfields%reject_if_Ok & H).
  apply obind_Ok in H as (kind & Hkind & H).
  apply obind_Ok in H as (base & _ & [= Hid <-]).
  rewrite Hid in Hf.
  apply ordinary_kind_Ok in Hkind as [Ht Hkind].
  eexists. split.
  - simpl. by destruct (is_some (s_id step) && _ && _).
  - done.
  - done.
  - simpl. rewrite <-Hid. by destruct (is_some (s_id step) && _ && _).
  - simpl. rewrite <-Hid. destruct (is_some (s_id step) && _ && _) eqn:E; [right | by left].
    split; [|done]. apply andb_prop in E as [[_ E1]%andb_prop E2].
    destruct (if pb then _ else _) as [b|] eqn:Hb; [|done].
    exists b. split; [done|]. intros ->. done.
  - simpl. rewrite Ht. by intros t ?%not_elem_of_nil.
  - intros ->. by exists "true".
  - unfold planned_from; simpl. split_and!; try done.
    + intros i Hi. by rewrite Hi.
    + intros n Hn. by rewrite Hn.
    + destruct kind; try done.
      * destruct Hkind as (a & Ha & ? & ? & ?). rewrite Ha in Hfields. simpl in Hfields.
        split_orb_false. eauto 10.
      * destruct Hkind as (Ha & ? & ? & ?). rewrite Ha in Hfields. simpl in Hfields.
        split_orb_false. eauto 10.
Qed.

Lemma compile_ordinary_step_no_panic workflow job_id step pb default_shell dwd st :
  compile_ordinary_step workflow job_id step pb default_shell dwd st ≠ Panic.
Proof.
  unfold compile_ordinary_step. simpl. rewrite obind_Panic.
  intros [H | (st1 & _ & H)]; [by apply register_step_id_no_panic in H|].
  apply obind_Panic in H as [H | (? & _ & H)]; [by apply reject_if_Panic in H|].
  apply obind_Panic in H as [H | (kind & Hk & H)]; [by apply ordinary_kind_no_panic in H|].
  apply obind_Panic in H as [H | (? & _ & H)]; [|done].
  apply ordinary_kind_Ok in Hk as [_ Hk].
  destruct (s_id step), kind; naive_solver.
Qed.

Lemma compile_control_step_no_panic workflow job_id step w pb st :
  0 < control_fields step w → compile_control_step workflow job_id step w pb st ≠ Panic.
Proof.
  intros Hc. unfold compile_control_step. simpl. rewrite obind_Panic.
  intros [H | (? & _ & H)]; [by apply reject_if_Panic in H|].
  apply obind_Panic in H as [H | (kind & Hk & H)]; [by apply control_kind_no_panic in H|].
  apply obind_Panic in H as [H | (st1 & _ & H)]; [by apply register_step_id_no_panic in H|].
  apply control_kind_Ok in Hk as [_ Hk].
  apply obind_Panic in H as [H | (? & _ & H)]; [destruct (s_name step), kind; naive_solver|].
  apply obind_Panic in H as [H | (? & _ & H)]; [|done].
  destruct (s_id step), kind; naive_solver.
Qed.
End lemmas.

(** ** Parallel groups and the whole job *)

Section job.
Context `{VL : ValueLib}.
Context (workflow job_id : string) (default_shell dwd : option string).

(** What compiling [source] adds to the planned steps. *)
Definition extends_by (source : list (option Step)) (st st' : StepState) : Prop :=
  ∃ ps, steps st' = steps st ++ ps ∧ Forall2 (planned_as default_shell) source ps.

Lemma extends_by_nil st : extends_by [] st st.
Proof. exists []. by rewrite app_nil_r. Qed.

Lemma extends_by_app s1 s2 st1 st2 st3 :
  extends_by s1 st1 st2 → extends_by s2 st2 st3 → extends_by (s1 ++ s2) st1 st3.
Proof.
  intros (p1 & E1 & H1) (p2 & E2 & H2). exists (p1 ++ p2).
  rewrite E2, E1, app_assoc. split; [done | by apply Forall2_app].
Qed.

Lemma plain_step_extends step pb st id st' p :
  plain_step default_shell step pb st id st' p → extends_by [Some step] st st'.
Proof. intros H. exists [p]. split; [apply H|]. constructor; [apply H | constructor]. Qed.

Lemma compile_plain_step_Ok step pb st id st' :
  s_parallel step = None →
  compile_step workflow job_id default_shell dwd step pb st = Ok (id, st') →
  ∃ p, plain_step default_shell step pb st id st' p.
Proof.
  intros Hp H. destruct step. simpl in Hp. subst.
  apply obind_Ok in H as (w & Hw%check_step_extra_Ok & H). simpl in H.
  case_bool_decide.
  - by eapply compile_control_step_Ok.
  - by eapply compile_ordinary_step_Ok.
Qed.

Lemma compile_plain_step_no_panic step pb st :
  s_parallel step = None → compile_step workflow job_id default_shell dwd step pb st ≠ Panic.
Proof.
  intros Hp H. destruct step. simpl in Hp. subst.
  apply obind_Panic in H as [H | (w & _ & H)]; [by apply check_step_extra_no_panic in H|].
  simpl in H. case_bool_decide.
  - by apply compile_control_step_no_panic in H.
  - by apply compile_ordinary_step_no_panic in H.
Qed.

(** The body of the loop over the children of a parallel group. *)
Definition parallel_child (child : Step) (acc : list string * StepState)
    : outcome WorkflowError (list string * StepState) :=
  let '(group_ids, st) := acc in
  reject_if (parallel_child_is_special child)
    (incompatible workflow job_id "parallel entries must be ordinary run or uses steps") ;?
  let? '(id, st) := compile_step workflow job_id default_shell dwd child true st in
  Ok (group_ids ++ [id], st).

Lemma child_not_parallel child :
  parallel_child_is_special child = false → s_parallel child = None.
Proof. unfold parallel_child_is_special. intros. split_orb_false. done. Qed.

Lemma parallel_children_Ok children st ids st' :
  state_ok st →
  for_each parallel_child children ([], st) = Ok (ids, st') →
  state_ok st' ∧ extends_by (Some <$> children) st st' ∧
  (∀ id, id ∈ ids → has_background (steps st') id).
Proof.
  intros Hok H.
  apply (for_each_inv _ (λ prefix '(ids, s), state_ok s ∧ extends_by (Some <$> prefix) st s ∧
           ∀ id, id ∈ ids → has_background (steps s) id)) in H; [done| |].
  - split_and!; [done | apply extends_by_nil |]. by intros id ?%not_elem_of_nil.
  - intros prefix child rest [ids1 s1] [ids2 s2] _ (Hok1 & Hext & Hids) Hbody.
    apply obind_Ok in Hbody as (? & Hspecial%reject_if_Ok%child_not_parallel & Hbody).
    apply obind_Ok in Hbody as ([id s] & Hc & [= <- <-]).
    apply compile_plain_step_Ok in Hc as (p & Hp); [|done].
    split_and!.
    + by eapply plain_step_ok.
    + rewrite fmap_app. eapply extends_by_app; [done|]. by eapply plain_step_extends.
    + intros y. rewrite (pl_steps _ _ _ _ _ _ _ Hp), elem_of_app, list_elem_of_singleton.
      intros [Hy | ->]; [by apply has_background_app, Hids|].
      rewrite <-(pl_id _ _ _ _ _ _ _ Hp). apply has_background_last. by eapply pl_parallel.
Qed.

Lemma compile_step_Ok step st id st' :
  state_ok st → compile_step workflow job_id default_shell dwd step false st = Ok (id, st') →
  state_ok st' ∧ extends_by (flatten_steps [step]) st st'.
Proof.
  intros Hok H. unfold flatten_steps. simpl.
  destruct (s_parallel step) as [parallel|] eqn:Hp.
  2: { apply compile_plain_step_Ok in H as (p & Hplain); [|done].
       split; [by eapply plain_step_ok | by eapply plain_step_extends]. }
  destruct step; simpl in Hp; subst. cbn [compile_step s_parallel] in H.
  apply obind_Ok in H as (w & _ & H).
  apply obind_Ok in H as (? & _ & H). apply obind_Ok in H as (? & _ & H).
  apply obind_Ok in H as (? & _ & H). cbn zeta in H.
  apply obind_Ok in H as ([ids s] & Hloop & H).
  apply (parallel_children_Ok parallel (st <| next_parallel_group := S (next_parallel_group st) |>))
    in Hloop as (Hok1 & Hext & Hids); [|done].
  apply obind_Ok in H as (s2 & [Hf ->]%register_step_id_Ok & [= <- <-]).
  split.
  - unfold state_ok; simpl.
    apply (steps_ok_push _ _ _ (parallel_wait_step _ ids)); done.
  - rewrite app_nil_r. eapply extends_by_app; [exact Hext|].
    exists [parallel_wait_step ("__parallel_" +:+ pretty (next_parallel_group st) +:+ "_wait") ids].
    split; [done|]. constructor; [by exists ids | constructor].
Qed.

Lemma compile_step_no_panic step st :
  compile_step workflow job_id default_shell dwd step false st ≠ Panic.
Proof.
  destruct (s_parallel step) as [parallel|] eqn:Hp; [|by apply compile_plain_step_no_panic].
  destruct step; simpl in Hp; subst. cbn [compile_step s_parallel].
  rewrite obind_Panic. intros [H | (w & _ & H)]; [by apply check_step_extra_no_panic in H|].
  apply obind_Panic in H as [H | (? & _ & H)]; [by apply reject_if_Panic in H|].
  apply obind_Panic in H as [H | (? & _ & H)]; [by apply reject_if_Panic in H|].
  apply obind_Panic in H as [H | (? & _ & H)]; [by apply reject_if_Panic in H|].
  cbn zeta in H. apply obind_Panic in H as [H | ([ids s] & _ & H)].
  - revert H. apply (for_each_no_panic _ (λ _, True)); [done| |done].
    intros child [gids s] _ _ H.
    apply obind_Panic in H as [H | (? & Hc%reject_if_Ok%child_not_parallel & H)];
      [by apply reject_if_Panic in H|].
    apply obind_Panic in H as [H | ([? ?] & _ & ?)]; [|done].
    by apply compile_plain_step_no_panic in H.
  - apply obind_Panic in H as [H | (? & _ & ?)]; [|done].
    by apply register_step_id_no_panic in H.
Qed.

Lemma compile_steps_Ok source ps :
  compile_steps workflow job_id source default_shell dwd = Ok ps →
  ∃ st, state_ok st ∧ ps = steps st ∧ extends_by (flatten_steps source) step_state_new st.
Proof.
  unfold compile_steps. intros (st & H & [= <-])%obind_Ok. exists st.
  apply (for_each_inv _ (λ prefix s, state_ok s ∧ extends_by (flatten_steps prefix) step_state_new s))
    in H as [? ?]; [done| |].
  - split; [apply state_ok_new | apply extends_by_nil].
  - intros prefix step rest s s' _ [Hok Hext] Hbody.
    apply obind_Ok in Hbody as ([id s1] & Hc & [= <-]).
    apply compile_step_Ok in Hc as [Hok1 Hext1]; [|done]. split; [done|].
    unfold flatten_steps in *. rewrite bind_app. by eapply extends_by_app.
Qed.

Lemma compile_steps_no_panic source :
  compile_steps workflow job_id source default_shell dwd ≠ Panic.
Proof.
  unfold compile_steps. rewrite obind_Panic. intros [H | (? & _ & ?)]; [|done].
  revert H. apply (for_each_no_panic _ (λ _, True)); [done| |done].
  intros step s _ _. rewrite obind_Panic. intros [H | ([? ?] & _ & ?)]; [|done].
  by apply compile_step_no_panic in H.
Qed.
End job.

Section properties.
Context `{VL : ValueLib}.

(** the ids of a job's planned steps are distinct whatever their case,
    and every step a [wait] or [cancel] names is an earlier step of the same
    job that runs in the background: the executor never waits for a step that
    is not there. *)
Theorem compile_steps_well_formed workflow job_id source default_shell dwd ps :
  compile_steps workflow job_id source default_shell dwd = Ok ps →
  NoDup (lower_ids ps) ∧ refers_back ps.
Proof.
  intros (st & Hok & -> & _)%compile_steps_Ok.
  split; [by eapply so_nodup | by eapply so_refers].
Qed.

(** the planned steps are the source steps in order, a parallel group
    being its children and then one wait; each keeps its id, name, condition
    and environment, and exactly one of [run], [uses] and the controls, with
    the defaults filled in. *)
Theorem compile_steps_faithful workflow job_id source default_shell dwd ps :
  compile_steps workflow job_id source default_shell dwd = Ok ps →
  Forall2 (planned_as default_shell) (flatten_steps source) ps.
Proof. by intros (st & _ & -> & ps' & -> & H)%compile_steps_Ok. Qed.

(** compiling steps reaches none of its [expect], [unreachable!] and
    [ids\[0\]] panics, whatever combination of fields the source has. *)
Theorem compile_steps_never_panics workflow job_id source default_shell dwd :
  compile_steps workflow job_id source default_shell dwd ≠ Panic.
Proof. apply compile_steps_no_panic. Qed.
End properties.

Section witnesses.
#[local] Existing Instances demo_values demo_value_lib.

Definition demo_step (id run : string) : Step :=
  mkStep (Some id) None (Some run) None None None ∅ ∅ None None None None None None None ∅.

(** A background server, a parallel group of two, a checkout, a wait. *)
Definition demo_steps : list Step :=
  [mkStep (Some "Server") None (Some "serve") None None None ∅ ∅ None None None
     (Some (mkScalar "true")) None None None ∅;
   mkStep None None None None None None ∅ ∅ None None None None None None
     (Some [demo_step "lint" "make lint"; demo_step "docs" "make docs"]) ∅;
   mkStep None None None (Some "actions/checkout@v4") None None ∅ ∅ None None None None None None
     None ∅;
   mkStep None None None None None None ∅ ∅ None None None None
     (Some (mkStepReferences ["server"])) None None ∅].

Example demo_steps_planned :
  omap_ok (fmap (λ p, (ps_id p, ps_github_action p, ps_kind p)))
    (compile_steps "ci" "test" demo_steps None None) =
  Ok [("Server", "Server", KRun "bash -e {0}" "serve");
      ("lint", "lint", KRun "bash -e {0}" "make lint");
      ("docs", "docs", KRun "bash -e {0}" "make docs");
      ("__parallel_1_wait", "__parallel_1_wait", KWait ["lint"; "docs"]);
      ("step-5", "actionscheckout", KCheckout ∅);
      ("step-6", "__wait", KWait ["Server"])].
Proof. vm_compute. reflexivity. Qed.

Lemma demo_steps_compile : is_ok (compile_steps "ci" "test" demo_steps None None) = true.
Proof. vm_compute. reflexivity. Qed.

Lemma compile_steps_well_formed_witness :
  ∃ ps, compile_steps "ci" "test" demo_steps None None = Ok ps ∧
        NoDup (lower_ids ps) ∧ refers_back ps.
Proof.
  destruct (is_ok_inv _ demo_steps_compile) as [ps H]. exists ps. split; [exact H|].
  exact (compile_steps_well_formed "ci" "test" demo_steps None None ps H).
Defined.

Lemma compile_steps_faithful_witness :
  ∃ ps, compile_steps "ci" "test" demo_steps None None = Ok ps ∧
        Forall2 (planned_as None) (flatten_steps demo_steps) ps.
Proof.
  destruct (is_ok_inv _ demo_steps_compile) as [ps H]. exists ps. split; [exact H|].
  exact (compile_steps_faithful "ci" "test" demo_steps None None ps H).
Defined.
End witnesses.
