(* ===== verification/Dependencies.v ===== *)
(** * Dependencies (crates/gitzero-workflow)

    [validate_dependencies]: the [needs] graph of a plan and the depth-first
    search that rejects its cycles, proved to accept exactly the closed acyclic
    graphs and to finish within a depth of one frame per job. *)

From S2P Require Import Prelude RustStr OrdMap Yaml Workflow Instances.
From stdpp Require Import relations.

(** The needs of each base id; the first job of an id gives them. *)
Definition dependency_graph `{VT : ValueTypes} {V} (jobs : list (PlannedJobOf V))
    : gmap string (list string) :=
  foldl (λ graph job, entry_or_insert (pj_base_id job) (pj_needs job) graph) ∅ jobs.

(** The marks of [states]: [1] on the path, [2] done. *)
Fixpoint visit (fuel : nat) (workflow : string) (graph : gmap string (list string)) (job : string)
    (states : gmap string Z) : outcome WorkflowError (gmap string Z) :=
  if bool_decide (states !! job = Some 1%Z) then
    Err (incompatible workflow job "job dependency graph contains a cycle")
  else if bool_decide (states !! job = Some 2%Z) then Ok states
  else
    match fuel with
    | 0 => Panic
    | S fuel =>
        let states := <[job := 1%Z]> states in
        let? dependencies := expect (graph !! job) in
        let? states := for_each (visit fuel workflow graph) dependencies states in
        Ok (<[job := 2%Z]> states)
    end.

(** One job of the first loop: its needs exist and are not itself. *)
Definition check_needs (workflow : string) (graph : gmap string (list string))
    (entry : string * list string) (_ : unit) : outcome WorkflowError unit :=
  let '(job, needs) := entry in
  for_each (λ dependency _,
    reject_if (negb (btree_contains dependency graph))
      (incompatible workflow job ("needs unknown job '" +:+ dependency +:+ "'")) ;?
    reject_if (bool_decide (dependency = job))
      (incompatible workflow job "job cannot need itself")) needs tt.

Definition validate_graph (workflow : string) (graph : gmap string (list string))
    : outcome WorkflowError unit :=
  for_each (check_needs workflow graph) (btree_iter graph) tt ;?
  let? _ := for_each (visit (size graph) workflow graph) (btree_keys graph) ∅ in
  Ok tt.

Definition validate_dependencies `{VT : ValueTypes} {V} (workflow : string)
    (jobs : list (PlannedJobOf V)) : outcome WorkflowError unit :=
  validate_graph workflow (dependency_graph jobs).

(** ** The reference: closed acyclic graphs *)

Definition edge (graph : gmap string (list string)) (job dependency : string) : Prop :=
  ∃ needs, graph !! job = Some needs ∧ dependency ∈ needs.

Definition closed_graph (graph : gmap string (list string)) : Prop :=
  ∀ job dependency, edge graph job dependency → is_Some (graph !! dependency).

Definition acyclic (graph : gmap string (list string)) : Prop :=
  ∀ job, ¬ tc (edge graph) job job.

(** ** Lemmas *)

Section search.
Context (workflow : string) (graph : gmap string (list string)).
Implicit Types states : gmap string Z.

(** The jobs on the current path. *)
Definition gray (states : gmap string Z) : gset string :=
  dom (filter (λ kv : string * Z, kv.2 = 1%Z) states).

Lemma elem_of_gray states x : x ∈ gray states ↔ states !! x = Some 1%Z.
Proof.
  unfold gray. rewrite elem_of_dom. unfold is_Some.
  setoid_rewrite map_lookup_filter_Some. naive_solver.
Qed.

(** A finished job reaches no cycle. *)
Definition finished_ok states : Prop :=
  ∀ x, states !! x = Some 2%Z → Acc (flip (edge graph)) x.

Lemma Acc_acyclic x : Acc (flip (edge graph)) x → ¬ tc (edge graph) x x.
Proof.
  induction 1 as [x _ IH]. intros Hx.
  assert (∃ y, edge graph x y ∧ rtc (edge graph) y x) as (y & Hxy & Hyx).
  { inversion Hx; subst; [by exists x; split | exists y; split; [done | by apply tc_rtc]]. }
  apply (IH y Hxy). by eapply tc_rtc_l, tc_once.
Qed.

(** What a call of [visit] leaves behind. *)
Record visited (job : string) states states' : Prop := {
  vi_gray : gray states' = gray states;
  vi_keep x : states !! x = Some 2%Z → states' !! x = Some 2%Z;
  vi_done : states' !! job = Some 2%Z;
  vi_ok : finished_ok states → finished_ok states';
}.

Lemma gray_insert_1 states x : gray (<[x := 1%Z]> states) = {[x]} ∪ gray states.
Proof.
  apply leibniz_equiv. intros y. rewrite elem_of_union, elem_of_singleton, !elem_of_gray.
  destruct (decide (x = y)) as [->|].
  - rewrite lookup_insert_eq. naive_solver.
  - rewrite lookup_insert_ne by done. naive_solver.
Qed.

Lemma gray_insert_2 states x : gray (<[x := 2%Z]> states) = gray states ∖ {[x]}.
Proof.
  apply leibniz_equiv. intros y. rewrite elem_of_difference, elem_of_singleton, !elem_of_gray.
  destruct (decide (x = y)) as [->|].
  - rewrite lookup_insert_eq. naive_solver.
  - rewrite lookup_insert_ne by done. naive_solver.
Qed.

(** The search: with a frame for every job that is not on the path, it never
    panics, and it fails only on a cycle. *)
Lemma visit_spec fuel job states :
  closed_graph graph → is_Some (graph !! job) →
  gray states ⊆ dom graph → size graph ≤ size (gray states) + fuel →
  (∀ x, x ∈ gray states → tc (edge graph) x job) →
  outcome_spec (visit fuel workflow graph job states) (visited job states)
    (λ _, ¬ acyclic graph).
Proof.
  intros Hclosed. revert job states.
  induction fuel as [|fuel IH]; intros job states [needs Hneeds] Hdom Hfuel Hpath; cbn [visit];
    (case_bool_decide as H1; [simpl; intros Ha; apply (Ha job), Hpath, elem_of_gray, H1|]);
    (case_bool_decide as H2; [done|]).
  all: assert (size ({[job]} ∪ gray states) ≤ size (dom graph)) as Hsize
    by (apply subseteq_size, union_least; [|done];
        intros x ->%elem_of_singleton; apply elem_of_dom; eauto).
  all: rewrite size_union, size_singleton, size_dom in Hsize
    by (intros x ->%elem_of_singleton; by rewrite elem_of_gray).
  { lia. }
  rewrite Hneeds. cbn [expect obind]. apply outcome_spec_bind.
  eapply outcome_spec_mono; [eapply (outcome_spec_for_each _ (λ prefix s,
      gray s = {[job]} ∪ gray states ∧
      (∀ x, states !! x = Some 2%Z → s !! x = Some 2%Z) ∧
      (∀ d, d ∈ prefix → s !! d = Some 2%Z) ∧
      (finished_ok states → finished_ok s)) (λ _, ¬ acyclic graph))| |done].
  - split_and!.
    + apply gray_insert_1.
    + intros x Hx. rewrite lookup_insert_ne; [done|]. by intros ->.
    + by intros d ?%not_elem_of_nil.
    + intros Hok x. destruct (decide (job = x)) as [->|].
      * by rewrite lookup_insert_eq.
      * rewrite lookup_insert_ne by done. apply Hok.
  - intros prefix d rest s Hsplit (Hgray & Hkeep & Hdone & Hok).
    assert (edge graph job d) as Hedge.
    { exists needs. split; [done|]. rewrite Hsplit. set_solver. }
    eapply outcome_spec_mono; [apply IH| |done].
    + by eapply Hclosed.
    + rewrite Hgray. apply union_least; [|done].
      intros x ->%elem_of_singleton. apply elem_of_dom. eauto.
    + rewrite Hgray, size_union, size_singleton; [lia|].
      intros x ->%elem_of_singleton. by rewrite elem_of_gray.
    + intros x. rewrite Hgray, elem_of_union, elem_of_singleton. intros [-> | Hx].
      * by apply tc_once.
      * eapply tc_r; [by apply Hpath | done].
    + intros s' [Hg Hk Hd Ho]. split_and!.
      * by rewrite Hg.
      * auto.
      * intros e. rewrite elem_of_app, list_elem_of_singleton. intros [He | ->]; auto.
      * auto.
  - intros s (Hgray & Hkeep & Hdone & Hok). split.
    + rewrite gray_insert_2, Hgray. apply leibniz_equiv. intros x.
      rewrite elem_of_difference, elem_of_union, !elem_of_singleton.
      rewrite elem_of_gray. destruct (decide (x = job)) as [->|]; [|naive_solver].
      naive_solver.
    + intros x Hx. destruct (decide (job = x)) as [->|].
      * by rewrite lookup_insert_eq.
      * rewrite lookup_insert_ne by done. auto.
    + by rewrite lookup_insert_eq.
    + intros Hfin x. destruct (decide (job = x)) as [<-|].
      * intros _. constructor. intros d (needs' & Hn & Hd). simplify_eq. apply Hok; auto.
      * rewrite lookup_insert_ne by done. by apply Hok.
Qed.

Lemma check_needs_spec entry u :
  outcome_spec (check_needs workflow graph entry u)
    (λ _, ∀ d, d ∈ entry.2 → is_Some (graph !! d) ∧ d ≠ entry.1)
    (λ _, ∃ d, d ∈ entry.2 ∧ (graph !! d = None ∨ d = entry.1)).
Proof.
  destruct entry as [job needs]. unfold check_needs. cbn [fst snd].
  apply (outcome_spec_for_each _ (λ prefix _,
    ∀ d, d ∈ prefix → is_Some (graph !! d) ∧ d ≠ job)).
  - by intros d ?%not_elem_of_nil.
  - intros prefix d rest ? -> Hprefix.
    assert (d ∈ prefix ++ d :: rest) by set_solver.
    destruct (btree_contains d graph) eqn:Hc; simpl.
    + case_bool_decide; simpl; [by exists d; auto|].
      apply btree_contains_true in Hc. intros e.
      rewrite elem_of_app, list_elem_of_singleton. intros [?| ->]; auto.
    + exists d. apply btree_contains_false in Hc. auto.
Qed.

Lemma validate_graph_spec :
  outcome_spec (validate_graph workflow graph) (λ _, closed_graph graph ∧ acyclic graph)
    (λ _, ¬ (closed_graph graph ∧ acyclic graph)).
Proof.
  unfold validate_graph. apply outcome_spec_bind.
  eapply outcome_spec_mono; [eapply (outcome_spec_for_each _ (λ prefix _,
    ∀ job needs d, (job, needs) ∈ prefix → d ∈ needs → is_Some (graph !! d) ∧ d ≠ job)
    (λ _, ¬ (closed_graph graph ∧ acyclic graph)))| |].
  - by intros job needs d ?%not_elem_of_nil.
  - intros prefix [job needs] rest u Hsplit Hprefix.
    eapply outcome_spec_mono; [apply check_needs_spec| |].
    + intros ? H j n d. rewrite elem_of_app, list_elem_of_singleton.
      intros [Hj | [= -> ->]] Hd; [by eapply Hprefix | by apply H].
    + intros ? (d & Hd & Hbad) [Hclosed Hacyc]. simpl in *.
      assert (edge graph job d) as Hedge.
      { exists needs. split; [|done]. apply elem_of_btree_iter. rewrite Hsplit. set_solver. }
      destruct Hbad as [Hn | ->].
      * apply Hclosed in Hedge as [? ?]. congruence.
      * by apply (Hacyc job), tc_once.
  - intros ? Hneeds.
    assert (closed_graph graph) as Hclosed.
    { intros job d (needs & Hj & Hd). by eapply Hneeds; [apply elem_of_btree_iter|]. }
    apply outcome_spec_bind.
    eapply outcome_spec_mono; [eapply (outcome_spec_for_each _ (λ prefix s,
      gray s = ∅ ∧ (∀ d, d ∈ prefix → s !! d = Some 2%Z) ∧ finished_ok s)
      (λ _, ¬ (closed_graph graph ∧ acyclic graph)))| |].
    + split_and!.
      * apply leibniz_equiv. intros x. rewrite elem_of_gray. set_solver.
      * by intros d ?%not_elem_of_nil.
      * by intros x ?%lookup_empty_Some.
    + intros prefix job rest s Hsplit (Hgray & Hdone & Hok).
      eapply outcome_spec_mono; [apply visit_spec; [done| | | |]| |].
      * apply elem_of_btree_keys. rewrite Hsplit. set_solver.
      * rewrite Hgray. set_solver.
      * rewrite Hgray, size_empty. lia.
      * rewrite Hgray. set_solver.
      * intros s' [Hg Hk Hd Ho]. rewrite Hg, Hgray. split_and!; [done| |auto].
        intros e. rewrite elem_of_app, list_elem_of_singleton. intros [?| ->]; auto.
      * by intros ? Hn [_ Hacyc].
    + intros s (_ & Hdone & Hok). simpl. split; [done|].
      intros job Hc. assert (is_Some (graph !! job)) as Hin.
      { inversion Hc as [? ? He | ? ? ? He]; subst; destruct He as (? & ? & _); eauto. }
      apply elem_of_btree_keys in Hin.
      by apply (Acc_acyclic job); [apply Hok, Hdone|].
    + done.
  - done.
Qed.

(** Every non-empty set of jobs has one that needs no other of the set. *)
Lemma acyclic_minimal (X : gset string) :
  X ≠ ∅ → (∀ x, x ∈ X → Acc (flip (edge graph)) x) →
  ∃ x, x ∈ X ∧ ∀ d, edge graph x d → d ∉ X.
Proof.
  intros [x Hx]%set_choose_L Hacc. pose proof (Hacc x Hx) as Ha.
  induction Ha as [x _ IH].
  destruct (graph !! x) as [needs|] eqn:Hn.
  - destruct (decide (Exists (.∈ X) needs)) as [(d & Hd & HdX)%Exists_exists | Hno].
    + apply (IH d); [by exists needs | done].
    + exists x. split; [done|]. intros d (needs' & ? & Hd) HdX. simplify_eq.
      apply Hno, Exists_exists. eauto.
  - exists x. split; [done|]. intros d (? & ? & _). congruence.
Qed.
End search.

(** The graph has the base ids as keys, and the needs of one job of each. *)
Lemma dependency_graph_dom `{VT : ValueTypes} {V} (jobs : list (PlannedJobOf V)) b :
  is_Some (dependency_graph jobs !! b) ↔ b ∈ base_ids jobs.
Proof.
  unfold dependency_graph.
  enough (∀ m, is_Some (foldl (λ g job, entry_or_insert (pj_base_id job) (pj_needs job) g) m jobs !! b)
               ↔ is_Some (m !! b) ∨ b ∈ base_ids jobs) as ->.
  { split; [|by right]. intros [[? ?%lookup_empty_Some]|?]; done. }
  induction jobs as [|j l IH]; intros m; cbn [foldl].
  - unfold base_ids. simpl. set_solver.
  - rewrite IH, lookup_entry_or_insert. unfold base_ids. simpl.
    rewrite elem_of_union, elem_of_singleton.
    destruct (m !! b) eqn:Hm; [naive_solver|]. case_bool_decide; naive_solver.
Qed.

Lemma dependency_graph_lookup `{VT : ValueTypes} {V} (jobs : list (PlannedJobOf V)) b :
  b ∈ pj_base_id <$> jobs →
  ∃ j, j ∈ jobs ∧ pj_base_id j = b ∧ dependency_graph jobs !! b = Some (pj_needs j).
Proof.
  unfold dependency_graph.
  enough (∀ m, m !! b = None → b ∈ pj_base_id <$> jobs → ∃ j, j ∈ jobs ∧ pj_base_id j = b ∧
    foldl (λ g job, entry_or_insert (pj_base_id job) (pj_needs job) g) m jobs !! b
    = Some (pj_needs j)) as Hgen by (by apply Hgen).
  assert (∀ (l : list (PlannedJobOf V)) m ns, m !! b = Some ns →
    foldl (λ g job, entry_or_insert (pj_base_id job) (pj_needs job) g) m l !! b = Some ns) as Hkeep.
  { induction l as [|j l IH]; intros m ns Hm; [done|]. cbn [foldl]. apply IH.
    by rewrite lookup_entry_or_insert, Hm. }
  induction jobs as [|j l IH]; intros m Hm Hb; [by apply not_elem_of_nil in Hb|]. cbn [foldl].
  destruct (decide (pj_base_id j = b)) as [Hj|Hj].
  - exists j. split_and!; [apply list_elem_of_here | done |]. apply Hkeep.
    by rewrite lookup_entry_or_insert, Hm, bool_decide_true.
  - cbn [fmap list_fmap] in Hb. apply elem_of_cons in Hb as [?|Hb]; [congruence|].
    destruct (IH (entry_or_insert (pj_base_id j) (pj_needs j) m)) as (k & Hk & Hkb & Hl).
    + by rewrite lookup_entry_or_insert, Hm, bool_decide_false.
    + done.
    + exists k. split_and!; [by apply list_elem_of_further | done..].
Qed.

(** On an acyclic graph every job is accessible: the search finishes them all. *)
Lemma acyclic_accessible (workflow : string) graph x :
  closed_graph graph → acyclic graph → is_Some (graph !! x) → Acc (flip (edge graph)) x.
Proof.
  intros Hc Ha Hx.
  pose proof (visit_spec workflow graph (size graph) x ∅ Hc Hx) as H.
  assert (gray ∅ = ∅) as Hg.
  { apply leibniz_equiv. intros y. rewrite elem_of_gray. set_solver. }
  rewrite Hg in H. specialize (H ltac:(set_solver) ltac:(rewrite size_empty; lia) ltac:(set_solver)).
  destruct (visit _ _ _ _ _) as [s| |]; simpl in H; [|done..].
  eapply vi_ok; [exact H | by intros ? ?%lookup_empty_Some | by eapply vi_done].
Qed.

Section properties.
Context `{VT : ValueTypes} {V : Type}.

(** C17: a plan's dependencies are accepted exactly when every need names a
    job of the plan and no job reaches itself; the recursive search needs no
    more than one frame per job and never misses a key. *)
Theorem validate_dependencies_exact workflow (jobs : list (PlannedJobOf V)) :
  outcome_spec (validate_dependencies workflow jobs)
    (λ _, closed_graph (dependency_graph jobs) ∧ acyclic (dependency_graph jobs))
    (λ _, ¬ (closed_graph (dependency_graph jobs) ∧ acyclic (dependency_graph jobs))).
Proof. apply validate_graph_spec. Qed.

(** an accepted plan never deadlocks: among any set of jobs that have not
    run there is one that needs none of the others. *)
Theorem accepted_plan_makes_progress workflow (jobs : list (PlannedJobOf V)) (pending : gset string) :
  validate_dependencies workflow jobs = Ok tt →
  pending ⊆ base_ids jobs → pending ≠ ∅ →
  ∃ job, job ∈ pending ∧ ∀ needed, edge (dependency_graph jobs) job needed → needed ∉ pending.
Proof.
  intros Hok Hsub Hne.
  pose proof (validate_graph_spec workflow (dependency_graph jobs)) as H.
  unfold validate_dependencies in Hok. rewrite Hok in H. destruct H as [Hc Ha].
  apply acyclic_minimal; [done|]. intros x Hx%Hsub.
  apply (acyclic_accessible workflow); [done..|].
  by apply dependency_graph_dom.
Qed.
End properties.

Section witnesses.
#[local] Existing Instances demo_values.

Definition demo_job (id : string) (needs : list string) : PlannedJob :=
  mkPlannedJob id id id "ci.yml" None needs ∅ None VNull [] [] None ∅ None true None None None
    None None (mkPermissions ∅ ∅) None [] [] [] None ∅ ∅ [].

Definition demo_jobs : list PlannedJob :=
  [demo_job "build" []; demo_job "test" ["build"]; demo_job "publish" ["test"; "build"]].

Example demo_jobs_rejected :
  validate_dependencies "ci" (demo_job "build" ["publish"] :: demo_jobs) =
  Err (incompatible "ci" "build" "job dependency graph contains a cycle").
Proof. vm_compute. reflexivity. Qed.

Lemma accepted_plan_makes_progress_witness :
  ∃ job, job ∈ ({["test"; "publish"]} : gset string) ∧
  ∀ needed, edge (dependency_graph demo_jobs) job needed →
    needed ∉ ({["test"; "publish"]} : gset string).
Proof.
  apply (accepted_plan_makes_progress "ci" demo_jobs).
  - vm_compute. reflexivity.
  - apply (bool_decide_unpack _). vm_compute. exact I.
  - apply (bool_decide_unpack _). vm_compute. exact I.
Defined.
End witnesses.
