(* ===== verification/Triggers.v ===== *)
(** * Pull-request triggers (crates/gitzero-workflow)

    Whether a workflow's [on:] accepts a pull-request event: activity types,
    branch and path filters, and the translation of a filter pattern into a
    regular expression.  The regex engine is a library: a class with the
    functions the source calls. *)

From S2P Require Import Prelude RustStr OrdMap Yaml Workflow Instances.

(** The regex crate. *)
Class RegexLib := {
  Regex : Type;
  regex_new : string → outcome string Regex;       (** the error displayed *)
  is_match : Regex → string → bool;
  regex_escape : string → string;
  regex_new_no_panic s : regex_new s ≠ Panic;
}.

(** ** Patterns *)

Record Atom := mkAtom {
  source : string;
  quantifiable : bool;
}.

(** [atoms.last_mut()] *)
Definition last_atom (atoms : list Atom) : option (list Atom * Atom) :=
  match last atoms with
  | Some previous => Some (take (length atoms - 1) atoms, previous)
  | None => None
  end.

(** [characters.iter().position(|character| *character == ']')] *)
Fixpoint position (c : string) (characters : list string) : option nat :=
  match characters with
  | [] => None
  | d :: characters =>
      if bool_decide (d = c) then Some 0 else S <$> position c characters
  end.

Section glob.
Context `{RL : RegexLib}.

Definition range_ok (range : list string) : bool :=
  match range with
  | [] => false
  | _ => forallb (λ character,
           char_ascii is_ascii_alphanumeric character || bool_decide (character = "-")) range
  end.

(** The [while] loop of [compile_glob] from a suffix of the characters; [fuel]
    bounds the iterations and its exhaustion is a [Panic]. *)
Fixpoint glob_loop (fuel : nat) (pattern workflow filter : string) (characters : list string)
    (atoms : list Atom) : outcome WorkflowError (list Atom) :=
  match characters with
  | [] => Ok atoms
  | character :: rest =>
      match fuel with
      | 0 => Panic
      | S fuel =>
          let fail reason := Err (unsupported_workflow workflow
                ("pull_request " +:+ filter +:+ " pattern '" +:+ pattern +:+ "' " +:+ reason)) in
          if bool_decide (character = "\") then
            match rest with
            | [] => fail "ends with an escape"
            | escaped :: rest =>
                glob_loop fuel pattern workflow filter rest
                  (atoms ++ [mkAtom (regex_escape escaped) true])
            end
          else if bool_decide (character = "*") then
            if bool_decide (head rest = Some "*") then
              glob_loop fuel pattern workflow filter (tail rest) (atoms ++ [mkAtom ".*" false])
            else
              glob_loop fuel pattern workflow filter rest (atoms ++ [mkAtom "[^/]*" false])
          else if bool_decide (character = "?") || bool_decide (character = "+") then
            match last_atom atoms with
            | None => fail ("starts with quantifier '" +:+ character +:+ "'")
            | Some (front, previous) =>
                if quantifiable previous then
                  glob_loop fuel pattern workflow filter rest
                    (front ++ [mkAtom ("(?:" +:+ source previous +:+ ")" +:+ character) false])
                else fail ("has repeated or misplaced quantifier '" +:+ character +:+ "'")
            end
          else if bool_decide (character = "[") then
            match position "]" rest with
            | None => fail "has an unclosed range"
            | Some relative_end =>
                let range := take relative_end rest in
                if range_ok range then
                  glob_loop fuel pattern workflow filter (drop (S relative_end) rest)
                    (atoms ++ [mkAtom ("[" +:+ sconcat range +:+ "]") true])
                else fail "has an invalid range"
            end
          else
            glob_loop fuel pattern workflow filter rest
              (atoms ++ [mkAtom (regex_escape character) true])
      end
  end.

Definition glob_atoms (pattern workflow filter : string) : outcome WorkflowError (list Atom) :=
  glob_loop (length (chars pattern)) pattern workflow filter (chars pattern) [].

Definition compile_glob (pattern workflow filter : string) : outcome WorkflowError Regex :=
  let? atoms := glob_atoms pattern workflow filter in
  let expression := "^(?:" +:+ sconcat (source <$> atoms) +:+ ")$" in
  map_err (λ error, unsupported_workflow workflow
    ("pull_request " +:+ filter +:+ " pattern '" +:+ pattern +:+ "' is invalid: " +:+ error))
    (regex_new expression).
End glob.

Section triggers.
Context `{VL : ValueLib} `{RL : RegexLib}.

Definition string_values (value : Value) (workflow filter : string)
    : outcome WorkflowError (list string) :=
  let? values :=
    match value with
    | VString value => Ok [value]
    | VSequence values =>
        traverse (λ value, ok_or (as_str value) (unsupported_workflow workflow
          ("pull_request " +:+ filter +:+ " entries must be strings"))) values
    | _ => Err (unsupported_workflow workflow
             ("pull_request " +:+ filter +:+ " must be a string or list"))
    end in
  match values with
  | [] => Err (unsupported_workflow workflow ("pull_request " +:+ filter +:+ " cannot be empty"))
  | _ => Ok values
  end.

Definition compile_ordered_patterns (value : Value) (workflow filter : string)
    : outcome WorkflowError (list (bool * Regex)) :=
  let? patterns := string_values value workflow filter in
  reject_if (negb (existsb (λ pattern, negb (starts_with "!" pattern)) patterns))
    (unsupported_workflow workflow
       ("pull_request " +:+ filter +:+ " must contain a positive pattern")) ;?
  traverse (λ pattern,
    let '(negative, pattern) :=
      match strip_prefix "!" pattern with
      | Some pattern => (true, pattern)
      | None => (false, pattern)
      end in
    reject_if (is_empty pattern)
      (unsupported_workflow workflow
         ("pull_request " +:+ filter +:+ " contains an empty pattern")) ;?
    let? regex := compile_glob pattern workflow filter in
    Ok (negative, regex)) patterns.

Definition matches_compiled_ordered_patterns (patterns : list (bool * Regex))
    (candidate : string) : bool :=
  foldl (λ included '(negative, pattern),
    if is_match pattern candidate then negb negative else included) false patterns.

Definition matches_ordered_patterns (value : Value) (candidate workflow filter : string)
    : outcome WorkflowError bool :=
  let? patterns := compile_ordered_patterns value workflow filter in
  Ok (matches_compiled_ordered_patterns patterns candidate).

Definition matches_any_ordered_path (value : Value) (changed_paths : list string)
    (workflow filter : string) : outcome WorkflowError bool :=
  let? patterns := compile_ordered_patterns value workflow filter in
  Ok (existsb (matches_compiled_ordered_patterns patterns) changed_paths).

Definition compile_ignored_patterns (value : Value) (workflow filter : string)
    : outcome WorkflowError (list Regex) :=
  let? patterns := string_values value workflow filter in
  traverse (λ pattern,
    if starts_with "!" pattern then
      Err (unsupported_workflow workflow
             ("pull_request " +:+ filter +:+ " does not accept negative patterns"))
    else compile_glob pattern workflow filter) patterns.

Definition matches_ignored_pattern (value : Value) (candidate workflow filter : string)
    : outcome WorkflowError bool :=
  let? patterns := compile_ignored_patterns value workflow filter in
  Ok (existsb (λ pattern, is_match pattern candidate) patterns).

Definition value_contains_string (value : Value) (expected : string) : bool :=
  match value with
  | VString value => bool_decide (value = expected)
  | VSequence values => existsb (λ value, bool_decide (as_str value = Some expected)) values
  | _ => false
  end.

Definition is_default_action (action : string) : bool :=
  bool_decide (action ∈ ["opened"; "synchronize"; "reopened"]).

(** ** The options of [pull_request:] *)

Definition pull_request_keys : list string :=
  ["types"; "branches"; "branches-ignore"; "paths"; "paths-ignore"].

Definition check_option_key (workflow : string) (entry : Value * Value) (_ : unit)
    : outcome WorkflowError unit :=
  reject_if (match as_str entry.1 with
             | Some key => negb (bool_decide (key ∈ pull_request_keys))
             | None => true
             end)
    (unsupported_workflow workflow
       ("pull_request filter '" +:+ default "non-string" (as_str entry.1) +:+
        "' is not supported yet")).

(** The path filters, once one of them is present; [false] is the early
    [return Ok(false)]. *)
Definition check_paths (options : Mapping) (changed_paths : option (list string))
    (workflow : string) : outcome WorkflowError bool :=
  let? changed_paths := ok_or changed_paths (unsupported_workflow workflow
    "pull_request path filters require the changed-file list") in
  match changed_paths with
  | [] => Ok false
  | _ =>
      let? included :=
        match mapping_get "paths" options with
        | Some paths => matches_any_ordered_path paths changed_paths workflow "paths"
        | None => Ok true
        end in
      if negb included then Ok false
      else
        match mapping_get "paths-ignore" options with
        | Some ignored =>
            let? patterns := compile_ignored_patterns ignored workflow "paths-ignore" in
            Ok (negb (forallb (λ path, existsb (λ pattern, is_match pattern path) patterns)
                        changed_paths))
        | None => Ok true
        end
  end.

Definition has_path_filter (options : Mapping) : bool :=
  mapping_contains "paths" options || mapping_contains "paths-ignore" options.

Definition matches_options (options : Mapping) (action base_ref : string)
    (changed_paths : option (list string)) (workflow : string) : outcome WorkflowError bool :=
  for_each (check_option_key workflow) options tt ;?
  reject_if (mapping_contains "branches" options && mapping_contains "branches-ignore" options)
    (unsupported_workflow workflow
       "pull_request cannot define both branches and branches-ignore") ;?
  reject_if (mapping_contains "paths" options && mapping_contains "paths-ignore" options)
    (unsupported_workflow workflow "pull_request cannot define both paths and paths-ignore") ;?
  let action_matches :=
    match mapping_get "types" options with
    | None => is_default_action action
    | Some types => value_contains_string types action
    end in
  if negb action_matches then Ok false
  else
    let? branch :=
      match mapping_get "branches" options with
      | Some branches => matches_ordered_patterns branches base_ref workflow "branches"
      | None => Ok true
      end in
    if negb branch then Ok false
    else
      let? ignored :=
        match mapping_get "branches-ignore" options with
        | Some ignored => matches_ignored_pattern ignored base_ref workflow "branches-ignore"
        | None => Ok false
        end in
      if (ignored : bool) then Ok false
      else if has_path_filter options then check_paths options changed_paths workflow
      else Ok true.

Fixpoint matches_pull_request_trigger (value : Value) (action base_ref : string)
    (changed_paths : option (list string)) (workflow : string) : outcome WorkflowError bool :=
  match value with
  | VString value => Ok (bool_decide (value = "pull_request") && is_default_action action)
  | VSequence values =>
      any_ok (λ value,
        matches_pull_request_trigger value action base_ref changed_paths workflow) values
  | VMapping values =>
      match mapping_get "pull_request" values with
      | None => Ok false
      | Some configuration =>
          match configuration with
          | VNull => Ok (is_default_action action)
          | VMapping options => matches_options options action base_ref changed_paths workflow
          | _ => Err (unsupported_workflow workflow
                   "pull_request trigger configuration must be a mapping")
          end
      end
  | _ => Ok false
  end.

Fixpoint trigger_has_pull_request_path_filter (value : Value) : bool :=
  match value with
  | VSequence values => existsb trigger_has_pull_request_path_filter values
  | VMapping values =>
      match (configuration ← mapping_get "pull_request" values; as_mapping configuration) with
      | Some options => has_path_filter options
      | None => false
      end
  | _ => false
  end.

Definition matches_pull_request (workflow : Workflow) (action base_ref : string)
    (changed_paths : option (list string)) : outcome WorkflowError bool :=
  matches_pull_request_trigger (w_trigger workflow) action base_ref changed_paths
    (w_name workflow).

Definition requires_pull_request_changed_paths (workflow : Workflow) : bool :=
  trigger_has_pull_request_path_filter (w_trigger workflow).
End triggers.

(** ** Lemmas *)

(** What an atom of the regular expression can be: user text enters it escaped,
    or as a range of letters, digits and dashes. *)
Inductive atom_shape `{RL : RegexLib} : Atom → Prop :=
  | shape_char c : atom_shape (mkAtom (regex_escape c) true)
  | shape_any : atom_shape (mkAtom ".*" false)
  | shape_segment : atom_shape (mkAtom "[^/]*" false)
  | shape_range r : range_ok r = true → atom_shape (mkAtom ("[" +:+ sconcat r +:+ "]") true)
  | shape_quantified s q :
      atom_shape (mkAtom s true) → q = "?" ∨ q = "+" →
      atom_shape (mkAtom ("(?:" +:+ s +:+ ")" +:+ q) false).

Lemma position_bound c l n : position c l = Some n → n < length l.
Proof.
  revert n; induction l as [|d l IH]; intros n; simpl; [done|].
  case_bool_decide; [intros [= <-]; lia|].
  intros (m & Hm & ->)%fmap_Some. apply IH in Hm. lia.
Qed.

Lemma last_atom_Some atoms front previous :
  last_atom atoms = Some (front, previous) → atoms = front ++ [previous].
Proof.
  unfold last_atom. destruct (last atoms) as [p|] eqn:Hl; [|done]. intros [= <- <-].
  apply last_Some in Hl as [l ->]. rewrite length_app. simpl.
  by rewrite Nat.add_sub, take_app_length.
Qed.

(** Characters that are not translated one to one. *)
Definition glob_special (c : string) : bool := bool_decide (c ∈ ["\"; "*"; "?"; "+"; "["]).

Section glob_lemmas.
Context `{RL : RegexLib}.

Lemma glob_loop_spec fuel pattern workflow filter characters atoms :
  length characters ≤ fuel → Forall atom_shape atoms →
  outcome_spec (glob_loop fuel pattern workflow filter characters atoms)
    (Forall atom_shape) (λ _, True).
Proof.
  revert characters atoms; induction fuel as [|fuel IH]; intros [|c rest] atoms Hlen Hatoms;
    cbn [glob_loop length] in *; try done; [lia|].
  assert (∀ rest' atom, length rest' ≤ length rest → atom_shape atom →
    outcome_spec (glob_loop fuel pattern workflow filter rest' (atoms ++ [atom]))
      (Forall atom_shape) (λ _, True)) as Hgo.
  { intros rest' atom Hr Ha. apply IH; [lia|]. apply Forall_app; auto. }
  case_bool_decide.
  { destruct rest; simpl in *; [done|]. apply Hgo; [lia | constructor]. }
  case_bool_decide.
  { case_bool_decide; apply Hgo; try constructor. destruct rest; simpl; lia. }
  destruct (bool_decide (c = "?") || bool_decide (c = "+")) eqn:Hq.
  { destruct (last_atom atoms) as [[front [s q]]|] eqn:Hl; [|done].
    apply last_atom_Some in Hl as ->. apply Forall_app in Hatoms as [Hfront Hlast].
    apply Forall_cons in Hlast as [Hlast _]. simpl. destruct q; [|done].
    apply IH; [lia|]. apply Forall_app; split; [done|]. constructor; [|constructor].
    constructor; [done|]. apply orb_prop in Hq as [Hq|Hq]; apply bool_decide_eq_true in Hq; auto. }
  destruct (bool_decide (c = "[")).
  { destruct (position "]" rest) as [n|]; [|done].
    destruct (range_ok (take n rest)) eqn:Hr; [|done].
    apply Hgo; [rewrite length_drop; lia | by constructor]. }
  apply Hgo; [lia | constructor].
Qed.

Lemma glob_loop_literal fuel pattern workflow filter characters atoms :
  length characters ≤ fuel → Forall (λ c, glob_special c = false) characters →
  glob_loop fuel pattern workflow filter characters atoms =
  Ok (atoms ++ ((λ c, mkAtom (regex_escape c) true) <$> characters)).
Proof.
  intros Hlen H. revert fuel atoms Hlen; induction H as [|c rest Hc _ IH]; intros fuel atoms Hlen.
  - rewrite app_nil_r. by destruct fuel.
  - destruct fuel as [|fuel]; [simpl in Hlen; lia|].
    unfold glob_special in Hc. apply bool_decide_eq_false in Hc.
    rewrite !elem_of_cons in Hc. cbn [glob_loop].
    rewrite !bool_decide_false by tauto. cbn [orb].
    rewrite IH by (simpl in Hlen; lia). by rewrite <-app_assoc.
Qed.

Lemma compile_glob_no_panic pattern workflow filter : compile_glob pattern workflow filter ≠ Panic.
Proof.
  unfold compile_glob. rewrite obind_Panic. intros [H | (? & _ & H)].
  - revert H. eapply outcome_spec_no_panic, glob_loop_spec; [done | constructor].
  - by apply map_err_Panic, regex_new_no_panic in H.
Qed.

(** The last pattern that matches decides. *)
Lemma ordered_patterns_snoc patterns negative r candidate :
  matches_compiled_ordered_patterns (patterns ++ [(negative, r)]) candidate =
  if is_match r candidate then negb negative
  else matches_compiled_ordered_patterns patterns candidate.
Proof. unfold matches_compiled_ordered_patterns. by rewrite foldl_app. Qed.
End glob_lemmas.

Section trigger_lemmas.
Context `{VL : ValueLib} `{RL : RegexLib}.

Lemma string_values_no_panic value workflow filter : string_values value workflow filter ≠ Panic.
Proof.
  unfold string_values. rewrite obind_Panic. intros [H | (l & _ & H)]; [|by destruct l].
  destruct value; try done. revert H. apply traverse_no_panic. intros. apply ok_or_Panic.
Qed.

Lemma compile_ordered_patterns_no_panic value workflow filter :
  compile_ordered_patterns value workflow filter ≠ Panic.
Proof.
  unfold compile_ordered_patterns. rewrite obind_Panic.
  intros [H | (l & _ & H)]; [by apply string_values_no_panic in H|].
  apply obind_Panic in H as [H | (? & _ & H)]; [by apply reject_if_Panic in H|].
  revert H. apply traverse_no_panic. intros p _.
  destruct (strip_prefix "!" p) as [q|]; rewrite obind_Panic;
    intros [H | (? & _ & H)]; try (by apply reject_if_Panic in H);
    apply obind_Panic in H as [H | (? & _ & ?)]; try done; by apply compile_glob_no_panic in H.
Qed.

Lemma compile_ignored_patterns_no_panic value workflow filter :
  compile_ignored_patterns value workflow filter ≠ Panic.
Proof.
  unfold compile_ignored_patterns. rewrite obind_Panic.
  intros [H | (l & _ & H)]; [by apply string_values_no_panic in H|].
  revert H. apply traverse_no_panic. intros p _. destruct (starts_with "!" p); [done|].
  apply compile_glob_no_panic.
Qed.

Lemma check_paths_no_panic options changed_paths workflow :
  check_paths options changed_paths workflow ≠ Panic.
Proof.
  unfold check_paths. rewrite obind_Panic. intros [H | (cs & _ & H)]; [by apply ok_or_Panic in H|].
  destruct cs; [done|]. apply obind_Panic in H as [H | ([] & _ & H)]; simpl in H; try done.
  - destruct (mapping_get "paths" options); [|done].
    apply obind_Panic in H as [H | (? & _ & ?)]; [|done].
    by apply compile_ordered_patterns_no_panic in H.
  - destruct (mapping_get "paths-ignore" options); [|done].
    apply obind_Panic in H as [H | (? & _ & ?)]; [|done].
    by apply compile_ignored_patterns_no_panic in H.
Qed.

Lemma matches_options_no_panic options action base_ref cp workflow :
  matches_options options action base_ref cp workflow ≠ Panic.
Proof.
  unfold matches_options. rewrite obind_Panic. intros [H | (? & _ & H)].
  { revert H. apply (for_each_no_panic _ (λ _, True)); [done| |done].
    intros e u _ _. apply reject_if_Panic. }
  apply obind_Panic in H as [H | (? & _ & H)]; [by apply reject_if_Panic in H|].
  apply obind_Panic in H as [H | (? & _ & H)]; [by apply reject_if_Panic in H|].
  destruct (negb _); [done|].
  apply obind_Panic in H as [H | ([] & _ & H)]; simpl in H; try done.
  - destruct (mapping_get "branches" options); [|done].
    apply obind_Panic in H as [H | (? & _ & ?)]; [|done].
    by apply compile_ordered_patterns_no_panic in H.
  - apply obind_Panic in H as [H | ([] & _ & H)]; try done.
    + destruct (mapping_get "branches-ignore" options); [|done].
      apply obind_Panic in H as [H | (? & _ & ?)]; [|done].
      by apply compile_ignored_patterns_no_panic in H.
    + destruct (has_path_filter options); [|done]. by apply check_paths_no_panic in H.
Qed.

(** Without a path filter the changed files do not matter. *)
Lemma matches_options_no_paths options action base_ref cp1 cp2 workflow :
  has_path_filter options = false →
  matches_options options action base_ref cp1 workflow =
  matches_options options action base_ref cp2 workflow.
Proof. intros H. unfold matches_options. by rewrite H. Qed.

(** Induction on values through sequences. *)
Fixpoint value_seq_ind (P : Value → Prop)
    (Hseq : ∀ l, (∀ v, v ∈ l → P v) → P (VSequence l))
    (Hother : ∀ v, (∀ l, v ≠ VSequence l) → P v) (v : Value) : P v.
Proof.
  destruct v as [| | | |l| |].
  5: { apply Hseq. induction l as [|x l IH].
       - by intros v ?%not_elem_of_nil.
       - intros v [->|Hin]%elem_of_cons; [by apply value_seq_ind | by apply IH]. }
  all: apply Hother; done.
Defined.

Lemma trigger_no_paths value action base_ref cp1 cp2 workflow :
  trigger_has_pull_request_path_filter value = false →
  matches_pull_request_trigger value action base_ref cp1 workflow =
  matches_pull_request_trigger value action base_ref cp2 workflow.
Proof.
  induction value as [l IH | v Hv] using value_seq_ind; simpl.
  - intros H. apply any_ok_ext. intros v Hv. apply IH; [done|].
    by eapply existsb_false_elem in H.
  - destruct v as [| | | |l|m|]; try done; [by destruct (Hv l)|]. simpl.
    destruct (mapping_get "pull_request" m) as [[| | | | |options|]|]; try done. simpl.
    rewrite as_mapping_mapping. apply matches_options_no_paths.
Qed.

Lemma trigger_no_panic value action base_ref cp workflow :
  matches_pull_request_trigger value action base_ref cp workflow ≠ Panic.
Proof.
  induction value as [l IH | v Hv] using value_seq_ind; simpl.
  - by apply any_ok_no_panic.
  - destruct v as [| | | |l|m|]; try done; [by destruct (Hv l)|]. simpl.
    destruct (mapping_get "pull_request" m) as [[| | | | |options|]|]; try done.
    apply matches_options_no_panic.
Qed.
End trigger_lemmas.

Section accepts.
Context `{VL : ValueLib} `{RL : RegexLib}.

(** What GitHub documents of the [pull_request] filters. *)
Definition path_filters_accept (options : Mapping) (workflow : string) (paths : list string) : Prop :=
  (∀ v, mapping_get "paths" options = Some v →
     ∃ ps path, compile_ordered_patterns v workflow "paths" = Ok ps ∧ path ∈ paths ∧
     matches_compiled_ordered_patterns ps path = true) ∧
  (∀ v, mapping_get "paths-ignore" options = Some v →
     ∃ rs path, compile_ignored_patterns v workflow "paths-ignore" = Ok rs ∧ path ∈ paths ∧
     ∀ r, r ∈ rs → is_match r path = false).

Record options_accept (options : Mapping) (action base_ref : string)
    (changed_paths : option (list string)) (workflow : string) : Prop := {
  oa_keys e : e ∈ options → ∃ key, as_str e.1 = Some key ∧ key ∈ pull_request_keys;
  oa_branches : mapping_contains "branches" options = false ∨
                mapping_contains "branches-ignore" options = false;
  oa_paths : mapping_contains "paths" options = false ∨
             mapping_contains "paths-ignore" options = false;
  oa_action : match mapping_get "types" options with
              | None => action ∈ ["opened"; "synchronize"; "reopened"]
              | Some types => value_contains_string types action = true
              end;
  oa_branch v : mapping_get "branches" options = Some v →
    ∃ ps, compile_ordered_patterns v workflow "branches" = Ok ps ∧
    matches_compiled_ordered_patterns ps base_ref = true;
  oa_ignored v : mapping_get "branches-ignore" options = Some v →
    ∃ rs, compile_ignored_patterns v workflow "branches-ignore" = Ok rs ∧
    ∀ r, r ∈ rs → is_match r base_ref = false;
  oa_changed : has_path_filter options = true →
    ∃ paths, changed_paths = Some paths ∧ path_filters_accept options workflow paths;
}.

Lemma check_option_keys_Ok workflow (options : Mapping) :
  for_each (check_option_key workflow) options tt = Ok tt ↔
  ∀ e, e ∈ options → ∃ key, as_str e.1 = Some key ∧ key ∈ pull_request_keys.
Proof.
  induction options as [|e l IH]; cbn [for_each].
  - split; [|done]. by intros _ e ?%not_elem_of_nil.
  - set (ok := λ e : Value * Value, ∃ key, as_str e.1 = Some key ∧ key ∈ pull_request_keys) in *.
    assert (check_option_key workflow e tt = Ok tt ↔ ok e) as Hone.
    { unfold check_option_key, ok. destruct (as_str e.1) as [key|]; simpl.
      - case_bool_decide; simpl; split; try done; [eauto|]. by intros (? & [= <-] & ?).
      - split; [done|]. by intros (? & ? & _). }
    transitivity (ok e ∧ ∀ e', e' ∈ l → ok e').
    + change (∀ e', e' ∈ l → ok e') with
        (∀ e', e' ∈ l → ∃ key, as_str e'.1 = Some key ∧ key ∈ pull_request_keys).
      rewrite <-Hone, <-IH. destruct (check_option_key workflow e tt) as [[]| |]; naive_solver.
    + split; [intros [He Hl] e' [->|Hin]%elem_of_cons; [exact He | exact (Hl e' Hin)]|].
      intros Hall. split; [apply Hall, list_elem_of_here|]. intros e' ?. by apply Hall, list_elem_of_further.
Qed.

Lemma check_paths_true options changed_paths workflow :
  has_path_filter options = true →
  check_paths options changed_paths workflow = Ok true ↔
  ∃ paths, changed_paths = Some paths ∧ path_filters_accept options workflow paths.
Proof.
  intros Hhas. unfold check_paths, path_filters_accept.
  destruct changed_paths as [paths|]; simpl; [|naive_solver].
  destruct paths as [|p paths].
  { split; [done|]. intros (? & [= <-] & H1 & H2).
    unfold has_path_filter, mapping_contains in Hhas.
    destruct (mapping_get "paths" options) as [v|].
    - destruct (H1 v eq_refl) as (? & ? & _ & ?%not_elem_of_nil & _). done.
    - destruct (mapping_get "paths-ignore" options) as [v|]; [|done].
      destruct (H2 v eq_refl) as (? & ? & _ & ?%not_elem_of_nil & _). done. }
  set (l := p :: paths).
  match goal with |- obind ?c _ = _ ↔ _ =>
    assert (c = Ok true ↔ ∀ v, mapping_get "paths" options = Some v →
      ∃ ps path, compile_ordered_patterns v workflow "paths" = Ok ps ∧ path ∈ l ∧
      matches_compiled_ordered_patterns ps path = true) as Hpaths; [|set (included := c) in *]
  end.
  { destruct (mapping_get "paths" options) as [v|]; [|by split].
    unfold matches_any_ordered_path.
    destruct (compile_ordered_patterns v workflow "paths") as [ps| |] eqn:E; cbn [obind];
      [|split; [done|]; intros Hv; destruct (Hv v eq_refl) as (? & ? & ? & _); congruence..].
    rewrite <-Ok_iff, existsb_true_elem. split.
    - intros (path & ? & ?) ? [= <-]. by exists ps, path.
    - intros Hv. destruct (Hv v eq_refl) as (ps' & path & ? & ? & ?). assert (ps' = ps) as -> by congruence. by exists path. }
  destruct included as [[]| |]; cbn [obind negb].
  2-4: split; [done|]; intros (? & [= <-] & H1 & _); apply Hpaths in H1; done.
  transitivity (∀ v, mapping_get "paths-ignore" options = Some v →
     ∃ rs path, compile_ignored_patterns v workflow "paths-ignore" = Ok rs ∧ path ∈ l ∧
     ∀ r, r ∈ rs → is_match r path = false).
  2: { pose proof (proj1 Hpaths eq_refl). split; [intros ?; by exists l|].
       by intros (? & [= <-] & _ & ?). }
  destruct (mapping_get "paths-ignore" options) as [v|]; [|by split].
  destruct (compile_ignored_patterns v workflow "paths-ignore") as [rs| |] eqn:E; cbn [obind];
    [|split; [done|]; intros Hv; destruct (Hv v eq_refl) as (? & ? & ? & _); congruence..].
  rewrite <-Ok_iff, negb_true_iff, forallb_false_elem. split.
  - intros (path & ? & ?) ? [= <-]. exists rs, path. split_and!; [done..|]. by apply existsb_false_elem.
  - intros Hv. destruct (Hv v eq_refl) as (rs' & path & ? & ? & ?). assert (rs' = rs) as -> by congruence. exists path.
    split; [done|]. by apply existsb_false_elem.
Qed.
End accepts.

Section properties.
Context `{VL : ValueLib} `{RL : RegexLib}.

(** in an ordered filter the last pattern that matches decides: a
    candidate is included exactly when a positive pattern matches it and no
    later pattern does with a leading [!]. *)
Theorem ordered_patterns_last_match patterns candidate :
  matches_compiled_ordered_patterns patterns candidate = true ↔
  ∃ before r after, patterns = before ++ (false, r) :: after ∧ is_match r candidate = true ∧
    ∀ n r', (n, r') ∈ after → is_match r' candidate = false ∨ n = false.
Proof.
  induction patterns as [|[n r] patterns IH] using rev_ind.
  - split; [done|]. intros (before & r & after & H & _). by destruct before.
  - rewrite ordered_patterns_snoc. destruct (is_match r candidate) eqn:Hm.
    + destruct n; simpl; split.
      * done.
      * intros (before & r' & after & H & _ & Hafter).
        destruct after as [|a after] using rev_ind; simplify_list_eq.
        destruct (Hafter true r) as [?|?]; [set_solver | congruence..].
      * intros _. exists patterns, r, []. split_and!; [done..|].
        by intros ? ? ?%not_elem_of_nil.
      * done.
    + rewrite IH. split; intros (before & r' & after & H & Hr & Hafter).
      * exists before, r', (after ++ [(n, r)]). rewrite H, <-app_assoc. split_and!; [done..|].
        intros n' r''. rewrite elem_of_app, list_elem_of_singleton. intros [?|[= -> ->]]; eauto.
      * destruct after as [|a after _] using rev_ind; simplify_list_eq; [congruence|].
        exists before, r', after. split_and!; [done..|]. intros n' r'' ?.
        apply Hafter. set_solver.
Qed.

(** a mapping of [pull_request] options accepts an event exactly when its
    keys are the supported ones, the exclusive filters are not combined, the
    activity is listed, the base branch passes, and some changed file passes
    the path filter. *)
Theorem matches_options_exact options action base_ref changed_paths workflow :
  matches_options options action base_ref changed_paths workflow = Ok true ↔
  options_accept options action base_ref changed_paths workflow.
Proof.
  unfold matches_options. rewrite obind_Ok. split.
  - intros ([] & Hkeys & H).
    apply obind_Ok in H as (? & Hb%reject_if_Ok & H). apply obind_Ok in H as (? & Hp%reject_if_Ok & H).
    cbn zeta in H. destruct (negb _) eqn:Ha; [done|]. apply negb_false_iff in Ha.
    apply obind_Ok in H as ([] & Hbranch & H); [|done]. simpl in H.
    apply obind_Ok in H as ([] & Hign & H); [done|].
    split.
    + exact (proj1 (check_option_keys_Ok _ _) Hkeys).
    + by apply andb_false_iff.
    + by apply andb_false_iff.
    + destruct (mapping_get "types" options); [done|]. unfold is_default_action in Ha.
      by apply bool_decide_eq_true in Ha.
    + intros v Hv. rewrite Hv in Hbranch. apply obind_Ok in Hbranch as (ps & ? & Hm%Ok_inj). eauto.
    + intros v Hv. rewrite Hv in Hign. apply obind_Ok in Hign as (rs & ? & Hm%Ok_inj).
      exists rs. split; [done|]. exact (proj1 (existsb_false_elem _ _) Hm).
    + intros Hhas. rewrite Hhas in H. by apply check_paths_true.
  - intros [Hkeys Hb Hp Ha Hbranch Hign Hch].
    exists tt. split; [exact (proj2 (check_option_keys_Ok _ _) Hkeys)|].
    apply andb_false_iff in Hb, Hp. rewrite Hb, Hp. cbn [reject_if obind].
    assert (match mapping_get "types" options with
            | None => is_default_action action
            | Some types => value_contains_string types action end = true) as ->.
    { destruct (mapping_get "types" options); [done|]. unfold is_default_action.
      by rewrite bool_decide_true. }
    cbn [negb].
    assert (match mapping_get "branches" options with
            | Some branches => matches_ordered_patterns branches base_ref workflow "branches"
            | None => Ok true end = Ok true) as ->.
    { destruct (mapping_get "branches" options) as [v|]; [|done].
      destruct (Hbranch v eq_refl) as (ps & Hc & Hm). unfold matches_ordered_patterns.
      by rewrite Hc; simpl; rewrite Hm. }
    cbn [obind negb].
    assert (match mapping_get "branches-ignore" options with
            | Some ignored => matches_ignored_pattern ignored base_ref workflow "branches-ignore"
            | None => Ok false end = Ok false) as ->.
    { destruct (mapping_get "branches-ignore" options) as [v|]; [|done].
      destruct (Hign v eq_refl) as (rs & Hc & Hm). unfold matches_ignored_pattern.
      rewrite Hc; simpl. f_equal. exact (proj2 (existsb_false_elem _ _) Hm). }
    cbn [obind]. destruct (has_path_filter options) eqn:Hhas; [|done].
    apply check_paths_true; auto.
Qed.

(** the agent fetches the changed files of a pull request only when
    [requires_pull_request_changed_paths] says so, and that is sound: when it
    says no, the files cannot change the decision. *)
Theorem changed_paths_only_when_required w action base_ref changed_paths :
  requires_pull_request_changed_paths w = false →
  matches_pull_request w action base_ref changed_paths = matches_pull_request w action base_ref None.
Proof. apply trigger_no_paths. Qed.

(** a filter pattern cannot smuggle regular-expression syntax: every atom
    of the generated expression is a wildcard, an escaped character, a range
    of letters, digits and dashes, or one of these under a single quantifier;
    and the translation never indexes out of range. *)
Theorem glob_atoms_safe pattern workflow filter :
  outcome_spec (glob_atoms pattern workflow filter) (Forall atom_shape) (λ _, True).
Proof. apply glob_loop_spec; [done | constructor]. Qed.

(** a pattern without special characters compiles to the anchored escape
    of its characters, so that it matches as a literal. *)
Theorem compile_glob_literal pattern workflow filter regex :
  Forall (λ c, glob_special c = false) (chars pattern) →
  compile_glob pattern workflow filter = Ok regex ↔
  regex_new ("^(?:" +:+ sconcat (regex_escape <$> chars pattern) +:+ ")$") = Ok regex.
Proof.
  intros H. unfold compile_glob, glob_atoms. rewrite glob_loop_literal by done. cbn [obind].
  rewrite app_nil_l, <-list_fmap_compose. apply map_err_Ok.
Qed.

(** deciding whether a workflow runs for a pull request never panics. *)
Theorem matches_pull_request_never_panics w action base_ref changed_paths :
  matches_pull_request w action base_ref changed_paths ≠ Panic.
Proof. apply trigger_no_panic. Qed.
End properties.

Section witnesses.
#[local] Existing Instances demo_values demo_value_lib.

(** An engine for expressions without operators: the text between the anchors. *)
#[local] Program Instance demo_regex : RegexLib := {|
  Regex := string;
  regex_new := λ s, Ok s;
  is_match := λ r s, bool_decide (r = "^(?:" +:+ s +:+ ")$");
  regex_escape := λ s, s;
|}.
Next Obligation. done. Qed.

Definition demo_workflow (trigger : Value) : Workflow :=
  mkWorkflow "ci" trigger ∅ (mkDefaults (mkRunDefaults None None ∅) ∅) None None None [] ∅.

Definition demo_trigger : Value :=
  VMapping [(VString "pull_request",
             VMapping [(VString "branches", VSequence [VString "main"; VString "!main"; VString "dev"])])].

(** [main] is included, then excluded again; [dev] is included. *)
Example demo_trigger_branches :
  (λ base, matches_pull_request (demo_workflow demo_trigger) "opened" base None) <$> ["main"; "dev"] =
  [Ok false; Ok true].
Proof. vm_compute. reflexivity. Qed.

Lemma changed_paths_only_when_required_witness :
  matches_pull_request (demo_workflow demo_trigger) "opened" "dev" (Some ["src/lib.rs"]) =
  matches_pull_request (demo_workflow demo_trigger) "opened" "dev" None.
Proof.
  apply (changed_paths_only_when_required (demo_workflow demo_trigger)).
  vm_compute. reflexivity.
Defined.

Lemma compile_glob_literal_witness :
  compile_glob (RL:=demo_regex) "main" "ci" "branches" = Ok "^(?:main)$".
Proof.
  apply (compile_glob_literal (RL:=demo_regex) "main" "ci" "branches" "^(?:main)$").
  - repeat constructor.
  - vm_compute. reflexivity.
Defined.
End witnesses.
