(* ===== verification/Compile.v ===== *)
(** * The compiler (crates/gitzero-workflow)

    [compile]: a workflow without reusable calls turned into an execution plan,
    one planned job per combination of each job's matrix. *)

From S2P Require Import Prelude RustStr OrdMap Yaml Expression Evaluate Templates Workflow Permissions Validate Matrix Steps Dependencies Instances.

Section compile.
Context `{VL : ValueLib} `{EL : ExpressionLib} `{TC : !TemplateContract}.

(** [path.to_string_lossy().replace('\\', "/")], and the default name. *)
Definition planned_workflow_path (path : string) : string := replace_byte "\" "/" path.

Definition planned_workflow_name (workflow : Workflow) (path : string) : string :=
  if bool_decide (w_name workflow = default_workflow_name) then planned_workflow_path path
  else w_name workflow.

Definition option_or {A} (a b : option A) : option A :=
  match a with Some _ => a | None => b end.

Definition job_location (job_id : string) : string := "job '" +:+ job_id +:+ "'".

Definition planned_job_id (has_matrix : bool) (job_id : string) (matrix_index : nat) : string :=
  if has_matrix then job_id +:+ "[" +:+ pretty (S matrix_index) +:+ "]" else job_id.

(** One combination of a job: the body of the inner loop. *)
Definition plan_combination (workflow : Workflow) (workflow_name workflow_path : string)
    (workflow_permissions : PlannedPermissions) (job_id : string) (job : Job)
    (dynamic : option Value) (matrix_total : nat) (has_matrix : bool)
    (entry : nat * gmap string json) : outcome WorkflowError PlannedJob :=
  let '(matrix_index, matrix) := entry in
  let environment := btree_extend (scalar_map (w_env workflow)) (scalar_map (j_env job)) in
  let default_shell := option_or (rd_shell (d_run (j_defaults job)))
                         (rd_shell (d_run (w_defaults workflow))) in
  let default_working_directory :=
    option_or (rd_working_directory (d_run (j_defaults job)))
      (rd_working_directory (d_run (w_defaults workflow))) in
  let? steps := compile_steps workflow_name job_id (j_steps job) default_shell
                  default_working_directory in
  let id := planned_job_id has_matrix job_id matrix_index in
  let? runs_on := expect (j_runs_on job) in
  let? permissions := planned_permissions workflow_name (job_location job_id) (j_permissions job)
                        workflow_permissions in
  let? concurrency := planned_concurrency workflow_name (job_location job_id) (j_concurrency job)
                        ["github"; "inputs"; "vars"; "needs"; "strategy"; "matrix"] in
  let? deployment_environment := planned_environment workflow_name job_id (j_environment job) in
  Ok {|
    pj_id := id;
    pj_base_id := job_id;
    pj_name := default job_id (j_name job);
    pj_defining_workflow_path := workflow_path;
    pj_workflow_identity := None;
    pj_needs := needs_list (j_needs job);
    pj_need_aliases := btree_collect ((λ dependency, (dependency, dependency)) <$>
                                      needs_list (j_needs job));
    pj_condition := scalar_str <$> j_condition job;
    pj_runs_on := runs_on;
    pj_reusable_input_scopes := [];
    pj_reusable_secret_scopes := [];
    pj_virtual_job := None;
    pj_matrix := matrix;
    pj_dynamic_matrix := dynamic;
    pj_matrix_fail_fast := strategy_fail_fast (j_strategy job);
    pj_matrix_max_parallel := strategy_max_parallel (j_strategy job);
    pj_strategy_job_index := (λ _, matrix_index) <$> j_strategy job;
    pj_strategy_job_total := (λ _, matrix_total) <$> j_strategy job;
    pj_continue_on_error := scalar_str <$> j_continue_on_error job;
    pj_timeout_minutes := scalar_str <$> j_timeout_minutes job;
    pj_permissions := permissions;
    pj_concurrency := concurrency;
    pj_concurrency_scope_ids := [];
    pj_concurrency_acquire := [];
    pj_concurrency_release := [];
    pj_deployment_environment := deployment_environment;
    pj_environment := environment;
    pj_outputs := scalar_map (j_outputs job);
    pj_steps := steps;
  |}.

Definition plan_has_matrix (plan : MatrixPlan) : bool :=
  is_some (mp_dynamic plan) || bool_decide (1 < length (mp_combinations plan))
  || existsb (λ matrix, negb (btree_is_empty matrix)) (mp_combinations plan).

(** One job: the body of the outer loop. *)
Definition plan_job (workflow : Workflow) (workflow_name workflow_path : string)
    (workflow_permissions : PlannedPermissions) (entry : string * Job) (jobs : list PlannedJob)
    : outcome WorkflowError (list PlannedJob) :=
  let '(job_id, job) := entry in
  validate_job workflow_name job_id job ;?
  validate_defaults workflow_name (job_location job_id) (j_defaults job) ;?
  let? plan := expand_matrix workflow_name job_id (j_strategy job) in
  for_each (λ entry jobs,
    let? planned := plan_combination workflow workflow_name workflow_path workflow_permissions
                      job_id job (mp_dynamic plan) (length (mp_combinations plan))
                      (plan_has_matrix plan) entry in
    Ok (jobs ++ [planned])) (enumerate (mp_combinations plan)) jobs.

Definition compile (workflow : Workflow) (path : string) : outcome WorkflowError ExecutionPlan :=
  let workflow_path := planned_workflow_path path in
  let workflow_name := planned_workflow_name workflow path in
  no_extra (w_extra workflow) (λ feature, unsupported_workflow workflow_name
    ("top-level key '" +:+ feature +:+ "' is not supported yet")) ;?
  validate_defaults workflow_name "workflow" (w_defaults workflow) ;?
  let? workflow_permissions := planned_permissions workflow_name "workflow"
                                 (w_permissions workflow) permissions_default in
  let? workflow_concurrency := planned_concurrency workflow_name "workflow"
                                 (w_concurrency workflow) ["github"; "inputs"; "vars"] in
  let? jobs := for_each (plan_job workflow workflow_name workflow_path workflow_permissions)
                 (w_jobs workflow) [] in
  validate_dependencies workflow_name jobs ;?
  Ok (mkExecutionPlan workflow_name workflow_path workflow_concurrency jobs).
End compile.

(** ** Lemmas *)

Section lemmas.
Context `{VL : ValueLib} `{EL : ExpressionLib} `{TC : !TemplateContract}.

Lemma planned_permissions_no_panic workflow location value inherited :
  planned_permissions workflow location value inherited ≠ Panic.
Proof.
  unfold planned_permissions. destruct value as [[]|]; try done; [by repeat case_bool_decide|].
  apply (for_each_no_panic _ (λ _, True)); [done| |done].
  intros [k v] acc _ _. unfold permission_entry, ok_or; simpl.
  destruct (as_str k); simpl; [|done]. destruct (negb _); [done|].
  destruct (as_str v); simpl; [|done]. by repeat case_match.
Qed.

Lemma planned_permissions_ok workflow location value inherited p :
  well_formed inherited → planned_permissions workflow location value inherited = Ok p →
  well_formed p.
Proof.
  intros Hinh H. unfold planned_permissions in H. destruct value as [[]|]; try done.
  - case_bool_decide; [|by case_bool_decide]. apply Ok_inj in H. subst p. apply well_formed_all.
  - eapply (for_each_inv_simple _ well_formed); [apply well_formed_none| |exact H].
    intros entry s s' _. by apply permission_entry_well_formed.
  - by simplify_eq.
Qed.

(** What a combination becomes, whatever else the job says. *)
Record combination_of (workflow : Workflow) (workflow_name workflow_path job_id : string) (job : Job)
    (plan : MatrixPlan) (index : nat) (matrix : gmap string json) (pj : PlannedJob) : Prop := {
  co_id : pj_id pj = planned_job_id (plan_has_matrix plan) job_id index;
  co_base : pj_base_id pj = job_id;
  co_needs : pj_needs pj = needs_list (j_needs job);
  co_aliases d : pj_need_aliases pj !! d =
                 if bool_decide (d ∈ needs_list (j_needs job)) then Some d else None;
  co_runs_on : j_runs_on job = Some (pj_runs_on pj);
  co_matrix : pj_matrix pj = matrix;
  co_dynamic : pj_dynamic_matrix pj = mp_dynamic plan;
  co_environment k : pj_environment pj !! k =
    option_or (scalar_str <$> j_env job !! k) (scalar_str <$> w_env workflow !! k);
  co_steps : compile_steps workflow_name job_id (j_steps job)
               (option_or (rd_shell (d_run (j_defaults job))) (rd_shell (d_run (w_defaults workflow))))
               (option_or (rd_working_directory (d_run (j_defaults job)))
                  (rd_working_directory (d_run (w_defaults workflow)))) = Ok (pj_steps pj);
  co_permissions : well_formed (pj_permissions pj);
  co_plain : pj_virtual_job pj = None ∧ pj_concurrency_acquire pj = [] ∧
             pj_concurrency_release pj = [] ∧ pj_concurrency_scope_ids pj = [];
}.

Lemma plan_combination_Ok workflow name path perms job_id job plan index matrix pj :
  well_formed perms →
  plan_combination workflow name path perms job_id job (mp_dynamic plan)
    (length (mp_combinations plan)) (plan_has_matrix plan) (index, matrix) = Ok pj →
  combination_of workflow name path job_id job plan index matrix pj.
Proof.
  intros Hperms. unfold plan_combination. intros (steps & Hsteps & H)%obind_Ok.
  apply obind_Ok in H as (runs_on & Hrun%expect_Ok & H).
  apply obind_Ok in H as (p & Hp & H).
  apply obind_Ok in H as (c & _ & H). apply obind_Ok in H as (e & _ & [= <-]).
  split; simpl; try done.
  - intros d. by rewrite (lookup_btree_collect_fun _ (λ d, d)).
  - intros k. rewrite lookup_btree_extend. unfold scalar_map. rewrite !lookup_fmap.
    by destruct (j_env job !! k).
  - by eapply planned_permissions_ok.
Qed.

Lemma plan_combination_no_panic workflow name path perms job_id job dynamic total has entry :
  is_Some (j_runs_on job) →
  plan_combination workflow name path perms job_id job dynamic total has entry ≠ Panic.
Proof.
  intros [r Hr] H. destruct entry as [i m]. unfold plan_combination in H.
  apply obind_Panic in H as [H | (? & _ & H)]; [by apply compile_steps_no_panic in H|].
  rewrite Hr in H. cbn [expect obind] in H.
  apply obind_Panic in H as [H | (? & _ & H)]; [by apply planned_permissions_no_panic in H|].
  apply obind_Panic in H as [H | (? & _ & H)]; [by apply planned_concurrency_no_panic in H|].
  apply obind_Panic in H as [H | (? & _ & ?)]; [by apply planned_environment_no_panic in H|done].
Qed.

(** The jobs planned for one source job. *)
Definition group_of (workflow : Workflow) (name path : string) (entry : string * Job)
    (group : list PlannedJob) : Prop :=
  ∃ plan, expand_matrix name entry.1 (j_strategy entry.2) = Ok plan ∧
  j_uses entry.2 = None ∧
  length group = length (mp_combinations plan) ∧
  ∀ i pj, group !! i = Some pj → ∃ matrix, mp_combinations plan !! i = Some matrix ∧
    combination_of workflow name path entry.1 entry.2 plan i matrix pj.

Lemma enumerate_from_length {A} n (l : list A) : length (enumerate_from n l) = length l.
Proof. revert n; induction l as [|x l IH]; intros n; simpl; [done|]. by rewrite IH. Qed.

Lemma plan_job_Ok workflow name path perms entry jobs jobs' :
  well_formed perms →
  plan_job workflow name path perms entry jobs = Ok jobs' →
  ∃ group, jobs' = jobs ++ group ∧ group_of workflow name path entry group.
Proof.
  destruct entry as [job_id job]. intros Hperms. unfold plan_job.
  intros (? & Hv%validate_job_Ok & H)%obind_Ok.
  apply obind_Ok in H as (? & _ & H). apply obind_Ok in H as (plan & Hplan & H).
  rewrite for_each_traverse in H. apply omap_ok_Ok in H as (group & Hg & ->).
  exists group. split; [done|]. exists plan. split_and!; [done | by destruct Hv| |].
  - apply traverse_length in Hg. by rewrite enumerate_from_length in Hg.
  - intros i pj Hi. apply traverse_Ok in Hg.
    destruct (Forall2_lookup_r _ _ _ _ _ Hg Hi) as ([k m] & Hk & Hpj).
    assert (k = i ∧ mp_combinations plan !! i = Some m) as [-> Hm].
    { clear -Hk. enough (∀ n, enumerate_from n (mp_combinations plan) !! i = Some (k, m) →
        k = n + i ∧ mp_combinations plan !! i = Some m) as Hgen by (by apply Hgen in Hk).
      clear Hk. generalize (mp_combinations plan) as l. intros l n. revert n i.
      induction l as [|x l IH]; intros n i; [done|]. destruct i as [|i]; simpl.
      - intros [= -> ->]. by rewrite Nat.add_0_r.
      - intros [-> ?]%IH. split; [lia | done]. }
    exists m. split; [done|]. by eapply plan_combination_Ok.
Qed.

Lemma plan_job_no_panic workflow name path perms entry jobs :
  plan_job workflow name path perms entry jobs ≠ Panic.
Proof.
  destruct entry as [job_id job]. unfold plan_job. intros H.
  apply obind_Panic in H as [H | (? & Hv%validate_job_Ok & H)]; [by apply validate_job_no_panic in H|].
  apply obind_Panic in H as [H | (? & _ & H)]; [by apply validate_defaults_no_panic in H|].
  apply obind_Panic in H as [H | (plan & _ & H)]; [by apply expand_matrix_no_panic in H|].
  rewrite for_each_traverse in H. apply omap_ok_Panic, traverse_Panic in H as (e & _ & H).
  apply plan_combination_no_panic in H; [done|]. apply Hv.
Qed.

Lemma compile_groups workflow path plan :
  compile workflow path = Ok plan →
  ∃ groups, ep_jobs plan = concat groups ∧
  Forall2 (group_of workflow (planned_workflow_name workflow path) (planned_workflow_path path))
    (w_jobs workflow) groups.
Proof.
  unfold compile. intros (? & _ & H)%obind_Ok. apply obind_Ok in H as (? & _ & H).
  apply obind_Ok in H as (perms & Hp & H). apply obind_Ok in H as (? & _ & H).
  apply obind_Ok in H as (jobs & Hjobs & H). apply obind_Ok in H as (? & _ & [= <-]). simpl.
  apply planned_permissions_ok in Hp; [|apply well_formed_default].
  apply (for_each_inv _ (λ prefix jobs, ∃ groups, jobs = concat groups ∧
    Forall2 (group_of workflow (planned_workflow_name workflow path) (planned_workflow_path path))
      prefix groups)) in Hjobs; [done| |].
  - by exists [].
  - intros prefix entry rest s s' _ (groups & -> & Hg) Hbody.
    apply plan_job_Ok in Hbody as (group & -> & Hgroup); [|done].
    exists (groups ++ [group]). rewrite concat_app. simpl. rewrite app_nil_r.
    split; [done|]. by apply Forall2_app; [|constructor].
Qed.

Lemma compile_dependencies workflow path plan :
  compile workflow path = Ok plan →
  closed_graph (dependency_graph (ep_jobs plan)) ∧ acyclic (dependency_graph (ep_jobs plan)).
Proof.
  unfold compile. intros (? & _ & H)%obind_Ok. apply obind_Ok in H as (? & _ & H).
  apply obind_Ok in H as (perms & Hp & H). apply obind_Ok in H as (? & _ & H).
  apply obind_Ok in H as (jobs & Hjobs & H). apply obind_Ok in H as (? & Hd & [= <-]). simpl.
  pose proof (validate_graph_spec (planned_workflow_name workflow path) (dependency_graph jobs)) as Hs.
  unfold validate_dependencies in Hd. by rewrite Hd in Hs.
Qed.

Lemma compile_no_panic workflow path : compile workflow path ≠ Panic.
Proof.
  unfold compile. intros H.
  apply obind_Panic in H as [H | (? & _ & H)]; [by apply no_extra_no_panic in H|].
  apply obind_Panic in H as [H | (? & _ & H)]; [by apply validate_defaults_no_panic in H|].
  apply obind_Panic in H as [H | (? & _ & H)]; [by apply planned_permissions_no_panic in H|].
  apply obind_Panic in H as [H | (? & _ & H)]; [by apply planned_concurrency_no_panic in H|].
  apply obind_Panic in H as [H | (jobs & _ & H)].
  - revert H. apply (for_each_no_panic _ (λ _, True)); [done| |done].
    intros. apply plan_job_no_panic.
  - apply obind_Panic in H as [H | (? & _ & ?)]; [|done]. revert H.
    eapply outcome_spec_no_panic, validate_graph_spec.
Qed.

Lemma compile_job_origin workflow path plan pj :
  compile workflow path = Ok plan → pj ∈ ep_jobs plan →
  ∃ job_id job matrix_plan index matrix,
    (job_id, job) ∈ w_jobs workflow ∧
    expand_matrix (planned_workflow_name workflow path) job_id (j_strategy job) = Ok matrix_plan ∧
    mp_combinations matrix_plan !! index = Some matrix ∧
    combination_of workflow (planned_workflow_name workflow path) (planned_workflow_path path)
      job_id job matrix_plan index matrix pj.
Proof.
  intros (groups & Hjobs & Hg)%compile_groups Hin. rewrite Hjobs in Hin.
  apply list_elem_of_In, in_concat in Hin as (group & Hgin & Hin).
  apply list_elem_of_In, list_elem_of_lookup in Hgin as [n Hn].
  destruct (Forall2_lookup_r _ _ _ _ _ Hg Hn) as ([job_id job] & Hentry & mp & Hmp & _ & _ & Hall).
  apply list_elem_of_In, list_elem_of_lookup in Hin as [i Hi].
  destruct (Hall i pj Hi) as (m & Hm & Hc). exists job_id, job, mp, i, m.
  split_and!; try done. by eapply list_elem_of_lookup_2.
Qed.
End lemmas.

(** ** Identifiers *)

(** The source job of a planned job's id: what precedes the bracket. *)
Definition id_job (id : string) : string :=
  match split_once "[" id with Some (job_id, _) => job_id | None => id end.

Definition no_bracket (s : string) : bool :=
  negb (contains_byte (λ c, bool_decide (c = "["%char)) s).

Lemma split_once_no_bracket a r :
  no_bracket a = true →
  split_once "[" (a +:+ String "[" r) = Some (a, r) ∧ split_once "[" a = None.
Proof.
  unfold no_bracket. rewrite negb_true_iff. induction a as [|c a IH]; simpl; [done|].
  intros [Hc Ha]%orb_false_elim. rewrite Hc. destruct (IH Ha) as [-> ->]. done.
Qed.

Lemma id_job_planned has job_id index :
  no_bracket job_id = true → id_job (planned_job_id has job_id index) = job_id.
Proof.
  intros H. unfold id_job, planned_job_id.
  destruct (split_once_no_bracket job_id (pretty (S index) +:+ "]") H) as [H1 H2].
  destruct has; [|by rewrite H2].
  replace (job_id +:+ "[" +:+ pretty (S index) +:+ "]")
    with (job_id +:+ String "[" (pretty (S index) +:+ "]")) by done.
  by rewrite H1.
Qed.

Lemma planned_job_id_inj job_id i j :
  planned_job_id true job_id i = planned_job_id true job_id j → i = j.
Proof.
  unfold planned_job_id. intros H. apply sapp_inv_head, (sapp_inv_head "["), sapp_inv_tail in H.
  apply (inj pretty) in H. lia.
Qed.

Section ids.
Context `{VL : ValueLib} `{EL : ExpressionLib} `{TC : !TemplateContract}.

Lemma plan_without_matrix_single plan :
  plan_has_matrix plan = false → length (mp_combinations plan) ≤ 1.
Proof.
  unfold plan_has_matrix. intros [[_ H]%orb_false_elim _]%orb_false_elim.
  apply bool_decide_eq_false in H. lia.
Qed.

Lemma group_ids_distinct workflow name path entry group :
  group_of workflow name path entry group → NoDup (pj_id <$> group).
Proof.
  intros (plan & _ & _ & Hlen & Hall). apply NoDup_alt. intros i j id Hi Hj.
  rewrite list_lookup_fmap in Hi, Hj.
  apply fmap_Some in Hi as (p & Hi & ->). apply fmap_Some in Hj as (q & Hj & Heq).
  pose proof (lookup_lt_Some _ _ _ Hi). pose proof (lookup_lt_Some _ _ _ Hj).
  destruct (Hall i p Hi) as (? & _ & Hp). destruct (Hall j q Hj) as (? & _ & Hq).
  rewrite (co_id _ _ _ _ _ _ _ _ _ Hp), (co_id _ _ _ _ _ _ _ _ _ Hq) in Heq.
  destruct (plan_has_matrix plan) eqn:Hhas.
  - by apply planned_job_id_inj in Heq.
  - apply plan_without_matrix_single in Hhas. lia.
Qed.

Lemma group_id_job workflow name path entry group id :
  group_of workflow name path entry group → no_bracket entry.1 = true →
  id ∈ pj_id <$> group → id_job id = entry.1.
Proof.
  intros (plan & _ & _ & _ & Hall) Hnb (p & -> & Hp)%list_elem_of_fmap.
  apply list_elem_of_lookup in Hp as [i Hi]. destruct (Hall i p Hi) as (? & _ & Hc).
  rewrite (co_id _ _ _ _ _ _ _ _ _ Hc). by apply id_job_planned.
Qed.

Lemma group_base workflow name path entry group pj :
  group_of workflow name path entry group → pj ∈ group →
  pj_base_id pj = entry.1 ∧ pj_needs pj = needs_list (j_needs entry.2).
Proof.
  intros (plan & _ & _ & _ & Hall) [i Hi]%list_elem_of_lookup.
  destruct (Hall i pj Hi) as (? & _ & Hc). split; apply Hc.
Qed.

Lemma groups_ids_distinct workflow name path entries groups :
  Forall2 (group_of workflow name path) entries groups →
  NoDup entries.*1 → Forall (λ e, no_bracket e.1 = true) entries →
  NoDup (pj_id <$> concat groups).
Proof.
  induction 1 as [|e g entries groups Hg Hgs IH]; intros Hnd Hnb; [constructor|].
  cbn [concat]. rewrite fmap_app. apply Forall_cons in Hnb as [Hb Hnb].
  cbn [fmap list_fmap] in Hnd. apply NoDup_cons in Hnd as [Hfresh Hnd].
  apply NoDup_app. split_and!; [by eapply group_ids_distinct| |by apply IH].
  intros id Hid Hin. pose proof (group_id_job _ _ _ _ _ _ Hg Hb Hid) as Hjob.
  apply list_elem_of_fmap in Hin as (p & -> & Hin).
  apply list_elem_of_In, in_concat in Hin as (g' & Hg' & Hin).
  apply list_elem_of_In, list_elem_of_lookup in Hg' as [n Hn].
  destruct (Forall2_lookup_r _ _ _ _ _ Hgs Hn) as (e' & He' & Hgroup).
  apply Hfresh. rewrite <-Hjob. apply list_elem_of_lookup_2 in He'.
  rewrite Forall_forall in Hnb.
  rewrite (group_id_job _ _ _ _ _ (pj_id p) Hgroup (Hnb _ He'));
    [by apply list_elem_of_fmap_2|].
  apply list_elem_of_fmap_2. by apply list_elem_of_In.
Qed.

(** Jobs of one base id share their needs. *)
Lemma compile_same_needs workflow path plan p q :
  NoDup (w_jobs workflow).*1 → compile workflow path = Ok plan →
  p ∈ ep_jobs plan → q ∈ ep_jobs plan → pj_base_id p = pj_base_id q → pj_needs p = pj_needs q.
Proof.
  intros Hnd H Hp Hq Hbase.
  destruct (compile_job_origin _ _ _ _ H Hp) as (a & ja & ? & ? & ? & Ha & _ & _ & Hca).
  destruct (compile_job_origin _ _ _ _ H Hq) as (b & jb & ? & ? & ? & Hb & _ & _ & Hcb).
  rewrite (co_base _ _ _ _ _ _ _ _ _ Hca), (co_base _ _ _ _ _ _ _ _ _ Hcb) in Hbase. subst b.
  assert (ja = jb) as ->.
  { apply list_elem_of_lookup in Ha as [i Hi]. apply list_elem_of_lookup in Hb as [j Hj].
    assert (i = j) as ->; [|congruence].
    eapply (NoDup_lookup _ i j a Hnd); rewrite list_lookup_fmap; [by rewrite Hi | by rewrite Hj]. }
  by rewrite (co_needs _ _ _ _ _ _ _ _ _ Hca), (co_needs _ _ _ _ _ _ _ _ _ Hcb).
Qed.
End ids.

Section properties.
Context `{VL : ValueLib} `{EL : ExpressionLib} `{TC : !TemplateContract}.

(** C15: compilation is total: no workflow, however malformed, makes [compile]
    panic - the [expect] on [runs-on], the panics of step compilation and the
    indexing of the dependency search are all unreachable. *)
Theorem compile_never_panics workflow path : compile workflow path ≠ Panic.
Proof. apply compile_no_panic. Qed.

(** the plan has, job by job in source order, exactly one planned job for
    each combination of the job's matrix, in order; each carries the source
    job's needs, runner and steps, its own combination, the workflow's
    environment overridden by the job's, and well-formed permissions. *)
Theorem compile_plans_every_combination workflow path plan :
  compile workflow path = Ok plan →
  ∃ groups, ep_jobs plan = concat groups ∧
  Forall2 (group_of workflow (planned_workflow_name workflow path) (planned_workflow_path path))
    (w_jobs workflow) groups.
Proof. apply compile_groups. Qed.

(** C16: a compiled plan is self-contained: the needs of every planned job, not
    only of the first of each matrix, are base ids of the plan, they alias
    themselves, and following them from any job terminates. *)
Theorem compile_plan_closed workflow path plan :
  NoDup (w_jobs workflow).*1 → compile workflow path = Ok plan →
  (∀ pj d, pj ∈ ep_jobs plan → d ∈ pj_needs pj →
     d ∈ base_ids (ep_jobs plan) ∧ pj_need_aliases pj !! d = Some d) ∧
  (∀ pj, pj ∈ ep_jobs plan →
     Acc (flip (edge (dependency_graph (ep_jobs plan)))) (pj_base_id pj)).
Proof.
  intros Hnd H. destruct (compile_dependencies _ _ _ H) as [Hclosed Hacyc]. split.
  - intros pj d Hpj Hd. split.
    + destruct (dependency_graph_lookup (ep_jobs plan) (pj_base_id pj)) as (q & Hq & Hbase & Hg).
      { by apply list_elem_of_fmap_2. }
      assert (edge (dependency_graph (ep_jobs plan)) (pj_base_id pj) d) as Hedge.
      { exists (pj_needs q). split; [done|].
        by rewrite (compile_same_needs workflow path plan q pj). }
      apply Hclosed in Hedge. by apply dependency_graph_dom.
    + destruct (compile_job_origin _ _ _ _ H Hpj) as (? & ? & ? & ? & ? & _ & _ & _ & Hc).
      rewrite (co_aliases _ _ _ _ _ _ _ _ _ Hc), <-(co_needs _ _ _ _ _ _ _ _ _ Hc).
      by rewrite bool_decide_true.
  - intros pj Hpj. apply (acyclic_accessible ""); [done..|].
    apply dependency_graph_dom, elem_of_base_ids. eauto.
Qed.

(** planned jobs have distinct ids when the source job ids contain no
    bracket, as GitHub's own naming rules ensure; the compiler itself does not
    check that. *)
Theorem compile_ids_distinct workflow path plan :
  NoDup (w_jobs workflow).*1 → Forall (λ e, no_bracket e.1 = true) (w_jobs workflow) →
  compile workflow path = Ok plan → NoDup (pj_id <$> ep_jobs plan).
Proof.
  intros Hnd Hnb (groups & -> & Hg)%compile_groups. by eapply groups_ids_distinct.
Qed.
End properties.

Section witnesses.
#[local] Existing Instances demo_values demo_value_lib demo_expressions demo_json.
#[local] Instance compile_templates : TemplateContract := expression_templates demo_hash_files.

Definition demo_defaults : Defaults := mkDefaults (mkRunDefaults None None ∅) ∅.

Definition demo_source_job (needs : list string) (strategy : option Value) : Job :=
  mkJob None (Some (VString "ubuntu")) (mkNeeds needs) ∅ ∅ demo_defaults None None None None None
    [demo_step "run" "make"] strategy ∅ None None None None None ∅.

Definition demo_strategy : Value :=
  VMapping [(VString "matrix", VMapping [(VString "os", VSequence [VString "linux"; VString "mac"])])].

Definition demo_source (second : string) : Workflow :=
  mkWorkflow "ci" VNull ∅ demo_defaults None None None
    [("build", demo_source_job [] (Some demo_strategy));
     (second, demo_source_job ["build"] None)] ∅.

Definition plan_ids (plan : ExecutionPlan) : list string := pj_id <$> ep_jobs plan.

Example demo_plan_ids :
  omap_ok plan_ids (compile (demo_source "test") ".github/workflows/ci.yml") =
  Ok ["build[1]"; "build[2]"; "test"].
Proof. vm_compute. reflexivity. Qed.

(** A job may be named like a matrix job, and then two planned jobs share an id. *)
Example bracketed_job_collides :
  omap_ok plan_ids (compile (demo_source "build[1]") "ci.yml") =
  Ok ["build[1]"; "build[2]"; "build[1]"].
Proof. vm_compute. reflexivity. Qed.

Lemma demo_source_compiles : is_ok (compile (demo_source "test") "ci.yml") = true.
Proof. vm_compute. reflexivity. Qed.

Lemma demo_source_keys : NoDup (w_jobs (demo_source "test")).*1.
Proof. apply (bool_decide_unpack _). vm_compute. exact I. Qed.

Lemma compile_plans_every_combination_witness :
  ∃ plan groups, compile (demo_source "test") "ci.yml" = Ok plan ∧ ep_jobs plan = concat groups.
Proof.
  destruct (is_ok_inv _ demo_source_compiles) as [plan H].
  destruct (compile_plans_every_combination (demo_source "test") "ci.yml" plan H)
    as (groups & Hg & _). exists plan, groups. split; [exact H | exact Hg].
Defined.

Lemma compile_plan_closed_witness :
  ∃ plan, compile (demo_source "test") "ci.yml" = Ok plan ∧
  ∀ pj d, pj ∈ ep_jobs plan → d ∈ pj_needs pj → d ∈ base_ids (ep_jobs plan).
Proof.
  destruct (is_ok_inv _ demo_source_compiles) as [plan H]. exists plan. split; [exact H|].
  intros pj d Hpj Hd.
  apply (proj1 (compile_plan_closed (demo_source "test") "ci.yml" plan demo_source_keys H) pj d Hpj Hd).
Defined.

Lemma compile_ids_distinct_witness :
  ∃ plan, compile (demo_source "test") "ci.yml" = Ok plan ∧ NoDup (pj_id <$> ep_jobs plan).
Proof.
  destruct (is_ok_inv _ demo_source_compiles) as [plan H]. exists plan. split; [exact H|].
  apply (compile_ids_distinct (demo_source "test") "ci.yml" plan demo_source_keys); [|done].
  repeat constructor.
Defined.
End witnesses.
