(* ===== verification/Reusable.v ===== *)
(** * Reusable workflow contracts (crates/gitzero-workflow)

    What a called workflow declares ([reusable_contract]), how a call names it
    ([reusable_path], over the paths of [UnixPath]) and how the inputs
    and secrets of a call are bound to the declaration. *)

From S2P Require Import Prelude RustStr UnixPath OrdMap Yaml Expression Evaluate Templates Workflow Validate Instances.

(** ** Paths *)

Definition workflows_directory : list Component := [Normal ".github"; Normal "workflows"].

(** The test both loaders make of a local path. *)
Definition is_workflow_path (path : string) : bool :=
  negb (is_absolute path
        || existsb (λ component, bool_decide (component = ParentDir) || bool_decide (component = RootDir))
             (components path)
        || negb (bool_decide (parent path = Some workflows_directory))
        || negb (match extension path with
                 | Some extension => bool_decide (extension = "yml") || bool_decide (extension = "yaml")
                 | None => false
                 end)).

Section contract.
Context `{VL : ValueLib}.

Definition local_reference (uses : string) : option string :=
  match strip_prefix "./" uses with
  | Some path => Some path
  | None =>
      match strip_prefix "$/" uses with
      | Some path => Some (trim_start_matches "/" path)
      | None => None
      end
  end.

Definition reusable_path (workflow job_id uses : string)
    (reusable_workflows : gmap string Workflow) : outcome WorkflowError string :=
  match local_reference uses with
  | None =>
      if btree_contains uses reusable_workflows then Ok uses
      else Err (incompatible workflow job_id
             ("remote reusable workflow reference '" +:+ uses +:+ "' was not resolved"))
  | Some path =>
      if is_workflow_path path then Ok (replace_byte "\" "/" path)
      else Err (incompatible workflow job_id
             ("reusable workflow path '" +:+ uses +:+ "' must name a file in .github/workflows"))
  end.

(** ** The declaration *)

Record ReusableInputDefinition := mkInputDefinition {
  input_type : ReusableInputType;
  input_required : bool;
  input_default : option Value;
}.

Record ReusableSecretDefinition := mkSecretDefinition {
  secret_required : bool;
}.

Record ReusableContract := mkContract {
  contract_inputs : gmap string ReusableInputDefinition;
  contract_secrets : gmap string ReusableSecretDefinition;
  contract_outputs : gmap string string;
}.

Definition workflow_call_configuration (trigger : Value) : outcome unit (option (option Mapping)) :=
  match trigger with
  | VString value => Ok (if bool_decide (value = "workflow_call") then Some None else None)
  | VSequence values =>
      Ok (if existsb (λ value, bool_decide (as_str value = Some "workflow_call")) values
          then Some None else None)
  | VMapping events =>
      match mapping_get "workflow_call" events with
      | None => Ok None
      | Some VNull => Ok (Some None)
      | Some (VMapping configuration) => Ok (Some (Some configuration))
      | Some _ => Err tt
      end
  | _ => Ok None
  end.

Definition reusable_input_matches (value : Value) (input_type : ReusableInputType) : bool :=
  match input_type with
  | InputString => is_some (as_str value)
  | InputBoolean => is_some (as_bool value)
  | InputNumber => is_some (as_i64 value) || is_some (as_u64 value) || has_f64 value
  end.

(** [^[A-Za-z_][A-Za-z0-9_]*$] *)
Definition valid_secret_identifier (name : string) : bool :=
  match name with
  | EmptyString => false
  | String byte bytes =>
      (is_ascii_alphabetic byte || bool_decide (byte = "_"%char))
      && string_forall (λ byte, is_ascii_alphanumeric byte || bool_decide (byte = "_"%char)) bytes
  end.

Section of_call.
Context (caller_workflow caller_job : string).

Definition fail_call {A} (reason : string) : outcome WorkflowError A :=
  Err (incompatible caller_workflow caller_job reason).

(** [for key in definition.keys() { if !matches!(..) { return Err(..) } }] *)
Definition check_keys (allowed : list string) (reason : option string → string)
    (definition : Mapping) : outcome WorkflowError unit :=
  for_each (λ (entry : Value * Value) _,
    match as_str entry.1 with
    | Some key => if bool_decide (key ∈ allowed) then Ok tt else fail_call (reason (Some key))
    | None => fail_call (reason None)
    end) definition tt.

(** [definition.get("required").map(..).transpose()?.unwrap_or(false)] *)
Definition definition_required (reason : string) (definition : Mapping)
    : outcome WorkflowError bool :=
  match mapping_get "required" definition with
  | None => Ok false
  | Some value => ok_or (as_bool value) (incompatible caller_workflow caller_job reason)
  end.

Definition definition_mapping (kind name : string) (value : Value)
    : outcome WorkflowError Mapping :=
  ok_or (as_mapping value) (incompatible caller_workflow caller_job
    ("workflow_call " +:+ kind +:+ " '" +:+ name +:+ "' must be a mapping")).

Definition definition_name (kind : string) (key : Value) : outcome WorkflowError string :=
  ok_or (as_str key) (incompatible caller_workflow caller_job
    ("workflow_call " +:+ kind +:+ " names must be strings")).

Definition secret_definition (entry : Value * Value)
    (secrets : gmap string ReusableSecretDefinition)
    : outcome WorkflowError (gmap string ReusableSecretDefinition) :=
  let? name := definition_name "secret" entry.1 in
  (if valid_secret_identifier name then Ok tt
   else fail_call ("workflow_call secret name '" +:+ name +:+ "' is invalid")) ;?
  let? definition := definition_mapping "secret" name entry.2 in
  check_keys ["description"; "required"]
    (λ _, "workflow_call secret '" +:+ name +:+ "' key is not supported") definition ;?
  let? required := definition_required
    ("workflow_call secret '" +:+ name +:+ "' required must be boolean") definition in
  Ok (<[name := mkSecretDefinition required]> secrets).

Definition declared_input_type (name : string) (definition : Mapping)
    : outcome WorkflowError ReusableInputType :=
  let type := value ← mapping_get "type" definition; as_str value in
  if bool_decide (type = Some "string") then Ok InputString
  else if bool_decide (type = Some "boolean") then Ok InputBoolean
  else if bool_decide (type = Some "number") then Ok InputNumber
  else fail_call ("workflow_call input '" +:+ name +:+
                  "' must declare string, boolean, or number type").

Definition input_definition (entry : Value * Value)
    (inputs : gmap string ReusableInputDefinition)
    : outcome WorkflowError (gmap string ReusableInputDefinition) :=
  let? name := definition_name "input" entry.1 in
  let? definition := definition_mapping "input" name entry.2 in
  check_keys ["description"; "required"; "type"; "default"]
    (λ _, "workflow_call input '" +:+ name +:+ "' key is not supported") definition ;?
  let? type := declared_input_type name definition in
  let? required := definition_required
    ("workflow_call input '" +:+ name +:+ "' required must be boolean") definition in
  let default := mapping_get "default" definition in
  match default with
  | Some value =>
      if value_contains_expression value || negb (reusable_input_matches value type)
      then fail_call ("workflow_call input '" +:+ name +:+ "' default has the wrong type")
      else Ok tt
  | None => Ok tt
  end ;?
  Ok (<[name := mkInputDefinition type required default]> inputs).

Definition output_definition (entry : Value * Value) (outputs : gmap string string)
    : outcome WorkflowError (gmap string string) :=
  let? name := definition_name "output" entry.1 in
  let? definition := definition_mapping "output" name entry.2 in
  check_keys ["description"; "value"]
    (λ _, "workflow_call output '" +:+ name +:+ "' key is not supported") definition ;?
  let? output := ok_or (value ← mapping_get "value" definition; as_str value)
    (incompatible caller_workflow caller_job
       ("workflow_call output '" +:+ name +:+ "' must define a scalar value")) in
  Ok (<[name := output]> outputs).

(** One section of the configuration: absent, or a mapping of definitions. *)
Definition contract_section {A} (section_ : string) (configuration : Mapping)
    (step : Value * Value → gmap string A → outcome WorkflowError (gmap string A))
    : outcome WorkflowError (gmap string A) :=
  match mapping_get section_ configuration with
  | None => Ok ∅
  | Some value =>
      let? definitions := ok_or (as_mapping value) (incompatible caller_workflow caller_job
        ("workflow_call " +:+ section_ +:+ " must be a mapping")) in
      for_each step definitions ∅
  end.

Definition reusable_contract (workflow : Workflow) : outcome WorkflowError ReusableContract :=
  let name := w_name workflow in
  let? configuration := map_err (λ _, incompatible caller_workflow caller_job
      ("called workflow '" +:+ name +:+ "' has an invalid workflow_call configuration"))
    (workflow_call_configuration (w_trigger workflow)) in
  let? configuration := ok_or configuration (incompatible caller_workflow caller_job
      ("called workflow '" +:+ name +:+ "' does not declare workflow_call")) in
  match configuration with
  | None => Ok (mkContract ∅ ∅ ∅)
  | Some configuration =>
      check_keys ["inputs"; "outputs"; "secrets"]
        (λ key, "called workflow '" +:+ name +:+ "' uses unsupported workflow_call key '" +:+
                default "non-string" key +:+ "'") configuration ;?
      let? secrets := contract_section "secrets" configuration secret_definition in
      let? inputs := contract_section "inputs" configuration input_definition in
      let? outputs := contract_section "outputs" configuration output_definition in
      Ok (mkContract inputs secrets outputs)
  end.
End of_call.

(** ** Binding a call *)

(** The value of one input: the call's, the default, or the zero of its type. *)
Definition input_value (workflow job_id : string) (call : Job) (name : string)
    (definition : ReusableInputDefinition) : outcome WorkflowError Value :=
  match j_with call !! name with
  | Some value => Ok value
  | None =>
      match input_default definition with
      | Some value => Ok value
      | None =>
          if input_required definition then
            Err (incompatible workflow job_id
                   ("required reusable workflow input '" +:+ name +:+ "' is missing"))
          else
            Ok match input_type definition with
               | InputString => VString ""
               | InputBoolean => VBool false
               | InputNumber => VNumber ynum_zero
               end
      end
  end.

Definition bind_input (workflow job_id : string) (call : Job)
    (entry : string * ReusableInputDefinition) (inputs : gmap string PlannedReusableInput)
    : outcome WorkflowError (gmap string PlannedReusableInput) :=
  let '(name, definition) := entry in
  let? value := input_value workflow job_id call name definition in
  reject_if (negb (value_contains_expression value)
             && negb (reusable_input_matches value (input_type definition)))
    (incompatible workflow job_id
       ("reusable workflow input '" +:+ name +:+ "' has the wrong type")) ;?
  Ok (<[name := mkReusableInput value (input_type definition)]> inputs).

Definition bind_reusable_inputs (workflow job_id : string) (call : Job)
    (contract : ReusableContract) : outcome WorkflowError (gmap string PlannedReusableInput) :=
  match head (base.filter (λ input, contract_inputs contract !! input = None)
                (btree_keys (j_with call))) with
  | Some input => Err (incompatible workflow job_id
      ("reusable workflow does not declare input '" +:+ input +:+ "'"))
  | None =>
      for_each (bind_input workflow job_id call) (btree_iter (contract_inputs contract)) ∅
  end.

Definition reusable_secret_reference (value : Value) : option string :=
  value ← as_str value;
  inner ← strip_prefix "${{" (trim value);
  inner ← strip_suffix "}}" inner;
  let expression := trim inner in
  if bool_decide (expression = "github.token") then Some "GITHUB_TOKEN"
  else
    name ← match strip_prefix "secrets." expression with
           | Some name => Some name
           | None => (value ← strip_prefix "secrets['" expression; strip_suffix "']" value)
           end;
    if valid_secret_identifier name then Some name else None.

Definition bind_secret (workflow job_id : string) (contract : ReusableContract)
    (entry : Value * Value) (mappings : gmap string string)
    : outcome WorkflowError (gmap string string) :=
  let? target := ok_or (as_str entry.1)
    (incompatible workflow job_id "reusable workflow secret names must be strings") in
  reject_if (negb (btree_contains target (contract_secrets contract)))
    (incompatible workflow job_id
       ("reusable workflow does not declare secret '" +:+ target +:+ "'")) ;?
  let? source := ok_or (reusable_secret_reference entry.2)
    (incompatible workflow job_id
       ("reusable workflow secret '" +:+ target +:+
        "' must reference an available secret or github.token")) in
  Ok (<[target := source]> mappings).

Definition required_secrets (contract : ReusableContract) : gset string :=
  dom (filter (λ entry, secret_required entry.2 = true) (contract_secrets contract)).

(** The secrets the call must provide and does not. *)
Definition missing_secrets (scope : PlannedReusableSecretScope) : list string :=
  base.filter (λ name, eq_ignore_ascii_case name "GITHUB_TOKEN" = false ∧ ss_mappings scope !! name = None)
    (set_iter (ss_required scope)).

Definition bind_reusable_secrets (workflow job_id : string) (call : Job)
    (contract : ReusableContract) : outcome WorkflowError PlannedReusableSecretScope :=
  let scope := mkSecretScope false ∅ (required_secrets contract) in
  let bad := Err (incompatible workflow job_id
    "reusable workflow secrets must be a named mapping or 'inherit'") in
  let? scope :=
    match j_secrets call with
    | None => Ok scope
    | Some (VString value) =>
        if bool_decide (value = "inherit") then Ok (scope <| ss_inherit := true |>) else bad
    | Some (VMapping bindings) =>
        let? mappings := for_each (bind_secret workflow job_id contract) bindings ∅ in
        Ok (scope <| ss_mappings := mappings |>)
    | Some _ => bad
    end in
  match (if ss_inherit scope then None else head (missing_secrets scope)) with
  | Some missing => Err (incompatible workflow job_id
      ("required reusable workflow secret '" +:+ missing +:+ "' is missing"))
  | None => Ok scope
  end.
End contract.

(** ** Lemmas *)

Lemma omap_head_filter_None {A} (P : A → Prop) `{∀ x, Decision (P x)} (l : list A) :
  head (base.filter P l) = None ↔ ∀ x, x ∈ l → ¬ P x.
Proof.
  rewrite head_None. split.
  - intros Hf x Hx HP. assert (x ∈ base.filter P l) as Hin by (by apply list_elem_of_filter).
    rewrite Hf in Hin. by apply not_elem_of_nil in Hin.
  - intros Hall. destruct (base.filter P l) as [|x k] eqn:E; [done|].
    assert (x ∈ base.filter P l) as Hin by (rewrite E; apply list_elem_of_here).
    apply list_elem_of_filter in Hin as [? ?]. by destruct (Hall x).
Qed.

Lemma is_workflow_path_components path :
  is_workflow_path path = true →
  ∃ file, components path = workflows_directory ++ [Normal file] ∧
          (extension path = Some "yml" ∨ extension path = Some "yaml").
Proof.
  unfold is_workflow_path. rewrite negb_true_iff.
  intros [[[_ _]%orb_false_elim Hp]%orb_false_elim He]%orb_false_elim.
  apply negb_false_iff, bool_decide_eq_true in Hp. apply negb_false_iff in He.
  unfold parent in Hp. destruct (last (components path)) as [c|] eqn:Hl; [|done].
  assert (components path = removelast (components path) ++ [c]) as Hc.
  { apply last_Some in Hl as [l Hl]. rewrite Hl. by rewrite removelast_last. }
  assert (removelast (components path) = workflows_directory) as Hr by (destruct c; congruence).
  rewrite Hr in Hc. unfold extension, file_name in *. rewrite Hl in *.
  destruct c as [| | |file]; try done. exists file. split; [done|].
  destruct (_ ≫= _) as [e|]; [|done].
  apply orb_prop in He as [He|He]; apply bool_decide_eq_true in He; subst; auto.
Qed.

Section contract_lemmas.
Context `{VL : ValueLib}.

Lemma check_keys_no_panic w j allowed reason d : check_keys w j allowed reason d ≠ Panic.
Proof.
  unfold check_keys. apply (for_each_no_panic _ (λ _, True)); [done| |done].
  intros e u _ _. destruct (as_str e.1); [|done]. by case_bool_decide.
Qed.

Lemma contract_section_no_panic {A} w j name configuration
    (step : Value * Value → gmap string A → outcome WorkflowError (gmap string A)) :
  (∀ e m, step e m ≠ Panic) → contract_section w j name configuration step ≠ Panic.
Proof.
  intros Hs. unfold contract_section. destruct (mapping_get name configuration) as [v|]; [|done].
  rewrite obind_Panic. intros [H | (d & _ & H)]; [by apply ok_or_Panic in H|].
  revert H. apply (for_each_no_panic _ (λ _, True)); auto.
Qed.

Lemma definition_required_no_panic w j reason d : definition_required w j reason d ≠ Panic.
Proof. unfold definition_required. destruct (mapping_get _ d); [apply ok_or_Panic | done]. Qed.

Lemma secret_definition_no_panic w j e m : secret_definition w j e m ≠ Panic.
Proof.
  unfold secret_definition, definition_name, definition_mapping, ok_or, fail_call.
  destruct (as_str e.1) as [name|]; simpl; [|done].
  destruct (valid_secret_identifier name); simpl; [|done].
  destruct (as_mapping e.2); simpl; [|done]. rewrite obind_Panic.
  intros [H | (? & _ & H)]; [by apply check_keys_no_panic in H|].
  apply obind_Panic in H as [H | (? & _ & ?)]; [by apply definition_required_no_panic in H|done].
Qed.

Lemma input_definition_no_panic w j e m : input_definition w j e m ≠ Panic.
Proof.
  unfold input_definition, definition_name, definition_mapping, ok_or, declared_input_type, fail_call.
  destruct (as_str e.1) as [name|]; simpl; [|done].
  destruct (as_mapping e.2) as [d|]; simpl; [|done]. rewrite obind_Panic.
  intros [H | (? & _ & H)]; [by apply check_keys_no_panic in H|].
  apply obind_Panic in H as [H | (? & _ & H)]; [by repeat case_bool_decide|].
  apply obind_Panic in H as [H | (? & _ & H)]; [by apply definition_required_no_panic in H|].
  destruct (mapping_get "default" d); simpl in H; [|done]. by case_match.
Qed.

Lemma output_definition_no_panic w j e m : output_definition w j e m ≠ Panic.
Proof.
  unfold output_definition, definition_name, definition_mapping.
  rewrite obind_Panic. intros [H | (? & _ & H)]; [by apply ok_or_Panic in H|].
  apply obind_Panic in H as [H | (? & _ & H)]; [by apply ok_or_Panic in H|].
  apply obind_Panic in H as [H | (? & _ & H)]; [by apply check_keys_no_panic in H|].
  apply obind_Panic in H as [H | (? & _ & ?)]; [by apply ok_or_Panic in H|done].
Qed.

Lemma reusable_contract_no_panic w j called : reusable_contract w j called ≠ Panic.
Proof.
  unfold reusable_contract. rewrite obind_Panic. intros [H | (c & _ & H)].
  { apply map_err_Panic in H. unfold workflow_call_configuration in H. by repeat case_match. }
  apply obind_Panic in H as [H | (c' & _ & H)]; [by apply ok_or_Panic in H|].
  destruct c' as [configuration|]; [|done].
  apply obind_Panic in H as [H | (? & _ & H)]; [by apply check_keys_no_panic in H|].
  apply obind_Panic in H as [H | (? & _ & H)].
  { by apply contract_section_no_panic in H; [|intros; apply secret_definition_no_panic]. }
  apply obind_Panic in H as [H | (? & _ & H)].
  { by apply contract_section_no_panic in H; [|intros; apply input_definition_no_panic]. }
  apply obind_Panic in H as [H | (? & _ & ?)]; [|done].
  by apply contract_section_no_panic in H; [|intros; apply output_definition_no_panic].
Qed.

(** A declared default is static and of the declared type. *)
Definition contract_typed (contract : ReusableContract) : Prop :=
  ∀ name d v, contract_inputs contract !! name = Some d → input_default d = Some v →
  value_contains_expression v = false ∧ reusable_input_matches v (input_type d) = true.

Lemma reusable_contract_typed w j called contract :
  reusable_contract w j called = Ok contract → contract_typed contract.
Proof.
  unfold reusable_contract. intros (c & _ & H)%obind_Ok. apply obind_Ok in H as (c' & _ & H).
  destruct c' as [configuration|].
  2: { injection H as <-. intros name d v Hn. cbn [contract_inputs] in Hn.
       by apply lookup_empty_Some in Hn. }
  apply obind_Ok in H as (? & _ & H). apply obind_Ok in H as (secrets & _ & H).
  apply obind_Ok in H as (inputs & Hi & H). apply obind_Ok in H as (outputs & _ & [= <-]).
  unfold contract_typed; simpl. unfold contract_section in Hi.
  destruct (mapping_get "inputs" configuration) as [value|].
  2: { injection Hi as <-. intros name d v Hn. by apply lookup_empty_Some in Hn. }
  apply obind_Ok in Hi as (definitions & _ & Hi).
  eapply (for_each_inv_simple _ (λ m : gmap string ReusableInputDefinition, ∀ name d v,
    m !! name = Some d → input_default d = Some v →
    value_contains_expression v = false ∧ reusable_input_matches v (input_type d) = true)
    _ _ _ _ _ Hi).
  Unshelve.
  - intros name d v Hn. by apply lookup_empty_Some in Hn.
  - intros e m m' _ Hm Hstep name d v Hn Hd. unfold input_definition in Hstep.
    apply obind_Ok in Hstep as (n & _ & Hstep). apply obind_Ok in Hstep as (dm & _ & Hstep).
    apply obind_Ok in Hstep as (? & _ & Hstep). apply obind_Ok in Hstep as (ty & _ & Hstep).
    apply obind_Ok in Hstep as (rq & _ & Hstep). apply obind_Ok in Hstep as (? & Hdef & [= <-]).
    destruct (decide (n = name)) as [->|Hne].
    + rewrite lookup_insert_eq in Hn. injection Hn as <-. simpl in *. rewrite Hd in Hdef.
      destruct (value_contains_expression v), (reusable_input_matches v ty); done.
    + rewrite lookup_insert_ne in Hn by done. eauto.
Qed.

(** *** Inputs *)

Lemma input_value_no_panic w j call name d : input_value w j call name d ≠ Panic.
Proof. unfold input_value. by repeat case_match. Qed.

Lemma bind_reusable_inputs_no_panic w j call contract :
  bind_reusable_inputs w j call contract ≠ Panic.
Proof.
  unfold bind_reusable_inputs. destruct (head _); [done|].
  apply (for_each_no_panic _ (λ _, True)); [done| |done].
  intros [name d] m _ _. unfold bind_input. rewrite obind_Panic.
  intros [H | (? & _ & H)]; [by apply input_value_no_panic in H|].
  apply obind_Panic in H as [H | (? & _ & ?)]; [by apply reject_if_Panic in H|done].
Qed.

(** What an accepted call binds for one declared input. *)
Definition input_bound (w j : string) (call : Job) (name : string) (d : ReusableInputDefinition)
    (bound : PlannedReusableInput) : Prop :=
  input_value w j call name d = Ok (ri_value bound) ∧ ri_input_type bound = input_type d ∧
  (value_contains_expression (ri_value bound) = true ∨
   reusable_input_matches (ri_value bound) (input_type d) = true).

Lemma bind_reusable_inputs_Ok w j call contract inputs :
  bind_reusable_inputs w j call contract = Ok inputs →
  dom (j_with call) ⊆ dom (contract_inputs contract) ∧
  ∀ name, match contract_inputs contract !! name with
          | Some d => ∃ bound, inputs !! name = Some bound ∧ input_bound w j call name d bound
          | None => inputs !! name = None
          end.
Proof.
  unfold bind_reusable_inputs. destruct (head _) eqn:Hhead; [done|].
  rewrite omap_head_filter_None in Hhead. intros H. split.
  { intros k Hk. apply elem_of_dom in Hk. apply elem_of_dom.
    destruct (contract_inputs contract !! k) eqn:E; [eauto|].
    destruct (Hhead k); [by apply elem_of_btree_keys | done]. }
  set (I := λ (prefix : list (string * ReusableInputDefinition)) (m : gmap string PlannedReusableInput),
    ∀ name,
    (∀ d, (name, d) ∈ prefix → ∃ bound, m !! name = Some bound ∧ input_bound w j call name d bound) ∧
    (name ∉ prefix.*1 → m !! name = None)).
  enough (I (btree_iter (contract_inputs contract)) inputs) as HI;
    [|refine (for_each_inv _ I _ _ _ _ _ H)].
  - intros name. destruct (HI name) as [Hin Hout].
    destruct (contract_inputs contract !! name) as [d|] eqn:E.
    + apply Hin. by apply elem_of_btree_iter.
    + apply Hout. intros Hk. apply elem_of_btree_keys in Hk as [d Hd]. congruence.
  - intros name. split; [by intros d ?%not_elem_of_nil | done].
  - intros prefix [n d] rest m m' Hsplit IH Hstep name. unfold bind_input in Hstep.
    apply obind_Ok in Hstep as (v & Hv & Hstep).
    apply obind_Ok in Hstep as (? & Hty%reject_if_Ok & [= <-]).
    assert (n ∉ prefix.*1) as Hfresh.
    { pose proof (NoDup_btree_keys (contract_inputs contract)) as Hnd. unfold btree_keys in Hnd.
      rewrite Hsplit, fmap_app in Hnd. apply NoDup_app in Hnd as (_ & Hd & _).
      intros Hin. apply (Hd n Hin). apply list_elem_of_here. }
    destruct (decide (n = name)) as [->|Hne].
    + rewrite lookup_insert_eq. split.
      * intros d' Hd'. apply elem_of_app in Hd' as [Hd' | Hd'].
        { destruct Hfresh. apply list_elem_of_fmap. by exists (name, d'). }
        apply list_elem_of_singleton in Hd' as [= ->]. eexists. split; [done|].
        unfold input_bound; simpl. split_and!; [done..|].
        apply andb_false_iff in Hty as [Hty|Hty]; apply negb_false_iff in Hty; auto.
      * rewrite fmap_app, elem_of_app. simpl. rewrite list_elem_of_singleton. tauto.
    + rewrite lookup_insert_ne by done. destruct (IH name) as [Hin Hout]. split.
      * intros d' Hd'. apply elem_of_app in Hd' as [Hd' | Hd']; [eauto|].
        apply list_elem_of_singleton in Hd' as [= -> ->]. done.
      * rewrite fmap_app, elem_of_app. intros Hn. apply Hout. tauto.
Qed.

(** *** Secrets *)

Lemma bind_reusable_secrets_no_panic w j call contract :
  bind_reusable_secrets w j call contract ≠ Panic.
Proof.
  unfold bind_reusable_secrets. rewrite obind_Panic. intros [H | (s & _ & H)].
  - destruct (j_secrets call) as [[| | |value| |bindings|]|]; try done.
    + by case_bool_decide.
    + apply obind_Panic in H as [H | (? & _ & ?)]; [|done]. revert H.
      apply (for_each_no_panic _ (λ _, True)); [done| |done].
      intros e m _ _. unfold bind_secret. rewrite obind_Panic.
      intros [H | (? & _ & H)]; [by apply ok_or_Panic in H|].
      apply obind_Panic in H as [H | (? & _ & H)]; [by apply reject_if_Panic in H|].
      apply obind_Panic in H as [H | (? & _ & ?)]; [by apply ok_or_Panic in H|done].
  - by destruct (if ss_inherit s then None else head (missing_secrets s)).
Qed.

Lemma reusable_secret_reference_valid value name :
  reusable_secret_reference value = Some name → valid_secret_identifier name = true.
Proof.
  unfold reusable_secret_reference. intros (s & _ & H)%bind_Some.
  apply bind_Some in H as (i & _ & H). apply bind_Some in H as (i' & _ & H). cbn zeta in H.
  case_bool_decide; [by injection H as <-|].
  apply bind_Some in H as (n & _ & H). destruct (valid_secret_identifier n) eqn:E; congruence.
Qed.

Lemma bind_reusable_secrets_Ok w j call contract scope :
  bind_reusable_secrets w j call contract = Ok scope →
  ss_required scope = required_secrets contract ∧
  (∀ target source, ss_mappings scope !! target = Some source →
     is_Some (contract_secrets contract !! target) ∧ valid_secret_identifier source = true) ∧
  (ss_inherit scope = true ↔ j_secrets call = Some (VString "inherit")) ∧
  (ss_inherit scope = false → ∀ name, name ∈ required_secrets contract →
     eq_ignore_ascii_case name "GITHUB_TOKEN" = true ∨ is_Some (ss_mappings scope !! name)).
Proof.
  unfold bind_reusable_secrets. intros (s & Hs & H)%obind_Ok.
  destruct (if ss_inherit s then None else head (missing_secrets s)) eqn:Hm; [done|].
  injection H as <-.
  assert (ss_required s = required_secrets contract ∧
    (∀ target source, ss_mappings s !! target = Some source →
       is_Some (contract_secrets contract !! target) ∧ valid_secret_identifier source = true) ∧
    (ss_inherit s = true ↔ j_secrets call = Some (VString "inherit"))) as (Hreq & Hmap & Hinh).
  { destruct (j_secrets call) as [[| | |value| |bindings|]|]; try done.
    - case_bool_decide; [|done]. injection Hs as <-. subst. simpl. split_and!; [done| |done].
      by intros ? ? ?%lookup_empty_Some.
    - apply obind_Ok in Hs as (m & Hm' & [= <-]). simpl. split_and!; [done| |done].
      eapply (for_each_inv_simple _ (λ m : gmap string string, ∀ target source,
        m !! target = Some source → is_Some (contract_secrets contract !! target) ∧
        valid_secret_identifier source = true) _ _ _ _ _ Hm').
      Unshelve.
      + by intros ? ? ?%lookup_empty_Some.
      + intros e m1 m2 _ IH Hstep target source Hl. unfold bind_secret in Hstep.
        apply obind_Ok in Hstep as (t & _ & Hstep).
        apply obind_Ok in Hstep as (? & Hc%reject_if_Ok & Hstep).
        apply obind_Ok in Hstep as (src & Hsrc%ok_or_Ok & [= <-]).
        apply negb_false_iff, btree_contains_true in Hc.
        destruct (decide (t = target)) as [->|].
        * rewrite lookup_insert_eq in Hl. injection Hl as <-. split; [done|].
          by eapply reusable_secret_reference_valid.
        * rewrite lookup_insert_ne in Hl by done. eauto.
    - injection Hs as <-. simpl. split_and!; [done| |done]. by intros ? ? ?%lookup_empty_Some. }
  split_and!; [done..|]. intros Hno name Hname. rewrite Hno in Hm.
  unfold missing_secrets in Hm. rewrite omap_head_filter_None in Hm.
  rewrite <-Hreq in Hname. specialize (Hm name (proj2 (elem_of_set_iter _ _) Hname)).
  destruct (eq_ignore_ascii_case name "GITHUB_TOKEN"); [auto|].
  destruct (ss_mappings s !! name); [eauto|]. by destruct Hm.
Qed.

Lemma reusable_path_no_panic w j uses workflows : reusable_path w j uses workflows ≠ Panic.
Proof. unfold reusable_path. by repeat case_match. Qed.
End contract_lemmas.

Section properties.
Context `{VL : ValueLib}.

(** a call's inputs are bound exactly for the declared names - each from
    the call, the default or the zero of its type - every static value has the
    declared type, and a call that passes an undeclared input is rejected. *)
Theorem bind_reusable_inputs_sound w j call contract inputs :
  bind_reusable_inputs w j call contract = Ok inputs →
  dom (j_with call) ⊆ dom (contract_inputs contract) ∧
  ∀ name, match contract_inputs contract !! name with
          | Some d => ∃ bound, inputs !! name = Some bound ∧ input_bound w j call name d bound
          | None => inputs !! name = None
          end.
Proof. apply bind_reusable_inputs_Ok. Qed.

(** secrets cross a call only by name: a mapping binds declared names to
    references with a valid identifier, everything is inherited only when the
    caller says [inherit], and otherwise every required secret other than the
    token is provided. *)
Theorem bind_reusable_secrets_sound w j call contract scope :
  bind_reusable_secrets w j call contract = Ok scope →
  (∀ target source, ss_mappings scope !! target = Some source →
     is_Some (contract_secrets contract !! target) ∧ valid_secret_identifier source = true) ∧
  (ss_inherit scope = true ↔ j_secrets call = Some (VString "inherit")) ∧
  (ss_inherit scope = false → ∀ name, name ∈ required_secrets contract →
     eq_ignore_ascii_case name "GITHUB_TOKEN" = true ∨ is_Some (ss_mappings scope !! name)).
Proof. by intros (_ & ? & ? & ?)%bind_reusable_secrets_Ok. Qed.

(** a local reference is accepted only when its path is a YAML file
    directly in [.github/workflows]; anything else must be a key the loader
    resolved. *)
Theorem reusable_path_confined w j uses workflows p :
  reusable_path w j uses workflows = Ok p →
  match local_reference uses with
  | None => p = uses ∧ is_Some (workflows !! uses)
  | Some path => p = replace_byte "\" "/" path ∧
      ∃ file, components path = workflows_directory ++ [Normal file] ∧
              (extension path = Some "yml" ∨ extension path = Some "yaml")
  end.
Proof.
  unfold reusable_path. destruct (local_reference uses) as [path|].
  - destruct (is_workflow_path path) eqn:E; [|done]. intros [= <-]. split; [done|].
    by apply is_workflow_path_components.
  - destruct (btree_contains uses workflows) eqn:E; [|done]. intros [= <-]. split; [done|].
    by apply btree_contains_true.
Qed.

(** reading a [workflow_call] declaration never panics, and the defaults
    it accepts are static values of the declared type. *)
Theorem reusable_contract_sound w j called :
  outcome_spec (reusable_contract w j called) contract_typed (λ _, True).
Proof.
  destruct (reusable_contract w j called) as [c| |] eqn:E; simpl; [|done|].
  - by eapply reusable_contract_typed.
  - by apply reusable_contract_no_panic in E.
Qed.
End properties.

Section witnesses.
#[local] Existing Instances demo_values demo_value_lib.

Definition demo_contract : ReusableContract :=
  mkContract {["target" := mkInputDefinition InputString true None]}
    {["TOKEN" := mkSecretDefinition true]} ∅.

Definition demo_call : Job :=
  mkJob None None (mkNeeds []) ∅ ∅ (mkDefaults (mkRunDefaults None None ∅) ∅) None None None None None
    [] None {["target" := VString "prod"]}
    (Some (VMapping [(VString "TOKEN", VString "${{ secrets.DEPLOY_TOKEN }}")]))
    None None None (Some "./.github/workflows/deploy.yml") ∅.

Lemma bind_reusable_inputs_sound_witness :
  ∃ inputs bound, bind_reusable_inputs "ci" "deploy" demo_call demo_contract = Ok inputs ∧
    inputs !! "target" = Some bound.
Proof.
  destruct (is_ok_inv (bind_reusable_inputs "ci" "deploy" demo_call demo_contract)) as [inputs H];
    [vm_compute; reflexivity|].
  destruct (bind_reusable_inputs_sound "ci" "deploy" demo_call demo_contract inputs H) as [_ Hb].
  specialize (Hb "target"). destruct Hb as (bound & Hbound & _).
  exists inputs, bound. split; [exact H | exact Hbound].
Defined.

Lemma bind_reusable_secrets_sound_witness :
  ∃ scope, bind_reusable_secrets "ci" "deploy" demo_call demo_contract = Ok scope ∧
    is_Some (ss_mappings scope !! "TOKEN").
Proof.
  destruct (is_ok_inv (bind_reusable_secrets "ci" "deploy" demo_call demo_contract)) as [scope H];
    [vm_compute; reflexivity|].
  exists scope. split; [exact H|].
  destruct (bind_reusable_secrets_sound "ci" "deploy" demo_call demo_contract scope H)
    as (_ & Hinh & Hreq).
  destruct (Hreq) with "TOKEN" as [Hbad | Hok].
  - destruct (ss_inherit scope); [|reflexivity]. discriminate (proj1 Hinh eq_refl).
  - apply (bool_decide_unpack _). vm_compute. exact I.
  - discriminate Hbad.
  - exact Hok.
Defined.

Lemma reusable_path_confined_witness :
  ∃ file, components ".github/workflows/deploy.yml" = workflows_directory ++ [Normal file].
Proof.
  destruct (reusable_path_confined "ci" "deploy" "./.github/workflows/deploy.yml" ∅
              ".github/workflows/deploy.yml") as (_ & file & Hfile & _).
  - vm_compute. reflexivity.
  - exists file. exact Hfile.
Defined.

(** The path is checked before its backslashes become slashes, so the string
    that is returned can name a file outside the directory. *)
Example backslashes_escape_the_directory :
  reusable_path "ci" "deploy" "./.github/workflows/..\..\secret.yml" ∅ =
    Ok ".github/workflows/../../secret.yml" ∧
  is_workflow_path ".github/workflows/../../secret.yml" = false.
Proof. vm_compute. auto. Qed.
End witnesses.
