(* ===== verification/Expansion.v ===== *)
(** * Expansion of reusable calls (crates/gitzero-workflow)

    [expand_reusable_call]: a call is replaced by a gate, the called jobs under
    the call's name space, and a result that waits for them.  The indexings of
    the alias map and the slice of the job id are calls that may panic. *)

From S2P Require Import Prelude RustStr OrdMap Yaml Workflow Permissions Dependencies Instances.

(** [&s\[n..\]] *)
Definition slice_from {E} (s : string) (n : nat) : outcome E string :=
  if bool_decide (n ≤ slen s) && is_char_boundary s n then Ok (sdrop n s) else Panic.

(** [aliases\[key\]] *)
Definition alias {E} (aliases : gmap string string) (key : string) : outcome E string :=
  expect (aliases !! key).

Section expansion.
Context `{VT : ValueTypes}.

Definition namespaced (job_id name : string) : string := job_id +:+ "::" +:+ name.

(** The scopes the call adds to those of the called jobs. *)
Definition called_input_scopes (placeholder : PlannedJob)
    (inputs : gmap string PlannedReusableInput) : list PlannedReusableInputScope :=
  pj_reusable_input_scopes placeholder ++ [mkInputScope inputs (pj_matrix placeholder)].

Definition invocation_scopes (job_id : string) (placeholder : PlannedJob)
    (called_plan : ExecutionPlan) (inputs : gmap string PlannedReusableInput)
    : list PlannedConcurrencyScope :=
  match pj_concurrency placeholder with
  | Some configuration =>
      [mkConcurrencyScope (namespaced job_id "caller-concurrency") configuration
         (pj_reusable_input_scopes placeholder)]
  | None => []
  end ++
  match ep_concurrency called_plan with
  | Some configuration =>
      [mkConcurrencyScope (namespaced job_id "workflow-concurrency") configuration
         (called_input_scopes placeholder inputs)]
  | None => []
  end.

Definition gate_id (job_id : string) : string := namespaced job_id "gate".

Definition call_gate (job_id : string) (placeholder : PlannedJob)
    (scopes : list PlannedConcurrencyScope) : PlannedJob :=
  placeholder
    <| pj_id := gate_id job_id |>
    <| pj_base_id := gate_id job_id |>
    <| pj_name := pj_name placeholder +:+ " / reusable workflow gate" |>
    <| pj_outputs := ∅ |>
    <| pj_concurrency := None |>
    <| pj_concurrency_scope_ids := cs_id <$> scopes |>
    <| pj_concurrency_acquire := scopes |>
    <| pj_concurrency_release := [] |>
    <| pj_virtual_job := Some ReusableGate |>.

Definition call_aliases (job_id : string) (called_plan : ExecutionPlan) : gmap string string :=
  btree_collect ((λ base_id, (base_id, namespaced job_id base_id)) <$>
                 set_iter (base_ids (ep_jobs called_plan))).

Definition public_aliases (aliases : gmap string string) : gmap string string :=
  filter (λ entry : string * string, contains "::" entry.1 = false) aliases.

(** [map.into_iter().map(|(k, v)| (k, f(v))).collect()] with an [f] that may
    panic, and [for v in map.values_mut() { *v = f(v) }]. *)
Definition map_values (f : string → outcome WorkflowError string) (m : gmap string string)
    : outcome WorkflowError (gmap string string) :=
  omap_ok btree_collect (traverse (λ '(k, v), let? v := f v in Ok (k, v)) (btree_iter m)).

Definition rename_virtual_job (aliases : gmap string string) (virtual_job : option PlannedVirtualJob)
    : outcome WorkflowError (option PlannedVirtualJob) :=
  match virtual_job with
  | Some (ReusableResult jobs outputs) =>
      let? jobs := map_values (alias aliases) jobs in
      Ok (Some (ReusableResult jobs outputs))
  | Some (ReusableMatrixResult invocations max_parallel fail_fast) =>
      let? invocations := traverse (alias aliases) invocations in
      Ok (Some (ReusableMatrixResult invocations max_parallel fail_fast))
  | _ => Ok virtual_job
  end.

(** One iteration of the loop over the called jobs. *)
Definition call_job (job_id : string) (placeholder : PlannedJob) (aliases : gmap string string)
    (scope_ids : list string) (input_scopes : list PlannedReusableInputScope)
    (secrets : PlannedReusableSecretScope) (job : PlannedJob) : outcome WorkflowError PlannedJob :=
  let permissions := intersect (pj_permissions job) (pj_permissions placeholder) in
  let old_base_id := pj_base_id job in
  let? new_base_id := alias aliases old_base_id in
  let? suffix := slice_from (pj_id job) (slen old_base_id) in
  let? needs := traverse (alias aliases) (pj_needs job) in
  let? need_aliases := map_values (alias aliases) (pj_need_aliases job) in
  let need_aliases := fold_left (λ need_aliases dependency,
    entry_or_insert dependency dependency need_aliases) (pj_needs placeholder) need_aliases in
  let? virtual_job := rename_virtual_job aliases (pj_virtual_job job) in
  Ok (job
    <| pj_permissions := permissions |>
    <| pj_id := new_base_id +:+ suffix |>
    <| pj_base_id := new_base_id |>
    <| pj_name := pj_name placeholder +:+ " / " +:+ pj_name job |>
    <| pj_needs := needs ++ [gate_id job_id] |>
    <| pj_need_aliases := need_aliases |>
    <| pj_concurrency_scope_ids :=
         scope_ids ++ (namespaced job_id <$> pj_concurrency_scope_ids job) |>
    <| pj_concurrency_acquire :=
         (λ scope, mkConcurrencyScope (namespaced job_id (cs_id scope)) (cs_configuration scope)
            (input_scopes ++ cs_reusable_input_scopes scope)) <$> pj_concurrency_acquire job |>
    <| pj_concurrency_release := namespaced job_id <$> pj_concurrency_release job |>
    <| pj_reusable_input_scopes := input_scopes ++ pj_reusable_input_scopes job |>
    <| pj_reusable_secret_scopes :=
         pj_reusable_secret_scopes placeholder ++ [secrets] ++ pj_reusable_secret_scopes job |>
    <| pj_virtual_job := virtual_job |>).

Definition always_condition : string := "${{ always() }}".

Definition call_result (job_id : string) (placeholder : PlannedJob) (public : gmap string string)
    (scope_ids : list string) (outputs : gmap string string) : PlannedJob :=
  placeholder
    <| pj_id := job_id |>
    <| pj_base_id := job_id |>
    <| pj_condition := Some always_condition |>
    <| pj_needs := btree_values public |>
    <| pj_need_aliases := public |>
    <| pj_outputs := ∅ |>
    <| pj_concurrency := None |>
    <| pj_concurrency_scope_ids := scope_ids |>
    <| pj_concurrency_acquire := [] |>
    <| pj_concurrency_release := reverse scope_ids |>
    <| pj_virtual_job := Some (ReusableResult public outputs) |>.

Definition expand_reusable_call (job_id : string) (placeholder : PlannedJob)
    (called_plan : ExecutionPlan) (inputs : gmap string PlannedReusableInput)
    (secrets : PlannedReusableSecretScope) (outputs : gmap string string)
    : outcome WorkflowError (list PlannedJob) :=
  let input_scopes := called_input_scopes placeholder inputs in
  let scopes := invocation_scopes job_id placeholder called_plan inputs in
  let scope_ids := cs_id <$> scopes in
  let gate := call_gate job_id placeholder scopes in
  let aliases := call_aliases job_id called_plan in
  let public := public_aliases aliases in
  let? called_jobs := traverse
    (call_job job_id placeholder aliases scope_ids input_scopes secrets) (ep_jobs called_plan) in
  let result := call_result job_id placeholder public scope_ids outputs in
  Ok (gate :: called_jobs ++ [result]).

Definition reusable_matrix_result (job_id : string) (placeholder : PlannedJob)
    (invocations : list string) : PlannedJob :=
  let total := Z.of_nat (length invocations) in
  placeholder
    <| pj_id := job_id |>
    <| pj_base_id := job_id |>
    <| pj_condition := Some always_condition |>
    <| pj_needs := invocations |>
    <| pj_need_aliases := btree_collect ((λ invocation, (invocation, invocation)) <$> invocations) |>
    <| pj_matrix := ∅ |>
    <| pj_dynamic_matrix := None |>
    <| pj_matrix_max_parallel := None |>
    <| pj_strategy_job_index := None |>
    <| pj_strategy_job_total := None |>
    <| pj_outputs := ∅ |>
    <| pj_steps := [] |>
    <| pj_concurrency := None |>
    <| pj_concurrency_scope_ids := [] |>
    <| pj_concurrency_acquire := [] |>
    <| pj_concurrency_release := [] |>
    <| pj_virtual_job := Some (ReusableMatrixResult invocations
         (Z.max (Z.min (default total (pj_matrix_max_parallel placeholder)) total) 1)
         (pj_matrix_fail_fast placeholder)) |>.

Definition matrix_invocation (job_id : string) (index : nat) : string :=
  job_id +:+ "::matrix-" +:+ pretty (S index).

(** One call per instance, then the result that waits for all of them: the
    [else] branch of the linker and [expand_dynamic_reusable_call]. *)
Definition expand_matrix_call (job_id : string) (template : PlannedJob) (instances : list PlannedJob)
    (called_plan : ExecutionPlan) (inputs : gmap string PlannedReusableInput)
    (secrets : PlannedReusableSecretScope) (outputs : gmap string string)
    : outcome WorkflowError (list PlannedJob) :=
  let? '(expanded, invocations) := for_each (λ '(index, instance) '(expanded, invocations),
    let invocation := matrix_invocation job_id index in
    let? jobs := expand_reusable_call invocation instance called_plan inputs secrets outputs in
    Ok (expanded ++ jobs, invocations ++ [invocation])) (enumerate instances) ([], []) in
  Ok (expanded ++ [reusable_matrix_result job_id template invocations]).

Definition expand_dynamic_reusable_call (template : PlannedJob) (instances : list PlannedJob)
    (called_plan : ExecutionPlan) (inputs : gmap string PlannedReusableInput)
    (secrets : PlannedReusableSecretScope) (outputs : gmap string string)
    : outcome WorkflowError (list PlannedJob) :=
  expand_matrix_call (pj_base_id template) template instances called_plan inputs secrets outputs.
End expansion.

(** ** Well-formed plans *)

(** What may follow the base id in a job id: nothing, or a suffix that starts a
    character. *)
Definition suffix_ok (suffix : string) : Prop :=
  match suffix with
  | EmptyString => True
  | String c _ => is_continuation c = false
  end.

Section well_formed_plans.
Context `{VT : ValueTypes}.

Definition virtual_within (ids : gset string) (virtual_job : option PlannedVirtualJob) : Prop :=
  match virtual_job with
  | Some (ReusableResult jobs _) => ∀ a d, jobs !! a = Some d → d ∈ ids
  | Some (ReusableMatrixResult invocations _ _) => ∀ d, d ∈ invocations → d ∈ ids
  | _ => True
  end.

(** Everything a job refers to is in [ids]; its id extends its base id; and a
    plan it carries for later is itself well formed. *)
Inductive job_ok : gset string → PlannedJob → Prop :=
  | mk_job_ok ids j :
      (∃ suffix, pj_id j = pj_base_id j +:+ suffix ∧ suffix_ok suffix) →
      (∀ d, d ∈ pj_needs j → d ∈ ids) →
      (∀ a d, pj_need_aliases j !! a = Some d → d ∈ ids) →
      virtual_within ids (pj_virtual_job j) →
      (∀ plan inputs secrets outputs,
         pj_virtual_job j = Some (ReusableDynamicCall plan inputs secrets outputs) →
         ∀ k, k ∈ ep_jobs plan → job_ok (base_ids (ep_jobs plan)) k) →
      job_ok ids j.

Definition plan_ok (jobs : list PlannedJob) : Prop :=
  ∀ j, j ∈ jobs → job_ok (base_ids jobs) j.

(** What a placeholder must have for its expansion to be well formed. *)
Definition placeholder_ok (ids : gset string) (j : PlannedJob) : Prop :=
  (∀ d, d ∈ pj_needs j → d ∈ ids) ∧ (∀ a d, pj_need_aliases j !! a = Some d → d ∈ ids).

Lemma job_ok_inv ids j :
  job_ok ids j →
  (∃ suffix, pj_id j = pj_base_id j +:+ suffix ∧ suffix_ok suffix) ∧
  (∀ d, d ∈ pj_needs j → d ∈ ids) ∧
  (∀ a d, pj_need_aliases j !! a = Some d → d ∈ ids) ∧
  virtual_within ids (pj_virtual_job j).
Proof. by destruct 1. Qed.

Lemma job_ok_mono ids ids' j : ids ⊆ ids' → job_ok ids j → job_ok ids' j.
Proof.
  intros Hsub. destruct 1 as [ids j Hid Hn Ha Hv Hd]. constructor; [done|auto|eauto| |done].
  destruct (pj_virtual_job j) as [[]|]; simpl in *; eauto.
Qed.

Lemma placeholder_ok_mono ids ids' j : ids ⊆ ids' → placeholder_ok ids j → placeholder_ok ids' j.
Proof. intros Hsub [Hn Ha]. split; eauto. Qed.

Lemma job_ok_placeholder ids j : job_ok ids j → placeholder_ok ids j.
Proof. by destruct 1. Qed.

(** ** The expansion as a renaming *)

Definition rename_virtual (f : string → string) (virtual_job : option PlannedVirtualJob)
    : option PlannedVirtualJob :=
  match virtual_job with
  | Some (ReusableResult jobs outputs) => Some (ReusableResult (f <$> jobs) outputs)
  | Some (ReusableMatrixResult invocations max_parallel fail_fast) =>
      Some (ReusableMatrixResult (f <$> invocations) max_parallel fail_fast)
  | _ => virtual_job
  end.

(** A called job under the name space of the call: every reference renamed, the
    caller's needs visible, the gate needed, the token attenuated. *)
Definition qualified_job (job_id : string) (placeholder : PlannedJob) (scope_ids : list string)
    (input_scopes : list PlannedReusableInputScope) (secrets : PlannedReusableSecretScope)
    (job : PlannedJob) : PlannedJob :=
  job
    <| pj_permissions := intersect (pj_permissions job) (pj_permissions placeholder) |>
    <| pj_id := namespaced job_id (pj_base_id job) +:+ sdrop (slen (pj_base_id job)) (pj_id job) |>
    <| pj_base_id := namespaced job_id (pj_base_id job) |>
    <| pj_name := pj_name placeholder +:+ " / " +:+ pj_name job |>
    <| pj_needs := (namespaced job_id <$> pj_needs job) ++ [gate_id job_id] |>
    <| pj_need_aliases :=
         fold_left (λ m d, entry_or_insert d d m) (pj_needs placeholder)
           (namespaced job_id <$> pj_need_aliases job) |>
    <| pj_concurrency_scope_ids :=
         scope_ids ++ (namespaced job_id <$> pj_concurrency_scope_ids job) |>
    <| pj_concurrency_acquire :=
         (λ scope, mkConcurrencyScope (namespaced job_id (cs_id scope)) (cs_configuration scope)
            (input_scopes ++ cs_reusable_input_scopes scope)) <$> pj_concurrency_acquire job |>
    <| pj_concurrency_release := namespaced job_id <$> pj_concurrency_release job |>
    <| pj_reusable_input_scopes := input_scopes ++ pj_reusable_input_scopes job |>
    <| pj_reusable_secret_scopes :=
         pj_reusable_secret_scopes placeholder ++ [secrets] ++ pj_reusable_secret_scopes job |>
    <| pj_virtual_job := rename_virtual (namespaced job_id) (pj_virtual_job job) |>.

Definition expansion (job_id : string) (placeholder : PlannedJob) (called_plan : ExecutionPlan)
    (inputs : gmap string PlannedReusableInput) (secrets : PlannedReusableSecretScope)
    (outputs : gmap string string) : list PlannedJob :=
  let scopes := invocation_scopes job_id placeholder called_plan inputs in
  call_gate job_id placeholder scopes ::
  (qualified_job job_id placeholder (cs_id <$> scopes) (called_input_scopes placeholder inputs)
     secrets <$> ep_jobs called_plan) ++
  [call_result job_id placeholder (public_aliases (call_aliases job_id called_plan))
     (cs_id <$> scopes) outputs].

Lemma lookup_call_aliases job_id plan b :
  call_aliases job_id plan !! b =
  if bool_decide (b ∈ base_ids (ep_jobs plan)) then Some (namespaced job_id b) else None.
Proof.
  unfold call_aliases. rewrite lookup_btree_collect_fun.
  by rewrite (bool_decide_ext _ _ (elem_of_set_iter (base_ids (ep_jobs plan)) b)).
Qed.

Lemma alias_base job_id plan b :
  b ∈ base_ids (ep_jobs plan) →
  alias (E:=WorkflowError) (call_aliases job_id plan) b = Ok (namespaced job_id b).
Proof. intros Hb. unfold alias. by rewrite lookup_call_aliases, bool_decide_true. Qed.

Lemma traverse_pure {E A B} (f : A → outcome E B) (g : A → B) l :
  (∀ x, x ∈ l → f x = Ok (g x)) → traverse f l = Ok (g <$> l).
Proof.
  intros H. apply traverse_Ok. induction l as [|x l IH]; [constructor|].
  constructor; [apply H, list_elem_of_here | apply IH].
  intros y Hy. by apply H, list_elem_of_further.
Qed.

Lemma map_values_pure (f : string → outcome WorkflowError string) (g : string → string) m :
  (∀ k v, m !! k = Some v → f v = Ok (g v)) → map_values f m = Ok (g <$> m).
Proof.
  intros H. unfold map_values.
  rewrite (traverse_pure _ (λ kv : string * string, (kv.1, g kv.2))).
  - simpl. f_equal. apply map_eq. intros k. rewrite lookup_fmap.
    set (l := (λ kv : string * string, (kv.1, g kv.2)) <$> btree_iter m).
    assert (∀ v, (k, v) ∈ l ↔ ∃ w, m !! k = Some w ∧ v = g w) as Hl.
    { intros v. unfold l. rewrite list_elem_of_fmap. split.
      - intros ([k' w] & [= -> ->] & Hin%elem_of_btree_iter). eauto.
      - intros (w & Hw & ->). exists (k, w). split; [done|]. by apply elem_of_btree_iter. }
    destruct (btree_collect l !! k) as [v|] eqn:E.
    + apply lookup_btree_collect_Some, Hl in E as (w & -> & ->). done.
    + destruct (m !! k) as [w|] eqn:Hw; [|done]. apply not_elem_of_dom in E. destruct E.
      apply elem_of_dom_btree_collect, list_elem_of_fmap. exists (k, g w). split; [done|].
      apply Hl. eauto.
  - intros [k v] Hin%elem_of_btree_iter. simpl. by rewrite (H k v).
Qed.

Lemma slice_from_suffix {E} base suffix :
  suffix_ok suffix → slice_from (E:=E) (base +:+ suffix) (slen base) = Ok suffix.
Proof.
  intros Hs. unfold slice_from. rewrite slen_app, bool_decide_true by lia.
  by rewrite sdrop_app_exact, is_char_boundary_app.
Qed.

Lemma call_job_pure job_id placeholder plan scope_ids input_scopes secrets job :
  job ∈ ep_jobs plan → job_ok (base_ids (ep_jobs plan)) job →
  call_job job_id placeholder (call_aliases job_id plan) scope_ids input_scopes secrets job =
  Ok (qualified_job job_id placeholder scope_ids input_scopes secrets job).
Proof.
  intros Hin ((suffix & Hid & Hs) & Hn & Ha & Hv)%job_ok_inv. unfold call_job.
  rewrite alias_base by (apply elem_of_base_ids; eauto). cbn [obind].
  rewrite Hid at 1. rewrite slice_from_suffix by done. cbn [obind].
  rewrite (traverse_pure _ (namespaced job_id)) by (intros d Hd; by apply alias_base, Hn).
  cbn [obind].
  rewrite (map_values_pure _ (namespaced job_id)) by (intros a d Hd; by eapply alias_base, Ha).
  cbn [obind].
  assert (rename_virtual_job (call_aliases job_id plan) (pj_virtual_job job) =
          Ok (rename_virtual (namespaced job_id) (pj_virtual_job job))) as ->.
  { destruct (pj_virtual_job job) as [[|jobs outputs|invocations mp ff|]|]; try done; simpl in *.
    - rewrite (map_values_pure _ (namespaced job_id)); [done|].
      intros a d Hd. by eapply alias_base, Hv.
    - rewrite (traverse_pure _ (namespaced job_id)); [done|].
      intros d Hd. by apply alias_base, Hv. }
  cbn [obind]. unfold qualified_job.
  assert (sdrop (slen (pj_base_id job)) (pj_id job) = suffix) as ->; [|done].
  rewrite Hid. apply sdrop_app_exact.
Qed.

Lemma expand_reusable_call_pure job_id placeholder plan inputs secrets outputs :
  plan_ok (ep_jobs plan) →
  expand_reusable_call job_id placeholder plan inputs secrets outputs =
  Ok (expansion job_id placeholder plan inputs secrets outputs).
Proof.
  intros Hok. unfold expand_reusable_call.
  rewrite (traverse_pure _ (qualified_job job_id placeholder
    (cs_id <$> invocation_scopes job_id placeholder plan inputs)
    (called_input_scopes placeholder inputs) secrets)); [done|].
  intros j Hj. by apply call_job_pure, Hok.
Qed.
End well_formed_plans.

Section expansion_lemmas.
Context `{VT : ValueTypes}.

Lemma job_ok_dynamic ids j plan inputs secrets outputs :
  job_ok ids j → pj_virtual_job j = Some (ReusableDynamicCall plan inputs secrets outputs) →
  plan_ok (ep_jobs plan).
Proof. destruct 1 as [ids j _ _ _ _ Hd]. intros Hv k Hk. by eapply Hd. Qed.

Lemma lookup_insert_needs (needs : list string) (m : gmap string string) a :
  fold_left (λ m d, entry_or_insert d d m) needs m !! a =
  match m !! a with
  | Some v => Some v
  | None => if bool_decide (a ∈ needs) then Some a else None
  end.
Proof.
  revert m; induction needs as [|d needs IH]; intros m; cbn [fold_left].
  - rewrite bool_decide_false by (by apply not_elem_of_nil). by destruct (m !! a).
  - rewrite IH, lookup_entry_or_insert. destruct (m !! a) as [v|]; [done|].
    destruct (decide (d = a)) as [->|Hne].
    + rewrite !bool_decide_true; [done | apply list_elem_of_here | done].
    + rewrite (bool_decide_false (d = a)) by done.
      rewrite (bool_decide_ext (a ∈ needs) (a ∈ d :: needs)); [done|].
      rewrite elem_of_cons. naive_solver.
Qed.

Lemma elem_of_base_ids_expansion job_id placeholder plan inputs secrets outputs b :
  b ∈ base_ids (expansion job_id placeholder plan inputs secrets outputs) ↔
  b = gate_id job_id ∨ b = job_id ∨
  ∃ c, c ∈ base_ids (ep_jobs plan) ∧ b = namespaced job_id c.
Proof.
  unfold base_ids at 1, expansion. rewrite elem_of_list_to_set. cbn [fmap list_fmap].
  rewrite fmap_app, elem_of_cons, elem_of_app. simpl. rewrite list_elem_of_singleton.
  rewrite <-list_fmap_compose, list_elem_of_fmap. setoid_rewrite elem_of_base_ids.
  unfold compose; simpl. naive_solver.
Qed.

Lemma public_aliases_lookup job_id plan a d :
  public_aliases (call_aliases job_id plan) !! a = Some d →
  a ∈ base_ids (ep_jobs plan) ∧ contains "::" a = false ∧ d = namespaced job_id a.
Proof.
  unfold public_aliases. intros [H Hc]%map_lookup_filter_Some. rewrite lookup_call_aliases in H.
  case_bool_decide; [|done]. injection H as <-. done.
Qed.

Lemma suffix_ok_nil : suffix_ok "".
Proof. done. Qed.

Lemma qualified_job_ok ids job_id placeholder (plan : ExecutionPlan) scope_ids input_scopes secrets job :
  gate_id job_id ∈ ids → (∀ c, c ∈ base_ids (ep_jobs plan) → namespaced job_id c ∈ ids) →
  placeholder_ok ids placeholder → job_ok (base_ids (ep_jobs plan)) job →
  job_ok ids (qualified_job job_id placeholder scope_ids input_scopes secrets job).
Proof.
  intros Hgate Hns [Hpn _] Hok. pose proof Hok as ((suffix & Hid & Hs) & Hn & Ha & Hv)%job_ok_inv.
  constructor; simpl.
  - exists suffix. by rewrite Hid, sdrop_app_exact.
  - intros d. rewrite elem_of_app, list_elem_of_singleton, list_elem_of_fmap.
    intros [(c & -> & Hc) | ->]; auto.
  - intros a d. rewrite lookup_insert_needs, lookup_fmap.
    destruct (pj_need_aliases job !! a) as [c|] eqn:E; simpl.
    + intros [= <-]. eauto.
    + case_bool_decide; [|done]. intros [= <-]. auto.
  - destruct (pj_virtual_job job) as [[|jobs outs|invs mp ff|]|]; simpl in *; try done.
    + intros a d. rewrite lookup_fmap. intros (c & Hc & ->)%fmap_Some. eauto.
    + intros d (c & -> & Hc)%list_elem_of_fmap. auto.
  - intros p i s o Hp. eapply (job_ok_dynamic _ job p i s o Hok).
    destruct (pj_virtual_job job) as [[]|]; simpl in *; congruence.
Qed.

(** The jobs of an expansion refer to each other and to what the call itself
    could refer to. *)
Lemma expansion_ok ids job_id placeholder plan inputs secrets outputs j :
  plan_ok (ep_jobs plan) → placeholder_ok ids placeholder →
  base_ids (expansion job_id placeholder plan inputs secrets outputs) ⊆ ids →
  j ∈ expansion job_id placeholder plan inputs secrets outputs → job_ok ids j.
Proof.
  intros Hplan Hp Hsub Hj.
  assert (∀ b, b = gate_id job_id ∨ b = job_id ∨
    (∃ c, c ∈ base_ids (ep_jobs plan) ∧ b = namespaced job_id c) → b ∈ ids) as Hids.
  { intros b Hb. apply Hsub. by apply elem_of_base_ids_expansion. }
  unfold expansion in Hj. apply elem_of_cons in Hj as [-> | Hj].
  - destruct Hp as [Hpn Hpa]. constructor; simpl; [|exact Hpn|exact Hpa|done|done].
    exists "". by rewrite sapp_nil_r.
  - apply elem_of_app in Hj as [Hj | Hj].
    + apply list_elem_of_fmap in Hj as (job & -> & Hjob).
      apply (qualified_job_ok ids job_id placeholder plan); [by auto | | done | by apply Hplan].
      intros c Hc. apply Hids. eauto.
    + apply list_elem_of_singleton in Hj as ->.
      constructor; simpl; [| | | |done].
      * exists "". by rewrite sapp_nil_r.
      * intros d (a & Ha)%elem_of_btree_values. apply public_aliases_lookup in Ha as (Ha & _ & ->).
        apply Hids. eauto.
      * intros a d Ha. apply public_aliases_lookup in Ha as (Ha & _ & ->). apply Hids. eauto.
      * intros a d Ha. apply public_aliases_lookup in Ha as (Ha & _ & ->). apply Hids. eauto.
Qed.

(** *** Matrices of calls *)

Definition matrix_expansion (job_id : string) (template : PlannedJob) (instances : list PlannedJob)
    (plan : ExecutionPlan) (inputs : gmap string PlannedReusableInput)
    (secrets : PlannedReusableSecretScope) (outputs : gmap string string) : list PlannedJob :=
  (enumerate instances ≫= λ entry,
     expansion (matrix_invocation job_id entry.1) entry.2 plan inputs secrets outputs) ++
  [reusable_matrix_result job_id template
     ((λ entry, matrix_invocation job_id entry.1) <$> enumerate instances)].

Lemma expand_matrix_call_pure job_id template instances plan inputs secrets outputs :
  plan_ok (ep_jobs plan) →
  expand_matrix_call job_id template instances plan inputs secrets outputs =
  Ok (matrix_expansion job_id template instances plan inputs secrets outputs).
Proof.
  intros Hok. unfold expand_matrix_call, matrix_expansion.
  match goal with |- obind (for_each ?b _ _) _ = _ => set (body := b) end.
  enough (∀ l expanded invocations, for_each body l (expanded, invocations) =
    Ok (expanded ++ (l ≫= λ entry : nat * PlannedJob,
          expansion (matrix_invocation job_id entry.1) entry.2 plan inputs secrets outputs),
        invocations ++ ((λ entry, matrix_invocation job_id entry.1) <$> l))) as Hgen.
  { rewrite Hgen. done. }
  induction l as [|[i p] l IH]; intros expanded invocations; cbn [for_each].
  - by rewrite !app_nil_r.
  - unfold body at 1. rewrite expand_reusable_call_pure by done. cbn [obind]. rewrite IH.
    cbn [fmap list_fmap]. rewrite bind_cons, <-!app_assoc. done.
Qed.

Lemma matrix_expansion_ok ids job_id template instances plan inputs secrets outputs j :
  plan_ok (ep_jobs plan) → (∀ p, p ∈ instances → placeholder_ok ids p) →
  base_ids (matrix_expansion job_id template instances plan inputs secrets outputs) ⊆ ids →
  j ∈ matrix_expansion job_id template instances plan inputs secrets outputs → job_ok ids j.
Proof.
  intros Hplan Hps Hsub Hj.
  assert (∀ i p b, (i, p) ∈ enumerate instances →
    b ∈ base_ids (expansion (matrix_invocation job_id i) p plan inputs secrets outputs) → b ∈ ids)
    as Hone.
  { intros i p b Hin (k & Hk & <-)%elem_of_base_ids. apply Hsub, elem_of_base_ids.
    exists k. split; [|done]. apply elem_of_app. left. apply list_elem_of_bind. by exists (i, p). }
  unfold matrix_expansion in Hj. apply elem_of_app in Hj as [Hj | ->%list_elem_of_singleton].
  - apply list_elem_of_bind in Hj as ([i p] & Hj & Hin).
    eapply expansion_ok; [done| | |exact Hj].
    + apply Hps. apply elem_of_enumerate_from in Hin as [_ Hl]. by eapply list_elem_of_lookup_2.
    + intros b. by apply Hone.
  - assert (∀ d, d ∈ (λ entry : nat * PlannedJob, matrix_invocation job_id entry.1) <$> enumerate instances →
      d ∈ ids) as Hinv.
    { intros d ([i p] & -> & Hin)%list_elem_of_fmap. apply (Hone i p); [done|].
      apply elem_of_base_ids_expansion. simpl. auto. }
    constructor; simpl; [|done| |done|done].
    + exists "". by rewrite sapp_nil_r.
    + intros a d. rewrite (lookup_btree_collect_fun _ (λ d, d)). case_bool_decide; [|done].
      intros [= <-]. auto.
Qed.

Lemma job_id_in_expansion job_id placeholder plan inputs secrets outputs :
  job_id ∈ base_ids (expansion job_id placeholder plan inputs secrets outputs).
Proof. apply elem_of_base_ids_expansion. auto. Qed.

Lemma job_id_in_matrix_expansion job_id template instances plan inputs secrets outputs :
  job_id ∈ base_ids (matrix_expansion job_id template instances plan inputs secrets outputs).
Proof.
  apply elem_of_base_ids. eexists. split; [apply elem_of_app; right; apply list_elem_of_here|done].
Qed.

(** *** Identifiers *)

Lemma qualified_id job_id placeholder scope_ids input_scopes secrets ids job :
  job_ok ids job →
  pj_id (qualified_job job_id placeholder scope_ids input_scopes secrets job) =
  namespaced job_id (pj_id job).
Proof.
  intros ((suffix & Hid & _) & _)%job_ok_inv. unfold qualified_job, namespaced; simpl.
  by rewrite Hid, sdrop_app_exact, !sapp_assoc.
Qed.

Lemma namespaced_inj job_id a b : namespaced job_id a = namespaced job_id b → a = b.
Proof. unfold namespaced. by intros ?%sapp_inv_head%(sapp_inv_head "::"). Qed.

Lemma namespaced_longer job_id a : namespaced job_id a ≠ job_id.
Proof.
  intros H%(f_equal slen). unfold namespaced in H. rewrite !slen_app in H.
  unfold slen in H at 2. simpl in H. lia.
Qed.
End expansion_lemmas.

Lemma access_min_idemp_r a b : access_min (access_min a b) b = access_min a b.
Proof. by destruct a, b. Qed.

Lemma access_le_refl a : access_le a a.
Proof. by destruct a. Qed.

Lemma level_intersect a b name :
  level (intersect a b) name = access_min (level a name) (level b name).
Proof.
  unfold level, intersect; simpl.
  repeat case_bool_decide; simpl; try done; exfalso; set_solver.
Qed.

Section properties.
Context `{VT : ValueTypes}.

(** C36: expanding a reusable call of a well-formed plan never panics - every
    alias it indexes exists and every id it slices has its base id as prefix -
    and its jobs refer only to one another and to the jobs the call itself
    could name. *)
Theorem expansion_well_formed ids job_id placeholder plan inputs secrets outputs :
  plan_ok (ep_jobs plan) → placeholder_ok ids placeholder →
  ∃ jobs, expand_reusable_call job_id placeholder plan inputs secrets outputs = Ok jobs ∧
    job_id ∈ base_ids jobs ∧ ∀ j, j ∈ jobs → job_ok (base_ids jobs ∪ ids) j.
Proof.
  intros Hplan Hp. eexists. split; [by apply expand_reusable_call_pure|].
  split; [apply job_id_in_expansion|]. intros j Hj.
  eapply expansion_ok; [done| |apply union_subseteq_l|exact Hj].
  eapply placeholder_ok_mono, Hp. apply union_subseteq_r.
Qed.

(** at run time, expanding a dynamic matrix of calls is as safe: for any
    number of instances it never panics and leaves well-formed jobs. *)
Theorem dynamic_expansion_well_formed ids template instances plan inputs secrets outputs :
  plan_ok (ep_jobs plan) → (∀ p, p ∈ instances → placeholder_ok ids p) →
  ∃ jobs, expand_dynamic_reusable_call template instances plan inputs secrets outputs = Ok jobs ∧
    pj_base_id template ∈ base_ids jobs ∧ ∀ j, j ∈ jobs → job_ok (base_ids jobs ∪ ids) j.
Proof.
  intros Hplan Hps. eexists. split; [by apply expand_matrix_call_pure|].
  split; [apply job_id_in_matrix_expansion|]. intros j Hj.
  eapply matrix_expansion_ok; [done| |apply union_subseteq_l|exact Hj].
  intros p Hp. eapply placeholder_ok_mono, Hps, Hp. apply union_subseteq_r.
Qed.

(** C37: no job of an expansion holds more of the token than the call that
    caused it, permission by permission. *)
Theorem expansion_attenuates job_id placeholder plan inputs secrets outputs jobs j name :
  plan_ok (ep_jobs plan) →
  expand_reusable_call job_id placeholder plan inputs secrets outputs = Ok jobs → j ∈ jobs →
  access_le (level (pj_permissions j) name) (level (pj_permissions placeholder) name).
Proof.
  intros Hok H Hj. rewrite expand_reusable_call_pure in H by done. apply Ok_inj in H. subst jobs.
  unfold expansion in Hj. apply elem_of_cons in Hj as [-> | Hj]; [apply access_le_refl|].
  apply elem_of_app in Hj as [Hj | ->%list_elem_of_singleton]; [|apply access_le_refl].
  apply list_elem_of_fmap in Hj as (job & -> & _). unfold access_le, qualified_job; simpl.
  rewrite level_intersect. apply access_min_idemp_r.
Qed.

(** the protocol of a call: the gate starts when the caller's needs are met
    and takes the concurrency scopes of the invocation, every called job needs
    the gate and runs inside those scopes, and the result, which always runs,
    needs every public called job and releases the scopes in reverse order. *)
Theorem expansion_protocol job_id placeholder plan inputs secrets outputs jobs :
  plan_ok (ep_jobs plan) →
  expand_reusable_call job_id placeholder plan inputs secrets outputs = Ok jobs →
  ∃ gate called result, jobs = gate :: called ++ [result] ∧
    pj_needs gate = pj_needs placeholder ∧
    length called = length (ep_jobs plan) ∧
    (∀ j, j ∈ called → pj_base_id gate ∈ pj_needs j ∧
       (cs_id <$> pj_concurrency_acquire gate) `prefix_of` pj_concurrency_scope_ids j) ∧
    (∀ d, d ∈ pj_needs result ↔
       ∃ b, b ∈ base_ids (ep_jobs plan) ∧ contains "::" b = false ∧ d = namespaced job_id b) ∧
    pj_condition result = Some always_condition ∧
    pj_concurrency_release result = reverse (cs_id <$> pj_concurrency_acquire gate).
Proof.
  intros Hok H. rewrite expand_reusable_call_pure in H by done. apply Ok_inj in H. subst jobs.
  unfold expansion. eexists _, _, _. split; [done|]. split_and!; simpl; try done.
  - apply length_fmap.
  - intros j (job & -> & _)%list_elem_of_fmap. simpl. split.
    + apply elem_of_app. right. apply list_elem_of_here.
    + by eexists.
  - intros d. rewrite elem_of_btree_values. split.
    + intros (a & Ha%public_aliases_lookup). eauto.
    + intros (b & Hb & Hc & ->). exists b. unfold public_aliases.
      apply map_lookup_filter_Some. split; [|done]. by rewrite lookup_call_aliases, bool_decide_true.
Qed.

(** an expansion has distinct job ids when the called plan has and none of
    its jobs is called [gate]; the name is not reserved, and a job that has it
    takes the id of the synthetic gate. *)
Theorem expansion_ids_distinct job_id placeholder plan inputs secrets outputs jobs :
  plan_ok (ep_jobs plan) → NoDup (pj_id <$> ep_jobs plan) → "gate" ∉ pj_id <$> ep_jobs plan →
  expand_reusable_call job_id placeholder plan inputs secrets outputs = Ok jobs →
  NoDup (pj_id <$> jobs).
Proof.
  intros Hok Hnd Hgate H. rewrite expand_reusable_call_pure in H by done. apply Ok_inj in H. subst jobs.
  unfold expansion. cbn [fmap list_fmap]. rewrite fmap_app. simpl.
  set (q := qualified_job _ _ _ _ _).
  assert (pj_id <$> (q <$> ep_jobs plan) = namespaced job_id <$> (pj_id <$> ep_jobs plan)) as ->.
  { rewrite <-!list_fmap_compose. apply list_fmap_ext. intros i j Hj.
    unfold compose, q. eapply qualified_id, Hok. by eapply list_elem_of_lookup_2. }
  apply NoDup_cons. split.
  - rewrite elem_of_app, list_elem_of_singleton, list_elem_of_fmap.
    intros [(x & Hx & Hin) | H]; [|by apply namespaced_longer in H].
    apply namespaced_inj in Hx. by subst.
  - apply NoDup_app. split_and!; [| |by apply NoDup_singleton].
    + apply NoDup_fmap_2; [|done]. intros a b. apply namespaced_inj.
    + intros x (y & Hy & _)%list_elem_of_fmap Hx%list_elem_of_singleton.
      apply (namespaced_longer job_id y). congruence.
Qed.
End properties.

Section witnesses.
#[local] Existing Instances demo_values.

Definition demo_called (ids : list string) : ExecutionPlan :=
  mkExecutionPlan "deploy" "deploy.yml" None ((λ id, demo_job id []) <$> ids).

Definition demo_placeholder : PlannedJob := demo_job "call" ["build"].
Definition demo_scope : PlannedReusableSecretScope := mkSecretScope false ∅ ∅.

Lemma demo_called_ok ids : plan_ok (ep_jobs (demo_called ids)).
Proof.
  intros j (id & -> & _)%list_elem_of_fmap. constructor; simpl; [| | |done|done].
  - exists "". by rewrite sapp_nil_r.
  - by intros d ?%not_elem_of_nil.
  - by intros a d ?%lookup_empty_Some.
Qed.

Lemma demo_placeholder_ok : placeholder_ok {["build"]} demo_placeholder.
Proof.
  split; simpl.
  - intros d ->%list_elem_of_singleton. by apply elem_of_singleton.
  - by intros a d ?%lookup_empty_Some.
Qed.

(** A called job named [gate] gets the id, and the base id, of the gate. *)
Example called_gate_collides :
  omap_ok (fmap pj_base_id)
    (expand_reusable_call "call" demo_placeholder (demo_called ["gate"; "ship"]) ∅ demo_scope ∅) =
  Ok ["call::gate"; "call::gate"; "call::ship"; "call"].
Proof. vm_compute. reflexivity. Qed.

(** A called job with [::] in its name is not waited for. *)
Example namespaced_job_is_not_awaited :
  omap_ok (fmap pj_needs)
    (expand_reusable_call "call" demo_placeholder (demo_called ["a::b"]) ∅ demo_scope ∅) =
  Ok [["build"]; ["call::gate"]; []].
Proof. vm_compute. reflexivity. Qed.

Lemma expansion_well_formed_witness :
  ∃ jobs, expand_reusable_call "call" demo_placeholder (demo_called ["ship"]) ∅ demo_scope ∅ = Ok jobs ∧
    "call" ∈ base_ids jobs ∧ ∀ j, j ∈ jobs → job_ok (base_ids jobs ∪ {["build"]}) j.
Proof.
  apply (expansion_well_formed {["build"]} "call" demo_placeholder (demo_called ["ship"])).
  - apply demo_called_ok.
  - apply demo_placeholder_ok.
Defined.

Lemma dynamic_expansion_well_formed_witness :
  ∃ jobs, expand_dynamic_reusable_call demo_placeholder [demo_placeholder; demo_placeholder]
            (demo_called ["ship"]) ∅ demo_scope ∅ = Ok jobs ∧
    "call" ∈ base_ids jobs ∧ ∀ j, j ∈ jobs → job_ok (base_ids jobs ∪ {["build"]}) j.
Proof.
  apply (dynamic_expansion_well_formed {["build"]} demo_placeholder
           [demo_placeholder; demo_placeholder] (demo_called ["ship"])).
  - apply demo_called_ok.
  - intros p Hp. assert (p = demo_placeholder) as ->.
    { rewrite !elem_of_cons in Hp. destruct Hp as [?|[?|Hp]]; [done..|].
      by apply not_elem_of_nil in Hp. }
    apply demo_placeholder_ok.
Defined.

Lemma demo_expansion_ok :
  is_ok (expand_reusable_call "call" demo_placeholder (demo_called ["ship"]) ∅ demo_scope ∅) = true.
Proof. vm_compute. reflexivity. Qed.

Lemma expansion_attenuates_witness :
  ∃ jobs, expand_reusable_call "call" demo_placeholder (demo_called ["ship"]) ∅ demo_scope ∅ = Ok jobs ∧
    ∀ j, j ∈ jobs → access_le (level (pj_permissions j) "contents") NoAccess.
Proof.
  destruct (is_ok_inv _ demo_expansion_ok) as [jobs H]. exists jobs. split; [exact H|].
  intros j Hj. change NoAccess with (level (pj_permissions demo_placeholder) "contents").
  exact (expansion_attenuates "call" demo_placeholder (demo_called ["ship"]) ∅ demo_scope ∅ jobs j
           "contents" (demo_called_ok _) H Hj).
Defined.

Lemma expansion_protocol_witness :
  ∃ jobs gate called result,
    expand_reusable_call "call" demo_placeholder (demo_called ["ship"]) ∅ demo_scope ∅ = Ok jobs ∧
    jobs = gate :: called ++ [result].
Proof.
  destruct (is_ok_inv _ demo_expansion_ok) as [jobs H].
  destruct (expansion_protocol "call" demo_placeholder (demo_called ["ship"]) ∅ demo_scope ∅ jobs
              (demo_called_ok _) H) as (gate & called & result & Hj & _).
  exists jobs, gate, called, result. split; [exact H | exact Hj].
Defined.

Lemma expansion_ids_distinct_witness :
  ∃ jobs, expand_reusable_call "call" demo_placeholder (demo_called ["ship"]) ∅ demo_scope ∅ = Ok jobs ∧
    NoDup (pj_id <$> jobs).
Proof.
  destruct (is_ok_inv _ demo_expansion_ok) as [jobs H]. exists jobs. split; [exact H|].
  apply (expansion_ids_distinct "call" demo_placeholder (demo_called ["ship"]) ∅ demo_scope ∅ jobs
           (demo_called_ok _)); [| |exact H].
  - apply (bool_decide_unpack _). vm_compute. exact I.
  - apply (bool_decide_unpack _). vm_compute. exact I.
Defined.
End witnesses.
