(* ===== verification/Linking.v ===== *)
(** * Linking of reusable workflows (crates/gitzero-workflow)

    [compile_linked_workflow]: calls become placeholder jobs, the workflow is
    compiled, each called workflow is compiled recursively and its plan takes
    the place of the call. *)

From S2P Require Import Prelude RustStr OrdMap Yaml Expression Evaluate Templates Workflow Permissions Validate Matrix Steps Dependencies Compile Reusable Expansion Instances.

Definition MAX_REUSABLE_WORKFLOW_LEVELS : nat := 10.
Definition MAX_UNIQUE_REUSABLE_WORKFLOWS : nat := 50.

Section linking.
Context `{VL : ValueLib} `{EL : ExpressionLib} `{TC : !TemplateContract}.

(** The jobs with a [uses:], by id. *)
Definition workflow_calls (workflow : Workflow) : gmap string Job :=
  btree_collect (base.filter (λ entry, is_some (j_uses entry.2) = true) (w_jobs workflow)).

(** The edits of a placeholder. *)
Definition as_placeholder (job : Job) : Job :=
  job
    <| j_runs_on := Some (VString "macos-latest") |>
    <| j_uses := None |>
    <| j_with := ∅ |>
    <| j_secrets := None |>
    <| j_steps := [] |>.

(** [jobs.get_mut(id)], then the edit of the entry it finds. *)
Fixpoint index_update (job_id : string) (f : Job → Job) (jobs : list (string * Job))
    : option (list (string * Job)) :=
  match jobs with
  | [] => None
  | (k, job) :: jobs =>
      if bool_decide (k = job_id) then Some ((k, f job) :: jobs)
      else (λ jobs, (k, job) :: jobs) <$> index_update job_id f jobs
  end.

Definition place_call (workflow : Workflow) (entry : string * Job) (root : Workflow)
    : outcome WorkflowError Workflow :=
  let '(job_id, call) := entry in
  validate_reusable_call_job (w_name workflow) job_id call ;?
  let? jobs := expect (index_update job_id as_placeholder (w_jobs root)) in
  Ok (root <| w_jobs := jobs |>).

(** The planned jobs of each call, by base id. *)
Definition call_placeholders (calls : gmap string Job) (jobs : list PlannedJob)
    : gmap string (list PlannedJob) :=
  fold_left (λ placeholders job,
    <[pj_base_id job := default [] (placeholders !! pj_base_id job) ++ [job]]> placeholders)
    (base.filter (λ job, btree_contains (pj_base_id job) calls = true) jobs) ∅.

(** The expansion of one call from its placeholder instances. *)
Definition expand_call (workflow job_id : string) (placeholder_instances : list PlannedJob)
    (called_plan : ExecutionPlan) (inputs : gmap string PlannedReusableInput)
    (secrets : PlannedReusableSecretScope) (outputs : gmap string string)
    : outcome WorkflowError (list PlannedJob) :=
  let dynamic_matrix := existsb (λ placeholder, is_some (pj_dynamic_matrix placeholder))
                          placeholder_instances in
  if dynamic_matrix then
    reject_if (negb (bool_decide (length placeholder_instances = 1)))
      (incompatible workflow job_id "dynamic reusable-call matrix produced multiple templates") ;?
    let? template := expect (placeholder_instances !! 0) in
    Ok [template <| pj_virtual_job := Some (ReusableDynamicCall called_plan inputs secrets outputs) |>]
  else if bool_decide (length placeholder_instances = 1) then
    let? placeholder := expect (placeholder_instances !! 0) in
    expand_reusable_call job_id placeholder called_plan inputs secrets outputs
  else
    let? first := expect (placeholder_instances !! 0) in
    expand_matrix_call job_id first placeholder_instances called_plan inputs secrets outputs.

(** The replacement of the placeholders by their expansions. *)
Definition replace_call (calls : gmap string Job) (job : PlannedJob)
    (acc : list PlannedJob * gset string * gmap string (list PlannedJob))
    : outcome WorkflowError (list PlannedJob * gset string * gmap string (list PlannedJob)) :=
  let '(linked, replaced_calls, expansions) := acc in
  if btree_contains (pj_base_id job) calls then
    if bool_decide (pj_base_id job ∈ replaced_calls) then Ok (linked, replaced_calls, expansions)
    else
      let? expansion := expect (expansions !! pj_base_id job) in
      Ok (linked ++ expansion, {[pj_base_id job]} ∪ replaced_calls,
          delete (pj_base_id job) expansions)
  else Ok (linked ++ [job], replaced_calls, expansions).

Section link.
Context (reusable_workflows : gmap string Workflow).

(** One iteration of the loop over the calls; [link] is the recursive call. *)
Definition link_call
    (link : Workflow → string → list string → gset string → nat →
            outcome WorkflowError (ExecutionPlan * gset string))
    (workflow : Workflow) (placeholders : gmap string (list PlannedJob))
    (call_stack : list string) (workflow_level : nat)
    (entry : string * Job) (acc : gmap string (list PlannedJob) * gset string)
    : outcome WorkflowError (gmap string (list PlannedJob) * gset string) :=
  let '(job_id, call) := entry in
  let '(expansions, called_workflows) := acc in
  let name := w_name workflow in
  let? placeholder_instances := expect (placeholders !! job_id) in
  let? uses := expect (j_uses call) in
  let? path := reusable_path name job_id uses reusable_workflows in
  let called_workflows := {[path]} ∪ called_workflows in
  reject_if (bool_decide (MAX_UNIQUE_REUSABLE_WORKFLOWS < size called_workflows))
    (incompatible name job_id
       "workflow tree calls more than 50 unique reusable workflows") ;?
  reject_if (bool_decide (MAX_REUSABLE_WORKFLOW_LEVELS ≤ workflow_level))
    (incompatible name job_id
       "reusable workflow nesting exceeds 10 total workflow levels") ;?
  reject_if (bool_decide (path ∈ call_stack))
    (incompatible name job_id
       ("reusable workflow call cycle: " +:+ sjoin " -> " (call_stack ++ [path]))) ;?
  let? called := ok_or (reusable_workflows !! path)
    (incompatible name job_id ("local reusable workflow '" +:+ path +:+ "' was not found")) in
  let? contract := reusable_contract name job_id called in
  let? inputs := bind_reusable_inputs name job_id call contract in
  let? secrets := bind_reusable_secrets name job_id call contract in
  let? '(called_plan, called_workflows) :=
    link called path (call_stack ++ [path]) called_workflows (S workflow_level) in
  reject_if (is_nil (ep_jobs called_plan))
    (incompatible name job_id "reusable workflow must contain at least one job") ;?
  let? expansion := expand_call name job_id placeholder_instances called_plan inputs secrets
                      (contract_outputs contract) in
  Ok (<[job_id := expansion]> expansions, called_workflows).

(** The body of [compile_linked_workflow], [link] being the recursive call. *)
Definition link_workflow
    (link : Workflow → string → list string → gset string → nat →
            outcome WorkflowError (ExecutionPlan * gset string))
    (workflow : Workflow) (path : string) (call_stack : list string)
    (called_workflows : gset string) (workflow_level : nat)
    : outcome WorkflowError (ExecutionPlan * gset string) :=
  let calls := workflow_calls workflow in
  if btree_is_empty calls then
    let? plan := compile workflow path in
    Ok (plan, called_workflows)
  else
    let? root := for_each (place_call workflow) (btree_iter calls) workflow in
    let? plan := compile root path in
    let placeholders := call_placeholders calls (ep_jobs plan) in
    let? '(expansions, called_workflows) :=
      for_each (link_call link workflow placeholders call_stack workflow_level)
        (btree_iter calls) (∅, called_workflows) in
    let? '(linked, _, _) :=
      for_each (replace_call calls) (ep_jobs plan) ([], ∅, expansions) in
    let plan := plan <| ep_jobs := linked |> in
    validate_dependencies (ep_workflow_name plan) (ep_jobs plan) ;?
    Ok (plan, called_workflows).

(** [fuel] bounds the depth of the recursion, and its exhaustion is a
    [Panic]. *)
Fixpoint compile_linked_workflow (fuel : nat)
    : Workflow → string → list string → gset string → nat →
      outcome WorkflowError (ExecutionPlan * gset string) :=
  link_workflow
    (match fuel with
     | 0 => λ _ _ _ _ _, Panic
     | S fuel => compile_linked_workflow fuel
     end).

Definition compile_with_reusables (workflow : Workflow) (path : string)
    : outcome WorkflowError ExecutionPlan :=
  let? '(plan, _) := compile_linked_workflow MAX_REUSABLE_WORKFLOW_LEVELS workflow path [] ∅ 1 in
  Ok plan.

Definition compile_with_local_reusables (workflow : Workflow) (path : string)
    : outcome WorkflowError ExecutionPlan :=
  compile_with_reusables workflow path.
End link.
End linking.

(** ** Lemmas *)

Section lemmas.
Context `{VL : ValueLib} `{EL : ExpressionLib} `{TC : !TemplateContract}.

(** The keys of a workflow's jobs are distinct, as those of any [IndexMap]. *)
Definition keys_distinct (workflow : Workflow) : Prop := NoDup (w_jobs workflow).*1.

(** *** Compiled plans are well formed *)

Lemma compile_plan_ok workflow path plan :
  keys_distinct workflow → compile workflow path = Ok plan → plan_ok (ep_jobs plan).
Proof.
  intros Hnd H j Hj. destruct (compile_dependencies _ _ _ H) as [Hclosed _].
  assert (∀ d, d ∈ pj_needs j → d ∈ base_ids (ep_jobs plan)) as Hneeds.
  { intros d Hd. destruct (dependency_graph_lookup (ep_jobs plan) (pj_base_id j)) as (q & Hq & Hb & Hg);
      [by apply list_elem_of_fmap_2|].
    apply dependency_graph_dom, (Hclosed (pj_base_id j)). exists (pj_needs q). split; [done|].
    by rewrite (compile_same_needs workflow path plan q j). }
  destruct (compile_job_origin _ _ _ _ H Hj) as (id & job & mp & i & m & _ & _ & _ & Hc).
  constructor.
  - rewrite (co_id _ _ _ _ _ _ _ _ _ Hc), (co_base _ _ _ _ _ _ _ _ _ Hc). unfold planned_job_id.
    destruct (plan_has_matrix mp); [by eexists|]. exists "". by rewrite sapp_nil_r.
  - done.
  - intros a d. rewrite (co_aliases _ _ _ _ _ _ _ _ _ Hc). case_bool_decide as Hin; [|done].
    intros [= <-]. apply Hneeds. by rewrite (co_needs _ _ _ _ _ _ _ _ _ Hc).
  - destruct (co_plain _ _ _ _ _ _ _ _ _ Hc) as (-> & _). done.
  - destruct (co_plain _ _ _ _ _ _ _ _ _ Hc) as (-> & _). done.
Qed.

(** *** Placeholders *)

Lemma index_update_keys job_id f jobs jobs' :
  index_update job_id f jobs = Some jobs' → jobs'.*1 = jobs.*1.
Proof.
  revert jobs'; induction jobs as [|[k j] jobs IH]; intros jobs'; simpl; [done|].
  case_bool_decide; [by intros [= <-]|].
  intros (l & Hl & ->)%fmap_Some. simpl. f_equal. by apply IH.
Qed.

Lemma index_update_elem job_id f jobs jobs' k j' :
  index_update job_id f jobs = Some jobs' → (k, j') ∈ jobs' →
  ∃ j, (k, j) ∈ jobs ∧ (j' = j ∨ k = job_id ∧ j' = f j).
Proof.
  revert jobs'; induction jobs as [|[k0 j0] jobs IH]; intros jobs'; simpl; [done|].
  case_bool_decide as Hk.
  - intros [= <-] [[= -> ->] | Hin]%elem_of_cons.
    + exists j0. split; [apply list_elem_of_here | auto].
    + exists j'. split; [by apply list_elem_of_further | auto].
  - intros (l & Hl & ->)%fmap_Some [[= -> ->] | Hin]%elem_of_cons.
    + exists j0. split; [apply list_elem_of_here | auto].
    + destruct (IH l Hl Hin) as (j & Hj & Hor). exists j. split; [by apply list_elem_of_further | done].
Qed.

Lemma index_update_Some job_id f jobs :
  job_id ∈ jobs.*1 → is_Some (index_update job_id f jobs).
Proof.
  induction jobs as [|[k j] jobs IH]; simpl; [by intros ?%not_elem_of_nil|].
  intros [-> | Hin]%elem_of_cons; case_bool_decide; eauto; [done|].
  apply IH in Hin as [l ->]. by eexists.
Qed.

Lemma workflow_calls_elem workflow job_id call :
  workflow_calls workflow !! job_id = Some call →
  (job_id, call) ∈ w_jobs workflow ∧ is_Some (j_uses call).
Proof.
  intros [Hu Hin]%lookup_btree_collect_Some%list_elem_of_filter.
  split; [done|]. simpl in Hu. by destruct (j_uses call).
Qed.

(** The root the placeholders leave: the same keys, and each job is the source
    job or its placeholder. *)
Definition root_of (workflow root : Workflow) : Prop :=
  (w_jobs root).*1 = (w_jobs workflow).*1 ∧
  ∀ k j', (k, j') ∈ w_jobs root → ∃ j, (k, j) ∈ w_jobs workflow ∧ j_strategy j' = j_strategy j.

Lemma place_calls_spec workflow :
  outcome_spec (for_each (place_call workflow) (btree_iter (workflow_calls workflow)) workflow)
    (root_of workflow) (λ _, True).
Proof.
  apply (outcome_spec_for_each _ (λ _, root_of workflow)).
  - split; [done|]. eauto.
  - intros prefix [id call] rest root Hsplit [Hkeys Hjobs]. unfold place_call.
    assert ((id, call) ∈ btree_iter (workflow_calls workflow)) as Hin by (rewrite Hsplit; set_solver).
    apply elem_of_btree_iter, workflow_calls_elem in Hin as [Hin _].
    destruct (validate_reusable_call_job _ _ _) eqn:Hv; simpl; [|done|];
      [|by apply validate_reusable_call_job_no_panic in Hv].
    destruct (index_update_Some id as_placeholder (w_jobs root)) as [jobs Hu].
    { rewrite Hkeys. apply list_elem_of_fmap. by exists (id, call). }
    rewrite Hu. simpl. split; simpl.
    + by rewrite (index_update_keys _ _ _ _ Hu).
    + intros k j' Hk. destruct (index_update_elem _ _ _ _ _ _ Hu Hk) as (j & Hj & Hor).
      destruct (Hjobs k j Hj) as (j0 & Hj0 & Hs). exists j0. split; [done|].
      by destruct Hor as [-> | [_ ->]].
Qed.

(** The placeholders of a call are the planned jobs with its base id. *)
Lemma call_placeholders_lookup calls jobs id :
  call_placeholders calls jobs !! id =
  match base.filter (λ j : PlannedJob, pj_base_id j = id ∧ btree_contains id calls = true) jobs with
  | [] => None
  | l => Some l
  end.
Proof.
  unfold call_placeholders.
  assert (∀ (l : list PlannedJob) (m : gmap string (list PlannedJob)),
    fold_left (λ m job, <[pj_base_id job := default [] (m !! pj_base_id job) ++ [job]]> m) l m !! id =
    match base.filter (λ j : PlannedJob, pj_base_id j = id) l with
    | [] => m !! id
    | k => Some (default [] (m !! id) ++ k)
    end) as Hgen.
  { induction l as [|j l IH]; intros m; cbn [fold_left]; [done|].
    rewrite IH, filter_cons. destruct (decide (pj_base_id j = id)) as [->|Hne].
    - rewrite lookup_insert_eq. simpl.
      destruct (base.filter _ l); simpl; [done | by rewrite <-app_assoc].
    - by rewrite lookup_insert_ne by done. }
  rewrite Hgen, lookup_empty. simpl.
  rewrite list_filter_filter.
  rewrite (list_filter_iff _ (λ j : PlannedJob, pj_base_id j = id ∧ btree_contains id calls = true)).
  - by destruct (base.filter _ jobs).
  - intros j. split; intros [? H]; subst; auto.
Qed.

(** *** One expansion *)

(** An expansion may replace the call [job_id] in a plan with base ids [ids]. *)
Definition expansion_fits (ids : gset string) (job_id : string) (jobs : list PlannedJob) : Prop :=
  job_id ∈ base_ids jobs ∧
  ∀ ids', ids ⊆ ids' → base_ids jobs ⊆ ids' → ∀ j, j ∈ jobs → job_ok ids' j.

Lemma expand_call_spec ids workflow job_id instances plan inputs secrets outputs :
  instances ≠ [] → plan_ok (ep_jobs plan) →
  (∀ p, p ∈ instances → job_ok ids p ∧ pj_base_id p = job_id) →
  outcome_spec (expand_call workflow job_id instances plan inputs secrets outputs)
    (expansion_fits ids job_id) (λ _, True).
Proof.
  intros Hne Hplan Hps. destruct instances as [|first rest]; [done|]. unfold expand_call.
  destruct (Hps first (list_elem_of_here _ _)) as [Hfirst Hbase].
  assert (∀ ids' p, ids ⊆ ids' → p ∈ first :: rest → placeholder_ok ids' p) as Hpl.
  { intros ids' p Hsub Hp. eapply placeholder_ok_mono; [done|]. by apply job_ok_placeholder, Hps. }
  destruct (existsb _ (first :: rest)).
  - destruct rest; simpl; [|done]. split.
    + apply elem_of_base_ids. eexists. split; [apply list_elem_of_here | done].
    + intros ids' Hsub _ j ->%list_elem_of_singleton.
      pose proof Hfirst as (Hid & Hn & Ha & _)%job_ok_inv.
      constructor; simpl; [done | eauto | eauto | done |].
      intros p i s o [= <- <- <- <-]. exact Hplan.
  - destruct rest as [|second rest]; simpl.
    + rewrite expand_reusable_call_pure by done. simpl. split; [apply job_id_in_expansion|].
      intros ids' Hsub Hbs j Hj. eapply expansion_ok; [done| |exact Hbs|exact Hj].
      apply Hpl; [done | apply list_elem_of_here].
    + rewrite expand_matrix_call_pure by done. simpl. split; [apply job_id_in_matrix_expansion|].
      intros ids' Hsub Hbs j Hj. eapply matrix_expansion_ok; [done| |exact Hbs|exact Hj].
      intros p Hp. by apply Hpl.
Qed.

(** *** The replacement *)

Lemma replace_calls_spec calls jobs (exp0 : gmap string (list PlannedJob)) :
  (∀ j, j ∈ jobs → btree_contains (pj_base_id j) calls = true → is_Some (exp0 !! pj_base_id j)) →
  outcome_spec (for_each (replace_call calls) jobs ([], ∅, exp0))
    (λ '(linked, replaced, _),
      (∀ j, j ∈ linked → j ∈ jobs ∨ ∃ c e, c ∈ replaced ∧ exp0 !! c = Some e ∧ j ∈ e) ∧
      (∀ c, c ∈ replaced → ∃ e, exp0 !! c = Some e ∧ ∀ j, j ∈ e → j ∈ linked) ∧
      (∀ j, j ∈ jobs → j ∈ linked ∨ pj_base_id j ∈ replaced)) (λ _, True).
Proof.
  intros Hexp.
  eapply outcome_spec_mono; [eapply (outcome_spec_for_each _
    (λ prefix '(linked, replaced, expansions),
      (∀ j, j ∈ linked → j ∈ prefix ∨ ∃ c e, c ∈ replaced ∧ exp0 !! c = Some e ∧ j ∈ e) ∧
      (∀ c, c ∈ replaced → ∃ e, exp0 !! c = Some e ∧ ∀ j, j ∈ e → j ∈ linked) ∧
      (∀ j, j ∈ prefix → j ∈ linked ∨ pj_base_id j ∈ replaced) ∧
      (∀ c, c ∉ replaced → expansions !! c = exp0 !! c)) (λ _, True))| |done].
  - split_and!; [by intros j ?%not_elem_of_nil | by intros c ?%not_elem_of_empty |
                 by intros j ?%not_elem_of_nil | done].
  - intros prefix job rest [[linked replaced] expansions] Hsplit (H1 & H2 & H3 & H4).
    unfold replace_call.
    destruct (btree_contains (pj_base_id job) calls) eqn:Hc.
    + case_bool_decide as Hr.
      * simpl. split_and!; [|done| |done].
        { intros j Hj. destruct (H1 j Hj); [left; apply elem_of_app; auto | auto]. }
        { intros j [Hj | ->%list_elem_of_singleton]%elem_of_app; auto. }
      * destruct (Hexp job) as [e He]; [rewrite Hsplit; set_solver | done |].
        rewrite H4, He by done. simpl. split_and!.
        { intros j [Hj | Hj]%elem_of_app.
          - destruct (H1 j Hj) as [?|(c & e' & Hcr & ? & ?)]; [left; apply elem_of_app; auto|].
            right. exists c, e'. split_and!; [by apply elem_of_union_r | done..].
          - right. exists (pj_base_id job), e. split_and!; [|done..].
            by apply elem_of_union_l, elem_of_singleton. }
        { intros c [->%elem_of_singleton | Hcr]%elem_of_union.
          - exists e. split; [done|]. intros j Hj. apply elem_of_app. auto.
          - destruct (H2 c Hcr) as (e' & ? & ?). exists e'. split; [done|].
            intros j Hj. apply elem_of_app. auto. }
        { intros j [Hj | ->%list_elem_of_singleton]%elem_of_app.
          - destruct (H3 j Hj); [left; apply elem_of_app; auto | right; by apply elem_of_union_r].
          - right. by apply elem_of_union_l, elem_of_singleton. }
        { intros c Hcn. apply not_elem_of_union in Hcn as [Hne Hcn].
          rewrite not_elem_of_singleton in Hne.
          rewrite lookup_delete_ne by congruence. auto. }
    + simpl. split_and!; [| |  |done].
      * intros j [Hj | ->%list_elem_of_singleton]%elem_of_app.
        { destruct (H1 j Hj); [left; apply elem_of_app; auto | auto]. }
        { left. apply elem_of_app. right. apply list_elem_of_here. }
      * intros c Hcr. destruct (H2 c Hcr) as (e' & ? & ?). exists e'. split; [done|].
        intros j Hj. apply elem_of_app. auto.
      * intros j [Hj | ->%list_elem_of_singleton]%elem_of_app.
        { destruct (H3 j Hj); [left; apply elem_of_app; auto | auto]. }
        { left. apply elem_of_app. right. apply list_elem_of_here. }
  - intros [[linked replaced] expansions] (H1 & H2 & H3 & _). done.
Qed.

Lemma linked_plan_ok jobs linked (replaced : gset string) (exp0 : gmap string (list PlannedJob)) :
  plan_ok jobs →
  (∀ c e, exp0 !! c = Some e → expansion_fits (base_ids jobs) c e) →
  (∀ j, j ∈ linked → j ∈ jobs ∨ ∃ c e, c ∈ replaced ∧ exp0 !! c = Some e ∧ j ∈ e) →
  (∀ c, c ∈ replaced → ∃ e, exp0 !! c = Some e ∧ ∀ j, j ∈ e → j ∈ linked) →
  (∀ j, j ∈ jobs → j ∈ linked ∨ pj_base_id j ∈ replaced) →
  plan_ok linked.
Proof.
  intros Hok Hfits Hfrom Hall Hkeep j Hj.
  assert (∀ c e, c ∈ replaced → exp0 !! c = Some e → base_ids e ⊆ base_ids linked) as Hsub.
  { intros c e Hc He b (k & Hk & <-)%elem_of_base_ids. apply elem_of_base_ids.
    destruct (Hall c Hc) as (e' & He' & Hin). exists k. split; [|done]. apply Hin. congruence. }
  assert (base_ids jobs ⊆ base_ids linked) as Hids.
  { intros b (k & Hk & <-)%elem_of_base_ids.
    destruct (Hkeep k Hk) as [Hin | Hr]; [apply elem_of_base_ids; eauto|].
    destruct (Hall _ Hr) as (e & He & _). eapply Hsub; [done..|]. by apply Hfits in He as [? _]. }
  destruct (Hfrom j Hj) as [Hin | (c & e & Hc & He & Hin)].
  - eapply job_ok_mono, Hok; done.
  - destruct (Hfits c e He) as [_ Hjobs]. by eapply Hjobs; [|eapply Hsub|].
Qed.
End lemmas.

Section link_lemmas.
Context `{VL : ValueLib} `{EL : ExpressionLib} `{TC : !TemplateContract}.
Context (reusable_workflows : gmap string Workflow).

(** Every call has at least one combination: the linker indexes the
    placeholders of a call without checking that its matrix left any. *)
Definition calls_expand (workflow : Workflow) : Prop :=
  ∀ job_id job, (job_id, job) ∈ w_jobs workflow → is_Some (j_uses job) →
  ∀ name plan, expand_matrix name job_id (j_strategy job) = Ok plan → mp_combinations plan ≠ [].

Definition source_ok (workflow : Workflow) : Prop :=
  keys_distinct workflow ∧ calls_expand workflow.

Definition plan_graph_ok (plan : ExecutionPlan) : Prop :=
  plan_ok (ep_jobs plan) ∧ closed_graph (dependency_graph (ep_jobs plan)) ∧
  acyclic (dependency_graph (ep_jobs plan)).

Definition linked_ok (result : ExecutionPlan * gset string) : Prop := plan_graph_ok result.1.

(** A compiled root has a placeholder for each call. *)
Lemma placeholders_exist workflow root path plan job_id call :
  source_ok workflow → root_of workflow root → compile root path = Ok plan →
  workflow_calls workflow !! job_id = Some call →
  ∃ instances, call_placeholders (workflow_calls workflow) (ep_jobs plan) !! job_id = Some instances ∧
    instances ≠ [] ∧ ∀ p, p ∈ instances → p ∈ ep_jobs plan ∧ pj_base_id p = job_id.
Proof.
  intros [Hnd Hexp] [Hkeys Hroot] Hplan Hcall.
  rewrite call_placeholders_lookup.
  set (P := λ j : PlannedJob, _).
  assert (∀ p, p ∈ base.filter P (ep_jobs plan) → p ∈ ep_jobs plan ∧ pj_base_id p = job_id) as Hf.
  { intros p [[Hb _] Hp]%list_elem_of_filter. done. }
  destruct (base.filter P (ep_jobs plan)) as [|p l] eqn:E; [|by exists (p :: l)].
  exfalso. apply workflow_calls_elem in Hcall as Hc. destruct Hc as [Hin Huses].
  assert (job_id ∈ (w_jobs root).*1) as Hk.
  { rewrite Hkeys. apply list_elem_of_fmap. by exists (job_id, call). }
  apply list_elem_of_fmap in Hk as ([k j'] & -> & Hj'). simpl in *.
  destruct (Hroot k j' Hj') as (j & Hj & Hstrategy).
  assert (j = call) as ->.
  { apply list_elem_of_lookup in Hin as [i1 Hi1]. apply list_elem_of_lookup in Hj as [i2 Hi2].
    assert (i1 = i2) as ->; [|congruence].
    eapply (NoDup_lookup _ i1 i2 k Hnd); rewrite list_lookup_fmap; [by rewrite Hi1 | by rewrite Hi2]. }
  destruct (compile_groups _ _ _ Hplan) as (groups & Hjobs & Hgroups).
  apply list_elem_of_lookup in Hj' as [n Hn].
  destruct (Forall2_lookup_l _ _ _ _ _ Hgroups Hn) as (group & Hgn & mp & Hmp & _ & Hlen & Hall).
  simpl in *. rewrite Hstrategy in Hmp.
  pose proof (Hexp k call Hin Huses _ _ Hmp) as Hne.
  destruct group as [|p group]; [by destruct (mp_combinations mp)|].
  destruct (Hall 0 p eq_refl) as (m & _ & Hc).
  assert (p ∈ base.filter P (ep_jobs plan)) as Hp; [|rewrite E in Hp; by apply not_elem_of_nil in Hp].
  apply list_elem_of_filter. split.
  - split; [by apply (co_base _ _ _ _ _ _ _ _ _ Hc)|]. apply btree_contains_true. eauto.
  - rewrite Hjobs. apply list_elem_of_In, in_concat. exists (p :: group). split; [|by left].
    apply list_elem_of_In. by eapply list_elem_of_lookup_2.
Qed.

(** One call, given that the recursion is right. *)
Lemma link_call_spec link workflow root path plan stack level job_id call expansions called :
  source_ok workflow → root_of workflow root → compile root path = Ok plan →
  plan_ok (ep_jobs plan) → workflow_calls workflow !! job_id = Some call →
  (∀ w p s c, level < MAX_REUSABLE_WORKFLOW_LEVELS → reusable_workflows !! p = Some w →
     outcome_spec (link w p s c (S level)) linked_ok (λ _, True)) →
  outcome_spec
    (link_call reusable_workflows link workflow
       (call_placeholders (workflow_calls workflow) (ep_jobs plan)) stack level
       (job_id, call) (expansions, called))
    (λ '(expansions', _), ∃ e, expansions' = <[job_id := e]> expansions ∧
       expansion_fits (base_ids (ep_jobs plan)) job_id e) (λ _, True).
Proof.
  intros Hsrc Hroot Hplan Hok Hcall Hlink. unfold link_call.
  destruct (placeholders_exist _ _ _ _ _ _ Hsrc Hroot Hplan Hcall) as (instances & -> & Hne & Hinst).
  cbn [expect obind]. apply workflow_calls_elem in Hcall as [_ [uses Huses]]. rewrite Huses.
  cbn [expect obind].
  destruct (reusable_path _ _ _ _) as [p| |] eqn:Hp; simpl; [|done|by apply reusable_path_no_panic in Hp].
  case_bool_decide; simpl; [done|]. case_bool_decide as Hlevel; simpl; [done|].
  case_bool_decide; simpl; [done|].
  destruct (reusable_workflows !! p) as [w|] eqn:Hw; simpl; [|done].
  destruct (reusable_contract _ _ _) as [contract| |] eqn:Hc; simpl;
    [|done|by apply reusable_contract_no_panic in Hc].
  destruct (bind_reusable_inputs _ _ _ _) as [inputs| |] eqn:Hi; simpl;
    [|done|by apply bind_reusable_inputs_no_panic in Hi].
  destruct (bind_reusable_secrets _ _ _ _) as [secrets| |] eqn:Hs; simpl;
    [|done|by apply bind_reusable_secrets_no_panic in Hs].
  apply outcome_spec_bind. eapply outcome_spec_mono; [apply Hlink; [lia | exact Hw]| |done].
  intros [called_plan called'] (Hcp & _). cbn [fst snd] in *.
  destruct (is_nil (ep_jobs called_plan)); simpl; [done|].
  apply outcome_spec_bind. eapply outcome_spec_mono; [eapply (expand_call_spec (base_ids (ep_jobs plan)))| |done].
  - done.
  - done.
  - intros q Hq. destruct (Hinst q Hq). split; [by apply Hok | done].
  - intros e He. simpl. eauto.
Qed.

(** What the recursive calls must do. *)
Definition links_below (level : nat)
    (link : Workflow → string → list string → gset string → nat →
            outcome WorkflowError (ExecutionPlan * gset string)) : Prop :=
  ∀ w p s c, level < MAX_REUSABLE_WORKFLOW_LEVELS → reusable_workflows !! p = Some w →
  outcome_spec (link w p s c (S level)) linked_ok (λ _, True).

Lemma link_calls_spec link workflow root path plan stack level called :
  source_ok workflow → root_of workflow root → compile root path = Ok plan →
  plan_ok (ep_jobs plan) → links_below level link →
  outcome_spec
    (for_each (link_call reusable_workflows link workflow
       (call_placeholders (workflow_calls workflow) (ep_jobs plan)) stack level)
       (btree_iter (workflow_calls workflow)) (∅, called))
    (λ '(expansions, _),
      (∀ c e, expansions !! c = Some e → expansion_fits (base_ids (ep_jobs plan)) c e) ∧
      (∀ c, is_Some (workflow_calls workflow !! c) → is_Some (expansions !! c))) (λ _, True).
Proof.
  intros Hsrc Hroot Hplan Hok Hlink.
  eapply outcome_spec_mono; [eapply (outcome_spec_for_each _
    (λ prefix '(expansions, _),
      (∀ c e, expansions !! c = Some e → expansion_fits (base_ids (ep_jobs plan)) c e) ∧
      (∀ c, c ∈ prefix.*1 → is_Some (expansions !! c))) (λ _, True))| |done].
  - split; [by intros c e ?%lookup_empty_Some | by intros c ?%not_elem_of_nil].
  - intros prefix [job_id call] rest [expansions called'] Hsplit [Hfit Hdom].
    assert (workflow_calls workflow !! job_id = Some call) as Hcall
      by (apply elem_of_btree_iter; rewrite Hsplit; set_solver).
    eapply outcome_spec_mono; [by eapply link_call_spec| |done].
    intros [expansions' called''] (e & -> & He). split.
    + intros c e'. destruct (decide (job_id = c)) as [<-|Hne].
      * rewrite lookup_insert_eq. by intros [= <-].
      * rewrite lookup_insert_ne by done. apply Hfit.
    + intros c. rewrite fmap_app, elem_of_app. cbn [fmap list_fmap fst].
      rewrite list_elem_of_singleton. destruct (decide (job_id = c)) as [<-|Hne].
      * rewrite lookup_insert_eq. eauto.
      * rewrite lookup_insert_ne by done. intros [?|?]; [auto | congruence].
  - intros [expansions called'] [Hfit Hdom]. split; [done|].
    intros c Hc. by apply Hdom, elem_of_btree_keys.
Qed.

Lemma link_workflow_spec link workflow path stack called level :
  source_ok workflow → links_below level link →
  outcome_spec (link_workflow reusable_workflows link workflow path stack called level)
    linked_ok (λ _, True).
Proof.
  intros Hsrc Hlink. unfold link_workflow. destruct (btree_is_empty (workflow_calls workflow)).
  { destruct (compile workflow path) as [plan| |] eqn:Hplan; simpl;
      [|done|by apply compile_no_panic in Hplan].
    split; [eapply compile_plan_ok, Hplan; apply Hsrc | by eapply compile_dependencies]. }
  apply outcome_spec_bind; eapply outcome_spec_mono; [apply place_calls_spec| |done].
  intros root Hroot. cbn beta.
  destruct (compile root path) as [plan| |] eqn:Hplan; cbn [obind outcome_spec];
    [|done|by apply compile_no_panic in Hplan].
  assert (plan_ok (ep_jobs plan)) as Hok.
  { eapply compile_plan_ok, Hplan. unfold keys_distinct. rewrite (proj1 Hroot). apply Hsrc. }
  apply outcome_spec_bind. eapply outcome_spec_mono; [by eapply link_calls_spec| |done].
  intros [expansions called'] [Hfit Hdom]. cbn beta iota.
  apply outcome_spec_bind. eapply outcome_spec_mono; [apply replace_calls_spec| |done].
  { intros j _ Hc. by apply Hdom, btree_contains_true. }
  intros [[linked replaced] left_] (H1 & H2 & H3). cbn beta iota zeta.
  apply outcome_spec_bind. eapply outcome_spec_mono; [apply validate_graph_spec| |done].
  intros u Hgraph. split; [by eapply linked_plan_ok | done].
Qed.

Lemma compile_linked_spec fuel workflow path stack called level :
  (∀ p w, reusable_workflows !! p = Some w → source_ok w) → source_ok workflow →
  MAX_REUSABLE_WORKFLOW_LEVELS < fuel + level →
  outcome_spec (compile_linked_workflow reusable_workflows fuel workflow path stack called level)
    linked_ok (λ _, True).
Proof.
  intros Hall. revert workflow path stack called level.
  induction fuel as [|fuel IH]; intros workflow path stack called level Hsrc Hfuel;
    cbn [compile_linked_workflow]; apply link_workflow_spec; try done; intros w p s c Hlevel Hw.
  - simpl in Hfuel. lia.
  - apply IH; [by eapply Hall | lia].
Qed.
End link_lemmas.

Section properties.
Context `{VL : ValueLib} `{EL : ExpressionLib} `{TC : !TemplateContract}.

End properties.

Section witnesses.
#[local] Existing Instances demo_values demo_value_lib demo_expressions demo_json.
#[local] Instance linking_templates : TemplateContract := expression_templates demo_hash_files.

Definition deploy_path : string := ".github/workflows/deploy.yml".

(** A job that calls the deploy workflow, once per entry of its matrix. *)
Definition demo_call_job (strategy : option Value) : Job :=
  demo_source_job ["build"] strategy
    <| j_runs_on := None |> <| j_steps := [] |> <| j_uses := Some ("./" +:+ deploy_path) |>.

Definition demo_caller (strategy : option Value) : Workflow :=
  mkWorkflow "ci" VNull ∅ demo_defaults None None None
    [("build", demo_source_job [] None); ("deploy", demo_call_job strategy)] ∅.

Definition demo_library : gmap string Workflow :=
  {[deploy_path := mkWorkflow "deploy" (VString "workflow_call") ∅ demo_defaults None None None
      [("ship", demo_source_job [] None)] ∅]}.

Definition linked_ids (strategy : option Value) : outcome WorkflowError (list (string * list string)) :=
  omap_ok (λ plan, (λ j, (pj_id j, pj_needs j)) <$> ep_jobs plan)
    (compile_with_reusables demo_library (demo_caller strategy) "ci.yml").

Example demo_linked :
  linked_ids None =
  Ok [("build", []); ("deploy::gate", ["build"]); ("deploy::ship", ["deploy::gate"]);
      ("deploy", ["deploy::ship"])].
Proof. vm_compute. reflexivity. Qed.

Example demo_linked_matrix :
  linked_ids (Some demo_strategy) =
  Ok [("build", []);
      ("deploy::matrix-1::gate", ["build"]);
      ("deploy::matrix-1::ship", ["deploy::matrix-1::gate"]);
      ("deploy::matrix-1", ["deploy::matrix-1::ship"]);
      ("deploy::matrix-2::gate", ["build"]);
      ("deploy::matrix-2::ship", ["deploy::matrix-2::gate"]);
      ("deploy::matrix-2", ["deploy::matrix-2::ship"]);
      ("deploy", ["deploy::matrix-1"; "deploy::matrix-2"])].
Proof. vm_compute. reflexivity. Qed.

(** A matrix whose only combination is excluded. *)
Definition empty_strategy : Value :=
  VMapping [(VString "matrix", VMapping [
    (VString "os", VSequence [VString "linux"]);
    (VString "exclude", VSequence [VMapping [(VString "os", VString "linux")]])])].

(** The linker panics on a call whose matrix is empty; a runnable job with the
    same matrix only disappears. *)
Example empty_call_matrix_panics : linked_ids (Some empty_strategy) = Panic.
Proof. vm_compute. reflexivity. Qed.

Lemma demo_library_ok p w : demo_library !! p = Some w → source_ok w.
Proof.
  unfold demo_library. intros [_ <-]%lookup_singleton_Some. split.
  - apply (bool_decide_unpack _). vm_compute. exact I.
  - intros id job [= -> ->]%list_elem_of_singleton [u Hu]. discriminate Hu.
Qed.

Lemma demo_caller_ok : source_ok (demo_caller None).
Proof.
  split; [apply (bool_decide_unpack _); vm_compute; exact I|].
  intros id job Hin [u Hu] name plan Hp. simpl in Hin.
  apply elem_of_cons in Hin as [[= -> ->] | [= -> ->]%list_elem_of_singleton]; [discriminate Hu|].
  injection Hp as <-. discriminate.
Qed.

End witnesses.
