(* ===== verification/Scopes.v ===== *)
(** * Base ids as paths

    Linking names the jobs of a called workflow [call::job], level by level.
    When the ids of the source contain no colon a base id is the join of a list
    of ids, and the scheduler's prefix test on base ids ([inside]) is the prefix
    order on those lists. *)

From S2P Require Import Prelude RustStr OrdMap Yaml Instances Workflow Dependencies Expansion.

(** [base_id == scope || base_id.strip_prefix(scope).is_some_and(|suffix|
    suffix.starts_with("::"))] *)
Definition inside (scope base_id : string) : bool :=
  bool_decide (base_id = scope) ||
  match strip_prefix scope base_id with
  | Some suffix => starts_with "::" suffix
  | None => false
  end.

Definition colon_free (s : string) : bool := string_forall (λ c, negb (bool_decide (c = ":"%char))) s.

Definition join_path (path : list string) : string := sjoin "::" path.

Definition good_path (path : list string) : Prop :=
  path ≠ [] ∧ Forall (λ s, colon_free s = true) path.

Definition path_of (path : list string) (base_id : string) : Prop :=
  good_path path ∧ base_id = join_path path.

(** What follows the first component. *)
Definition path_tail (path : list string) : string :=
  match path with [] => "" | _ => "::" +:+ join_path path end.

(** Nothing, or something that starts with the separator. *)
Definition separated (s : string) : Prop := s = "" ∨ ∃ r, s = "::" +:+ r.

Lemma join_path_cons a path : join_path (a :: path) = a +:+ path_tail path.
Proof. unfold join_path, path_tail. destruct path; simpl; [by rewrite sapp_nil_r | done]. Qed.

Lemma path_tail_separated path : separated (path_tail path).
Proof. destruct path; [by left|]. right. by eexists. Qed.

Lemma separated_app s t : separated s → separated t → separated (s +:+ t).
Proof.
  intros [-> | [r ->]] Ht; [by rewrite sapp_nil_l|]. right. exists (r +:+ t). by rewrite sapp_assoc.
Qed.

Lemma colon_free_split a b x y :
  colon_free a = true → colon_free b = true → separated x → separated y →
  a +:+ x = b +:+ y → a = b ∧ x = y.
Proof.
  revert b; induction a as [|c a IH]; intros [|d b] Ha Hb Hx Hy H;
    rewrite ?sapp_nil_l, ?sapp_cons in H.
  - done.
  - subst x. destruct Hx as [? | [r Hr]]; [done|].
    rewrite sapp_cons in Hr. injection Hr as -> _. simpl in Hb. done.
  - subst y. destruct Hy as [? | [r Hr]]; [done|].
    rewrite sapp_cons in Hr. injection Hr as -> _. simpl in Ha. done.
  - injection H as -> H. simpl in Ha, Hb. apply andb_prop in Ha as [_ Ha].
    apply andb_prop in Hb as [_ Hb]. destruct (IH b) as [-> ->]; done.
Qed.

Lemma path_tail_app path rest :
  path ≠ [] → path_tail (path ++ rest) = path_tail path +:+ path_tail rest.
Proof.
  unfold path_tail at 1 2. destruct path as [|a path]; [done|]. intros _. cbn [app].
  change (join_path (a :: path ++ rest)) with (join_path ((a :: path) ++ rest)).
  rewrite sapp_assoc. f_equal. revert a; induction path as [|b path IH]; intros a.
  - cbn [app]. rewrite !join_path_cons. by rewrite sapp_assoc.
  - cbn [app] in *. rewrite join_path_cons. rewrite (join_path_cons a (b :: path)).
    rewrite sapp_assoc. f_equal. unfold path_tail at 1 2. rewrite sapp_assoc. f_equal. apply IH.
Qed.

Lemma join_path_app path rest :
  path ≠ [] → join_path (path ++ rest) = join_path path +:+ path_tail rest.
Proof.
  intros Hne. pose proof (path_tail_app path rest Hne) as H. destruct path as [|a path]; [done|].
  unfold path_tail at 1 2 in H. cbn [app] in *. rewrite sapp_assoc in H. by apply (sapp_inv_head "::") in H.
Qed.

(** Decoding: what a separated suffix adds to a path is a list of components. *)
Lemma join_path_suffix p q suffix :
  good_path p → good_path q → separated suffix → join_path q = join_path p +:+ suffix → p `prefix_of` q.
Proof.
  revert q; induction p as [|a p IH]; intros [|b q] [Hp Fp] [Hq Fq] Hs H; try done.
  apply Forall_cons in Fp as [Ha Fp]. apply Forall_cons in Fq as [Hb Fq].
  rewrite !join_path_cons, sapp_assoc in H.
  apply colon_free_split in H as [-> H]; [|done..|by apply path_tail_separated|
    apply separated_app; [apply path_tail_separated | done]].
  apply prefix_cons. destruct p as [|a' p]; [apply prefix_nil|].
  destruct q as [|b' q]; [by destruct suffix|]. apply IH; [by split..|done|].
  unfold path_tail in H. rewrite sapp_assoc in H. by apply (sapp_inv_head "::") in H.
Qed.

Lemma inside_true scope base_id :
  inside scope base_id = true ↔ ∃ suffix, base_id = scope +:+ suffix ∧ separated suffix.
Proof.
  unfold inside. rewrite orb_true_iff, bool_decide_eq_true. split.
  - intros [-> | H]; [exists ""; rewrite sapp_nil_r; split; [done | by left]|].
    destruct (strip_prefix scope base_id) as [suffix|] eqn:E; [|done].
    apply strip_prefix_Some in E. apply starts_with_true in H. exists suffix. split; [done | by right].
  - intros (suffix & -> & [-> | [r ->]]); [left; apply sapp_nil_r|]. right.
    assert (strip_prefix scope (scope +:+ "::" +:+ r) = Some ("::" +:+ r)) as -> by
      by apply strip_prefix_Some.
    apply starts_with_app.
Qed.

Lemma inside_refl b : inside b b = true.
Proof. apply inside_true. exists "". rewrite sapp_nil_r. split; [done | by left]. Qed.

Lemma inside_trans a b c : inside a b = true → inside b c = true → inside a c = true.
Proof.
  rewrite !inside_true. intros (x & -> & Hx) (y & -> & Hy). exists (x +:+ y).
  split; [by rewrite sapp_assoc | by apply separated_app].
Qed.

Lemma inside_path p q a b :
  path_of p a → path_of q b → inside a b = true ↔ p `prefix_of` q.
Proof.
  intros [Hp ->] [Hq ->]. rewrite inside_true. split.
  - intros (suffix & H & Hs). by eapply join_path_suffix.
  - intros [r ->]. exists (path_tail r). split; [by apply join_path_app, Hp | apply path_tail_separated].
Qed.

Lemma path_of_inj p q b : path_of p b → path_of q b → p = q.
Proof.
  intros Hp Hq. apply (anti_symm prefix).
  - apply (inside_path p q b b Hp Hq), inside_refl.
  - apply (inside_path q p b b Hq Hp), inside_refl.
Qed.

Lemma inside_antisymm p q a b :
  path_of p a → path_of q b → inside a b = true → inside b a = true → a = b.
Proof.
  intros Hp Hq Hab Hba. apply (inside_path p q a b Hp Hq) in Hab.
  apply (inside_path q p b a Hq Hp) in Hba.
  assert (p = q) as -> by by apply (anti_symm prefix). by destruct Hp as [_ ->], Hq as [_ ->].
Qed.

(** Two ids that contain a third are comparable. *)
Lemma inside_comparable p q r a b c :
  path_of p a → path_of q b → path_of r c → inside a c = true → inside b c = true →
  inside a b = true ∨ inside b a = true.
Proof.
  intros Hp Hq Hr Ha Hb. apply (inside_path p r a c Hp Hr) in Ha.
  apply (inside_path q r b c Hq Hr) in Hb.
  destruct (prefix_weak_total p q r Ha Hb); [left; by eapply inside_path | right; by eapply inside_path].
Qed.

Lemma namespaced_eq p q a b :
  path_of p a → path_of q b → path_of (p ++ q) (namespaced a b).
Proof.
  intros [[Hp Fp] ->] [[Hq Fq] ->]. split; [split|].
  - by destruct p.
  - by apply Forall_app.
  - rewrite join_path_app by done. by destruct q.
Qed.

Lemma inside_namespaced a b : inside a (namespaced a b) = true.
Proof. apply inside_true. exists ("::" +:+ b). split; [done|]. right. by eexists. Qed.

Lemma inside_namespaced_iff a b c :
  inside (namespaced a b) (namespaced a c) = inside b c.
Proof.
  apply eq_true_iff_eq. rewrite !inside_true. unfold namespaced. split.
  - intros (s & H & Hs). rewrite !sapp_assoc in H.
    apply sapp_inv_head, (sapp_inv_head "::") in H. eauto.
  - intros (s & -> & Hs). exists s. by rewrite !sapp_assoc.
Qed.

Lemma not_inside_shorter a b : inside (namespaced a b) a = false.
Proof.
  apply not_true_is_false. intros (s & H%(f_equal slen) & _)%inside_true.
  unfold namespaced in H. rewrite !slen_app in H. unfold slen in H at 3. simpl in H. lia.
Qed.

Lemma colon_free_path s : colon_free s = true → path_of [s] s.
Proof. intros H. split; [|done]. split; [done|]. by apply Forall_singleton. Qed.

Lemma gate_path : path_of ["gate"] "gate".
Proof. by apply colon_free_path. Qed.

(** [matrix-1], [matrix-2], ... *)
Lemma colon_free_app a b : colon_free (a +:+ b) = colon_free a && colon_free b.
Proof.
  unfold colon_free. induction a as [|c a IH]; [done|]. rewrite sapp_cons. simpl.
  by rewrite IH, andb_assoc.
Qed.

Lemma prefix_snoc_inv {A} (p q : list A) x : p `prefix_of` q ++ [x] → p = q ++ [x] ∨ p `prefix_of` q.
Proof.
  intros [k Hk]. destruct k as [|y k _] using rev_ind; [left; by rewrite app_nil_r in Hk|].
  rewrite app_assoc in Hk. apply app_inj_tail in Hk as [-> _]. right. by exists k.
Qed.

Lemma inside_slen a b : inside a b = true → slen a ≤ slen b.
Proof. intros (s & -> & _)%inside_true. rewrite slen_app. lia. Qed.

Lemma slen_namespaced a b : slen a < slen (namespaced a b).
Proof. unfold namespaced. rewrite !slen_app. unfold slen at 3. simpl. lia. Qed.

(** * The scopes of a plan

    The structure that linking gives a plan and that the scheduler relies on:
    base ids are paths, the jobs of a call form a closed name space behind its
    gate, and a matrix of calls is a result over such name spaces.  The
    structure survives every replacement of a call by its expansion, at link
    time and at run time. *)

Section scopes.
Context `{VT : ValueTypes}.
Implicit Types jobs : list PlannedJob.

(** [dependency] is needed by a job with base id [base_id]. *)
Definition needed jobs (dependency base_id : string) : Prop :=
  ∃ j, j ∈ jobs ∧ pj_base_id j = base_id ∧ dependency ∈ pj_needs j.

Definition is_gate (j : PlannedJob) : Prop := pj_virtual_job j = Some ReusableGate.

Definition is_result (j : PlannedJob) : Prop :=
  ∃ public outputs, pj_virtual_job j = Some (ReusableResult public outputs).

Definition is_dynamic (j : PlannedJob) : Prop :=
  ∃ plan inputs secrets outputs, pj_virtual_job j = Some (ReusableDynamicCall plan inputs secrets outputs).

(** The jobs of the call [i]: a gate, a result, and every other need of the jobs
    inside is inside too or a need of the gate. *)
Record call_scope jobs (i : string) : Prop := {
  cl_gate : ∃ g, g ∈ jobs ∧ pj_base_id g = gate_id i ∧ is_gate g;
  cl_result : ∃ r, r ∈ jobs ∧ pj_base_id r = i ∧ is_result r;
  cl_needs g j d : g ∈ jobs → pj_base_id g = gate_id i → j ∈ jobs →
    inside i (pj_base_id j) = true → pj_base_id j ≠ gate_id i → d ∈ pj_needs j →
    inside i d = true ∨ d ∈ pj_needs g;
}.

(** A matrix of calls: each invocation is a child of the result and a scope. *)
Definition matrix_scope jobs (r : PlannedJob) (invocations : list string) (max_parallel : Z) : Prop :=
  (1 ≤ max_parallel)%Z ∧
  ∀ i, i ∈ invocations → i ∈ pj_needs r ∧
    (∃ m, colon_free m = true ∧ i = namespaced (pj_base_id r) m) ∧ call_scope jobs i.

(** Jobs that may need, outside themselves, the ids in [outer]. *)
Record scoped (outer : list string) jobs : Prop := {
  sc_path j : j ∈ jobs → ∃ p, path_of p (pj_base_id j);
  sc_uniform j k : j ∈ jobs → k ∈ jobs → pj_base_id j = pj_base_id k →
    pj_needs j = pj_needs k ∧ pj_virtual_job j = pj_virtual_job k;
  sc_closed j d : j ∈ jobs → d ∈ pj_needs j → d ∈ base_ids jobs ∨ d ∈ outer;
  sc_outer d : d ∈ outer → d ∉ base_ids jobs;
  sc_acyclic b : Acc (needed jobs) b;
  sc_matrix r invocations mp ff : r ∈ jobs →
    pj_virtual_job r = Some (ReusableMatrixResult invocations mp ff) → matrix_scope jobs r invocations mp;
  sc_result r public outputs : r ∈ jobs → pj_virtual_job r = Some (ReusableResult public outputs) →
    ∀ a d, public !! a = Some d → d ∈ pj_needs r;
  sc_leaf c k : c ∈ jobs → is_dynamic c → k ∈ jobs →
    inside (pj_base_id c) (pj_base_id k) = true → pj_base_id k = pj_base_id c;
}.

(** No job would be taken for the gate of the call it is expanded in. *)
Definition no_gate jobs : Prop := ∀ j, j ∈ jobs → inside "gate" (pj_base_id j) = false.

(** Some job carries no name space: the result of a call will wait for it. *)
Definition has_top jobs : Prop := ∃ j, j ∈ jobs ∧ contains "::" (pj_base_id j) = false.

(** Inside [i] only the gate can start before the gate has completed. *)
Definition behind_gate jobs (i : string) : Prop :=
  ∀ j, j ∈ jobs → inside i (pj_base_id j) = true → pj_base_id j ≠ gate_id i →
  ∃ d, d ∈ pj_needs j ∧ inside i d = true.

Definition guarded jobs : Prop :=
  ∀ r invocations mp ff, r ∈ jobs →
  pj_virtual_job r = Some (ReusableMatrixResult invocations mp ff) →
  ∀ i, i ∈ invocations → behind_gate jobs i.

(** A plan that calls can expand. *)
Record callable jobs : Prop := {
  ca_gate : no_gate jobs;
  ca_top : has_top jobs;
  ca_guarded : guarded jobs;
  ca_ok : plan_ok jobs;
}.

(** The same, and of every plan a dynamic call carries. *)
Inductive well_scoped : list string → list PlannedJob → Prop :=
  | mk_well_scoped outer jobs :
      scoped outer jobs →
      (∀ j plan inputs secrets outputs, j ∈ jobs →
         pj_virtual_job j = Some (ReusableDynamicCall plan inputs secrets outputs) →
         well_scoped [] (ep_jobs plan) ∧ callable (ep_jobs plan)) →
      well_scoped outer jobs.

(** Only membership matters. *)
Definition same_jobs (l k : list PlannedJob) : Prop := ∀ j, j ∈ l ↔ j ∈ k.

#[export] Instance same_jobs_equivalence : Equivalence same_jobs.
Proof.
  split; [by intros l j | intros l k H j; by rewrite (H j) |].
  intros l k m H1 H2 j. by rewrite (H1 j), (H2 j).
Qed.

#[export] Instance elem_of_same_jobs : Proper (eq ==> same_jobs ==> iff) (∈@{list PlannedJob}).
Proof. intros j ? <- l k H. apply H. Qed.

#[export] Instance base_ids_same_jobs : Proper (same_jobs ==> eq) (@base_ids VT PlannedVirtualJob).
Proof.
  intros l k H. apply leibniz_equiv. intros b. rewrite !elem_of_base_ids.
  split; intros (j & Hj & Hb); exists j; split; [by apply H | done | by apply H | done].
Qed.

Lemma Acc_mono {A} (R S : A → A → Prop) x : (∀ a b, S a b → R a b) → Acc R x → Acc S x.
Proof. intros H. induction 1 as [x _ IH]. constructor. auto. Qed.

Lemma call_scope_mono l k i :
  same_jobs l k → call_scope l i → call_scope k i.
Proof.
  intros H [(g & Hg & ?) (r & Hr & ?) Hn]. split.
  - exists g. by rewrite <-H.
  - exists r. by rewrite <-H.
  - intros g' j d Hg'%H Hb Hj%H. by apply Hn.
Qed.

Lemma guarded_mono l k : same_jobs l k → guarded l → guarded k.
Proof.
  intros H Hg r invs mp ff Hr%H Hv i Hi j Hj%H. by apply (Hg r invs mp ff).
Qed.

Lemma scoped_mono outer l k : same_jobs l k → scoped outer l → scoped outer k.
Proof.
  intros H [Hp Hu Hc Ho Ha Hm Hr Hl]. split.
  - intros j Hj%H. by apply Hp.
  - intros j j' Hj%H Hj'%H. by apply Hu.
  - intros j d Hj%H. rewrite <-H. by apply Hc.
  - intros d. rewrite <-H. apply Ho.
  - intros b. eapply Acc_mono, Ha. intros x y (j & Hj & ?). exists j. by rewrite H.
  - intros r invs mp ff Hin%H Hv.
    destruct (Hm r invs mp ff Hin Hv) as [? Hi]. split; [done|].
    intros i ?. destruct (Hi i) as (? & ? & ?); [done|]. split_and!; [done..|]. by eapply call_scope_mono.
  - intros r p o Hin%H. by apply Hr.
  - intros c j Hc' Hd Hj%H. apply Hl; [by apply H | done..].
Qed.

#[export] Instance well_scoped_same_jobs : Proper (eq ==> same_jobs ==> iff) well_scoped.
Proof.
  intros o ? <- l k H. split; inversion_clear 1 as [? ? Hs Hd]; constructor.
  - by eapply scoped_mono.
  - intros j plan i s out Hj%H. by apply Hd.
  - eapply scoped_mono, Hs. by symmetry.
  - intros j plan i s out Hj%H. by apply Hd.
Qed.

Lemma well_scoped_scoped outer jobs : well_scoped outer jobs → scoped outer jobs.
Proof. by inversion 1. Qed.

(** The two shapes of jobs a call is before it is expanded. *)
Definition is_call (j : PlannedJob) : Prop := pj_virtual_job j = None ∨ is_dynamic j.

Lemma is_call_not_gate j : is_call j → is_gate j → False.
Proof. unfold is_gate. intros [H | (? & ? & ? & ? & H)]; congruence. Qed.

Lemma is_call_not_result j : is_call j → is_result j → False.
Proof. intros [H | (? & ? & ? & ? & H)] (? & ? & ?); congruence. Qed.

Lemma scoped_need_path jobs j d : scoped [] jobs → j ∈ jobs → d ∈ pj_needs j → ∃ p, path_of p d.
Proof.
  intros Hs Hj Hd. destruct (sc_closed _ _ Hs j d Hj Hd) as [(k & Hk & <-)%elem_of_base_ids | ?%not_elem_of_nil];
    [by eapply sc_path | done].
Qed.
End scopes.

(** ** Replacing a call by its expansion *)

Section splice.
Context `{VT : ValueTypes}.
Context (jobs E : list PlannedJob) (call : PlannedJob).
Hypothesis Hjobs : scoped [] jobs.
Hypothesis Hcall : call ∈ jobs.
Hypothesis Hkind : is_call call.
Hypothesis Hleaf : ∀ k, k ∈ jobs → inside (pj_base_id call) (pj_base_id k) = true →
  pj_base_id k = pj_base_id call.
Hypothesis HE : scoped (pj_needs call) E.
Hypothesis Hinside : ∀ e, e ∈ E → inside (pj_base_id call) (pj_base_id e) = true.
Hypothesis Hresult : pj_base_id call ∈ base_ids E.

Definition spliced : list PlannedJob :=
  base.filter (λ j, pj_base_id j ≠ pj_base_id call) jobs ++ E.

Lemma elem_of_spliced j :
  j ∈ spliced ↔ (j ∈ jobs ∧ pj_base_id j ≠ pj_base_id call) ∨ j ∈ E.
Proof. unfold spliced. rewrite elem_of_app, list_elem_of_filter. naive_solver. Qed.

Lemma spliced_disjoint j e :
  j ∈ jobs → pj_base_id j ≠ pj_base_id call → e ∈ E → pj_base_id j ≠ pj_base_id e.
Proof.
  intros Hj Hne He Heq. apply Hne, Hleaf; [done|]. rewrite Heq. by apply Hinside.
Qed.

Lemma spliced_not_below j e :
  j ∈ jobs → pj_base_id j ≠ pj_base_id call → e ∈ E →
  inside (pj_base_id e) (pj_base_id j) = true → False.
Proof.
  intros Hj Hne He Hin. apply Hne, Hleaf; [done|]. eapply inside_trans; [by apply Hinside | done].
Qed.

Lemma spliced_above j e :
  j ∈ jobs → pj_base_id j ≠ pj_base_id call → e ∈ E →
  inside (pj_base_id j) (pj_base_id e) = true → inside (pj_base_id j) (pj_base_id call) = true.
Proof.
  intros Hj Hne He Hin.
  destruct (sc_path _ _ Hjobs j Hj) as [p Hp]. destruct (sc_path _ _ Hjobs call Hcall) as [q Hq].
  destruct (sc_path _ _ HE e He) as [r Hr].
  destruct (inside_comparable _ _ _ _ _ _ Hp Hq Hr Hin (Hinside e He)) as [?|Hb]; [done|].
  by destruct Hne; apply Hleaf.
Qed.

Lemma base_ids_spliced b : b ∈ base_ids jobs → b ∈ base_ids spliced.
Proof.
  intros (j & Hj & <-)%elem_of_base_ids.
  destruct (decide (pj_base_id j = pj_base_id call)) as [->|Hne].
  - apply elem_of_base_ids in Hresult as (e & He & <-). apply elem_of_base_ids. exists e.
    split; [apply elem_of_spliced; auto | done].
  - apply elem_of_base_ids. exists j. split; [apply elem_of_spliced; auto | done].
Qed.

(** *** The needs stay acyclic *)

Lemma spliced_acyclic_inside b :
  (∀ d, d ∈ pj_needs call → Acc (needed spliced) d) → b ∈ base_ids E → Acc (needed spliced) b.
Proof.
  intros Hneeds. induction (sc_acyclic _ _ HE b) as [b _ IH]. intros (e & He & <-)%elem_of_base_ids.
  constructor. intros d (j & Hj & Hb & Hd). apply elem_of_spliced in Hj as [[Hj Hne] | Hj].
  - by destruct (spliced_disjoint j e Hj Hne He).
  - destruct (sc_closed _ _ HE j d Hj Hd) as [Hin | Hin]; [|by apply Hneeds].
    apply IH; [by exists j | done].
Qed.

Lemma spliced_acyclic_outside b :
  b ∉ base_ids E ∨ b = pj_base_id call → Acc (needed spliced) b.
Proof.
  induction (sc_acyclic _ _ Hjobs b) as [b _ IH]. intros Hb.
  destruct (decide (b = pj_base_id call)) as [->|Hne].
  - apply spliced_acyclic_inside; [|done]. intros d Hd. apply IH; [by exists call|].
    left. by apply (sc_outer _ _ HE).
  - destruct Hb as [Hb | ?]; [|done]. constructor. intros d (j & Hj & Hbj & Hd).
    apply elem_of_spliced in Hj as [[Hj Hjne] | Hj].
    + apply IH; [by exists j|].
      destruct (sc_closed _ _ Hjobs j d Hj Hd) as [(k & Hk & <-)%elem_of_base_ids | ?%not_elem_of_nil]; [|done].
      destruct (decide (pj_base_id k = pj_base_id call)) as [?|Hkne]; [by right | left].
      intros (e & He & Heq)%elem_of_base_ids. by apply (spliced_disjoint k e Hk Hkne He).
    + destruct Hb. apply elem_of_base_ids. eauto.
Qed.

Lemma spliced_acyclic b : Acc (needed spliced) b.
Proof.
  destruct (decide (b ∈ base_ids E)).
  - apply spliced_acyclic_inside; [|done]. intros d Hd. apply spliced_acyclic_outside. left.
    by apply (sc_outer _ _ HE).
  - apply spliced_acyclic_outside. by left.
Qed.

(** *** Scopes *)

Lemma spliced_kept k :
  k ∈ jobs → is_gate k ∨ is_result k → pj_base_id k ≠ pj_base_id call.
Proof.
  intros Hk Hv Heq. destruct (sc_uniform _ _ Hjobs k call Hk Hcall Heq) as [_ Hv'].
  destruct Hv as [Hv | (? & ? & Hv)].
  - apply (is_call_not_gate call Hkind). unfold is_gate in *. congruence.
  - apply (is_call_not_result call Hkind). eexists _, _. by rewrite <-Hv', Hv.
Qed.

Lemma spliced_old_scope i : call_scope jobs i → call_scope spliced i.
Proof.
  intros [(g0 & Hg0 & Hgb & Hgv) (r0 & Hr0 & Hrb & Hrv) Hn].
  pose proof (spliced_kept g0 Hg0 (or_introl Hgv)) as Hgne.
  pose proof (spliced_kept r0 Hr0 (or_intror Hrv)) as Hrne. split.
  - exists g0. split_and!; [apply elem_of_spliced; auto | done..].
  - exists r0. split_and!; [apply elem_of_spliced; auto | done..].
  - intros g j d Hg Hb Hj Hij Hjg Hd. apply elem_of_spliced in Hg as [[Hg _] | Hg].
    2: { destruct (spliced_disjoint g0 g Hg0 Hgne Hg). by rewrite Hb. }
    apply elem_of_spliced in Hj as [[Hj _] | Hj]; [by eapply Hn|].
    assert (inside i (pj_base_id call) = true) as Hic.
    { rewrite <-Hrb in Hij |- *. by apply (spliced_above r0 j). }
    destruct (sc_closed _ _ HE j d Hj Hd) as [(e & He & <-)%elem_of_base_ids | Hcd].
    + left. eapply inside_trans; [done | by apply Hinside].
    + apply (Hn g call d Hg Hb Hcall Hic); [|done]. congruence.
Qed.

Lemma spliced_new_scope i : call_scope E i → call_scope spliced i.
Proof.
  intros [(g0 & Hg0 & Hgb & Hgv) (r0 & Hr0 & Hrb & Hrv) Hn]. split.
  - exists g0. split_and!; [apply elem_of_spliced; auto | done..].
  - exists r0. split_and!; [apply elem_of_spliced; auto | done..].
  - intros g j d Hg Hb Hj Hij Hjg Hd. apply elem_of_spliced in Hg as [[Hg Hne] | Hg].
    { destruct (spliced_disjoint g g0 Hg Hne Hg0). by rewrite Hgb. }
    apply elem_of_spliced in Hj as [[Hj Hne] | Hj]; [|by eapply Hn].
    exfalso. rewrite <-Hrb in Hij. by apply (spliced_not_below j r0).
Qed.

Lemma spliced_scoped : scoped [] spliced.
Proof.
  split.
  - intros j [[Hj _] | Hj]%elem_of_spliced; [by apply (sc_path _ _ Hjobs) | by apply (sc_path _ _ HE)].
  - intros j k [[Hj Hjn] | Hj]%elem_of_spliced [[Hk Hkn] | Hk]%elem_of_spliced Heq.
    + by apply (sc_uniform _ _ Hjobs).
    + by destruct (spliced_disjoint j k Hj Hjn Hk).
    + by destruct (spliced_disjoint k j Hk Hkn Hj).
    + by apply (sc_uniform _ _ HE).
  - intros j d [[Hj _] | Hj]%elem_of_spliced Hd; left.
    + apply base_ids_spliced. by destruct (sc_closed _ _ Hjobs j d Hj Hd) as [?|?%not_elem_of_nil].
    + destruct (sc_closed _ _ HE j d Hj Hd) as [(e & He & <-)%elem_of_base_ids | Hcd].
      * apply elem_of_base_ids. exists e. split; [apply elem_of_spliced; auto | done].
      * apply base_ids_spliced.
        by destruct (sc_closed _ _ Hjobs call d Hcall Hcd) as [?|?%not_elem_of_nil].
  - by intros d ?%not_elem_of_nil.
  - apply spliced_acyclic.
  - intros r invs mp ff [[Hr _] | Hr]%elem_of_spliced Hv.
    + destruct (sc_matrix _ _ Hjobs r invs mp ff Hr Hv) as [Hmp Hi]. split; [done|].
      intros i Hin. destruct (Hi i Hin) as (? & ? & ?). split_and!; [done..|].
      by apply spliced_old_scope.
    + destruct (sc_matrix _ _ HE r invs mp ff Hr Hv) as [Hmp Hi]. split; [done|].
      intros i Hin. destruct (Hi i Hin) as (? & ? & ?). split_and!; [done..|].
      by apply spliced_new_scope.
  - intros r p o [[Hr _] | Hr]%elem_of_spliced; [by apply (sc_result _ _ Hjobs r p o) | by apply (sc_result _ _ HE r p o)].
  - intros c k [[Hc Hcn] | Hc]%elem_of_spliced Hd [[Hk Hkn] | Hk]%elem_of_spliced Hin.
    + by eapply (sc_leaf _ _ Hjobs).
    + exfalso. apply Hcn. symmetry. eapply (sc_leaf _ _ Hjobs c); [done..|]. by apply (spliced_above c k).
    + exfalso. by apply (spliced_not_below k c).
    + by eapply (sc_leaf _ _ HE).
Qed.

(** What starts nothing behind a gate: every job of the expansion needs another
    one, or what the call needed. *)
Lemma spliced_guarded :
  guarded jobs → guarded E →
  (∀ e, e ∈ E → pj_needs e = pj_needs call ∨ ∃ d, d ∈ pj_needs e ∧ d ∈ base_ids E) → guarded spliced.
Proof.
  intros Hg HgE Hneed r invs mp ff [[Hr Hne] | Hr]%elem_of_spliced Hv i Hi j Hj Hij Hjg.
  - destruct (sc_matrix _ _ Hjobs r invs mp ff Hr Hv) as [_ Hm].
    destruct (Hm i Hi) as (_ & _ & [(g0 & Hg0 & Hgb & Hgv) (r0 & Hr0 & Hrb & Hrv) _]).
    pose proof (spliced_kept g0 Hg0 (or_introl Hgv)) as Hgne.
    pose proof (spliced_kept r0 Hr0 (or_intror Hrv)) as Hrne.
    apply elem_of_spliced in Hj as [[Hj _] | Hj]; [by apply (Hg r invs mp ff)|].
    assert (inside i (pj_base_id call) = true) as Hic.
    { rewrite <-Hrb in Hij |- *. by apply (spliced_above r0 j). }
    destruct (Hneed j Hj) as [-> | (d & Hd & (e & He & <-)%elem_of_base_ids)].
    + apply (Hg r invs mp ff Hr Hv i Hi call Hcall Hic). congruence.
    + exists (pj_base_id e). split; [done|]. eapply inside_trans; [done | by apply Hinside].
  - destruct (sc_matrix _ _ HE r invs mp ff Hr Hv) as [_ Hm].
    destruct (Hm i Hi) as (_ & _ & [_ (r0 & Hr0 & Hrb & Hrv) _]).
    apply elem_of_spliced in Hj as [[Hj Hne] | Hj]; [|by apply (HgE r invs mp ff)].
    exfalso. rewrite <-Hrb in Hij. by apply (spliced_not_below j r0).
Qed.
End splice.

Lemma splice_well_scoped `{VT : ValueTypes} (jobs E : list PlannedJob) call :
  well_scoped [] jobs → call ∈ jobs → is_call call →
  (∀ k, k ∈ jobs → inside (pj_base_id call) (pj_base_id k) = true → pj_base_id k = pj_base_id call) →
  well_scoped (pj_needs call) E → (∀ e, e ∈ E → inside (pj_base_id call) (pj_base_id e) = true) →
  pj_base_id call ∈ base_ids E → well_scoped [] (spliced jobs E call).
Proof.
  inversion_clear 1 as [? ? Hs Hd]. intros Hc Hk Hleaf HE Hin Hr.
  inversion_clear HE as [? ? HsE HdE]. constructor; [by apply spliced_scoped|].
  intros j plan i s o [[Hj _] | Hj]%elem_of_spliced Hv; [by eapply Hd | by eapply HdE].
Qed.
