(* ===== verification/ScopedExpansion.v ===== *)
(** * Expansions keep the scopes

    The expansion of a call is scoped, given that the called plan is, and so is
    the expansion of a matrix of calls. *)

From S2P Require Import Prelude RustStr OrdMap Yaml Workflow Dependencies Expansion Instances Scopes.

Section names.
Context `{VT : ValueTypes}.

Lemma namespaced_assoc a b c : namespaced a (namespaced b c) = namespaced (namespaced a b) c.
Proof. unfold namespaced. by rewrite !sapp_assoc. Qed.

Lemma gate_id_namespaced a b : gate_id (namespaced a b) = namespaced a (gate_id b).
Proof. unfold gate_id. by rewrite namespaced_assoc. Qed.

Lemma inside_gate_inv p b : path_of p b → inside b "gate" = true → b = "gate".
Proof.
  intros Hp Hin. apply (inside_path p ["gate"] b "gate" Hp gate_path) in Hin.
  destruct Hp as [[Hne _] ->]. destruct p as [|a p]; [done|].
  destruct Hin as [k Hk]. cbn [app] in Hk. injection Hk as -> Hk.
  symmetry in Hk. apply app_eq_nil in Hk as [-> _]. done.
Qed.

Lemma Acc_not_needed (jobs : list PlannedJob) b : b ∉ base_ids jobs → Acc (needed jobs) b.
Proof.
  intros Hb. constructor. intros d (j & Hj & Hbj & _). destruct Hb. apply elem_of_base_ids. eauto.
Qed.
End names.

Section expansion.
Context `{VT : ValueTypes}.
Context (job_id : string) (path : list string) (placeholder : PlannedJob) (plan : ExecutionPlan).
Context (inputs : gmap string PlannedReusableInput) (secrets : PlannedReusableSecretScope).
Context (outputs : gmap string string).
Hypothesis Hpath : path_of path job_id.
Hypothesis Hplan : scoped [] (ep_jobs plan).
Hypothesis Hgate : no_gate (ep_jobs plan).
Hypothesis Houter : ∀ d, d ∈ pj_needs placeholder → inside job_id d = false.

Let E : list PlannedJob := expansion job_id placeholder plan inputs secrets outputs.
Let q : PlannedJob → PlannedJob :=
  qualified_job job_id placeholder (cs_id <$> invocation_scopes job_id placeholder plan inputs)
    (called_input_scopes placeholder inputs) secrets.

(** A job of the expansion: the gate, a called job, the result. *)
Inductive expanded (j : PlannedJob) : Prop :=
  | expanded_gate : pj_base_id j = gate_id job_id → pj_needs j = pj_needs placeholder → is_gate j →
      expanded j
  | expanded_called k : k ∈ ep_jobs plan → j = q k → expanded j
  | expanded_result : pj_base_id j = job_id →
      (∀ d, d ∈ pj_needs j → ∃ b, b ∈ base_ids (ep_jobs plan) ∧ d = namespaced job_id b) →
      (∃ public, pj_virtual_job j = Some (ReusableResult public outputs) ∧
                 ∀ a d, public !! a = Some d → d ∈ pj_needs j) → expanded j.

Lemma expansion_gate_in : ∃ g, g ∈ E ∧ pj_base_id g = gate_id job_id ∧ is_gate g.
Proof. eexists. split; [apply list_elem_of_here | done]. Qed.

Lemma expansion_called_in k : k ∈ ep_jobs plan → q k ∈ E.
Proof.
  intros Hk. apply list_elem_of_further, elem_of_app. left. by apply list_elem_of_fmap_2.
Qed.

Lemma expansion_result_in : ∃ r, r ∈ E ∧ pj_base_id r = job_id ∧ is_result r.
Proof.
  eexists. split; [apply list_elem_of_further, elem_of_app; right; apply list_elem_of_here|].
  split; [done|]. by eexists _, _.
Qed.

Lemma elem_of_expansion j : j ∈ E → expanded j.
Proof.
  intros [-> | [(k & -> & Hk)%list_elem_of_fmap | ->%list_elem_of_singleton]%elem_of_app]%elem_of_cons.
  - by apply expanded_gate.
  - by eapply expanded_called.
  - apply expanded_result; simpl; [done| |].
    + intros d (a & Ha)%elem_of_btree_values. apply public_aliases_lookup in Ha as (Ha & _ & ->). eauto.
    + eexists. split; [done|]. intros a d Ha. apply elem_of_btree_values. eauto.
Qed.

Lemma expansion_inside j : j ∈ E → inside job_id (pj_base_id j) = true.
Proof.
  intros [Hb _ _ | k _ -> | Hb _ _]%elem_of_expansion; [rewrite Hb | | rewrite Hb].
  - apply inside_namespaced.
  - apply inside_namespaced.
  - apply inside_refl.
Qed.

Lemma called_not_gate k : k ∈ ep_jobs plan → pj_base_id k ≠ "gate".
Proof. intros Hk Heq. specialize (Hgate k Hk). by rewrite Heq, inside_refl in Hgate. Qed.

Lemma called_not_above_gate k : k ∈ ep_jobs plan → inside (pj_base_id k) "gate" = false.
Proof.
  intros Hk. apply not_true_is_false. intros Hin. destruct (sc_path _ _ Hplan k Hk) as [p Hp].
  apply (called_not_gate k Hk). by eapply inside_gate_inv.
Qed.

Lemma expansion_uniform j k :
  j ∈ E → k ∈ E → pj_base_id j = pj_base_id k →
  pj_needs j = pj_needs k ∧ pj_virtual_job j = pj_virtual_job k.
Proof.
  assert (∀ a, a ∈ ep_jobs plan → gate_id job_id ≠ pj_base_id (q a)) as Hga.
  { intros a Ha H. apply namespaced_inj in H. by apply (called_not_gate a Ha). }
  intros [-> | [(a & -> & Ha)%list_elem_of_fmap | ->%list_elem_of_singleton]%elem_of_app]%elem_of_cons
         [-> | [(b & -> & Hb)%list_elem_of_fmap | ->%list_elem_of_singleton]%elem_of_app]%elem_of_cons Heq;
    try done.
  - by destruct (Hga b Hb).
  - by apply namespaced_longer in Heq.
  - by destruct (Hga a Ha).
  - apply namespaced_inj in Heq. destruct (sc_uniform _ _ Hplan a b Ha Hb Heq) as [Hn Hv].
    simpl. by rewrite Hn, Hv.
  - by apply namespaced_longer in Heq.
  - symmetry in Heq. by apply namespaced_longer in Heq.
  - symmetry in Heq. by apply namespaced_longer in Heq.
Qed.

Lemma expansion_closed j d : j ∈ E → d ∈ pj_needs j → d ∈ base_ids E ∨ d ∈ pj_needs placeholder.
Proof.
  intros [_ Hn _ | k Hk -> | _ Hn _]%elem_of_expansion Hd.
  - right. by rewrite <-Hn.
  - left. apply elem_of_base_ids_expansion. simpl in Hd.
    apply elem_of_app in Hd as [(b & -> & Hb)%list_elem_of_fmap | ->%list_elem_of_singleton]; [|auto].
    right; right. exists b. split; [|done].
    by destruct (sc_closed _ _ Hplan k b Hk Hb) as [?|?%not_elem_of_nil].
  - left. apply elem_of_base_ids_expansion. destruct (Hn d Hd) as (b & ? & ->). eauto.
Qed.

Lemma expansion_outer d : d ∈ pj_needs placeholder → d ∉ base_ids E.
Proof.
  intros Hd (j & Hj & <-)%elem_of_base_ids. apply Houter in Hd. by rewrite expansion_inside in Hd.
Qed.

Lemma expansion_acyclic b : Acc (needed E) b.
Proof.
  assert (∀ d, d ∈ pj_needs placeholder → Acc (needed E) d) as Hout.
  { intros d Hd. by apply Acc_not_needed, expansion_outer. }
  assert (Acc (needed E) (gate_id job_id)) as Hg.
  { constructor. intros d (j & Hj & Hb & Hd).
    apply elem_of_expansion in Hj as [_ Hn _ | k Hk -> | Hr _ _].
    - apply Hout. by rewrite <-Hn.
    - simpl in Hb. apply namespaced_inj in Hb. by apply called_not_gate in Hb.
    - rewrite Hr in Hb. symmetry in Hb. by apply namespaced_longer in Hb. }
  assert (∀ c, Acc (needed E) (namespaced job_id c)) as Hc.
  { intros c. induction (sc_acyclic _ _ Hplan c) as [c _ IH]. constructor. intros d (j & Hj & Hb & Hd).
    apply elem_of_expansion in Hj as [_ Hn _ | k Hk -> | Hr _ _].
    - apply Hout. by rewrite <-Hn.
    - simpl in Hb, Hd. apply namespaced_inj in Hb.
      apply elem_of_app in Hd as [(d' & -> & Hd')%list_elem_of_fmap | ->%list_elem_of_singleton]; [|done].
      apply IH. by exists k.
    - rewrite Hr in Hb. symmetry in Hb. by apply namespaced_longer in Hb. }
  destruct (decide (b ∈ base_ids E)) as [Hb|Hb]; [|by apply Acc_not_needed].
  apply elem_of_base_ids_expansion in Hb as [-> | [-> | (c & _ & ->)]]; [done| |done].
  constructor. intros d (j & Hj & Hb & Hd).
  apply elem_of_expansion in Hj as [Hr _ _ | k Hk -> | _ Hn _].
  - rewrite Hr in Hb. by apply namespaced_longer in Hb.
  - by apply namespaced_longer in Hb.
  - destruct (Hn d Hd) as (a & _ & ->). apply Hc.
Qed.

(** The scope of the call itself. *)
Lemma expansion_scope : call_scope E job_id.
Proof.
  split; [apply expansion_gate_in | apply expansion_result_in |].
  intros g j d Hg Hb Hj _ Hjg Hd.
  apply elem_of_expansion in Hj as [Hj _ _ | k Hk -> | _ Hn _]; [done| |].
  - left. simpl in Hd.
    apply elem_of_app in Hd as [(a & -> & _)%list_elem_of_fmap | ->%list_elem_of_singleton];
      apply inside_namespaced.
  - left. destruct (Hn d Hd) as (a & _ & ->). apply inside_namespaced.
Qed.

(** A scope of the called plan, under the name space of the call. *)
Lemma expansion_called_scope i : call_scope (ep_jobs plan) i → call_scope E (namespaced job_id i).
Proof.
  intros [(g0 & Hg0 & Hgb & Hgv) (r0 & Hr0 & Hrb & Hrv) Hn]. split.
  - exists (q g0). split_and!; [by apply expansion_called_in | simpl; by rewrite Hgb, gate_id_namespaced|].
    unfold is_gate. simpl. by rewrite Hgv.
  - exists (q r0). split_and!; [by apply expansion_called_in | simpl; by rewrite Hrb|].
    destruct Hrv as (p & o & Hv). eexists _, _. simpl. by rewrite Hv.
  - intros g j d Hg Hb Hj Hij Hjg Hd. rewrite gate_id_namespaced in Hb, Hjg.
    apply elem_of_expansion in Hg as [Hgg _ _ | g' Hg' -> | Hgg _ _].
    { rewrite Hgg in Hb. apply namespaced_inj in Hb. destruct (called_not_gate g0 Hg0). by rewrite Hgb. }
    2: { rewrite Hgg in Hb. symmetry in Hb. by apply namespaced_longer in Hb. }
    simpl in Hb. apply namespaced_inj in Hb.
    apply elem_of_expansion in Hj as [Hjb _ _ | j' Hj' -> | Hjb _ _].
    + rewrite Hjb in Hij. unfold gate_id in Hij. rewrite inside_namespaced_iff, <-Hrb in Hij.
      by rewrite called_not_above_gate in Hij.
    + simpl in Hij, Hjg, Hd |- *. rewrite inside_namespaced_iff in Hij.
      apply elem_of_app in Hd as [(d' & -> & Hd')%list_elem_of_fmap | ->%list_elem_of_singleton].
      * rewrite inside_namespaced_iff.
        destruct (Hn g' j' d' Hg' Hb Hj' Hij) as [?|?]; [congruence|done|by left|right].
        apply elem_of_app. left. by apply list_elem_of_fmap_2.
      * right. apply elem_of_app. right. apply list_elem_of_here.
    + rewrite Hjb in Hij. by rewrite not_inside_shorter in Hij.
Qed.

Lemma expansion_matrix r invocations mp ff :
  r ∈ E → pj_virtual_job r = Some (ReusableMatrixResult invocations mp ff) →
  matrix_scope E r invocations mp.
Proof.
  intros [_ _ Hv | k Hk -> | _ _ (p & Hv & _)]%elem_of_expansion Hr; unfold is_gate in *; [congruence| |congruence].
  simpl in Hr. destruct (pj_virtual_job k) as [[|? ?|invs0 mp0 ff0|? ? ? ?]|] eqn:Hv; try done.
  injection Hr as <- -> ->. destruct (sc_matrix _ _ Hplan k _ _ _ Hk Hv) as [Hmp Hi]. split; [done|].
  intros i (i0 & -> & Hi0)%list_elem_of_fmap. destruct (Hi i0 Hi0) as (Hneed & (m & Hm & Heq) & Hs). split_and!.
  - simpl. apply elem_of_app. left. by apply list_elem_of_fmap_2.
  - exists m. split; [done|]. simpl. by rewrite Heq, namespaced_assoc.
  - by apply expansion_called_scope.
Qed.

Lemma expansion_result r public outs :
  r ∈ E → pj_virtual_job r = Some (ReusableResult public outs) →
  ∀ a d, public !! a = Some d → d ∈ pj_needs r.
Proof.
  intros [_ _ Hv | k Hk -> | _ _ (p & Hv & Hp)]%elem_of_expansion Hr a d Ha; unfold is_gate in *;
    [congruence| |].
  - simpl in Hr. destruct (pj_virtual_job k) as [[|public0 outs0|? ? ?|? ? ? ?]|] eqn:Hv; try done.
    injection Hr as <- ->. rewrite lookup_fmap in Ha. apply fmap_Some in Ha as (d0 & Hd0 & ->).
    simpl. apply elem_of_app. left. apply list_elem_of_fmap_2. by eapply (sc_result _ _ Hplan).
  - apply (Hp a). congruence.
Qed.

Lemma expansion_leaf c k :
  c ∈ E → is_dynamic c → k ∈ E → inside (pj_base_id c) (pj_base_id k) = true →
  pj_base_id k = pj_base_id c.
Proof.
  intros [_ _ Hv | c' Hc' -> | _ _ (p & Hv & _)]%elem_of_expansion (? & ? & ? & ? & Hd) Hk Hin;
    unfold is_gate in *; [congruence| |congruence].
  simpl in Hd. destruct (pj_virtual_job c') as [[|? ?|? ? ?|pl i s o]|] eqn:Hv; try done.
  apply elem_of_expansion in Hk as [Hkb _ _ | k' Hk' -> | Hkb _ _].
  - rewrite Hkb in Hin. simpl in Hin. unfold gate_id in Hin. rewrite inside_namespaced_iff in Hin.
    by rewrite called_not_above_gate in Hin.
  - simpl in *. rewrite inside_namespaced_iff in Hin. f_equal.
    apply (sc_leaf _ _ Hplan c' k'); [done|by eexists _, _, _, _|done..].
  - rewrite Hkb in Hin. simpl in Hin. by rewrite not_inside_shorter in Hin.
Qed.

Lemma expansion_scoped : scoped (pj_needs placeholder) E.
Proof.
  split.
  - intros j [Hb _ _ | k Hk -> | Hb _ _]%elem_of_expansion.
    + rewrite Hb. eexists. apply namespaced_eq; [done | apply gate_path].
    + destruct (sc_path _ _ Hplan k Hk) as [p Hp]. eexists. simpl. by eapply namespaced_eq.
    + rewrite Hb. eauto.
  - apply expansion_uniform.
  - apply expansion_closed.
  - apply expansion_outer.
  - apply expansion_acyclic.
  - intros r invs mp ff. apply expansion_matrix.
  - apply expansion_result.
  - apply expansion_leaf.
Qed.

(** Every job of the expansion needs another one, except the gate, which needs
    what the call needed. *)
Lemma expansion_needs j :
  has_top (ep_jobs plan) → j ∈ E →
  pj_needs j = pj_needs placeholder ∧ pj_base_id j = gate_id job_id ∨
  ∃ d, d ∈ pj_needs j ∧ d ∈ base_ids E.
Proof.
  intros (t & Ht & Hc).
  intros [-> | [(k & -> & Hk)%list_elem_of_fmap | ->%list_elem_of_singleton]%elem_of_app]%elem_of_cons.
  - by left.
  - right. exists (gate_id job_id). split.
    + simpl. apply elem_of_app. right. apply list_elem_of_here.
    + apply elem_of_base_ids_expansion. auto.
  - right. exists (namespaced job_id (pj_base_id t)).
    assert (pj_base_id t ∈ base_ids (ep_jobs plan)) as Hb by (apply elem_of_base_ids; eauto).
    split; [|apply elem_of_base_ids_expansion; eauto]. simpl. apply elem_of_btree_values.
    exists (pj_base_id t). unfold public_aliases. apply map_lookup_filter_Some.
    split; [|done]. by rewrite lookup_call_aliases, bool_decide_true.
Qed.

Lemma expansion_behind : has_top (ep_jobs plan) → behind_gate E job_id.
Proof.
  intros Ht j Hj _ Hjg. destruct (expansion_needs j Ht Hj) as [[_ ?] | (d & Hd & (e & He & <-)%elem_of_base_ids)];
    [done|]. exists (pj_base_id e). split; [done | by apply expansion_inside].
Qed.

Lemma expansion_guarded : guarded (ep_jobs plan) → guarded E.
Proof.
  intros Hgu r invs mp ff Hr Hv i Hi j Hj Hij Hjg.
  apply elem_of_expansion in Hr as [_ _ Hv' | k Hk -> | _ _ (p & Hv' & _)]; unfold is_gate in *;
    [congruence| |congruence].
  simpl in Hv. destruct (pj_virtual_job k) as [[|? ?|invs0 mp0 ff0|? ? ? ?]|] eqn:Hkv; try done.
  injection Hv as <- -> ->. apply list_elem_of_fmap in Hi as (i0 & -> & Hi0).
  destruct (sc_matrix _ _ Hplan k _ _ _ Hk Hkv) as [_ Hm].
  destruct (Hm i0 Hi0) as (_ & _ & [_ (r0 & Hr0 & Hrb & _) _]).
  apply elem_of_expansion in Hj as [Hjb _ _ | j' Hj' -> | Hjb _ _].
  - rewrite Hjb in Hij. unfold gate_id in Hij. rewrite inside_namespaced_iff, <-Hrb in Hij.
    by rewrite called_not_above_gate in Hij.
  - simpl in Hij, Hjg |- *. rewrite inside_namespaced_iff in Hij. rewrite gate_id_namespaced in Hjg.
    destruct (Hgu k _ _ _ Hk Hkv i0 Hi0 j' Hj' Hij) as (d & Hd & Hid); [congruence|].
    exists (namespaced job_id d). rewrite inside_namespaced_iff. split; [|done].
    apply elem_of_app. left. by apply list_elem_of_fmap_2.
  - rewrite Hjb in Hij. by rewrite not_inside_shorter in Hij.
Qed.

(** The plans the jobs of an expansion carry are those of the called jobs. *)
Lemma expansion_carries j pl i s o :
  j ∈ E → pj_virtual_job j = Some (ReusableDynamicCall pl i s o) →
  ∃ k, k ∈ ep_jobs plan ∧ pj_virtual_job k = Some (ReusableDynamicCall pl i s o).
Proof.
  intros [_ _ Hv | k Hk -> | _ _ (p & Hv & _)]%elem_of_expansion Hd; unfold is_gate in *; [congruence| |congruence].
  exists k. split; [done|]. simpl in Hd. by destruct (pj_virtual_job k) as [[]|].
Qed.
End expansion.

Lemma expansion_well_scoped `{VT : ValueTypes} job_id path placeholder plan inputs secrets outputs :
  path_of path job_id → well_scoped [] (ep_jobs plan) → no_gate (ep_jobs plan) →
  (∀ d, d ∈ pj_needs placeholder → inside job_id d = false) →
  well_scoped (pj_needs placeholder) (expansion job_id placeholder plan inputs secrets outputs).
Proof.
  intros Hp Hplan Hg Ho. inversion_clear Hplan as [? ? Hs Hd]. constructor.
  - by eapply expansion_scoped.
  - intros j pl i s o Hj Hv. destruct (expansion_carries _ _ _ _ _ _ _ _ _ _ _ Hj Hv) as (k & Hk & Hkv).
    by eapply Hd.
Qed.

(** ** Matrices of calls *)

Section digits.

Lemma colon_free_pretty_N_go x s : colon_free s = true → colon_free (pretty_N_go x s) = true.
Proof.
  revert s. induction (N.lt_wf_0 x) as [x _ IH]. intros s Hs.
  destruct (decide (x = 0)%N) as [->|Hx]; [by rewrite pretty_N_go_0|].
  rewrite pretty_N_go_step by lia. apply IH; [apply N.div_lt; lia|].
  unfold colon_free. simpl. apply andb_true_intro. split; [|done].
  unfold pretty_N_char. destruct (x `mod` 10)%N as [|p]; [done|].
  do 4 (try destruct p as [p|p|]; try done).
Qed.

Lemma colon_free_pretty (n : nat) : colon_free (pretty n) = true.
Proof.
  change (pretty n) with (pretty (N.of_nat n)). unfold pretty, pretty_N.
  case_decide; [done|]. by apply colon_free_pretty_N_go.
Qed.

Definition matrix_name (index : nat) : string := "matrix-" +:+ pretty (S index).

Lemma matrix_invocation_eq job_id index :
  matrix_invocation job_id index = namespaced job_id (matrix_name index).
Proof. done. Qed.

Lemma colon_free_matrix_name index : colon_free (matrix_name index) = true.
Proof. unfold matrix_name. by rewrite colon_free_app, colon_free_pretty. Qed.

Lemma matrix_invocation_path path job_id index :
  path_of path job_id → path_of (path ++ [matrix_name index]) (matrix_invocation job_id index).
Proof.
  intros H. rewrite matrix_invocation_eq. apply namespaced_eq; [done|].
  apply colon_free_path, colon_free_matrix_name.
Qed.

Lemma inside_invocation job_id index : inside job_id (matrix_invocation job_id index) = true.
Proof. apply inside_namespaced. Qed.

(** Two invocations of a matrix have no job in common. *)
Lemma matrix_invocations_apart path job_id i k b :
  path_of path job_id → (∃ p, path_of p b) →
  inside (matrix_invocation job_id i) b = true → inside (matrix_invocation job_id k) b = true → i = k.
Proof.
  intros Hp [p Hb] Hi Hk.
  assert (∀ x y, inside (matrix_invocation job_id x) (matrix_invocation job_id y) = true → x = y) as Hxy.
  { intros x y Hin. apply (inside_path _ _ _ _ (matrix_invocation_path _ _ x Hp)
      (matrix_invocation_path _ _ y Hp)) in Hin.
    apply prefix_app_inv, prefix_cons_inv_1 in Hin. unfold matrix_name in Hin.
    apply sapp_inv_head in Hin. apply (inj pretty) in Hin. lia. }
  destruct (inside_comparable _ _ _ _ _ _ (matrix_invocation_path _ _ i Hp)
    (matrix_invocation_path _ _ k Hp) Hb Hi Hk) as [H|H]; [by apply Hxy | symmetry; by apply Hxy].
Qed.
End digits.

#[local] Opaque expansion matrix_invocation.

Section matrix.
Context `{VT : ValueTypes}.
Context (job_id : string) (path : list string) (template : PlannedJob) (instances : list PlannedJob).
Context (plan : ExecutionPlan) (inputs : gmap string PlannedReusableInput).
Context (secrets : PlannedReusableSecretScope) (outputs : gmap string string) (outer : list string).
Hypothesis Hpath : path_of path job_id.
Hypothesis Hplan : scoped [] (ep_jobs plan).
Hypothesis Hgate : no_gate (ep_jobs plan).
Hypothesis Hneeds : ∀ p, p ∈ instances → pj_needs p = outer.
Hypothesis Houter : ∀ d, d ∈ outer → inside job_id d = false.

Let M : list PlannedJob := matrix_expansion job_id template instances plan inputs secrets outputs.
Let invocations : list string := (λ entry, matrix_invocation job_id entry.1) <$> enumerate instances.
Let result : PlannedJob := reusable_matrix_result job_id template invocations.
Let E (entry : nat * PlannedJob) : list PlannedJob :=
  expansion (matrix_invocation job_id entry.1) entry.2 plan inputs secrets outputs.

Lemma enumerate_instance entry : entry ∈ enumerate instances → entry.2 ∈ instances.
Proof.
  destruct entry as [i p]. intros [_ Hl]%elem_of_enumerate_from. by eapply list_elem_of_lookup_2.
Qed.

Lemma enumerate_inj (x y : nat * PlannedJob) :
  x ∈ enumerate instances → y ∈ enumerate instances → x.1 = y.1 → x = y.
Proof.
  destruct x as [i p], y as [k p']. simpl.
  intros [_ Hx]%elem_of_enumerate_from [_ Hy]%elem_of_enumerate_from <-. congruence.
Qed.

Lemma elem_of_matrix_expansion j :
  j ∈ M ↔ (∃ entry, entry ∈ enumerate instances ∧ j ∈ E entry) ∨ j = result.
Proof.
  unfold M, matrix_expansion. rewrite elem_of_app, list_elem_of_singleton, list_elem_of_bind.
  naive_solver.
Qed.

Lemma invocation_scoped entry : entry ∈ enumerate instances → scoped outer (E entry).
Proof.
  intros Hin%enumerate_instance. rewrite <-(Hneeds _ Hin). unfold E.
  apply (expansion_scoped _ (path ++ [matrix_name entry.1]));
    [apply matrix_invocation_path, Hpath | exact Hplan | exact Hgate |].
  intros d. rewrite (Hneeds _ Hin). intros Hd%Houter. apply not_true_is_false. intros Hin'.
  assert (inside job_id d = true); [|congruence].
  eapply inside_trans, Hin'. apply inside_invocation.
Qed.

Lemma invocation_inside entry j :
  j ∈ E entry → inside (matrix_invocation job_id entry.1) (pj_base_id j) = true.
Proof. apply expansion_inside. Qed.

(** A job above or equal to one of another invocation would be of both. *)
Lemma invocation_cross x y j k :
  x ∈ enumerate instances → y ∈ enumerate instances → j ∈ E x → k ∈ E y →
  inside (pj_base_id j) (pj_base_id k) = true → x = y.
Proof.
  intros Hx Hy Hj Hk Hin. apply enumerate_inj; [done..|].
  apply (matrix_invocations_apart path job_id _ _ (pj_base_id k)); [done| | |by apply invocation_inside].
  - by eapply sc_path, Hk; apply invocation_scoped.
  - eapply inside_trans, Hin. by apply invocation_inside.
Qed.

Lemma result_not_inside entry j : j ∈ E entry → inside (pj_base_id j) job_id = false.
Proof.
  intros Hj. apply not_true_is_false. intros Hin.
  assert (inside (matrix_invocation job_id entry.1) job_id = true) as H.
  { eapply inside_trans, Hin. by apply invocation_inside. }
  by rewrite matrix_invocation_eq, not_inside_shorter in H.
Qed.

Lemma result_not_same entry j : j ∈ E entry → pj_base_id j ≠ job_id.
Proof. intros Hj%result_not_inside Heq. by rewrite Heq, inside_refl in Hj. Qed.

Lemma matrix_inside j : j ∈ M → inside job_id (pj_base_id j) = true.
Proof.
  intros [(x & _ & Hj) | ->]%elem_of_matrix_expansion; [|apply inside_refl].
  eapply inside_trans; [|by apply invocation_inside, Hj]. apply inside_invocation.
Qed.

Lemma base_ids_invocation entry b :
  entry ∈ enumerate instances → b ∈ base_ids (E entry) → b ∈ base_ids M.
Proof.
  intros Hx (j & Hj & <-)%elem_of_base_ids. apply elem_of_base_ids. exists j.
  split; [|done]. apply elem_of_matrix_expansion. eauto.
Qed.

Lemma matrix_scope_kept entry i :
  entry ∈ enumerate instances → call_scope (E entry) i → call_scope M i.
Proof.
  intros Hx [(g0 & Hg0 & Hgb & Hgv) (r0 & Hr0 & Hrb & Hrv) Hn]. split.
  - exists g0. split_and!; [apply elem_of_matrix_expansion; eauto | done..].
  - exists r0. split_and!; [apply elem_of_matrix_expansion; eauto | done..].
  - intros g j d Hg Hb Hj Hij Hjg Hd.
    apply elem_of_matrix_expansion in Hg as [(y & Hy & Hg) | ->].
    2: { destruct (result_not_same _ _ Hg0). by rewrite Hgb, <-Hb. }
    assert (entry = y) as <-.
    { apply (invocation_cross _ _ g0 g); [done..|]. rewrite Hgb, Hb. apply inside_refl. }
    apply elem_of_matrix_expansion in Hj as [(z & Hz & Hj) | ->].
    + assert (entry = z) as <-; [|by eapply Hn].
      apply (invocation_cross _ _ r0 j); [done..|]. by rewrite Hrb.
    + simpl in Hij. rewrite <-Hrb in Hij. by erewrite result_not_inside in Hij.
Qed.

Lemma matrix_acyclic b : Acc (needed M) b.
Proof.
  assert (∀ d, d ∈ outer → Acc (needed M) d) as Hout.
  { intros d Hd. apply Acc_not_needed. intros (j & Hj & <-)%elem_of_base_ids.
    apply Houter in Hd. by rewrite matrix_inside in Hd. }
  assert (∀ x, x ∈ enumerate instances → ∀ c, c ∈ base_ids (E x) → Acc (needed M) c) as Hc.
  { intros x Hx c. induction (sc_acyclic _ _ (invocation_scoped x Hx) c) as [c _ IH].
    intros (k & Hk & <-)%elem_of_base_ids. constructor. intros d (j & Hj & Hb & Hd).
    apply elem_of_matrix_expansion in Hj as [(y & Hy & Hj) | ->].
    - assert (x = y) as <-. { apply (invocation_cross _ _ k j); [done..|]. rewrite Hb. apply inside_refl. }
      destruct (sc_closed _ _ (invocation_scoped x Hx) j d Hj Hd) as [Hin | Hin]; [|by apply Hout].
      apply IH; [by exists j | done].
    - by destruct (result_not_same _ _ Hk). }
  destruct (decide (b ∈ base_ids M)) as [Hb|Hb]; [|by apply Acc_not_needed].
  apply elem_of_base_ids in Hb as (j & Hj & <-).
  apply elem_of_matrix_expansion in Hj as [(x & Hx & Hj) | ->].
  { apply (Hc x Hx). apply elem_of_base_ids. eauto. }
  constructor. intros d (k & Hk & Hb & Hd).
  apply elem_of_matrix_expansion in Hk as [(y & Hy & Hk) | ->].
  { by destruct (result_not_same _ _ Hk). }
  simpl in Hd. apply list_elem_of_fmap in Hd as (y & -> & Hy). apply (Hc y Hy).
  apply job_id_in_expansion.
Qed.

Lemma matrix_scoped : scoped outer M.
Proof.
  split.
  - intros j [(x & Hx & Hj) | ->]%elem_of_matrix_expansion; [|by exists path].
    by eapply sc_path, Hj; apply invocation_scoped.
  - intros j k [(x & Hx & Hj) | ->]%elem_of_matrix_expansion
      [(y & Hy & Hk) | ->]%elem_of_matrix_expansion Heq; [| | |done].
    + assert (x = y) as <-. { apply (invocation_cross _ _ j k); [done..|]. rewrite Heq. apply inside_refl. }
      by apply (sc_uniform _ _ (invocation_scoped x Hx)).
    + by destruct (result_not_same _ _ Hj).
    + symmetry in Heq. by destruct (result_not_same _ _ Hk).
  - intros j d [(x & Hx & Hj) | ->]%elem_of_matrix_expansion Hd.
    + destruct (sc_closed _ _ (invocation_scoped x Hx) j d Hj Hd); [left | by right].
      by eapply base_ids_invocation.
    + left. simpl in Hd. apply list_elem_of_fmap in Hd as (y & -> & Hy).
      eapply base_ids_invocation; [done | apply job_id_in_expansion].
  - intros d Hd (j & Hj & <-)%elem_of_base_ids. apply Houter in Hd. by rewrite matrix_inside in Hd.
  - apply matrix_acyclic.
  - intros r invs mp ff [(x & Hx & Hj) | ->]%elem_of_matrix_expansion Hv.
    + destruct (sc_matrix _ _ (invocation_scoped x Hx) r invs mp ff Hj Hv) as [Hmp Hi].
      split; [done|]. intros i Hin. destruct (Hi i Hin) as (? & ? & ?). split_and!; [done..|].
      by eapply matrix_scope_kept.
    + simpl in Hv. injection Hv as <- <- _. split; [lia|].
      intros i Hin. split; [done|]. apply list_elem_of_fmap in Hin as (y & -> & Hy). split.
      * exists (matrix_name y.1). split; [apply colon_free_matrix_name | done].
      * eapply matrix_scope_kept; [done|]. by apply expansion_scope.
  - intros r p o [(x & Hx & Hj) | ->]%elem_of_matrix_expansion; [|done].
    by apply (sc_result _ _ (invocation_scoped x Hx) r p o).
  - intros c k [(x & Hx & Hc) | ->]%elem_of_matrix_expansion Hd
      [(y & Hy & Hk) | ->]%elem_of_matrix_expansion Hin.
    + assert (x = y) as <- by by apply (invocation_cross _ _ c k).
      by apply (sc_leaf _ _ (invocation_scoped x Hx)).
    + simpl in Hin. by erewrite result_not_inside in Hin.
    + by destruct Hd as (? & ? & ? & ? & ?).
    + done.
Qed.

Lemma matrix_guarded :
  has_top (ep_jobs plan) → guarded (ep_jobs plan) → guarded M.
Proof.
  intros Ht Hgu r invs mp ff Hr Hv i Hi j Hj Hij Hjg.
  assert (∃ x, x ∈ enumerate instances ∧ behind_gate (E x) i ∧
          ∃ r0, r0 ∈ E x ∧ pj_base_id r0 = i) as (x & Hx & Hb & r0 & Hr0 & Hrb).
  { apply elem_of_matrix_expansion in Hr as [(x & Hx & Hr) | ->].
    - exists x. split; [done|]. split; [by eapply expansion_guarded|].
      destruct (sc_matrix _ _ (invocation_scoped x Hx) r invs mp ff Hr Hv) as [_ Hm].
      destruct (Hm i Hi) as (_ & _ & [_ (r0 & ? & ? & _) _]). eauto.
    - simpl in Hv. injection Hv as <- _ _. apply list_elem_of_fmap in Hi as (x & -> & Hx).
      exists x. split; [done|]. split; [by apply expansion_behind|].
      apply elem_of_base_ids, job_id_in_expansion. }
  apply elem_of_matrix_expansion in Hj as [(y & Hy & Hj) | ->].
  - assert (x = y) as <-; [|by apply Hb]. apply (invocation_cross _ _ r0 j); [done..|]. by rewrite Hrb.
  - simpl in Hij. rewrite <-Hrb in Hij. by erewrite result_not_inside in Hij.
Qed.

Lemma matrix_needs j :
  has_top (ep_jobs plan) → instances ≠ [] → j ∈ M →
  pj_needs j = outer ∨ ∃ d, d ∈ pj_needs j ∧ d ∈ base_ids M.
Proof.
  intros Ht Hne [(x & Hx & Hj) | ->]%elem_of_matrix_expansion.
  - destruct (expansion_needs _ _ _ _ _ _ j Ht Hj) as [[-> _] | (d & Hd & Hb)].
    + left. by apply Hneeds, enumerate_instance.
    + right. exists d. split; [done | by eapply base_ids_invocation].
  - right. assert (∃ x, x ∈ enumerate instances) as [x Hx].
    { destruct instances as [|p l]; [done|]. exists (0, p). apply list_elem_of_here. }
    exists (matrix_invocation job_id x.1). split.
    { change (pj_needs result) with invocations. apply list_elem_of_fmap. by exists x. }
    apply (base_ids_invocation x); [done|]. apply job_id_in_expansion.
Qed.

Lemma matrix_carries j pl i s o :
  j ∈ M → pj_virtual_job j = Some (ReusableDynamicCall pl i s o) →
  ∃ k, k ∈ ep_jobs plan ∧ pj_virtual_job k = Some (ReusableDynamicCall pl i s o).
Proof.
  intros [(x & _ & Hj) | ->]%elem_of_matrix_expansion Hv; [|done]. by eapply expansion_carries.
Qed.
End matrix.

Lemma matrix_expansion_well_scoped `{VT : ValueTypes} job_id path template instances plan inputs
    secrets outputs outer :
  path_of path job_id → well_scoped [] (ep_jobs plan) → no_gate (ep_jobs plan) →
  (∀ p, p ∈ instances → pj_needs p = outer) → (∀ d, d ∈ outer → inside job_id d = false) →
  well_scoped outer (matrix_expansion job_id template instances plan inputs secrets outputs).
Proof.
  intros Hp Hplan Hg Hn Ho. inversion_clear Hplan as [? ? Hs Hd]. constructor.
  - by eapply matrix_scoped.
  - intros j pl i s o Hj Hv. destruct (matrix_carries _ _ _ _ _ _ _ _ _ _ _ _ Hj Hv) as (k & Hk & Hkv).
    by eapply Hd.
Qed.
