(* ===== verification/ScopedLinking.v ===== *)
(** * Linked plans are scoped

    When the job ids of the sources contain no colon and none is [gate] - the
    ids GitHub allows contain no colon - every plan the linker returns has the
    structure of [Scopes]. *)

From S2P Require Import Prelude RustStr OrdMap Yaml Expression Evaluate Templates Workflow Permissions Validate.
From S2P Require Import Matrix Steps Dependencies Compile Reusable Expansion Linking Instances Scopes.
From S2P Require Import ScopedExpansion.

(** The ids of the jobs a source declares. *)
Definition good_key (key : string) : Prop := colon_free key = true ∧ key ≠ "gate".

Lemma inside_key key b : colon_free key = true → colon_free b = true → inside key b = true → b = key.
Proof.
  intros Hk Hb Hin.
  apply (inside_path [key] [b] key b (colon_free_path _ Hk) (colon_free_path _ Hb)) in Hin.
  by apply prefix_cons_inv_1 in Hin.
Qed.

(** Two keys above the same id are equal. *)
Lemma inside_keys key key' b :
  colon_free key = true → colon_free key' = true → (∃ p, path_of p b) →
  inside key b = true → inside key' b = true → key = key'.
Proof.
  intros Hk Hk' [p Hp] H H'.
  destruct (inside_comparable _ _ _ _ _ _ (colon_free_path _ Hk) (colon_free_path _ Hk') Hp H H') as [Hin|Hin];
    [symmetry|]; by apply inside_key.
Qed.

Section compiled.
Context `{VL : ValueLib} `{EL : ExpressionLib} `{TC : !TemplateContract}.

Definition good_source (workflow : Workflow) : Prop :=
  source_ok workflow ∧ ∀ key, key ∈ (w_jobs workflow).*1 → good_key key.

(** What the linker returns for a workflow with the ids [keys]. *)
Record good_plan (keys : list string) (jobs : list PlannedJob) : Prop := {
  gp_scoped : well_scoped [] jobs;
  gp_inside j : j ∈ jobs → ∃ key, key ∈ keys ∧ inside key (pj_base_id j) = true ∧ key ∈ base_ids jobs;
  gp_guarded : guarded jobs;
}.

Lemma good_plan_mono keys l k : same_jobs l k → good_plan keys l → good_plan keys k.
Proof.
  intros H [Hs Hin Hg]. split; [by rewrite <-H| |by eapply guarded_mono].
  intros j (key & ? & ? & ?)%H%Hin. exists key. by rewrite <-H.
Qed.

Lemma good_plan_no_gate keys jobs :
  (∀ key, key ∈ keys → good_key key) → good_plan keys jobs → no_gate jobs.
Proof.
  intros Hkeys [Hs Hin _] j Hj. apply not_true_is_false. intros Hg.
  destruct (Hin j Hj) as (key & Hk & Hkj & _). destruct (Hkeys key Hk) as [Hc Hne]. apply Hne.
  eapply (inside_keys key "gate" (pj_base_id j)); [done|done| |done|done].
  eapply sc_path, Hj. by apply well_scoped_scoped.
Qed.

(** A key is no name space. *)
Lemma colon_free_top s : colon_free s = true → contains "::" s = false.
Proof.
  intros H. apply not_true_is_false. intros (a & b & ->)%contains_spec.
  rewrite colon_free_app in H. apply andb_prop in H as [_ H]. rewrite colon_free_app in H.
  by apply andb_prop in H as [H _].
Qed.

Lemma good_plan_callable keys jobs :
  (∀ key, key ∈ keys → good_key key) → good_plan keys jobs → jobs ≠ [] → plan_ok jobs → callable jobs.
Proof.
  intros Hkeys Hp Hne Hok. pose proof Hp as [Hs Hin Hg]. split; [by eapply good_plan_no_gate| |done..].
  destruct jobs as [|j jobs]; [done|].
  destruct (Hin j (list_elem_of_here _ _)) as (key & Hk & _ & (t & Ht & <-)%elem_of_base_ids).
  exists t. split; [done|]. by apply colon_free_top, Hkeys.
Qed.

Context (workflow : Workflow) (path : string) (plan : ExecutionPlan).
Hypothesis Hkeys : keys_distinct workflow.
Hypothesis Hnames : ∀ key, key ∈ (w_jobs workflow).*1 → good_key key.
Hypothesis Hplan : compile workflow path = Ok plan.

Lemma compiled_key j : j ∈ ep_jobs plan → pj_base_id j ∈ (w_jobs workflow).*1.
Proof.
  intros Hj. destruct (compile_job_origin _ _ _ _ Hplan Hj) as (id & job & mp & i & m & Hin & _ & _ & Hc).
  rewrite (co_base _ _ _ _ _ _ _ _ _ Hc). apply list_elem_of_fmap. by exists (id, job).
Qed.

Lemma compiled_plain j : j ∈ ep_jobs plan → pj_virtual_job j = None.
Proof.
  intros Hj. destruct (compile_job_origin _ _ _ _ Hplan Hj) as (id & job & mp & i & m & _ & _ & _ & Hc).
  apply (co_plain _ _ _ _ _ _ _ _ _ Hc).
Qed.

Lemma compiled_colon_free j : j ∈ ep_jobs plan → colon_free (pj_base_id j) = true.
Proof. intros Hj%compiled_key. by apply Hnames. Qed.

Lemma compiled_edge j d :
  j ∈ ep_jobs plan → d ∈ pj_needs j → edge (dependency_graph (ep_jobs plan)) (pj_base_id j) d.
Proof.
  intros Hj Hd.
  destruct (dependency_graph_lookup (ep_jobs plan) (pj_base_id j)) as (k & Hk & Hb & Hg);
    [by apply list_elem_of_fmap_2|].
  exists (pj_needs k). split; [done|]. by rewrite (compile_same_needs workflow path plan k j).
Qed.

Lemma compiled_need j d : j ∈ ep_jobs plan → d ∈ pj_needs j → d ∈ base_ids (ep_jobs plan).
Proof.
  intros Hj Hd. apply dependency_graph_dom.
  destruct (compile_dependencies _ _ _ Hplan) as [Hclosed _]. eapply Hclosed. by apply compiled_edge.
Qed.

Lemma compiled_acyclic b : Acc (needed (ep_jobs plan)) b.
Proof.
  destruct (compile_dependencies _ _ _ Hplan) as [Hclosed Hacyclic].
  destruct (decide (b ∈ base_ids (ep_jobs plan))) as [Hb|Hb]; [|by apply Acc_not_needed].
  apply dependency_graph_dom in Hb.
  eapply Acc_mono, (acyclic_accessible "" _ _ Hclosed Hacyclic Hb).
  intros d c (j & Hj & <- & Hd). by apply compiled_edge.
Qed.

Lemma compiled_scoped : good_plan (w_jobs workflow).*1 (ep_jobs plan).
Proof.
  split.
  2: { intros j Hj. exists (pj_base_id j). split_and!; [by apply compiled_key | apply inside_refl |].
       apply elem_of_base_ids. eauto. }
  2: { intros r invs mp ff Hr Hv. by rewrite compiled_plain in Hv. }
  constructor; [split|].
  - intros j Hj. exists [pj_base_id j]. by apply colon_free_path, compiled_colon_free.
  - intros j k Hj Hk Hb. rewrite !compiled_plain by done.
    by rewrite (compile_same_needs workflow path plan j k).
  - intros j d Hj Hd. left. by eapply compiled_need.
  - by intros d ?%not_elem_of_nil.
  - apply compiled_acyclic.
  - intros r invs mp ff Hr Hv. by rewrite compiled_plain in Hv.
  - intros r p o Hr Hv. by rewrite compiled_plain in Hv.
  - intros c k Hc (? & ? & ? & ? & Hv). by rewrite compiled_plain in Hv.
  - intros j pl i s o Hj Hv. by rewrite compiled_plain in Hv.
Qed.

Lemma compiled_need_apart j d :
  j ∈ ep_jobs plan → d ∈ pj_needs j → inside (pj_base_id j) d = false.
Proof.
  intros Hj Hd. apply not_true_is_false. intros Hin.
  pose proof (compiled_need j d Hj Hd) as (k & Hk & <-)%elem_of_base_ids.
  apply inside_key in Hin; [|by apply compiled_colon_free..].
  pose proof (compiled_edge j _ Hj Hd) as He. rewrite Hin in He.
  destruct (compile_dependencies _ _ _ Hplan) as [_ Hacyclic].
  apply (Hacyclic (pj_base_id j)). by apply tc_once.
Qed.

(** *** One call *)

(** [E] may replace the call with base id [c]. *)
Record call_expansion (c : string) (E : list PlannedJob) : Prop := {
  ce_scoped p : p ∈ ep_jobs plan → pj_base_id p = c → well_scoped (pj_needs p) E;
  ce_inside e : e ∈ E → inside c (pj_base_id e) = true;
  ce_result : c ∈ base_ids E;
  ce_guarded : guarded E;
  ce_needs p e : p ∈ ep_jobs plan → pj_base_id p = c → e ∈ E →
    pj_needs e = pj_needs p ∨ ∃ d, d ∈ pj_needs e ∧ d ∈ base_ids E;
}.

Lemma dynamic_template_scoped p pl i s o :
  p ∈ ep_jobs plan → well_scoped [] (ep_jobs pl) → callable (ep_jobs pl) →
  well_scoped (pj_needs p) [p <| pj_virtual_job := Some (ReusableDynamicCall pl i s o) |>].
Proof.
  intros Hp Hs Hca. set (t := p <| pj_virtual_job := _ |>).
  assert (∀ d, d ∈ pj_needs p → d ∉ base_ids [t]) as Hout.
  { intros d Hd (k & ->%list_elem_of_singleton & <-)%elem_of_base_ids.
    apply compiled_need_apart in Hd; [|done]. simpl in Hd. by rewrite inside_refl in Hd. }
  constructor; [split|].
  - intros j ->%list_elem_of_singleton. exists [pj_base_id p].
    change (pj_base_id t) with (pj_base_id p). by apply colon_free_path, compiled_colon_free.
  - by intros j k ->%list_elem_of_singleton ->%list_elem_of_singleton.
  - intros j d ->%list_elem_of_singleton Hd. by right.
  - done.
  - intros b. constructor. intros d (j & ->%list_elem_of_singleton & _ & Hd).
    by apply Acc_not_needed, Hout.
  - by intros r invs mp ff ->%list_elem_of_singleton.
  - by intros r pb outs ->%list_elem_of_singleton.
  - by intros c k ->%list_elem_of_singleton _ ->%list_elem_of_singleton.
  - intros j pl' i' s' o' ->%list_elem_of_singleton. by intros [= <- _ _ _].
Qed.

Lemma expand_call_scoped name c instances pl inputs secrets outputs E :
  (∀ p, p ∈ instances → p ∈ ep_jobs plan ∧ pj_base_id p = c) →
  well_scoped [] (ep_jobs pl) → callable (ep_jobs pl) →
  expand_call name c instances pl inputs secrets outputs = Ok E → call_expansion c E.
Proof.
  intros Hinst Hs Hca H. pose proof Hca as [Hg Ht Hgu Hok]. unfold expand_call in H.
  destruct instances as [|first rest]; [by destruct (existsb _ _)|].
  destruct (Hinst first (list_elem_of_here _ _)) as [Hfirst Hbase].
  assert (∀ p, p ∈ ep_jobs plan → pj_base_id p = c → pj_needs p = pj_needs first) as Hneeds.
  { intros p Hp Hb. apply (compile_same_needs workflow path plan); [done..|]. by rewrite Hb, Hbase. }
  assert (path_of [c] c) as Hpath. { rewrite <-Hbase. by apply colon_free_path, compiled_colon_free. }
  assert (∀ d, d ∈ pj_needs first → inside c d = false) as Hout.
  { intros d Hd. rewrite <-Hbase. by apply compiled_need_apart. }
  destruct (existsb _ (first :: rest)).
  - destruct rest; [|done]. simpl in H. injection H as <-. split.
    + intros p Hp Hb. rewrite (Hneeds p Hp Hb). by apply dynamic_template_scoped.
    + intros e ->%list_elem_of_singleton. simpl. rewrite Hbase. apply inside_refl.
    + apply elem_of_base_ids. eexists. split; [apply list_elem_of_here | done].
    + by intros r invs mp ff ->%list_elem_of_singleton.
    + intros p e Hp Hb ->%list_elem_of_singleton. left. by rewrite (Hneeds p Hp Hb).
  - destruct rest as [|second rest]; simpl in H.
    + rewrite expand_reusable_call_pure in H by done. apply Ok_inj in H. subst E. split.
      * intros p Hp Hb. rewrite (Hneeds p Hp Hb). by eapply expansion_well_scoped.
      * intros e. apply expansion_inside.
      * apply job_id_in_expansion.
      * eapply expansion_guarded; [by apply well_scoped_scoped | done..].
      * intros p e Hp Hb He. rewrite (Hneeds p Hp Hb).
        destruct (expansion_needs _ _ _ _ _ _ e Ht He) as [[? _] | ?]; auto.
    + rewrite expand_matrix_call_pure in H by done. apply Ok_inj in H. subst E.
      assert (∀ k, k ∈ first :: second :: rest → pj_needs k = pj_needs first) as Hall.
      { intros k Hk. destruct (Hinst k Hk). by apply Hneeds. }
      split.
      * intros p Hp Hb. rewrite (Hneeds p Hp Hb). by eapply matrix_expansion_well_scoped.
      * intros e. apply matrix_inside.
      * apply job_id_in_matrix_expansion.
      * eapply matrix_guarded; [done | by apply well_scoped_scoped | done |exact Hall | done..].
      * intros p e Hp Hb He. rewrite (Hneeds p Hp Hb). by eapply (matrix_needs _ _ _ _ _ _ _ _ Hall).
Qed.

(** *** All calls *)

Context (expansions : gmap string (list PlannedJob)).
Hypothesis Hexp : ∀ c E, expansions !! c = Some E → call_expansion c E.

(** The plan after the calls [cs] have been replaced. *)
Definition replaced (cs : list string) : list PlannedJob :=
  base.filter (λ j, pj_base_id j ∉ cs) (ep_jobs plan) ++ (cs ≫= λ c, default [] (expansions !! c)).

Lemma elem_of_replaced cs j :
  j ∈ replaced cs ↔ (j ∈ ep_jobs plan ∧ pj_base_id j ∉ cs) ∨
                    ∃ c E, c ∈ cs ∧ expansions !! c = Some E ∧ j ∈ E.
Proof.
  unfold replaced. rewrite elem_of_app, list_elem_of_filter, list_elem_of_bind. split.
  - intros [[? ?] | (c & Hj & Hc)]; [auto|]. destruct (expansions !! c) as [E|] eqn:HE; [|by apply not_elem_of_nil in Hj].
    right. by exists c, E.
  - intros [[? ?] | (c & E & Hc & HE & Hj)]; [auto|]. right. exists c. by rewrite HE.
Qed.

Lemma replaced_scoped cs :
  NoDup cs → (∀ c, c ∈ cs → is_Some (expansions !! c) ∧ ∃ p, p ∈ ep_jobs plan ∧ pj_base_id p = c) →
  good_plan (w_jobs workflow).*1 (replaced cs).
Proof.
  induction cs as [|c cs IH]; intros Hnd Hcs.
  { apply (good_plan_mono _ (ep_jobs plan)), compiled_scoped.
    intros j. rewrite elem_of_replaced. split; [intros Hj; left; split; [done | by apply not_elem_of_nil]|].
    intros [[? _] | (? & ? & ?%not_elem_of_nil & _)]; done. }
  apply NoDup_cons in Hnd as [Hc Hnd].
  destruct IH as [Hs Hin Hg]; [done| intros; apply Hcs; by apply list_elem_of_further|].
  destruct (Hcs c (list_elem_of_here _ _)) as [[E HE] (p & Hp & Hpc)].
  destruct (Hexp c E HE) as [HEs HEin HEr HEg HEn].
  assert (colon_free c = true) as Hcf by (rewrite <-Hpc; by apply compiled_colon_free).
  assert (∀ c', c' ∈ cs → colon_free c' = true) as Hcsf.
  { intros c' Hc'. destruct (Hcs c' (list_elem_of_further _ _ _ Hc')) as [_ (p' & Hp' & <-)].
    by apply compiled_colon_free. }
  assert (p ∈ replaced cs) as Hpr. { apply elem_of_replaced. left. by rewrite Hpc. }
  assert (∀ k, k ∈ replaced cs → inside c (pj_base_id k) = true → pj_base_id k = c) as Hleaf.
  { intros k Hk Hck. pose proof Hk as [[Hk' _] | (c' & E' & Hc' & HE' & Hk')]%elem_of_replaced.
    - apply inside_key; [done | by apply compiled_colon_free | done].
    - destruct Hc. assert (c = c') as ->; [|done]. eapply (inside_keys c c' (pj_base_id k)); [auto..| |done|].
      + eapply sc_path, Hk. by apply well_scoped_scoped.
      + by apply (Hexp c' E' HE'). }
  assert (well_scoped [] (spliced (replaced cs) E p)) as Hsp.
  { apply splice_well_scoped; rewrite ?Hpc; auto. left. by apply compiled_plain. }
  assert (same_jobs (spliced (replaced cs) E p) (replaced (c :: cs))) as Hsame.
  { intros j. rewrite elem_of_spliced, !elem_of_replaced, Hpc. setoid_rewrite elem_of_cons.
    split.
    - intros [[[[Hj Hn] | (c' & E' & Hc' & HE' & Hj)] Hne] | Hj].
      + left. split; [done|]. by intros [?|?].
      + right. exists c', E'. auto.
      + right. exists c, E. auto.
    - intros [[Hj Hn] | (c' & E' & [-> | Hc'] & HE' & Hj)].
      + left. split; [left; split; [done|] |]; intros ?; apply Hn; auto.
      + right. congruence.
      + left. split; [right; by exists c', E'|]. intros Hjc. destruct Hc.
        assert (c' = c) as <-; [|done].
        eapply (inside_keys c' c (pj_base_id j)); [auto..| | |rewrite Hjc; apply inside_refl].
        * eapply (sc_path _ (replaced cs)); [by apply well_scoped_scoped|].
          apply elem_of_replaced. right. by exists c', E'.
        * by apply (Hexp c' E' HE'). }
  apply (good_plan_mono _ _ _ Hsame). split; [done| |].
  - intros j [[Hj _] | Hj]%elem_of_spliced.
    + destruct (Hin j Hj) as (key & ? & ? & ?). exists key. split_and!; [done..|].
      apply base_ids_spliced; [by rewrite Hpc | done].
    + exists c. split_and!; [rewrite <-Hpc; by eapply compiled_key | by apply HEin |].
      apply elem_of_base_ids in HEr as (e & He & <-). apply elem_of_base_ids. exists e.
      split; [by apply elem_of_spliced; right | done].
  - apply spliced_guarded; rewrite ?Hpc; auto.
    + by apply well_scoped_scoped.
    + left. by eapply compiled_plain.
    + by apply well_scoped_scoped, HEs.
Qed.
End compiled.

(** ** The linker *)

Section linked.
Context `{VL : ValueLib} `{EL : ExpressionLib} `{TC : !TemplateContract}.

Lemma replace_calls_elem (calls : gmap string Job) jobs (exp0 left_ : gmap string (list PlannedJob))
    linked (done_ : gset string) :
  for_each (replace_call calls) jobs ([], ∅, exp0) = Ok (linked, done_, left_) →
  (∀ c, c ∈ done_ ↔ btree_contains c calls = true ∧ ∃ k, k ∈ jobs ∧ pj_base_id k = c) ∧
  (∀ c, c ∈ done_ → is_Some (exp0 !! c)) ∧
  ∀ j, j ∈ linked ↔ (j ∈ jobs ∧ btree_contains (pj_base_id j) calls = false) ∨
                    ∃ c E, c ∈ done_ ∧ exp0 !! c = Some E ∧ j ∈ E.
Proof.
  intros H. set (I := λ (prefix : list PlannedJob)
      '((linked, done_, left_) : list PlannedJob * gset string * gmap string (list PlannedJob)),
    (∀ c, c ∉ done_ → left_ !! c = exp0 !! c) ∧
    (∀ c, c ∈ done_ ↔ btree_contains c calls = true ∧ ∃ k, k ∈ prefix ∧ pj_base_id k = c) ∧
    (∀ c, c ∈ done_ → is_Some (exp0 !! c)) ∧
    ∀ j, j ∈ linked ↔ (j ∈ prefix ∧ btree_contains (pj_base_id j) calls = false) ∨
                      ∃ c E, c ∈ done_ ∧ exp0 !! c = Some E ∧ j ∈ E).
  enough (I jobs (linked, done_, left_)) as [_ ?] by done.
  apply (for_each_inv _ I _ _ _) in H; [done| |]; clear H linked done_ left_.
  - split_and!; [done| |by intros c ?%not_elem_of_empty|]; [intros c | intros j].
    + split; [by intros ?%not_elem_of_empty | by intros (_ & k & ?%not_elem_of_nil & _)].
    + split; [by intros ?%not_elem_of_nil|].
      by intros [[?%not_elem_of_nil _] | (c & E & ?%not_elem_of_empty & _)].
  - intros prefix job rest [[linked done_] left_] [[linked' done'] left'] _ (H1 & H2 & H3 & H4) H.
    unfold replace_call in H. unfold I. setoid_rewrite elem_of_app. setoid_rewrite list_elem_of_singleton.
    destruct (btree_contains (pj_base_id job) calls) eqn:Hc; [case_bool_decide as Hd|].
    + injection H as <- <- <-. split_and!; [done| |done|].
      * intros c. rewrite H2. split; [naive_solver|].
        intros [? (k & [?| ->] & <-)]; [eauto|]. apply H2 in Hd. naive_solver.
      * intros j. rewrite H4. split; [naive_solver|]. intros [[[?| ->] ?]|?]; [naive_solver|congruence|auto].
    + apply obind_Ok in H as (E & HE%expect_Ok & H). injection H as <- <- <-.
      rewrite H1 in HE by done. split_and!.
      * intros c [Hne Hn]%not_elem_of_union. rewrite not_elem_of_singleton in Hne.
        rewrite lookup_delete_ne by congruence. by apply H1.
      * intros c. rewrite elem_of_union, elem_of_singleton, H2. split.
        { intros [-> | (? & k & ? & ?)]; [eauto|]. split; [done|]. exists k. auto. }
        { intros [? (k & [?| ->] & <-)]; [right; eauto | by left]. }
      * intros c [->%elem_of_singleton | ?]%elem_of_union; [by rewrite HE | by apply H3].
      * intros j. rewrite elem_of_app, H4. split.
        { intros [[[? ?] | (c & E' & ? & ? & ?)] | Hj].
          - left. auto.
          - right. exists c, E'. split_and!; [by apply elem_of_union_r | done..].
          - right. exists (pj_base_id job), E. split_and!; [|done..].
            by apply elem_of_union_l, elem_of_singleton. }
        { intros [[[?| ->] ?] | (c & E' & [->%elem_of_singleton | ?]%elem_of_union & ? & ?)].
          - left. left. done.
          - congruence.
          - right. congruence.
          - left. right. by exists c, E'. }
    + injection H as <- <- <-. split_and!; [done| |done|].
      * intros c. rewrite H2. split; [naive_solver|].
        intros [? (k & [?| ->] & <-)]; [eauto|congruence].
      * intros j. rewrite elem_of_app, H4, list_elem_of_singleton. split.
        { intros [[[? ?]|?] | ->]; auto. }
        { intros [[[?| ->] ?]|?]; auto. }
Qed.

Context (reusable_workflows : gmap string Workflow).
Hypothesis Hsources : ∀ p w, reusable_workflows !! p = Some w → good_source w.

(** What a linked plan is, when its sources are good. *)
Definition linked_good (workflow : Workflow) (r : ExecutionPlan * gset string) : Prop :=
  good_plan (w_jobs workflow).*1 (ep_jobs r.1).

Definition link_good
    (link : Workflow → string → list string → gset string → nat →
            outcome WorkflowError (ExecutionPlan * gset string)) (level : nat) : Prop :=
  ∀ w p s c r, good_source w → link w p s c level = Ok r → linked_good w r ∧ plan_ok (ep_jobs r.1).

Lemma link_call_good link workflow root path plan stack level job_id call expansions called r :
  keys_distinct root → (∀ key, key ∈ (w_jobs root).*1 → good_key key) →
  compile root path = Ok plan → link_good link (S level) →
  link_call reusable_workflows link workflow
    (call_placeholders (workflow_calls workflow) (ep_jobs plan)) stack level
    (job_id, call) (expansions, called) = Ok r →
  ∃ E, r.1 = <[job_id := E]> expansions ∧ call_expansion plan job_id E.
Proof.
  intros Hkeys Hnames Hplan Hlink H. unfold link_call in H.
  apply obind_Ok in H as (instances & Hi%expect_Ok & H).
  apply obind_Ok in H as (uses & _ & H). apply obind_Ok in H as (p & _ & H).
  apply obind_Ok in H as (? & _ & H). apply obind_Ok in H as (? & _ & H).
  apply obind_Ok in H as (? & _ & H). apply obind_Ok in H as (w & Hw%ok_or_Ok & H).
  apply obind_Ok in H as (contract & _ & H). apply obind_Ok in H as (inputs & _ & H).
  apply obind_Ok in H as (secrets & _ & H). apply obind_Ok in H as ([pl c'] & Hl & H).
  apply obind_Ok in H as (? & Hjobs%reject_if_Ok & H).
  apply obind_Ok in H as (E & HE & H). injection H as <-.
  exists E. split; [done|]. apply Hsources in Hw. destruct (Hlink _ _ _ _ _ Hw Hl) as [Hg Hok].
  eapply (expand_call_scoped root path plan); [done..| | | |exact HE].
  - intros q Hq. rewrite call_placeholders_lookup in Hi.
    destruct (base.filter _ _) as [|a l] eqn:Hf; [done|]. injection Hi as <-.
    rewrite <-Hf in Hq. apply list_elem_of_filter in Hq. naive_solver.
  - apply Hg.
  - eapply good_plan_callable; [apply Hw | exact Hg | | exact Hok].
    intros Hnil. cbn [fst] in Hnil. by rewrite Hnil in Hjobs.
Qed.

Lemma place_calls_keys workflow root :
  for_each (place_call workflow) (btree_iter (workflow_calls workflow)) workflow = Ok root →
  (w_jobs root).*1 = (w_jobs workflow).*1.
Proof. intros H. pose proof (place_calls_spec workflow) as Hs. rewrite H in Hs. apply Hs. Qed.

Lemma link_workflow_good link workflow path stack called level r :
  good_source workflow → link_good link (S level) →
  link_workflow reusable_workflows link workflow path stack called level = Ok r →
  linked_good workflow r.
Proof.
  intros [[Hkeys _] Hnames] Hlink H. unfold link_workflow in H.
  destruct (btree_is_empty (workflow_calls workflow)).
  { apply obind_Ok in H as (plan & Hplan & H). injection H as <-. by eapply compiled_scoped. }
  apply obind_Ok in H as (root & Hroot%place_calls_keys & H).
  apply obind_Ok in H as (plan & Hplan & H).
  apply obind_Ok in H as ([expansions called'] & Hexp & H).
  apply obind_Ok in H as ([[linked done_] left_] & Hrep & H).
  apply obind_Ok in H as (? & _ & H). injection H as <-.
  assert (keys_distinct root) as Hkeys' by (unfold keys_distinct; by rewrite Hroot).
  rewrite <-Hroot in Hnames.
  assert (∀ c E, expansions !! c = Some E → call_expansion plan c E) as Hall.
  { refine (for_each_inv_simple _ (λ acc : gmap string (list PlannedJob) * gset string,
      ∀ c E, acc.1 !! c = Some E → call_expansion plan c E) _ _ _ _ _ Hexp).
    - intros c E HE. simpl in HE. by rewrite lookup_empty in HE.
    - intros [id call] [exp c0] s' _ HI Hb.
      eapply link_call_good in Hb as (E & Hs & HE); [|done..]. intros c E'. rewrite Hs.
      destruct (decide (id = c)) as [<-|Hne].
      + rewrite lookup_insert_eq. by intros [= <-].
      + rewrite lookup_insert_ne by done. apply HI. }
  apply replace_calls_elem in Hrep as (Hd & Hsome & Hl).
  assert (good_plan (w_jobs root).*1 (replaced plan expansions (elements done_))) as Hgood.
  { apply (replaced_scoped root path); [done..|apply NoDup_elements|].
    intros c Hc%elem_of_elements. split; [by apply Hsome|]. by apply Hd. }
  assert (same_jobs (replaced plan expansions (elements done_)) linked) as Hsame.
  { intros j. rewrite elem_of_replaced, Hl. setoid_rewrite elem_of_elements. rewrite Hd. split.
    - intros [[Hj Hn] | ?]; [left; split; [done|] | by right].
      apply not_true_is_false. intros Hc. apply Hn. eauto.
    - intros [[Hj Hn] | ?]; [left; split; [done|] | by right].
      intros [Hc _]. congruence. }
  unfold linked_good. rewrite <-Hroot. by eapply good_plan_mono.
Qed.

Lemma compile_linked_good fuel workflow path stack called level r :
  good_source workflow → MAX_REUSABLE_WORKFLOW_LEVELS < fuel + level →
  compile_linked_workflow reusable_workflows fuel workflow path stack called level = Ok r →
  linked_good workflow r ∧ plan_ok (ep_jobs r.1).
Proof.
  revert workflow path stack called level r.
  induction fuel as [|fuel IH]; intros workflow path stack called level r Hgood Hfuel H;
    (split; [|pose proof (compile_linked_spec reusable_workflows) as Hspec;
              eapply (Hspec _ workflow path stack called) in Hfuel;
              [rewrite H in Hfuel; apply Hfuel | by intros p w Hw%Hsources; apply Hw | apply Hgood]]).
  - eapply link_workflow_good, H; [done|]. by intros w p s c r' _.
  - eapply link_workflow_good, H; [done|]. intros w p s c r' Hw. apply IH; [done|lia].
Qed.

Lemma compile_with_reusables_good workflow path plan :
  good_source workflow → compile_with_reusables reusable_workflows workflow path = Ok plan →
  good_plan (w_jobs workflow).*1 (ep_jobs plan) ∧ plan_ok (ep_jobs plan).
Proof.
  intros Hgood ([plan' called] & H & [= <-])%obind_Ok. apply compile_linked_good in H; [done..|].
  unfold MAX_REUSABLE_WORKFLOW_LEVELS. lia.
Qed.
End linked.
