(* ===== verification/Identities.v ===== *)
(** * The identities of planned jobs (crates/gitzero-agent, executor.rs)

    [hydrate_plan_workflow_identities] gives every job of a plan, and of the plans
    it carries, the identity of the workflow that defines it.  It changes nothing
    the scheduler relies on. *)

From S2P Require Import Prelude RustStr OrdMap Yaml Workflow Dependencies Expansion Scopes ScopedLinking.

(** ** The identities of planned jobs *)

Section hydrate.
Context `{VT : ValueTypes} (identities : gmap string PlannedWorkflowIdentity).

Definition job_identity (defining_workflow_path : string) : outcome string PlannedWorkflowIdentity :=
  ok_or (identities !! defining_workflow_path)
    ("resolve defining workflow identity for '" +:+ defining_workflow_path +:+ "'").

(** The plan a dynamic call carries is hydrated with it. *)
Fixpoint hydrate_virtual_job (virtual_job : PlannedVirtualJob) : outcome string PlannedVirtualJob :=
  match virtual_job with
  | ReusableDynamicCall called_plan inputs secrets outputs =>
      let? jobs := traverse (λ job,
        let? identity := job_identity (pj_defining_workflow_path job) in
        let job := job <| pj_workflow_identity := Some identity |> in
        match pj_virtual_job job with
        | Some virtual_job =>
            let? virtual_job := hydrate_virtual_job virtual_job in
            Ok (job <| pj_virtual_job := Some virtual_job |>)
        | None => Ok job
        end) (ep_jobs called_plan) in
      Ok (ReusableDynamicCall (mkExecutionPlan (ep_workflow_name called_plan) (ep_workflow_path called_plan)
            (ep_concurrency called_plan) jobs) inputs secrets outputs)
  | _ => Ok virtual_job
  end.

Definition hydrate_job (job : PlannedJob) : outcome string PlannedJob :=
  let? identity := job_identity (pj_defining_workflow_path job) in
  let job := job <| pj_workflow_identity := Some identity |> in
  match pj_virtual_job job with
  | Some virtual_job =>
      let? virtual_job := hydrate_virtual_job virtual_job in
      Ok (job <| pj_virtual_job := Some virtual_job |>)
  | None => Ok job
  end.

Definition hydrate_plan_workflow_identities (plan : ExecutionPlan) : outcome string ExecutionPlan :=
  let? jobs := traverse hydrate_job (ep_jobs plan) in
  Ok (mkExecutionPlan (ep_workflow_name plan) (ep_workflow_path plan) (ep_concurrency plan) jobs).
End hydrate.

(** ** What hydration keeps *)

Section kept.
Context `{VT : ValueTypes} (identities : gmap string PlannedWorkflowIdentity).

Definition hydrated_virtual (v v' : option PlannedVirtualJob) : Prop :=
  match v, v' with
  | None, None => True
  | Some v, Some v' => hydrate_virtual_job identities v = Ok v'
  | _, _ => False
  end.

Lemma hydrate_job_Ok j k :
  hydrate_job identities j = Ok k →
  pj_id k = pj_id j ∧ pj_base_id k = pj_base_id j ∧ pj_needs k = pj_needs j ∧
  pj_need_aliases k = pj_need_aliases j ∧ hydrated_virtual (pj_virtual_job j) (pj_virtual_job k).
Proof.
  unfold hydrate_job. destruct (job_identity _ _) as [identity| |]; [|done..]. cbn.
  destruct (pj_virtual_job j) as [v|] eqn:Hv; cbn.
  - destruct (hydrate_virtual_job identities v) as [v'| |] eqn:Hh; [|done..]. by intros [= <-].
  - intros [= <-]. cbn. by rewrite Hv.
Qed.

Definition hydrated_jobs (l k : list PlannedJob) : Prop := Forall2 (λ j j', hydrate_job identities j = Ok j') l k.

Lemma hydrate_dynamic_Ok plan inputs secrets outputs v :
  hydrate_virtual_job identities (ReusableDynamicCall plan inputs secrets outputs) = Ok v →
  ∃ plan', v = ReusableDynamicCall plan' inputs secrets outputs ∧ hydrated_jobs (ep_jobs plan) (ep_jobs plan').
Proof.
  cbn [hydrate_virtual_job]. change (λ job : PlannedJob, _) with (hydrate_job identities).
  destruct (traverse (hydrate_job identities) (ep_jobs plan)) as [jobs| |] eqn:Hjobs; [|done..].
  intros [= <-]. eexists. split; [done|]. by apply traverse_Ok.
Qed.

(** The virtual job is the same, but for the jobs a dynamic call carries. *)
Lemma hydrated_virtual_cases v v' :
  hydrated_virtual v v' →
  v' = v ∨ ∃ plan plan' inputs secrets outputs,
    v = Some (ReusableDynamicCall plan inputs secrets outputs) ∧
    v' = Some (ReusableDynamicCall plan' inputs secrets outputs) ∧ hydrated_jobs (ep_jobs plan) (ep_jobs plan').
Proof.
  destruct v as [v|], v' as [v'|]; cbn; [|done..|by left].
  destruct v as [| | |plan inputs secrets outputs]; [by intros [= <-]; left..|].
  intros (plan' & -> & H)%hydrate_dynamic_Ok. right. eauto 10.
Qed.

Section jobs.
Context (l k : list PlannedJob).
Hypothesis Hlk : hydrated_jobs l k.

Lemma hydrated_in j' : j' ∈ k → ∃ j, j ∈ l ∧ hydrate_job identities j = Ok j'.
Proof.
  intros [i Hi]%list_elem_of_lookup. destruct (Forall2_lookup_r _ _ _ _ _ Hlk Hi) as (j & Hj & ?).
  exists j. split; [by eapply list_elem_of_lookup_2 | done].
Qed.

Lemma in_hydrated j : j ∈ l → ∃ j', j' ∈ k ∧ hydrate_job identities j = Ok j'.
Proof.
  intros [i Hi]%list_elem_of_lookup. destruct (Forall2_lookup_l _ _ _ _ _ Hlk Hi) as (j' & Hj & ?).
  exists j'. split; [by eapply list_elem_of_lookup_2 | done].
Qed.

Lemma hydrated_base_ids : base_ids k = base_ids l.
Proof.
  apply leibniz_equiv. intros b. rewrite !elem_of_base_ids. split.
  - intros (j' & Hj' & <-). apply hydrated_in in Hj' as (j & Hj & H%hydrate_job_Ok). exists j. naive_solver.
  - intros (j & Hj & <-). apply in_hydrated in Hj as (j' & Hj' & H%hydrate_job_Ok). exists j'. naive_solver.
Qed.

(** A job of [k] has the shape of a job of [l]. *)
Lemma hydrated_shape j' :
  j' ∈ k → ∃ j, j ∈ l ∧ pj_id j' = pj_id j ∧ pj_base_id j' = pj_base_id j ∧ pj_needs j' = pj_needs j ∧
    pj_need_aliases j' = pj_need_aliases j ∧ hydrated_virtual (pj_virtual_job j) (pj_virtual_job j').
Proof. intros (j & Hj & H%hydrate_job_Ok)%hydrated_in. exists j. auto. Qed.

Lemma shape_hydrated j :
  j ∈ l → ∃ j', j' ∈ k ∧ pj_id j' = pj_id j ∧ pj_base_id j' = pj_base_id j ∧ pj_needs j' = pj_needs j ∧
    pj_need_aliases j' = pj_need_aliases j ∧ hydrated_virtual (pj_virtual_job j) (pj_virtual_job j').
Proof. intros (j' & Hj & H%hydrate_job_Ok)%in_hydrated. exists j'. auto. Qed.

Lemma hydrated_static v v' : hydrated_virtual v v' → (∀ plan i s o, v' ≠ Some (ReusableDynamicCall plan i s o)) → v' = v.
Proof. intros [->|(? & ? & ? & ? & ? & -> & -> & _)]%hydrated_virtual_cases H; [done | by destruct (H _ _ _ _ eq_refl)]. Qed.

Lemma static_hydrated v v' : hydrated_virtual v v' → (∀ plan i s o, v ≠ Some (ReusableDynamicCall plan i s o)) → v' = v.
Proof. intros [->|(? & ? & ? & ? & ? & -> & -> & _)]%hydrated_virtual_cases H; [done | by destruct (H _ _ _ _ eq_refl)]. Qed.

Lemma hydrated_call_scope i : call_scope l i → call_scope k i.
Proof.
  intros [(g & Hg & Hgb & Hgv) (r & Hr & Hrb & Hrv) Hn]. split.
  - apply shape_hydrated in Hg as (g' & Hg' & _ & Hb & _ & _ & Hv). exists g'. split_and!; [done | congruence |].
    unfold is_gate in *. rewrite Hgv in Hv. by apply static_hydrated in Hv.
  - apply shape_hydrated in Hr as (r' & Hr' & _ & Hb & _ & _ & Hv). exists r'. split_and!; [done | congruence |].
    destruct Hrv as (public & outputs & Hrv). exists public, outputs. rewrite Hrv in Hv. by apply static_hydrated in Hv.
  - intros g' j' d Hg' Hgb' Hj' Hin Hne Hd.
    apply hydrated_shape in Hg' as (g0 & Hg0 & _ & Eb & En & _), Hj' as (j0 & Hj0 & _ & Jb & Jn & _).
    rewrite En. apply (Hn g0 j0 d); congruence.
Qed.

Lemma hydrated_scoped outer : scoped outer l → scoped outer k.
Proof.
  intros [Hp Hu Hc Ho Ha Hm Hr Hl]. split.
  - intros j' (j & Hj & _ & -> & _)%hydrated_shape. by apply Hp.
  - intros j' i' (j & Hj & _ & Jb & Jn & _ & Jv)%hydrated_shape (i & Hi & _ & Ib & In & _ & Iv)%hydrated_shape Heq.
    destruct (Hu j i Hj Hi ltac:(congruence)) as [Hneeds Hv]. split; [congruence|].
    rewrite Hv in Jv. unfold hydrated_virtual in *.
    destruct (pj_virtual_job i), (pj_virtual_job j'), (pj_virtual_job i'); first [done | congruence].
  - intros j' d (j & Hj & _ & _ & -> & _)%hydrated_shape. rewrite hydrated_base_ids. by apply Hc.
  - intros d. rewrite hydrated_base_ids. apply Ho.
  - intros b. eapply Acc_mono, Ha. intros x y (j' & (j & Hj & _ & -> & -> & _)%hydrated_shape & ? & ?). by exists j.
  - intros r' invocations mp ff (r & Hin & _ & Rb & Rn & _ & Rv)%hydrated_shape Hv.
    apply hydrated_static in Rv; [|intros; congruence]. rewrite Rv in Hv.
    destruct (Hm r invocations mp ff Hin Hv) as [? Hi]. split; [done|]. intros i ?.
    destruct (Hi i) as (? & ? & ?); [done|]. rewrite Rb, Rn. split_and!; [done..|]. by apply hydrated_call_scope.
  - intros r' public outputs (r & Hin & _ & _ & -> & _ & Rv)%hydrated_shape Hv.
    apply hydrated_static in Rv; [|intros; congruence]. rewrite Rv in Hv. by eapply Hr.
  - intros c' j' (c & Hcl & _ & -> & _ & _ & Cv)%hydrated_shape Hd (j & Hj & _ & -> & _)%hydrated_shape.
    apply Hl; [done | | done].
    apply hydrated_virtual_cases in Cv as [Cv|(? & ? & ? & ? & ? & Cv & _)]; unfold is_dynamic in *; [by rewrite <- Cv|].
    eauto.
Qed.

Lemma hydrated_guarded : guarded l → guarded k.
Proof.
  intros Hg r' invs mp ff (r & Hr & _ & _ & _ & _ & Rv)%hydrated_shape Hv i Hi j' (j & Hj & _ & -> & -> & _)%hydrated_shape.
  apply hydrated_static in Rv; [|intros; congruence]. rewrite Rv in Hv. by apply (Hg r invs mp ff).
Qed.
End jobs.

Lemma hydrated_job_ok ids j k : job_ok ids j → hydrate_job identities j = Ok k → job_ok ids k.
Proof.
  intros Hok. revert k. induction Hok as [ids j Hid Hn Ha Hv Hd IH].
  intros k (Eid & Eb & En & Ea & Ev)%hydrate_job_Ok. constructor.
  - by rewrite Eid, Eb.
  - by rewrite En.
  - by rewrite Ea.
  - destruct (hydrated_virtual_cases _ _ Ev) as [->|(? & ? & ? & ? & ? & _ & -> & _)]; done.
  - intros plan' inputs secrets outputs Hk k' Hk'.
    rewrite Hk in Ev. destruct (pj_virtual_job j) as [v|] eqn:Hvj; [|done]. cbn [hydrated_virtual] in Ev.
    destruct v as [| | |plan i s o]; [done..|].
    apply hydrate_dynamic_Ok in Ev as (plan2 & [= <- <- <- <-] & Hjobs).
    rewrite (hydrated_base_ids _ _ Hjobs). destruct (hydrated_in _ _ Hjobs k' Hk') as (j0 & Hj0 & Hh).
    by eapply IH.
Qed.

Lemma hydrated_plan_ok l k : hydrated_jobs l k → plan_ok l → plan_ok k.
Proof.
  intros Hlk Hok j' Hj'. rewrite (hydrated_base_ids _ _ Hlk).
  destruct (hydrated_in _ _ Hlk j' Hj') as (j & Hj & Hh). eapply hydrated_job_ok; [by apply Hok | done].
Qed.

Lemma hydrated_callable l k : hydrated_jobs l k → callable l → callable k.
Proof.
  intros Hlk [Hgate (t & Ht & Htop) Hg Hok]. split.
  - intros j' (j & Hj & _ & -> & _)%(hydrated_shape _ _ Hlk). by apply Hgate.
  - apply (shape_hydrated _ _ Hlk) in Ht as (t' & Ht' & _ & Eb & _). exists t'. by rewrite Eb.
  - by eapply hydrated_guarded.
  - by eapply hydrated_plan_ok.
Qed.

(** The virtual job of a hydrated job that carries a plan. *)
Lemma hydrated_carries l k j' plan' inputs secrets outputs :
  hydrated_jobs l k → j' ∈ k → pj_virtual_job j' = Some (ReusableDynamicCall plan' inputs secrets outputs) →
  ∃ j plan, j ∈ l ∧ pj_virtual_job j = Some (ReusableDynamicCall plan inputs secrets outputs) ∧
    hydrated_jobs (ep_jobs plan) (ep_jobs plan').
Proof.
  intros Hlk (j & Hj & _ & _ & _ & _ & Hv)%(hydrated_shape _ _ Hlk) Hv'. rewrite Hv' in Hv.
  destruct (pj_virtual_job j) as [v|] eqn:Hvj; [|done]. cbn [hydrated_virtual] in Hv.
  destruct v as [| | |plan i s o]; [done..|].
  apply hydrate_dynamic_Ok in Hv as (plan2 & [= <- <- <- <-] & Hjobs). by exists j, plan.
Qed.

Lemma hydrated_well_scoped : ∀ outer l, well_scoped outer l → ∀ k, hydrated_jobs l k → well_scoped outer k.
Proof.
  fix IH 3. intros outer l [outer' l' Hs Hd] k Hlk. constructor; [by eapply hydrated_scoped|].
  intros j' plan' inputs secrets outputs Hj' Hv'.
  destruct (hydrated_carries _ _ _ _ _ _ _ Hlk Hj' Hv') as (j & plan & Hj & Hv & Hjobs).
  destruct (Hd j plan inputs secrets outputs Hj Hv) as [Hw Hcall].
  split; [exact (IH _ _ Hw _ Hjobs) | by eapply hydrated_callable].
Qed.

Lemma hydrate_plan_jobs plan plan' :
  hydrate_plan_workflow_identities identities plan = Ok plan' → hydrated_jobs (ep_jobs plan) (ep_jobs plan').
Proof.
  unfold hydrate_plan_workflow_identities.
  destruct (traverse _ _) as [jobs| |] eqn:Hjobs; [|done..]. intros [= <-]. by apply traverse_Ok.
Qed.
End kept.
