(* ===== verification/Scheduler.v ===== *)
(** * The scheduler of a plan (crates/gitzero-agent, executor.rs)

    [execute_plan_inner] as a transition system: one iteration of its loop
    starts the base jobs that are ready and then takes the result of one of the
    running ones.  Which one finishes, when, and with what conclusion is the
    environment's choice, within what [execute_base_group] can return; whether
    the run is cancelled may change between iterations.  The reusable-call
    matrices, dependency statuses and virtual jobs are the code's functions. *)

From S2P Require Import Prelude RustStr OrdMap Yaml Expression Evaluate Workflow Expansion Instances Scopes.

(** ** Conclusions *)

Inductive JobConclusion := JobSuccess | JobFailure | JobTimedOut | JobCancelled | JobSkipped.

#[export] Instance JobConclusion_eq_dec : EqDecision JobConclusion.
Proof. solve_decision. Defined.

Definition as_github_result (self : JobConclusion) : string :=
  match self with
  | JobSuccess => "success"
  | JobFailure | JobTimedOut => "failure"
  | JobCancelled => "cancelled"
  | JobSkipped => "skipped"
  end.

Definition aggregate_conclusions (conclusions : list JobConclusion) : JobConclusion :=
  if bool_decide (JobFailure ∈ conclusions) then JobFailure
  else if bool_decide (JobTimedOut ∈ conclusions) then JobTimedOut
  else if bool_decide (JobCancelled ∈ conclusions) then JobCancelled
  else if forallb (λ conclusion, bool_decide (conclusion = JobSkipped)) conclusions then JobSkipped
  else JobSuccess.

(** [completed\[dependency\]] panics on a dependency that has not completed. *)
Definition conclusions_of (completed : gmap string JobConclusion) (ids : list string)
    : outcome string (list JobConclusion) :=
  traverse (λ id, expect (completed !! id)) ids.

(** [needs.iter().any(|dependency| test(completed\[dependency\]))] *)
Fixpoint any_need (test : JobConclusion → bool) (needs : list string)
    (completed : gmap string JobConclusion) : outcome string bool :=
  match needs with
  | [] => Ok false
  | dependency :: needs =>
      let? conclusion := expect (completed !! dependency) in
      if test conclusion then Ok true else any_need test needs completed
  end.

Definition dependency_status (needs : list string) (completed : gmap string JobConclusion)
    : outcome string ExecutionStatus :=
  let? cancelled := any_need (λ c, bool_decide (c = JobCancelled)) needs completed in
  if cancelled : bool then Ok Cancelled else
  let? failed := any_need (λ c, bool_decide (c = JobFailure) || bool_decide (c = JobTimedOut)) needs completed in
  if failed : bool then Ok Failure else
  let? skipped := any_need (λ c, bool_decide (c = JobSkipped)) needs completed in
  Ok (if skipped : bool then Skipped else Success).

Definition execution_status_result (status : ExecutionStatus) : string :=
  match status with
  | Success => "success"
  | Failure => "failure"
  | Cancelled => "cancelled"
  | Skipped => "skipped"
  end.

(** The lower-casing of the source is Unicode's; no character outside ASCII
    lower-cases into one of the words looked for. *)
Definition contains_status_function (condition : string) : bool :=
  let compact := to_ascii_lowercase
    (sconcat (base.filter (λ character, is_empty (trim_start character) = false) (chars condition))) in
  existsb (λ function, contains function compact) ["success("; "failure("; "cancelled("; "always("].

(** [evaluated] is [context.evaluate_condition(condition)]. *)
Definition condition_allows (condition : option string) (status : ExecutionStatus)
    (evaluated : outcome string bool) : outcome string bool :=
  match condition with
  | None => Ok (bool_decide (status = Success))
  | Some condition =>
      if negb (bool_decide (status = Success)) && negb (contains_status_function condition) then Ok false
      else evaluated
  end.

(** ** Reusable-call matrices *)

Record ReusableMatrixRuntime := mkRuntime {
  mr_invocations : list string;
  mr_max_parallel : Z;
  mr_fail_fast : bool;
  mr_active : gset string;
  mr_started : gset string;
  mr_failed : bool;
  mr_cancel : bool;                    (** the value of the watch channel *)
}.

#[export] Instance ReusableMatrixRuntime_updatable : Updatable ReusableMatrixRuntime := λ r,
  mkRuntime (mr_invocations r) (mr_max_parallel r) (mr_fail_fast r) (mr_active r) (mr_started r)
    (mr_failed r) (mr_cancel r).

Abbreviation Runtimes := (gmap string ReusableMatrixRuntime).

Definition reusable_matrix_runtimes `{VT : ValueTypes} (jobs : list PlannedJob) : Runtimes :=
  btree_collect (omap (λ job,
    match pj_virtual_job job with
    | Some (ReusableMatrixResult invocations max_parallel fail_fast) =>
        Some (pj_base_id job, mkRuntime invocations max_parallel fail_fast ∅ ∅ false false)
    | _ => None
    end) jobs).

(** The invocation whose gate [base_id] is. *)
Definition gate_invocation (group : ReusableMatrixRuntime) (base_id : string) : option string :=
  find (λ invocation, bool_decide (base_id = gate_id invocation)) (mr_invocations group).

Definition group_can_start (base_id : string) (group : ReusableMatrixRuntime) : bool :=
  if existsb (λ invocation, bool_decide (base_id = gate_id invocation)) (mr_invocations group) then
    negb (mr_failed group) && bool_decide (Z.of_nat (size (mr_active group)) < mr_max_parallel group)%Z
  else true.

Definition reusable_matrix_gate_can_start (groups : Runtimes) (base_id : string) : bool :=
  forallb (group_can_start base_id) (btree_values groups).

Definition start_invocation (base_id : string) (group : ReusableMatrixRuntime) : ReusableMatrixRuntime :=
  match gate_invocation group base_id with
  | Some invocation =>
      group <| mr_started := {[invocation]} ∪ mr_started group |>
            <| mr_active := {[invocation]} ∪ mr_active group |>
  | None => group
  end.

Definition start_reusable_matrix_invocation (groups : Runtimes) (base_id : string) : Runtimes :=
  start_invocation base_id <$> groups.

(** The groups whose cancellation reaches [base_id]. *)
Definition reusable_matrix_cancellations (groups : Runtimes) (base_id : string) : list string :=
  (base.filter (λ entry : string * ReusableMatrixRuntime,
     existsb (λ invocation, inside invocation base_id) (set_iter (mr_active entry.2)) = true)
     (btree_iter groups)).*1.

Definition invocation_fails (base_id : string) (conclusion : JobConclusion)
    (group : ReusableMatrixRuntime) : bool :=
  bool_decide (base_id ∈ mr_invocations group) &&
  (bool_decide (conclusion = JobFailure) || bool_decide (conclusion = JobTimedOut)) &&
  mr_fail_fast group && negb (mr_failed group).

Definition finish_invocation (base_id : string) (conclusion : JobConclusion)
    (group : ReusableMatrixRuntime) : ReusableMatrixRuntime :=
  if bool_decide (base_id ∈ mr_invocations group) then
    let fails := invocation_fails base_id conclusion group in
    group <| mr_active := mr_active group ∖ {[base_id]} |>
          <| mr_failed := mr_failed group || fails |>
          <| mr_cancel := mr_cancel group || fails |>
  else group.

Definition finish_reusable_matrix_invocation (groups : Runtimes) (base_id : string)
    (conclusion : JobConclusion) : Runtimes * list string :=
  (finish_invocation base_id conclusion <$> groups,
   (base.filter (λ entry : string * ReusableMatrixRuntime,
      invocation_fails base_id conclusion entry.2 = true) (btree_iter groups)).*1).

Section scheduler.
Context `{VT : ValueTypes} `{EL : ExpressionLib} `{JL : !JsonLib}.
Context (hash_files : string → list string → outcome ExpressionError string).

Abbreviation Outputs := (gmap string (gmap string string)).

Record BaseExecution := mkExecution {
  be_base_id : string;
  be_conclusion : JobConclusion;
  be_completed_steps : nat;
  be_outputs : gmap string string;
  be_expanded_jobs : list PlannedJob;
}.

(** ** Virtual jobs *)

(** The [jobs] context of a result's outputs. *)
Definition result_json (completed_bases : gmap string JobConclusion) (completed_outputs : Outputs)
    (job : string) : outcome string JValue :=
  let? conclusion := expect (completed_bases !! job) in
  let? outputs := expect (completed_outputs !! job) in
  Ok (JObject (btree_collect [("result", JString (as_github_result conclusion));
                              ("outputs", JObject (JString <$> outputs))])).

(** The order in which a matrix result reads its invocations: by completion,
    then those that did not complete. *)
Definition ordered_invocations (completion_order invocations : list string) : list string :=
  let ordered := base.filter (λ base_id, base_id ∈ invocations) completion_order in
  (fold_left (λ '(ordered, seen) invocation,
     if bool_decide (invocation ∈ seen) then (ordered, seen)
     else (ordered ++ [invocation], {[invocation]} ∪ seen))
     invocations (ordered, list_to_set ordered : gset string)).1.

(** One output of one successful invocation: present, and the last non-empty. *)
Definition merge_output (entry : string * string) (outputs : gmap string string) : gmap string string :=
  let '(name, value) := entry in
  let outputs := entry_or_insert name "" outputs in
  if is_empty value then outputs else <[name := value]> outputs.

Definition merge_invocation (completed_bases : gmap string JobConclusion) (completed_outputs : Outputs)
    (invocation : string) (outputs : gmap string string) : outcome string (gmap string string) :=
  let? conclusion := expect (completed_bases !! invocation) in
  if negb (bool_decide (conclusion = JobSuccess)) then Ok outputs
  else
    let? values := expect (completed_outputs !! invocation) in
    Ok (fold_left (λ outputs entry, merge_output entry outputs) (btree_iter values) outputs).

Definition execute_virtual_job (base_id : string) (virtual_job : PlannedVirtualJob)
    (completed_bases : gmap string JobConclusion) (completed_outputs : Outputs)
    (completion_order : list string) (context : EvaluationContext) : outcome string BaseExecution :=
  match virtual_job with
  | ReusableGate => Ok (mkExecution base_id JobSuccess 0 ∅ [])
  | ReusableResult jobs outputs =>
      let? conclusions := conclusions_of completed_bases (btree_values jobs) in
      let? entries := traverse (λ '(alias, job),
        let? value := result_json completed_bases completed_outputs job in Ok (alias, value))
        (btree_iter jobs) in
      let '(context, inserted) := insert_json context "jobs" (JObject (btree_collect entries)) in
      map_err display_error inserted ;?
      let? rendered := traverse (λ '(name, value),
        let? value := map_err (λ _, "render reusable workflow output '" +:+ name +:+ "'")
                        (render hash_files context value) in
        Ok (name, value)) (btree_iter outputs) in
      Ok (mkExecution base_id (aggregate_conclusions conclusions) 0 (btree_collect rendered) [])
  | ReusableMatrixResult invocations _ _ =>
      let? conclusions := conclusions_of completed_bases invocations in
      let? outputs := for_each (merge_invocation completed_bases completed_outputs)
                        (ordered_invocations completion_order invocations) ∅ in
      Ok (mkExecution base_id (aggregate_conclusions conclusions) 0 outputs [])
  | ReusableDynamicCall _ _ _ _ => Panic
  end.

(** ** The state of the loop *)

(** A future in [running_bases], with what it captured. *)
Record Running := mkRunning {
  rn_base_id : string;
  rn_jobs : list PlannedJob;
  rn_cancellations : list string;
  rn_completed_bases : gmap string JobConclusion;
  rn_completed_outputs : Outputs;
  rn_completion_order : list string;
}.

Record Sched := mkSched {
  sd_jobs : list PlannedJob;
  sd_base_order : list string;
  sd_seen : gset string;
  sd_completed_bases : gmap string JobConclusion;
  sd_completed_outputs : Outputs;
  sd_completion_order : list string;
  sd_pending_bases : gset string;
  sd_reusable_matrices : Runtimes;
  sd_running_bases : list Running;
  sd_completed_steps : nat;
  sd_cancellation_error : option string;
  sd_reported : list string;            (** the gates reported as skipped *)
}.

#[export] Instance Sched_updatable : Updatable Sched := λ s,
  mkSched (sd_jobs s) (sd_base_order s) (sd_seen s) (sd_completed_bases s) (sd_completed_outputs s)
    (sd_completion_order s) (sd_pending_bases s) (sd_reusable_matrices s) (sd_running_bases s)
    (sd_completed_steps s) (sd_cancellation_error s) (sd_reported s).

(** The first loop: base ids in plan order, once each. *)
Definition push_base (base_id : string) (acc : list string * gset string) : list string * gset string :=
  let '(base_order, seen) := acc in
  if bool_decide (base_id ∈ seen) then acc else (base_order ++ [base_id], {[base_id]} ∪ seen).

Definition base_order_of (jobs : list PlannedJob) : list string * gset string :=
  fold_left (λ acc job, push_base (pj_base_id job) acc) jobs ([], ∅).

Definition sched_init (plan : ExecutionPlan) : Sched :=
  let '(base_order, seen) := base_order_of (ep_jobs plan) in
  mkSched (ep_jobs plan) base_order seen ∅ ∅ [] (list_to_set base_order)
    (reusable_matrix_runtimes (ep_jobs plan)) [] 0 None [].

Definition find_base (jobs : list PlannedJob) (base_id : string) : option PlannedJob :=
  find (λ job, bool_decide (pj_base_id job = base_id)) jobs.

(** ** Starting *)

Definition needs_completed (st : Sched) (base_id : string) : outcome string bool :=
  let? job := expect (find_base (sd_jobs st) base_id) in
  Ok (forallb (λ dependency, btree_contains dependency (sd_completed_bases st)) (pj_needs job)).

(** The three filters, in order. *)
Definition base_ready (st : Sched) (base_id : string) : outcome string bool :=
  if negb (bool_decide (base_id ∈ sd_pending_bases st)) then Ok false
  else if negb (reusable_matrix_gate_can_start (sd_reusable_matrices st) base_id) then Ok false
  else needs_completed st base_id.

Definition ready_bases (cancelled : bool) (st : Sched) : outcome string (list string) :=
  if cancelled then Ok []
  else for_each (λ base_id ready,
         let? is_ready := base_ready st base_id in
         Ok (if is_ready : bool then ready ++ [base_id] else ready)) (sd_base_order st) [].

Definition start_base (st : Sched) (base_id : string) : Sched :=
  if negb (reusable_matrix_gate_can_start (sd_reusable_matrices st) base_id) then st
  else
    let matrices := start_reusable_matrix_invocation (sd_reusable_matrices st) base_id in
    let base_jobs := base.filter (λ job, pj_base_id job = base_id) (sd_jobs st) in
    let running := mkRunning base_id base_jobs (reusable_matrix_cancellations matrices base_id)
                     (sd_completed_bases st) (sd_completed_outputs st) (sd_completion_order st) in
    st <| sd_pending_bases := sd_pending_bases st ∖ {[base_id]} |>
       <| sd_reusable_matrices := matrices |>
       <| sd_running_bases := sd_running_bases st ++ [running] |>.

Definition start_ready (cancelled : bool) (st : Sched) : outcome string Sched :=
  let? ready := ready_bases cancelled st in
  Ok (fold_left start_base ready st).

(** ** Taking a result *)

(** The replacement of a dynamic call by its expansion. *)
Definition push_expansion_base (base_id : string) (st : Sched) : Sched :=
  let '(base_order, seen) := push_base base_id (sd_base_order st, sd_seen st) in
  st <| sd_base_order := base_order |>
     <| sd_seen := seen |>
     <| sd_pending_bases := {[base_id]} ∪ sd_pending_bases st |>.

Definition expand_base (st : Sched) (execution : BaseExecution) : Sched :=
  let jobs := base.filter (λ job, pj_base_id job ≠ be_base_id execution) (sd_jobs st) ++
              be_expanded_jobs execution in
  let expansion_bases := (base_order_of (be_expanded_jobs execution)).1 in
  let st := fold_left (λ st base_id, push_expansion_base base_id st) expansion_bases
              (st <| sd_jobs := jobs |>) in
  st <| sd_reusable_matrices := sd_reusable_matrices st ∪ reusable_matrix_runtimes jobs |>.

Definition skip_base (base_id : string) (st : Sched) : Sched :=
  if bool_decide (base_id ∈ sd_pending_bases st) then
    st <| sd_pending_bases := sd_pending_bases st ∖ {[base_id]} |>
       <| sd_completed_bases := <[base_id := JobSkipped]> (sd_completed_bases st) |>
       <| sd_completed_outputs := <[base_id := ∅]> (sd_completed_outputs st) |>
       <| sd_completion_order := sd_completion_order st ++ [base_id] |>
  else st.

Definition report_gate (invocation : string) (st : Sched) : Sched :=
  if bool_decide (gate_id invocation ∈ sd_pending_bases st) &&
     is_some (find_base (sd_jobs st) (gate_id invocation))
  then st <| sd_reported := sd_reported st ++ [gate_id invocation] |>
  else st.

(** Fail-fast: an invocation that has not started is skipped as a whole. *)
Definition skip_invocation (invocation : string) (st : Sched) : Sched :=
  fold_left (λ st base_id, skip_base base_id st)
    (base.filter (λ base_id, inside invocation base_id = true) (sd_base_order st))
    (report_gate invocation st).

Definition fail_group (group_id : string) (st : Sched) : outcome string Sched :=
  let? group := expect (sd_reusable_matrices st !! group_id) in
  Ok (fold_left (λ st invocation, skip_invocation invocation st)
        (base.filter (λ invocation, invocation ∉ mr_started group) (mr_invocations group)) st).

Definition complete_base (st : Sched) (execution : BaseExecution) : outcome string Sched :=
  let base_id := be_base_id execution in
  let '(matrices, failed_groups) := finish_reusable_matrix_invocation (sd_reusable_matrices st) base_id
                                      (be_conclusion execution) in
  for_each fail_group failed_groups
    (st <| sd_completed_steps := sd_completed_steps st + be_completed_steps execution |>
        <| sd_completed_outputs := <[base_id := be_outputs execution]> (sd_completed_outputs st) |>
        <| sd_completion_order := sd_completion_order st ++ [base_id] |>
        <| sd_completed_bases := <[base_id := be_conclusion execution]> (sd_completed_bases st) |>
        <| sd_reusable_matrices := matrices |>).

Definition take_execution (st : Sched) (execution : BaseExecution) : outcome string Sched :=
  if is_nil (be_expanded_jobs execution) then complete_base st execution
  else Ok (expand_base st execution).

(** ** What a running base may return *)

(** An instance of a dynamic template, as [expand_dynamic_matrix_job] and its
    caller build it. *)
Definition dynamic_instance (template : PlannedJob) (total index : nat) (matrix : gmap string json)
    : PlannedJob :=
  template
    <| pj_id := pj_base_id template +:+ "[" +:+ pretty (S index) +:+ "]" |>
    <| pj_matrix := matrix |>
    <| pj_dynamic_matrix := None |>
    <| pj_strategy_job_index := Some index |>
    <| pj_strategy_job_total := Some total |>
    <| pj_condition := Some always_condition |>.

Definition dynamic_instances (template : PlannedJob) (combinations : list (gmap string json))
    : list PlannedJob :=
  (λ '(index, matrix), dynamic_instance template (length combinations) index matrix) <$>
  enumerate combinations.

(** The results of [execute_base_group]: the condition of the first job decides
    on the status of its needs; a condition that cannot be evaluated is an
    error.  The combinations of a dynamic matrix, the steps, outputs and
    conclusions of ordinary jobs and the context are the environment's. *)
Inductive base_group (r : Running) : BaseExecution → Prop :=
  | group_skipped first status evaluated :
      head (rn_jobs r) = Some first →
      dependency_status (pj_needs first) (rn_completed_bases r) = Ok status →
      condition_allows (pj_condition first) status evaluated = Ok false →
      base_group r (mkExecution (rn_base_id r) JobSkipped 0 ∅ [])
  | group_cancelled :
      base_group r (mkExecution (rn_base_id r) JobCancelled 0 ∅ [])
  | group_dynamic template status evaluated plan inputs secrets outputs combinations jobs :
      rn_jobs r = [template] →
      dependency_status (pj_needs template) (rn_completed_bases r) = Ok status →
      condition_allows (pj_condition template) status evaluated = Ok true →
      pj_virtual_job template = Some (ReusableDynamicCall plan inputs secrets outputs) →
      expand_dynamic_reusable_call (template <| pj_matrix := ∅ |>)
        (dynamic_instances template combinations) plan inputs secrets outputs = Ok jobs →
      base_group r (mkExecution (rn_base_id r) JobSuccess 0 ∅ jobs)
  | group_virtual first status evaluated virtual_job context execution :
      head (rn_jobs r) = Some first →
      dependency_status (pj_needs first) (rn_completed_bases r) = Ok status →
      condition_allows (pj_condition first) status evaluated = Ok true →
      pj_virtual_job first = Some virtual_job →
      execute_virtual_job (rn_base_id r) virtual_job (rn_completed_bases r) (rn_completed_outputs r)
        (rn_completion_order r) context = Ok execution →
      base_group r execution
  | group_jobs first status evaluated conclusions steps outputs :
      head (rn_jobs r) = Some first →
      dependency_status (pj_needs first) (rn_completed_bases r) = Ok status →
      condition_allows (pj_condition first) status evaluated = Ok true →
      pj_virtual_job first = None →
      base_group r (mkExecution (rn_base_id r) (aggregate_conclusions conclusions) steps outputs []).

(** ** The loop *)

Definition unfinished (st : Sched) : bool :=
  bool_decide (size (sd_completed_bases st) < length (sd_base_order st)).

(** One iteration that goes on: a result is taken, or an error is kept until
    the run it cancelled has drained. *)
Inductive sched_step (st : Sched) : Sched → Prop :=
  | step_take cancelled started before r after execution next :
      unfinished st = true →
      start_ready cancelled st = Ok started →
      sd_running_bases started = before ++ r :: after →
      base_group r execution →
      take_execution (started <| sd_running_bases := before ++ after |>) execution = Ok next →
      sched_step st next
  | step_error cancelled started before r after error :
      unfinished st = true →
      start_ready cancelled st = Ok started →
      sd_running_bases started = before ++ r :: after →
      sched_step st (started
        <| sd_running_bases := before ++ after |>
        <| sd_cancellation_error :=
             match sd_cancellation_error started with Some error => Some error | None => Some error end |>).

Record PlanExecution := mkPlanExecution {
  pe_completed_steps : nat;
  pe_failed_jobs : list string;
  pe_timed_out_jobs : list string;
  pe_cancelled_jobs : list string;
}.

(** The jobs of the workflow itself with a given conclusion. *)
Definition jobs_concluded (conclusion : JobConclusion) (workflow_name : string) (st : Sched)
    : list string :=
  (λ entry : string * JobConclusion, workflow_name +:+ " / " +:+ entry.1) <$>
  base.filter (λ entry : string * JobConclusion, entry.2 = conclusion ∧ contains "::" entry.1 = false)
    (btree_iter (sd_completed_bases st)).

Definition plan_execution (workflow_name : string) (st : Sched) : PlanExecution :=
  mkPlanExecution (sd_completed_steps st)
    (jobs_concluded JobFailure workflow_name st)
    (jobs_concluded JobTimedOut workflow_name st)
    (jobs_concluded JobCancelled workflow_name st).

Definition no_progress : string := "workflow job dependency graph could not make progress".

(** One iteration that ends the loop.  After it, a concurrency scope that is
    still held, or cannot be released, is an error. *)
Inductive sched_end (workflow_name : string) (st : Sched) : outcome string PlanExecution → Prop :=
  | end_done : unfinished st = false → sched_end workflow_name st (Ok (plan_execution workflow_name st))
  | end_release error :
      unfinished st = false → sched_end workflow_name st (Err error)
  | end_panic cancelled :
      unfinished st = true → start_ready cancelled st = Panic → sched_end workflow_name st Panic
  | end_take_panic cancelled started before r after execution :
      unfinished st = true → start_ready cancelled st = Ok started →
      sd_running_bases started = before ++ r :: after → base_group r execution →
      take_execution (started <| sd_running_bases := before ++ after |>) execution = Panic →
      sched_end workflow_name st Panic
  | end_empty cancelled cancelled_later started :
      unfinished st = true → start_ready cancelled st = Ok started → sd_running_bases started = [] →
      (cancelled = true → cancelled_later = true) →
      sched_end workflow_name st (Err
        match sd_cancellation_error started with
        | Some error => error
        | None => if cancelled_later : bool then "run cancelled" else no_progress
        end)
  | end_error cancelled started before r after error :
      unfinished st = true → start_ready cancelled st = Ok started →
      sd_running_bases started = before ++ r :: after → sched_end workflow_name st (Err error).

Definition reachable (plan : ExecutionPlan) (st : Sched) : Prop := rtc sched_step (sched_init plan) st.
End scheduler.
