(* ===== verification/SchedulerInv.v ===== *)
(** * The invariant of the scheduler

    What holds of every state of [Scheduler] reached from a scoped plan: the
    base jobs are partitioned into pending, running and completed ones, a
    running one has its needs among the completed, and every matrix of calls
    agrees with the progress of its invocations. *)

From S2P Require Import Prelude RustStr OrdMap Yaml Expression Evaluate Instances Workflow Dependencies Expansion.
From S2P Require Import Scopes ScopedExpansion Scheduler.

Section invariant.
Context `{VT : ValueTypes} `{EL : ExpressionLib} `{JL : !JsonLib}.

Abbreviation running_ids st := (rn_base_id <$> sd_running_bases st).

Definition completed (st : Sched) (b : string) : Prop := is_Some (sd_completed_bases st !! b).

(** What a running base captured when it started is still true. *)
Record running_ok (st : Sched) (r : Running) : Prop := {
  ro_base : rn_base_id r ∈ sd_base_order st;
  ro_open : sd_completed_bases st !! rn_base_id r = None;
  ro_jobs : rn_jobs r = base.filter (λ j, pj_base_id j = rn_base_id r) (sd_jobs st);
  ro_needs j d : j ∈ rn_jobs r → d ∈ pj_needs j → is_Some (rn_completed_bases r !! d);
  ro_outputs : dom (rn_completed_outputs r) = dom (rn_completed_bases r);
  ro_captured : rn_completed_bases r ⊆ sd_completed_bases st;
}.

(** An invocation that has not started: everything inside is pending, or has
    been skipped ([closed]). *)
Definition untouched (st : Sched) (i : string) : Prop :=
  (∀ b, b ∈ sd_base_order st → inside i b = true → b ∈ sd_pending_bases st) ∧
  behind_gate (sd_jobs st) i.

Definition closed (st : Sched) (i : string) : Prop :=
  ∀ b, b ∈ sd_base_order st → inside i b = true → sd_completed_bases st !! b = Some JobSkipped.

Lemma closed_completed st i b :
  closed st i → b ∈ sd_base_order st → inside i b = true → completed st b.
Proof. intros Hc Hb Hin. exists JobSkipped. by apply Hc. Qed.

Record group_ok (failing : list string) (st : Sched) (g : string) (group : ReusableMatrixRuntime)
    : Prop := {
  go_result : ∃ r, r ∈ sd_jobs st ∧ pj_base_id r = g ∧
    pj_virtual_job r = Some (ReusableMatrixResult (mr_invocations group) (mr_max_parallel group)
                               (mr_fail_fast group));
  go_active i : i ∈ mr_active group ↔ i ∈ mr_started group ∧ ¬ completed st i;
  go_started i : i ∈ mr_started group → i ∈ mr_invocations group;
  go_bound : (Z.of_nat (size (mr_active group)) ≤ mr_max_parallel group)%Z;
  go_gate i : i ∈ mr_started group → gate_id i ∉ sd_pending_bases st ∧
    ∀ j d, j ∈ sd_jobs st → pj_base_id j = gate_id i → d ∈ pj_needs j → completed st d;
  go_rest i : i ∈ mr_invocations group → i ∉ mr_started group →
    (untouched st i ∧ (mr_failed group = false ∨ g ∈ failing)) ∨ closed st i;
}.

(** [failing] are the groups whose fail-fast is being carried out. *)
Record sched_ok (failing : list string) (st : Sched) : Prop := {
  so_scoped : well_scoped [] (sd_jobs st);
  so_order : NoDup (sd_base_order st);
  so_seen b : b ∈ sd_seen st ↔ b ∈ sd_base_order st;
  so_bases b : b ∈ sd_base_order st ↔ b ∈ base_ids (sd_jobs st);
  so_pending b : b ∈ sd_pending_bases st →
    b ∈ sd_base_order st ∧ b ∉ running_ids st ∧ sd_completed_bases st !! b = None;
  so_running_ids : NoDup (running_ids st);
  so_running r : r ∈ sd_running_bases st → running_ok st r;
  so_completed b : completed st b → b ∈ sd_base_order st;
  so_cover b : sd_cancellation_error st = None → b ∈ sd_base_order st →
    b ∈ sd_pending_bases st ∨ b ∈ running_ids st ∨ completed st b;
  so_outputs : dom (sd_completed_outputs st) = dom (sd_completed_bases st);
  so_completion : NoDup (sd_completion_order st) ∧
    ∀ b, b ∈ sd_completion_order st ↔ completed st b;
  so_groups g group : sd_reusable_matrices st !! g = Some group → group_ok failing st g group;
  so_group r invocations mp ff : r ∈ sd_jobs st →
    pj_virtual_job r = Some (ReusableMatrixResult invocations mp ff) →
    is_Some (sd_reusable_matrices st !! pj_base_id r);
}.

(** ** The scopes of a state *)

Lemma sched_scope failing st g group i :
  sched_ok failing st → group_ok failing st g group → i ∈ mr_invocations group →
  call_scope (sd_jobs st) i ∧ ∃ m, colon_free m = true ∧ i = namespaced g m.
Proof.
  intros Hst [(r & Hr & Hb & Hv) _ _ _ _ _] Hi.
  destruct (sc_matrix _ _ (well_scoped_scoped _ _ (so_scoped _ _ Hst)) r _ _ _ Hr Hv) as [_ Hm].
  destruct (Hm i Hi) as (_ & Hp & Hs). by rewrite Hb in Hp.
Qed.

Lemma sched_invocation failing st g group i :
  sched_ok failing st → group_ok failing st g group → i ∈ mr_invocations group →
  i ∈ sd_base_order st ∧ gate_id i ∈ sd_base_order st.
Proof.
  intros Hst Hg Hi. destruct (sched_scope _ _ _ _ _ Hst Hg Hi) as [[(a & Ha & Hab & _) (r & Hr & Hrb & _) _] _].
  split; apply (so_bases _ _ Hst), elem_of_base_ids; [by exists r | by exists a].
Qed.

Lemma inside_gate i : inside i (gate_id i) = true.
Proof. apply inside_namespaced. Qed.

Lemma sched_path failing st b :
  sched_ok failing st → b ∈ sd_base_order st → ∃ p, path_of p b.
Proof.
  intros Hst (j & Hj & <-)%(so_bases _ _ Hst)%elem_of_base_ids.
  eapply sc_path, Hj. apply well_scoped_scoped, Hst.
Qed.

(** A gate of an invocation that is inside [i]: [i] is that invocation, or holds
    the whole group. *)
Lemma gate_inside failing st g group i k :
  sched_ok failing st → group_ok failing st g group → k ∈ mr_invocations group →
  (∃ r, r ∈ sd_jobs st ∧ pj_base_id r = i ∧ is_result r) →
  inside i (gate_id k) = true →
  i = k ∨ ∀ k', k' ∈ mr_invocations group → inside i k' = true ∧ slen i < slen k'.
Proof.
  intros Hst Hg Hk (r & Hr & Hrb & Hrv) Hin. pose proof Hg as Hg'.
  pose proof (well_scoped_scoped _ _ (so_scoped _ _ Hst)) as Hs.
  destruct (sched_scope _ _ _ _ _ Hst Hg Hk) as [[(a & Ha & Hab & Hav) _ _] (m & Hm & Hkm)].
  destruct (sc_path _ _ Hs r Hr) as [p Hp]. rewrite Hrb in Hp.
  destruct Hg as [(q & Hq & Hqb & Hqv) _ _ _ _ _]. destruct (sc_path _ _ Hs q Hq) as [pq Hpq]. rewrite Hqb in Hpq.
  assert (path_of (pq ++ [m]) k) as Hpk.
  { rewrite Hkm. apply namespaced_eq; [done | by apply colon_free_path]. }
  assert (path_of ((pq ++ [m]) ++ ["gate"]) (gate_id k)) as Hpg.
  { apply namespaced_eq; [done | apply gate_path]. }
  assert (i ≠ gate_id k) as Hne.
  { intros ->. destruct (sc_uniform _ _ Hs a r Ha Hr) as [_ Hv]; [congruence|].
    destruct Hrv as (? & ? & Hrv). unfold is_gate in Hav. congruence. }
  apply (inside_path _ _ _ _ Hp Hpg), prefix_snoc_inv in Hin as [-> | Hin].
  { destruct Hne. by destruct Hp as [_ ->], Hpg as [_ ->]. }
  apply prefix_snoc_inv in Hin as [-> | Hin].
  { left. by destruct Hp as [_ ->], Hpk as [_ ->]. }
  right. intros k' Hk'. destruct (sched_scope _ _ _ _ _ Hst Hg' Hk') as [_ (m' & _ & ->)].
  assert (inside i g = true) as Hig by by apply (inside_path _ _ _ _ Hp Hpq).
  split; [eapply inside_trans; [done | apply inside_namespaced]|].
  apply inside_slen in Hig. pose proof (slen_namespaced g m'). lia.
Qed.

(** ** Starting a base *)

Lemma gate_id_inj i k : gate_id i = gate_id k → i = k.
Proof. unfold gate_id, namespaced. by intros ?%sapp_inv_tail. Qed.

Lemma gate_invocation_Some group b i :
  gate_invocation group b = Some i → i ∈ mr_invocations group ∧ b = gate_id i.
Proof.
  unfold gate_invocation. intros [Hin Hb%bool_decide_eq_true]%find_some.
  by apply list_elem_of_In in Hin.
Qed.

Lemma gate_invocation_None group b i :
  gate_invocation group b = None → i ∈ mr_invocations group → b ≠ gate_id i.
Proof.
  intros H Hi Hb. apply list_elem_of_In, (find_none _ _ H i) in Hi. by rewrite bool_decide_true in Hi.
Qed.

Lemma group_can_start_true b group i :
  group_can_start b group = true → i ∈ mr_invocations group → b = gate_id i →
  mr_failed group = false ∧ (Z.of_nat (size (mr_active group)) < mr_max_parallel group)%Z.
Proof.
  unfold group_can_start. intros H Hi ->.
  destruct (existsb _ _) eqn:E.
  - apply andb_prop in H as [Hf%negb_true_iff Hs%bool_decide_eq_true]. done.
  - rewrite existsb_false_elem in E. specialize (E i Hi). by rewrite bool_decide_true in E.
Qed.

Lemma can_start_group st b g group :
  reusable_matrix_gate_can_start (sd_reusable_matrices st) b = true →
  sd_reusable_matrices st !! g = Some group → group_can_start b group = true.
Proof.
  unfold reusable_matrix_gate_can_start. rewrite forallb_forall. intros H Hg.
  apply H, list_elem_of_In, elem_of_btree_values. eauto.
Qed.

(** [b] may start: it is pending and its needs have completed. *)
Record startable (st : Sched) (b : string) : Prop := {
  sb_pending : b ∈ sd_pending_bases st;
  sb_needs j d : j ∈ sd_jobs st → pj_base_id j = b → d ∈ pj_needs j → completed st d;
  sb_gate : reusable_matrix_gate_can_start (sd_reusable_matrices st) b = true;
}.

Lemma start_base_eq st b :
  startable st b →
  start_base st b = st
    <| sd_pending_bases := sd_pending_bases st ∖ {[b]} |>
    <| sd_reusable_matrices := start_invocation b <$> sd_reusable_matrices st |>
    <| sd_running_bases := sd_running_bases st ++ [mkRunning b
         (base.filter (λ job, pj_base_id job = b) (sd_jobs st))
         (reusable_matrix_cancellations (start_invocation b <$> sd_reusable_matrices st) b)
         (sd_completed_bases st) (sd_completed_outputs st) (sd_completion_order st)] |>.
Proof. intros [_ _ H]. unfold start_base. by rewrite H. Qed.

(** A job behind the gate of an untouched invocation cannot start. *)
Lemma startable_untouched failing st b i :
  sched_ok failing st → startable st b → untouched st i → inside i b = true → b = gate_id i.
Proof.
  intros Hst [Hp Hn _] [Hall Hbehind] Hin. destruct (decide (b = gate_id i)) as [|Hne]; [done|exfalso].
  pose proof (proj1 (so_pending _ _ Hst b Hp)) as (j & Hj & Hb)%(so_bases _ _ Hst)%elem_of_base_ids.
  rewrite <-Hb in Hin, Hne. destruct (Hbehind j Hj Hin Hne) as (d & Hd & Hid).
  specialize (Hn j d Hj Hb Hd). pose proof (so_completed _ _ Hst d Hn) as Hord.
  apply Hall in Hord; [|done]. destruct (so_pending _ _ Hst d Hord) as (_ & _ & Hnone).
  unfold completed in Hn. rewrite Hnone in Hn. by destruct Hn.
Qed.

Lemma pending_open failing st b : sched_ok failing st → b ∈ sd_pending_bases st → ¬ completed st b.
Proof.
  intros Hst Hp [c Hc]. destruct (so_pending _ _ Hst b Hp) as (_ & _ & Hn). congruence.
Qed.

Lemma start_rest failing st b g group i :
  sched_ok failing st → startable st b → group_ok failing st g group →
  i ∈ mr_invocations group → i ∉ mr_started group → b ≠ gate_id i →
  (untouched (start_base st b) i ∧ (mr_failed group = false ∨ g ∈ failing)) ∨ closed (start_base st b) i.
Proof.
  intros Hst Hsb Hg Hi Hns Hne. rewrite start_base_eq by done.
  destruct (go_rest _ _ _ _ Hg i Hi Hns) as [[Hu Hf] | Hc]; [left | by right].
  split; [|done]. pose proof Hu as [Hall Hbehind]. split; [|done]. simpl. intros c Hc Hin.
  apply elem_of_difference. split; [by apply Hall|]. intros ->%elem_of_singleton.
  by apply Hne; eapply startable_untouched.
Qed.

Lemma start_group failing st b g group :
  sched_ok failing st → startable st b → group_ok failing st g group →
  group_can_start b group = true →
  group_ok failing (start_base st b) g (start_invocation b group).
Proof.
  intros Hst Hsb Hg Hcan. pose proof (λ i, start_rest failing st b g group i Hst Hsb Hg) as Hrest.
  pose proof Hsb as [Hp Hneeds _]. rewrite start_base_eq in Hrest |- * by done.
  unfold start_invocation. destruct (gate_invocation group b) as [i|] eqn:E.
  - apply gate_invocation_Some in E as [Hi ->].
    assert (i ∉ mr_started group) as Hns.
    { intros Hs. by destruct (go_gate _ _ _ _ Hg i Hs). }
    assert (¬ completed st i) as Hopen.
    { destruct (go_rest _ _ _ _ Hg i Hi Hns) as [[[Hall _] _] | Hc].
      - eapply pending_open, Hall; [done| |apply inside_refl]. by eapply sched_invocation.
      - destruct (pending_open _ _ _ Hst Hp).
        eapply closed_completed; [done | by eapply sched_invocation | apply inside_gate]. }
    destruct (group_can_start_true _ _ _ Hcan Hi eq_refl) as [Hfail Hsize].
    split; simpl; [apply Hg| | | | |].
    + intros k. rewrite !elem_of_union, !elem_of_singleton, (go_active _ _ _ _ Hg). unfold completed; simpl.
      split; [intros [-> | [? ?]]; auto | intros [[-> | ?] ?]; auto].
    + intros k. rewrite elem_of_union, elem_of_singleton. intros [-> | Hk]; [done | by apply (go_started _ _ _ _ Hg)].
    + pose proof (size_union_alt {[i]} (mr_active group)) as Hu. rewrite size_singleton in Hu.
      pose proof (subseteq_size (mr_active group ∖ {[i]}) (mr_active group) ltac:(set_solver)). lia.
    + intros k. rewrite elem_of_union, elem_of_singleton, elem_of_difference. intros [-> | Hk].
      * split; [|intros j d Hj Hb Hd; by eapply Hneeds]. intros [_ Hn]. by apply Hn, elem_of_singleton.
      * destruct (go_gate _ _ _ _ Hg k Hk) as [Hgk Hnk]. split; [|done]. by intros [? _].
    + intros k Hk Hnk. apply not_elem_of_union in Hnk as [Hne Hnk]. rewrite not_elem_of_singleton in Hne.
      apply Hrest; [done..|]. intros ?%gate_id_inj. congruence.
  - destruct Hg as [Hr Ha Hs Hb Hgt Hre]. split; simpl; try done.
    + intros i Hi. destruct (Hgt i Hi) as [Hgi Hni]. split; [|done]. rewrite elem_of_difference. by intros [? _].
    + intros i Hi Hns. apply Hrest; [done..|]. by eapply gate_invocation_None.
Qed.

Lemma start_base_ok failing st b :
  sched_ok failing st → startable st b → sched_ok failing (start_base st b).
Proof.
  intros Hst Hsb. pose proof (λ g group, start_group failing st b g group Hst Hsb) as Hgroup.
  pose proof Hsb as [Hp Hneeds Hgate]. destruct (so_pending _ _ Hst b Hp) as (Hord & Hnr & Hopen).
  rewrite start_base_eq in Hgroup |- * by done.
  destruct Hst as [H1 H2 H3 H4 H5 H6 H7 H8 H9 H10 H11 H12 H13].
  split; simpl; try done.
  - intros c [Hc Hne]%elem_of_difference. rewrite not_elem_of_singleton in Hne.
    destruct (H5 c Hc) as (? & Hcr & ?). split_and!; [done| |done].
    rewrite fmap_app, elem_of_app. intros [? | Hin]; [done|]. apply list_elem_of_singleton in Hin. done.
  - rewrite fmap_app. apply NoDup_app. split_and!; [done| |by apply NoDup_singleton].
    intros c Hc Hin. apply list_elem_of_singleton in Hin. simpl in Hin. by subst.
  - intros r [Hr | ->%list_elem_of_singleton]%elem_of_app.
    + destruct (H7 r Hr) as [? ? ? ? ? ?]. by split.
    + split; simpl; try done.
      intros j d [Hb Hj]%list_elem_of_filter Hd. by apply (Hneeds j d).
  - intros c Herr Hc. rewrite elem_of_difference, not_elem_of_singleton, fmap_app, elem_of_app.
    destruct (decide (c = b)) as [->|Hne]; [right; left; right; apply list_elem_of_here|].
    destruct (H9 c Herr Hc) as [?|[?|?]]; auto.
  - intros g group. rewrite lookup_fmap. intros (group0 & Hg & ->)%fmap_Some.
    apply Hgroup; [by apply H12 | by eapply can_start_group].
  - intros r invs mp ff Hr Hv. rewrite lookup_fmap. by apply fmap_is_Some, (H13 r invs mp ff).
Qed.

(** ** The ready bases *)

Lemma find_base_Some jobs b j : find_base jobs b = Some j → j ∈ jobs ∧ pj_base_id j = b.
Proof.
  unfold find_base. intros [Hin Hb%bool_decide_eq_true]%find_some. by apply list_elem_of_In in Hin.
Qed.

Lemma find_base_in jobs b : b ∈ base_ids jobs → ∃ j, find_base jobs b = Some j.
Proof.
  intros (j & Hj & Hb)%elem_of_base_ids. destruct (find_base jobs b) as [k|] eqn:E; [by exists k|].
  unfold find_base in E. apply list_elem_of_In, (find_none _ _ E j) in Hj.
  by rewrite bool_decide_true in Hj.
Qed.

Lemma base_ready_Ok failing st b :
  sched_ok failing st → b ∈ sd_base_order st →
  ∃ is_ready, base_ready st b = Ok is_ready ∧ (is_ready = true ↔ startable st b).
Proof.
  intros Hst Hord. unfold base_ready. case_bool_decide as Hp; simpl.
  2: { exists false. split; [done|]. split; [done | by intros [? _ _]]. }
  destruct (reusable_matrix_gate_can_start _ _) eqn:Hgate; simpl.
  2: { exists false. split; [done|]. split; [done|]. intros [_ _ ?]. congruence. }
  unfold needs_completed. apply (so_bases _ _ Hst) in Hord.
  destruct (find_base_in _ _ Hord) as [j Hj]. rewrite Hj. simpl. eexists. split; [done|].
  apply find_base_Some in Hj as [Hj Hb]. rewrite forallb_forall. split.
  - intros Hall. split; [done| |done]. intros k d Hk Hkb Hd.
    destruct (sc_uniform _ _ (well_scoped_scoped _ _ (so_scoped _ _ Hst)) k j Hk Hj) as [Hn _]; [congruence|].
    rewrite Hn in Hd. by apply btree_contains_true, Hall, list_elem_of_In.
  - intros [_ Hn _] d Hd%list_elem_of_In. apply btree_contains_true. by eapply Hn.
Qed.

Lemma for_each_filter {A E} (f : A → outcome E bool) (P : A → Prop) `{∀ x, Decision (P x)} l acc :
  (∀ x, x ∈ l → ∃ r, f x = Ok r ∧ (r = true ↔ P x)) →
  for_each (λ x acc, let? r := f x in Ok (if r : bool then acc ++ [x] else acc)) l acc =
  Ok (acc ++ base.filter P l).
Proof.
  revert acc; induction l as [|x l IH]; intros acc Hf; cbn [for_each].
  { by rewrite app_nil_r. }
  destruct (Hf x (list_elem_of_here _ _)) as (r & -> & Hr). cbn [obind].
  rewrite IH by (intros y Hy; by apply Hf, list_elem_of_further). rewrite filter_cons. f_equal.
  destruct r; [rewrite decide_True by tauto | rewrite decide_False by (rewrite <-Hr; done)]; [|done].
  by rewrite <-app_assoc.
Qed.

(** What every operation of a start leaves alone. *)
Record same_progress (st st' : Sched) : Prop := {
  sp_jobs : sd_jobs st' = sd_jobs st;
  sp_order : sd_base_order st' = sd_base_order st;
  sp_completed : sd_completed_bases st' = sd_completed_bases st;
  sp_error : sd_cancellation_error st' = sd_cancellation_error st;
}.

#[export] Instance same_progress_preorder : PreOrder same_progress.
Proof. split; [by split|]. intros a b c [? ? ? ?] [? ? ? ?]. split; congruence. Qed.

Lemma start_base_progress st b : same_progress st (start_base st b).
Proof. unfold start_base. by destruct (negb _). Qed.

Definition is_startable (st : Sched) (b : string) : bool :=
  bool_decide (b ∈ sd_pending_bases st) &&
  reusable_matrix_gate_can_start (sd_reusable_matrices st) b &&
  forallb (λ job, forallb (λ d, btree_contains d (sd_completed_bases st)) (pj_needs job))
    (base.filter (λ job, pj_base_id job = b) (sd_jobs st)).

Lemma is_startable_true st b : is_startable st b = true ↔ startable st b.
Proof.
  unfold is_startable. rewrite !andb_true_iff, bool_decide_eq_true, forallb_forall. split.
  - intros [[Hp Hg] Hn]. split; [done| |done]. intros j d Hj Hb Hd.
    assert (In j (base.filter (λ job, pj_base_id job = b) (sd_jobs st))) as Hin.
    { by apply list_elem_of_In, list_elem_of_filter. }
    apply Hn in Hin. rewrite forallb_forall in Hin.
    by apply btree_contains_true, Hin, list_elem_of_In.
  - intros [Hp Hn Hg]. split_and!; [done..|]. intros j [Hb Hj]%list_elem_of_In%list_elem_of_filter.
    apply forallb_forall. intros d Hd%list_elem_of_In. apply btree_contains_true. by apply (Hn j).
Qed.

#[export] Instance startable_dec st b : Decision (startable st b).
Proof. refine (cast_if (decide (is_startable st b = true))); by rewrite <-is_startable_true. Defined.

Lemma ready_bases_Ok failing cancelled st :
  sched_ok failing st →
  ready_bases cancelled st = Ok (if cancelled then [] else base.filter (startable st) (sd_base_order st)).
Proof.
  intros Hst. unfold ready_bases. destruct cancelled; [done|].
  rewrite (for_each_filter _ (startable st)); [done|]. intros b Hb. by eapply base_ready_Ok.
Qed.

(** Starting a list of ready bases: each may find its matrix full by then. *)
Lemma start_all_ok failing ready st :
  sched_ok failing st → NoDup ready →
  (∀ b, b ∈ ready → b ∈ sd_pending_bases st ∧
     ∀ j d, j ∈ sd_jobs st → pj_base_id j = b → d ∈ pj_needs j → completed st d) →
  sched_ok failing (fold_left start_base ready st) ∧
  same_progress st (fold_left start_base ready st) ∧
  sd_running_bases st `prefix_of` sd_running_bases (fold_left start_base ready st).
Proof.
  revert st; induction ready as [|b ready IH]; intros st Hst Hnd Hr; cbn [fold_left]; [done|].
  apply NoDup_cons in Hnd as [Hb Hnd]. destruct (Hr b (list_elem_of_here _ _)) as [Hp Hn].
  pose proof (start_base_progress st b) as Hsp.
  destruct (IH (start_base st b)) as (Hok & Hsp' & Hpre).
  - destruct (reusable_matrix_gate_can_start (sd_reusable_matrices st) b) eqn:Hg.
    + by apply start_base_ok.
    + unfold start_base. by rewrite Hg.
  - done.
  - intros c Hc. destruct (Hr c (list_elem_of_further _ _ _ Hc)) as [Hcp Hcn]. split.
    + unfold start_base. destruct (negb _); [done|]. simpl. apply elem_of_difference. split; [done|].
      intros ->%elem_of_singleton. done.
    + destruct Hsp as [Hj _ Hcm _]. unfold completed. rewrite Hj, Hcm. apply Hcn.
  - split_and!; [done | by etrans|]. etrans; [|done]. unfold start_base.
    destruct (negb _); [done|]. simpl. by apply prefix_app_r.
Qed.

Lemma ready_bases_startable failing cancelled st started :
  sched_ok failing st → start_ready cancelled st = Ok started →
  ∃ ready, started = fold_left start_base ready st ∧ NoDup ready ∧ ∀ b, b ∈ ready → startable st b.
Proof.
  intros Hst. unfold start_ready. rewrite (ready_bases_Ok failing) by done. cbn [obind]. intros [= <-].
  eexists. split; [done|]. destruct cancelled; [split; [constructor | by intros b ?%not_elem_of_nil]|].
  split; [apply NoDup_filter, Hst|]. by intros b [? _]%list_elem_of_filter.
Qed.

Lemma start_ready_running failing cancelled st started :
  sched_ok failing st → start_ready cancelled st = Ok started →
  sd_running_bases st `prefix_of` sd_running_bases started.
Proof.
  intros Hst Hs. destruct (ready_bases_startable _ _ _ _ Hst Hs) as (ready & -> & Hnd & Hr).
  apply (start_all_ok failing); [done..|]. intros b Hb%Hr. split; apply Hb.
Qed.

Lemma start_ready_ok failing cancelled st :
  sched_ok failing st →
  ∃ started, start_ready cancelled st = Ok started ∧ sched_ok failing started ∧ same_progress st started ∧
    (cancelled = false → ∀ b, startable st b → sd_running_bases started ≠ []).
Proof.
  intros Hst. unfold start_ready. rewrite (ready_bases_Ok failing) by done. cbn [obind].
  set (ready := if cancelled then _ else _).
  assert (∀ b, b ∈ ready → startable st b) as Hready.
  { intros b. unfold ready. destruct cancelled; [by intros ?%not_elem_of_nil|].
    by intros [? _]%list_elem_of_filter. }
  assert (NoDup ready) as Hnd.
  { unfold ready. destruct cancelled; [constructor|]. apply NoDup_filter, Hst. }
  destruct (start_all_ok failing ready st) as (Hok & Hsp & Hpre); [done..| |].
  { intros b Hb%Hready. split; apply Hb. }
  eexists. split_and!; [done..|]. intros -> b Hb.
  assert (b ∈ ready) as Hin.
  { apply list_elem_of_filter. split; [done|]. eapply (so_pending _ _ Hst), Hb. }
  destruct ready as [|c ready']; [by apply not_elem_of_nil in Hin|].
  cbn [fold_left]. pose proof (Hready c (list_elem_of_here _ _)) as Hc.
  apply NoDup_cons in Hnd as [Hcn Hnd].
  destruct (start_all_ok failing ready' (start_base st c)) as (_ & _ & [k Hk]).
  - by apply start_base_ok.
  - done.
  - intros d Hd. pose proof (Hready d (list_elem_of_further _ _ _ Hd)) as [Hdp Hdn _].
    rewrite start_base_eq by done. simpl. split; [|done]. apply elem_of_difference. split; [done|].
    intros ->%elem_of_singleton. done.
  - rewrite Hk, start_base_eq by done. simpl. by destruct (sd_running_bases st).
Qed.
End invariant.

(** * The steps of the scheduler keep its invariant

    The three ways an iteration ends: a base completes, and with it the
    fail-fast of its matrix is carried out; a dynamic call is replaced by its
    expansion; an error is kept. *)

Section steps.
Context `{VT : ValueTypes} `{EL : ExpressionLib} `{JL : !JsonLib}.

Abbreviation running_ids st := (rn_base_id <$> sd_running_bases st).

(** ** Skipping *)

(** The effect of skipping the bases of [l]. *)
Record skipped (l : list string) (st st' : Sched) : Prop := {
  sk_jobs : sd_jobs st' = sd_jobs st;
  sk_order : sd_base_order st' = sd_base_order st;
  sk_seen : sd_seen st' = sd_seen st;
  sk_matrices : sd_reusable_matrices st' = sd_reusable_matrices st;
  sk_running : sd_running_bases st' = sd_running_bases st;
  sk_error : sd_cancellation_error st' = sd_cancellation_error st;
  sk_pending b : b ∈ sd_pending_bases st' ↔ b ∈ sd_pending_bases st ∧ b ∉ l;
  sk_completed b : sd_completed_bases st' !! b =
    if bool_decide (b ∈ l ∧ b ∈ sd_pending_bases st) then Some JobSkipped else sd_completed_bases st !! b;
  sk_outputs : dom (sd_completed_outputs st) = dom (sd_completed_bases st) →
    dom (sd_completed_outputs st') = dom (sd_completed_bases st');
  sk_completion : sd_completion_order st' =
    sd_completion_order st ++ base.filter (λ b, b ∈ sd_pending_bases st) l;
}.

Lemma filter_iff_in {A} (P Q : A → Prop) `{∀ x, Decision (P x), ∀ x, Decision (Q x)} (l : list A) :
  (∀ x, x ∈ l → P x ↔ Q x) → base.filter P l = base.filter Q l.
Proof.
  induction l as [|x l IH]; intros H1; [done|]. rewrite !filter_cons.
  rewrite IH by (intros y Hy; by apply H1, list_elem_of_further).
  pose proof (H1 x (list_elem_of_here _ _)). by repeat case_decide; try tauto.
Qed.

Lemma skip_bases_spec l st :
  NoDup l → skipped l st (fold_left (λ st b, skip_base b st) l st).
Proof.
  revert st; induction l as [|b l IH]; intros st Hnd; cbn [fold_left].
  { split; auto.
    - intros b. split; [intros ?; split; [done | by apply not_elem_of_nil] | by intros [? _]].
    - by rewrite app_nil_r. }
  apply NoDup_cons in Hnd as [Hb Hnd]. specialize (IH (skip_base b st) Hnd).
  unfold skip_base in IH |- *. case_bool_decide as Hp.
  - destruct IH as [? ? ? ? ? ? Hpend Hcomp Hout Hord]. split; simpl in *; try done.
    + intros c. rewrite Hpend, elem_of_difference, elem_of_singleton, elem_of_cons. tauto.
    + intros c. rewrite Hcomp. destruct (decide (c = b)) as [->|Hne].
      * rewrite bool_decide_false by (by intros [? _]). rewrite lookup_insert_eq.
        rewrite bool_decide_true; [done|]. split; [apply list_elem_of_here | done].
      * rewrite lookup_insert_ne by done.
        rewrite (bool_decide_ext (c ∈ l ∧ _) (c ∈ b :: l ∧ c ∈ sd_pending_bases st)); [done|].
        rewrite elem_of_cons, elem_of_difference, elem_of_singleton. tauto.
    + intros Hd. apply Hout. by rewrite !dom_insert_L, Hd.
    + rewrite Hord, filter_cons, decide_True by done. rewrite <-app_assoc. simpl. do 2 f_equal.
      apply filter_iff_in. intros c Hc. rewrite elem_of_difference, elem_of_singleton.
      split; [by intros [? _]|]. intros ?. split; [done|]. by intros ->.
  - destruct IH as [? ? ? ? ? ? Hpend Hcomp Hout Hord]. split; simpl in *; try done.
    + intros c. rewrite Hpend, elem_of_cons. split; [|tauto]. intros [? ?]. split; [done|].
      intros [->|?]; done.
    + intros c. rewrite Hcomp.
      rewrite (bool_decide_ext (c ∈ l ∧ _) (c ∈ b :: l ∧ c ∈ sd_pending_bases st)); [done|].
      rewrite elem_of_cons. split; [tauto|]. intros [[->|?] ?]; done.
    + by rewrite Hord, filter_cons, decide_False.
Qed.

Lemma skipped_completed l st st' b : skipped l st st' → completed st b → completed st' b.
Proof. intros Hs [c Hc]. unfold completed. rewrite (sk_completed _ _ _ Hs). case_bool_decide; eauto. Qed.

Lemma skipped_closed l st st' i : skipped l st st' → closed st i → closed st' i.
Proof.
  intros Hs Hc b. rewrite (sk_order _ _ _ Hs), (sk_completed _ _ _ Hs). intros Hb Hin.
  case_bool_decide; [done | by apply Hc].
Qed.

Lemma skipped_new l st st' b :
  skipped l st st' → completed st' b → ¬ completed st b → b ∈ l ∧ b ∈ sd_pending_bases st.
Proof.
  intros Hs [c Hc] Hn. rewrite (sk_completed _ _ _ Hs) in Hc. case_bool_decide as H; [done|].
  destruct Hn. by eexists.
Qed.

(** The bases inside an invocation. *)
Definition bases_inside (st : Sched) (i : string) : list string :=
  base.filter (λ b, inside i b = true) (sd_base_order st).

Lemma skip_invocation_spec failing st i :
  sched_ok failing st → skipped (bases_inside st i) st (skip_invocation i st).
Proof.
  intros Hst. unfold skip_invocation.
  assert (NoDup (bases_inside st i)) as Hnd by apply NoDup_filter, Hst.
  unfold report_gate. destruct (_ && _); [|by apply skip_bases_spec].
  destruct (skip_bases_spec (bases_inside st i)
    (st <| sd_reported := sd_reported st ++ [gate_id i] |>) Hnd) as [? ? ? ? ? ? ? ? ? ?]. by split.
Qed.

Lemma elem_of_bases_inside st i b :
  b ∈ bases_inside st i ↔ b ∈ sd_base_order st ∧ inside i b = true.
Proof. unfold bases_inside. rewrite list_elem_of_filter. tauto. Qed.

(** *** One invocation of a failed group *)

Section skip_one.
Context (failing : list string) (st : Sched) (g i k : string) (group : ReusableMatrixRuntime).
Hypothesis Hst : sched_ok failing st.
Hypothesis Hgroup : group_ok failing st g group.
Hypothesis Hi : i ∈ mr_invocations group.
Hypothesis Hi' : i ∉ mr_started group.
Hypothesis Hk : k ∈ mr_started group.

Lemma skip_one_result : ∃ r, r ∈ sd_jobs st ∧ pj_base_id r = i ∧ is_result r.
Proof. by destruct (sched_scope _ _ _ _ _ Hst Hgroup Hi) as [[_ ? _] _]. Qed.

(** A started invocation of any group lies outside. *)
Lemma skip_one_started g' group' i' :
  group_ok failing st g' group' → i' ∈ mr_started group' → i' ∈ bases_inside st i →
  i' ∈ sd_pending_bases st → False.
Proof.
  intros Hg' Hs [Hord Hin]%elem_of_bases_inside Hp.
  destruct (go_gate _ _ _ _ Hg' i' Hs) as [Hng _].
  pose proof (go_started _ _ _ _ Hg' i' Hs) as Hinv.
  destruct (sched_invocation _ _ _ _ _ Hst Hg' Hinv) as [_ Hgord].
  destruct (go_rest _ _ _ _ Hgroup i Hi Hi') as [[[Hall _] _] | Hc].
  - apply Hng, Hall; [done|]. eapply inside_trans; [done | apply inside_gate].
  - by apply (pending_open _ _ _ Hst Hp), (closed_completed _ i).
Qed.

(** An untouched invocation of any group is inside [i] or has nothing in it. *)
Lemma skip_one_untouched g' group' i' :
  group_ok failing st g' group' → i' ∈ mr_invocations group' → untouched st i' →
  (∀ b, b ∈ sd_base_order st → inside i' b = true → inside i b = true) ∨
  (∀ b, b ∈ sd_base_order st → inside i' b = true → inside i b = false).
Proof.
  intros Hg' Hi'' [Hall _].
  destruct (sched_invocation _ _ _ _ _ Hst Hgroup Hi) as [Hio Higo].
  destruct (sched_invocation _ _ _ _ _ Hst Hg' Hi'') as [Hi'o _].
  destruct (inside i i') eqn:Hii'.
  { left. intros b _ Hb. by eapply inside_trans. }
  right. intros b Hb Hib. apply not_true_is_false. intros Hib'.
  destruct (sched_path _ _ _ Hst Hio) as [p Hp]. destruct (sched_path _ _ _ Hst Hi'o) as [q Hq].
  destruct (sched_path _ _ _ Hst Hb) as [r Hr].
  destruct (inside_comparable _ _ _ _ _ _ Hp Hq Hr Hib' Hib) as [? | Hi'i]; [congruence|].
  destruct (sched_scope _ _ _ _ _ Hst Hg' Hi'') as [[_ Hres _] _].
  assert (inside i' (gate_id i) = true) as Hgi by (eapply inside_trans; [done | apply inside_gate]).
  destruct (gate_inside _ _ _ _ i' i Hst Hgroup Hi Hres Hgi) as [-> | Hsib].
  - by rewrite inside_refl in Hii'.
  - pose proof (go_started _ _ _ _ Hgroup k Hk) as Hki. destruct (Hsib k Hki) as [Hi'k _].
    destruct (go_gate _ _ _ _ Hgroup k Hk) as [Hng _]. apply Hng, Hall.
    + apply (sched_invocation _ _ _ _ _ Hst Hgroup Hki).
    + eapply inside_trans; [done | apply inside_gate].
Qed.

Lemma skip_one_group st' g' group' :
  skipped (bases_inside st i) st st' → group_ok failing st g' group' → group_ok failing st' g' group'.
Proof.
  intros Hs Hg'. pose proof Hg' as [Hr Ha Hsi Hb Hgt Hre]. split; try done.
  - by rewrite (sk_jobs _ _ _ Hs).
  - intros i'. rewrite Ha. split; intros [Hi1 Hn]; (split; [done|]); intros Hc; apply Hn.
    + destruct (decide (completed st i')) as [|Hno]; [done|].
      destruct (skipped_new _ _ _ _ Hs Hc Hno) as [Hin Hp]. by destruct (skip_one_started _ _ _ Hg' Hi1 Hin Hp).
    + by eapply skipped_completed.
  - intros i' Hs'. destruct (Hgt i' Hs') as [Hng Hn]. split.
    + rewrite (sk_pending _ _ _ Hs). by intros [? _].
    + intros j d. rewrite (sk_jobs _ _ _ Hs). intros. eapply skipped_completed; [done|]. by eapply Hn.
  - intros i' Hinv Hns. destruct (Hre i' Hinv Hns) as [[Hu Hf] | Hc]; [|right; by eapply skipped_closed].
    destruct (skip_one_untouched _ _ _ Hg' Hinv Hu) as [Hsub | Hdis]; destruct Hu as [Hall Hbehind].
    + right. intros b. rewrite (sk_order _ _ _ Hs). intros Hbo Hbi.
      rewrite (sk_completed _ _ _ Hs), bool_decide_true; [done|].
      split; [|by apply Hall]. apply elem_of_bases_inside. auto.
    + left. split; [|done]. split; [|by rewrite (sk_jobs _ _ _ Hs)].
      intros b. rewrite (sk_order _ _ _ Hs), (sk_pending _ _ _ Hs). intros Hbo Hbi. split; [by apply Hall|].
      intros [_ Hin]%elem_of_bases_inside. by rewrite Hdis in Hin.
Qed.

Lemma skip_one_ok :
  sched_ok failing (skip_invocation i st) ∧ closed (skip_invocation i st) i.
Proof.
  pose proof (skip_invocation_spec _ _ i Hst) as Hs. split.
  - pose proof (λ g' group', skip_one_group (skip_invocation i st) g' group' Hs) as Hgroups.
    set (st' := skip_invocation i st) in *. clearbody st'.
    destruct Hst as [H1 H2 H3 H4 H5 H6 H7 H8 H9 H10 H11 H12 H13]. pose proof Hs as [E1 E2 E3 E4 E5 E6 E7 E8 E9 E10].
    split; rewrite ?E1, ?E2, ?E3, ?E4, ?E5, ?E6; try done.
    + intros b [Hp Hn]%E7. destruct (H5 b Hp) as (? & ? & Hnone). split_and!; [done..|].
      rewrite E8, bool_decide_false; [done | by intros [? _]].
    + intros r Hr. destruct (H7 r Hr) as [R1 R2 R3 R4 R5 R6]. split; rewrite ?E1, ?E2; try done.
      * rewrite E8, bool_decide_false; [done|]. intros [_ Hp]. destruct (H5 _ Hp) as (_ & Hnr & _).
        apply Hnr. by apply list_elem_of_fmap_2.
      * apply map_subseteq_spec. intros d c Hd. pose proof (lookup_weaken _ _ _ _ Hd R6) as Hc.
        rewrite E8, bool_decide_false; [done|]. intros [_ Hp]. destruct (H5 _ Hp) as (_ & _ & Hnone).
        congruence.
    + intros b Hb. destruct (decide (completed st b)) as [?|Hn]; [by apply H8|].
      destruct (skipped_new _ _ _ _ Hs Hb Hn) as [_ Hp]. apply H5, Hp.
    + intros b He Hb. rewrite E7. destruct (H9 b He Hb) as [Hp | [Hr | Hc]]; [|by auto|right; right; by eapply skipped_completed].
      destruct (decide (b ∈ bases_inside st i)); [|by auto]. right; right. unfold completed.
      rewrite E8, bool_decide_true by done. by eexists.
    + by apply E9.
    + destruct H11 as [Hnd Hel]. rewrite E10. split.
      * apply NoDup_app. split_and!; [done| |apply NoDup_filter; by apply NoDup_filter].
        intros b Hb%Hel [Hp _]%list_elem_of_filter. destruct (H5 b Hp) as (_ & _ & Hnone).
        destruct Hb as [? Hb]. congruence.
      * intros b. rewrite elem_of_app, list_elem_of_filter, Hel. split.
        { intros [Hc | [Hp Hin]]; [by eapply skipped_completed|]. unfold completed.
          rewrite E8, bool_decide_true by done. by eexists. }
        { intros Hc. destruct (decide (completed st b)) as [?|Hn]; [by left|]. right.
          destruct (skipped_new _ _ _ _ Hs Hc Hn). done. }
    + intros g' group' Hg'. by apply Hgroups, H12.
  - intros b. rewrite (sk_order _ _ _ Hs). intros Hb Hin.
    rewrite (sk_completed _ _ _ Hs). case_bool_decide as Hd; [done|].
    destruct (go_rest _ _ _ _ Hgroup i Hi Hi') as [[[Hall _] _] | Hc]; [|by apply Hc].
    destruct Hd. split; [by apply elem_of_bases_inside | by apply Hall].
Qed.
End skip_one.

(** *** A failed group, and all of them *)

Lemma skip_all_ok failing g group k l st :
  k ∈ mr_started group → (∀ i, i ∈ l → i ∈ mr_invocations group ∧ i ∉ mr_started group) →
  sched_ok failing st → sd_reusable_matrices st !! g = Some group →
  let st' := fold_left (λ st i, skip_invocation i st) l st in
  sched_ok failing st' ∧ sd_reusable_matrices st' = sd_reusable_matrices st ∧
  sd_cancellation_error st' = sd_cancellation_error st ∧
  (∀ i, closed st i ∨ i ∈ l → closed st' i).
Proof.
  intros Hk. revert st; induction l as [|i l IH]; intros st Hl Hst Hg; cbn [fold_left].
  { split_and!; [done..|]. by intros i [? | ?%not_elem_of_nil]. }
  destruct (Hl i (list_elem_of_here _ _)) as [Hi Hi'].
  pose proof (so_groups _ _ Hst g group Hg) as Hgroup.
  destruct (skip_one_ok failing st g i k group Hst Hgroup Hi Hi' Hk) as [Hok Hclosed].
  pose proof (skip_invocation_spec _ _ i Hst) as Hs.
  destruct (IH (skip_invocation i st)) as (? & Hm & He & Hc).
  - intros j Hj. by apply Hl, list_elem_of_further.
  - done.
  - by rewrite (sk_matrices _ _ _ Hs).
  - split_and!; [done | by rewrite Hm, (sk_matrices _ _ _ Hs) | by rewrite He, (sk_error _ _ _ Hs)|].
    intros j [Hj | [-> | Hj]%elem_of_cons]; apply Hc; [|by left|by right].
    left. by eapply skipped_closed.
Qed.

(** Once its unstarted invocations are closed, a group is no longer failing. *)
Lemma group_done failing g group st :
  sd_reusable_matrices st !! g = Some group →
  (∀ i, i ∈ mr_invocations group → i ∉ mr_started group → closed st i) →
  sched_ok (g :: failing) st → sched_ok failing st.
Proof.
  intros Hg Hc [H1 H2 H3 H4 H5 H6 H7 H8 H9 H10 H11 H12 H13]. split; try done.
  intros g' group' Hg'. destruct (H12 g' group' Hg') as [G1 G2 G3 G4 G5 G6]. split; try done.
  intros i Hi Hns. destruct (G6 i Hi Hns) as [[Hu Hf] | ?]; [|by right].
  destruct (decide (g' = g)) as [->|Hne].
  - right. rewrite Hg in Hg'. injection Hg' as <-. by apply Hc.
  - left. split; [done|]. destruct Hf as [? | [? | ?]%elem_of_cons]; [by left | done | by right].
Qed.

Lemma fail_groups_ok failed st :
  sched_ok failed st →
  (∀ g, g ∈ failed → ∃ group k, sd_reusable_matrices st !! g = Some group ∧ k ∈ mr_started group) →
  ∃ st', for_each fail_group failed st = Ok st' ∧ sched_ok [] st' ∧
    sd_cancellation_error st' = sd_cancellation_error st.
Proof.
  revert st; induction failed as [|g failed IH]; intros st Hst Hall; cbn [for_each]; [eauto|].
  destruct (Hall g (list_elem_of_here _ _)) as (group & k & Hg & Hk).
  unfold fail_group at 1. rewrite Hg. cbn [expect obind].
  destruct (skip_all_ok (g :: failed) g group k
    (base.filter (λ i, i ∉ mr_started group) (mr_invocations group)) st) as (Hok & Hm & He & Hc); [done| |done|done|].
  { by intros i [? ?]%list_elem_of_filter. }
  destruct (IH _ (group_done _ g group _ ltac:(by rewrite Hm)
    ltac:(intros i Hi Hns; apply Hc; right; by apply list_elem_of_filter) Hok)) as (st' & Hf & Hok' & He').
  - intros g' Hg'. destruct (Hall g' (list_elem_of_further _ _ _ Hg')) as (group' & k' & ? & ?).
    exists group', k'. by rewrite Hm.
  - exists st'. split_and!; [done..|]. by rewrite He', He.
Qed.

(** ** A base completes *)

Section complete.
Context (st : Sched) (before after : list Running) (r : Running) (execution : BaseExecution).
Hypothesis Hst : sched_ok [] st.
Hypothesis Hrunning : sd_running_bases st = before ++ r :: after.
Hypothesis Hbase : be_base_id execution = rn_base_id r.

Lemma complete_running : running_ok st r.
Proof. apply (so_running _ _ Hst). rewrite Hrunning. apply elem_of_app. right. apply list_elem_of_here. Qed.

Lemma complete_running_ids b :
  b ∈ running_ids st ↔ b ∈ rn_base_id <$> (before ++ after) ∨ b = rn_base_id r.
Proof.
  rewrite Hrunning, !fmap_app, fmap_cons, !elem_of_app, elem_of_cons. tauto.
Qed.

Lemma complete_not_pending : rn_base_id r ∉ sd_pending_bases st.
Proof. intros Hp. destruct (so_pending _ _ Hst _ Hp) as (_ & Hn & _). apply Hn, complete_running_ids. by right. Qed.

Lemma complete_rest_nodup :
  NoDup (rn_base_id <$> (before ++ after)) ∧ rn_base_id r ∉ rn_base_id <$> (before ++ after).
Proof.
  pose proof (so_running_ids _ _ Hst) as Hnd. rewrite Hrunning in Hnd.
  rewrite <-Permutation_middle in Hnd. rewrite fmap_cons in Hnd. by apply NoDup_cons in Hnd as [? ?].
Qed.

Lemma complete_rest_running q : q ∈ before ++ after → q ∈ sd_running_bases st.
Proof. rewrite Hrunning, !elem_of_app, elem_of_cons. tauto. Qed.

Definition finished : Sched :=
  st <| sd_running_bases := before ++ after |>
     <| sd_completed_steps := sd_completed_steps st + be_completed_steps execution |>
     <| sd_completed_outputs := <[be_base_id execution := be_outputs execution]> (sd_completed_outputs st) |>
     <| sd_completion_order := sd_completion_order st ++ [be_base_id execution] |>
     <| sd_completed_bases := <[be_base_id execution := be_conclusion execution]> (sd_completed_bases st) |>
     <| sd_reusable_matrices :=
          finish_invocation (be_base_id execution) (be_conclusion execution) <$> sd_reusable_matrices st |>.

Definition failed_groups : list string :=
  (finish_reusable_matrix_invocation (sd_reusable_matrices st) (be_base_id execution)
     (be_conclusion execution)).2.

Lemma finished_completed b : completed finished b ↔ b = rn_base_id r ∨ completed st b.
Proof.
  unfold completed, finished; simpl. rewrite Hbase, lookup_insert_is_Some.
  destruct (decide (b = rn_base_id r)); naive_solver.
Qed.

Lemma elem_of_failed_groups g :
  g ∈ failed_groups ↔ ∃ group, sd_reusable_matrices st !! g = Some group ∧
    invocation_fails (be_base_id execution) (be_conclusion execution) group = true.
Proof.
  unfold failed_groups; simpl. rewrite list_elem_of_fmap. split.
  - intros ([g' group] & -> & [Hf Hin%elem_of_btree_iter]%list_elem_of_filter). by exists group.
  - intros (group & Hg & Hf). exists (g, group). split; [done|].
    apply list_elem_of_filter. split; [done | by apply elem_of_btree_iter].
Qed.

(** The invocation that has just completed had been started. *)
Lemma complete_started g group :
  sd_reusable_matrices st !! g = Some group → rn_base_id r ∈ mr_invocations group →
  rn_base_id r ∈ mr_started group.
Proof.
  intros Hg Hi. destruct (decide (rn_base_id r ∈ mr_started group)) as [?|Hns]; [done|].
  pose proof complete_running as Hr.
  destruct (go_rest _ _ _ _ (so_groups _ _ Hst g group Hg) _ Hi Hns) as [[[Hall _] _] | Hc].
  - destruct complete_not_pending. apply Hall; [apply Hr | apply inside_refl].
  - pose proof (Hc (rn_base_id r) (ro_base _ _ Hr) (inside_refl _)) as Hcc.
    by rewrite (ro_open _ _ Hr) in Hcc.
Qed.

Lemma finished_group g group :
  sd_reusable_matrices st !! g = Some group →
  group_ok failed_groups finished g
    (finish_invocation (be_base_id execution) (be_conclusion execution) group).
Proof.
  intros Hg. pose proof (so_groups _ _ Hst g group Hg) as [G1 G2 G3 G4 G5 G6].
  pose proof finished_completed as Hcomp.
  assert (∀ i, i ∈ mr_invocations group → i ∉ mr_started group →
    (untouched finished i ∧ mr_failed group = false) ∨ closed finished i) as Hrest.
  { intros i Hi Hns. destruct (G6 i Hi Hns) as [[Hu [Hf | ?%not_elem_of_nil]] | Hc]; [by left|done|].
    right. intros b Hb Hin. unfold finished; simpl. rewrite Hbase, lookup_insert_ne; [by apply Hc|].
    intros <-. pose proof (Hc _ Hb Hin) as Hcc. by rewrite (ro_open _ _ complete_running) in Hcc. }
  assert (∀ i, i ∈ mr_started group → gate_id i ∉ sd_pending_bases finished ∧
    ∀ j d, j ∈ sd_jobs finished → pj_base_id j = gate_id i → d ∈ pj_needs j → completed finished d) as Hgate.
  { intros i Hi. destruct (G5 i Hi) as [? Hn]. split; [done|]. intros j d Hj Hb Hd.
    apply Hcomp. right. by eapply Hn. }
  unfold finish_invocation. case_bool_decide as Hin.
  - rewrite Hbase in Hin. pose proof (complete_started g group Hg Hin) as Hs. split; simpl; try done.
    + intros i. rewrite elem_of_difference, not_elem_of_singleton, G2, Hcomp, Hbase. tauto.
    + pose proof (subseteq_size (mr_active group ∖ {[be_base_id execution]}) (mr_active group) ltac:(set_solver)). lia.
    + intros i Hi Hns. destruct (Hrest i Hi Hns) as [[Hu Hf] | Hc]; [|by right]. left. split; [done|].
      rewrite Hf. simpl. destruct (invocation_fails _ _ group) eqn:E; [|by left].
      right. apply elem_of_failed_groups. eauto.
  - rewrite Hbase in Hin. split; try done.
    + intros i. rewrite G2, Hcomp. split; [|tauto]. intros [Hi Hn]. split; [done|].
      intros [-> | ?]; [|done]. by apply Hin, G3.
    + intros i Hi Hns. destruct (Hrest i Hi Hns) as [[Hu Hf] | Hc]; [left; auto | by right].
Qed.

Lemma finished_ok : sched_ok failed_groups finished.
Proof.
  pose proof complete_running as Hr. pose proof complete_running_ids as Hids.
  pose proof complete_rest_nodup as [Hnd Hnr]. pose proof complete_rest_running as Hrest.
  pose proof finished_completed as Hcomp. pose proof finished_group as Hgroups.
  pose proof complete_not_pending as Hnp.
  destruct Hst as [H1 H2 H3 H4 H5 H6 H7 H8 H9 H10 H11 H12 H13].
  split; simpl; try done.
  - intros b Hb. destruct (H5 b Hb) as (? & Hn & Hnone). rewrite Hids in Hn. split_and!; [done|tauto|].
    rewrite Hbase, lookup_insert_ne; [done|]. intros <-. done.
  - intros q Hq. destruct (H7 q (Hrest q Hq)) as [R1 R2 R3 R4 R5 R6]. split; simpl; try done.
    + rewrite Hbase, lookup_insert_ne; [done|]. intros Heq. apply Hnr. rewrite Heq. by apply list_elem_of_fmap_2.
    + etrans; [done|]. rewrite Hbase. apply insert_subseteq, Hr.
  - intros b [-> | Hb]%Hcomp; [apply Hr | by apply H8].
  - intros b He Hb. rewrite Hcomp. destruct (H9 b He Hb) as [?|[?%Hids|?]]; tauto.
  - by rewrite !dom_insert_L, H10.
  - destruct H11 as [Hn Hel]. rewrite Hbase. split.
    + apply NoDup_app. split_and!; [done| |apply NoDup_singleton].
      intros b Hb%Hel ->%list_elem_of_singleton. destruct Hb as [? Hb]. by rewrite (ro_open _ _ Hr) in Hb.
    + intros b. rewrite elem_of_app, list_elem_of_singleton, Hel, Hcomp. tauto.
  - intros g group. rewrite lookup_fmap. intros (group0 & Hg & ->)%fmap_Some. by apply Hgroups.
  - intros q invs mp ff Hq Hv. rewrite lookup_fmap. by apply fmap_is_Some, (H13 q invs mp ff).
Qed.

Lemma complete_base_ok :
  ∃ st', complete_base (st <| sd_running_bases := before ++ after |>) execution = Ok st' ∧
    sched_ok [] st' ∧ sd_cancellation_error st' = sd_cancellation_error st.
Proof.
  apply (fail_groups_ok failed_groups finished finished_ok).
  intros g (group & Hg & Hf)%elem_of_failed_groups.
  exists (finish_invocation (be_base_id execution) (be_conclusion execution) group), (rn_base_id r).
  unfold finished; simpl. rewrite lookup_fmap, Hg. split; [done|].
  unfold invocation_fails in Hf. apply andb_prop in Hf as [[[Hin _]%andb_prop _]%andb_prop _].
  apply bool_decide_eq_true in Hin. unfold finish_invocation. rewrite bool_decide_true by done.
  simpl. rewrite Hbase in Hin. by eapply complete_started.
Qed.
End complete.

(** ** An error is kept *)

Lemma step_error_ok st before after r error :
  sched_ok [] st → sd_running_bases st = before ++ r :: after →
  sched_ok [] (st <| sd_running_bases := before ++ after |>
                  <| sd_cancellation_error := Some error |>).
Proof.
  intros Hst Hrunning. pose proof (complete_running_ids st before after r Hrunning) as Hids.
  pose proof (complete_rest_nodup st before after r Hst Hrunning) as [Hnd _].
  pose proof (complete_rest_running st before after r Hrunning) as Hrest.
  destruct Hst as [H1 H2 H3 H4 H5 H6 H7 H8 H9 H10 H11 H12 H13]. split; simpl; try done.
  - intros b Hb. destruct (H5 b Hb) as (? & Hn & ?). rewrite Hids in Hn. split_and!; [done|tauto|done].
  - intros q Hq. destruct (H7 q (Hrest q Hq)) as [? ? ? ? ? ?]. by split.
  - intros g group Hg. destruct (H12 g group Hg) as [? ? ? ? ? ?]. by split.
Qed.
End steps.
