(* ===== verification/SchedulerProgress.v ===== *)
(** * A dynamic call is expanded at run time

    The branch of the loop that replaces a running call by its jobs: the call
    is a leaf of the running plan's name spaces, its expansion is scoped, and so
    the invariant of [SchedulerInv] holds again, with the new bases pending and
    the new matrices untouched. *)

From S2P Require Import Prelude RustStr OrdMap Yaml Expression Evaluate Instances Workflow Dependencies Expansion.
From S2P Require Import Scopes ScopedExpansion Scheduler SchedulerInv.

Section order.
Context `{VT : ValueTypes}.

Lemma base_order_of_spec jobs :
  let '(order, seen) := base_order_of jobs in
  NoDup order ∧ (∀ b, b ∈ seen ↔ b ∈ order) ∧ (∀ b, b ∈ order ↔ b ∈ base_ids jobs).
Proof.
  unfold base_order_of.
  enough (∀ (acc : list string * gset string), NoDup acc.1 → (∀ b, b ∈ acc.2 ↔ b ∈ acc.1) →
    let '(order, seen) := fold_left (λ acc job, push_base (pj_base_id job) acc) jobs acc in
    NoDup order ∧ (∀ b, b ∈ seen ↔ b ∈ order) ∧
    (∀ b, b ∈ order ↔ b ∈ acc.1 ∨ b ∈ base_ids jobs)) as Hgen.
  { specialize (Hgen ([], ∅)). destruct (fold_left _ _ _) as [order seen].
    destruct Hgen as (? & ? & Hb); [constructor | set_solver|]. split_and!; [done..|].
    intros b. rewrite Hb. simpl. rewrite elem_of_nil. tauto. }
  induction jobs as [|j jobs IH]; intros [order seen] Hnd Hs; cbn [fold_left].
  { split_and!; [done..|]. intros b. split; [auto|]. by intros [? | (? & ?%not_elem_of_nil & _)%elem_of_base_ids]. }
  assert (∀ b, b ∈ base_ids (j :: jobs) ↔ b = pj_base_id j ∨ b ∈ base_ids jobs) as Hcons.
  { intros b. rewrite !elem_of_base_ids. split.
    - intros (k & [-> | Hk]%elem_of_cons & <-); eauto.
    - intros [-> | (k & Hk & <-)]; eexists; (split; [|done]); [apply list_elem_of_here | by apply list_elem_of_further]. }
  unfold push_base at 2. case_bool_decide as Hin.
  - specialize (IH (order, seen) Hnd Hs). destruct (fold_left _ _ _) as [order' seen'].
    destruct IH as (? & ? & Hb). split_and!; [done..|]. intros b. rewrite Hb, Hcons. simpl in *.
    split; [tauto|]. intros [?|[->|?]]; [by left | left; by apply Hs | by right].
  - specialize (IH (order ++ [pj_base_id j], {[pj_base_id j]} ∪ seen)).
    destruct (fold_left _ _ _) as [order' seen']. simpl in *. destruct IH as (? & ? & Hb).
    + apply NoDup_app. split_and!; [done| |apply NoDup_singleton].
      intros b Hbo ->%list_elem_of_singleton. by apply Hin, Hs.
    + intros b. rewrite elem_of_union, elem_of_singleton, elem_of_app, list_elem_of_singleton, Hs. tauto.
    + split_and!; [done..|]. intros b. rewrite Hb, Hcons, elem_of_app, list_elem_of_singleton. tauto.
Qed.

(** The groups of a plan: one for each matrix result, all its invocations
    waiting. *)
Lemma lookup_runtimes (jobs : list PlannedJob) g group :
  reusable_matrix_runtimes jobs !! g = Some group →
  ∃ r invocations mp ff, r ∈ jobs ∧ pj_base_id r = g ∧
    pj_virtual_job r = Some (ReusableMatrixResult invocations mp ff) ∧
    group = mkRuntime invocations mp ff ∅ ∅ false false.
Proof.
  unfold reusable_matrix_runtimes. intros (r & Hr & Hv)%lookup_btree_collect_Some%list_elem_of_omap.
  destruct (pj_virtual_job r) as [[| |invs mp ff|]|] eqn:E; try done.
  injection Hv as <- <-. by exists r, invs, mp, ff.
Qed.

Lemma runtimes_is_Some (jobs : list PlannedJob) r invocations mp ff :
  r ∈ jobs → pj_virtual_job r = Some (ReusableMatrixResult invocations mp ff) →
  is_Some (reusable_matrix_runtimes jobs !! pj_base_id r).
Proof.
  intros Hr Hv. apply elem_of_dom. unfold reusable_matrix_runtimes.
  apply elem_of_dom_btree_collect, list_elem_of_fmap. eexists (_, _). split; [reflexivity|].
  apply list_elem_of_omap. exists r. by rewrite Hv.
Qed.
End order.

Section expand.
Context `{VT : ValueTypes} `{EL : ExpressionLib} `{JL : !JsonLib}.

Abbreviation running_ids st := (rn_base_id <$> sd_running_bases st).

(** The bases of an expansion join the order and the pending ones. *)
Record pushed (l : list string) (st st' : Sched) : Prop := {
  pu_jobs : sd_jobs st' = sd_jobs st;
  pu_completed : sd_completed_bases st' = sd_completed_bases st;
  pu_outputs : sd_completed_outputs st' = sd_completed_outputs st;
  pu_completion : sd_completion_order st' = sd_completion_order st;
  pu_matrices : sd_reusable_matrices st' = sd_reusable_matrices st;
  pu_running : sd_running_bases st' = sd_running_bases st;
  pu_error : sd_cancellation_error st' = sd_cancellation_error st;
  pu_nodup : NoDup (sd_base_order st) → (∀ b, b ∈ sd_seen st ↔ b ∈ sd_base_order st) →
    NoDup (sd_base_order st');
  pu_seen : (∀ b, b ∈ sd_seen st ↔ b ∈ sd_base_order st) → ∀ b, b ∈ sd_seen st' ↔ b ∈ sd_base_order st';
  pu_order b : (∀ b, b ∈ sd_seen st ↔ b ∈ sd_base_order st) →
    b ∈ sd_base_order st' ↔ b ∈ sd_base_order st ∨ b ∈ l;
  pu_pending b : b ∈ sd_pending_bases st' ↔ b ∈ sd_pending_bases st ∨ b ∈ l;
}.

Lemma push_expansion_base_spec b st : pushed [b] st (push_expansion_base b st).
Proof.
  unfold push_expansion_base, push_base. case_bool_decide as Hin; split; simpl; try done.
  - intros c Hs. rewrite list_elem_of_singleton. split; [auto|]. intros [? | ->]; [done | by apply Hs].
  - intros c. rewrite elem_of_union, elem_of_singleton, list_elem_of_singleton. tauto.
  - intros Hnd Hs. apply NoDup_app. split_and!; [done| |apply NoDup_singleton].
    intros c Hc ->%list_elem_of_singleton. by apply Hin, Hs.
  - intros Hs c. rewrite elem_of_union, elem_of_singleton, elem_of_app, list_elem_of_singleton, Hs. tauto.
  - intros c Hs. by rewrite elem_of_app.
  - intros c. rewrite elem_of_union, elem_of_singleton, list_elem_of_singleton. tauto.
Qed.

Lemma pushed_trans l k st st' st'' : pushed l st st' → pushed k st' st'' → pushed (l ++ k) st st''.
Proof.
  intros [A1 A2 A3 A4 A5 A6 A7 A8 A9 A10 A11] [B1 B2 B3 B4 B5 B6 B7 B8 B9 B10 B11].
  split; try congruence; auto.
  - intros b Hs. rewrite B10, A10, elem_of_app by auto. tauto.
  - intros b. rewrite B11, A11, elem_of_app. tauto.
Qed.
Lemma push_bases_spec l st : pushed l st (fold_left (λ st b, push_expansion_base b st) l st).
Proof.
  revert st; induction l as [|b l IH]; intros st; cbn [fold_left].
  { split; auto; intros b; rewrite elem_of_nil; tauto. }
  apply (pushed_trans [b] l _ (push_expansion_base b st)); [apply push_expansion_base_spec | apply IH].
Qed.

(** *** The new state *)

Section state.
Context (st : Sched) (before after : list Running) (r : Running) (call : PlannedJob).
Context (plan : ExecutionPlan) (inputs : gmap string PlannedReusableInput).
Context (secrets : PlannedReusableSecretScope) (outputs : gmap string string).
Context (template : PlannedJob) (instances : list PlannedJob) (steps : nat) (outs : gmap string string).
Hypothesis Hst : sched_ok [] st.
Hypothesis Hrunning : sd_running_bases st = before ++ r :: after.
Hypothesis Hjobs : rn_jobs r = [call].
Hypothesis Hvirtual : pj_virtual_job call = Some (ReusableDynamicCall plan inputs secrets outputs).
Hypothesis Hneeds : ∀ p, p ∈ instances → pj_needs p = pj_needs call.

Let E : list PlannedJob :=
  matrix_expansion (pj_base_id call) template instances plan inputs secrets outputs.

Lemma expand_call : call ∈ sd_jobs st ∧ pj_base_id call = rn_base_id r.
Proof.
  pose proof (ro_jobs _ _ (complete_running _ _ _ _ Hst Hrunning)) as Hj. rewrite Hjobs in Hj.
  assert (call ∈ [call]) as H by apply list_elem_of_here. rewrite Hj in H.
  by apply list_elem_of_filter in H as [? ?].
Qed.

Lemma expand_called : well_scoped [] (ep_jobs plan) ∧ callable (ep_jobs plan).
Proof.
  destruct expand_call as [Hc _]. pose proof (so_scoped _ _ Hst) as H. inversion_clear H as [? ? _ Hd].
  by eapply Hd.
Qed.

Lemma expand_leaf k :
  k ∈ sd_jobs st → inside (pj_base_id call) (pj_base_id k) = true → pj_base_id k = pj_base_id call.
Proof.
  destruct expand_call as [Hc _]. intros Hk. apply (sc_leaf _ _ (well_scoped_scoped _ _ (so_scoped _ _ Hst))); [done| |done].
  by eexists _, _, _, _.
Qed.

Lemma expand_leaf_base b :
  b ∈ sd_base_order st → inside (pj_base_id call) b = true → b = pj_base_id call.
Proof. intros (k & Hk & <-)%(so_bases _ _ Hst)%elem_of_base_ids. by apply expand_leaf. Qed.

Lemma expand_needs_apart d : d ∈ pj_needs call → inside (pj_base_id call) d = false.
Proof.
  destruct expand_call as [Hc _]. pose proof (well_scoped_scoped _ _ (so_scoped _ _ Hst)) as Hs.
  intros Hd. apply not_true_is_false. intros Hin.
  destruct (sc_closed _ _ Hs call d Hc Hd) as [Hb | ?%not_elem_of_nil]; [|done].
  apply (so_bases _ _ Hst), expand_leaf_base in Hb; [|done]. subst d.
  assert (∀ b, Acc (needed (sd_jobs st)) b → b = pj_base_id call → False) as Hirr.
  { induction 1 as [b _ IH]. intros ->. apply (IH (pj_base_id call)); [|done]. by exists call. }
  by eapply Hirr; [apply (sc_acyclic _ _ Hs)|].
Qed.

Lemma expand_path : ∃ p, path_of p (pj_base_id call).
Proof. destruct expand_call as [Hc _]. by eapply sc_path, Hc; apply well_scoped_scoped, Hst. Qed.

Lemma expand_E_scoped : well_scoped (pj_needs call) E.
Proof.
  destruct expand_path as [p Hp]. destruct expand_called as [Hw Hca].
  apply (matrix_expansion_well_scoped _ p); [done|done|apply Hca|done|apply expand_needs_apart].
Qed.

Lemma expand_E_inside e : e ∈ E → inside (pj_base_id call) (pj_base_id e) = true.
Proof.
  destruct expand_path as [p Hp]. destruct expand_called as [Hw Hca].
  by apply matrix_inside.
Qed.

Lemma expand_E_base b : b ∈ base_ids E → inside (pj_base_id call) b = true.
Proof. intros (e & He & <-)%elem_of_base_ids. by apply expand_E_inside. Qed.

Lemma expand_spliced : well_scoped [] (spliced (sd_jobs st) E call).
Proof.
  destruct expand_call as [Hc _].
  apply splice_well_scoped; [apply Hst|done| |apply expand_leaf|apply expand_E_scoped|apply expand_E_inside|].
  - right. by eexists _, _, _, _.
  - apply job_id_in_matrix_expansion.
Qed.
Abbreviation next := (expand_base (st <| sd_running_bases := before ++ after |>)
                        (mkExecution (rn_base_id r) JobSuccess steps outs E)).

#[local] Arguments expand_base : simpl never.

Lemma next_spec :
  sd_jobs next = spliced (sd_jobs st) E call ∧
  sd_completed_bases next = sd_completed_bases st ∧
  sd_completed_outputs next = sd_completed_outputs st ∧
  sd_completion_order next = sd_completion_order st ∧
  sd_reusable_matrices next = sd_reusable_matrices st ∪
    reusable_matrix_runtimes (spliced (sd_jobs st) E call) ∧
  sd_running_bases next = before ++ after ∧
  sd_cancellation_error next = sd_cancellation_error st ∧
  NoDup (sd_base_order next) ∧
  (∀ b, b ∈ sd_seen next ↔ b ∈ sd_base_order next) ∧
  (∀ b, b ∈ sd_base_order next ↔ b ∈ sd_base_order st ∨ b ∈ base_ids E) ∧
  (∀ b, b ∈ sd_pending_bases next ↔ b ∈ sd_pending_bases st ∨ b ∈ base_ids E).
Proof.
  destruct expand_call as [_ Hb]. unfold expand_base; simpl. rewrite <-Hb. fold (spliced (sd_jobs st) E call).
  pose proof (base_order_of_spec E) as Ho. destruct (base_order_of E) as [order seen]. destruct Ho as (_ & _ & Ho).
  destruct (push_bases_spec order (st <| sd_running_bases := before ++ after |>
    <| sd_jobs := spliced (sd_jobs st) E call |>)) as [A1 A2 A3 A4 A5 A6 A7 A8 A9 A10 A11].
  simpl in *. split_and!; try assumption.
  - by rewrite A5.
  - by apply A8; apply Hst.
  - apply A9, Hst.
  - intros b. rewrite A10, Ho by apply Hst. done.
  - intros b. by rewrite A11, Ho.
Qed.

(** What is inside an old matrix or its gates is not in the expansion. *)
Lemma expand_kept j : j ∈ sd_jobs st → is_gate j ∨ is_result j ∨ (∃ i mp ff, pj_virtual_job j = Some (ReusableMatrixResult i mp ff)) →
  pj_base_id j ≠ pj_base_id call.
Proof.
  destruct expand_call as [Hc _]. intros Hj Hv Heq.
  destruct (sc_uniform _ _ (well_scoped_scoped _ _ (so_scoped _ _ Hst)) j call Hj Hc Heq) as [_ Hv'].
  unfold is_gate, is_result in Hv. rewrite Hvirtual in Hv'. rewrite Hv' in Hv.
  destruct Hv as [? | [(? & ? & ?) | (? & ? & ? & ?)]]; done.
Qed.

Lemma expand_running_order b : b ∈ running_ids st → b ∈ sd_base_order st.
Proof. intros (q & -> & Hq)%list_elem_of_fmap. apply (so_running _ _ Hst q Hq). Qed.

(** An invocation that is not touched does not hold the running call. *)
Lemma expand_untouched i :
  (∀ b, b ∈ sd_base_order st → inside i b = true → b ∈ sd_pending_bases st) → inside i (pj_base_id call) = false.
Proof.
  intros Hall. apply not_true_is_false. intros Hin. destruct expand_call as [_ Hb]. rewrite Hb in Hin.
  apply (complete_not_pending _ _ _ _ Hst Hrunning), Hall; [|done].
  apply (complete_running _ _ _ _ Hst Hrunning).
Qed.

Lemma expand_open : ¬ completed st (pj_base_id call).
Proof.
  destruct expand_call as [_ ->]. pose proof (ro_open _ _ (complete_running _ _ _ _ Hst Hrunning)) as H.
  unfold completed. rewrite H. by intros [? ?].
Qed.

(** Nothing of the expansion is inside an old invocation, unless the call is. *)
Lemma expand_outside g group i b :
  group_ok [] st g group → i ∈ mr_invocations group → b ∈ base_ids E → inside i b = true →
  inside i (pj_base_id call) = true.
Proof.
  intros Hg Hi Hb Hin. pose proof (expand_E_base b Hb) as Hcb.
  destruct (sched_invocation _ _ _ _ _ Hst Hg Hi) as [Hio _]. destruct (sched_path _ _ _ Hst Hio) as [p Hp].
  destruct expand_path as [q Hq]. apply elem_of_base_ids in Hb as (e & He & <-).
  destruct (sc_path _ _ (well_scoped_scoped _ _ expand_E_scoped) e He) as [t Ht].
  destruct (inside_comparable _ _ _ _ _ _ Hp Hq Ht Hin Hcb) as [? | Hci]; [done|].
  exfalso. apply expand_leaf_base in Hci; [|done].
  destruct (sched_scope _ _ _ _ _ Hst Hg Hi) as [[_ (res & Hres & Hrb & Hrv) _] _].
  apply (expand_kept res Hres); [auto | congruence].
Qed.

Lemma expand_old_group g group :
  sd_reusable_matrices st !! g = Some group → group_ok [] next g group.
Proof.
  intros Hg. pose proof (so_groups _ _ Hst g group Hg) as Hgroup.
  destruct next_spec as (Nj & Nc & _ & _ & _ & _ & _ & _ & _ & No & Np).
  pose proof (λ i b, expand_outside g group i b Hgroup) as Hout.
  pose proof Hgroup as [(res & Hres & Hrb & Hrv) G2 G3 G4 G5 G6]. split; try done.
  - exists res. split_and!; [|done..]. rewrite Nj. apply elem_of_spliced. left. split; [done|].
    apply expand_kept; [done|]. right; right. eauto.
  - intros i. rewrite G2. unfold completed. by rewrite Nc.
  - intros i Hi. destruct (G5 i Hi) as [Hnp Hn]. pose proof (G3 i Hi) as Hinv.
    destruct (sched_scope _ _ _ _ _ Hst Hgroup Hinv) as [[(gate & Hgj & Hgb & Hgv) _ _] _].
    pose proof (expand_kept gate Hgj (or_introl Hgv)) as Hgc. rewrite Hgb in Hgc.
    assert (gate_id i ∉ base_ids E) as HgE.
    { intros Hb%expand_E_base. apply Hgc, expand_leaf_base; [|done]. by eapply sched_invocation. }
    split.
    + rewrite Np. tauto.
    + intros j d. rewrite Nj. intros [[Hj _] | Hj]%elem_of_spliced Hb Hd; unfold completed; rewrite Nc; [by eapply Hn|].
      destruct HgE. rewrite <-Hb. apply elem_of_base_ids. eauto.
  - intros i Hi Hns. destruct (G6 i Hi Hns) as [[[Hall Hbehind] Hf] | Hc].
    + left. split; [|done]. pose proof (expand_untouched i Hall) as Hic. split.
      * intros b [Hb | Hb]%No Hin; apply Np; [left; by apply Hall | by right].
      * intros j. rewrite Nj. intros [[Hj _] | Hj]%elem_of_spliced Hin Hne; [by apply Hbehind|].
        rewrite (Hout i (pj_base_id j)) in Hic; [done|done| |done]. apply elem_of_base_ids. eauto.
    + right. intros b [Hb | Hb]%No Hin; rewrite Nc; [by apply Hc|].
      destruct expand_open. eapply closed_completed; [done| |by eapply Hout].
      destruct expand_call as [Hcj _]. apply (so_bases _ _ Hst), elem_of_base_ids. eauto.
Qed.

Lemma expand_new_group g group :
  sd_reusable_matrices st !! g = None →
  reusable_matrix_runtimes (spliced (sd_jobs st) E call) !! g = Some group → group_ok [] next g group.
Proof.
  intros Hg (res & invs & mp & ff & Hres & Hrb & Hrv & ->)%lookup_runtimes.
  destruct next_spec as (Nj & Nc & _ & _ & _ & _ & _ & _ & _ & No & Np).
  assert (res ∈ E) as HresE.
  { apply elem_of_spliced in Hres as [[Hold _] | ?]; [|done].
    destruct (so_group _ _ Hst _ _ _ _ Hold Hrv) as [? Hs]. congruence. }
  pose proof (well_scoped_scoped _ _ expand_spliced) as Hs.
  destruct (sc_matrix _ _ Hs res invs mp ff Hres Hrv) as [Hmp Hinv].
  split; cbn [mr_invocations mr_max_parallel mr_fail_fast mr_active mr_started mr_failed]; try done.
  - exists res. by rewrite Nj.
  - intros i. rewrite elem_of_empty. split; [done|]. by intros [? _].
  - rewrite size_empty. lia.
  - intros i Hi _. left. split; [|by left]. destruct (Hinv i Hi) as (_ & (m & _ & Him) & _).
    assert (inside (pj_base_id call) i = true) as Hci.
    { rewrite Him. eapply inside_trans; [by apply expand_E_inside | apply inside_namespaced]. }
    split.
    + intros b [Hb | Hb]%No Hin; apply Np; [|by right]. exfalso.
      assert (inside (pj_base_id call) b = true) as Hcb by by eapply inside_trans.
      apply expand_leaf_base in Hcb as ->; [|done].
      apply inside_slen in Hin. pose proof (inside_slen _ _ (expand_E_inside res HresE)).
      pose proof (slen_namespaced (pj_base_id res) m). subst i. lia.
    + rewrite Nj. intros j [[Hj Hne] | Hj]%elem_of_spliced Hin Hjg.
      * exfalso. apply Hne, expand_leaf; [done|]. by eapply inside_trans.
      * destruct expand_path as [p Hp]. destruct expand_called as [Hw Hca].
        eapply (matrix_guarded _ p); [exact Hp | by apply well_scoped_scoped | apply Hca | exact Hneeds |
          apply expand_needs_apart | apply Hca | apply Hca | exact HresE | exact Hrv | done..].
Qed.

Lemma expand_running q : q ∈ before ++ after → running_ok next q.
Proof.
  destruct next_spec as (Nj & Nc & _ & _ & _ & _ & _ & _ & _ & No & Np). intros Hq.
  pose proof (complete_rest_nodup _ _ _ _ Hst Hrunning) as [_ Hnr].
  destruct (so_running _ _ Hst q (complete_rest_running _ _ _ _ Hrunning q Hq)) as [R1 R2 R3 R4 R5 R6].
  assert (rn_base_id q ≠ pj_base_id call) as Hne.
  { destruct expand_call as [_ ->]. intros Heq. apply Hnr. rewrite <-Heq. by apply list_elem_of_fmap_2. }
  split; try done.
  - apply No. by left.
  - by rewrite Nc.
  - rewrite R3, Nj. unfold spliced. rewrite filter_app.
    assert (base.filter (λ j, pj_base_id j = rn_base_id q) E = []) as ->.
    { apply elem_of_nil_inv. intros j [Hb Hj]%list_elem_of_filter. apply Hne.
      rewrite <-Hb. apply expand_leaf_base; [by rewrite Hb | by apply expand_E_inside]. }
    rewrite app_nil_r, list_filter_filter. apply filter_iff_in. intros j _. split; [|by intros [? _]].
    intros Hb. split; [done|]. by rewrite Hb.
  - by rewrite Nc.
Qed.

Lemma expand_base_ok : sched_ok [] next.
Proof.
  pose proof expand_running as Hrun. pose proof expand_old_group as Hold. pose proof expand_new_group as Hnew.
  pose proof expand_leaf_base as Hleaf. pose proof expand_E_base as HEb. pose proof expand_open as Hopen.
  pose proof (complete_rest_nodup _ _ _ _ Hst Hrunning) as [Hnd Hnr].
  pose proof (complete_running_ids _ _ _ _ Hrunning) as Hids.
  destruct expand_call as [Hcall Hcb].
  destruct next_spec as (Nj & Nc & Nout & Nco & Nm & Nr & Ne & Nnd & Ns & No & Np).
  split.
  - rewrite Nj. apply expand_spliced.
  - done.
  - done.
  - intros b. rewrite No, Nj, (so_bases _ _ Hst). split.
    + intros [Hb | (e & He & <-)%elem_of_base_ids].
      * apply base_ids_spliced; [apply job_id_in_matrix_expansion | done].
      * apply elem_of_base_ids. exists e. split; [apply elem_of_spliced; auto | done].
    + intros (j & [[Hj _] | Hj]%elem_of_spliced & <-)%elem_of_base_ids; [left | right]; apply elem_of_base_ids; eauto.
  - intros b [Hb | Hb]%Np; rewrite No, Nr, Nc.
    + destruct (so_pending _ _ Hst b Hb) as (? & Hn & ?). rewrite Hids in Hn. split_and!; [by left|tauto|done].
    + split_and!; [by right| |].
      * intros Hin. assert (b = pj_base_id call) as ->; [|congruence].
        apply Hleaf; [|by apply HEb]. apply expand_running_order, Hids. by left.
      * destruct (sd_completed_bases st !! b) as [c|] eqn:Hc; [|done].
        assert (completed st b) as Hcomp by by eexists. exfalso. apply Hopen.
        assert (b = pj_base_id call) as <-; [|done]. apply Hleaf; [by apply (so_completed _ _ Hst) | by apply HEb].
  - by rewrite Nr.
  - intros q. rewrite Nr. apply Hrun.
  - intros b. unfold completed. rewrite Nc, No. intros Hc. left. by apply (so_completed _ _ Hst).
  - intros b. rewrite Ne, No, Np, Nr. unfold completed. rewrite Nc. intros He [Hb | Hb]; [|by auto].
    destruct (so_cover _ _ Hst b He Hb) as [? | [[? | ->]%Hids | ?]]; [by auto|by auto| |by auto].
    left. right. rewrite <-Hcb. apply job_id_in_matrix_expansion.
  - rewrite Nout, Nc. apply Hst.
  - rewrite Nco. destruct (so_completion _ _ Hst) as [? Hel]. split; [done|].
    intros b. unfold completed. rewrite Nc. apply Hel.
  - intros g group. rewrite Nm. intros [Hg | [Hg Hn]]%lookup_union_Some_raw; [by apply Hold | by apply Hnew].
  - intros q invs mp ff. rewrite Nj, Nm. intros Hq Hv.
    apply lookup_union_is_Some. right. by eapply runtimes_is_Some.
Qed.
End state.
End expand.

(** * The scheduler makes progress

    Every reachable state of a linked plan satisfies the invariant of
    [SchedulerInv]; no iteration panics; and as long as a base job is missing
    and no error is kept, something runs or can start: the final error of the
    loop, that the graph could not make progress, is never the scheduler's own
    doing.  The argument descends through the nested matrices: a gate that
    waits for a place has an active sibling, and inside that sibling something
    is startable or waits for a place in a matrix further in. *)

Section reach.
Context `{VT : ValueTypes} `{EL : ExpressionLib} `{JL : !JsonLib}.
Context (hash_files : string → list string → outcome ExpressionError string).

Lemma sched_init_ok plan :
  well_scoped [] (ep_jobs plan) → guarded (ep_jobs plan) → sched_ok [] (sched_init plan).
Proof.
  intros Hs Hg. unfold sched_init. pose proof (base_order_of_spec (ep_jobs plan)) as Ho.
  destruct (base_order_of (ep_jobs plan)) as [order seen]. destruct Ho as (Hnd & Hseen & Hb).
  split; simpl; try done.
  - intros b Hp%elem_of_list_to_set. split_and!; [done | apply not_elem_of_nil | done].
  - constructor.
  - by intros r ?%not_elem_of_nil.
  - by intros b [? ?].
  - intros b _ Hin. left. by apply elem_of_list_to_set.
  - split; [constructor|]. intros b. split; [by intros ?%not_elem_of_nil | by intros [? ?]].
  - intros g group (r & invs & mp & ff & Hr & Hrb & Hrv & ->)%lookup_runtimes.
    destruct (sc_matrix _ _ (well_scoped_scoped _ _ Hs) r invs mp ff Hr Hrv) as [Hmp _].
    split; cbn [mr_invocations mr_max_parallel mr_fail_fast mr_active mr_started mr_failed]; try done.
    + by exists r.
    + intros i. rewrite elem_of_empty. split; [done | by intros [? _]].
    + rewrite size_empty. lia.
    + intros i Hi _. left. split; [|by left]. split; simpl.
      * intros b Hin _. by apply elem_of_list_to_set.
      * by eapply Hg.
  - intros r invs mp ff. apply runtimes_is_Some.
Qed.

(** What a running base returns is its own, and is an expansion only of a call. *)
Lemma base_group_spec r execution :
  base_group hash_files r execution →
  be_base_id execution = rn_base_id r ∧
  (be_expanded_jobs execution = [] ∨
   ∃ template plan inputs secrets outputs combinations jobs,
     rn_jobs r = [template] ∧
     pj_virtual_job template = Some (ReusableDynamicCall plan inputs secrets outputs) ∧
     expand_dynamic_reusable_call (template <| pj_matrix := ∅ |>)
       (dynamic_instances template combinations) plan inputs secrets outputs = Ok jobs ∧
     execution = mkExecution (rn_base_id r) JobSuccess 0 ∅ jobs).
Proof.
  intros H. destruct H as [| |template status evaluated plan inputs secrets outputs combs jobs Hj _ _ Hv He|
    first status evaluated v context execution _ _ _ _ He|]; simpl; auto.
  - split; [done|]. right. by exists template, plan, inputs, secrets, outputs, combs, jobs.
  - destruct v; cbn [execute_virtual_job] in He.
    + injection He as <-. auto.
    + destruct (conclusions_of _ _); cbn [obind] in He; [|done..].
      destruct (traverse _ _); cbn [obind] in He; [|done..].
      destruct (insert_json _ _ _) as [c [u|e|]]; cbn [obind map_err] in He; [|done..].
      destruct (traverse _ _); cbn [obind] in He; [|done..]. injection He as <-. auto.
    + destruct (conclusions_of _ _); cbn [obind] in He; [|done..].
      destruct (for_each _ _ _); cbn [obind] in He; [|done..]. injection He as <-. auto.
    + done.
Qed.

Lemma dynamic_instances_needs template combinations p :
  p ∈ dynamic_instances template combinations → pj_needs p = pj_needs template.
Proof. unfold dynamic_instances. by intros ([i m] & -> & _)%list_elem_of_fmap. Qed.

Lemma take_execution_ok st before r after execution :
  sched_ok [] st → sd_running_bases st = before ++ r :: after → base_group hash_files r execution →
  ∃ st', take_execution (st <| sd_running_bases := before ++ after |>) execution = Ok st' ∧
    sched_ok [] st' ∧ sd_cancellation_error st' = sd_cancellation_error st.
Proof.
  intros Hst Hr (Hb & Hexp)%base_group_spec. unfold take_execution.
  destruct (be_expanded_jobs execution) as [|j l] eqn:El; cbn [is_nil].
  { by eapply complete_base_ok. }
  destruct Hexp as [? | (template & plan & inputs & secrets & outputs & combs & jobs & Hj & Hv & He & ->)]; [congruence|].
  eexists. split; [done|]. unfold expand_dynamic_reusable_call in He. cbn in He.
  destruct (expand_called st before after r template plan inputs secrets outputs) as [Hw Hca]; [done..|].
  rewrite expand_matrix_call_pure in He by apply Hca. injection He as <-. split.
  - eapply expand_base_ok; [done..|]. apply dynamic_instances_needs.
  - by destruct (next_spec st before after r template plan inputs secrets outputs
      (template <| pj_matrix := ∅ |>) (dynamic_instances template combs) 0 ∅) as (_ & _ & _ & _ & _ & _ & He & _).
Qed.

Lemma sched_step_ok st next :
  sched_ok [] st → sched_step hash_files st next → sched_ok [] next.
Proof.
  intros Hst [cancelled started before r after execution next' _ Hs Hr Hg Ht | cancelled started before r after error _ Hs Hr];
    destruct (start_ready_ok [] cancelled st Hst) as (started' & Hs' & Hok & _); rewrite Hs in Hs'; injection Hs' as <-.
  - destruct (take_execution_ok _ _ _ _ _ Hok Hr Hg) as (st' & Ht' & ? & _). congruence.
  - destruct (sd_cancellation_error started); by eapply step_error_ok.
Qed.

Lemma reachable_ok plan st :
  well_scoped [] (ep_jobs plan) → guarded (ep_jobs plan) → reachable hash_files plan st → sched_ok [] st.
Proof.
  intros Hs Hg H. assert (sched_ok [] (sched_init plan)) as H0 by by apply sched_init_ok.
  induction H as [|a b c Hab _ IH]; [done|]. apply IH. by eapply sched_step_ok.
Qed.
End reach.

(** ** Something can start *)

Section progress.
Context `{VT : ValueTypes} `{EL : ExpressionLib} `{JL : !JsonLib}.
Context (st : Sched).
Hypothesis Hst : sched_ok [] st.
Hypothesis Herror : sd_cancellation_error st = None.
Hypothesis Hidle : sd_running_bases st = [].

Lemma idle_cover b : b ∈ sd_base_order st → b ∈ sd_pending_bases st ∨ completed st b.
Proof.
  intros Hb. destruct (so_cover _ _ Hst b Herror Hb) as [? | [H | ?]]; [by left| |by right].
  rewrite Hidle in H. by apply not_elem_of_nil in H.
Qed.

Lemma unfinished_pending : unfinished st = true → ∃ b, b ∈ sd_pending_bases st.
Proof.
  unfold unfinished. intros Hlt%bool_decide_eq_true.
  destruct (set_choose_or_empty (sd_pending_bases st)) as [? | Hempty]; [done|]. exfalso.
  assert (list_to_set (sd_base_order st) ⊆ dom (sd_completed_bases st)) as Hsub.
  { intros b Hb%elem_of_list_to_set. apply elem_of_dom. destruct (idle_cover b Hb) as [Hp | ?]; [|done].
    by apply Hempty, not_elem_of_empty in Hp. }
  apply subseteq_size in Hsub. rewrite size_list_to_set in Hsub by apply Hst.
  rewrite size_dom in Hsub. lia.
Qed.

(** Among the pending bases of a class closed under pending needs, one has all
    its needs. *)
Lemma minimal_pending (P : string → Prop) b :
  (∀ b j d, P b → b ∈ sd_pending_bases st → j ∈ sd_jobs st → pj_base_id j = b → d ∈ pj_needs j →
     completed st d ∨ P d) →
  P b → b ∈ sd_pending_bases st →
  ∃ c, P c ∧ c ∈ sd_pending_bases st ∧
    ∀ j d, j ∈ sd_jobs st → pj_base_id j = c → d ∈ pj_needs j → completed st d.
Proof.
  intros Hclosed. pose proof (well_scoped_scoped _ _ (so_scoped _ _ Hst)) as Hs.
  induction (sc_acyclic _ _ Hs b) as [b _ IH]. intros HP Hp.
  pose proof (proj1 (so_pending _ _ Hst b Hp)) as (j & Hj & Hjb)%(so_bases _ _ Hst)%elem_of_base_ids.
  destruct (decide (Forall (completed st) (pj_needs j))) as [Hall | Hnot].
  { rewrite Forall_forall in Hall. exists b. split_and!; [done..|]. intros k d Hk Hkb Hd.
    destruct (sc_uniform _ _ Hs k j Hk Hj) as [Hn _]; [congruence|]. apply Hall. by rewrite <-Hn. }
  apply not_Forall_Exists, Exists_exists in Hnot as (d & Hd & Hnc); [|intros; unfold completed; apply _].
  destruct (Hclosed b j d HP Hp Hj Hjb Hd) as [? | HPd]; [by destruct Hnc|].
  apply (IH d); [by exists j | done |].
  destruct (sc_closed _ _ Hs j d Hj Hd) as [Hdb | ?%not_elem_of_nil]; [|done].
  apply (so_bases _ _ Hst) in Hdb. destruct (idle_cover d Hdb) as [? | ?]; [done | by destruct Hnc].
Qed.

(** A pending base with its needs that cannot start is the gate of a matrix with
    another active invocation. *)
Lemma blocked_gate b :
  b ∈ sd_pending_bases st → reusable_matrix_gate_can_start (sd_reusable_matrices st) b = false →
  ∃ g group i k, sd_reusable_matrices st !! g = Some group ∧ i ∈ mr_invocations group ∧
    b = gate_id i ∧ k ∈ mr_active group.
Proof.
  intros Hp Hf. unfold reusable_matrix_gate_can_start in Hf.
  apply not_true_iff_false in Hf. rewrite forallb_forall in Hf.
  destruct (decide (Exists (λ group, group_can_start b group = false) (btree_values (sd_reusable_matrices st))))
    as [(group & Hin & Hcan)%Exists_exists | Hno].
  2: { destruct Hf. intros group Hin%list_elem_of_In. destruct (group_can_start b group) eqn:E; [done|].
       destruct Hno. apply Exists_exists. eauto. }
  apply elem_of_btree_values in Hin as [g Hg]. pose proof (so_groups _ _ Hst g group Hg) as Hgroup.
  unfold group_can_start in Hcan. destruct (existsb _ _) eqn:E; [|done].
  apply existsb_exists in E as (i & Hi%list_elem_of_In & Hb%bool_decide_eq_true). subst b.
  assert (i ∉ mr_started group) as Hns by (intros Hs; by destruct (go_gate _ _ _ _ Hgroup i Hs)).
  destruct (sched_invocation _ _ _ _ _ Hst Hgroup Hi) as [_ Hgo].
  destruct (go_rest _ _ _ _ Hgroup i Hi Hns) as [[_ [Hfail | ?%not_elem_of_nil]] | Hc]; [|done|].
  2: { destruct (pending_open _ _ _ Hst Hp). eapply closed_completed; [done..|apply inside_gate]. }
  rewrite Hfail in Hcan. simpl in Hcan. apply bool_decide_eq_false in Hcan.
  destruct (go_result _ _ _ _ Hgroup) as (r & Hr & Hrb & Hrv).
  destruct (sc_matrix _ _ (well_scoped_scoped _ _ (so_scoped _ _ Hst)) r _ _ _ Hr Hrv) as [Hmp _].
  destruct (set_choose_or_empty (mr_active group)) as [[k Hk] | Hempty]; [by exists g, group, i, k|].
  apply size_empty_iff in Hempty. lia.
Qed.

(** What is active has something pending inside with its needs, and only things
    inside are candidates. *)
Lemma active_pending g group k :
  sd_reusable_matrices st !! g = Some group → k ∈ mr_active group →
  ∃ c, inside k c = true ∧ c ∈ sd_pending_bases st ∧
    ∀ j d, j ∈ sd_jobs st → pj_base_id j = c → d ∈ pj_needs j → completed st d.
Proof.
  intros Hg Hk. pose proof (so_groups _ _ Hst g group Hg) as Hgroup.
  apply (go_active _ _ _ _ Hgroup) in Hk as [Hs Hopen]. pose proof (go_started _ _ _ _ Hgroup k Hs) as Hi.
  destruct (sched_invocation _ _ _ _ _ Hst Hgroup Hi) as [Hko Hgo].
  destruct (go_gate _ _ _ _ Hgroup k Hs) as [Hgp Hgn].
  destruct (sched_scope _ _ _ _ _ Hst Hgroup Hi) as [[(gate & Hgj & Hgb & _) _ Hneeds] _].
  apply (minimal_pending (λ b, inside k b = true) k).
  - intros b j d Hin Hp Hj Hb Hd. subst b. destruct (Hneeds gate j d) as [? | Hdg]; auto.
    + intros Heq. apply Hgp. by rewrite <-Heq.
    + left. by apply (Hgn gate).
  - apply inside_refl.
  - by destruct (idle_cover k Hko).
Qed.

Lemma startable_inside n g group k :
  (∀ b, b ∈ sd_base_order st → slen b < n + slen k) →
  sd_reusable_matrices st !! g = Some group → k ∈ mr_active group → ∃ b, startable st b.
Proof.
  revert g group k; induction n as [|n IH]; intros g group k Hlen Hg Hk;
    pose proof (so_groups _ _ Hst g group Hg) as Hgroup;
    pose proof (proj1 (proj1 (go_active _ _ _ _ Hgroup k) Hk)) as Hs;
    pose proof (go_started _ _ _ _ Hgroup k Hs) as Hi;
    destruct (sched_invocation _ _ _ _ _ Hst Hgroup Hi) as [Hko _].
  { specialize (Hlen k Hko). lia. }
  destruct (active_pending g group k Hg Hk) as (c & Hin & Hp & Hn).
  destruct (reusable_matrix_gate_can_start (sd_reusable_matrices st) c) eqn:Hcan; [by exists c|].
  destruct (blocked_gate c Hp Hcan) as (g' & group' & i & k' & Hg' & Hi' & -> & Hk').
  pose proof (so_groups _ _ Hst g' group' Hg') as Hgroup'.
  destruct (sched_scope _ _ _ _ _ Hst Hgroup Hi) as [[_ Hres _] _].
  destruct (gate_inside _ _ _ _ k i Hst Hgroup' Hi' Hres Hin) as [<- | Hsib].
  { by destruct (go_gate _ _ _ _ Hgroup k Hs). }
  pose proof (go_started _ _ _ _ Hgroup' k' (proj1 (proj1 (go_active _ _ _ _ Hgroup' k') Hk'))) as Hki.
  destruct (Hsib k' Hki) as [_ Hlt]. apply (IH g' group' k'); [|done..].
  intros b Hb. specialize (Hlen b Hb). lia.
Qed.

Lemma idle_startable : unfinished st = true → ∃ b, startable st b.
Proof.
  intros [b0 Hb0]%unfinished_pending.
  destruct (minimal_pending (λ b, True) b0) as (b & _ & Hp & Hn); [by right|done|done|].
  destruct (reusable_matrix_gate_can_start (sd_reusable_matrices st) b) eqn:Hcan; [by exists b|].
  destruct (blocked_gate b Hp Hcan) as (g & group & i & k & Hg & _ & _ & Hk).
  apply (startable_inside (S (max_list (slen <$> sd_base_order st))) g group k); [|done..].
  intros c Hc. assert (slen c ≤ max_list (slen <$> sd_base_order st)); [|lia].
  by apply max_list_elem_of_le, list_elem_of_fmap_2.
Qed.
End progress.

(** * Every run of the scheduler ends

    An iteration closes a base or replaces a dynamic call by jobs that carry
    plans nested less deeply.  The open jobs counted by depth decrease in the
    lexicographic order, deepest first. *)

(** ** A lexicographic order on counts *)

Definition counts_lt (bound : nat) (f g : nat → nat) : Prop :=
  ∃ d, d < bound ∧ f d < g d ∧ ∀ e, d < e < bound → f e ≤ g e.

Lemma counts_lt_wf bound : well_founded (counts_lt bound).
Proof.
  induction bound as [|bound IH]; intros f; [by constructor; intros g (d & ? & _); lia|].
  remember (f bound) as n eqn:Hn. revert f Hn.
  induction (lt_wf n) as [n _ IHn]. intros f. induction (IH f) as [f _ IHf]. intros Hn.
  constructor. intros g (d & Hd & Hlt & Hle).
  assert (d = bound ∨ d < bound ∧ g bound ≤ f bound) as [-> | [Hdb Hgb]].
  { destruct (decide (d = bound)); [by left | right]. split; [lia | apply Hle; lia]. }
  { by apply (IHn (g bound) ltac:(lia)). }
  destruct (decide (g bound < f bound)); [by apply (IHn (g bound) ltac:(lia))|].
  apply IHf; [|lia]. exists d. split_and!; [done..|]. intros e He. apply Hle. lia.
Qed.

(** ** How deeply calls are nested *)

Section depth.
Context `{VT : ValueTypes}.

Fixpoint virtual_depth (v : PlannedVirtualJob) : nat :=
  match v with
  | ReusableDynamicCall plan _ _ _ =>
      S (max_list (map (λ j, match pj_virtual_job j with Some v => virtual_depth v | None => 0 end) (ep_jobs plan)))
  | _ => 0
  end.

Definition depth (j : PlannedJob) : nat :=
  match pj_virtual_job j with Some v => virtual_depth v | None => 0 end.

Lemma depth_called call plan inputs secrets outputs k :
  pj_virtual_job call = Some (ReusableDynamicCall plan inputs secrets outputs) →
  k ∈ ep_jobs plan → depth k < depth call.
Proof.
  intros Hv Hk. unfold depth at 2. rewrite Hv. simpl. apply Nat.lt_succ_r.
  apply max_list_elem_of_le, list_elem_of_fmap. by exists k.
Qed.

Lemma depth_plain j : ¬ is_dynamic j → depth j = 0.
Proof.
  unfold depth, is_dynamic. destruct (pj_virtual_job j) as [[| | |]|] eqn:E; try done.
  intros []. by eexists _, _, _, _.
Qed.

#[export] Instance is_dynamic_dec j : Decision (is_dynamic j).
Proof.
  unfold is_dynamic. destruct (pj_virtual_job j) as [[| | |plan i s o]|];
    [right; naive_solver .. | left; by exists plan, i, s, o | right; naive_solver].
Defined.

Lemma depth_expansion call plan inputs secrets outputs template instances e :
  pj_virtual_job call = Some (ReusableDynamicCall plan inputs secrets outputs) →
  e ∈ matrix_expansion (pj_base_id call) template instances plan inputs secrets outputs →
  depth e < depth call.
Proof.
  intros Hv He. destruct (decide (is_dynamic e)) as [(p & i & s & o & Hd) | Hn].
  - destruct (matrix_carries _ _ _ _ _ _ _ _ _ _ _ _ He Hd) as (k & Hk & Hkv).
    assert (depth e = depth k) as -> by (unfold depth; by rewrite Hd, Hkv). by eapply depth_called.
  - rewrite depth_plain by done. unfold depth. rewrite Hv. simpl. lia.
Qed.
End depth.

(** ** The open jobs *)

Section termination.
Context `{VT : ValueTypes} `{EL : ExpressionLib} `{JL : !JsonLib}.
Context (hash_files : string → list string → outcome ExpressionError string).

Abbreviation running_ids st := (rn_base_id <$> sd_running_bases st).

Definition open (st : Sched) (b : string) : Prop := b ∈ sd_pending_bases st ∨ b ∈ running_ids st.

#[export] Instance open_dec st b : Decision (open st b).
Proof. unfold open. apply _. Defined.

(** The open jobs of a depth. *)
Definition open_count (st : Sched) (d : nat) : nat :=
  length (base.filter (λ j, open st (pj_base_id j) ∧ depth j = d) (sd_jobs st)).

Definition bounded (bound : nat) (st : Sched) : Prop := ∀ j, j ∈ sd_jobs st → depth j < bound.

Lemma filter_length_le {A} (P Q : A → Prop) `{∀ x, Decision (P x), ∀ x, Decision (Q x)} (l : list A) :
  (∀ x, x ∈ l → P x → Q x) → length (base.filter P l) ≤ length (base.filter Q l).
Proof.
  induction l as [|x l IH]; intros HPQ; [done|]. rewrite !filter_cons.
  assert (length (base.filter P l) ≤ length (base.filter Q l)).
  { apply IH. intros y Hy. by apply HPQ, list_elem_of_further. }
  pose proof (HPQ x (list_elem_of_here _ _)). repeat case_decide; simpl; try tauto; lia.
Qed.

Lemma filter_length_lt {A} (P Q : A → Prop) `{∀ x, Decision (P x), ∀ x, Decision (Q x)} (l : list A) y :
  (∀ x, x ∈ l → P x → Q x) → y ∈ l → Q y → ¬ P y →
  length (base.filter P l) < length (base.filter Q l).
Proof.
  intros HPQ Hy HQ HP. apply list_elem_of_split in Hy as (l1 & l2 & ->).
  rewrite !filter_app, !filter_cons, !length_app, (decide_True (P := Q y)), (decide_False (P := P y)) by done. simpl.
  pose proof (filter_length_le P Q l1 ltac:(intros; apply HPQ; set_solver)).
  pose proof (filter_length_le P Q l2 ltac:(intros; apply HPQ; set_solver)). lia.
Qed.

(** Closing bases, with the jobs unchanged. *)
Lemma closing_decreases bound st st' b :
  bounded bound st → sd_jobs st' = sd_jobs st → (∀ c, open st' c → open st c) →
  b ∈ base_ids (sd_jobs st) → open st b → ¬ open st' b →
  counts_lt bound (open_count st') (open_count st) ∧ bounded bound st'.
Proof.
  intros Hbound Hjobs Hsub (j & Hj & <-)%elem_of_base_ids Ho Hc. split; [|unfold bounded; by rewrite Hjobs].
  exists (depth j). split_and!; [by apply Hbound| |].
  - unfold open_count. rewrite Hjobs. apply (filter_length_lt _ _ _ j); [|done|done|by intros [? _]].
    intros k _ [? ?]. auto.
  - intros e _. unfold open_count. rewrite Hjobs. apply filter_length_le. intros k _ [? ?]. auto.
Qed.

Lemma counts_lt_le bound f g h : counts_lt bound f g → (∀ d, g d ≤ h d) → counts_lt bound f h.
Proof.
  intros (d & Hd & Hlt & Hle) H. exists d. split_and!; [done| |].
  - specialize (H d). lia.
  - intros e He. specialize (Hle e He). specialize (H e). lia.
Qed.

(** *** Starting opens nothing *)

Lemma start_all_open ready st c :
  sd_jobs (fold_left start_base ready st) = sd_jobs st ∧
  (open (fold_left start_base ready st) c → open st c ∨ c ∈ ready).
Proof.
  revert st; induction ready as [|b ready IH]; intros st; cbn [fold_left]; [auto|].
  destruct (IH (start_base st b)) as [Hj Ho]. rewrite Hj, (sp_jobs _ _ (start_base_progress st b)).
  split; [done|]. intros [Hs | ?]%Ho; [|right; by apply list_elem_of_further].
  unfold start_base in Hs. destruct (negb _); [by left|]. unfold open in Hs; simpl in Hs.
  rewrite fmap_app, elem_of_app in Hs. destruct Hs as [[? _]%elem_of_difference | [? | ->%list_elem_of_singleton]].
  - left. by left.
  - left. by right.
  - right. apply list_elem_of_here.
Qed.

Lemma start_ready_open failing cancelled st started :
  sched_ok failing st → start_ready cancelled st = Ok started →
  sd_jobs started = sd_jobs st ∧ ∀ c, open started c → open st c.
Proof.
  intros Hst. unfold start_ready. rewrite (ready_bases_Ok failing) by done. cbn [obind]. intros [= <-].
  set (ready := if cancelled then _ else _).
  assert (∀ b, b ∈ ready → b ∈ sd_pending_bases st) as Hready.
  { intros b. unfold ready. destruct cancelled; [by intros ?%not_elem_of_nil|].
    by intros [[? _ _] _]%list_elem_of_filter. }
  split; [apply (start_all_open ready st "")|]. intros c Hc.
  apply start_all_open in Hc as [? | ?%Hready]; [done | by left].
Qed.

(** *** Completing closes the base *)

Record closes (st st' : Sched) : Prop := {
  cs_jobs : sd_jobs st' = sd_jobs st;
  cs_running : sd_running_bases st' = sd_running_bases st;
  cs_pending : sd_pending_bases st' ⊆ sd_pending_bases st;
}.

#[export] Instance closes_preorder : PreOrder closes.
Proof. split; [by split|]. intros a b c [? ? ?] [? ? ?]. split; [congruence..|by etrans]. Qed.

Lemma fold_closes {A} (f : A → Sched → Sched) l st :
  (∀ x st, closes st (f x st)) → closes st (fold_left (λ st x, f x st) l st).
Proof.
  intros Hf. revert st; induction l as [|x l IH]; intros st; cbn [fold_left]; [done|].
  etrans; [apply Hf | apply IH].
Qed.

Lemma skip_base_closes b st : closes st (skip_base b st).
Proof. unfold skip_base. case_bool_decide; [|done]. split; simpl; [done..|]. by intros c [? _]%elem_of_difference. Qed.

Lemma skip_invocation_closes i st : closes st (skip_invocation i st).
Proof.
  unfold skip_invocation. etrans; [|apply fold_closes, skip_base_closes].
  unfold report_gate. by destruct (_ && _).
Qed.

Lemma complete_base_closes st execution st' : complete_base st execution = Ok st' → closes st st'.
Proof.
  unfold complete_base, finish_reusable_matrix_invocation. cbn beta iota zeta. intros H.
  refine (for_each_inv_simple _ (closes st) _ _ _ _ _ H).
  { by split. }
  intros g s s' _ Hs Hf. etrans; [done|]. unfold fail_group in Hf.
  destruct (sd_reusable_matrices s !! g); cbn [expect obind] in Hf; [|done]. injection Hf as <-.
  apply fold_closes, skip_invocation_closes.
Qed.

(** *** Every step decreases *)

Section step.
Context (bound : nat) (st : Sched) (before after : list Running) (r : Running).
Hypothesis Hst : sched_ok [] st.
Hypothesis Hrunning : sd_running_bases st = before ++ r :: after.
Hypothesis Hbound : bounded bound st.

Lemma closing_step st' :
  sd_jobs st' = sd_jobs st → sd_running_bases st' = before ++ after →
  sd_pending_bases st' ⊆ sd_pending_bases st →
  counts_lt bound (open_count st') (open_count st) ∧ bounded bound st'.
Proof.
  intros Hj Hr Hp. pose proof (complete_running_ids _ _ _ _ Hrunning) as Hids.
  pose proof (complete_running _ _ _ _ Hst Hrunning) as Hro.
  apply (closing_decreases bound st st' (rn_base_id r)); [done..| | | |].
  - intros c [Hc | Hc]; [left; by apply Hp|]. rewrite Hr in Hc. right. apply Hids. by left.
  - apply (so_bases _ _ Hst), Hro.
  - right. apply Hids. by right.
  - intros [Hc | Hc].
    + by apply (complete_not_pending _ _ _ _ Hst Hrunning), Hp.
    + rewrite Hr in Hc. by apply (complete_rest_nodup _ _ _ _ Hst Hrunning).
Qed.

Lemma expanding_step call plan inputs secrets outputs template instances steps outs :
  rn_jobs r = [call] → pj_virtual_job call = Some (ReusableDynamicCall plan inputs secrets outputs) →
  (∀ p, p ∈ instances → pj_needs p = pj_needs call) →
  let next := expand_base (st <| sd_running_bases := before ++ after |>)
    (mkExecution (rn_base_id r) JobSuccess steps outs
      (matrix_expansion (pj_base_id call) template instances plan inputs secrets outputs)) in
  counts_lt bound (open_count next) (open_count st) ∧ bounded bound next.
Proof.
  intros Hjobs Hv Hneeds next.
  destruct (next_spec st before after r call plan inputs secrets outputs template instances steps outs)
    as (Nj & _ & _ & _ & _ & Nr & _ & _ & _ & _ & Np); [done..|]. fold next in Nj, Nr, Np.
  destruct (expand_call st before after r call) as [Hcall Hcb]; [done..|].
  pose proof (complete_running_ids _ _ _ _ Hrunning) as Hids.
  set (E := matrix_expansion _ _ _ _ _ _ _) in *.
  assert (∀ e, e ∈ E → depth e < depth call) as Hdepth by (intros e; by apply depth_expansion).
  assert (∀ j, j ∈ sd_jobs st → pj_base_id j ≠ pj_base_id call → open next (pj_base_id j) →
    open st (pj_base_id j)) as Hopen.
  { intros j Hj Hne [[? | Hb]%Np | Hr]; [by left| |right; apply Hids; left; by rewrite Nr in Hr].
    destruct Hne. eapply expand_leaf; [done..|]. by eapply expand_E_base. }
  assert (∀ d, depth call ≤ d → open_count next d =
    length (base.filter (λ j, (open next (pj_base_id j) ∧ depth j = d) ∧ pj_base_id j ≠ pj_base_id call) (sd_jobs st)))
    as Hcount.
  { intros d Hd. unfold open_count. rewrite Nj. unfold spliced. rewrite filter_app, length_app, list_filter_filter.
    assert (base.filter (λ j, open next (pj_base_id j) ∧ depth j = d) E = []) as ->; [|simpl; lia].
    apply elem_of_nil_inv. intros e [[_ He] Hin]%list_elem_of_filter. specialize (Hdepth e Hin). lia. }
  split.
  - exists (depth call). split_and!; [by apply Hbound| |].
    + rewrite Hcount by done. apply (filter_length_lt _ _ _ call); [|done| |by intros [_ ?]].
      * intros j Hj [[? ?] ?]. auto.
      * split; [|done]. right. apply Hids. by right.
    + intros d Hd. rewrite Hcount by lia. apply filter_length_le. intros j Hj [[? ?] ?]. auto.
  - intros j. rewrite Nj. intros [[Hj _] | Hj]%elem_of_spliced; [by apply Hbound|].
    pose proof (Hbound call Hcall). specialize (Hdepth j Hj). lia.
Qed.
End step.

Lemma sched_step_decreases bound st next :
  sched_ok [] st → bounded bound st → sched_step hash_files st next →
  counts_lt bound (open_count next) (open_count st) ∧ bounded bound next.
Proof.
  intros Hst Hbound Hstep.
  assert (∀ cancelled started, start_ready cancelled st = Ok started →
    sched_ok [] started ∧ bounded bound started ∧ ∀ d, open_count started d ≤ open_count st d) as Hstart.
  { intros cancelled started Hs. destruct (start_ready_ok [] cancelled st Hst) as (s & Hs' & Hok & _).
    rewrite Hs in Hs'. injection Hs' as <-. destruct (start_ready_open _ _ _ _ Hst Hs) as [Hj Ho].
    split_and!; [done | unfold bounded; by rewrite Hj|]. intros d. unfold open_count. rewrite Hj.
    apply filter_length_le. intros j _ [? ?]. auto. }
  destruct Hstep as [cancelled started before r after execution next' _ Hs Hr Hg Ht | cancelled started before r after error _ Hs Hr];
    destruct (Hstart _ _ Hs) as (Hok & Hb & Hle).
  - enough (counts_lt bound (open_count next') (open_count started) ∧ bounded bound next') as [? ?];
      [split; [by eapply counts_lt_le | done]|].
    apply base_group_spec in Hg as [_ Hexp]. unfold take_execution in Ht.
    destruct (be_expanded_jobs execution) as [|j l] eqn:El; cbn [is_nil] in Ht.
    + apply complete_base_closes in Ht as [? ? ?]. by eapply closing_step.
    + destruct Hexp as [? | (template & plan & inputs & secrets & outputs & combs & jobs & Hj & Hv & He & ->)]; [congruence|].
      injection Ht as <-. unfold expand_dynamic_reusable_call in He. cbn in He.
      destruct (expand_called started before after r template plan inputs secrets outputs) as [_ Hca]; [done..|].
      rewrite expand_matrix_call_pure in He by apply Hca. injection He as <-.
      eapply expanding_step; [done..|]. apply dynamic_instances_needs.
  - split; [|by apply Hstart in Hs as (_ & ? & _)]. eapply counts_lt_le; [|done].
    by eapply closing_step.
Qed.

Lemma sched_terminates st : sched_ok [] st → Acc (λ next st, sched_step hash_files st next) st.
Proof.
  intros Hst. assert (bounded (S (max_list (depth <$> sd_jobs st))) st) as Hbound.
  { intros j Hj. apply Nat.lt_succ_r, max_list_elem_of_le. by apply list_elem_of_fmap_2. }
  revert Hbound. generalize (S (max_list (depth <$> sd_jobs st))). intros bound.
  remember (open_count st) as f eqn:Hf. revert st Hst Hf.
  induction (counts_lt_wf bound f) as [f _ IH]. intros st Hst -> Hbound. constructor. intros next Hstep.
  destruct (sched_step_decreases bound st next Hst Hbound Hstep) as [Hlt Hb].
  eapply IH; [done | by eapply sched_step_ok | done | done].
Qed.
End termination.
