(* ===== verification/SchedulerProps.v ===== *)
(** * What the scheduler guarantees for a linked plan

    The properties of the loop of [execute_plan_inner] on every state reached
    from a plan that [compile_with_reusables] returns. *)

From S2P Require Import Prelude RustStr OrdMap Yaml Expression Evaluate Instances Templates Workflow Dependencies.
From S2P Require Import Matrix Compile Expansion Linking Scopes ScopedExpansion ScopedLinking Identities.
From S2P Require Import Scheduler SchedulerInv SchedulerProgress.

(** ** Virtual jobs *)

Section virtual.
Context `{VT : ValueTypes} `{EL : ExpressionLib} `{JL : !JsonLib}.
Context (hash_files : string → list string → outcome ExpressionError string).

Lemma conclusions_of_Ok (completed : gmap string JobConclusion) ids :
  (∀ d, d ∈ ids → is_Some (completed !! d)) → ∃ l, conclusions_of completed ids = Ok l.
Proof.
  unfold conclusions_of. induction ids as [|d ids IH]; intros Hall; cbn [traverse]; [eauto|].
  destruct (Hall d (list_elem_of_here _ _)) as [c ->]. cbn [expect obind].
  destruct IH as [l ->]; [intros e He; by apply Hall, list_elem_of_further|]. eauto.
Qed.

Lemma any_need_Ok test needs completed :
  (∀ d, d ∈ needs → is_Some (completed !! d)) →
  ∃ found, any_need test needs completed = Ok found ∧
    (found = true ↔ ∃ d c, d ∈ needs ∧ completed !! d = Some c ∧ test c = true).
Proof.
  induction needs as [|d needs IH]; intros Hall; cbn [any_need].
  { exists false. split; [done|]. split; [done|]. by intros (? & ? & ?%not_elem_of_nil & _). }
  destruct (Hall d (list_elem_of_here _ _)) as [c Hc]. rewrite Hc. cbn [expect obind].
  destruct (test c) eqn:Ht.
  { exists true. split; [done|]. split; [|done]. intros _. exists d, c. split_and!; [apply list_elem_of_here|done..]. }
  destruct IH as (found & -> & Hf); [intros e He; by apply Hall, list_elem_of_further|].
  exists found. split; [done|]. rewrite Hf. split; intros (e & c' & He & Hec & Htc); exists e, c'.
  - split_and!; [by apply list_elem_of_further | done..].
  - apply elem_of_cons in He as [-> | ?]; [congruence | done].
Qed.

(** The status of the needs is a success exactly when all of them succeeded. *)
Lemma dependency_status_success needs completed :
  (∀ d, d ∈ needs → is_Some (completed !! d)) →
  ∃ status, dependency_status needs completed = Ok status ∧
    (status = Success ↔ ∀ d, d ∈ needs → completed !! d = Some JobSuccess).
Proof.
  intros Hall. unfold dependency_status.
  destruct (any_need_Ok (λ c, bool_decide (c = JobCancelled)) needs completed Hall) as (b1 & -> & H1).
  destruct (any_need_Ok (λ c, bool_decide (c = JobFailure) || bool_decide (c = JobTimedOut)) needs completed Hall)
    as (b2 & -> & H2).
  destruct (any_need_Ok (λ c, bool_decide (c = JobSkipped)) needs completed Hall) as (b3 & -> & H3).
  cbn [obind].
  assert ((∀ d, d ∈ needs → completed !! d = Some JobSuccess) ↔ b1 = false ∧ b2 = false ∧ b3 = false) as Hiff.
  { rewrite <-!not_true_iff_false, H1, H2, H3. split.
    - intros Hs. split_and!; intros (d & c & Hd & Hc & Ht); rewrite (Hs d Hd) in Hc; injection Hc as <-; done.
    - intros (N1 & N2 & N3) d Hd. destruct (Hall d Hd) as [c Hc]. rewrite Hc.
      destruct c; [done | destruct N2 | destruct N2 | destruct N1 | destruct N3]; exists d; eauto. }
  destruct b1, b2, b3; eexists; (split; [done|]); rewrite Hiff; naive_solver.
Qed.

Lemma result_json_no_panic completed (outputs : gmap string (gmap string string)) d :
  dom outputs = dom completed → is_Some (completed !! d) → result_json completed outputs d ≠ Panic.
Proof.
  intros Hdom [c Hc]. unfold result_json. rewrite Hc. cbn [expect obind].
  assert (is_Some (outputs !! d)) as [o ->] by (apply elem_of_dom; rewrite Hdom; apply elem_of_dom; eauto).
  done.
Qed.

Lemma elem_of_ordered_invocations order invocations i :
  i ∈ ordered_invocations order invocations → i ∈ invocations.
Proof.
  unfold ordered_invocations.
  enough (∀ l (acc : list string * gset string), (∀ j, j ∈ l → j ∈ invocations) →
    (∀ j, j ∈ acc.1 → j ∈ invocations) → ∀ j, j ∈ (fold_left (λ '(ordered, seen) invocation,
     if bool_decide (invocation ∈ seen) then (ordered, seen)
     else (ordered ++ [invocation], {[invocation]} ∪ seen)) l acc).1 → j ∈ invocations) as Hgen.
  { apply Hgen; [done|]. by intros j [? _]%list_elem_of_filter. }
  induction l as [|x l IH]; intros [ordered seen] Hl Hacc; cbn [fold_left]; [done|].
  apply IH; [intros j Hj; by apply Hl, list_elem_of_further|]. case_bool_decide; [done|]. simpl.
  intros j [? | ->%list_elem_of_singleton]%elem_of_app; [by apply Hacc | apply Hl, list_elem_of_here].
Qed.

Lemma merge_invocation_no_panic completed (outputs : gmap string (gmap string string)) i merged :
  dom outputs = dom completed → is_Some (completed !! i) →
  merge_invocation completed outputs i merged ≠ Panic.
Proof.
  intros Hdom [c Hc]. unfold merge_invocation. rewrite Hc. cbn [expect obind].
  destruct (negb _); [done|].
  assert (is_Some (outputs !! i)) as [o ->] by (apply elem_of_dom; rewrite Hdom; apply elem_of_dom; eauto).
  done.
Qed.

Lemma execute_virtual_job_no_panic base_id v completed outputs order context :
  (∀ w l, hash_files w l ≠ Panic) → dom outputs = dom completed →
  (∀ jobs o, v = ReusableResult jobs o → ∀ a d, jobs !! a = Some d → is_Some (completed !! d)) →
  (∀ i mp ff, v = ReusableMatrixResult i mp ff → ∀ d, d ∈ i → is_Some (completed !! d)) →
  (∀ plan i s o, v ≠ ReusableDynamicCall plan i s o) →
  execute_virtual_job hash_files base_id v completed outputs order context ≠ Panic.
Proof.
  intros Hhash Hdom Hres Hmat Hdyn. destruct v as [|jobs o|i mp ff|]; cbn [execute_virtual_job]; [done| | |by edestruct Hdyn].
  - destruct (conclusions_of_Ok completed (btree_values jobs)) as [l ->].
    { intros d [a Ha]%elem_of_btree_values. by eapply Hres. }
    cbn [obind]. rewrite obind_Panic. intros [H | (entries & _ & H)].
    { apply traverse_Panic in H as ([a d] & Hin%elem_of_btree_iter & Hp). rewrite obind_Panic in Hp.
      destruct Hp as [Hp | (? & _ & ?)]; [|done]. eapply result_json_no_panic in Hp; [done|done|by eapply Hres]. }
    destruct (insert_json context "jobs" _) as [c [u|e|]] eqn:Hi; cbn [obind map_err] in H; [|done|].
    2: { unfold insert_json in Hi. destruct (eval_of_json _); by injection Hi. }
    rewrite obind_Panic in H. destruct H as [H | (? & _ & ?)]; [|done].
    apply traverse_Panic in H as ([a d] & _ & Hp). rewrite obind_Panic in Hp.
    destruct Hp as [Hp | (? & _ & ?)]; [|done]. destruct (render hash_files c d) eqn:Hr; try done.
    unfold render in Hr. by apply render_loop_no_panic in Hr; [|done|lia].
  - destruct (conclusions_of_Ok completed i) as [l ->]; [by eapply Hmat|].
    cbn [obind]. rewrite obind_Panic. intros [H | (? & _ & ?)]; [|done].
    refine (for_each_no_panic _ (λ _, True) _ _ I _ _ H); [|done].
    intros d s Hin%elem_of_ordered_invocations _. apply merge_invocation_no_panic; [done|]. by eapply Hmat.
Qed.
End virtual.

(** ** The properties *)

Section properties.
Context `{VL : ValueLib} `{EL : ExpressionLib} `{TC : !TemplateContract} `{JL : !JsonLib}.
Context (hash_files : string → list string → outcome ExpressionError string).

(** [plan] is what the linker returned for sources whose job keys are plain, with
    the identities the agent gives its jobs. *)
Definition linked_plan (reusable_workflows : gmap string Workflow) (workflow : Workflow) (path : string)
    (plan : ExecutionPlan) : Prop :=
  (∀ p w, reusable_workflows !! p = Some w → good_source w) ∧ good_source workflow ∧
  ∃ linked identities,
    compile_with_reusables reusable_workflows workflow path = Ok linked ∧
    hydrate_plan_workflow_identities identities linked = Ok plan.

Lemma linked_plan_good reusable_workflows workflow path plan :
  linked_plan reusable_workflows workflow path plan → well_scoped [] (ep_jobs plan) ∧ guarded (ep_jobs plan).
Proof.
  intros (Hall & Hgood & linked & identities & Hlinked & Hplan%hydrate_plan_jobs).
  destruct (compile_with_reusables_good reusable_workflows Hall workflow path linked Hgood Hlinked) as [[Hs _ Hg] _].
  split; [by eapply hydrated_well_scoped | by eapply hydrated_guarded].
Qed.

Lemma linked_reachable_ok reusable_workflows workflow path plan st :
  linked_plan reusable_workflows workflow path plan → reachable hash_files plan st → sched_ok [] st.
Proof.
  intros [Hs Hg]%linked_plan_good Hst. by eapply reachable_ok.
Qed.

Lemma finished_all st b :
  sched_ok [] st → unfinished st = false → b ∈ sd_base_order st → completed st b.
Proof.
  intros Hst Hfin%bool_decide_eq_false Hb.
  assert (dom (sd_completed_bases st) ⊆ list_to_set (sd_base_order st)) as Hsub.
  { intros c Hc%elem_of_dom. by apply elem_of_list_to_set, (so_completed _ _ Hst). }
  assert (size (list_to_set (sd_base_order st) : gset string) = length (sd_base_order st)) as Hsize
    by apply size_list_to_set, Hst.
  apply set_subseteq_size_equiv in Hsub.
  - apply elem_of_dom. rewrite Hsub. by apply elem_of_list_to_set.
  - rewrite Hsize, size_dom. lia.
Qed.

(** C5: a run never stalls.  In every state that a linked plan reaches without
    an error being kept, either all of its base jobs have completed, or the
    next iteration has a base job running: the error that the dependency graph
    could not make progress is reported only after an error or a
    cancellation. *)
Theorem scheduler_progress reusable_workflows workflow path plan st :
  linked_plan reusable_workflows workflow path plan → reachable hash_files plan st →
  sd_cancellation_error st = None →
  (unfinished st = false ∧ ∀ j, j ∈ sd_jobs st → completed st (pj_base_id j)) ∨
  ∃ started r, start_ready false st = Ok started ∧ r ∈ sd_running_bases started.
Proof.
  intros Hplan Hst Herr. pose proof (linked_reachable_ok _ _ _ _ _ Hplan Hst) as Hok.
  destruct (unfinished st) eqn:Hu; [right | left].
  2: { split; [done|]. intros j Hj. apply finished_all; [done..|]. apply (so_bases _ _ Hok), elem_of_base_ids. eauto. }
  destruct (start_ready_ok [] false st Hok) as (started & Hs & Hsok & Hsp & Hrun).
  exists started. destruct (sd_running_bases started) as [|r l] eqn:Er; [exfalso | exists r; split; [done | apply list_elem_of_here]].
  destruct (sd_running_bases st) as [|r l] eqn:Est.
  - destruct (idle_startable st Hok Herr Est Hu) as [b Hb]. by eapply Hrun.
  - destruct (start_ready_running _ _ _ _ Hok Hs) as [k Hk]. by rewrite Er, Est in Hk.
Qed.

(** C6: the loop ends: from every state that a linked plan reaches there is no
    infinite sequence of iterations, whatever the jobs return, however many
    instances a dynamic matrix has and however deeply the calls are nested;
    and no iteration panics. *)
Theorem scheduler_terminates reusable_workflows workflow path plan st :
  linked_plan reusable_workflows workflow path plan → reachable hash_files plan st →
  Acc (λ next st, sched_step hash_files st next) st ∧
  ∀ workflow_name, ¬ sched_end hash_files workflow_name st Panic.
Proof.
  intros Hplan Hst. pose proof (linked_reachable_ok _ _ _ _ _ Hplan Hst) as Hok.
  split; [by apply sched_terminates|]. intros name Hend.
  inversion Hend as [| |cancelled _ Hs| cancelled started before r after execution _ Hs Hr Hg Ht| |];
    destruct (start_ready_ok [] cancelled st Hok) as (started' & Hs' & Hsok & _); rewrite Hs in Hs'; [done|].
  injection Hs' as <-. destruct (take_execution_ok _ _ _ _ _ _ Hsok Hr Hg) as (? & Ht' & _). congruence.
Qed.

(** C7: base jobs run in the order of their needs: every base job runs at most
    once at a time and never again once it has completed; when it runs, all
    its needs have completed, with the conclusions it sees; so that its status
    is a success exactly when all needs succeeded, and a result or matrix
    result reads nothing that is missing. *)
Theorem scheduler_runs_in_order reusable_workflows workflow path plan st cancelled started r :
  (∀ w l, hash_files w l ≠ Panic) →
  linked_plan reusable_workflows workflow path plan → reachable hash_files plan st →
  start_ready cancelled st = Ok started → r ∈ sd_running_bases started →
  NoDup (rn_base_id <$> sd_running_bases started) ∧
  ¬ completed started (rn_base_id r) ∧ rn_completed_bases r ⊆ sd_completed_bases started ∧
  ∀ job, job ∈ rn_jobs r →
    pj_base_id job = rn_base_id r ∧
    (∃ status, dependency_status (pj_needs job) (rn_completed_bases r) = Ok status ∧
       (status = Success ↔ ∀ d, d ∈ pj_needs job → sd_completed_bases started !! d = Some JobSuccess)) ∧
    ∀ virtual_job context, pj_virtual_job job = Some virtual_job → ¬ is_dynamic job →
      execute_virtual_job hash_files (rn_base_id r) virtual_job (rn_completed_bases r)
        (rn_completed_outputs r) (rn_completion_order r) context ≠ Panic.
Proof.
  intros Hhash Hplan Hst Hs Hr. pose proof (linked_reachable_ok _ _ _ _ _ Hplan Hst) as Hok0.
  destruct (start_ready_ok [] cancelled st Hok0) as (started' & Hs' & Hok & _). rewrite Hs in Hs'. injection Hs' as <-.
  pose proof (well_scoped_scoped _ _ (so_scoped _ _ Hok)) as Hsc.
  destruct (so_running _ _ Hok r Hr) as [R1 R2 R3 R4 R5 R6]. split_and!; [apply Hok | | done |].
  { unfold completed. rewrite R2. by intros [? ?]. }
  intros job Hjob. assert (pj_base_id job = rn_base_id r ∧ job ∈ sd_jobs started) as [Hb Hj].
  { rewrite R3 in Hjob. by apply list_elem_of_filter in Hjob. }
  split_and!; [done| |].
  - destruct (dependency_status_success (pj_needs job) (rn_completed_bases r)) as (status & Hd & Hiff);
      [intros d; by apply R4|].
    exists status. split; [done|]. rewrite Hiff. split; intros Hall d Hd'; specialize (Hall d Hd').
    + by eapply lookup_weaken.
    + destruct (R4 job d Hjob Hd') as [c Hc]. rewrite Hc. rewrite <-Hall. symmetry. by eapply lookup_weaken.
  - intros v context Hv Hdyn. apply execute_virtual_job_no_panic; [done..| | |].
    + intros jobs o -> a d Ha. apply (R4 job); [done|]. by eapply (sc_result _ _ Hsc job).
    + intros i mp ff -> d Hd. apply (R4 job); [done|].
      destruct (sc_matrix _ _ Hsc job i mp ff Hj Hv) as [_ Hm]. by apply Hm.
    + intros p i s o ->. apply Hdyn. by eexists _, _, _, _.
Qed.

(** a matrix of calls keeps its limits: the active invocations are the
    started ones that have not completed, never more than [max_parallel]; a
    base job runs inside an invocation only if the invocation was started; and
    once the matrix has failed fast, everything inside an invocation that was
    not started is skipped. *)
Theorem scheduler_bounds_matrices reusable_workflows workflow path plan st g group :
  linked_plan reusable_workflows workflow path plan → reachable hash_files plan st →
  sd_reusable_matrices st !! g = Some group →
  (Z.of_nat (size (mr_active group)) ≤ mr_max_parallel group)%Z ∧
  ∀ i, i ∈ mr_invocations group →
    (i ∈ mr_active group ↔ i ∈ mr_started group ∧ ¬ completed st i) ∧
    (∀ r, r ∈ sd_running_bases st → inside i (rn_base_id r) = true → i ∈ mr_started group) ∧
    (mr_failed group = true → i ∉ mr_started group →
     ∀ b, b ∈ sd_base_order st → inside i b = true → sd_completed_bases st !! b = Some JobSkipped).
Proof.
  intros Hplan Hst Hg. pose proof (linked_reachable_ok _ _ _ _ _ Hplan Hst) as Hok.
  pose proof (so_groups _ _ Hok g group Hg) as Hgroup. split; [apply Hgroup|]. intros i Hi.
  split_and!; [apply Hgroup| |].
  - intros r Hr Hin. destruct (decide (i ∈ mr_started group)) as [?|Hns]; [done|].
    pose proof (so_running _ _ Hok r Hr) as [R1 R2 _ _ _ _].
    destruct (go_rest _ _ _ _ Hgroup i Hi Hns) as [[[Hall _] _] | Hc].
    + specialize (Hall _ R1 Hin). destruct (so_pending _ _ Hok _ Hall) as (_ & Hn & _).
      destruct Hn. by apply list_elem_of_fmap_2.
    + specialize (Hc _ R1 Hin). congruence.
  - intros Hf Hns. destruct (go_rest _ _ _ _ Hgroup i Hi Hns) as [[_ [? | ?%not_elem_of_nil]] | Hc]; [congruence | done | done].
Qed.
End properties.

(** ** Witnesses *)

Section witnesses.
#[local] Existing Instances demo_values demo_value_lib demo_expressions demo_json.
#[local] Instance scheduled_templates : TemplateContract := expression_templates demo_hash_files.

Lemma demo_source_good w : source_ok w → forallb (λ key, colon_free key && negb (bool_decide (key = "gate"))) (w_jobs w).*1 = true →
  good_source w.
Proof.
  intros Hok Hkeys. split; [done|]. intros key Hk%list_elem_of_In. rewrite forallb_forall in Hkeys.
  apply Hkeys, andb_prop in Hk as [? ?%negb_true_iff%bool_decide_eq_false]. done.
Qed.

Lemma demo_library_good p w : demo_library !! p = Some w → good_source w.
Proof.
  intros Hw. apply demo_source_good; [by eapply demo_library_ok|].
  unfold demo_library in Hw. apply lookup_singleton_Some in Hw as [_ <-]. vm_compute. reflexivity.
Qed.

(** A matrix of calls that runs one invocation at a time. *)
Definition narrow_strategy : Value :=
  VMapping [(VString "max-parallel", VNumber (1%Z : ynum));
            (VString "matrix", VMapping [(VString "os", VSequence [VString "linux"; VString "mac"])])].

Definition narrow_linking : outcome WorkflowError ExecutionPlan :=
  compile_with_reusables demo_library (demo_caller (Some narrow_strategy)) "ci.yml".

Definition demo_identities : gmap string PlannedWorkflowIdentity :=
  <["ci.yml" := mkIdentity "ci" "sha" "octo/app" "ci.yml"]> {[deploy_path := mkIdentity "deploy" "sha" "octo/app" deploy_path]}.

Definition narrow_plan : ExecutionPlan :=
  match narrow_linking with
  | Ok linked =>
      match hydrate_plan_workflow_identities demo_identities linked with
      | Ok plan => plan
      | _ => mkExecutionPlan "" "" None []
      end
  | _ => mkExecutionPlan "" "" None []
  end.

Lemma narrow_linked : linked_plan demo_library (demo_caller (Some narrow_strategy)) "ci.yml" narrow_plan.
Proof.
  split_and!; [exact demo_library_good| |].
  - apply demo_source_good; [|vm_compute; reflexivity].
    split; [apply (bool_decide_unpack _); vm_compute; exact I|].
    intros id job Hin [u Hu] name plan Hp. simpl in Hin.
    apply elem_of_cons in Hin as [[= -> ->] | [= -> ->]%list_elem_of_singleton]; [discriminate Hu|].
    vm_compute in Hp. injection Hp as <-. discriminate.
  - assert (match narrow_linking with
            | Ok linked => is_ok (hydrate_plan_workflow_identities demo_identities linked) | _ => false end = true) as H
      by (vm_compute; reflexivity).
    unfold narrow_plan. change (compile_with_reusables demo_library _ _) with narrow_linking.
    destruct narrow_linking as [linked| |]; [|discriminate H..]. exists linked, demo_identities. split; [reflexivity|].
    destruct (hydrate_plan_workflow_identities demo_identities linked); [reflexivity | discriminate H..].
Qed.

(** One iteration in which [b], the only base running, ends. *)
Definition take_base (b : string) (conclusion : JobConclusion) (st : Sched) : outcome string Sched :=
  let? started := start_ready false st in
  take_execution (started <| sd_running_bases := [] |>) (mkExecution b conclusion 0 ∅ []).

Definition may_end (r : Running) (conclusion : JobConclusion) : bool :=
  match head (rn_jobs r) with
  | Some first =>
      match dependency_status (pj_needs first) (rn_completed_bases r) with
      | Ok status =>
          match condition_allows (pj_condition first) status (Ok true), pj_virtual_job first with
          | Ok true, None => true
          | Ok true, Some v =>
              match execute_virtual_job demo_hash_files (rn_base_id r) v (rn_completed_bases r)
                      (rn_completed_outputs r) (rn_completion_order r) (demo_context "s") with
              | Ok e => bool_decide (be_base_id e = rn_base_id r ∧ be_conclusion e = conclusion ∧
                          be_completed_steps e = 0 ∧ be_outputs e = ∅) && is_nil (be_expanded_jobs e)
              | _ => false
              end
          | _, _ => false
          end
      | _ => false
      end
  | None => false
  end.

Definition may_take (b : string) (conclusion : JobConclusion) (st : Sched) : bool :=
  unfinished st &&
  match start_ready false st with
  | Ok started => match sd_running_bases started with
                  | [r] => bool_decide (rn_base_id r = b) && may_end r conclusion
                  | _ => false
                  end
  | _ => false
  end.

Lemma may_end_group r conclusion :
  may_end r conclusion = true → base_group demo_hash_files r (mkExecution (rn_base_id r) conclusion 0 ∅ []).
Proof.
  unfold may_end. destruct (head _) as [first|] eqn:Hf; [|done].
  destruct (dependency_status _ _) as [status| |] eqn:Hs; try done.
  destruct (condition_allows _ _ _) as [[]| |] eqn:Hc; try done.
  destruct (pj_virtual_job first) as [v|] eqn:Hv; intros H.
  - destruct (execute_virtual_job _ _ _ _ _ _ _) as [e| |] eqn:He; try done.
    apply andb_prop in H as [(Hb & Hco & Hst & Ho)%bool_decide_eq_true Hn].
    destruct e as [b c n o l]; simpl in *. subst. destruct l; [|done]. by eapply group_virtual.
  - assert (conclusion = aggregate_conclusions [conclusion]) as Ha by by destruct conclusion.
    rewrite Ha. by eapply group_jobs.
Qed.

Lemma take_base_step b conclusion st next :
  may_take b conclusion st = true → take_base b conclusion st = Ok next → sched_step demo_hash_files st next.
Proof.
  unfold may_take, take_base. intros [Hu H]%andb_prop. destruct (start_ready false st) as [started| |] eqn:Hs; try done.
  destruct (sd_running_bases started) as [|r [|]] eqn:Hr; try done.
  apply andb_prop in H as [<-%bool_decide_eq_true Hm]. cbn [obind]. intros Ht.
  apply (step_take _ _ false started [] r [] _ next Hu Hs Hr (may_end_group _ _ Hm) Ht).
Qed.

Fixpoint take_bases (l : list (string * JobConclusion)) (st : Sched) : option Sched :=
  match l with
  | [] => Some st
  | (b, conclusion) :: l =>
      if may_take b conclusion st then
        match take_base b conclusion st with Ok next => take_bases l next | _ => None end
      else None
  end.

Lemma take_bases_reachable plan l st next :
  reachable demo_hash_files plan st → take_bases l st = Some next → reachable demo_hash_files plan next.
Proof.
  revert st; induction l as [|[b c] l IH]; intros st Hst; cbn [take_bases]; [by intros [= <-]|].
  destruct (may_take b c st) eqn:Hm; [|done]. destruct (take_base b c st) as [st'| |] eqn:Ht; try done.
  apply IH. by eapply rtc_r, take_base_step.
Qed.

(** The first invocation fails, and the second one is skipped unstarted. *)
Definition failing_run : list (string * JobConclusion) :=
  [("build", JobSuccess); ("deploy::matrix-1::gate", JobSuccess); ("deploy::matrix-1::ship", JobFailure);
   ("deploy::matrix-1", JobFailure)].

Definition run_state (l : list (string * JobConclusion)) : Sched :=
  default (sched_init narrow_plan) (take_bases l (sched_init narrow_plan)).

Lemma run_state_reachable l : reachable demo_hash_files narrow_plan (run_state l).
Proof.
  unfold run_state. destruct (take_bases l _) as [st|] eqn:E; simpl; [|apply rtc_refl].
  eapply take_bases_reachable, E. apply rtc_refl.
Qed.

Example failing_run_skips :
  btree_iter (sd_completed_bases (run_state failing_run)) =
  [("build", JobSuccess); ("deploy::matrix-1", JobFailure);
   ("deploy::matrix-1::gate", JobSuccess); ("deploy::matrix-1::ship", JobFailure);
   ("deploy::matrix-2", JobSkipped); ("deploy::matrix-2::gate", JobSkipped);
   ("deploy::matrix-2::ship", JobSkipped)].
Proof. vm_compute. reflexivity. Qed.

Lemma scheduler_progress_witness :
  ∃ started r, start_ready false (run_state failing_run) = Ok started ∧ r ∈ sd_running_bases started.
Proof.
  destruct (scheduler_progress demo_hash_files _ _ _ _ _ narrow_linked (run_state_reachable failing_run))
    as [[H _] | H]; [vm_compute; reflexivity | vm_compute in H; discriminate H | exact H].
Defined.

Lemma scheduler_terminates_witness :
  Acc (λ next st, sched_step demo_hash_files st next) (run_state failing_run).
Proof.
  apply (proj1 (scheduler_terminates demo_hash_files _ _ _ _ _ narrow_linked (run_state_reachable failing_run))).
Defined.

Lemma scheduler_runs_in_order_witness :
  ∃ started r, start_ready false (run_state [("build", JobSuccess)]) = Ok started ∧
    sd_running_bases started = [r] ∧ ¬ completed started (rn_base_id r).
Proof.
  destruct (is_ok_inv (start_ready false (run_state [("build", JobSuccess)]))) as [started Hs];
    [vm_compute; reflexivity|].
  assert (∃ r, sd_running_bases started = [r]) as [r Hr].
  { assert (length (sd_running_bases started) = 1) as Hl.
    { assert (match start_ready false (run_state [("build", JobSuccess)]) with
              | Ok started => length (sd_running_bases started) | _ => 0 end = 1) as H
        by (vm_compute; reflexivity).
      rewrite Hs in H. exact H. }
    destruct (sd_running_bases started) as [|r [|]]; [discriminate Hl | by exists r | discriminate Hl]. }
  exists started, r. split; [exact Hs|]. split; [exact Hr|].
  apply (scheduler_runs_in_order demo_hash_files _ _ _ _ _ false started r
    ltac:(intros w l H; discriminate H) narrow_linked (run_state_reachable [("build", JobSuccess)]) Hs).
  rewrite Hr. apply list_elem_of_here.
Defined.

Lemma scheduler_bounds_matrices_witness :
  ∃ group, sd_reusable_matrices (run_state failing_run) !! "deploy" = Some group ∧
    mr_failed group = true ∧ (Z.of_nat (size (mr_active group)) ≤ 1)%Z.
Proof.
  assert (match sd_reusable_matrices (run_state failing_run) !! "deploy" with
          | Some group => (mr_failed group, mr_max_parallel group) | None => (false, 0%Z) end = (true, 1%Z)) as H
    by (vm_compute; reflexivity).
  destruct (sd_reusable_matrices (run_state failing_run) !! "deploy") as [group|] eqn:Hg; [|discriminate H].
  injection H as Hf Hm.
  exists group. split; [reflexivity|]. split; [exact Hf|]. rewrite <-Hm.
  apply (scheduler_bounds_matrices demo_hash_files _ _ _ _ _ "deploy" group narrow_linked
    (run_state_reachable failing_run) Hg).
Defined.
End witnesses.
