(* ===== verification/RustText.v ===== *)
(** * Text operations of [std] on string patterns

    Replacing, splitting and truncating, for the parts of the agent that read
    logs and command files.  As in [RustStr] a [str] is its UTF-8 bytes; a
    pattern that is a character is its encoding. *)

From S2P Require Import Prelude RustStr.

(** ** Replacing *)

(** [skip] bytes belong to the match that was just replaced. *)
Fixpoint replace_from (pattern replacement : string) (skip : nat) (s : string) : string :=
  match s with
  | EmptyString => EmptyString
  | String c r =>
      match skip with
      | S skip => replace_from pattern replacement skip r
      | 0 =>
          if starts_with pattern s
          then replacement +:+ replace_from pattern replacement (slen pattern - 1) r
          else String c (replace_from pattern replacement 0 r)
      end
  end.

(** [str::replace]; an empty pattern matches at every character boundary. *)
Definition replace (pattern replacement s : string) : string :=
  if is_empty pattern
  then replacement +:+ sconcat ((λ c, c +:+ replacement) <$> chars s)
  else replace_from pattern replacement 0 s.

(** ** Splitting *)

(** [split_once] at a string. *)
Definition split_once_str (sep s : string) : option (string * string) :=
  i ← sfind sep s; Some (stake i s, sdrop (i + slen sep) s).

(** [split_inclusive('\n')]: no piece for an empty rest. *)
Fixpoint split_inclusive (sep : ascii) (s : string) : list string :=
  match s with
  | EmptyString => []
  | String c r =>
      if bool_decide (c = sep) then String c "" :: split_inclusive sep r
      else match split_inclusive sep r with
           | p :: ps => String c p :: ps
           | [] => [String c ""]
           end
  end.

Definition strip_suffix_byte (c : ascii) (s : string) : option string :=
  match srev s with
  | String d r => if bool_decide (d = c) then Some (srev r) else None
  | EmptyString => None
  end.

(** [str::lines]: the line ending, with one carriage return before it, is not
    part of the line; a carriage return before the end of the text is. *)
Definition lines (s : string) : list string :=
  (λ line, match strip_suffix_byte lf line with
           | Some line => match strip_suffix_byte cr line with Some line => line | None => line end
           | None => line
           end) <$> split_inclusive lf s.

(** [trim_end_matches] for a set of one-byte characters. *)
Fixpoint drop_while (p : ascii → bool) (s : string) : string :=
  match s with
  | String c r => if p c then drop_while p r else s
  | EmptyString => EmptyString
  end.

Definition trim_end_bytes (p : ascii → bool) (s : string) : string := srev (drop_while p (srev s)).

Definition is_cr (c : ascii) : bool := bool_decide (c = cr).
Definition is_line_end (c : ascii) : bool := bool_decide (c = cr) || bool_decide (c = lf).

(** [split_whitespace]: the maximal runs of other characters. *)
Definition is_white (c : string) : bool := is_empty (trim_start c).

Fixpoint white_split (cs : list string) : list string :=
  match cs with
  | [] => [""]
  | c :: cs =>
      if is_white c then "" :: white_split cs
      else match white_split cs with
           | p :: ps => (c +:+ p) :: ps
           | [] => [c]
           end
  end.

Definition split_whitespace (s : string) : list string :=
  base.filter (λ p, is_empty p = false) (white_split (chars s)).

(** ** Prefixes *)

(** [value.get(..prefix.len())], compared without case. *)
Definition strip_prefix_ignore_ascii_case (value prefix : string) : option string :=
  if bool_decide (slen prefix ≤ slen value) && is_char_boundary value (slen prefix)
     && eq_ignore_ascii_case (stake (slen prefix) value) prefix
  then Some (sdrop (slen prefix) value)
  else None.

(** ** Truncation *)

Definition truncate_utf8_bytes (value : string) (maximum : nat) : string :=
  if bool_decide (slen value ≤ maximum) then value
  else stake (floor_char_boundary value maximum) value.

(** [char::len_utf16]: characters of four bytes are surrogate pairs. *)
Definition len_utf16 (c : string) : nat := if bool_decide (slen c = 4) then 2 else 1.

Definition utf16_len (s : string) : nat := sum_list (len_utf16 <$> chars s).

(** The longest run of leading characters that fits. *)
Fixpoint utf16_prefix (maximum units : nat) (cs : list string) : list string :=
  match cs with
  | [] => []
  | c :: cs =>
      let next := units + len_utf16 c in
      if bool_decide (maximum < next) then [] else c :: utf16_prefix maximum next cs
  end.

(** ** Lemmas *)

Lemma string_forall_app p a b : string_forall p (a +:+ b) = string_forall p a && string_forall p b.
Proof. induction a as [|c a IH]; [done|]. rewrite sapp_cons. simpl. by rewrite IH, andb_assoc. Qed.

Lemma srev_append_app s acc : srev_append s acc = srev s +:+ acc.
Proof.
  unfold srev. revert acc; induction s as [|c s IH]; intros acc; simpl; [by rewrite sapp_nil_l|].
  rewrite IH, (IH (String c "")), sapp_assoc. by rewrite sapp_cons, sapp_nil_l.
Qed.

Lemma srev_cons c s : srev (String c s) = srev s +:+ String c "".
Proof. unfold srev at 1. simpl. apply srev_append_app. Qed.

Lemma srev_app a b : srev (a +:+ b) = srev b +:+ srev a.
Proof.
  induction a as [|c a IH]; [by rewrite sapp_nil_l, sapp_nil_r|].
  by rewrite sapp_cons, !srev_cons, IH, sapp_assoc.
Qed.

Lemma srev_involutive s : srev (srev s) = s.
Proof.
  induction s as [|c s IH]; [done|]. rewrite srev_cons, srev_app, IH. done.
Qed.

Lemma slen_srev s : slen (srev s) = slen s.
Proof. induction s as [|c s IH]; [done|]. rewrite srev_cons, slen_app, IH, !slen_string. unfold slen; simpl. lia. Qed.

Lemma sconcat_split_inclusive sep s : sconcat (split_inclusive sep s) = s.
Proof.
  induction s as [|c s IH]; [done|]. cbn [split_inclusive]. case_bool_decide as Hc.
  - cbn. rewrite <-IH at 2. done.
  - destruct (split_inclusive sep s) as [|p ps] eqn:E; cbn in IH |- *; [by subst|].
    by rewrite <-IH.
Qed.

(** *** Pieces *)

Definition free_of (c : ascii) (s : string) : bool := string_forall (λ d, negb (bool_decide (d = c))) s.

Lemma free_of_cons c d s : free_of c (String d s) = true ↔ d ≠ c ∧ free_of c s = true.
Proof. unfold free_of; simpl. by rewrite andb_true_iff, negb_true_iff, bool_decide_eq_false. Qed.

Lemma free_of_app c a b : free_of c (a +:+ b) = true ↔ free_of c a = true ∧ free_of c b = true.
Proof. unfold free_of. by rewrite string_forall_app, andb_true_iff. Qed.

Lemma free_of_srev c s : free_of c (srev s) = free_of c s.
Proof.
  induction s as [|d s IH]; [done|]. unfold free_of in *. rewrite srev_cons, string_forall_app, IH. simpl.
  by rewrite andb_true_r, andb_comm.
Qed.

Lemma sfind_free c p a b :
  free_of c a = true → sfind (String c p) (a +:+ b) = (λ i, slen a + i) <$> sfind (String c p) b.
Proof.
  induction a as [|d a IH]; intros Ha.
  { rewrite sapp_nil_l. by destruct (sfind (String c p) b). }
  apply free_of_cons in Ha as [Hd Ha]. rewrite sapp_cons. cbn [sfind].
  unfold starts_with; simpl. rewrite bool_decide_false by congruence. rewrite IH by done.
  by destruct (sfind (String c p) b).
Qed.

Lemma split_inclusive_line c a b :
  free_of c a = true → split_inclusive c (a +:+ String c b) = (a +:+ String c "") :: split_inclusive c b.
Proof.
  induction a as [|d a IH]; intros Ha.
  { rewrite !sapp_nil_l. simpl. by rewrite bool_decide_true. }
  apply free_of_cons in Ha as [Hd Ha]. rewrite !sapp_cons. cbn [split_inclusive].
  by rewrite bool_decide_false, IH.
Qed.

Lemma strip_suffix_byte_app c a : strip_suffix_byte c (a +:+ String c "") = Some a.
Proof.
  unfold strip_suffix_byte. rewrite srev_app. change (srev (String c "")) with (String c "").
  rewrite sapp_cons, sapp_nil_l, bool_decide_true by done. by rewrite srev_involutive.
Qed.

Lemma strip_suffix_byte_free c a : free_of c a = true → strip_suffix_byte c a = None.
Proof.
  intros Ha. unfold strip_suffix_byte. rewrite <-free_of_srev in Ha. destruct (srev a) as [|d r]; [done|].
  apply free_of_cons in Ha as [Hd _]. by rewrite bool_decide_false.
Qed.

Lemma lines_line a b :
  free_of lf a = true → free_of cr a = true → lines (a +:+ String lf b) = a :: lines b.
Proof.
  intros Ha Hc. unfold lines. rewrite split_inclusive_line by done. rewrite fmap_cons.
  by rewrite strip_suffix_byte_app, strip_suffix_byte_free.
Qed.

Lemma trim_cr_free a : free_of cr a = true → trim_end_bytes is_cr a = a.
Proof.
  intros Ha. unfold trim_end_bytes. rewrite <-free_of_srev in Ha. rewrite <-(srev_involutive a) at 2. f_equal.
  destruct (srev a) as [|d r]; [done|]. apply free_of_cons in Ha as [Hd _]. simpl.
  unfold is_cr. by rewrite bool_decide_false.
Qed.

Lemma split_once_Some c s a b : split_once c s = Some (a, b) → s = a +:+ String c b ∧ free_of c a = true.
Proof.
  revert a b; induction s as [|d s IH]; intros a b; simpl; [done|]. case_bool_decide as Hd.
  - intros [= <- <-]. by subst.
  - destruct (split_once c s) as [[a' b']|]; [|done]. intros [= <- <-]. destruct (IH a' b' eq_refl) as [-> Ha].
    split; [done|]. by apply free_of_cons.
Qed.

Lemma split_once_None c s : split_once c s = None → free_of c s = true.
Proof.
  induction s as [|d s IH]; simpl; [done|]. case_bool_decide as Hd; [done|].
  destruct (split_once c s) as [[a' b']|]; [done|]. intros _. apply free_of_cons. auto.
Qed.

Lemma split_once_line c a b : free_of c a = true → split_once c (a +:+ String c b) = Some (a, b).
Proof.
  induction a as [|d a IH]; intros Ha.
  { rewrite sapp_nil_l. simpl. by rewrite bool_decide_true. }
  apply free_of_cons in Ha as [Hd Ha]. rewrite sapp_cons. simpl. by rewrite bool_decide_false, IH.
Qed.

Lemma split_line c a b : free_of c a = true → split c (a +:+ String c b) = a :: split c b.
Proof.
  induction a as [|d a IH]; intros Ha.
  { rewrite sapp_nil_l. simpl. by rewrite bool_decide_true. }
  apply free_of_cons in Ha as [Hd Ha]. rewrite sapp_cons. simpl. by rewrite bool_decide_false, IH.
Qed.

Lemma split_free c a : free_of c a = true → split c a = [a].
Proof.
  induction a as [|d a IH]; intros Ha; [done|]. apply free_of_cons in Ha as [Hd Ha]. simpl.
  by rewrite bool_decide_false, IH.
Qed.

Lemma split_nonempty c s : split c s ≠ [].
Proof. destruct s; simpl; [done|]. case_bool_decide; [done|]. by destruct (split c s). Qed.

(** A text is cut at its first separator, or has none. *)
Lemma cut_ind (c : ascii) (P : string → Prop) :
  (∀ a, free_of c a = true → P a) →
  (∀ a b, free_of c a = true → P b → P (a +:+ String c b)) → ∀ s, P s.
Proof.
  intros H0 Hs s. remember (slen s) as n eqn:Hn. revert s Hn.
  induction (lt_wf n) as [n _ IH]. intros s ->. destruct (split_once c s) as [[a b]|] eqn:E.
  - apply split_once_Some in E as [-> Ha]. apply Hs; [done|]. eapply IH; [|done].
    rewrite slen_app, slen_string. lia.
  - by apply H0, split_once_None.
Qed.

Lemma sjoin_split c s : sjoin (String c "") (split c s) = s.
Proof.
  induction s as [a Ha|a b Ha IH] using (cut_ind c); [by rewrite split_free|].
  rewrite split_line by done. pose proof (split_nonempty c b). destruct (split c b) as [|p ps] eqn:E; [done|].
  change (a +:+ String c "" +:+ sjoin (String c "") (p :: ps) = a +:+ String c b). by rewrite IH.
Qed.

Lemma split_free_of c d s : free_of d s = true → Forall (λ p, free_of d p = true) (split c s).
Proof.
  induction s as [a Ha|a b Ha IH] using (cut_ind c); intros Hd.
  - rewrite split_free by done. by repeat constructor.
  - apply free_of_app in Hd as [? Hd]. apply free_of_cons in Hd as [_ ?]. rewrite split_line by done. constructor; auto.
Qed.

Lemma split_piece_free c s p : p ∈ split c s → free_of c p = true.
Proof.
  induction s as [a Ha|a b Ha IH] using (cut_ind c).
  - rewrite split_free by done. by intros ->%list_elem_of_singleton.
  - rewrite split_line by done. intros [-> | ?]%elem_of_cons; auto.
Qed.

Lemma lines_split v b : free_of cr v = true → lines (v +:+ String lf b) = split lf v ++ lines b.
Proof.
  induction v as [a Ha|a v Ha IH] using (cut_ind lf); intros Hc.
  - rewrite split_free, lines_line by done. done.
  - apply free_of_app in Hc as [Hca Hcv]. apply free_of_cons in Hcv as [_ Hcv].
    rewrite sapp_assoc, sapp_cons, lines_line, split_line, IH by done. done.
Qed.

(** Trimming at the end stops at a byte that is kept. *)
Lemma drop_while_app p a c b : p c = false → drop_while p (a +:+ String c b) = drop_while p a +:+ String c b.
Proof.
  intros Hc. induction a as [|d a IH].
  - rewrite sapp_nil_l. cbn [drop_while]. by rewrite Hc.
  - rewrite sapp_cons. cbn [drop_while]. destruct (p d); [apply IH | by rewrite sapp_cons].
Qed.

Lemma trim_end_bytes_app p a c b : p c = false → trim_end_bytes p (a +:+ String c b) = a +:+ String c (trim_end_bytes p b).
Proof.
  intros Hc. unfold trim_end_bytes.
  assert (srev (a +:+ String c b) = srev b +:+ String c (srev a)) as ->.
  { by rewrite srev_app, srev_cons, sapp_assoc, sapp_cons, sapp_nil_l. }
  rewrite drop_while_app by done. by rewrite srev_app, srev_cons, srev_involutive, sapp_assoc, sapp_cons, sapp_nil_l.
Qed.

(** [lines] takes one carriage return off; trimming takes the others. *)
Lemma lines_line_read a b :
  free_of lf a = true → ∃ line, lines (a +:+ String lf b) = line :: lines b ∧ trim_end_bytes is_cr line = trim_end_bytes is_cr a.
Proof.
  intros Ha. unfold lines. rewrite split_inclusive_line by done. rewrite fmap_cons. eexists. split; [done|].
  rewrite strip_suffix_byte_app. unfold strip_suffix_byte, trim_end_bytes. destruct (srev a) as [|c r] eqn:E; [by rewrite E|].
  case_bool_decide as Hc; [|by rewrite E]. subst c. rewrite srev_involutive. cbn [drop_while].
  assert (is_cr cr = true) as -> by (unfold is_cr; by rewrite bool_decide_true). done.
Qed.

Lemma lines_split_read v b :
  ∃ vs, lines (v +:+ String lf b) = vs ++ lines b ∧ trim_end_bytes is_cr <$> vs = trim_end_bytes is_cr <$> split lf v.
Proof.
  induction v as [a Ha|a v Ha (vs & IH & Hvs)] using (cut_ind lf).
  - destruct (lines_line_read a b Ha) as (line & -> & Hl). exists [line]. rewrite split_free by done. cbn. by rewrite Hl.
  - destruct (lines_line_read a (v +:+ String lf b) Ha) as (line & Hline & Hl). exists (line :: vs).
    rewrite sapp_assoc, sapp_cons, Hline, IH, split_line by done. split; [done|]. rewrite !fmap_cons. by rewrite Hl, Hvs.
Qed.

Lemma split_once_sfind c s : is_some (sfind (String c "") s) = is_some (split_once c s).
Proof.
  induction s as [|d s IH]; [done|]. simpl. unfold starts_with; simpl.
  destruct (decide (c = d)) as [->|Hne].
  - by rewrite !bool_decide_true.
  - rewrite !bool_decide_false by congruence. destruct (sfind _ s), (split_once c s) as [[]|]; done.
Qed.
