(* ===== verification/CommandFile.v ===== *)
(** * Command files (crates/gitzero-agent, executor.rs)

    The files a step writes its outputs, its environment and its search path to:
    their parser and what is done with the values. *)

From S2P Require Import Prelude RustStr RustText OrdMap.

Abbreviation Environment := (gmap string string).

(** The first line equal to [delimiter], up to carriage returns. *)
Fixpoint take_heredoc (delimiter : string) (rest value : list string) : option (list string * list string) :=
  match rest with
  | [] => None
  | line :: rest =>
      let line := trim_end_bytes is_cr line in
      if bool_decide (line = delimiter) then Some (value, rest)
      else take_heredoc delimiter rest (value ++ [line])
  end.

Definition is_heredoc (line : string) : bool :=
  match sfind "<<" line with
  | Some heredoc => match sfind "=" line with
                    | Some equals => bool_decide (heredoc < equals)
                    | None => true
                    end
  | None => false
  end.

Definition valid_variable_name (key : string) : bool :=
  negb (is_empty key ||
        contains_byte (λ c, bool_decide (c = nul) || bool_decide (c = lf) || bool_decide (c = cr) ||
                            bool_decide (c = "="%char)) key).

(** One entry from a non-empty line and the lines after it. *)
Definition parse_entry (line : string) (rest : list string)
    : outcome string (string * string * list string) :=
  if is_heredoc line then
    let? '(key, delimiter) := expect (split_once_str "<<" line) in
    reject_if (is_empty delimiter)
      "invalid command-file entry: multiline delimiter cannot be empty" ;?
    let? '(value, rest) := ok_or (take_heredoc delimiter rest [])
      ("invalid command-file entry: missing multiline delimiter '" +:+ delimiter +:+ "'") in
    Ok (key, sjoin (String lf "") value, rest)
  else if is_some (sfind "=" line) then
    let? '(key, value) := expect (split_once "=" line) in Ok (key, value, rest)
  else Err "invalid command-file entry: expected NAME=VALUE or NAME<<DELIMITER".

(** [fuel] bounds the lines left. *)
Fixpoint parse_lines (fuel : nat) (rest : list string) (values : gmap string string)
    : outcome string (gmap string string) :=
  match rest with
  | [] => Ok values
  | line :: rest =>
      match fuel with
      | 0 => Panic
      | S fuel =>
          let line := trim_end_bytes is_cr line in
          if is_empty line then parse_lines fuel rest values
          else
            let? '(key, value, rest) := parse_entry line rest in
            reject_if (negb (valid_variable_name key)) "invalid command-file variable name" ;?
            parse_lines fuel rest (<[key := value]> values)
      end
  end.

Definition parse_command_source (source : string) : outcome string (gmap string string) :=
  let lines := lines source in parse_lines (length lines) lines ∅.

(** ** The environment of later steps *)

Definition is_default_environment_name (name : string) : bool :=
  starts_with "GITHUB_" name || starts_with "RUNNER_" name.

(** [apply_environment_file], on what [parse_command_file] returned. *)
Definition apply_environment_file (environment : Environment) (source : string)
    : outcome string Environment :=
  let? values := parse_command_source source in
  Ok (fold_left (λ environment '(name, value),
        if negb (is_default_environment_name name) && negb (eq_ignore_ascii_case name "NODE_OPTIONS")
        then <[name := value]> environment else environment)
      (btree_iter values) environment).

Definition restore_default_environment (environment defaults : Environment) : Environment :=
  btree_extend environment
    (btree_collect (base.filter (λ entry, is_default_environment_name entry.1 = true)
       (btree_iter defaults))).

(** [apply_path_file]; [process_path] is [std::env::var("PATH")]. *)
Definition add_path (addition : string) (entries : list string) : list string :=
  addition :: base.filter (λ entry, entry ≠ addition) entries.

Definition apply_path_file (process_path : option string) (environment : Environment)
    (source : string) : Environment :=
  let existing := default (default "" process_path) (environment !! "PATH") in
  let entries := if is_empty existing then [] else split ":" existing in
  let additions := base.filter (λ line, is_empty line = false) (lines source) in
  if is_nil additions then environment
  else <["PATH" := sjoin ":" (fold_left (λ entries addition, add_path addition entries) additions entries)]>
         environment.

(** ** Lemmas *)

Lemma take_heredoc_length delimiter rest value v rest' :
  take_heredoc delimiter rest value = Some (v, rest') → length rest' < length rest.
Proof.
  revert value; induction rest as [|line rest IH]; intros value; simpl; [done|].
  case_bool_decide; [intros [= _ <-]; lia|]. intros Hr%IH. lia.
Qed.

Lemma split_once_str_Some sep s i : sfind sep s = Some i → is_Some (split_once_str sep s).
Proof. unfold split_once_str. intros ->. simpl. by eexists. Qed.

Lemma parse_entry_no_panic line rest : parse_entry line rest ≠ Panic.
Proof.
  unfold parse_entry. destruct (is_heredoc line) eqn:Hh.
  - unfold is_heredoc in Hh. destruct (sfind "<<" line) eqn:E; [|done].
    apply split_once_str_Some in E as [[k d] ->]. cbn [expect obind].
    rewrite obind_Panic. intros [H | (u & _ & H)]; [by apply reject_if_Panic in H|].
    apply obind_Panic in H as [H | ([v r] & _ & ?)]; [by apply ok_or_Panic in H | done].
  - rewrite split_once_sfind. by destruct (split_once "=" line) as [[k v]|].
Qed.

Lemma parse_entry_length line rest key value rest' :
  parse_entry line rest = Ok (key, value, rest') → length rest' ≤ length rest.
Proof.
  unfold parse_entry. destruct (is_heredoc line).
  - intros ([k d] & _ & H)%obind_Ok. apply obind_Ok in H as (u & _ & H).
    apply obind_Ok in H as ([v r] & Hr%ok_or_Ok%take_heredoc_length & [= _ _ <-]). lia.
  - destruct (is_some _); [|done]. by intros ([k v] & _ & [= _ _ <-])%obind_Ok.
Qed.

Lemma parse_lines_no_panic fuel rest values : length rest ≤ fuel → parse_lines fuel rest values ≠ Panic.
Proof.
  revert rest values; induction fuel as [|fuel IH]; intros [|line rest] values Hf; simpl in *; try done; try lia.
  destruct (is_empty _); [apply IH; lia|]. rewrite obind_Panic.
  intros [H | ([[k v] r] & Hr%parse_entry_length & H)]; [by apply parse_entry_no_panic in H|].
  apply obind_Panic in H as [H | (u & _ & H)]; [by apply reject_if_Panic in H|].
  revert H. apply IH. lia.
Qed.

Lemma parse_lines_fuel fuel fuel' rest values :
  length rest ≤ fuel → length rest ≤ fuel' → parse_lines fuel rest values = parse_lines fuel' rest values.
Proof.
  revert fuel' rest values; induction fuel as [|fuel IH]; intros [|fuel'] [|line rest] values Hf Hf';
    simpl in *; try done; try lia.
  destruct (is_empty _); [apply IH; lia|].
  destruct (parse_entry _ rest) as [[[k v] r]| |] eqn:E; cbn [obind]; try done.
  apply parse_entry_length in E. destruct (reject_if _ _); cbn [obind]; try done. apply IH; lia.
Qed.

Notation trim_cr := (trim_end_bytes is_cr).

Lemma take_heredoc_found delimiter vs d rest acc :
  trim_cr d = delimiter → delimiter ∉ trim_cr <$> vs →
  take_heredoc delimiter (vs ++ d :: rest) acc = Some (acc ++ (trim_cr <$> vs), rest).
Proof.
  intros Hd. revert acc; induction vs as [|v vs IH]; intros acc Hn; cbn [take_heredoc app fmap list_fmap].
  - rewrite Hd, bool_decide_true by done. by rewrite app_nil_r.
  - rewrite fmap_cons in Hn. apply not_elem_of_cons in Hn as [Hne Hn].
    rewrite bool_decide_false by congruence. by rewrite IH, <-app_assoc.
Qed.

(** ** What a well-behaved step writes *)

Inductive CommandEntry :=
  | Assign (name value : string)
  | Heredoc (name delimiter value : string).

Definition entry_value (entry : CommandEntry) : string * string :=
  match entry with Assign name value | Heredoc name _ value => (name, value) end.

(** The lines of a value as they are read: without the carriage returns at their
    ends. *)
Definition read_lines (value : string) : list string := trim_cr <$> split lf value.
Definition read_value (value : string) : string := sjoin (String lf "") (read_lines value).
Definition read_entry (entry : CommandEntry) : string * string := prod_map id read_value (entry_value entry).

Definition write_entry (entry : CommandEntry) : string :=
  match entry with
  | Assign name value => name +:+ "=" +:+ value +:+ String lf ""
  | Heredoc name delimiter value =>
      name +:+ "<<" +:+ delimiter +:+ String lf "" +:+ value +:+ String lf "" +:+
      delimiter +:+ String lf ""
  end.

Definition one_line (s : string) : bool := free_of lf s && free_of cr s.

(** A name is a variable name without angle brackets, the value of an assignment has
    one line, and the delimiter is no line of the value it ends, as it is read. *)
Definition entry_ok (entry : CommandEntry) : bool :=
  match entry with
  | Assign name value => valid_variable_name name && free_of "<" name && free_of lf value
  | Heredoc name delimiter value =>
      valid_variable_name name && free_of "<" name && negb (is_empty delimiter) && one_line delimiter &&
      negb (bool_decide (delimiter ∈ read_lines value))
  end.

Lemma read_value_exact value : free_of cr value = true → read_value value = value.
Proof.
  intros H. unfold read_value, read_lines. rewrite <-(sjoin_split lf value) at 2. f_equal.
  pose proof (split_free_of lf cr value H) as Hall. induction Hall as [|line lines Hline _ IH]; [done|].
  rewrite fmap_cons, IH. by rewrite trim_cr_free.
Qed.

Lemma read_value_line value : free_of lf value = true → read_value value = trim_cr value.
Proof. intros H. unfold read_value, read_lines. by rewrite split_free. Qed.

Lemma valid_name name : valid_variable_name name = true →
  name ≠ "" ∧ free_of "=" name = true ∧ free_of lf name = true ∧ free_of cr name = true.
Proof.
  unfold valid_variable_name. intros [Hne Hc]%negb_true_iff%orb_false_iff. split; [by intros ->|].
  clear Hne. induction name as [|c name IH]; [done|]. cbn [contains_byte] in Hc.
  apply orb_false_iff in Hc as [Hc Hrest]. destruct (IH Hrest) as (? & ? & ?).
  rewrite !orb_false_iff, !bool_decide_eq_false in Hc. destruct Hc as [[[? ?] ?] ?]. rewrite !free_of_cons. auto.
Qed.

Lemma parse_lines_step fuel line rest key value rest' values :
  is_empty (trim_cr line) = false → parse_entry (trim_cr line) rest = Ok (key, value, rest') →
  valid_variable_name key = true → length (line :: rest) ≤ fuel →
  parse_lines fuel (line :: rest) values = parse_lines fuel rest' (<[key := value]> values).
Proof.
  intros He Hp Hk Hf. destruct fuel as [|fuel]; [simpl in Hf; lia|].
  transitivity (parse_lines fuel rest' (<[key := value]> values)).
  - cbn [parse_lines]. rewrite He, Hp by done. cbn [obind]. by rewrite Hk.
  - pose proof (parse_entry_length _ _ _ _ _ Hp). simpl in Hf. apply parse_lines_fuel; lia.
Qed.

(** A text that ends its last line does not run into what follows. *)
Lemma lines_ended a b : ∃ l, lines ((a +:+ String lf "") +:+ b) = l ++ lines b.
Proof.
  rewrite sapp_assoc, sapp_cons, sapp_nil_l. unfold lines.
  enough (∃ l, split_inclusive lf (a +:+ String lf b) = l ++ split_inclusive lf b) as [l ->].
  { eexists. by rewrite fmap_app. }
  induction a as [a Ha|a c Ha [l IH]] using (cut_ind lf).
  - eexists [_]. by rewrite split_inclusive_line.
  - exists ((a +:+ String lf "") :: l). by rewrite sapp_assoc, sapp_cons, split_inclusive_line, IH.
Qed.

Lemma lines_written entry b : ∃ l, lines (write_entry entry +:+ b) = l ++ lines b.
Proof.
  destruct entry as [name value | name delimiter value]; cbn [write_entry].
  - rewrite <-!sapp_assoc. apply lines_ended.
  - rewrite <-!sapp_assoc. apply lines_ended.
Qed.

Lemma parse_lines_assign fuel name value rest values :
  entry_ok (Assign name value) = true → length (lines (write_entry (Assign name value) +:+ rest)) ≤ fuel →
  parse_lines fuel (lines (write_entry (Assign name value) +:+ rest)) values =
  parse_lines fuel (lines rest) (<[name := read_value value]> values).
Proof.
  cbn [entry_ok write_entry]. rewrite ?andb_true_iff. intros [[Hname Hlt] Hvl] Hfuel.
  pose proof (valid_name name Hname) as (Hne & Heq & Hnl & Hnc).
  assert ((name +:+ "=" +:+ value +:+ String lf "") +:+ rest = (name +:+ String "=" value) +:+ String lf rest) as E.
  { by rewrite !sapp_assoc. }
  rewrite E in Hfuel |- *. clear E.
  destruct (lines_line_read (name +:+ String "=" value) rest) as (line & Hline & Htrim).
  { apply free_of_app. split; [done|]. by apply free_of_cons. }
  rewrite Hline in Hfuel |- *. rewrite trim_end_bytes_app in Htrim by done.
  rewrite read_value_line by done.
  apply parse_lines_step; rewrite ?Htrim; [by destruct name | | done | done].
  unfold parse_entry. assert (is_heredoc (name +:+ String "=" (trim_cr value)) = false) as ->.
  - unfold is_heredoc. rewrite !sfind_free by done. simpl.
    destruct (starts_with "<" (trim_cr value)) eqn:E1; destruct (sfind "<<" (trim_cr value)) eqn:E2; simpl;
        try (apply bool_decide_false; lia); done.
  - rewrite split_once_sfind, split_once_line by done. done.
Qed.

Lemma parse_lines_heredoc fuel name delimiter value rest values :
  entry_ok (Heredoc name delimiter value) = true →
  length (lines (write_entry (Heredoc name delimiter value) +:+ rest)) ≤ fuel →
  parse_lines fuel (lines (write_entry (Heredoc name delimiter value) +:+ rest)) values =
  parse_lines fuel (lines rest) (<[name := read_value value]> values).
Proof.
  cbn [entry_ok write_entry]. rewrite ?andb_true_iff, ?negb_true_iff, ?bool_decide_eq_false.
  intros [[[[Hname Hlt] Hde] [Hdl Hdc]%andb_prop] Hdel] Hfuel.
  pose proof (valid_name name Hname) as (Hne & Heq & Hnl & Hnc).
  assert ((name +:+ "<<" +:+ delimiter +:+ String lf "" +:+ value +:+ String lf "" +:+ delimiter +:+ String lf "") +:+ rest
    = (name +:+ "<<" +:+ delimiter) +:+ String lf (value +:+ String lf (delimiter +:+ String lf rest))) as E.
  { by rewrite !sapp_assoc, !sapp_cons, !sapp_nil_l. }
  rewrite E in Hfuel |- *. clear E.
  assert (∀ c, free_of c name = true → "<"%char ≠ c → free_of c delimiter = true → free_of c (name +:+ "<<" +:+ delimiter) = true) as Hfree.
  { intros c H1 H2 H3. apply free_of_app. split; [done|]. rewrite !sapp_cons, sapp_nil_l. by rewrite !free_of_cons. }
  destruct (lines_split_read value (delimiter +:+ String lf rest)) as (vs & Hvs & Hread).
  rewrite (lines_line (name +:+ "<<" +:+ delimiter)), Hvs, lines_line in Hfuel |- * by (done || by apply Hfree).
  assert (trim_cr (name +:+ "<<" +:+ delimiter) = name +:+ "<<" +:+ delimiter) as Htrim by (apply trim_cr_free; by apply Hfree).
  apply parse_lines_step; rewrite ?Htrim; [by destruct name | | done | done].
  unfold parse_entry.
  assert (sfind "<<" (name +:+ "<<" +:+ delimiter) = Some (slen name)) as Hf.
  { rewrite sfind_free by done. simpl. by rewrite Nat.add_0_r. }
  assert (is_heredoc (name +:+ "<<" +:+ delimiter) = true) as ->.
  { unfold is_heredoc. rewrite Hf, sfind_free by done. simpl.
    destruct (sfind "=" ("" +:+ delimiter)); simpl; [apply bool_decide_true; lia | done]. }
  unfold split_once_str. rewrite Hf. cbn [mbind option_bind expect obind].
  rewrite stake_app_exact. change (slen "<<") with 2.
  rewrite <-sdrop_sdrop, sdrop_app_exact.
  change (sdrop 2 ("<<" +:+ delimiter)) with delimiter. rewrite Hde. cbn [reject_if obind].
  rewrite take_heredoc_found; [|by apply trim_cr_free|by rewrite Hread]. cbn [ok_or obind app].
  by rewrite Hread.
Qed.

Lemma parse_lines_entry fuel entry rest values :
  entry_ok entry = true → length (lines (write_entry entry +:+ rest)) ≤ fuel →
  parse_lines fuel (lines (write_entry entry +:+ rest)) values =
  parse_lines fuel (lines rest) (<[(read_entry entry).1 := (read_entry entry).2]> values).
Proof. destruct entry; [apply parse_lines_assign | apply parse_lines_heredoc]. Qed.

Lemma parse_entries fuel entries values :
  Forall (λ entry, entry_ok entry = true) entries →
  length (lines (sconcat (write_entry <$> entries))) ≤ fuel →
  parse_lines fuel (lines (sconcat (write_entry <$> entries))) values =
  Ok (foldl (λ m kv, <[kv.1 := kv.2]> m) values (read_entry <$> entries)).
Proof.
  revert values; induction entries as [|entry entries IH]; intros values Hok Hfuel.
  { by destruct fuel. }
  apply Forall_cons in Hok as [He Hok].
  change (sconcat (write_entry <$> (entry :: entries)))
    with (write_entry entry +:+ sconcat (write_entry <$> entries)) in Hfuel |- *.
  rewrite parse_lines_entry by done. rewrite IH; [done|done|].
  assert (∃ l, lines (write_entry entry +:+ sconcat (write_entry <$> entries)) =
    l ++ lines (sconcat (write_entry <$> entries))) as [l Hl]; [|rewrite Hl, length_app in Hfuel; lia].
  apply lines_written.
Qed.

Lemma parse_lines_names fuel rest values :
  (∀ name v, values !! name = Some v → valid_variable_name name = true) →
  outcome_spec (parse_lines fuel rest values)
    (λ result, ∀ name v, result !! name = Some v → valid_variable_name name = true) (λ _, True) ∨ length rest > fuel.
Proof.
  revert rest values; induction fuel as [|fuel IH]; intros [|line rest] values Hv; simpl; auto with lia.
  destruct (is_empty _).
  { destruct (IH rest values Hv); [by left | right; lia]. }
  destruct (parse_entry _ rest) as [[[k v] r]| |] eqn:E; cbn [obind]; [|by left|by apply parse_entry_no_panic in E].
  destruct (valid_variable_name k) eqn:Hk; cbn [negb reject_if obind]; [|by left].
  apply parse_entry_length in E. destruct (IH r (<[k := v]> values)) as [?|?]; [|by left|right; lia].
  intros name w. rewrite lookup_insert_Some. intros [[<- _] | [_ ?]]; [done | by eapply Hv].
Qed.

(** ** Properties *)

(** C35: The values a step writes with the documented syntax are read back, in order
    and with the last one of a name winning, without the carriage returns at the ends
    of their lines; so exactly, where there are none.  Names have no angle bracket,
    the value of an assignment has one line, and a value of many lines is written
    with a delimiter that is none of them as they are read: a line that is the
    delimiter up to carriage returns would end the block, whatever follows it then
    being read as entries ([carriage_returns_end_blocks]).  Under these conditions
    no value can end its own block or define another name. *)
Theorem command_file_roundtrip entries :
  Forall (λ entry, entry_ok entry = true) entries →
  parse_command_source (sconcat (write_entry <$> entries)) = Ok (btree_collect (read_entry <$> entries)) ∧
  (Forall (λ entry, free_of cr (entry_value entry).2 = true) entries →
   parse_command_source (sconcat (write_entry <$> entries)) = Ok (btree_collect (entry_value <$> entries))).
Proof.
  intros Hok. assert (parse_command_source (sconcat (write_entry <$> entries)) = Ok (btree_collect (read_entry <$> entries)))
    as Hread by (by apply parse_entries).
  split; [done|]. intros Hfree. rewrite Hread. do 2 f_equal. clear Hok Hread.
  induction Hfree as [|entry entries Hentry _ IH]; [done|]. rewrite !fmap_cons, IH. f_equal.
  unfold read_entry. destruct (entry_value entry) as [name value]. cbn [snd] in Hentry.
  change (prod_map id read_value (name, value)) with (name, read_value value). by rewrite read_value_exact.
Qed.

(** reading a command file ends, never panics, and defines only valid names;
    and a step cannot use it to change a default variable of the runner or
    [NODE_OPTIONS]. *)
Theorem command_file_confined environment source name :
  is_default_environment_name name = true ∨ eq_ignore_ascii_case name "NODE_OPTIONS" = true →
  outcome_spec (parse_command_source source)
    (λ values, ∀ name v, values !! name = Some v → valid_variable_name name = true) (λ _, True) ∧
  outcome_spec (apply_environment_file environment source)
    (λ environment', environment' !! name = environment !! name) (λ _, True).
Proof.
  intros Hname.
  assert (outcome_spec (parse_command_source source)
    (λ values, ∀ name v, values !! name = Some v → valid_variable_name name = true) (λ _, True)) as Hspec.
  { unfold parse_command_source. destruct (parse_lines_names (length (lines source)) (lines source) ∅) as [?|?];
      [by intros ? ? ?%lookup_empty_Some | done | lia]. }
  split; [done|]. unfold apply_environment_file. apply outcome_spec_bind.
  eapply outcome_spec_mono; [exact Hspec| |done]. intros values _. cbn beta.
  cbn [outcome_spec]. generalize (btree_iter values). intros l. revert environment.
  induction l as [|[k v] l IH]; intros env; cbn [fold_left]; [done|]. rewrite IH.
  destruct (_ && _) eqn:E; [|done]. rewrite lookup_insert_ne; [done|]. intros ->.
  apply andb_prop in E as [E1%negb_true_iff E2%negb_true_iff]. destruct Hname; congruence.
Qed.

Definition demo_entries : list CommandEntry :=
  [Assign "version" "1.2=3"; Heredoc "notes" "EOF" ("first" +:+ String lf "PATH=/evil" +:+ String lf "");
   Assign "version" "2"].

Lemma command_file_roundtrip_witness :
  Forall (λ entry, entry_ok entry = true) demo_entries ∧
  parse_command_source (sconcat (write_entry <$> demo_entries)) = Ok (btree_collect (read_entry <$> demo_entries)) ∧
  (Forall (λ entry, free_of cr (entry_value entry).2 = true) demo_entries →
   parse_command_source (sconcat (write_entry <$> demo_entries)) = Ok (btree_collect (entry_value <$> demo_entries))).
Proof.
  assert (Forall (λ entry, entry_ok entry = true) demo_entries) as Hok by (repeat constructor).
  split; [exact Hok|]. exact (command_file_roundtrip demo_entries Hok).
Defined.

Example demo_entries_read :
  btree_iter (btree_collect (read_entry <$> demo_entries)) =
    [("notes", "first" +:+ String lf "PATH=/evil" +:+ String lf ""); ("version", "2")].
Proof. vm_compute. reflexivity. Qed.

(** A line that is the delimiter up to a carriage return ends the block. *)
Example carriage_returns_end_blocks :
  match parse_command_source (write_entry (Heredoc "notes" "EOF"
          ("a" +:+ String lf "EOF" +:+ String cr (String lf "PATH=/evil" +:+ String lf "x<<EOF")))) with
  | Ok values => bool_decide (values !! "PATH" = Some "/evil")
  | Err _ | Panic => false
  end = true.
Proof. vm_compute. reflexivity. Qed.

Definition demo_environment : Environment := {["RUNNER_OS" := "Linux"]}.

Lemma command_file_confined_witness :
  apply_environment_file demo_environment ("RUNNER_OS=other" +:+ String lf "A=b") =
    Ok {["RUNNER_OS" := "Linux"; "A" := "b"]} ∧
  outcome_spec (apply_environment_file demo_environment ("RUNNER_OS=other" +:+ String lf "A=b"))
    (λ environment', environment' !! "RUNNER_OS" = demo_environment !! "RUNNER_OS") (λ _, True).
Proof.
  split; [vm_compute; reflexivity|].
  exact (proj2 (command_file_confined demo_environment ("RUNNER_OS=other" +:+ String lf "A=b") "RUNNER_OS"
    (or_introl eq_refl))).
Defined.
