(* ===== verification/Masking.v ===== *)
(** * Masking secrets (crates/gitzero-agent, executor.rs)

    How secrets are collected, ordered and replaced in everything that leaves
    the agent, and the masks a step registers itself. *)

From S2P Require Import Prelude RustStr RustText OrdMap.

Definition mask_text (value : string) (secrets : list string) : string :=
  fold_left (λ value secret, if contains secret value then replace secret "***" value else value)
    secrets value.

(** The order in which masks are applied: longer ones first, so that a secret
    inside another one does not hide it. *)
Definition longer_first (a b : string) : Prop :=
  slen b < slen a ∨ slen a = slen b ∧ String.leb a b = true.

#[export] Instance longer_first_dec a b : Decision (longer_first a b).
Proof. unfold longer_first. apply _. Defined.

(** [Vec::dedup]: adjacent equal elements. *)
Fixpoint dedup (l : list string) : list string :=
  match l with
  | a :: (b :: _) as rest => if bool_decide (a = b) then dedup rest else a :: dedup rest
  | _ => l
  end.

Definition ordered_masks (masks : list string) : list string := dedup (merge_sort longer_first masks).

(** [secret_values]; [base64] is [STANDARD.encode]. *)
Definition secret_markers : list string := ["TOKEN"; "SECRET"; "PASSWORD"; "PRIVATE_KEY"; "API_KEY"].

Definition ascii_upper (c : ascii) : ascii :=
  if is_ascii_lower c then ascii_of_N (N_of_ascii c - 32) else c.

Definition to_ascii_uppercase (s : string) : string := string_map ascii_upper s.

Definition token_masks (base64 : string → string) (token : string) : list string :=
  let credential := base64 ("x-access-token:" +:+ token) in
  [token; credential; "AUTHORIZATION: basic " +:+ credential].

Definition is_secret_variable (entry : string * string) : bool :=
  let '(name, value) := entry in
  bool_decide (8 ≤ slen value) &&
  existsb (λ marker, contains marker (to_ascii_uppercase name)) secret_markers.

Definition secret_values (base64 : string → string) (checkout_token : string)
    (environment : gmap string string) : list string :=
  ordered_masks
    ((if is_empty checkout_token then [] else token_masks base64 checkout_token) ++
     (base.filter (λ entry, is_secret_variable entry = true) (btree_iter environment)).*2).

Definition valid_managed_secret_name (name : string) : bool :=
  match name with
  | EmptyString => false
  | String first rest =>
      (is_ascii_upper first || bool_decide (first = "_"%char)) &&
      string_forall (λ c, is_ascii_upper c || is_ascii_digit c || bool_decide (c = "_"%char)) rest &&
      negb (starts_with "GITHUB_" name)
  end.

(** ** Masks of a job *)

Definition MAX_DYNAMIC_MASKS_PER_JOB : nat := 1024.
Definition MAX_DYNAMIC_MASK_BYTES_PER_JOB : Z := 1024 * 1024.

Record WorkflowCommandScope := mkScope {
  masks : list string;
  mask_bytes : Z;
  stop_token : option string;
}.

#[export] Instance WorkflowCommandScope_updatable : Updatable WorkflowCommandScope := λ s,
  mkScope (masks s) (mask_bytes s) (stop_token s).

Definition empty_scope : WorkflowCommandScope := mkScope [] 0 None.

Definition add_mask (candidate : string) (scope : WorkflowCommandScope)
    : outcome string WorkflowCommandScope :=
  if is_empty candidate || bool_decide (candidate ∈ masks scope) then Ok scope
  else
    reject_if (bool_decide (MAX_DYNAMIC_MASKS_PER_JOB ≤ length (masks scope)) ||
               bool_decide (MAX_DYNAMIC_MASK_BYTES_PER_JOB <
                            saturating_add (mask_bytes scope) (Z.of_nat (slen candidate)))%Z)
      "workflow added too many dynamic masks" ;?
    Ok (scope <| mask_bytes := (mask_bytes scope + Z.of_nat (slen candidate))%Z |>
              <| masks := masks scope ++ [candidate] |>).

(** [sort_by_key(|value| Reverse(value.len()))], which is stable. *)
Definition not_shorter (a b : string) : Prop := slen b ≤ slen a.

#[export] Instance not_shorter_dec a b : Decision (not_shorter a b).
Proof. unfold not_shorter. apply _. Defined.

(** The scope as it is left, with an error if a mask was not added. *)
Fixpoint add_masks (candidates : list string) (scope : WorkflowCommandScope)
    : WorkflowCommandScope * outcome string unit :=
  match candidates with
  | [] => (scope <| masks := merge_sort not_shorter (masks scope) |>, Ok tt)
  | candidate :: candidates =>
      match add_mask candidate scope with
      | Ok scope => add_masks candidates scope
      | Err e => (scope, Err e)
      | Panic => (scope, Panic)
      end
  end.

Definition register_mask (value : string) (scope : WorkflowCommandScope)
    : WorkflowCommandScope * outcome string unit :=
  add_masks (value :: split_whitespace value) scope.

(** ** What [replace] leaves *)

Definition star_free (s : string) : bool := string_forall (λ c, negb (bool_decide (c = "*"%char))) s.

Lemma star_free_cons c s : star_free (String c s) = true ↔ c ≠ "*"%char ∧ star_free s = true.
Proof. unfold star_free; simpl. by rewrite andb_true_iff, negb_true_iff, bool_decide_eq_false. Qed.

Lemma starts_with_cons c p d s :
  starts_with (String c p) (String d s) = true ↔ c = d ∧ starts_with p s = true.
Proof. unfold starts_with; simpl. case_bool_decide; subst; naive_solver. Qed.

Lemma starts_with_nil s : starts_with "" s = true.
Proof. by apply (starts_with_app ""). Qed.

(** A text without stars that the result starts with, the original starts with. *)
Lemma replace_starts m p s :
  star_free p = true → starts_with p (replace_from m "***" 0 s) = true → starts_with p s = true.
Proof.
  revert p; induction s as [|c s IH]; intros p Hp; [done|]. cbn [replace_from].
  destruct p as [|a p]; [by rewrite starts_with_nil|]. apply star_free_cons in Hp as [Ha Hp].
  destruct (starts_with m (String c s)).
  - change ("***" +:+ ?x) with (String "*" ("**" +:+ x)).
    intros [-> _]%starts_with_cons. done.
  - intros [-> H]%starts_with_cons. apply starts_with_cons. auto.
Qed.

Lemma contains_cons p c s :
  contains p (String c s) = true ↔ starts_with p (String c s) = true ∨ contains p s = true.
Proof.
  unfold contains. simpl. destruct (starts_with p (String c s)); [naive_solver|].
  destruct (sfind p s); naive_solver.
Qed.

Lemma contains_stars p s :
  star_free p = true → p ≠ "" → contains p ("***" +:+ s) = true → contains p s = true.
Proof.
  intros Hp Hne. destruct p as [|a p]; [done|]. apply star_free_cons in Hp as [Ha Hp].
  assert (∀ t, contains (String a p) (String "*" t) = true → contains (String a p) t = true) as Hstar.
  { intros t [[-> _]%starts_with_cons | ?]%contains_cons; done. }
  intros H. by do 3 apply Hstar in H.
Qed.

Lemma replace_skip m n s : replace_from m "***" n s = replace_from m "***" 0 (sdrop n s).
Proof. revert s; induction n as [|n IH]; intros [|c s]; by simpl. Qed.

Lemma contains_sdrop p n s : contains p (sdrop n s) = true → contains p s = true.
Proof.
  revert s; induction n as [|n IH]; intros [|c s]; simpl; try done. intros H%IH. apply contains_cons. auto.
Qed.

(** Nothing without stars appears in the result that was not there. *)
Lemma replace_creates_nothing m p s :
  star_free p = true → p ≠ "" → contains p (replace_from m "***" 0 s) = true → contains p s = true.
Proof.
  intros Hp Hne. remember (slen s) as n eqn:Hn. revert s Hn. induction (lt_wf n) as [n _ IH].
  intros [|c s] ->; [done|]. cbn [replace_from].
  destruct (starts_with m (String c s)) eqn:Hm.
  - intros H. apply contains_stars in H; [|done..]. rewrite replace_skip in H.
    apply (IH (slen (sdrop (slen m - 1) s))) in H; [|rewrite slen_sdrop, slen_string; lia|done].
    apply contains_sdrop in H.
    apply contains_cons. auto.
  - intros [H | H]%contains_cons.
    + apply contains_cons. left. destruct p as [|a p]; [done|].
      apply star_free_cons in Hp as [_ Hp]. apply starts_with_cons in H as [-> H].
      apply starts_with_cons. split; [done|]. by eapply replace_starts.
    + apply contains_cons. right. apply (IH (slen s)); [rewrite slen_string; lia|done|done].
Qed.

(** And the pattern itself is gone. *)
Lemma replace_removes m s :
  star_free m = true → m ≠ "" → contains m (replace_from m "***" 0 s) = false.
Proof.
  intros Hm Hne. remember (slen s) as n eqn:Hn. revert s Hn. induction (lt_wf n) as [n _ IH].
  intros [|c s] ->; [by destruct m|]. cbn [replace_from]. apply not_true_is_false.
  destruct (starts_with m (String c s)) eqn:Hs.
  - intros H. apply contains_stars in H; [|done..]. rewrite replace_skip in H.
    rewrite (IH (slen (sdrop (slen m - 1) s))) in H; [done|rewrite slen_sdrop, slen_string; lia|done].
  - intros [H | H]%contains_cons.
    + destruct m as [|a m]; [done|]. pose proof Hm as [_ Hm']%star_free_cons.
      apply starts_with_cons in H as [-> H]. apply replace_starts in H; [|done].
      assert (starts_with (String c m) (String c s) = true); [by apply starts_with_cons | congruence].
    + rewrite (IH (slen s)) in H; [done|rewrite slen_string; lia|done].
Qed.

Lemma replace_nonempty m s : m ≠ "" → replace m "***" s = replace_from m "***" 0 s.
Proof. unfold replace. by destruct m. Qed.

Lemma mask_text_creates_nothing p secrets value :
  star_free p = true → p ≠ "" → "" ∉ secrets →
  contains p (mask_text value secrets) = true → contains p value = true.
Proof.
  intros Hp Hne. revert value; induction secrets as [|m secrets IH]; intros value; [done|].
  intros [Hm Hs]%not_elem_of_cons. cbn. intros H. apply IH in H; [|done].
  destruct (contains m value); [|done]. rewrite replace_nonempty in H by done.
  by eapply replace_creates_nothing.
Qed.

Lemma mask_text_hides secrets value secret :
  secret ∈ secrets → "" ∉ secrets → star_free secret = true →
  contains secret (mask_text value secrets) = false.
Proof.
  intros Hin Hemp Hfree. revert value; induction secrets as [|m secrets IH]; intros value;
    [by apply not_elem_of_nil in Hin|]. apply not_elem_of_cons in Hemp as [Hm Hemp].
  apply elem_of_cons in Hin as [-> | Hin]; [|by apply IH]. change (mask_text value (m :: secrets))
    with (mask_text (if contains m value then replace m "***" value else value) secrets).
  apply not_true_is_false. intros H. apply mask_text_creates_nothing in H; [|done..].
  destruct (contains m value) eqn:Hc; [|congruence].
  by rewrite replace_nonempty, replace_removes in H.
Qed.

Lemma mask_text_app value a b : mask_text value (a ++ b) = mask_text (mask_text value a) b.
Proof. unfold mask_text. by rewrite fold_left_app. Qed.

(** ** The masks of a scope *)

Definition total_length (l : list string) : Z := Z.of_nat (sum_list (slen <$> l)).

Record scope_ok (scope : WorkflowCommandScope) : Prop := {
  sc_nonempty : "" ∉ masks scope;
  sc_distinct : NoDup (masks scope);
  sc_count : length (masks scope) ≤ MAX_DYNAMIC_MASKS_PER_JOB;
  sc_bytes : mask_bytes scope = total_length (masks scope);
  sc_limit : (mask_bytes scope ≤ MAX_DYNAMIC_MASK_BYTES_PER_JOB)%Z;
}.

Lemma empty_scope_ok : scope_ok empty_scope.
Proof. split; simpl; [apply not_elem_of_nil | constructor | lia | done | unfold MAX_DYNAMIC_MASK_BYTES_PER_JOB; lia]. Qed.

Lemma add_mask_spec candidate scope :
  scope_ok scope →
  outcome_spec (add_mask candidate scope)
    (λ scope', scope_ok scope' ∧ stop_token scope' = stop_token scope ∧
       ∀ m, m ∈ masks scope' ↔ m ∈ masks scope ∨ m = candidate ∧ candidate ≠ "") (λ _, True).
Proof.
  intros [H1 H2 H3 H4 H5]. unfold add_mask. destruct (is_empty candidate) eqn:He; simpl.
  { split; [done|]. split; [done|]. intros m. destruct candidate; [|done]. naive_solver. }
  assert (candidate ≠ "") as Hne by by destruct candidate.
  case_bool_decide as Hin; simpl.
  { split; [done|]. split; [done|]. intros m. naive_solver. }
  destruct (_ || _) eqn:Hr; simpl; [done|]. apply orb_false_iff in Hr as [Hc%bool_decide_eq_false Hb%bool_decide_eq_false].
  assert (mask_bytes scope + Z.of_nat (slen candidate) ≤ MAX_DYNAMIC_MASK_BYTES_PER_JOB)%Z as Hlim.
  { unfold saturating_add, MAX_DYNAMIC_MASK_BYTES_PER_JOB, u64_max in *. lia. }
  split_and!; [split; simpl| done |].
  - rewrite elem_of_app, list_elem_of_singleton. by intros [? | ?].
  - apply NoDup_app. split_and!; [done| |apply NoDup_singleton]. by intros x Hx ->%list_elem_of_singleton.
  - rewrite length_app. simpl. lia.
  - rewrite H4. unfold total_length. rewrite fmap_app, sum_list_with_app.
    simpl. lia.
  - done.
  - intros m. simpl. rewrite elem_of_app, list_elem_of_singleton. naive_solver.
Qed.

Lemma sum_list_permutation a b : a ≡ₚ b → sum_list a = sum_list b.
Proof. induction 1; simpl; lia. Qed.

Lemma sorted_scope_ok scope : scope_ok scope → scope_ok (scope <| masks := merge_sort not_shorter (masks scope) |>).
Proof.
  intros [H1 H2 H3 H4 H5]. pose proof (merge_sort_Permutation not_shorter (masks scope)) as Hp.
  split; simpl; [by rewrite Hp | by rewrite Hp | by rewrite Hp | | done].
  rewrite H4. unfold total_length. f_equal. by apply sum_list_permutation, fmap_Permutation.
Qed.

Lemma add_masks_spec candidates scope :
  scope_ok scope →
  let '(scope', result) := add_masks candidates scope in
  scope_ok scope' ∧ stop_token scope' = stop_token scope ∧ result ≠ Panic ∧
  (∀ m, m ∈ masks scope → m ∈ masks scope') ∧
  (result = Ok tt → ∀ m, m ∈ masks scope' ↔ m ∈ masks scope ∨ m ∈ candidates ∧ m ≠ "").
Proof.
  revert scope; induction candidates as [|c candidates IH]; intros scope Hok; cbn [add_masks].
  { pose proof (merge_sort_Permutation not_shorter (masks scope)) as Hp.
    split_and!; [by apply sorted_scope_ok|done|done| |]; simpl.
    - intros m. by rewrite Hp.
    - intros _ m. rewrite Hp, elem_of_nil. tauto. }
  pose proof (add_mask_spec c scope Hok) as Hs. destruct (add_mask c scope) as [scope1|e|]; simpl in Hs; [| |done].
  2: { split_and!; done. }
  destruct Hs as (Hok1 & Hst & Hm). specialize (IH scope1 Hok1). destruct (add_masks candidates scope1) as [scope' result].
  destruct IH as (? & Hst' & ? & Hsub & Hall). split_and!; [done|congruence|done| |].
  - intros m Hin. apply Hsub, Hm. by left.
  - intros Hr m. rewrite (Hall Hr m), Hm, elem_of_cons. naive_solver.
Qed.
