(* ===== verification/Protocol.v ===== *)
(** * The agent protocol (crates/gitzero-protocol)

    The messages between the control plane and an agent and the data they
    carry.  Their serialisation is derived by a library. *)

From S2P Require Import Prelude RustStr.

(** A [Uuid] is 128 bits. *)
Definition Uuid : Type := Z.
Bind Scope Z_scope with Uuid.

Definition PROTOCOL_VERSION : Z := 14.
Definition MAX_CHECK_ANNOTATIONS : nat := 50.

Record AgentHello := mkHello {
  ah_protocol_version : Z;
  ah_agent_id : string;
  ah_name : string;
  ah_version : string;
  ah_labels : list string;
  ah_runner_group : option string;
  ah_max_parallelism : Z;
}.

Record RunnerRequirement := mkRequirement {
  rr_labels : list string;
  rr_runner_group : option string;
}.

#[export] Instance RunnerRequirement_eq_dec : EqDecision RunnerRequirement.
Proof. solve_decision. Defined.

Record RepositorySpec := mkRepository {
  rs_owner : string;
  rs_name : string;
  rs_clone_url : string;
}.

Record PullRequestSpec := mkPullRequest {
  prs_number : Z;
  prs_action : string;
  prs_head_sha : string;
  prs_base_sha : string;
  prs_merge_sha : string;
  prs_execution_ref : string;
  prs_head_ref : string;
  prs_base_ref : string;
}.

Definition RepositoryToken : Type := string.
Definition SecretMap : Type := gmap string string.

Inductive ConcurrencyQueue := Single | Max.

#[export] Instance ConcurrencyQueue_eq_dec : EqDecision ConcurrencyQueue.
Proof. solve_decision. Defined.

(** The event of a run is a JSON value of the parser's. *)
Record RunSpec {JsonValue : Type} := mkRun {
  run_id : Uuid;
  run_workspace_id : string;
  run_installation_id : Z;
  run_number : Z;
  run_repository : RepositorySpec;
  run_pull_request : PullRequestSpec;
  run_check_run_id : option Z;
  run_event : JsonValue;
  run_checkout_token : string;
  run_checkout_token_expires_at_epoch_seconds : option Z;
  run_github_api_version : string;
  run_managed_secrets : bool;
  run_changed_paths : option (list string);
  run_environment : gmap string string;
  run_variables : gmap string string;
}.
Arguments RunSpec : clear implicits.

Inductive RepositoryTokenPurpose := Source | Environment | SharedSource | Checkout.

#[export] Instance RepositoryTokenPurpose_eq_dec : EqDecision RepositoryTokenPurpose.
Proof. solve_decision. Defined.

Inductive LogStream := Stdout | Stderr | System.

#[export] Instance LogStream_eq_dec : EqDecision LogStream.
Proof. solve_decision. Defined.

#[export] Instance LogStream_countable : Countable LogStream.
Proof.
  refine (inj_countable' (λ s, match s with Stdout => 0 | Stderr => 1 | System => 2 end)
    (λ n, match n with 0 => Stdout | 1 => Stderr | _ => System end) _). by intros [].
Defined.

Module Conclusion.
Inductive Conclusion := Success | Failure | Cancelled | TimedOut | Neutral.

#[export] Instance Conclusion_eq_dec : EqDecision Conclusion.
Proof. solve_decision. Defined.
End Conclusion.

Inductive CheckAnnotationLevel := Notice | Warning | Failure.

#[export] Instance CheckAnnotationLevel_eq_dec : EqDecision CheckAnnotationLevel.
Proof. solve_decision. Defined.

#[export] Instance CheckAnnotationLevel_countable : Countable CheckAnnotationLevel.
Proof.
  refine (inj_countable' (λ l, match l with Notice => 0 | Warning => 1 | Failure => 2 end)
    (λ n, match n with 0 => Notice | 1 => Warning | _ => Failure end) _). by intros [].
Defined.

Record CheckAnnotation := mkAnnotation {
  an_path : string;
  an_start_line : Z;
  an_end_line : Z;
  an_start_column : option Z;
  an_end_column : option Z;
  an_level : CheckAnnotationLevel;
  an_message : string;
  an_title : option string;
}.

#[export] Instance CheckAnnotation_updatable : Updatable CheckAnnotation := λ a,
  mkAnnotation (an_path a) (an_start_line a) (an_end_line a) (an_start_column a) (an_end_column a)
    (an_level a) (an_message a) (an_title a).

Definition MAX_CHECK_ANNOTATION_MESSAGE_BYTES : nat := 64 * 1024.
Definition MAX_CHECK_ANNOTATION_TITLE_BYTES : nat := 255.
Definition MAX_CHECK_ANNOTATION_PATH_BYTES : nat := 4096.
Definition i32_max : Z := 2 ^ 31 - 1.

Inductive ServerMessage {JsonValue : Type} :=
  | Welcome (protocol_version heartbeat_interval_seconds : Z)
  | RunJob (job : RunSpec JsonValue)
  | CancelJob (job_id : Uuid) (reason : string)
  | ConcurrencyGranted (request_id : Uuid)
  | ConcurrencyCancelled (request_id : Uuid) (reason : string)
  | RepositoryTokenGranted (request_id : Uuid) (token : RepositoryToken) (expires_at_epoch_seconds : Z)
  | RepositoryTokenDenied (request_id : Uuid) (reason : string)
  | WorkflowTokenGranted (request_id : Uuid) (token : RepositoryToken) (expires_at_epoch_seconds : Z)
  | WorkflowTokenDenied (request_id : Uuid) (reason : string)
  | SecretGranted (request_id : Uuid) (secrets : SecretMap)
  | SecretDenied (request_id : Uuid) (reason : string)
  | Ack (message_id : Uuid)
  | ServerError (code message : string).
Arguments ServerMessage : clear implicits.

Inductive AgentMessage :=
  | Hello (hello : AgentHello)
  | Heartbeat (message_id : Uuid) (running_job_ids : list Uuid)
  | JobStarted (message_id job_id : Uuid)
  | JobRejected (message_id job_id : Uuid) (requirements : list RunnerRequirement) (reason : string)
  | ConcurrencyAcquire (message_id job_id request_id : Uuid) (unit_id group : string)
      (cancel_in_progress : bool) (queue : ConcurrencyQueue)
  | ConcurrencyRelease (message_id job_id request_id : Uuid)
  | RepositoryTokenRequest (message_id job_id request_id : Uuid) (purpose : RepositoryTokenPurpose)
      (owner repository : string)
  | WorkflowTokenRequest (message_id job_id request_id : Uuid) (read_permissions write_permissions : list string)
  | SecretRequest (message_id job_id request_id : Uuid) (unit_id : string) (environment : option string)
  | DeploymentStarted (message_id job_id : Uuid) (unit_id environment : string)
  | DeploymentFinished (message_id job_id : Uuid) (unit_id : string) (conclusion : Conclusion.Conclusion)
      (environment_url : option string)
  | StepStarted (message_id job_id : Uuid) (step_id name : string)
  | LogChunk (message_id job_id : Uuid) (step_id : string) (sequence : Z) (stream : LogStream) (data : string)
  | StepFinished (message_id job_id : Uuid) (step_id : string) (conclusion : Conclusion.Conclusion)
      (exit_code : option Z)
  | JobFinished (message_id job_id : Uuid) (conclusion : Conclusion.Conclusion) (summary : string)
      (annotations : list CheckAnnotation).

(** * One-shot channels (tokio::sync::oneshot)

    What the receiver of a [oneshot] channel can see of it. *)

(** [Dropped]: nothing was sent and the sender is gone. *)
Inductive Oneshot (A : Type) := Empty | Sent (value : A) | Dropped.
Arguments Empty {A}.
Arguments Sent {A} value.
Arguments Dropped {A}.

(** Dropping a sender that is still there. *)
Definition drop_sender {A : Type} (channel : Oneshot A) : Oneshot A :=
  match channel with Empty => Dropped | _ => channel end.
