(* ===== verification/Annotations.v ===== *)
(** * Annotations (crates/gitzero-agent, executor.rs; crates/gitzero-protocol)

    The parser of the [notice], [warning] and [error] workflow commands, the
    normalisation of their paths, and the bounds of what is reported. *)

From S2P Require Import Prelude RustStr RustText UnixPath OrdMap Protocol.

(** ** Escapes *)

Definition replace_all (escapes : list (string * string)) (value : string) : string :=
  fold_left (λ value '(pattern, replacement), replace pattern replacement value) escapes value.

Definition data_escapes : list (string * string) :=
  [("%0D", String cr ""); ("%0d", String cr ""); ("%0A", String lf ""); ("%0a", String lf "")].

Definition decode_workflow_command_data (value : string) : string :=
  replace_all (data_escapes ++ [("%25", "%")]) value.

Definition decode_workflow_command_property (value : string) : string :=
  replace_all (data_escapes ++ [("%3A", ":"); ("%3a", ":"); ("%2C", ","); ("%2c", ","); ("%25", "%")]) value.

(** ** Parsing *)

Definition split_or (sep : ascii) (s : string) : string * string :=
  match split_once sep s with Some p => p | None => (s, "") end.

(** The command name of a [::name properties::data] line. *)
Definition annotation_command (header : string) : string :=
  to_ascii_lowercase (split_or " " header).1.

Definition is_annotation_name (command : string) : bool :=
  bool_decide (command ∈ ["notice"; "warning"; "error"]).

Definition is_annotation_workflow_command (line : string) : bool :=
  match strip_prefix "::" line with
  | None => false
  | Some body =>
      let header := match split_once_str "::" body with Some (header, _) => header | None => body end in
      is_annotation_name (annotation_command header)
  end.

Definition annotation_level_of (command : string) : option CheckAnnotationLevel :=
  if bool_decide (command = "notice") then Some Notice
  else if bool_decide (command = "warning") then Some Warning
  else if bool_decide (command = "error") then Some Failure
  else None.

Definition add_property (property : string) (properties : gmap string string)
    : outcome string (gmap string string) :=
  let? '(key, value) := ok_or (split_once "=" property)
    "annotation workflow command contains a property without a value" in
  Ok (<[to_ascii_lowercase (trim key) := decode_workflow_command_property value]> properties).

Definition annotation_properties (text : string) : outcome string (gmap string string) :=
  for_each add_property (base.filter (λ property, is_empty property = false) (split "," text)) ∅.

Definition annotation_coordinate (properties : gmap string string) (name : string)
    : outcome string (option Z) :=
  match properties !! name with
  | None => Ok None
  | Some value =>
      let? coordinate := ok_or (parse_unsigned u32_max value)
        ("annotation workflow command property '" +:+ name +:+ "' is not an integer") in
      reject_if (bool_decide (coordinate = 0)%Z || bool_decide (i32_max < coordinate)%Z)
        ("annotation workflow command property '" +:+ name +:+ "' is outside GitHub's range") ;?
      Ok (Some coordinate)
  end.

(** The components kept; [None] when one leaves the workspace. *)
Fixpoint normal_components (components : list Component) : option (list string) :=
  match components with
  | [] => Some []
  | CurDir :: components => normal_components components
  | Normal name :: components => names ← normal_components components; Some (name :: names)
  | (ParentDir | RootDir) :: _ => None
  end.

Definition relative_components (value : string) (workspace : option string) : list Component :=
  if is_absolute value then
    default (components ".github")
      (workspace ← workspace; strip_components (components workspace) (components value))
  else if bool_decide (sbyte value 1 = Some ":"%char) then components ".github"
  else components value.

Definition normalize_annotation_path (value : string) (workspace : option string)
    : outcome string string :=
  let value := replace_byte "\" "/" value in
  let path := match normal_components (relative_components value workspace) with
              | Some (name :: names) => sjoin "/" (name :: names)
              | _ => ".github"
              end in
  reject_if (bool_decide (MAX_CHECK_ANNOTATION_PATH_BYTES < slen path) ||
             contains_byte (λ c, bool_decide (c = nul) || bool_decide (c = cr) || bool_decide (c = lf)) path)
    "annotation workflow command contains an invalid file path" ;?
  Ok path.

(** Columns are kept only on one line, in order. *)
Definition annotation_columns (start_line end_line : Z) (start_column end_column : option Z)
    : outcome string (option Z * option Z) :=
  if bool_decide (start_line = end_line) then
    match start_column, end_column with
    | None, None => Ok (None, None)
    | Some start, None => Ok (Some start, Some start)
    | None, Some stop => Ok (Some stop, Some stop)
    | Some start, Some stop =>
        if bool_decide (start ≤ stop)%Z then Ok (Some start, Some stop)
        else Err "annotation workflow command endColumn precedes col"
    end
  else Ok (None, None).

Definition has_nul (s : string) : bool := contains_byte (λ c, bool_decide (c = nul)) s.

Definition parse_workflow_annotation (line : string) (workspace : option string)
    : outcome string (option CheckAnnotation) :=
  if negb (is_annotation_workflow_command line) then Ok None else
  let? body := expect (strip_prefix "::" line) in
  let? '(header, data) := ok_or (split_once_str "::" body)
    "annotation workflow command is missing its data delimiter" in
  match annotation_level_of (annotation_command header) with
  | None => Ok None
  | Some level =>
      let? properties := annotation_properties (split_or " " header).2 in
      let message := decode_workflow_command_data data in
      reject_if (is_empty message || bool_decide (MAX_CHECK_ANNOTATION_MESSAGE_BYTES < slen message) ||
                 has_nul message)
        "annotation workflow command contains an invalid message" ;?
      let? path := normalize_annotation_path (default ".github" (properties !! "file")) workspace in
      let? line := annotation_coordinate properties "line" in
      let start_line := default 1%Z line in
      let? end_line := annotation_coordinate properties "endline" in
      let end_line := default start_line end_line in
      reject_if (bool_decide (end_line < start_line)%Z)
        "annotation workflow command endLine precedes line" ;?
      let? start_column := annotation_coordinate properties "col" in
      let? end_column := annotation_coordinate properties "endcolumn" in
      let? '(start_column, end_column) := annotation_columns start_line end_line start_column end_column in
      let title := title ← properties !! "title"; if is_empty title then None else Some title in
      reject_if (match title with
                 | Some title => bool_decide (MAX_CHECK_ANNOTATION_TITLE_BYTES < slen title) || has_nul title
                 | None => false
                 end)
        "annotation workflow command contains an invalid title" ;?
      Ok (Some (mkAnnotation path start_line end_line start_column end_column level message title))
  end.

Definition annotation_log_line (annotation : CheckAnnotation) : string :=
  let level := match an_level annotation with
               | Notice => "notice" | Warning => "warning" | Failure => "error"
               end in
  match an_title annotation with
  | Some title => level +:+ ": " +:+ title +:+ ": " +:+ an_message annotation
  | None => level +:+ ": " +:+ an_message annotation
  end.

(** After masking, which may lengthen a text. *)
Definition bound_masked_annotation (annotation : CheckAnnotation) : CheckAnnotation :=
  annotation
    <| an_path := if bool_decide (MAX_CHECK_ANNOTATION_PATH_BYTES < slen (an_path annotation))
                  then ".github" else an_path annotation |>
    <| an_message := truncate_utf8_bytes (an_message annotation) MAX_CHECK_ANNOTATION_MESSAGE_BYTES |>
    <| an_title := (λ title, truncate_utf8_bytes title MAX_CHECK_ANNOTATION_TITLE_BYTES) <$>
                     an_title annotation |>.

(** ** Lemmas *)

Lemma coordinate_range properties name :
  outcome_spec (annotation_coordinate properties name)
    (λ c, ∀ n, c = Some n → (1 ≤ n ≤ i32_max)%Z) (λ _, True).
Proof.
  unfold annotation_coordinate. destruct (properties !! name) as [value|]; [|done].
  destruct (parse_unsigned u32_max value) as [n|] eqn:E; simpl; [|done].
  apply parse_unsigned_range in E; [|unfold u32_max; lia].
  destruct (_ || _) eqn:Hr; simpl; [done|]. apply orb_false_iff in Hr as [H1%bool_decide_eq_false H2%bool_decide_eq_false].
  intros m [= <-]. lia.
Qed.

(** A name that a component can be: not empty, no dots that move, no slash. *)
Definition plain_name (name : string) : Prop :=
  name ≠ "" ∧ name ≠ "." ∧ name ≠ ".." ∧ free_of "/" name = true.

Lemma components_normal path name : Normal name ∈ components path → plain_name name.
Proof.
  unfold components. rewrite elem_of_app. intros [H | H].
  - destruct (is_absolute path); [apply list_elem_of_singleton in H | apply not_elem_of_nil in H]; done.
  - apply list_elem_of_bind in H as ([i part] & H & Hi). unfold part_components in H.
    destruct (is_empty part) eqn:He; [by apply not_elem_of_nil in H|].
    case_bool_decide as H1; [destruct (_ && _); [apply list_elem_of_singleton in H | apply not_elem_of_nil in H]; done|].
    case_bool_decide as H2; [apply list_elem_of_singleton in H; done|].
    apply list_elem_of_singleton in H as [= ->]. split_and!; [by intros -> | done | done|].
    apply elem_of_enumerate_from in Hi as [_ Hi%list_elem_of_lookup_2]. by eapply split_piece_free.
Qed.

Lemma normal_components_plain cs names :
  (∀ name, Normal name ∈ cs → plain_name name) → normal_components cs = Some names →
  Forall plain_name names.
Proof.
  revert names; induction cs as [|[| | |n] cs IH]; intros names Hcs; simpl; try done.
  - intros [= <-]. constructor.
  - apply IH. intros m Hm. by apply Hcs, list_elem_of_further.
  - destruct (normal_components cs) as [names'|]; [|done]. intros [= <-]. constructor.
    + apply Hcs, list_elem_of_here.
    + apply IH; [|done]. intros m Hm. by apply Hcs, list_elem_of_further.
Qed.

Lemma relative_components_plain value workspace name :
  Normal name ∈ relative_components value workspace → plain_name name.
Proof.
  unfold relative_components. destruct (is_absolute value).
  - destruct workspace as [w|]; simpl; [|apply components_normal].
    destruct (strip_components _ _) as [rest|] eqn:E; simpl; [|apply components_normal].
    apply strip_components_Some in E. intros Hin. apply (components_normal value). rewrite E.
    apply elem_of_app. by right.
  - case_bool_decide; apply components_normal.
Qed.

(** What a report accepts. *)
Record annotation_ok (a : CheckAnnotation) : Prop := {
  ao_lines : (1 ≤ an_start_line a ≤ an_end_line a ∧ an_end_line a ≤ i32_max)%Z;
  ao_columns : (an_start_column a = None ∧ an_end_column a = None) ∨
    ∃ c d, an_start_column a = Some c ∧ an_end_column a = Some d ∧ an_start_line a = an_end_line a ∧
      (1 ≤ c ≤ d ∧ d ≤ i32_max)%Z;
  ao_message : an_message a ≠ "" ∧ slen (an_message a) ≤ MAX_CHECK_ANNOTATION_MESSAGE_BYTES;
  ao_title t : an_title a = Some t → t ≠ "" ∧ slen t ≤ MAX_CHECK_ANNOTATION_TITLE_BYTES;
  ao_path : ∃ names, names ≠ [] ∧ Forall plain_name names ∧ an_path a = sjoin "/" names ∧
    slen (an_path a) ≤ MAX_CHECK_ANNOTATION_PATH_BYTES;
}.

Lemma normalize_annotation_path_spec value workspace :
  outcome_spec (normalize_annotation_path value workspace)
    (λ path, ∃ names, names ≠ [] ∧ Forall plain_name names ∧ path = sjoin "/" names ∧
       slen path ≤ MAX_CHECK_ANNOTATION_PATH_BYTES) (λ _, True).
Proof.
  unfold normalize_annotation_path. set (path := match normal_components (relative_components (replace_byte "\" "/" value) workspace) with
                  | Some (name :: names) => sjoin "/" (name :: names) | _ => ".github" end).
  assert (∃ names, names ≠ [] ∧ Forall plain_name names ∧ path = sjoin "/" names) as (names & Hne & Hall & Hp).
  { assert (∃ names, names ≠ [] ∧ Forall plain_name names ∧ ".github" = sjoin "/" names) as Hdefault.
    { exists [".github"]. split_and!; [done| |done]. repeat constructor; done. }
    unfold path. destruct (normal_components _) as [[|n ns]|] eqn:E; [done| |done].
    exists (n :: ns). split_and!; [done| |done]. eapply normal_components_plain, E.
    intros m. apply relative_components_plain. }
  destruct (_ || _) eqn:Hr; simpl; [done|]. apply orb_false_iff in Hr as [Hl%bool_decide_eq_false _].
  exists names. split_and!; try done; lia.
Qed.

Lemma annotation_columns_spec start_line end_line start_column end_column :
  (∀ n, start_column = Some n → (1 ≤ n ≤ i32_max)%Z) → (∀ n, end_column = Some n → (1 ≤ n ≤ i32_max)%Z) →
  outcome_spec (annotation_columns start_line end_line start_column end_column)
    (λ '(c, d), (c = None ∧ d = None) ∨ ∃ c' d', c = Some c' ∧ d = Some d' ∧ start_line = end_line ∧
       (1 ≤ c' ≤ d' ∧ d' ≤ i32_max)%Z) (λ _, True).
Proof.
  intros Hs He. unfold annotation_columns. case_bool_decide; [|by left].
  destruct start_column as [s|], end_column as [e|]; simpl; [|right..|by left].
  - case_bool_decide; simpl; [right|done]. specialize (Hs s eq_refl). specialize (He e eq_refl).
    exists s, e. split_and!; try done; lia.
  - specialize (Hs s eq_refl). exists s, s. split_and!; try done; lia.
  - specialize (He e eq_refl). exists e, e. split_and!; try done; lia.
Qed.

Lemma annotation_properties_no_panic text : annotation_properties text ≠ Panic.
Proof.
  apply (for_each_no_panic _ (λ _, True)); [done| |done]. intros p s _ _. unfold add_property.
  rewrite obind_Panic. intros [H | ([k v] & _ & ?)]; [by apply ok_or_Panic in H | done].
Qed.

Lemma is_annotation_prefix line : is_annotation_workflow_command line = true → is_Some (strip_prefix "::" line).
Proof. unfold is_annotation_workflow_command. by destruct (strip_prefix "::" line). Qed.

Lemma parse_workflow_annotation_spec line workspace :
  outcome_spec (parse_workflow_annotation line workspace)
    (λ result, ∀ a, result = Some a → annotation_ok a) (λ _, True).
Proof.
  unfold parse_workflow_annotation. destruct (negb _) eqn:Hneg; [done|].
  apply negb_false_iff, is_annotation_prefix in Hneg as [body ->]. cbn [expect obind].
  destruct (split_once_str "::" body) as [[header data]|]; cbn [ok_or obind]; [|done].
  destruct (annotation_level_of _) as [level|]; [|done].
  destruct (annotation_properties _) as [properties| |] eqn:Hp; cbn [obind]; [|done|by apply annotation_properties_no_panic in Hp].
  destruct (_ || _) eqn:Hm; cbn [reject_if obind]; [done|].
  apply outcome_spec_bind. eapply outcome_spec_mono; [apply normalize_annotation_path_spec| |done]. intros path Hpath.
  apply outcome_spec_bind. eapply outcome_spec_mono; [apply coordinate_range| |done]. intros l Hl. cbv zeta.
  apply outcome_spec_bind. eapply outcome_spec_mono; [apply coordinate_range| |done]. intros e He. cbv zeta.
  destruct (bool_decide (default _ e < _)%Z) eqn:Hle; cbn [reject_if obind]; [done|]. apply bool_decide_eq_false in Hle.
  apply outcome_spec_bind. eapply outcome_spec_mono; [apply coordinate_range| |done]. intros sc Hsc. cbv beta.
  apply outcome_spec_bind. eapply outcome_spec_mono; [apply coordinate_range| |done]. intros ec Hec. cbv beta.
  apply outcome_spec_bind. eapply outcome_spec_mono; [by apply annotation_columns_spec| |done]. intros [c d] Hcd. cbv beta iota.
  set (title := properties !! "title" ≫= _).
  destruct (match title with
            | Some title => bool_decide (MAX_CHECK_ANNOTATION_TITLE_BYTES < slen title) || has_nul title
            | None => false end) eqn:Ht; cbn [reject_if obind]; [done|].
  intros a [= <-]. rewrite !orb_false_iff in Hm. destruct Hm as [[Hm1 Hm2%bool_decide_eq_false] _].
  split; simpl; [|done| | |done].
  - assert (∀ o, (∀ n, o = Some n → (1 ≤ n ≤ i32_max)%Z) → (1 ≤ default 1 o ≤ i32_max)%Z) as Hd.
    { intros [n|] Hn; simpl; [by apply Hn | unfold i32_max; lia]. }
    specialize (Hd l Hl). destruct e as [n|]; simpl in *; [specialize (He n eq_refl); lia | lia].
  - split; [by intros H; rewrite H in Hm1 | lia].
  - intros t Htt. rewrite Htt in Ht. apply orb_false_iff in Ht as [Ht%bool_decide_eq_false _]. split; [|lia].
    unfold title in Htt. destruct (properties !! "title") as [t'|]; simpl in Htt; [|done].
    destruct (is_empty t') eqn:E; [done|]. injection Htt as ->. by intros ->.
Qed.

(** ** Escaping *)

(** Three-byte escapes and other bytes. *)
Inductive Piece := Escape (a b : ascii) | Byte (c : ascii).

Definition write_piece (p : Piece) : string :=
  match p with
  | Escape a b => String "%" (String a (String b ""))
  | Byte c => String c ""
  end.

Definition piece_ok (p : Piece) : Prop :=
  match p with Escape a b => a ≠ "%"%char ∧ b ≠ "%"%char | Byte c => c ≠ "%"%char end.

Definition pieces (l : list Piece) : string := sconcat (write_piece <$> l).

(** [replace] of an escape by one byte works piece by piece. *)
Definition decode_piece (a b c : ascii) (p : Piece) : Piece :=
  match p with
  | Escape x y => if bool_decide (x = a ∧ y = b) then Byte c else p
  | Byte _ => p
  end.

Lemma replace_pieces a b c l :
  Forall piece_ok l →
  replace_from (String "%" (String a (String b ""))) (String c "") 0 (pieces l) =
  pieces (decode_piece a b c <$> l).
Proof.
  induction 1 as [|p l Hp _ IH]; [done|].
  change (pieces (p :: l)) with (write_piece p +:+ pieces l).
  change (pieces (decode_piece a b c <$> p :: l))
    with (write_piece (decode_piece a b c p) +:+ pieces (decode_piece a b c <$> l)).
  rewrite <-IH. destruct p as [x y|d]; cbn [write_piece piece_ok decode_piece] in *.
  - destruct Hp as [Hx Hy]. rewrite !sapp_cons, sapp_nil_l. cbn [replace_from].
    unfold starts_with at 1. cbn [strip_prefix]. rewrite bool_decide_true by done.
    assert (∀ s, starts_with (String "%" (String a (String b ""))) (String x s) = false) as Hnx.
    { intros s. unfold starts_with. cbn [strip_prefix]. by rewrite bool_decide_false by congruence. }
    assert (∀ s, starts_with (String "%" (String a (String b ""))) (String y s) = false) as Hny.
    { intros s. unfold starts_with. cbn [strip_prefix]. by rewrite bool_decide_false by congruence. }
    destruct (decide (x = a ∧ y = b)) as [[-> ->]|Hne].
    + rewrite !(bool_decide_true (a = a)), !(bool_decide_true (b = b)) by done. by rewrite bool_decide_true.
    + rewrite (bool_decide_false (x = a ∧ y = b)) by done.
      assert ((match (if bool_decide (a = x) then if bool_decide (b = y) then Some (pieces l) else None else None) with
               | Some _ => true | None => false end) = false) as ->.
      { repeat case_bool_decide; subst; try done. by destruct Hne. }
      rewrite Hnx, Hny. done.
  - rewrite !sapp_cons, !sapp_nil_l. cbn [replace_from]. unfold starts_with at 1. cbn [strip_prefix].
    by rewrite bool_decide_false by congruence.
Qed.

Definition escape_byte (c : ascii) : Piece :=
  if bool_decide (c = "%"%char) then Escape "2" "5"
  else if bool_decide (c = cr) then Escape "0" "D"
  else if bool_decide (c = lf) then Escape "0" "A"
  else Byte c.

Fixpoint string_pieces (f : ascii → Piece) (s : string) : list Piece :=
  match s with EmptyString => [] | String c s => f c :: string_pieces f s end.

(** The escaping of a command's data that the toolkit documents. *)
Definition escape_data (s : string) : string := pieces (string_pieces escape_byte s).

Lemma decode_pieces_ok a b c l : c ≠ "%"%char → Forall piece_ok l → Forall piece_ok (decode_piece a b c <$> l).
Proof.
  intros Hc. induction 1 as [|p l Hp _ IH]; [constructor|]. constructor; [|done].
  destruct p; simpl in *; [case_bool_decide|]; done.
Qed.

Lemma string_pieces_decode a b c f s :
  decode_piece a b c <$> string_pieces f s = string_pieces (λ x, decode_piece a b c (f x)) s.
Proof. induction s as [|x s IH]; [done|]. simpl. by rewrite <-IH. Qed.

Lemma pieces_bytes s : pieces (string_pieces Byte s) = s.
Proof. induction s as [|c s IH]; [done|]. change (String c "" +:+ pieces (string_pieces Byte s) = String c s). by rewrite IH. Qed.

Lemma string_pieces_ext f g s : (∀ c, f c = g c) → string_pieces f s = string_pieces g s.
Proof. intros H. induction s as [|c s IH]; [done|]. simpl. by rewrite H, IH. Qed.

Lemma replace_escape a b c l :
  Forall piece_ok l →
  replace (String "%" (String a (String b ""))) (String c "") (pieces l) = pieces (decode_piece a b c <$> l).
Proof. intros Hl. unfold replace. cbn [is_empty]. by apply replace_pieces. Qed.

Lemma escape_bytes_ok s : Forall piece_ok (string_pieces escape_byte s).
Proof.
  induction s as [|c s IH]; [constructor|]. constructor; [|done]. unfold escape_byte.
  repeat case_bool_decide; done.
Qed.

(** ** Properties *)

(** whatever line a step prints, an annotation accepted from it is one that
    a check can report: its lines and columns are in order and in range, its
    message and title are bounded, and its path is relative to the workspace
    and never leaves it.  The parser never panics. *)
Theorem annotation_well_formed line workspace :
  outcome_spec (parse_workflow_annotation line workspace)
    (λ result, ∀ a, result = Some a → annotation_ok a) (λ _, True).
Proof. apply parse_workflow_annotation_spec. Qed.

(** decoding the data of a command undoes the escaping of the toolkit, for
    every text: the replacements, made one after the other, do not interfere. *)
Theorem command_data_roundtrip s : decode_workflow_command_data (escape_data s) = s.
Proof.
  unfold decode_workflow_command_data, replace_all, data_escapes, escape_data. cbn [app fold_left].
  rewrite !replace_escape by (repeat (apply decode_pieces_ok; [done|]); apply escape_bytes_ok).
  rewrite !string_pieces_decode. rewrite <-(pieces_bytes s) at 2. f_equal. apply string_pieces_ext.
  intros c. unfold escape_byte. repeat case_bool_decide; subst; done.
Qed.

Lemma truncate_utf8_bytes_le value maximum : slen (truncate_utf8_bytes value maximum) ≤ maximum.
Proof.
  unfold truncate_utf8_bytes. case_bool_decide; [done|]. rewrite slen_stake.
  pose proof (floor_char_boundary_le value maximum). lia.
Qed.

Example annotation_parsed :
  parse_workflow_annotation "::error file=/ws/src/../lib.rs,line=3,endLine=3,col=7,title=E%3A1::bad%0Athing" (Some "/ws") =
  Ok (Some (mkAnnotation ".github" 3 3 (Some 7%Z) (Some 7%Z) Failure ("bad" +:+ String lf "thing") (Some "E:1"))).
Proof. vm_compute. reflexivity. Qed.

Example annotation_path_kept :
  parse_workflow_annotation "::warning file=/ws/./src/lib.rs::slow" (Some "/ws") =
  Ok (Some (mkAnnotation "src/lib.rs" 1 1 None None Warning "slow" None)).
Proof. vm_compute. reflexivity. Qed.
