(* ===== verification/ProblemMatcher.v ===== *)
(** * Problem matchers (crates/gitzero-agent, problem_matcher.rs)

    The matchers a step registers and their multi-line matching.  Regular
    expressions, the file system and the JSON parser are the classes
    [CaptureLib] and [MatcherFiles]. *)

From S2P Require Import Prelude RustStr UnixPath OrdMap RustText Protocol Annotations.

(** [regex]: [captures] gives the groups of the first match, the whole match
    first; a group that did not take part is [None]. *)
Class CaptureLib := {
  PRegex : Type;
  pregex_build : string → outcome string PRegex;
  captures_len : PRegex → nat;
  captures : PRegex → string → option (list (option string));
  strip_ansi_color : string → string;            (** [replace_all] of a fixed pattern *)
  pregex_build_no_panic s : pregex_build s ≠ Panic;
}.

Definition MAX_MATCHER_CONFIG_BYTES : Z := 256 * 1024.
Definition MAX_MATCHERS_PER_CONFIG : nat := 32.
Definition MAX_MATCHERS_PER_JOB : nat := 128.
Definition MAX_PATTERNS_PER_MATCHER : nat := 10.
Definition MAX_MATCHER_OWNER_BYTES : nat := 256.
Definition MAX_MATCHER_REGEX_BYTES : nat := 16 * 1024.
Definition MAX_MATCHER_MESSAGE_UTF16_UNITS : nat := 4096.
Definition MAX_MATCHER_TITLE_BYTES : nat := 255.

(** ** Configuration *)

Record ProblemPatternConfig := mkPatternConfig {
  ppc_regexp : string;
  ppc_file : option nat;
  ppc_line : option nat;
  ppc_column : option nat;
  ppc_severity : option nat;
  ppc_code : option nat;
  ppc_message : option nat;
  ppc_from_path : option nat;
  ppc_loop : bool;
}.

Record ProblemMatcherConfig := mkMatcherConfig {
  pmc_owner : string;
  pmc_severity : string;
  pmc_from_path : string;
  pmc_pattern : list ProblemPatternConfig;
}.

Definition ProblemMatcherFile : Type := list ProblemMatcherConfig.

(** Resolved paths, regular files, their size and content. *)
Class MatcherFiles := {
  canonicalize : string → outcome string string;
  is_regular : string → bool;
  file_metadata : string → outcome string Z;
  file_content : string → outcome string string;
  parse_matcher_file : string → outcome string ProblemMatcherFile;
  canonicalize_no_panic p : canonicalize p ≠ Panic;
  file_metadata_no_panic p : file_metadata p ≠ Panic;
  file_content_no_panic p : file_content p ≠ Panic;
  parse_matcher_file_no_panic s : parse_matcher_file s ≠ Panic;
}.

Definition has_line_break (s : string) : bool :=
  contains_byte (λ c, bool_decide (c = nul) || bool_decide (c = cr) || bool_decide (c = lf)) s.

Definition validate_owner (owner : string) : outcome string unit :=
  reject_if (is_empty owner || bool_decide (MAX_MATCHER_OWNER_BYTES < slen owner) || has_line_break owner)
    "problem matcher owner is invalid".

Definition validate_severity (severity : string) : outcome string unit :=
  reject_if (negb (bool_decide (to_ascii_lowercase severity ∈ [""; "error"; "warning"; "notice"])))
    "problem matcher default severity is unsupported".

(** ** Captured issues *)

Record CapturedIssue := mkCaptured {
  ci_file : option string;
  ci_line : option string;
  ci_column : option string;
  ci_severity : option string;
  ci_code : option string;
  ci_message : option string;
  ci_from_path : option string;
}.

Definition no_issue : CapturedIssue := mkCaptured None None None None None None None.

Definition or_else {A : Type} (a b : option A) : option A := match a with Some _ => a | None => b end.

Definition merge (self newer : CapturedIssue) : CapturedIssue :=
  mkCaptured (or_else (ci_file self) (ci_file newer)) (or_else (ci_line self) (ci_line newer))
    (or_else (ci_column self) (ci_column newer)) (or_else (ci_severity self) (ci_severity newer))
    (or_else (ci_code self) (ci_code newer)) (or_else (ci_message self) (ci_message newer))
    (or_else (ci_from_path self) (ci_from_path newer)).

Record MatchedIssue := mkMatched {
  mi_owner : string;
  mi_captured : CapturedIssue;
}.

Definition default_if_empty (value : option string) (default_value : string) : option string :=
  if match value with Some v => is_empty v | None => true end && negb (is_empty default_value)
  then Some default_value else value.

Definition finish (self : CapturedIssue) (owner default_severity default_from_path : string) : MatchedIssue :=
  mkMatched owner
    (mkCaptured (ci_file self) (ci_line self) (ci_column self)
       (default_if_empty (ci_severity self) default_severity) (ci_code self) (ci_message self)
       (default_if_empty (ci_from_path self) default_from_path)).

Definition coordinate (value : option string) : option Z :=
  value ← value; value ← parse_unsigned u32_max value;
  if bool_decide (0 < value ≤ i32_max)%Z then Some value else None.

Definition truncate_utf16 (value : string) (maximum_units : nat) : string :=
  if bool_decide (utf16_len value ≤ maximum_units) then value
  else sconcat (utf16_prefix maximum_units 0 (chars value)).

(** ** Matchers *)

Section matcher.
Context `{CL : CaptureLib}.

Record ProblemPattern := mkPattern {
  pp_regex : PRegex;
  pp_file : option nat;
  pp_line : option nat;
  pp_column : option nat;
  pp_severity : option nat;
  pp_code : option nat;
  pp_message : option nat;
  pp_from_path : option nat;
  pp_loop : bool;
}.

Record ProblemMatcher := mkMatcher {
  pm_owner : string;
  pm_default_severity : string;
  pm_default_from_path : string;
  pm_patterns : list ProblemPattern;
  pm_state : list (option CapturedIssue);
}.

#[export] Instance ProblemMatcher_updatable : Updatable ProblemMatcher := λ m,
  mkMatcher (pm_owner m) (pm_default_severity m) (pm_default_from_path m) (pm_patterns m) (pm_state m).

(** A capture index is within the groups, and each name is captured once. *)
Definition assign_capture (regex : PRegex) (entry : string * option nat) (assigned : gset string)
    : outcome string (gset string) :=
  let '(name, capture) := entry in
  match capture with
  | None => Ok assigned
  | Some capture =>
      reject_if (bool_decide (captures_len regex ≤ capture))
        ("problem matcher capture index for " +:+ name +:+ " is out of range") ;?
      reject_if (bool_decide (name ∈ assigned))
        ("problem matcher assigns " +:+ name +:+ " more than once") ;?
      Ok ({[name]} ∪ assigned)
  end.

Definition named_captures (pattern : ProblemPatternConfig) : list (string * option nat) :=
  [("file", ppc_file pattern); ("line", ppc_line pattern); ("column", ppc_column pattern);
   ("severity", ppc_severity pattern); ("code", ppc_code pattern); ("message", ppc_message pattern);
   ("fromPath", ppc_from_path pattern)].

Definition compile_pattern (pattern_count : nat) (entry : nat * ProblemPatternConfig)
    (acc : list ProblemPattern * gset string) : outcome string (list ProblemPattern * gset string) :=
  let '(index, pattern) := entry in
  let '(patterns, assigned) := acc in
  reject_if (ppc_loop pattern && (bool_decide (index = 0) || negb (bool_decide (index + 1 = pattern_count))))
    "only the last pattern in a multiline matcher may loop" ;?
  reject_if (ppc_loop pattern && negb (is_some (ppc_message pattern)))
    "a looping problem matcher pattern must capture a message" ;?
  reject_if (bool_decide (MAX_MATCHER_REGEX_BYTES < slen (ppc_regexp pattern)) || has_nul (ppc_regexp pattern))
    "problem matcher regular expression is invalid or too large" ;?
  let? regex := map_err (λ _, "compile problem matcher regular expression") (pregex_build (ppc_regexp pattern)) in
  let? assigned := for_each (assign_capture regex) (named_captures pattern) assigned in
  Ok (patterns ++ [mkPattern regex (ppc_file pattern) (ppc_line pattern) (ppc_column pattern)
        (ppc_severity pattern) (ppc_code pattern) (ppc_message pattern) (ppc_from_path pattern)
        (ppc_loop pattern)], assigned).

Definition compile_matcher (config : ProblemMatcherConfig) : outcome string ProblemMatcher :=
  validate_owner (pmc_owner config) ;?
  validate_severity (pmc_severity config) ;?
  reject_if (is_nil (pmc_pattern config) || bool_decide (MAX_PATTERNS_PER_MATCHER < length (pmc_pattern config)))
    "problem matcher must contain a bounded non-empty pattern list" ;?
  reject_if (bool_decide (4096 < slen (pmc_from_path config)) || has_nul (pmc_from_path config))
    "problem matcher default fromPath is invalid" ;?
  let? '(patterns, assigned) := for_each (compile_pattern (length (pmc_pattern config)))
                                  (enumerate (pmc_pattern config)) ([], ∅) in
  reject_if (negb (bool_decide ("message" ∈ assigned))) "problem matcher must capture a message" ;?
  Ok (mkMatcher (pmc_owner config) (pmc_severity config) (pmc_from_path config) patterns
        (replicate (length patterns - 1) None)).

Definition capture (groups : list (option string)) (index : option nat) : option string :=
  (λ index, default "" (groups !! index ≫= id)) <$> index.

Definition from_captures (pattern : ProblemPattern) (groups : list (option string)) : CapturedIssue :=
  mkCaptured (capture groups (pp_file pattern)) (capture groups (pp_line pattern))
    (capture groups (pp_column pattern)) (capture groups (pp_severity pattern))
    (capture groups (pp_code pattern)) (capture groups (pp_message pattern))
    (capture groups (pp_from_path pattern)).

(** What a pattern captures of a line. *)
Definition captured (pattern : ProblemPattern) (line : string) : option CapturedIssue :=
  from_captures pattern <$> captures (pp_regex pattern) line.

Definition finish_for (m : ProblemMatcher) (issue : CapturedIssue) : MatchedIssue :=
  finish issue (pm_owner m) (pm_default_severity m) (pm_default_from_path m).

Definition reset (m : ProblemMatcher) : ProblemMatcher :=
  m <| pm_state := (λ _, None) <$> pm_state m |>.

(** [self.state\[index\] = value] *)
Definition set_state (m : ProblemMatcher) (index : nat) (value : option CapturedIssue)
    : outcome string ProblemMatcher :=
  match pm_state m !! index with
  | Some _ => Ok (m <| pm_state := <[index := value]> (pm_state m) |>)
  | None => Panic
  end.

(** [index.checked_sub(1).and_then(|i| self.state\[i\].clone())] *)
Definition running_match (m : ProblemMatcher) (index : nat) : outcome string (option CapturedIssue) :=
  match index with 0 => Ok None | S i => expect (pm_state m !! i) end.

(** One turn of the loop; an issue ends it. *)
Definition match_pattern (line : string) (m : ProblemMatcher) (index : nat)
    : outcome string (option MatchedIssue * ProblemMatcher) :=
  let? running := running_match m index in
  if negb (bool_decide (index = 0)) && negb (is_some running) then Ok (None, m)
  else
    let? pattern := expect (pm_patterns m !! index) in
    let is_last := bool_decide (index + 1 = length (pm_patterns m)) in
    match captured pattern line with
    | Some issue =>
        let merged := merge (default no_issue running) issue in
        if is_last then
          let m' := reset m in
          let? m' := if pp_loop pattern then set_state m' (index - 1) running else Ok m' in
          Ok (Some (finish_for m merged), m')
        else let? m := set_state m index (Some merged) in Ok (None, m)
    | None =>
        let? m := set_state m (if is_last then index - 1 else index) None in Ok (None, m)
    end.

Fixpoint match_patterns (line : string) (m : ProblemMatcher) (indices : list nat)
    : outcome string (option MatchedIssue * ProblemMatcher) :=
  match indices with
  | [] => Ok (None, m)
  | index :: indices =>
      let? '(issue, m) := match_pattern line m index in
      match issue with
      | Some issue => Ok (Some issue, m)
      | None => match_patterns line m indices
      end
  end.

Definition matches (m : ProblemMatcher) (line : string)
    : outcome string (option MatchedIssue * ProblemMatcher) :=
  match pm_patterns m with
  | [pattern] => Ok (finish_for m <$> captured pattern line, m)
  | patterns => match_patterns line m (rev (seq 0 (length patterns)))
  end.

(** ** What a compiled matcher is *)

Lemma enumerate_lookup {A} (l : list A) n i x : enumerate l !! n = Some (i, x) → i = n.
Proof.
  enough (∀ k n, enumerate_from k l !! n = Some (i, x) → i = k + n) as H by by intros ?%H.
  induction l as [|y l IH]; intros k [|m]; simpl; try done.
  - intros [= <- _]. lia.
  - intros ?%IH. lia.
Qed.

Record matcher_ok (m : ProblemMatcher) : Prop := {
  mo_patterns : pm_patterns m ≠ [];
  mo_state : length (pm_state m) = length (pm_patterns m) - 1;
  mo_loop p i : pm_patterns m !! i = Some p → pp_loop p = true → 0 < i;
}.

Lemma compile_pattern_no_panic n entry acc : compile_pattern n entry acc ≠ Panic.
Proof.
  destruct entry as [i p], acc as [ps assigned]. unfold compile_pattern.
  rewrite obind_Panic. intros [H | (? & _ & H)]; [by apply reject_if_Panic in H|].
  apply obind_Panic in H as [H | (? & _ & H)]; [by apply reject_if_Panic in H|].
  apply obind_Panic in H as [H | (? & _ & H)]; [by apply reject_if_Panic in H|].
  apply obind_Panic in H as [H | (regex & _ & H)]; [by apply map_err_Panic, pregex_build_no_panic in H|].
  apply obind_Panic in H as [H | (? & _ & ?)]; [|done].
  revert H. apply (for_each_no_panic _ (λ _, True)); [done| |done]. intros [name [c|]] s _ _; [|done]. cbn [assign_capture].
  rewrite obind_Panic. intros [H | (? & _ & H)]; [by apply reject_if_Panic in H|].
  apply obind_Panic in H as [H | (? & _ & ?)]; [by apply reject_if_Panic in H | done].
Qed.

Lemma compile_pattern_spec n i p ps assigned ps' assigned' :
  compile_pattern n (i, p) (ps, assigned) = Ok (ps', assigned') →
  ∃ q, ps' = ps ++ [q] ∧ pp_loop q = ppc_loop p ∧ (ppc_loop p = true → 0 < i).
Proof.
  unfold compile_pattern. intros (? & H%reject_if_Ok & H1)%obind_Ok.
  apply obind_Ok in H1 as (? & _ & H1). apply obind_Ok in H1 as (? & _ & H1).
  apply obind_Ok in H1 as (regex & _ & H1). apply obind_Ok in H1 as (assigned0 & _ & [= <- _]).
  eexists. split; [done|]. split; [done|]. intros Hl. rewrite Hl in H. simpl in H.
  apply orb_false_iff in H as [?%bool_decide_eq_false _]. lia.
Qed.

Lemma compile_matcher_ok config :
  outcome_spec (compile_matcher config) (λ m, matcher_ok m ∧ pm_owner m = pmc_owner config ∧
     length (pm_patterns m) = length (pmc_pattern config)) (λ _, True).
Proof.
  unfold compile_matcher.
  apply outcome_spec_bind. destruct (validate_owner _) eqn:E1; simpl; [|done|by apply reject_if_Panic in E1].
  apply outcome_spec_bind. destruct (validate_severity _) eqn:E2; simpl; [|done|by apply reject_if_Panic in E2].
  destruct (_ || _) eqn:E3; cbn [reject_if obind]; [done|]. apply orb_false_iff in E3 as [Hne _].
  destruct (_ || _) eqn:E4; cbn [reject_if obind]; [done|].
  set (n := length (pmc_pattern config)).
  assert (outcome_spec (for_each (compile_pattern n) (enumerate (pmc_pattern config)) ([], ∅))
    (λ acc, length acc.1 = n ∧ ∀ i q, acc.1 !! i = Some q → pp_loop q = true → 0 < i) (λ _, True)) as Hspec.
  { destruct (for_each _ _ _) as [acc| |] eqn:E; [|done|].
    2: { revert E. apply (for_each_no_panic _ (λ _, True)); [done| |done]. intros x s _ _. apply compile_pattern_no_panic. }
    cbn [outcome_spec].
    assert (length acc.1 = length (enumerate (pmc_pattern config)) ∧
      ∀ i q, acc.1 !! i = Some q → pp_loop q = true → 0 < i) as [Hl ?].
    { refine (for_each_inv _ (λ done_ (acc : list ProblemPattern * gset string), length acc.1 = length done_ ∧
        ∀ i q, acc.1 !! i = Some q → pp_loop q = true → 0 < i) _ _ _ _ _ E); [done|].
      intros done_ [i p] rest [ps asg] [ps' asg'] Hsplit [Hlen Hloop] Hb. simpl in *.
      apply compile_pattern_spec in Hb as (q & -> & Hq & Hi). split; [rewrite !length_app; simpl; lia|].
      intros k q' [Hk | [Hk Hk']]%lookup_app_Some; [by apply Hloop|].
      destruct (k - length ps) as [|k'] eqn:Hkk; [|done]. injection Hk' as <-. intros Hql.
      assert ((enumerate (pmc_pattern config)) !! length done_ = Some (i, p)) as Hlook.
      { rewrite Hsplit. by rewrite lookup_app_r, Nat.sub_diag by lia. }
      assert (i = length done_) as Hid; [by apply enumerate_lookup in Hlook|].
      rewrite Hq in Hql. specialize (Hi Hql). lia. }
    split; [|done]. rewrite Hl. unfold n. rewrite <-(enumerate_from_snd 0 (pmc_pattern config)) at 2. by rewrite length_fmap. }
  apply outcome_spec_bind. eapply outcome_spec_mono; [exact Hspec| |done].
  intros [ps assigned] [Hlen Hloop]. cbn beta iota. simpl in Hlen, Hloop.
  destruct (negb _); cbn [reject_if obind]; [done|]. cbn [outcome_spec].
  split; [split; simpl|done].
  - intros ->. unfold n in Hlen. by destruct (pmc_pattern config).
  - by rewrite length_replicate.
  - intros p i Hp Hl. by apply (Hloop i p).
Qed.
End matcher.

(** * A small regular expression library and file system for the examples

    One possible behaviour of the interfaces of ProblemMatcher.v, so that the
    witnesses compute: a pattern is a literal prefix and its one group is what
    follows it; the file system holds one configuration. *)

Definition demo_groups (regex line : string) : option (list (option string)) :=
  rest ← strip_prefix regex line; Some [Some line; Some rest].

#[export] Program Instance demo_captures : CaptureLib := {|
  PRegex := string;
  pregex_build s := Ok s;
  captures_len _ := 2;
  captures := demo_groups;
  strip_ansi_color s := s;
|}.
Solve All Obligations with done.

Definition demo_pattern (regexp : string) (file message : option nat) (loop : bool) : ProblemPatternConfig :=
  mkPatternConfig regexp file None None None None message None loop.

(** [A:], [B:], [C:] and [D:] lines in a row; the last one carries the message. *)
Definition demo_config : ProblemMatcherConfig :=
  mkMatcherConfig "lint" "warning" ""
    [demo_pattern "A:" (Some 1) None false; demo_pattern "B:" None None false;
     demo_pattern "C:" None None false; demo_pattern "D:" None (Some 1) false].

#[export] Program Instance demo_files : MatcherFiles := {|
  canonicalize p := Ok p;
  is_regular p := bool_decide (p = "/run/repo/main.c") || bool_decide (p = "/run/repo/lint.json");
  file_metadata p := Ok 10%Z;
  file_content p := Ok "lint.json";
  parse_matcher_file s := Ok [demo_config];
|}.
Solve All Obligations with done.

Definition demo_matcher : ProblemMatcher :=
  match compile_matcher demo_config with Ok m => m | _ => mkMatcher "" "" "" [] [] end.

Lemma demo_matcher_compiled : compile_matcher demo_config = Ok demo_matcher.
Proof. vm_compute. reflexivity. Qed.

Lemma demo_matcher_ok : matcher_ok demo_matcher.
Proof. pose proof (compile_matcher_ok demo_config) as H. by rewrite demo_matcher_compiled in H; destruct H. Qed.
