(* ===== verification/MatcherSpec.v ===== *)
(** * Multi-line matching of problem matchers

    The reverse loop of [ProblemMatcher::matches] against a shift register that
    is read all at once, and what the issues it reports are made of. *)

From S2P Require Import Prelude RustStr RustText ProblemMatcher.

Section spec.
Context `{CL : CaptureLib}.

(** ** The shift register

    Cell [i] holds what the first [i + 1] patterns captured so far.  A line moves
    every occupied cell on by one pattern, the virtual cell before the first one
    holding the empty issue; behind an empty cell nothing moves. *)

Fixpoint shift (line : string) (running : option CapturedIssue) (patterns : list ProblemPattern)
    (state : list (option CapturedIssue)) : list (option CapturedIssue) :=
  match patterns, state with
  | pattern :: patterns, cell :: state =>
      match running with
      | Some issue => merge issue <$> captured pattern line
      | None => cell
      end :: shift line cell patterns state
  | _, _ => []
  end.

(** The cell the last pattern continues. *)
Definition final_cell (state : list (option CapturedIssue)) : option CapturedIssue :=
  default (Some no_issue) (last state).

Definition completed (m : ProblemMatcher) (line : string) : option CapturedIssue :=
  running ← final_cell (pm_state m);
  pattern ← last (pm_patterns m);
  merge running <$> captured pattern line.

Definition loops (m : ProblemMatcher) : bool :=
  match last (pm_patterns m) with Some pattern => pp_loop pattern | None => false end.

(** What a line does: report and clear, keeping the cell of a looping pattern,
    or shift. *)
Definition matches_reference (m : ProblemMatcher) (line : string) : option MatchedIssue * ProblemMatcher :=
  let final := length (pm_state m) - 1 in
  match completed m line with
  | Some issue =>
      let cleared := pm_state (reset m) in
      (Some (finish_for m issue),
       m <| pm_state := if loops m then <[final := final_cell (pm_state m)]> cleared else cleared |>)
  | None =>
      (None, m <| pm_state := shift line (Some no_issue) (pm_patterns m) (<[final := None]> (pm_state m)) |>)
  end.

(** What the patterns capture of as many lines, merged in order. *)
Fixpoint captured_by (patterns : list ProblemPattern) (lines : list string) (issue : CapturedIssue)
    : option CapturedIssue :=
  match patterns, lines with
  | [], [] => Some issue
  | pattern :: patterns, line :: lines =>
      newer ← captured pattern line; captured_by patterns lines (merge issue newer)
  | _, _ => None
  end.

Fixpoint run_lines (m : ProblemMatcher) (lines : list string)
    : outcome string (list (option MatchedIssue) * ProblemMatcher) :=
  match lines with
  | [] => Ok ([], m)
  | line :: lines =>
      let? '(issue, m) := matches m line in
      let? '(issues, m) := run_lines m lines in
      Ok (issue :: issues, m)
  end.

(** ** The loop is the shift register *)

Lemma set_state_ok m i v : i < length (pm_state m) →
  set_state m i v = Ok (m <| pm_state := <[i := v]> (pm_state m) |>).
Proof. intros [x Hx]%lookup_lt_is_Some. unfold set_state. by rewrite Hx. Qed.

Lemma merge_no_issue c : merge no_issue c = c.
Proof. by destruct c. Qed.

(** The cells below [k], in the loop's order: from [k - 1] down to [0]. *)
Fixpoint shift_below (line : string) (patterns : list ProblemPattern) (k : nat)
    (state : list (option CapturedIssue)) : list (option CapturedIssue) :=
  match k with
  | 0 => state
  | S i =>
      let running := match i with 0 => Some no_issue | S j => default None (state !! j) end in
      shift_below line patterns i
        (match running with
         | Some issue => <[i := p ← patterns !! i; merge issue <$> captured p line]> state
         | None => state
         end)
  end.

Lemma shift_below_length line ps k st : length (shift_below line ps k st) = length st.
Proof.
  revert st; induction k as [|k IH]; intros st; [done|]. cbn [shift_below].
  rewrite IH. by case_match; rewrite ?length_insert.
Qed.

(** The loop over the indices below [k], none of them the last. *)
Lemma match_patterns_below line m k :
  k < length (pm_patterns m) → k ≤ length (pm_state m) →
  match_patterns line m (rev (seq 0 k)) =
    Ok (None, m <| pm_state := shift_below line (pm_patterns m) k (pm_state m) |>).
Proof.
  revert m; induction k as [|k IH]; intros m Hp Hs; [cbn; by destruct m|].
  rewrite seq_S, rev_app_distr. cbn [rev app match_patterns plus].
  destruct (lookup_lt_is_Some_2 (pm_patterns m) k) as [p Hpk]; [lia|].
  assert (∃ r, running_match m k = Ok r ∧
     match k with 0 => Some no_issue | S j => default None (pm_state m !! j) end =
     match k with 0 => Some no_issue | S _ => r end ∧ (k = 0 → r = None)) as (r & Hr & Hrun & Hr0).
  { destruct k as [|j]; [by eexists|]. simpl.
    destruct (lookup_lt_is_Some_2 (pm_state m) j) as [x Hx]; [lia|]. rewrite Hx. by eexists. }
  cbn [shift_below]. rewrite Hrun. unfold match_pattern. rewrite Hr. cbn [obind].
  destruct (negb _ && _) eqn:Hskip.
  { apply andb_true_iff in Hskip as [?%negb_true_iff%bool_decide_eq_false Hn].
    destruct r; [done|]. destruct k; [done|]. cbn [obind]. rewrite IH by lia. done. }
  rewrite Hpk. cbn [expect obind]. rewrite (bool_decide_eq_false_2 (k + 1 = _)) by lia.
  assert (match k with 0 => Some no_issue | S _ => r end = Some (default no_issue r)) as ->.
  { destruct k; [by rewrite Hr0|]. simpl in Hskip. by destruct r. }
  assert (∀ v, length (pm_patterns (m <| pm_state := v |>)) = length (pm_patterns m)) as Hl by done.
  destruct (captured p line) as [c|] eqn:Hc; rewrite set_state_ok by lia; cbn [obind];
    (rewrite IH; [|unfold_updates; lia|unfold_updates; rewrite length_insert; lia]);
    simpl; rewrite ?Hc; done.
Qed.

(** One cell after a line. *)
Definition before (first : option CapturedIssue) (state : list (option CapturedIssue)) (i : nat)
    : option CapturedIssue :=
  match i with 0 => first | S j => default None (state !! j) end.

Definition moved (line : string) (first : option CapturedIssue) (patterns : list ProblemPattern)
    (state : list (option CapturedIssue)) (i : nat) : option CapturedIssue :=
  match before first state i with
  | Some issue => p ← patterns !! i; merge issue <$> captured p line
  | None => default None (state !! i)
  end.

Lemma shift_lookup line first ps st i :
  i < length st → i < length ps → shift line first ps st !! i = Some (moved line first ps st i).
Proof.
  revert first ps i; induction st as [|s st IH]; intros first [|p ps] [|i] Hs Hp; simpl in *; try lia; [done|].
  rewrite IH by lia. unfold moved. f_equal. destruct i; reflexivity.
Qed.

Lemma shift_length line first ps st : length (shift line first ps st) = length ps `min` length st.
Proof.
  revert first st; induction ps as [|p ps IH]; intros first [|s st]; simpl; [done..|]. by rewrite IH.
Qed.

Lemma shift_below_above line ps k st i : k ≤ i → shift_below line ps k st !! i = st !! i.
Proof.
  revert st; induction k as [|k IH]; intros st Hi; [done|]. cbn [shift_below].
  rewrite IH by lia. case_match; [|done]. by rewrite list_lookup_insert_ne by lia.
Qed.

Lemma shift_below_lookup line ps k st i :
  i < k → k ≤ length st → shift_below line ps k st !! i = Some (moved line (Some no_issue) ps st i).
Proof.
  revert st; induction k as [|k IH]; intros st Hi Hk; [lia|]. cbn [shift_below].
  change (match k with 0 => Some no_issue | S j => default None (st !! j) end)
    with (before (Some no_issue) st k).
  destruct (decide (i = k)) as [->|Hne].
  - rewrite shift_below_above by done. unfold moved. destruct (before _ _ _); simpl.
    + by rewrite list_lookup_insert_eq by lia.
    + destruct (lookup_lt_is_Some_2 st k) as [x Hx]; [lia|]. by rewrite Hx.
  - destruct (before _ _ k) as [issue|]; [|apply IH; lia].
    rewrite IH by (rewrite ?length_insert; lia). f_equal. unfold moved.
    assert (before (Some no_issue) (<[k:=p ← ps !! k; merge issue <$> captured p line]> st) i =
            before (Some no_issue) st i) as ->.
    { destruct i; [done|]. simpl. by rewrite list_lookup_insert_ne by lia. }
    by rewrite list_lookup_insert_ne by lia.
Qed.

Lemma shift_below_shift line ps st :
  length st ≤ length ps → shift_below line ps (length st) st = shift line (Some no_issue) ps st.
Proof.
  intros Hl. apply list_eq. intros i. destruct (decide (i < length st)) as [Hi|Hi].
  - by rewrite shift_below_lookup, shift_lookup by lia.
  - rewrite !lookup_ge_None_2; [done|..]; rewrite ?shift_length, ?shift_below_length; lia.
Qed.

Lemma final_cell_lookup st : st ≠ [] → final_cell st = default None (st !! (length st - 1)).
Proof.
  intros Hne. unfold final_cell. rewrite last_lookup, Nat.sub_1_r.
  destruct (lookup_lt_is_Some_2 st (pred (length st))) as [x Hx]; [by destruct st; simpl in *; [|lia]|].
  by rewrite Hx.
Qed.

Lemma match_patterns_shift line m k :
  length (pm_patterns m) = S (length (pm_state m)) → length (pm_state m) = S k →
  match_patterns line (m <| pm_state := <[k := None]> (pm_state m) |>) (rev (seq 0 (length (pm_state m)))) =
    Ok (None, m <| pm_state := shift line (Some no_issue) (pm_patterns m) (<[k := None]> (pm_state m)) |>).
Proof.
  intros Hlen Hk. rewrite match_patterns_below by (simpl; rewrite ?length_insert; lia).
  simpl. rewrite <-(shift_below_shift line (pm_patterns m)) by (rewrite length_insert; lia).
  by rewrite length_insert.
Qed.

Lemma matches_reference_ok m line : matcher_ok m → matches m line = Ok (matches_reference m line).
Proof.
  intros Hm. pose proof (mo_patterns m Hm) as Hne. pose proof (mo_state m Hm) as Hst.
  unfold matches, matches_reference, completed, loops.
  destruct (pm_patterns m) as [|p [|q ps]] eqn:Hps; [done| |].
  { simpl in Hst. apply nil_length_inv in Hst. rewrite Hst. cbn.
    assert (pp_loop p = false) as ->.
    { destruct (pp_loop p) eqn:Hl; [|done]. pose proof (mo_loop m Hm p 0) as Hlp. rewrite Hps in Hlp.
      specialize (Hlp eq_refl Hl). lia. }
    destruct m; simpl in *; subst. destruct (captured p line); simpl; by rewrite ?merge_no_issue. }
  rewrite <-Hps. assert (length (pm_patterns m) = S (length (pm_state m))) as Hlen.
  { rewrite Hst, Hps. simpl. lia. }
  assert (0 < length (pm_state m)) as Hpos by (rewrite Hst; simpl; lia).
  destruct (lookup_lt_is_Some_2 (pm_patterns m) (length (pm_state m))) as [lp Hlp]; [lia|].
  assert (last (pm_patterns m) = Some lp) as Hlast by by rewrite last_lookup, Hlen.
  assert (∃ k, length (pm_state m) = S k) as [k Hk] by (exists (length (pm_state m) - 1); lia).
  destruct (lookup_lt_is_Some_2 (pm_state m) k) as [cell Hcell]; [lia|].
  rewrite final_cell_lookup by (intros ?%(f_equal length); simpl in *; lia).
  rewrite Hlast, Hlen, seq_S, rev_app_distr. cbn [rev app match_patterns plus].
  rewrite Hk. replace (S k - 1) with k by lia. rewrite Hcell.
  unfold match_pattern, running_match. rewrite Hcell. cbn [expect obind default].
  rewrite <-Hk, Hlp, (bool_decide_eq_false_2 (length (pm_state m) = 0)) by lia.
  cbn [expect obind negb andb]. rewrite Hlen, (bool_decide_eq_true_2 (_ + 1 = _)) by lia.
  cbn [id option_bind mbind]. destruct cell as [issue|]; cbn [is_some negb option_bind default].
  - destruct (captured lp line) as [c|]; simpl.
    + destruct (pp_loop lp); simpl; [|done].
      rewrite set_state_ok by (simpl; rewrite length_fmap; lia). simpl.
      by replace (length (pm_state m) - 1) with k by lia.
    + rewrite set_state_ok by lia. cbn [obind]. replace (length (pm_state m) - 1) with k by lia.
      by rewrite match_patterns_shift.
  - pose proof (match_patterns_shift line m k Hlen Hk) as Hms.
    rewrite (list_insert_id (pm_state m)) in Hms |- * by done.
    etransitivity; [|exact Hms]. by destruct m.
Qed.

(** the reverse loop over the patterns does what a shift register that reads
    all its cells at once does: the loop never indexes out of its state, reports
    exactly when the cell before the last pattern is occupied and the last
    pattern matches, clears the state then (keeping the running match of a
    looping pattern), and otherwise moves every occupied cell on by one
    pattern. *)
Theorem matches_is_shift_register m line :
  matcher_ok m → matches m line = Ok (matches_reference m line).
Proof.
  apply matches_reference_ok.
Qed.

(** ** What the issues are made of *)

Lemma matcher_ok_reference m line : matcher_ok m → matcher_ok (matches_reference m line).2.
Proof.
  intros [H1 H2 H3]. unfold matches_reference. destruct (completed m line); simpl; split; simpl; try done.
  - destruct (loops m); by rewrite ?length_insert, length_fmap.
  - rewrite shift_length, length_insert, H2. lia.
Qed.

Lemma patterns_reference m line : pm_patterns (matches_reference m line).2 = pm_patterns m.
Proof. unfold matches_reference. by destruct (completed m line). Qed.

Lemma captured_by_snoc ps p ls l c :
  length ps = length ls →
  captured_by (ps ++ [p]) (ls ++ [l]) c = (r ← captured_by ps ls c; merge r <$> captured p l).
Proof.
  revert ls c; induction ps as [|q ps IH]; intros [|k ls] c Hl; try done; simpl.
  destruct (captured q k); simpl; [|done]. apply IH. by injection Hl.
Qed.

(** Each occupied cell [i] holds what the first [i + 1] patterns captured, in
    order, of some of the lines seen. *)
Definition explained (m : ProblemMatcher) (seen : list string) : Prop :=
  ∀ i issue, pm_state m !! i = Some (Some issue) →
    ∃ lines, lines `sublist_of` seen ∧ length lines = S i ∧
      captured_by (take (S i) (pm_patterns m)) lines no_issue = Some issue.

Lemma explained_more m seen line : explained m seen → explained m (seen ++ [line]).
Proof.
  intros H i issue (ls & ? & ?)%H. exists ls. split; [|done].
  by apply sublist_inserts_r.
Qed.

Lemma explained_step m seen i p running line c :
  explained m seen → pm_patterns m !! i = Some p →
  before (Some no_issue) (pm_state m) i = Some running → captured p line = Some c →
  ∃ lines, lines `sublist_of` seen ∧ length lines = i ∧
    captured_by (take (S i) (pm_patterns m)) (lines ++ [line]) no_issue = Some (merge running c).
Proof.
  intros He Hp Hb Hc. rewrite (take_S_r _ _ p) by done.
  destruct i as [|i]; cbn [before] in Hb.
  - injection Hb as <-. exists []. split_and!; [apply sublist_nil_l|done|]. simpl. by rewrite Hc.
  - destruct (pm_state m !! i) as [[r|]|] eqn:Hs; simpl in Hb; [|done..]. injection Hb as ->.
    destruct (He _ _ Hs) as (ls & Hsub & Hl & Hcap). exists ls. split_and!; [done..|].
    rewrite captured_by_snoc.
    + rewrite Hcap. simpl. by rewrite Hc.
    + rewrite length_take. apply lookup_lt_Some in Hp. lia.
Qed.

Lemma explained_reference m seen line :
  matcher_ok m → explained m seen → explained (matches_reference m line).2 (seen ++ [line]).
Proof.
  intros Hm He i issue. unfold matches_reference. pose proof (mo_state m Hm) as Hst.
  set (final := length (pm_state m) - 1).
  destruct (completed m line) as [issue'|]; simpl.
  - assert (((λ _, None) <$> pm_state m) !! i ≠ Some (Some issue)) as Hno.
    { rewrite list_lookup_fmap. by destruct (pm_state m !! i). }
    destruct (loops m); [|done]. rewrite list_lookup_insert_Some. intros [(<- & Hf & Hi) | (_ & Hi)]; [|done].
    rewrite length_fmap in Hi. apply (explained_more _ _ line He).
    rewrite final_cell_lookup in Hf by (intros Hn; rewrite Hn in Hi; simpl in Hi; lia).
    fold final in Hf. by destruct (pm_state m !! final); simpl in Hf; subst.
  - intros Hi. pose proof (lookup_lt_Some _ _ _ Hi) as Hlt.
    rewrite shift_length, length_insert in Hlt.
    rewrite shift_lookup in Hi by (rewrite ?length_insert; lia). injection Hi as Hi. unfold moved in Hi.
    destruct (before _ _ i) as [running|] eqn:Hb.
    + destruct (pm_patterns m !! i) as [p|] eqn:Hp; [|done]. simpl in Hi.
      destruct (captured p line) as [c|] eqn:Hc; [|done]. injection Hi as <-.
      assert (before (Some no_issue) (pm_state m) i = Some running) as Hb'.
      { destruct i as [|j]; [done|]. simpl in Hb |- *. by rewrite list_lookup_insert_ne in Hb by lia. }
      destruct (explained_step m seen i p running line c He Hp Hb' Hc) as (ls & Hsub & Hl & Hcap).
      exists (ls ++ [line]). split_and!; [by apply sublist_app|rewrite length_app; simpl; lia|done].
    + destruct (decide (i = final)) as [->|Hne].
      { by rewrite list_lookup_insert_eq in Hi by lia. }
      rewrite list_lookup_insert_ne in Hi by done.
      destruct (pm_state m !! i) as [cell|] eqn:Hs; simpl in Hi; [subst|done].
      by apply (explained_more _ _ line He).
Qed.

Lemma final_cell_before m :
  matcher_ok m → final_cell (pm_state m) = before (Some no_issue) (pm_state m) (length (pm_patterns m) - 1).
Proof.
  intros Hm. rewrite <-(mo_state m Hm). destruct (pm_state m) as [|x st] eqn:Hs; [done|].
  rewrite final_cell_lookup by done. simpl. by rewrite Nat.sub_0_r.
Qed.

Lemma completed_explained m seen line issue :
  matcher_ok m → explained m seen → completed m line = Some issue →
  ∃ lines, lines `sublist_of` seen ∧ captured_by (pm_patterns m) (lines ++ [line]) no_issue = Some issue.
Proof.
  intros Hm He. pose proof (mo_state m Hm) as Hst. pose proof (mo_patterns m Hm) as Hne.
  unfold completed. destruct (final_cell (pm_state m)) as [running|] eqn:Hf; [|done].
  destruct (last (pm_patterns m)) as [p|] eqn:Hp; [|done]. simpl.
  destruct (captured p line) as [c|] eqn:Hc; [|done]. intros [= <-].
  rewrite last_lookup in Hp.
  destruct (explained_step m seen _ p running line c He Hp) as (ls & ? & _ & Hcap); [|done|].
  - by rewrite <-Hf, <-Nat.sub_1_r, final_cell_before.
  - exists ls. split; [done|]. rewrite take_ge in Hcap; [done|]. destruct (pm_patterns m); simpl in *; [done|lia].
Qed.

(** The first [length lines] patterns match these lines. *)
Lemma run_lines_cons m line lines :
  matcher_ok m → run_lines m (line :: lines) =
    let? '(issues, m') := run_lines (matches_reference m line).2 lines in
    Ok ((matches_reference m line).1 :: issues, m').
Proof.
  intros Hm. cbn [run_lines]. rewrite matches_reference_ok by done. simpl.
  by destruct (matches_reference m line).
Qed.

(** C34: an issue that a problem matcher reports is made of what its patterns
    captured, in order and merged with the earliest captured value of each
    field winning, of some of the lines it has seen, the last one being the
    current line; a matcher never runs out of its state. *)
Theorem matcher_reports_its_patterns m lines :
  matcher_ok m → Forall (λ cell, cell = None) (pm_state m) →
  ∃ issues m', run_lines m lines = Ok (issues, m') ∧ length issues = length lines ∧
    ∀ i issue, issues !! i = Some (Some issue) →
      ∃ line earlier captured, lines !! i = Some line ∧ earlier `sublist_of` take i lines ∧
        captured_by (pm_patterns m) (earlier ++ [line]) no_issue = Some captured ∧
        issue = finish_for m captured.
Proof.
  intros Hm Hempty.
  enough (∀ seen m0, matcher_ok m0 → explained m0 seen → finish_for m0 = finish_for m → pm_patterns m0 = pm_patterns m →
    ∃ issues m', run_lines m0 lines = Ok (issues, m') ∧ length issues = length lines ∧
    ∀ i issue, issues !! i = Some (Some issue) →
      ∃ line earlier captured, lines !! i = Some line ∧ earlier `sublist_of` seen ++ take i lines ∧
        captured_by (pm_patterns m) (earlier ++ [line]) no_issue = Some captured ∧
        issue = finish_for m captured) as Hgo.
  { apply (Hgo [] m); try done. intros i issue Hi. pose proof (Forall_lookup_1 _ _ _ _ Hempty Hi). done. }
  clear Hempty. induction lines as [|line lines IH]; intros seen m0 Hm0 He Hf Hp.
  { by exists [], m0. }
  rewrite run_lines_cons by done.
  destruct (IH (seen ++ [line]) (matches_reference m0 line).2) as (issues & m' & -> & Hl & Hi).
  { by apply matcher_ok_reference. }
  { by apply explained_reference. }
  { rewrite <-Hf. unfold matches_reference, finish_for. by destruct (completed m0 line). }
  { by rewrite patterns_reference. }
  eexists _, m'. split; [done|]. split; [by simpl; rewrite Hl|].
  intros [|i] issue; cbn [lookup list_lookup take].
  - unfold matches_reference. destruct (completed m0 line) as [c|] eqn:Hc; [|done].
    intros [= <-]. destruct (completed_explained m0 seen line c Hm0 He Hc) as (ls & ? & ?).
    exists line, ls, c. rewrite app_nil_r, <-Hp, Hf. done.
  - intros (l & ls & c & ? & Hs & ?)%Hi. exists l, ls, c. by rewrite <-app_assoc in Hs.
Qed.

Lemma run_lines_total m lines :
  matcher_ok m → ∃ issues m', run_lines m lines = Ok (issues, m') ∧ length issues = length lines.
Proof.
  revert m; induction lines as [|line lines IH]; intros m Hm; [by eexists _, _|].
  rewrite run_lines_cons by done.
  destruct (IH _ (matcher_ok_reference m line Hm)) as (issues & m' & -> & Hl).
  eexists _, m'. split; [done|]. simpl. by rewrite Hl.
Qed.

Lemma completed_here m line i r captured :
  matcher_ok m → before (Some no_issue) (pm_state m) i = Some r →
  captured_by (drop i (pm_patterns m)) [line] r = Some captured → completed m line = Some captured.
Proof.
  intros Hm Hb. destruct (drop i (pm_patterns m)) as [|p [|q ps]] eqn:Hd; simpl; [done| |].
  2: { by destruct (ProblemMatcher.captured p line). }
  pose proof (f_equal length Hd) as Hlen. rewrite length_drop in Hlen. simpl in Hlen.
  assert (pm_patterns m !! i = Some p) as Hp.
  { rewrite <-(Nat.add_0_r i), <-lookup_drop, Hd. done. }
  unfold completed. rewrite final_cell_before by done.
  replace (length (pm_patterns m) - 1) with i by lia. rewrite Hb. simpl.
  rewrite last_lookup. replace (pred (length (pm_patterns m))) with i by lia. rewrite Hp. simpl.
  by destruct (ProblemMatcher.captured p line).
Qed.

(** One more line of the sequence: the cell of the sequence moves on. *)
Lemma shift_advances m line i p r c :
  matcher_ok m → i < length (pm_state m) → pm_patterns m !! i = Some p →
  before (Some no_issue) (pm_state m) i = Some r → ProblemMatcher.captured p line = Some c →
  completed m line = None →
  before (Some no_issue) (pm_state (matches_reference m line).2) (S i) = Some (merge r c).
Proof.
  intros Hm Hi Hp Hb Hc Hno. unfold matches_reference. rewrite Hno. simpl.
  rewrite shift_lookup by (rewrite ?length_insert; solve [lia | by eapply lookup_lt_Some]). simpl. unfold moved.
  replace (before _ _ i) with (Some r).
  - rewrite Hp. simpl. by rewrite Hc.
  - rewrite <-Hb. destruct i as [|j]; [done|]. simpl. by rewrite list_lookup_insert_ne by lia.
Qed.

Lemma reports_from m lines line i r captured issues issue m' :
  matcher_ok m → before (Some no_issue) (pm_state m) i = Some r →
  captured_by (drop i (pm_patterns m)) (lines ++ [line]) r = Some captured →
  run_lines m (lines ++ [line]) = Ok (issues ++ [issue], m') → Forall (λ issue, issue = None) issues →
  issue = Some (finish_for m captured).
Proof.
  revert m i r issues; induction lines as [|l lines IH]; intros m i r issues Hm Hb Hcap Hrun Hnone.
  - simpl app in *. rewrite run_lines_cons in Hrun by done. cbn in Hrun.
    unfold matches_reference in Hrun. rewrite (completed_here m line i r captured) in Hrun by done.
    destruct issues as [|x [|]]; by injection Hrun.
  - cbn [app] in *. rewrite run_lines_cons in Hrun by done.
    apply obind_Ok in Hrun as ([issues' m1] & Hrun & Heq).
    destruct (drop i (pm_patterns m)) as [|p ps] eqn:Hd; [done|]. cbn [captured_by] in Hcap.
    destruct (ProblemMatcher.captured p l) as [c|] eqn:Hc; [|done]. cbn [mbind option_bind] in Hcap.
    pose proof (f_equal length Hd) as Hlen. rewrite length_drop in Hlen. simpl in Hlen.
    assert (ps ≠ []) as Hps by (intros ->; by destruct lines).
    assert (pm_patterns m !! i = Some p) as Hp.
    { rewrite <-(Nat.add_0_r i), <-lookup_drop, Hd. done. }
    assert (drop (S i) (pm_patterns m) = ps) as Hd'.
    { by rewrite <-Nat.add_1_r, <-drop_drop, Hd. }
    destruct issues as [|x issues].
    { destruct (run_lines_total _ (lines ++ [line]) (matcher_ok_reference m l Hm)) as (all & m2 & Hall & Hl).
      rewrite Hrun in Hall. injection Hall as <- <-. injection Heq as _ -> _.
      rewrite length_app in Hl. simpl in Hl. lia. }
    injection Heq as <- -> ->. apply Forall_cons in Hnone as [Hx Hnone].
    assert (completed m l = None) as Hno.
    { unfold matches_reference in Hx. by destruct (completed m l). }
    assert (finish_for m = finish_for (matches_reference m l).2) as ->.
    { unfold matches_reference, finish_for. by destruct (completed m l). }
    apply (IH _ (S i) (merge r c) issues); try done.
    + by apply matcher_ok_reference.
    + apply (shift_advances m l i p); try done. rewrite (mo_state m Hm).
      destruct ps; [done|]. simpl in Hlen. lia.
    + by rewrite patterns_reference, Hd'.
Qed.

(** lines that match the patterns of a matcher one after the other are
    reported: whatever the matcher has in progress, unless it reports an issue
    on an earlier one of them, the line that matches the last pattern reports
    what the patterns captured of these lines. *)
Theorem matcher_reports_consecutive_lines m lines line captured :
  matcher_ok m → captured_by (pm_patterns m) (lines ++ [line]) no_issue = Some captured →
  ∃ issues issue m', run_lines m (lines ++ [line]) = Ok (issues ++ [issue], m') ∧ length issues = length lines ∧
    (Forall (λ issue, issue = None) issues → issue = Some (finish_for m captured)).
Proof.
  intros Hm Hcap. destruct (run_lines_total m (lines ++ [line]) Hm) as (all & m' & Hrun & Hl).
  rewrite length_app in Hl. simpl in Hl.
  destruct all as [|issue issues _] using rev_ind; simpl in Hl; [lia|]. rewrite length_app in Hl. simpl in Hl.
  exists issues, issue, m'. split; [done|]. split; [lia|]. intros Hnone.
  by apply (reports_from m lines line 0 no_issue captured issues issue m').
Qed.
End spec.

Lemma matches_is_shift_register_witness :
  matches demo_matcher "A:main.c" = Ok (matches_reference demo_matcher "A:main.c").
Proof. exact (matches_is_shift_register demo_matcher "A:main.c" demo_matcher_ok). Defined.

Lemma matcher_reports_its_patterns_witness :
  ∃ issues m', run_lines demo_matcher ["A:main.c"; "B:"; "C:"; "D:unused"] = Ok (issues, m') ∧ length issues = 4 ∧
    ∀ i issue, issues !! i = Some (Some issue) →
      ∃ line earlier captured, ["A:main.c"; "B:"; "C:"; "D:unused"] !! i = Some line ∧
        earlier `sublist_of` take i ["A:main.c"; "B:"; "C:"; "D:unused"] ∧
        captured_by (pm_patterns demo_matcher) (earlier ++ [line]) no_issue = Some captured ∧
        issue = finish_for demo_matcher captured.
Proof.
  apply (matcher_reports_its_patterns demo_matcher ["A:main.c"; "B:"; "C:"; "D:unused"] demo_matcher_ok).
  repeat constructor.
Defined.

Lemma matcher_reports_consecutive_lines_witness :
  ∃ issues issue m', run_lines demo_matcher (["A:main.c"; "B:"; "C:"] ++ ["D:unused"]) = Ok (issues ++ [issue], m') ∧
    length issues = 3 ∧
    (Forall (λ issue, issue = None) issues →
     issue = Some (finish_for demo_matcher
       (mkCaptured (Some "main.c") None None None None (Some "unused") None))).
Proof.
  apply (matcher_reports_consecutive_lines demo_matcher ["A:main.c"; "B:"; "C:"] "D:unused"
    (mkCaptured (Some "main.c") None None None None (Some "unused") None) demo_matcher_ok).
  vm_compute. reflexivity.
Defined.

(** A line that breaks the sequence does not stop a matcher of four patterns:
    the cell behind the broken one keeps its value and is continued by the next
    line, so [A B X C D] is reported like [A B C D]. *)
Example stale_cell_is_continued :
  (λ '(issues, _), last issues) <$>
    (match run_lines demo_matcher ["A:main.c"; "B:"; "another line"; "C:"; "D:unused"] with
     | Ok r => Some r | _ => None end) =
  Some (Some (Some (mkMatched "lint"
    (mkCaptured (Some "main.c") None None (Some "warning") None (Some "unused") None)))).
Proof. vm_compute. reflexivity. Qed.
