(* ===== verification/MatcherRegistry.v ===== *)
(** * The registry of problem matchers (crates/gitzero-agent, problem_matcher.rs)

    The matchers each job has registered, the containment of the files they are
    read from, the scan of a line, and the annotation made of an issue. *)

From S2P Require Import Prelude RustStr RustText UnixPath OrdMap Protocol Annotations ProblemMatcher MatcherSpec.

Section registry.
Context `{CL : CaptureLib} `{MF : MatcherFiles}.

Record ProblemMatcherRegistry := mkRegistry {
  fallback_workspace : option string;
  workspaces : gmap string string;
  matcher_root : option string;
  scopes : gmap string (list ProblemMatcher);
}.

#[export] Instance ProblemMatcherRegistry_updatable : Updatable ProblemMatcherRegistry := λ r,
  mkRegistry (fallback_workspace r) (workspaces r) (matcher_root r) (scopes r).

Definition new_registry (workspace root : string) : ProblemMatcherRegistry :=
  mkRegistry (Some workspace) ∅ (Some root) ∅.

Definition register_workspace (scope workspace : string) (r : ProblemMatcherRegistry) : ProblemMatcherRegistry :=
  r <| workspaces := <[scope := workspace]> (workspaces r) |>.

Definition workspace (r : ProblemMatcherRegistry) (scope : string) : option string :=
  or_else (workspaces r !! scope) (fallback_workspace r).

(** ** Reading a configuration *)

Definition read_config (r : ProblemMatcherRegistry) (scope path : string) : outcome string ProblemMatcherFile :=
  reject_if (is_empty path || bool_decide (4096 < slen path) || has_line_break path)
    "problem matcher file path is invalid" ;?
  let? workspace := ok_or (workspace r scope) "problem matcher workspace is unavailable" in
  let? matcher_root := ok_or (matcher_root r) "problem matcher root is unavailable" in
  let candidate := if is_absolute path then path else join workspace path in
  let? matcher_root := map_err (λ _, "resolve isolated problem matcher root") (canonicalize matcher_root) in
  let? candidate := map_err (λ _, "resolve problem matcher configuration") (canonicalize candidate) in
  reject_if (negb (path_starts_with candidate matcher_root))
    "problem matcher configuration is outside the isolated run directory" ;?
  let? length := map_err (λ _, "inspect problem matcher file") (file_metadata candidate) in
  reject_if (negb (is_regular candidate) || bool_decide (MAX_MATCHER_CONFIG_BYTES < length)%Z)
    "problem matcher configuration is not a bounded regular file" ;?
  let? content := map_err (λ _, "read problem matcher configuration") (file_content candidate) in
  let source := stake (Z.to_nat (MAX_MATCHER_CONFIG_BYTES + 1)) content in
  reject_if (bool_decide (MAX_MATCHER_CONFIG_BYTES < Z.of_nat (slen source))%Z)
    "problem matcher configuration exceeds its size limit" ;?
  map_err (λ _, "parse problem matcher configuration") (parse_matcher_file source).

(** ** Registering and removing *)

Definition owner_key (m : ProblemMatcher) : string := to_ascii_lowercase (pm_owner m).

Definition compile_into (config : ProblemMatcherConfig) (acc : list ProblemMatcher * gset string)
    : outcome string (list ProblemMatcher * gset string) :=
  let '(matchers, owners) := acc in
  let? compiled := compile_matcher config in
  reject_if (bool_decide (owner_key compiled ∈ owners))
    "problem matcher file contains a duplicate owner" ;?
  Ok (matchers ++ [compiled], {[owner_key compiled]} ∪ owners).

Definition read_matchers (r : ProblemMatcherRegistry) (scope path : string)
    : outcome string (list ProblemMatcher * gset string) :=
  let? config := read_config r scope path in
  reject_if (bool_decide (MAX_MATCHERS_PER_CONFIG < length config))
    "problem matcher file contains too many matchers" ;?
  for_each compile_into config ([], ∅).

(** The active matchers are drained before the total is checked, so an error
    there leaves the scope with none. *)
Definition add_from_file (scope path : string) (r : ProblemMatcherRegistry)
    : ProblemMatcherRegistry * outcome string unit :=
  match read_matchers r scope path with
  | Err e => (r, Err e)
  | Panic => (r, Panic)
  | Ok (matchers, new_owners) =>
      if is_nil matchers then (r, Ok tt)
      else
        let active := default [] (scopes r !! scope) in
        let retained := base.filter (λ m, owner_key m ∉ new_owners) active in
        if bool_decide (MAX_MATCHERS_PER_JOB < length matchers + length retained)
        then (r <| scopes := <[scope := []]> (scopes r) |>, Err "job registered too many problem matchers")
        else (r <| scopes := <[scope := matchers ++ retained]> (scopes r) |>, Ok tt)
  end.

(** [if let Some(matchers) = self.scopes.get_mut(scope)] *)
Definition edit_scope (f : list ProblemMatcher → list ProblemMatcher) (scope : string)
    (r : ProblemMatcherRegistry) : ProblemMatcherRegistry :=
  match scopes r !! scope with
  | Some matchers => r <| scopes := <[scope := f matchers]> (scopes r) |>
  | None => r
  end.

Definition remove_owner (scope owner : string) (r : ProblemMatcherRegistry)
    : ProblemMatcherRegistry * outcome string unit :=
  match validate_owner owner with
  | Ok _ => (edit_scope (base.filter (λ m, eq_ignore_ascii_case (pm_owner m) owner = false)) scope r, Ok tt)
  | result => (r, result)
  end.

Definition collect_owner (config : ProblemMatcherConfig) (owners : gset string)
    : outcome string (gset string) :=
  validate_owner (pmc_owner config) ;?
  Ok ({[to_ascii_lowercase (pmc_owner config)]} ∪ owners).

Definition read_owners (r : ProblemMatcherRegistry) (scope path : string) : outcome string (gset string) :=
  let? config := read_config r scope path in
  reject_if (bool_decide (MAX_MATCHERS_PER_CONFIG < length config))
    "problem matcher file contains too many matchers" ;?
  for_each collect_owner config ∅.

Definition remove_from_file (scope path : string) (r : ProblemMatcherRegistry)
    : ProblemMatcherRegistry * outcome string unit :=
  match read_owners r scope path with
  | Ok owners => (edit_scope (base.filter (λ m, owner_key m ∉ owners)) scope r, Ok tt)
  | Err e => (r, Err e)
  | Panic => (r, Panic)
  end.

Definition reset_scope (scope : string) (r : ProblemMatcherRegistry) : ProblemMatcherRegistry :=
  edit_scope (fmap reset) scope r.

(** ** From an issue to an annotation *)

(** The path of a file in the workspace, relative to it. *)
Definition matcher_path (file from_path workspace : option string) : option string :=
  workspace ← workspace;
  file ← file;
  let file := trim file in
  if is_empty file || has_line_break file then None
  else
    let candidate := replace_byte "\" "/" file in
    let candidate :=
      if is_absolute candidate then candidate
      else
        let candidate :=
          match from_path with
          | Some from_path =>
              if is_empty (trim from_path) then candidate
              else match parent (replace_byte "\" "/" from_path) with
                   | Some (c :: cs) => join (path_of (c :: cs)) candidate
                   | _ => candidate
                   end
          | None => candidate
          end in
        join workspace candidate in
    match canonicalize workspace, canonicalize candidate with
    | Ok workspace, Ok candidate =>
        relative ← strip_components (components workspace) (components candidate);
        if negb (is_regular candidate) then None
        else
          path ← to_str (path_of relative);
          let path := replace_byte "\" "/" path in
          if negb (is_empty path) && bool_decide (slen path ≤ 4096) then Some path else None
    | _, _ => None
    end.

Definition severity_level (severity : string) : option CheckAnnotationLevel :=
  let severity := to_ascii_lowercase severity in
  if bool_decide (severity = "error") then Some Failure
  else if bool_decide (severity = "warning") then Some Warning
  else if bool_decide (severity = "notice") then Some Notice
  else None.

Definition issue_title (issue : MatchedIssue) : string :=
  let code := trim <$> ci_code (mi_captured issue) in
  let title := match code with
               | Some code => if is_empty code then mi_owner issue else code
               | None => mi_owner issue
               end in
  truncate_utf8_bytes title MAX_MATCHER_TITLE_BYTES.

Definition into_annotation (issue : MatchedIssue) (workspace : option string) : option CheckAnnotation :=
  let captured := mi_captured issue in
  level ← severity_level (default "error" (ci_severity captured));
  message ← ci_message captured;
  if is_empty (trim message) then None
  else
    let start_line := default 1%Z (coordinate (ci_line captured)) in
    let start_column := coordinate (ci_column captured) in
    Some (mkAnnotation
      (default ".github" (matcher_path (ci_file captured) (ci_from_path captured) workspace))
      start_line start_line start_column start_column level
      (truncate_utf16 message MAX_MATCHER_MESSAGE_UTF16_UNITS) (Some (issue_title issue))).

(** ** Scanning a line *)

Definition reset_others (index : nat) (matchers : list ProblemMatcher) : list ProblemMatcher :=
  imap (λ other m, if bool_decide (other = index) then m else reset m) matchers.

Fixpoint scan_matchers (workspace : option string) (line : string) (indices : list nat)
    (matchers : list ProblemMatcher) : outcome string (option CheckAnnotation * list ProblemMatcher) :=
  match indices with
  | [] => Ok (None, matchers)
  | index :: indices =>
      let? m := expect (matchers !! index) in
      let? '(issue, m) := matches m line in
      let matchers := <[index := m]> matchers in
      match issue with
      | None => scan_matchers workspace line indices matchers
      | Some issue =>
          let matchers := reset_others index matchers in
          match into_annotation issue workspace with
          | Some annotation => Ok (Some annotation, matchers)
          | None => scan_matchers workspace line indices matchers
          end
      end
  end.

Definition scan (scope line : string) (r : ProblemMatcherRegistry)
    : outcome string (option CheckAnnotation * ProblemMatcherRegistry) :=
  match scopes r !! scope with
  | None => Ok (None, r)
  | Some matchers =>
      let? '(annotation, matchers) :=
        scan_matchers (workspace r scope) (strip_ansi_color line) (seq 0 (length matchers)) matchers in
      Ok (annotation, r <| scopes := <[scope := matchers]> (scopes r) |>)
  end.

(** ** What a scope holds *)

Record scope_matchers_ok (matchers : list ProblemMatcher) : Prop := {
  sm_ok : Forall matcher_ok matchers;
  sm_owners : NoDup (owner_key <$> matchers);
  sm_count : length matchers ≤ MAX_MATCHERS_PER_JOB;
}.

Definition registry_ok (r : ProblemMatcherRegistry) : Prop :=
  ∀ scope matchers, scopes r !! scope = Some matchers → scope_matchers_ok matchers.

Lemma new_registry_ok w root : registry_ok (new_registry w root).
Proof. intros s ms. simpl. by rewrite lookup_empty. Qed.

Lemma registry_ok_insert r scope matchers :
  registry_ok r → scope_matchers_ok matchers →
  registry_ok (r <| scopes := <[scope := matchers]> (scopes r) |>).
Proof. intros Hr Hm s ms. simpl. rewrite lookup_insert_Some. intros [(_ & <-) | (_ & ?)]; [done|]. by eapply Hr. Qed.

Lemma empty_matchers_ok : scope_matchers_ok [].
Proof. split; simpl; [constructor..|lia]. Qed.

Lemma scope_or_empty_ok r scope : registry_ok r → scope_matchers_ok (default [] (scopes r !! scope)).
Proof. intros Hr. destruct (scopes r !! scope) eqn:E; [by eapply Hr|apply empty_matchers_ok]. Qed.

Lemma filter_matchers_ok (P : ProblemMatcher → Prop) `{!∀ m, Decision (P m)} matchers :
  scope_matchers_ok matchers → scope_matchers_ok (base.filter P matchers).
Proof.
  intros [H1 H2 H3]. split.
  - apply Forall_forall. intros m [_ Hm]%list_elem_of_filter. by eapply Forall_forall in H1.
  - eapply sublist_NoDup; [exact H2|]. apply fmap_sublist, sublist_filter.
  - pose proof (length_filter P matchers). lia.
Qed.

Lemma edit_scope_ok f scope r :
  registry_ok r → (∀ ms, scope_matchers_ok ms → scope_matchers_ok (f ms)) → registry_ok (edit_scope f scope r).
Proof.
  intros Hr Hf. unfold edit_scope. destruct (scopes r !! scope) as [ms|] eqn:E; [|done].
  apply registry_ok_insert; [done|]. by eapply Hf, Hr.
Qed.

Lemma reset_ok m : matcher_ok m → matcher_ok (reset m).
Proof. intros [H1 H2 H3]. split; simpl; [done|by rewrite length_fmap|done]. Qed.

Lemma scope_matchers_map f matchers :
  (∀ i m, matcher_ok m → matcher_ok (f i m) ∧ pm_owner (f i m) = pm_owner m) →
  scope_matchers_ok matchers → scope_matchers_ok (imap f matchers).
Proof.
  intros Hf [H1 H2 H3]. split; [| |by rewrite length_imap].
  - apply Forall_lookup. intros i m. rewrite list_lookup_imap. intros (m0 & Hm & ->)%fmap_Some.
    apply Hf. by eapply Forall_lookup_1.
  - replace (owner_key <$> imap f matchers) with (owner_key <$> matchers); [done|].
    apply list_eq. intros i. rewrite !list_lookup_fmap, list_lookup_imap.
    destruct (matchers !! i) as [m|] eqn:E; [|done]. simpl. unfold owner_key.
    destruct (Hf i m) as [_ ->]; [by eapply Forall_lookup_1|done].
Qed.

Lemma reset_others_ok index matchers : scope_matchers_ok matchers → scope_matchers_ok (reset_others index matchers).
Proof.
  apply scope_matchers_map. intros i m Hm. case_bool_decide; [done|]. split; [by apply reset_ok|done].
Qed.

Lemma reset_all_ok matchers : scope_matchers_ok matchers → scope_matchers_ok (reset <$> matchers).
Proof.
  replace (reset <$> matchers) with (imap (λ _, reset) matchers).
  - apply scope_matchers_map. intros i m Hm. split; [by apply reset_ok|done].
  - apply list_eq. intros i. by rewrite list_lookup_fmap, list_lookup_imap.
Qed.

(** ** Reading keeps inside the run directory and never panics *)

Lemma read_config_no_panic r scope path : read_config r scope path ≠ Panic.
Proof.
  unfold read_config. rewrite obind_Panic. intros [H | (? & _ & H)]; [by apply reject_if_Panic in H|].
  apply obind_Panic in H as [H | (? & _ & H)]; [by apply ok_or_Panic in H|].
  apply obind_Panic in H as [H | (? & _ & H)]; [by apply ok_or_Panic in H|].
  apply obind_Panic in H as [H | (? & _ & H)]; [by apply map_err_Panic, canonicalize_no_panic in H|].
  apply obind_Panic in H as [H | (? & _ & H)]; [by apply map_err_Panic, canonicalize_no_panic in H|].
  apply obind_Panic in H as [H | (? & _ & H)]; [by apply reject_if_Panic in H|].
  apply obind_Panic in H as [H | (? & _ & H)]; [by apply map_err_Panic, file_metadata_no_panic in H|].
  apply obind_Panic in H as [H | (? & _ & H)]; [by apply reject_if_Panic in H|].
  apply obind_Panic in H as [H | (? & _ & H)]; [by apply map_err_Panic, file_content_no_panic in H|].
  apply obind_Panic in H as [H | (? & _ & H)]; [by apply reject_if_Panic in H|].
  by apply map_err_Panic, parse_matcher_file_no_panic in H.
Qed.

Lemma read_matchers_spec r scope path :
  outcome_spec (read_matchers r scope path)
    (λ '(matchers, owners), Forall matcher_ok matchers ∧ NoDup (owner_key <$> matchers) ∧
       ∀ k, k ∈ owners ↔ k ∈ owner_key <$> matchers) (λ _, True).
Proof.
  unfold read_matchers. apply outcome_spec_bind.
  destruct (read_config r scope path) as [config| |] eqn:E; simpl; [|done|by apply read_config_no_panic in E].
  case_bool_decide; simpl; [done|].
  refine (outcome_spec_for_each compile_into (λ _ (acc : list ProblemMatcher * gset string),
    let '(matchers, owners) := acc in Forall matcher_ok matchers ∧ NoDup (owner_key <$> matchers) ∧
       ∀ k, k ∈ owners ↔ k ∈ owner_key <$> matchers) (λ _, True) config ([], ∅) _ _).
  { split_and!; [constructor..|]. intros k. simpl. rewrite elem_of_nil. set_solver. }
  intros _ c _ [matchers owners] _ (Hok & Hnd & Hk). unfold compile_into.
  apply outcome_spec_bind. eapply outcome_spec_mono; [apply compile_matcher_ok| |done].
  intros m (Hm & _ & _). cbn beta. case_bool_decide as Hin; cbn [reject_if obind outcome_spec]; [done|].
  rewrite Hk in Hin. split_and!.
  - apply Forall_app. split; [done|]. by apply Forall_singleton.
  - rewrite fmap_app. apply NoDup_app. split_and!; [done| |apply NoDup_singleton].
    by intros x Hx ->%list_elem_of_singleton.
  - intros k. rewrite fmap_app, elem_of_app, <-Hk. change (owner_key <$> [m]) with [owner_key m].
    rewrite list_elem_of_singleton. set_solver.
Qed.

Lemma add_from_file_ok scope path r :
  registry_ok r →
  (add_from_file scope path r).2 ≠ Panic ∧ registry_ok (add_from_file scope path r).1.
Proof.
  intros Hr. unfold add_from_file. pose proof (read_matchers_spec r scope path) as Hs.
  destruct (read_matchers r scope path) as [[matchers owners]| |]; simpl in Hs; [|done..].
  destruct Hs as (Hok & Hnd & Hk). destruct (is_nil matchers); [done|].
  destruct (filter_matchers_ok (λ m, owner_key m ∉ owners) _ (scope_or_empty_ok r scope Hr)) as [R1 R2 R3].
  case_bool_decide; simpl; (split; [done|]); apply registry_ok_insert; try done; [apply empty_matchers_ok|].
  split; [by apply Forall_app| |rewrite length_app; lia].
  rewrite fmap_app. apply NoDup_app. split_and!; [done| |done].
  intros k Hin (m & -> & [Hno _]%list_elem_of_filter)%list_elem_of_fmap. by apply Hno, Hk.
Qed.

Lemma remove_owner_ok scope owner r :
  registry_ok r → (remove_owner scope owner r).2 ≠ Panic ∧ registry_ok (remove_owner scope owner r).1.
Proof.
  intros Hr. unfold remove_owner. destruct (validate_owner owner) eqn:E; simpl; [|done|by apply reject_if_Panic in E].
  split; [done|]. apply edit_scope_ok; [done|]. intros ms. apply filter_matchers_ok.
Qed.

Lemma read_owners_no_panic r scope path : read_owners r scope path ≠ Panic.
Proof.
  unfold read_owners. rewrite obind_Panic. intros [H | (config & _ & H)]; [by apply read_config_no_panic in H|].
  apply obind_Panic in H as [H | (? & _ & H)]; [by apply reject_if_Panic in H|].
  revert H. apply (for_each_no_panic _ (λ _, True)); [done| |done]. intros c s _ _. unfold collect_owner.
  rewrite obind_Panic. intros [H | (? & _ & ?)]; [by apply reject_if_Panic in H|done].
Qed.

Lemma remove_from_file_ok scope path r :
  registry_ok r → (remove_from_file scope path r).2 ≠ Panic ∧ registry_ok (remove_from_file scope path r).1.
Proof.
  intros Hr. unfold remove_from_file. pose proof (read_owners_no_panic r scope path).
  destruct (read_owners r scope path); simpl; [|done..].
  split; [done|]. apply edit_scope_ok; [done|]. intros ms. apply filter_matchers_ok.
Qed.

Lemma scan_matchers_spec ws line indices matchers :
  scope_matchers_ok matchers → Forall (λ i, i < length matchers) indices →
  outcome_spec (scan_matchers ws line indices matchers)
    (λ '(annotation, matchers'), scope_matchers_ok matchers' ∧
       ∀ a, annotation = Some a → ∃ issue, into_annotation issue ws = Some a) (λ _, False).
Proof.
  revert matchers; induction indices as [|i indices IH]; intros matchers Hm; simpl; [done|].
  intros [Hi Hrest]%Forall_cons. destruct (lookup_lt_is_Some_2 matchers i Hi) as [m Hlook]. rewrite Hlook. simpl.
  assert (matcher_ok m) as Hmok by (eapply Forall_lookup_1; [apply sm_ok|]; done).
  rewrite (matches_reference_ok m line Hmok). simpl.
  destruct (matches_reference m line) as [issue m'] eqn:E.
  assert (scope_matchers_ok (<[i := m']> matchers)) as Hins.
  { replace (<[i := m']> matchers) with (imap (λ j x, if bool_decide (j = i) then (matches_reference x line).2 else x) matchers).
    - apply scope_matchers_map; [|done]. intros j x Hx. case_bool_decide; [|done].
      split; [by apply matcher_ok_reference|]. unfold matches_reference. by destruct (completed x line).
    - apply list_eq. intros j. rewrite list_lookup_imap. destruct (decide (j = i)) as [->|Hne].
      + rewrite Hlook, list_lookup_insert_eq by done. simpl. rewrite bool_decide_eq_true_2 by done. by rewrite E.
      + rewrite list_lookup_insert_ne by done. rewrite bool_decide_eq_false_2 by done. by destruct (matchers !! j). }
  destruct issue as [issue|].
  - destruct (into_annotation issue ws) as [a|] eqn:Ha; simpl.
    + split; [by apply reset_others_ok|]. intros a' [= <-]. by exists issue.
    + apply IH; [by apply reset_others_ok|]. unfold reset_others. by rewrite length_imap, length_insert.
  - apply IH; [done|]. by rewrite length_insert.
Qed.

Lemma scan_spec scope line r :
  registry_ok r →
  outcome_spec (scan scope line r)
    (λ '(annotation, r'), registry_ok r' ∧ workspaces r' = workspaces r ∧ fallback_workspace r' = fallback_workspace r ∧
       matcher_root r' = matcher_root r ∧ (∀ other, other ≠ scope → scopes r' !! other = scopes r !! other) ∧
       ∀ a, annotation = Some a → ∃ issue, into_annotation issue (workspace r scope) = Some a) (λ _, False).
Proof.
  intros Hr. unfold scan. destruct (scopes r !! scope) as [ms|] eqn:E; [|by split_and!].
  apply outcome_spec_bind. eapply outcome_spec_mono; [apply scan_matchers_spec| |done].
  - by eapply Hr.
  - apply Forall_forall. intros i ?%elem_of_seq. lia.
  - intros [a ms'] [Hok Ha]. cbn beta iota. split_and!; try done; simpl.
    + by apply registry_ok_insert.
    + intros other Hne. by rewrite lookup_insert_ne.
Qed.

(** ** What an issue becomes *)

Lemma coordinate_value_range value n : coordinate value = Some n → (1 ≤ n ≤ i32_max)%Z.
Proof.
  unfold coordinate. destruct value as [v|]; [|done]. simpl. destruct (parse_unsigned _ v); [|done].
  simpl. case_bool_decide; [|done]. intros [= <-]. lia.
Qed.

Lemma start_line_range value : (1 ≤ default 1%Z (coordinate value) ≤ i32_max)%Z.
Proof.
  destruct (coordinate value) eqn:E; cbn [default]; [by eapply coordinate_value_range|].
  unfold i32_max, default. simpl. lia.
Qed.

Lemma utf16_prefix_bound maximum units cs :
  units ≤ maximum → units + sum_list (len_utf16 <$> utf16_prefix maximum units cs) ≤ maximum.
Proof.
  revert units; induction cs as [|c cs IH]; intros units Hu; simpl; [lia|].
  case_bool_decide; simpl; [lia|]. specialize (IH (units + len_utf16 c) ltac:(lia)).
  unfold id, fmap in *. lia.
Qed.

Lemma utf16_prefix_take maximum units cs : ∃ k, utf16_prefix maximum units cs = take k cs.
Proof.
  revert units; induction cs as [|c cs IH]; intros units; simpl; [by exists 0|].
  case_bool_decide; [by exists 0|]. destruct (IH (units + len_utf16 c)) as [k ->]. by exists (S k).
Qed.

(** The path of a file the workspace holds, as it is reported. *)
Definition workspace_file (ws path : string) : Prop :=
  ∃ root target relative, canonicalize ws = Ok root ∧ is_regular target = true ∧
    components target = components root ++ relative ∧ path = replace_byte "\" "/" (path_of relative).

Lemma matcher_path_spec file from_path ws path :
  matcher_path file from_path ws = Some path →
  path ≠ "" ∧ slen path ≤ 4096 ∧ ∃ w, ws = Some w ∧ workspace_file w path.
Proof.
  unfold matcher_path. destruct ws as [w|]; [|done]. destruct file as [file|]; [|done]. simpl.
  destruct (_ || _); [done|].
  set (candidate := if is_absolute _ then _ else _). destruct (canonicalize w) as [root| |] eqn:Hw; [|done..].
  destruct (canonicalize candidate) as [target| |]; [|done..].
  destruct (strip_components _ _) as [relative|] eqn:Hs; [|done]. simpl. apply strip_components_Some in Hs.
  destruct (is_regular target) eqn:Hreg; [|done]. simpl. unfold to_str. destruct (valid_utf8 _); [|done]. simpl.
  destruct (_ && _) eqn:Hb; [|done]. apply andb_true_iff in Hb as [Hne%negb_true_iff Hl%bool_decide_eq_true].
  intros [= <-]. split_and!; [by intros He; rewrite He in Hne|done|]. exists w. split; [done|].
  by exists root, target, relative.
Qed.

Lemma truncate_utf16_spec value maximum :
  truncate_utf16 value maximum = value ∧ utf16_len value ≤ maximum ∨
  ∃ k, truncate_utf16 value maximum = sconcat (take k (chars value)) ∧
    sum_list (len_utf16 <$> take k (chars value)) ≤ maximum.
Proof.
  unfold truncate_utf16. case_bool_decide; [by left|right].
  destruct (utf16_prefix_take maximum 0 (chars value)) as [k Hk]. exists k.
  rewrite Hk. split; [done|]. rewrite <-Hk. apply (utf16_prefix_bound maximum 0). lia.
Qed.

Lemma into_annotation_lines issue ws a :
  into_annotation issue ws = Some a →
  an_start_line a = an_end_line a ∧ (1 ≤ an_start_line a ≤ i32_max)%Z ∧
  an_start_column a = an_end_column a ∧ (∀ c, an_start_column a = Some c → 1 ≤ c ≤ i32_max)%Z.
Proof.
  unfold into_annotation. destruct (severity_level _) as [level|]; [|done]. simpl.
  destruct (ci_message _) as [message|]; [|done]. simpl. destruct (is_empty (trim message)); [done|].
  intros [= <-]. simpl. split; [done|]. split; [apply start_line_range|]. split; [done|].
  intros c. apply coordinate_value_range.
Qed.

(** the annotation made of a problem matcher's issue is one line and one
    column, both positive 32-bit signed numbers; its message is not blank and at
    most 4096 UTF-16 units of whole characters of what was captured; its title
    has at most 255 bytes; and its path is [.github] or that of a regular file
    whose resolved path lies below the resolved workspace of the job, so a
    matcher cannot point outside it. *)
Theorem matched_annotation_confined issue ws a :
  into_annotation issue ws = Some a →
  an_start_line a = an_end_line a ∧ (1 ≤ an_start_line a ≤ i32_max)%Z ∧
  an_start_column a = an_end_column a ∧ (∀ c, an_start_column a = Some c → 1 ≤ c ≤ i32_max)%Z ∧
  (∃ message, ci_message (mi_captured issue) = Some message ∧ trim message ≠ "" ∧
     (an_message a = message ∧ utf16_len message ≤ MAX_MATCHER_MESSAGE_UTF16_UNITS ∨
      ∃ k, an_message a = sconcat (take k (chars message)) ∧
        sum_list (len_utf16 <$> take k (chars message)) ≤ MAX_MATCHER_MESSAGE_UTF16_UNITS)) ∧
  (∀ t, an_title a = Some t → slen t ≤ MAX_MATCHER_TITLE_BYTES) ∧
  (an_path a = ".github" ∨ ∃ w, ws = Some w ∧ workspace_file w (an_path a) ∧ slen (an_path a) ≤ 4096).
Proof.
  intros Ha. destruct (into_annotation_lines issue ws a Ha) as (H1 & H2 & H3 & H4).
  split_and!; try done; try apply H2; revert Ha; unfold into_annotation;
    destruct (severity_level _) as [level|]; try done; simpl;
    destruct (ci_message _) as [message|] eqn:Hm; try done; simpl;
    destruct (is_empty (trim message)) eqn:Hblank; try done; intros [= <-]; simpl.
  - exists message. split; [done|]. split; [by intros He; rewrite He in Hblank|]. apply truncate_utf16_spec.
  - intros t [= <-]. apply truncate_utf8_bytes_le.
  - destruct (matcher_path _ _ ws) as [path|] eqn:Hp; simpl; [right|by left].
    apply matcher_path_spec in Hp as (_ & ? & w & ? & ?). eauto.
Qed.

(** every operation of the registry keeps, in every scope, matchers that are
    compiled (a state cell per pattern but the last), at most 128 of them, no
    two with the same owner up to case, and none panics: registering or
    removing from a file, removing an owner, resetting, and scanning a line,
    which never fails. *)
Theorem registry_operations_keep_invariant r scope text :
  registry_ok r →
  (registry_ok (add_from_file scope text r).1 ∧ (add_from_file scope text r).2 ≠ Panic) ∧
  (registry_ok (remove_from_file scope text r).1 ∧ (remove_from_file scope text r).2 ≠ Panic) ∧
  (registry_ok (remove_owner scope text r).1 ∧ (remove_owner scope text r).2 ≠ Panic) ∧
  registry_ok (reset_scope scope r) ∧
  ∃ annotation r', scan scope text r = Ok (annotation, r') ∧ registry_ok r'.
Proof.
  intros Hr. split_and!.
  - by apply add_from_file_ok.
  - by apply add_from_file_ok.
  - by apply remove_from_file_ok.
  - by apply remove_from_file_ok.
  - by apply remove_owner_ok.
  - by apply remove_owner_ok.
  - by apply edit_scope_ok, reset_all_ok.
  - pose proof (scan_spec scope text r Hr) as Hs.
    destruct (scan scope text r) as [[a r']| |]; simpl in Hs; [|done..]. destruct Hs as [? _]. eauto.
Qed.
End registry.

Lemma matched_annotation_confined_witness :
  let issue := mkMatched "lint" (mkCaptured (Some "main.c") None None None None (Some "unused") None) in
  let a := mkAnnotation "main.c" 1 1 None None Failure "unused" (Some "lint") in
  into_annotation issue (Some "/run/repo") = Some a ∧
  (an_path a = ".github" ∨ ∃ w, Some "/run/repo" = Some w ∧ workspace_file w (an_path a) ∧ slen (an_path a) ≤ 4096).
Proof.
  intros issue a. assert (into_annotation issue (Some "/run/repo") = Some a) as H by (vm_compute; reflexivity).
  split; [exact H|]. pose proof (matched_annotation_confined issue (Some "/run/repo") a H) as Hc.
  exact (proj2 (proj2 (proj2 (proj2 (proj2 (proj2 Hc)))))).
Defined.

Definition demo_registry : ProblemMatcherRegistry :=
  (add_from_file "plan/job" "lint.json" (new_registry "/run/repo" "/run")).1.

(** The registry holds one matcher and scanning keeps the invariant. *)
Lemma registry_operations_keep_invariant_witness :
  length <$> (scopes demo_registry !! "plan/job") = Some 1 ∧
  ∃ annotation r', scan "plan/job" "A:main.c" demo_registry = Ok (annotation, r') ∧ registry_ok r'.
Proof.
  split; [vm_compute; reflexivity|].
  pose proof (registry_operations_keep_invariant demo_registry "plan/job" "A:main.c"
    (proj2 (add_from_file_ok "plan/job" "lint.json" _ (new_registry_ok "/run/repo" "/run")))) as Hr.
  exact (proj2 (proj2 (proj2 (proj2 Hr)))).
Defined.
