(* ===== verification/WorkflowCommands.v ===== *)
(** * Workflow commands (crates/gitzero-agent, executor.rs)

    The processor that reads the log lines of the steps: masks, stop tokens,
    problem matchers, annotations, legacy outputs and state, partial lines, and
    the relay that masks every message that leaves the agent.  A method that
    takes [&mut self] and returns a [Result] is a function from the processor to
    the processor it leaves and the result: an error keeps what was changed
    before it. *)

From S2P Require Import Prelude RustStr RustText UnixPath OrdMap Protocol CommandFile Masking Annotations.
From S2P Require Import ProblemMatcher MatcherSpec MatcherRegistry.

Definition MAX_LOG_CHUNK_BYTES : Z := 32 * 1024.
Definition MAX_LEGACY_COMMAND_VALUES_PER_STEP : Z := 1024.
Definition MAX_LEGACY_COMMAND_BYTES_PER_STEP : Z := 1024 * 1024.
Definition MAX_ERROR_ANNOTATIONS_PER_STEP : nat := 10.
Definition MAX_WARNING_ANNOTATIONS_PER_STEP : nat := 10.
Definition MAX_NOTICE_ANNOTATIONS_PER_STEP : nat := 10.

Inductive WorkflowLineDisposition := Original | Suppress | Replace (replacement : string).

Inductive ProblemMatcherRemoval := Owner (owner : string) | File (path : string).

Record LegacyCommandValues := mkLegacy {
  lv_outputs : gmap string string;
  lv_state : gmap string string;
  lv_command_count : Z;
  lv_command_bytes : Z;
}.

#[export] Instance LegacyCommandValues_updatable : Updatable LegacyCommandValues := λ v,
  mkLegacy (lv_outputs v) (lv_state v) (lv_command_count v) (lv_command_bytes v).

Definition no_legacy : LegacyCommandValues := mkLegacy ∅ ∅ 0 0.

(** ** Parsing *)

Definition workflow_command_scope (step_id : string) : string :=
  match split "/" step_id with
  | plan :: job :: _ => plan +:+ "/" +:+ job
  | _ => step_id
  end.

Definition is_problem_matcher_workflow_command (line : string) : bool :=
  is_some (strip_prefix_ignore_ascii_case line "::add-matcher::") ||
  is_some (strip_prefix_ignore_ascii_case line "::remove-matcher::") ||
  is_some (strip_prefix_ignore_ascii_case line "::remove-matcher ").

(** The first property of that name. *)
Fixpoint find_property (name : string) (properties : list string) : option string :=
  match properties with
  | [] => None
  | property :: properties =>
      match split_once "=" property with
      | Some (key, value) =>
          if eq_ignore_ascii_case (trim key) name then Some (decode_workflow_command_property value)
          else find_property name properties
      | None => find_property name properties
      end
  end.

Definition removal_of (properties data : string) : outcome string (option ProblemMatcherRemoval) :=
  let owner := owner ← find_property "owner" (split "," properties);
               if is_empty owner then None else Some owner in
  let data := decode_workflow_command_data data in
  match owner, is_empty data with
  | Some owner, true => Ok (Some (Owner owner))
  | None, false => Ok (Some (File data))
  | Some _, false => Err "remove-matcher command cannot specify both owner and file"
  | None, true => Err "remove-matcher command must specify an owner or file"
  end.

Definition parse_remove_matcher_command (line : string) : outcome string (option ProblemMatcherRemoval) :=
  match strip_prefix_ignore_ascii_case line "::remove-matcher" with
  | None => Ok None
  | Some body =>
      match strip_prefix "::" body, strip_prefix " " body with
      | Some data, _ => removal_of "" data
      | None, Some properties =>
          let? '(properties, data) := ok_or (split_once_str "::" properties)
            "remove-matcher command is missing its data delimiter" in
          removal_of properties data
      | None, None => Ok None
      end
  end.

Definition parse_named_workflow_command (line command : string) : outcome string (option (string * string)) :=
  match strip_prefix_ignore_ascii_case line ("::" +:+ command +:+ " ") with
  | None => Ok None
  | Some command_body =>
      let? '(properties, data) := ok_or (split_once_str "::" command_body)
        ("legacy " +:+ command +:+ " command is missing its data delimiter") in
      let? name := ok_or (find_property "name" (split "," properties))
        ("legacy " +:+ command +:+ " command is missing its name property") in
      Ok (Some (name, decode_workflow_command_data data))
  end.

Definition invalid_legacy (name value : string) : bool :=
  is_empty name || bool_decide (1024 < slen name) ||
  contains_byte (λ c, bool_decide (c = nul) || bool_decide (c = lf) || bool_decide (c = cr) ||
                      bool_decide (c = "="%char)) name || has_nul value.

Section commands.
Context `{CL : CaptureLib} `{MF : MatcherFiles}.

(** ** The processor *)

Record WorkflowCommandProcessor := mkProcessor {
  global_masks : list string;
  cmd_scopes : gmap string WorkflowCommandScope;
  legacy_values : gmap string LegacyCommandValues;
  problem_matchers : ProblemMatcherRegistry;
  annotations : list CheckAnnotation;
  annotation_counts : gmap (string * CheckAnnotationLevel) nat;
  preprocessed_logs : gset Uuid;
  partial_commands : gmap (string * LogStream) string;
  fatal_error : option string;
}.

#[export] Instance WorkflowCommandProcessor_updatable : Updatable WorkflowCommandProcessor := λ p,
  mkProcessor (global_masks p) (cmd_scopes p) (legacy_values p) (problem_matchers p) (annotations p)
    (annotation_counts p) (preprocessed_logs p) (partial_commands p) (fatal_error p).

(** A method that changes the processor and may fail. *)
Definition cmd (A : Type) : Type :=
  WorkflowCommandProcessor → WorkflowCommandProcessor * outcome string A.

Definition cret {A : Type} (a : A) : cmd A := λ p, (p, Ok a).
Definition clift {A : Type} (c : outcome string A) : cmd A := λ p, (p, c).
Definition cbind {A B : Type} (c : cmd A) (k : A → cmd B) : cmd B := λ p,
  match c p with
  | (p, Ok a) => k a p
  | (p, Err e) => (p, Err e)
  | (p, Panic) => (p, Panic)
  end.

Notation "'do!' x ':=' c 'in' k" := (cbind c (λ x, k))
  (at level 10, x name, c at level 100, k at level 200).
Notation "c ';!' k" := (cbind c (λ _, k))
  (at level 100, k at level 200, right associativity).

Definition empty_processor (masks : list string) (registry : ProblemMatcherRegistry) : WorkflowCommandProcessor :=
  mkProcessor masks ∅ ∅ registry [] ∅ ∅ ∅ None.

Definition with_global_masks (masks : list string) (workspace root : string) : WorkflowCommandProcessor :=
  empty_processor (ordered_masks masks) (new_registry workspace root).

Definition mark_preprocessed_log (message_id : Uuid) (p : WorkflowCommandProcessor) : WorkflowCommandProcessor :=
  p <| preprocessed_logs := {[message_id]} ∪ preprocessed_logs p |>.

Definition take_preprocessed_log (message_id : Uuid) (p : WorkflowCommandProcessor)
    : WorkflowCommandProcessor * bool :=
  (p <| preprocessed_logs := preprocessed_logs p ∖ {[message_id]} |>,
   bool_decide (message_id ∈ preprocessed_logs p)).

Definition ensure_healthy (p : WorkflowCommandProcessor) : outcome string unit :=
  match fatal_error p with
  | Some error => Err ("workflow command processing failed: " +:+ error)
  | None => Ok tt
  end.

Definition register_global_mask (value : string) (p : WorkflowCommandProcessor) : WorkflowCommandProcessor :=
  if is_empty value || bool_decide (value ∈ global_masks p) then p
  else p <| global_masks := merge_sort longer_first (global_masks p ++ [value]) |>.

Definition register_repository_token_masks (base64 : string → string) (token : string)
    (p : WorkflowCommandProcessor) : WorkflowCommandProcessor :=
  let credential := base64 ("x-access-token:" +:+ token) in
  register_global_mask token
    (register_global_mask credential (register_global_mask ("AUTHORIZATION: basic " +:+ credential) p)).

Definition register_managed_secret_masks (secrets : SecretMap) (p : WorkflowCommandProcessor)
    : WorkflowCommandProcessor :=
  foldl (λ p value, register_global_mask value p) p
    (base.filter (λ value, is_empty value = false) (btree_values secrets)).

(** The first error is kept. *)
Definition fail (error : string) (p : WorkflowCommandProcessor) : WorkflowCommandProcessor :=
  p <| fatal_error := Some (default error (fatal_error p)) |>.

(** [self.scopes.entry(scope).or_default()] *)
Definition command_scope (p : WorkflowCommandProcessor) (scope_id : string) : WorkflowCommandScope :=
  default empty_scope (cmd_scopes p !! scope_id).

Definition set_scope (scope_id : string) (scope : WorkflowCommandScope) (p : WorkflowCommandProcessor)
    : WorkflowCommandProcessor :=
  p <| cmd_scopes := <[scope_id := scope]> (cmd_scopes p) |>.

Definition active_token (p : WorkflowCommandProcessor) (scope_id : string) : option string :=
  cmd_scopes p !! scope_id ≫= stop_token.

(** A method of the registry, on the processor's. *)
Definition on_registry (f : ProblemMatcherRegistry → ProblemMatcherRegistry * outcome string unit) : cmd unit := λ p,
  let '(registry, result) := f (problem_matchers p) in
  (p <| problem_matchers := registry |>, result).

(** ** Annotations *)

Definition per_step_limit (level : CheckAnnotationLevel) : nat :=
  match level with
  | Failure => MAX_ERROR_ANNOTATIONS_PER_STEP
  | Warning => MAX_WARNING_ANNOTATIONS_PER_STEP
  | Notice => MAX_NOTICE_ANNOTATIONS_PER_STEP
  end.

Definition annotation_count (p : WorkflowCommandProcessor) (key : string * CheckAnnotationLevel) : nat :=
  default 0 (annotation_counts p !! key).

Definition record_annotation (step_id : string) (annotation : CheckAnnotation) (p : WorkflowCommandProcessor)
    : WorkflowCommandProcessor :=
  let key := (step_id, an_level annotation) in
  let count := annotation_count p key in
  if bool_decide (per_step_limit (an_level annotation) ≤ count)
  then p <| annotation_counts := <[key := count]> (annotation_counts p) |>
  else
    let p := p <| annotation_counts := <[key := S count]> (annotation_counts p) |> in
    if bool_decide (length (annotations p) < MAX_CHECK_ANNOTATIONS)
    then p <| annotations := annotations p ++ [annotation] |> else p.

Definition take_annotations (p : WorkflowCommandProcessor) : WorkflowCommandProcessor * list CheckAnnotation :=
  (p <| annotations := [] |>, annotations p).

(** ** Legacy outputs and state *)

Definition legacy_of (p : WorkflowCommandProcessor) (step_id : string) : LegacyCommandValues :=
  default no_legacy (legacy_values p !! step_id).

Definition record_legacy_value (step_id name value : string) (state : bool) : cmd unit := λ p,
  if invalid_legacy name value
  then (p, Err "legacy workflow command contains an invalid name or value")
  else
    let values := legacy_of p step_id in
    let values := values <| lv_command_count := saturating_add (lv_command_count values) 1 |> in
    let values := values <| lv_command_bytes :=
      saturating_add (saturating_add (lv_command_bytes values) (Z.of_nat (slen name))) (Z.of_nat (slen value)) |> in
    let store values := p <| legacy_values := <[step_id := values]> (legacy_values p) |> in
    if bool_decide (MAX_LEGACY_COMMAND_VALUES_PER_STEP < lv_command_count values)%Z ||
       bool_decide (MAX_LEGACY_COMMAND_BYTES_PER_STEP < lv_command_bytes values)%Z
    then (store values, Err "legacy workflow commands exceeded the per-step safety limit")
    else if state then (store (values <| lv_state := <[name := value]> (lv_state values) |>), Ok tt)
    else (store (values <| lv_outputs := <[name := value]> (lv_outputs values) |>), Ok tt).

Definition take_legacy_outputs (step_id : string) : cmd (gmap string string) := λ p,
  match ensure_healthy p with
  | Ok _ =>
      match legacy_values p !! step_id with
      | Some values =>
          (p <| legacy_values := <[step_id := values <| lv_outputs := ∅ |>]> (legacy_values p) |>, Ok (lv_outputs values))
      | None => (p, Ok ∅)
      end
  | Err e => (p, Err e)
  | Panic => (p, Panic)
  end.

Definition take_legacy_state (step_id : string) : cmd (gmap string string) := λ p,
  match ensure_healthy p with
  | Ok _ =>
      match legacy_values p !! step_id with
      | Some values =>
          (p <| legacy_values := <[step_id := values <| lv_state := ∅ |>]> (legacy_values p) |>, Ok (lv_state values))
      | None => (p, Ok ∅)
      end
  | Err e => (p, Err e)
  | Panic => (p, Panic)
  end.

(** ** Lines *)

Definition stop_line (token : string) : string := "::" +:+ token +:+ "::".

Definition add_mask_command (scope_id data : string) : cmd WorkflowLineDisposition := λ p,
  let '(scope, result) := register_mask (decode_workflow_command_data data) (command_scope p scope_id) in
  (set_scope scope_id scope p, omap_ok (λ _, Suppress) result).

Definition stop_commands_command (scope_id data : string) : cmd WorkflowLineDisposition := λ p,
  let token := decode_workflow_command_data data in
  if is_empty token then (p, Ok Suppress)
  else (set_scope scope_id (command_scope p scope_id <| stop_token := Some token |>) p, Ok Suppress).

Definition remove_matcher (scope_id : string) (removal : ProblemMatcherRemoval) : cmd WorkflowLineDisposition :=
  match removal with
  | Owner owner => on_registry (remove_owner scope_id owner)
  | File path => on_registry (remove_from_file scope_id path)
  end ;! cret Suppress.

(** The commands that are values, then the problem matchers. *)
Definition process_value_line (step_id scope_id line : string) : cmd WorkflowLineDisposition :=
  do! output := clift (parse_named_workflow_command line "set-output") in
  match output with
  | Some (name, value) => record_legacy_value step_id name value false ;! cret Suppress
  | None =>
      do! state := clift (parse_named_workflow_command line "save-state") in
      match state with
      | Some (name, value) => record_legacy_value step_id name value true ;! cret Suppress
      | None => λ p,
          match scan scope_id line (problem_matchers p) with
          | Ok (annotation, registry) =>
              let p := p <| problem_matchers := registry |> in
              (match annotation with Some a => record_annotation step_id a p | None => p end, Ok Original)
          | Err e => (p, Err e)
          | Panic => (p, Panic)
          end
      end
  end.

Definition process_command_line (step_id scope_id line : string) : cmd WorkflowLineDisposition := λ p,
  match strip_prefix_ignore_ascii_case line "::add-mask::" with
  | Some value => add_mask_command scope_id value p
  | None =>
  match strip_prefix_ignore_ascii_case line "::stop-commands::" with
  | Some token => stop_commands_command scope_id token p
  | None =>
  match strip_prefix_ignore_ascii_case line "::add-matcher::" with
  | Some path => (on_registry (add_from_file scope_id (decode_workflow_command_data path)) ;! cret Suppress) p
  | None =>
      (do! removal := clift (parse_remove_matcher_command line) in
       match removal with
       | Some removal => remove_matcher scope_id removal
       | None =>
           do! annotation := clift (parse_workflow_annotation line (workspace (problem_matchers p) scope_id)) in
           match annotation with
           | Some annotation => λ p, (record_annotation step_id annotation p, Ok (Replace (annotation_log_line annotation)))
           | None => process_value_line step_id scope_id line
           end
       end) p
  end end end.

Definition process_line (step_id line : string) : cmd WorkflowLineDisposition := λ p,
  let scope_id := workflow_command_scope step_id in
  match active_token p scope_id with
  | Some token =>
      if bool_decide (line = stop_line token)
      then (set_scope scope_id (command_scope p scope_id <| stop_token := None |>) p, Ok Suppress)
      else (p, Ok Original)
  | None => process_command_line step_id scope_id line p
  end.

(** What a line leaves in the log. *)
Definition visible_segment (segment : string) (disposition : WorkflowLineDisposition) : string :=
  match disposition with
  | Original => segment
  | Suppress => ""
  | Replace replacement =>
      if ends_with (String lf "") segment then replacement +:+ String lf "" else replacement
  end.

Fixpoint process_segments (step_id : string) (segments : list string) : cmd string :=
  match segments with
  | [] => cret ""
  | segment :: segments =>
      do! disposition := process_line step_id (trim_end_bytes is_line_end segment) in
      do! rest := process_segments step_id segments in
      cret (visible_segment segment disposition +:+ rest)
  end.

Definition process_complete_log (step_id data : string) : cmd string :=
  process_segments step_id (split_inclusive lf data).

Definition is_suppressible_command (p : WorkflowCommandProcessor) (step_id line : string) : bool :=
  match active_token p (workflow_command_scope step_id) with
  | Some token => bool_decide (line = stop_line token)
  | None =>
      is_some (strip_prefix_ignore_ascii_case line "::add-mask::") ||
      is_some (strip_prefix_ignore_ascii_case line "::stop-commands::") ||
      is_some (strip_prefix_ignore_ascii_case line "::set-output ") ||
      is_some (strip_prefix_ignore_ascii_case line "::save-state ") ||
      is_annotation_workflow_command line || is_problem_matcher_workflow_command line
  end.

Definition ends_line (data : string) : bool := ends_with (String lf "") data.

(** A command that does not end in its chunk is kept until it does. *)
Definition process_log (step_id : string) (stream : LogStream) (data : string) : cmd string := λ p,
  let key := (step_id, stream) in
  match partial_commands p !! key with
  | Some partial =>
      let partial := partial +:+ data in
      let p := p <| partial_commands := <[key := partial]> (partial_commands p) |> in
      if bool_decide (MAX_DYNAMIC_MASK_BYTES_PER_JOB < Z.of_nat (slen partial))%Z
      then (p, Err "workflow command exceeded the dynamic-mask safety limit")
      else if ends_line data || bool_decide (Z.of_nat (slen data) < MAX_LOG_CHUNK_BYTES)%Z
      then process_complete_log step_id partial (p <| partial_commands := delete key (partial_commands p) |>)
      else (p, Ok "")
  | None =>
      if bool_decide (MAX_LOG_CHUNK_BYTES ≤ Z.of_nat (slen data))%Z && negb (ends_line data) &&
         is_suppressible_command p step_id (trim_end_bytes is_line_end data)
      then (p <| partial_commands := <[key := data]> (partial_commands p) |>, Ok "")
      else process_complete_log step_id data p
  end.

(** ** The end of a stream and of a step *)

Definition finish_stream (step_id : string) (stream : LogStream) : cmd unit := λ p,
  match partial_commands p !! (step_id, stream) with
  | Some complete =>
      (process_complete_log step_id complete ;! cret tt)
        (p <| partial_commands := delete (step_id, stream) (partial_commands p) |>)
  | None => (p, Ok tt)
  end.

(** The keys of the step are collected first and taken in their order. *)
Definition partial_streams (p : WorkflowCommandProcessor) (step_id : string) : list LogStream :=
  base.filter (λ stream, is_Some (partial_commands p !! (step_id, stream))) [Stdout; Stderr; System].

Definition finish_partial (step_id : string) (stream : LogStream) : cmd unit := λ p,
  match partial_commands p !! (step_id, stream) with
  | Some complete =>
      (process_complete_log step_id complete ;! cret tt)
        (p <| partial_commands := delete (step_id, stream) (partial_commands p) |>)
  | None => (p, Panic)
  end.

Fixpoint finish_partials (step_id : string) (streams : list LogStream) : cmd unit :=
  match streams with
  | [] => cret tt
  | stream :: streams => finish_partial step_id stream ;! finish_partials step_id streams
  end.

Definition close_step (step_id : string) (p : WorkflowCommandProcessor) : WorkflowCommandProcessor :=
  let scope_id := workflow_command_scope step_id in
  p <| cmd_scopes := alter (λ scope, scope <| stop_token := None |>) scope_id (cmd_scopes p) |>
    <| problem_matchers := reset_scope scope_id (problem_matchers p) |>
    <| legacy_values := delete step_id (legacy_values p) |>.

Definition finish_step (step_id : string) : cmd unit := λ p,
  (finish_partials step_id (partial_streams p step_id) ;! λ p, (close_step step_id p, Ok tt)) p.

(** ** Masking *)

Definition scope_masks (p : WorkflowCommandProcessor) (scope_id : string) : list string :=
  match cmd_scopes p !! scope_id with Some scope => masks scope | None => [] end.

Definition mask_for_step (p : WorkflowCommandProcessor) (step_id value : string) : string :=
  mask_text (mask_text value (global_masks p)) (scope_masks p (workflow_command_scope step_id)).

Definition mask_all (p : WorkflowCommandProcessor) (value : string) : string :=
  fold_left (λ value scope, mask_text value (masks scope)) (btree_values (cmd_scopes p))
    (mask_text value (global_masks p)).

Definition value_is_masked_for_step (p : WorkflowCommandProcessor) (step_id value : string) : bool :=
  existsb (λ mask, contains mask value) (global_masks p) ||
  existsb (λ mask, contains mask value) (scope_masks p (workflow_command_scope step_id)).

(** Outputs that hold a mask are emptied, each with a line in the log. *)
Definition filter_masked_outputs (p : WorkflowCommandProcessor) (step_id : string)
    (outputs : gmap string string) : outcome string (gmap string string * list string) :=
  ensure_healthy p ;?
  let masked := (base.filter (λ '(_, value), value_is_masked_for_step p step_id value = true) (btree_iter outputs)).*1 in
  Ok (foldl (λ outputs name, <[name := ""]> outputs) outputs masked,
      (λ name, "Skip output '" +:+ name +:+ "' because it may contain a masked value." +:+ String lf "") <$> masked).

(** ** What the agent does with a chunk and with a message *)

(** [prepare_workflow_log]: [None] when the reader of the stream stops. *)
Definition prepare_workflow_log (step_id : string) (stream : LogStream) (data : string)
    (p : WorkflowCommandProcessor) : WorkflowCommandProcessor * outcome string (option string) :=
  match process_log step_id stream data p with
  | (p, Ok data) => (p, Ok (Some (mask_for_step p step_id data)))
  | (p, Err e) => (fail e p, Ok None)
  | (p, Panic) => (p, Panic)
  end.

Definition mask_annotation (p : WorkflowCommandProcessor) (secrets : list string) (annotation : CheckAnnotation)
    : CheckAnnotation :=
  let hide value := mask_all p (mask_text value secrets) in
  bound_masked_annotation
    (annotation <| an_path := hide (an_path annotation) |>
                <| an_message := hide (an_message annotation) |>
                <| an_title := hide <$> an_title annotation |>).

Definition relay_log (secrets : list string) (message_id job_id : Uuid) (step_id : string) (sequence : Z)
    (stream : LogStream) (data : string) : cmd (option AgentMessage) := λ p,
  let '(p, preprocessed) := take_preprocessed_log message_id p in
  (do! data := (if negb preprocessed && bool_decide (stream ≠ System)
                then process_log step_id stream data else cret data) in λ p,
   if is_empty data then (p, Ok None)
   else (p, Ok (Some (LogChunk message_id job_id step_id sequence stream
                        (mask_for_step p step_id (mask_text data secrets)))))) p.

(** One turn of [relay_masked_events]: the message sent on, if any. *)
Definition relay_message (secrets : list string) (message : AgentMessage) : cmd (option AgentMessage) := λ p,
  (clift (ensure_healthy p) ;!
   match message with
   | StepStarted message_id job_id step_id name => λ p,
       (p, Ok (Some (StepStarted message_id job_id step_id (mask_for_step p step_id (mask_text name secrets)))))
   | LogChunk message_id job_id step_id sequence stream data =>
       relay_log secrets message_id job_id step_id sequence stream data
   | StepFinished _ _ step_id _ _ => finish_step step_id ;! cret (Some message)
   | JobFinished message_id job_id conclusion summary _ => λ p,
       let summary := mask_all p (mask_text summary secrets) in
       let '(p, annotations) := take_annotations p in
       (p, Ok (Some (JobFinished message_id job_id conclusion summary (mask_annotation p secrets <$> annotations))))
   | JobRejected message_id job_id requirements reason => λ p,
       (p, Ok (Some (JobRejected message_id job_id requirements (mask_all p (mask_text reason secrets)))))
   | _ => cret (Some message)
   end) p.
End commands.

Notation "'do!' x ':=' c 'in' k" := (cbind c (λ x, k))
  (at level 10, x name, c at level 100, k at level 200) : rust_scope.
Notation "c ';!' k" := (cbind c (λ _, k))
  (at level 100, k at level 200, right associativity) : rust_scope.
