(* ===== verification/WorkflowCommandsProps.v ===== *)
(** * What the workflow command processor keeps

    The bounds of the processor and the masks it holds survive every operation,
    failed ones included, and no operation panics. *)

From S2P Require Import Prelude RustStr UnixPath OrdMap RustText CommandFile Masking Protocol Annotations.
From S2P Require Import ProblemMatcher MatcherSpec MatcherRegistry WorkflowCommands.

Section inv.
Context `{CL : CaptureLib} `{MF : MatcherFiles}.

(** An annotation that the service accepts once its texts are bounded. *)
Record located (a : CheckAnnotation) : Prop := {
  lo_lines : (1 ≤ an_start_line a ≤ an_end_line a ∧ an_end_line a ≤ i32_max)%Z;
  lo_columns : (an_start_column a = None ∧ an_end_column a = None) ∨
    ∃ c d, an_start_column a = Some c ∧ an_end_column a = Some d ∧ an_start_line a = an_end_line a ∧
      (1 ≤ c ≤ d ∧ d ≤ i32_max)%Z;
}.

Definition legacy_ok (v : LegacyCommandValues) : Prop :=
  (Z.of_nat (size (lv_outputs v) + size (lv_state v)) ≤ lv_command_count v)%Z ∧
  (Z.of_nat (size (lv_outputs v) + size (lv_state v)) ≤ MAX_LEGACY_COMMAND_VALUES_PER_STEP)%Z ∧
  (0 ≤ lv_command_count v ≤ u64_max)%Z.

Record processor_ok (p : WorkflowCommandProcessor) : Prop := {
  po_global : "" ∉ global_masks p;
  po_scopes s scope : cmd_scopes p !! s = Some scope → scope_ok scope;
  po_registry : registry_ok (problem_matchers p);
  po_annotations : length (annotations p) ≤ MAX_CHECK_ANNOTATIONS;
  po_located : Forall located (annotations p);
  po_counts key n : annotation_counts p !! key = Some n → n ≤ per_step_limit key.2;
  po_legacy s v : legacy_values p !! s = Some v → legacy_ok v;
}.

(** The masks named in [protected] are in force in their scopes, and the partial
    commands are [partials]. *)
Definition holds (protected : list (string * string)) (partials : gmap (string * LogStream) string)
    (p : WorkflowCommandProcessor) : Prop :=
  processor_ok p ∧ (∀ s m, (s, m) ∈ protected → m ∈ global_masks p ++ scope_masks p s) ∧
  partial_commands p = partials.

Definition kept (protected : list (string * string)) (p : WorkflowCommandProcessor) : Prop :=
  holds protected (partial_commands p) p.

(** An operation that keeps an invariant whether it fails or not. *)
Definition keeps {A : Type} (I : WorkflowCommandProcessor → Prop) (c : cmd A) : Prop :=
  ∀ p, I p → I (c p).1 ∧ (c p).2 ≠ Panic.

Lemma keeps_ret {A} I (a : A) : keeps I (cret a).
Proof. by intros p. Qed.

Lemma keeps_lift {A} I (c : outcome string A) : c ≠ Panic → keeps I (clift c).
Proof. by intros Hc p. Qed.

Lemma keeps_bind {A B} I (c : cmd A) (k : A → cmd B) :
  keeps I c → (∀ a, keeps I (k a)) → keeps I (cbind c k).
Proof.
  intros Hc Hk p Hp. unfold cbind. destruct (Hc p Hp) as [H1 H2].
  destruct (c p) as [p' [a|e|]]; simpl in *; [by apply Hk|done..].
Qed.

Lemma keeps_bind_pure {A B} I (c : outcome string A) (k : A → cmd B) :
  c ≠ Panic → (∀ a, c = Ok a → keeps I (k a)) → keeps I (cbind (clift c) k).
Proof. intros Hc Hk p Hp. unfold cbind, clift. destruct c as [a|e|]; simpl; [by apply Hk|done..]. Qed.

(** ** Empty processor *)

Lemma dedup_incl l x : x ∈ dedup l → x ∈ l.
Proof.
  induction l as [|a [|b l] IH]; [done..|]. cbn [dedup]. case_bool_decide; subst.
  - intros Hx%IH. by apply list_elem_of_further.
  - rewrite elem_of_cons. intros [-> | Hx%IH]; [apply list_elem_of_here|by apply list_elem_of_further].
Qed.

Lemma with_global_masks_ok masks w root : "" ∉ masks → processor_ok (with_global_masks masks w root).
Proof.
  intros Hm. split; simpl.
  - intros Hd%dedup_incl. by rewrite merge_sort_Permutation in Hd.
  - intros s scope. by rewrite lookup_empty.
  - apply new_registry_ok.
  - lia.
  - constructor.
  - intros key n. by rewrite lookup_empty.
  - intros s v. by rewrite lookup_empty.
Qed.

(** ** One field at a time *)

Lemma scope_masks_set p s scope s' :
  scope_masks (set_scope s scope p) s' = if bool_decide (s = s') then masks scope else scope_masks p s'.
Proof.
  unfold scope_masks. simpl. case_bool_decide; subst; [by rewrite lookup_insert_eq|by rewrite lookup_insert_ne].
Qed.

Lemma command_scope_ok p s : processor_ok p → scope_ok (command_scope p s).
Proof.
  intros Hp. unfold command_scope. destruct (cmd_scopes p !! s) eqn:E; [by eapply po_scopes|apply empty_scope_ok].
Qed.

Lemma scope_masks_command p s : scope_masks p s = masks (command_scope p s).
Proof. unfold scope_masks, command_scope. by destruct (cmd_scopes p !! s). Qed.

(** A scope replaced by one with at least its masks. *)
Lemma set_scope_holds prot pc p s scope :
  holds prot pc p → scope_ok scope → (∀ m, m ∈ masks (command_scope p s) → m ∈ masks scope) →
  holds prot pc (set_scope s scope p).
Proof.
  intros (Hp & Hm & Hpc) Hs Hsub. split_and!; [| |done].
  - destruct Hp as [H1 H2 H3 H4 H5 H6 H7]. split; try done. intros s' scope'. simpl.
    rewrite lookup_insert_Some. intros [(_ & <-) | (_ & ?)]; [done|eauto].
  - intros s' m Hin. specialize (Hm s' m Hin). rewrite elem_of_app in *. destruct Hm as [?|Hm]; [by left|right].
    rewrite scope_masks_set. case_bool_decide; subst; [|done]. apply Hsub. by rewrite <-scope_masks_command.
Qed.

Lemma record_annotation_holds prot pc step a p :
  located a → holds prot pc p → holds prot pc (record_annotation step a p).
Proof.
  intros Ha [[H1 H2 H3 H4 H5 H6 H7] [Hm Hpc]]. unfold record_annotation.
  assert (∀ key n, n ≤ per_step_limit key.2 →
    ∀ key' n', <[key := n]> (annotation_counts p) !! key' = Some n' → n' ≤ per_step_limit key'.2) as Hc.
  { intros key n Hn key' n'. rewrite lookup_insert_Some. intros [(<- & <-) | (_ & ?)]; [done|eauto]. }
  assert (annotation_count p (step, an_level a) ≤ per_step_limit (an_level a)) as Hle.
  { unfold annotation_count. destruct (annotation_counts p !! _) eqn:E; simpl; [by apply H6 in E|lia]. }
  case_bool_decide as Hlim; [|case_bool_decide]; (split_and!; [split; try done; simpl|done|done]).
  - by apply Hc.
  - rewrite length_app. simpl in *. unfold MAX_CHECK_ANNOTATIONS in *. lia.
  - apply Forall_app. by split; [|apply Forall_singleton].
  - apply Hc. simpl. lia.
  - apply Hc. simpl. lia.
Qed.

Lemma legacy_of_ok p s : processor_ok p → legacy_ok (legacy_of p s).
Proof.
  intros Hp. unfold legacy_of. destruct (legacy_values p !! s) eqn:E; [by eapply po_legacy|].
  simpl. unfold legacy_ok. simpl. rewrite !map_size_empty. vm_compute. naive_solver.
Qed.

Lemma set_legacy_holds prot pc p s v :
  legacy_ok v → holds prot pc p → holds prot pc (p <| legacy_values := <[s := v]> (legacy_values p) |>).
Proof.
  intros Hv [[H1 H2 H3 H4 H5 H6 H7] [Hm Hpc]]. split_and!; [|done..]. split; try done. intros s' v'. simpl.
  rewrite lookup_insert_Some. intros [(_ & <-) | (_ & ?)]; [done|eauto].
Qed.

Lemma set_partial_holds prot pc p m : holds prot pc p → holds prot m (p <| partial_commands := m |>).
Proof. intros [[H1 H2 H3 H4 H5 H6 H7] [Hm Hpc]]. split_and!; [by split|done..]. Qed.

Lemma set_registry_holds prot pc p r : registry_ok r → holds prot pc p → holds prot pc (p <| problem_matchers := r |>).
Proof. intros Hr [[H1 H2 H3 H4 H5 H6 H7] [Hm Hpc]]. split_and!; [by split|done..]. Qed.

(** ** The commands *)

Lemma add_mask_command_spec prot pc p s data :
  holds prot pc p →
  let '(p', result) := add_mask_command s data p in
  holds prot pc p' ∧ result ≠ Panic ∧
  (∀ d, result = Ok d → decode_workflow_command_data data ≠ "" →
     decode_workflow_command_data data ∈ scope_masks p' s).
Proof.
  intros Hp. unfold add_mask_command, register_mask.
  pose proof (add_masks_spec (decode_workflow_command_data data :: split_whitespace (decode_workflow_command_data data))
    (command_scope p s) (command_scope_ok p s (proj1 Hp))) as Hs.
  destruct (add_masks _ _) as [scope result]. destruct Hs as (Hok & _ & Hno & Hsub & Hall).
  split_and!.
  - by apply set_scope_holds.
  - by destruct result.
  - intros d Hd Hne. destruct result as [[]| |]; [|done..]. rewrite scope_masks_set, bool_decide_eq_true_2 by done.
    apply Hall; [done|]. right. split; [apply list_elem_of_here|done].
Qed.

Lemma add_mask_command_keeps prot pc s data : keeps (holds prot pc) (add_mask_command s data).
Proof. intros p Hp. pose proof (add_mask_command_spec prot pc p s data Hp) as Hs. destruct (add_mask_command s data p) as [p' r]. by destruct Hs as (? & ? & _). Qed.

(** Editing the stop token of a scope. *)
Lemma set_token_holds prot pc p s token :
  holds prot pc p → holds prot pc (set_scope s (command_scope p s <| stop_token := token |>) p).
Proof.
  intros Hp. apply set_scope_holds; [done| |done].
  destruct (command_scope_ok p s (proj1 Hp)) as [H1 H2 H3 H4 H5]. by split.
Qed.

Lemma stop_commands_keeps prot pc s data : keeps (holds prot pc) (stop_commands_command s data).
Proof.
  intros p Hp. unfold stop_commands_command. destruct (is_empty _); [done|]. split; [|done]. by apply set_token_holds.
Qed.

Lemma on_registry_keeps prot pc f :
  (∀ r, registry_ok r → registry_ok (f r).1 ∧ (f r).2 ≠ Panic) → keeps (holds prot pc) (on_registry f).
Proof.
  intros Hf p Hp. unfold on_registry. destruct (Hf (problem_matchers p)) as [H1 H2]; [apply Hp|].
  destruct (f (problem_matchers p)) as [r result]. split; [|done]. by apply set_registry_holds.
Qed.

Lemma remove_matcher_keeps prot pc s removal : keeps (holds prot pc) (remove_matcher s removal).
Proof.
  apply keeps_bind; [|intros ?; apply keeps_ret]. destruct removal; apply on_registry_keeps; intros r Hr.
  - by destruct (remove_owner_ok s owner r Hr).
  - by destruct (remove_from_file_ok s path r Hr).
Qed.

Lemma legacy_insert_size (m : gmap string string) k v : (size (<[k := v]> m) ≤ S (size m)).
Proof. rewrite map_size_insert. case_match; simpl; lia. Qed.

Lemma record_legacy_keeps prot pc step name value state : keeps (holds prot pc) (record_legacy_value step name value state).
Proof.
  intros p Hp. unfold record_legacy_value. destruct (invalid_legacy _ _); [done|].
  destruct (legacy_of_ok p step (proj1 Hp)) as (H1 & H2 & H3). set (old := legacy_of p step) in *.
  pose proof (legacy_insert_size (lv_outputs old) name value) as Ho.
  pose proof (legacy_insert_size (lv_state old) name value) as Hs.
  unfold saturating_add, u64_max in *. cbn [lv_command_count lv_command_bytes set_field].
  destruct (_ || _) eqn:Hlim; [|destruct state]; (split; [apply set_legacy_holds; [|done]|done]);
    unfold legacy_ok, u64_max; cbn; [lia| |];
    apply orb_false_iff in Hlim as [Hc%bool_decide_eq_false _]; cbn in Hc;
    unfold MAX_LEGACY_COMMAND_VALUES_PER_STEP in *; lia.
Qed.

Lemma parse_named_no_panic line command : parse_named_workflow_command line command ≠ Panic.
Proof.
  unfold parse_named_workflow_command. destruct (strip_prefix_ignore_ascii_case _ _); [|done].
  rewrite obind_Panic. intros [Hb | ([properties data] & _ & Hb)]; [by apply ok_or_Panic in Hb|].
  apply obind_Panic in Hb as [Hb | (? & _ & ?)]; [by apply ok_or_Panic in Hb|done].
Qed.

Lemma removal_of_no_panic properties data : removal_of properties data ≠ Panic.
Proof. unfold removal_of. by repeat case_match. Qed.

Lemma parse_remove_matcher_no_panic line : parse_remove_matcher_command line ≠ Panic.
Proof.
  unfold parse_remove_matcher_command. destruct (strip_prefix_ignore_ascii_case _ _) as [body|]; [|done].
  destruct (strip_prefix "::" body); [apply removal_of_no_panic|]. destruct (strip_prefix " " body); [|done].
  rewrite obind_Panic. intros [Hb | ([properties data] & _ & Hb)]; [by apply ok_or_Panic in Hb|].
  by apply removal_of_no_panic in Hb.
Qed.

Lemma parse_annotation_no_panic line w : parse_workflow_annotation line w ≠ Panic.
Proof. exact (outcome_spec_no_panic _ _ _ (parse_workflow_annotation_spec line w)). Qed.

Lemma annotation_located line w a : parse_workflow_annotation line w = Ok (Some a) → located a.
Proof.
  intros Hp. pose proof (parse_workflow_annotation_spec line w) as Hs. rewrite Hp in Hs. destruct (Hs a eq_refl). by split.
Qed.

Lemma issue_located issue w a : into_annotation issue w = Some a → located a.
Proof.
  intros Ha. destruct (into_annotation_lines issue w a Ha) as (H1 & H2 & H3 & H4). split; [lia|].
  destruct (an_start_column a) as [c|] eqn:E; [right|by left]. exists c, c. specialize (H4 c eq_refl).
  split_and!; try done; lia.
Qed.

Lemma scan_keeps prot pc step s line :
  keeps (holds prot pc) (λ p, match scan s line (problem_matchers p) with
          | Ok (annotation, registry) =>
              let p := p <| problem_matchers := registry |> in
              (match annotation with Some a => record_annotation step a p | None => p end, Ok Original)
          | Err e => (p, Err e)
          | Panic => (p, Panic)
          end).
Proof.
  intros p Hp. pose proof (scan_spec s line (problem_matchers p) (po_registry p (proj1 Hp))) as Hs.
  destruct (scan s line (problem_matchers p)) as [[a r]| |]; simpl in Hs; [|done..].
  destruct Hs as (Hr & _ & _ & _ & _ & Ha). split; [|done]. simpl.
  destruct a as [a|]; [|by apply set_registry_holds]. apply record_annotation_holds; [|by apply set_registry_holds].
  destruct (Ha a eq_refl) as [issue Hi]. by eapply issue_located.
Qed.

Lemma process_value_line_keeps prot pc step s line : keeps (holds prot pc) (process_value_line step s line).
Proof.
  unfold process_value_line. apply keeps_bind_pure; [apply parse_named_no_panic|]. intros [[n v]|] _.
  { apply keeps_bind; [apply record_legacy_keeps|intros ?; apply keeps_ret]. }
  apply keeps_bind_pure; [apply parse_named_no_panic|]. intros [[n v]|] _.
  { apply keeps_bind; [apply record_legacy_keeps|intros ?; apply keeps_ret]. }
  apply scan_keeps.
Qed.

Lemma process_command_line_keeps prot pc step s line : keeps (holds prot pc) (process_command_line step s line).
Proof.
  intros p Hp. unfold process_command_line.
  destruct (strip_prefix_ignore_ascii_case line "::add-mask::"); [by apply add_mask_command_keeps|].
  destruct (strip_prefix_ignore_ascii_case line "::stop-commands::"); [by apply stop_commands_keeps|].
  destruct (strip_prefix_ignore_ascii_case line "::add-matcher::") as [path|].
  { apply keeps_bind; [|intros ?; apply keeps_ret|done]. apply on_registry_keeps. intros r Hr.
    by destruct (add_from_file_ok s (decode_workflow_command_data path) r Hr). }
  apply keeps_bind_pure; [apply parse_remove_matcher_no_panic| |done]. intros [removal|] _; [apply remove_matcher_keeps|].
  apply keeps_bind_pure; [apply parse_annotation_no_panic|]. intros [a|] Ha; [|apply process_value_line_keeps].
  intros p1 Hp1. split; [|done]. apply record_annotation_holds; [|done]. by eapply annotation_located.
Qed.

Lemma process_line_keeps prot pc step line : keeps (holds prot pc) (process_line step line).
Proof.
  intros p Hp. unfold process_line. destruct (active_token p _) as [token|].
  - case_bool_decide; [|done]. split; [|done]. by apply set_token_holds.
  - by apply process_command_line_keeps.
Qed.

Lemma process_segments_keeps prot pc step segments : keeps (holds prot pc) (process_segments step segments).
Proof.
  induction segments as [|segment segments IH]; simpl; [apply keeps_ret|].
  apply keeps_bind; [apply process_line_keeps|]. intros d. apply keeps_bind; [done|]. intros rest. apply keeps_ret.
Qed.

Lemma process_complete_log_keeps prot pc step data : keeps (holds prot pc) (process_complete_log step data).
Proof. apply process_segments_keeps. Qed.

(** ** Chunks, streams and steps *)

Lemma holds_kept prot pc p : holds prot pc p → kept prot p.
Proof. intros (H1 & H2 & <-). by split_and!. Qed.

Lemma keeps_kept {A} prot (c : cmd A) : (∀ pc, keeps (holds prot pc) c) → keeps (kept prot) c.
Proof. intros Hc p Hp. destruct (Hc _ p Hp) as [H1 H2]. split; [by eapply holds_kept|done]. Qed.

Lemma set_partial_kept prot p m : kept prot p → kept prot (p <| partial_commands := m |>).
Proof. intros Hp. by eapply holds_kept, set_partial_holds. Qed.

Lemma process_log_keeps prot step stream data : keeps (kept prot) (process_log step stream data).
Proof.
  pose proof (λ data, keeps_kept prot _ (λ pc, process_complete_log_keeps prot pc step data)) as Hc.
  intros p Hp. unfold process_log. destruct (partial_commands p !! _) as [partial|].
  - case_bool_decide; [split; [by apply set_partial_kept|done]|].
    destruct (_ || _); [|split; [by apply set_partial_kept|done]]. apply Hc. by apply (set_partial_kept _ (p <| partial_commands := _ |>)), set_partial_kept.
  - destruct (_ && _); [split; [by apply set_partial_kept|done]|]. by apply Hc.
Qed.

Lemma finish_complete_keeps prot pc step complete :
  keeps (holds prot pc) (process_complete_log step complete ;! cret tt).
Proof. apply keeps_bind; [apply process_complete_log_keeps|intros ?; apply keeps_ret]. Qed.

Lemma finish_stream_keeps prot step stream : keeps (kept prot) (finish_stream step stream).
Proof.
  intros p Hp. unfold finish_stream. destruct (partial_commands p !! _) as [complete|]; [|done].
  apply (keeps_kept prot); [intros pc; apply finish_complete_keeps|by apply set_partial_kept].
Qed.

Lemma finish_partials_keeps prot step streams p :
  NoDup streams → (∀ stream, stream ∈ streams → is_Some (partial_commands p !! (step, stream))) →
  kept prot p → kept prot (finish_partials step streams p).1 ∧ (finish_partials step streams p).2 ≠ Panic.
Proof.
  revert p; induction streams as [|stream streams IH]; intros p Hnd Hin Hp; [done|].
  apply NoDup_cons in Hnd as [Hno Hnd]. cbn [finish_partials]. unfold cbind at 1 2, finish_partial.
  destruct (Hin stream) as [complete Hc]; [apply list_elem_of_here|]. rewrite Hc.
  set (pc := delete (step, stream) (partial_commands p)).
  destruct (finish_complete_keeps prot pc step complete (p <| partial_commands := pc |>)) as [H1 H2];
    [by eapply set_partial_holds|].
  destruct ((process_complete_log step complete ;! cret tt) (p <| partial_commands := pc |>)) as [p' [[]|e|]]; simpl in H1, H2 |- *; [|split; [by eapply holds_kept|done]|done].
  apply IH; [done| |by eapply holds_kept]. intros stream' Hs. destruct H1 as (_ & _ & ->). unfold pc.
  rewrite lookup_delete_ne; [apply Hin; by apply list_elem_of_further|]. intros [= ->]. done.
Qed.

Lemma close_step_kept prot step p : kept prot p → kept prot (close_step step p).
Proof.
  intros [[H1 H2 H3 H4 H5 H6 H7] [Hm _]]. split_and!; [split; simpl; try done| |done].
  - intros s scope. rewrite lookup_alter_Some. intros [(<- & old & Hold & ->) | (_ & ?)]; [|eauto].
    destruct (H2 _ _ Hold). by split.
  - apply edit_scope_ok; [done|]. intros ms. apply reset_all_ok.
  - intros s v [_ Hv]%lookup_delete_Some. eauto.
  - intros s m Hin. specialize (Hm s m Hin). rewrite elem_of_app in *. destruct Hm as [?|Hm]; [by left|right].
    revert Hm. unfold scope_masks. simpl. destruct (decide (workflow_command_scope step = s)) as [->|Hne].
    + rewrite lookup_alter_eq. by destruct (cmd_scopes p !! s).
    + by rewrite lookup_alter_ne.
Qed.

Lemma finish_step_keeps prot step : keeps (kept prot) (finish_step step).
Proof.
  intros p Hp. unfold finish_step, cbind.
  destruct (finish_partials_keeps prot step (partial_streams p step) p) as [H1 H2]; try done.
  - apply NoDup_filter. repeat constructor; set_solver.
  - intros stream [Hs _]%list_elem_of_filter. done.
  - destruct (finish_partials _ _ p) as [p' [[]|e|]]; simpl in *; [|done..]. split; [by apply close_step_kept|done].
Qed.

(** ** The rest of the interface *)

Lemma register_global_kept prot value p : kept prot p → kept prot (register_global_mask value p).
Proof.
  intros [[H1 H2 H3 H4 H5 H6 H7] [Hm _]]. unfold register_global_mask. destruct (is_empty value) eqn:He; [by split_and!|].
  case_bool_decide; simpl; [by split_and!|]. split_and!; [split; simpl; try done| |done].
  - rewrite merge_sort_Permutation, elem_of_app, list_elem_of_singleton. intros [? | <-]; done.
  - intros s m Hin. specialize (Hm s m Hin). simpl. rewrite elem_of_app in *.
    rewrite merge_sort_Permutation, elem_of_app. unfold scope_masks in *. simpl. tauto.
Qed.

Lemma take_annotations_kept prot p : kept prot p → kept prot (take_annotations p).1.
Proof. intros [[H1 H2 H3 H4 H5 H6 H7] [Hm _]]. split_and!; [split; simpl; try done; lia|done|done]. Qed.

Lemma fail_kept prot e p : kept prot p → kept prot (fail e p).
Proof. intros [[H1 H2 H3 H4 H5 H6 H7] [Hm _]]. by split_and!; [split|..]. Qed.

Lemma preprocessed_kept prot ids p : kept prot p → kept prot (p <| preprocessed_logs := ids |>).
Proof. intros [[H1 H2 H3 H4 H5 H6 H7] [Hm _]]. by split_and!; [split|..]. Qed.

Lemma set_legacy_kept prot s v p :
  legacy_ok v → kept prot p → kept prot (p <| legacy_values := <[s := v]> (legacy_values p) |>).
Proof. intros Hv Hp. eapply holds_kept. by apply set_legacy_holds. Qed.

Lemma take_legacy_outputs_keeps prot step : keeps (kept prot) (take_legacy_outputs step).
Proof.
  intros p Hp. unfold take_legacy_outputs, ensure_healthy. destruct (fatal_error p); [done|].
  destruct (legacy_values p !! step) as [v|] eqn:E; [|done]. split; [|done]. apply set_legacy_kept; [|done].
  destruct (po_legacy p (proj1 Hp) _ _ E) as (? & ? & ?). unfold legacy_ok in *. cbn. rewrite map_size_empty. lia.
Qed.

Lemma take_legacy_state_keeps prot step : keeps (kept prot) (take_legacy_state step).
Proof.
  intros p Hp. unfold take_legacy_state, ensure_healthy. destruct (fatal_error p); [done|].
  destruct (legacy_values p !! step) as [v|] eqn:E; [|done]. split; [|done]. apply set_legacy_kept; [|done].
  destruct (po_legacy p (proj1 Hp) _ _ E) as (? & ? & ?). unfold legacy_ok in *. cbn. rewrite map_size_empty. lia.
Qed.

Lemma prepare_log_keeps prot step stream data : keeps (kept prot) (prepare_workflow_log step stream data).
Proof.
  intros p Hp. unfold prepare_workflow_log. destruct (process_log_keeps prot step stream data p Hp) as [H1 H2].
  destruct (process_log step stream data p) as [p' [d|e|]]; simpl in *; [done| |done].
  split; [by apply fail_kept|done].
Qed.

Lemma ensure_healthy_no_panic p : ensure_healthy p ≠ Panic.
Proof. unfold ensure_healthy. by destruct (fatal_error p). Qed.

Lemma relay_log_keeps prot secrets id job step n stream data :
  keeps (kept prot) (relay_log secrets id job step n stream data).
Proof.
  intros p Hp. unfold relay_log, take_preprocessed_log. eapply keeps_bind; [|clear p Hp|by apply preprocessed_kept].
  - destruct (_ && _); [apply process_log_keeps|apply keeps_ret].
  - intros d p Hp. by destruct (is_empty d).
Qed.

Lemma relay_message_keeps prot secrets message : keeps (kept prot) (relay_message secrets message).
Proof.
  intros p Hp. unfold relay_message. eapply keeps_bind; [apply keeps_lift, ensure_healthy_no_panic| |done].
  intros _. destruct message; try apply keeps_ret.
  - by intros p1 Hp1.
  - by intros p1 Hp1.
  - apply relay_log_keeps.
  - apply keeps_bind; [apply finish_step_keeps|intros ?; apply keeps_ret].
  - intros p1 Hp1. split; [|done]. by apply take_annotations_kept.
Qed.

(** ** The processor as a transition system

    The calls the agent makes, in any order: the readers of the streams, the
    relay, the end of a stream, the outputs of a step, registered tokens. *)
Inductive processor_step : WorkflowCommandProcessor → WorkflowCommandProcessor → Prop :=
  | step_prepare step stream data p : processor_step p (prepare_workflow_log step stream data p).1
  | step_mark message_id p : processor_step p (mark_preprocessed_log message_id p)
  | step_relay secrets message p : processor_step p (relay_message secrets message p).1
  | step_stream step stream p : processor_step p (finish_stream step stream p).1
  | step_outputs step p : processor_step p (take_legacy_outputs step p).1
  | step_state step p : processor_step p (take_legacy_state step p).1
  | step_global value p : processor_step p (register_global_mask value p)
  | step_fail error p : processor_step p (fail error p)
  | step_workspace scope w p :
      processor_step p (p <| problem_matchers := register_workspace scope w (problem_matchers p) |>).

Lemma processor_step_kept prot p p' : processor_step p p' → kept prot p → kept prot p'.
Proof.
  destruct 1; intros Hp.
  - by apply prepare_log_keeps.
  - by apply preprocessed_kept.
  - by apply relay_message_keeps.
  - by apply finish_stream_keeps.
  - by apply take_legacy_outputs_keeps.
  - by apply take_legacy_state_keeps.
  - by apply register_global_kept.
  - by apply fail_kept.
  - eapply holds_kept, set_registry_holds, Hp. intros s ms. simpl. by apply (po_registry p (proj1 Hp)).
Qed.

Lemma processor_steps_kept prot p p' : rtc processor_step p p' → kept prot p → kept prot p'.
Proof. induction 1; eauto using processor_step_kept. Qed.

Lemma processor_ok_kept p : processor_ok p ↔ kept [] p.
Proof. split; [|by intros [? _]]. intros Hp. split_and!; [done| |done]. by intros s m ?%not_elem_of_nil. Qed.
End inv.

(** * What the workflow command processor promises

    The bounds of a reachable processor, masks that stay in force, commands that
    are stopped, commands split over chunks, and the limits of a job's report. *)

Section props.
Context `{CL : CaptureLib} `{MF : MatcherFiles}.

(** from the processor a run starts with, in any interleaving of the stream
    readers, the relay and the other calls, failed ones included: no mask is
    empty, each job has at most 1024 masks of at most 1 MiB, each scope at most
    128 distinct matchers, at most 50 annotations are held, each located in a
    file by 32-bit positive lines and columns, at most 10 were counted per step
    and level, each step has at most 1024 legacy values; and the next call does
    not panic. *)
Theorem command_processor_invariant masks w root p :
  "" ∉ masks → rtc processor_step (with_global_masks masks w root) p →
  processor_ok p ∧
  ∀ secrets message step stream data,
    (relay_message secrets message p).2 ≠ Panic ∧ (prepare_workflow_log step stream data p).2 ≠ Panic ∧
    (finish_stream step stream p).2 ≠ Panic.
Proof.
  intros Hm Hp. apply (processor_steps_kept []) in Hp; [|by apply processor_ok_kept, with_global_masks_ok].
  split; [by apply processor_ok_kept|]. intros. split_and!.
  - by apply (relay_message_keeps []).
  - by apply (prepare_log_keeps []).
  - by apply (finish_stream_keeps []).
Qed.

(** ** Masks *)

Lemma contains_stake m n s : contains m (stake n s) = true → contains m s = true.
Proof.
  rewrite !contains_spec. intros (a & b & Hs). exists a, (b +:+ sdrop n s).
  rewrite <-(stake_sdrop n s) at 1. by rewrite Hs, !sapp_assoc.
Qed.

Lemma truncate_hides m value maximum :
  contains m value = false → contains m (truncate_utf8_bytes value maximum) = false.
Proof.
  intros Hv. unfold truncate_utf8_bytes. case_bool_decide; [done|]. apply not_true_is_false.
  intros Hc%contains_stake. congruence.
Qed.

Lemma no_empty_masks p s : processor_ok p → "" ∉ scope_masks p s.
Proof.
  intros Hp. unfold scope_masks. destruct (cmd_scopes p !! s) as [scope|] eqn:E; [|apply not_elem_of_nil].
  by eapply sc_nonempty, po_scopes.
Qed.

Lemma mask_for_step_hides p step m value :
  processor_ok p → star_free m = true → m ∈ global_masks p ++ scope_masks p (workflow_command_scope step) →
  contains m (mask_for_step p step value) = false.
Proof.
  intros Hp Hfree Hin. unfold mask_for_step. rewrite <-mask_text_app. apply mask_text_hides; [done| |done].
  rewrite elem_of_app. intros [?|?]; [by eapply po_global|by eapply no_empty_masks].
Qed.

Lemma fold_masks_creates m scopes value :
  star_free m = true → m ≠ "" → Forall (λ scope, "" ∉ masks scope) scopes →
  contains m (fold_left (λ value scope, mask_text value (masks scope)) scopes value) = true →
  contains m value = true.
Proof.
  intros Hfree Hne. revert value; induction scopes as [|scope scopes IH]; intros value; simpl; [done|].
  intros [Hs Hrest]%Forall_cons Hc. apply IH in Hc; [|done]. by eapply mask_text_creates_nothing.
Qed.

Lemma mask_all_hides p s m value :
  processor_ok p → star_free m = true → m ∈ global_masks p ++ scope_masks p s →
  contains m (mask_all p value) = false.
Proof.
  intros Hp Hfree Hin. assert (m ≠ "") as Hne.
  { intros ->. apply elem_of_app in Hin as [?|?]; [by eapply po_global|by eapply no_empty_masks]. }
  assert (∀ scopes, (∀ scope, scope ∈ scopes → scope ∈ btree_values (cmd_scopes p)) →
    Forall (λ scope, "" ∉ masks scope) scopes) as Hall.
  { intros scopes Hs. apply Forall_forall. intros scope [k Hk]%Hs%elem_of_btree_values. by eapply sc_nonempty, po_scopes. }
  apply not_true_is_false. unfold mask_all. intros Hc.
  apply elem_of_app in Hin as [Hg|Hs].
  - apply fold_masks_creates in Hc; [|done..|by apply Hall].
    rewrite mask_text_hides in Hc; [done|done| |done]. by apply po_global.
  - unfold scope_masks in Hs. destruct (cmd_scopes p !! s) as [scope|] eqn:E; [|by apply not_elem_of_nil in Hs].
    assert (scope ∈ btree_values (cmd_scopes p)) as (before & after & Heq)%list_elem_of_split.
    { apply elem_of_btree_values. eauto. }
    rewrite Heq, fold_left_app in Hc. simpl in Hc. apply fold_masks_creates in Hc; [|done..|].
    + rewrite mask_text_hides in Hc; [done..| |done]. by eapply sc_nonempty, po_scopes.
    + apply Hall. intros scope' Hin'. rewrite Heq. apply elem_of_app. right. by apply list_elem_of_further.
Qed.

(** The texts the relay masks: the name of a step, the data of a log, the summary of
    the run and the reason it was rejected, and what its annotations say: message,
    title and path - but for the constant a path that is too long gives way to. *)
Definition path_placeholder : string := ".github".

Definition annotation_texts (a : CheckAnnotation) : list string :=
  an_message a :: match an_title a with Some title => [title] | None => [] end ++
  (if decide (an_path a = path_placeholder) then [] else [an_path a]).

Definition masked_texts (message : AgentMessage) : list string :=
  match message with
  | StepStarted _ _ _ name => [name]
  | LogChunk _ _ _ _ _ data => [data]
  | JobFinished _ _ _ summary annotations => summary :: (annotations ≫= annotation_texts)
  | JobRejected _ _ _ reason => [reason]
  | _ => []
  end.

(** The other messages that carry a text: the relay sends them as they are. *)
Definition passes_unmasked (message : AgentMessage) : bool :=
  match message with
  | ConcurrencyAcquire _ _ _ _ _ _ _ | DeploymentStarted _ _ _ _ | DeploymentFinished _ _ _ _ _ => true
  | _ => false
  end.

(** what is said of a deployment - the name of its environment and its URL - and
    the name of a concurrency group are sent as they are, whatever is masked. *)
Theorem deployments_are_sent_unmasked secrets message p p' out :
  passes_unmasked message = true → relay_message secrets message p = (p', Ok (Some out)) → p' = p ∧ out = message.
Proof.
  intros Hm. unfold relay_message, cbind, clift. destruct (ensure_healthy p) as [[]| |]; [|done..].
  by destruct message; try discriminate Hm; intros [= <- <-].
Qed.

(** Steps belong to the scope of their job; the job's own messages to any. *)
Definition in_scope (scope : string) (message : AgentMessage) : Prop :=
  match message with
  | StepStarted _ _ step _ | LogChunk _ _ step _ _ _ => workflow_command_scope step = scope
  | _ => True
  end.

Lemma relay_log_hides secrets id job step n stream data m p p' out :
  kept [(workflow_command_scope step, m)] p → star_free m = true →
  relay_log secrets id job step n stream data p = (p', Ok (Some out)) →
  ∀ text, text ∈ masked_texts out → contains m text = false.
Proof.
  intros Hp Hfree. unfold relay_log, take_preprocessed_log, cbind.
  set (c := if negb _ && _ then _ else _). set (p0 := p <| preprocessed_logs := _ |>).
  assert (kept [(workflow_command_scope step, m)] (c p0).1) as Hk.
  { unfold c. destruct (_ && _); [apply process_log_keeps|]; by apply preprocessed_kept. }
  destruct (c p0) as [p1 [d|e|]]; simpl in Hk; [|done..]. destruct (is_empty d); [done|].
  intros [= <- <-] text Ht%list_elem_of_singleton. subst. apply mask_for_step_hides; [apply Hk|done|].
  destruct Hk as (_ & Hin & _). apply Hin, list_elem_of_here.
Qed.

Lemma relay_hides secrets message scope m p p' out :
  kept [(scope, m)] p → star_free m = true → in_scope scope message →
  relay_message secrets message p = (p', Ok (Some out)) →
  ∀ text, text ∈ masked_texts out → contains m text = false.
Proof.
  intros Hp Hfree Hs. assert (m ∈ global_masks p ++ scope_masks p scope) as Hin.
  { destruct Hp as (_ & Hin & _). apply Hin, list_elem_of_here. }
  unfold relay_message, cbind at 1, clift. destruct (ensure_healthy p) as [[]| |]; [|done..].
  assert (∀ v, contains m (mask_all p v) = false) as Hall.
  { intros v. apply (mask_all_hides p scope); [apply Hp|done..]. }
  destruct message; simpl in Hs.
  all: try (unfold cret; intros [= <- <-] text Ht; by apply not_elem_of_nil in Ht).
  - intros [= <- <-] text ->%list_elem_of_singleton. apply Hall.
  - intros [= <- <-] text ->%list_elem_of_singleton. apply mask_for_step_hides; [apply Hp|done|by rewrite Hs].
  - subst scope. by apply relay_log_hides.
  - unfold cbind. destruct (finish_step _ p) as [? [[]| |]]; [|done..]. intros [= <- <-] text Ht.
    by apply not_elem_of_nil in Ht.
  - intros [= <- <-] text. simpl. rewrite elem_of_cons. intros [-> | Ht]; [apply Hall|].
    apply list_elem_of_bind in Ht as (a & Ht & (a0 & -> & _)%list_elem_of_fmap).
    unfold annotation_texts, mask_annotation, bound_masked_annotation in Ht.
    cbn -[MAX_CHECK_ANNOTATION_PATH_BYTES MAX_CHECK_ANNOTATION_MESSAGE_BYTES MAX_CHECK_ANNOTATION_TITLE_BYTES] in Ht.
    apply elem_of_cons in Ht as [-> | [Ht|Ht]%elem_of_app]; [apply truncate_hides, Hall| |].
    + destruct (an_title a0); [|by apply not_elem_of_nil in Ht]. apply list_elem_of_singleton in Ht as ->.
      apply truncate_hides, Hall.
    + case_decide as Hpath; [by apply not_elem_of_nil in Ht|]. apply list_elem_of_singleton in Ht as ->.
      case_bool_decide; [done | apply Hall].
Qed.

(** C18: a value a step registers with an add-mask command, in any letter case
    and with escapes, appears in none of the texts the relay masks from then on:
    whatever the readers and the relay do in between, no log line and no step name
    of the same job, and no summary, rejection, annotation message, title or path of
    the run contains it.  The value must hold no star, since the replacement is made
    of stars; steps of other jobs do not mask it; and the texts of deployments and
    concurrency groups are masked by nobody ([deployments_are_sent_unmasked]). *)
Theorem registered_mask_stays_hidden p step line value p1 p2 p3 secrets message out text :
  processor_ok p → active_token p (workflow_command_scope step) = None →
  strip_prefix_ignore_ascii_case line "::add-mask::" = Some value →
  decode_workflow_command_data value ≠ "" → star_free (decode_workflow_command_data value) = true →
  process_line step line p = (p1, Ok Suppress) → rtc processor_step p1 p2 →
  in_scope (workflow_command_scope step) message →
  relay_message secrets message p2 = (p3, Ok (Some out)) → text ∈ masked_texts out →
  contains (decode_workflow_command_data value) text = false.
Proof.
  intros Hp Htok Hpre Hne Hfree Hline Hsteps Hscope Hrelay Htext.
  set (m := decode_workflow_command_data value) in *. set (s := workflow_command_scope step) in *.
  assert (kept [(s, m)] p1) as Hk.
  { unfold process_line in Hline. fold s in Hline. rewrite Htok in Hline. unfold process_command_line in Hline.
    rewrite Hpre in Hline.
    pose proof (add_mask_command_spec [] _ p s value (proj1 (processor_ok_kept p) Hp)) as Hs.
    rewrite Hline in Hs. destruct Hs as ((Hok & _ & Hpc) & _ & Hin). split_and!; [done| |done].
    intros s' m' [= -> ->]%list_elem_of_singleton. apply elem_of_app. right. by eapply Hin. }
  eapply (relay_hides secrets message s m p2 p3 out); try done. by eapply processor_steps_kept.
Qed.

(** ** Stopped commands *)

Lemma sapp_split_inclusive data : foldr (λ a b, a +:+ b) "" (split_inclusive lf data) = data.
Proof. apply sconcat_split_inclusive. Qed.

(** while commands are stopped, a log passes through unchanged and the
    processor does not change, whatever looks like a command in it, until a line
    that is the stop token, which is taken out of the log and makes commands
    work again. *)
Theorem stopped_commands_are_inert p step token :
  active_token p (workflow_command_scope step) = Some token →
  (∀ data, (∀ segment, segment ∈ split_inclusive lf data → trim_end_bytes is_line_end segment ≠ stop_line token) →
     process_complete_log step data p = (p, Ok data)) ∧
  (∃ p', process_line step (stop_line token) p = (p', Ok Suppress) ∧
     active_token p' (workflow_command_scope step) = None ∧
     ∀ s, s ≠ workflow_command_scope step → active_token p' s = active_token p s).
Proof.
  intros Htok. split.
  - intros data Hno. unfold process_complete_log.
    rewrite <-(sapp_split_inclusive data) at 2. induction (split_inclusive lf data) as [|seg segs IH]; [done|].
    cbn [process_segments foldr]. unfold cbind at 1, process_line. rewrite Htok, bool_decide_eq_false_2.
    + unfold cbind. rewrite IH; [done|]. intros s Hs. apply Hno. by apply list_elem_of_further.
    + apply Hno, list_elem_of_here.
  - eexists. unfold process_line. rewrite Htok, bool_decide_eq_true_2 by done. split; [done|].
    unfold active_token. simpl. rewrite lookup_insert_eq. split; [done|]. intros s Hs. by rewrite lookup_insert_ne.
Qed.

(** ** Commands over several chunks *)

Fixpoint process_chunks (step : string) (stream : LogStream) (chunks : list string) : cmd (list string) :=
  match chunks with
  | [] => cret []
  | chunk :: chunks =>
      do! visible := process_log step stream chunk in
      do! rest := process_chunks step stream chunks in
      cret (visible :: rest)
  end.

(** A chunk that is full and does not end a line. *)
Definition continues (chunk : string) : bool :=
  bool_decide (MAX_LOG_CHUNK_BYTES ≤ Z.of_nat (slen chunk))%Z && negb (ends_line chunk).

Lemma set_partial_twice p a b :
  p <| partial_commands := a |> <| partial_commands := b |> = p <| partial_commands := b |>.
Proof. reflexivity. Qed.

Lemma set_partial_same p : p <| partial_commands := partial_commands p |> = p.
Proof. by destruct p. Qed.

Lemma read_partial p a : partial_commands (p <| partial_commands := a |>) = a.
Proof. reflexivity. Qed.

Lemma process_log_continues step stream partial chunk p :
  partial_commands p !! (step, stream) = Some partial → continues chunk = true →
  (Z.of_nat (slen (partial +:+ chunk)) ≤ MAX_DYNAMIC_MASK_BYTES_PER_JOB)%Z →
  process_log step stream chunk p =
    (p <| partial_commands := <[(step, stream) := partial +:+ chunk]> (partial_commands p) |>, Ok "").
Proof.
  intros Hpart Hc Hlen. unfold process_log. rewrite Hpart, bool_decide_eq_false_2 by lia.
  unfold continues in Hc. apply andb_true_iff in Hc as [Hc%bool_decide_eq_true ->%negb_true_iff].
  by rewrite bool_decide_eq_false_2 by lia.
Qed.

Lemma process_log_completes step stream partial chunk p :
  partial_commands p !! (step, stream) = Some partial → continues chunk = false →
  (Z.of_nat (slen (partial +:+ chunk)) ≤ MAX_DYNAMIC_MASK_BYTES_PER_JOB)%Z →
  process_log step stream chunk p =
    process_complete_log step (partial +:+ chunk)
      (p <| partial_commands := delete (step, stream) (partial_commands p) |>).
Proof.
  intros Hpart Hc Hlen. unfold process_log. rewrite Hpart, bool_decide_eq_false_2 by lia.
  assert (ends_line chunk || bool_decide (Z.of_nat (slen chunk) < MAX_LOG_CHUNK_BYTES)%Z = true) as ->.
  { unfold continues in Hc. destruct (ends_line chunk); [done|]. cbn [negb] in Hc. rewrite andb_true_r in Hc.
    apply bool_decide_eq_false in Hc. apply bool_decide_eq_true. lia. }
  by rewrite read_partial, set_partial_twice, delete_insert_eq.
Qed.

Lemma process_chunks_partial step stream partial chunks final p :
  partial_commands p !! (step, stream) = Some partial →
  Forall (λ chunk, continues chunk = true) chunks → continues final = false →
  (Z.of_nat (slen (partial +:+ sconcat chunks +:+ final)) ≤ MAX_DYNAMIC_MASK_BYTES_PER_JOB)%Z →
  process_chunks step stream (chunks ++ [final]) p =
  (do! visible := process_complete_log step (partial +:+ sconcat chunks +:+ final) in
   cret (replicate (length chunks) "" ++ [visible]))
    (p <| partial_commands := delete (step, stream) (partial_commands p) |>).
Proof.
  revert partial p; induction chunks as [|chunk chunks IH]; intros partial p Hpart Hall Hfinal Hlen.
  - change (sconcat []) with "" in *. rewrite sapp_nil_l in *. cbn [app process_chunks]. unfold cbind at 1.
    rewrite (process_log_completes _ _ partial) by done.
    unfold cbind. by destruct (process_complete_log _ _ _) as [p' [v|e|]].
  - apply Forall_cons in Hall as [Hc Hall]. cbn [app process_chunks]. unfold cbind at 1.
    change (sconcat (chunk :: chunks)) with (chunk +:+ sconcat chunks) in *.
    rewrite <-!sapp_assoc in Hlen |- *.
    rewrite (process_log_continues _ _ partial) by (try done; rewrite !slen_app in *; lia).
    unfold cbind at 1. rewrite (IH (partial +:+ chunk)); [|by rewrite read_partial, lookup_insert_eq|done|done|rewrite !slen_app in *; lia].
    rewrite read_partial, set_partial_twice, delete_insert_eq, <-!sapp_assoc.
    unfold cbind. by destruct (process_complete_log _ _ _) as [p' [v|e|]].
Qed.

(** a command that the reader of a stream cut into chunks does what it does
    in one piece: when the first full chunk looks like a command, the chunks up
    to the one that ends the line are held back, and the whole is processed as
    one log, as long as it is at most 1 MiB. *)
Theorem split_command_equals_whole step stream first chunks final p :
  partial_commands p !! (step, stream) = None →
  continues first = true → is_suppressible_command p step (trim_end_bytes is_line_end first) = true →
  Forall (λ chunk, continues chunk = true) chunks → continues final = false →
  (Z.of_nat (slen (first +:+ sconcat chunks +:+ final)) ≤ MAX_DYNAMIC_MASK_BYTES_PER_JOB)%Z →
  process_chunks step stream (first :: chunks ++ [final]) p =
  (do! visible := process_complete_log step (first +:+ sconcat chunks +:+ final) in
   cret ("" :: replicate (length chunks) "" ++ [visible])) p.
Proof.
  intros Hnone Hfirst Hsup Hall Hfinal Hlen. cbn [process_chunks]. unfold cbind at 1, process_log. rewrite Hnone.
  unfold continues in Hfirst. rewrite Hfirst, Hsup. cbn [andb].
  unfold cbind at 1. rewrite (process_chunks_partial step stream first); [|by rewrite read_partial, lookup_insert_eq|done..].
  rewrite read_partial, set_partial_twice, delete_insert_id, set_partial_same by done.
  unfold cbind. by destruct (process_complete_log _ _ _) as [p' [v|e|]].
Qed.

(** ** The report of a job *)

(** what the agent reports when a job ends fits the limits of the service:
    at most 50 annotations, each with a path of at most 4096 bytes, a message of
    at most 64 KiB and a title of at most 255 bytes, even after masking has
    lengthened them, on positive 32-bit lines in order, and with columns only on
    a single line; and the annotations are taken, so none is reported twice. *)
Theorem job_report_within_limits p secrets id job conclusion summary reported p' out :
  processor_ok p → relay_message secrets (JobFinished id job conclusion summary reported) p = (p', Ok (Some out)) →
  annotations p' = [] ∧
  ∃ summary' annotations', out = JobFinished id job conclusion summary' annotations' ∧
    length annotations' ≤ MAX_CHECK_ANNOTATIONS ∧
    Forall (λ a, located a ∧ slen (an_path a) ≤ MAX_CHECK_ANNOTATION_PATH_BYTES ∧
      slen (an_message a) ≤ MAX_CHECK_ANNOTATION_MESSAGE_BYTES ∧
      ∀ t, an_title a = Some t → slen t ≤ MAX_CHECK_ANNOTATION_TITLE_BYTES) annotations'.
Proof.
  intros Hp. unfold relay_message, cbind, clift. destruct (ensure_healthy p) as [[]| |]; [|done..]. intros [= <- <-].
  split; [done|]. eexists _, _. split; [done|]. rewrite length_fmap. split; [apply Hp|].
  apply Forall_forall. intros a (a0 & -> & Ha)%list_elem_of_fmap.
  pose proof (proj1 (Forall_forall _ _) (po_located p Hp) a0 Ha) as [Hl Hc].
  unfold mask_annotation, bound_masked_annotation. cbn -[MAX_CHECK_ANNOTATION_PATH_BYTES MAX_CHECK_ANNOTATION_MESSAGE_BYTES].
  split_and!; [by split| |apply truncate_utf8_bytes_le|].
  - case_bool_decide as Hb; [|lia]. vm_compute. lia.
  - intros t (t0 & _ & ->)%fmap_Some. apply truncate_utf8_bytes_le.
Qed.
End props.

(** ** Concrete runs *)

Definition demo_processor : WorkflowCommandProcessor :=
  with_global_masks ["token-of-the-run"; "key"] "/run/repo" "/run".

Lemma demo_processor_ok : processor_ok demo_processor.
Proof. apply with_global_masks_ok. apply (bool_decide_unpack _). vm_compute. exact I. Qed.

Lemma command_processor_invariant_witness :
  processor_ok (prepare_workflow_log "plan/job/build" Stdout ("::warning::slow" +:+ String lf "") demo_processor).1.
Proof.
  apply (command_processor_invariant ["token-of-the-run"; "key"] "/run/repo" "/run").
  - apply (bool_decide_unpack _). vm_compute. exact I.
  - apply rtc_once, step_prepare.
Defined.

Definition demo_masked : WorkflowCommandProcessor :=
  (process_line "plan/job/build" "::ADD-MASK::s%25cret" demo_processor).1.

Lemma registered_mask_stays_hidden_witness :
  (relay_message [] (LogChunk 1 2 "plan/job/later" 0 Stderr "the s%cret leaks") demo_masked).2 =
    Ok (Some (LogChunk 1 2 "plan/job/later" 0 Stderr "the *** leaks")) ∧
  contains "s%cret" "the *** leaks" = false.
Proof.
  assert ((relay_message [] (LogChunk 1 2 "plan/job/later" 0 Stderr "the s%cret leaks") demo_masked).2 =
    Ok (Some (LogChunk 1 2 "plan/job/later" 0 Stderr "the *** leaks"))) as H1 by (vm_compute; reflexivity).
  split; [exact H1|].
  apply (registered_mask_stays_hidden demo_processor "plan/job/build" "::ADD-MASK::s%25cret" "s%25cret"
    demo_masked demo_masked
    (relay_message [] (LogChunk 1 2 "plan/job/later" 0 Stderr "the s%cret leaks") demo_masked).1
    [] (LogChunk 1 2 "plan/job/later" 0 Stderr "the s%cret leaks")
    (LogChunk 1 2 "plan/job/later" 0 Stderr "the *** leaks") "the *** leaks").
  - exact demo_processor_ok.
  - vm_compute. reflexivity.
  - vm_compute. reflexivity.
  - vm_compute. discriminate.
  - vm_compute. reflexivity.
  - vm_compute. reflexivity.
  - apply rtc_refl.
  - vm_compute. reflexivity.
  - rewrite <-H1. apply surjective_pairing.
  - apply list_elem_of_here.
Defined.

Definition demo_stopped : WorkflowCommandProcessor :=
  (process_line "plan/job/build" "::stop-commands::end" demo_processor).1.

Lemma stopped_commands_are_inert_witness :
  process_complete_log "plan/job/build" "::add-mask::x" demo_stopped = (demo_stopped, Ok "::add-mask::x") ∧
  (process_line "plan/job/build" "::end::" demo_stopped).2 = Ok Suppress.
Proof.
  assert (active_token demo_stopped (workflow_command_scope "plan/job/build") = Some "end") as Htok by (vm_compute; reflexivity).
  split.
  - apply (stopped_commands_are_inert demo_stopped "plan/job/build" "end" Htok).
    intros segment Hin. replace (split_inclusive lf "::add-mask::x") with ["::add-mask::x"] in Hin by (vm_compute; reflexivity).
    apply list_elem_of_singleton in Hin as ->. vm_compute. discriminate.
  - destruct (proj2 (stopped_commands_are_inert demo_stopped "plan/job/build" "end" Htok)) as (p' & Hp & _).
    change "::end::" with (stop_line "end"). by rewrite Hp.
Defined.

Fixpoint repeat_byte (n : nat) (c : ascii) : string :=
  match n with 0 => "" | S n => String c (repeat_byte n c) end.

Definition demo_long : string := "::add-mask::" +:+ repeat_byte (Z.to_nat MAX_LOG_CHUNK_BYTES) "x".

Lemma split_command_equals_whole_witness :
  process_chunks "plan/job/build" Stdout (demo_long :: [] ++ ["yz"]) demo_processor =
  cbind (process_complete_log "plan/job/build" (demo_long +:+ sconcat [] +:+ "yz"))
    (λ visible, cret ("" :: replicate (length (@nil string)) "" ++ [visible])) demo_processor.
Proof.
  apply (split_command_equals_whole "plan/job/build" Stdout demo_long [] "yz" demo_processor).
  - vm_compute. reflexivity.
  - vm_compute. reflexivity.
  - vm_compute. reflexivity.
  - constructor.
  - vm_compute. reflexivity.
  - vm_compute. discriminate.
Defined.

Definition demo_reported : AgentMessage :=
  JobFinished 1 2 Conclusion.Failure "the *** leaks" [mkAnnotation ".github" 1 1 None None Warning "slow ***" None].

Lemma job_report_within_limits_witness :
  let p := (prepare_workflow_log "plan/job/build" Stdout ("::warning::slow key" +:+ String lf "") demo_processor).1 in
  let p' := (relay_message [] (JobFinished 1 2 Conclusion.Failure "the key leaks" []) p).1 in
  annotations p' = [] ∧ ∃ summary' annotations', demo_reported = JobFinished 1 2 Conclusion.Failure summary' annotations' ∧
    length annotations' ≤ MAX_CHECK_ANNOTATIONS.
Proof.
  intros p p'. destruct (job_report_within_limits p [] 1 2 Conclusion.Failure "the key leaks" [] p' demo_reported) as (H1 & s & l & H2 & H3 & _).
  - apply (prepare_log_keeps []). apply processor_ok_kept, demo_processor_ok.
  - replace (Ok (Some demo_reported)) with (relay_message [] (JobFinished 1 2 Conclusion.Failure "the key leaks" []) p).2
      by (vm_compute; reflexivity).
    apply surjective_pairing.
  - split; [exact H1|]. exists s, l. split; [exact H2|exact H3].
Defined.

(** The line that an annotation leaves in the log is lost when the stream ends
    inside a full chunk: the end of a stream drops what the log would show. *)
Example annotation_line_lost_at_end :
  let line := "::warning::" +:+ repeat_byte (Z.to_nat MAX_LOG_CHUNK_BYTES) "x" in
  let '(p, visible) := process_log "plan/job/build" Stdout line demo_processor in
  visible = Ok "" ∧ is_ok (finish_stream "plan/job/build" Stdout p).2 = true ∧
  length (annotations (finish_stream "plan/job/build" Stdout p).1) = 1.
Proof. vm_compute. done. Qed.
