(* ===== verification/LogOutput.v ===== *)
(** * Reading the output of a step (crates/gitzero-agent, executor.rs)

    [forward_output]: the bytes of a stream are cut into lines and full chunks,
    each is decoded, processed, masked and sent.  The channel to the relay is
    taken to be open; a read error ends the task where it stands. *)

From S2P Require Import Prelude RustStr RustText UnixPath OrdMap Protocol CommandFile Masking Annotations.
From S2P Require Import ProblemMatcher MatcherSpec MatcherRegistry WorkflowCommands WorkflowCommandsProps.

(** [String::from_utf8_lossy]: each maximal part of a broken sequence becomes
    U+FFFD. *)
Definition replacement : string := String "239" (String "191" (String "189" "")).

Fixpoint from_utf8_lossy (s : string) : string :=
  let cont := byte_in 128 191 in
  match s with
  | EmptyString => ""
  | String a s1 =>
      if byte_in 0 127 a then String a (from_utf8_lossy s1) else
      match s1 with
      | EmptyString => replacement
      | String b s2 =>
          if byte_in 194 223 a then
            if cont b then String a (String b (from_utf8_lossy s2)) else replacement +:+ from_utf8_lossy s1
          else
          let second :=
            if byte_in 224 224 a then byte_in 160 191 b
            else if byte_in 237 237 a then byte_in 128 159 b
            else if byte_in 225 239 a then cont b
            else if byte_in 240 240 a then byte_in 144 191 b
            else if byte_in 241 243 a then cont b
            else if byte_in 244 244 a then byte_in 128 143 b
            else false in
          if negb second then replacement +:+ from_utf8_lossy s1 else
          match s2 with
          | EmptyString => replacement
          | String c s3 =>
              if negb (cont c) then replacement +:+ from_utf8_lossy s2
              else if byte_in 224 239 a then String a (String b (String c (from_utf8_lossy s3))) else
              match s3 with
              | EmptyString => replacement
              | String d s4 =>
                  if cont d then String a (String b (String c (String d (from_utf8_lossy s4))))
                  else replacement +:+ from_utf8_lossy s3
              end
          end
      end
  end.

(** ** Cutting *)

Definition chunk_bytes : nat := Z.to_nat MAX_LOG_CHUNK_BYTES.

Definition is_full (pending : string) : bool := bool_decide (Z.of_nat (slen pending) = MAX_LOG_CHUNK_BYTES)%Z.

(** One turn of the loop over the bytes of a read: up to the next line break,
    or as many as complete the chunk. *)
Definition cut_step (pending remaining : string) : string * string * bool :=
  let newline := sfind (String lf "") remaining in
  let through_newline := match newline with Some position => position + 1 | None => slen remaining end in
  let take := through_newline `min` (chunk_bytes - slen pending) in
  let pending := pending +:+ stake take remaining in
  (pending, sdrop take remaining,
   is_full pending || (is_some newline && bool_decide (take = through_newline))).

Fixpoint cut_loop (fuel : nat) (pending remaining : string) (ready : list string) : option (list string * string) :=
  if is_empty remaining then Some (ready, pending)
  else match fuel with
  | 0 => None
  | S fuel =>
      let '(pending, remaining, complete) := cut_step pending remaining in
      if complete then cut_loop fuel "" remaining (ready ++ [pending])
      else cut_loop fuel pending remaining ready
  end.

(** The complete chunks of a read, and what is pending after it; each turn takes
    a byte, so the length of the read is fuel enough. *)
Definition cut (pending available : string) : option (list string * string) :=
  cut_loop (slen available) pending available [].

(** The specification: byte by byte. *)
Fixpoint cut_bytes (pending s : string) : list string * string :=
  match s with
  | EmptyString => ([], pending)
  | String c s =>
      let pending := pending +:+ String c "" in
      if is_full pending || bool_decide (c = lf)
      then let '(ready, pending') := cut_bytes "" s in (pending :: ready, pending')
      else cut_bytes pending s
  end.

Section output.
Context `{CL : CaptureLib} `{MF : MatcherFiles}.
(** [Uuid::new_v4], one per message sent. *)
Context (new_uuid : Z → Uuid).

(** What the task keeps: the processor, the sequence counter and what it sent. *)
Record Forwarder := mkForwarder {
  fw_processor : WorkflowCommandProcessor;
  fw_sequence : Z;
  fw_sent : list AgentMessage;
}.

(** Send one chunk; [None] stops the task. *)
Definition forward_chunk (job_id : Uuid) (step_id : string) (stream : LogStream) (data : string) (f : Forwarder)
    : Forwarder * bool :=
  match prepare_workflow_log step_id stream (from_utf8_lossy data) (fw_processor f) with
  | (p, Ok (Some data)) =>
      if is_empty data then (mkForwarder p (fw_sequence f) (fw_sent f), true)
      else
        let message_id := new_uuid (fw_sequence f) in
        (mkForwarder (mark_preprocessed_log message_id p) (fw_sequence f + 1)
           (fw_sent f ++ [LogChunk message_id job_id step_id (fw_sequence f) stream data]), true)
  | (p, _) => (mkForwarder p (fw_sequence f) (fw_sent f), false)
  end.

Fixpoint forward_chunks (job_id : Uuid) (step_id : string) (stream : LogStream) (chunks : list string)
    (f : Forwarder) : Forwarder * bool :=
  match chunks with
  | [] => (f, true)
  | chunk :: chunks =>
      match forward_chunk job_id step_id stream chunk f with
      | (f, true) => forward_chunks job_id step_id stream chunks f
      | (f, false) => (f, false)
      end
  end.

(** The end of the stream. *)
Definition forward_end (job_id : Uuid) (step_id : string) (stream : LogStream) (pending : string) (f : Forwarder)
    : Forwarder :=
  match (if is_empty pending then (f, true) else forward_chunk job_id step_id stream pending f) with
  | (f, false) => f
  | (f, true) =>
      match finish_stream step_id stream (fw_processor f) with
      | (p, Err e) => mkForwarder (fail e p) (fw_sequence f) (fw_sent f)
      | (p, _) => mkForwarder p (fw_sequence f) (fw_sent f)
      end
  end.

(** The reads of a stream that ends without a read error. *)
Fixpoint forward_output (job_id : Uuid) (step_id : string) (stream : LogStream) (pending : string)
    (reads : list string) (f : Forwarder) : option Forwarder :=
  match reads with
  | [] => Some (forward_end job_id step_id stream pending f)
  | available :: reads =>
      '(ready, pending) ← cut pending available;
      match forward_chunks job_id step_id stream ready f with
      | (f, true) => forward_output job_id step_id stream pending reads f
      | (f, false) => Some f
      end
  end.

(** What the stream amounts to: the chunks of all its bytes. *)
Definition forward_reference (job_id : Uuid) (step_id : string) (stream : LogStream) (bytes : string)
    (f : Forwarder) : Forwarder :=
  let '(ready, pending) := cut_bytes "" bytes in
  match forward_chunks job_id step_id stream ready f with
  | (f, true) => forward_end job_id step_id stream pending f
  | (f, false) => f
  end.

(** ** The cuts do not depend on the reads *)

Lemma chunk_bytes_Z : Z.of_nat chunk_bytes = MAX_LOG_CHUNK_BYTES.
Proof. unfold chunk_bytes. rewrite Z2Nat.id; [done|]. unfold MAX_LOG_CHUNK_BYTES. lia. Qed.

#[local] Opaque chunk_bytes.

Lemma is_full_true pending : is_full pending = true ↔ slen pending = chunk_bytes.
Proof. unfold is_full. rewrite bool_decide_eq_true, <-chunk_bytes_Z. lia. Qed.

Lemma is_full_false pending : is_full pending = false ↔ slen pending ≠ chunk_bytes.
Proof. rewrite <-not_true_iff_false, is_full_true. done. Qed.

Lemma cut_bytes_app pending a b :
  cut_bytes pending (a +:+ b) =
    let '(ready, pending') := cut_bytes pending a in
    let '(ready', pending'') := cut_bytes pending' b in (ready ++ ready', pending'').
Proof.
  revert pending; induction a as [|c a IH]; intros pending.
  - rewrite sapp_nil_l. simpl. by destruct (cut_bytes pending b).
  - rewrite sapp_cons. cbn [cut_bytes]. destruct (_ || _).
    + rewrite IH. destruct (cut_bytes "" a) as [r p']. by destruct (cut_bytes p' b).
    + apply IH.
Qed.

Lemma cut_bytes_pending pending s :
  slen pending < chunk_bytes → slen (cut_bytes pending s).2 < chunk_bytes.
Proof.
  revert pending; induction s as [|c s IH]; intros pending Hp; [done|]. cbn [cut_bytes].
  destruct (_ || _) eqn:E.
  - specialize (IH ""). destruct (cut_bytes "" s) as [r p']. apply IH. change (slen "") with 0. lia.
  - apply IH. apply orb_false_iff in E as [E%is_full_false _]. rewrite slen_app in *. change (slen (String c "")) with 1 in *. lia.
Qed.

(** A run of bytes without line break that does not complete the chunk. *)
Lemma cut_bytes_free pending a :
  free_of lf a = true → slen pending + slen a < chunk_bytes → cut_bytes pending a = ([], pending +:+ a).
Proof.
  revert pending; induction a as [|c a IH]; intros pending Hf Hl; [by rewrite sapp_nil_r|].
  apply free_of_cons in Hf as [Hc Hf]. rewrite slen_string in Hl. cbn [cut_bytes].
  rewrite bool_decide_eq_false_2, orb_false_r by done.
  assert (is_full (pending +:+ String c "") = false) as ->.
  { apply is_full_false. rewrite slen_app. change (slen (String c "")) with 1. lia. }
  rewrite IH; [|done|rewrite slen_app; change (slen (String c "")) with 1; lia]. by rewrite sapp_assoc.
Qed.

(** The last byte of such a run completes it or breaks the line. *)
Lemma cut_bytes_last pending a c :
  free_of lf a = true → slen pending + slen a < chunk_bytes →
  slen pending + slen a + 1 = chunk_bytes ∨ c = lf →
  cut_bytes pending (a +:+ String c "") = ([pending +:+ a +:+ String c ""], "").
Proof.
  intros Hf Hl Hc. rewrite cut_bytes_app, cut_bytes_free by done. cbn [cut_bytes].
  rewrite (sapp_assoc pending a). rewrite (proj2 (orb_true_iff _ _)); [done|].
  destruct Hc as [Hc | ->]; [left|right; by apply bool_decide_eq_true].
  apply is_full_true. rewrite !slen_app. change (slen (String c "")) with 1. lia.
Qed.

(** Splitting off the last byte. *)
Lemma string_last s : s ≠ "" → ∃ a c, s = a +:+ String c "".
Proof.
  induction s as [|c s IH]; [done|]. intros _. destruct s as [|d s]; [by exists "", c|].
  destruct IH as (a & e & ->); [done|]. exists (String c a), e. done.
Qed.

Lemma free_of_stake c n s : free_of c s = true → free_of c (stake n s) = true.
Proof. rewrite <-(stake_sdrop n s) at 1. by intros [? _]%free_of_app. Qed.

Lemma sfind_newline s i :
  sfind (String lf "") s = Some i → ∃ a b, s = a +:+ String lf b ∧ free_of lf a = true ∧ slen a = i.
Proof.
  revert i; induction s as [|c s IH]; intros i; [done|]. simpl.
  unfold starts_with. simpl. case_bool_decide as Hc; subst.
  - intros [= <-]. by exists "", s.
  - destruct (sfind _ s) as [j|]; [|done]. intros [= <-]. destruct (IH j eq_refl) as (a & b & -> & Ha & Hl).
    exists (String c a), b. split_and!; [done|apply free_of_cons; naive_solver|by rewrite slen_string, Hl].
Qed.

Lemma sfind_newline_None s : sfind (String lf "") s = None → free_of lf s = true.
Proof.
  induction s as [|c s IH]; [done|]. simpl. unfold starts_with. simpl. case_bool_decide; [done|].
  destruct (sfind _ s); [done|]. intros _. apply free_of_cons. naive_solver.
Qed.

Lemma stake_app_le n a b : n ≤ slen a → stake n (a +:+ b) = stake n a.
Proof.
  revert a; induction n as [|n IH]; intros [|c a] Hn; [done..| |].
  - change (slen "") with 0 in Hn. lia.
  - rewrite sapp_cons. simpl. rewrite slen_string in Hn. rewrite IH by lia. done.
Qed.

(** A full chunk without line break. *)
Lemma cut_bytes_full pending a :
  a ≠ "" → free_of lf a = true → slen pending + slen a = chunk_bytes → cut_bytes pending a = ([pending +:+ a], "").
Proof.
  intros Hne Hf Hl. destruct (string_last a Hne) as (a0 & c & ->). apply free_of_app in Hf as [Hf _].
  rewrite slen_app in Hl. change (slen (String c "")) with 1 in Hl. apply cut_bytes_last; [done|lia|lia].
Qed.

Lemma cut_step_spec pending rem :
  slen pending < chunk_bytes → rem ≠ "" →
  let '(pending', rem', complete) := cut_step pending rem in
  slen rem' < slen rem ∧ slen pending' ≤ chunk_bytes ∧ (complete = false → slen pending' < chunk_bytes) ∧
  cut_bytes pending rem =
    if complete then let '(ready, p) := cut_bytes "" rem' in (pending' :: ready, p) else cut_bytes pending' rem'.
Proof.
  intros Hp Hne. unfold cut_step.
  set (through := match sfind _ rem with Some position => position + 1 | None => slen rem end).
  set (take := through `min` (chunk_bytes - slen pending)).
  assert (0 < slen rem) as Hrem.
  { destruct rem; [done|]. rewrite slen_string. lia. }
  assert (0 < through ≤ slen rem) as Hth.
  { unfold through. destruct (sfind _ rem) as [i|] eqn:E; [|lia]. apply sfind_bound in E.
    change (slen (String lf "")) with 1 in E. lia. }
  assert (0 < take) as Htake by (unfold take; lia).
  assert (slen (stake take rem) = take) as Hlen by (rewrite slen_stake; unfold take; lia).
  assert (slen (pending +:+ stake take rem) = slen pending + take) as Hlen' by (rewrite slen_app; lia).
  split_and!; [rewrite slen_sdrop; lia|unfold take in *; lia| |].
  { intros [Hf%is_full_false _]%orb_false_iff. unfold take in *. lia. }
  rewrite <-(stake_sdrop take rem) at 1. rewrite cut_bytes_app.
  assert (stake take rem ≠ "") as Hnz.
  { intros Hz. rewrite Hz in Hlen. change (slen "") with 0 in Hlen. lia. }
  destruct (decide (slen pending + take = chunk_bytes)) as [Hfull|Hnot].
  - rewrite (proj2 (is_full_true _)) by lia. cbn [orb].
    unfold through in take, Hth. destruct (sfind (String lf "") rem) as [i|] eqn:E.
    + destruct (sfind_newline rem i E) as (a & b & Hab & Hfa & Hla).
      destruct (decide (take = i + 1)) as [Hti|Hti].
      * assert (stake take rem = a +:+ String lf "") as ->.
        { rewrite Hab. replace (a +:+ String lf b) with ((a +:+ String lf "") +:+ b) by by rewrite sapp_assoc.
          replace take with (slen (a +:+ String lf "")); [apply stake_app_exact|].
          rewrite slen_app. change (slen (String lf "")) with 1. lia. }
        rewrite cut_bytes_last; [|done|lia|by right]. by destruct (cut_bytes "" _).
      * assert (stake take rem = stake take a) as Hst.
        { rewrite Hab. apply stake_app_le. unfold take in *. lia. }
        rewrite cut_bytes_full; [by destruct (cut_bytes "" _)|done|rewrite Hst; by apply free_of_stake|lia].
    + rewrite cut_bytes_full; [by destruct (cut_bytes "" _)|done| |lia].
      by apply free_of_stake, sfind_newline_None.
  - assert (is_full (pending +:+ stake take rem) = false) as -> by (apply is_full_false; lia). cbn [orb].
    assert (take = through) as Htt by (unfold take in *; lia).
    unfold through in take, Hth, Htt. destruct (sfind (String lf "") rem) as [i|] eqn:E; cbn [is_some andb].
    + destruct (sfind_newline rem i E) as (a & b & Hab & Hfa & Hla). rewrite bool_decide_eq_true_2 by done.
      assert (stake take rem = a +:+ String lf "") as ->.
      { rewrite Hab. replace (a +:+ String lf b) with ((a +:+ String lf "") +:+ b) by by rewrite sapp_assoc.
        replace take with (slen (a +:+ String lf "")); [apply stake_app_exact|].
        rewrite slen_app. change (slen (String lf "")) with 1. lia. }
      rewrite cut_bytes_last; [|done|unfold take in *; lia|by right]. by destruct (cut_bytes "" _).
    + rewrite cut_bytes_free; [by destruct (cut_bytes _ (sdrop take rem))| |lia].
      by apply free_of_stake, sfind_newline_None.
Qed.

Lemma cut_loop_spec fuel pending rem ready :
  slen pending < chunk_bytes → slen rem ≤ fuel →
  cut_loop fuel pending rem ready = Some (ready ++ (cut_bytes pending rem).1, (cut_bytes pending rem).2).
Proof.
  revert pending rem ready; induction fuel as [|fuel IH]; intros pending rem ready Hp Hf; destruct rem as [|c rem].
  - by rewrite app_nil_r.
  - rewrite slen_string in Hf. lia.
  - simpl. by rewrite app_nil_r.
  - cbn [cut_loop is_empty]. pose proof (cut_step_spec pending (String c rem) Hp ltac:(done)) as Hs.
    destruct (cut_step pending (String c rem)) as [[pending' rem'] complete]. destruct Hs as (H1 & H2 & H3 & ->).
    destruct complete.
    + rewrite IH; [|change (slen "") with 0; lia|lia]. destruct (cut_bytes "" rem') as [r p']. simpl.
      by rewrite <-app_assoc.
    + apply IH; [by apply H3|lia].
Qed.

Lemma cut_spec pending available :
  slen pending < chunk_bytes → cut pending available = Some (cut_bytes pending available).
Proof. intros Hp. unfold cut. rewrite cut_loop_spec by done. by destruct (cut_bytes pending available). Qed.

Lemma forward_chunks_app job step stream a b f :
  forward_chunks job step stream (a ++ b) f =
  match forward_chunks job step stream a f with
  | (f, true) => forward_chunks job step stream b f
  | (f, false) => (f, false)
  end.
Proof.
  revert f; induction a as [|c a IH]; intros f; [done|]. cbn [app forward_chunks].
  destruct (forward_chunk job step stream c f) as [f' []]; [apply IH|done].
Qed.

Lemma forward_output_spec job step stream pending reads f :
  slen pending < chunk_bytes →
  forward_output job step stream pending reads f =
  Some (let '(ready, pending') := cut_bytes pending (sconcat reads) in
        match forward_chunks job step stream ready f with
        | (f, true) => forward_end job step stream pending' f
        | (f, false) => f
        end).
Proof.
  revert pending f; induction reads as [|r reads IH]; intros pending f Hp; [done|].
  cbn [forward_output]. rewrite cut_spec by done. change (sconcat (r :: reads)) with (r +:+ sconcat reads).
  rewrite cut_bytes_app. pose proof (cut_bytes_pending pending r Hp) as Hp'.
  destruct (cut_bytes pending r) as [ready pending']. cbn [mbind option_bind].
  destruct (cut_bytes pending' (sconcat reads)) as [ready' pending''] eqn:E. rewrite forward_chunks_app.
  destruct (forward_chunks job step stream ready f) as [f' []]; [|done].
  rewrite IH by done. by rewrite E.
Qed.

(** C32: what is forwarded of a stream, and the state it leaves the command
    processor in, depend only on its bytes and not on how they arrived: every
    fragmentation into reads gives the chunks of the byte-by-byte
    specification, cut after each line break and after each 32 KiB, and the
    cutting loop always ends. *)
Theorem forward_output_ignores_fragmentation job step stream reads f :
  forward_output job step stream "" reads f = Some (forward_reference job step stream (sconcat reads) f).
Proof.
  rewrite forward_output_spec; [done|]. apply Nat2Z.inj_lt. rewrite chunk_bytes_Z. done.
Qed.

(** ** The chunks *)

Lemma cut_bytes_concat pending s :
  sconcat (cut_bytes pending s).1 +:+ (cut_bytes pending s).2 = pending +:+ s.
Proof.
  revert pending; induction s as [|c s IH]; intros pending; simpl; [by rewrite sapp_nil_r|].
  destruct (_ || _).
  - specialize (IH ""). destruct (cut_bytes "" s) as [r p']. simpl in *. rewrite sapp_assoc, IH, sapp_assoc. done.
  - rewrite IH, sapp_assoc. done.
Qed.

Lemma cut_bytes_bound pending s :
  slen pending < chunk_bytes → Forall (λ chunk, chunk ≠ "" ∧ slen chunk ≤ chunk_bytes) (cut_bytes pending s).1.
Proof.
  revert pending; induction s as [|c s IH]; intros pending Hp; simpl; [constructor|].
  assert (slen (pending +:+ String c "") = S (slen pending)) as Hl.
  { rewrite slen_app. change (slen (String c "")) with 1. lia. }
  destruct (_ || _) eqn:E.
  - specialize (IH ""). destruct (cut_bytes "" s) as [r p']. simpl in *. constructor.
    + split; [|lia]. intros Hz. rewrite Hz in Hl. done.
    + apply IH. change (slen "") with 0. lia.
  - apply IH. apply orb_false_iff in E as [E%is_full_false _]. lia.
Qed.

(** ** Decoding *)

Lemma byte_in_mono a b c d x : byte_in a b x = true → (c ≤ a)%N → (b ≤ d)%N → byte_in c d x = true.
Proof. unfold byte_in. rewrite !andb_true_iff, !bool_decide_eq_true. lia. Qed.

Lemma byte_in_disjoint a b c d x : byte_in a b x = true → (b < c ∨ d < a)%N → byte_in c d x = false.
Proof.
  unfold byte_in. rewrite andb_true_iff, andb_false_iff, !bool_decide_eq_true, !bool_decide_eq_false. lia.
Qed.

(** A second byte of a narrower range is a continuation. *)
Lemma lossy_valid s : valid_utf8 s = true → from_utf8_lossy s = s.
Proof.
  remember (slen s) as n eqn:Hn. revert s Hn. induction (lt_wf n) as [n _ IH]. intros s -> Hv.
  assert (∀ t, slen t < slen s → valid_utf8 t = true → from_utf8_lossy t = t) as Hrec by (intros t Ht; by apply (IH (slen t))).
  clear IH. destruct s as [|a s1]; [done|]. cbn [valid_utf8 from_utf8_lossy] in *.
  destruct (byte_in 0 127 a) eqn:E0; [by rewrite Hrec by (rewrite ?slen_string; lia || done)|].
  destruct s1 as [|b s2]; [done|]. destruct (byte_in 194 223 a) eqn:E1.
  { apply andb_true_iff in Hv as [-> Hv]. by rewrite Hrec by (rewrite ?slen_string; lia || done). }
  destruct s2 as [|c s3]; [done|].
  assert (∀ second, second = true → byte_in 128 191 c = true → byte_in 224 239 a = true → valid_utf8 s3 = true →
    (if negb second then replacement +:+ from_utf8_lossy (String b (String c s3))
     else if negb (byte_in 128 191 c) then replacement +:+ from_utf8_lossy (String c s3)
     else if byte_in 224 239 a then String a (String b (String c (from_utf8_lossy s3)))
     else match s3 with
          | EmptyString => replacement
          | String d s4 => if byte_in 128 191 d then String a (String b (String c (String d (from_utf8_lossy s4))))
                           else replacement +:+ from_utf8_lossy s3
          end) = String a (String b (String c s3))) as Hthree.
  { intros second -> -> -> H3. simpl. by rewrite Hrec by (rewrite ?slen_string; lia || done). }
  destruct (byte_in 224 224 a) eqn:E2.
  { apply andb_true_iff in Hv as [[Hb Hc]%andb_true_iff Hv]. apply Hthree; try done. by eapply byte_in_mono. }
  destruct (byte_in 237 237 a) eqn:E3.
  { apply andb_true_iff in Hv as [[Hb Hc]%andb_true_iff Hv]. apply Hthree; try done. by eapply byte_in_mono. }
  destruct (byte_in 225 239 a) eqn:E4.
  { apply andb_true_iff in Hv as [[Hb Hc]%andb_true_iff Hv]. apply Hthree; try done. by eapply byte_in_mono. }
  clear Hthree. destruct s3 as [|d s4]; [done|].
  destruct (byte_in 240 240 a) eqn:E5; [|destruct (byte_in 241 243 a) eqn:E6; [|destruct (byte_in 244 244 a) eqn:E7; [|done]]];
    apply andb_true_iff in Hv as [[[Hb Hc]%andb_true_iff Hd]%andb_true_iff Hv]; rewrite Hb, Hc, Hd; cbn [negb];
    (rewrite (byte_in_disjoint _ _ 224 239 a) by (eassumption || lia));
    by rewrite Hrec by (rewrite ?slen_string; lia || done).
Qed.

Definition line_of (l : string) : string := l +:+ String lf "".

Lemma cut_bytes_lines ls :
  Forall (λ l, free_of lf l = true ∧ slen l < chunk_bytes) ls →
  cut_bytes "" (sconcat (line_of <$> ls)) = (line_of <$> ls, "").
Proof.
  induction 1 as [|l ls [Hf Hl] _ IH]; [done|]. cbn [fmap list_fmap].
  change (sconcat (line_of l :: (line_of <$> ls))) with (line_of l +:+ sconcat (line_of <$> ls)).
  rewrite cut_bytes_app. unfold line_of at 1. rewrite cut_bytes_last; [|done|change (slen "") with 0; lia|by right].
  rewrite IH. by rewrite sapp_nil_l.
Qed.

(** lines of valid UTF-8 shorter than a chunk are forwarded one by one and
    as they are: they are the chunks of the stream, however it arrives, and
    decoding leaves them alone; only a longer line is cut, possibly inside a
    character or a secret. *)
Theorem short_lines_are_forwarded_whole job step stream ls reads f :
  Forall (λ l, free_of lf l = true ∧ (Z.of_nat (slen l) < MAX_LOG_CHUNK_BYTES)%Z ∧ valid_utf8 (line_of l) = true) ls →
  sconcat reads = sconcat (line_of <$> ls) →
  forward_output job step stream "" reads f =
    Some (match forward_chunks job step stream (line_of <$> ls) f with
          | (f, true) => forward_end job step stream "" f
          | (f, false) => f
          end) ∧
  Forall (λ l, from_utf8_lossy (line_of l) = line_of l) ls.
Proof.
  intros Hls Heq. split.
  - rewrite forward_output_spec by (apply Nat2Z.inj_lt; rewrite chunk_bytes_Z; done). rewrite Heq, cut_bytes_lines; [done|].
    eapply Forall_impl; [exact Hls|]. intros l (? & Hl & _). split; [done|]. rewrite <-chunk_bytes_Z in Hl. lia.
  - eapply Forall_impl; [exact Hls|]. intros l (_ & _ & ?). by apply lossy_valid.
Qed.
End output.

(** ** A secret across a cut

    A line longer than a chunk is cut without looking at it: each part is masked
    on its own, so a secret that straddles the cut is sent in two pieces. *)
Definition demo_uuid (n : Z) : Uuid := n.

Definition sent_text (f : option Forwarder) : string :=
  match f with
  | Some f => sconcat ((λ m, match m with LogChunk _ _ _ _ _ data => data | _ => "" end) <$> fw_sent f)
  | None => ""
  end.

Definition long_line (tail : string) : string :=
  repeat_byte (Z.to_nat (MAX_LOG_CHUNK_BYTES - 8)) "x" +:+ tail +:+ String lf "".

Example secret_across_a_cut_leaks :
  contains "token-of-the-run"
    (sent_text (forward_output demo_uuid 1 "plan/job/build" Stdout "" [long_line "token-of-the-run"]
                  (mkForwarder demo_processor 0 []))) = true.
Proof. vm_compute. reflexivity. Qed.

(** And the rest of such a line is read as a line of its own: a command in the
    middle of a line is executed. *)
Example command_inside_a_line_is_executed :
  match forward_output demo_uuid 1 "plan/job/build" Stdout ""
          [long_line "12345678::set-output name=result::forged"] (mkForwarder demo_processor 0 []) with
  | Some f => lv_outputs (legacy_of (fw_processor f) "plan/job/build") !! "result"
  | None => None
  end = Some "forged".
Proof. vm_compute. reflexivity. Qed.

Lemma short_lines_are_forwarded_whole_witness :
  forward_output demo_uuid 1 "plan/job/build" Stdout "" ["one" +:+ String lf "tw"; "o" +:+ String lf ""] (mkForwarder demo_processor 0 []) =
  Some (match forward_chunks demo_uuid 1 "plan/job/build" Stdout (line_of <$> ["one"; "two"]) (mkForwarder demo_processor 0 []) with
        | (f, true) => forward_end demo_uuid 1 "plan/job/build" Stdout "" f
        | (f, false) => f
        end).
Proof.
  refine (proj1 (short_lines_are_forwarded_whole demo_uuid 1 "plan/job/build" Stdout ["one"; "two"]
    ["one" +:+ String lf "tw"; "o" +:+ String lf ""] (mkForwarder demo_processor 0 []) _ eq_refl)).
  repeat constructor; vm_compute; reflexivity.
Defined.
