(* ===== verification/Cache.v ===== *)
(** * The workflow cache service (crates/gitzero-agent, cache.rs)

    The handlers of the local cache service over a store of entries that all the
    services of a machine share: lookup, listing, reservation, upload in ranges,
    commit with eviction, and download.  SHA-256 is a parameter; the HTTP server
    and the file system are reduced to what the handlers read and write, and
    their I/O errors are left out. *)

From S2P Require Import Prelude RustStr UnixPath OrdMap RustText.

Definition CACHE_RETENTION_MILLIS : Z := 7 * 24 * 60 * 60 * 1000.
Definition MAX_CACHE_KEY_BYTES : nat := 512.
Definition MAX_CACHE_VERSION_BYTES : nat := 128.
Definition MAX_LOOKUP_KEYS : nat := 10.

Record CacheLimits := mkLimits {
  maximum_bytes : Z;
  maximum_entry_bytes : Z;
}.

(** ** Modes *)

Inductive CacheMode := NoCache | Read | Write | WriteOnly.

#[export] Instance CacheMode_eq_dec : EqDecision CacheMode.
Proof. solve_decision. Defined.

Definition cache_mode_as_str (mode : CacheMode) : string :=
  match mode with NoCache => "none" | Read => "read" | Write => "write" | WriteOnly => "write-only" end.

Definition cache_mode_from_str (value : string) : outcome string CacheMode :=
  if bool_decide (value = "none") then Ok NoCache
  else if bool_decide (value = "read") then Ok Read
  else if bool_decide (value = "write") then Ok Write
  else if bool_decide (value = "write-only") then Ok WriteOnly
  else Err "cache mode must be one of: none, read, write, write-only".

Definition allows_read (mode : CacheMode) : bool := match mode with Read | Write => true | _ => false end.
Definition allows_write (mode : CacheMode) : bool := match mode with Write | WriteOnly => true | _ => false end.

(** ** Data *)

Record StoredCache := mkStored {
  cache_key : string;
  cache_version : string;
  cache_scope : string;
  creation_time : Z;
  last_accessed_time : Z;
  cache_size : Z;
}.

#[export] Instance StoredCache_updatable : Updatable StoredCache := λ s,
  mkStored (cache_key s) (cache_version s) (cache_scope s) (creation_time s) (last_accessed_time s) (cache_size s).

(** A directory of the store: its scope and its name in it. *)
Notation Directory := (string * string)%type.

Record CacheEntry := mkEntry {
  ce_directory : Directory;
  ce_metadata : StoredCache;
}.

(** What a directory holds: the metadata and the archive. *)
Record StoredEntry := mkStoredEntry {
  se_metadata : StoredCache;
  se_archive : string;
}.

Notation Store := (gmap Directory StoredEntry).

Record Reservation := mkReservation {
  rv_key : string;
  rv_version : string;
  rv_upload : string;                  (** the content of the upload file *)
  rv_uploaded : bool;                  (** whether it exists *)
  rv_ranges : list (Z * Z);
  rv_committed : bool;
}.

#[export] Instance Reservation_updatable : Updatable Reservation := λ r,
  mkReservation (rv_key r) (rv_version r) (rv_upload r) (rv_uploaded r) (rv_ranges r) (rv_committed r).

(** One service; [store] is shared by all of them. *)
Record CacheState := mkState {
  scope_root : string;
  scope : string;
  base_url : string;
  runtime_token : string;
  mode : CacheMode;
  limits : CacheLimits;
  next_reservation : Z;
  reservations : gmap Z Reservation;
  store : Store;
}.

#[export] Instance CacheState_updatable : Updatable CacheState := λ s,
  mkState (scope_root s) (scope s) (base_url s) (runtime_token s) (mode s) (limits s)
    (next_reservation s) (reservations s) (store s).

Record CacheHttpError := mkHttpError { he_status : Z; he_message : string }.

Notation http := (outcome CacheHttpError).

Definition BAD_REQUEST : Z := 400.
Definition UNAUTHORIZED : Z := 401.
Definition FORBIDDEN : Z := 403.
Definition NOT_FOUND : Z := 404.
Definition CONFLICT : Z := 409.
Definition PAYLOAD_TOO_LARGE : Z := 413.
Definition INTERNAL_SERVER_ERROR : Z := 500.

Definition refuse (refused : bool) (status : Z) (message : string) : http unit :=
  reject_if refused (mkHttpError status message).

(** ** Guards *)

Definition authorize (state : CacheState) (authorization : option string) : http unit :=
  refuse (negb (bool_decide (authorization = Some ("Bearer " +:+ runtime_token state)))) UNAUTHORIZED
    "cache request is not authorized".

Definition require_cache_read (state : CacheState) : http unit :=
  refuse (negb (allows_read (mode state))) FORBIDDEN
    ("cache read denied: effective cache mode '" +:+ cache_mode_as_str (mode state) +:+ "' does not permit reads").

Definition require_cache_write (state : CacheState) : http unit :=
  refuse (negb (allows_write (mode state))) FORBIDDEN
    ("cache write denied: effective cache mode '" +:+ cache_mode_as_str (mode state) +:+ "' does not permit writes").

Definition validate_key (key : string) : http unit :=
  refuse (is_empty key || bool_decide (MAX_CACHE_KEY_BYTES < slen key) ||
          contains_byte (λ c, bool_decide (c = ","%char)) key) BAD_REQUEST
    "cache key is empty, too large, or contains a comma".

Definition validate_version (version : string) : http unit :=
  refuse (is_empty version || bool_decide (MAX_CACHE_VERSION_BYTES < slen version)) BAD_REQUEST
    "cache version is empty or too large".

Definition valid_digest (value : string) : bool :=
  bool_decide (slen value = 64) && string_forall is_ascii_hexdigit value.

Definition parse_content_range (content_range : option string) : http (Z * Z) :=
  let invalid := mkHttpError BAD_REQUEST "Content-Range is invalid" in
  let? value := ok_or content_range (mkHttpError BAD_REQUEST "Content-Range is required") in
  let? range := ok_or (value ← strip_prefix "bytes " value;
                       '(range, _) ← split_once "/" value;
                       split_once "-" range) invalid in
  let? start := ok_or (parse_unsigned u64_max range.1) invalid in
  let? stop := ok_or (parse_unsigned u64_max range.2) invalid in
  reject_if (bool_decide (stop < start)%Z) invalid ;?
  Ok (start, stop).

(** ** Ranges *)

(** [sort_unstable] on pairs; equal pairs are indistinguishable. *)
Definition range_le (a b : Z * Z) : Prop := (a.1 < b.1 ∨ a.1 = b.1 ∧ a.2 ≤ b.2)%Z.

#[export] Instance range_le_dec a b : Decision (range_le a b).
Proof. unfold range_le. apply _. Defined.

Fixpoint covers_from (size covered : Z) (ranges : list (Z * Z)) : bool :=
  match ranges with
  | [] => false
  | (start, stop) :: ranges =>
      if bool_decide (covered < start)%Z then false
      else
        let covered := Z.max covered (saturating_add stop 1) in
        if bool_decide (size ≤ covered)%Z then true else covers_from size covered ranges
  end.

Definition ranges_cover (ranges : list (Z * Z)) (size : Z) : bool :=
  covers_from size 0 (merge_sort range_le ranges).

(** ** The entries of a store *)

Definition entry_of (binding : Directory * StoredEntry) : CacheEntry := mkEntry binding.1 (se_metadata binding.2).

(** [load_scope_entries] and [scan_cache_entries]. *)
Definition load_scope_entries (scope_root : string) (store : Store) : list CacheEntry :=
  entry_of <$> base.filter (λ binding, binding.1.1 = scope_root) (map_to_list store).

Definition scan_cache_entries (store : Store) : list CacheEntry := entry_of <$> map_to_list store.

Definition expiry_cutoff (now : Z) : Z := saturating_sub now CACHE_RETENTION_MILLIS.

Definition is_expired (now : Z) (entry : CacheEntry) : bool :=
  bool_decide (last_accessed_time (ce_metadata entry) < expiry_cutoff now)%Z.

(** The entries retained, and the store without the others. *)
Fixpoint discard_expired_entries (now : Z) (entries : list CacheEntry) (store : Store)
    : list CacheEntry * Store :=
  match entries with
  | [] => ([], store)
  | entry :: entries =>
      if is_expired now entry then discard_expired_entries now entries (delete (ce_directory entry) store)
      else let '(retained, store) := discard_expired_entries now entries store in (entry :: retained, store)
  end.

(** [sort_by_key(Reverse(creation_time))], then the first: the newest, the
    earliest in the list among equals. *)
Definition newer_first (a b : CacheEntry) : Prop :=
  (creation_time (ce_metadata b) ≤ creation_time (ce_metadata a))%Z.

#[export] Instance newer_first_dec a b : Decision (newer_first a b).
Proof. unfold newer_first. apply _. Defined.

Definition newest (entries : list CacheEntry) : option CacheEntry := head (merge_sort newer_first entries).

Definition has_key (key version : string) (entry : CacheEntry) : bool :=
  bool_decide (cache_version (ce_metadata entry) = version) && bool_decide (cache_key (ce_metadata entry) = key).

Definition has_prefix (key version : string) (entry : CacheEntry) : bool :=
  bool_decide (cache_version (ce_metadata entry) = version) && starts_with key (cache_key (ce_metadata entry)).

Fixpoint match_cache (entries : list CacheEntry) (keys : list string) (version : string) : option CacheEntry :=
  match keys with
  | [] => None
  | key :: keys =>
      match newest (base.filter (λ entry, has_key key version entry = true) entries) with
      | Some entry => Some entry
      | None =>
          match newest (base.filter (λ entry, has_prefix key version entry = true) entries) with
          | Some entry => Some entry
          | None => match_cache entries keys version
          end
      end
  end.

(** ** Eviction *)

Definition older_first (a b : CacheEntry) : Prop :=
  let key (e : CacheEntry) := (last_accessed_time (ce_metadata e), creation_time (ce_metadata e)) in
  range_le (key a) (key b).

#[export] Instance older_first_dec a b : Decision (older_first a b).
Proof. unfold older_first. apply _. Defined.

Fixpoint evict_entries (now maximum required : Z) (entries : list CacheEntry) (total : Z) (store : Store)
    : Z * Store :=
  match entries with
  | [] => (total, store)
  | entry :: entries =>
      if is_expired now entry || bool_decide (maximum < saturating_add total required)%Z
      then evict_entries now maximum required entries (saturating_sub total (cache_size (ce_metadata entry)))
             (delete (ce_directory entry) store)
      else evict_entries now maximum required entries total store
  end.

Definition total_size (entries : list CacheEntry) : Z :=
  foldl (λ total entry, saturating_add total (cache_size (ce_metadata entry))) 0%Z entries.

Definition evict_for_space (now maximum required : Z) (store : Store) : Store * http unit :=
  let entries := scan_cache_entries store in
  let '(total, store) :=
    evict_entries now maximum required (merge_sort older_first entries) (total_size entries) store in
  (store, refuse (bool_decide (maximum < saturating_add total required)%Z) INTERNAL_SERVER_ERROR
            "workflow cache does not have enough space after eviction").

(** ** Handlers *)

Record LookupResponse := mkLookup {
  lr_cache_key : string;
  lr_scope : string;
  lr_cache_version : string;
  lr_creation_time : Z;
  lr_archive_location : string;
}.

(** One element of [artifactCaches]; [totalCount] is their number. *)
Record ListedCache := mkListed {
  lc_cache_key : string;
  lc_scope : string;
  lc_cache_version : string;
  lc_creation_time : Z;
}.

Definition listed_cache (metadata : StoredCache) : ListedCache :=
  mkListed (cache_key metadata) (cache_scope metadata) (cache_version metadata) (creation_time metadata).

Definition set_store (state : CacheState) (new : Store) : CacheState := state <| store := new |>.

Definition lookup_guards (state : CacheState) (authorization : option string) (keys version : string) : http (list string) :=
  authorize state authorization ;?
  require_cache_read state ;?
  validate_version version ;?
  let keys := split "," keys in
  refuse (is_nil keys || bool_decide (MAX_LOOKUP_KEYS < length keys)) BAD_REQUEST
    "cache lookup must contain between one and ten keys" ;?
  let? _ := traverse validate_key keys in
  Ok keys.

Definition lookup_cache (now : Z) (authorization : option string) (keys version : string) (state : CacheState)
    : CacheState * http (option LookupResponse) :=
  match lookup_guards state authorization keys version with
  | Err e => (state, Err e)
  | Panic => (state, Panic)
  | Ok keys =>
      let entries := load_scope_entries (scope_root state) (store state) in
      let '(entries, new) := discard_expired_entries now entries (store state) in
      match match_cache entries keys version with
      | None => (set_store state new, Ok None)
      | Some entry =>
          let metadata := ce_metadata entry <| last_accessed_time := now |> in
          let new := alter (λ stored, mkStoredEntry metadata (se_archive stored)) (ce_directory entry) new in
          (set_store state new,
           Ok (Some (mkLookup (cache_key metadata) (cache_scope metadata) (cache_version metadata) (creation_time metadata)
             (base_url state +:+ "_gitzero/cache/" +:+ (ce_directory entry).2 +:+ "?token=" +:+ runtime_token state))))
      end
  end.

Definition list_caches (now : Z) (authorization : option string) (key : option string) (state : CacheState)
    : CacheState * http (list ListedCache) :=
  match (authorize state authorization ;? require_cache_read state) with
  | Err e => (state, Err e)
  | Panic => (state, Panic)
  | Ok _ =>
      let entries := load_scope_entries (scope_root state) (store state) in
      let '(entries, new) := discard_expired_entries now entries (store state) in
      let listed entry := match key with Some key => starts_with key (cache_key (ce_metadata entry)) | None => true end in
      (set_store state new, Ok (listed_cache ∘ ce_metadata <$> base.filter (λ entry, listed entry = true) entries))
  end.

Definition reserve_guards (state : CacheState) (authorization : option string) (key version : string)
    (size : option Z) : http unit :=
  authorize state authorization ;?
  require_cache_write state ;?
  validate_key key ;?
  validate_version version ;?
  refuse (match size with Some size => bool_decide (maximum_entry_bytes (limits state) < size)%Z | None => false end)
    PAYLOAD_TOO_LARGE "cache entry exceeds the configured per-entry limit".

Definition occupied (key version : string) (entries : list CacheEntry) : bool := existsb (has_key key version) entries.

Definition reserve_cache (now : Z) (authorization : option string) (key : string) (version : option string)
    (size : option Z) (state : CacheState) : CacheState * http Z :=
  let version := default "" version in
  match reserve_guards state authorization key version size with
  | Err e => (state, Err e)
  | Panic => (state, Panic)
  | Ok _ =>
      let entries := load_scope_entries (scope_root state) (store state) in
      let '(entries, new) := discard_expired_entries now entries (store state) in
      let state := set_store state new in
      if occupied key version entries
      then (state, Err (mkHttpError CONFLICT "an immutable cache entry already exists for this key and version"))
      else
        let id := next_reservation state in
        (state <| next_reservation := ((id + 1) mod (u64_max + 1))%Z |>
               <| reservations := <[id := mkReservation key version "" false [] false]> (reservations state) |>,
         Ok id)
  end.

(** Writing at an offset: a gap is filled with zeros, and writing nothing leaves
    the file as it is. *)
Fixpoint zeros (n : nat) : string := match n with 0 => "" | S n => String nul (zeros n) end.

Definition write_at (file : string) (offset : nat) (chunk : string) : string :=
  if is_empty chunk then file
  else stake offset file +:+ zeros (offset - slen file) +:+ chunk +:+ sdrop (offset + slen chunk) file.

(** The chunks of a body as they arrive: [None] is a broken stream.  What is
    received before an error has been written. *)
Fixpoint write_body (body : list (option string)) (offset received expected : Z) (file : string)
    : string * http Z :=
  match body with
  | [] => (file, Ok received)
  | None :: _ => (file, Err (mkHttpError INTERNAL_SERVER_ERROR "error reading a body from connection"))
  | Some chunk :: body =>
      let total := (received + Z.of_nat (slen chunk))%Z in
      if bool_decide (u64_max < total)%Z then (file, Err (mkHttpError BAD_REQUEST "cache chunk is too large"))
      else if bool_decide (expected < total)%Z
      then (file, Err (mkHttpError BAD_REQUEST "cache chunk body exceeds Content-Range"))
      else write_body body offset total expected (write_at file (Z.to_nat (offset + received)) chunk)
  end.

Definition upload_guards (state : CacheState) (id : Z) (authorization content_range : option string)
    : http (Z * Z * Reservation) :=
  authorize state authorization ;?
  require_cache_write state ;?
  let? range := parse_content_range content_range in
  refuse (bool_decide (maximum_entry_bytes (limits state) ≤ range.2)%Z) PAYLOAD_TOO_LARGE
    "cache upload exceeds the configured per-entry limit" ;?
  let? reservation := ok_or (reservations state !! id) (mkHttpError NOT_FOUND "cache reservation not found") in
  refuse (rv_committed reservation) CONFLICT "cache reservation is already committed" ;?
  Ok (range, reservation).

Definition set_reservation (state : CacheState) (id : Z) (reservation : Reservation) : CacheState :=
  state <| reservations := <[id := reservation]> (reservations state) |>.

Definition upload_chunk (id : Z) (authorization content_range : option string) (body : list (option string))
    (state : CacheState) : CacheState * http unit :=
  match upload_guards state id authorization content_range with
  | Err e => (state, Err e)
  | Panic => (state, Panic)
  | Ok (start, stop, reservation) =>
      let expected := (stop - start + 1)%Z in
      let '(file, result) := write_body body start 0 expected (rv_upload reservation) in
      let reservation := reservation <| rv_upload := file |> <| rv_uploaded := true |> in
      match result with
      | Ok received =>
          if bool_decide (received = expected)
          then (set_reservation state id
                  (reservation <| rv_ranges := rv_ranges reservation ++ [(start, stop)] |>), Ok tt)
          else (set_reservation state id reservation,
                Err (mkHttpError BAD_REQUEST "cache chunk body does not match Content-Range"))
      | Err e => (set_reservation state id reservation, Err e)
      | Panic => (state, Panic)
      end
  end.

Definition commit_guards (state : CacheState) (id : Z) (authorization : option string) (size : Z) : http Reservation :=
  authorize state authorization ;?
  require_cache_write state ;?
  refuse (bool_decide (size = 0)%Z || bool_decide (maximum_entry_bytes (limits state) < size)%Z) PAYLOAD_TOO_LARGE
    "cache entry size is outside the configured limit" ;?
  ok_or (reservations state !! id) (mkHttpError NOT_FOUND "cache reservation not found").

Definition upload_complete (reservation : Reservation) (size : Z) : http unit :=
  refuse (negb (ranges_cover (rv_ranges reservation) size)) BAD_REQUEST "cache upload is incomplete" ;?
  refuse (negb (rv_uploaded reservation)) INTERNAL_SERVER_ERROR "No such file or directory (os error 2)" ;?
  refuse (negb (bool_decide (Z.of_nat (slen (rv_upload reservation)) = size)%Z)) BAD_REQUEST
    "committed cache size does not match the upload".

Section digest.
(** [Sha256::digest] as hexadecimal digits. *)
Context (hex_digest : string → string).

(** The directory of a key and version in the scope of the service. *)
Definition final_directory (state : CacheState) (key version : string) : Directory :=
  (scope_root state, hex_digest (key +:+ String nul version)).

(** With the root lock held: the store after the commit. *)
Definition publish (now : Z) (state : CacheState) (reservation : Reservation) (size : Z) : Store * http unit :=
  let entries := load_scope_entries (scope_root state) (store state) in
  let '(entries, new) := discard_expired_entries now entries (store state) in
  if occupied (rv_key reservation) (rv_version reservation) entries
  then (new, Err (mkHttpError CONFLICT "an immutable cache entry already exists for this key and version"))
  else
    match evict_for_space now (maximum_bytes (limits state)) size new with
    | (new, Ok _) =>
        let directory := final_directory state (rv_key reservation) (rv_version reservation) in
        match new !! directory with
        | Some _ => (new, Err (mkHttpError CONFLICT "cache entry storage already exists"))
        | None =>
            let metadata := mkStored (rv_key reservation) (rv_version reservation) (scope state) now now size in
            (<[directory := mkStoredEntry metadata (rv_upload reservation)]> new, Ok tt)
        end
    | (new, result) => (new, result)
    end.

Definition commit_cache (now id : Z) (authorization : option string) (size : Z) (state : CacheState)
    : CacheState * http unit :=
  match commit_guards state id authorization size with
  | Err e => (state, Err e)
  | Panic => (state, Panic)
  | Ok reservation =>
      if rv_committed reservation then (state, Ok tt)
      else
        match upload_complete reservation size with
        | Err e => (state, Err e)
        | Panic => (state, Panic)
        | Ok _ =>
            match publish now state reservation size with
            | (new, Ok _) =>
                (set_reservation (set_store state new) id
                   (reservation <| rv_uploaded := false |> <| rv_committed := true |>), Ok tt)
            | (new, result) => (set_store state new, result)
            end
        end
  end.
End digest.

Definition download_cache (digest token : string) (state : CacheState) : http string :=
  refuse (negb (bool_decide (token = runtime_token state)) || negb (valid_digest digest)) UNAUTHORIZED
    "cache download is not authorized" ;?
  require_cache_read state ;?
  let? stored := ok_or (store state !! (scope_root state, digest))
    (mkHttpError NOT_FOUND "cache archive not found") in
  Ok (se_archive stored).

(** * What the workflow cache promises

    Range coverage, key matching, least-recently-used eviction within the size
    limit, immutable entries, and the round trip of an upload. *)

(** ** Ranges *)

#[export] Instance range_le_total : Total range_le.
Proof. intros [a b] [c d]. unfold range_le. simpl. lia. Qed.

#[export] Instance range_le_trans : Transitive range_le.
Proof. intros [a b] [c d] [e f]. unfold range_le. simpl. lia. Qed.

Definition range_ok (range : Z * Z) : Prop := (0 ≤ range.1 ≤ range.2 ∧ range.2 < u64_max)%Z.

Definition in_ranges (ranges : list (Z * Z)) (byte : Z) : Prop :=
  ∃ range, range ∈ ranges ∧ (range.1 ≤ byte ≤ range.2)%Z.

Lemma covers_from_spec size covered ranges :
  Forall range_ok ranges → StronglySorted range_le ranges → (0 ≤ covered < size)%Z →
  covers_from size covered ranges = true ↔ ∀ byte, (covered ≤ byte < size)%Z → in_ranges ranges byte.
Proof.
  revert covered; induction ranges as [|[start stop] ranges IH]; intros covered Hok Hs Hc; cbn [covers_from].
  - split; [done|]. intros H0. destruct (H0 covered) as (r & Hr & _); [lia|]. by apply not_elem_of_nil in Hr.
  - apply Forall_cons in Hok as [Hr Hok]. unfold range_ok in Hr. simpl in Hr.
    apply StronglySorted_inv in Hs as [Hs Hall]. case_bool_decide as Hgap.
    + split; [done|]. intros H0. destruct (H0 covered) as (r & Hin & Hb); [lia|].
      apply elem_of_cons in Hin as [-> | Hin]; simpl in *; [lia|].
      eapply Forall_forall in Hall; [|exact Hin]. unfold range_le in Hall. simpl in Hall. lia.
    + assert (saturating_add stop 1 = stop + 1)%Z as -> by (unfold saturating_add; lia).
      set (covered' := Z.max covered (stop + 1)).
      case_bool_decide as Hdone.
      * split; [|done]. intros _ byte Hb. exists (start, stop). split; [apply list_elem_of_here|]. simpl. lia.
      * rewrite IH by (done || lia). split.
        -- intros H0 byte Hb. destruct (decide (byte < covered')%Z) as [Hlt|Hge].
           ++ exists (start, stop). split; [apply list_elem_of_here|]. simpl. lia.
           ++ destruct (H0 byte) as (r & Hin & ?); [lia|]. exists r. split; [by apply list_elem_of_further|done].
        -- intros H0 byte Hb. destruct (H0 byte) as (r & Hin & Hrb); [lia|].
           apply elem_of_cons in Hin as [-> | Hin]; [simpl in *; lia|]. by exists r.
Qed.

Lemma ranges_cover_spec ranges size :
  Forall range_ok ranges → (0 < size)%Z →
  ranges_cover ranges size = true ↔ ∀ byte, (0 ≤ byte < size)%Z → in_ranges ranges byte.
Proof.
  intros Hok Hs. unfold ranges_cover. rewrite covers_from_spec.
  - unfold in_ranges. by setoid_rewrite merge_sort_Permutation.
  - by rewrite merge_sort_Permutation.
  - apply Sorted_StronglySorted; [apply _|]. apply Sorted_merge_sort, _.
  - lia.
Qed.

(** an upload counts as complete exactly when every byte below its size lies
    in one of the ranges received, in whatever order they came and however they
    overlap. *)
Theorem ranges_cover_exact ranges size :
  Forall range_ok ranges → (0 < size)%Z →
  ranges_cover ranges size = true ↔ ∀ byte, (0 ≤ byte < size)%Z → in_ranges ranges byte.
Proof. apply ranges_cover_spec. Qed.

(** ** The store *)

Definition size_of (entry : StoredEntry) : Z := cache_size (se_metadata entry).

Definition store_total (store : Store) : Z := foldr Z.add 0%Z ((λ b, size_of b.2) <$> map_to_list store).

Lemma foldr_add_permutation a b : a ≡ₚ b → foldr Z.add 0%Z a = foldr Z.add 0%Z b.
Proof. induction 1; simpl; lia. Qed.

Lemma store_total_empty : store_total ∅ = 0%Z.
Proof. reflexivity. Qed.

Lemma store_total_insert store d e :
  store !! d = None → store_total (<[d := e]> store) = (size_of e + store_total store)%Z.
Proof.
  intros Hd. unfold store_total. erewrite foldr_add_permutation; [|by apply fmap_Permutation, map_to_list_insert].
  done.
Qed.

Lemma store_total_delete store d e :
  store !! d = Some e → store_total (delete d store) = (store_total store - size_of e)%Z.
Proof.
  intros Hd. pose proof (store_total_insert (delete d store) d e (lookup_delete_eq _ _)) as Ht.
  rewrite insert_delete_id in Ht by done. lia.
Qed.

Definition sizes_ok (store : Store) : Prop := ∀ d e, store !! d = Some e → (0 ≤ size_of e)%Z.

Lemma store_total_nonneg store : sizes_ok store → (0 ≤ store_total store)%Z.
Proof.
  induction store as [|d e store Hd IH] using map_ind; intros Hs; [by rewrite store_total_empty|].
  rewrite store_total_insert by done.
  assert (0 ≤ size_of e)%Z by (apply (Hs d); by rewrite lookup_insert_eq).
  assert (0 ≤ store_total store)%Z; [|lia]. apply IH. intros d' e' He. apply (Hs d').
  rewrite lookup_insert_ne; [done|]. congruence.
Qed.

Lemma store_total_mono new old : sizes_ok old → new ⊆ old → (store_total new ≤ store_total old)%Z.
Proof.
  revert new; induction old as [|d e old Hd IH] using map_ind; intros new Hs Hsub.
  - assert (new = ∅) as ->; [|done]. apply map_eq. intros i. rewrite lookup_empty. destruct (new !! i) eqn:E; [|done].
    eapply lookup_weaken in E; [|exact Hsub]. by rewrite lookup_empty in E.
  - rewrite store_total_insert by done. assert (0 ≤ size_of e)%Z by (apply (Hs d); by rewrite lookup_insert_eq).
    assert (sizes_ok old) as Hs'.
    { intros d' e' He. apply (Hs d'). rewrite lookup_insert_ne; [done|]. congruence. }
    destruct (new !! d) as [e'|] eqn:En.
    + assert (e' = e) as ->. { eapply lookup_weaken in En; [|exact Hsub]. rewrite lookup_insert_eq in En. congruence. }
      pose proof (store_total_delete new d e En). assert (store_total (delete d new) ≤ store_total old)%Z; [|lia].
      apply IH; [done|]. rewrite <-(delete_insert_id old d e) by done. by apply delete_mono.
    + assert (store_total new ≤ store_total old)%Z; [|lia]. apply IH; [done|].
      rewrite <-(delete_id new d) by done. rewrite <-(delete_insert_id old d e) by done. by apply delete_mono.
Qed.

Lemma elem_of_load root store entry :
  entry ∈ load_scope_entries root store ↔
  (ce_directory entry).1 = root ∧ ∃ stored, store !! ce_directory entry = Some stored ∧ ce_metadata entry = se_metadata stored.
Proof.
  unfold load_scope_entries. rewrite list_elem_of_fmap. split.
  - intros ([d stored] & -> & [Hr Hin]%list_elem_of_filter). split; [done|]. exists stored.
    by apply elem_of_map_to_list in Hin.
  - intros [Hr (stored & Hl & Hm)]. exists (ce_directory entry, stored). split.
    + destruct entry; simpl in *. unfold entry_of. simpl. by rewrite <-Hm.
    + apply list_elem_of_filter. split; [done|]. by apply elem_of_map_to_list.
Qed.

Lemma elem_of_scan store entry :
  entry ∈ scan_cache_entries store ↔
  ∃ stored, store !! ce_directory entry = Some stored ∧ ce_metadata entry = se_metadata stored.
Proof.
  unfold scan_cache_entries. rewrite list_elem_of_fmap. split.
  - intros ([d stored] & -> & Hin). exists stored. by apply elem_of_map_to_list in Hin.
  - intros (stored & Hl & Hm). exists (ce_directory entry, stored). split; [|by apply elem_of_map_to_list].
    destruct entry; simpl in *. unfold entry_of. simpl. by rewrite <-Hm.
Qed.

Lemma discard_spec now entries store :
  let '(retained, new) := discard_expired_entries now entries store in
  retained = base.filter (λ e, is_expired now e = false) entries ∧ new ⊆ store ∧
  (∀ d e, store !! d = Some e → new !! d = None → ∃ entry, entry ∈ entries ∧ ce_directory entry = d ∧ is_expired now entry = true) ∧
  (∀ entry, entry ∈ entries → is_expired now entry = true → new !! ce_directory entry = None).
Proof.
  revert store; induction entries as [|entry entries IH]; intros store; cbn [discard_expired_entries].
  { split_and!; [done|done| |]; [intros d e Hd Hn; congruence|]. by intros entry ?%not_elem_of_nil. }
  destruct (is_expired now entry) eqn:He.
  - specialize (IH (delete (ce_directory entry) store)). destruct (discard_expired_entries _ _ _) as [retained new].
    destruct IH as (-> & Hsub & Hd & Hx). split_and!.
    + by rewrite filter_cons_False by congruence.
    + etrans; [done|]. apply delete_subseteq.
    + intros d e Hl Hn. destruct (decide (d = ce_directory entry)) as [->|Hne].
      * exists entry. split_and!; [apply list_elem_of_here|done|done].
      * destruct (Hd d e) as (x & ? & ? & ?); [by rewrite lookup_delete_ne by done|done|].
        exists x. split_and!; [by apply list_elem_of_further|done|done].
    + intros x [-> | Hin]%elem_of_cons Hxe; [|by apply Hx].
      destruct (new !! ce_directory entry) eqn:En; [|done]. eapply lookup_weaken in En; [|exact Hsub].
      by rewrite lookup_delete_eq in En.
  - specialize (IH store). destruct (discard_expired_entries _ _ _) as [retained new].
    destruct IH as (-> & Hsub & Hd & Hx). split_and!; [by rewrite filter_cons_True by done|done| |].
    2: { intros x [-> | Hin]%elem_of_cons Hxe; [congruence|by apply Hx]. }
    intros d e Hl Hn. destruct (Hd d e Hl Hn) as (x & ? & ? & ?). exists x. split_and!; [by apply list_elem_of_further|done|done].
Qed.

(** The retained entries of the scope are those of the new store. *)
Lemma discard_scope now root store :
  let '(retained, new) := discard_expired_entries now (load_scope_entries root store) store in
  new ⊆ store ∧ (∀ entry, entry ∈ retained → entry ∈ load_scope_entries root new) ∧
  (∀ entry, entry ∈ load_scope_entries root new → entry ∈ retained ∧ is_expired now entry = false) ∧
  (∀ d e, store !! d = Some e → d.1 = root → is_expired now (entry_of (d, e)) = false → new !! d = Some e).
Proof.
  pose proof (discard_spec now (load_scope_entries root store) store) as Hs.
  destruct (discard_expired_entries _ _ _) as [retained new]. destruct Hs as (-> & Hsub & Hd & Hx). split_and!; [done| | |].
  - intros entry [Hne Hin]%list_elem_of_filter. pose proof Hin as (Hr & stored & Hl & Hm)%elem_of_load.
    apply elem_of_load. split; [done|]. destruct (new !! ce_directory entry) as [e|] eqn:En.
    + exists e. split; [done|]. eapply lookup_weaken in En; [|exact Hsub]. congruence.
    + destruct (Hd _ _ Hl En) as (x & (Hxr & xs & Hxl & Hxm)%elem_of_load & Hxd & Hxe).
      rewrite Hxd, Hl in Hxl. injection Hxl as <-. unfold is_expired in *. rewrite Hxm, <-Hm in Hxe. congruence.
  - intros entry (Hr & stored & Hl & Hm)%elem_of_load.
    assert (entry ∈ load_scope_entries root store) as Hin.
    { apply elem_of_load. split; [done|]. exists stored. split; [by eapply lookup_weaken|done]. }
    destruct (is_expired now entry) eqn:He; [rewrite (Hx entry Hin He) in Hl; done|].
    split; [|done]. by apply list_elem_of_filter.
  - intros d e Hl Hr He. destruct (new !! d) as [e'|] eqn:En.
    + eapply lookup_weaken in En; [|exact Hsub]. congruence.
    + destruct (Hd _ _ Hl En) as (x & (Hxr & xs & Hxl & Hxm)%elem_of_load & <- & Hxe).
      rewrite Hl in Hxl. injection Hxl as <-. unfold is_expired in *. rewrite Hxm in Hxe. simpl in He. congruence.
Qed.

(** ** Matching *)

#[export] Instance newer_first_total : Total newer_first.
Proof. intros a b. unfold newer_first. lia. Qed.

#[export] Instance newer_first_trans : Transitive newer_first.
Proof. intros a b c. unfold newer_first. lia. Qed.

Lemma newest_spec entries :
  match newest entries with
  | Some entry => entry ∈ entries ∧ ∀ other, other ∈ entries → newer_first entry other
  | None => entries = []
  end.
Proof.
  unfold newest. pose proof (merge_sort_Permutation newer_first entries) as Hp.
  pose proof (Sorted_merge_sort newer_first entries) as Hs. apply Sorted_StronglySorted in Hs; [|apply _].
  destruct (merge_sort newer_first entries) as [|e l]; simpl.
  - by apply Permutation_nil_l in Hp.
  - split; [rewrite <-Hp; apply list_elem_of_here|]. intros other. rewrite <-Hp, elem_of_cons.
    apply StronglySorted_inv in Hs as [_ Hall]. intros [-> | Hin].
    + unfold newer_first. lia.
    + by eapply Forall_forall in Hall.
Qed.

(** a lookup returns an entry of the version for the first key that matches
    any: one whose key is that key if there is one, and otherwise one that has it
    as a prefix, in either case the newest; and none only when no key is a prefix
    of any entry of the version. *)
Theorem match_cache_exact entries keys version :
  match match_cache entries keys version with
  | Some entry =>
      ∃ earlier key later, keys = earlier ++ key :: later ∧ entry ∈ entries ∧ has_prefix key version entry = true ∧
        (∀ k other, k ∈ earlier → other ∈ entries → has_prefix k version other = false) ∧
        (∀ other, other ∈ entries → has_key key version other = true →
           has_key key version entry = true ∧ newer_first entry other) ∧
        (∀ other, other ∈ entries → has_prefix key version other = true →
           has_key key version entry = true ∨ newer_first entry other)
  | None => ∀ key entry, key ∈ keys → entry ∈ entries → has_prefix key version entry = false
  end.
Proof.
  assert (∀ key entry, has_key key version entry = true → has_prefix key version entry = true) as Hkp.
  { intros key entry [Hv Hk%bool_decide_eq_true]%andb_true_iff. unfold has_prefix. rewrite Hv, Hk.
    apply (starts_with_true key key). exists "". by rewrite sapp_nil_r. }
  induction keys as [|key keys IH]; cbn [match_cache]; [by intros key entry ?%not_elem_of_nil|].
  pose proof (newest_spec (base.filter (λ e, has_key key version e = true) entries)) as Hk.
  destruct (newest (base.filter (λ e, has_key key version e = true) entries)) as [e|].
  { destruct Hk as [[Hkey Hin]%list_elem_of_filter Hall]. exists [], key, keys. split_and!; [done|done|by apply Hkp| | |].
    - by intros k other ?%not_elem_of_nil.
    - intros other Ho Hok. split; [done|]. apply Hall. by apply list_elem_of_filter.
    - by left. }
  pose proof (newest_spec (base.filter (λ e, has_prefix key version e = true) entries)) as Hp.
  destruct (newest (base.filter (λ e, has_prefix key version e = true) entries)) as [e|].
  { destruct Hp as [[Hpre Hin]%list_elem_of_filter Hall]. exists [], key, keys. split_and!; [done|done|done| | |].
    - by intros k other ?%not_elem_of_nil.
    - intros other Ho Hok. assert (other ∈ base.filter (λ e, has_key key version e = true) entries) as Hf by by apply list_elem_of_filter.
      rewrite Hk in Hf. by apply not_elem_of_nil in Hf.
    - intros other Ho Hop. right. apply Hall. by apply list_elem_of_filter. }
  assert (∀ other, other ∈ entries → has_prefix key version other = false) as Hnone.
  { intros other Ho. apply not_true_iff_false. intros Hop.
    assert (other ∈ base.filter (λ e, has_prefix key version e = true) entries) as Hf by by apply list_elem_of_filter.
    rewrite Hp in Hf. by apply not_elem_of_nil in Hf. }
  destruct (match_cache entries keys version) as [e|].
  - destruct IH as (earlier & k & later & -> & Hin & Hpre & Hearlier & ? & ?).
    exists (key :: earlier), k, later. split_and!; try done.
    intros k' other [-> | Hk']%elem_of_cons Ho; [by apply Hnone|by eapply Hearlier].
  - intros k entry [-> | Hk']%elem_of_cons Ho; [by apply Hnone|by apply IH].
Qed.

(** ** Eviction *)

#[export] Instance older_first_total : Total older_first.
Proof. intros a b. unfold older_first, range_le. simpl. lia. Qed.

#[export] Instance older_first_trans : Transitive older_first.
Proof. intros a b c. unfold older_first, range_le. simpl. lia. Qed.

(** An entry of a listing is in the store. *)
Definition listed (store : Store) (entry : CacheEntry) : Prop :=
  ∃ stored, store !! ce_directory entry = Some stored ∧ ce_metadata entry = se_metadata stored.

Lemma listed_delete store d entry : ce_directory entry ≠ d → listed store entry → listed (delete d store) entry.
Proof. intros Hne (stored & ? & ?). exists stored. by rewrite lookup_delete_ne. Qed.

Lemma sizes_ok_subset new old : new ⊆ old → sizes_ok old → sizes_ok new.
Proof. intros Hsub Ho d e He. apply (Ho d). by eapply lookup_weaken. Qed.

Section evict.
Context (now maximum required : Z).
Context (Hlimits : (0 ≤ required ≤ maximum ∧ maximum < u64_max)%Z).

Definition over (total : Z) : bool := bool_decide (maximum < saturating_add total required)%Z.

Lemma over_true total : over total = true ↔ (maximum < total + required)%Z.
Proof using Hlimits. unfold over, saturating_add. rewrite bool_decide_eq_true. lia. Qed.

Lemma over_false total : over total = false ↔ (total + required ≤ maximum)%Z.
Proof using Hlimits. rewrite <-not_true_iff_false, over_true. lia. Qed.

Record eviction (entries : list CacheEntry) (store : Store) (total : Z) (new : Store) : Prop := {
  ev_total : total = store_total new;
  ev_subset : new ⊆ store;
  ev_others d : d ∉ ce_directory <$> entries → new !! d = store !! d;
  ev_expired entry : entry ∈ entries → is_expired now entry = true → new !! ce_directory entry = None;
  ev_oldest gone kept : gone ∈ entries → kept ∈ entries → is_expired now gone = false →
    new !! ce_directory gone = None → is_Some (new !! ce_directory kept) → older_first gone kept;
  ev_needed gone : gone ∈ entries → is_expired now gone = false → new !! ce_directory gone = None →
    ∃ last, last ∈ entries ∧ new !! ce_directory last = None ∧ (maximum < total + cache_size (ce_metadata last) + required)%Z;
  ev_fits : (maximum < total + required)%Z → ∀ entry, entry ∈ entries → new !! ce_directory entry = None;
}.

Lemma total_after store entry :
  listed store entry → sizes_ok store → (store_total store ≤ u64_max)%Z →
  saturating_sub (store_total store) (cache_size (ce_metadata entry)) = store_total (delete (ce_directory entry) store).
Proof.
  intros (stored & Hl & Hm) Hs Ht. rewrite (store_total_delete _ _ stored) by done. unfold size_of. rewrite <-Hm.
  pose proof (store_total_delete store _ stored Hl) as Hd. unfold size_of in Hd. rewrite <-Hm in Hd.
  assert (0 ≤ store_total (delete (ce_directory entry) store))%Z.
  { apply store_total_nonneg. eapply sizes_ok_subset, Hs. apply delete_subseteq. }
  unfold saturating_sub. lia.
Qed.

Lemma evict_subset entries total store : (evict_entries now maximum required entries total store).2 ⊆ store.
Proof.
  revert total store; induction entries as [|entry entries IH]; intros total store; cbn [evict_entries]; [done|].
  case_match; [|apply IH]. etrans; [apply IH|apply delete_subseteq].
Qed.

(** Within the limit and with nothing expired, nothing is evicted. *)
Lemma evict_nothing entries total store :
  Forall (λ e, is_expired now e = false) entries → over total = false →
  evict_entries now maximum required entries total store = (total, store).
Proof.
  induction 1 as [|entry entries He _ IH]; intros Ho; cbn [evict_entries]; [done|].
  fold (over total). rewrite He, Ho. by apply IH.
Qed.

Lemma older_is_fresh entry entries :
  Forall (older_first entry) entries → is_expired now entry = false →
  Forall (λ e, is_expired now e = false) entries.
Proof.
  intros Hold He. eapply Forall_impl; [exact Hold|]. intros x Hx. unfold older_first, range_le in Hx. simpl in Hx.
  unfold is_expired in *. apply bool_decide_eq_false in He. apply bool_decide_eq_false. lia.
Qed.

Lemma keep_all_eviction entries store :
  Forall (listed store) entries → Forall (λ e, is_expired now e = false) entries → over (store_total store) = false →
  eviction entries store (store_total store) store.
Proof using Hlimits.
  intros Hl Hf Ho%over_false.
  assert (∀ x, x ∈ entries → store !! ce_directory x ≠ None) as Hin.
  { intros x Hx Hn. eapply Forall_forall in Hl as (e & He & _); [|exact Hx]. congruence. }
  split; try done.
  - intros x Hx Hxe. eapply Forall_forall in Hf; [|exact Hx]. simpl in Hf. congruence.
  - intros gone kept Hg _ _ Hn. by apply Hin in Hg.
  - intros gone Hg _ Hn. by apply Hin in Hg.
  - lia.
Qed.

Lemma evict_entries_spec entries store :
  NoDup (ce_directory <$> entries) → Forall (listed store) entries → sizes_ok store →
  (store_total store ≤ u64_max)%Z → StronglySorted older_first entries →
  let '(total, new) := evict_entries now maximum required entries (store_total store) store in
  eviction entries store total new.
Proof using Hlimits.
  revert store; induction entries as [|entry entries IH]; intros store Hnd Hl Hs Ht Hsort; cbn [evict_entries].
  { split; try done; intros *; try (by intros ?%not_elem_of_nil). intros _ e. by intros ?%not_elem_of_nil. }
  pose proof Hl as [He Hlrest]%Forall_cons. pose proof Hnd as [Hno Hnd']%NoDup_cons.
  apply StronglySorted_inv in Hsort as [Hsort Hold]. fold (over (store_total store)).
  destruct (is_expired now entry || over (store_total store)) eqn:Hgo.
  2: { apply orb_false_iff in Hgo as [Hexp Hfit]. pose proof (older_is_fresh _ _ Hold Hexp).
       rewrite evict_nothing by done. apply keep_all_eviction; [done|by constructor|done]. }
  rewrite total_after by done. set (rest := delete (ce_directory entry) store).
  assert (rest ⊆ store) as Hsub by apply delete_subseteq.
  assert (Forall (listed rest) entries) as Hl'.
  { apply Forall_forall. intros x Hx. apply listed_delete; [|by eapply Forall_forall in Hlrest].
    intros Hd. apply Hno. change (ce_directory entry ∈ ce_directory <$> entries). rewrite <-Hd. by apply list_elem_of_fmap_2. }
  pose proof (store_total_mono rest store Hs Hsub) as Hmono.
  specialize (IH rest Hnd' Hl' (sizes_ok_subset _ _ Hsub Hs) ltac:(lia) Hsort).
  pose proof (evict_subset entries (store_total rest) rest) as Hnew.
  assert (is_expired now entry = false → entries = [] ∨ over (store_total rest) = false ∨
    ∃ x, x ∈ entries ∧ is_expired now x = false ∧
      (evict_entries now maximum required entries (store_total rest) rest).2 !! ce_directory x = None) as Hcases.
  { intros Hexp. destruct entries as [|x l]; [by left|right]. destruct (over (store_total rest)) eqn:Ho; [right|by left].
    exists x. pose proof (older_is_fresh _ _ Hold Hexp) as Hf. apply Forall_cons in Hf as [Hx _].
    split_and!; [apply list_elem_of_here|done|]. cbn [evict_entries]. fold (over (store_total rest)). rewrite Ho, orb_true_r.
    destruct (_ !! ce_directory x) eqn:En; [|done]. eapply lookup_weaken in En; [|apply evict_subset].
    by rewrite lookup_delete_eq in En. }
  destruct (evict_entries _ _ _ _ _ _) as [total new] eqn:Eev. simpl in Hnew, Hcases. destruct IH as [I1 I2 I3 I4 I5 I6 I7].
  assert (new !! ce_directory entry = None) as Hgone.
  { rewrite I3 by done. apply lookup_delete_eq. }
  split; [done|by etrans| | | | |].
  - intros d [Hne Hd]%not_elem_of_cons. rewrite I3 by done. by apply lookup_delete_ne.
  - intros x [-> | Hx]%elem_of_cons; [done|by apply I4].
  - intros gone kept [-> | Hg]%elem_of_cons [-> | Hk]%elem_of_cons He1 Hg1 Hk1; try by (rewrite Hgone in Hk1; destruct Hk1).
    + by eapply Forall_forall in Hold.
    + by apply I5.
  - assert (∀ x, x ∈ entries → is_expired now x = false → new !! ce_directory x = None → ∃ last, last ∈ entry :: entries ∧
      new !! ce_directory last = None ∧ (maximum < total + cache_size (ce_metadata last) + required)%Z) as Hrest.
    { intros x Hx Hxe Hxn. destruct (I6 x Hx Hxe Hxn) as (last & ? & ? & ?). exists last.
      split_and!; [by apply list_elem_of_further|done|done]. }
    intros gone [-> | Hg]%elem_of_cons He1 Hg1; [|by apply (Hrest gone)].
    assert (total = store_total rest → (maximum < total + cache_size (ce_metadata entry) + required)%Z) as Hlast.
    { intros ->. rewrite He1 in Hgo. apply over_true in Hgo. unfold rest. rewrite <-total_after by done.
      unfold saturating_sub. pose proof (store_total_nonneg store Hs). lia. }
    destruct (Hcases He1) as [-> | [Ho | (x & Hx & Hxe & Hxn)]]; [| |by apply (Hrest x)].
    + exists entry. split_and!; [apply list_elem_of_here|done|]. apply Hlast. cbn in Eev. congruence.
    + exists entry. split_and!; [apply list_elem_of_here|done|]. apply Hlast.
      rewrite evict_nothing in Eev; [congruence|by eapply older_is_fresh|done].
  - intros Hover x [-> | Hx]%elem_of_cons; [done|by apply I7].
Qed.

Lemma total_size_spec store :
  sizes_ok store → (store_total store ≤ u64_max)%Z → total_size (scan_cache_entries store) = store_total store.
Proof.
  intros Hs Ht. unfold total_size, scan_cache_entries, store_total in *. revert Ht.
  assert (Forall (λ b : Directory * StoredEntry, (0 ≤ size_of b.2)%Z) (map_to_list store)) as Hall.
  { apply Forall_forall. intros [d e] Hin%elem_of_map_to_list. by apply (Hs d). }
  enough (∀ l acc, Forall (λ b : Directory * StoredEntry, (0 ≤ size_of b.2)%Z) l → (0 ≤ acc)%Z →
    (acc + foldr Z.add 0 ((λ b, size_of b.2) <$> l) ≤ u64_max)%Z →
    foldl (λ total entry, saturating_add total (cache_size (ce_metadata entry))) acc (entry_of <$> l) =
      (acc + foldr Z.add 0 ((λ b, size_of b.2) <$> l))%Z) as Hgo.
  { intros Ht. rewrite Hgo; [lia|done|lia|lia]. }
  clear. induction l as [|[d e] l IH]; intros acc Hall Ha Ht; [simpl; lia|].
  apply Forall_cons in Hall as [He Hall]. rewrite !fmap_cons in *. cbn [foldr foldl snd] in *.
  assert (0 ≤ foldr Z.add 0 ((λ b, size_of b.2) <$> l))%Z.
  { clear -Hall. induction Hall as [|[d' e'] l He _ IH]; [done|]. rewrite fmap_cons. cbn [foldr snd] in *. lia. }
  change (cache_size (ce_metadata (entry_of (d, e)))) with (size_of e).
  assert (saturating_add acc (size_of e) = acc + size_of e)%Z as -> by (unfold saturating_add; lia).
  rewrite IH; [lia|done|lia|lia].
Qed.

Lemma evict_for_space_spec store :
  sizes_ok store → (store_total store ≤ u64_max)%Z →
  let '(new, result) := evict_for_space now maximum required store in
  result = Ok tt ∧ (store_total new + required ≤ maximum)%Z ∧ new ⊆ store ∧
  eviction (merge_sort older_first (scan_cache_entries store)) store (store_total new) new.
Proof using Hlimits.
  intros Hs Ht. unfold evict_for_space. rewrite total_size_spec by done.
  set (entries := merge_sort older_first (scan_cache_entries store)).
  assert (entries ≡ₚ scan_cache_entries store) as Hp by apply merge_sort_Permutation.
  pose proof (evict_entries_spec entries store) as Hev.
  destruct (evict_entries _ _ _ _ _ _) as [total new]. destruct Hev as [E1 E2 E3 E4 E5 E6 E7]; try done.
  { rewrite Hp. unfold scan_cache_entries. rewrite <-list_fmap_compose. apply NoDup_fst_map_to_list. }
  { rewrite Hp. apply Forall_forall. intros x Hx. by apply elem_of_scan. }
  { apply Sorted_StronglySorted; [apply _|]. apply Sorted_merge_sort, _. }
  assert (total + required ≤ maximum)%Z as Hfit.
  { destruct (decide (maximum < total + required)%Z) as [Hover|]; [exfalso|lia].
    assert (new = ∅) as Hempty.
    { apply map_eq. intros d. rewrite lookup_empty. destruct (new !! d) as [e|] eqn:En; [|done].
      pose proof (lookup_weaken _ _ _ _ En E2) as Hd.
      assert (mkEntry d (se_metadata e) ∈ entries) as Hin.
      { rewrite Hp. apply elem_of_scan. simpl. eauto. }
      apply (E7 Hover) in Hin. simpl in Hin. congruence. }
    rewrite Hempty, store_total_empty in E1. lia. }
  fold (over total). rewrite (proj2 (over_false total)) by done. rewrite <-E1. split_and!; try done.
Qed.
End evict.

(** making room for an upload within the limits always succeeds: afterwards
    the store and the upload fit; everything unused for a week is gone; the
    other entries that went are the least recently used ones - none that is kept
    was used before them; and no more went than needed: without the last of
    them, the upload would not have fit. *)
Theorem eviction_is_least_recently_used now maximum required store :
  (0 ≤ required ≤ maximum ∧ maximum < u64_max)%Z → sizes_ok store → (store_total store ≤ u64_max)%Z →
  ∃ new, evict_for_space now maximum required store = (new, Ok tt) ∧ (store_total new + required ≤ maximum)%Z ∧
    new ⊆ store ∧
    (∀ d e, store !! d = Some e → is_expired now (entry_of (d, e)) = true → new !! d = None) ∧
    (∀ d e d' e', store !! d = Some e → is_expired now (entry_of (d, e)) = false → new !! d = None →
       new !! d' = Some e' → older_first (entry_of (d, e)) (entry_of (d', e'))) ∧
    (∀ d e, store !! d = Some e → is_expired now (entry_of (d, e)) = false → new !! d = None →
       ∃ d' e', store !! d' = Some e' ∧ new !! d' = None ∧ (maximum < store_total new + size_of e' + required)%Z).
Proof.
  intros Hl Hs Ht. pose proof (evict_for_space_spec now maximum required Hl store Hs Ht) as Hev.
  destruct (evict_for_space _ _ _ _) as [new result]. destruct Hev as (-> & Hfit & Hsub & [E1 E2 E3 E4 E5 E6 E7]).
  assert (∀ d e, store !! d = Some e → entry_of (d, e) ∈ merge_sort older_first (scan_cache_entries store)) as Hin.
  { intros d e Hd. rewrite merge_sort_Permutation. apply elem_of_scan. simpl. eauto. }
  exists new. split_and!; try done.
  - intros d e Hd He. by apply (E4 (entry_of (d, e))); [apply Hin|].
  - intros d e d' e' Hd He Hn Hd'. apply E5; [by apply Hin| |done|done|by exists e'].
    apply Hin. by eapply lookup_weaken.
  - intros d e Hd He Hn. destruct (E6 (entry_of (d, e))) as (last & Hlast & Hln & Hlt); [by apply Hin|done|done|].
    rewrite merge_sort_Permutation in Hlast. apply elem_of_scan in Hlast as (stored & Hst & Hm).
    exists (ce_directory last), stored. split_and!; [done|done|]. unfold size_of. by rewrite <-Hm.
Qed.

Lemma ranges_cover_exact_witness :
  ranges_cover [(4, 9); (0, 5)]%Z 10 = true ∧
  (ranges_cover [(4, 9); (0, 5)]%Z 10 = true ↔ ∀ byte, (0 ≤ byte < 10)%Z → in_ranges [(4, 9); (0, 5)]%Z byte).
Proof.
  split; [vm_compute; reflexivity|]. apply (ranges_cover_exact [(4, 9); (0, 5)]%Z 10); [|lia].
  repeat constructor; unfold range_ok, u64_max; simpl; lia.
Defined.

Definition demo_entry (key : string) (accessed size : Z) : StoredEntry :=
  mkStoredEntry (mkStored key "v1" "main" 0 accessed size) (zeros (Z.to_nat size)).

Definition demo_store : Store :=
  {[("s", "a") := demo_entry "a" 1 4; ("s", "b") := demo_entry "b" 2 4; ("s", "c") := demo_entry "c" 3 4]}.

(** Six bytes into twelve used of fourteen: the two oldest go. *)
Lemma eviction_is_least_recently_used_witness :
  ∃ new, evict_for_space 10 14 6 demo_store = (new, Ok tt) ∧ (store_total new + 6 ≤ 14)%Z.
Proof.
  destruct (eviction_is_least_recently_used 10 14 6 demo_store) as (new & H1 & H2 & _).
  - unfold u64_max. lia.
  - intros d e Hd. apply elem_of_map_to_list in Hd.
    assert (Forall (λ b : Directory * StoredEntry, (0 ≤ size_of b.2)%Z) (map_to_list demo_store)) as Hall.
    { vm_compute. repeat constructor; discriminate. }
    exact (proj1 (Forall_forall _ _) Hall (d, e) Hd).
  - vm_compute. discriminate.
  - exists new. split; [exact H1|exact H2].
Defined.
