(* ===== verification/CacheService.v ===== *)
(** * The cache service as a whole

    Its requests as a transition system over the store: the invariant of the
    store, immutable entries, and the round trip of an upload. *)

From S2P Require Import Prelude RustStr RustText UnixPath OrdMap Cache.

Inductive CacheRequest :=
  | LookupRequest (authorization : option string) (keys version : string)
  | ListRequest (authorization : option string) (key : option string)
  | ReserveRequest (authorization : option string) (key : string) (version : option string) (size : option Z)
  | UploadRequest (id : Z) (authorization content_range : option string) (body : list (option string))
  | CommitRequest (id : Z) (authorization : option string) (size : Z).

(** ** The store *)

Record store_ok (maximum : Z) (store : Store) : Prop := {
  so_total : (store_total store ≤ maximum)%Z;
  so_entries d e : store !! d = Some e → (0 < size_of e)%Z ∧ size_of e = Z.of_nat (slen (se_archive e));
  so_unique d d' e e' : store !! d = Some e → store !! d' = Some e' → d.1 = d'.1 →
    cache_key (se_metadata e) = cache_key (se_metadata e') →
    cache_version (se_metadata e) = cache_version (se_metadata e') → d = d';
}.

Lemma store_ok_sizes maximum store : store_ok maximum store → sizes_ok store.
Proof. intros Hs d e Hd. destruct (so_entries _ _ Hs d e Hd). lia. Qed.

Lemma store_ok_subset maximum old new : store_ok maximum old → new ⊆ old → store_ok maximum new.
Proof.
  intros Hs Hsub. destruct Hs as [H1 H2 H3]. split.
  - assert (sizes_ok old) as Hok by (by eapply (store_ok_sizes maximum)).
    pose proof (store_total_mono new old Hok Hsub). lia.
  - intros d e Hd. apply (H2 d). by eapply lookup_weaken.
  - intros d d' e e' Hd Hd'. apply H3; by eapply lookup_weaken.
Qed.

Definition touch (now : Z) (e : StoredEntry) : StoredEntry :=
  mkStoredEntry (se_metadata e <| last_accessed_time := now |>) (se_archive e).

Lemma store_total_touch (now : Z) (d : Directory) (store : Store) : store_total (alter (touch now) d store) = store_total store.
Proof.
  destruct (store !! d) as [e|] eqn:Hd.
  - assert (alter (touch now) d store = <[d := touch now e]> (delete d store)) as ->.
    { rewrite insert_delete_eq. apply map_eq. intros i. destruct (decide (i = d)) as [->|Hne].
      - by rewrite lookup_alter_eq, lookup_insert_eq, Hd.
      - by rewrite lookup_alter_ne, lookup_insert_ne by done. }
    rewrite store_total_insert by apply lookup_delete_eq. rewrite (store_total_delete store d e Hd).
    change (size_of (touch now e)) with (size_of e). lia.
  - f_equal. apply map_eq. intros i. destruct (decide (i = d)) as [->|Hne]; [by rewrite lookup_alter_eq, Hd|by rewrite lookup_alter_ne].
Qed.

Lemma lookup_touch (now : Z) (d : Directory) (store : Store) i e' :
  alter (touch now) d store !! i = Some e' → ∃ e, store !! i = Some e ∧ (e' = e ∨ e' = touch now e).
Proof. rewrite lookup_alter_Some. intros [(-> & e & He & ->) | (_ & He)]; eauto. Qed.

Lemma store_ok_touch (maximum : Z) (now : Z) (d : Directory) (store : Store) : store_ok maximum store → store_ok maximum (alter (touch now) d store).
Proof.
  intros [H1 H2 H3]. split.
  - by rewrite store_total_touch.
  - intros i e' (e & He & [-> | ->])%lookup_touch; destruct (H2 i e He); done.
  - intros i j e1 e2 (x & Hx & Hx')%lookup_touch (y & Hy & Hy')%lookup_touch Hr Hk Hv.
    apply (H3 i j x y); try done; destruct Hx' as [-> | ->], Hy' as [-> | ->]; done.
Qed.

Lemma store_ok_publish (maximum : Z) (store : Store) (d : Directory) (e : StoredEntry) :
  store_ok maximum store → store !! d = None → (0 < size_of e)%Z → size_of e = Z.of_nat (slen (se_archive e)) →
  (store_total store + size_of e ≤ maximum)%Z →
  (∀ d' e', store !! d' = Some e' → d'.1 = d.1 → cache_key (se_metadata e') = cache_key (se_metadata e) →
     cache_version (se_metadata e') ≠ cache_version (se_metadata e)) →
  store_ok maximum (<[d := e]> store).
Proof.
  intros [H1 H2 H3] Hd Hpos Hlen Hfit Hfree. split.
  - rewrite store_total_insert by done. lia.
  - intros d' e'. rewrite lookup_insert_Some. intros [(_ & <-) | (_ & Hd')]; [done|by apply (H2 d')].
  - intros d1 d2 e1 e2. rewrite !lookup_insert_Some.
    intros [(<- & <-) | (Hn1 & Hd1)] [(<- & <-) | (Hn2 & Hd2)] Hr Hk Hv; [done| | |by apply (H3 d1 d2 e1 e2)].
    + exfalso. by apply (Hfree d2 e2).
    + exfalso. by apply (Hfree d1 e1).
Qed.

(** What the handlers do to a store. *)
Inductive store_change (root : string) (now : Z) (old : Store) : Store → Prop :=
  | change_discard new : new ⊆ old → store_change root now old new
  | change_touch mid d : mid ⊆ old → store_change root now old (alter (touch now) d mid)
  | change_publish mid d e : mid ⊆ old → mid !! d = None → d.1 = root →
      (∀ d' e', old !! d' = Some e' → d'.1 = root → is_expired now (entry_of (d', e')) = false →
         cache_key (se_metadata e') = cache_key (se_metadata e) →
         cache_version (se_metadata e') ≠ cache_version (se_metadata e)) →
      (∀ d' e', mid !! d' = Some e' → d'.1 = root → cache_key (se_metadata e') = cache_key (se_metadata e) →
         cache_version (se_metadata e') ≠ cache_version (se_metadata e)) →
      store_change root now old (<[d := e]> mid).

Definition discarded (now : Z) (state : CacheState) : list CacheEntry * Store :=
  discard_expired_entries now (load_scope_entries (scope_root state) (store state)) (store state).

Lemma discarded_subset now state : (discarded now state).2 ⊆ store state.
Proof.
  unfold discarded. pose proof (discard_scope now (scope_root state) (store state)) as Hs.
  destruct (discard_expired_entries _ _ _). by destruct Hs.
Qed.

Lemma occupied_false key version entries entry :
  occupied key version entries = false → entry ∈ entries →
  cache_key (ce_metadata entry) = key → cache_version (ce_metadata entry) ≠ version.
Proof.
  intros Ho Hin Hk Hv. pose proof (proj1 (existsb_false_elem _ _) Ho entry Hin) as Hn. unfold has_key in Hn.
  by rewrite !bool_decide_eq_true_2 in Hn.
Qed.

Lemma match_cache_in entries keys version entry : match_cache entries keys version = Some entry → entry ∈ entries.
Proof.
  induction keys as [|key keys IH]; cbn [match_cache]; [done|].
  pose proof (newest_spec (base.filter (λ e, has_key key version e = true) entries)) as Hk.
  destruct (newest _) as [e|]; [intros [= <-]; by destruct Hk as [[_ ?]%list_elem_of_filter _]|clear Hk].
  pose proof (newest_spec (base.filter (λ e, has_prefix key version e = true) entries)) as Hp.
  destruct (newest _) as [e|]; [intros [= <-]; by destruct Hp as [[_ ?]%list_elem_of_filter _]|done].
Qed.

Lemma upload_complete_size reservation size :
  upload_complete reservation size = Ok tt →
  ranges_cover (rv_ranges reservation) size = true ∧ Z.of_nat (slen (rv_upload reservation)) = size.
Proof.
  unfold upload_complete, refuse. intros (? & Hc%reject_if_Ok%negb_false_iff & H1)%obind_Ok.
  apply obind_Ok in H1 as (? & _ & Hl%reject_if_Ok%negb_false_iff%bool_decide_eq_true). done.
Qed.

Lemma commit_guards_size state id authorization size reservation :
  commit_guards state id authorization size = Ok reservation →
  (size ≠ 0 ∧ size ≤ maximum_entry_bytes (limits state))%Z ∧ reservations state !! id = Some reservation.
Proof.
  unfold commit_guards, refuse. intros (? & _ & H1)%obind_Ok. apply obind_Ok in H1 as (? & _ & H1).
  apply obind_Ok in H1 as (? & Hs%reject_if_Ok & Hr%ok_or_Ok). split; [|done].
  apply orb_false_iff in Hs as [H0%bool_decide_eq_false H2%bool_decide_eq_false]. lia.
Qed.

(** ** Bytes of a file *)

Lemma sbyte_app a b i : sbyte (a +:+ b) i = if decide (i < slen a) then sbyte a i else sbyte b (i - slen a).
Proof.
  revert i; induction a as [|c a IH]; intros i.
  - rewrite sapp_nil_l. change (slen "") with 0. rewrite decide_False by lia. by rewrite Nat.sub_0_r.
  - rewrite sapp_cons, slen_string. destruct i as [|i]; [by rewrite decide_True by lia|].
    unfold sbyte in *. simpl. rewrite IH. destruct (decide (i < slen a)), (decide (S i < S (slen a))); (done || lia).
Qed.

Lemma sbyte_sdrop n s i : sbyte (sdrop n s) i = sbyte s (n + i).
Proof. revert s; induction n as [|n IH]; intros [|c s]; simpl; try done. Qed.

Lemma sbyte_stake n s i : i < n → sbyte (stake n s) i = sbyte s i.
Proof.
  revert s i; induction n as [|n IH]; intros [|c s] i Hi; simpl; try done; [lia|].
  destruct i as [|i]; [done|]. unfold sbyte in *. simpl. apply IH. lia.
Qed.

Lemma string_ext a b : slen a = slen b → (∀ i, i < slen a → sbyte a i = sbyte b i) → a = b.
Proof.
  revert b; induction a as [|c a IH]; intros [|d b] Hl Hb; try done.
  rewrite !slen_string in *. pose proof (Hb 0 ltac:(lia)) as [= ->]. f_equal. apply IH; [lia|].
  intros i Hi. apply (Hb (S i)). lia.
Qed.

Lemma slen_zeros n : slen (zeros n) = n.
Proof. induction n as [|n IH]; [done|]. simpl. by rewrite slen_string, IH. Qed.

Lemma write_at_spec file offset chunk :
  slen chunk ≠ 0 →
  slen (write_at file offset chunk) = max (slen file) (offset + slen chunk) ∧
  (∀ i, offset ≤ i < offset + slen chunk → sbyte (write_at file offset chunk) i = sbyte chunk (i - offset)) ∧
  (∀ i, i < slen file → i < offset ∨ offset + slen chunk ≤ i → sbyte (write_at file offset chunk) i = sbyte file i).
Proof.
  intros Hne. unfold write_at. assert (is_empty chunk = false) as -> by by destruct chunk.
  split_and!.
  - rewrite !slen_app, slen_stake, slen_zeros, slen_sdrop. lia.
  - intros i Hi. rewrite !sbyte_app, !slen_stake, !slen_zeros.
    rewrite decide_False by lia. rewrite decide_False by lia. rewrite decide_True by lia. f_equal. lia.
  - intros i Hf Hi. rewrite !sbyte_app, !slen_stake, !slen_zeros. destruct (decide (i < offset)) as [Hlt|Hge].
    + rewrite decide_True by lia. by apply sbyte_stake.
    + rewrite decide_False by lia. rewrite decide_False by lia. rewrite decide_False by lia.
      rewrite sbyte_sdrop. f_equal. lia.
Qed.

(** What a complete body writes. *)
Lemma write_body_spec body offset received expected file file' total :
  (0 ≤ offset)%Z → (0 ≤ received)%Z →
  write_body (Some <$> body) offset received expected file = (file', Ok total) →
  let start := Z.to_nat (offset + received) in
  total = (received + Z.of_nat (slen (sconcat body)))%Z ∧ slen file ≤ slen file' ∧
  (∀ i, start ≤ i < start + slen (sconcat body) → sbyte file' i = sbyte (sconcat body) (i - start)) ∧
  (∀ i, i < slen file → i < start ∨ start + slen (sconcat body) ≤ i → sbyte file' i = sbyte file i) ∧
  (0 < slen (sconcat body) → start + slen (sconcat body) ≤ slen file').
Proof.
  revert received file; induction body as [|chunk body IH]; intros received file Ho Hr; cbn [fmap list_fmap write_body].
  { intros [= <- <-]. change (slen (sconcat [])) with 0. split_and!; try done; intros; lia. }
  case_bool_decide; [done|]. case_bool_decide; [done|]. intros Hw.
  change (sconcat (chunk :: body)) with (chunk +:+ sconcat body). rewrite slen_app.
  destruct (decide (slen chunk = 0)) as [Hz|Hz].
  { apply slen_zero in Hz as ->. change (slen "") with 0 in *. rewrite Z.add_0_r in Hw. apply (IH received file Ho Hr Hw). }
  destruct (write_at_spec file (Z.to_nat (offset + received)) chunk Hz) as (Hl & Hin & Hout).
  set (mid := write_at _ _ _) in *.
  destruct (IH (received + Z.of_nat (slen chunk))%Z mid Ho ltac:(lia) Hw) as (-> & Hl' & Hin' & Hout' & Hlong).
  replace (Z.to_nat (offset + (received + Z.of_nat (slen chunk)))) with (Z.to_nat (offset + received) + slen chunk) in * by lia.
  split_and!; [lia|lia| | |].
  - intros i Hi. rewrite sbyte_app. destruct (decide (i - _ < slen chunk)) as [Hlt|Hge].
    + rewrite Hout' by lia. apply Hin. lia.
    + rewrite Hin' by lia. f_equal. lia.
  - intros i Hf Hi. rewrite Hout' by lia. apply Hout; lia.
  - intros _. lia.
Qed.

Lemma parse_content_range_ok range start stop :
  parse_content_range range = Ok (start, stop) → (0 ≤ start)%Z ∧ (start ≤ stop)%Z.
Proof.
  unfold parse_content_range. intros (value & _ & H1)%obind_Ok. apply obind_Ok in H1 as ([a b] & _ & H1).
  apply obind_Ok in H1 as (s & Hs%ok_or_Ok & H1). apply obind_Ok in H1 as (e & _ & H1).
  apply obind_Ok in H1 as (? & Hle%reject_if_Ok%bool_decide_eq_false & [= <- <-]).
  apply parse_unsigned_range in Hs; [lia|]. unfold u64_max. lia.
Qed.

Lemma upload_guards_Ok state id authorization range start stop reservation :
  upload_guards state id authorization range = Ok (start, stop, reservation) →
  parse_content_range range = Ok (start, stop) ∧ (stop < maximum_entry_bytes (limits state))%Z ∧
  reservations state !! id = Some reservation ∧ rv_committed reservation = false.
Proof.
  unfold upload_guards, refuse. intros (? & _ & H1)%obind_Ok. apply obind_Ok in H1 as (? & _ & H1).
  apply obind_Ok in H1 as ([a b] & Hr & H1). apply obind_Ok in H1 as (? & Hl%reject_if_Ok%bool_decide_eq_false & H1).
  apply obind_Ok in H1 as (r & Hres%ok_or_Ok & H1). apply obind_Ok in H1 as (? & Hc%reject_if_Ok & [= <- <- <-]).
  simpl in Hl. split_and!; [done|lia|done|done].
Qed.

Lemma reserve_Ok now authorization key version size state new id :
  reserve_cache now authorization key version size state = (new, Ok id) →
  reservations new !! id = Some (mkReservation key (default "" version) "" false [] false).
Proof.
  unfold reserve_cache. destruct (reserve_guards _ _ _ _ _); [|done..].
  destruct (discard_expired_entries _ _ _) as [entries mid]. destruct (occupied _ _ _); [done|].
  intros [= <- <-]. apply lookup_insert_eq.
Qed.

Section service.
Context (hex_digest : string → string).

Definition handle (now : Z) (request : CacheRequest) (state : CacheState) : CacheState * outcome CacheHttpError unit :=
  match request with
  | LookupRequest authorization keys version =>
      let '(state, result) := lookup_cache now authorization keys version state in (state, omap_ok (λ _, tt) result)
  | ListRequest authorization key =>
      let '(state, result) := list_caches now authorization key state in (state, omap_ok (λ _, tt) result)
  | ReserveRequest authorization key version size =>
      let '(state, result) := reserve_cache now authorization key version size state in (state, omap_ok (λ _, tt) result)
  | UploadRequest id authorization content_range body => upload_chunk id authorization content_range body state
  | CommitRequest id authorization size => commit_cache hex_digest now id authorization size state
  end.

(** The configuration of a service does not change. *)
Definition same_service (a b : CacheState) : Prop :=
  scope_root a = scope_root b ∧ limits a = limits b ∧ mode a = mode b ∧ runtime_token a = runtime_token b.

Definition limits_ok (l : CacheLimits) : Prop :=
  (0 < maximum_entry_bytes l ≤ maximum_bytes l ∧ maximum_bytes l < u64_max)%Z.

Record cache_ok (state : CacheState) : Prop := {
  ck_limits : limits_ok (limits state);
  ck_store : store_ok (maximum_bytes (limits state)) (store state);
}.

Lemma publish_spec now state reservation size :
  cache_ok state → (0 < size ≤ maximum_entry_bytes (limits state))%Z →
  Z.of_nat (slen (rv_upload reservation)) = size →
  let '(new, result) := publish hex_digest now state reservation size in
  result ≠ Panic ∧ store_ok (maximum_bytes (limits state)) new ∧ store_change (scope_root state) now (store state) new ∧
  (result = Ok tt → ∃ metadata, size = cache_size metadata ∧ cache_key metadata = rv_key reservation ∧
     cache_version metadata = rv_version reservation ∧
     new !! final_directory hex_digest state (rv_key reservation) (rv_version reservation) =
       Some (mkStoredEntry metadata (rv_upload reservation))).
Proof.
  intros [Hlim Hst] Hsize Hlen. unfold publish. fold (discarded now state).
  pose proof (discard_scope now (scope_root state) (store state)) as Hd. fold (discarded now state) in Hd.
  destruct (discarded now state) as [entries mid]. destruct Hd as (Hsub & Hret & Hload & Hkept).
  pose proof (store_ok_subset _ _ _ Hst Hsub) as Hmid.
  destruct (occupied _ _ entries) eqn:Hocc.
  { split_and!; [done|done|by constructor|done]. }
  unfold limits_ok in Hlim.
  pose proof (evict_for_space_spec now (maximum_bytes (limits state)) size ltac:(lia) mid (store_ok_sizes _ _ Hmid)) as Hev.
  destruct (evict_for_space _ _ _ _) as [new result]. destruct Hev as (-> & Hfit & Hsub' & _).
  { destruct Hmid. lia. }
  set (d := final_directory hex_digest state (rv_key reservation) (rv_version reservation)).
  assert (new ⊆ store state) as Hsub2 by (by etrans).
  destruct (new !! d) as [e|] eqn:Hnd.
  { split_and!; [done|by eapply store_ok_subset|by constructor|done]. }
  assert (∀ d' e', mid !! d' = Some e' → d'.1 = scope_root state → cache_key (se_metadata e') = rv_key reservation →
    cache_version (se_metadata e') ≠ rv_version reservation) as Hfree.
  { intros d' e' Hd' Hr Hk. apply (occupied_false _ _ entries (entry_of (d', e')) Hocc); [|done].
    apply (Hload (entry_of (d', e'))). apply elem_of_load. simpl. eauto. }
  split_and!; [done| | |].
  - apply store_ok_publish; try done; unfold size_of; cbn [se_metadata se_archive cache_size cache_key cache_version]; [by eapply store_ok_subset|lia|].
    intros d' e' Hd' Hr Hk. apply (Hfree d'); [by eapply lookup_weaken|done..].
  - apply change_publish; try done.
    + intros d' e' Hd' Hr Hexp Hk. apply (Hfree d'); [by apply Hkept|done..].
    + intros d' e' Hd' Hr Hk. apply (Hfree d'); [by eapply lookup_weaken|done..].
  - intros _. rewrite lookup_insert_eq.
    by exists (mkStored (rv_key reservation) (rv_version reservation) (scope state) now now size).
Qed.

Lemma discard_change now state :
  store_change (scope_root state) now (store state) (discarded now state).2 ∧
  (cache_ok state → store_ok (maximum_bytes (limits state)) (discarded now state).2).
Proof.
  pose proof (discarded_subset now state). split; [by constructor|]. intros [_ Hs]. by eapply store_ok_subset.
Qed.

(** A handler whose effect is on the store and the reservations only. *)
Definition effect (now : Z) (old new : CacheState) : Prop :=
  same_service new old ∧ store_change (scope_root old) now (store old) (store new) ∧ (cache_ok old → cache_ok new).

Lemma effect_refl now state new :
  same_service new state → store new = store state → effect now state new.
Proof.
  intros Hs Heq. split_and!; [done|rewrite Heq; by constructor|]. intros [H1 H2]. destruct Hs as (_ & Hl & _).
  split; rewrite ?Hl, ?Heq; done.
Qed.

Lemma effect_store now state new :
  store_change (scope_root state) now (store state) new →
  (cache_ok state → store_ok (maximum_bytes (limits state)) new) → effect now state (set_store state new).
Proof. intros Hc Hok. split_and!; [done|done|]. intros Hs. pose proof (Hok Hs). by destruct Hs. Qed.

Lemma guards_no_panic {A} (c : http unit) (k : http A) : c ≠ Panic → k ≠ Panic → (c ;? k) ≠ Panic.
Proof. destruct c; simpl; done. Qed.

Lemma refuse_no_panic b status message : refuse b status message ≠ Panic.
Proof. by destruct b. Qed.

#[local] Hint Resolve refuse_no_panic : core.

Lemma lookup_guards_no_panic state authorization keys version : lookup_guards state authorization keys version ≠ Panic.
Proof.
  unfold lookup_guards. repeat (apply guards_no_panic; [apply refuse_no_panic|]).
  rewrite obind_Panic. intros [Hp | (? & _ & ?)]; [|done]. revert Hp. apply traverse_no_panic.
  intros k _. apply refuse_no_panic.
Qed.

Lemma lookup_effect now authorization keys version state :
  let '(new, result) := lookup_cache now authorization keys version state in result ≠ Panic ∧ effect now state new.
Proof.
  unfold lookup_cache. pose proof (lookup_guards_no_panic state authorization keys version) as Hp.
  destruct (lookup_guards _ _ _ _) as [ks|e|]; [|by split; [|apply effect_refl]|done].
  fold (discarded now state). destruct (discard_change now state) as [Hc Hok].
  pose proof (discard_scope now (scope_root state) (store state)) as Hd. fold (discarded now state) in Hd.
  pose proof (discarded_subset now state) as Hsub. destruct (discarded now state) as [entries mid].
  destruct Hd as (_ & Hret & _ & _). simpl in *.
  pose proof (match_cache_in entries ks version) as Hin.
  destruct (match_cache entries ks version) as [entry|]; (split; [done|]); [|by apply effect_store].
  assert (alter (λ stored, mkStoredEntry (ce_metadata entry <| last_accessed_time := now |>) (se_archive stored))
            (ce_directory entry) mid = alter (touch now) (ce_directory entry) mid) as ->.
  { apply alter_ext. intros stored Hs. specialize (Hret entry (Hin entry eq_refl)).
    apply elem_of_load in Hret as (_ & st & Hst & Hm). assert (st = stored) as -> by congruence.
    unfold touch. by rewrite Hm. }
  apply effect_store; [by constructor|]. intros Hs. apply store_ok_touch. by apply Hok.
Qed.

Lemma list_effect now authorization key state :
  let '(new, result) := list_caches now authorization key state in result ≠ Panic ∧ effect now state new.
Proof.
  unfold list_caches. assert ((authorize state authorization ;? require_cache_read state) ≠ Panic) as Hp.
  { apply guards_no_panic; apply refuse_no_panic. }
  destruct (_ ;? _) as [[]|e|]; [|by split; [|apply effect_refl]|done].
  fold (discarded now state). destruct (discard_change now state) as [Hc Hok]. destruct (discarded now state) as [entries mid].
  split; [done|]. by apply effect_store.
Qed.

Lemma reserve_effect now authorization key version size state :
  let '(new, result) := reserve_cache now authorization key version size state in result ≠ Panic ∧ effect now state new.
Proof.
  unfold reserve_cache. assert (reserve_guards state authorization key (default "" version) size ≠ Panic) as Hp.
  { unfold reserve_guards. repeat (apply guards_no_panic; [apply refuse_no_panic|]). apply refuse_no_panic. }
  destruct (reserve_guards _ _ _ _ _) as [[]|e|]; [|by split; [|apply effect_refl]|done].
  fold (discarded now state). destruct (discard_change now state) as [Hc Hok]. destruct (discarded now state) as [entries mid].
  destruct (effect_store now state mid Hc Hok) as (H1 & H2 & H3).
  destruct (occupied _ _ entries); (split; [done|]); split_and!; try done.
  intros Hs. destruct (H3 Hs). by split.
Qed.

Lemma parse_content_range_no_panic range : parse_content_range range ≠ Panic.
Proof.
  unfold parse_content_range. rewrite obind_Panic. intros [Hp | (? & _ & Hp)]; [by apply ok_or_Panic in Hp|].
  apply obind_Panic in Hp as [Hp | (? & _ & Hp)]; [by apply ok_or_Panic in Hp|].
  apply obind_Panic in Hp as [Hp | (? & _ & Hp)]; [by apply ok_or_Panic in Hp|].
  apply obind_Panic in Hp as [Hp | (? & _ & Hp)]; [by apply ok_or_Panic in Hp|].
  apply obind_Panic in Hp as [Hp | (? & _ & ?)]; [by apply reject_if_Panic in Hp|done].
Qed.

Lemma write_body_no_panic body offset received expected file : (write_body body offset received expected file).2 ≠ Panic.
Proof.
  revert received file; induction body as [|[chunk|] body IH]; intros received file; simpl; [done| |done].
  case_bool_decide; [done|]. case_bool_decide; [done|]. apply IH.
Qed.

Lemma upload_effect now id authorization range body state :
  let '(new, result) := upload_chunk id authorization range body state in result ≠ Panic ∧ effect now state new.
Proof.
  unfold upload_chunk. assert (upload_guards state id authorization range ≠ Panic) as Hp.
  { unfold upload_guards. repeat (apply guards_no_panic; [apply refuse_no_panic|]). rewrite obind_Panic.
    intros [Hp | (? & _ & Hp)]; [by apply parse_content_range_no_panic in Hp|]. revert Hp.
    apply guards_no_panic; [apply refuse_no_panic|]. rewrite obind_Panic. intros [Hp | (? & _ & Hp)]; [by apply ok_or_Panic in Hp|].
    revert Hp. by apply guards_no_panic; [apply refuse_no_panic|]. }
  destruct (upload_guards _ _ _ _) as [[[start stop] r]|e|]; [|by split; [|apply effect_refl]|done].
  pose proof (write_body_no_panic body start 0 (stop - start + 1) (rv_upload r)) as Hw.
  destruct (write_body _ _ _ _ _) as [file [received|e|]]; [|by split; [|apply effect_refl]|done].
  case_bool_decide; by split; [|apply effect_refl].
Qed.

Lemma commit_effect now id authorization size state :
  cache_ok state →
  let '(new, result) := commit_cache hex_digest now id authorization size state in result ≠ Panic ∧ effect now state new.
Proof.
  intros Hok. unfold commit_cache. destruct (commit_guards state id authorization size) as [r|e|] eqn:Hg; [|by split; [|apply effect_refl]|].
  2: { exfalso. revert Hg. unfold commit_guards. repeat (apply guards_no_panic; [apply refuse_no_panic|]). apply ok_or_Panic. }
  destruct (rv_committed r); [by split; [|apply effect_refl]|].
  destruct (upload_complete r size) as [[]|e|] eqn:Hu; [|by split; [|apply effect_refl]|].
  2: { exfalso. revert Hu. unfold upload_complete. repeat (apply guards_no_panic; [apply refuse_no_panic|]). apply refuse_no_panic. }
  destruct (upload_complete_size _ _ Hu) as [_ Hlen]. destruct (commit_guards_size _ _ _ _ _ Hg) as [Hsize _].
  assert (0 < size)%Z as Hpos by lia.
  pose proof (publish_spec now state r size Hok ltac:(lia) Hlen) as Hp.
  destruct (publish _ _ _ _ _) as [new result]. destruct Hp as (Hno & Hst & Hc & _).
  destruct (effect_store now state new Hc (λ _, Hst)) as (H1 & H2 & H3).
  destruct result as [[]|e|]; [|by split|done]. split; [done|]. split_and!; try done.
  intros Hs. destruct (H3 Hs). by split.
Qed.

Lemma handle_effect now request state :
  cache_ok state → let '(new, result) := handle now request state in result ≠ Panic ∧ effect now state new.
Proof.
  intros Hok. destruct request; simpl.
  - pose proof (lookup_effect now authorization keys version state) as Hh.
    destruct (lookup_cache _ _ _ _ _) as [new [|e|]]; by destruct Hh.
  - pose proof (list_effect now authorization key state) as Hh.
    destruct (list_caches _ _ _ _) as [new [|e|]]; by destruct Hh.
  - pose proof (reserve_effect now authorization key version size state) as Hh.
    destruct (reserve_cache _ _ _ _ _ _) as [new [|e|]]; by destruct Hh.
  - apply upload_effect.
  - by apply commit_effect.
Qed.

(** ** The service over time

    Requests at any times, and what the services of other scopes do to the
    shared store meanwhile. *)
Inductive cache_step : CacheState → CacheState → Prop :=
  | step_request now request state : cache_step state (handle now request state).1
  | step_other now request other state :
      store other = store state → limits other = limits state → scope_root other ≠ scope_root state →
      cache_step state (set_store state (store (handle now request other).1)).

Lemma cache_step_ok state new : cache_step state new → cache_ok state → cache_ok new ∧ same_service new state.
Proof.
  destruct 1 as [now request state|now request other state Hst Hl Hr]; intros Hok.
  - pose proof (handle_effect now request state Hok) as Hh. destruct (handle now request state) as [new result].
    destruct Hh as (_ & Hs & _ & Hn). by split; [apply Hn|].
  - assert (cache_ok other) as Hother.
    { destruct Hok as [H1 H2]. split; [by rewrite Hl|by rewrite Hl, Hst]. }
    pose proof (handle_effect now request other Hother) as Hh. destruct (handle now request other) as [new result].
    destruct Hh as (_ & (_ & Hln & _) & _ & Hn). destruct (Hn Hother) as [_ Hstore]. split; [|done].
    split; [apply Hok|]. simpl. by rewrite <-Hl, <-Hln.
Qed.

(** starting from a store within its limit, whatever requests come, in
    whatever order and with whatever arguments, and whatever the services of
    other scopes do in between: the entries never take more than the configured
    maximum, each has the size it declares, no scope has two entries for a key
    and version, and no request panics. *)
Theorem cache_store_invariant state later :
  cache_ok state → rtc cache_step state later →
  cache_ok later ∧ ∀ now request, (handle now request later).2 ≠ Panic.
Proof.
  intros Hok Hsteps. assert (cache_ok later) as Hlater.
  { induction Hsteps as [|x y z Hstep _ IH]; [done|]. apply IH. by apply (cache_step_ok x y). }
  split; [done|]. intros now request. pose proof (handle_effect now request later Hlater) as Hh.
  destruct (handle now request later) as [new result]. by destruct Hh.
Qed.

(** an entry is immutable while it lives: when a request leaves an entry for
    the key and version of an entry that had not expired, it is the same entry,
    in the same directory, with the same archive and size; at most its last
    access is newer. *)
Theorem cache_entries_immutable now request state d e d' e' :
  cache_ok state → store state !! d = Some e → d.1 = scope_root state → is_expired now (entry_of (d, e)) = false →
  store (handle now request state).1 !! d' = Some e' → d'.1 = d.1 →
  cache_key (se_metadata e') = cache_key (se_metadata e) →
  cache_version (se_metadata e') = cache_version (se_metadata e) →
  d' = d ∧ (e' = e ∨ e' = touch now e).
Proof.
  intros Hok Hd Hroot Hexp Hd' Hr Hk Hv. pose proof (handle_effect now request state Hok) as Hh.
  destruct (handle now request state) as [new result]. destruct Hh as (_ & _ & Hc & _). simpl in Hd'.
  assert (∀ x, store state !! d' = Some x → cache_key (se_metadata x) = cache_key (se_metadata e) →
    cache_version (se_metadata x) = cache_version (se_metadata e) → d' = d ∧ x = e) as Huniq.
  { intros x Hx Hxk Hxv. assert (d' = d) as ->; [|split; congruence].
    by apply (so_unique _ _ (ck_store _ Hok) d' d x e). }
  inversion Hc as [mid Hsub Heq|mid dt Hsub Heq|mid dp ep Hsub Hfree Hdp Hold Hmid Heq].
  - apply (lookup_weaken _ _ _ _ Hd') in Hsub. destruct (Huniq e') as [? ->]; [done..|]. auto.
  - rewrite <-Heq in Hd'. apply lookup_touch in Hd' as (x & Hx & Hx'). apply (lookup_weaken _ _ _ _ Hx) in Hsub.
    destruct (Huniq x) as [? ->]; [done|by destruct Hx' as [-> | ->]..|]. auto.
  - rewrite <-Heq in Hd'. apply lookup_insert_Some in Hd' as [(<- & <-) | (_ & Hd')].
    + exfalso. by apply (Hold d e).
    + apply (lookup_weaken _ _ _ _ Hd') in Hsub. destruct (Huniq e') as [? ->]; [done..|]. auto.
Qed.

(** ** Uploading *)

Definition accepted_uploads (id : Z) (authorization : option string) (state : CacheState)
    (uploads : list (string * list string)) : outcome CacheHttpError CacheState :=
  for_each (λ '(range, body) state,
    match upload_chunk id authorization (Some range) (Some <$> body) state with
    | (state, Ok _) => Ok state
    | (_, Err e) => Err e
    | (_, Panic) => Panic
    end) uploads state.

(** The bytes of a range of the content. *)
Definition part_of (content : string) (upload : string * list string) : Prop :=
  ∀ start stop, parse_content_range (Some upload.1) = Ok (start, stop) →
    ∀ i, (i < slen (sconcat upload.2)) → sbyte (sconcat upload.2) i = sbyte content (Z.to_nat start + i).

Definition agrees (content : string) (reservation : Reservation) : Prop :=
  Forall range_ok (rv_ranges reservation) ∧
  ∀ byte, in_ranges (rv_ranges reservation) byte →
    Z.to_nat byte < slen (rv_upload reservation) ∧
    sbyte (rv_upload reservation) (Z.to_nat byte) = sbyte content (Z.to_nat byte).

Lemma upload_agrees id authorization range body state new content r :
  cache_ok state → reservations state !! id = Some r → agrees content r → part_of content (range, body) →
  upload_chunk id authorization (Some range) (Some <$> body) state = (new, Ok tt) →
  ∃ r', reservations new = <[id := r']> (reservations state) ∧ store new = store state ∧ same_service new state ∧
    scope new = scope state ∧
    agrees content r' ∧ rv_key r' = rv_key r ∧ rv_version r' = rv_version r ∧ rv_committed r' = false.
Proof.
  intros Hok Hr [Hranges Hbytes] Hpart. unfold upload_chunk.
  destruct (upload_guards state id authorization (Some range)) as [[[start stop] r0]|e|] eqn:Hg; [|done..].
  apply upload_guards_Ok in Hg as (Hrange & Hlimit & Hr0 & Hcommitted). assert (r0 = r) as -> by congruence.
  destruct (parse_content_range_ok _ _ _ Hrange) as [Hstart Hstop].
  destruct (write_body (Some <$> body) start 0 (stop - start + 1) (rv_upload r)) as [file [received|e|]] eqn:Hw; [|done..].
  case_bool_decide as Hrec; [|done]. intros [= <-].
  destruct (write_body_spec body start 0 _ _ _ _ ltac:(lia) ltac:(lia) Hw) as (Hreceived & Hlen & Hnew & Hold & Hlong).
  rewrite Z.add_0_r in *. eexists. split; [reflexivity|]. split_and!; try done.
  destruct Hok as [Hlim _]. unfold limits_ok in Hlim. split.
  - apply Forall_app. split; [done|]. apply Forall_singleton. unfold range_ok. simpl. lia.
  - intros byte (rg & Hin & Hb). simpl. destruct (decide (start ≤ byte ≤ stop)%Z) as [Hnewb|Hout].
    + assert (Z.to_nat byte - Z.to_nat start < slen (sconcat body)) as Hi by lia. split; [lia|].
      rewrite Hnew by lia. rewrite (Hpart start stop Hrange) by done. f_equal. lia.
    + apply elem_of_app in Hin as [Hin | ->%list_elem_of_singleton]; [|simpl in Hb; lia].
      assert (0 ≤ byte)%Z as Hpos.
      { eapply Forall_forall in Hranges; [|exact Hin]. unfold range_ok in Hranges. lia. }
      destruct (Hbytes byte) as [Hlt Heq]; [by exists rg|]. split; [lia|]. rewrite Hold; [done|lia|lia].
Qed.

Lemma uploads_agree id authorization uploads state new content r :
  cache_ok state → reservations state !! id = Some r → agrees content r → rv_committed r = false →
  Forall (part_of content) uploads → accepted_uploads id authorization state uploads = Ok new →
  ∃ r', reservations new !! id = Some r' ∧ cache_ok new ∧ same_service new state ∧ agrees content r' ∧
    rv_key r' = rv_key r ∧ rv_version r' = rv_version r ∧ rv_committed r' = false.
Proof.
  revert state r; induction uploads as [|[range body] uploads IH]; intros state r Hok Hr Ha Hc Hparts.
  - intros [= <-]. exists r. by split_and!.
  - apply Forall_cons in Hparts as [Hpart Hparts]. cbn [accepted_uploads for_each].
    destruct (upload_chunk id authorization (Some range) (Some <$> body) state) as [mid [[]|e|]] eqn:Hu; [|done..].
    cbn [obind]. intros Hrest.
    destruct (upload_agrees id authorization range body state mid content r Hok Hr Ha Hpart Hu)
      as (r1 & Hr1 & _ & Hs1 & _ & Ha1 & Hk1 & Hv1 & Hc1).
    pose proof (upload_effect 0 id authorization (Some range) (Some <$> body) state) as He. rewrite Hu in He.
    destruct He as (_ & _ & _ & Hokm). specialize (Hokm Hok).
    destruct (IH mid r1) as (r2 & Hr2 & Hok2 & Hs2 & Ha2 & Hk2 & Hv2 & Hc2); try done.
    { by rewrite Hr1, lookup_insert_eq. }
    exists r2. split_and!; try done; try congruence.
    destruct Hs1 as (? & ? & ? & ?), Hs2 as (? & ? & ? & ?). split_and!; congruence.
Qed.

Lemma commit_Ok now id authorization size state new r :
  cache_ok state → reservations state !! id = Some r → rv_committed r = false →
  commit_cache hex_digest now id authorization size state = (new, Ok tt) →
  ranges_cover (rv_ranges r) size = true ∧ (0 < size ∧ Z.of_nat (slen (rv_upload r)) = size)%Z ∧
  (∃ metadata, store new !! final_directory hex_digest state (rv_key r) (rv_version r) =
    Some (mkStoredEntry metadata (rv_upload r))) ∧ same_service new state.
Proof.
  intros Hok Hr Hc. unfold commit_cache. destruct (commit_guards state id authorization size) as [r0|e|] eqn:Hg; [|done..].
  destruct (commit_guards_size _ _ _ _ _ Hg) as [Hsize Hr0]. assert (r0 = r) as -> by congruence. rewrite Hc.
  destruct (upload_complete r size) as [[]|e|] eqn:Hu; [|done..].
  destruct (upload_complete_size _ _ Hu) as [Hcover Hlen].
  pose proof (publish_spec now state r size Hok ltac:(lia) Hlen) as Hp.
  destruct (publish _ _ _ _ _) as [mid result]. destruct Hp as (_ & _ & _ & Hpub).
  destruct result as [[]|e|]; [|done..]. intros [= <-]. destruct (Hpub eq_refl) as (metadata & _ & _ & _ & Hst).
  split_and!; [done|lia|done|by exists metadata|done..].
Qed.

(** C20: an upload comes back as it was: when a key is reserved, all accepted
    chunks are parts of a content, in any order, overlapping or repeated, and
    the commit of its size is accepted, then a download of the entry returns
    exactly that content. *)
Theorem cache_roundtrip now now' authorization key version size uploads content state s1 s2 s3 id token :
  cache_ok state →
  reserve_cache now authorization key version size state = (s1, Ok id) →
  Forall (part_of content) uploads →
  accepted_uploads id authorization s1 uploads = Ok s2 →
  commit_cache hex_digest now' id authorization (Z.of_nat (slen content)) s2 = (s3, Ok tt) →
  let digest := hex_digest (key +:+ String nul (default "" version)) in
  token = runtime_token state → valid_digest digest = true → allows_read (mode state) = true →
  download_cache digest token s3 = Ok content.
Proof.
  intros Hok Hres Hparts Hups Hcommit digest Htoken Hdigest Hread.
  pose proof (reserve_effect now authorization key version size state) as He. rewrite Hres in He.
  destruct He as (_ & Hsame1 & _ & Hok1). specialize (Hok1 Hok).
  assert (∃ r, reservations s1 !! id = Some r ∧ agrees content r ∧ rv_key r = key ∧ rv_version r = default "" version ∧
    rv_committed r = false) as (r & Hr & Hagree & Hkey & Hversion & Hcom).
  { pose proof (reserve_Ok _ _ _ _ _ _ _ _ Hres) as Hid. eexists. split; [exact Hid|]. split_and!; try done.
    split; [constructor|]. by intros byte (rg & ?%not_elem_of_nil & _). }
  destruct (uploads_agree id authorization uploads s1 s2 content r Hok1 Hr Hagree Hcom Hparts Hups)
    as (r2 & Hr2 & Hok2 & Hsame2 & Hagree2 & Hkey2 & Hversion2 & Hcom2).
  destruct (commit_Ok _ _ _ _ _ _ _ Hok2 Hr2 Hcom2 Hcommit) as (Hcover & Hlen & Hstored & Hsame3).
  assert (rv_upload r2 = content) as Hcontent.
  { destruct Hagree2 as [Hranges Hbytes]. apply string_ext; [lia|]. intros i Hi.
    destruct (Hbytes (Z.of_nat i)) as [_ Heq]; [|by rewrite Nat2Z.id in Heq].
    apply (proj1 (ranges_cover_spec _ _ Hranges (proj1 Hlen)) Hcover). lia. }
  unfold same_service in *. destruct Hsame1 as (Hr1 & _ & Hm1 & Ht1), Hsame2 as (Hr2' & _ & Hm2 & Ht2), Hsame3 as (Hr3 & _ & Hm3 & Ht3).
  unfold download_cache, refuse, require_cache_read. rewrite Hdigest, bool_decide_eq_true_2 by congruence.
  cbn [negb orb reject_if obind]. replace (allows_read (mode s3)) with true by congruence. cbn [negb refuse reject_if obind].
  destruct Hstored as [metadata Hstored]. unfold final_directory in Hstored.
  rewrite Hkey2, Hkey, Hversion2, Hversion in Hstored. rewrite Hr3. unfold digest.
  rewrite Hstored. simpl. by rewrite Hcontent.
Qed.
End service.

(** ** A concrete service *)

Definition demo_hex_digest (s : string) : string := string_map (λ _, "a"%char) (zeros 64).

Definition demo_cache : CacheState :=
  mkState "scope" "refs/heads/main" "http://127.0.0.1:1/" "secret" Write (mkLimits 1000 100) 1 ∅ ∅.

Lemma demo_cache_ok : cache_ok demo_cache.
Proof.
  split; [unfold limits_ok, u64_max; simpl; lia|]. split; simpl.
  - vm_compute. discriminate.
  - intros d e. by rewrite lookup_empty.
  - intros d d' e e'. by rewrite lookup_empty.
Qed.

Definition demo_uploads : list (string * list string) := [("bytes 3-4/*", ["l"; "o"]); ("bytes 0-2/*", ["hel"])].

Definition demo_token : option string := Some "Bearer secret".

Definition demo_reserved : CacheState :=
  (handle demo_hex_digest 5 (ReserveRequest demo_token "npm" (Some "v1") None) demo_cache).1.

Definition demo_first : CacheState :=
  (handle demo_hex_digest 5 (UploadRequest 1 demo_token (Some "bytes 3-4/*") [Some "l"; Some "o"]) demo_reserved).1.

Definition demo_uploaded : CacheState :=
  (handle demo_hex_digest 5 (UploadRequest 1 demo_token (Some "bytes 0-2/*") [Some "hel"]) demo_first).1.

Definition demo_committed : CacheState := (handle demo_hex_digest 6 (CommitRequest 1 demo_token 5) demo_uploaded).1.

Lemma cache_roundtrip_witness :
  download_cache (demo_hex_digest ("npm" +:+ String nul "v1")) "secret" demo_committed = Ok "hello".
Proof.
  apply (cache_roundtrip demo_hex_digest 5 6 demo_token "npm" (Some "v1") None demo_uploads "hello"
    demo_cache demo_reserved demo_uploaded demo_committed 1 "secret").
  - exact demo_cache_ok.
  - vm_compute. reflexivity.
  - assert (∀ range body at_, parse_content_range (Some range) = Ok at_ →
      forallb (λ i, bool_decide (sbyte (sconcat body) i = sbyte "hello" (Z.to_nat at_.1 + i))) (seq 0 (slen (sconcat body))) = true →
      part_of "hello" (range, body)) as Hpart.
    { intros range body at_ Hat Hall start stop Hp i Hi. simpl in Hp. rewrite Hat in Hp. injection Hp as ->.
      rewrite forallb_forall in Hall. simpl in Hi, Hall |- *.
      exact (proj1 (bool_decide_eq_true _) (Hall i (proj2 (in_seq _ _ _) (conj (Nat.le_0_l i) Hi)))). }
    constructor; [|constructor; [|constructor]].
    + apply (Hpart _ _ (3, 4)%Z); vm_compute; reflexivity.
    + apply (Hpart _ _ (0, 2)%Z); vm_compute; reflexivity.
  - vm_compute. reflexivity.
  - vm_compute. reflexivity.
  - reflexivity.
  - vm_compute. reflexivity.
  - reflexivity.
Defined.

Lemma cache_store_invariant_witness : cache_ok (handle demo_hex_digest 7 (ListRequest demo_token None) demo_cache).1.
Proof.
  apply (cache_store_invariant demo_hex_digest demo_cache); [exact demo_cache_ok|]. apply rtc_once, step_request.
Defined.

Definition demo_live : StoredEntry := mkStoredEntry (mkStored "npm" "v1" "refs/heads/main" 6 6 5) "hello".

Definition demo_directory : Directory := ("scope", demo_hex_digest "").

Lemma handled_ok h now request state : cache_ok state → cache_ok (handle h now request state).1.
Proof.
  intros Hok. pose proof (handle_effect h now request state Hok) as Hh.
  destruct (handle h now request state). by apply Hh.
Qed.

Lemma demo_committed_ok : cache_ok demo_committed.
Proof. unfold demo_committed, demo_uploaded, demo_first, demo_reserved. do 4 apply handled_ok. exact demo_cache_ok.
Qed.

Lemma cache_entries_immutable_witness :
  store (handle demo_hex_digest 9 (LookupRequest demo_token "npm" "v1") demo_committed).1
    !! demo_directory = Some (touch 9 demo_live) ∧
  demo_directory = demo_directory ∧ (touch 9 demo_live = demo_live ∨ touch 9 demo_live = touch 9 demo_live).
Proof.
  assert (store (handle demo_hex_digest 9 (LookupRequest demo_token "npm" "v1") demo_committed).1
    !! demo_directory = Some (touch 9 demo_live)) as H1 by (vm_compute; reflexivity).
  assert (store demo_committed !! demo_directory = Some demo_live) as H2 by (vm_compute; reflexivity).
  assert (demo_directory.1 = scope_root demo_committed) as H3 by (vm_compute; reflexivity).
  assert (is_expired 9 (entry_of (demo_directory, demo_live)) = false) as H4 by (vm_compute; reflexivity).
  split; [exact H1|].
  exact (cache_entries_immutable demo_hex_digest 9 (LookupRequest demo_token "npm" "v1") demo_committed
    demo_directory demo_live demo_directory (touch 9 demo_live) demo_committed_ok H2 H3 H4 H1 eq_refl eq_refl eq_refl).
Defined.

(** A rejected chunk has been written: the bytes before the one that is too many
    replace bytes of an accepted range. *)
Example rejected_chunk_is_written :
  match accepted_uploads 1 demo_token demo_reserved [("bytes 0-2/*", ["hel"])] with
  | Ok s => let '(s, result) := upload_chunk 1 demo_token (Some "bytes 0-1/*") [Some "XX"; Some "Y"] s in
            is_ok result = false ∧ rv_upload <$> (reservations s !! 1%Z) = Some "XXl" ∧
            rv_ranges <$> (reservations s !! 1%Z) = Some [(0, 2)%Z]
  | _ => False
  end.
Proof. vm_compute. done. Qed.

(** The name of a directory does not determine key and version when a key has a
    zero byte, which [validate_key] allows. *)
Lemma zero_byte_in_key (h : string → string) state :
  final_directory h state ("a" +:+ String nul "b") "c" = final_directory h state "a" ("b" +:+ String nul "c") ∧
  is_ok (validate_key ("a" +:+ String nul "b")) = true.
Proof. split; [reflexivity|vm_compute; reflexivity]. Qed.
