(* ===== verification/Concurrency.v ===== *)
(** * The concurrency client (crates/gitzero-agent, concurrency.rs)

    Requests for a concurrency group, from the insertion into the table of the
    client to the release of the lease, as a transition system.  An event is a
    stretch of one task between two points where it may be suspended, so every
    interleaving of the calls, the messages of the control plane and the loss of
    the connection is a list of events.  A request, its [oneshot] channel and its
    [watch] channel are known by the request's id. *)

From S2P Require Import Prelude RustStr Protocol.

(** ** The ids of units *)

Definition MAX_UNIT_ID_BYTES : nat := 512.

Definition ellipsis : string := String "226" (String "128" (String "166" "")).

Definition bounded_unit_id (value : string) : string :=
  if bool_decide (slen value ≤ MAX_UNIT_ID_BYTES) then value
  else stake (floor_char_boundary value (MAX_UNIT_ID_BYTES - slen ellipsis)) value +:+ ellipsis.

(** ** State *)

(** [Result<(), String>], what the control plane decides. *)
Inductive Decision := Accepted | Rejected (reason : string).

(** [rq_grant]: the sender is still in the table.  The sender of [cancel] is in
    the table as long as the request. *)
Record RequestState := mkRequestState {
  rq_granted : bool;
  rq_grant : bool;
}.

(** The arguments of [acquire]; [ca_cancelled] is the value of its [cancel]. *)
Record Call := mkCall {
  ca_run_id : Uuid;
  ca_unit_id : string;
  ca_group : string;
  ca_cancel_in_progress : bool;
  ca_queue : ConcurrencyQueue;
  ca_cancelled : bool;
}.

#[export] Instance Call_updatable : Updatable Call := λ c,
  mkCall (ca_run_id c) (ca_unit_id c) (ca_group c) (ca_cancel_in_progress c) (ca_queue c) (ca_cancelled c).

(** How a request ends for its caller. *)
Inductive End :=
  | EndCancelled (reason : string)     (** by the control plane, or with the connection *)
  | EndAbandoned                       (** its run was cancelled *)
  | EndSendFailed
  | EndUndecided
  | EndReleased
  | EndReleaseFailed.

Definition end_result (e : End) : outcome string (option string) :=
  match e with
  | EndCancelled reason => Ok (Some reason)
  | EndAbandoned => Ok (Some "The parent run was cancelled while waiting for concurrency.")
  | EndSendFailed => Err "control plane event channel closed while acquiring concurrency"
  | EndUndecided => Err "concurrency request ended without a control plane decision"
  | EndReleased => Ok None
  | EndReleaseFailed => Err "control plane event channel closed while releasing concurrency"
  end.

(** Where the task of a request is. *)
Inductive Phase :=
  | Sending                            (** in the table, the message is to be sent *)
  | SendFailed
  | Waiting                            (** in the loop of [acquire] *)
  | Abandoning | AbandonSending        (** [abandon]: before and after the lock *)
  | Undecided
  | Holding                            (** the caller has the lease *)
  | Releasing | ReleaseSending         (** [release_inner]: before and after the lock *)
  | Finished (result : End)
  | Gone.                              (** the future, or the lease, was dropped *)

(** What a handler has taken out of the table and has still to tell. *)
Record Delivery := mkDelivery {
  dl_id : Uuid;
  dl_cancel : bool;
  dl_grant : option Decision;
}.

Record Client := mkClient {
  requests : gmap Uuid RequestState;
  oneshots : gmap Uuid (Oneshot Decision);
  watches : gmap Uuid bool;
  calls : gmap Uuid (Call * Phase);
  deliveries : list Delivery;
  sent : list AgentMessage;
  connected : bool;
}.

#[export] Instance Client_updatable : Updatable Client := λ c,
  mkClient (requests c) (oneshots c) (watches c) (calls c) (deliveries c) (sent c) (connected c).

(** [ConcurrencyClient::remote] *)
Definition remote : Client := mkClient ∅ ∅ ∅ ∅ [] [] true.

(** ** Effects *)

Definition set_phase (id : Uuid) (call : Call) (phase : Phase) (c : Client) : Client :=
  c <| calls := <[id := (call, phase)]> (calls c) |>.

(** [requests.remove(&request_id)] when the value is dropped: so is its sender. *)
Definition remove_request (id : Uuid) (c : Client) : Client :=
  let c' := c <| requests := delete id (requests c) |> in
  match requests c !! id with
  | Some (mkRequestState _ true) => c' <| oneshots := <[id := Dropped]> (oneshots c) |>
  | _ => c'
  end.

Definition send_message (message : AgentMessage) (c : Client) : Client := c <| sent := sent c ++ [message] |>.

Definition acquire_message (message_id id : Uuid) (call : Call) : AgentMessage :=
  ConcurrencyAcquire message_id (ca_run_id call) id (bounded_unit_id (ca_unit_id call)) (ca_group call)
    (ca_cancel_in_progress call) (ca_queue call).

Definition release_message (message_id id : Uuid) (call : Call) : AgentMessage :=
  ConcurrencyRelease message_id (ca_run_id call) id.

(** ** The task of a request *)

(** [acquire] up to its first message. *)
Definition insert_request (id : Uuid) (call : Call) (c : Client) : option Client :=
  match calls c !! id with
  | Some _ => None
  | None =>
      Some (set_phase id call Sending
        (c <| requests := <[id := mkRequestState false true]> (requests c) |>
           <| oneshots := <[id := Empty]> (oneshots c) |>
           <| watches := <[id := false]> (watches c) |>))
  end.

(** The sends of [acquire], [abandon] and [release_inner]. *)
Definition send_step (message_id id : Uuid) (c : Client) : option Client :=
  '(call, phase) ← calls c !! id;
  match phase with
  | Sending =>
      Some (if connected c then set_phase id call Waiting (send_message (acquire_message message_id id call) c)
            else set_phase id call SendFailed c)
  | AbandonSending =>
      let c' := if connected c then send_message (release_message message_id id call) c else c in
      Some (set_phase id call (Finished EndAbandoned) c')
  | ReleaseSending =>
      Some (if connected c
            then set_phase id call (Finished EndReleased) (send_message (release_message message_id id call) c)
            else set_phase id call (Finished EndReleaseFailed) c)
  | _ => None
  end.

(** The removals of [acquire], [abandon] and [release_inner], under the lock. *)
Definition remove_step (id : Uuid) (c : Client) : option Client :=
  '(call, phase) ← calls c !! id;
  let removed phase := Some (set_phase id call phase (remove_request id c)) in
  match phase with
  | SendFailed => removed (Finished EndSendFailed)
  | Abandoning => removed AbandonSending
  | Undecided => removed (Finished EndUndecided)
  | Releasing => removed ReleaseSending
  | _ => None
  end.

(** The loop of [acquire] and the match on its response. *)
Definition observe_cancel (id : Uuid) (c : Client) : option Client :=
  '(call, phase) ← calls c !! id;
  match phase with
  | Waiting => if ca_cancelled call then Some (set_phase id call Abandoning c) else None
  | _ => None
  end.

Definition receive (id : Uuid) (c : Client) : option Client :=
  '(call, phase) ← calls c !! id;
  match phase, oneshots c !! id with
  | Waiting, Some (Sent Accepted) => Some (set_phase id call Holding c)
  | Waiting, Some (Sent (Rejected reason)) => Some (set_phase id call (Finished (EndCancelled reason)) c)
  | Waiting, Some Dropped => Some (set_phase id call Undecided c)
  | _, _ => None
  end.

(** [release] up to its lock. *)
Definition release (id : Uuid) (c : Client) : option Client :=
  '(call, phase) ← calls c !! id;
  match phase with Holding => Some (set_phase id call Releasing c) | _ => None end.

(** The future of [acquire] or [release], or the lease, is dropped.  Only the
    lease does something then, if it gets the lock and there is room. *)
Definition drop_step (message_id id : Uuid) (locked full : bool) (c : Client) : option Client :=
  '(call, phase) ← calls c !! id;
  match phase with
  | Finished _ | Gone => None
  | Holding =>
      let c := if locked then c else remove_request id c in
      let c := if full || negb (connected c) then c else send_message (release_message message_id id call) c in
      Some (set_phase id call Gone c)
  | _ => Some (set_phase id call Gone c)
  end.

(** The caller's [cancel] becomes true. *)
Definition cancel_run (id : Uuid) (c : Client) : option Client :=
  '(call, phase) ← calls c !! id;
  Some (set_phase id (call <| ca_cancelled := true |>) phase c).

(** ** The handlers *)

Definition handle_granted (id : Uuid) (c : Client) : Client :=
  match requests c !! id with
  | None => c
  | Some request =>
      c <| requests := <[id := mkRequestState true false]> (requests c) |>
        <| deliveries := if rq_grant request then [mkDelivery id false (Some Accepted)] else [] |>
  end.

Definition handle_cancelled (id : Uuid) (reason : string) (c : Client) : Client :=
  match requests c !! id with
  | None => c
  | Some request =>
      if rq_granted request then c <| watches := <[id := true]> (watches c) |>
      else
        c <| requests := delete id (requests c) |>
          <| deliveries := if rq_grant request then [mkDelivery id false (Some (Rejected reason))] else [] |>
  end.

Definition drained (binding : Uuid * RequestState) : Delivery :=
  mkDelivery binding.1 true
    (if rq_grant binding.2 then Some (Rejected "Control plane connection closed.") else None).

(** The order of a drained [HashMap] is not specified and makes no difference. *)
Definition cancel_all (c : Client) : Client :=
  c <| requests := ∅ |> <| deliveries := drained <$> map_to_list (requests c) |>.

(** [send_replace] and [send] outside the lock, one request at a time; nobody
    sees the one without the other. *)
Definition deliver (delivery : Delivery) (c : Client) : Client :=
  let id := dl_id delivery in
  let c := if dl_cancel delivery then c <| watches := <[id := true]> (watches c) |> else c in
  match dl_grant delivery with
  | Some decision => c <| oneshots := <[id := Sent decision]> (oneshots c) |>
  | None => c
  end.

(** ** Events *)

Inductive Event :=
  | Insert (id : Uuid) (call : Call)
  | Send (message_id id : Uuid)
  | Remove (id : Uuid)
  | ObserveCancel (id : Uuid)
  | Receive (id : Uuid)
  | Release (id : Uuid)
  | DropFuture (message_id id : Uuid) (locked full : bool)
  | CancelRun (id : Uuid)
  | HandleGranted (id : Uuid)
  | HandleCancelled (id : Uuid) (reason : string)
  | CancelAll
  | Deliver
  | Disconnect.

(** The handlers run one after the other, in the task of the connection. *)
Definition handler (f : Client → Client) (c : Client) : option Client :=
  match deliveries c with [] => Some (f c) | _ => None end.

Definition run_event (event : Event) (c : Client) : option Client :=
  match event with
  | Insert id call => insert_request id call c
  | Send message_id id => send_step message_id id c
  | Remove id => remove_step id c
  | ObserveCancel id => observe_cancel id c
  | Receive id => receive id c
  | Release id => release id c
  | DropFuture message_id id locked full => drop_step message_id id locked full c
  | CancelRun id => cancel_run id c
  | HandleGranted id => handler (handle_granted id) c
  | HandleCancelled id reason => handler (handle_cancelled id reason) c
  | CancelAll => handler cancel_all c
  | Deliver =>
      match deliveries c with
      | [] => None
      | delivery :: rest => Some (deliver delivery (c <| deliveries := rest |>))
      end
  | Disconnect => Some (c <| connected := false |>)
  end.

(** [None]: an event was not enabled. *)
Fixpoint run_events (events : list Event) (c : Client) : option Client :=
  match events with
  | [] => Some c
  | event :: events => c ← run_event event c; run_events events c
  end.

(** * What the concurrency client keeps

    The invariant of every interleaving: where a request is in the protocol, from
    what its task, the table, its channels and the messages sent about it say
    together. *)

(** ** What concerns one request *)

Definition request_of (message : AgentMessage) : option Uuid :=
  match message with
  | ConcurrencyAcquire _ _ id _ _ _ _ | ConcurrencyRelease _ _ id => Some id
  | _ => None
  end.

Definition about (id : Uuid) (messages : list AgentMessage) : list AgentMessage :=
  base.filter (λ message, request_of message = Some id) messages.

Definition undelivered (id : Uuid) (ds : list Delivery) : list Delivery := base.filter (λ d, dl_id d = id) ds.

Record View := mkView {
  v_request : option RequestState;
  v_oneshot : option (Oneshot Decision);
  v_watch : option bool;
  v_call : option (Call * Phase);
  v_undelivered : list Delivery;
  v_messages : list AgentMessage;
}.

#[export] Instance View_updatable : Updatable View := λ v,
  mkView (v_request v) (v_oneshot v) (v_watch v) (v_call v) (v_undelivered v) (v_messages v).

Definition view (id : Uuid) (c : Client) : View :=
  mkView (requests c !! id) (oneshots c !! id) (watches c !! id) (calls c !! id)
    (undelivered id (deliveries c)) (about id (sent c)).

Lemma about_snoc id ms m : request_of m = Some id → about id (ms ++ [m]) = about id ms ++ [m].
Proof. intros Hm. unfold about. by rewrite filter_app, filter_cons_True. Qed.

Section view.
Context (id : Uuid) (c : Client).

Lemma view_set_phase call phase : view id (set_phase id call phase c) = view id c <| v_call := Some (call, phase) |>.
Proof. unfold view; simpl. by rewrite lookup_insert_eq. Qed.

Lemma view_send_message message :
  request_of message = Some id → view id (send_message message c) = view id c <| v_messages := v_messages (view id c) ++ [message] |>.
Proof. intros Hm. unfold view; simpl. by rewrite about_snoc. Qed.

Lemma view_remove_request :
  view id (remove_request id c) =
    let v := view id c <| v_request := None |> in
    match requests c !! id with Some (mkRequestState _ true) => v <| v_oneshot := Some Dropped |> | _ => v end.
Proof.
  unfold remove_request, view.
  destruct (requests c !! id) as [[g []]|] eqn:Hr; simpl; by rewrite lookup_delete_eq, ?lookup_insert_eq.
Qed.

Context (other : Uuid) (Hne : id ≠ other).

Lemma view_set_phase_ne call phase : view id (set_phase other call phase c) = view id c.
Proof. unfold view; simpl. by rewrite lookup_insert_ne by congruence. Qed.

Lemma view_send_message_ne message : request_of message = Some other → view id (send_message message c) = view id c.
Proof.
  intros Hm. unfold view, about; simpl. by rewrite filter_app, filter_cons_False, filter_nil, app_nil_r by congruence.
Qed.

Lemma view_remove_request_ne : view id (remove_request other c) = view id c.
Proof.
  unfold remove_request, view.
  destruct (requests c !! other) as [[g []]|]; simpl; by rewrite lookup_delete_ne, ?lookup_insert_ne by congruence.
Qed.
End view.

Lemma undelivered_drained id (m : gmap Uuid RequestState) :
  undelivered id (drained <$> map_to_list m) = match m !! id with Some r => [drained (id, r)] | None => [] end.
Proof.
  induction m as [|i r m Hi IH] using map_ind.
  - by rewrite map_to_list_empty, lookup_empty.
  - assert (undelivered id (drained <$> map_to_list (<[i := r]> m)) ≡ₚ
      undelivered id (drained (i, r) :: (drained <$> map_to_list m))) as Hp.
    { unfold undelivered. by rewrite map_to_list_insert by done. }
    revert Hp. unfold undelivered at 2. destruct (decide (i = id)) as [-> | Hne].
    + rewrite filter_cons_True by done. fold (undelivered id (drained <$> map_to_list m)).
      rewrite IH, Hi, lookup_insert_eq. intros Hp. by apply Permutation_singleton_r in Hp.
    + rewrite filter_cons_False by done. fold (undelivered id (drained <$> map_to_list m)).
      rewrite IH, lookup_insert_ne by done. destruct (m !! id); intros Hp.
      * by apply Permutation_singleton_r in Hp.
      * by apply Permutation_nil_r in Hp.
Qed.

(** ** Which request an event is about *)

Definition subject (event : Event) (c : Client) (id : Uuid) : Prop :=
  match event with
  | Insert i _ | Send _ i | Remove i | ObserveCancel i | Receive i | Release i | DropFuture _ i _ _
  | CancelRun i | HandleGranted i | HandleCancelled i _ => i = id
  | CancelAll => True
  | Deliver => match deliveries c with d :: _ => dl_id d = id | [] => False end
  | Disconnect => False
  end.

Lemma deliver_frame id d c : dl_id d ≠ id → view id (deliver d c) = view id c.
Proof.
  intros Hne. unfold deliver, view. destruct (dl_cancel d), (dl_grant d); simpl; by rewrite ?lookup_insert_ne by done.
Qed.

Lemma handler_Some f c c' : handler f c = Some c' → deliveries c = [] ∧ c' = f c.
Proof. unfold handler. destruct (deliveries c); [by intros [= <-]|done]. Qed.

(** An event leaves what concerns the other requests as it is. *)
Lemma event_frame event c c' id :
  run_event event c = Some c' → ¬ subject event c id → view id c' = view id c.
Proof.
  intros Hrun Hsub. destruct event as [i call|m i|i|i|i|i|m i locked full|i|i|i reason| | |]; simpl in Hrun, Hsub;
    try (assert (id ≠ i) as Hne by congruence).
  - unfold insert_request in Hrun. destruct (calls c !! i); [done|]. injection Hrun as <-.
    rewrite view_set_phase_ne by done. unfold view; simpl. by rewrite !lookup_insert_ne by done.
  - unfold send_step in Hrun. destruct (calls c !! i) as [[call []]|]; simpl in Hrun; try done; injection Hrun as <-;
      destruct (connected c); rewrite view_set_phase_ne by done; rewrite ?(view_send_message_ne id c i) by done; done.
  - unfold remove_step in Hrun. destruct (calls c !! i) as [[call []]|]; simpl in Hrun; try done; injection Hrun as <-;
      by rewrite view_set_phase_ne, view_remove_request_ne.
  - unfold observe_cancel in Hrun. destruct (calls c !! i) as [[call []]|]; simpl in Hrun; try done.
    destruct (ca_cancelled call); [|done]. injection Hrun as <-. by rewrite view_set_phase_ne.
  - unfold receive in Hrun. destruct (calls c !! i) as [[call []]|]; simpl in Hrun; try done.
    destruct (oneshots c !! i) as [[| []|]|]; try done; injection Hrun as <-; by rewrite view_set_phase_ne.
  - unfold release in Hrun. destruct (calls c !! i) as [[call []]|]; simpl in Hrun; try done. injection Hrun as <-.
    by rewrite view_set_phase_ne.
  - unfold drop_step in Hrun. destruct (calls c !! i) as [[call []]|]; simpl in Hrun; try done; injection Hrun as <-;
      rewrite view_set_phase_ne by done; try done.
    destruct (full || _); rewrite ?(view_send_message_ne id _ i) by done; destruct locked; by rewrite ?view_remove_request_ne.
  - unfold cancel_run in Hrun. destruct (calls c !! i) as [[call phase]|]; simpl in Hrun; [|done]. injection Hrun as <-.
    by rewrite view_set_phase_ne.
  - apply handler_Some in Hrun as [Hd ->]. unfold handle_granted. destruct (requests c !! i) as [r|]; [|done].
    unfold view; simpl. rewrite lookup_insert_ne, Hd by done. unfold undelivered.
    destruct (rq_grant r); [|done]. by rewrite filter_cons_False.
  - apply handler_Some in Hrun as [Hd ->]. unfold handle_cancelled. destruct (requests c !! i) as [r|]; [|done].
    destruct (rq_granted r); unfold view; simpl; [by rewrite lookup_insert_ne|].
    rewrite lookup_delete_ne, Hd by done. unfold undelivered. destruct (rq_grant r); [|done]. by rewrite filter_cons_False.
  - by destruct Hsub.
  - destruct (deliveries c) as [|d rest] eqn:Hd; [done|]. injection Hrun as <-. rewrite deliver_frame by done.
    unfold view; simpl. rewrite Hd. unfold undelivered. by rewrite (filter_cons_False _ d).
  - by injection Hrun as <-.
Qed.

(** ** The invariant *)

Section history.
(** The events so far. *)
Context (history : list Event).

(** Where the decision on a request is, while its task has not removed it. *)
Inductive decision_state (id : Uuid) (v : View) : Prop :=
  | ds_pending :
      v_request v = Some (mkRequestState false true) → v_oneshot v = Some Empty → v_undelivered v = [] →
      decision_state id v
  | ds_granting :
      v_request v = Some (mkRequestState true false) → v_oneshot v = Some Empty →
      v_undelivered v = [mkDelivery id false (Some Accepted)] → HandleGranted id ∈ history → decision_state id v
  | ds_granted :
      v_request v = Some (mkRequestState true false) → v_oneshot v = Some (Sent Accepted) →
      v_undelivered v = [] → HandleGranted id ∈ history → decision_state id v
  | ds_refusing cancel reason :
      v_request v = None → v_oneshot v = Some Empty → v_undelivered v = [mkDelivery id cancel (Some (Rejected reason))] →
      decision_state id v
  | ds_refused reason :
      v_request v = None → v_oneshot v = Some (Sent (Rejected reason)) → v_undelivered v = [] → decision_state id v
  | ds_revoking :
      v_request v = None → v_oneshot v = Some (Sent Accepted) → v_undelivered v = [mkDelivery id true None] →
      HandleGranted id ∈ history → decision_state id v
  | ds_revoked :
      v_request v = None → v_oneshot v = Some (Sent Accepted) → v_watch v = Some true → v_undelivered v = [] →
      HandleGranted id ∈ history → decision_state id v.

Definition acquired (id : Uuid) (call : Call) (messages : list AgentMessage) : Prop :=
  ∃ m, messages = [acquire_message m id call].

Definition acquired_and_released (id : Uuid) (call : Call) (messages : list AgentMessage) : Prop :=
  ∃ m m', messages = [acquire_message m id call; release_message m' id call].

(** The messages sent about a request. *)
Definition protocol (online : bool) (id : Uuid) (call : Call) (phase : Phase) (messages : list AgentMessage) : Prop :=
  match phase with
  | Sending | SendFailed | Finished EndSendFailed => messages = []
  | Waiting | Abandoning | AbandonSending | Holding | Releasing | ReleaseSending
  | Finished (EndCancelled _) | Finished EndReleaseFailed => acquired id call messages
  | Finished EndReleased => acquired_and_released id call messages
  | Finished EndAbandoned =>
      acquired_and_released id call messages ∨ online = false ∧ acquired id call messages
  | Gone => messages = [] ∨ acquired id call messages ∨ acquired_and_released id call messages
  | Undecided | Finished EndUndecided => False
  end.

Definition standing (id : Uuid) (phase : Phase) (v : View) : Prop :=
  match phase with
  | Sending | SendFailed | Waiting | Abandoning => decision_state id v
  | Holding | Releasing => decision_state id v ∧ v_oneshot v = Some (Sent Accepted)
  | AbandonSending | ReleaseSending | Finished _ => v_request v = None
  | Undecided => False
  | Gone => True
  end.

Definition status (online : bool) (id : Uuid) (v : View) : Prop :=
  match v_call v with
  | None => v_request v = None ∧ v_undelivered v = [] ∧ v_messages v = []
  | Some (call, phase) => standing id phase v ∧ protocol online id call phase (v_messages v)
  end.
End history.

Definition client_ok (history : list Event) (c : Client) : Prop :=
  ∀ id, status history (connected c) id (view id c).

Lemma decision_state_mono h h' id v : (∀ e, e ∈ h → e ∈ h') → decision_state h id v → decision_state h' id v.
Proof.
  intros Hh [?|? ? ? Hg|? ? ? Hg|c r|r|? ? ? Hg|? ? ? ? Hg]; try apply Hh in Hg.
  - by apply ds_pending.
  - by apply ds_granting.
  - by apply ds_granted.
  - by apply (ds_refusing _ _ _ c r).
  - by apply (ds_refused _ _ _ r).
  - by apply ds_revoking.
  - by apply ds_revoked.
Qed.

(** It is about the table, the channels and the deliveries only. *)
Lemma decision_state_ext h id v v' :
  decision_state h id v → v_request v' = v_request v → v_oneshot v' = v_oneshot v → v_watch v' = v_watch v →
  v_undelivered v' = v_undelivered v → decision_state h id v'.
Proof.
  intros Hds H1 H2 H3 H4. destruct Hds as [?|? ? ? ?|? ? ? ?|c r|r|? ? ? ?|? ? ? ? ?].
  - apply ds_pending; congruence.
  - apply ds_granting; congruence.
  - apply ds_granted; congruence.
  - apply (ds_refusing _ _ _ c r); congruence.
  - apply (ds_refused _ _ _ r); congruence.
  - apply ds_revoking; congruence.
  - apply ds_revoked; congruence.
Qed.

Lemma status_mono h h' online online' id v :
  (∀ e, e ∈ h → e ∈ h') → (online' = true → online = true) → status h online id v → status h' online' id v.
Proof.
  intros Hh Ho. unfold status. destruct (v_call v) as [[call phase]|]; [|done]. intros [Hs Hp]. split.
  - destruct phase; simpl in *; try done; try (by eapply decision_state_mono); destruct Hs; (split; [by eapply decision_state_mono|done]).
  - destruct phase as [| | | | | | | | |[]|]; simpl in *; try done. destruct Hp as [|[-> ?]]; [by left|right].
    split; [|done]. destruct online'; [by specialize (Ho eq_refl)|done].
Qed.

(** Only the loss of the connection changes [connected]. *)
Lemma event_connected event c c' :
  run_event event c = Some c' → connected c' = match event with Disconnect => false | _ => connected c end.
Proof.
  destruct event as [i call|m i|i|i|i|i|m i locked full|i|i|i reason| | |]; simpl; intros Hrun.
  - unfold insert_request in Hrun. destruct (calls c !! i); [done|]. by injection Hrun as <-.
  - unfold send_step in Hrun. destruct (calls c !! i) as [[call []]|]; simpl in Hrun; try done; injection Hrun as <-;
      destruct (connected c) eqn:Hc; simpl; congruence.
  - unfold remove_step, remove_request in Hrun.
    destruct (calls c !! i) as [[call []]|]; simpl in Hrun; try done; injection Hrun as <-;
      by destruct (requests c !! i) as [[? []]|].
  - unfold observe_cancel in Hrun. destruct (calls c !! i) as [[call []]|]; simpl in Hrun; try done.
    destruct (ca_cancelled call); [|done]. by injection Hrun as <-.
  - unfold receive in Hrun. destruct (calls c !! i) as [[call []]|]; simpl in Hrun; try done.
    by destruct (oneshots c !! i) as [[| []|]|]; try done; injection Hrun as <-.
  - unfold release in Hrun. destruct (calls c !! i) as [[call []]|]; simpl in Hrun; try done. by injection Hrun as <-.
  - unfold drop_step, remove_request in Hrun.
    destruct (calls c !! i) as [[call []]|]; simpl in Hrun; try done; injection Hrun as <-; try done.
    by destruct (full || _), locked, (requests c !! i) as [[? []]|].
  - unfold cancel_run in Hrun. destruct (calls c !! i) as [[call phase]|]; simpl in Hrun; [|done]. by injection Hrun as <-.
  - apply handler_Some in Hrun as [_ ->]. unfold handle_granted. by destruct (requests c !! i).
  - apply handler_Some in Hrun as [_ ->]. unfold handle_cancelled. destruct (requests c !! i) as [r|]; [|done].
    by destruct (rq_granted r).
  - by apply handler_Some in Hrun as [_ ->].
  - destruct (deliveries c) as [|d rest]; [done|]. injection Hrun as <-. unfold deliver. simpl.
    by destruct (dl_cancel d), (dl_grant d).
  - by injection Hrun as <-.
Qed.

(** ** Every event keeps the invariant *)

Section step.
Context (h : list Event) (id : Uuid) (c c' : Client).
Hypothesis Hok : status h (connected c) id (view id c).

Lemma status_of_call call phase :
  calls c !! id = Some (call, phase) →
  standing h id phase (view id c) ∧ protocol (connected c) id call phase (about id (sent c)).
Proof. intros Hc. revert Hok. unfold status. simpl. by rewrite Hc. Qed.

Lemma client_insert_ok call : insert_request id call c = Some c' → status h (connected c) id (view id c').
Proof.
  unfold insert_request. destruct (calls c !! id) eqn:Hc; [done|]. intros [= <-].
  pose proof Hok as Hnew. unfold status in Hnew. simpl in Hnew. rewrite Hc in Hnew. destruct Hnew as (_ & Hu & Hm).
  rewrite view_set_phase. split; [|done]. apply ds_pending; simpl; [by rewrite lookup_insert_eq..|done].
Qed.

Lemma send_ok m : send_step m id c = Some c' → status h (connected c) id (view id c').
Proof.
  unfold send_step. destruct (calls c !! id) as [[call phase]|] eqn:Hc; [|done]. simpl.
  destruct (status_of_call _ _ Hc) as [Hs Hp]. destruct phase; simpl in Hs, Hp; try done; intros [= <-];
    destruct (connected c) eqn:Hn; rewrite view_set_phase, ?view_send_message by done; unfold status; simpl;
    (split; [first [done|by apply (decision_state_ext _ _ _ _ Hs)]|]); try done.
  - rewrite Hp. by exists m.
  - left. destruct Hp as [m0 ->]. by exists m0, m.
  - by right.
  - destruct Hp as [m0 ->]. by exists m0, m.
Qed.

Lemma remove_ok : remove_step id c = Some c' → status h (connected c) id (view id c').
Proof.
  unfold remove_step. destruct (calls c !! id) as [[call phase]|] eqn:Hc; [|done]. simpl.
  destruct (status_of_call _ _ Hc) as [Hs Hp]. destruct phase; simpl in Hs, Hp; try done; intros [= <-];
    rewrite view_set_phase, view_remove_request; unfold status; by destruct (requests c !! id) as [[? []]|].
Qed.

Lemma observe_cancel_ok : observe_cancel id c = Some c' → status h (connected c) id (view id c').
Proof.
  unfold observe_cancel. destruct (calls c !! id) as [[call phase]|] eqn:Hc; [|done]. simpl.
  destruct (status_of_call _ _ Hc) as [Hs Hp]. destruct phase; try done. destruct (ca_cancelled call); [|done].
  intros [= <-]. rewrite view_set_phase. by split; [apply (decision_state_ext _ _ _ _ Hs)|].
Qed.

Lemma receive_ok : receive id c = Some c' → status h (connected c) id (view id c').
Proof.
  unfold receive. destruct (calls c !! id) as [[call phase]|] eqn:Hc; [|done]. simpl.
  destruct (status_of_call _ _ Hc) as [Hs Hp]. destruct phase; try done. simpl in Hs, Hp.
  destruct (oneshots c !! id) as [[|[|reason]|]|] eqn:Ho; try done; intros [= <-]; rewrite view_set_phase; unfold status; simpl.
  - split; [split; [by apply (decision_state_ext _ _ _ _ Hs)|done]|done].
  - split; [|done]. by destruct Hs; simpl in *; congruence.
  - destruct Hs; simpl in *; congruence.
Qed.

Lemma release_ok : release id c = Some c' → status h (connected c) id (view id c').
Proof.
  unfold release. destruct (calls c !! id) as [[call phase]|] eqn:Hc; [|done]. simpl.
  destruct (status_of_call _ _ Hc) as [Hsd Hp]; destruct phase; try done. destruct Hsd as [Hs Ho]. intros [= <-]. rewrite view_set_phase.
  by split; [split; [apply (decision_state_ext _ _ _ _ Hs)|]|].
Qed.

Lemma client_drop_ok m locked full : drop_step m id locked full c = Some c' → status h (connected c) id (view id c').
Proof.
  unfold drop_step. destruct (calls c !! id) as [[call phase]|] eqn:Hc; [|done]. simpl.
  destruct (status_of_call _ _ Hc) as [_ Hp].
  destruct phase; simpl in Hp; try done; intros [= <-]; rewrite view_set_phase; unfold status; simpl; (split; [done|]);
    try (by auto).
  destruct Hp as [m0 Hp]. assert (about id (sent (if locked then c else remove_request id c)) = about id (sent c)) as Heq.
  { unfold remove_request. by destruct locked, (requests c !! id) as [[? []]|]. }
  destruct (full || _); simpl; [rewrite Heq, Hp; right; left; by exists m0|].
  right; right. exists m0, m. by rewrite about_snoc, Heq, Hp.
Qed.

Lemma cancel_run_ok : cancel_run id c = Some c' → status h (connected c) id (view id c').
Proof.
  unfold cancel_run. destruct (calls c !! id) as [[call phase]|] eqn:Hc; [|done]. simpl.
  destruct (status_of_call _ _ Hc) as [Hs Hp]. intros [= <-]. rewrite view_set_phase. split; [|by destruct phase].
  destruct phase; try done; try (by apply (decision_state_ext _ _ _ _ Hs)); destruct Hs as [Hs Ho]; (split; [by apply (decision_state_ext _ _ _ _ Hs)|done]).
Qed.
End step.

Section handlers.
Context (h : list Event) (id : Uuid) (c : Client).
Hypothesis Hok : status h (connected c) id (view id c).
Hypothesis Hidle : deliveries c = [].

(** A handler moves the decision along; it sends nothing and moves no task. *)
Lemma handler_status (h' : list Event) (c' : Client) :
  (∀ e, e ∈ h → e ∈ h') → calls c' !! id = calls c !! id →
  about id (sent c') = about id (sent c) →
  (requests c !! id = None → view id c' = view id c) →
  (decision_state h id (view id c) → decision_state h' id (view id c') ∧
    (oneshots c !! id = Some (Sent Accepted) → oneshots c' !! id = Some (Sent Accepted))) →
  status h' (connected c) id (view id c').
Proof.
  intros Hh Hc Hm Hgone Hstep. destruct (requests c !! id) as [r|] eqn:Hr.
  2: { rewrite (Hgone eq_refl). by eapply status_mono; [exact Hh| |exact Hok]. }
  pose proof Hok as Hs. unfold status in *. simpl in *. rewrite Hc, Hm. destruct (calls c !! id) as [[call phase]|].
  2: { destruct Hs as [Hs _]. congruence. }
  destruct Hs as [Hs Hp]. split; [|done].
  destruct phase; simpl in *; try done; try (by apply Hstep); try congruence; destruct Hs as [Hs Ho]; split; by apply Hstep.
Qed.

Lemma granted_ok : status (h ++ [HandleGranted id]) (connected c) id (view id (handle_granted id c)).
Proof.
  assert (∀ e, e ∈ h → e ∈ h ++ [HandleGranted id]) as Hh by set_solver.
  assert (HandleGranted id ∈ h ++ [HandleGranted id]) as Hin by set_solver.
  unfold handle_granted. destruct (requests c !! id) as [r|] eqn:Hr; [|by apply (status_mono h _ (connected c))].
  apply handler_status; try done; [congruence|].
  intros Hds. destruct Hds as [Hq Ho Hu|? ? Hu|Hq Ho Hu|? ? Hq|? Hq|Hq|Hq]; simpl in *; try congruence.
  - rewrite Hr in Hq. injection Hq as ->. split; [|congruence]. apply ds_granting; simpl; try done.
    + apply lookup_insert_eq.
    + unfold undelivered. by rewrite filter_cons_True.
  - by rewrite Hidle in Hu.
  - rewrite Hr in Hq. injection Hq as ->. split; [|done]. apply ds_granted; simpl; try done. apply lookup_insert_eq.
Qed.

Lemma client_cancelled_ok reason :
  status (h ++ [HandleCancelled id reason]) (connected c) id (view id (handle_cancelled id reason c)).
Proof.
  assert (∀ e, e ∈ h → e ∈ h ++ [HandleCancelled id reason]) as Hh by set_solver.
  unfold handle_cancelled. destruct (requests c !! id) as [[g s]|] eqn:Hr; [|by apply (status_mono h _ (connected c))]. simpl.
  destruct g.
  - apply handler_status; try done; [congruence|].
    intros Hds. apply (decision_state_mono _ _ _ _ Hh) in Hds. split; [|done].
    destruct Hds as [Hq|? ? Hu|Hq Ho Hu Hg|? ? Hq|? Hq|Hq|Hq]; simpl in *; try congruence.
    + by rewrite Hidle in Hu.
    + by apply ds_granted.
  - apply handler_status; try done; [congruence|].
    intros Hds. destruct Hds as [Hq Ho Hu|? ? Hu|Hq Ho Hu|? ? Hq|? Hq|Hq|Hq]; simpl in *; try congruence.
    rewrite Hr in Hq. injection Hq as ->. split; [|congruence]. apply (ds_refusing _ _ _ false reason); simpl; try done.
    + apply lookup_delete_eq.
    + unfold undelivered. by rewrite filter_cons_True.
Qed.

Lemma cancel_all_ok : status (h ++ [CancelAll]) (connected c) id (view id (cancel_all c)).
Proof.
  assert (∀ e, e ∈ h → e ∈ h ++ [CancelAll]) as Hh by set_solver.
  apply handler_status; try done.
  - intros Hr. unfold view. simpl. by rewrite undelivered_drained, Hr, lookup_empty, Hidle.
  - intros Hds. apply (decision_state_mono _ _ _ _ Hh) in Hds. split; [|done].
    destruct Hds as [Hq Ho Hu|? ? Hu|Hq Ho Hu|? ? ? ? Hu|? Hq ? Hu|? ? Hu|Hq ? ? Hu]; simpl in *.
    + apply (ds_refusing _ _ _ true "Control plane connection closed."); simpl; [by rewrite lookup_empty|done|].
      by rewrite undelivered_drained, Hq.
    + by rewrite Hidle in Hu.
    + apply ds_revoking; simpl; [by rewrite lookup_empty|done| |done]. by rewrite undelivered_drained, Hq.
    + by rewrite Hidle in Hu.
    + apply (ds_refused _ _ _ reason); simpl; [by rewrite lookup_empty|done|]. by rewrite undelivered_drained, Hq.
    + by rewrite Hidle in Hu.
    + apply ds_revoked; simpl; [by rewrite lookup_empty|done..| |done]. by rewrite undelivered_drained, Hq.
Qed.
End handlers.

Lemma deliver_ok h (c : Client) d rest :
  deliveries c = d :: rest → status h (connected c) (dl_id d) (view (dl_id d) c) →
  status h (connected c) (dl_id d) (view (dl_id d) (deliver d (c <| deliveries := rest |>))).
Proof.
  intros Hd Hs. set (id := dl_id d) in *. set (c' := deliver _ _).
  assert (undelivered id (deliveries c) = d :: undelivered id rest) as Hu.
  { rewrite Hd. unfold undelivered. by rewrite filter_cons_True. }
  assert (view id c' = mkView (requests c !! id) (match dl_grant d with Some x => Some (Sent x) | None => oneshots c !! id end)
    (if dl_cancel d then Some true else watches c !! id) (calls c !! id) (undelivered id rest) (about id (sent c))) as Hv.
  { unfold c', deliver, view. fold id. destruct (dl_cancel d), (dl_grant d); simpl; by rewrite ?lookup_insert_eq. }
  assert (decision_state h id (view id c) → decision_state h id (view id c') ∧
    (oneshots c !! id = Some (Sent Accepted) → v_oneshot (view id c') = Some (Sent Accepted))) as Hstep.
  { rewrite Hv. intros Hds. destruct Hds as [? ? Hw|Hq Ho Hw|? ? Hw|b r Hq Ho Hw|? ? ? Hw|Hq Ho Hw|? ? ? Hw]; simpl in *;
      rewrite Hu in Hw; try done; injection Hw as Hdd Hw; rewrite Hdd; simpl.
    - split; [by apply ds_granted|congruence].
    - split; [by apply (ds_refused _ _ _ r)|congruence].
    - split; [by apply ds_revoked|done]. }
  unfold status in *. assert (v_call (view id c') = v_call (view id c)) as -> by by rewrite Hv.
  assert (v_messages (view id c') = v_messages (view id c)) as -> by by rewrite Hv.
  assert (v_request (view id c') = v_request (view id c)) as Hr by by rewrite Hv.
  destruct (v_call (view id c)) as [[call phase]|].
  2: { destruct Hs as (_ & Hs & _). simpl in Hs. congruence. }
  destruct Hs as [Hs Hp]. split; [|done].
  destruct phase; cbn [standing] in *; try done; try (by apply Hstep); try congruence; destruct Hs as [Hs Ho]; split; by apply Hstep.
Qed.

Lemma client_ok_event h c c' event :
  client_ok h c → run_event event c = Some c' → client_ok (h ++ [event]) c'.
Proof.
  intros Hok Hrun id. pose proof (event_connected _ _ _ Hrun) as Hn.
  assert (∀ e, e ∈ h → e ∈ h ++ [event]) as Hh by set_solver.
  assert (∀ v, status h (connected c) id v → status (h ++ [event]) (connected c') id v) as Hmono.
  { intros v. apply status_mono; [done|]. rewrite Hn. by destruct event. }
  assert (subject event c id ∨ ¬ subject event c id) as [Hsub|Hsub].
  { destruct event; simpl; try destruct (deliveries c); try (destruct (decide (id0 = id)); auto); auto.
    destruct (decide (dl_id d = id)); auto. }
  2: { rewrite (event_frame _ _ _ _ Hrun Hsub). by apply Hmono. }
  specialize (Hok id). destruct event as [i call|m i|i|i|i|i|m i locked full|i|i|i reason| | |]; simpl in Hrun, Hsub, Hn; subst.
  - apply Hmono. by eapply client_insert_ok.
  - apply Hmono. by eapply send_ok.
  - apply Hmono. by eapply remove_ok.
  - apply Hmono. by eapply observe_cancel_ok.
  - apply Hmono. by eapply receive_ok.
  - apply Hmono. by eapply release_ok.
  - apply Hmono. by eapply client_drop_ok.
  - apply Hmono. by eapply cancel_run_ok.
  - rewrite Hn. apply handler_Some in Hrun as [Hd ->]. by apply granted_ok.
  - rewrite Hn. apply handler_Some in Hrun as [Hd ->]. by apply client_cancelled_ok.
  - rewrite Hn. apply handler_Some in Hrun as [Hd ->]. by apply cancel_all_ok.
  - destruct (deliveries c) as [|d rest] eqn:Hd; [done|]. injection Hrun as <-. subst. by apply Hmono, deliver_ok.
  - done.
Qed.

Lemma run_events_app es es' c c' :
  run_events (es ++ es') c = Some c' ↔ ∃ mid, run_events es c = Some mid ∧ run_events es' mid = Some c'.
Proof.
  revert c; induction es as [|e es IH]; intros c; simpl.
  - split; [by exists c|by intros (? & [= <-] & ?)].
  - destruct (run_event e c) as [c1|]; simpl; [apply IH|]. split; [done|by intros (? & ? & _)].
Qed.

Lemma client_reachable_ok es c : run_events es remote = Some c → client_ok es c.
Proof.
  revert c; induction es as [|e es IH] using rev_ind; intros c.
  - intros [= <-] id. split; [|done]. apply lookup_empty.
  - intros (mid & Hmid & Hrun)%run_events_app. simpl in Hrun.
    destruct (run_event e mid) as [c1|] eqn:He; [|done]. injection Hrun as <-. by apply (client_ok_event _ mid); [apply IH|].
Qed.

(** ** What the client guarantees *)

(** C30: every acquisition is decided: one never ends without a decision of the
    control plane, and when nothing about a request is left in the table or on
    its way, its caller can go on if it waits and sees the cancellation if it
    has the lease. *)
Theorem every_request_is_decided es c id call phase :
  run_events es remote = Some c → calls c !! id = Some (call, phase) →
  phase ≠ Undecided ∧ phase ≠ Finished EndUndecided ∧
  (requests c !! id = None → deliveries c = [] →
    match phase with
    | Waiting => is_Some (receive id c)
    | Holding | Releasing => watches c !! id = Some true
    | _ => True
    end).
Proof.
  intros Hrun Hc. destruct (status_of_call _ _ _ (client_reachable_ok _ _ Hrun id) _ _ Hc) as [Hs Hp].
  split; [by intros ->|]. split; [by intros ->|]. intros Hr Hd.
  assert (undelivered id (deliveries c) = []) as Hu by by rewrite Hd.
  destruct phase; try done.
  - unfold receive. rewrite Hc. simpl. destruct Hs; simpl in *; try congruence; rewrite H0; eauto.
  - destruct Hs as [Hs Ho]. destruct Hs; simpl in *; congruence.
  - destruct Hs as [Hs Ho]. destruct Hs; simpl in *; congruence.
Qed.

(** a caller has a lease only after the control plane granted the request,
    and only after the request was sent. *)
Theorem lease_was_granted es c id call :
  run_events es remote = Some c → calls c !! id = Some (call, Holding) →
  HandleGranted id ∈ es ∧
  ∃ message_id, about id (sent c) = [ConcurrencyAcquire message_id (ca_run_id call) id (bounded_unit_id (ca_unit_id call))
    (ca_group call) (ca_cancel_in_progress call) (ca_queue call)].
Proof.
  intros Hrun Hc. destruct (status_of_call _ _ _ (client_reachable_ok _ _ Hrun id) _ _ Hc) as [[Hs Ho] Hp].
  split; [|exact Hp]. destruct Hs; simpl in *; try done; congruence.
Qed.

(** what is sent about a request is nothing, its acquisition, or its
    acquisition and then its release, and never more; a lease that was released,
    and while the connection lasts a wait that was abandoned, is released at the
    control plane; and a request that has ended is in the table no more. *)
Theorem requests_follow_the_protocol es c id call phase :
  run_events es remote = Some c → calls c !! id = Some (call, phase) →
  (about id (sent c) = [] ∨ acquired id call (about id (sent c)) ∨ acquired_and_released id call (about id (sent c))) ∧
  (phase = Finished EndReleased ∨ phase = Finished EndAbandoned ∧ connected c = true →
    acquired_and_released id call (about id (sent c))) ∧
  (∀ result, phase = Finished result → requests c !! id = None).
Proof.
  intros Hrun Hc. destruct (status_of_call _ _ _ (client_reachable_ok _ _ Hrun id) _ _ Hc) as [Hs Hp].
  split_and!.
  - destruct phase as [| | | | | | | | |[]|]; simpl in Hp; try done; auto. destruct Hp as [?|[_ ?]]; auto.
  - intros [->|[-> Hn]]; [done|]. destruct Hp as [?|[? _]]; [done|congruence].
  - by intros result ->.
Qed.

Lemma floor_char_boundary_last s n i : floor_char_boundary s n < i ≤ n → is_char_boundary s i = false.
Proof.
  induction n as [|n IH]; [lia|]. cbn [floor_char_boundary]. destruct (is_char_boundary s (S n)) eqn:Hn; [lia|].
  intros Hi. destruct (decide (i = S n)) as [-> | Hne]; [done|]. apply IH. lia.
Qed.

(** the id of a unit fits the 512 bytes of the control plane: one that fits
    is kept, and one that does not is cut at a character and marked. *)
Theorem bounded_unit_id_spec value :
  slen (bounded_unit_id value) ≤ MAX_UNIT_ID_BYTES ∧
  if decide (slen value ≤ MAX_UNIT_ID_BYTES) then bounded_unit_id value = value
  else ∃ boundary, boundary ≤ MAX_UNIT_ID_BYTES - 3 ∧ is_char_boundary value boundary = true ∧
    (∀ i, boundary < i ≤ MAX_UNIT_ID_BYTES - 3 → is_char_boundary value i = false) ∧
    bounded_unit_id value = stake boundary value +:+ ellipsis.
Proof.
  unfold bounded_unit_id. case_bool_decide as Hle; case_decide as Hd; try done.
  set (b := floor_char_boundary value (MAX_UNIT_ID_BYTES - slen ellipsis)).
  pose proof (floor_char_boundary_le value (MAX_UNIT_ID_BYTES - slen ellipsis)) as Hb. fold b in Hb.
  change (slen ellipsis) with 3 in Hb. split.
  - rewrite slen_app, slen_stake. change (slen ellipsis) with 3. unfold MAX_UNIT_ID_BYTES in *. lia.
  - exists b. split_and!; [done|apply floor_char_boundary_ok| |done].
    intros i Hi. by apply (floor_char_boundary_last value (MAX_UNIT_ID_BYTES - slen ellipsis)).
Qed.

(** ** Runs of the client *)

Definition demo_call : Call := mkCall 7 "job:0/build" "deploy" true Single false.

(** A grant, a cancellation of the lease by the control plane, and its release. *)
Definition demo_lease : list Event :=
  [Insert 1 demo_call; Send 100 1; HandleGranted 1; Deliver; Receive 1; HandleCancelled 1 "superseded"].

Definition demo_release : list Event := demo_lease ++ [Release 1; Remove 1; Send 101 1].

(** A wait, and a lease, when the connection is lost. *)
Definition demo_lost : list Event :=
  [Insert 1 demo_call; Send 100 1; Insert 2 demo_call; Send 101 2; HandleGranted 1; Deliver; Receive 1; CancelAll; Deliver; Deliver].

Definition client_after (events : list Event) : Client := default remote (run_events events remote).

Lemma every_request_is_decided_witness :
  is_Some (receive 2 (client_after demo_lost)) ∧ watches (client_after demo_lost) !! 1%Z = Some true.
Proof.
  split.
  - apply (every_request_is_decided demo_lost (client_after demo_lost) 2 demo_call Waiting); vm_compute; reflexivity.
  - apply (every_request_is_decided demo_lost (client_after demo_lost) 1 demo_call Holding); vm_compute; reflexivity.
Defined.

Lemma lease_was_granted_witness : HandleGranted 1 ∈ demo_lease.
Proof.
  refine (proj1 (lease_was_granted demo_lease (client_after demo_lease) 1 demo_call _ _)); vm_compute; reflexivity.
Defined.

Lemma requests_follow_the_protocol_witness :
  acquired_and_released 1 demo_call (about 1 (sent (client_after demo_release))).
Proof.
  refine (proj1 (proj2 (requests_follow_the_protocol demo_release (client_after demo_release) 1 demo_call
    (Finished EndReleased) _ _)) (or_introl eq_refl)); vm_compute; reflexivity.
Defined.

(** The future of [acquire] has no guard: when it is dropped while it waits, its
    request stays, and the lease granted to it later is never given back. *)
Example dropped_wait_keeps_the_group :
  match run_events [Insert 1 demo_call; Send 100 1; DropFuture 101 1 false false; HandleGranted 1; Deliver] remote with
  | Some c => requests c !! 1%Z = Some (mkRequestState true false) ∧ about 1 (sent c) = [acquire_message 100 1 demo_call] ∧
              calls c !! 1%Z = Some (demo_call, Gone)
  | None => False
  end.
Proof. vm_compute. done. Qed.

(** A lease dropped when the queue of messages is full is not given back. *)
Example dropped_lease_keeps_the_group :
  match run_events (demo_lease ++ [DropFuture 101 1 false true]) remote with
  | Some c => about 1 (sent c) = [acquire_message 100 1 demo_call] ∧ calls c !! 1%Z = Some (demo_call, Gone)
  | None => False
  end.
Proof. vm_compute. done. Qed.
