(* ===== verification/RepositoryAccess.v ===== *)
(** * Access to repositories (crates/gitzero-agent, repository_access.rs)

    The client that asks the control plane for tokens and secrets: requests in a
    table until a decision arrives, the run is cancelled or the connection is
    lost.  Tokens and secrets are two tables with the same life, a transition
    system over what a decision carries. *)

From S2P Require Import Prelude RustStr OrdMap Protocol.

(** ** Tokens *)

Definition TOKEN_REFRESH_SAFETY_SECONDS : Z := 5 * 60.

Record ExpiringToken := mkToken {
  et_token : string;
  et_expires_at_epoch_seconds : Z;
}.

#[export] Instance ExpiringToken_eq_dec : EqDecision ExpiringToken.
Proof. solve_decision. Defined.

Definition is_usable (now : Z) (self : ExpiringToken) : bool :=
  bool_decide (saturating_add now TOKEN_REFRESH_SAFETY_SECONDS < et_expires_at_epoch_seconds self)%Z.

(** ** What is asked *)

Definition token_operation (purpose : RepositoryTokenPurpose) : string :=
  match purpose with
  | Source => "source repository access"
  | Environment => "environment metadata access"
  | SharedSource => "private shared repository access"
  | Checkout => "private checkout repository access"
  end.

Definition token_message (message_id run_id request_id : Uuid) (purpose : RepositoryTokenPurpose)
    (owner repository : string) : AgentMessage :=
  RepositoryTokenRequest message_id run_id request_id purpose owner repository.

Definition workflow_token_message (message_id run_id request_id : Uuid) (read_permissions write_permissions : gset string)
    : outcome string AgentMessage :=
  reject_if (bool_decide (read_permissions = ∅) && bool_decide (write_permissions = ∅))
    "workflow token request must contain at least one permission" ;?
  Ok (WorkflowTokenRequest message_id run_id request_id (set_iter read_permissions) (set_iter write_permissions)).

(** The match of [request] on a token. *)
Definition check_token (operation : string) (now : Z) (token : ExpiringToken) : outcome string ExpiringToken :=
  if is_empty (et_token token) then Err ("control plane returned an empty token for " +:+ operation)
  else if negb (is_usable now token)
  then Err ("control plane returned a token that expires too soon for " +:+ operation)
  else Ok token.

Definition token_undecided (operation : string) : string :=
  operation +:+ " request ended without a control plane decision".

(** [request_managed_secrets] does not look at what it gets. *)
Definition check_secrets (operation : string) (now : Z) (secrets : SecretMap) : outcome string SecretMap := Ok secrets.

Definition secrets_operation : string := "managed secrets".

Definition secrets_undecided (operation : string) : string :=
  "managed secret request ended without a control plane decision".

(** ** The table *)

Inductive RequestPhase (D : Type) :=
  | RqSending (message : AgentMessage)
  | RqSendFailed
  | RqWaiting
  | RqCancelling
  | RqUndecided
  | RqDone (result : outcome string D)
  | RqGone.
Arguments RqSending {D} message.
Arguments RqSendFailed {D}.
Arguments RqWaiting {D}.
Arguments RqCancelling {D}.
Arguments RqUndecided {D}.
Arguments RqDone {D} result.
Arguments RqGone {D}.

Record Request (D : Type) := mkRequest {
  rq_operation : string;
  rq_cancelled : bool;
  rq_phase : RequestPhase D;
}.
Arguments mkRequest {D} _ _ _.
Arguments rq_operation {D} _.
Arguments rq_cancelled {D} _.
Arguments rq_phase {D} _.

(** [dk_drained]: the requests [cancel_all] has taken out and has still to tell. *)
Record Desk (D : Type) := mkDesk {
  dk_table : gset Uuid;
  dk_channels : gmap Uuid (Oneshot (outcome string D));
  dk_requests : gmap Uuid (Request D);
  dk_drained : list Uuid;
  dk_sent : list AgentMessage;
  dk_connected : bool;
}.
Arguments mkDesk {D} _ _ _ _ _ _.
Arguments dk_table {D} _.
Arguments dk_channels {D} _.
Arguments dk_requests {D} _.
Arguments dk_drained {D} _.
Arguments dk_sent {D} _.
Arguments dk_connected {D} _.

#[export] Instance Desk_updatable D : Updatable (Desk D) := λ k,
  mkDesk (dk_table k) (dk_channels k) (dk_requests k) (dk_drained k) (dk_sent k) (dk_connected k).

Definition empty_desk {D : Type} : Desk D := mkDesk ∅ ∅ ∅ [] [] true.

Section desk.
Context {D : Type}.
Context (check : string → Z → D → outcome string D) (undecided : string → string).

Definition set_request (id : Uuid) (request : Request D) (phase : RequestPhase D) (k : Desk D) : Desk D :=
  k <| dk_requests := <[id := mkRequest (rq_operation request) (rq_cancelled request) phase]> (dk_requests k) |>.

(** [requests.remove(&request_id)], the sender dropped. *)
Definition forget (id : Uuid) (k : Desk D) : Desk D :=
  if bool_decide (id ∈ dk_table k)
  then k <| dk_table := dk_table k ∖ {[id]} |> <| dk_channels := alter drop_sender id (dk_channels k) |>
  else k.

Definition insert_step (id : Uuid) (operation : string) (message : AgentMessage) (k : Desk D) : option (Desk D) :=
  match dk_requests k !! id with
  | Some _ => None
  | None =>
      Some (k <| dk_table := {[id]} ∪ dk_table k |> <| dk_channels := <[id := Empty]> (dk_channels k) |>
              <| dk_requests := <[id := mkRequest operation false (RqSending message)]> (dk_requests k) |>)
  end.

Definition ask_step (id : Uuid) (k : Desk D) : option (Desk D) :=
  request ← dk_requests k !! id;
  match rq_phase request with
  | RqSending message =>
      Some (if dk_connected k then set_request id request RqWaiting (k <| dk_sent := dk_sent k ++ [message] |>)
            else set_request id request RqSendFailed k)
  | _ => None
  end.

Definition forget_step (id : Uuid) (k : Desk D) : option (Desk D) :=
  request ← dk_requests k !! id;
  let operation := rq_operation request in
  let failed error := Some (set_request id request (RqDone (Err error)) (forget id k)) in
  match rq_phase request with
  | RqSendFailed => failed ("control plane event channel closed while requesting " +:+ operation)
  | RqCancelling => failed ("run cancelled while requesting " +:+ operation)
  | RqUndecided => failed (undecided operation)
  | _ => None
  end.

Definition cancelled_step (id : Uuid) (k : Desk D) : option (Desk D) :=
  request ← dk_requests k !! id;
  match rq_phase request with
  | RqWaiting => if rq_cancelled request then Some (set_request id request RqCancelling k) else None
  | _ => None
  end.

(** At the time [now] of the clock. *)
Definition answer_step (id : Uuid) (now : Z) (k : Desk D) : option (Desk D) :=
  request ← dk_requests k !! id;
  match rq_phase request, dk_channels k !! id with
  | RqWaiting, Some (Sent decision) =>
      Some (set_request id request (RqDone (let? d := decision in check (rq_operation request) now d)) k)
  | RqWaiting, Some Dropped => Some (set_request id request RqUndecided k)
  | _, _ => None
  end.

Definition drop_request (id : Uuid) (k : Desk D) : option (Desk D) :=
  request ← dk_requests k !! id;
  match rq_phase request with
  | RqDone _ | RqGone => None
  | _ => Some (set_request id request RqGone k)
  end.

Definition cancel_request (id : Uuid) (k : Desk D) : option (Desk D) :=
  request ← dk_requests k !! id;
  Some (set_request id (mkRequest (rq_operation request) true (rq_phase request)) (rq_phase request) k).

(** [handle_granted], [handle_denied] and the same for secrets: removed and told
    under the lock. *)
Definition decide_request (id : Uuid) (decision : outcome string D) (k : Desk D) : Desk D :=
  if bool_decide (id ∈ dk_table k)
  then k <| dk_table := dk_table k ∖ {[id]} |> <| dk_channels := <[id := Sent decision]> (dk_channels k) |>
  else k.

Definition drain (k : Desk D) : Desk D := k <| dk_table := ∅ |> <| dk_drained := elements (dk_table k) |>.

Definition closed : outcome string D := Err "Control plane connection closed.".

Inductive DeskEvent :=
  | Begin (id : Uuid) (operation : string) (message : AgentMessage)
  | Ask (id : Uuid)
  | Forget (id : Uuid)
  | ObserveCancelled (id : Uuid)
  | Answer (id : Uuid) (now : Z)
  | DropRequest (id : Uuid)
  | CancelRequest (id : Uuid)
  | Decide (id : Uuid) (decision : outcome string D)
  | Drain
  | Tell
  | Hangup.

Definition desk_event (event : DeskEvent) (k : Desk D) : option (Desk D) :=
  match event with
  | Begin id operation message => insert_step id operation message k
  | Ask id => ask_step id k
  | Forget id => forget_step id k
  | ObserveCancelled id => cancelled_step id k
  | Answer id now => answer_step id now k
  | DropRequest id => drop_request id k
  | CancelRequest id => cancel_request id k
  | Decide id decision => if is_nil (dk_drained k) then Some (decide_request id decision k) else None
  | Drain => if is_nil (dk_drained k) then Some (drain k) else None
  | Tell =>
      match dk_drained k with
      | [] => None
      | id :: rest => Some (k <| dk_drained := rest |> <| dk_channels := <[id := Sent closed]> (dk_channels k) |>)
      end
  | Hangup => Some (k <| dk_connected := false |>)
  end.

Fixpoint desk_events (events : list DeskEvent) (k : Desk D) : option (Desk D) :=
  match events with
  | [] => Some k
  | event :: events => k ← desk_event event k; desk_events events k
  end.
End desk.

(** * What the repository access client keeps

    The invariant of a table of requests under every interleaving of the
    requesting tasks, the handlers and the loss of the connection, and what it
    says of tokens. *)

Section desk.
Context {D : Type}.
Context (check : string → Z → D → outcome string D) (undecided : string → string).
Notation run := (desk_events check undecided).
Notation step := (desk_event check undecided).
Implicit Types (k : Desk D) (h : list (DeskEvent (D:=D))).

(** ** The invariant *)

(** A decision that was sent came from the control plane or from [cancel_all]. *)
Definition decided h (id : Uuid) (decision : outcome string D) : Prop :=
  Decide id decision ∈ h ∨ decision = closed.

(** Where the decision on a request is while its task waits. *)
Inductive place h (id : Uuid) k : Prop :=
  | in_table : id ∈ dk_table k → dk_channels k !! id = Some Empty → id ∉ dk_drained k → place h id k
  | in_drained : id ∉ dk_table k → dk_channels k !! id = Some Empty → id ∈ dk_drained k → place h id k
  | in_channel decision :
      id ∉ dk_table k → dk_channels k !! id = Some (Sent decision) → id ∉ dk_drained k → decided h id decision →
      place h id k.

Definition request_standing h (id : Uuid) (request : Request D) k : Prop :=
  match rq_phase request with
  | RqSending _ | RqSendFailed | RqWaiting | RqCancelling => place h id k
  | RqUndecided => False
  | RqDone result =>
      id ∉ dk_table k ∧
      ∀ d, result = Ok d → ∃ given now, Decide id (Ok given) ∈ h ∧ Answer id now ∈ h ∧
        check (rq_operation request) now given = Ok d
  | RqGone => True
  end.

Definition request_ok h (id : Uuid) k : Prop :=
  match dk_requests k !! id with
  | None => id ∉ dk_table k ∧ id ∉ dk_drained k
  | Some request => request_standing h id request k
  end.

Definition desk_ok h k : Prop := NoDup (dk_drained k) ∧ ∀ id, request_ok h id k.

(** What concerns one request. *)
Definition same_request (id : Uuid) k k' : Prop :=
  (id ∈ dk_table k' ↔ id ∈ dk_table k) ∧ dk_channels k' !! id = dk_channels k !! id ∧
  dk_requests k' !! id = dk_requests k !! id ∧ (id ∈ dk_drained k' ↔ id ∈ dk_drained k).

Lemma place_same h h' id k k' :
  (∀ e, e ∈ h → e ∈ h') → (id ∈ dk_table k' ↔ id ∈ dk_table k) → dk_channels k' !! id = dk_channels k !! id →
  (id ∈ dk_drained k' ↔ id ∈ dk_drained k) → place h id k → place h' id k'.
Proof.
  intros Hh H1 H2 H3 [Ht Hc Hd|Ht Hc Hd|decision Ht Hc Hd Hdec].
  - apply in_table; [tauto|congruence|tauto].
  - apply in_drained; [tauto|congruence|tauto].
  - apply (in_channel _ _ _ decision); [tauto|congruence|tauto|]. destruct Hdec; [left; auto|by right].
Qed.

Lemma standing_same h h' id request request' k k' :
  (∀ e, e ∈ h → e ∈ h') → (id ∈ dk_table k' ↔ id ∈ dk_table k) → dk_channels k' !! id = dk_channels k !! id →
  (id ∈ dk_drained k' ↔ id ∈ dk_drained k) → rq_phase request' = rq_phase request → rq_operation request' = rq_operation request →
  request_standing h id request k → request_standing h' id request' k'.
Proof.
  intros Hh H1 H2 H3 Hp Ho. unfold request_standing. rewrite Hp, Ho.
  destruct (rq_phase request); try done; try by apply place_same.
  intros [Ht Hd]. split; [tauto|]. intros d Hr. destruct (Hd d Hr) as (given & now & ? & ? & ?). exists given, now. auto.
Qed.

Lemma request_ok_same h h' id k k' :
  (∀ e, e ∈ h → e ∈ h') → same_request id k k' → request_ok h id k → request_ok h' id k'.
Proof.
  intros Hh (H1 & H2 & H3 & H4). unfold request_ok. rewrite H3. destruct (dk_requests k !! id) as [request|].
  - by apply standing_same.
  - tauto.
Qed.

(** Which request an event is about. *)
Definition event_id (event : DeskEvent (D:=D)) k : option Uuid :=
  match event with
  | Begin id _ _ | Ask id | Forget id | ObserveCancelled id | Answer id _ | DropRequest id | CancelRequest id
  | Decide id _ => Some id
  | Tell => head (dk_drained k)
  | Drain | Hangup => None
  end.

Lemma set_request_same id i request phase k : id ≠ i → same_request id k (set_request i request phase k).
Proof. intros Hne. unfold same_request. simpl. by rewrite lookup_insert_ne by congruence. Qed.

Lemma forget_same id i k : id ≠ i → same_request id k (forget i k).
Proof.
  intros Hne. unfold forget. case_bool_decide; [|done]. unfold same_request. simpl.
  rewrite lookup_alter_ne by congruence. set_solver.
Qed.

Lemma same_trans id k1 k2 k3 : same_request id k1 k2 → same_request id k2 k3 → same_request id k1 k3.
Proof. unfold same_request. intros (? & ? & ? & ?) (? & ? & ? & ?). split_and!; try congruence; tauto. Qed.

Lemma desk_event_same event k k' id :
  step event k = Some k' → event ≠ Drain → event_id event k ≠ Some id → same_request id k k'.
Proof.
  intros Hrun Hdrain Hid.
  destruct event as [i op m|i|i|i|i now|i|i|i decision| | |]; simpl in Hrun, Hid; try done;
    try (assert (id ≠ i) as Hne by congruence).
  - unfold insert_step in Hrun. destruct (dk_requests k !! i); [done|]. injection Hrun as <-. unfold same_request. simpl.
    rewrite !lookup_insert_ne by congruence. set_solver.
  - unfold ask_step in Hrun. destruct (dk_requests k !! i) as [r|]; [|done]. simpl in Hrun.
    destruct (rq_phase r); try done.
    destruct (dk_connected k); injection Hrun as <-; unfold same_request; simpl; by rewrite lookup_insert_ne by congruence.
  - unfold forget_step in Hrun. destruct (dk_requests k !! i) as [r|]; [|done]. simpl in Hrun.
    destruct (rq_phase r); try done; injection Hrun as <-;
      (eapply same_trans; [by apply (forget_same id i)|by apply set_request_same]).
  - unfold cancelled_step in Hrun. destruct (dk_requests k !! i) as [r|]; [|done]. simpl in Hrun.
    destruct (rq_phase r); try done. destruct (rq_cancelled r); [|done]. injection Hrun as <-. by apply set_request_same.
  - unfold answer_step in Hrun. destruct (dk_requests k !! i) as [r|]; [|done]. simpl in Hrun.
    destruct (rq_phase r); try done. destruct (dk_channels k !! i) as [[| |]|]; try done; injection Hrun as <-;
      by apply set_request_same.
  - unfold drop_request in Hrun. destruct (dk_requests k !! i) as [r|]; [|done]. simpl in Hrun.
    destruct (rq_phase r); try done; injection Hrun as <-; by apply set_request_same.
  - unfold cancel_request in Hrun. destruct (dk_requests k !! i) as [r|]; [|done]. injection Hrun as <-.
    by apply (set_request_same id i (mkRequest (rq_operation r) true (rq_phase r))).
  - destruct (is_nil _); [|done]. injection Hrun as <-. unfold decide_request. case_bool_decide; [|done].
    unfold same_request. simpl. rewrite lookup_insert_ne by congruence. set_solver.
  - destruct (dk_drained k) as [|d rest] eqn:Hd; [done|]. injection Hrun as <-. simpl in Hid. unfold same_request. simpl.
    rewrite lookup_insert_ne by congruence. rewrite Hd. set_solver.
  - by injection Hrun as <-.
Qed.

(** ** Every event keeps the invariant *)

Section step.
Context h (id : Uuid) k k'.
Hypothesis Hok : request_ok h id k.

Lemma set_request_ok request phase :
  dk_requests k !! id = Some request →
  (request_standing h id request k → request_standing h id (mkRequest (rq_operation request) (rq_cancelled request) phase) k) →
  request_ok h id (set_request id request phase k).
Proof.
  intros Hr Hstep. unfold request_ok. simpl. rewrite lookup_insert_eq. pose proof Hok as Hs. unfold request_ok in Hs.
  rewrite Hr in Hs. by eapply (standing_same h h); [..|apply Hstep].
Qed.

Lemma forgotten_ok request error :
  dk_requests k !! id = Some request → request_ok h id (set_request id request (RqDone (Err error)) (forget id k)).
Proof.
  intros Hr. unfold request_ok. simpl. rewrite lookup_insert_eq. split; [|done]. simpl.
  unfold forget. case_bool_decide; simpl; set_solver.
Qed.

Lemma desk_insert_ok op m : insert_step id op m k = Some k' → request_ok h id k'.
Proof.
  unfold insert_step. destruct (dk_requests k !! id) eqn:Hr; [done|]. intros [= <-].
  pose proof Hok as Hs. unfold request_ok in Hs. rewrite Hr in Hs. destruct Hs as [_ Hd].
  unfold request_ok. simpl. rewrite lookup_insert_eq. apply in_table; simpl; [set_solver|by rewrite lookup_insert_eq|done].
Qed.

Lemma ask_ok : ask_step id k = Some k' → request_ok h id k'.
Proof.
  unfold ask_step. destruct (dk_requests k !! id) as [r|] eqn:Hr; [|done]. simpl.
  pose proof Hok as Hs. unfold request_ok in Hs. rewrite Hr in Hs.
  destruct (rq_phase r) eqn:Hp; try done. unfold request_standing in Hs. rewrite Hp in Hs.
  destruct (dk_connected k); intros [= <-]; unfold request_ok; simpl; rewrite lookup_insert_eq; by apply (place_same h h id k).
Qed.

Lemma forget_ok : forget_step undecided id k = Some k' → request_ok h id k'.
Proof.
  unfold forget_step. destruct (dk_requests k !! id) as [r|] eqn:Hr; [|done]. simpl.
  destruct (rq_phase r); try done; intros [= <-]; by apply forgotten_ok.
Qed.

Lemma desk_cancelled_ok : cancelled_step id k = Some k' → request_ok h id k'.
Proof.
  unfold cancelled_step. destruct (dk_requests k !! id) as [r|] eqn:Hr; [|done]. simpl.
  destruct (rq_phase r) eqn:Hp; try done. destruct (rq_cancelled r); [|done]. intros [= <-]. apply set_request_ok; [done|].
  unfold request_standing. by rewrite Hp.
Qed.

Lemma answer_ok now : answer_step check id now k = Some k' → request_ok (h ++ [Answer id now]) id k'.
Proof.
  unfold answer_step. destruct (dk_requests k !! id) as [r|] eqn:Hr; [|done]. simpl.
  pose proof Hok as Hs. unfold request_ok in Hs. rewrite Hr in Hs.
  destruct (rq_phase r) eqn:Hp; try done. unfold request_standing in Hs. rewrite Hp in Hs.
  destruct (dk_channels k !! id) as [[|decision|]|] eqn:Hc; try done; intros [= <-];
    unfold request_ok; simpl; rewrite lookup_insert_eq; destruct Hs as [Ht Hch Hd|Ht Hch Hd|dec Ht Hch Hd Hdec]; try congruence.
  assert (dec = decision) as -> by congruence. split; [done|]. intros d Hr'.
  destruct decision as [given|e|]; simpl in Hr'; [|done..]. destruct Hdec as [Hdec|Hdec]; [|done].
  exists given, now. split_and!; [set_solver..|done].
Qed.

Lemma desk_drop_ok : drop_request id k = Some k' → request_ok h id k'.
Proof.
  unfold drop_request. destruct (dk_requests k !! id) as [r|] eqn:Hr; [|done]. simpl.
  destruct (rq_phase r); try done; intros [= <-]; unfold request_ok; simpl; by rewrite lookup_insert_eq.
Qed.

Lemma cancel_ok : cancel_request id k = Some k' → request_ok h id k'.
Proof.
  unfold cancel_request. destruct (dk_requests k !! id) as [r|] eqn:Hr; [|done]. intros [= <-].
  pose proof Hok as Hs. unfold request_ok in *. rewrite Hr in Hs. simpl. rewrite lookup_insert_eq. by apply (standing_same h h id r _ k).
Qed.

Lemma decide_ok decision : dk_drained k = [] → request_ok (h ++ [Decide id decision]) id (decide_request id decision k).
Proof.
  intros Hd. assert (∀ e, e ∈ h → e ∈ h ++ [Decide id decision]) as Hh by set_solver.
  unfold decide_request. case_bool_decide as Hin; [|by apply (request_ok_same h _ id k)].
  pose proof Hok as Hs. unfold request_ok in *. simpl. destruct (dk_requests k !! id) as [r|]; [|by destruct Hs].
  unfold request_standing in *.
  assert (place (h ++ [Decide id decision]) id
    (k <| dk_table := dk_table k ∖ {[id]} |> <| dk_channels := <[id := Sent decision]> (dk_channels k) |>)) as Hplace.
  { apply (in_channel _ _ _ decision); simpl; [set_solver|by rewrite lookup_insert_eq|rewrite Hd; set_solver|left; set_solver]. }
  destruct (rq_phase r); try done. destruct Hs. done.
Qed.
End step.

Lemma place_mono h h' id k : (∀ e, e ∈ h → e ∈ h') → place h id k → place h' id k.
Proof. intros Hh. by apply place_same. Qed.

Lemma drain_ok h id k : dk_drained k = [] → request_ok h id k → request_ok h id (drain k).
Proof.
  intros Hd. unfold request_ok, drain. simpl. destruct (dk_requests k !! id) as [r|].
  2: { intros [Ht _]. rewrite elem_of_elements. set_solver. }
  unfold request_standing. destruct (rq_phase r); try done; try (intros [Ht ?]; split; [set_solver|done]).
  all: intros [Ht Hc Hdr|Ht Hc Hdr|dec Ht Hc Hdr Hdec]; [|by rewrite Hd in Hdr; apply not_elem_of_nil in Hdr|].
  all: try (apply in_drained; simpl; [set_solver|done|by apply elem_of_elements]).
  all: apply (in_channel _ _ _ dec); simpl; [set_solver|done|by rewrite elem_of_elements|done].
Qed.

Lemma tell_ok h id k rest :
  dk_drained k = id :: rest → NoDup (dk_drained k) → request_ok h id k →
  request_ok h id (k <| dk_drained := rest |> <| dk_channels := <[id := Sent closed]> (dk_channels k) |>).
Proof.
  intros Hd Hnd. assert (id ∉ rest) as Hnot by (rewrite Hd in Hnd; by apply NoDup_cons_1_1 in Hnd).
  unfold request_ok. simpl. destruct (dk_requests k !! id) as [r|].
  2: { intros [Ht Hno]. rewrite Hd in Hno. set_solver. }
  unfold request_standing. destruct (rq_phase r); try done.
  all: intros [Ht Hc Hdr|Ht Hc Hdr|dec Ht Hc Hdr Hdec]; try (rewrite Hd in Hdr; set_solver).
  all: apply (in_channel _ _ _ closed); simpl; [done|by rewrite lookup_insert_eq|done|by right].
Qed.

Lemma desk_drained_event event k k' :
  step event k = Some k' → NoDup (dk_drained k) → NoDup (dk_drained k').
Proof.
  intros Hrun Hnd. destruct event as [i op m|i|i|i|i now|i|i|i decision| | |]; simpl in Hrun.
  - unfold insert_step in Hrun. destruct (dk_requests k !! i); [done|]. by injection Hrun as <-.
  - unfold ask_step in Hrun. destruct (dk_requests k !! i) as [r|]; [|done]. simpl in Hrun.
    destruct (rq_phase r); try done. by destruct (dk_connected k); injection Hrun as <-.
  - unfold forget_step, forget in Hrun. destruct (dk_requests k !! i) as [r|]; [|done]. simpl in Hrun.
    destruct (rq_phase r); try done; injection Hrun as <-; by case_bool_decide.
  - unfold cancelled_step in Hrun. destruct (dk_requests k !! i) as [r|]; [|done]. simpl in Hrun.
    destruct (rq_phase r); try done. destruct (rq_cancelled r); [|done]. by injection Hrun as <-.
  - unfold answer_step in Hrun. destruct (dk_requests k !! i) as [r|]; [|done]. simpl in Hrun.
    destruct (rq_phase r); try done. by destruct (dk_channels k !! i) as [[| |]|]; try done; injection Hrun as <-.
  - unfold drop_request in Hrun. destruct (dk_requests k !! i) as [r|]; [|done]. simpl in Hrun.
    by destruct (rq_phase r); try done; injection Hrun as <-.
  - unfold cancel_request in Hrun. destruct (dk_requests k !! i); [|done]. by injection Hrun as <-.
  - destruct (is_nil _); [|done]. injection Hrun as <-. unfold decide_request. by case_bool_decide.
  - destruct (is_nil _); [|done]. injection Hrun as <-. simpl. apply NoDup_elements.
  - destruct (dk_drained k) as [|d rest] eqn:Hd; [done|]. injection Hrun as <-. simpl. by apply NoDup_cons_1_2 in Hnd.
  - by injection Hrun as <-.
Qed.

Lemma desk_ok_event h k k' event : desk_ok h k → step event k = Some k' → desk_ok (h ++ [event]) k'.
Proof.
  intros [Hnd Hok] Hrun. split; [by eapply desk_drained_event|]. intros id.
  assert (∀ e, e ∈ h → e ∈ h ++ [event]) as Hh by set_solver.
  assert (∀ k0, request_ok h id k0 → request_ok (h ++ [event]) id k0) as Hmono.
  { intros k0. by apply request_ok_same. }
  specialize (Hok id). destruct (decide (event_id event k = Some id)) as [Hid|Hid].
  2: { assert (event = Drain ∨ event ≠ Drain) as [-> | Hne] by (destruct event; auto).
    - simpl in Hrun. destruct (dk_drained k) eqn:Hd; [|done]. injection Hrun as <-. by apply Hmono, drain_ok.
    - apply (request_ok_same h _ id k); [done|by apply (desk_event_same event)|done]. }
  destruct event as [i op m|i|i|i|i now|i|i|i decision| | |]; simpl in Hrun, Hid; try done; try injection Hid as ->.
  - by eapply Hmono, desk_insert_ok.
  - by eapply Hmono, ask_ok.
  - by eapply Hmono, forget_ok.
  - by eapply Hmono, desk_cancelled_ok.
  - by eapply answer_ok.
  - by eapply Hmono, desk_drop_ok.
  - by eapply Hmono, cancel_ok.
  - destruct (dk_drained k) eqn:Hd; [|done]. injection Hrun as <-. by apply decide_ok.
  - destruct (dk_drained k) as [|d rest] eqn:Hd; [done|]. injection Hrun as <-. simpl in Hid. injection Hid as ->.
    apply Hmono, tell_ok; [done|by rewrite Hd|done].
Qed.

Lemma desk_events_app es es' k k' : run (es ++ es') k = Some k' ↔ ∃ mid, run es k = Some mid ∧ run es' mid = Some k'.
Proof.
  revert k; induction es as [|e es IH]; intros k; simpl.
  - split; [by exists k|by intros (? & [= <-] & ?)].
  - destruct (step e k) as [k1|]; simpl; [apply IH|]. split; [done|by intros (? & ? & _)].
Qed.

Lemma desk_reachable es k : run es empty_desk = Some k → desk_ok es k.
Proof.
  revert k; induction es as [|e es IH] using rev_ind; intros k.
  - intros [= <-]. split; [constructor|]. intros id. split; simpl; set_solver.
  - intros (mid & Hmid & Hrun)%desk_events_app. simpl in Hrun.
    destruct (step e mid) as [k1|] eqn:He; [|done]. injection Hrun as <-. apply (desk_ok_event _ mid); [by apply IH|done].
Qed.

(** a request for a token or for secrets is always decided: it never ends
    without a decision; when it is in no table and on no list its task can go
    on; one that has ended is in the table no more; and what it returns is what
    the control plane sent for this very request, as the check let it pass. *)
Theorem every_access_request_is_decided es k id request :
  run es empty_desk = Some k → dk_requests k !! id = Some request →
  rq_phase request ≠ RqUndecided ∧
  (rq_phase request = RqWaiting → id ∉ dk_table k → dk_drained k = [] → ∃ now, is_Some (answer_step check id now k)) ∧
  (∀ result, rq_phase request = RqDone result → id ∉ dk_table k) ∧
  (∀ d, rq_phase request = RqDone (Ok d) → ∃ given now, Decide id (Ok given) ∈ es ∧ Answer id now ∈ es ∧
    check (rq_operation request) now given = Ok d).
Proof.
  intros Hrun Hr. destruct (desk_reachable _ _ Hrun) as [_ Hok]. specialize (Hok id). unfold request_ok in Hok.
  rewrite Hr in Hok. unfold request_standing in Hok. split_and!.
  - intros Hp. by rewrite Hp in Hok.
  - intros Hp Ht Hd. rewrite Hp in Hok. exists 0%Z. unfold answer_step. rewrite Hr. simpl. rewrite Hp.
    destruct Hok as [? ?|? ? Hin|dec ? Hc]; [done|by rewrite Hd in Hin; apply not_elem_of_nil in Hin|]. rewrite Hc. eauto.
  - intros result Hp. rewrite Hp in Hok. by destruct Hok.
  - intros d Hp. rewrite Hp in Hok. by destruct Hok as [_ ?]; auto.
Qed.
End desk.

(** ** A request for a token *)

Definition demo_access_events : list (DeskEvent (D:=ExpiringToken)) :=
  [Begin 1 "source repository access" (token_message 10 7 1 Source "acme" "tools"); Ask 1;
   Begin 2 "private checkout repository access" (token_message 11 7 2 Checkout "acme" "other"); Ask 2;
   Decide 1 (Ok (mkToken "ghs" 9000)); Answer 1 900; Drain; Tell].

Definition demo_access : Desk ExpiringToken :=
  default empty_desk (desk_events check_token token_undecided demo_access_events empty_desk).

Lemma every_access_request_is_decided_witness :
  (∃ given now, Decide 1 (Ok given) ∈ demo_access_events ∧ Answer 1 now ∈ demo_access_events ∧
    check_token "source repository access" now given = Ok (mkToken "ghs" 9000)) ∧
  ∃ now, is_Some (answer_step check_token 2 now demo_access).
Proof.
  assert (desk_events check_token token_undecided demo_access_events empty_desk = Some demo_access) as Hrun
    by (vm_compute; reflexivity).
  assert (dk_requests demo_access !! 1%Z =
    Some (mkRequest "source repository access" false (RqDone (Ok (mkToken "ghs" 9000))))) as H1 by (vm_compute; reflexivity).
  assert (dk_requests demo_access !! 2%Z =
    Some (mkRequest "private checkout repository access" false RqWaiting)) as H2 by (vm_compute; reflexivity).
  split.
  - destruct (every_access_request_is_decided check_token token_undecided _ _ _ _ Hrun H1) as (_ & _ & _ & H).
    exact (H _ eq_refl).
  - destruct (every_access_request_is_decided check_token token_undecided _ _ _ _ Hrun H2) as (_ & H & _ & _).
    apply H; [reflexivity| |vm_compute; reflexivity]. apply (bool_decide_unpack _). vm_compute. exact I.
Defined.
