(* ===== verification/TokenCache.v ===== *)
(** * The tokens of a run (crates/gitzero-agent, executor.rs)

    [RunRepositoryAccess]: the tokens a run holds, by repository and by set of
    permissions, until they expire.  Every token from the control plane is
    registered as a mask before it is handed out.  The answers of the client of
    [RepositoryAccess] are arguments; a lock is held while an answer is awaited,
    so each method is one step. *)

From S2P Require Import Prelude RustStr OrdMap Instances Workflow Permissions Masking Protocol ProblemMatcher.
From S2P Require Import MatcherRegistry WorkflowCommands WorkflowCommandsProps RepositoryAccess.

Definition MAX_REPOSITORY_TOKENS_PER_RUN : nat := 256.
Definition MAX_WORKFLOW_TOKEN_SCOPES_PER_RUN : nat := 256.
Definition MAX_MANAGED_SECRETS_PER_JOB : nat := 300.
Definition MAX_MANAGED_SECRET_BYTES : Z := 48 * 1024.

#[export] Instance RepositoryTokenPurpose_countable : Countable RepositoryTokenPurpose.
Proof.
  refine (inj_countable' (λ p, match p with Source => 0 | Environment => 1 | SharedSource => 2 | Checkout => 3 end)
    (λ n, match n with 0 => Source | 1 => Environment | 2 => SharedSource | _ => Checkout end) _). by intros [].
Defined.

(** [BTreeMap<PlannedPermissions, _>] *)
Notation permissions_key p := (p_read p, p_write p).

#[export] Instance PlannedPermissions_eq_dec : EqDecision PlannedPermissions.
Proof. solve_decision. Defined.

Definition repository_access_key (owner repository : string) : string :=
  to_ascii_lowercase (owner +:+ "/" +:+ repository).

Section access.
Context `{CL : CaptureLib}.
(** [STANDARD.encode] *)
Context (base64 : string → string).

Record RunRepositoryAccess := mkAccess {
  ra_tokens : gmap (RepositoryTokenPurpose * string) ExpiringToken;
  ra_workflow_tokens : gmap (gset string * gset string) ExpiringToken;
  ra_commands : WorkflowCommandProcessor;
}.

#[export] Instance RunRepositoryAccess_updatable : Updatable RunRepositoryAccess := λ s,
  mkAccess (ra_tokens s) (ra_workflow_tokens s) (ra_commands s).

Definition new_access (commands : WorkflowCommandProcessor) : RunRepositoryAccess := mkAccess ∅ ∅ commands.

(** The state after, and the result. *)
Notation access A := (RunRepositoryAccess * outcome string A)%type.

Definition cached_token (now : Z) (purpose : RepositoryTokenPurpose) (owner repository : string)
    (s : RunRepositoryAccess) : RunRepositoryAccess * option string :=
  let key := (purpose, repository_access_key owner repository) in
  match ra_tokens s !! key with
  | Some token =>
      if is_usable now token then (s, Some (et_token token))
      else (s <| ra_tokens := delete key (ra_tokens s) |>, None)
  | None => (s, None)
  end.

(** [register_repository_token_masks], then [tokens.insert(key, token)]. *)
Definition keep_token (key : RepositoryTokenPurpose * string) (token : ExpiringToken) (s : RunRepositoryAccess)
    : RunRepositoryAccess :=
  s <| ra_tokens := <[key := token]> (ra_tokens s) |>
    <| ra_commands := register_repository_token_masks base64 (et_token token) (ra_commands s) |>.

(** The request of [request_token], when no usable token is held. *)
Definition ask_token (key : RepositoryTokenPurpose * string) (answer : outcome string ExpiringToken)
    (s : RunRepositoryAccess) : access string :=
  if bool_decide (MAX_REPOSITORY_TOKENS_PER_RUN ≤ size (ra_tokens s))
  then (s, Err "workflow requests more than 256 private repository tokens")
  else match answer with
       | Ok token => (keep_token key token s, Ok (et_token token))
       | Err error => (s, Err error)
       | Panic => (s, Panic)
       end.

Definition request_token (now : Z) (purpose : RepositoryTokenPurpose) (owner repository : string) (refresh : bool)
    (answer : outcome string ExpiringToken) (s : RunRepositoryAccess) : access string :=
  let key := (purpose, repository_access_key owner repository) in
  match ra_tokens s !! key with
  | Some token =>
      if negb refresh && is_usable now token then (s, Ok (et_token token))
      else ask_token key answer (s <| ra_tokens := delete key (ra_tokens s) |>)
  | None => ask_token key answer s
  end.

(** The token the run came with, while it lasts. *)
Definition initial_token {J : Type} (now : Z) (run : RunSpec J) : option string :=
  if is_empty (run_checkout_token run) then None
  else
    let initial := mkToken (run_checkout_token run) (default 0%Z (run_checkout_token_expires_at_epoch_seconds run)) in
    if is_usable now initial then Some (et_token initial) else None.

Definition some_token (c : access string) : access (option string) := (c.1, omap_ok Some c.2).

(** Without an installation there is nobody to ask. *)
Definition ask_source {J : Type} (now : Z) (run : RunSpec J) (refresh : bool) (answer : outcome string ExpiringToken)
    (s : RunRepositoryAccess) : access (option string) :=
  if bool_decide (run_installation_id run = 0%Z) then (s, Ok None)
  else some_token (request_token now Source (rs_owner (run_repository run)) (rs_name (run_repository run)) refresh answer s).

Definition source_token {J : Type} (now : Z) (run : RunSpec J) (refresh : bool) (answer : outcome string ExpiringToken)
    (s : RunRepositoryAccess) : access (option string) :=
  if refresh then ask_source now run refresh answer s
  else
    match cached_token now Source (rs_owner (run_repository run)) (rs_name (run_repository run)) s with
    | (s, Some token) => (s, Ok (Some token))
    | (s, None) =>
        match initial_token now run with
        | Some token => (s, Ok (Some token))
        | None => ask_source now run refresh answer s
        end
    end.

Definition ask_scoped (key : gset string * gset string) (answer : outcome string ExpiringToken)
    (s : RunRepositoryAccess) : access string :=
  if bool_decide (MAX_WORKFLOW_TOKEN_SCOPES_PER_RUN ≤ size (ra_workflow_tokens s))
  then (s, Err "workflow uses more than 256 distinct token permission sets")
  else match answer with
       | Ok token =>
           (s <| ra_workflow_tokens := <[key := token]> (ra_workflow_tokens s) |>
              <| ra_commands := register_repository_token_masks base64 (et_token token) (ra_commands s) |>,
            Ok (et_token token))
       | Err error => (s, Err error)
       | Panic => (s, Panic)
       end.

(** The part of [workflow_token] after the source token was no answer. *)
Definition scoped_token (now : Z) (permissions : PlannedPermissions) (answer : outcome string ExpiringToken)
    (s : RunRepositoryAccess) : access string :=
  let key := permissions_key permissions in
  match ra_workflow_tokens s !! key with
  | Some token =>
      if is_usable now token then (s, Ok (et_token token))
      else ask_scoped key answer (s <| ra_workflow_tokens := delete key (ra_workflow_tokens s) |>)
  | None => ask_scoped key answer s
  end.

Definition installation_token {J : Type} (now : Z) (run : RunSpec J) (permissions : PlannedPermissions)
    (answer : outcome string ExpiringToken) (s : RunRepositoryAccess) : access (option string) :=
  if bool_decide (run_installation_id run = 0%Z) then (s, Ok None)
  else some_token (scoped_token now permissions answer s).

Definition workflow_token {J : Type} (now : Z) (run : RunSpec J) (permissions : PlannedPermissions)
    (source_answer answer : outcome string ExpiringToken) (s : RunRepositoryAccess) : access (option string) :=
  if bool_decide (p_read permissions = ∅) && bool_decide (p_write permissions = ∅) then (s, Ok None)
  else if bool_decide (permissions = permissions_default)
  then match source_token now run false source_answer s with
       | (s, Ok (Some token)) => (s, Ok (Some token))
       | (s, Ok None) => installation_token now run permissions answer s
       | (s, Err error) => (s, Err error)
       | (s, Panic) => (s, Panic)
       end
  else installation_token now run permissions answer s.

Definition managed_secrets {J : Type} (run : RunSpec J) (answer : outcome string SecretMap) (s : RunRepositoryAccess)
    : access SecretMap :=
  if negb (run_managed_secrets run) then (s, Ok ∅)
  else match answer with
       | Ok secrets =>
           if bool_decide (MAX_MANAGED_SECRETS_PER_JOB < size secrets)
           then (s, Err "control plane returned more than 300 managed secrets")
           else if existsb (λ entry, negb (valid_managed_secret_name entry.1) ||
                     bool_decide (MAX_MANAGED_SECRET_BYTES < Z.of_nat (slen entry.2))%Z) (btree_iter secrets)
           then (s, Err "control plane returned an invalid managed secret")
           else (s <| ra_commands := register_managed_secret_masks secrets (ra_commands s) |>, Ok secrets)
       | Err error => (s, Err error)
       | Panic => (s, Panic)
       end.

Definition clear_tokens (s : RunRepositoryAccess) : RunRepositoryAccess :=
  s <| ra_tokens := ∅ |> <| ra_workflow_tokens := ∅ |>.
End access.

(** * What the tokens of a run keep

    The invariant of [RunRepositoryAccess]: what is held is masked.  With the
    relay's guarantee it says that no token or secret a run obtains leaves the
    agent. *)

Section props.
Context `{CL : CaptureLib} `{MF : MatcherFiles}.
Context (base64 : string → string).
Implicit Types (s : RunRepositoryAccess) (p : WorkflowCommandProcessor).

(** ** Registered masks *)

(** A mask every job is under. *)
Definition in_force p (m : string) : Prop := processor_ok p ∧ ∀ scope, m ∈ global_masks p ++ scope_masks p scope.

Definition extends p p' : Prop := processor_ok p' ∧ ∀ m, in_force p m → in_force p' m.

Lemma in_force_kept p m : in_force p m ↔ ∀ scope, kept [(scope, m)] p.
Proof.
  split.
  - intros [Hp Hm] scope. split_and!; [done| |done]. by intros s0 m0 [= -> ->]%list_elem_of_singleton.
  - intros Hk. split; [apply (Hk "")|]. intros scope. apply (Hk scope), list_elem_of_here.
Qed.

Lemma register_global_extends value p : processor_ok p → extends p (register_global_mask value p).
Proof.
  intros Hp. split; [by apply processor_ok_kept, register_global_kept, processor_ok_kept|].
  intros m. rewrite !in_force_kept. intros Hk scope. by apply register_global_kept.
Qed.

Lemma extends_trans p1 p2 p3 : extends p1 p2 → extends p2 p3 → extends p1 p3.
Proof. intros [_ H1] [? H2]. split; auto. Qed.

Lemma register_global_mask_in value p : processor_ok p → value ≠ "" → in_force (register_global_mask value p) value.
Proof.
  intros Hp Hne. split; [by apply register_global_extends|]. intros scope. rewrite elem_of_app. left.
  unfold register_global_mask. destruct (is_empty value) eqn:He; [by destruct value|].
  simpl. case_bool_decide; [done|]. simpl. rewrite merge_sort_Permutation, elem_of_app, list_elem_of_singleton. auto.
Qed.

Lemma register_tokens_spec token p :
  processor_ok p → extends p (register_repository_token_masks base64 token p) ∧
  (token ≠ "" → in_force (register_repository_token_masks base64 token p) token).
Proof.
  intros Hp. unfold register_repository_token_masks. set (p1 := register_global_mask _ p).
  assert (extends p p1) as H1 by by apply register_global_extends.
  set (p2 := register_global_mask _ p1). assert (extends p1 p2) as H2 by (apply register_global_extends, H1).
  split; [|apply register_global_mask_in, H2].
  eapply extends_trans, extends_trans; [exact H1|exact H2|]. apply register_global_extends, H2.
Qed.

Lemma register_secrets_spec secrets p :
  processor_ok p → extends p (register_managed_secret_masks secrets p) ∧
  ∀ name value, secrets !! name = Some value → value ≠ "" → in_force (register_managed_secret_masks secrets p) value.
Proof.
  intros Hp. unfold register_managed_secret_masks.
  assert (∀ values p0, processor_ok p0 →
    extends p0 (foldl (λ p value, register_global_mask value p) p0 values) ∧
    ∀ value, value ∈ values → value ≠ "" → in_force (foldl (λ p value, register_global_mask value p) p0 values) value)
    as Hfold.
  { induction values as [|v values IH]; intros p0 Hp0; simpl; [by split; [|intros ? ?%not_elem_of_nil]|].
    pose proof (register_global_extends v p0 Hp0) as Hv. destruct (IH (register_global_mask v p0)) as [He Hin]; [apply Hv|].
    split; [by eapply extends_trans|].
    intros value [-> | Hvs]%elem_of_cons Hne; [by apply He, register_global_mask_in|by apply Hin]. }
  destruct (Hfold (base.filter (λ value, is_empty value = false) (btree_values secrets)) p Hp) as [He Hin].
  split; [done|]. intros name value Hv Hne. apply Hin; [|done]. apply list_elem_of_filter.
  split; [by destruct value|]. apply elem_of_btree_values. by exists name.
Qed.

(** ** The invariant *)

Definition masked p (token : ExpiringToken) : Prop := et_token token ≠ "" ∧ in_force p (et_token token).

Record access_ok s : Prop := {
  ao_commands : processor_ok (ra_commands s);
  ao_tokens key token : ra_tokens s !! key = Some token → masked (ra_commands s) token;
  ao_workflow key token : ra_workflow_tokens s !! key = Some token → masked (ra_commands s) token;
  ao_size : size (ra_tokens s) ≤ MAX_REPOSITORY_TOKENS_PER_RUN;
  ao_workflow_size : size (ra_workflow_tokens s) ≤ MAX_WORKFLOW_TOKEN_SCOPES_PER_RUN;
}.

(** What the client of [RepositoryAccess] answers with. *)
Definition from_client (answer : outcome string ExpiringToken) : Prop :=
  answer ≠ Panic ∧ ∀ token, answer = Ok token → ∃ operation now, check_token operation now token = Ok token.

Lemma checked_token_not_empty answer token : from_client answer → answer = Ok token → et_token token ≠ "".
Proof.
  intros [_ Ha] Ht. destruct (Ha token Ht) as (operation & now & Hc). unfold check_token in Hc.
  by destruct token as [[] ?].
Qed.

(** What a method hands out: a token that is masked from now on. *)
Definition hands_out s (result : outcome string string) : Prop :=
  result ≠ Panic ∧ ∀ token, result = Ok token → token ≠ "" ∧ in_force (ra_commands s) token.

(** A method keeps the invariant and every mask. *)
Definition advances p s' : Prop := access_ok s' ∧ extends p (ra_commands s').

Lemma advances_refl s : access_ok s → advances (ra_commands s) s.
Proof. intros Hs. split; [done|]. split; [apply Hs|done]. Qed.

Lemma advances_trans p s1 s2 : advances p s1 → advances (ra_commands s1) s2 → advances p s2.
Proof. intros [_ H1] [? H2]. split; [done|]. by eapply extends_trans. Qed.

Lemma extends_masked p p' token : extends p p' → masked p token → masked p' token.
Proof. intros [_ He] [? ?]. split; auto. Qed.

Lemma commands_ok s p : access_ok s → extends (ra_commands s) p → access_ok (s <| ra_commands := p |>).
Proof.
  intros [H1 H2 H3 H4 H5] He. split; simpl; try done.
  - by destruct He.
  - intros key token Ht. by eapply extends_masked, H2.
  - intros key token Ht. by eapply extends_masked, H3.
Qed.

Lemma size_delete_le `{Countable K} {A} (m : gmap K A) key : size (delete key m) ≤ size m.
Proof. rewrite map_size_delete. unfold id. destruct (m !! key); simpl; lia. Qed.

Lemma size_insert_le `{Countable K} {A} (m : gmap K A) key (a : A) maximum : size m < maximum → size (<[key := a]> m) ≤ maximum.
Proof. intros Hm. rewrite map_size_insert. unfold id. destruct (m !! key); simpl; lia. Qed.

Lemma delete_token_ok s key : access_ok s → access_ok (s <| ra_tokens := delete key (ra_tokens s) |>).
Proof.
  intros [H1 H2 H3 H4 H5]. split; simpl; try done.
  - intros k token [_ Ht]%lookup_delete_Some. by eapply H2.
  - pose proof (size_delete_le (ra_tokens s) key). lia.
Qed.

Lemma delete_workflow_ok s key : access_ok s → access_ok (s <| ra_workflow_tokens := delete key (ra_workflow_tokens s) |>).
Proof.
  intros [H1 H2 H3 H4 H5]. split; simpl; try done.
  - intros k token [_ Ht]%lookup_delete_Some. by eapply H3.
  - pose proof (size_delete_le (ra_workflow_tokens s) key). lia.
Qed.

Lemma registered_masked token p :
  processor_ok p → et_token token ≠ "" → masked (register_repository_token_masks base64 (et_token token) p) token.
Proof. intros Hp Hne. split; [done|]. by apply register_tokens_spec. Qed.

(** ** The methods *)

Lemma keep_token_ok key token s :
  access_ok s → et_token token ≠ "" → size (ra_tokens s) < MAX_REPOSITORY_TOKENS_PER_RUN →
  advances (ra_commands s) (keep_token base64 key token s).
Proof.
  intros Hs Hne Hsize. pose proof (proj1 (register_tokens_spec (et_token token) (ra_commands s) (ao_commands s Hs))) as He.
  destruct (commands_ok s _ Hs He) as [H1 H2 H3 H4 H5]. split; [|exact He].
  split; simpl in *; try done; [|by apply size_insert_le].
  intros k t [(<- & <-)|(_ & Ht)]%lookup_insert_Some; [by apply registered_masked; [apply Hs|]|by eapply H2].
Qed.

Lemma keep_workflow_ok key token s :
  access_ok s → et_token token ≠ "" → size (ra_workflow_tokens s) < MAX_WORKFLOW_TOKEN_SCOPES_PER_RUN →
  advances (ra_commands s) (s <| ra_workflow_tokens := <[key := token]> (ra_workflow_tokens s) |>
               <| ra_commands := register_repository_token_masks base64 (et_token token) (ra_commands s) |>).
Proof.
  intros Hs Hne Hsize. pose proof (proj1 (register_tokens_spec (et_token token) (ra_commands s) (ao_commands s Hs))) as He.
  destruct (commands_ok s _ Hs He) as [H1 H2 H3 H4 H5]. split; [|exact He].
  split; simpl in *; try done; [|by apply size_insert_le].
  intros k t [(<- & <-)|(_ & Ht)]%lookup_insert_Some; [by apply registered_masked; [apply Hs|]|by eapply H3].
Qed.

Lemma cached_token_ok now purpose owner repository s :
  access_ok s → advances (ra_commands s) (cached_token now purpose owner repository s).1 ∧
  hands_out (cached_token now purpose owner repository s).1 (ok_or (cached_token now purpose owner repository s).2 "").
Proof.
  intros Hs. unfold cached_token. pose proof (advances_refl s Hs). destruct (ra_tokens s !! _) as [token|] eqn:Ht; [|done].
  destruct (is_usable now token); simpl; [|split; [exact (advances_refl _ (delete_token_ok _ _ Hs))|done]].
  split; [done|]. split; [done|]. intros t [= <-]. by eapply ao_tokens.
Qed.

Lemma ask_token_ok key answer s :
  access_ok s → from_client answer →
  advances (ra_commands s) (ask_token base64 key answer s).1 ∧ hands_out (ask_token base64 key answer s).1 (ask_token base64 key answer s).2.
Proof.
  intros Hs Ha. unfold ask_token. pose proof (advances_refl s Hs). case_bool_decide; [done|]. destruct answer as [token|e|] eqn:He; [|done|by destruct Ha].
  pose proof (checked_token_not_empty _ token Ha eq_refl) as Hne. simpl.
  split; [apply keep_token_ok; [done..|lia]|]. split; [done|]. intros t [= <-].
  split; [done|]. by apply register_tokens_spec; [apply Hs|].
Qed.

Lemma request_token_ok now purpose owner repository refresh answer s :
  access_ok s → from_client answer →
  advances (ra_commands s) (request_token base64 now purpose owner repository refresh answer s).1 ∧
  hands_out (request_token base64 now purpose owner repository refresh answer s).1
    (request_token base64 now purpose owner repository refresh answer s).2.
Proof.
  intros Hs Ha. unfold request_token. set (key := (purpose, _)).
  destruct (ra_tokens s !! key) as [token|] eqn:Ht; [|by apply ask_token_ok].
  destruct (negb refresh && is_usable now token); [|exact (ask_token_ok key answer _ (delete_token_ok s key Hs) Ha)].
  split; [by apply advances_refl|]. split; [done|]. intros t [= <-]. by eapply ao_tokens.
Qed.

Lemma ask_scoped_ok key answer s :
  access_ok s → from_client answer →
  advances (ra_commands s) (ask_scoped base64 key answer s).1 ∧ hands_out (ask_scoped base64 key answer s).1 (ask_scoped base64 key answer s).2.
Proof.
  intros Hs Ha. unfold ask_scoped. pose proof (advances_refl s Hs). case_bool_decide; [done|]. destruct answer as [token|e|] eqn:He; [|done|by destruct Ha].
  pose proof (checked_token_not_empty _ token Ha eq_refl) as Hne. simpl.
  split; [apply keep_workflow_ok; [done..|lia]|]. split; [done|]. intros t [= <-].
  split; [done|]. by apply register_tokens_spec; [apply Hs|].
Qed.

Lemma scoped_token_ok now permissions answer s :
  access_ok s → from_client answer →
  advances (ra_commands s) (scoped_token base64 now permissions answer s).1 ∧
  hands_out (scoped_token base64 now permissions answer s).1 (scoped_token base64 now permissions answer s).2.
Proof.
  intros Hs Ha. unfold scoped_token. set (key := permissions_key permissions).
  destruct (ra_workflow_tokens s !! key) as [token|] eqn:Ht; [|by apply ask_scoped_ok].
  destruct (is_usable now token); [|exact (ask_scoped_ok key answer _ (delete_workflow_ok s key Hs) Ha)].
  split; [by apply advances_refl|]. split; [done|]. intros t [= <-]. by eapply ao_workflow.
Qed.

(** The token a run came with is a mask from the start. *)
Definition run_masked {J : Type} (run : RunSpec J) s : Prop :=
  run_checkout_token run ≠ "" → in_force (ra_commands s) (run_checkout_token run).

Definition may_hand_out s (result : outcome string (option string)) : Prop :=
  result ≠ Panic ∧ ∀ token, result = Ok (Some token) → token ≠ "" ∧ in_force (ra_commands s) token.

Lemma some_token_ok p (c : RunRepositoryAccess * outcome string string) :
  advances p c.1 ∧ hands_out c.1 c.2 → advances p (some_token c).1 ∧ may_hand_out (some_token c).1 (some_token c).2.
Proof.
  destruct c as [s [token|e|]]; simpl; intros [Hs [Hn Ho]]; (split; [done|]); (split; [done|]); [|done..].
  intros t [= <-]. by apply Ho.
Qed.

Lemma cached_commands now purpose owner repository s :
  ra_commands (cached_token now purpose owner repository s).1 = ra_commands s.
Proof. unfold cached_token. destruct (ra_tokens s !! _) as [token|]; [|done]. by destruct (is_usable now token). Qed.

Lemma source_token_ok {J : Type} now (run : RunSpec J) refresh answer s :
  access_ok s → run_masked run s → from_client answer →
  advances (ra_commands s) (source_token base64 now run refresh answer s).1 ∧
  may_hand_out (source_token base64 now run refresh answer s).1 (source_token base64 now run refresh answer s).2.
Proof.
  intros Hs Hrun Ha. unfold source_token. set (owner := rs_owner _). set (name := rs_name _).
  assert (∀ s, access_ok s → advances (ra_commands s) (ask_source base64 now run refresh answer s).1 ∧
    may_hand_out (ask_source base64 now run refresh answer s).1 (ask_source base64 now run refresh answer s).2) as Hask.
  { intros s0 Hs0. unfold ask_source. case_bool_decide; [by split; [apply advances_refl|]|]. by apply some_token_ok, request_token_ok. }
  destruct refresh; [by apply Hask|].
  destruct (cached_token_ok now Source owner name s Hs) as [Hs' [_ Ho]].
  pose proof (cached_commands now Source owner name s) as Hc.
  destruct (cached_token now Source owner name s) as [s' [token|]]; simpl in *.
  { split; [done|]. split; [done|]. intros t [= <-]. by apply Ho. }
  assert (advances (ra_commands s) (ask_source base64 now run false answer s').1 ∧
    may_hand_out (ask_source base64 now run false answer s').1 (ask_source base64 now run false answer s').2) as Hask'.
  { rewrite <-Hc. apply Hask, Hs'. }
  unfold initial_token. destruct (is_empty (run_checkout_token run)) eqn:He; [done|].
  destruct (is_usable _ _); [|done]. assert (run_checkout_token run ≠ "") as Hne by (by destruct (run_checkout_token run)).
  split; [done|]. split; [done|]. intros t [= <-]. simpl. rewrite Hc. auto.
Qed.

Lemma workflow_token_ok {J : Type} now (run : RunSpec J) permissions source_answer answer s :
  access_ok s → run_masked run s → from_client source_answer → from_client answer →
  advances (ra_commands s) (workflow_token base64 now run permissions source_answer answer s).1 ∧
  may_hand_out (workflow_token base64 now run permissions source_answer answer s).1
    (workflow_token base64 now run permissions source_answer answer s).2.
Proof.
  intros Hs Hrun Hsa Ha. unfold workflow_token.
  assert (∀ s, access_ok s → advances (ra_commands s) (installation_token base64 now run permissions answer s).1 ∧
    may_hand_out (installation_token base64 now run permissions answer s).1
      (installation_token base64 now run permissions answer s).2) as Hscoped.
  { intros s0 Hs0. unfold installation_token. case_bool_decide; [by split; [apply advances_refl|]|]. by apply some_token_ok, scoped_token_ok. }
  destruct (_ && _); [by split; [apply advances_refl|]|]. case_bool_decide; [|by apply Hscoped].
  destruct (source_token_ok now run false source_answer s Hs Hrun Hsa) as [Hs' [Hn Ho]].
  destruct (source_token _ _ _ _ _ _) as [s' [[token|]|e|]]; simpl in *; [|..|done].
  3: by split. 2: { destruct (Hscoped s' (proj1 Hs')) as [Ha' ?]. split; [by eapply advances_trans|done]. }
  split; [done|]. split; [done|]. intros t [= <-]. by apply Ho.
Qed.

Lemma managed_secrets_ok {J : Type} (run : RunSpec J) answer s :
  access_ok s → answer ≠ Panic →
  advances (ra_commands s) (managed_secrets run answer s).1 ∧ (managed_secrets run answer s).2 ≠ Panic ∧
  ∀ secrets name value, (managed_secrets run answer s).2 = Ok secrets → secrets !! name = Some value → value ≠ "" →
    in_force (ra_commands (managed_secrets run answer s).1) value.
Proof.
  intros Hs Ha. unfold managed_secrets. pose proof (advances_refl s Hs). destruct (negb _); simpl.
  { split_and!; [done..|]. intros secrets name value [= <-]. intros Hv. by apply lookup_empty_Some in Hv. }
  destruct answer as [secrets|e|]; [|done..]. case_bool_decide; [done|]. destruct (existsb _ _); [done|].
  destruct (register_secrets_spec secrets (ra_commands s) (ao_commands s Hs)) as [He Hin].
  split_and!; [by split; [apply commands_ok|]|done|]. intros secrets' name value [= <-]. simpl. apply Hin.
Qed.

Lemma clear_ok s : access_ok s → access_ok (clear_tokens s).
Proof.
  intros [H1 H2 H3 H4 H5]. split; simpl; try done; rewrite ?map_size_empty; lia.
Qed.

(** ** A run *)

Section run.
Context {J : Type} (run : RunSpec J).

(** The methods, and what else happens to the command processor meanwhile. *)
Inductive access_step : RunRepositoryAccess → RunRepositoryAccess → Prop :=
  | step_cached now purpose owner repository s : access_step s (cached_token now purpose owner repository s).1
  | step_request now purpose owner repository refresh answer s :
      from_client answer → access_step s (request_token base64 now purpose owner repository refresh answer s).1
  | step_source now refresh answer s :
      from_client answer → access_step s (source_token base64 now run refresh answer s).1
  | step_workflow now permissions source_answer answer s :
      from_client source_answer → from_client answer →
      access_step s (workflow_token base64 now run permissions source_answer answer s).1
  | step_secrets answer s : answer ≠ Panic → access_step s (managed_secrets run answer s).1
  | step_clear s : access_step s (clear_tokens s)
  | step_commands p s : processor_step (ra_commands s) p → access_step s (s <| ra_commands := p |>).

Lemma processor_step_extends p p' : processor_ok p → processor_step p p' → extends p p'.
Proof.
  intros Hp Hstep. split; [by apply processor_ok_kept, (processor_step_kept [] p); [|apply processor_ok_kept]|].
  intros m. rewrite !in_force_kept. intros Hk scope. by eapply processor_step_kept.
Qed.

Lemma access_step_ok s s' :
  access_step s s' → access_ok s → run_masked run s → advances (ra_commands s) s'.
Proof.
  destruct 1; intros Hs Hrun.
  - by apply cached_token_ok.
  - by apply request_token_ok.
  - by apply source_token_ok.
  - by apply workflow_token_ok.
  - by apply managed_secrets_ok.
  - exact (advances_refl _ (clear_ok _ Hs)).
  - assert (extends (ra_commands s) p) as He by by apply processor_step_extends; [apply Hs|].
    split; [by apply commands_ok|done].
Qed.

Lemma access_steps_ok s s' :
  rtc access_step s s' → access_ok s → run_masked run s → access_ok s' ∧ run_masked run s'.
Proof.
  induction 1 as [|s1 s2 s3 Hstep _ IH]; [done|]. intros Hs Hrun.
  destruct (access_step_ok _ _ Hstep Hs Hrun) as [Hok [_ He]]. apply IH; [done|]. intros Hne. apply He. auto.
Qed.

Lemma processor_steps_in_force p p' m : rtc processor_step p p' → in_force p m → in_force p' m.
Proof. rewrite !in_force_kept. intros Hsteps Hk scope. by eapply processor_steps_kept. Qed.

(** What a method gives the run. *)
Inductive obtains s s' : string → Prop :=
  | obtains_cached now purpose owner repository token :
      cached_token now purpose owner repository s = (s', Some token) → obtains s s' token
  | obtains_requested now purpose owner repository refresh answer token :
      from_client answer → request_token base64 now purpose owner repository refresh answer s = (s', Ok token) →
      obtains s s' token
  | obtains_source now refresh answer token :
      from_client answer → source_token base64 now run refresh answer s = (s', Ok (Some token)) → obtains s s' token
  | obtains_workflow now permissions source_answer answer token :
      from_client source_answer → from_client answer →
      workflow_token base64 now run permissions source_answer answer s = (s', Ok (Some token)) → obtains s s' token
  | obtains_secret answer secrets name value :
      managed_secrets run answer s = (s', Ok secrets) → secrets !! name = Some value → value ≠ "" → obtains s s' value.

Lemma obtained_in_force s s' value :
  access_ok s → run_masked run s → obtains s s' value → in_force (ra_commands s') value.
Proof.
  intros Hs Hrun Ho.
  destruct Ho as [now purpose owner repository token H|now purpose owner repository refresh answer token Ha H|
    now refresh answer token Ha H|now permissions source_answer answer token Hsa Ha H|answer secrets name value H Hl Hne].
  - destruct (cached_token_ok now purpose owner repository s Hs) as [_ [_ Ho]]. rewrite H in Ho. by apply Ho.
  - destruct (request_token_ok now purpose owner repository refresh answer s Hs Ha) as [_ [_ Ho]]. rewrite H in Ho. by apply Ho.
  - destruct (source_token_ok now run refresh answer s Hs Hrun Ha) as [_ [_ Ho]]. rewrite H in Ho. by apply Ho.
  - destruct (workflow_token_ok now run permissions source_answer answer s Hs Hrun Hsa Ha) as [_ [_ Ho]].
    rewrite H in Ho. by apply Ho.
  - assert (answer ≠ Panic) as Ha.
    { intros ->. unfold managed_secrets in H. destruct (negb _); [|done]. injection H as _ <-. by apply lookup_empty_Some in Hl. }
    destruct (managed_secrets_ok run answer s Hs Ha) as (_ & _ & Ho). rewrite H in Ho. by apply (Ho secrets name).
Qed.

(** C19: what a run obtains stays hidden: a token or a managed secret that a
    method of [RunRepositoryAccess] has handed out, and that holds no star, appears
    in none of the texts the relay masks from then on - step names, log lines, the
    summary, the reason of a rejection, annotations - in no job of the run, whatever
    the run did before and whatever the steps, the readers and the relay do
    afterwards.  The texts of deployments and concurrency groups are masked by
    nobody ([deployments_are_sent_unmasked]). *)
Theorem obtained_secrets_stay_hidden p0 s s' value p p' scope secrets message out text :
  processor_ok p0 → run_masked run (new_access p0) → rtc access_step (new_access p0) s →
  obtains s s' value → star_free value = true →
  rtc processor_step (ra_commands s') p → in_scope scope message →
  relay_message secrets message p = (p', Ok (Some out)) → text ∈ masked_texts out →
  contains value text = false.
Proof.
  intros Hp0 Hrun0 Hsteps Ho Hfree Hlater Hscope Hrelay Htext.
  assert (access_ok (new_access p0)) as Hnew.
  { split; simpl; try done; rewrite ?map_size_empty; lia. }
  destruct (access_steps_ok _ _ Hsteps Hnew Hrun0) as [Hs Hrun].
  pose proof (obtained_in_force _ _ _ Hs Hrun Ho) as Hin. eapply processor_steps_in_force in Hin; [|exact Hlater].
  rewrite in_force_kept in Hin. by eapply (relay_hides secrets message scope value p p' out).
Qed.

(** the tokens of a run: under every sequence of calls at most 256 are held
    of each kind, every one of them is masked, a cached token is handed out only
    for the purpose and the repository it was requested for and only while it
    lasts for five more minutes, and one that does not is held no longer. *)
Theorem cached_tokens_are_usable p0 s now purpose owner repository :
  processor_ok p0 → run_masked run (new_access p0) → rtc access_step (new_access p0) s →
  let key := (purpose, repository_access_key owner repository) in
  let '(s', token) := cached_token now purpose owner repository s in
  access_ok s' ∧
  match token with
  | Some token => ∃ held, ra_tokens s !! key = Some held ∧ et_token held = token ∧
      (saturating_add now TOKEN_REFRESH_SAFETY_SECONDS < et_expires_at_epoch_seconds held)%Z ∧ s' = s
  | None => ra_tokens s' !! key = None
  end.
Proof.
  intros Hp0 Hrun0 Hsteps key. assert (access_ok (new_access p0)) as Hnew.
  { split; simpl; try done; rewrite ?map_size_empty; lia. }
  destruct (access_steps_ok _ _ Hsteps Hnew Hrun0) as [Hs _].
  destruct (cached_token_ok now purpose owner repository s Hs) as [[Hs' _] _].
  unfold cached_token in *. fold key in Hs' |- *. destruct (ra_tokens s !! key) as [held|] eqn:Hk; [|done].
  destruct (is_usable now held) eqn:Hu; (split; [done|]).
  - exists held. split_and!; try done. by apply bool_decide_eq_true in Hu.
  - apply lookup_delete_eq.
Qed.
End run.
End props.

(** ** A concrete run *)

Definition demo_base64 (s : string) : string := "b64:" +:+ s.

Definition demo_run : RunSpec unit :=
  mkRun unit 7 "w" 3 1 (mkRepository "Acme" "Tools" "https://github.com/Acme/Tools.git")
    (mkPullRequest 1 "opened" "h" "b" "m" "e" "hr" "br") None tt "token-of-the-run" (Some 1000%Z) "2022-11-28" true None ∅ ∅.

Definition demo_answer : outcome string ExpiringToken := Ok (mkToken "ghs_fresh" 9000).

Lemma demo_from_client : from_client demo_answer.
Proof.
  split; [done|]. intros token [= <-]. exists "source repository access", 900%Z. vm_compute. reflexivity.
Qed.

Lemma demo_run_masked : run_masked demo_run (new_access demo_processor).
Proof.
  intros _. split; [exact demo_processor_ok|]. intros scope. rewrite elem_of_app. left.
  apply (bool_decide_unpack _). vm_compute. exact I.
Qed.

(** The token of the run has expired; a new one is asked for. *)
Definition demo_obtained : RunRepositoryAccess :=
  (source_token demo_base64 900 demo_run false demo_answer (new_access demo_processor)).1.

Definition demo_leak : AgentMessage := LogChunk 1 2 "plan/job/build" 0 Stdout "token ghs_fresh seen".

Lemma obtained_secrets_stay_hidden_witness :
  source_token demo_base64 900 demo_run false demo_answer (new_access demo_processor) = (demo_obtained, Ok (Some "ghs_fresh")) ∧
  contains "ghs_fresh" "token *** seen" = false.
Proof.
  assert ((source_token demo_base64 900 demo_run false demo_answer (new_access demo_processor)).2 = Ok (Some "ghs_fresh"))
    as H1 by (vm_compute; reflexivity).
  assert (source_token demo_base64 900 demo_run false demo_answer (new_access demo_processor) =
    (demo_obtained, Ok (Some "ghs_fresh"))) as H2 by (rewrite <-H1; apply surjective_pairing).
  assert ((relay_message [] demo_leak (ra_commands demo_obtained)).2 =
    Ok (Some (LogChunk 1 2 "plan/job/build" 0 Stdout "token *** seen"))) as H3 by (vm_compute; reflexivity).
  split; [exact H2|].
  apply (obtained_secrets_stay_hidden demo_base64 demo_run demo_processor (new_access demo_processor) demo_obtained "ghs_fresh"
    (ra_commands demo_obtained) (relay_message [] demo_leak (ra_commands demo_obtained)).1 "plan/job" [] demo_leak
    (LogChunk 1 2 "plan/job/build" 0 Stdout "token *** seen") "token *** seen").
  - exact demo_processor_ok.
  - exact demo_run_masked.
  - apply rtc_refl.
  - apply (obtains_source demo_base64 demo_run _ _ 900 false demo_answer "ghs_fresh" demo_from_client H2).
  - vm_compute. reflexivity.
  - apply rtc_refl.
  - vm_compute. reflexivity.
  - rewrite <-H3. apply surjective_pairing.
  - apply list_elem_of_here.
Defined.

Lemma cached_tokens_are_usable_witness :
  (cached_token 900 Source "ACME" "tools" demo_obtained).2 = Some "ghs_fresh" ∧
  access_ok (cached_token 900 Source "ACME" "tools" demo_obtained).1.
Proof.
  assert (rtc (access_step demo_base64 demo_run) (new_access demo_processor) demo_obtained) as Hsteps
    by (apply rtc_once, step_source, demo_from_client).
  pose proof (cached_tokens_are_usable demo_base64 demo_run demo_processor demo_obtained 900 Source "ACME" "tools"
    demo_processor_ok demo_run_masked Hsteps) as H.
  split; [vm_compute; reflexivity|].
  destruct (cached_token 900 Source "ACME" "tools" demo_obtained) as [s' token]. exact (proj1 H).
Defined.
