(* ===== verification/Artifact.v ===== *)
(** * The workflow artifact service (crates/gitzero-agent, artifact.rs)

    The handlers of the artifact service of one run: the Twirp methods and the
    upload and download of blobs.  A handler gives up the lock of the records
    between its steps, so it is cut there into tasks: [start] runs a request up to
    the first such point, [resume] continues, and other requests may run in
    between.  The disk holds what the code writes; that a directory is gone is the
    only I/O error kept.  SHA-256, the parser of the JSON requests and the check of
    header values are parameters. *)

From S2P Require Import Prelude RustStr UnixPath OrdMap Expression RustText.

Definition MAX_RPC_BODY_BYTES : nat := 64 * 1024.
Definition MAX_BLOCK_LIST_BYTES : nat := 1024 * 1024.
Definition MAX_ARTIFACT_NAME_BYTES : nat := 255.

Record ArtifactLimits := mkArtifactLimits {
  maximum_bytes : Z;
  maximum_entry_bytes : Z;
}.

(** ** Data *)

(** The names of the files in the directory of an artifact: [blob],
    [.blob.<uuid>.tmp], [blocks/<digest>] and [blocks/.<digest>.<uuid>.tmp]. *)
Inductive FileName :=
  | BlobFile
  | BlobTemporary (uuid : string)
  | BlockFile (digest : string)
  | BlockTemporary (digest uuid : string).

#[export] Instance FileName_eq_dec : EqDecision FileName.
Proof. solve_decision. Defined.

#[export] Instance FileName_countable : Countable FileName.
Proof.
  refine (inj_countable'
    (λ f, match f with
          | BlobFile => inl (inl tt) | BlobTemporary u => inl (inr u)
          | BlockFile d => inr (inl d) | BlockTemporary d u => inr (inr (d, u))
          end)
    (λ x, match x with
          | inl (inl _) => BlobFile | inl (inr u) => BlobTemporary u
          | inr (inl d) => BlockFile d | inr (inr (d, u)) => BlockTemporary d u
          end) _).
  by intros [].
Defined.

Definition in_blocks (name : FileName) : bool :=
  match name with BlockFile _ | BlockTemporary _ _ => true | _ => false end.

Record Block := mkBlock {
  bk_path : FileName;
  bk_size : Z;
}.

(** [directory] and [blob_path] are those of [id]. *)
Record ArtifactRecord := mkArtifact {
  ar_id : Z;
  ar_name : string;
  ar_mime_type : string;
  ar_blocks : gmap string Block;
  ar_blob_committed : bool;
  ar_finalized : bool;
  ar_size : Z;
  ar_digest : option string;
}.

#[export] Instance ArtifactRecord_updatable : Updatable ArtifactRecord := λ a,
  mkArtifact (ar_id a) (ar_name a) (ar_mime_type a) (ar_blocks a) (ar_blob_committed a) (ar_finalized a)
    (ar_size a) (ar_digest a).

(** Directories of artifacts, those with a [blocks] directory, and the files. *)
Record Disk := mkDisk {
  dk_directories : gset Z;
  dk_blocks : gset Z;
  dk_files : gmap (Z * FileName) string;
}.

#[export] Instance Disk_updatable : Updatable Disk := λ d, mkDisk (dk_directories d) (dk_blocks d) (dk_files d).

Record ArtifactState := mkArtifactState {
  base_url : string;
  runtime_token : string;
  workflow_run_backend_id : string;
  workflow_job_run_backend_id : string;
  limits : ArtifactLimits;
  next_id : Z;
  artifacts : gmap Z ArtifactRecord;
  disk : Disk;
}.

#[export] Instance ArtifactState_updatable : Updatable ArtifactState := λ s,
  mkArtifactState (base_url s) (runtime_token s) (workflow_run_backend_id s) (workflow_job_run_backend_id s)
    (limits s) (next_id s) (artifacts s) (disk s).

(** [ArtifactService::start] *)
Definition start_service (base token run_id job_id : string) (limits : ArtifactLimits) : outcome string ArtifactState :=
  reject_if (bool_decide (maximum_entry_bytes limits = 0)%Z ||
             bool_decide (maximum_bytes limits < maximum_entry_bytes limits)%Z) "workflow artifact limits are invalid" ;?
  Ok (mkArtifactState base token run_id job_id limits 1 ∅ (mkDisk ∅ ∅ ∅)).

(** [ArtifactService::environment] *)
Definition service_environment (state : ArtifactState) : gmap string string :=
  <["ACTIONS_RESULTS_URL" := base_url state]>
  (<["ACTIONS_RUNTIME_URL" := base_url state]>
  (<["ACTIONS_RUNTIME_TOKEN" := runtime_token state]> ∅)).

(** ** Errors *)

Record ArtifactHttpError := mkArtifactError { ae_status : Z; ae_code : string; ae_message : string }.

Notation response := (outcome ArtifactHttpError).

Definition bad_request (message : string) : ArtifactHttpError := mkArtifactError 400 "invalid_argument" message.
Definition internal (message : string) : ArtifactHttpError := mkArtifactError 500 "internal" message.
Definition artifact_not_found : ArtifactHttpError := mkArtifactError 404 "not_found" "artifact was not found".
Definition resource_exhausted (message : string) : ArtifactHttpError := mkArtifactError 413 "resource_exhausted" message.
Definition already_finalized (code : string) : ArtifactHttpError := mkArtifactError 409 code "artifact is already finalized".

(** [std::io::ErrorKind::NotFound], displayed *)
Definition no_such_file : ArtifactHttpError := internal "No such file or directory (os error 2)".

(** ** Guards *)

Definition authorize (state : ArtifactState) (authorization : option string) : response unit :=
  reject_if (negb (bool_decide (authorization = Some ("Bearer " +:+ runtime_token state))))
    (mkArtifactError 401 "unauthenticated" "artifact request is not authorized").

Definition authorize_signed (state : ArtifactState) (signature : string) : response unit :=
  reject_if (negb (bool_decide (signature = runtime_token state)))
    (mkArtifactError 401 "unauthenticated" "artifact URL signature is invalid").

Definition validate_backend_ids (state : ArtifactState) (run_id job_id : string) : response unit :=
  reject_if (negb (bool_decide (run_id = workflow_run_backend_id state) &&
                   bool_decide (job_id = workflow_job_run_backend_id state)))
    (mkArtifactError 403 "permission_denied" "artifact backend IDs are outside this run").

(** [char::is_control]: the C0 and C1 characters and DEL. *)
Definition is_control (c : string) : bool :=
  match c with
  | String a "" => byte_in 0 31 a || byte_in 127 127 a
  | String a (String b "") => byte_in 194 194 a && byte_in 128 159 b
  | _ => false
  end.

Definition validate_artifact_name (name : string) : response unit :=
  reject_if (is_empty name || bool_decide (MAX_ARTIFACT_NAME_BYTES < slen name) || existsb is_control (chars name))
    (bad_request "artifact name is empty, too large, or contains control characters").

Definition reject_large_content_length (content_length : option string) (maximum : Z) : response unit :=
  reject_if (match content_length ≫= parse_unsigned u64_max with
             | Some size => bool_decide (maximum < size)%Z
             | None => false
             end)
    (resource_exhausted "artifact upload exceeds the configured limit").

(** [block_id.is_empty() || block_id.len() > 256] *)
Definition invalid_block_id (block_id : string) : bool := is_empty block_id || bool_decide (256 < slen block_id).

(** ** Bodies: the chunks as they arrive, [None] for a broken connection *)

Definition body_error : ArtifactHttpError := internal "error reading a body from connection".

Fixpoint read_body (body : list (option string)) (maximum : nat) (bytes : string) : response string :=
  match body with
  | [] => Ok bytes
  | None :: _ => Err body_error
  | Some chunk :: body =>
      if bool_decide (maximum < slen bytes + slen chunk)
      then Err (resource_exhausted "artifact request body exceeds the configured limit")
      else read_body body maximum (bytes +:+ chunk)
  end.

(** What is left of the file, if it is left, and the result. *)
Fixpoint write_chunks (body : list (option string)) (maximum size : Z) (file : string)
    : option string * response Z :=
  match body with
  | [] => (Some file, Ok size)
  | None :: _ => (Some file, Err body_error)
  | Some chunk :: body =>
      let total := (size + Z.of_nat (slen chunk))%Z in
      if bool_decide (u64_max < total)%Z then (Some file, Err (resource_exhausted "artifact upload size overflow"))
      else if bool_decide (maximum < total)%Z
      then (None, Err (resource_exhausted "artifact upload exceeds the configured limit"))
      else write_chunks body maximum total (file +:+ chunk)
  end.

(** ** The block list *)

Definition block_tags : list string := ["Latest"; "Uncommitted"; "Committed"].

(** [min_by_key]: the first of the least. *)
Definition next_tag (remaining : string) : option (nat * string) :=
  foldl (λ best tag,
    match sfind ("<" +:+ tag +:+ ">") remaining, best with
    | Some index, Some (least, _) => if bool_decide (index < least) then Some (index, tag) else best
    | Some index, None => Some (index, tag)
    | None, _ => best
    end) None block_tags.

Fixpoint parse_blocks (fuel : nat) (remaining : string) (blocks : list string) : response (list string) :=
  match fuel with
  | 0 => Panic
  | S fuel =>
      match next_tag remaining with
      | None => Ok blocks
      | Some (index, tag) =>
          let value_start := index + slen tag + 2 in
          let closing := "</" +:+ tag +:+ ">" in
          let? offset := ok_or (sfind closing (sdrop value_start remaining)) (bad_request "block list XML is malformed") in
          let value := stake offset (sdrop value_start remaining) in
          reject_if (invalid_block_id value) (bad_request "block list contains an invalid block ID") ;?
          parse_blocks fuel (sdrop (value_start + offset + slen closing) remaining) (blocks ++ [value])
      end
  end.

Definition parse_block_list (xml : string) : response (list string) :=
  reject_if (negb (valid_utf8 xml)) (bad_request "block list is not UTF-8") ;?
  let? blocks := parse_blocks (S (slen xml)) xml [] in
  reject_if (is_nil blocks) (bad_request "block list is empty") ;?
  Ok blocks.

(** ** Records *)

(** The order of the sum does not matter: see [block_sizes_sum] of [ArtifactProps]. *)
Definition block_sizes (blocks : gmap string Block) : Z :=
  map_fold (λ _ block total, saturating_add total (bk_size block)) 0%Z blocks.

Definition artifact_logical_size (artifact : ArtifactRecord) : Z :=
  if ar_blob_committed artifact then ar_size artifact else block_sizes (ar_blocks artifact).

Definition total_logical_size (artifacts : gmap Z ArtifactRecord) : Z :=
  map_fold (λ _ artifact total, saturating_add total (artifact_logical_size artifact)) 0%Z artifacts.

(** [BTreeMap::values]: by id. *)
Definition id_le (a b : Z * ArtifactRecord) : Prop := (a.1 ≤ b.1)%Z.

#[export] Instance id_le_dec a b : Decision (id_le a b).
Proof. unfold id_le. apply _. Defined.

Definition artifact_values (artifacts : gmap Z ArtifactRecord) : list ArtifactRecord :=
  (merge_sort id_le (map_to_list artifacts)).*2.

Definition find_value (p : ArtifactRecord → bool) (artifacts : gmap Z ArtifactRecord) : option ArtifactRecord :=
  head (base.filter (λ a, p a = true) (artifact_values artifacts)).

Definition named (name : string) (a : ArtifactRecord) : bool := bool_decide (ar_name a = name).

(** ** The disk *)

(** [create_dir_all(directory.join("blocks"))] *)
Definition create_blocks (id : Z) (d : Disk) : Disk :=
  d <| dk_directories := {[id]} ∪ dk_directories d |> <| dk_blocks := {[id]} ∪ dk_blocks d |>.

(** The directory a file is created in. *)
Definition parent_exists (id : Z) (name : FileName) (d : Disk) : bool :=
  if in_blocks name then bool_decide (id ∈ dk_blocks d) else bool_decide (id ∈ dk_directories d).

Definition write_file (id : Z) (name : FileName) (content : string) (d : Disk) : Disk :=
  d <| dk_files := <[(id, name) := content]> (dk_files d) |>.

Definition remove_file (id : Z) (name : FileName) (d : Disk) : Disk :=
  d <| dk_files := delete (id, name) (dk_files d) |>.

Definition rename_file (id : Z) (from to : FileName) (d : Disk) : option Disk :=
  content ← dk_files d !! (id, from); Some (write_file id to content (remove_file id from d)).

Definition remove_blocks (id : Z) (d : Disk) : Disk :=
  d <| dk_blocks := dk_blocks d ∖ {[id]} |>
    <| dk_files := base.filter (λ kv, ¬ (kv.1.1 = id ∧ in_blocks kv.1.2 = true)) (dk_files d) |>.

(** [remove_dir_all(directory)]; that there is none is not an error. *)
Definition remove_directory (id : Z) (d : Disk) : Disk :=
  mkDisk (dk_directories d ∖ {[id]}) (dk_blocks d ∖ {[id]})
    (base.filter (λ kv, kv.1.1 ≠ id) (dk_files d)).

(** [write_body]: the file is created, then written. *)
Definition write_body (id : Z) (name : FileName) (body : list (option string)) (maximum : Z) (d : Disk)
    : Disk * response Z :=
  if parent_exists id name d then
    let '(file, result) := write_chunks body maximum 0 "" in
    (match file with Some content => write_file id name content d | None => remove_file id name d end, result)
  else (d, Err no_such_file).

(** ** Requests and responses *)

Record CreateArtifactRequest := mkCreate {
  cr_run_id : string;
  cr_job_id : string;
  cr_name : string;
  cr_mime_type : option string;
  cr_version : Z;
}.

Record FinalizeArtifactRequest `{ExpressionLib} := mkFinalize {
  fr_run_id : string;
  fr_job_id : string;
  fr_name : string;
  fr_size : JValue;
  fr_hash : option string;
}.

Record ListArtifactsRequest `{ExpressionLib} := mkList {
  ls_run_id : string;
  ls_job_id : string;
  ls_name_filter : option string;
  ls_id_filter : option JValue;
}.

Arguments mkFinalize {_} _ _ _ _ _.
Arguments mkList {_} _ _ _ _.

Record NamedArtifactRequest := mkNamed {
  nr_run_id : string;
  nr_job_id : string;
  nr_name : string;
}.

(** One element of the list of [ListArtifacts]; the backend ids are the state's. *)
Record ListedArtifact := mkListed {
  la_database_id : string;
  la_name : string;
  la_size : string;
  la_digest : option string;
}.

Inductive Response :=
  | ArtifactCreated (signed_upload_url : string)
  | BlobCreated
  | ArtifactFinalized (artifact_id : string)
  | ArtifactsListed (listed : list ListedArtifact)
  | ArtifactUrl (signed_url : string)
  | ArtifactDeleted (artifact_id : string)
  | BlobServed (content_length content_type content_disposition : string) (content : option string).

(** An HTTP request to one of the routes. *)
Inductive Request :=
  | Twirp (method : string) (authorization : option string) (body : list (option string))
  | PutBlob (id : Z) (sig : string) (comp blockid content_length : option string) (body : list (option string))
  | GetBlob (id : Z) (filename sig : string)
  | HeadBlob (id : Z) (filename sig : string).

(** Where a request is when it does not hold the lock. *)
Inductive Task :=
  | StageWrite (id : Z) (block_id : string) (body : list (option string))
  | StageRecord (id : Z) (block_id : string) (temporary : FileName) (size : Z)
  | ListCreate (id : Z) (blocks : list Block) (size : Z)
  | ListCopy (id : Z) (blocks : list Block) (temporary : FileName) (size : Z)
  | ListRecord (id : Z) (size : Z)
  | ListClean (id : Z)
  | SingleWrite (id : Z) (old_size : Z) (body : list (option string))
  | SingleRecord (id : Z) (old_size : Z) (temporary : FileName) (size : Z)
  | FinalHash (id : Z) (expected_hash : option string)
  | FinalRecord (id : Z) (digest : string)
  | DeleteFiles (id : Z).

Definition task_id (task : Task) : Z :=
  match task with
  | StageWrite id _ _ | StageRecord id _ _ _ | ListCreate id _ _ | ListCopy id _ _ _ | ListRecord id _
  | ListClean id | SingleWrite id _ _ | SingleRecord id _ _ _ | FinalHash id _ | FinalRecord id _ | DeleteFiles id => id
  end.

Inductive Progress :=
  | Continue (task : Task)
  | Done (result : response Response).

(** The parts that end a request, or go on. *)
Definition finish_with {A : Type} (c : response A) (k : A → Progress) : Progress :=
  match c with Ok a => k a | Err e => Done (Err e) | Panic => Done Panic end.

Class ArtifactLib `{EL : ExpressionLib} := {
  sha256_hex : string → string;                       (** [Sha256::digest], in hexadecimal *)
  jnum_u64 : jnum → option Z;                         (** [Number::as_u64] *)
  header_value : string → outcome string string;      (** [HeaderValue::from_str], the error displayed *)
  parse_create : string → outcome string CreateArtifactRequest;   (** [serde_json::from_slice] *)
  parse_finalize : string → outcome string FinalizeArtifactRequest;
  parse_list : string → outcome string ListArtifactsRequest;
  parse_named : string → outcome string NamedArtifactRequest;
}.

Definition set_artifact (state : ArtifactState) (artifact : ArtifactRecord) : ArtifactState :=
  state <| artifacts := <[ar_id artifact := artifact]> (artifacts state) |>.

Definition set_disk (state : ArtifactState) (new : Disk) : ArtifactState := state <| disk := new |>.

(** [artifact.size = size] and the rest of what a commit sets. *)
Definition committed (size : Z) (artifact : ArtifactRecord) : ArtifactRecord :=
  artifact <| ar_blob_committed := true |> <| ar_size := size |> <| ar_blocks := ∅ |>.

Definition is_zip_mime (value : string) : bool :=
  match trim <$> head (split ";" value) with
  | Some mime => bool_decide (mime ∈ ["application/zip"; "application/x-zip-compressed"; "application/zip-compressed"])
  | None => false
  end.

Definition safe_name (name : string) : string :=
  sconcat ((λ c, if char_ascii (λ a, is_ascii_alphanumeric a ||
                    bool_decide (a ∈ ["."; "-"; "_"]%char)) c then c else "_") <$> chars name).

(** ** Handlers *)

Section handlers.
Context `{AL : ArtifactLib}.

(** [serde_json] refuses more than 128 levels. *)
Definition MAX_JSON_DEPTH : nat := 128.

Fixpoint json_u64 (depth : nat) (value : JValue) : response Z :=
  match depth, value with
  | 0, _ => Panic
  | S _, JString value => ok_or (parse_unsigned u64_max value) (bad_request "integer field is invalid")
  | S _, JNumber value => ok_or (jnum_u64 value) (bad_request "integer field is invalid")
  | S depth, JObject value =>
      let? inner := ok_or (value !! "value") (bad_request "integer wrapper is invalid") in
      json_u64 depth inner
  | S _, _ => Err (bad_request "integer field is invalid")
  end.

Definition parse_json {A : Type} (parse : string → outcome string A) (bytes : string) : response A :=
  map_err (λ error, bad_request ("invalid JSON request: " +:+ error)) (parse bytes).

Definition create_guards (state : ArtifactState) (request : CreateArtifactRequest) : response unit :=
  validate_backend_ids state (cr_run_id request) (cr_job_id request) ;?
  validate_artifact_name (cr_name request) ;?
  reject_if (bool_decide (cr_version request < 4)%Z) (bad_request "artifact protocol version is not supported") ;?
  reject_if (existsb (named (cr_name request)) (artifact_values (artifacts state)))
    (mkArtifactError 409 "already_exists" "an artifact with this name already exists on the workflow run").

Definition new_artifact (id : Z) (request : CreateArtifactRequest) : ArtifactRecord :=
  mkArtifact id (cr_name request)
    (match cr_mime_type request with
     | Some value => if is_empty value then "application/zip" else value
     | None => "application/zip"
     end) ∅ false false 0 None.

(** The directory, the record and the next id. *)
Definition created (state : ArtifactState) (request : CreateArtifactRequest) : ArtifactState :=
  let id := next_id state in
  set_artifact (set_disk state (create_blocks id (disk state)) <| next_id := ((id + 1) mod (u64_max + 1))%Z |>)
    (new_artifact id request).

Definition create_artifact (state : ArtifactState) (request : CreateArtifactRequest) : ArtifactState * Progress :=
  match create_guards state request with
  | Ok _ =>
      (created state request,
       Done (Ok (ArtifactCreated (base_url state +:+ "_gitzero/artifacts/" +:+ pretty (next_id state) +:+
                                  "/blob?sig=" +:+ runtime_token state))))
  | Err e => (state, Done (Err e))
  | Panic => (state, Done Panic)
  end.

(** The record of an artifact that may still be written. *)
Definition open_artifact (state : ArtifactState) (id : Z) : response ArtifactRecord :=
  let? artifact := ok_or (artifacts state !! id) artifact_not_found in
  reject_if (ar_finalized artifact) (already_finalized "failed_precondition") ;?
  Ok artifact.

(** [stage_block] up to the first lock. *)
Definition stage_block (state : ArtifactState) (id : Z) (block_id : string) (content_length : option string)
    (body : list (option string)) : Progress :=
  finish_with
    (reject_if (invalid_block_id block_id) (bad_request "block ID is invalid") ;?
     reject_large_content_length content_length (maximum_entry_bytes (limits state)) ;?
     open_artifact state id)
    (λ _, Continue (StageWrite id block_id body)).

(** [stage_block] with the lock held again. *)
Definition record_block (state : ArtifactState) (id : Z) (block_id : string) (temporary : FileName) (size : Z)
    : ArtifactState * response unit :=
  match artifacts state !! id with
  | None => (state, Err artifact_not_found)
  | Some artifact =>
      let old_size := from_option bk_size 0%Z (ar_blocks artifact !! block_id) in
      let projected_artifact := saturating_add (saturating_sub (artifact_logical_size artifact) old_size) size in
      let projected_total := saturating_add (saturating_sub (total_logical_size (artifacts state)) old_size) size in
      if bool_decide (maximum_entry_bytes (limits state) < projected_artifact)%Z ||
         bool_decide (maximum_bytes (limits state) < projected_total)%Z
      then (set_disk state (remove_file id temporary (disk state)),
            Err (resource_exhausted "workflow artifact storage limit exceeded"))
      else
        let path := BlockFile (sha256_hex block_id) in
        match rename_file id temporary path (disk state) with
        | None => (state, Err no_such_file)
        | Some new =>
            (set_artifact (set_disk state new)
               (artifact <| ar_blocks := <[block_id := mkBlock path size]> (ar_blocks artifact) |>), Ok tt)
        end
  end.

(** [commit_block_list] up to the end of the first lock. *)
Definition checked_sum (blocks : list Block) : option Z :=
  foldl (λ total block, total ← total;
           let sum := (total + bk_size block)%Z in if bool_decide (sum ≤ u64_max)%Z then Some sum else None)
    (Some 0%Z) blocks.

Definition commit_block_list (state : ArtifactState) (id : Z) (xml : string) : Progress :=
  finish_with
    (let? order := parse_block_list xml in
     let? artifact := open_artifact state id in
     let? blocks := traverse (λ block_id, ok_or (ar_blocks artifact !! block_id)
                                (bad_request "block list refers to a missing block")) order in
     let? size := ok_or (checked_sum blocks) (bad_request "artifact size overflow") in
     reject_if (bool_decide (maximum_entry_bytes (limits state) < size)%Z)
       (resource_exhausted "artifact exceeds the configured per-entry limit") ;?
     Ok (blocks, size))
    (λ '(blocks, size), Continue (ListCreate id blocks size)).

(** [upload_single_blob] up to the end of the first lock. *)
Definition upload_single_blob (state : ArtifactState) (id : Z) (content_length : option string)
    (body : list (option string)) : Progress :=
  finish_with
    (reject_large_content_length content_length (maximum_entry_bytes (limits state)) ;?
     open_artifact state id)
    (λ artifact, Continue (SingleWrite id (artifact_logical_size artifact) body)).

(** [upload_single_blob] with the lock held again. *)
Definition record_blob (state : ArtifactState) (id old_size : Z) (temporary : FileName) (size : Z)
    : ArtifactState * response unit :=
  let projected := saturating_add (saturating_sub (total_logical_size (artifacts state)) old_size) size in
  if bool_decide (maximum_bytes (limits state) < projected)%Z
  then (set_disk state (remove_file id temporary (disk state)),
        Err (resource_exhausted "workflow artifact storage limit exceeded"))
  else
    match rename_file id temporary BlobFile (disk state) with
    | None => (state, Err no_such_file)
    | Some new =>
        let state := set_disk state new in
        match artifacts state !! id with
        | None => (state, Err artifact_not_found)
        | Some artifact => (set_artifact state (committed size artifact), Ok tt)
        end
    end.

Definition upload_blob (state : ArtifactState) (id : Z) (sig : string) (comp blockid content_length : option string)
    (body : list (option string)) : Progress :=
  finish_with (authorize_signed state sig) (λ _,
    match comp with
    | Some comp =>
        if bool_decide (comp = "block") then
          finish_with (ok_or blockid (bad_request "blockid is required"))
            (λ block_id, stage_block state id block_id content_length body)
        else if bool_decide (comp = "blocklist")
        then finish_with (read_body body MAX_BLOCK_LIST_BYTES "") (commit_block_list state id)
        else Done (Err (bad_request "blob operation is not supported"))
    | None => upload_single_blob state id content_length body
    end).

(** [finalize_artifact] up to the end of the first lock. *)
Definition finalize_artifact (state : ArtifactState) (request : FinalizeArtifactRequest) : Progress :=
  finish_with
    (validate_backend_ids state (fr_run_id request) (fr_job_id request) ;?
     let? expected_size := json_u64 MAX_JSON_DEPTH (fr_size request) in
     let? artifact := ok_or (find_value (named (fr_name request)) (artifacts state)) artifact_not_found in
     Ok (expected_size, artifact))
    (λ '(expected_size, artifact),
       if ar_finalized artifact then
         Done (reject_if (negb (bool_decide (expected_size = ar_size artifact) &&
                                match fr_hash request with
                                | Some hash => bool_decide (Some hash = ar_digest artifact)
                                | None => true
                                end)) (already_finalized "already_exists") ;?
               Ok (ArtifactFinalized (pretty (ar_id artifact))))
       else if negb (ar_blob_committed artifact) || negb (bool_decide (expected_size = ar_size artifact))
       then Done (Err (bad_request "final artifact size does not match the committed blob"))
       else Continue (FinalHash (ar_id artifact) (fr_hash request))).

Definition hash_blob (state : ArtifactState) (id : Z) (expected_hash : option string) : response string :=
  let? content := ok_or (dk_files (disk state) !! (id, BlobFile)) no_such_file in
  let digest := "sha256:" +:+ sha256_hex content in
  reject_if (match expected_hash with Some expected => negb (bool_decide (expected = digest)) | None => false end)
    (bad_request "final artifact digest does not match the committed blob") ;?
  Ok digest.

Definition listed_artifact (artifact : ArtifactRecord) : ListedArtifact :=
  mkListed (pretty (ar_id artifact)) (ar_name artifact) (pretty (ar_size artifact)) (ar_digest artifact).

Definition list_artifacts (state : ArtifactState) (request : ListArtifactsRequest) : response Response :=
  validate_backend_ids state (ls_run_id request) (ls_job_id request) ;?
  let? id_filter := match ls_id_filter request with
                    | Some value => omap_ok Some (json_u64 MAX_JSON_DEPTH value)
                    | None => Ok None
                    end in
  let listed a := ar_finalized a
    && match ls_name_filter request with Some name => named name a | None => true end
    && match id_filter with Some id => bool_decide (ar_id a = id) | None => true end in
  Ok (ArtifactsListed (listed_artifact <$> base.filter (λ a, listed a = true) (reverse (artifact_values (artifacts state))))).

Definition signed_artifact_url (state : ArtifactState) (request : NamedArtifactRequest) : response Response :=
  validate_backend_ids state (nr_run_id request) (nr_job_id request) ;?
  let? artifact := ok_or (find_value (λ a, ar_finalized a && named (nr_name request) a) (artifacts state)) artifact_not_found in
  let filename := if is_zip_mime (ar_mime_type artifact) then "artifact.zip" else "artifact.bin" in
  Ok (ArtifactUrl (base_url state +:+ "_gitzero/artifacts/" +:+ pretty (ar_id artifact) +:+ "/" +:+ filename +:+
                   "?sig=" +:+ runtime_token state)).

(** [delete_artifact] under the lock. *)
Definition greatest_id (ids : list Z) : option Z :=
  foldl (λ best id, Some (match best with Some least => Z.max least id | None => id end)) None ids.

Definition delete_artifact (state : ArtifactState) (request : NamedArtifactRequest) : ArtifactState * Progress :=
  match (validate_backend_ids state (nr_run_id request) (nr_job_id request) ;?
         ok_or (greatest_id (ar_id <$> base.filter (λ a, named (nr_name request) a = true) (artifact_values (artifacts state))))
           artifact_not_found) with
  | Ok id =>
      match artifacts state !! id with
      | Some _ => (state <| artifacts := delete id (artifacts state) |>, Continue (DeleteFiles id))
      | None => (state, Done (Err artifact_not_found))
      end
  | Err e => (state, Done (Err e))
  | Panic => (state, Done Panic)
  end.

Definition download_metadata (state : ArtifactState) (id : Z) : response ArtifactRecord :=
  let? artifact := ok_or (artifacts state !! id) artifact_not_found in
  reject_if (negb (ar_finalized artifact)) artifact_not_found ;?
  Ok artifact.

Definition set_download_headers (size : Z) (mime_type name : string) (content : option string) : response Response :=
  let header value := map_err internal (header_value value) in
  let? content_length := header (pretty size) in
  let? content_type := header mime_type in
  let? disposition := header ("attachment; filename=" +:+ String "034" (safe_name name +:+ String "034" "")) in
  Ok (BlobServed content_length content_type disposition content).

Definition download_blob (state : ArtifactState) (id : Z) (sig : string) : response Response :=
  authorize_signed state sig ;?
  let? artifact := download_metadata state id in
  let? content := ok_or (dk_files (disk state) !! (id, BlobFile)) no_such_file in
  set_download_headers (ar_size artifact) (ar_mime_type artifact) (ar_name artifact) (Some content).

Definition head_blob (state : ArtifactState) (id : Z) (sig : string) : response Response :=
  authorize_signed state sig ;?
  let? artifact := download_metadata state id in
  set_download_headers (ar_size artifact) (ar_mime_type artifact) (ar_name artifact) None.

Definition twirp (state : ArtifactState) (method : string) (authorization : option string)
    (body : list (option string)) : ArtifactState * Progress :=
  let run {A} (parse : string → outcome string A) (k : A → ArtifactState * Progress) (bytes : string) :=
    match parse_json parse bytes with Ok request => k request | Err e => (state, Done (Err e)) | Panic => (state, Done Panic) end in
  match (authorize state authorization ;? read_body body MAX_RPC_BODY_BYTES "") with
  | Err e => (state, Done (Err e))
  | Panic => (state, Done Panic)
  | Ok bytes =>
      if bool_decide (method = "CreateArtifact") then run parse_create (create_artifact state) bytes
      else if bool_decide (method = "FinalizeArtifact")
      then run parse_finalize (λ request, (state, finalize_artifact state request)) bytes
      else if bool_decide (method = "ListArtifacts")
      then run parse_list (λ request, (state, Done (list_artifacts state request))) bytes
      else if bool_decide (method = "GetSignedArtifactURL")
      then run parse_named (λ request, (state, Done (signed_artifact_url state request))) bytes
      else if bool_decide (method = "DeleteArtifact") then run parse_named (delete_artifact state) bytes
      else (state, Done (Err (mkArtifactError 404 "bad_route" "artifact method is not supported")))
  end.

(** ** Running a request *)

Definition start (state : ArtifactState) (request : Request) : ArtifactState * Progress :=
  match request with
  | Twirp method authorization body => twirp state method authorization body
  | PutBlob id sig comp blockid content_length body => (state, upload_blob state id sig comp blockid content_length body)
  | GetBlob id _ sig => (state, Done (download_blob state id sig))
  | HeadBlob id _ sig => (state, Done (head_blob state id sig))
  end.

(** What [upload_blob] answers. *)
Definition end_with (recorded : ArtifactState * response unit) : ArtifactState * Progress :=
  (recorded.1, finish_with recorded.2 (λ _, Done (Ok BlobCreated))).

(** [uuid] is what [Uuid::new_v4] returns, where the step asks for one. *)
Definition resume (state : ArtifactState) (uuid : string) (task : Task) : ArtifactState * Progress :=
  match task with
  | StageWrite id block_id body =>
      let temporary := BlockTemporary (sha256_hex block_id) uuid in
      let '(new, result) := write_body id temporary body (maximum_entry_bytes (limits state)) (disk state) in
      (set_disk state new, finish_with result (λ size, Continue (StageRecord id block_id temporary size)))
  | StageRecord id block_id temporary size => end_with (record_block state id block_id temporary size)
  | ListCreate id blocks size =>
      let temporary := BlobTemporary uuid in
      if parent_exists id temporary (disk state)
      then (set_disk state (write_file id temporary "" (disk state)), Continue (ListCopy id blocks temporary size))
      else (state, Done (Err no_such_file))
  | ListCopy id (block :: blocks) temporary size =>
      match dk_files (disk state) !! (id, bk_path block) with
      | None => (state, Done (Err no_such_file))
      | Some content =>
          let new := alter (λ file, file +:+ content) (id, temporary) (dk_files (disk state)) in
          (set_disk state (disk state <| dk_files := new |>), Continue (ListCopy id blocks temporary size))
      end
  | ListCopy id [] temporary size =>
      match rename_file id temporary BlobFile (disk state) with
      | None => (state, Done (Err no_such_file))
      | Some new => (set_disk state new, Continue (ListRecord id size))
      end
  | ListRecord id size =>
      match artifacts state !! id with
      | None => (state, Done (Err artifact_not_found))
      | Some artifact => (set_artifact state (committed size artifact), Continue (ListClean id))
      end
  | ListClean id => (set_disk state (remove_blocks id (disk state)), Done (Ok BlobCreated))
  | SingleWrite id old_size body =>
      let temporary := BlobTemporary uuid in
      let '(new, result) := write_body id temporary body (maximum_entry_bytes (limits state)) (disk state) in
      (set_disk state new, finish_with result (λ size, Continue (SingleRecord id old_size temporary size)))
  | SingleRecord id old_size temporary size => end_with (record_blob state id old_size temporary size)
  | FinalHash id expected_hash =>
      (state, finish_with (hash_blob state id expected_hash) (λ digest, Continue (FinalRecord id digest)))
  | FinalRecord id digest =>
      match artifacts state !! id with
      | None => (state, Done (Err artifact_not_found))
      | Some artifact =>
          (set_artifact state (artifact <| ar_finalized := true |> <| ar_digest := Some digest |>),
           Done (Ok (ArtifactFinalized (pretty id))))
      end
  | DeleteFiles id => (set_disk state (remove_directory id (disk state)), Done (Ok (ArtifactDeleted (pretty id))))
  end.

(** A request that runs alone. *)
Fixpoint run_task (fuel : nat) (uuid : string) (state : ArtifactState) (progress : Progress)
    : ArtifactState * response Response :=
  match progress, fuel with
  | Done result, _ => (state, result)
  | Continue _, 0 => (state, Panic)
  | Continue task, S fuel => let '(state, progress) := resume state uuid task in run_task fuel uuid state progress
  end.

Definition task_steps (task : Task) : nat :=
  match task with
  | StageWrite _ _ _ | SingleWrite _ _ _ | FinalHash _ _ => 2
  | StageRecord _ _ _ _ | SingleRecord _ _ _ _ | FinalRecord _ _ | DeleteFiles _ | ListClean _ => 1
  | ListRecord _ _ => 2
  | ListCopy _ blocks _ _ => length blocks + 3
  | ListCreate _ blocks _ => length blocks + 4
  end.

Definition serve (uuid : string) (state : ArtifactState) (request : Request) : ArtifactState * response Response :=
  let '(state, progress) := start state request in
  run_task (match progress with Continue task => task_steps task | Done _ => 0 end) uuid state progress.
End handlers.

(** * The artifact service: block lists

    [parse_block_list] reads back a list as clients write it: any text that
    holds no opening tag may stand before, between and after the elements. *)

(** ** Finding a tag *)

Lemma sfind_None_cons p c s : sfind p (String c s) = None → starts_with p (String c s) = false ∧ sfind p s = None.
Proof. cbn [sfind]. destruct (starts_with p (String c s)); [done|]. by destruct (sfind p s). Qed.

Lemma sfind_skip p c s : starts_with p (String c s) = false → sfind p (String c s) = S <$> sfind p s.
Proof. intros Hs. cbn [sfind]. rewrite Hs. by destruct (sfind p s). Qed.

(** A text whose first character occurs nowhere else in it is not found across
    the border before another such character. *)
Lemma sfind_border c q a r :
  free_of c q = true → sfind (String c q) a = None →
  sfind (String c q) (a +:+ String c r) = (λ i, slen a + i) <$> sfind (String c q) (String c r).
Proof.
  intros Hq. induction a as [|d a IH]; intros Ha.
  { rewrite sapp_nil_l. by destruct (sfind (String c q) (String c r)). }
  apply sfind_None_cons in Ha as [Hs Ha]. rewrite sapp_cons.
  assert (starts_with (String c q) (String d (a +:+ String c r)) = false) as Hn.
  { apply not_true_is_false. intros (x & Hx)%starts_with_true. rewrite sapp_cons in Hx. injection Hx as <- Hx.
    apply eq_true_false_abs in Hs; [done|]. apply starts_with_true. clear Hs Ha IH.
    revert a Hx; induction q as [|e q IHq]; intros a Hx; [by exists a|].
    apply free_of_cons in Hq as [He Hq]. destruct a as [|f a]; rewrite ?sapp_cons, ?sapp_nil_l in Hx; injection Hx as <- Hx; [done|].
    destruct (IHq Hq a Hx) as [y Hy]. rewrite sapp_cons in Hy. injection Hy as Hy. exists y. by rewrite Hy, !sapp_cons. }
  rewrite sfind_skip, IH by done. by destruct (sfind (String c q) (String c r)).
Qed.

Definition tag_free (s : string) : Prop := ∀ tag, tag ∈ block_tags → sfind ("<" +:+ tag +:+ ">") s = None.

#[export] Instance tag_free_dec s : Decision (tag_free s).
Proof.
  destruct (decide (Forall (λ tag, sfind ("<" +:+ tag +:+ ">") s = None) block_tags)) as [Hf|Hf]; [left|right].
  - exact (proj1 (Forall_forall _ _) Hf).
  - intros Hfree. exact (Hf (proj2 (Forall_forall _ _) Hfree)).
Defined.

Definition opening (tag : string) : string := "<" +:+ tag +:+ ">".
Definition closing (tag : string) : string := "</" +:+ tag +:+ ">".

Lemma next_tag_free s : tag_free s → next_tag s = None.
Proof.
  intros H. unfold next_tag, block_tags. cbn [foldl].
  rewrite (H "Latest"), (H "Uncommitted"), (H "Committed"); [done|..]; unfold block_tags; set_solver.
Qed.

(** Another tag is found only after this one. *)
Lemma other_tag gap tag other rest :
  tag ∈ block_tags → other ∈ block_tags → other ≠ tag → sfind (opening other) gap = None →
  sfind (opening other) (gap +:+ opening tag +:+ rest) = None ∨
  ∃ i, sfind (opening other) (gap +:+ opening tag +:+ rest) = Some i ∧ slen gap < i.
Proof.
  intros Ht Ho Hne Hgap. assert (starts_with (opening other) (opening tag +:+ rest) = false) as Hs.
  { unfold block_tags in *. set_unfold. naive_solver. }
  assert (∃ q, opening other = String "<" q ∧ free_of "<" q = true) as (q & Hq & Hfree).
  { exists (other +:+ ">"). split; [done|]. unfold block_tags in Ho. set_unfold. naive_solver. }
  assert (∃ r, opening tag +:+ rest = String "<" r) as (r & Hr) by by eexists.
  rewrite Hq in Hgap, Hs |- *. rewrite Hr in Hs |- *. rewrite sfind_border, sfind_skip by done.
  destruct (sfind (String "<" q) r) as [i|]; [right|by left].
  eexists. split; [reflexivity|]. cbn. lia.
Qed.

Lemma this_tag gap tag rest :
  tag ∈ block_tags → sfind (opening tag) gap = None → sfind (opening tag) (gap +:+ opening tag +:+ rest) = Some (slen gap).
Proof.
  intros Ht Hgap. assert (free_of "<" (tag +:+ ">") = true) as Hfree.
  { unfold block_tags in Ht. set_unfold. naive_solver. }
  change (opening tag) with (String "<" (tag +:+ ">")) in *. rewrite sapp_cons. rewrite sfind_border by done.
  rewrite sfind_starts; [cbn; f_equal; lia|]. apply starts_with_true. by exists rest.
Qed.

Lemma next_tag_opening gap tag rest :
  tag ∈ block_tags → tag_free gap → next_tag (gap +:+ opening tag +:+ rest) = Some (slen gap, tag).
Proof.
  intros Ht Hgap. pose proof (this_tag gap tag rest Ht (Hgap tag Ht)) as Hthis.
  assert (∀ other, other ∈ block_tags → other ≠ tag → sfind (opening other) (gap +:+ opening tag +:+ rest) = None ∨
    ∃ i, sfind (opening other) (gap +:+ opening tag +:+ rest) = Some i ∧ slen gap < i) as Hother.
  { intros other Ho Hne. apply other_tag; try done. by apply Hgap. }
  unfold next_tag. generalize dependent (gap +:+ opening tag +:+ rest). intros s Hthis Hother.
  assert ("Latest" ∈ block_tags ∧ "Uncommitted" ∈ block_tags ∧ "Committed" ∈ block_tags) as (M1 & M2 & M3) by (unfold block_tags; set_solver).
  fold (opening "Latest") (opening "Uncommitted") (opening "Committed"). unfold block_tags in Ht |- *. cbn [foldl].
  fold (opening "Latest") (opening "Uncommitted") (opening "Committed").
  apply elem_of_cons in Ht as [->|Ht]; [|apply elem_of_cons in Ht as [->|Ht]; [|apply list_elem_of_singleton in Ht as ->]]; rewrite Hthis;
    repeat match goal with |- context [sfind (opening ?o) s] =>
      destruct (Hother o) as [->|(? & -> & ?)]; [done|done|..] end; cbn;
    repeat (case_bool_decide; try lia); done.
Qed.

(** ** Lists *)

(** A text without tags, a tag and the block it names. *)
Definition Element : Type := string * string * string.

Definition element_ok (element : Element) : Prop :=
  let '(gap, tag, block_id) := element in
  tag_free gap ∧ tag ∈ block_tags ∧ sfind (closing tag) block_id = None ∧ invalid_block_id block_id = false.

Fixpoint render_list (elements : list Element) (trailer : string) : string :=
  match elements with
  | [] => trailer
  | (gap, tag, block_id) :: elements => gap +:+ opening tag +:+ block_id +:+ closing tag +:+ render_list elements trailer
  end.

Lemma sfind_closing tag block_id rest :
  tag ∈ block_tags → sfind (closing tag) block_id = None → sfind (closing tag) (block_id +:+ closing tag +:+ rest) = Some (slen block_id).
Proof.
  intros Ht Hid. change (closing tag) with (String "<" ("/" +:+ tag +:+ ">")) in *.
  assert (free_of "<" ("/" +:+ tag +:+ ">") = true) as Hfree.
  { unfold block_tags in Ht. set_unfold. naive_solver. }
  rewrite (sapp_cons "<" ("/" +:+ tag +:+ ">") rest), sfind_border by done. rewrite sfind_starts; [cbn; f_equal; lia|]. apply starts_with_true. by exists rest.
Qed.

Lemma parse_rendered elements trailer : ∀ fuel blocks,
  Forall element_ok elements → tag_free trailer → length elements < fuel →
  parse_blocks fuel (render_list elements trailer) blocks = Ok (blocks ++ elements.*2).
Proof.
  induction elements as [|[[gap tag] block_id] elements IH]; intros fuel blocks He Ht Hf; destruct fuel as [|fuel]; try (simpl in Hf; lia).
  { cbn [parse_blocks render_list]. rewrite next_tag_free by done. by rewrite app_nil_r. }
  apply Forall_cons in He as [(Hgap & Htag & Hid & Hinv) He]. cbn [render_list parse_blocks].
  rewrite next_tag_opening by done.
  replace (slen gap + slen tag + 2) with (slen (gap +:+ opening tag)) by (unfold opening; rewrite !slen_app; change (slen "<") with 1; change (slen ">") with 1; lia).
  rewrite <-(sapp_assoc gap), sdrop_app_exact. fold (closing tag). rewrite sfind_closing by done.
  cbn [ok_or obind]. rewrite stake_app_exact, Hinv. cbn [reject_if obind].
  replace (slen (gap +:+ opening tag) + slen block_id + slen (closing tag)) with (slen ((gap +:+ opening tag) +:+ block_id +:+ closing tag)) by (rewrite !slen_app; lia).
  replace ((gap +:+ opening tag) +:+ block_id +:+ closing tag +:+ render_list elements trailer)
    with (((gap +:+ opening tag) +:+ block_id +:+ closing tag) +:+ render_list elements trailer) by (rewrite !sapp_assoc; done).
  rewrite sdrop_app_exact, IH; [by rewrite <-app_assoc|done|done|simpl in Hf; lia].
Qed.

Lemma render_length elements trailer : length elements ≤ slen (render_list elements trailer).
Proof.
  induction elements as [|[[gap tag] block_id] elements IH]; [simpl; lia|]. cbn [render_list length].
  rewrite !slen_app. unfold opening at 1. rewrite slen_app. change (slen "<") with 1. lia.
Qed.

(** [parse_block_list] returns exactly the block ids of a list in the order
    they are written, whatever text without tags surrounds them; the loop ends. *)
Theorem block_list_roundtrip elements trailer :
  elements ≠ [] → Forall element_ok elements → tag_free trailer → valid_utf8 (render_list elements trailer) = true →
  parse_block_list (render_list elements trailer) = Ok elements.*2.
Proof.
  intros Hne He Ht Hutf. unfold parse_block_list. rewrite Hutf. cbn [negb reject_if obind].
  pose proof (render_length elements trailer). rewrite parse_rendered by (done || lia). simpl.
  by destruct elements.
Qed.
