(* ===== verification/ArtifactInv.v ===== *)
(** * The artifact service: its invariant

    Requests are events on a service whose tasks are suspended between the steps
    of their handlers.  What is finalized is intact, and stays as it is, as long
    as requests that write to the same artifact do not overlap. *)

From S2P Require Import Prelude RustStr UnixPath OrdMap Expression RustText Artifact.

(** ** Records *)

Lemma elem_of_artifact_values m a : a ∈ artifact_values m ↔ ∃ id, m !! id = Some a.
Proof.
  unfold artifact_values. rewrite list_elem_of_fmap. setoid_rewrite merge_sort_Permutation. split.
  - intros ([id a'] & -> & Hin%elem_of_map_to_list). eauto.
  - intros (id & Hid). exists (id, a). by rewrite elem_of_map_to_list.
Qed.

Lemma find_value_Some p m a : find_value p m = Some a → p a = true ∧ ∃ id, m !! id = Some a.
Proof.
  unfold find_value. intros Hh. apply head_Some_elem_of, list_elem_of_filter in Hh as [Hp Hin].
  by apply elem_of_artifact_values in Hin.
Qed.

(** ** The service *)

Record Service := mkService {
  sv_state : ArtifactState;
  sv_tasks : list Task;
}.

Inductive Event :=
  | Begin (request : Request)
  | Resume (n : nat) (uuid : string)
  | Abandon (n : nat).                 (** the connection of the request is closed *)

Section service.
Context `{AL : ArtifactLib}.

Definition pending (progress : Progress) (tasks : list Task) : list Task :=
  match progress with Continue task => task :: tasks | Done _ => tasks end.

Definition service_step (event : Event) (s : Service) : option Service :=
  match event with
  | Begin request =>
      let '(state, progress) := start (sv_state s) request in Some (mkService state (pending progress (sv_tasks s)))
  | Resume n uuid =>
      task ← sv_tasks s !! n;
      let '(state, progress) := resume (sv_state s) uuid task in
      Some (mkService state (pending progress (delete n (sv_tasks s))))
  | Abandon n => _ ← sv_tasks s !! n; Some (mkService (sv_state s) (delete n (sv_tasks s)))
  end.

(** ** Requests that do not get in each other's way *)

Definition staged_block (task : Task) : option string :=
  match task with StageWrite _ block_id _ | StageRecord _ block_id _ _ => Some block_id | _ => None end.

Definition is_delete (task : Task) : bool := match task with DeleteFiles _ => true | _ => false end.

(** On one artifact only uploads of different blocks overlap, and a deletion
    with anything. *)
Definition compatible (t1 t2 : Task) : Prop :=
  task_id t1 ≠ task_id t2 ∨ is_delete t1 = true ∨ is_delete t2 = true ∨
  ∃ b1 b2, staged_block t1 = Some b1 ∧ staged_block t2 = Some b2 ∧ sha256_hex b1 ≠ sha256_hex b2.

Fixpoint pairwise_compatible (tasks : list Task) : Prop :=
  match tasks with
  | [] => True
  | task :: tasks => Forall (compatible task) tasks ∧ pairwise_compatible tasks
  end.

(** No two blocks of an artifact have the same digest. *)
Definition no_collision (state : ArtifactState) (task : Task) : Prop :=
  ∀ block_id a, staged_block task = Some block_id → artifacts state !! task_id task = Some a →
  ∀ other block, ar_blocks a !! other = Some block → sha256_hex other = sha256_hex block_id → other = block_id.

Definition orderly (s : Service) : Prop :=
  pairwise_compatible (sv_tasks s) ∧ Forall (no_collision (sv_state s)) (sv_tasks s).

(** A commit is not abandoned between the renaming of its file and its record. *)
Definition abandons_rename (event : Event) (s : Service) : Prop :=
  ∃ n id size, event = Abandon n ∧ sv_tasks s !! n = Some (ListRecord id size).

Inductive orderly_run (s : Service) : list Event → Service → Prop :=
  | run_nil : orderly_run s [] s
  | run_step events s1 event s2 : orderly_run s events s1 → service_step event s1 = Some s2 →
      orderly s2 → ¬ abandons_rename event s1 → orderly_run s (events ++ [event]) s2.

Lemma orderly_run_app s events events' s' :
  orderly_run s (events ++ events') s' → ∃ s1, orderly_run s events s1 ∧ orderly_run s1 events' s'.
Proof.
  revert s'; induction events' as [|event events' IH] using rev_ind; intros s' Hrun.
  { rewrite app_nil_r in Hrun. eexists. split; [done|constructor]. }
  rewrite app_assoc in Hrun. inversion Hrun as [Heq|es s1 e s2 H1 H2 H3 H4 Heq]; subst.
  { by destruct (events ++ events'). }
  apply app_inj_tail in Heq as [-> ->]. destruct (IH _ H1) as (s0 & H5 & H6).
  exists s0. split; [done|]. by econstructor.
Qed.

Lemma compatible_sym t1 t2 : compatible t1 t2 → compatible t2 t1.
Proof.
  unfold compatible. intros [H|[H|[H|(b1 & b2 & H1 & H2 & H3)]]]; eauto.
  right; right; right. exists b2, b1. auto.
Qed.

Lemma pairwise_delete n task tasks :
  pairwise_compatible tasks → tasks !! n = Some task →
  pairwise_compatible (delete n tasks) ∧ Forall (compatible task) (delete n tasks).
Proof.
  revert n; induction tasks as [|t tasks IH]; intros n Hpc Hn; [done|]. destruct Hpc as [Ht Hp].
  destruct n as [|n]; [by simplify_eq/=|]. simpl in Hn |- *. destruct (IH n Hp Hn) as [H1 H2]. split; [split|].
  - by apply Forall_delete.
  - done.
  - constructor; [|done]. apply compatible_sym. by eapply Forall_lookup_1.
Qed.

Lemma elem_of_delete_list (n : nat) (task : Task) (tasks : list Task) : task ∈ delete n tasks → task ∈ tasks.
Proof.
  intros H. eapply elem_of_submseteq; [exact H|apply submseteq_delete].
Qed.

(** ** The invariant *)

Notation Files := (gmap (Z * FileName) string).

(** [name] of artifact [id] holds a content of this length. *)
Definition holds (files : Files) (id : Z) (name : FileName) (size : Z) : Prop :=
  ∃ content, files !! (id, name) = Some content ∧ Z.of_nat (slen content) = size.

Definition block_on_disk (files : Files) (id : Z) (block : Block) : Prop :=
  (∃ digest, bk_path block = BlockFile digest) ∧ holds files id (bk_path block) (bk_size block).

Definition total (blocks : list Block) : Z := foldr (λ block sum, bk_size block + sum)%Z 0%Z blocks.

Definition is_record (task : Task) : bool := match task with ListRecord _ _ => true | _ => false end.

(** A commit has renamed its file and is about to be recorded. *)
Definition recording (tasks : list Task) : Prop := ∃ t, t ∈ tasks ∧ is_record t = true.

Record record_ok (files : Files) (tasks : list Task) (id : Z) (a : ArtifactRecord) : Prop := {
  ro_id : ar_id a = id;
  ro_blocks block_id block : ar_blocks a !! block_id = Some block →
    bk_path block = BlockFile (sha256_hex block_id) ∧ block_on_disk files id block;
  ro_blob : ar_blob_committed a = true → ¬ recording tasks → holds files id BlobFile (ar_size a);
  ro_final : ar_finalized a = true → ar_blob_committed a = true ∧ ¬ recording tasks ∧
    ∃ content, files !! (id, BlobFile) = Some content ∧ ar_digest a = Some ("sha256:" +:+ sha256_hex content);
}.

Definition task_ok (files : Files) (id : Z) (a : ArtifactRecord) (task : Task) : Prop :=
  ar_finalized a = false ∧
  match task with
  | StageWrite _ _ _ | SingleWrite _ _ _ => True
  | StageRecord _ block_id temporary size =>
      (∃ uuid, temporary = BlockTemporary (sha256_hex block_id) uuid) ∧ holds files id temporary size
  | ListCreate _ blocks size => Forall (block_on_disk files id) blocks ∧ total blocks = size
  | ListCopy _ blocks temporary size =>
      Forall (block_on_disk files id) blocks ∧ (∃ uuid, temporary = BlobTemporary uuid) ∧
      holds files id temporary (size - total blocks)
  | ListRecord _ size => holds files id BlobFile size
  | ListClean _ => ar_blocks a = ∅
  | SingleRecord _ _ temporary size => (∃ uuid, temporary = BlobTemporary uuid) ∧ holds files id temporary size
  | FinalHash _ _ => ar_blob_committed a = true
  | FinalRecord _ digest => ar_blob_committed a = true ∧
      ∃ content, files !! (id, BlobFile) = Some content ∧ digest = "sha256:" +:+ sha256_hex content
  | DeleteFiles _ => False
  end.

(** What holds of one artifact: it reads only that artifact's record, files and
    tasks. *)
Definition tasks_of (id : Z) (tasks : list Task) : list Task := base.filter (λ t, task_id t = id) tasks.

Definition local_ok (files : Files) (tasks : list Task) (id : Z) (a : ArtifactRecord) : Prop :=
  record_ok files tasks id a ∧ Forall (task_ok files id a) tasks.

Definition files (state : ArtifactState) : Files := dk_files (disk state).

Definition artifacts_ok (state : ArtifactState) (tasks : list Task) : Prop :=
  ∀ id a, artifacts state !! id = Some a → local_ok (files state) (tasks_of id tasks) id a.

(** Ids below the next one, which is [count], and names are unique. *)
Record service_ok (count : Z) (state : ArtifactState) (tasks : list Task) : Prop := {
  so_next : next_id state = count;
  so_artifacts id a : artifacts state !! id = Some a → (id < count)%Z;
  so_tasks task : task ∈ tasks → (task_id task < count)%Z;
  so_names id id' a a' : artifacts state !! id = Some a → artifacts state !! id' = Some a' →
    ar_name a = ar_name a' → id = id';
  so_local : artifacts_ok state tasks;
}.

(** ** Tasks of one artifact *)

Lemma tasks_of_delete (id : Z) (n : nat) (task : Task) (tasks : list Task) : tasks !! n = Some task →
  if decide (task_id task = id) then tasks_of id tasks ≡ₚ task :: tasks_of id (delete n tasks)
  else tasks_of id (delete n tasks) = tasks_of id tasks.
Proof.
  intros (l1 & l2 & -> & ->)%list_elem_of_split_length. unfold tasks_of. rewrite delete_middle, !filter_app, filter_cons.
  destruct (decide (task_id task = id)); [|done]. by rewrite Permutation_middle.
Qed.

Lemma recording_perm tasks tasks' : tasks ≡ₚ tasks' → recording tasks ↔ recording tasks'.
Proof. intros Hp. unfold recording. by setoid_rewrite Hp. Qed.

Lemma local_ok_perm files tasks tasks' id a : tasks ≡ₚ tasks' → local_ok files tasks id a → local_ok files tasks' id a.
Proof.
  intros Hp [[H1 H2 H3 H4] Ht]. split; [split; try done|].
  - rewrite <-(recording_perm _ _ Hp). done.
  - rewrite <-(recording_perm _ _ Hp). done.
  - by rewrite <-Hp.
Qed.

(** Nothing else reads the names a step writes. *)
Lemma holds_frame f f' id name size : f' !! (id, name) = f !! (id, name) → holds f id name size → holds f' id name size.
Proof. unfold holds. by intros ->. Qed.

Lemma block_frame f f' id block :
  (∀ digest, f' !! (id, BlockFile digest) = f !! (id, BlockFile digest)) → block_on_disk f id block → block_on_disk f' id block.
Proof. intros Hf [[d Hd] Hb]. split; [by exists d|]. eapply holds_frame; [|done]. by rewrite Hd. Qed.

Lemma task_frame f f' id a task :
  (∀ name, f' !! (id, name) = f !! (id, name)) → task_ok f id a task → task_ok f' id a task.
Proof.
  intros Hf [Hfin H]. split; [done|]. destruct task; simpl in *;
    try (destruct_and?; split_and?; eauto using holds_frame; try (eapply Forall_impl; [done|]; intros; eapply block_frame; eauto)).
  by setoid_rewrite Hf.
Qed.

Lemma local_frame f f' tasks id a :
  (∀ name, f' !! (id, name) = f !! (id, name)) → local_ok f tasks id a → local_ok f' tasks id a.
Proof.
  intros Hf [[H1 H2 H3 H4] Ht]. split; [split; try done|].
  - intros b block Hb. destruct (H2 b block Hb) as [? ?]. split; [done|]. by eapply block_frame; eauto.
  - intros ? ?. eapply holds_frame; [apply Hf|]. auto.
  - by setoid_rewrite Hf.
  - eapply Forall_impl; [done|]. intros. by eapply task_frame.
Qed.

Lemma record_frame f f' tasks tasks' id a :
  (∀ digest, f' !! (id, BlockFile digest) = f !! (id, BlockFile digest)) → f' !! (id, BlobFile) = f !! (id, BlobFile) →
  (recording tasks' ↔ recording tasks) → record_ok f tasks id a → record_ok f' tasks' id a.
Proof.
  intros Hd Hb Hr [H1 H2 H3 H4]. split; [done| | |].
  - intros b block Hbl. destruct (H2 b block Hbl) as [? ?]. split; [done|]. by eapply block_frame; eauto.
  - intros ? ?. eapply holds_frame; [apply Hb|]. naive_solver.
  - rewrite Hb, Hr. done.
Qed.

Lemma recording_nil : ¬ recording [].
Proof. intros (t & Hin & _). by apply elem_of_nil in Hin. Qed.

Lemma recording_cons t tasks : is_record t = false → recording (t :: tasks) ↔ recording tasks.
Proof.
  intros Ht. unfold recording. split; intros (x & Hin & Hx); exists x; (split; [|done]).
  - apply elem_of_cons in Hin as [->|Hin]; [congruence|done].
  - by right.
Qed.

Lemma staged_not_recording tasks : Forall (λ t, is_Some (staged_block t)) tasks → ¬ recording tasks.
Proof. intros Hs (t & Hin & Ht). rewrite Forall_forall in Hs. destruct (Hs t Hin). by destruct t. Qed.

(** The other tasks of the artifact of a task. *)
Lemma others_alone f id a task ts :
  Forall (task_ok f id a) (task :: ts) → Forall (λ t, task_id t = task_id task) ts → Forall (compatible task) ts →
  staged_block task = None → ts = [].
Proof.
  intros [Ht Hts]%Forall_cons Hid Hc Hs. destruct ts as [|t ts]; [done|]. exfalso.
  apply Forall_cons in Hts as [Ht' _]. apply Forall_cons in Hid as [Hid _]. apply Forall_cons in Hc as [Hc _].
  destruct Hc as [Hc|[Hc|[Hc|(b1 & b2 & Hc & _)]]]; [congruence| | |congruence].
  - destruct task; try done. by destruct Ht.
  - destruct t; try done. by destruct Ht'.
Qed.

Lemma others_staged f id a task ts block_id :
  Forall (task_ok f id a) (task :: ts) → Forall (λ t, task_id t = task_id task) ts → Forall (compatible task) ts →
  staged_block task = Some block_id →
  Forall (λ t, ∃ b, staged_block t = Some b ∧ sha256_hex b ≠ sha256_hex block_id) ts.
Proof.
  intros [Ht Hts]%Forall_cons Hid Hc Hs. rewrite Forall_forall in *. intros t Hin.
  destruct (Hc t Hin) as [H|[H|[H|(b1 & b2 & H1 & H2 & H3)]]].
  - by rewrite (Hid t Hin) in H.
  - by destruct task.
  - destruct t; try done. by destruct (Hts _ Hin).
  - exists b2. rewrite Hs in H1. injection H1 as ->. auto.
Qed.

(** Staged blocks do not read the file of another one. *)
Lemma staged_frame f f' id a t block_id b :
  (∀ digest uuid, digest ≠ sha256_hex block_id → f' !! (id, BlockTemporary digest uuid) = f !! (id, BlockTemporary digest uuid)) →
  staged_block t = Some b → sha256_hex b ≠ sha256_hex block_id → task_ok f id a t → task_ok f' id a t.
Proof.
  intros Hf Hb Hne [Hfin H]. split; [done|]. destruct t; try done. simplify_eq/=. destruct H as [[u ->] H].
  split; [by eexists|]. eapply holds_frame; [|done]. by apply Hf.
Qed.

Lemma staged_record_frame f id a a' t : ar_finalized a' = ar_finalized a →
  is_Some (staged_block t) → task_ok f id a t → task_ok f id a' t.
Proof. intros Hf [b Hb] [Hfin H]. split; [congruence|]. by destruct t. Qed.

Lemma write_chunks_size body maximum size file f result :
  write_chunks body maximum size file = (f, Ok result) → Z.of_nat (slen file) = size →
  ∃ content, f = Some content ∧ Z.of_nat (slen content) = result.
Proof.
  revert size file; induction body as [|[chunk|] body IH]; intros size file; cbn [write_chunks]; [|case_bool_decide; [done|]; case_bool_decide; [done|]|done].
  - intros [= <- <-]. eauto.
  - intros Hw Hs. eapply IH; [exact Hw|]. rewrite slen_app. lia.
Qed.

Lemma body_file_spec id name body maximum d d' result :
  write_body id name body maximum d = (d', result) →
  (∀ key, key ≠ (id, name) → dk_files d' !! key = dk_files d !! key) ∧
  (∀ size, result = Ok size → holds (dk_files d') id name size).
Proof.
  unfold write_body. destruct (parent_exists id name d); [|by intros [= <- <-]].
  destruct (write_chunks body maximum 0 "") as [f r] eqn:Hw. intros [= <- <-]. split.
  - intros key Hk. destruct f; simpl; [by rewrite lookup_insert_ne|by rewrite lookup_delete_ne].
  - intros size ->. apply write_chunks_size in Hw as (content & -> & Hl); [|done].
    exists content. simpl. by rewrite lookup_insert_eq.
Qed.
End service.

(** * The artifact service: its steps keep the invariant *)

Section steps.
Context `{AL : ArtifactLib}.

(** ** A step on one artifact *)

(** What a step leaves: the record of the artifact and its tasks. *)
Definition after (id : Z) (a : ArtifactRecord) (ts : list Task) (state' : ArtifactState) (progress : Progress) : Prop :=
  ∃ a', artifacts state' !! id = Some a' ∧ ar_name a' = ar_name a ∧
    local_ok (files state') (pending progress ts) id a'.

Lemma after_done state state' id a ts (result : response Response) :
  artifacts state' !! id = Some a → (∀ name, in_blocks name = false ∧ name = BlobFile ∨ (∃ d, name = BlockFile d) →
    files state' !! (id, name) = files state !! (id, name)) →
  local_ok (files state) ts id a → Forall (task_ok (files state') id a) ts → after id a ts state' (Done result).
Proof.
  intros Ha Hf [Hr _] Ht. exists a. split_and!; [done..|]. split; [|done].
  eapply record_frame; [| |done|exact Hr]; [intros d|]; apply Hf; eauto.
Qed.

(** Dropping a task that is not about to record. *)
Lemma drop_local f task ts id a :
  local_ok f (task :: ts) id a → is_record task = false → local_ok f ts id a.
Proof.
  intros [Hr Hts] Ht. apply Forall_cons in Hts as [_ Hts]. split; [|done].
  eapply record_frame; [done..| |exact Hr]. by rewrite recording_cons.
Qed.

Lemma stage_write_step state id block_id body uuid a ts state' progress :
  artifacts state !! id = Some a → local_ok (files state) (StageWrite id block_id body :: ts) id a →
  Forall (λ t, task_id t = id) ts → Forall (compatible (StageWrite id block_id body)) ts →
  resume state uuid (StageWrite id block_id body) = (state', progress) → after id a ts state' progress.
Proof.
  intros Ha Hl Hid Hc. cbn [resume].
  destruct (write_body _ _ _ _ _) as [new result] eqn:Hw. intros [= <- <-].
  apply body_file_spec in Hw as [Hf Hs].
  pose proof (others_staged _ _ _ _ _ _ (proj2 Hl) Hid Hc eq_refl) as Ho.
  pose proof (drop_local _ _ _ _ _ Hl eq_refl) as [Hr Hts]. destruct Hl as [_ [Hfin _]%Forall_cons].
  assert (Forall (task_ok (dk_files new) id a) ts) as Hts'.
  { rewrite Forall_forall in *. intros t Hin. destruct (Ho t Hin) as (b & Hb & Hne).
    eapply staged_frame; [|exact Hb|exact Hne|by apply Hts]. intros d u Hd. apply Hf. congruence. }
  assert (record_ok (dk_files new) ts id a) as Hr'.
  { eapply record_frame; [| |done|exact Hr]; intros; apply Hf; congruence. }
  exists a. split_and!; [done..|]. destruct result as [size| |]; simpl; [|by split..].
  split; [|constructor; [|done]].
  - eapply record_frame; [done..| |exact Hr']. by apply recording_cons.
  - split; [apply Hfin|]. split; [by eexists|]. by apply Hs.
Qed.

Lemma rename_file_spec id from to d d' :
  rename_file id from to d = Some d' → from ≠ to →
  ∃ content, dk_files d !! (id, from) = Some content ∧ dk_files d' !! (id, to) = Some content ∧
    ∀ key, key ≠ (id, from) → key ≠ (id, to) → dk_files d' !! key = dk_files d !! key.
Proof.
  unfold rename_file. destruct (dk_files d !! (id, from)) as [content|] eqn:Hc; simpl; [|done]. intros [= <-] Hne.
  exists content. simpl. rewrite lookup_insert_eq. split_and!; [done..|]. intros key H1 H2.
  by rewrite lookup_insert_ne, lookup_delete_ne.
Qed.

Lemma rename_holds id from to d d' size :
  rename_file id from to d = Some d' → from ≠ to → holds (dk_files d) id from size → holds (dk_files d') id to size.
Proof.
  intros Hr Hne (c & Hc & Hl). destruct (rename_file_spec _ _ _ _ _ Hr Hne) as (c' & Hc' & Ht & _).
  exists c. split; [congruence|done].
Qed.

(** A failed step that leaves the files but for a temporary one of its own. *)
Lemma staged_failed f f' id a ts block_id :
  Forall (λ t, ∃ b, staged_block t = Some b ∧ sha256_hex b ≠ sha256_hex block_id) ts →
  (∀ key, (∀ uuid, key ≠ (id, BlockTemporary (sha256_hex block_id) uuid)) → f' !! key = f !! key) →
  local_ok f ts id a → local_ok f' ts id a.
Proof.
  intros Ho Hf [Hr Hts]. split.
  - eapply record_frame; [| |done|exact Hr]; intros; apply Hf; congruence.
  - rewrite Forall_forall in *. intros t Hin. destruct (Ho t Hin) as (b & Hb & Hne).
    eapply staged_frame; [|exact Hb|exact Hne|by apply Hts]. intros d u Hd. apply Hf. congruence.
Qed.

Lemma stage_record_step state id block_id temporary size uuid a ts state' progress :
  artifacts state !! id = Some a → local_ok (files state) (StageRecord id block_id temporary size :: ts) id a →
  Forall (λ t, task_id t = id) ts → Forall (compatible (StageRecord id block_id temporary size)) ts →
  no_collision state (StageRecord id block_id temporary size) →
  resume state uuid (StageRecord id block_id temporary size) = (state', progress) → after id a ts state' progress.
Proof.
  intros Ha Hl Hid Hc Hcol. cbn [resume]. unfold end_with, record_block. rewrite Ha.
  pose proof (others_staged _ _ _ _ _ _ (proj2 Hl) Hid Hc eq_refl) as Ho.
  pose proof (drop_local _ _ _ _ _ Hl eq_refl) as Hl'.
  destruct Hl as [_ [(Hfin & [u ->] & Hh) _]%Forall_cons].
  case_match.
  { intros [= <- <-]. exists a. split_and!; [done..|]. eapply staged_failed; [exact Ho| |exact Hl'].
    intros key Hk. unfold files; simpl. by rewrite lookup_delete_ne by auto. }
  destruct (rename_file _ _ _ _) as [new|] eqn:Hr; intros [= <- <-]; [|by exists a].
  assert (ar_id a = id) as Hida by (by destruct Hl' as [[]]).
  eexists. simpl. rewrite Hida, lookup_insert_eq. split_and!; [done..|]. unfold files; simpl.
  pose proof (rename_holds _ _ _ _ _ _ Hr (ltac:(done)) Hh) as Hh'.
  apply rename_file_spec in Hr as (c & _ & _ & Hf); [|done].
  destruct Hl' as [[H1 H2 H3 H4] Hts]. split; [split|].
  - done.
  - intros b block. simpl. rewrite lookup_insert_Some. intros [[<- <-]|[Hne Hb]].
    + split; [done|]. split; [by eexists|]. done.
    + destruct (H2 b block Hb) as [Hp [Hd Hon]]. split; [done|]. split; [done|].
      eapply holds_frame; [|done]. rewrite Hp. apply Hf; [done|]. intros [= Heq].
      apply Hne. symmetry. by eapply Hcol.
  - simpl. intros Hcm _. eapply holds_frame; [by apply Hf|]. apply H3; [done|]. apply staged_not_recording.
    eapply Forall_impl; [exact Ho|]. intros t (b & -> & _). by eexists.
  - simpl. congruence.
  - rewrite Forall_forall in *. intros t Hin. destruct (Ho t Hin) as (b & Hb & Hne).
    eapply staged_record_frame with a; [done|by eexists|]. eapply staged_frame; [|exact Hb|exact Hne|by apply Hts].
    intros d u' Hd. apply Hf; congruence.
Qed.

(** ** Tasks that have their artifact to themselves *)

Lemma local_alone f t id a : is_record t = false → record_ok f [] id a → task_ok f id a t → local_ok f [t] id a.
Proof.
  intros Ht Hr Hok. split; [|by constructor]. eapply record_frame; [done..| |exact Hr]. by apply recording_cons.
Qed.

Lemma local_done f id a : record_ok f [] id a → local_ok f [] id a.
Proof. intros Hr. by split. Qed.

Lemma local_alone_inv f t id a : local_ok f [t] id a → is_record t = false → record_ok f [] id a ∧ task_ok f id a t.
Proof. intros Hl Ht. split; [by apply (drop_local _ _ _ _ _ Hl)|]. by destruct Hl as [_ [? _]%Forall_cons]. Qed.

(** The blocks and the blob are where they were. *)
Lemma record_temporary f f' id a :
  (∀ key, (∀ uuid, key ≠ (id, BlobTemporary uuid)) → f' !! key = f !! key) → record_ok f [] id a → record_ok f' [] id a.
Proof. intros Hf Hr. eapply record_frame; [| |done|exact Hr]; intros; apply Hf; congruence. Qed.

Lemma blocks_temporary f f' id blocks :
  (∀ key, (∀ uuid, key ≠ (id, BlobTemporary uuid)) → f' !! key = f !! key) →
  Forall (block_on_disk f id) blocks → Forall (block_on_disk f' id) blocks.
Proof.
  intros Hf Hb. eapply Forall_impl; [exact Hb|]. intros block. apply block_frame. intros; apply Hf; congruence.
Qed.

(** A new blob under an open record. *)
Lemma record_new_blob f f' id a size :
  (∀ key, key ≠ (id, BlobFile) → (∀ uuid, key ≠ (id, BlobTemporary uuid)) → f' !! key = f !! key) →
  record_ok f [] id a → ar_finalized a = false → holds f' id BlobFile size → record_ok f' [] id (committed size a).
Proof.
  intros Hf [H1 H2 H3 H4] Hfin Hh. split; simpl; [done|..].
  - intros b block. by rewrite lookup_empty.
  - done.
  - congruence.
Qed.

Lemma list_create_step state id blocks size uuid a state' progress :
  artifacts state !! id = Some a → local_ok (files state) [ListCreate id blocks size] id a →
  resume state uuid (ListCreate id blocks size) = (state', progress) → after id a [] state' progress.
Proof.
  intros Ha [Hr (Hfin & Hb & Ht)]%local_alone_inv; [|done]. cbn [resume].
  destruct (parent_exists _ _ _); intros [= <- <-]; exists a; (split_and!; [done..|]); [|by apply local_done].
  assert (∀ key, (∀ u, key ≠ (id, BlobTemporary u)) →
    <[(id, BlobTemporary uuid):=""]> (dk_files (disk state)) !! key = files state !! key) as Hf
    by (intros; by rewrite lookup_insert_ne by auto).
  apply local_alone; [done| |].
  - by eapply record_temporary.
  - split; [done|]. split_and!; [by eapply blocks_temporary|by eexists|]. exists "". split; [by apply lookup_insert_eq|].
    change (slen "") with 0. lia.
Qed.

Lemma list_copy_step state id block blocks temporary size uuid a state' progress :
  artifacts state !! id = Some a → local_ok (files state) [ListCopy id (block :: blocks) temporary size] id a →
  resume state uuid (ListCopy id (block :: blocks) temporary size) = (state', progress) → after id a [] state' progress.
Proof.
  intros Ha [Hr (Hfin & [Hb Hbs]%Forall_cons & [u ->] & c & Hc & Hl)]%local_alone_inv; [|done]. cbn [resume].
  destruct Hb as [_ (content & Hct & Hcl)]. unfold files in Hct. rewrite Hct. intros [= <- <-]. exists a. split_and!; try done.
  assert (∀ key, (∀ u', key ≠ (id, BlobTemporary u')) →
    alter (λ file, file +:+ content) (id, BlobTemporary u) (dk_files (disk state)) !! key = files state !! key) as Hf
    by (intros; by rewrite lookup_alter_ne by auto).
  apply local_alone; [done| |].
  - by eapply record_temporary.
  - split; [done|]. split_and!; [by eapply blocks_temporary|by eexists|]. exists (c +:+ content).
    unfold files in Hc |- *. simpl. rewrite lookup_alter_eq, Hc. split; [done|]. rewrite slen_app. simpl in Hl. lia.
Qed.

Lemma list_rename_step state id temporary size uuid a state' progress :
  artifacts state !! id = Some a → local_ok (files state) [ListCopy id [] temporary size] id a →
  resume state uuid (ListCopy id [] temporary size) = (state', progress) → after id a [] state' progress.
Proof.
  intros Ha [Hr (Hfin & _ & [u ->] & Hh)]%local_alone_inv; [|done]. cbn [resume].
  destruct (rename_file _ _ _ _) as [new|] eqn:Hn; intros [= <- <-]; exists a; (split_and!; [done..|]); [|by apply local_done].
  pose proof (rename_holds _ _ _ _ _ _ Hn (ltac:(done)) Hh) as Hh'.
  apply rename_file_spec in Hn as (c & _ & _ & Hf); [|done]. destruct Hr as [H1 H2 H3 H4].
  split; [split|constructor; [|done]].
  - done.
  - intros b block Hb. destruct (H2 b block Hb) as [? ?]. split; [done|]. eapply block_frame; [|done]. intros; by apply Hf.
  - intros _ []. eexists. split; [by left|done].
  - congruence.
  - split; [done|]. simpl in Hh'. replace size with (size - 0)%Z by lia. done.
Qed.

Lemma list_record_step state id size uuid a state' progress :
  artifacts state !! id = Some a → local_ok (files state) [ListRecord id size] id a →
  resume state uuid (ListRecord id size) = (state', progress) → after id a [] state' progress.
Proof.
  intros Ha [[H1 H2 H3 H4] [(Hfin & Hh) _]%Forall_cons]. cbn [resume]. rewrite Ha. intros [= <- <-].
  eexists. simpl. rewrite H1, lookup_insert_eq. split_and!; [done..|].
  apply local_alone; [done| |done]. split; simpl; [done|..].
  - intros b block. by rewrite lookup_empty.
  - done.
  - congruence.
Qed.

Lemma list_clean_step state id uuid a state' progress :
  artifacts state !! id = Some a → local_ok (files state) [ListClean id] id a →
  resume state uuid (ListClean id) = (state', progress) → after id a [] state' progress.
Proof.
  intros Ha [[H1 H2 H3 H4] (Hfin & He)]%local_alone_inv; [|done]. intros [= <- <-]. exists a. split_and!; [done..|].
  simpl in He. apply local_done. split; [done| | |].
  - intros b block. by rewrite He, lookup_empty.
  - intros Hcm Hno. destruct (H3 Hcm Hno) as (c & Hc & Hl). exists c. split; [|done].
    unfold files in *. simpl. apply map_lookup_filter_Some. split; [done|]. by intros [_ ?].
  - congruence.
Qed.

Lemma single_write_step state id old_size body uuid a state' progress :
  artifacts state !! id = Some a → local_ok (files state) [SingleWrite id old_size body] id a →
  resume state uuid (SingleWrite id old_size body) = (state', progress) → after id a [] state' progress.
Proof.
  intros Ha [Hr (Hfin & _)]%local_alone_inv; [|done]. cbn [resume].
  destruct (write_body _ _ _ _ _) as [new result] eqn:Hw. intros [= <- <-].
  apply body_file_spec in Hw as [Hf Hs]. exists a. split_and!; [done..|].
  assert (record_ok (dk_files new) [] id a) as Hr'.
  { eapply record_temporary; [|exact Hr]. intros key Hk. apply Hf, Hk. }
  destruct result as [size| |]; simpl; [|by apply local_done..].
  apply local_alone; [done..|]. split; [done|]. split; [by eexists|]. by apply Hs.
Qed.

Lemma single_record_step state id old_size temporary size uuid a state' progress :
  artifacts state !! id = Some a → local_ok (files state) [SingleRecord id old_size temporary size] id a →
  resume state uuid (SingleRecord id old_size temporary size) = (state', progress) → after id a [] state' progress.
Proof.
  intros Ha [Hr (Hfin & [u ->] & Hh)]%local_alone_inv; [|done]. cbn [resume]. unfold end_with, record_blob.
  case_match.
  { intros [= <- <-]. exists a. split_and!; [done..|]. apply local_done. eapply record_temporary; [|exact Hr].
    intros key Hk. unfold files; simpl. by rewrite lookup_delete_ne by auto. }
  destruct (rename_file _ _ _ _) as [new|] eqn:Hn.
  2:{ intros [= <- <-]. exists a. split_and!; [done..|]. by apply local_done. }
  simpl. rewrite Ha. intros [= <- <-].
  pose proof (rename_holds _ _ _ _ _ _ Hn (ltac:(done)) Hh) as Hh'.
  apply rename_file_spec in Hn as (c & _ & _ & Hf); [|done].
  exists (committed size a). simpl. rewrite (ro_id _ _ _ _ Hr), lookup_insert_eq. split_and!; [done..|].
  apply local_done. eapply record_new_blob; [|exact Hr|done|done]. intros key H1 H2. by apply Hf.
Qed.

Lemma final_hash_step state id expected uuid a state' progress :
  artifacts state !! id = Some a → local_ok (files state) [FinalHash id expected] id a →
  resume state uuid (FinalHash id expected) = (state', progress) → after id a [] state' progress.
Proof.
  intros Ha [Hr (Hfin & Hcm)]%local_alone_inv; [|done]. intros [= <- <-]. exists a. split_and!; [done..|].
  destruct (hash_blob state id expected) as [digest| |] eqn:Hh; simpl; [|by apply local_done..].
  apply local_alone; [done..|]. split; [done|]. split; [done|].
  unfold hash_blob in Hh. ok_inv. eauto.
Qed.

Lemma final_record_step state id digest uuid a state' progress :
  artifacts state !! id = Some a → local_ok (files state) [FinalRecord id digest] id a →
  resume state uuid (FinalRecord id digest) = (state', progress) → after id a [] state' progress.
Proof.
  intros Ha [[H1 H2 H3 H4] (Hfin & Hcm & c & Hc & Hd)]%local_alone_inv; [|done]. cbn [resume]. rewrite Ha. intros [= <- <-].
  eexists. simpl. rewrite H1, lookup_insert_eq. split_and!; [done..|]. apply local_done.
  split; simpl; [done|done|done|]. intros _. split_and!; [done|by apply recording_nil|]. exists c. split; [done|]. by rewrite Hd.
Qed.

(** ** Any task *)

Lemma resume_after state uuid task ts a state' progress :
  artifacts state !! task_id task = Some a → local_ok (files state) (task :: ts) (task_id task) a →
  Forall (λ t, task_id t = task_id task) ts → Forall (compatible task) ts → no_collision state task →
  resume state uuid task = (state', progress) → after (task_id task) a ts state' progress.
Proof.
  intros Ha Hl Hid Hc Hcol Hr.
  destruct (staged_block task) as [block_id|] eqn:Hs.
  { destruct task; try done; [by eapply stage_write_step|by eapply stage_record_step]. }
  pose proof (others_alone _ _ _ _ _ (proj2 Hl) Hid Hc Hs) as ->.
  destruct task as [| | |? [|block blocks] ? ?| | | | | | |]; try done; cbn [task_id] in *.
  - by eapply list_create_step.
  - by eapply list_rename_step.
  - by eapply list_copy_step.
  - by eapply list_record_step.
  - by eapply list_clean_step.
  - by eapply single_write_step.
  - by eapply single_record_step.
  - by eapply final_hash_step.
  - by eapply final_record_step.
  - destruct Hl as [_ [[_ []] _]%Forall_cons].
Qed.

(** A task leaves the other artifacts alone. *)
Definition same_at (id : Z) (state state' : ArtifactState) : Prop :=
  artifacts state' !! id = artifacts state !! id ∧ ∀ name, files state' !! (id, name) = files state !! (id, name).

Lemma resume_other state uuid task state' progress id :
  (∀ a, artifacts state !! task_id task = Some a → ar_id a = task_id task) →
  resume state uuid task = (state', progress) → id ≠ task_id task → same_at id state state'.
Proof.
  intros Hid. unfold same_at, files. destruct task; cbn [resume task_id] in *; intros Hr Hne.
  - destruct (write_body _ _ _ _ _) as [new result] eqn:Hw. simplify_eq/=. apply body_file_spec in Hw as [Hf _].
    split; [done|]. intros. apply Hf. congruence.
  - unfold end_with, record_block in Hr. destruct (artifacts state !! id0) as [a|] eqn:Ha; [|by simplify_eq/=].
    specialize (Hid a eq_refl). case_match; simplify_eq/=.
    { split; [done|]. intros. rewrite lookup_delete_ne; congruence. }
    destruct (rename_file _ _ _ _) as [new|] eqn:Hn; simplify_eq/=; [|done].
    rewrite lookup_insert_ne by congruence. split; [done|]. intros.
    unfold rename_file in Hn. apply bind_Some in Hn as (? & _ & [= <-]). simpl.
    rewrite lookup_insert_ne, lookup_delete_ne; congruence.
  - case_match; simplify_eq/=; [|done]. split; [done|]. intros. rewrite lookup_insert_ne; congruence.
  - destruct blocks as [|block blocks].
    + destruct (rename_file _ _ _ _) as [new|] eqn:Hn; simplify_eq/=; [|done]. split; [done|]. intros.
      unfold rename_file in Hn. apply bind_Some in Hn as (? & _ & [= <-]). simpl.
      rewrite lookup_insert_ne, lookup_delete_ne; congruence.
    + case_match; simplify_eq/=; [|done]. split; [done|]. intros. rewrite lookup_alter_ne; congruence.
  - destruct (artifacts state !! id0) as [a|] eqn:Ha; simplify_eq/=; [|done]. specialize (Hid a eq_refl).
    rewrite lookup_insert_ne by congruence. done.
  - simplify_eq/=. split; [done|]. intros name. apply option_eq. intros c. rewrite map_lookup_filter_Some. naive_solver.
  - destruct (write_body _ _ _ _ _) as [new result] eqn:Hw. simplify_eq/=. apply body_file_spec in Hw as [Hf _].
    split; [done|]. intros. apply Hf. congruence.
  - unfold end_with, record_blob in Hr. case_match; simplify_eq/=.
    { split; [done|]. intros. rewrite lookup_delete_ne; congruence. }
    destruct (rename_file _ _ _ _) as [new|] eqn:Hn; simplify_eq/=; [|done].
    unfold rename_file in Hn. apply bind_Some in Hn as (? & _ & [= <-]).
    destruct (artifacts state !! id0) as [a|] eqn:Ha; simplify_eq/=; [|split; [done|]; intros; rewrite lookup_insert_ne, lookup_delete_ne; congruence].
    specialize (Hid a eq_refl). rewrite lookup_insert_ne by congruence. split; [done|]. intros.
    rewrite lookup_insert_ne, lookup_delete_ne; congruence.
  - by simplify_eq/=.
  - destruct (artifacts state !! id0) as [a|] eqn:Ha; simplify_eq/=; [|done]. specialize (Hid a eq_refl).
    rewrite lookup_insert_ne by congruence. done.
  - simplify_eq/=. split; [done|]. intros name. apply option_eq. intros c. rewrite map_lookup_filter_Some. naive_solver.
Qed.

Lemma resume_keeps state uuid task state' progress :
  (∀ a, artifacts state !! task_id task = Some a → ar_id a = task_id task) →
  resume state uuid task = (state', progress) →
  next_id state' = next_id state ∧ (artifacts state !! task_id task = None → artifacts state' !! task_id task = None) ∧
  (∀ t, progress = Continue t → task_id t = task_id task).
Proof.
  intros Hid. destruct task; cbn [resume task_id] in *; intros Hr.
  - destruct (write_body _ _ _ _ _) as [new [size| |]]; simplify_eq/=; naive_solver.
  - unfold end_with, record_block in Hr. repeat case_match; simplify_eq/=; naive_solver.
  - repeat case_match; simplify_eq/=; naive_solver.
  - repeat case_match; simplify_eq/=; naive_solver.
  - repeat case_match; simplify_eq/=; naive_solver.
  - simplify_eq/=; naive_solver.
  - destruct (write_body _ _ _ _ _) as [new [? | |]]; simplify_eq/=; naive_solver.
  - unfold end_with, record_blob in Hr. repeat case_match; simplify_eq/=; naive_solver.
  - destruct (hash_blob _ _ _); simplify_eq/=; naive_solver.
  - repeat case_match; simplify_eq/=; naive_solver.
  - simplify_eq/=; naive_solver.
Qed.

(** ** Requests *)

(** The tasks a request starts with. *)
Definition begun (a : ArtifactRecord) (t : Task) : Prop :=
  ar_finalized a = false ∧
  match t with
  | StageWrite _ _ _ | SingleWrite _ _ _ => True
  | ListCreate _ blocks size => Forall (λ b, ∃ block_id, ar_blocks a !! block_id = Some b) blocks ∧ total blocks = size
  | FinalHash _ _ => ar_blob_committed a = true
  | _ => False
  end.

Lemma finish_with_Continue {A} (c : response A) k t : finish_with c k = Continue t → ∃ x, c = Ok x ∧ k x = Continue t.
Proof. destruct c; simpl; [|done..]. eauto. Qed.

Lemma open_artifact_Ok state id a : open_artifact state id = Ok a → artifacts state !! id = Some a ∧ ar_finalized a = false.
Proof. unfold open_artifact. intros. ok_inv. done. Qed.

Lemma checked_sum_total blocks size : checked_sum blocks = Some size → total blocks = size.
Proof.
  unfold checked_sum. cut (∀ acc s, foldl (λ total block, total ← total;
      let sum := (total + bk_size block)%Z in if bool_decide (sum ≤ u64_max)%Z then Some sum else None) acc blocks = Some s →
    ∃ x, acc = Some x ∧ s = (x + total blocks)%Z).
  { intros Hc Hs. destruct (Hc _ _ Hs) as (x & [= <-] & ->). lia. }
  induction blocks as [|block blocks IH]; intros acc s; simpl.
  { intros ->. exists s. split; [done|]. lia. }
  intros Hf. destruct (IH _ _ Hf) as (x & Hx & ->). destruct acc as [y|]; simpl in Hx; [|done].
  case_bool_decide; [|done]. injection Hx as <-. exists y. split; [done|]. lia.
Qed.

Lemma traverse_blocks (a : ArtifactRecord) (e : ArtifactHttpError) order blocks :
  traverse (λ block_id, ok_or (ar_blocks a !! block_id) e) order = Ok blocks →
  Forall (λ b, ∃ block_id, ar_blocks a !! block_id = Some b) blocks.
Proof.
  intros Ht. apply traverse_Ok in Ht. induction Ht as [|x y l k Hxy _ IH]; constructor; [|done].
  apply ok_or_Ok in Hxy. eauto.
Qed.

Lemma upload_begun state id sig comp blockid content_length body t :
  upload_blob state id sig comp blockid content_length body = Continue t →
  task_id t = id ∧ ∃ a, artifacts state !! id = Some a ∧ begun a t.
Proof.
  unfold upload_blob. intros (_ & _ & Hk)%finish_with_Continue.
  assert (∀ block_id, stage_block state id block_id content_length body = Continue t →
    task_id t = id ∧ ∃ a, artifacts state !! id = Some a ∧ begun a t) as Hstage.
  { unfold stage_block. intros block_id (a & Ha & [= <-])%finish_with_Continue. ok_inv.
    split; [done|]. exists a. match goal with H : open_artifact _ _ = _ |- _ => apply open_artifact_Ok in H as [? ?] end. done. }
  assert (∀ xml, commit_block_list state id xml = Continue t →
    task_id t = id ∧ ∃ a, artifacts state !! id = Some a ∧ begun a t) as Hlist.
  { unfold commit_block_list. intros xml ([blocks size] & Ha & [= <-])%finish_with_Continue.
    apply obind_Ok in Ha as (order & _ & Ha). apply obind_Ok in Ha as (a & [Hid Hfin]%open_artifact_Ok & Ha).
    apply obind_Ok in Ha as (bs & Hbs%traverse_blocks & Ha). apply obind_Ok in Ha as (sz & Hsz%ok_or_Ok%checked_sum_total & Ha).
    apply obind_Ok in Ha as (_ & _ & [= -> ->]). split; [done|]. by exists a. }
  assert (upload_single_blob state id content_length body = Continue t →
    task_id t = id ∧ ∃ a, artifacts state !! id = Some a ∧ begun a t) as Hsingle.
  { unfold upload_single_blob. intros (a & Ha & [= <-])%finish_with_Continue. ok_inv.
    split; [done|]. exists a. match goal with H : open_artifact _ _ = _ |- _ => apply open_artifact_Ok in H as [? ?] end. done. }
  destruct comp as [comp|]; [|by apply Hsingle].
  case_bool_decide; [|case_bool_decide; [|done]]; apply finish_with_Continue in Hk as (x & _ & Hk); eauto.
Qed.

Lemma finalize_begun state request t :
  finalize_artifact state request = Continue t →
  ∃ id a, artifacts state !! id = Some a ∧ task_id t = ar_id a ∧ begun a t.
Proof.
  unfold finalize_artifact. intros ([size a] & Ha & Hk)%finish_with_Continue. ok_inv.
  match goal with H : find_value _ _ = Some _ |- _ => apply find_value_Some in H as [_ (id & Hid)] end.
  destruct (ar_finalized a) eqn:Hf; [done|]. destruct (ar_blob_committed a) eqn:Hc; [|done].
  case_bool_decide; simplify_eq/=. by exists id, a.
Qed.

(** What a request does before its first suspension. *)
Inductive started (state : ArtifactState) : ArtifactState → Progress → Prop :=
  | started_done result : started state state (Done result)
  | started_task id a t : artifacts state !! id = Some a → task_id t = ar_id a ∨ task_id t = id → begun a t →
      started state state (Continue t)
  | started_delete id a : artifacts state !! id = Some a →
      started state (state <| artifacts := delete id (artifacts state) |>) (Continue (DeleteFiles id))
  | started_create request result : create_guards state request = Ok tt →
      started state (created state request) (Done result).

Lemma create_started state request state' progress :
  create_artifact state request = (state', progress) → started state state' progress.
Proof.
  intros Hc. unfold create_artifact in Hc. destruct (create_guards state request) as [[]| |] eqn:Hg.
  - injection Hc as <- <-. by apply started_create.
  - injection Hc as <- <-. constructor.
  - injection Hc as <- <-. constructor.
Qed.

Lemma delete_started state request state' progress :
  delete_artifact state request = (state', progress) → started state state' progress.
Proof.
  unfold delete_artifact. intros Hd. repeat case_match; simplify_eq/=; try by constructor.
  by eapply started_delete.
Qed.

Lemma start_started state request state' progress :
  start state request = (state', progress) → started state state' progress.
Proof.
  destruct request as [method authorization body|id sig comp blockid content_length body|id f sig|id f sig]; cbn [start].
  - unfold twirp. destruct (_ ;? _) as [bytes| |]; [|intros [= <- <-]; constructor..].
    assert (∀ A (parse : string → outcome string A) k, (∀ r state' progress, k r = (state', progress) → started state state' progress) →
      match parse_json parse bytes with Ok r => k r | Err e => (state, Done (Err e)) | Panic => (state, Done Panic) end = (state', progress) →
      started state state' progress) as Hrun.
    { intros A parse k Hk. destruct (parse_json parse bytes); [apply Hk|intros [= <- <-]; constructor..]. }
    repeat case_bool_decide; try (intros [= <- <-]; constructor);
      apply Hrun; intros r s1 p1; try (intros [= <- <-]; try constructor); eauto using create_started, delete_started.
    destruct (finalize_artifact state r) as [t|res] eqn:Hf; [|constructor].
    apply finalize_begun in Hf as (id & a & H1 & H2 & H3). eapply started_task; eauto.
  - intros [= <- <-]. destruct (upload_blob _ _ _ _ _ _ _) as [t|res] eqn:Hu; [|constructor].
    apply upload_begun in Hu as (H1 & a & H2 & H3). eapply started_task; eauto.
  - intros [= <- <-]. constructor.
  - intros [= <- <-]. constructor.
Qed.

Lemma begun_local state id a t ts :
  local_ok (files state) ts id a → begun a t → task_id t = id → local_ok (files state) (t :: ts) id a.
Proof.
  intros [Hr Hts] [Hfin Hb] Hid. assert (is_record t = false) as Ht by (destruct t; naive_solver).
  split; [eapply record_frame; [done..| |exact Hr]; by apply recording_cons|]. constructor; [|done].
  split; [done|]. destruct t; try done. destruct Hb as [Hb Hs]. split; [|done].
  eapply Forall_impl; [exact Hb|]. intros block (b & Hbl). by eapply ro_blocks in Hbl as [_ Hon].
Qed.
End steps.
