(* ===== verification/ArtifactProps.v ===== *)
(** * The artifact service: what it guarantees *)

From S2P Require Import Prelude RustStr UnixPath OrdMap Expression RustText Artifact ArtifactInv.

Section props.
Context `{AL : ArtifactLib}.

(** ** The invariant *)

Lemma local_of_delete n task tasks id a f :
  tasks !! n = Some task → task_id task ≠ id → local_ok f (tasks_of id tasks) id a → local_ok f (tasks_of id (delete n tasks)) id a.
Proof. intros Hn Hne. pose proof (tasks_of_delete id n task tasks Hn) as Hd. rewrite decide_False in Hd by done. by rewrite Hd. Qed.

Lemma tasks_of_same id n task tasks :
  tasks !! n = Some task → task_id task = id → tasks_of id tasks ≡ₚ task :: tasks_of id (delete n tasks).
Proof. intros Hn He. pose proof (tasks_of_delete id n task tasks Hn) as Hd. by rewrite decide_True in Hd. Qed.

Lemma tasks_of_pending id t progress tasks :
  (∀ t', progress = Continue t' → task_id t' = t) →
  tasks_of id (pending progress tasks) = if decide (t = id) then pending progress (tasks_of id tasks) else tasks_of id tasks.
Proof.
  intros Ht. destruct progress as [t'|]; [|by destruct (decide _)]. rewrite <-(Ht t' eq_refl).
  unfold tasks_of; simpl. by rewrite filter_cons.
Qed.

Lemma resume_ok count s n uuid s' :
  service_ok count (sv_state s) (sv_tasks s) → orderly s → service_step (Resume n uuid) s = Some s' →
  service_ok count (sv_state s') (sv_tasks s').
Proof.
  destruct s as [state tasks]. intros [H1 H2 H3 H4 H5] [Hpw Hcol]. cbn [service_step sv_state sv_tasks] in *.
  destruct (tasks !! n) as [task|] eqn:Hn; simpl; [|done].
  destruct (resume state uuid task) as [state' progress] eqn:Hr. intros [= <-]. simpl.
  destruct (pairwise_delete _ _ _ Hpw Hn) as [Hpw' Hc].
  assert (∀ a, artifacts state !! task_id task = Some a → ar_id a = task_id task) as Hid.
  { intros a Ha. by destruct (H5 _ _ Ha) as [[]]. }
  destruct (resume_keeps _ _ _ _ _ Hid Hr) as (Hnext & Hnone & Hcont).
  assert (∀ a', artifacts state' !! task_id task = Some a' → ∃ a, artifacts state !! task_id task = Some a ∧
    after (task_id task) a (tasks_of (task_id task) (delete n tasks)) state' progress) as Hafter.
  { intros a' Ha'. destruct (artifacts state !! task_id task) as [a|] eqn:Ha; [|by rewrite Hnone in Ha'].
    exists a. split; [done|]. eapply resume_after; [done| | | | |exact Hr].
    - eapply local_ok_perm; [by apply tasks_of_same|]. by apply H5.
    - apply Forall_forall. by intros t [? _]%list_elem_of_filter.
    - apply Forall_forall. intros t [_ Hin]%list_elem_of_filter. rewrite Forall_forall in Hc. by apply Hc.
    - rewrite Forall_forall in Hcol. apply Hcol. by eapply list_elem_of_lookup_2. }
  assert (∀ id a', artifacts state' !! id = Some a' → ∃ a, artifacts state !! id = Some a ∧ ar_name a' = ar_name a) as Hold.
  { intros id a' Ha'. destruct (decide (id = task_id task)) as [->|Hne].
    - destruct (Hafter _ Ha') as (a & Ha & a2 & Ha2 & Hname & _). simplify_eq. eauto.
    - destruct (resume_other _ _ _ _ _ _ Hid Hr Hne) as [Hsame _]. rewrite Hsame in Ha'. eauto. }
  split.
  - congruence.
  - intros id a' Ha'. destruct (Hold _ _ Ha') as (a & Ha & _). eauto.
  - intros t Hin. destruct progress as [t'|]; simpl in Hin.
    + apply elem_of_cons in Hin as [->|Hin]; [rewrite Hcont by done|].
      * apply H3. by eapply list_elem_of_lookup_2.
      * apply H3. by eapply elem_of_delete_list.
    + apply H3. by eapply elem_of_delete_list.
  - intros id id' a a' Ha Ha' Hname. destruct (Hold _ _ Ha) as (b & Hb & Hbn), (Hold _ _ Ha') as (b' & Hb' & Hbn').
    eapply H4; [exact Hb|exact Hb'|congruence].
  - intros id a' Ha'. rewrite (tasks_of_pending id (task_id task)) by done. destruct (decide _) as [<-|Hne].
    + destruct (Hafter _ Ha') as (a & _ & a2 & Ha2 & _ & Hl). by simplify_eq.
    + destruct (resume_other _ _ _ _ _ _ Hid Hr (not_eq_sym Hne)) as [Hsame Hf]. rewrite Hsame in Ha'.
      eapply local_frame; [exact Hf|]. eapply local_of_delete; [done|done|]. by apply H5.
Qed.

Lemma abandon_ok count s n s' :
  service_ok count (sv_state s) (sv_tasks s) → service_step (Abandon n) s = Some s' → ¬ abandons_rename (Abandon n) s →
  service_ok count (sv_state s') (sv_tasks s').
Proof.
  destruct s as [state tasks]. intros [H1 H2 H3 H4 H5]. cbn [service_step sv_state sv_tasks] in *.
  destruct (tasks !! n) as [task|] eqn:Hn; simpl; [|done]. intros [= <-] Hno. simpl. split; [done|done| |done|].
  - intros t Hin. apply H3. by eapply elem_of_delete_list.
  - intros id a Ha. destruct (decide (task_id task = id)) as [He|Hne]; [|eapply local_of_delete; [done|done|by apply H5]].
    apply (drop_local _ task).
    + eapply local_ok_perm; [by apply tasks_of_same|]. by apply H5.
    + destruct task; try done. destruct Hno. by eexists _, _, _.
Qed.

Lemma guards_fresh_name state request id a :
  create_guards state request = Ok tt → artifacts state !! id = Some a → ar_name a ≠ cr_name request.
Proof.
  unfold create_guards. intros Hg Ha Hname. apply obind_Ok in Hg as (? & _ & Hg). apply obind_Ok in Hg as (? & _ & Hg).
  apply obind_Ok in Hg as (? & _ & Hg%reject_if_Ok). eapply existsb_false_elem with (x:=a) in Hg.
  - unfold named in Hg. by rewrite bool_decide_true in Hg.
  - apply elem_of_artifact_values. eauto.
Qed.

Lemma begin_ok count s request s' :
  service_ok count (sv_state s) (sv_tasks s) → service_step (Begin request) s = Some s' → (0 ≤ count < u64_max)%Z →
  ∃ count', (count ≤ count' ≤ count + 1)%Z ∧ service_ok count' (sv_state s') (sv_tasks s').
Proof.
  destruct s as [state tasks]. intros [H1 H2 H3 H4 H5]. cbn [service_step sv_state sv_tasks] in *.
  destruct (start state request) as [state' progress] eqn:Hs. intros [= <-] Hcount. simpl.
  apply start_started in Hs as [result|id a t Ha Hid Hb|id a Ha|req result Hg]; simpl.
  - exists count. split; [lia|]. by split.
  - exists count. split; [lia|]. destruct (H5 _ _ Ha) as [[Hida _ _ _] _].
    assert (task_id t = id) as Ht by (destruct Hid; congruence). split; [done..| |done|].
    + intros t' [->|?]%elem_of_cons; [rewrite Ht|]; eauto.
    + intros id' a' Ha'. unfold tasks_of; rewrite filter_cons. destruct (decide _) as [He|_]; [|by apply H5].
      assert (id' = id) as -> by congruence. assert (a' = a) as -> by congruence.
      apply begun_local; [by apply H5|done|done].
  - exists count. split; [lia|]. split; [done|..].
    + intros id' a'. simpl. rewrite lookup_delete_Some. intros [_ ?]. eauto.
    + intros t [->|?]%elem_of_cons; simpl; eauto.
    + intros id1 id2 a1 a2. simpl. rewrite !lookup_delete_Some. intros [_ ?] [_ ?]. eauto.
    + intros id' a'. simpl. rewrite lookup_delete_Some. intros [Hne Ha']. unfold tasks_of; rewrite filter_cons_False by done.
      by apply H5.
  - exists (count + 1)%Z. split; [lia|]. split; simpl.
    + rewrite H1. apply Z.mod_small. unfold u64_max in *. lia.
    + intros id a. rewrite lookup_insert_Some. intros [[<- _]|[_ Ha]]; [lia|]. specialize (H2 _ _ Ha). lia.
    + intros t Hin. specialize (H3 t Hin). lia.
    + intros id id' a a'. rewrite !lookup_insert_Some.
      intros [[<- <-]|[_ Ha]] [[<- <-]|[_ Ha']] Hname; [done|..|by eapply H4]; simpl in Hname.
      * by destruct (guards_fresh_name _ _ _ _ Hg Ha').
      * by destruct (guards_fresh_name _ _ _ _ Hg Ha).
    + intros id a. simpl. rewrite lookup_insert_Some. intros [[<- <-]|[_ Ha]]; [|by apply H5].
      assert (tasks_of (next_id state) tasks = []) as ->.
      { apply elem_of_nil_inv. intros t [Ht Hin]%list_elem_of_filter. specialize (H3 t Hin). lia. }
      apply local_done. split; simpl; [done| |done|done]. intros b block. by rewrite lookup_empty.
Qed.

Lemma step_ok count s event s' :
  service_ok count (sv_state s) (sv_tasks s) → orderly s → service_step event s = Some s' → ¬ abandons_rename event s →
  (0 ≤ count < u64_max)%Z →
  ∃ count', (count ≤ count' ≤ count + 1)%Z ∧ service_ok count' (sv_state s') (sv_tasks s').
Proof.
  intros Hok Ho Hs Hno Hc. destruct event as [request|n uuid|n].
  - by eapply begin_ok.
  - exists count. split; [lia|]. by eapply resume_ok.
  - exists count. split; [lia|]. by eapply abandon_ok.
Qed.

Lemma orderly_run_ok s events s' count :
  service_ok count (sv_state s) (sv_tasks s) → orderly s → orderly_run s events s' →
  (0 ≤ count ∧ count + Z.of_nat (length events) ≤ u64_max)%Z →
  orderly s' ∧ ∃ count', (count ≤ count' ≤ count + Z.of_nat (length events))%Z ∧ service_ok count' (sv_state s') (sv_tasks s').
Proof.
  intros Hok Ho Hrun. induction Hrun as [|events s1 event s2 _ IH Hs Ho2 Hno]; intros Hc.
  { split; [done|]. exists count. split; [lia|done]. }
  rewrite length_app in *. simpl in *. destruct IH as [Ho1 (c1 & Hc1 & Hok1)]; [lia|].
  split; [done|]. destruct (step_ok _ _ _ _ Hok1 Ho1 Hs Hno) as (c2 & Hc2 & Hok2); [lia|].
  exists c2. split; [lia|done].
Qed.

Lemma start_service_ok base token run_id job_id limits state :
  start_service base token run_id job_id limits = Ok state →
  service_ok 1 state [] ∧ orderly (mkService state []).
Proof.
  unfold start_service. intros. ok_inv. split.
  - split; simpl; try done; try by setoid_rewrite lookup_empty. intros t Hin. by apply elem_of_nil in Hin.
  - by split; [|constructor].
Qed.

(** A finalized artifact has its blob, of the recorded size and digest. *)
Definition intact (state : ArtifactState) (id : Z) (a : ArtifactRecord) (content : string) : Prop :=
  files state !! (id, BlobFile) = Some content ∧ Z.of_nat (slen content) = ar_size a ∧
  ar_digest a = Some ("sha256:" +:+ sha256_hex content).

Lemma service_ok_intact count state tasks id a :
  service_ok count state tasks → artifacts state !! id = Some a → ar_finalized a = true → ∃ content, intact state id a content.
Proof.
  intros Hok Ha Hf. destruct (so_local _ _ _ Hok id a Ha) as [[H1 H2 H3 H4] _].
  destruct (H4 Hf) as (Hc & Hno & content & Hfile & Hd). destruct (H3 Hc Hno) as (content' & Hfile' & Hl).
  exists content. split_and!; [done| |done]. congruence.
Qed.

(** A step removes a finalized artifact or leaves it as it is. *)
Definition kept (id : Z) (a : ArtifactRecord) (content : string) (state : ArtifactState) : Prop :=
  artifacts state !! id = None ∨ artifacts state !! id = Some a ∧ files state !! (id, BlobFile) = Some content.

Lemma kept_step count s event s' id a content :
  service_ok count (sv_state s) (sv_tasks s) → (id < count)%Z → service_step event s = Some s' → ar_finalized a = true →
  kept id a content (sv_state s) → kept id a content (sv_state s').
Proof.
  destruct s as [state tasks]. intros [H1 H2 H3 H4 H5] Hid Hs Hfin Hk. destruct event as [request|n uuid|n]; cbn [service_step sv_state sv_tasks] in *.
  - destruct (start state request) as [state' progress] eqn:Hst. injection Hs as <-. simpl.
    apply start_started in Hst as [result|id' a' t Ha Hid' Hb|id' a' Ha|req result Hg]; [done|done|..].
    + destruct (decide (id = id')) as [->|Hne]; [left; apply lookup_delete_eq|].
      unfold kept, files. simpl. by rewrite lookup_delete_ne.
    + unfold kept, files. simpl. rewrite lookup_insert_ne by lia. done.
  - destruct (tasks !! n) as [task|] eqn:Hn; simpl in Hs; [|done].
    destruct (resume state uuid task) as [state' progress] eqn:Hr. injection Hs as <-. simpl.
    assert (∀ a, artifacts state !! task_id task = Some a → ar_id a = task_id task) as Hida.
    { intros a' Ha'. by destruct (H5 _ _ Ha') as [[]]. }
    destruct (decide (id = task_id task)) as [->|Hne].
    + destruct Hk as [Hnone|[Ha _]]; [left; by apply (resume_keeps _ _ _ _ _ Hida Hr)|]. exfalso.
      destruct (H5 _ _ Ha) as [_ Hts]. rewrite Forall_forall in Hts. destruct (Hts task) as [Hf _]; [|congruence].
      apply list_elem_of_filter. split; [done|]. by eapply list_elem_of_lookup_2.
    + destruct (resume_other _ _ _ _ _ _ Hida Hr Hne) as [Hsame Hf]. unfold kept. by rewrite Hsame, Hf.
  - destruct (tasks !! n); simpl in Hs; [|done]. by injection Hs as <-.
Qed.

(** C21: As long as requests that write to the same artifact do not overlap (uploads
    of different blocks may), and no request is abandoned between the renaming of a
    file and its record (the connection that closes there loses the record:
    [abandons_rename]), every finalized artifact can be downloaded, with
    the recorded size and the digest of what is served, and no other has its name;
    whatever requests run later, interleaved in any way, it is served unchanged
    until it is deleted. *)
Theorem finalized_artifacts_are_immutable base token run_id job_id lim state events s more s' id a :
  start_service base token run_id job_id lim = Ok state →
  orderly_run (mkService state []) events s → orderly_run s more s' →
  (Z.of_nat (length events + length more) < u64_max)%Z →
  artifacts (sv_state s) !! id = Some a → ar_finalized a = true →
  ∃ content, intact (sv_state s) id a content ∧
    download_blob (sv_state s) id (runtime_token (sv_state s)) =
      set_download_headers (ar_size a) (ar_mime_type a) (ar_name a) (Some content) ∧
    (∀ id' a', artifacts (sv_state s) !! id' = Some a' → ar_name a' = ar_name a → id' = id) ∧
    (artifacts (sv_state s') !! id = None ∨ artifacts (sv_state s') !! id = Some a ∧ intact (sv_state s') id a content).
Proof.
  intros [Hok Ho]%start_service_ok Hrun Hmore Hlen Ha Hfin.
  destruct (orderly_run_ok (mkService state []) _ _ 1 Hok Ho Hrun) as [Ho1 (c1 & Hc1 & Hok1)]; [lia|].
  destruct (service_ok_intact _ _ _ _ _ Hok1 Ha Hfin) as [content Hi]. exists content. destruct Hi as (Hfile & Hsize & Hd).
  split_and!; [done|..].
  - unfold download_blob, authorize_signed, download_metadata. rewrite bool_decide_true by done. simpl.
    rewrite Ha. simpl. rewrite Hfin. simpl. unfold files in Hfile. by rewrite Hfile.
  - intros id' a' Ha' Hn. by eapply (so_names _ _ _ Hok1).
  - cut (kept id a content (sv_state s')).
    { intros [Hn|[Ha' Hf]]; [by left|]. right. by split_and!. }
    assert (kept id a content (sv_state s)) as Hk by by right.
    clear Hfile Hsize Hd.
    assert (id < c1)%Z as Hidc by (by eapply so_artifacts).
    clear Ha Ho Hok Hrun. rename Hmore into Hrun. revert Hlen. generalize dependent c1.
    induction Hrun as [|more s1 event s2 Hr IH Hs Ho2 Hno]; intros c1 Hc1 Hok1 Hidc Hlen; [done|].
    rewrite length_app in Hlen. simpl in Hlen.
    destruct (orderly_run_ok _ _ _ c1 Hok1 Ho1 Hr) as [_ (c2 & Hc2 & Hok2)]; [lia|].
    eapply kept_step; [exact Hok2|lia|exact Hs|done|]. eapply IH; [exact Hc1|exact Hok1|done|lia].
Qed.
End props.

(** * The artifact service: an upload is downloaded as it was

    What the requests of an upload do, run one after the other: blocks are
    staged, the list puts them together, and after the finalization the download
    serves the result. *)

(** ** Sums that do not overflow *)

Lemma saturating_swap y a b : (0 ≤ a)%Z → (0 ≤ b)%Z →
  saturating_add (saturating_add y a) b = saturating_add (saturating_add y b) a.
Proof. unfold saturating_add. lia. Qed.

Lemma block_sizes_insert block_id block m :
  m !! block_id = None → (∀ b x, m !! b = Some x → 0 ≤ bk_size x)%Z → (0 ≤ bk_size block)%Z →
  block_sizes (<[block_id := block]> m) = saturating_add (block_sizes m) (bk_size block).
Proof.
  intros Hm Hpos H0. unfold block_sizes. rewrite map_fold_insert_L; [done| |done].
  intros j1 j2 z1 z2 y _ H1 H2. apply saturating_swap.
  - apply lookup_insert_Some in H2 as [[_ <-]|[_ ?]]; [done|by eapply Hpos].
  - apply lookup_insert_Some in H1 as [[_ <-]|[_ ?]]; [done|by eapply Hpos].
Qed.

Lemma total_logical_size_insert id a m :
  m !! id = None → (∀ i x, m !! i = Some x → 0 ≤ artifact_logical_size x)%Z → (0 ≤ artifact_logical_size a)%Z →
  total_logical_size (<[id := a]> m) = saturating_add (total_logical_size m) (artifact_logical_size a).
Proof.
  intros Hm Hpos H0. unfold total_logical_size. rewrite map_fold_insert_L; [done| |done].
  intros j1 j2 z1 z2 y _ H1 H2. apply saturating_swap.
  - apply lookup_insert_Some in H2 as [[_ <-]|[_ ?]]; [done|by eapply Hpos].
  - apply lookup_insert_Some in H1 as [[_ <-]|[_ ?]]; [done|by eapply Hpos].
Qed.

Lemma total_nonneg m : (∀ i x, m !! i = Some x → 0 ≤ artifact_logical_size x)%Z → (0 ≤ total_logical_size m)%Z.
Proof.
  unfold total_logical_size.
  apply (map_fold_weak_ind (λ t m, (∀ i x, m !! i = Some x → 0 ≤ artifact_logical_size x)%Z → (0 ≤ t)%Z)); [done|].
  intros i x m' r Hi IH Hpos. assert (0 ≤ artifact_logical_size x)%Z by (eapply Hpos, lookup_insert_eq).
  assert (0 ≤ r)%Z; [|unfold saturating_add, u64_max; lia].
  apply IH. intros j y Hj. eapply (Hpos j). rewrite lookup_insert_ne; [done|]. intros ->. congruence.
Qed.

(** ** Parts *)

(** A block and the chunks of its upload. *)
Notation Part := (string * list string)%type.

Definition part_content (part : Part) : string := sconcat part.2.
Definition part_size (part : Part) : Z := Z.of_nat (slen (part_content part)).
Definition sizes (parts : list Part) : Z := foldr (λ p sum, part_size p + sum)%Z 0%Z parts.

Lemma sizes_app p q : sizes (p ++ q) = (sizes p + sizes q)%Z.
Proof. induction p as [|x p IH]; simpl; [done|]. rewrite IH. lia. Qed.

Lemma sizes_cons x p : sizes (x :: p) = (part_size x + sizes p)%Z.
Proof. done. Qed.

Lemma sizes_nonneg p : (0 ≤ sizes p)%Z.
Proof. induction p as [|x p IH]; simpl; [done|]. unfold part_size. lia. Qed.

Lemma write_chunks_ok chunks maximum file :
  (Z.of_nat (slen file) + Z.of_nat (slen (sconcat chunks)) ≤ maximum)%Z → (maximum ≤ u64_max)%Z →
  write_chunks (Some <$> chunks) maximum (Z.of_nat (slen file)) file =
    (Some (file +:+ sconcat chunks), Ok (Z.of_nat (slen file + slen (sconcat chunks)))).
Proof.
  revert file; induction chunks as [|c chunks IH]; intros file Hle Hmax; simpl.
  { rewrite sapp_nil_r. change (slen "") with 0. by rewrite Nat.add_0_r. }
  simpl in Hle. rewrite slen_app in Hle. rewrite !bool_decide_false by lia.
  replace (Z.of_nat (slen file) + Z.of_nat (slen c))%Z with (Z.of_nat (slen (file +:+ c))) by (rewrite slen_app; lia).
  change (fmap Some chunks) with (Some <$> chunks).
  rewrite IH by (rewrite ?slen_app; lia). rewrite sapp_assoc. do 2 f_equal. rewrite !slen_app. lia.
Qed.

Section roundtrip.
Context `{AL : ArtifactLib}.

Definition block_of (part : Part) : Block := mkBlock (BlockFile (sha256_hex part.1)) (part_size part).

Definition blocks_of (parts : list Part) : gmap string Block := list_to_map ((λ p, (p.1, block_of p)) <$> parts).

Lemma blocks_of_Some parts b block : blocks_of parts !! b = Some block → ∃ p, p ∈ parts ∧ p.1 = b ∧ block = block_of p.
Proof.
  unfold blocks_of. intros H%elem_of_list_to_map_2. apply list_elem_of_fmap in H as (p & [= -> ->] & Hp). eauto.
Qed.

Lemma blocks_of_elem parts p : NoDup parts.*1 → p ∈ parts → blocks_of parts !! p.1 = Some (block_of p).
Proof.
  intros Hnd Hp. unfold blocks_of. apply elem_of_list_to_map_1.
  - rewrite <-list_fmap_compose. exact Hnd.
  - apply list_elem_of_fmap. eauto.
Qed.

(** The state of an upload: some blocks are there, and nothing else has
    changed since [base]. *)
Record staging (base : gmap Z ArtifactRecord) (lim : ArtifactLimits) (token run_id job_id : string) (id : Z) (name mime : string)
    (parts : list Part) (state : ArtifactState) : Prop := {
  sg_artifacts : artifacts state = <[id := mkArtifact id name mime (blocks_of parts) false false 0 None]> base;
  sg_limits : limits state = lim;
  sg_token : runtime_token state = token;
  sg_run : workflow_run_backend_id state = run_id;
  sg_job : workflow_job_run_backend_id state = job_id;
  sg_directory : id ∈ dk_directories (disk state);
  sg_blocks : id ∈ dk_blocks (disk state);
  sg_files p : p ∈ parts → files state !! (id, BlockFile (sha256_hex p.1)) = Some (part_content p);
}.

Lemma block_sizes_of parts :
  NoDup parts.*1 → (sizes parts ≤ u64_max)%Z → block_sizes (blocks_of parts) = sizes parts.
Proof.
  induction parts as [|p parts IH]; intros Hnd Hle; [done|]. apply NoDup_cons in Hnd as [Hp Hnd]. simpl in Hle.
  pose proof (sizes_nonneg parts) as H0.
  assert (0 ≤ part_size p)%Z as Hpos by (unfold part_size; lia). change (blocks_of (p :: parts)) with (<[p.1 := block_of p]> (blocks_of parts)).
  rewrite block_sizes_insert; simpl.
  - rewrite IH by (done || lia). unfold saturating_add. lia.
  - destruct (blocks_of parts !! p.1) as [b|] eqn:Hb; [|done]. apply blocks_of_Some in Hb as (q & Hq & Heq & _).
    destruct Hp. rewrite <-Heq. by apply list_elem_of_fmap_2.
  - intros b x (q & _ & _ & ->)%blocks_of_Some. simpl. unfold part_size. lia.
  - done.
Qed.

Lemma block_sizes_nonneg m : (∀ b x, m !! b = Some x → 0 ≤ bk_size x)%Z → (0 ≤ block_sizes m)%Z.
Proof.
  unfold block_sizes. apply (map_fold_weak_ind (λ t m, (∀ b x, m !! b = Some x → 0 ≤ bk_size x)%Z → (0 ≤ t)%Z)); [done|].
  intros i x m' r Hi IH Hpos. assert (0 ≤ bk_size x)%Z by (eapply Hpos, lookup_insert_eq).
  assert (0 ≤ r)%Z; [|unfold saturating_add, u64_max; lia].
  apply IH. intros j y Hj. eapply (Hpos j). rewrite lookup_insert_ne; [done|]. intros ->. congruence.
Qed.

Lemma logical_nonneg count state id a :
  service_ok count state [] → artifacts state !! id = Some a → (0 ≤ artifact_logical_size a)%Z.
Proof.
  intros Hok Ha. destruct (so_local _ _ _ Hok id a Ha) as [[H1 H2 H3 H4] _]. unfold artifact_logical_size.
  destruct (ar_blob_committed a) eqn:Hc.
  - destruct (H3 eq_refl) as (c & _ & Hl); [apply recording_nil|lia].
  - apply block_sizes_nonneg. intros b x Hb. destruct (H2 b x Hb) as (_ & _ & c & _ & Hl). lia.
Qed.

(** ** Blocks *)

Definition stage_request (id : Z) (token : string) (part : Part) : Request :=
  PutBlob id token (Some "block") (Some part.1) None (Some <$> part.2).

Lemma write_body_ok id name chunks maximum d :
  parent_exists id name d = true → (Z.of_nat (slen (sconcat chunks)) ≤ maximum ≤ u64_max)%Z →
  write_body id name (Some <$> chunks) maximum d =
    (write_file id name (sconcat chunks) d, Ok (Z.of_nat (slen (sconcat chunks)))).
Proof.
  intros Hp Hle. unfold write_body. rewrite Hp. pose proof (write_chunks_ok chunks maximum "") as Hw.
  change (Z.of_nat (slen "")) with 0%Z in Hw. rewrite Hw by lia. done.
Qed.

Lemma rename_written id from to content d :
  from ≠ to → rename_file id from to (write_file id from content d) =
    Some (write_file id to content (remove_file id from (write_file id from content d))).
Proof. intros Hne. unfold rename_file. simpl. by rewrite lookup_insert_eq. Qed.

Section upload.
Context (base : gmap Z ArtifactRecord) (lim : ArtifactLimits) (token run_id job_id : string) (id : Z) (name mime : string).
Context (Hfresh : base !! id = None) (Hpos : ∀ i x, base !! i = Some x → (0 ≤ artifact_logical_size x)%Z).
Context (Hentry : (maximum_entry_bytes lim ≤ u64_max)%Z) (Hmaximum : (maximum_bytes lim ≤ u64_max)%Z).

Notation staging := (staging base lim token run_id job_id id name mime).

Lemma record_staged state parts part uuid :
  staging parts state → NoDup (part :: parts).*1 → (∀ q, q ∈ parts → sha256_hex q.1 ≠ sha256_hex part.1) →
  (sizes (part :: parts) ≤ maximum_entry_bytes lim)%Z →
  (total_logical_size base + sizes (part :: parts) ≤ maximum_bytes lim)%Z →
  let temporary := BlockTemporary (sha256_hex part.1) uuid in
  ∃ state', record_block (set_disk state (write_file id temporary (part_content part) (disk state))) id part.1 temporary (part_size part)
      = (state', Ok tt) ∧ staging (part :: parts) state'.
Proof.
  intros [H1 H2 H3 H7 H8 H4 H5 H6] Hnd Hsha He Ht temporary. apply NoDup_cons in Hnd as [Hp Hnd].
  pose proof (sizes_nonneg parts) as Hs0. assert (0 ≤ part_size part)%Z as Hp0 by (unfold part_size; lia). simpl in He, Ht.
  assert (0 ≤ total_logical_size base)%Z as Ht0.
  { by apply total_nonneg. }
  set (a := mkArtifact id name mime (blocks_of parts) false false 0 None) in *.
  assert (artifact_logical_size a = sizes parts) as Hlog.
  { unfold artifact_logical_size. simpl. apply block_sizes_of; [done|lia]. }
  unfold record_block. simpl. rewrite H1, lookup_insert_eq.
  assert (blocks_of parts !! part.1 = None) as Hnone.
  { destruct (blocks_of parts !! part.1) as [b|] eqn:Hb; [|done]. apply blocks_of_Some in Hb as (q & Hq & Heq & _).
    destruct Hp. simpl. rewrite <-Heq. by apply list_elem_of_fmap_2. }
  simpl. rewrite Hnone. simpl. rewrite H2, Hlog, total_logical_size_insert by (done || lia). rewrite Hlog.
  rewrite (bool_decide_false (maximum_entry_bytes lim < _)%Z) by (unfold saturating_add, saturating_sub; lia).
  rewrite bool_decide_false by (unfold saturating_add, saturating_sub; lia). simpl.
  rewrite rename_written by done. eexists. split; [done|]. split; simpl; [|done..|].
  - rewrite H1, insert_insert_eq. done.
  - intros q [->|Hq]%elem_of_cons; unfold files; simpl; [by rewrite lookup_insert_eq|].
    rewrite lookup_insert_ne by (pose proof (Hsha q Hq); congruence).
    rewrite lookup_delete_ne, lookup_insert_ne by done. by apply H6.
Qed.

Lemma stage_serve state parts part uuid :
  staging parts state → NoDup (part :: parts).*1 → (∀ q, q ∈ parts → sha256_hex q.1 ≠ sha256_hex part.1) →
  invalid_block_id part.1 = false → (sizes (part :: parts) ≤ maximum_entry_bytes lim)%Z →
  (total_logical_size base + sizes (part :: parts) ≤ maximum_bytes lim)%Z →
  ∃ state', serve uuid state (stage_request id token part) = (state', Ok BlobCreated) ∧ staging (part :: parts) state'.
Proof.
  intros Hs Hnd Hsha Hid He Ht. pose proof Hs as [H1 H2 H3 H7 H8 H4 H5 H6].
  destruct (record_staged _ _ _ uuid Hs Hnd Hsha He Ht) as (state' & Hr & Hs'). exists state'. split; [|done].
  unfold serve, stage_request. cbn [start]. unfold upload_blob, authorize_signed. rewrite H3, bool_decide_true by done.
  cbn [negb reject_if finish_with ok_or]. rewrite bool_decide_true by done. cbn [finish_with ok_or].
  unfold stage_block, open_artifact. rewrite Hid, H1, lookup_insert_eq. cbn [reject_if obind reject_large_content_length mbind option_bind ok_or finish_with task_steps run_task].
  unfold ar_finalized. cbn [reject_if obind ok_or finish_with task_steps run_task resume]. rewrite H2.
  pose proof (sizes_nonneg parts) as Hn. simpl in He. unfold part_size, part_content in He.
  rewrite write_body_ok; [|unfold parent_exists; by apply bool_decide_true|lia].
  cbn [finish_with run_task resume]. unfold end_with.
  change (sconcat part.2) with (part_content part). change (Z.of_nat (slen (part_content part))) with (part_size part).
  rewrite Hr. cbn. done.
Qed.

Fixpoint serve_all (uuid : string) (state : ArtifactState) (requests : list Request) : ArtifactState * list (response Response) :=
  match requests with
  | [] => (state, [])
  | request :: requests =>
      let '(state, result) := serve uuid state request in
      let '(state, results) := serve_all uuid state requests in (state, result :: results)
  end.

(** Blocks with valid ids, none of them twice, and no two with one digest. *)
Definition valid_parts (parts : list Part) : Prop :=
  NoDup parts.*1 ∧ Forall (λ p, invalid_block_id p.1 = false) parts ∧
  ∀ p q, p ∈ parts → q ∈ parts → sha256_hex p.1 = sha256_hex q.1 → p.1 = q.1.

Lemma stage_all parts : ∀ state done uuid,
  staging done state → valid_parts (parts ++ done) →
  (sizes (parts ++ done) ≤ maximum_entry_bytes lim)%Z → (total_logical_size base + sizes (parts ++ done) ≤ maximum_bytes lim)%Z →
  ∃ state', serve_all uuid state (stage_request id token <$> parts) = (state', replicate (length parts) (Ok BlobCreated)) ∧
    staging (reverse parts ++ done) state'.
Proof.
  induction parts as [|part parts IH]; intros state dn uuid Hs Hv He Ht.
  { exists state. done. }
  destruct Hv as (Hnd & Hid & Hsha). rewrite sizes_app, sizes_cons in He, Ht. rewrite <-app_comm_cons, fmap_cons, fmap_app in Hnd.
  pose proof (sizes_nonneg parts). pose proof (sizes_nonneg dn).
  apply NoDup_cons in Hnd as [Hp Hnd]. apply Forall_cons in Hid as [Hpi Hid].
  destruct (stage_serve state dn part uuid) as (s1 & Hs1 & Hst1); [done| | |done|rewrite sizes_cons; lia..|].
  { simpl. apply NoDup_cons. split; [|by apply NoDup_app in Hnd as (_ & _ & ?)]. intros Hin. apply Hp, elem_of_app. by right. }
  { intros q Hq Heq. apply Hp. rewrite <-(Hsha q part); [|set_solver..|done]. apply elem_of_app. right. by apply list_elem_of_fmap_2. }
  destruct (IH s1 (part :: dn) uuid Hst1) as (s2 & Hs2 & Hst2).
  - unfold valid_parts. split_and!.
    + rewrite fmap_app. simpl. rewrite <-Permutation_middle. by apply NoDup_cons.
    + apply Forall_app in Hid as [? ?]. apply Forall_app. split; [done|]. by constructor.
    + intros p q Hp' Hq'. apply Hsha; set_solver.
  - rewrite sizes_app, sizes_cons. lia.
  - rewrite sizes_app, sizes_cons. lia.
  - exists s2. rewrite fmap_cons. cbn [serve_all]. rewrite Hs1, Hs2. split; [done|]. by rewrite reverse_cons, <-app_assoc.
Qed.

(** ** The list *)

(** Nothing but the temporary file has changed. *)
Definition same_but (temporary : FileName) (state state' : ArtifactState) : Prop :=
  artifacts state' = artifacts state ∧ limits state' = limits state ∧ runtime_token state' = runtime_token state ∧
  workflow_run_backend_id state' = workflow_run_backend_id state ∧
  workflow_job_run_backend_id state' = workflow_job_run_backend_id state ∧
  ∀ n, (id, n) ≠ (id, temporary) → files state' !! (id, n) = files state !! (id, n).

Lemma list_copy_run uuid temporary size picked : ∀ state content fuel,
  in_blocks temporary = false → files state !! (id, temporary) = Some content →
  (∀ p, p ∈ picked → files state !! (id, BlockFile (sha256_hex p.1)) = Some (part_content p)) →
  ∃ state', run_task (length picked + fuel) uuid state (Continue (ListCopy id (block_of <$> picked) temporary size)) =
      run_task fuel uuid state' (Continue (ListCopy id [] temporary size)) ∧
    same_but temporary state state' ∧
    files state' !! (id, temporary) = Some (content +:+ sconcat (part_content <$> picked)).
Proof.
  induction picked as [|p picked IH]; intros state content fuel Htemp Hc Hp.
  { exists state. split_and!; [done..|]. change (sconcat (part_content <$> [])) with "". by rewrite sapp_nil_r. }
  cbn [length Nat.add run_task fmap list_fmap resume bk_path block_of].
  unfold files in Hp. rewrite (Hp p) by (by left).
  match goal with |- context [run_task (length picked + fuel) uuid ?s _] => set (s1 := s) end.
  destruct (IH s1 (content +:+ part_content p) fuel) as (s2 & H2 & (E1 & E2 & E3 & E4 & E5 & E6) & H3); [done| | |].
  - unfold files; simpl. unfold files in Hc. by rewrite lookup_alter_eq, Hc.
  - intros q Hq. unfold files; simpl. rewrite lookup_alter_ne by (intros [= Heq]; by rewrite Heq in Htemp).
    apply Hp. by right.
  - exists s2. split; [exact H2|]. split.
    + split_and!; try done. intros n Hn. rewrite E6 by done. unfold files; simpl. by rewrite lookup_alter_ne by done.
    + rewrite H3. simpl. by rewrite sapp_assoc.
Qed.

(** The blob is there and recorded. *)
Record uploaded (content : string) (state : ArtifactState) : Prop := {
  up_artifacts : ∃ a, artifacts state = <[id := a]> base ∧ ar_id a = id ∧ ar_name a = name ∧ ar_mime_type a = mime ∧
    ar_blob_committed a = true ∧ ar_finalized a = false ∧ ar_size a = Z.of_nat (slen content);
  up_file : files state !! (id, BlobFile) = Some content;
  up_token : runtime_token state = token;
  up_run : workflow_run_backend_id state = run_id;
  up_job : workflow_job_run_backend_id state = job_id;
}.

Definition picked_content (picked : list Part) : string := sconcat (part_content <$> picked).

Lemma slen_picked picked : Z.of_nat (slen (picked_content picked)) = sizes picked.
Proof.
  induction picked as [|p picked IH]; [done|]. rewrite sizes_cons, <-IH.
  change (picked_content (p :: picked)) with (part_content p +:+ picked_content picked). rewrite slen_app.
  unfold part_size. lia.
Qed.

Lemma total_blocks picked : total (block_of <$> picked) = sizes picked.
Proof. induction picked as [|p picked IH]; [done|]. by rewrite fmap_cons, sizes_cons, <-IH. Qed.

Lemma checked_sum_picked picked :
  (sizes picked ≤ u64_max)%Z → checked_sum (block_of <$> picked) = Some (sizes picked).
Proof.
  unfold checked_sum. cut (∀ x, (0 ≤ x ∧ x + sizes picked ≤ u64_max)%Z → foldl (λ total block, total ← total;
      let sum := (total + bk_size block)%Z in if bool_decide (sum ≤ u64_max)%Z then Some sum else None) (Some x)
      (block_of <$> picked) = Some (x + sizes picked)%Z).
  { intros H Hle. apply (H 0%Z). lia. }
  induction picked as [|p picked IH]; intros x Hx; [simpl; by rewrite Z.add_0_r|].
  rewrite sizes_cons in Hx |- *. rewrite fmap_cons. cbn [foldl mbind option_bind bk_size block_of]. pose proof (sizes_nonneg picked). assert (0 ≤ part_size p)%Z by (unfold part_size; lia).
  rewrite bool_decide_true by lia. rewrite IH by lia. f_equal. lia.
Qed.

Definition list_request (xml : string) : Request := PutBlob id token (Some "blocklist") None None [Some xml].

Lemma list_continues state parts picked xml :
  staging parts state → NoDup parts.*1 → (∀ p, p ∈ picked → p ∈ parts) → parse_block_list xml = Ok picked.*1 →
  (sizes picked ≤ maximum_entry_bytes lim)%Z →
  commit_block_list state id xml = Continue (ListCreate id (block_of <$> picked) (sizes picked)).
Proof.
  intros [H1 H2 H3 H7 H8 H4 H5 H6] Hnd Hsub Hparse He. unfold commit_block_list, open_artifact.
  rewrite Hparse, H1, lookup_insert_eq. cbn [obind ok_or ar_finalized reject_if ar_blocks].
  assert (traverse (λ block_id, ok_or (blocks_of parts !! block_id) (bad_request "block list refers to a missing block"))
            picked.*1 = Ok (block_of <$> picked)) as ->.
  { clear Hparse He. induction picked as [|p picked IH]; [done|]. rewrite !fmap_cons. cbn [traverse].
    rewrite (blocks_of_elem parts p) by (done || (apply Hsub; by left)). cbn [ok_or obind]. rewrite IH; [done|].
    intros q Hq. apply Hsub. by right. }
  cbn [obind]. rewrite checked_sum_picked by lia. cbn [ok_or obind]. rewrite H2, bool_decide_false by lia. done.
Qed.

Lemma commit_serve state parts picked xml uuid :
  staging parts state → NoDup parts.*1 → (∀ p, p ∈ picked → p ∈ parts) → parse_block_list xml = Ok picked.*1 →
  slen xml ≤ MAX_BLOCK_LIST_BYTES → (sizes picked ≤ maximum_entry_bytes lim)%Z →
  ∃ state', serve uuid state (list_request xml) = (state', Ok BlobCreated) ∧ uploaded (picked_content picked) state'.
Proof.
  intros Hs Hnd Hsub Hparse Hxml He. pose proof (list_continues _ _ _ _ Hs Hnd Hsub Hparse He) as Hcont.
  destruct Hs as [H1 H2 H3 H7 H8 H4 H5 H6].
  unfold serve, list_request. cbn [start]. unfold upload_blob, authorize_signed. rewrite H3, bool_decide_true by done.
  cbn [negb reject_if finish_with]. rewrite bool_decide_false, bool_decide_true by done. cbn [read_body].
  change (slen "") with 0. rewrite bool_decide_false by (rewrite Nat.add_0_l; lia). rewrite sapp_nil_l. cbn [finish_with]. rewrite Hcont.
  cbn [task_steps]. rewrite length_fmap.
  replace (length picked + 4) with (S (length picked + 3)) by lia. cbn [run_task resume].
  unfold parent_exists. cbn [in_blocks]. rewrite bool_decide_true by done.
  set (s1 := set_disk state _).
  destruct (list_copy_run uuid (BlobTemporary uuid) (sizes picked) picked s1 "" 3) as (s2 & -> & (E1 & E2 & E3 & E4 & E5 & E6) & Hc).
  { done. } { unfold files; simpl. by rewrite lookup_insert_eq. }
  { intros p Hp. unfold files; simpl. rewrite lookup_insert_ne by done. by apply H6, Hsub. }
  rewrite sapp_nil_l in Hc. cbn [run_task resume]. unfold rename_file. unfold files in Hc. rewrite Hc. cbn [mbind option_bind].
  cbn [run_task resume]. cbn [artifacts set_disk set_field]. simpl. rewrite E1. simpl. rewrite H1, lookup_insert_eq. cbn.
  eexists. split; [reflexivity|]. split; simpl.
  - eexists. rewrite E1; simpl. rewrite H1, insert_insert_eq. split; [done|]. simpl. by rewrite slen_picked.
  - unfold files; simpl. apply map_lookup_filter_Some. split; [by rewrite lookup_insert_eq|]. by intros [_ ?].
  - by rewrite E3.
  - by rewrite E4.
  - by rewrite E5.
Qed.

(** ** Finalization and download *)

Lemma find_named (a : ArtifactRecord) :
  ar_name a = name → (∀ i x, base !! i = Some x → ar_name x ≠ name) →
  find_value (named name) (<[id := a]> base) = Some a.
Proof.
  intros Ha Hother. unfold find_value. destruct (head _) as [b|] eqn:Hb.
  - apply head_Some_elem_of, list_elem_of_filter in Hb as [Hn (i & Hi)%elem_of_artifact_values].
    apply lookup_insert_Some in Hi as [[_ ->]|[_ Hi]]; [done|]. unfold named in Hn. apply bool_decide_eq_true in Hn.
    by destruct (Hother i b).
  - apply head_None in Hb. exfalso. apply (elem_of_nil a). rewrite <-Hb. apply list_elem_of_filter. split.
    + unfold named. by rewrite bool_decide_true.
    + apply elem_of_artifact_values. exists id. apply lookup_insert_eq.
Qed.

Lemma finalize_serve state content request uuid :
  uploaded content state → (∀ i x, base !! i = Some x → ar_name x ≠ name) →
  fr_run_id request = run_id → fr_job_id request = job_id → fr_name request = name →
  json_u64 MAX_JSON_DEPTH (fr_size request) = Ok (Z.of_nat (slen content)) →
  (∀ hash, fr_hash request = Some hash → hash = "sha256:" +:+ sha256_hex content) →
  ∃ state', run_task 2 uuid state (finalize_artifact state request) = (state', Ok (ArtifactFinalized (pretty id))) ∧
    download_blob state' id token = set_download_headers (Z.of_nat (slen content)) mime name (Some content).
Proof.
  intros [(a & H1 & Hid & Hname & Hmime & Hcm & Hfin & Hsize) H2 H3 H4 H5] Hother Hr Hj Hn Hjson Hhash.
  unfold finalize_artifact, validate_backend_ids. rewrite Hr, Hj, H4, H5, !bool_decide_true by done. cbn [andb negb reject_if obind].
  rewrite Hjson. cbn [obind]. rewrite Hn, H1, find_named by done. cbn [ok_or obind finish_with]. rewrite Hfin, Hcm, Hsize, bool_decide_true by done.
  cbn [negb orb run_task resume]. unfold hash_blob. rewrite Hid. unfold files in H2. rewrite H2. cbn [ok_or obind].
  assert (match fr_hash request with
          | Some expected => negb (bool_decide (expected = "sha256:" +:+ sha256_hex content)) | None => false end = false) as ->.
  { destruct (fr_hash request) as [h|]; [|done]. by rewrite bool_decide_true by auto. }
  cbn [reject_if obind finish_with run_task resume]. rewrite H1, lookup_insert_eq. eexists. split; [reflexivity|].
  unfold download_blob, authorize_signed, download_metadata. simpl. rewrite H3, bool_decide_true by done. simpl.
  rewrite Hid, lookup_insert_eq. simpl. rewrite H2. simpl. by rewrite Hsize, Hmime, Hname.
Qed.
End upload.

(** C22: The requests of an upload succeed when its parts fit under the limits, and
    the download then serves the blocks that the list names, in its order, with
    the size and type of the artifact. *)
Theorem artifact_roundtrip count state create parts picked xml finalize uuid :
  service_ok count state [] → create_guards state create = Ok tt →
  (maximum_entry_bytes (limits state) ≤ u64_max)%Z → (maximum_bytes (limits state) ≤ u64_max)%Z →
  valid_parts parts → (sizes parts ≤ maximum_entry_bytes (limits state))%Z →
  (total_logical_size (artifacts state) + sizes parts ≤ maximum_bytes (limits state))%Z →
  (∀ p, p ∈ picked → p ∈ parts) → parse_block_list xml = Ok picked.*1 → slen xml ≤ MAX_BLOCK_LIST_BYTES →
  (sizes picked ≤ maximum_entry_bytes (limits state))%Z →
  fr_run_id finalize = cr_run_id create → fr_job_id finalize = cr_job_id create → fr_name finalize = cr_name create →
  json_u64 MAX_JSON_DEPTH (fr_size finalize) = Ok (sizes picked) →
  (∀ hash, fr_hash finalize = Some hash → hash = "sha256:" +:+ sha256_hex (picked_content picked)) →
  let id := next_id state in
  let token := runtime_token state in
  ∃ s1 s2 s3 s4, create_artifact state create = (s1, Done (Ok (ArtifactCreated
      (base_url state +:+ "_gitzero/artifacts/" +:+ pretty id +:+ "/blob?sig=" +:+ token)))) ∧
    serve_all uuid s1 (stage_request id token <$> parts) = (s2, replicate (length parts) (Ok BlobCreated)) ∧
    serve uuid s2 (list_request token id xml) = (s3, Ok BlobCreated) ∧
    run_task 2 uuid s3 (finalize_artifact s3 finalize) = (s4, Ok (ArtifactFinalized (pretty id))) ∧
    download_blob s4 id token =
      set_download_headers (sizes picked) (ar_mime_type (new_artifact id create)) (cr_name create) (Some (picked_content picked)).
Proof.
  intros Hok Hg He1 Hm1 Hv He Ht Hsub Hparse Hxml Hpe Hrun Hjob Hname Hjson Hhash id token.
  assert (artifacts state !! id = None) as Hfresh.
  { destruct (artifacts state !! id) as [a|] eqn:Ha; [|done]. pose proof (so_artifacts _ _ _ Hok _ _ Ha) as Hlt.
    unfold id in Hlt. rewrite (so_next _ _ _ Hok) in Hlt. lia. }
  assert (∀ i x, artifacts state !! i = Some x → (0 ≤ artifact_logical_size x)%Z) as Hpos.
  { intros i x Hx. by eapply logical_nonneg. }
  set (mime := ar_mime_type (new_artifact id create)).
  exists (created state create).
  assert (staging (artifacts state) (limits state) token (workflow_run_backend_id state) (workflow_job_run_backend_id state)
            id (cr_name create) mime [] (created state create)) as Hst.
  { split; [reflexivity..|by apply elem_of_union_l, elem_of_singleton|by apply elem_of_union_l, elem_of_singleton|].
    intros p Hp. by apply elem_of_nil in Hp. }
  destruct (stage_all _ _ _ _ _ _ _ _ Hfresh Hpos He1 Hm1 parts (created state create) [] uuid Hst) as (s2 & Hs2 & Hst2);
    [by rewrite app_nil_r..|]. rewrite app_nil_r in Hst2.
  destruct (commit_serve _ _ _ _ _ _ _ _ He1 s2 (reverse parts) picked xml uuid Hst2) as (s3 & Hs3 & Hup); [| |done..|].
  { rewrite (reverse_Permutation parts). by destruct Hv. }
  { intros p Hp. rewrite (reverse_Permutation parts). auto. }
  assert (cr_run_id create = workflow_run_backend_id state ∧ cr_job_id create = workflow_job_run_backend_id state) as [Hr Hj].
  { unfold create_guards, validate_backend_ids in Hg. apply obind_Ok in Hg as (? & Hb%reject_if_Ok & _).
    apply negb_false_iff, andb_true_iff in Hb as [?%bool_decide_eq_true ?%bool_decide_eq_true]. done. }
  destruct (finalize_serve _ _ _ _ _ _ _ s3 _ finalize uuid Hup) as (s4 & Hs4 & Hd); [|congruence..|by rewrite slen_picked|done|].
  { intros i x Hx. by eapply guards_fresh_name. }
  exists s2, s3, s4. split_and!; [|done..|].
  - unfold create_artifact. by rewrite Hg.
  - rewrite Hd, slen_picked. done.
Qed.
End roundtrip.
