(* ===== verification/ArtifactDemo.v ===== *)
(** * The artifact service: concrete runs

    Witnesses of the theorems, and the behaviours their hypotheses exclude. *)

From S2P Require Import Prelude RustStr RustText UnixPath OrdMap Yaml Expression Instances Artifact ArtifactInv.
From S2P Require Import ArtifactProps.


(** ** Running events *)

Section checked.
Context `{AL : ArtifactLib}.

Definition compatible_b (t1 t2 : Task) : bool :=
  negb (bool_decide (task_id t1 = task_id t2)) || is_delete t1 || is_delete t2 ||
  match staged_block t1, staged_block t2 with
  | Some b1, Some b2 => negb (bool_decide (sha256_hex b1 = sha256_hex b2))
  | _, _ => false
  end.

Fixpoint pairwise_compatible_b (tasks : list Task) : bool :=
  match tasks with [] => true | task :: tasks => forallb (compatible_b task) tasks && pairwise_compatible_b tasks end.

Definition no_collision_b (state : ArtifactState) (task : Task) : bool :=
  match staged_block task, artifacts state !! task_id task with
  | Some block_id, Some a =>
      forallb (λ kv, negb (bool_decide (sha256_hex kv.1 = sha256_hex block_id)) || bool_decide (kv.1 = block_id))
        (map_to_list (ar_blocks a))
  | _, _ => true
  end.

Definition orderly_b (s : Service) : bool :=
  pairwise_compatible_b (sv_tasks s) && forallb (no_collision_b (sv_state s)) (sv_tasks s).

Definition abandons_rename_b (event : Event) (s : Service) : bool :=
  match event with
  | Abandon n => match sv_tasks s !! n with Some t => is_record t | None => false end
  | _ => false
  end.

Fixpoint run_checked (s : Service) (events : list Event) : option Service :=
  match events with
  | [] => Some s
  | event :: events =>
      s' ← service_step event s;
      if orderly_b s' && negb (abandons_rename_b event s) then run_checked s' events else None
  end.

Lemma compatible_b_true t1 t2 : compatible_b t1 t2 = true → compatible t1 t2.
Proof.
  unfold compatible_b, compatible. rewrite !orb_true_iff, negb_true_iff, bool_decide_eq_false.
  intros [[[H|H]|H]|H]; auto. right; right; right. destruct (staged_block t1) as [b1|], (staged_block t2) as [b2|]; try done.
  apply negb_true_iff, bool_decide_eq_false in H. eauto.
Qed.

Lemma orderly_b_true s : orderly_b s = true → orderly s.
Proof.
  unfold orderly_b, orderly. intros [H1 H2]%andb_true_iff. split.
  - clear H2. induction (sv_tasks s) as [|t tasks IH]; [done|]. simpl in *. apply andb_true_iff in H1 as [Ht H1].
    split; [|by apply IH]. apply Forall_forall. intros t' Hin. apply compatible_b_true.
    rewrite forallb_forall in Ht. by apply Ht, list_elem_of_In.
  - apply Forall_forall. intros t Hin. rewrite forallb_forall in H2. apply list_elem_of_In, H2 in Hin.
    intros block_id a Hb Ha other block Ho Hs. unfold no_collision_b in Hin. rewrite Hb, Ha, forallb_forall in Hin.
    specialize (Hin (other, block)). simpl in Hin. rewrite <-list_elem_of_In, elem_of_map_to_list in Hin.
    specialize (Hin Ho). apply orb_true_iff in Hin as [Hin|Hin].
    + apply negb_true_iff, bool_decide_eq_false in Hin. done.
    + by apply bool_decide_eq_true in Hin.
Qed.

Lemma orderly_run_cons s event s1 events s' :
  service_step event s = Some s1 → orderly s1 → ¬ abandons_rename event s → orderly_run s1 events s' →
  orderly_run s (event :: events) s'.
Proof.
  intros Hs Ho Hno Hrun. induction Hrun as [|events s2 e s3 _ IH H1 H2 H3].
  - change [event] with ([] ++ [event]). econstructor; [constructor|done..].
  - change (event :: events ++ [e]) with ((event :: events) ++ [e]). by econstructor.
Qed.

Lemma run_checked_orderly s events s' : run_checked s events = Some s' → orderly_run s events s'.
Proof.
  revert s; induction events as [|event events IH]; intros s; cbn [run_checked].
  { intros [= <-]. constructor. }
  intros (s1 & Hs & Hr)%bind_Some. destruct (orderly_b s1) eqn:Ho; [|done].
  destruct (abandons_rename_b event s) eqn:Ha; [done|]. simpl in Hr.
  eapply orderly_run_cons; [exact Hs|by apply orderly_b_true| |by apply IH].
  intros (n & id & size & -> & Hn). simpl in Ha. by rewrite Hn in Ha.
Qed.

(** The state after events that the check accepts. *)
Definition run_to (s : Service) (events : list Event) : Service := default s (run_checked s events).

Lemma run_to_orderly s events : is_some (run_checked s events) = true → orderly_run s events (run_to s events).
Proof.
  intros H. apply run_checked_orderly. unfold run_to. by destruct (run_checked s events).
Qed.
End checked.

(** ** An instance *)

#[local] Existing Instance demo_expressions.

(** Requests as [name] or [name:size]; the digest is the text itself. *)
#[local] Instance demo_artifacts : ArtifactLib := {|
  sha256_hex := λ s, s;
  jnum_u64 := λ n, if bool_decide (0 ≤ n ≤ u64_max)%Z then Some n else None;
  header_value := λ s, Ok s;
  parse_create := λ s, Ok (mkCreate "run" "job" s None 4);
  parse_finalize := λ s, match split_once ":" s with
                         | Some (name, size) => Ok (mkFinalize "run" "job" name (JString size) None)
                         | None => Err "expected a size"
                         end;
  parse_list := λ s, Ok (mkList "run" "job" None None);
  parse_named := λ s, Ok (mkNamed "run" "job" s);
|}.

Definition demo_state : ArtifactState :=
  mkArtifactState "http://127.0.0.1:1/" "token" "run" "job" (mkArtifactLimits 20 10) 1 ∅ (mkDisk ∅ ∅ ∅).

Lemma demo_started :
  start_service "http://127.0.0.1:1/" "token" "run" "job" (mkArtifactLimits 20 10) = Ok demo_state.
Proof. reflexivity. Qed.

Definition call (method body : string) : Event := Begin (Twirp method (Some "Bearer token") [Some body]).
Definition put (comp blockid : option string) (body : string) : Event :=
  Begin (PutBlob 1 "token" comp blockid None [Some body]).

(** Two blocks are uploaded at the same time, then listed, with a deletion of
    another artifact in between. *)
Definition demo_events : list Event :=
  [call "CreateArtifact" "logs"; call "CreateArtifact" "old";
   put (Some "block") (Some "b1") "hello"; put (Some "block") (Some "b2") " you"; Resume 1 "u1"; Resume 1 "u2";
   Resume 0 ""; Resume 0 "";
   call "DeleteArtifact" "old"; put (Some "blocklist") None "<Latest>b1</Latest><Latest>b2</Latest>";
   Resume 0 "u3"; Resume 0 ""; Resume 0 ""; Resume 0 ""; Resume 0 ""; Resume 0 ""; Resume 0 "";
   call "FinalizeArtifact" "logs:9"; Resume 0 ""; Resume 0 ""].

Definition demo_service : Service := run_to (mkService demo_state []) demo_events.

(** Later requests on the finalized artifact. *)
Definition demo_more : list Event :=
  [put None None "other"; put (Some "block") (Some "b1") "x"; call "CreateArtifact" "logs"; call "ListArtifacts" ""].

Definition no_artifact : ArtifactRecord := mkArtifact 0 "" "" ∅ false false 0 None.
Definition demo_artifact : ArtifactRecord := default no_artifact (artifacts (sv_state demo_service) !! 1%Z).

Lemma demo_artifact_Some : artifacts (sv_state demo_service) !! 1%Z = Some demo_artifact.
Proof.
  assert (is_some (artifacts (sv_state demo_service) !! 1%Z) = true) as H by (vm_compute; reflexivity).
  unfold demo_artifact. by destruct (artifacts (sv_state demo_service) !! 1%Z).
Qed.

Lemma finalized_artifacts_are_immutable_witness :
  ∃ content, intact (sv_state demo_service) 1 demo_artifact content ∧
    download_blob (sv_state demo_service) 1 (runtime_token (sv_state demo_service)) =
      set_download_headers (ar_size demo_artifact) (ar_mime_type demo_artifact) (ar_name demo_artifact) (Some content) ∧
    (∀ id' a', artifacts (sv_state demo_service) !! id' = Some a' → ar_name a' = ar_name demo_artifact → id' = 1%Z) ∧
    (artifacts (sv_state (run_to demo_service demo_more)) !! 1%Z = None ∨
     artifacts (sv_state (run_to demo_service demo_more)) !! 1%Z = Some demo_artifact ∧
     intact (sv_state (run_to demo_service demo_more)) 1 demo_artifact content).
Proof.
  apply (finalized_artifacts_are_immutable "http://127.0.0.1:1/" "token" "run" "job" (mkArtifactLimits 20 10) demo_state demo_events demo_service demo_more
           (run_to demo_service demo_more) 1 demo_artifact).
  - exact demo_started.
  - apply run_to_orderly. vm_compute. reflexivity.
  - apply run_to_orderly. vm_compute. reflexivity.
  - vm_compute. reflexivity.
  - exact demo_artifact_Some.
  - vm_compute. reflexivity.
Defined.

Example demo_download :
  download_blob (sv_state demo_service) 1 "token" =
    Ok (BlobServed "9" "application/zip" ("attachment; filename=" +:+ String "034" ("logs" +:+ String "034" "")) (Some "hello you")).
Proof. vm_compute. reflexivity. Qed.

Lemma block_list_roundtrip_witness :
  parse_block_list (render_list [("<?xml version='1.0'?><BlockList>", "Latest", "b1"); (" ", "Committed", "b2")] "</BlockList>") = Ok ["b1"; "b2"].
Proof.
  apply (block_list_roundtrip [("<?xml version='1.0'?><BlockList>", "Latest", "b1"); (" ", "Committed", "b2")] "</BlockList>").
  - done.
  - repeat constructor; try (by apply (bool_decide_unpack _)); vm_compute; reflexivity.
  - by apply (bool_decide_unpack _).
  - vm_compute. reflexivity.
Defined.

Definition demo_parts : list Part := [("b1", ["hel"; "lo"]); ("b2", [" you"])].
Definition demo_picked : list Part := [("b2", [" you"]); ("b1", ["hel"; "lo"])].
Definition demo_create : CreateArtifactRequest := mkCreate "run" "job" "logs" None 4.
Definition demo_finalize : FinalizeArtifactRequest := mkFinalize "run" "job" "logs" (JString "9") (Some "sha256: youhello").
Definition demo_xml : string := "<BlockList><Latest>b2</Latest><Latest>b1</Latest></BlockList>".

Lemma artifact_roundtrip_witness :
  ∃ s1 s2 s3 s4, create_artifact demo_state demo_create = (s1, Done (Ok (ArtifactCreated
      (base_url demo_state +:+ "_gitzero/artifacts/" +:+ pretty (next_id demo_state) +:+ "/blob?sig=" +:+ runtime_token demo_state)))) ∧
    serve_all "u" s1 (stage_request (next_id demo_state) (runtime_token demo_state) <$> demo_parts) =
      (s2, replicate (length demo_parts) (Ok BlobCreated)) ∧
    serve "u" s2 (list_request (runtime_token demo_state) (next_id demo_state) demo_xml) = (s3, Ok BlobCreated) ∧
    run_task 2 "u" s3 (finalize_artifact s3 demo_finalize) = (s4, Ok (ArtifactFinalized (pretty (next_id demo_state)))) ∧
    download_blob s4 (next_id demo_state) (runtime_token demo_state) =
      set_download_headers (sizes demo_picked) (ar_mime_type (new_artifact (next_id demo_state) demo_create)) (cr_name demo_create)
        (Some (picked_content demo_picked)).
Proof.
  apply (artifact_roundtrip 1 demo_state demo_create demo_parts demo_picked demo_xml demo_finalize "u").
  - exact (proj1 (start_service_ok _ _ _ _ _ _ demo_started)).
  - reflexivity.
  - by vm_compute.
  - by vm_compute.
  - split; [by apply (bool_decide_unpack _)|]. split; [repeat constructor|].
    unfold demo_parts. intros p q Hp Hq Heq. exact Heq.
  - by vm_compute.
  - by vm_compute.
  - unfold demo_parts, demo_picked. intros p. rewrite !elem_of_cons. naive_solver.
  - vm_compute. reflexivity.
  - apply Nat.leb_le. vm_compute. reflexivity.
  - by vm_compute.
  - reflexivity.
  - reflexivity.
  - reflexivity.
  - vm_compute. reflexivity.
  - intros hash [= <-]. reflexivity.
Defined.

(** ** What the discipline excludes *)

Fixpoint run_events (s : Service) (events : list Event) : option Service :=
  match events with
  | [] => Some s
  | event :: events => s' ← service_step event s; run_events s' events
  end.

(** An upload that checks the artifact before the finalization and ends after it
    replaces the content under the recorded digest. *)
Example late_upload_replaces_a_finalized_artifact :
  (λ s, (download_blob (sv_state s) 1 "token", ar_digest <$> artifacts (sv_state s) !! 1%Z)) <$>
    run_events (mkService demo_state [])
      [call "CreateArtifact" "logs"; put None None "hello"; Resume 0 "u1"; Resume 0 "";
       put None None "other"; call "FinalizeArtifact" "logs:5"; Resume 0 ""; Resume 0 ""; Resume 0 "u2"; Resume 0 ""] =
  Some (Ok (BlobServed "5" "application/zip" ("attachment; filename=" +:+ String "034" ("logs" +:+ String "034" "")) (Some "other")),
        Some (Some "sha256:hello")).
Proof. vm_compute. reflexivity. Qed.

(** A list may name a block more than once, and the limit of the run is not
    checked again: three artifacts of ten bytes under a limit of twenty. *)
Definition stage_five (id : Z) : list Event :=
  [call "CreateArtifact" (pretty id); Begin (PutBlob id "token" (Some "block") (Some "b") None [Some "12345"]); Resume 0 "u"; Resume 0 ""].

Definition list_twice (id : Z) : list Event :=
  [Begin (PutBlob id "token" (Some "blocklist") None None [Some "<Latest>b</Latest><Latest>b</Latest>"]);
   Resume 0 "u"; Resume 0 ""; Resume 0 ""; Resume 0 ""; Resume 0 ""; Resume 0 ""].

Example block_lists_exceed_the_run_limit :
  (λ s, (maximum_bytes (limits (sv_state s)), total_logical_size (artifacts (sv_state s)))) <$>
    run_events (mkService demo_state [])
      (stage_five 1 ++ stage_five 2 ++ stage_five 3 ++ list_twice 1 ++ list_twice 2 ++ list_twice 3) = Some (20, 30)%Z.
Proof. vm_compute. reflexivity. Qed.

(** Blocks staged after a blob was committed are not counted at all. *)
Example staged_blocks_exceed_the_run_limit :
  (λ s, (total_logical_size (artifacts (sv_state s)), block_sizes (from_option ar_blocks ∅ (artifacts (sv_state s) !! 1%Z)))) <$>
    run_events (mkService demo_state [])
      ([call "CreateArtifact" "logs"; put None None "1"; Resume 0 "u"; Resume 0 ""] ++
       mjoin ((λ b, [put (Some "block") (Some b) "123456789"; Resume 0 "u"; Resume 0 ""]) <$> ["b1"; "b2"; "b3"])) = Some (1, 27)%Z.
Proof. vm_compute. reflexivity. Qed.

(** A commit whose connection is closed between the renaming and the record
    leaves a blob that is longer than the record says. *)
Example abandoned_commit_leaves_another_blob :
  (λ s, (files (sv_state s) !! (1%Z, BlobFile), ar_size <$> artifacts (sv_state s) !! 1%Z, sv_tasks s)) <$>
    run_events (mkService demo_state [])
      [call "CreateArtifact" "logs"; put None None "1"; Resume 0 "u"; Resume 0 "";
       put (Some "block") (Some "b") "12345"; Resume 0 "u"; Resume 0 "";
       put (Some "blocklist") None "<Latest>b</Latest>"; Resume 0 "u"; Resume 0 ""; Resume 0 ""; Abandon 0] =
  Some (Some "12345", Some 1%Z, []).
Proof. vm_compute. reflexivity. Qed.
