(* ===== verification/JobContext.v ===== *)
(** * The contexts of a job (crates/gitzero-agent, executor.rs)

    The environment and the expression context of a job: the event, the secrets
    and inputs a reusable workflow receives, matrices that are evaluated at run
    time and the concurrency group of a job.  An error is the outermost message,
    as [anyhow] displays it. *)

From S2P Require Import Prelude RustStr UnixPath OrdMap Yaml Expression Evaluate Templates Workflow Permissions.
From S2P Require Import Matrix Expansion Scheduler RustText CommandFile Protocol.

(** [serde_json] between the crates: a [serde_json::Value] the workflow crate
    stores is a [JValue], and numbers are built and displayed. *)
Class JsonInterop `{VT : ValueTypes} `{EL : ExpressionLib} := {
  json_value : json → JValue;
  jnum_of_u64 : Z → jnum;
  jnum_display : jnum → string;
  yaml_of_json : JValue → outcome string Value;        (** [serde_yaml_ng::to_value] *)
}.

Section job_context.
Context `{VL : ValueLib} `{EL : ExpressionLib} `{JL : !JsonLib} `{JI : !JsonInterop}.
Context (hash_files : string → list string → outcome ExpressionError string).

Notation Environment := (gmap string string).
Notation Outputs := (gmap string (gmap string string)).

Definition jobject (entries : list (string * JValue)) : JValue := JObject (btree_collect entries).
Definition jnumber (n : Z) : JValue := JNumber (jnum_of_u64 n).
Definition jstrings (m : gmap string string) : JValue := JObject (JString <$> m).

(** [context.insert_json(...)?] *)
Definition insert_json_root (name : string) (value : JValue) (context : EvaluationContext) : outcome string EvaluationContext :=
  let '(context, result) := insert_json context name value in
  map_err display_error result ;? Ok context.

Definition render_or (message : string) (context : EvaluationContext) (template : string) : outcome string string :=
  map_err (λ _, message) (render hash_files context template).

(** ** The event *)

Definition repository_name {J : Type} (run : RunSpec J) : string :=
  rs_owner (run_repository run) +:+ "/" +:+ rs_name (run_repository run).

Definition github_event (run : RunSpec JValue) : JValue :=
  let pull := run_pull_request run in
  let synthetic := jobject
    [("action", JString (prs_action pull));
     ("number", jnumber (prs_number pull));
     ("installation", jobject [("id", jnumber (run_installation_id run))]);
     ("pull_request", jobject
       [("number", jnumber (prs_number pull));
        ("merged", JBool (bool_decide (prs_action pull = "closed") && starts_with "refs/heads/" (prs_execution_ref pull)));
        ("merge_commit_sha", JString (prs_merge_sha pull));
        ("head", jobject [("sha", JString (prs_head_sha pull)); ("ref", JString (prs_head_ref pull))]);
        ("base", jobject [("sha", JString (prs_base_sha pull)); ("ref", JString (prs_base_ref pull))])]);
     ("repository", jobject
       [("name", JString (rs_name (run_repository run)));
        ("full_name", JString (repository_name run));
        ("clone_url", JString (rs_clone_url (run_repository run)));
        ("owner", jobject [("login", JString (rs_owner (run_repository run)))])])] in
  match run_event run with
  | JObject event => if bool_decide (event = ∅) then synthetic else run_event run
  | _ => synthetic
  end.

(** [Value::pointer] with names that are not indices. *)
Fixpoint pointer (names : list string) (value : JValue) : option JValue :=
  match names with
  | [] => Some value
  | name :: names => match value with JObject m => m !! name ≫= pointer names | _ => None end
  end.

Definition event_scalar (event : JValue) (names : list string) : string :=
  match pointer names event with
  | Some (JString value) => value
  | Some (JNumber value) => jnum_display value
  | Some (JBool value) => if value then "true" else "false"
  | _ => ""
  end.

Definition synthetic_run_id {J : Type} (run : RunSpec J) : string := pretty (run_id run).

Definition effective_run_number {J : Type} (run : RunSpec J) : Z :=
  if bool_decide (run_number run = 0)%Z then prs_number (run_pull_request run) else run_number run.

Definition execution_ref_name {J : Type} (run : RunSpec J) : string :=
  let execution_ref := prs_execution_ref (run_pull_request run) in
  match strip_prefix "refs/heads/" execution_ref with
  | Some name => name
  | None => default execution_ref (strip_prefix "refs/pull/" execution_ref)
  end.

(** [std::env::consts::ARCH] *)
Definition runner_arch (arch : string) : string :=
  if bool_decide (arch = "aarch64") then "ARM64" else if bool_decide (arch = "x86_64") then "X64" else arch.

(** ** Environments *)

Definition github_workflow_environment {J : Type} (run : RunSpec J) (plan : ExecutionPlan) : Environment :=
  btree_collect
    [("GITHUB_WORKFLOW", ep_workflow_name plan);
     ("GITHUB_WORKFLOW_REF", repository_name run +:+ "/" +:+ ep_workflow_path plan +:+ "@" +:+
                             prs_execution_ref (run_pull_request run));
     ("GITHUB_WORKFLOW_SHA", prs_merge_sha (run_pull_request run))].

(** The event is also written to [event.json]. *)
Definition github_environment (arch : string) (run : RunSpec JValue) (repository_dir run_dir tool_cache runner_name : string)
    : Environment :=
  let event := github_event run in
  let pull := run_pull_request run in
  btree_collect
    [("CI", "true");
     ("GITHUB_ACTIONS", "true");
     ("GITHUB_ACTOR", event_scalar event ["sender"; "login"]);
     ("GITHUB_ACTOR_ID", event_scalar event ["sender"; "id"]);
     ("GITHUB_API_URL", "https://api.github.com");
     ("GITHUB_EVENT_NAME", "pull_request");
     ("GITHUB_EVENT_PATH", join run_dir "event.json");
     ("GITHUB_SHA", prs_merge_sha pull);
     ("GITHUB_REF", prs_execution_ref pull);
     ("GITHUB_REF_NAME", execution_ref_name run);
     ("GITHUB_REF_PROTECTED", "false");
     ("GITHUB_REF_TYPE", "branch");
     ("GITHUB_HEAD_REF", prs_head_ref pull);
     ("GITHUB_BASE_REF", prs_base_ref pull);
     ("GITHUB_REPOSITORY", repository_name run);
     ("GITHUB_REPOSITORY_ID", event_scalar event ["repository"; "id"]);
     ("GITHUB_REPOSITORY_OWNER", rs_owner (run_repository run));
     ("GITHUB_REPOSITORY_OWNER_ID", event_scalar event ["repository"; "owner"; "id"]);
     ("GITHUB_RETENTION_DAYS", "30");
     ("GITHUB_RUN_ATTEMPT", "1");
     ("GITHUB_RUN_ID", synthetic_run_id run);
     ("GITHUB_RUN_NUMBER", pretty (effective_run_number run));
     ("GITHUB_SERVER_URL", "https://github.com");
     ("GITHUB_GRAPHQL_URL", "https://api.github.com/graphql");
     ("GITHUB_TRIGGERING_ACTOR", event_scalar event ["sender"; "login"]);
     ("GITHUB_WORKSPACE", repository_dir);
     ("RUNNER_OS", "macOS");
     ("RUNNER_ARCH", runner_arch arch);
     ("RUNNER_NAME", runner_name);
     ("RUNNER_ENVIRONMENT", "self-hosted");
     ("RUNNER_TEMP", join run_dir "_temp");
     ("RUNNER_TOOL_CACHE", tool_cache);
     ("AGENT_TOOLSDIRECTORY", tool_cache)].

Definition render_environment (source : Environment) (context : EvaluationContext) : outcome string Environment :=
  let? rendered := traverse (λ '(key, value),
    let? value := render_or ("render environment variable '" +:+ key +:+ "'") context value in Ok (key, value))
    (btree_iter source) in
  Ok (btree_collect rendered).

(** ** Secrets of reusable workflows *)

Definition case_insensitive_secret (secrets : Environment) (requested : string) : option (string * string) :=
  find (λ entry, eq_ignore_ascii_case entry.1 requested) (btree_iter secrets).

(** What a call passes on: the token, everything with [inherit], and the
    mappings. *)
Definition scope_secrets (scope : PlannedReusableSecretScope) (previous : Environment) : Environment :=
  let current := match case_insensitive_secret previous "GITHUB_TOKEN" with
                 | Some (name, value) => {[name := value]}
                 | None => ∅
                 end in
  let current := if ss_inherit scope then btree_extend current previous else current in
  fold_left (λ current '(target, source),
    match case_insensitive_secret previous source with
    | Some (_, value) => <[target := value]> current
    | None => current
    end) (btree_iter (ss_mappings scope)) current.

Definition resolve_secret_scope (base_id : string) (scope : PlannedReusableSecretScope) (available : Environment)
    : outcome string Environment :=
  let current := scope_secrets scope available in
  match find (λ required, negb (is_some (case_insensitive_secret current required))) (set_iter (ss_required scope)) with
  | Some missing => Err ("required reusable workflow secret '" +:+ missing +:+ "' is unavailable for job '" +:+ base_id +:+ "'")
  | None => Ok current
  end.

Definition resolve_reusable_secrets (job : PlannedJob) (base_secrets : Environment) : outcome string Environment :=
  for_each (resolve_secret_scope (pj_base_id job)) (pj_reusable_secret_scopes job) base_secrets.

Definition with_github_token (github_token : option string) (secrets : Environment) : Environment :=
  match github_token with Some token => <["GITHUB_TOKEN" := token]> secrets | None => secrets end.

Definition authorized_checkout_secret_values (job : PlannedJob) (managed_secrets : Environment) (github_token : option string)
    : outcome string (gset string) :=
  let? resolved := resolve_reusable_secrets job (with_github_token github_token managed_secrets) in
  Ok (list_to_set (base.filter (λ value, negb (is_empty value) && bool_decide (value ∈ btree_values managed_secrets) = true)
                    (btree_values resolved))).

(** ** The expression context *)

Definition need_json (completed_bases : gmap string JobConclusion) (completed_outputs : Outputs) (entry : string * string)
    : outcome string (string * JValue) :=
  let '(alias, id) := entry in
  let? conclusion := expect (completed_bases !! id) in
  let? outputs := expect (completed_outputs !! id) in
  Ok (alias, jobject [("result", JString (as_github_result conclusion)); ("outputs", jstrings outputs)]).

Definition or_empty (environment : Environment) (name : string) : JValue := JString (default "" (environment !! name)).

Definition github_json (run : RunSpec JValue) (job : PlannedJob) (environment : Environment) (workspace run_dir : string)
    (github_token : option string) (managed_secrets : Environment) : JValue :=
  let event := github_event run in
  let pull := run_pull_request run in
  jobject
    [("action", or_empty environment "GITHUB_ACTION");
     ("actor", JString (event_scalar event ["sender"; "login"]));
     ("actor_id", JString (event_scalar event ["sender"; "id"]));
     ("api_url", JString "https://api.github.com");
     ("event", event);
     ("event_name", JString "pull_request");
     ("event_path", JString (join run_dir "event.json"));
     ("graphql_url", JString "https://api.github.com/graphql");
     ("sha", JString (prs_merge_sha pull));
     ("ref", JString (prs_execution_ref pull));
     ("ref_name", JString (execution_ref_name run));
     ("ref_protected", JBool false);
     ("ref_type", JString "branch");
     ("head_ref", JString (prs_head_ref pull));
     ("base_ref", JString (prs_base_ref pull));
     ("repository", JString (repository_name run));
     ("repository_id", JString (event_scalar event ["repository"; "id"]));
     ("repository_owner", JString (rs_owner (run_repository run)));
     ("repository_owner_id", JString (event_scalar event ["repository"; "owner"; "id"]));
     ("repositoryUrl", JString (rs_clone_url (run_repository run)));
     ("retention_days", JString "30");
     ("run_id", JString (synthetic_run_id run));
     ("run_number", JString (pretty (effective_run_number run)));
     ("run_attempt", JString "1");
     ("server_url", JString "https://github.com");
     ("triggering_actor", JString (event_scalar event ["sender"; "login"]));
     ("workflow", or_empty environment "GITHUB_WORKFLOW");
     ("workflow_ref", or_empty environment "GITHUB_WORKFLOW_REF");
     ("workflow_sha", JString (default (prs_merge_sha pull) (environment !! "GITHUB_WORKFLOW_SHA")));
     ("workspace", JString workspace);
     ("job", JString (pj_base_id job));
     ("token", match github_token with Some token => JString token | None => JNull end);
     ("secret_source", JString (if is_some github_token || negb (btree_is_empty managed_secrets) then "Actions" else "None"))].

Definition strategy_json (job : PlannedJob) : JValue :=
  match pj_strategy_job_index job, pj_strategy_job_total job with
  | Some index, Some total => jobject
      [("fail-fast", JBool (pj_matrix_fail_fast job));
       ("job-index", jnumber (Z.of_nat index));
       ("job-total", jnumber (Z.of_nat total));
       ("max-parallel", jnumber (default (Z.of_nat total) (pj_matrix_max_parallel job)))]
  | _, _ => JObject ∅
  end.

Definition job_json (job : PlannedJob) (status : ExecutionStatus) : JValue :=
  jobject (("status", JString (execution_status_result status)) ::
    match pj_workflow_identity job with
    | Some identity =>
        [("workflow_ref", JString (id_workflow_ref identity));
         ("workflow_sha", JString (id_workflow_sha identity));
         ("workflow_repository", JString (id_workflow_repository identity));
         ("workflow_file_path", JString (id_workflow_file_path identity))]
    | None => []
    end).

Definition runner_json (arch : string) (environment : Environment) (run_dir : string) : JValue :=
  jobject
    [("os", JString "macOS");
     ("arch", JString (runner_arch arch));
     ("name", or_empty environment "RUNNER_NAME");
     ("temp", JString (default (join run_dir "_temp") (environment !! "RUNNER_TEMP")));
     ("tool_cache", or_empty environment "RUNNER_TOOL_CACHE");
     ("environment", or_empty environment "RUNNER_ENVIRONMENT")].

(** [expression_context_with_variables] *)
Definition expression_context_with_variables (arch : string) (run : RunSpec JValue) (variables : Environment) (job : PlannedJob)
    (completed_bases : gmap string JobConclusion) (completed_outputs : Outputs) (environment : Environment)
    (steps inputs : JValue) (status : ExecutionStatus) (workspace run_dir : string) (github_token : option string)
    (managed_secrets : Environment) : outcome string EvaluationContext :=
  let? needs := traverse (need_json completed_bases completed_outputs) (btree_iter (pj_need_aliases job)) in
  let context := with_workspace (with_status context_new status) workspace in
  let? context := insert_json_root "github" (github_json run job environment workspace run_dir github_token managed_secrets) context in
  let base_secrets := with_github_token github_token managed_secrets in
  let? context :=
    if btree_is_empty base_secrets then Ok context
    else
      let? secrets := resolve_reusable_secrets job base_secrets in
      insert_json_root "secrets" (jstrings secrets) context in
  let? context := insert_json_root "env" (jstrings environment) context in
  let? context := insert_json_root "matrix" (JObject (json_value <$> pj_matrix job)) context in
  let? context := insert_json_root "strategy" (strategy_json job) context in
  let? context := insert_json_root "vars" (jstrings variables) context in
  let? context := insert_json_root "needs" (jobject needs) context in
  let? context := insert_json_root "steps" steps context in
  let? context := insert_json_root "inputs" inputs context in
  let? context := insert_json_root "job" (job_json job status) context in
  insert_json_root "runner" (runner_json arch environment run_dir) context.

Definition expression_context (arch : string) (run : RunSpec JValue) (job : PlannedJob)
    (completed_bases : gmap string JobConclusion) (completed_outputs : Outputs) (environment : Environment)
    (steps inputs : JValue) (status : ExecutionStatus) (workspace run_dir : string) (github_token : option string)
    : outcome string EvaluationContext :=
  expression_context_with_variables arch run (run_variables run) job completed_bases completed_outputs environment
    steps inputs status workspace run_dir github_token ∅.

(** ** Values of templates *)

Definition is_exact_expression (value : string) : bool :=
  let value := trim value in
  match strip_prefix "${{" value with
  | None => false
  | Some expression =>
      match scan_expression_end false expression 0 with
      | Some offset => is_empty (trim (sdrop (3 + offset + 2) value))
      | None => false
      end
  end.

Fixpoint resolve_matrix_value (context : EvaluationContext) (value : Value) : outcome string JValue :=
  match value with
  | VString value =>
      if is_exact_expression value
      then map_err (λ _, "evaluate matrix expression '" +:+ value +:+ "'") (evaluate_json hash_files context value)
      else omap_ok JString (render_or ("render matrix value '" +:+ value +:+ "'") context value)
  | VSequence values => omap_ok JArray (traverse (resolve_matrix_value context) values)
  | VMapping entries =>
      omap_ok JObject (for_each (λ '(key, value) resolved,
        let? key := ok_or (as_str key) "dynamic matrix keys must be strings" in
        let? value := resolve_matrix_value context value in
        Ok (<[key := value]> resolved)) entries ∅)
  | VTagged _ value => resolve_matrix_value context value
  | VNull | VBool _ | VNumber _ =>
      map_err (λ _, "convert static matrix value to JSON") (omap_ok json_value (to_value value))
  end.

(** ** Inputs of reusable workflows *)

Definition input_matches (input_type : ReusableInputType) (value : JValue) : bool :=
  match input_type, value with
  | InputString, JString _ | InputBoolean, JBool _ | InputNumber, JNumber _ => true
  | _, _ => false
  end.

Definition resolve_input (base_id : string) (context : EvaluationContext) (entry : string * PlannedReusableInput)
    : outcome string (string * JValue) :=
  let '(name, input) := entry in
  let? value := map_err (λ _, "evaluate reusable workflow input '" +:+ name +:+ "'")
                  (resolve_matrix_value context (ri_value input)) in
  reject_if (negb (input_matches (ri_input_type input) value))
    ("reusable workflow input '" +:+ name +:+ "' for job '" +:+ base_id +:+ "' resolved to the wrong type") ;?
  Ok (name, value).

Definition resolve_input_scope (base_id : string) (context : EvaluationContext) (scope : PlannedReusableInputScope)
    (resolved_inputs : JValue) : outcome string JValue :=
  let? scope_context := insert_json_root "inputs" resolved_inputs context in
  let? scope_context := insert_json_root "matrix" (JObject (json_value <$> ris_matrix scope)) scope_context in
  let? inputs := traverse (resolve_input base_id scope_context) (btree_iter (ris_inputs scope)) in
  Ok (jobject inputs).

Definition resolve_reusable_inputs (job : PlannedJob) (context : EvaluationContext) : outcome string JValue :=
  for_each (resolve_input_scope (pj_base_id job) context) (pj_reusable_input_scopes job) (JObject ∅).

(** ** Matrices that are known at run time *)

Definition matrix_instance (template : PlannedJob) (total index : nat) (matrix : gmap string json) : PlannedJob :=
  template
    <| pj_id := pj_base_id template +:+ "[" +:+ pretty (S index) +:+ "]" |>
    <| pj_matrix := matrix |>
    <| pj_dynamic_matrix := None |>
    <| pj_strategy_job_index := Some index |>
    <| pj_strategy_job_total := Some total |>.

Definition matrix_instances (template : PlannedJob) (combinations : list (gmap string json)) : list PlannedJob :=
  (λ '(index, matrix), matrix_instance template (length combinations) index matrix) <$> enumerate combinations.

Definition expand_dynamic_matrix_job (arch workflow_name : string) (template : PlannedJob) (run : RunSpec JValue)
    (completed_bases : gmap string JobConclusion) (completed_outputs : Outputs) (repository_dir run_dir : string)
    (environment : Environment) (reusable_inputs : JValue) : outcome string (list PlannedJob) :=
  let? matrix_template := ok_or (pj_dynamic_matrix template) "dynamic matrix template is missing" in
  let? status := dependency_status (pj_needs template) completed_bases in
  let? context := expression_context arch run template completed_bases completed_outputs environment (JObject ∅)
                    reusable_inputs status repository_dir run_dir None in
  let? resolved := map_err (λ _, "evaluate dynamic matrix for job '" +:+ pj_base_id template +:+ "'")
                     (resolve_matrix_value context matrix_template) in
  let? resolved := map_err (λ _, "convert evaluated dynamic matrix to workflow data") (yaml_of_json resolved) in
  let? combinations := map_err (λ _, "expand evaluated dynamic matrix")
                         (expand_matrix_definition workflow_name (pj_base_id template) resolved) in
  Ok (matrix_instances template combinations).

(** ** Concurrency *)

Definition invalid_group (group : string) : bool :=
  is_empty group || bool_decide (256 < slen group) ||
  contains_byte (λ c, bool_decide (c ∈ [nul; lf; cr])) group.

Definition resolve_concurrency (concurrency : PlannedConcurrency) (context : EvaluationContext) (unit_id : string)
    : outcome string (string * bool * ConcurrencyQueue) :=
  let? group := render_or ("render concurrency group for '" +:+ unit_id +:+ "'") context (pc_group concurrency) in
  let group := trim group in
  reject_if (invalid_group group) ("concurrency group for '" +:+ unit_id +:+ "' resolved to an invalid value") ;?
  let? cancel_in_progress := map_err (λ _, "evaluate concurrency cancel-in-progress for '" +:+ unit_id +:+ "'")
                               (evaluate_condition hash_files context (pc_cancel_in_progress concurrency)) in
  let queue := match pc_queue concurrency with QueueSingle => Single | QueueMax => Max end in
  reject_if (bool_decide (queue = Max) && cancel_in_progress)
    ("concurrency for '" +:+ unit_id +:+ "' cannot resolve queue: max with cancel-in-progress: true") ;?
  Ok (group, cancel_in_progress, queue).

Definition resolve_job_concurrency (arch : string) (job : PlannedJob) (run : RunSpec JValue)
    (completed_bases : gmap string JobConclusion) (completed_outputs : Outputs) (environment : Environment)
    (reusable_inputs : JValue) (workspace run_dir : string) : outcome string (option (string * bool * ConcurrencyQueue)) :=
  match pj_concurrency job with
  | None => Ok None
  | Some configuration =>
      let? status := dependency_status (pj_needs job) completed_bases in
      let? context := expression_context arch run job completed_bases completed_outputs environment (JObject ∅)
                        reusable_inputs status workspace run_dir None in
      omap_ok Some (resolve_concurrency configuration context (pj_id job))
  end.
End job_context.

(** * The contexts of a job: properties

    What a called workflow sees of its caller's secrets and inputs, which
    concurrency groups can be asked for, and that the context of a job exists
    whenever its needs have completed. *)

(** ** Secrets *)

Section secrets.
Implicit Types (secrets previous current : gmap string string).

Lemma case_insensitive_secret_Some secrets requested name value :
  case_insensitive_secret secrets requested = Some (name, value) →
  secrets !! name = Some value ∧ eq_ignore_ascii_case name requested = true.
Proof.
  unfold case_insensitive_secret. intros H. apply find_some in H as [Hin Heq].
  split; [|done]. apply elem_of_btree_iter. by apply list_elem_of_In.
Qed.

Lemma case_insensitive_secret_None secrets requested name value :
  case_insensitive_secret secrets requested = None →
  secrets !! name = Some value → eq_ignore_ascii_case name requested = false.
Proof.
  intros H Hname. apply elem_of_btree_iter, list_elem_of_In in Hname.
  by apply (find_none _ _ H) in Hname.
Qed.

Lemma fold_left_ext {A B} (f g : A → B → A) (l : list B) a :
  (∀ a b, f a b = g a b) → fold_left f l a = fold_left g l a.
Proof. intros H. revert a. induction l as [|b l IH]; intros a; [done|]. cbn. by rewrite H. Qed.

Definition pass_mapping previous current (mapping : string * string) : gmap string string :=
  match case_insensitive_secret previous mapping.2 with
  | Some (_, value) => <[mapping.1 := value]> current
  | None => current
  end.

Lemma pass_mappings_lookup previous mappings current name :
  NoDup mappings.*1 →
  fold_left (pass_mapping previous) mappings current !! name =
    match list_to_map (M:=gmap string string) mappings !! name ≫= case_insensitive_secret previous with
    | Some (_, value) => Some value
    | None => current !! name
    end.
Proof.
  revert current. induction mappings as [|[target source] mappings IH]; intros current Hnd; [done|].
  apply NoDup_cons in Hnd as [Hfresh Hnd]. cbn [fold_left list_to_map foldr].
  rewrite IH by done. unfold pass_mapping at 1. cbn [fst snd].
  destruct (decide (target = name)) as [->|Hne].
  - rewrite lookup_insert_eq. rewrite (not_elem_of_list_to_map_1 mappings) by done. cbn.
    destruct (case_insensitive_secret previous source) as [[? value]|]; [by rewrite lookup_insert_eq | done].
  - rewrite lookup_insert_ne by done.
    destruct (_ ≫= _) as [[? value]|]; [done|].
    destruct (case_insensitive_secret previous source) as [[? value]|]; [by rewrite lookup_insert_ne | done].
Qed.

(** What a call passes, name by name: a mapping that has a source wins, then
    everything with [inherit], and the token in any case. *)
Lemma scope_secrets_lookup scope previous name :
  scope_secrets scope previous !! name =
    match ss_mappings scope !! name ≫= case_insensitive_secret previous with
    | Some (_, value) => Some value
    | None =>
        match (if ss_inherit scope then previous !! name else None) with
        | Some value => Some value
        | None => match case_insensitive_secret previous "GITHUB_TOKEN" with
                  | Some (token, value) => if bool_decide (token = name) then Some value else None
                  | None => None
                  end
        end
    end.
Proof.
  unfold scope_secrets.
  rewrite (fold_left_ext _ (pass_mapping previous)) by by intros current [target source].
  rewrite pass_mappings_lookup by apply NoDup_btree_keys.
  replace (list_to_map (btree_iter (ss_mappings scope))) with (ss_mappings scope).
  2: { apply map_eq. intros i. apply option_eq. intros x.
       rewrite <-elem_of_list_to_map by apply NoDup_btree_keys. by rewrite elem_of_btree_iter. }
  destruct (_ ≫= _) as [[? value]|]; [done|].
  destruct (ss_inherit scope); [rewrite lookup_btree_extend; destruct (previous !! name); [done|]|];
    (destruct (case_insensitive_secret previous "GITHUB_TOKEN") as [[token value]|];
     [case_bool_decide; subst; [by rewrite lookup_singleton_eq | by rewrite lookup_singleton_ne] | by rewrite lookup_empty]).
Qed.

Lemma scope_secrets_from scope previous name value :
  scope_secrets scope previous !! name = Some value → ∃ name', previous !! name' = Some value.
Proof.
  rewrite scope_secrets_lookup.
  destruct (_ ≫= _) as [[source' value']|] eqn:Em.
  - intros [= ->]. apply bind_Some in Em as (source & _ & Em).
    apply case_insensitive_secret_Some in Em as [? _]. by eexists.
  - assert (∀ n v, case_insensitive_secret previous "GITHUB_TOKEN" = Some (n, v) → previous !! n = Some v) as Htoken
      by (intros n v H; by apply case_insensitive_secret_Some in H as [? _]).
    destruct (ss_inherit scope), (previous !! name) eqn:E; cbn;
      (try (intros [= ->]; by exists name));
      (destruct (case_insensitive_secret previous "GITHUB_TOKEN") as [[token v]|]; [|done]);
      case_bool_decide; [intros [= ->]| done | intros [= ->] | done | intros [= ->] | done]; eauto.
Qed.

(** A call without [inherit] passes the token and its mappings only. *)
Lemma scope_secrets_confined scope previous name :
  ss_inherit scope = false → is_Some (scope_secrets scope previous !! name) →
  name ∈ dom (ss_mappings scope) ∨ eq_ignore_ascii_case name "GITHUB_TOKEN" = true.
Proof.
  rewrite scope_secrets_lookup. intros -> [value H].
  destruct (_ ≫= _) as [[source' value']|] eqn:Em.
  - left. apply bind_Some in Em as (source & Hs & _). by apply elem_of_dom_2 in Hs.
  - destruct (case_insensitive_secret previous "GITHUB_TOKEN") as [[token v]|] eqn:E; [|done].
    case_bool_decide; [subst|done]. right. by apply case_insensitive_secret_Some in E as [_ ?].
Qed.

(** ** What a call passes, said without the loop *)

(** The secret a name refers to: letter case does not count, and of several names the
    least in byte order is taken. *)
Definition secret_named (secrets : gmap string string) (requested name value : string) : Prop :=
  secrets !! name = Some value ∧ eq_ignore_ascii_case name requested = true ∧
  ∀ other v, secrets !! other = Some v → eq_ignore_ascii_case other requested = true → string_le name other.

Lemma secret_named_spec secrets requested name value :
  case_insensitive_secret secrets requested = Some (name, value) ↔ secret_named secrets requested name value.
Proof. unfold case_insensitive_secret. by rewrite find_btree_iter_least. Qed.

(** The mapping of a name, if it has one that refers to a secret of the caller. *)
Definition maps (scope : PlannedReusableSecretScope) (caller : gmap string string) (name value : string) : Prop :=
  ∃ source n, ss_mappings scope !! name = Some source ∧ secret_named caller source n value.

(** A mapping wins; then, with [inherit], the secret of the same name; the token is
    passed in any case. *)
Inductive passed (scope : PlannedReusableSecretScope) (caller : gmap string string) (name value : string) : Prop :=
  | passed_mapping : maps scope caller name value → passed scope caller name value
  | passed_inherited : (∀ v, ¬ maps scope caller name v) → ss_inherit scope = true → caller !! name = Some value →
      passed scope caller name value
  | passed_token : (∀ v, ¬ maps scope caller name v) → secret_named caller "GITHUB_TOKEN" name value →
      passed scope caller name value.

(** From the secrets of the run, call by call, to those of the job. *)
Inductive passes_down : list PlannedReusableSecretScope → gmap string string → gmap string string → Prop :=
  | down_done base : passes_down [] base base
  | down_call scope scopes caller callee resolved :
      (∀ name value, callee !! name = Some value ↔ passed scope caller name value) →
      (∀ required, required ∈ ss_required scope → ∃ n v, secret_named callee required n v) →
      passes_down scopes callee resolved →
      passes_down (scope :: scopes) caller resolved.

Lemma maps_spec scope caller name value :
  maps scope caller name value ↔
  ∃ n, ss_mappings scope !! name ≫= case_insensitive_secret caller = Some (n, value).
Proof.
  unfold maps. split.
  - intros (source & n & Hs & Hn%secret_named_spec). exists n. by rewrite Hs.
  - intros (n & (source & Hs & Hn%secret_named_spec)%bind_Some). eauto.
Qed.

Lemma scope_secrets_passed scope caller name value :
  scope_secrets scope caller !! name = Some value ↔ passed scope caller name value.
Proof.
  rewrite scope_secrets_lookup.
  destruct (ss_mappings scope !! name ≫= case_insensitive_secret caller) as [[n v]|] eqn:Em.
  - assert (maps scope caller name v) as Hm by (apply maps_spec; by exists n).
    split; [intros [= ->]; by apply passed_mapping|].
    intros [(n' & E)%maps_spec|Hno _ _|Hno _]; [congruence | by destruct (Hno v)..].
  - assert (∀ v, ¬ maps scope caller name v) as Hno by (intros v (n & E)%maps_spec; congruence).
    assert (∀ v, secret_named caller "GITHUB_TOKEN" name v → caller !! name = Some v) as Hsame by (by intros v [? _]).
    split.
    + intros H. destruct (ss_inherit scope) eqn:Ei; [destruct (caller !! name) as [v|] eqn:Ec|].
      * injection H as <-. by apply passed_inherited.
      * destruct (case_insensitive_secret caller "GITHUB_TOKEN") as [[token v]|] eqn:Et; [|done].
        case_bool_decide; [subst|done]. injection H as <-. by apply passed_token; [|apply secret_named_spec].
      * destruct (case_insensitive_secret caller "GITHUB_TOKEN") as [[token v]|] eqn:Et; [|done].
        case_bool_decide; [subst|done]. injection H as <-. by apply passed_token; [|apply secret_named_spec].
    + intros [Hm|_ -> ->|_ Ht]; [by destruct (Hno value) | done |].
      destruct (if ss_inherit scope then caller !! name else None) as [v|] eqn:Ei.
      * destruct (ss_inherit scope); [|done]. rewrite (Hsame value Ht) in Ei. done.
      * apply secret_named_spec in Ht as ->. by rewrite bool_decide_true.
Qed.

Lemma resolve_secret_scope_Ok base_id scope available resolved :
  resolve_secret_scope base_id scope available = Ok resolved ↔
  resolved = scope_secrets scope available ∧
  ∀ required, required ∈ ss_required scope → is_Some (case_insensitive_secret resolved required).
Proof.
  unfold resolve_secret_scope. cbv zeta. destruct (find _ _) as [missing|] eqn:E.
  - split; [done|]. intros [-> H]. exfalso.
    apply find_some in E as [Hin Hb]. apply list_elem_of_In, elem_of_set_iter in Hin.
    destruct (H _ Hin) as [? Hx]. by rewrite Hx in Hb.
  - rewrite <-Ok_iff. split; [|by intros [-> _]]. intros <-. split; [done|].
    intros required Hin. apply elem_of_set_iter, list_elem_of_In in Hin.
    apply (find_none _ _ E) in Hin.
    destruct (case_insensitive_secret _ required); [by eexists | done].
Qed.
End secrets.

(** The last of a chain of calls. *)
Lemma for_each_last {E A S} (body : A → S → outcome E S) l x s s' :
  for_each body (l ++ [x]) s = Ok s' → ∃ s0, for_each body l s = Ok s0 ∧ body x s0 = Ok s'.
Proof.
  rewrite for_each_app. intros H. apply obind_Ok in H as (s0 & H0 & H). exists s0. split; [done|].
  cbn in H. by destruct (body x s0).
Qed.

Section contexts.
Context `{VL : ValueLib} `{EL : ExpressionLib} `{JL : !JsonLib} `{JI : !JsonInterop}.
Context (hash_files : string → list string → outcome ExpressionError string).

(** C29: A job of a called workflow has the secrets its callers pass, and no others.
    Along the chain of calls that leads to the job, each workflow has, name by name,
    exactly what its call passes of the secrets of its caller - never of the secrets
    of the run or of a workflow further up - and has what its contract requires; the
    code finds these secrets whenever there are such, and fails otherwise.  So a
    secret that one caller of the chain does not pass is gone for all below it. *)
Theorem called_workflow_secrets (job : PlannedJob) base resolved :
  resolve_reusable_secrets job base = Ok resolved ↔ passes_down (pj_reusable_secret_scopes job) base resolved.
Proof.
  unfold resolve_reusable_secrets. generalize (pj_reusable_secret_scopes job). intros scopes. revert base.
  induction scopes as [|scope scopes IH]; intros base; cbn [for_each].
  - rewrite <-Ok_iff. split; [intros ->; constructor | by inversion 1].
  - rewrite obind_Ok. split.
    + intros (callee & [-> Hrequired]%resolve_secret_scope_Ok & H%IH).
      apply (down_call scope scopes base (scope_secrets scope base)); [by intros; apply scope_secrets_passed| |done].
      intros required Hin. apply Hrequired in Hin as [[n v] Hnv]. exists n, v. by apply secret_named_spec.
    + inversion 1 as [|? ? ? callee ? Hpassed Hrequired Hrest]; subst. exists callee. split; [|by apply IH].
      apply resolve_secret_scope_Ok. split.
      * apply map_eq. intros name. apply option_eq. intros value. by rewrite Hpassed, scope_secrets_passed.
      * intros required Hin. destruct (Hrequired required Hin) as (n & v & Hnv%secret_named_spec). by eexists.
Qed.

(** What follows for the last call: every value is one of the run, and a call that
    does not inherit passes the token and the names it maps only. *)
Lemma passes_down_values scopes base resolved name value :
  passes_down scopes base resolved → resolved !! name = Some value → ∃ name', base !! name' = Some value.
Proof.
  intros H. revert name value. induction H as [base|scope scopes caller callee resolved Hpassed _ _ IH]; intros name value Hv.
  - by exists name.
  - apply IH in Hv as [name' Hv]. apply Hpassed in Hv. apply scope_secrets_passed in Hv. by eapply scope_secrets_from.
Qed.

Lemma passed_confined scope caller name value :
  passed scope caller name value → ss_inherit scope = false →
  name ∈ dom (ss_mappings scope) ∨ eq_ignore_ascii_case name "GITHUB_TOKEN" = true.
Proof. intros H Hinherit. apply scope_secrets_passed in H. eapply scope_secrets_confined; [done | by eexists]. Qed.

(** ** The expression context *)

Definition context_with (name : string) (value : Evaluation) (context : EvaluationContext) : EvaluationContext :=
  set_roots context (<[to_ascii_lowercase name := value]> (roots context)).

Lemma insert_root_Ok name value context context' :
  insert_json_root name value context = Ok context' ↔
  ∃ e, eval_of_json value = Some e ∧ context' = context_with name e context.
Proof.
  unfold insert_json_root, insert_json. destruct (eval_of_json value) as [e|]; cbn.
  - rewrite <-Ok_iff. split; [intros <-; by exists e | by intros (? & [= ->] & ->)].
  - split; [done | by intros (? & ? & _)].
Qed.

Lemma insert_root_no_panic name value context : insert_json_root name value context ≠ Panic.
Proof. unfold insert_json_root, insert_json. by destruct (eval_of_json value). Qed.

Lemma insert_root_lookup name value context context' other :
  insert_json_root name value context = Ok context' → to_ascii_lowercase name ≠ other →
  roots context' !! other = roots context !! other.
Proof. intros (e & _ & ->)%insert_root_Ok Hne. cbn. by rewrite lookup_insert_ne. Qed.

Lemma resolve_reusable_secrets_no_panic (job : PlannedJob) base : resolve_reusable_secrets job base ≠ Panic.
Proof.
  apply (for_each_no_panic _ (λ _, True)); [done| |done].
  intros scope m _ _. unfold resolve_secret_scope. cbv zeta. by destruct (find _ _).
Qed.

Definition dependencies_completed (job : PlannedJob) (completed_bases : gmap string JobConclusion)
    (completed_outputs : gmap string (gmap string string)) : Prop :=
  ∀ alias id, pj_need_aliases job !! alias = Some id →
    is_Some (completed_bases !! id) ∧ is_Some (completed_outputs !! id).

Lemma needs_no_panic (job : PlannedJob) completed_bases completed_outputs :
  dependencies_completed job completed_bases completed_outputs →
  traverse (need_json completed_bases completed_outputs) (btree_iter (pj_need_aliases job)) ≠ Panic.
Proof.
  intros Hneeds. apply traverse_no_panic. intros [alias id] Hin%elem_of_btree_iter.
  destruct (Hneeds _ _ Hin) as [[conclusion Hc] [outputs Ho]].
  unfold need_json. rewrite Hc, Ho. done.
Qed.

Context (arch : string) (run : RunSpec JValue) (variables : gmap string string) (job : PlannedJob)
  (completed_bases : gmap string JobConclusion) (completed_outputs : gmap string (gmap string string))
  (environment : gmap string string) (steps inputs : JValue) (status : ExecutionStatus) (workspace run_dir : string)
  (github_token : option string) (managed_secrets : gmap string string).

Notation job_context := (expression_context_with_variables arch run variables job completed_bases completed_outputs
  environment steps inputs status workspace run_dir github_token managed_secrets).

Ltac root_step H := apply obind_Ok in H as (?c & ?H & H).

(** The status and the workspace are the job's, and the root [secrets] is what
    the calls pass; without secrets there is none. *)
Lemma job_context_secrets context :
  job_context = Ok context →
  let base_secrets := with_github_token github_token managed_secrets in
  if btree_is_empty base_secrets then roots context !! "secrets" = None
  else ∃ secrets, resolve_reusable_secrets job base_secrets = Ok secrets ∧
         roots context !! "secrets" = eval_of_json (jstrings secrets).
Proof.
  intros H base_secrets. unfold expression_context_with_variables in H. fold base_secrets in H.
  root_step H. cbv zeta in H. root_step H. root_step H.
  assert (roots context !! "secrets" = roots c1 !! "secrets") as ->.
  { repeat root_step H. apply insert_root_lookup with (other := "secrets") in H; [|done].
    repeat match goal with
    | Hi : insert_json_root ?n _ _ = Ok _ |- _ =>
        lazymatch n with "github" => fail | "secrets" => fail | _ =>
          apply insert_root_lookup with (other := "secrets") in Hi; [|done] end
    end. congruence. }
  apply insert_root_lookup with (other := "secrets") in H1; [|done].
  destruct (btree_is_empty base_secrets).
  - injection H2 as <-. by rewrite H1.
  - root_step H2. exists c2. split; [done|].
    apply insert_root_Ok in H2 as (e & He & ->). cbn. by rewrite lookup_insert_eq.
Qed.

Lemma job_context_no_panic : dependencies_completed job completed_bases completed_outputs → job_context ≠ Panic.
Proof.
  intros Hneeds. unfold expression_context_with_variables.
  pose proof (needs_no_panic job _ _ Hneeds) as Hn.
  destruct (traverse _ _) as [needs| |]; [cbn [obind]; clear Hn | done | done].
  cbv zeta. apply obind_no_panic; [apply insert_root_no_panic|]. intros c1 _.
  apply obind_no_panic.
  { destruct (btree_is_empty _); [done|].
    apply obind_no_panic; [apply resolve_reusable_secrets_no_panic|]. intros. apply insert_root_no_panic. }
  intros c2 _. repeat (apply obind_no_panic; [apply insert_root_no_panic|]; intros ? _).
  apply insert_root_no_panic.
Qed.
End contexts.

(** The first context of a job, the one its [if] is evaluated in, is built
    before the secrets of the run are loaded: of the run's secrets it has the
    workflow token at most. *)
Section first_context.
Context `{VL : ValueLib} `{EL : ExpressionLib} `{JL : !JsonLib} `{JI : !JsonInterop}.

Lemma token_only_secret token requested name value :
  case_insensitive_secret {["GITHUB_TOKEN" := token]} requested = Some (name, value) →
  eq_ignore_ascii_case "GITHUB_TOKEN" requested = true.
Proof.
  intros [Hl Hn]%case_insensitive_secret_Some.
  apply lookup_singleton_Some in Hl as [<- _]. done.
Qed.

Lemma token_only_scope scope token name value :
  scope_secrets scope {["GITHUB_TOKEN" := token]} !! name = Some value →
  name = "GITHUB_TOKEN" ∨
  ∃ source, ss_mappings scope !! name = Some source ∧ eq_ignore_ascii_case "GITHUB_TOKEN" source = true.
Proof.
  rewrite scope_secrets_lookup.
  set (previous := {["GITHUB_TOKEN" := token]} : gmap string string).
  destruct (_ ≫= _) as [[n v]|] eqn:Em.
  { intros _. right. apply bind_Some in Em as (source & Hs & Hc).
    exists source. split; [done|]. by eapply token_only_secret. }
  intros H. left.
  assert (previous !! name = Some value ∨
          ∃ n v, case_insensitive_secret previous "GITHUB_TOKEN" = Some (n, v) ∧ n = name) as [Hp | (n & v & Hp & <-)].
  { destruct (if ss_inherit scope then previous !! name else None) as [v|] eqn:Ep.
    - left. destruct (ss_inherit scope); congruence.
    - right. destruct (case_insensitive_secret previous "GITHUB_TOKEN") as [[n v]|]; [|done].
      case_bool_decide; [by exists n, v | done]. }
  - by apply lookup_singleton_Some in Hp as [<- _].
  - apply case_insensitive_secret_Some in Hp as [Hp _]. by apply lookup_singleton_Some in Hp as [<- _].
Qed.

(** a job of a called workflow whose contract requires a secret cannot have
    its first context built, whatever secrets the repository has, unless the
    call gives the secret the value of the workflow token. *)
Theorem required_secret_has_no_first_context arch run (job : PlannedJob) completed_bases completed_outputs environment
    steps inputs status workspace run_dir token scope scopes required :
  pj_reusable_secret_scopes job = scope :: scopes →
  required ∈ ss_required scope →
  eq_ignore_ascii_case "GITHUB_TOKEN" required = false →
  (∀ target source, ss_mappings scope !! target = Some source →
     eq_ignore_ascii_case target required = true → eq_ignore_ascii_case "GITHUB_TOKEN" source = false) →
  is_ok (expression_context arch run job completed_bases completed_outputs environment steps inputs status
           workspace run_dir (Some token)) = false.
Proof.
  intros Hscopes Hrequired Hname Hmappings.
  apply not_true_is_false. intros [context H]%is_ok_inv. unfold expression_context in H.
  apply job_context_secrets in H. cbn [with_github_token] in H.
  rewrite insert_empty in H.
  replace (btree_is_empty _) with false in H.
  2: { symmetry. unfold btree_is_empty. apply bool_decide_eq_false, map_non_empty_singleton. }
  destruct H as (secrets & H & _). unfold resolve_reusable_secrets in H. rewrite Hscopes in H.
  cbn [for_each] in H. apply obind_Ok in H as (resolved & H & _).
  apply resolve_secret_scope_Ok in H as [-> H]. destruct (H _ Hrequired) as [[name value] Hs].
  apply case_insensitive_secret_Some in Hs as [Hs Hn].
  apply token_only_scope in Hs as [-> | (source & Hm & Hs)]; [congruence|].
  specialize (Hmappings _ _ Hm Hn). congruence.
Qed.
End first_context.

(** ** Inputs and concurrency *)

Section inputs_and_groups.
Context `{VL : ValueLib} `{EL : ExpressionLib} `{JL : !JsonLib} `{JI : !JsonInterop}.
Context (hash_files : string → list string → outcome ExpressionError string).

Lemma resolve_input_Ok base_id context name input entry :
  resolve_input hash_files base_id context (name, input) = Ok entry →
  entry.1 = name ∧ input_matches (ri_input_type input) entry.2 = true.
Proof.
  unfold resolve_input. intros H. apply obind_Ok in H as (value & _ & H).
  apply obind_Ok in H as ([] & Hr & [= <-]). apply reject_if_Ok, negb_false_iff in Hr. done.
Qed.

Lemma resolve_input_scope_typed base_id context (scope : PlannedReusableInputScope) previous resolved :
  resolve_input_scope hash_files base_id context scope previous = Ok resolved →
  ∃ m : gmap string JValue, resolved = JObject m ∧ dom m = dom (ris_inputs scope) ∧
    ∀ name input value, ris_inputs scope !! name = Some input → m !! name = Some value →
      input_matches (ri_input_type input) value = true.
Proof.
  unfold resolve_input_scope. intros H. apply obind_Ok in H as (c1 & _ & H).
  apply obind_Ok in H as (c2 & _ & H). apply obind_Ok in H as (inputs & H & [= <-]).
  apply traverse_Ok in H. exists (btree_collect inputs). split; [done|].
  assert (inputs.*1 = btree_keys (ris_inputs scope)) as Hkeys.
  { unfold btree_keys. revert H. generalize (btree_iter (ris_inputs scope)).
    induction 1 as [|[name input] entry l k Hentry _ IH]; [done|].
    apply resolve_input_Ok in Hentry as [Hname _]. by rewrite !fmap_cons, IH, Hname. }
  split.
  - apply set_eq. intros name. rewrite elem_of_dom_btree_collect, Hkeys, elem_of_btree_keys.
    by rewrite elem_of_dom.
  - intros name input value Hinput Hvalue.
    apply lookup_btree_collect_Some in Hvalue.
    eapply list_elem_of_lookup_1 in Hvalue as [i Hi].
    destruct (Forall2_lookup_r _ _ _ _ _ H Hi) as ([name' input'] & Hi' & Hentry).
    apply resolve_input_Ok in Hentry as [Hname Hmatch]. cbn in Hname, Hmatch. subst name'.
    apply list_elem_of_lookup_2, elem_of_btree_iter in Hi'. congruence.
Qed.

(** the inputs a job of a called workflow sees are exactly those the
    innermost call declares, each a value of its declared type. *)
Theorem reusable_inputs_are_typed (job : PlannedJob) context outer scope resolved :
  pj_reusable_input_scopes job = outer ++ [scope] →
  resolve_reusable_inputs hash_files job context = Ok resolved →
  ∃ m : gmap string JValue, resolved = JObject m ∧ dom m = dom (ris_inputs scope) ∧
    ∀ name input value, ris_inputs scope !! name = Some input → m !! name = Some value →
      input_matches (ri_input_type input) value = true.
Proof.
  unfold resolve_reusable_inputs. intros -> H. apply for_each_last in H as (previous & _ & H).
  by apply resolve_input_scope_typed in H.
Qed.

Lemma invalid_group_false group :
  invalid_group group = false →
  group ≠ "" ∧ slen group ≤ 256 ∧ contains_byte (λ c, bool_decide (c ∈ [nul; lf; cr])) group = false.
Proof.
  unfold invalid_group. intros [[He Hl]%orb_false_iff Hc]%orb_false_iff.
  split; [by intros ->|]. split; [apply bool_decide_eq_false in Hl; lia | done].
Qed.

(** a concurrency group that is asked for is a non-empty line of at most
    256 bytes, and never both [queue: max] and [cancel-in-progress]. *)
Theorem resolved_concurrency_is_valid concurrency context unit_id group cancel_in_progress queue :
  resolve_concurrency hash_files concurrency context unit_id = Ok (group, cancel_in_progress, queue) →
  group ≠ "" ∧ slen group ≤ 256 ∧
  contains_byte (λ c, bool_decide (c ∈ [nul; lf; cr])) group = false ∧
  (queue = Max → cancel_in_progress = false).
Proof.
  unfold resolve_concurrency. intros H. apply obind_Ok in H as (rendered & _ & H).
  apply obind_Ok in H as ([] & Hg & H). apply obind_Ok in H as (cancel & _ & H).
  apply obind_Ok in H as ([] & Hm & [= <- <- <-]).
  apply reject_if_Ok in Hg, Hm. apply invalid_group_false in Hg as (? & ? & ?).
  do 3 (split; [done|]). destruct (pc_queue concurrency); [done|]. by destruct cancel.
Qed.
End inputs_and_groups.
