(* ===== verification/Actions.v ===== *)
(** * Actions (crates/gitzero-agent, action.rs and executor.rs)

    References to actions and to reusable workflows of other repositories, the
    metadata of an action, the inputs it receives and the steps of a composite
    action.  An error is the outermost message. *)

From S2P Require Import Prelude RustStr UnixPath OrdMap Yaml Expression Evaluate Templates Workflow RustText.
From S2P Require Import Protocol JobContext.

(** ** References (action.rs) *)

Inductive ActionReference :=
  | Local (path : string)
  | SelfRepository (path : string)
  | Remote (owner repository path git_ref : string).

#[export] Instance ActionReference_eq_dec : EqDecision ActionReference.
Proof. solve_decision. Defined.

Definition repository_byte (c : ascii) : bool :=
  is_ascii_alphanumeric c || bool_decide (c ∈ ["-"%char; "_"%char; "."%char]).

Definition validate_repository_component (value name : string) : outcome string unit :=
  reject_if (is_empty value || negb (string_forall repository_byte value))
    ("action " +:+ name +:+ " '" +:+ value +:+ "' is invalid").

Definition leaves (component : Component) : bool :=
  match component with ParentDir | RootDir => true | CurDir | Normal _ => false end.

Definition validate_relative_path (value : string) : outcome string unit :=
  reject_if (is_empty value || is_absolute value || existsb leaves (components value))
    ("action path '" +:+ value +:+ "' must stay within its repository").

Definition has_nul_or_line_break (value : string) : bool := contains_byte (λ c, bool_decide (c ∈ [nul; lf; cr])) value.

Definition invalid_action_ref (git_ref : string) : bool :=
  is_empty git_ref || starts_with "-" git_ref || has_nul_or_line_break git_ref.

(** [ActionReference::parse] *)
Definition parse_remote (source location git_ref : string) : outcome string ActionReference :=
  reject_if (invalid_action_ref git_ref) ("action reference '" +:+ source +:+ "' has an invalid git ref") ;?
  let '(owner, repository, rest) := match split "/" location with
                                    | [] => ("", "", [])
                                    | [owner] => (owner, "", [])
                                    | owner :: repository :: rest => (owner, repository, rest)
                                    end in
  validate_repository_component owner "owner" ;?
  validate_repository_component repository "repository" ;?
  let path := sjoin "/" rest in
  (if is_empty path then Ok tt else validate_relative_path path) ;?
  Ok (Remote owner repository path git_ref).

Definition parse_reference (source : string) : outcome string ActionReference :=
  match strip_prefix "./" source with
  | Some path => validate_relative_path path ;? Ok (Local path)
  | None =>
      match strip_prefix "$/" source with
      | Some path =>
          let path := trim_start_matches "/" path in
          validate_relative_path path ;? Ok (SelfRepository path)
      | None =>
          reject_if (starts_with "docker://" source)
            "Docker actions are not supported on the native macOS executor" ;?
          let? '(location, git_ref) := ok_or (rsplit_once "@" source)
                                         ("action reference '" +:+ source +:+ "' must include @ref") in
          parse_remote source location git_ref
      end
  end.

Record RemoteReusableWorkflowReference := mkRemoteWorkflow {
  rw_owner : string;
  rw_repository : string;
  rw_path : string;
  rw_git_ref : string;
}.

Definition names_workflow_file (path : string) : bool :=
  bool_decide (parent path = Some [Normal ".github"; Normal "workflows"]) &&
  match extension path with Some e => bool_decide (e ∈ ["yml"; "yaml"]) | None => false end.

(** [RemoteReusableWorkflowReference::parse] *)
Definition parse_remote_workflow (source : string) : outcome string RemoteReusableWorkflowReference :=
  let? reference := parse_reference source in
  match reference with
  | Remote owner repository path git_ref =>
      reject_if (starts_with "refs/" git_ref)
        ("reusable workflow reference '" +:+ source +:+ "' must not use a refs/ prefix") ;?
      reject_if (negb (names_workflow_file path))
        ("reusable workflow reference '" +:+ source +:+ "' must name a file directly in .github/workflows") ;?
      Ok (mkRemoteWorkflow owner repository (replace_byte "\" "/" path) git_ref)
  | Local _ | SelfRepository _ =>
      Err ("reusable workflow reference '" +:+ source +:+ "' must include owner/repository and @ref")
  end.

(** ** Metadata (action.rs) *)

(** An [ActionScalar] is its text. *)
Definition action_scalar `{VL : ValueLib} (value : Value) : outcome string string :=
  match value with
  | VString value => Ok value
  | VBool value => Ok (if value then "true" else "false")
  | VNumber value => Ok (ynum_display value)
  | VNull => Ok ""
  | VSequence _ | VMapping _ | VTagged _ _ => Err "expected an action scalar value"
  end.

Record ActionInput := mkActionInput { ai_required : bool; ai_default : option string }.
Record ActionOutput := mkActionOutput { ao_value : option string }.

Record ActionStep := mkActionStep {
  as_id : option string;
  as_name : option string;
  as_run : option string;
  as_uses : option string;
  as_shell : option string;
  as_working_directory : option string;
  as_env : gmap string string;
  as_with : gmap string string;
  as_condition : option string;
  as_continue_on_error : option string;
  as_extra : gset string;       (** the keys of [extra] *)
}.

Record ActionRuns := mkActionRuns {
  ar_using : string;
  ar_main : option string;
  ar_pre : option string;
  ar_post : option string;
  ar_pre_if : option string;
  ar_post_if : option string;
  ar_steps : list ActionStep;
}.

Record ActionDefinition := mkActionDefinition {
  ad_name : string;
  ad_inputs : gmap string ActionInput;
  ad_outputs : gmap string ActionOutput;
  ad_runs : ActionRuns;
}.

(** ** The repository an action comes from (executor.rs) *)

Record ActionRepositorySource := mkSource {
  src_owner : string;
  src_repository : string;
  src_git_ref : string;
}.

Record MaterializedAction := mkMaterialized {
  ma_directory : string;
  ma_source : ActionRepositorySource;
}.

Definition source_for_run {J : Type} (run : RunSpec J) : ActionRepositorySource :=
  mkSource (rs_owner (run_repository run)) (rs_name (run_repository run)) (prs_merge_sha (run_pull_request run)).

Definition source_from_remote (reference : RemoteReusableWorkflowReference) (git_ref : string) : ActionRepositorySource :=
  mkSource (rw_owner reference) (rw_repository reference) git_ref.

Definition source_repository_name (self : ActionRepositorySource) : string :=
  src_owner self +:+ "/" +:+ src_repository self.

Definition canonical_reference (self : ActionRepositorySource) (path : string) : string :=
  src_owner self +:+ "/" +:+ src_repository self +:+ "/" +:+ path +:+ "@" +:+ src_git_ref self.

Definition sanitize_id (value : string) : string :=
  sconcat ((λ c, if char_ascii (λ a, is_ascii_alphanumeric a || bool_decide (a ∈ ["-"%char; "_"%char])) c
                 then c else "-") <$> chars value).

(** ** Composite steps (executor.rs) *)

Definition resolve_self_repository_action (action : string) (source : ActionRepositorySource) : outcome string string :=
  if negb (starts_with "$/" action) then Ok action
  else
    let? reference := parse_reference action in
    match reference with
    | SelfRepository path => Ok (canonical_reference source path)
    | Local _ | Remote _ _ _ _ => Panic
    end.

Definition composite_kind (step : ActionStep) (source : ActionRepositorySource) : outcome string StepKind :=
  match as_run step, as_uses step with
  | Some script, None =>
      if btree_is_empty (as_with step) then
        let? shell := ok_or (as_shell step) "composite run steps must declare a shell" in
        Ok (KRun shell script)
      else Err "composite run steps cannot declare with inputs"
  | None, Some action =>
      let? action := resolve_self_repository_action action source in
      Ok (if starts_with "actions/checkout@" action then KCheckout (as_with step) else KUses action (as_with step))
  | Some _, Some _ | None, None => Err "composite steps must define exactly one of run or uses"
  end.

Definition composite_github_action (index : nat) (kind : StepKind) : outcome string string :=
  match kind with
  | KRun _ _ => Ok (if bool_decide (index = 0) then "__run" else "__run_" +:+ pretty (S index))
  | KCheckout _ => Ok "actionscheckout"
  | KUses action _ =>
      let name := match split "@" action with name :: _ => name | [] => action end in
      Ok (string_filter is_ascii_alphanumeric name)
  | KWait _ | KWaitAll | KCancel _ => Panic
  end.

Definition plan_composite_step (step : ActionStep) (index : nat) (source : ActionRepositorySource)
    : outcome string PlannedStep :=
  match set_iter (as_extra step) with
  | feature :: _ => Err ("composite step uses unsupported key '" +:+ feature +:+ "'")
  | [] =>
      let id := default ("composite-step-" +:+ pretty (S index)) (as_id step) in
      let name := match as_name step, as_uses step, as_run step with
                  | Some name, _, _ => name
                  | None, Some uses, _ => uses
                  | None, None, Some _ => "Run"
                  | None, None, None => id
                  end in
      let? kind := composite_kind step source in
      let? github_action := match as_id step with
                            | Some id => Ok id
                            | None => composite_github_action index kind
                            end in
      Ok (mkPlannedStep id github_action name (as_env step) (as_working_directory step) (as_condition step)
            (as_continue_on_error step) None None kind)
  end.

(** ** Inputs (executor.rs) *)

Definition action_input_environment_name (name : string) : string :=
  "INPUT_" +:+ string_map (λ c, if is_ascii_lower c then ascii_of_N (N_of_ascii c - 32) else c) (replace_byte " " "_" name).

Section inputs.
Context `{EL : ExpressionLib} `{JL : !JsonLib}.
Context (hash_files : string → list string → outcome ExpressionError string).

Definition resolve_input_default (context : EvaluationContext) (entry : string * ActionInput) (inputs : gmap string string)
    : outcome string (gmap string string) :=
  let '(name, definition) := entry in
  let name := to_ascii_lowercase name in
  let? inputs :=
    match inputs !! name, ai_default definition with
    | None, Some template =>
        let? default_context := insert_json_root "inputs" (jstrings inputs) context in
        let? value := map_err display_error (render hash_files default_context template) in
        Ok (<[name := value]> inputs)
    | _, _ => Ok inputs
    end in
  reject_if (ai_required definition && negb (btree_contains name inputs))
    ("required action input '" +:+ name +:+ "' was not supplied") ;?
  Ok inputs.

Definition resolve_action_inputs (definition : ActionDefinition) (supplied : gmap string string)
    (context : EvaluationContext) : outcome string (gmap string string) :=
  let inputs := btree_collect ((λ '(name, value), (to_ascii_lowercase name, value)) <$> btree_iter supplied) in
  for_each (resolve_input_default context) (btree_iter (ad_inputs definition)) inputs.
End inputs.

(** * Actions: properties *)

(** ** References *)

Definition valid_component (value : string) : bool := negb (is_empty value) && string_forall repository_byte value.

Definition stays_within (path : string) : Prop := Forall (λ c, leaves c = false) (components path).

Lemma validate_repository_component_Ok value name u :
  validate_repository_component value name = Ok u ↔ valid_component value = true.
Proof.
  unfold validate_repository_component, valid_component. rewrite reject_if_Ok.
  by destruct (is_empty value), (string_forall repository_byte value).
Qed.

Lemma validate_relative_path_Ok value u :
  validate_relative_path value = Ok u ↔
  value ≠ "" ∧ is_absolute value = false ∧ stays_within value.
Proof.
  unfold validate_relative_path, stays_within.
  rewrite reject_if_Ok, !orb_false_iff, existsb_false_elem, Forall_forall.
  split; [intros [[He Ha] Hc] | intros (He & Ha & Hc)].
  - split; [by intros ->|]. split; [done|]. intros c. by apply Hc.
  - split; [split; [by destruct value | done]|]. intros c. by apply Hc.
Qed.

(** The shape of what [ActionReference::parse] accepts. *)
Definition reference_ok (reference : ActionReference) : Prop :=
  match reference with
  | Local path | SelfRepository path => path ≠ "" ∧ is_absolute path = false ∧ stays_within path
  | Remote owner repository path git_ref =>
      valid_component owner = true ∧ valid_component repository = true ∧
      invalid_action_ref git_ref = false ∧ is_absolute path = false ∧ stays_within path
  end.

Lemma parse_remote_spec source location git_ref :
  outcome_spec (parse_remote source location git_ref)
    (λ reference, reference_ok reference ∧ ∃ o r p, reference = Remote o r p git_ref) (λ _, True).
Proof.
  unfold parse_remote.
  destruct (invalid_action_ref git_ref) eqn:Href; [done|]. cbn [reject_if obind].
  set (parts := match split "/" location with [] => _ | _ => _ end).
  destruct parts as [[owner repository] rest].
  destruct (validate_repository_component owner "owner") as [[]| |] eqn:Ho; [|done|by apply reject_if_Panic in Ho].
  destruct (validate_repository_component repository "repository") as [[]| |] eqn:Hr; [|done|by apply reject_if_Panic in Hr].
  apply validate_repository_component_Ok in Ho, Hr. cbn [obind]. cbv zeta.
  destruct (is_empty (sjoin "/" rest)) eqn:He.
  - cbn. destruct (sjoin "/" rest); [|done].
    split; [|by do 3 eexists]. do 3 (split; [done|]). split; [done|]. vm_compute. constructor.
  - destruct (validate_relative_path (sjoin "/" rest)) as [[]| |] eqn:Hp; [|done|by apply reject_if_Panic in Hp].
    apply validate_relative_path_Ok in Hp as (_ & Ha & Hw). cbn.
    split; [|by do 3 eexists]. done.
Qed.

Lemma parse_reference_spec source : outcome_spec (parse_reference source) reference_ok (λ _, True).
Proof.
  unfold parse_reference. destruct (strip_prefix "./" source) as [path|].
  { destruct (validate_relative_path path) as [[]| |] eqn:Hp; [|done|by apply reject_if_Panic in Hp].
    by apply validate_relative_path_Ok in Hp. }
  destruct (strip_prefix "$/" source) as [path|].
  { cbv zeta. destruct (validate_relative_path _) as [[]| |] eqn:Hp; [|done|by apply reject_if_Panic in Hp].
    by apply validate_relative_path_Ok in Hp. }
  destruct (starts_with "docker://" source); [done|]. cbn [reject_if obind].
  destruct (rsplit_once "@" source) as [[location git_ref]|]; [|done]. cbn [ok_or obind].
  eapply outcome_spec_mono; [apply parse_remote_spec | by intros r [? _] | done].
Qed.

(** parsing an action reference does not panic, and what it accepts is safe
    to give to git and to join to a directory: paths are relative without
    [..], owners and repositories have no separator, and a ref is neither
    empty nor an option nor several lines. *)
Theorem parsed_references_are_safe source :
  parse_reference source ≠ Panic ∧ ∀ reference, parse_reference source = Ok reference → reference_ok reference.
Proof.
  pose proof (parse_reference_spec source) as H.
  split; [by eapply outcome_spec_no_panic|]. intros r Hr. by rewrite Hr in H.
Qed.

(** The owner and the repository may still be the names [.] and [..]. *)
Example dots_are_repository_names :
  parse_reference "../..@main" = Ok (Remote ".." ".." "" "main").
Proof. vm_compute. reflexivity. Qed.

(** ** The reference a composite action's own files are replaced by *)

Definition source_ok (source : ActionRepositorySource) : Prop :=
  valid_component (src_owner source) = true ∧ src_owner source ≠ "." ∧
  valid_component (src_repository source) = true ∧
  invalid_action_ref (src_git_ref source) = false ∧ free_of "@" (src_git_ref source) = true.

Lemma valid_component_free c value :
  valid_component value = true → repository_byte c = false → free_of c value = true.
Proof.
  unfold valid_component. intros [_ H]%andb_true_iff Hc.
  induction value as [|d value IH]; [done|]. cbn in H. apply andb_true_iff in H as [Hd H].
  apply free_of_cons. split; [intros ->; congruence | by apply IH].
Qed.

Lemma rsplit_once_line c a b : free_of c b = true → rsplit_once c (a +:+ String c b) = Some (a, b).
Proof.
  intros Hb. unfold rsplit_once.
  assert (srev (a +:+ String c b) = srev b +:+ String c (srev a)) as ->.
  { rewrite srev_app, srev_cons, sapp_assoc. done. }
  rewrite split_once_line by by rewrite free_of_srev. cbn. by rewrite !srev_involutive.
Qed.

Lemma starts_with_first a b c d rest :
  strip_prefix (String c d) (String a b +:+ rest) = if bool_decide (c = a) then strip_prefix d (b +:+ rest) else None.
Proof. reflexivity. Qed.

Lemma owner_prefixes owner rest :
  valid_component owner = true → owner ≠ "." →
  strip_prefix "./" (owner +:+ String "/" rest) = None ∧
  strip_prefix "$/" (owner +:+ String "/" rest) = None ∧
  starts_with "docker://" (owner +:+ String "/" rest) = false.
Proof.
  intros Hvalid Hdot.
  assert (free_of "$" owner = true) as Hdollar by by apply valid_component_free.
  assert (free_of ":" owner = true) as Hcolon by by apply valid_component_free.
  assert (free_of "/" owner = true) as Hslash by by apply valid_component_free.
  split; [|split].
  - destruct owner as [|a owner]; [done|]. rewrite starts_with_first. case_bool_decide; [subst a|done].
    destruct owner as [|b owner]; [done|]. rewrite starts_with_first.
    apply free_of_cons in Hslash as [_ [Hb _]%free_of_cons]. by rewrite bool_decide_false.
  - destruct owner as [|a owner]; [done|]. rewrite starts_with_first.
    apply free_of_cons in Hdollar as [Ha _]. rewrite bool_decide_false by congruence. done.
  - apply not_true_is_false. intros [r Hr]%starts_with_true.
    change ("docker://" +:+ r) with ("docker:" +:+ String "/" (String "/" r)) in Hr.
    assert (split_once "/" (owner +:+ String "/" rest) = split_once "/" ("docker:" +:+ String "/" (String "/" r))) as H
      by by rewrite Hr.
    rewrite split_once_line in H by done. rewrite split_once_line in H by done.
    injection H as -> _. discriminate.
Qed.

Lemma parse_canonical_reference source path :
  source_ok source → path ≠ "" → is_absolute path = false → stays_within path →
  parse_reference (canonical_reference source path) =
    Ok (Remote (src_owner source) (src_repository source) path (src_git_ref source)).
Proof.
  intros (Ho & Hdot & Hr & Href & Hat) Hne Habs Hin. unfold parse_reference, canonical_reference.
  change (src_owner source +:+ "/" +:+ src_repository source +:+ "/" +:+ path +:+ "@" +:+ src_git_ref source)
    with (src_owner source +:+ String "/" (src_repository source +:+ String "/" (path +:+ String "@" (src_git_ref source)))).
  destruct (owner_prefixes (src_owner source)
              (src_repository source +:+ String "/" (path +:+ String "@" (src_git_ref source))) Ho Hdot) as (-> & -> & ->).
  cbn [reject_if obind].
  assert (src_owner source +:+ String "/" (src_repository source +:+ String "/" (path +:+ String "@" (src_git_ref source)))
          = (src_owner source +:+ String "/" (src_repository source +:+ String "/" path)) +:+ String "@" (src_git_ref source)) as ->.
  { rewrite !sapp_assoc, !sapp_cons, !sapp_assoc. done. }
  rewrite rsplit_once_line by done. cbn [ok_or obind].
  unfold parse_remote. rewrite Href. cbn [reject_if obind].
  rewrite split_line by by apply valid_component_free.
  rewrite split_line by by apply valid_component_free.
  change "/" with (String "/"%char ""). rewrite sjoin_split. cbv zeta.
  rewrite (proj2 (validate_repository_component_Ok _ _ ())) by done.
  rewrite (proj2 (validate_repository_component_Ok _ _ ())) by done. cbn [obind].
  replace (is_empty path) with false by by destruct path.
  rewrite (proj2 (validate_relative_path_Ok path ())) by done. done.
Qed.

(** ** Steps of a composite action *)

Lemma parse_self_repository path :
  parse_reference ("$/" +:+ path) =
    (validate_relative_path (trim_start_matches "/" path) ;? Ok (SelfRepository (trim_start_matches "/" path))).
Proof. reflexivity. Qed.

Lemma resolve_self_repository_no_panic action source : resolve_self_repository_action action source ≠ Panic.
Proof.
  unfold resolve_self_repository_action. destruct (starts_with "$/" action) eqn:E; [|done]. cbn [negb].
  apply starts_with_true in E as [path ->].
  rewrite parse_self_repository.
  destruct (validate_relative_path (trim_start_matches "/" path)) as [[]| |] eqn:H; [done|done|]. by apply reject_if_Panic in H.
Qed.

(** What [plan_composite_step] makes is an ordinary step: it runs in the
    foreground, has no timeout of its own and is never one of the steps that
    control background steps. *)
Definition ordinary_step (step : PlannedStep) : Prop :=
  ps_background step = None ∧ ps_timeout_minutes step = None ∧
  match ps_kind step with KRun _ _ | KCheckout _ | KUses _ _ => True | KWait _ | KWaitAll | KCancel _ => False end.

Lemma composite_kind_spec step source :
  outcome_spec (composite_kind step source)
    (λ kind, match kind with KRun _ _ | KCheckout _ | KUses _ _ => True | KWait _ | KWaitAll | KCancel _ => False end)
    (λ _, True).
Proof.
  unfold composite_kind. destruct (as_run step), (as_uses step) as [action|]; try done.
  - destruct (btree_is_empty _); [|done]. by destruct (as_shell step).
  - pose proof (resolve_self_repository_no_panic action source) as Hp.
    destruct (resolve_self_repository_action action source) as [a| |]; [|done|done].
    cbn. by destruct (starts_with _ a).
Qed.

Lemma composite_github_action_no_panic index kind :
  match kind with KRun _ _ | KCheckout _ | KUses _ _ => True | KWait _ | KWaitAll | KCancel _ => False end →
  ∃ name, composite_github_action index kind = Ok name.
Proof. destruct kind; try done; intros _; by eexists. Qed.

Lemma plan_composite_step_spec step index source :
  outcome_spec (plan_composite_step step index source) ordinary_step (λ _, True).
Proof.
  unfold plan_composite_step. destruct (set_iter (as_extra step)); [|done]. cbv zeta.
  pose proof (composite_kind_spec step source) as Hk.
  destruct (composite_kind step source) as [kind| |]; [|done|done]. cbn in Hk |- *.
  destruct (as_id step) as [id|]; [done|].
  destruct (composite_github_action_no_panic index kind Hk) as [name ->]. done.
Qed.

(** the action a composite action calls in its own repository is fetched
    from that repository at the commit the composite action came from. *)
Theorem self_repository_actions_stay_in_source step index source path :
  source_ok source → path ≠ "" → is_absolute path = false → stays_within path →
  as_run step = None → as_uses step = Some ("$/" +:+ path) → as_extra step = ∅ →
  ∃ planned, plan_composite_step step index source = Ok planned ∧
    ps_kind planned = (if starts_with "actions/checkout@" (canonical_reference source path)
                       then KCheckout (as_with step) else KUses (canonical_reference source path) (as_with step)) ∧
    parse_reference (canonical_reference source path) =
      Ok (Remote (src_owner source) (src_repository source) path (src_git_ref source)).
Proof.
  intros Hsource Hne Habs Hin Hrun Huses Hextra.
  assert (resolve_self_repository_action ("$/" +:+ path) source = Ok (canonical_reference source path)) as Hresolve.
  { unfold resolve_self_repository_action. rewrite starts_with_app. cbn [negb].
    rewrite parse_self_repository.
    assert (trim_start_matches "/" path = path) as ->.
    { destruct path as [|c path]; [done|]. unfold is_absolute, starts_with in Habs. cbn in Habs |- *.
      destruct (decide (c = "/"%char)) as [->|Hc]; [discriminate Habs | by rewrite bool_decide_false]. }
    rewrite (proj2 (validate_relative_path_Ok path ())) by done. done. }
  unfold plan_composite_step. rewrite Hextra. change (set_iter ∅) with (@nil string). cbv zeta.
  unfold composite_kind. rewrite Hrun, Huses, Hresolve. cbn [obind].
  destruct (as_id step) as [id|].
  - eexists. split; [done|]. cbn. split; [by destruct (starts_with _ _)|]. by apply parse_canonical_reference.
  - destruct (starts_with "actions/checkout@" (canonical_reference source path)); cbn;
      (eexists; split; [done|]; split; [done|]; by apply parse_canonical_reference).
Qed.

(** ** Inputs *)

Section inputs.
Context `{EL : ExpressionLib} `{JL : !JsonLib}.
Context (hash_files : string → list string → outcome ExpressionError string).

Definition lower_inputs (supplied : gmap string string) : gmap string string :=
  btree_collect ((λ '(name, value), (to_ascii_lowercase name, value)) <$> btree_iter supplied).

Lemma resolve_input_default_Ok context name definition inputs inputs' :
  resolve_input_default hash_files context (name, definition) inputs = Ok inputs' →
  inputs ⊆ inputs' ∧
  (∀ other, is_Some (inputs' !! other) → is_Some (inputs !! other) ∨ other = to_ascii_lowercase name) ∧
  (ai_required definition = true ∨ is_Some (ai_default definition) → is_Some (inputs' !! to_ascii_lowercase name)).
Proof.
  unfold resolve_input_default. cbv zeta. intros H. apply obind_Ok in H as (m & Hm & H).
  apply obind_Ok in H as ([] & Hr & [= <-]). apply reject_if_Ok in Hr.
  assert (inputs ⊆ m ∧ (∀ other, is_Some (m !! other) → is_Some (inputs !! other) ∨ other = to_ascii_lowercase name) ∧
          (is_Some (ai_default definition) → is_Some (m !! to_ascii_lowercase name))) as (Hsub & Hnew & Hdef).
  { destruct (inputs !! to_ascii_lowercase name) as [v|] eqn:El.
    - injection Hm as <-. split; [done|]. split; [by left|]. intros _. by rewrite El.
    - destruct (ai_default definition) as [template|].
      + apply obind_Ok in Hm as (c & _ & Hm). apply obind_Ok in Hm as (value & _ & [= <-]).
        split; [by apply insert_subseteq|]. split.
        * intros other. destruct (decide (to_ascii_lowercase name = other)) as [->|?]; [by right|].
          rewrite lookup_insert_ne by done. by left.
        * intros _. by rewrite lookup_insert_eq.
      + injection Hm as <-. split; [done|]. split; [by left | by intros []]. }
  split; [done|]. split; [done|]. intros [Hreq | Hd]; [|by apply Hdef].
  rewrite Hreq in Hr. cbn in Hr. apply negb_false_iff, btree_contains_true in Hr. done.
Qed.

(** the inputs an action receives are the supplied ones, unchanged, and
    then its declared ones that have a default or are required; nothing else. *)
Theorem action_inputs_are_complete definition supplied context inputs :
  resolve_action_inputs hash_files definition supplied context = Ok inputs →
  lower_inputs supplied ⊆ inputs ∧
  (∀ name, is_Some (inputs !! name) →
     is_Some (lower_inputs supplied !! name) ∨
     ∃ declared, is_Some (ad_inputs definition !! declared) ∧ name = to_ascii_lowercase declared) ∧
  (∀ declared input, ad_inputs definition !! declared = Some input →
     ai_required input = true ∨ is_Some (ai_default input) → is_Some (inputs !! to_ascii_lowercase declared)).
Proof.
  unfold resolve_action_inputs. fold (lower_inputs supplied). intros H.
  set (I (l : list (string * ActionInput)) (m : gmap string string) :=
    lower_inputs supplied ⊆ m ∧
    (∀ name, is_Some (m !! name) → is_Some (lower_inputs supplied !! name) ∨
       ∃ declared, declared ∈ l.*1 ∧ name = to_ascii_lowercase declared) ∧
    (∀ declared input, (declared, input) ∈ l →
       ai_required input = true ∨ is_Some (ai_default input) → is_Some (m !! to_ascii_lowercase declared))).
  enough (I (btree_iter (ad_inputs definition)) inputs) as (Hsub & Hnew & Hall).
  { split; [done|]. split.
    - intros name Hname. destruct (Hnew _ Hname) as [|(declared & Hd & ->)]; [by left|]. right.
      exists declared. split; [|done]. by apply elem_of_btree_keys.
    - intros declared input Hd. apply Hall. by apply elem_of_btree_iter. }
  refine (for_each_inv _ I _ _ _ _ _ H).
  { split; [done|]. split; [by left | by intros ? ? ?%elem_of_nil]. }
  intros d [name input] rest s1 s2 _ (Hsub & Hnew & Hall) Hbody.
  apply resolve_input_default_Ok in Hbody as (Hsub' & Hnew' & Hdef).
  split; [by etrans|]. split.
  - intros other Hother. destruct (Hnew' _ Hother) as [Ho | ->].
    + destruct (Hnew _ Ho) as [|(declared & Hd & ->)]; [by left|]. right. exists declared.
      rewrite fmap_app. set_solver.
    + right. exists name. rewrite fmap_app. set_solver.
  - intros declared input' [Hin | [= -> ->]%list_elem_of_singleton]%elem_of_app Hr; [|by apply Hdef].
    specialize (Hall _ _ Hin Hr). destruct Hall as [v Hv]. exists v. by eapply lookup_weaken.
Qed.
End inputs.
