(* ===== verification/Runners.v ===== *)
(** * Runners (crates/gitzero-agent, executor.rs and main.rs)

    Which runner a job asks for ([runs-on]), whether this agent is one, and the
    requirements a run is checked against before it starts.  An error is the
    outermost message. *)

From S2P Require Import Prelude RustStr OrdMap Yaml Expression Evaluate Templates Workflow Matrix Scheduler.
From S2P Require Import SchedulerProgress RustText CommandFile Protocol JobContext Actions.

Definition MAX_RUNNER_LABELS : nat := 32.
Definition MAX_RUNNER_REQUIREMENTS : nat := 512.
Definition MAX_RUNNER_SELECTOR_BYTES : nat := 256.

Record RunnerSelector := mkSelector { sel_labels : list string; sel_group : option string }.
Record RunnerTargeting := mkTargeting { rt_labels : gset string; rt_group : option string }.

(** ** The agent's labels *)

Definition default_runner_labels (arch : string) : list string := ["self-hosted"; "macOS"; runner_arch arch].

(** [Executor::with_runner_targeting]; [default_runner_targeting] is the case of
    the default labels. *)
Definition runner_targeting (labels : list string) (group : option string) : RunnerTargeting :=
  mkTargeting (list_to_set (to_ascii_lowercase <$> labels)) (to_ascii_lowercase <$> group).

Definition invalid_runner_selector (value : string) : bool :=
  bool_decide (MAX_RUNNER_SELECTOR_BYTES < slen value) || has_nul_or_line_break value.

Definition add_runner_label (label : string) (state : list string * gset string) : outcome string (list string * gset string) :=
  let '(labels, normalized) := state in
  let label := trim label in
  reject_if (is_empty label || invalid_runner_selector label)
    "runner labels must contain 1 to 256 bytes without line breaks" ;?
  if bool_decide (to_ascii_lowercase label ∈ normalized) then Ok (labels, normalized)
  else Ok (labels ++ [label], {[to_ascii_lowercase label]} ∪ normalized).

(** [normalize_runner_targeting] of main.rs *)
Definition normalize_runner_targeting (arch : string) (custom_labels : list string) (runner_group : option string)
    : outcome string (list string * option string) :=
  let? '(labels, _) := for_each add_runner_label (default_runner_labels arch ++ custom_labels) ([], ∅) in
  reject_if (bool_decide (MAX_RUNNER_LABELS < length labels)) "at most 32 distinct runner labels may be configured" ;?
  let? group :=
    match runner_group with
    | None => Ok None
    | Some group =>
        let group := trim group in
        if is_empty group then Ok None
        else reject_if (invalid_runner_selector group) "runner group must contain 1 to 256 bytes without line breaks" ;?
             Ok (Some group)
    end in
  Ok (labels, group).

(** ** Eligibility *)

Definition is_github_hosted_macos_label (label : string) : bool :=
  let label := to_ascii_lowercase label in
  bool_decide (label = "macos-latest") || starts_with "macos-" label.

Definition is_github_hosted_non_macos_label (label : string) : bool :=
  let label := to_ascii_lowercase label in
  bool_decide (label = "ubuntu-latest") || starts_with "ubuntu-" label ||
  bool_decide (label = "windows-latest") || starts_with "windows-" label.

Definition only_label (hosted : string → bool) (selector : RunnerSelector) : bool :=
  match sel_group selector, sel_labels selector with
  | None, [label] => hosted label
  | _, _ => false
  end.

Definition group_matches (required runner : option string) : bool :=
  match required, runner with
  | None, _ => true
  | Some required, Some group => eq_ignore_ascii_case group required
  | Some _, None => false
  end.

Definition ensure_runner_eligible (selector : RunnerSelector) (runner_labels : gset string) (runner_group : option string)
    : outcome string unit :=
  reject_if (negb (group_matches (sel_group selector) runner_group))
    ("requires runner group '" +:+ default "" (sel_group selector) +:+ "'") ;?
  if only_label is_github_hosted_macos_label selector then Ok tt
  else
    let missing := base.filter (λ label, to_ascii_lowercase label ∉ runner_labels) (sel_labels selector) in
    reject_if (negb (is_nil missing)) ("missing runner labels: " +:+ sjoin ", " missing).

Definition runner_satisfies_requirements (requirements : list RunnerRequirement) (runner : RunnerTargeting) : bool :=
  forallb (λ requirement,
    is_ok (ensure_runner_eligible (mkSelector (rr_labels requirement) (rr_runner_group requirement))
             (rt_labels runner) (rt_group runner))) requirements.

(** ** [runs-on] *)

Section selector.
Context `{VL : ValueLib} `{EL : ExpressionLib} `{JL : !JsonLib}.
Context (hash_files : string → list string → outcome ExpressionError string).

Definition is_full_expression (value : string) : bool :=
  let value := trim value in starts_with "${{" value && ends_with "}}" value.

Definition json_text (value : JValue) : option string := match value with JString value => Some value | _ => None end.

Fixpoint collect_labels (context : EvaluationContext) (value : Value) (labels : list string)
    : outcome string (list string) :=
  match value with
  | VString value =>
      if is_full_expression value then
        let? rendered := map_err display_error (evaluate_json hash_files context value) in
        match rendered with
        | JString value => Ok (labels ++ [value])
        | JArray values =>
            let? values := traverse (λ value, ok_or (json_text value) "runs-on expression arrays must contain strings") values in
            Ok (labels ++ values)
        | _ => Err "runs-on expression must resolve to a string or string array"
        end
      else
        let? value := map_err display_error (render hash_files context value) in
        Ok (labels ++ [value])
  | VSequence values => for_each (collect_labels context) values labels
  | VTagged _ value => collect_labels context value labels
  | VNull | VBool _ | VNumber _ | VMapping _ => Err "runs-on must resolve to a string or string array"
  end.

Fixpoint render_group (context : EvaluationContext) (value : Value) : outcome string string :=
  match value with
  | VString value =>
      if is_full_expression value then
        let? rendered := map_err display_error (evaluate_json hash_files context value) in
        ok_or (json_text rendered) "runs-on group expression must resolve to a string"
      else map_err display_error (render hash_files context value)
  | VTagged _ value => render_group context value
  | VNull | VBool _ | VNumber _ | VSequence _ | VMapping _ => Err "runs-on group must resolve to a string"
  end.

Definition selector_entry (context : EvaluationContext) (entry : Value * Value) (state : list string * option string)
    : outcome string (list string * option string) :=
  let '(key, value) := entry in
  let '(labels, group) := state in
  let? key := ok_or (as_str key) "runs-on selector keys must be strings" in
  if bool_decide (key = "labels") then
    let? labels := collect_labels context value labels in Ok (labels, group)
  else if bool_decide (key = "group") then
    let? group := render_group context value in Ok (labels, Some group)
  else Err ("runs-on selector key '" +:+ key +:+ "' is not supported").

Definition trimmed_label (label : string) : outcome string string :=
  let label := trim label in
  reject_if (is_empty label) "runs-on labels must not be empty" ;? Ok label.

Definition render_runner_selector (value : Value) (context : EvaluationContext) : outcome string RunnerSelector :=
  let? '(labels, group) :=
    match value with
    | VMapping selector => for_each (selector_entry context) selector ([], None)
    | _ => let? labels := collect_labels context value [] in Ok (labels, None)
    end in
  let? labels := traverse trimmed_label labels in
  let group := match group with
               | Some group => if is_empty (trim group) then None else Some (trim group)
               | None => None
               end in
  reject_if (is_nil labels && negb (is_some group)) "runs-on must select at least one label or runner group" ;?
  Ok (mkSelector labels group).
End selector.

(** ** The requirements of a run *)

(** [BTreeSet<RunnerRequirement>]: the derived order compares the labels, then
    the group, [None] first. *)
Fixpoint labels_compare (a b : list string) : comparison :=
  match a, b with
  | [], [] => Eq
  | [], _ :: _ => Lt
  | _ :: _, [] => Gt
  | x :: a, y :: b => match String.compare x y with Eq => labels_compare a b | c => c end
  end.

Definition requirement_lt (a b : RunnerRequirement) : bool :=
  match labels_compare (rr_labels a) (rr_labels b), rr_runner_group a, rr_runner_group b with
  | Lt, _, _ => true
  | Gt, _, _ => false
  | Eq, None, Some _ => true
  | Eq, Some x, Some y => bool_decide (String.compare x y = Lt)
  | Eq, _, None => false
  end.

Fixpoint insert_sorted (requirement : RunnerRequirement) (l : list RunnerRequirement) : list RunnerRequirement :=
  match l with
  | [] => [requirement]
  | other :: rest =>
      if requirement_lt requirement other then requirement :: l
      else other :: insert_sorted requirement rest
  end.

Definition insert_requirement (requirement : RunnerRequirement) (l : list RunnerRequirement) : list RunnerRequirement :=
  if bool_decide (requirement ∈ l) then l else insert_sorted requirement l.

Fixpoint dedup (l : list string) : list string :=
  match l with
  | x :: ((y :: _) as rest) => if bool_decide (x = y) then dedup rest else x :: dedup rest
  | _ => l
  end.

Definition normalized_requirement (selector : RunnerSelector) : RunnerRequirement :=
  mkRequirement (dedup (merge_sort string_le (to_ascii_lowercase <$> sel_labels selector)))
    (to_ascii_lowercase <$> sel_group selector).

Definition insert_runner_requirement (selector : RunnerSelector) (requirements : list RunnerRequirement)
    : outcome string (list RunnerRequirement) :=
  if only_label is_github_hosted_non_macos_label selector then Ok requirements
  else
    reject_if (bool_decide (MAX_RUNNER_LABELS < length (sel_labels selector)))
      "runner selector declares more than 32 labels" ;?
    reject_if (existsb invalid_runner_selector (sel_labels selector ++ match sel_group selector with Some group => [group] | None => [] end))
      "runner selectors must contain at most 256 bytes without line breaks" ;?
    let requirements := insert_requirement (normalized_requirement selector) requirements in
    reject_if (bool_decide (MAX_RUNNER_REQUIREMENTS < length requirements))
      "workflow resolves to more than 512 distinct runner selectors" ;?
    Ok requirements.

Section requirements.
Context `{VL : ValueLib} `{EL : ExpressionLib} `{JL : !JsonLib} `{JI : !JsonInterop}.
Context (hash_files : string → list string → outcome ExpressionError string).
Context (arch : string) (run : RunSpec JValue) (repository_dir run_dir : string).

Fixpoint yaml_expression_analysis (value : Value) : outcome ExpressionError ExpressionAnalysis :=
  match value with
  | VString value => analyze_template value
  | VSequence values =>
      for_each (λ value analysis, let? source := yaml_expression_analysis value in Ok (analysis_merge analysis source))
        values default_analysis
  | VMapping entries =>
      for_each (λ '(_, value) analysis, let? source := yaml_expression_analysis value in Ok (analysis_merge analysis source))
        entries default_analysis
  | VTagged _ value => yaml_expression_analysis value
  | VNull | VBool _ | VNumber _ => Ok default_analysis
  end.

Definition analysis_is_preflight_safe (analysis : ExpressionAnalysis) (allowed_roots : list string) : bool :=
  negb (uses_status_function analysis) && negb (uses_hash_files analysis) &&
  forallb (λ root, bool_decide (root ∈ allowed_roots)) (set_iter (context_roots analysis)).

Definition reusable_inputs_are_preflight_safe (job : PlannedJob) : bool :=
  forallb (λ scope : PlannedReusableInputScope,
    forallb (λ input : PlannedReusableInput,
      match yaml_expression_analysis (ri_value input) with
      | Ok analysis => analysis_is_preflight_safe analysis ["github"; "inputs"; "matrix"; "strategy"; "vars"]
      | Err _ | Panic => false
      end) (btree_values (ris_inputs scope))) (pj_reusable_input_scopes job).

Definition preflight_expression_context (plan : ExecutionPlan) (job : PlannedJob) (inputs : JValue)
    : outcome string EvaluationContext :=
  let dependencies := btree_values (pj_need_aliases job) in
  let completed_bases := btree_collect ((λ dependency, (dependency, JobSuccess)) <$> dependencies) in
  let completed_outputs := btree_collect ((λ dependency, (dependency, ∅)) <$> dependencies) in
  expression_context arch run job completed_bases completed_outputs (github_workflow_environment run plan)
    (JObject ∅) inputs Success repository_dir run_dir None.

(** [let Ok(x) = c else { continue }]: the job is left out. *)
Definition or_skip {E A : Type} (c : outcome E A) : outcome string (option A) :=
  match c with Ok a => Ok (Some a) | Err _ => Ok None | Panic => Panic end.

Definition optional_analysis (wanted : bool) (c : outcome ExpressionError ExpressionAnalysis)
    : outcome string (option (option ExpressionAnalysis)) :=
  if wanted then (let? analysis := or_skip c in Ok (Some <$> analysis)) else Ok (Some None).

(** The analyses of the condition and of [runs-on], unless one of them reads what
    is only known later. *)
Definition preflight_analyses (available : bool) (job : PlannedJob)
    : outcome string (option (option ExpressionAnalysis * option ExpressionAnalysis)) :=
  let? condition := optional_analysis (is_some (pj_condition job)) (analyze_expression (default "" (pj_condition job))) in
  match condition with
  | None => Ok None
  | Some condition =>
      let? runner := optional_analysis (negb (is_some (pj_virtual_job job))) (yaml_expression_analysis (pj_runs_on job)) in
      match runner with
      | None => Ok None
      | Some runner =>
          let condition_contexts := if available then ["github"; "inputs"; "vars"] else ["github"; "vars"] in
          let runner_contexts := ["github"; "vars"] ++ (if available then ["inputs"] else []) ++
                                 (if is_some (pj_dynamic_matrix job) then [] else ["matrix"; "strategy"]) in
          let safe analysis contexts :=
            match analysis with Some analysis => analysis_is_preflight_safe analysis contexts | None => true end in
          Ok (if safe condition condition_contexts && safe runner runner_contexts then Some (condition, runner) else None)
      end
  end.

Definition reads_inputs (analysis : option ExpressionAnalysis) : bool :=
  match analysis with Some analysis => bool_decide ("inputs" ∈ context_roots analysis) | None => false end.

(** The inputs of a job before the run, or nothing when they are only known later. *)
Definition preflight_inputs (needs_inputs : bool) (job condition_job : PlannedJob) (context : EvaluationContext)
    : outcome string (option JValue) :=
  if needs_inputs then
    if negb (reusable_inputs_are_preflight_safe job) then Ok None
    else or_skip (resolve_reusable_inputs hash_files condition_job context)
  else Ok (Some (JObject ∅)).

Definition preflight_allows (plan : ExecutionPlan) (condition_job : PlannedJob) (condition : option string) (inputs : JValue)
    : outcome string bool :=
  match condition with
  | None => Ok true
  | Some condition =>
      let? context := preflight_expression_context plan condition_job inputs in
      let? allows := or_skip (evaluate_condition hash_files context condition) in
      Ok (default false allows)
  end.

(** The body of the loop of [collect]; [rec] is the recursive call. *)
Definition collect_job (rec : PlannedVirtualJob → list RunnerRequirement → outcome string (list RunnerRequirement))
    (plan : ExecutionPlan) (available : bool) (job : PlannedJob) (requirements : list RunnerRequirement)
    : outcome string (list RunnerRequirement) :=
  let? analyses := preflight_analyses available job in
  match analyses with
  | None => Ok requirements
  | Some (condition_analysis, runner_analysis) =>
      let condition_job := job <| pj_matrix := ∅ |> in
      let? base_context := preflight_expression_context plan condition_job (JObject ∅) in
      let? inputs := preflight_inputs (reads_inputs condition_analysis || reads_inputs runner_analysis) job condition_job
                       base_context in
      match inputs with
      | None => Ok requirements
      | Some inputs =>
          let? allows := preflight_allows plan condition_job (pj_condition job) inputs in
          if negb allows then Ok requirements
          else
            match pj_virtual_job job with
            | None =>
                let? context := preflight_expression_context plan job inputs in
                let? selector := or_skip (render_runner_selector hash_files (pj_runs_on job) context) in
                match selector with
                | None => Ok requirements
                | Some selector => insert_runner_requirement selector requirements
                end
            | Some virtual_job => rec virtual_job requirements
            end
      end
  end.

(** The jobs of a dynamic call are those of its plan, without inputs. *)
Fixpoint collect_call (virtual_job : PlannedVirtualJob) (requirements : list RunnerRequirement)
    : outcome string (list RunnerRequirement) :=
  match virtual_job with
  | ReusableDynamicCall plan _ _ _ => for_each (collect_job collect_call plan false) (ep_jobs plan) requirements
  | ReusableGate | ReusableResult _ _ | ReusableMatrixResult _ _ _ => Ok requirements
  end.

Definition collect_plan (plan : ExecutionPlan) (requirements : list RunnerRequirement)
    : outcome string (list RunnerRequirement) :=
  for_each (collect_job collect_call plan true) (ep_jobs plan) requirements.

Definition statically_resolvable_runner_requirements (plans : list ExecutionPlan) : outcome string (list RunnerRequirement) :=
  for_each collect_plan plans [].
End requirements.

(** * Runners: properties *)

(** ** Eligibility *)

Lemma ensure_runner_eligible_Ok selector runner_labels runner_group u :
  ensure_runner_eligible selector runner_labels runner_group = Ok u ↔
  group_matches (sel_group selector) runner_group = true ∧
  (only_label is_github_hosted_macos_label selector = true ∨
   ∀ label, label ∈ sel_labels selector → to_ascii_lowercase label ∈ runner_labels).
Proof.
  unfold ensure_runner_eligible. destruct u. destruct (group_matches _ _); cbn [negb reject_if obind].
  2: { split; [done | by intros []]. }
  destruct (only_label _ _); [split; [by auto | done]|].
  rewrite reject_if_Ok, negb_false_iff.
  set (missing := base.filter _ _).
  assert (is_nil missing = true ↔ ∀ label, label ∈ sel_labels selector → to_ascii_lowercase label ∈ runner_labels) as ->.
  { unfold missing. split.
    - intros H label Hin. destruct (decide (to_ascii_lowercase label ∈ runner_labels)) as [|Hn]; [done|]. exfalso.
      assert (label ∈ base.filter (λ label, to_ascii_lowercase label ∉ runner_labels) (sel_labels selector)) as Hf
        by by apply list_elem_of_filter.
      destruct (base.filter _ _); [by apply elem_of_nil in Hf | done].
    - intros H. destruct (base.filter _ _) as [|label l] eqn:E; [done|]. exfalso.
      assert (label ∈ base.filter (λ label, to_ascii_lowercase label ∉ runner_labels) (sel_labels selector)) as Hf
        by (rewrite E; apply list_elem_of_here).
      apply list_elem_of_filter in Hf as [Hn Hin]. by apply Hn, H. }
  naive_solver.
Qed.

Lemma eq_ignore_ascii_case_lower a b :
  eq_ignore_ascii_case a (to_ascii_lowercase b) = eq_ignore_ascii_case a b.
Proof. unfold eq_ignore_ascii_case. by rewrite to_ascii_lowercase_idemp. Qed.

Lemma group_matches_lower required runner :
  group_matches (to_ascii_lowercase <$> required) runner = group_matches required runner.
Proof. destruct required, runner; cbn; [|done..]. by apply eq_ignore_ascii_case_lower. Qed.

Lemma elem_of_dedup x l : x ∈ dedup l ↔ x ∈ l.
Proof.
  induction l as [|y [|z l] IH]; [done|done|]. cbn [dedup] in IH |- *.
  case_bool_decide; [subst|]; rewrite ?elem_of_cons, IH, ?elem_of_cons; naive_solver.
Qed.

Lemma elem_of_normalized_labels selector label :
  label ∈ rr_labels (normalized_requirement selector) ↔
  ∃ original, original ∈ sel_labels selector ∧ label = to_ascii_lowercase original.
Proof.
  unfold normalized_requirement. cbn [rr_labels].
  rewrite elem_of_dedup, (merge_sort_Permutation _ _), list_elem_of_fmap. naive_solver.
Qed.

Lemma hosted_macos_lower label :
  is_github_hosted_macos_label (to_ascii_lowercase label) = is_github_hosted_macos_label label.
Proof. unfold is_github_hosted_macos_label. by rewrite to_ascii_lowercase_idemp. Qed.

Definition satisfies (runner : RunnerTargeting) (requirement : RunnerRequirement) : bool :=
  is_ok (ensure_runner_eligible (mkSelector (rr_labels requirement) (rr_runner_group requirement))
           (rt_labels runner) (rt_group runner)).

Definition eligible (runner : RunnerTargeting) (selector : RunnerSelector) : bool :=
  is_ok (ensure_runner_eligible selector (rt_labels runner) (rt_group runner)).

Lemma is_ok_unit {E} (c : outcome E ()) : is_ok c = true ↔ c = Ok ().
Proof. destruct c as [[]| |]; cbn; split; congruence. Qed.

Lemma only_label_normalized selector :
  only_label is_github_hosted_macos_label selector = true →
  only_label is_github_hosted_macos_label
    (mkSelector (rr_labels (normalized_requirement selector)) (rr_runner_group (normalized_requirement selector))) = true.
Proof.
  destruct selector as [[|label [|]] [|]]; try done. unfold only_label. cbn. by rewrite hosted_macos_lower.
Qed.

(** A runner that can run a job satisfies the requirement the job becomes. *)
Lemma eligible_satisfies runner selector :
  eligible runner selector = true → satisfies runner (normalized_requirement selector) = true.
Proof.
  unfold eligible, satisfies. rewrite !is_ok_unit, !ensure_runner_eligible_Ok.
  intros [Hg Hl]. split; [cbn; by rewrite group_matches_lower|].
  destruct Hl as [Hl | Hl]; [left; by apply only_label_normalized|].
  right. cbn [sel_labels]. intros label (original & Hin & ->)%elem_of_normalized_labels.
  rewrite to_ascii_lowercase_idemp. by apply Hl.
Qed.

(** The converse needs labels that differ in more than case: [macos-latest] twice
    is one label before the run, and two, which the hosted label does not cover,
    in it. *)
Lemma satisfies_eligible runner selector :
  NoDup (to_ascii_lowercase <$> sel_labels selector) →
  satisfies runner (normalized_requirement selector) = true → eligible runner selector = true.
Proof.
  unfold eligible, satisfies. rewrite !is_ok_unit, !ensure_runner_eligible_Ok.
  intros Hnd [Hg Hl]. cbn in Hg. rewrite group_matches_lower in Hg. split; [done|].
  destruct Hl as [Hl | Hl].
  - left. unfold only_label in Hl |- *. cbn [sel_labels sel_group] in Hl.
    destruct (rr_runner_group (normalized_requirement selector)) eqn:Eg; [done|].
    assert (sel_group selector = None) as -> by (cbn in Eg; by destruct (sel_group selector)).
    destruct (rr_labels (normalized_requirement selector)) as [|label [|]] eqn:El; [done| |done].
    assert (∀ x, x ∈ sel_labels selector → to_ascii_lowercase x = label) as Hall.
    { intros x Hx. apply list_elem_of_singleton. rewrite <-El. apply elem_of_normalized_labels. by exists x. }
    assert (label ∈ rr_labels (normalized_requirement selector)) as (original & Ho & ->)%elem_of_normalized_labels
      by (rewrite El; apply list_elem_of_here).
    destruct (sel_labels selector) as [|x [|y l]].
    + by apply elem_of_nil in Ho.
    + apply list_elem_of_singleton in Ho as ->. by rewrite hosted_macos_lower in Hl.
    + exfalso. rewrite !fmap_cons in Hnd. apply NoDup_cons in Hnd as [Hnd _]. apply Hnd.
      rewrite (Hall x), (Hall y) by set_solver. apply list_elem_of_here.
  - right. intros label Hin. rewrite <-(to_ascii_lowercase_idemp label). apply Hl.
    apply elem_of_normalized_labels. by exists label.
Qed.

Example duplicate_hosted_label :
  let runner := runner_targeting (default_runner_labels "aarch64") None in
  let selector := mkSelector ["macos-latest"; "macOS-latest"] None in
  satisfies runner (normalized_requirement selector) = true ∧ eligible runner selector = false.
Proof. vm_compute. done. Qed.

(** ** The set of requirements *)

Lemma elem_of_insert_sorted x requirement l : x ∈ insert_sorted requirement l ↔ x = requirement ∨ x ∈ l.
Proof.
  induction l as [|other l IH]; cbn; [set_solver|].
  destruct (requirement_lt requirement other); set_solver.
Qed.

Lemma elem_of_insert_requirement x requirement l : x ∈ insert_requirement requirement l ↔ x = requirement ∨ x ∈ l.
Proof.
  unfold insert_requirement. case_bool_decide; [set_solver|]. apply elem_of_insert_sorted.
Qed.

Lemma length_insert_requirement requirement l : length (insert_requirement requirement l) ≤ S (length l).
Proof.
  unfold insert_requirement. case_bool_decide; [lia|].
  enough (length (insert_sorted requirement l) = S (length l)) by lia.
  clear. induction l as [|other l IH]; [done|]. cbn [insert_sorted].
  destruct (requirement_lt _ _); [done|]. cbn [length]. by rewrite IH.
Qed.

Lemma insert_runner_requirement_Ok selector requirements requirements' :
  insert_runner_requirement selector requirements = Ok requirements' →
  (∀ x, x ∈ requirements' → x = normalized_requirement selector ∨ x ∈ requirements) ∧
  (length requirements ≤ MAX_RUNNER_REQUIREMENTS → length requirements' ≤ MAX_RUNNER_REQUIREMENTS).
Proof.
  unfold insert_runner_requirement. destruct (only_label _ _); [intros [= <-]; split; [by right | done]|].
  intros H. apply obind_Ok in H as (_ & _ & H). apply obind_Ok in H as (_ & _ & H).
  cbv zeta in H. apply obind_Ok in H as ([] & Hl & [= <-]).
  split; [intros x; apply elem_of_insert_requirement|].
  intros _. apply reject_if_Ok, bool_decide_eq_false in Hl. lia.
Qed.

(** ** Where requirements come from *)

Section requirements.
Context `{VL : ValueLib} `{EL : ExpressionLib} `{JL : !JsonLib} `{JI : !JsonInterop}.
Context (hash_files : string → list string → outcome ExpressionError string).
Context (arch : string) (run : RunSpec JValue) (repository_dir run_dir : string).

Notation collect_job := (collect_job hash_files arch run repository_dir run_dir).
Notation collect_call := (collect_call hash_files arch run repository_dir run_dir).

(** The selector of a job whose condition holds before the run starts. *)
Definition selects (plan : ExecutionPlan) (job : PlannedJob) (selector : RunnerSelector) : Prop :=
  pj_virtual_job job = None ∧ ∃ inputs context,
    preflight_allows hash_files arch run repository_dir run_dir plan (job <| pj_matrix := ∅ |>) (pj_condition job) inputs = Ok true ∧
    preflight_expression_context arch run repository_dir run_dir plan job inputs = Ok context ∧
    render_runner_selector hash_files (pj_runs_on job) context = Ok selector.

Lemma collect_job_Ok rec plan available job requirements requirements' :
  collect_job rec plan available job requirements = Ok requirements' →
  requirements' = requirements ∨
  (∃ selector, selects plan job selector ∧ insert_runner_requirement selector requirements = Ok requirements') ∨
  (∃ virtual_job, pj_virtual_job job = Some virtual_job ∧ rec virtual_job requirements = Ok requirements').
Proof.
  unfold Runners.collect_job. intros H. apply obind_Ok in H as (analyses & _ & H).
  destruct analyses as [[ca ra]|]; [|left; congruence].
  cbv zeta in H. apply obind_Ok in H as (base & _ & H).
  apply obind_Ok in H as (inputs & _ & H). destruct inputs as [inputs|]; [|left; congruence].
  apply obind_Ok in H as (allows & Ha & H). destruct allows; cbn [negb] in H; [|left; congruence].
  destruct (pj_virtual_job job) as [v|] eqn:Ev; [right; right; by exists v|].
  apply obind_Ok in H as (context & Hc & H). apply obind_Ok in H as (selector & Hs & H).
  destruct selector as [selector|]; [|left; congruence].
  right. left. exists selector. split; [|done]. split; [done|]. exists inputs, context. split; [done|]. split; [done|].
  destruct (render_runner_selector hash_files (pj_runs_on job) context); cbn in Hs; congruence.
Qed.

(** The jobs of a plan, and of the plans its dynamic calls carry, with the plan
    they are in. *)
Inductive job_within (plan : ExecutionPlan) : ExecutionPlan → PlannedJob → Prop :=
  | within_plan job : job ∈ ep_jobs plan → job_within plan plan job
  | within_call call called inputs secrets outputs owner job :
      call ∈ ep_jobs plan → pj_virtual_job call = Some (ReusableDynamicCall called inputs secrets outputs) →
      job_within called owner job → job_within plan owner job.

Definition required_by (plan : ExecutionPlan) (requirement : RunnerRequirement) : Prop :=
  ∃ owner job selector, job_within plan owner job ∧ selects owner job selector ∧
    requirement = normalized_requirement selector.

Lemma virtual_depth_called (job : PlannedJob) plan inputs secrets outputs virtual_job :
  job ∈ ep_jobs plan → pj_virtual_job job = Some virtual_job →
  virtual_depth virtual_job < virtual_depth (ReusableDynamicCall plan inputs secrets outputs).
Proof.
  intros Hjob Hv.
  apply (depth_called (job <| pj_virtual_job := Some (ReusableDynamicCall plan inputs secrets outputs) |>)
           plan inputs secrets outputs) in Hjob; [|done].
  unfold depth in Hjob. rewrite Hv in Hjob. exact Hjob.
Qed.

Lemma collect_call_from n virtual_job requirements requirements' :
  virtual_depth virtual_job < n →
  collect_call virtual_job requirements = Ok requirements' →
  ∀ x, x ∈ requirements' → x ∈ requirements ∨
    ∃ plan inputs secrets outputs, virtual_job = ReusableDynamicCall plan inputs secrets outputs ∧ required_by plan x.
Proof.
  revert virtual_job requirements requirements'. induction n as [|n IH]; [lia|].
  intros [| | |plan inputs secrets outputs] requirements requirements' Hdepth H;
    try (injection H as <-; by left).
  cbn [Runners.collect_call] in H.
  enough (∀ x, x ∈ requirements' → x ∈ requirements ∨ required_by plan x) as Hx.
  { intros x Hin. destruct (Hx _ Hin); [by left|]. right. by eexists _, _, _, _. }
  refine (for_each_inv_simple _ (λ m, ∀ x, x ∈ m → x ∈ requirements ∨ required_by plan x) _ _ _ _ _ H); [by left|].
  intros job m m' Hjob Hm Hbody x Hx.
  apply collect_job_Ok in Hbody as [-> | [(selector & Hr & Hi) | (v & Hv & Hrec)]].
  - by apply Hm.
  - apply insert_runner_requirement_Ok in Hi as [Hi _]. destruct (Hi _ Hx) as [-> | Hx']; [|by apply Hm].
    right. exists plan, job, selector. split_and!; [by apply within_plan | done | done].
  - pose proof (virtual_depth_called job plan inputs secrets outputs v Hjob Hv).
    assert (virtual_depth v < n) as Hd by lia.
    destruct (IH _ _ _ Hd Hrec _ Hx) as [Hx' | (called & i & s & o & -> & (owner & inner & sel & Hw & Hr & ->))]; [by apply Hm|].
    right. exists owner, inner, sel. split_and!; [by eapply within_call | done | done].
Qed.
End requirements.

Section provenance.
Context `{VL : ValueLib} `{EL : ExpressionLib} `{JL : !JsonLib} `{JI : !JsonInterop}.
Context (hash_files : string → list string → outcome ExpressionError string).
Context (arch : string) (run : RunSpec JValue) (repository_dir run_dir : string).

Notation requirements_of := (statically_resolvable_runner_requirements hash_files arch run repository_dir run_dir).
Notation collect_plan := (collect_plan hash_files arch run repository_dir run_dir).

Lemma collect_job_bound rec plan available job requirements requirements' :
  (∀ v m m', rec v m = Ok m' → length m ≤ MAX_RUNNER_REQUIREMENTS → length m' ≤ MAX_RUNNER_REQUIREMENTS) →
  collect_job hash_files arch run repository_dir run_dir rec plan available job requirements = Ok requirements' →
  length requirements ≤ MAX_RUNNER_REQUIREMENTS → length requirements' ≤ MAX_RUNNER_REQUIREMENTS.
Proof.
  intros Hrec H Hl. apply collect_job_Ok in H as [-> | [(s & _ & H) | (v & _ & H)]]; [done| |by eapply Hrec].
  apply insert_runner_requirement_Ok in H as [_ H]. by apply H.
Qed.

Lemma collect_call_bound n virtual_job requirements requirements' :
  virtual_depth virtual_job < n →
  collect_call hash_files arch run repository_dir run_dir virtual_job requirements = Ok requirements' →
  length requirements ≤ MAX_RUNNER_REQUIREMENTS → length requirements' ≤ MAX_RUNNER_REQUIREMENTS.
Proof.
  revert virtual_job requirements requirements'. induction n as [|n IH]; [lia|].
  intros [| | |plan inputs secrets outputs] requirements requirements' Hdepth H Hl; try (by injection H as <-).
  cbn [Runners.collect_call] in H. revert Hl.
  refine (for_each_inv_simple _ (λ m, length requirements ≤ MAX_RUNNER_REQUIREMENTS → length m ≤ MAX_RUNNER_REQUIREMENTS)
            _ _ _ _ _ H); [done|].
  intros job m m' Hjob Hm Hbody Hl. specialize (Hm Hl).
  apply collect_job_Ok in Hbody as [-> | [(s & _ & Hi) | (v & Hv & Hrec)]]; [done| |].
  - apply insert_runner_requirement_Ok in Hi as [_ Hi]. by apply Hi.
  - pose proof (virtual_depth_called job plan inputs secrets outputs v Hjob Hv).
    refine (IH _ _ _ _ Hrec Hm). lia.
Qed.

Lemma collect_plan_Ok plan requirements requirements' :
  collect_plan plan requirements = Ok requirements' →
  (∀ x, x ∈ requirements' → x ∈ requirements ∨ required_by hash_files arch run repository_dir run_dir plan x) ∧
  (length requirements ≤ MAX_RUNNER_REQUIREMENTS → length requirements' ≤ MAX_RUNNER_REQUIREMENTS).
Proof.
  unfold Runners.collect_plan. intros H.
  refine (for_each_inv_simple _ (λ m, (∀ x, x ∈ m → x ∈ requirements ∨ required_by hash_files arch run repository_dir run_dir plan x) ∧
            (length requirements ≤ MAX_RUNNER_REQUIREMENTS → length m ≤ MAX_RUNNER_REQUIREMENTS)) _ _ _ _ _ H);
    [split; [by left | done]|].
  intros job m m' Hjob [Hm Hl] Hbody. split.
  - intros x Hx. apply collect_job_Ok in Hbody as [-> | [(s & Hr & Hi) | (v & Hv & Hrec)]]; [by apply Hm| |].
    + apply insert_runner_requirement_Ok in Hi as [Hi _]. destruct (Hi _ Hx) as [-> | Hx']; [|by apply Hm].
      right. exists plan, job, s. split_and!; [by apply within_plan | done | done].
    + destruct (collect_call_from hash_files arch run repository_dir run_dir (S (virtual_depth v)) v m m'
                  ltac:(lia) Hrec x Hx) as [Hx' | (called & i & s & o & -> & (owner & inner & sel & Hw & Hr & ->))];
        [by apply Hm|].
      right. exists owner, inner, sel. split_and!; [by eapply within_call | done | done].
  - intros Hl0. refine (collect_job_bound _ _ _ _ _ _ _ Hbody (Hl Hl0)).
    intros v m1 m2 Hv. refine (collect_call_bound (S (virtual_depth v)) v m1 m2 _ Hv). lia.
Qed.

(** a run is rejected by an agent before it starts only for a job the agent
    could not run: some job whose condition holds has a [runs-on] that selects
    what the agent is not.  At most 512 requirements are collected. *)
Theorem rejected_runs_have_an_ineligible_job plans requirements runner :
  requirements_of plans = Ok requirements →
  length requirements ≤ MAX_RUNNER_REQUIREMENTS ∧
  (runner_satisfies_requirements requirements runner = false →
   ∃ plan owner job selector, plan ∈ plans ∧ job_within plan owner job ∧
     selects hash_files arch run repository_dir run_dir owner job selector ∧ eligible runner selector = false).
Proof.
  intros H.
  assert ((∀ x, x ∈ requirements → ∃ plan, plan ∈ plans ∧ required_by hash_files arch run repository_dir run_dir plan x) ∧
          length requirements ≤ MAX_RUNNER_REQUIREMENTS) as [Hfrom Hlen].
  { refine (for_each_inv_simple _ (λ m, (∀ x, x ∈ m → ∃ plan, plan ∈ plans ∧ required_by hash_files arch run repository_dir run_dir plan x) ∧
              length m ≤ MAX_RUNNER_REQUIREMENTS) _ _ _ _ _ H).
    - split; [by intros x ?%elem_of_nil | cbn; lia].
    - intros plan m m' Hplan [Hm Hl] Hbody. apply collect_plan_Ok in Hbody as [Hx Hb]. split; [|by apply Hb].
      intros x Hin. destruct (Hx _ Hin); [by apply Hm | by exists plan]. }
  split; [done|]. intros Hfalse. unfold runner_satisfies_requirements in Hfalse.
  apply forallb_false_elem in Hfalse as (x & Hin & Hsat).
  destruct (Hfrom _ Hin) as (plan & Hplan & (owner & job & selector & Hw & Hr & ->)).
  exists plan, owner, job, selector. split_and!; [done..|].
  destruct (eligible runner selector) eqn:E; [|done].
  apply eligible_satisfies in E. unfold satisfies in E. cbn in E, Hsat. congruence.
Qed.
End provenance.

(** ** The configured labels *)

Definition valid_runner_label (label : string) : Prop :=
  label ≠ "" ∧ slen label ≤ MAX_RUNNER_SELECTOR_BYTES ∧ has_nul_or_line_break label = false.

Lemma valid_runner_label_false label :
  is_empty label || invalid_runner_selector label = false → valid_runner_label label.
Proof.
  unfold invalid_runner_selector. intros [He [Hl Hb]%orb_false_iff]%orb_false_iff.
  split; [by intros ->|]. apply bool_decide_eq_false in Hl. split; [lia | done].
Qed.

Definition labels_inv (seen : list string) (state : list string * gset string) : Prop :=
  NoDup (to_ascii_lowercase <$> state.1) ∧ Forall valid_runner_label state.1 ∧
  (∀ x, x ∈ state.2 ↔ x ∈ to_ascii_lowercase <$> state.1) ∧
  (∀ x, x ∈ state.2 ↔ ∃ label, label ∈ seen ∧ x = to_ascii_lowercase (trim label)).

Lemma add_runner_label_inv seen label state state' :
  labels_inv seen state → add_runner_label label state = Ok state' → labels_inv (seen ++ [label]) state'.
Proof.
  destruct state as [labels normalized]. intros (Hnd & Hvalid & Hset & Hseen) H.
  unfold add_runner_label in H. cbv zeta in H. cbn in Hnd, Hvalid, Hset, Hseen.
  apply obind_Ok in H as ([] & Hr & H). apply reject_if_Ok, valid_runner_label_false in Hr.
  assert (∀ x, (∃ l, l ∈ seen ++ [label] ∧ x = to_ascii_lowercase (trim l)) ↔
               x ∈ normalized ∨ x = to_ascii_lowercase (trim label)) as Hseen'.
  { intros x. setoid_rewrite elem_of_app. setoid_rewrite list_elem_of_singleton. rewrite Hseen. naive_solver. }
  case_bool_decide as Hin; injection H as <-; unfold labels_inv; cbn [fst snd].
  - split_and!; [done..|]. intros x. rewrite Hseen'. split; [by left|]. by intros [? | ->].
  - split_and!.
    + rewrite fmap_app. apply NoDup_app. split_and!; [done| |apply NoDup_singleton].
      intros x Hx ->%list_elem_of_singleton. by apply Hin, Hset.
    + apply Forall_app. split; [done | by constructor].
    + intros x. rewrite fmap_app, elem_of_app, <-Hset, elem_of_union, elem_of_singleton.
      change (to_ascii_lowercase <$> [trim label]) with [to_ascii_lowercase (trim label)].
      rewrite list_elem_of_singleton. tauto.
    + intros x. rewrite Hseen', elem_of_union, elem_of_singleton. tauto.
Qed.

(** The labels an agent registers with are at most 32 single lines, different
    when case is ignored, and stand for the default and the configured labels;
    a group is a non-empty line. *)
Lemma normalized_runner_targeting arch custom_labels runner_group labels group :
  normalize_runner_targeting arch custom_labels runner_group = Ok (labels, group) →
  NoDup (to_ascii_lowercase <$> labels) ∧ Forall valid_runner_label labels ∧ length labels ≤ MAX_RUNNER_LABELS ∧
  (∀ x, x ∈ rt_labels (runner_targeting labels group) ↔
     ∃ label, label ∈ default_runner_labels arch ++ custom_labels ∧ x = to_ascii_lowercase (trim label)) ∧
  (∀ name, group = Some name → valid_runner_label name).
Proof.
  unfold normalize_runner_targeting. intros H. apply obind_Ok in H as ([labels' normalized] & Hfor & H).
  apply obind_Ok in H as ([] & Hlen & H). apply obind_Ok in H as (group' & Hgroup & [= -> ->]).
  apply (for_each_inv _ labels_inv) in Hfor as (Hnd & Hvalid & Hset & Hseen).
  2: { split_and!; cbn; [constructor | constructor | set_solver | set_solver]. }
  2: { intros d label rest s1 s2 _. apply add_runner_label_inv. }
  cbn in Hnd, Hvalid, Hset, Hseen.
  split_and!; [done | done | apply reject_if_Ok, bool_decide_eq_false in Hlen; lia | |].
  - intros x. unfold runner_targeting. cbn [rt_labels]. by rewrite elem_of_list_to_set, <-Hset, Hseen.
  - intros name ->. destruct runner_group as [g|]; [|done]. cbv zeta in Hgroup.
    destruct (is_empty (trim g)) eqn:He; [done|].
    apply obind_Ok in Hgroup as ([] & Hr & [= <-]). apply reject_if_Ok in Hr.
    apply valid_runner_label_false. by rewrite He.
Qed.
