(* ===== verification/Traced.v ===== *)
(** * Traced programs

    A program that acts on its surroundings through effects.  It is a function of
    an arbitrary [oracle], which answers each effect from the trace of all effects
    before it; it threads that trace and the variables the code passes by [&mut],
    and both survive an error.  A monitor reads the trace and may refuse an entry;
    a triple says, for every oracle, that the monitor accepts what a program adds
    to the trace, and relates the result to the state the monitor reaches. *)

From S2P Require Import Prelude.

(** An answer that can be an error, which is its message. *)
Inductive Answer (A : Type) := Got (value : A) | Failed (message : string).
Arguments Got {A}. Arguments Failed {A}.

(** ** Programs *)

Section programs.
Context {E : Type} {answer : E → Type}.

Record Entry := mkEntry { en_effect : E; en_answer : answer en_effect }.

Definition Oracle : Type := list Entry → ∀ e : E, answer e.

Context {L : Type}.             (** the variables a program changes *)
Context (oracle : Oracle).

Definition Act (A : Type) : Type := list Entry → L → list Entry * L * outcome string A.

Definition ret {A : Type} (a : A) : Act A := λ t l, (t, l, Ok a).
Definition lift {A : Type} (c : outcome string A) : Act A := λ t l, (t, l, c).
Definition bail {A : Type} (message : string) : Act A := lift (Err message).

Definition bind {A B : Type} (c : Act A) (k : A → Act B) : Act B := λ t l,
  match c t l with
  | (t, l, Ok a) => k a t l
  | (t, l, Err e) => (t, l, Err e)
  | (t, l, Panic) => (t, l, Panic)
  end.

Definition perform (e : E) : Act (answer e) := λ t l,
  let a := oracle t e in (t ++ [mkEntry e a], l, Ok a).

Definition got {A : Type} (a : Answer A) : outcome string A :=
  match a with Got a => Ok a | Failed message => Err message end.

(** The [?] after a fallible effect. *)
Definition of_answer {A : Type} (a : Answer A) : Act A := lift (got a).

(** [with_context]: the outermost message. *)
Definition with_context {A : Type} (message : string) (c : Act A) : Act A := λ t l,
  let '(t, l, r) := c t l in (t, l, map_err (λ _, message) r).

(** A [Result] that is looked at rather than returned. *)
Definition attempt {A : Type} (c : Act A) : Act (outcome string A) := λ t l,
  match c t l with
  | (t, l, Panic) => (t, l, Panic)
  | (t, l, r) => (t, l, Ok r)
  end.

(** A fallible effect and its [?]. *)
Definition ask {A : Type} (c : Act (Answer A)) : Act A := bind c of_answer.

Definition get : Act L := λ t l, (t, l, Ok l).
Definition modify (f : L → L) : Act unit := λ t l, (t, f l, Ok tt).
End programs.

Arguments Entry {E} answer.
Arguments Oracle {E} answer.
Arguments Act {E} answer L A.

Notation "'run!' p ':=' c 'in' k" := (bind c (λ p, k))
  (at level 200, p pattern, c at level 100, k at level 200) : rust_scope.
Notation "c ';>' k" := (bind c (λ _, k))
  (at level 100, k at level 200, right associativity) : rust_scope.

(** ** Monitors *)

Section monitor.
Context {E : Type} {answer : E → Type} {L S : Type}.
Context (check : S → Entry answer → option S) (oracle : Oracle answer).

Notation Act := (Traced.Act answer L).

Fixpoint monitor (s : S) (trace : list (Entry answer)) : option S :=
  match trace with
  | [] => Some s
  | entry :: trace => s ← check s entry; monitor s trace
  end.

Lemma monitor_app s t1 t2 : monitor s (t1 ++ t2) = s ← monitor s t1; monitor s t2.
Proof.
  revert s. induction t1 as [|e t1 IH]; intros s; [done|]. cbn. destruct (check s e); cbn; [apply IH | done].
Qed.

Definition triple {A : Type} (P : L → S → Prop) (c : Act A) (Q : outcome string A → L → S → Prop) : Prop :=
  ∀ t l s, P l s → ∃ added s',
    (c t l).1.1 = t ++ added ∧ monitor s added = Some s' ∧ Q (c t l).2 (c t l).1.2 s'.

Lemma triple_weaken {A} (P P' : L → S → Prop) (c : Act A) (Q Q' : outcome string A → L → S → Prop) :
  triple P c Q → (∀ l s, P' l s → P l s) → (∀ r l s, Q r l s → Q' r l s) → triple P' c Q'.
Proof.
  intros Hc HP HQ t l s Hs. destruct (Hc t l s (HP _ _ Hs)) as (added & s' & ? & ? & ?).
  exists added, s'. auto.
Qed.

Lemma triple_pre {A} (P P' : L → S → Prop) (c : Act A) (Q : outcome string A → L → S → Prop) :
  triple P c Q → (∀ l s, P' l s → P l s) → triple P' c Q.
Proof. intros Hc HP. by apply (triple_weaken P P' c Q Q). Qed.

Lemma triple_ret {A} (P : L → S → Prop) (a : A) (Q : outcome string A → L → S → Prop) :
  (∀ l s, P l s → Q (Ok a) l s) → triple P (ret a) Q.
Proof. intros H t l s Hs. exists [], s. rewrite app_nil_r. split_and!; [done | done | by apply H]. Qed.

Lemma triple_lift {A} (P : L → S → Prop) (c : outcome string A) (Q : outcome string A → L → S → Prop) :
  (∀ l s, P l s → Q c l s) → triple P (lift c) Q.
Proof. intros H t l s Hs. exists [], s. rewrite app_nil_r. split_and!; [done | done | by apply H]. Qed.

Lemma triple_get (P : L → S → Prop) (Q : outcome string L → L → S → Prop) :
  (∀ l s, P l s → Q (Ok l) l s) → triple P get Q.
Proof. intros H t l s Hs. exists [], s. rewrite app_nil_r. split_and!; [done | done | by apply H]. Qed.

Lemma triple_modify (P : L → S → Prop) (f : L → L) (Q : outcome string unit → L → S → Prop) :
  (∀ l s, P l s → Q (Ok tt) (f l) s) → triple P (modify f) Q.
Proof. intros H t l s Hs. exists [], s. rewrite app_nil_r. split_and!; [done | done | by apply H]. Qed.

Lemma triple_perform (P : L → S → Prop) (e : E) (Q : outcome string (answer e) → L → S → Prop) :
  (∀ l s a, P l s → ∃ s', check s (mkEntry e a) = Some s' ∧ Q (Ok a) l s') → triple P (perform oracle e) Q.
Proof.
  intros H t l s Hs. destruct (H l s (oracle t e) Hs) as (s' & Hc & HQ).
  exists [mkEntry e (oracle t e)], s'. cbn. by rewrite Hc.
Qed.

(** The error cases of a bind end the program. *)
Lemma triple_bind {A B} (P : L → S → Prop) (c : Act A) (k : A → Act B)
    (R : outcome string A → L → S → Prop) (Q : outcome string B → L → S → Prop) :
  triple P c R →
  (∀ a, triple (R (Ok a)) (k a) Q) →
  (∀ e l s, R (Err e) l s → Q (Err e) l s) → (∀ l s, R Panic l s → Q Panic l s) →
  triple P (bind c k) Q.
Proof.
  intros Hc Hk He Hp t l s Hs. destruct (Hc t l s Hs) as (added & s' & Ht & Hm & HR). unfold bind.
  destruct (c t l) as [[t1 l1] [a|e|]]; cbn [fst snd] in *; subst.
  - destruct (Hk a (t ++ added) l1 s' HR) as (added' & s'' & Ht' & Hm' & HQ).
    exists (added ++ added'), s''. rewrite Ht', app_assoc, monitor_app, Hm. auto.
  - exists added, s'. auto.
  - exists added, s'. auto.
Qed.

(** What a triple says of the trace of a program. *)
Lemma triple_accepts {A} s (c : Act A) (Q : outcome string A → L → S → Prop) t l :
  triple (λ _ x, x = s) c Q →
  ∃ s', monitor s (drop (length t) (c t l).1.1) = Some s' ∧ Q (c t l).2 (c t l).1.2 s'.
Proof.
  intros Hc. destruct (Hc t l s eq_refl) as (added & s' & -> & Hm & HQ). exists s'. by rewrite drop_app_length.
Qed.

Lemma triple_attempt {A} (P : L → S → Prop) (c : Act A) (Q : outcome string (outcome string A) → L → S → Prop) :
  triple P c (λ r, Q (match r with Panic => Panic | _ => Ok r end)) → triple P (attempt c) Q.
Proof.
  intros Hc t l s Hs. destruct (Hc t l s Hs) as (added & s' & Ht & Hm & HQ). unfold attempt.
  destruct (c t l) as [[t1 l1] [a|e|]]; cbn [fst snd] in *; subst; by exists added, s'.
Qed.

Lemma triple_with_context {A} (P : L → S → Prop) message (c : Act A) (Q : outcome string A → L → S → Prop) :
  triple P c (λ r, Q (map_err (λ _, message) r)) → triple P (with_context message c) Q.
Proof.
  intros Hc t l s Hs. destruct (Hc t l s Hs) as (added & s' & Ht & Hm & HQ). unfold with_context.
  destruct (c t l) as [[t1 l1] r]; cbn [fst snd] in *; subst; by exists added, s'.
Qed.
End monitor.

(** ** Programs that move a monitor, and programs it does not notice *)

Section moves.
Context {E : Type} {answer : E → Type} {L S : Type}.
Context (check : S → Entry answer → option S) (oracle : Oracle answer) (X F : S → Prop).

Notation Act := (Traced.Act answer L).

(** From one state to another when the program succeeds; an error leaves the
    monitor in a state that satisfies [X], a panic in one that satisfies [F]. *)
Definition moves {A : Type} (s : S) (c : Act A) (s' : S) : Prop :=
  triple check (λ _ x, x = s) c (λ r _ x, match r with Ok _ => x = s' | Err _ => X x | Panic => F x end).

Lemma moves_ret {A} (a : A) s : moves s (ret a) s.
Proof. by apply triple_ret. Qed.

Lemma moves_lift {A} (c : outcome string A) s : X s → F s → moves s (lift c) s.
Proof. intros HE HF. apply triple_lift. intros _ ? ->. by destruct c. Qed.

Lemma moves_bail {A} message s s' : X s → moves s (bail (A:=A) message) s'.
Proof. intros HE. apply triple_lift. by intros _ ? ->. Qed.

Lemma moves_get s : moves s get s.
Proof. by apply triple_get. Qed.

Lemma moves_modify f s : moves s (modify f) s.
Proof. by apply triple_modify. Qed.

Lemma moves_perform e s s' : (∀ a, check s (mkEntry e a) = Some s') → moves s (perform oracle e) s'.
Proof. intros H. apply triple_perform. intros _ ? a ->. exists s'. auto. Qed.

Lemma moves_bind {A B} (c : Act A) (k : A → Act B) s s' s'' :
  moves s c s' → (∀ a, moves s' (k a) s'') → moves s (bind c k) s''.
Proof.
  intros Hc Hk. eapply triple_bind; [exact Hc | | done | done]. intros a. exact (Hk a).
Qed.

Lemma moves_with_context {A} message (c : Act A) s s' : moves s c s' → moves s (with_context message c) s'.
Proof.
  intros Hc. apply triple_with_context. refine (triple_weaken check _ _ _ _ _ Hc _ _); [done|].
  by intros [] _ x H.
Qed.

(** Whatever the result: in one state of the monitor, or in all of them. *)
Definition stays_at {A : Type} (s : S) (c : Act A) : Prop := triple check (λ _ x, x = s) c (λ _ _ x, x = s).
Definition stays {A : Type} (c : Act A) : Prop := ∀ s, stays_at s c.

Lemma stays_moves {A} (c : Act A) s : X s → F s → stays c → moves s c s.
Proof. intros HE HF H. refine (triple_weaken check _ _ _ _ _ (H s) _ _); [done|]. by intros [] ? ? ->. Qed.

Lemma stays_at_lift {A} (c : outcome string A) s : stays_at s (lift c).
Proof. by apply triple_lift. Qed.

Lemma stays_at_perform e s : (∀ a, check s (mkEntry e a) = Some s) → stays_at s (perform oracle e).
Proof. intros H. apply triple_perform. intros _ ? a ->. exists s. auto. Qed.

Lemma stays_at_bind {A B} (c : Act A) (k : A → Act B) s :
  stays_at s c → (∀ a, stays_at s (k a)) → stays_at s (bind c k).
Proof.
  intros Hc Hk. eapply triple_bind; [exact Hc | | done | done].
  intros a. exact (Hk a).
Qed.

Lemma stays_at_bind_lift {A B} (c : outcome string A) (k : A → Act B) s :
  (∀ a, c = Ok a → stays_at s (k a)) → stays_at s (bind (lift c) k).
Proof.
  intros Hk. destruct c as [a|e|]; [by apply (Hk a) | | ]; by apply triple_lift.
Qed.

Lemma stays_at_attempt {A} (c : Act A) s : stays_at s c → stays_at s (attempt c).
Proof. intros Hc. apply triple_attempt. exact Hc. Qed.

Lemma stays_at_with_context {A} message (c : Act A) s : stays_at s c → stays_at s (with_context message c).
Proof. intros Hc. apply triple_with_context. exact Hc. Qed.

Lemma stays_at_get s : stays_at s get.
Proof. by apply triple_get. Qed.

Lemma stays_at_modify f s : stays_at s (modify f).
Proof. by apply triple_modify. Qed.

Lemma stays_ret {A} (a : A) : stays (ret a).
Proof. intros s. by apply stays_at_lift. Qed.

Lemma stays_lift {A} (c : outcome string A) : stays (lift c).
Proof. intros s. by apply stays_at_lift. Qed.

Lemma stays_get : stays get.
Proof. intros s. by apply stays_at_get. Qed.

Lemma stays_modify f : stays (modify f).
Proof. intros s. by apply stays_at_modify. Qed.

Lemma stays_perform e : (∀ s a, check s (mkEntry e a) = Some s) → stays (perform oracle e).
Proof. intros H s. by apply stays_at_perform. Qed.

Lemma stays_bind {A B} (c : Act A) (k : A → Act B) : stays c → (∀ a, stays (k a)) → stays (bind c k).
Proof. intros Hc Hk s. apply stays_at_bind; [apply Hc | intros a; apply Hk]. Qed.

Lemma stays_attempt {A} (c : Act A) : stays c → stays (attempt c).
Proof. intros Hc s. apply stays_at_attempt, Hc. Qed.

Lemma stays_with_context {A} message (c : Act A) : stays c → stays (with_context message c).
Proof. intros Hc s. apply stays_at_with_context, Hc. Qed.
End moves.

Section errors.
Context {E : Type} {answer : E → Type} {L S : Type}.
Context (check : S → Entry answer → option S).

Notation Act := (Traced.Act answer L).

Lemma moves_weaken {A} (X X' F F' : S → Prop) (c : Act A) s s' :
  (∀ x, X x → X' x) → (∀ x, F x → F' x) → moves check X F s c s' → moves check X' F' s c s'.
Proof.
  intros HE HF Hc. refine (triple_weaken check _ _ _ _ _ Hc _ _); [done|]. intros [] _ x Hx; auto.
Qed.

(** An attempt may fail in states the whole may not. *)
Lemma moves_attempt_bind {A B} (X X' F : S → Prop) (c : Act A) (k : outcome string A → Act B) s s' s'' :
  moves check X' F s c s' → (∀ a, moves check X F s' (k (Ok a)) s'') →
  (∀ e x, X' x → moves check X F x (k (Err e)) s'') →
  moves check X F s (bind (attempt c) k) s''.
Proof.
  intros Hc Hk He.
  apply (triple_bind check _ _ _
    (λ r _ x, match r with Ok (Ok _) => x = s' | Ok (Err _) => X' x | Ok Panic | Err _ => False | Panic => F x end));
    [| |done|done].
  - apply triple_attempt. refine (triple_weaken check _ _ _ _ _ Hc _ _); [done|]. intros [] _ x Hx; auto.
  - intros [a|e|] t l x Hx; [by apply (Hk a) | by apply (He e x) | done].
Qed.
End errors.

(** Walk through a program, with a hint database for the programs it calls. *)
Ltac stays_step :=
  first
    [ apply stays_ret | apply stays_lift | apply stays_get | apply stays_modify
    | apply stays_perform; by intros | apply stays_bind; [|intros ?] | apply stays_attempt | apply stays_with_context
    | solve [eauto with stays] | case_match ].

Create HintDb stays.

(** The same in one state of the monitor. *)
Ltac stays_at_step :=
  first
    [ apply stays_at_lift | apply stays_at_get | apply stays_at_modify
    | apply stays_at_bind_lift; intros ? ? | apply stays_at_bind; [|intros ?] | apply stays_at_attempt | apply stays_at_with_context
    | solve [eauto with stays_at] | case_match ].

Create HintDb stays_at.

(** ** Executions that succeed *)

Section runs.
Context {E : Type} {answer : E → Type} {L : Type}.

Notation Act := (Traced.Act answer L).

Lemma bind_runs {A B} (c : Act A) (k : A → Act B) t l t' l' b :
  bind c k t l = (t', l', Ok b) → ∃ t1 l1 a, c t l = (t1, l1, Ok a) ∧ k a t1 l1 = (t', l', Ok b).
Proof. unfold bind. destruct (c t l) as [[t1 l1] [a| |]]; [eauto | done..]. Qed.

Lemma lift_runs {A} (c : outcome string A) (t : list (Entry answer)) (l : L) t' l' a :
  lift c t l = (t', l', Ok a) → t' = t ∧ l' = l ∧ c = Ok a.
Proof. by intros [= <- <- ->]. Qed.

Lemma perform_runs (oracle : Oracle answer) (e : E) (t : list (Entry answer)) (l : L) t' l' a :
  perform oracle e t l = (t', l', Ok a) → t' = t ++ [mkEntry e a] ∧ l' = l.
Proof. by intros [= <- <- <-]. Qed.

Lemma with_context_runs {A} message (c : Act A) t l t' l' a :
  with_context message c t l = (t', l', Ok a) → c t l = (t', l', Ok a).
Proof. unfold with_context. by destruct (c t l) as [[? ?] [| |]]; intros [= <- <- <-]. Qed.

Lemma ask_runs {A} (c : Act (Answer A)) t l t' l' a :
  ask c t l = (t', l', Ok a) → c t l = (t', l', Ok (Got a)).
Proof.
  intros (t1 & l1 & [v|m] & Hc & Hk)%bind_runs; apply lift_runs in Hk as (-> & -> & [= <-]). done.
Qed.
End runs.

(** Take a successful execution of a bind apart. *)
Ltac runs H :=
  let t := fresh "t" in let l := fresh "l" in let a := fresh "a" in let H1 := fresh "H" in
  apply bind_runs in H as (t & l & a & H1 & H).

(** ** Results *)

Section yields.
Context {E : Type} {answer : E → Type} {L : Type}.

Notation Act := (Traced.Act answer L).

(** What a program returns when it succeeds. *)
Definition yields {A : Type} (c : Act A) (Q : A → Prop) : Prop :=
  ∀ t l, match (c t l).2 with Ok a => Q a | Err _ | Panic => True end.

Lemma yields_any {A} (c : Act A) : yields c (λ _, True).
Proof. intros t l. by destruct (c t l).2. Qed.

Lemma yields_weaken {A} (c : Act A) (Q Q' : A → Prop) : yields c Q → (∀ a, Q a → Q' a) → yields c Q'.
Proof. intros Hc HQ t l. specialize (Hc t l). destruct (c t l).2; auto. Qed.

Lemma yields_ret {A} (a : A) (Q : A → Prop) : Q a → yields (ret a) Q.
Proof. by intros HQ t l. Qed.

Lemma yields_lift {A} (c : outcome string A) (Q : A → Prop) : (∀ a, c = Ok a → Q a) → yields (lift c) Q.
Proof. intros HQ t l. cbn. destruct c; auto. Qed.

Lemma yields_bind {A B} (c : Act A) (k : A → Act B) (R : A → Prop) (Q : B → Prop) :
  yields c R → (∀ a, R a → yields (k a) Q) → yields (bind c k) Q.
Proof.
  intros Hc Hk t l. specialize (Hc t l). unfold bind.
  destruct (c t l) as [[t' l'] [a| |]]; [|done..]. by apply Hk.
Qed.

Lemma yields_then {A B} (c : Act A) (k : A → Act B) (Q : B → Prop) : (∀ a, yields (k a) Q) → yields (bind c k) Q.
Proof. intros Hk. apply (yields_bind c k (λ _, True)); [apply yields_any | by intros a _]. Qed.

Lemma yields_perform (oracle : Oracle answer) (e : E) (Q : answer e → Prop) :
  (∀ a, Q a) → yields (perform oracle e) Q.
Proof. intros HQ t l. apply HQ. Qed.

Lemma yields_with_context {A} message (c : Act A) (Q : A → Prop) : yields c Q → yields (with_context message c) Q.
Proof. intros Hc t l. specialize (Hc t l). unfold with_context. by destruct (c t l) as [[? ?] [| |]]. Qed.

(** A program that stays, and then one that may use what it yields. *)
Lemma triple_stays_bind {S A B} (check : S → Entry answer → option S) s (c : Act A) (k : A → Act B) (R : A → Prop)
    (Q : outcome string B → L → S → Prop) :
  stays_at check s c → yields c R → (∀ a, R a → triple check (λ _ x, x = s) (k a) Q) →
  (∀ e l, Q (Err e) l s) → (∀ l, Q Panic l s) → triple check (λ _ x, x = s) (bind c k) Q.
Proof.
  intros Hc HR Hk He Hp t l x Hx. destruct (Hc t l x Hx) as (added & s' & Ht & Hm & ->).
  specialize (HR t l). unfold bind. destruct (c t l) as [[t1 l1] [a|e|]]; cbn [fst snd] in *; subst.
  - destruct (Hk a HR (t ++ added) l1 s eq_refl) as (added' & s'' & Ht' & Hm' & HQ).
    exists (added ++ added'), s''. rewrite Ht', app_assoc, monitor_app, Hm. auto.
  - exists added, s. auto.
  - exists added, s. auto.
Qed.

Lemma yields_Ok {A} (c : Act A) (Q : A → Prop) t l t' l' a : yields c Q → c t l = (t', l', Ok a) → Q a.
Proof. intros Hc Ha. specialize (Hc t l). by rewrite Ha in Hc. Qed.
End yields.
