(* ===== verification/JobEffects.v ===== *)
(** * Effects of a job (crates/gitzero-agent, executor.rs)

    What the execution of a job asks of its surroundings: messages to the control
    plane, processes, files, tokens, the cancellation flags.  Its programs are
    traced programs over these effects. *)

From S2P Require Import Prelude RustStr OrdMap Yaml Traced Expression Evaluate Workflow Protocol Masking.
From S2P Require Import ProblemMatcher MatcherRegistry WorkflowCommands Scheduler JobContext Actions.

Inductive ProcessError :=
  | ProcessCancelled
  | ProcessTimedOut
  | ProcessExit (code : Z)
  | ProcessIo (message : string).

Inductive ProcessResult := Exited (code : Z) | Broken (error : ProcessError).

Record Command := mkCommand {
  co_program : string;
  co_arguments : list string;
  co_directory : string;
  co_environment : gmap string string;
}.

Inductive SummaryFile := SummaryMissing | SummaryUnreadable (error : string) | SummaryBytes (bytes : string).

Record ArtifactFiles := mkArtifactFiles { af_declarations : string; af_list : string }.

Inductive Slot := SlotAcquired | SlotRefused (message : string).

Section effects.
Context `{CL : CaptureLib}.

Inductive Effect :=
  | ESend (message : AgentMessage)                         (** [send] *)
  | EUuid                                                  (** [Uuid::new_v4] *)
  | ESequence                                              (** [sequence.fetch_add(1)] *)
  | ECancelled                                             (** [*cancel.borrow()] *)
  | EJobTimedOut                                           (** [job_timed_out.load] *)
  | EStepTimedOut (step_id : string)                       (** [step_timed_out.load] *)
  | EDeadline (unit_id : string) (timeout : option Z)      (** [deadline_cancellation]: a timer is armed *)
  | ESlot (step_id : string)                               (** [acquire_execution_slot] *)
  | EWorkflowToken                                         (** [repository_access.workflow_token] *)
  | EManagedSecrets (environment : option string)          (** [repository_access.managed_secrets] *)
  | EEnvironmentVariables (environment : string)           (** [environment_variables_for_job] *)
  | ECreateDirectory (path : string)
  | EPrepareDirectory (path : string)                      (** [prepare_directory] *)
  | EWithin (root candidate : string)                      (** [ensure_within] *)
  | EWriteFile (path content : string)
  | EReadFile (path : string)                              (** [read_to_string] *)
  | EReadSummary (path : string)
  | EArtifactFiles (directory name : string)               (** [initialize_files] *)
  | EArtifactSubjects (declarations : string)              (** [artifact_subjects.process] *)
  | ELock                                                  (** [workflow_commands.lock] *)
  | EUnlock (commands : WorkflowCommandProcessor)
  | EProcess (step_id : string) (command : Command) (timeout : option Z)      (** [run_workflow_process] *)
  | ECheckout (step_id : string) (inputs environment : gmap string string) (timeout : option Z)
                                                           (** [execute_checkout_step] *)
  | EMaterialize (step_id : string) (reference : ActionReference)             (** [materialize_action] *)
  | ELoadDefinition (directory : string)                   (** [load_definition] *)
  | EPushSummary (order : Z) (job_name : string) (steps : list (string * string)) (omitted : bool)
  | ESpawn (step_id : string)                              (** [tokio::spawn]: the task of a background step starts *)
  | EEnded (step_id : string) (ok : bool)                  (** that task ends, with an error or without *)
  | EJoin (step_id : string) (ok : bool).                  (** its handle is awaited, and gives its result *)

Definition answer (e : Effect) : Type :=
  match e with
  | EUuid => Uuid
  | ESequence => Z
  | ECancelled | EJobTimedOut | EStepTimedOut _ => bool
  | ESlot _ => Slot
  | EWorkflowToken => Answer (option string)
  | EManagedSecrets _ | EEnvironmentVariables _ => Answer (gmap string string)
  | EReadFile _ => Answer string
  | EReadSummary _ => SummaryFile
  | EArtifactFiles _ _ => Answer ArtifactFiles
  | EArtifactSubjects _ => Answer (nat * nat)
  | ELock => WorkflowCommandProcessor
  | EProcess _ _ _ => ProcessResult
  | ECheckout _ _ _ _ => Answer (gmap string string)
  | EMaterialize _ _ => Answer MaterializedAction
  | ELoadDefinition _ => Answer ActionDefinition
  | ESend _ | ECreateDirectory _ | EPrepareDirectory _ | EWithin _ _ | EWriteFile _ _ => Answer unit
  | EDeadline _ _ | EUnlock _ | EPushSummary _ _ _ _ | ESpawn _ | EEnded _ _ | EJoin _ _ => unit
  end.
End effects.

Notation Entry := (Traced.Entry answer).
Notation Oracle := (Traced.Oracle answer).
Notation Act := (Traced.Act answer).
Notation moves_perform := (Traced.moves_perform (answer := answer)).
Notation triple_perform := (Traced.triple_perform (answer := answer)).
Notation stays_perform := (Traced.stays_perform (answer := answer)).
