(* ===== verification/JobSteps.v ===== *)
(** * The steps of a job (crates/gitzero-agent, executor.rs)

    [execute_step], the phases of JavaScript actions, composite actions and
    [run] scripts.  The environment, the post phases and the summary a step
    changes are the variables [Locals] of a program ([JobEffects]). *)

From S2P Require Import Prelude RustStr RustText UnixPath OrdMap Yaml Expression Evaluate Workflow Matrix.
From S2P Require Import Protocol Masking ProblemMatcher MatcherRegistry WorkflowCommands CommandFile LogOutput Expression.
From S2P Require Import Scheduler JobContext Actions Traced JobEffects.

Definition MAX_STEP_SUMMARY_BYTES : Z := 1024 * 1024.
Definition MAX_STEP_SUMMARIES_PER_JOB : nat := 20.

(** ** Summaries *)

Record JobSummaryBuilder := mkSummaryBuilder {
  sb_job_name : string;
  sb_steps : list (string * string);
  sb_omitted_steps : bool;
}.

#[export] Instance JobSummaryBuilder_updatable : Updatable JobSummaryBuilder := λ s,
  mkSummaryBuilder (sb_job_name s) (sb_steps s) (sb_omitted_steps s).

Definition summary_new (job_name : string) : JobSummaryBuilder := mkSummaryBuilder job_name [] false.

Definition summary_push (name markdown : string) (self : JobSummaryBuilder) : JobSummaryBuilder :=
  if bool_decide (length (sb_steps self) < MAX_STEP_SUMMARIES_PER_JOB)
  then self <| sb_steps := sb_steps self ++ [(name, markdown)] |>
  else self <| sb_omitted_steps := true |>.

Definition summary_append (self other : JobSummaryBuilder) : JobSummaryBuilder :=
  let self := fold_left (λ self '(name, markdown), summary_push name markdown self) (sb_steps other) self in
  self <| sb_omitted_steps := sb_omitted_steps self || sb_omitted_steps other |>.

(** ** Results *)

Record StepExecution := mkStepExecution {
  se_conclusion : JobConclusion;
  se_outcome : JobConclusion;
  se_outputs : gmap string string;
  se_ran : bool;
}.

Definition step_skipped : StepExecution := mkStepExecution JobSkipped JobSkipped ∅ false.

Record ActionPhaseExecution := mkPhase {
  ap_conclusion : JobConclusion;
  ap_outputs : gmap string string;
  ap_state : gmap string string;
  ap_exit_code : option Z;
}.

Definition protocol_conclusion (conclusion : JobConclusion) : Conclusion.Conclusion :=
  match conclusion with
  | JobSuccess => Conclusion.Success
  | JobFailure => Conclusion.Failure
  | JobTimedOut => Conclusion.TimedOut
  | JobCancelled => Conclusion.Cancelled
  | JobSkipped => Conclusion.Neutral
  end.

Definition process_conclusion (result : ProcessResult) (job_timed_out : bool) : Conclusion.Conclusion * option Z :=
  match result with
  | Exited code => (Conclusion.Success, Some code)
  | Broken ProcessCancelled => (if job_timed_out then Conclusion.TimedOut else Conclusion.Cancelled, None)
  | Broken ProcessTimedOut => (Conclusion.TimedOut, None)
  | Broken (ProcessExit code) => (Conclusion.Failure, Some code)
  | Broken (ProcessIo _) => (Conclusion.Failure, None)
  end.

(** How a process decides the outcome of its step. *)
Definition process_outcome (result : ProcessResult) (artifact_subjects_failed timed_out : bool) : JobConclusion :=
  match result with
  | Exited _ => if artifact_subjects_failed then JobFailure else JobSuccess
  | Broken ProcessCancelled => if timed_out then JobTimedOut else JobCancelled
  | Broken (ProcessExit _ | ProcessIo _ | ProcessTimedOut) => JobFailure
  end.

Definition with_continue_on_error (continue_on_error : bool) (outcome : JobConclusion) : JobConclusion :=
  if continue_on_error && bool_decide (outcome = JobFailure) then JobSuccess else outcome.

(** The status after a step. *)
Definition status_after (conclusion : JobConclusion) (status : ExecutionStatus) : ExecutionStatus :=
  match conclusion with
  | JobFailure | JobTimedOut => Failure
  | JobCancelled => Cancelled
  | JobSuccess | JobSkipped => status
  end.

Definition status_conclusion (status : ExecutionStatus) : JobConclusion :=
  match status with
  | Success => JobSuccess
  | Failure => JobFailure
  | Cancelled => JobCancelled
  | Skipped => JobSkipped
  end.

(** ** Shells: [shell_split] is [shell_words::split] *)

Definition dquote : ascii := "034"%char.

Section shells.
Context (shell_split : string → option (list string)).

Definition shell_program (shell : string) : outcome string string :=
  let? parts := ok_or (shell_split shell) "parse shell command" in
  match parts with
  | [] => Err "shell cannot be empty"
  | program :: _ =>
      if bool_decide (program = "bash") then Ok "/bin/bash"
      else if bool_decide (program = "sh") then Ok "/bin/sh"
      else if bool_decide (program = "zsh") then Ok "/bin/zsh"
      else reject_if (has_nul_or_line_break program) "shell program contains invalid characters" ;? Ok program
  end.

Definition missing_placeholder : string := "custom shell templates must include a {0} placeholder".

Definition shell_arguments_for (shell script_path : string) : outcome string (list string) :=
  let? parts := ok_or (shell_split shell) "parse shell command" in
  match parts with
  | [] => Err "shell cannot be empty"
  | [program] =>
      if bool_decide (program = "bash") then Ok ["--noprofile"; "--norc"; "-eo"; "pipefail"; script_path]
      else if bool_decide (program = "sh") then Ok ["-e"; script_path]
      else if bool_decide (program = "python") then Ok [script_path]
      else if bool_decide (program ∈ ["pwsh"; "powershell"])
      then Ok ["-command"; ". '" +:+ replace "'" "''" script_path +:+ "'"]
      else if bool_decide (program = "cmd")
      then Ok ["/D"; "/E:ON"; "/V:OFF"; "/S"; "/C"; "CALL " +:+ String dquote (script_path +:+ String dquote "")]
      else Err missing_placeholder
  | _ :: arguments =>
      reject_if (negb (existsb (contains "{0}") arguments)) missing_placeholder ;?
      Ok (replace "{0}" script_path <$> arguments)
  end.

Definition shell_script_extension (shell : string) : outcome string string :=
  let? parts := ok_or (shell_split shell) "parse shell command" in
  let? program := ok_or (head parts) "shell cannot be empty" in
  let? program := ok_or (file_name program) "shell program must be valid UTF-8" in
  Ok (if bool_decide (program ∈ ["pwsh"; "powershell"]) then "ps1"
      else if bool_decide (program ∈ ["python"; "python3"]) then "py"
      else if bool_decide (program = "cmd") then "cmd"
      else "sh").
End shells.

(** ** Variables *)

Record ActionPost `{EL : ExpressionLib} := mkPost {
  po_name : string;
  po_step_id : string;
  po_action_directory : string;
  po_script : string;
  po_environment : gmap string string;
  po_state : gmap string string;
  po_condition : string;
  po_context : EvaluationContext;
}.

(** What the functions take by [&mut]; the URL is a variable of [execute_job]. *)
Record Locals `{EL : ExpressionLib} := mkLocals {
  lo_environment : gmap string string;
  lo_posts : list ActionPost;
  lo_summary : JobSummaryBuilder;
  lo_deployment_url : option string;
}.

Arguments mkPost {EL}. Arguments po_name {EL}. Arguments po_step_id {EL}. Arguments po_action_directory {EL}.
Arguments po_script {EL}. Arguments po_environment {EL}. Arguments po_state {EL}. Arguments po_condition {EL}.
Arguments po_context {EL}. Arguments mkLocals {EL}. Arguments lo_environment {EL}. Arguments lo_posts {EL}.
Arguments lo_summary {EL}. Arguments lo_deployment_url {EL}.

#[export] Instance Locals_updatable `{EL : ExpressionLib} : Updatable Locals := λ l,
  mkLocals (lo_environment l) (lo_posts l) (lo_summary l) (lo_deployment_url l).

Section steps.
Context `{VL : ValueLib} `{EL : ExpressionLib} `{JL : !JsonLib} `{JI : !JsonInterop} `{CL : CaptureLib}.
Context (hash_files : string → list string → outcome ExpressionError string).
Context (shell_split : string → option (list string)) (uuid_display : Uuid → string) (process_path : option string).
Context (oracle : Oracle).
Context (job_id : Uuid) (run : RunSpec JValue) (workspace run_dir cache_mode : string).

Notation Environment := (gmap string string).
Notation Act := (JobEffects.Act Locals).
Notation perform := (perform oracle).

(** ** Small programs *)

Definition send (message : AgentMessage) : Act unit := ask (perform (ESend message)).

Definition send_new (message : Uuid → AgentMessage) : Act unit :=
  run! message_id := perform EUuid in send (message message_id).

Definition send_log (step_id : string) (stream : LogStream) (data : string) : Act unit :=
  run! message_id := perform EUuid in
  run! sequence := perform ESequence in
  send (LogChunk message_id job_id step_id sequence stream data).

Definition step_started (step_id name : string) : Act unit :=
  send_new (λ message_id, StepStarted message_id job_id step_id name).

Definition step_finished (step_id : string) (conclusion : Conclusion.Conclusion) (exit_code : option Z) : Act unit :=
  send_new (λ message_id, StepFinished message_id job_id step_id conclusion exit_code).

Definition report_skipped (step_id name reason : string) : Act unit :=
  step_started step_id name ;>
  send_log step_id System (reason +:+ String lf "") ;>
  step_finished step_id Conclusion.Neutral None.

Definition create_directory (path : string) : Act unit := ask (perform (ECreateDirectory path)).
Definition ensure_within (root candidate : string) : Act unit := ask (perform (EWithin root candidate)).
Definition read_file (path : string) : Act string := ask (perform (EReadFile path)).

Fixpoint write_files (files : list (string * string)) : Act unit :=
  match files with
  | [] => ret ()
  | (path, content) :: files => ask (perform (EWriteFile path content)) ;> write_files files
  end.

(** [workflow_commands.lock()] around one operation. *)
Definition with_commands {A : Type} (operation : cmd A) : Act A :=
  run! commands := perform ELock in
  let '(commands, result) := operation commands in
  perform (EUnlock commands) ;> lift result.

Definition set_environment (environment : Environment) : Act unit :=
  modify (λ l, l <| lo_environment := environment |>).

Definition get_environment : Act Environment := run! l := get in ret (lo_environment l).

(** ** Files of a step *)

Definition capture_step_summary (path name step_id : string) : Act unit :=
  run! file := perform (EReadSummary path) in
  let report message := send_log step_id System (message +:+ String lf "") in
  match file with
  | SummaryMissing => ret ()
  | SummaryUnreadable error => report ("Step summary could not be read and was ignored: " +:+ error)
  | SummaryBytes bytes =>
      if is_empty bytes then ret ()
      else if bool_decide (MAX_STEP_SUMMARY_BYTES < Z.of_nat (slen bytes))%Z
      then report "Step summary exceeded GitHub's 1 MiB per-step limit and was ignored."
      else if negb (valid_utf8 bytes) then report "Step summary was not valid UTF-8 and was ignored."
      else if is_empty (trim bytes) then ret ()
      else modify (λ l, l <| lo_summary := summary_push name bytes (lo_summary l) |>)
  end.

(** [Ok(true)]: the declarations could not be processed. *)
Definition capture_artifact_subjects (declarations step_id : string) : Act bool :=
  run! capture := perform (EArtifactSubjects declarations) in
  match capture with
  | Got (added, total) =>
      (if bool_decide (0 < added)
       then send_log step_id Stdout ("Captured " +:+ pretty added +:+ " artifact subject(s) from this step (job total: "
                                     +:+ pretty total +:+ ")." +:+ String lf "")
       else ret ()) ;>
      ret false
  | Failed error =>
      send_log step_id Stderr ("Unable to process $GITHUB_ARTIFACTS: " +:+ error +:+ String lf "") ;> ret true
  end.

Definition apply_environment_file_of (path : string) : Act unit :=
  run! source := read_file path in
  run! environment := get_environment in
  run! environment := lift (apply_environment_file environment source) in
  set_environment environment.

Definition apply_path_file_of (path : string) : Act unit :=
  run! source := read_file path in
  run! environment := get_environment in
  set_environment (apply_path_file process_path environment source).

Definition parse_command_file (path : string) : Act Environment :=
  run! source := read_file path in lift (parse_command_source source).

Fixpoint send_logs (step_id : string) (messages : list string) : Act unit :=
  match messages with
  | [] => ret ()
  | message :: messages => send_log step_id System message ;> send_logs step_id messages
  end.

Definition masked_outputs (step_id : string) (outputs : Environment) : Act Environment :=
  run! (outputs, messages) := with_commands (λ p, (p, filter_masked_outputs p step_id outputs)) in
  send_logs step_id messages ;> ret outputs.

(** The outputs of a process: the legacy commands, then the file, without masked
    values. *)
Definition step_outputs (step_id output_file : string) : Act Environment :=
  run! legacy := with_commands (take_legacy_outputs step_id) in
  run! declared := parse_command_file output_file in
  masked_outputs step_id (btree_extend legacy declared).

Definition step_state (step_id state_file : string) : Act Environment :=
  run! legacy := with_commands (take_legacy_state step_id) in
  run! declared := parse_command_file state_file in
  ret (btree_extend legacy declared).

(** [.envs(base).env(name, value)...] *)
Definition with_variables (base : Environment) (variables : list (string * string)) : Environment :=
  foldl (λ environment '(name, value), <[name := value]> environment) base variables.

Definition artifact_files (directory name : string) : Act ArtifactFiles := ask (perform (EArtifactFiles directory name)).

(** ** Contexts of a step *)

Definition extend_root (name : string) (entries : list (string * JValue)) (context : EvaluationContext)
    : outcome string EvaluationContext :=
  let '(context, result) := extend_json_object context name (btree_collect entries) in
  map_err display_error result ;? Ok context.

Definition evaluate_or (message : string) (context : EvaluationContext) (condition : string) : outcome string bool :=
  map_err (λ _, message) (evaluate_condition hash_files context condition).

Definition render_text (context : EvaluationContext) (template : string) : outcome string string :=
  map_err display_error (render hash_files context template).

Definition optional_condition (what : string) (context : EvaluationContext) (condition : option string) : outcome string bool :=
  match condition with
  | Some condition => evaluate_or ("evaluate " +:+ what +:+ " '" +:+ condition +:+ "'") context condition
  | None => Ok false
  end.

Definition step_allows (condition : option string) (status : ExecutionStatus) (context : EvaluationContext)
    : outcome string bool :=
  condition_allows condition status
    (evaluate_or ("evaluate condition '" +:+ default "" condition +:+ "'") context (default "" condition)).

(** Seconds. *)
Definition parse_timeout (timeout_minutes : option string) (context : EvaluationContext) : outcome string (option Z) :=
  match timeout_minutes with
  | None => Ok None
  | Some timeout_minutes =>
      let? rendered := render_text context timeout_minutes in
      let? minutes := ok_or (parse_unsigned u64_max rendered)
                        ("timeout-minutes '" +:+ rendered +:+ "' is not a positive integer") in
      reject_if (negb (bool_decide (1 ≤ minutes ≤ 360)%Z))
        "timeout-minutes must be a positive integer no greater than 360" ;?
      Ok (Some (minutes * 60)%Z)
  end.

Definition step_json (execution : StepExecution) : JValue :=
  jobject [("outputs", jstrings (se_outputs execution));
           ("outcome", JString (as_github_result (se_outcome execution)));
           ("conclusion", JString (as_github_result (se_conclusion execution)))].

(** ** A phase of a JavaScript action *)

Definition execute_node_action_phase (step_id phase action_directory script : string) (timeout : option Z)
    (action_environment state : Environment) (summary_name : string) : Act ActionPhaseExecution :=
  let script := join action_directory script in
  ensure_within action_directory script ;>
  run! environment := get_environment in
  let temp_dir := default (join (join run_dir "_temp") (sanitize_id step_id)) (environment !! "RUNNER_TEMP") in
  create_directory temp_dir ;>
  run! nonce := perform EUuid in
  let file suffix := join temp_dir ("action-" +:+ phase +:+ "-" +:+ uuid_display nonce +:+ "-" +:+ suffix) in
  run! artifacts := artifact_files temp_dir ("action-" +:+ phase) in
  write_files [(file "env.txt", ""); (file "output.txt", ""); (file "path.txt", ""); (file "state.txt", "");
               (file "summary.md", "")] ;>
  send_log step_id System ("Running JavaScript action " +:+ phase +:+ " entrypoint." +:+ String lf "") ;>
  let phase_environment := with_variables action_environment ((λ '(name, value), ("STATE_" +:+ name, value)) <$> btree_iter state) in
  run! result := perform (EProcess step_id
    (mkCommand "node" [script] workspace
       (with_variables (btree_extend environment phase_environment)
          [("ACTIONS_CACHE_MODE", cache_mode);
           ("GITHUB_ENV", file "env.txt"); ("GITHUB_OUTPUT", file "output.txt"); ("GITHUB_PATH", file "path.txt");
           ("GITHUB_STATE", file "state.txt"); ("GITHUB_STEP_SUMMARY", file "summary.md");
           ("GITHUB_ARTIFACTS", af_declarations artifacts); ("GITHUB_ARTIFACTS_LIST", af_list artifacts)]))
    timeout) in
  capture_step_summary (file "summary.md") summary_name step_id ;>
  run! subjects_failed := capture_artifact_subjects (af_declarations artifacts) step_id in
  apply_environment_file_of (file "env.txt") ;>
  apply_path_file_of (file "path.txt") ;>
  run! outputs := step_outputs step_id (file "output.txt") in
  run! state := step_state step_id (file "state.txt") in
  run! timed_out := perform EJobTimedOut in
  ret (mkPhase (process_outcome result subjects_failed timed_out) outputs state (process_conclusion result timed_out).2).

(** ** Action steps; [exec] is [execute_step] *)

Section actions.
Context (exec : string → string → PlannedStep → EvaluationContext → ExecutionStatus → Act StepExecution).

(** Run with an environment of its own; the caller's comes back. *)
Definition with_environment {A : Type} (environment : Environment) (c : Act A) : Act (A * Environment) := λ t l,
  let '(t, l', r) := c t (l <| lo_environment := environment |>) in
  (t, l' <| lo_environment := lo_environment l |>, omap_ok (λ a, (a, lo_environment l')) r).

Definition merge_changed (environment initial final : Environment) : Environment :=
  btree_extend environment
    (btree_collect (base.filter (λ entry, initial !! entry.1 ≠ Some entry.2) (btree_iter final))).

Definition composite_context (action_context : EvaluationContext) (status : ExecutionStatus) (environment : Environment)
    (steps : gmap string JValue) : outcome string EvaluationContext :=
  let context := set_status action_context status in
  let? context := extend_root "github" [("action_status", JString (execution_status_result status))] context in
  let? context := insert_json_root "env" (jstrings environment) context in
  insert_json_root "steps" (JObject steps) context.

Fixpoint composite_steps (name parent_step_id : string) (source : ActionRepositorySource) (action_context : EvaluationContext)
    (steps : list (nat * ActionStep)) (recorded : gmap string JValue) (status : ExecutionStatus)
    : Act (gmap string JValue * ExecutionStatus) :=
  match steps with
  | [] => ret (recorded, status)
  | (index, step) :: steps =>
      run! planned := lift (plan_composite_step step index source) in
      run! environment := get_environment in
      run! context := lift (composite_context action_context status environment recorded) in
      run! execution := exec name parent_step_id planned context status in
      let recorded := <[ps_id planned := step_json execution]> recorded in
      let status := status_after (se_conclusion execution) status in
      if bool_decide (status = Cancelled) then ret (recorded, status)
      else composite_steps name parent_step_id source action_context steps recorded status
  end.

Definition composite_exit_code (conclusion : JobConclusion) : option Z :=
  match conclusion with
  | JobSuccess => Some 0%Z
  | JobFailure => Some 1%Z
  | JobTimedOut | JobCancelled | JobSkipped => None
  end.

Definition render_outputs (context : EvaluationContext) (outputs : list (string * ActionOutput)) : outcome string Environment :=
  let? rendered := traverse (λ '(name, template), let? value := render_text context template in Ok (name, value))
    (omap (λ '(name, output), (λ value, (name, value)) <$> ao_value output) outputs) in
  Ok (btree_collect rendered).

Definition execute_composite_action (parent_step_id : string) (definition : ActionDefinition)
    (source : ActionRepositorySource) (visible_environment : Environment) (action_context : EvaluationContext)
    : Act ActionPhaseExecution :=
  let runs := ad_runs definition in
  lift (reject_if (is_some (ar_main runs) || is_some (ar_pre runs) || is_some (ar_post runs))
    ("composite action '" +:+ ad_name definition +:+ "' mixes JavaScript entrypoints with steps")) ;>
  run! (steps, status, composite_environment) := with_environment visible_environment
    (composite_steps (ad_name definition) parent_step_id source action_context (enumerate (ar_steps runs)) ∅ Success) in
  run! environment := get_environment in
  set_environment (merge_changed environment visible_environment composite_environment) ;>
  run! output_context := lift (composite_context action_context status composite_environment steps) in
  run! outputs := lift (render_outputs output_context (btree_iter (ad_outputs definition))) in
  let conclusion := status_conclusion status in
  ret (mkPhase conclusion outputs ∅ (composite_exit_code conclusion)).

(** The end of an action step: the deadlines that passed decide first. *)
Definition conclude_action (step_id : string) (continue_on_error : bool) (execution : ActionPhaseExecution) : Act StepExecution :=
  run! job_timed_out := perform EJobTimedOut in
  run! execution :=
    if job_timed_out : bool then ret (mkPhase JobTimedOut ∅ (ap_state execution) None)
    else
      run! step_timed_out := perform (EStepTimedOut step_id) in
      ret (if step_timed_out : bool then mkPhase JobFailure ∅ (ap_state execution) None else execution) in
  let outcome := ap_conclusion execution in
  let conclusion := with_continue_on_error continue_on_error outcome in
  step_finished step_id (protocol_conclusion conclusion) (ap_exit_code execution) ;>
  ret (mkStepExecution conclusion outcome (ap_outputs execution) true).

Definition push_post (post : ActionPost) : Act unit := modify (λ l, l <| lo_posts := lo_posts l ++ [post] |>).

Definition no_phase : ActionPhaseExecution := mkPhase JobSuccess ∅ ∅ (Some 0%Z).

(** [pre], [main] and the registration of [post]. *)
Definition execute_node_action (step_id step_name action_directory : string) (runs : ActionRuns)
    (action_environment : Environment) (action_context : EvaluationContext) : Act ActionPhaseExecution :=
  run! (execution, state) :=
    match ar_pre runs with
    | None => ret (no_phase, ∅)
    | Some pre =>
        run! allowed := lift (map_err display_error
          (evaluate_condition hash_files action_context (default "always()" (ar_pre_if runs)))) in
        if allowed : bool then
          run! execution := execute_node_action_phase step_id "pre" action_directory pre None action_environment ∅
                              (step_name +:+ " (pre)") in
          ret (execution, ap_state execution)
        else ret (no_phase, ∅)
    end in
  run! (execution, state) :=
    if bool_decide (ap_conclusion execution = JobSuccess) then
      run! main := lift (ok_or (ar_main runs) "JavaScript action metadata is missing runs.main") in
      run! execution := execute_node_action_phase step_id "main" action_directory main None action_environment state
                          (step_name +:+ " (main)") in
      ret (execution, btree_extend state (ap_state execution))
    else ret (execution, state) in
  match ar_post runs with
  | None => ret execution
  | Some post =>
      push_post (mkPost step_name step_id action_directory post action_environment state
                   (default "always()" (ar_post_if runs)) action_context) ;>
      ret execution
  end.

Definition exposed_action_source (reference : ActionReference) (source : ActionRepositorySource) : option (string * string) :=
  match reference with
  | Local _ => None
  | SelfRepository _ => Some (source_repository_name source, src_git_ref source)
  | Remote owner repository _ git_ref => Some (owner +:+ "/" +:+ repository, git_ref)
  end.

Definition json_or_null (value : option string) : JValue :=
  match value with Some value => JString value | None => JNull end.

Definition action_environment_of (visible_environment inputs : Environment) (directory : string)
    (exposed : option (string * string)) : Environment :=
  with_variables visible_environment
    (((λ '(name, value), (action_input_environment_name name, value)) <$> btree_iter inputs) ++
     [("GITHUB_ACTION_PATH", directory)] ++
     match exposed with
     | Some (repository, git_ref) => [("GITHUB_ACTION_REPOSITORY", repository); ("GITHUB_ACTION_REF", git_ref)]
     | None => []
     end).

(** From the fetched action on. *)
Definition execute_materialized_action (step_id step_name : string) (reference : ActionReference)
    (action : MaterializedAction) (supplied_inputs visible_environment : Environment) (context : EvaluationContext)
    (continue_on_error : bool) : Act StepExecution :=
  let directory := ma_directory action in
  let exposed := exposed_action_source reference (ma_source action) in
  run! definition := ask (perform (ELoadDefinition directory)) in
  run! action_context := lift (extend_root "github"
    [("action_path", JString directory);
     ("action_ref", json_or_null (snd <$> exposed));
     ("action_repository", json_or_null (fst <$> exposed))] context) in
  run! rendered_supplied := lift (render_environment hash_files supplied_inputs action_context) in
  run! inputs := lift (resolve_action_inputs hash_files definition rendered_supplied action_context) in
  run! action_context := lift (insert_json_root "inputs" (jstrings inputs) action_context) in
  let action_environment := action_environment_of visible_environment inputs directory exposed in
  if bool_decide (ar_using (ad_runs definition) = "composite") then
    run! execution := execute_composite_action step_id definition (ma_source action) action_environment action_context in
    conclude_action step_id continue_on_error execution
  else if negb (starts_with "node" (ar_using (ad_runs definition))) then
    bail ("action '" +:+ ad_name definition +:+ "' uses unsupported runtime '" +:+ ar_using (ad_runs definition) +:+ "'")
  else
    run! execution := execute_node_action step_id step_name directory (ad_runs definition) action_environment action_context in
    conclude_action step_id continue_on_error execution.

(** [step_timed_out || job_timed_out || *cancel.borrow()] *)
Definition interrupted (step_id : string) : Act bool :=
  run! step_timed_out := perform (EStepTimedOut step_id) in
  if step_timed_out : bool then ret true
  else
    run! job_timed_out := perform EJobTimedOut in
    if job_timed_out : bool then ret true else perform ECancelled.

Definition execute_action_step (step_id step_name action : string) (supplied_inputs visible_environment : Environment)
    (context : EvaluationContext) (continue_on_error : bool) (timeout : option Z) : Act StepExecution :=
  perform (EDeadline step_id timeout) ;>
  run! reference := lift (parse_reference action) in
  run! materialized := perform (EMaterialize step_id reference) in
  match materialized with
  | Got action =>
      execute_materialized_action step_id step_name reference action supplied_inputs visible_environment context
        continue_on_error
  | Failed error =>
      run! interrupted := interrupted step_id in
      if negb interrupted then bail error
      else
        run! job_timed_out := perform EJobTimedOut in
        run! outcome :=
          if job_timed_out : bool then ret JobTimedOut
          else run! step_timed_out := perform (EStepTimedOut step_id) in
               ret (if step_timed_out : bool then JobFailure else JobCancelled) in
        let conclusion := with_continue_on_error continue_on_error outcome in
        step_finished step_id (protocol_conclusion conclusion) None ;>
        ret (mkStepExecution conclusion outcome ∅ true)
  end.

(** ** [execute_step] *)

Definition execute_checkout (step_id : string) (inputs : Environment) (timeout : option Z) : Act StepExecution :=
  run! environment := get_environment in
  run! checkout := perform (ECheckout step_id inputs environment timeout) in
  match checkout with
  | Got outputs =>
      send_log step_id System ("Checked out the exact pinned repository snapshot." +:+ String lf "") ;>
      step_finished step_id Conclusion.Success (Some 0%Z) ;>
      ret (mkStepExecution JobSuccess JobSuccess outputs true)
  | Failed error =>
      run! job_timed_out := perform EJobTimedOut in
      run! conclusion :=
        if job_timed_out : bool then ret JobTimedOut
        else run! cancelled := perform ECancelled in
             if cancelled : bool then ret JobCancelled else bail error in
      step_finished step_id (protocol_conclusion conclusion) None ;>
      ret (mkStepExecution conclusion conclusion ∅ true)
  end.

Definition execute_run (workflow_job_id step_id step_name shell script : string) (working_directory : option string)
    (visible_environment : Environment) (step_context : EvaluationContext) (continue_on_error : bool) (timeout : option Z)
    : Act StepExecution :=
  run! shell := lift (render_text step_context shell) in
  run! script := lift (render_text step_context script) in
  run! environment := get_environment in
  let temp_dir := default (join (join run_dir "_temp") (sanitize_id workflow_job_id)) (environment !! "RUNNER_TEMP") in
  create_directory temp_dir ;>
  let file kind extension := join temp_dir (kind +:+ "-" +:+ sanitize_id step_id +:+ extension) in
  run! artifacts := artifact_files temp_dir ("step-" +:+ sanitize_id step_id) in
  run! extension := lift (shell_script_extension shell_split shell) in
  let script_file := file "script" ("." +:+ extension) in
  write_files [(file "env" ".txt", ""); (file "output" ".txt", ""); (file "path" ".txt", ""); (file "summary" ".md", "")] ;>
  write_files [(script_file, script)] ;>
  run! working_directory := lift (match working_directory with
                                  | Some relative => omap_ok (join workspace) (render_text step_context relative)
                                  | None => Ok workspace
                                  end) in
  ensure_within workspace working_directory ;>
  run! arguments := lift (shell_arguments_for shell_split shell script_file) in
  run! program := lift (shell_program shell_split shell) in
  run! result := perform (EProcess step_id
    (mkCommand program arguments working_directory
       (with_variables visible_environment
          [("GITHUB_ENV", file "env" ".txt"); ("GITHUB_OUTPUT", file "output" ".txt"); ("GITHUB_PATH", file "path" ".txt");
           ("GITHUB_STEP_SUMMARY", file "summary" ".md");
           ("GITHUB_ARTIFACTS", af_declarations artifacts); ("GITHUB_ARTIFACTS_LIST", af_list artifacts)]))
    timeout) in
  capture_step_summary (file "summary" ".md") step_name step_id ;>
  run! subjects_failed := capture_artifact_subjects (af_declarations artifacts) step_id in
  run! timed_out := perform EJobTimedOut in
  let outcome := process_outcome result subjects_failed timed_out in
  let conclusion := with_continue_on_error continue_on_error outcome in
  apply_environment_file_of (file "env" ".txt") ;>
  apply_path_file_of (file "path" ".txt") ;>
  run! outputs := step_outputs step_id (file "output" ".txt") in
  step_finished step_id (protocol_conclusion conclusion) (process_conclusion result timed_out).2 ;>
  ret (mkStepExecution conclusion outcome outputs true).

Definition step_context_of (step : PlannedStep) (context : EvaluationContext) (environment : Environment)
    : outcome string (EvaluationContext * Environment) :=
  let? step_context := extend_root "github" [("action", JString (ps_github_action step))] context in
  let? step_environment := render_environment hash_files (ps_environment step) step_context in
  let visible_environment := restore_default_environment (btree_extend environment step_environment) environment in
  let visible_environment := <["GITHUB_ACTION" := ps_github_action step]> visible_environment in
  let? step_context := insert_json_root "env" (jstrings visible_environment) step_context in
  Ok (step_context, visible_environment).

Definition execute_step_body (workflow_name workflow_job_id : string) (step : PlannedStep) (context : EvaluationContext)
    (status : ExecutionStatus) : Act StepExecution :=
  run! environment := get_environment in
  run! (step_context, visible_environment) := lift (step_context_of step context environment) in
  let step_id := workflow_job_id +:+ "/" +:+ ps_id step in
  run! step_name := lift (render_text step_context (ps_name step)) in
  run! continue_on_error := lift (optional_condition "continue-on-error" step_context (ps_continue_on_error step)) in
  run! timeout := lift (parse_timeout (ps_timeout_minutes step) step_context) in
  run! allowed := lift (step_allows (ps_condition step) status step_context) in
  if negb allowed then
    report_skipped step_id (workflow_name +:+ " / " +:+ step_name) "Step condition evaluated to false." ;>
    ret step_skipped
  else
    step_started step_id (workflow_name +:+ " / " +:+ step_name) ;>
    match ps_kind step with
    | KCheckout inputs => execute_checkout step_id inputs timeout
    | KUses action inputs =>
        execute_action_step step_id step_name action inputs visible_environment step_context continue_on_error
          timeout
    | KRun shell script =>
        execute_run workflow_job_id step_id step_name shell script (ps_working_directory step) visible_environment
          step_context continue_on_error timeout
    | KWait _ | KWaitAll | KCancel _ => bail "background control steps must be executed by the job coordinator"
    end.
End actions.

(** [nesting] bounds how deeply composite actions call each other; the code has no
    bound. *)
Fixpoint execute_step (nesting : nat) : string → string → PlannedStep → EvaluationContext → ExecutionStatus → Act StepExecution :=
  match nesting with
  | 0 => λ _ _ _ _ _, lift Panic
  | S nesting => execute_step_body (execute_step nesting)
  end.
End steps.
