(* ===== verification/JobRun.v ===== *)
(** * The execution of a job (crates/gitzero-agent, executor.rs)

    [execute_job]: the steps of a job in order, its background steps, the post
    phases of its actions, its outputs and its deployment.  A background step is a
    task of its own, with copies of the variables: it starts when the loop reaches
    it ([ESpawn]) and its handle holds what it ends with.  The trace has its effects
    where it starts; they happen concurrently with those of the job until its handle
    is awaited ([EJoin]): [JobThreads] says in which orders they are observed, and
    since answers are arbitrary none of them is lost. *)

From S2P Require Import Prelude RustStr RustText UnixPath OrdMap Yaml Workflow Matrix Protocol Masking.
From S2P Require Import ProblemMatcher MatcherRegistry WorkflowCommands CommandFile Expression Evaluate Scheduler.
From S2P Require Import JobContext Actions Runners Traced JobEffects JobSteps.

Definition DEFAULT_JOB_TIMEOUT : Z := 360 * 60.

(** ** Merging the environment of a background step *)

Definition split_path (path : string) : list string := if is_empty path then [] else split ":" path.

Definition retained_entries (initial additions : list string) : list string :=
  base.filter (λ entry, entry ∉ additions) initial.

(** The shortest prefix that explains the rest of the final path. *)
Fixpoint additions_from (count : nat) (prefix_length : nat) (initial final_entries : list string) : option (list string) :=
  match count with
  | 0 => None
  | S count =>
      let additions := take prefix_length final_entries in
      if bool_decide (retained_entries initial additions = drop prefix_length final_entries) then Some additions
      else additions_from count (S prefix_length) initial final_entries
  end.

Definition deferred_path_additions (initial final_entries : list string) : option (list string) :=
  additions_from (length final_entries) 1 initial final_entries.

Definition path_of_environment (process_path : option string) (environment : gmap string string) : string :=
  default (default "" process_path) (environment !! "PATH").

Definition merge_variables (environment initial final : gmap string string) : gmap string string :=
  btree_extend environment
    (btree_collect (base.filter (λ entry, entry.1 ≠ "PATH" ∧ initial !! entry.1 ≠ Some entry.2) (btree_iter final))).

Definition merge_background_environment (process_path : option string) (environment initial final : gmap string string)
    : gmap string string :=
  let environment := merge_variables environment initial final in
  let initial_path := path_of_environment process_path initial in
  let final_path := default "" (final !! "PATH") in
  if bool_decide (initial_path = final_path) then environment
  else
    match deferred_path_additions (split_path initial_path) (split_path final_path) with
    | Some additions =>
        let current := split_path (path_of_environment process_path environment) in
        <["PATH" := sjoin ":" (additions ++ base.filter (λ entry, entry ∉ additions) current)]> environment
    | None => <["PATH" := final_path]> environment
    end.

Definition background_wait_conclusion (conclusions : list JobConclusion) : JobConclusion :=
  let conclusion := aggregate_conclusions conclusions in
  if bool_decide (conclusion = JobSkipped) then JobSuccess else conclusion.

(** ** Configuration variables *)

(** A variable of the environment replaces the one of the run whose name differs
    in case only. *)
Definition merge_configuration_variables (base environment : gmap string string) : gmap string string :=
  fold_left (λ selected '(name, value),
    let selected := match find (λ existing, eq_ignore_ascii_case existing name) (btree_keys selected) with
                    | Some existing => delete existing selected
                    | None => selected
                    end in
    <[name := value]> selected) (btree_iter environment) base.

(** ** State *)

Record JobExecution := mkJobExecution {
  je_conclusion : JobConclusion;
  je_completed_steps : nat;
  je_outputs : gmap string string;
}.

Definition job_skipped : JobExecution := mkJobExecution JobSkipped 0 ∅.

Section job.
Context `{VL : ValueLib} `{EL : ExpressionLib} `{JL : !JsonLib} `{JI : !JsonInterop} `{CL : CaptureLib}.

Record BackgroundStepCompletion := mkCompletion {
  bc_execution : StepExecution;
  bc_initial_environment : gmap string string;
  bc_final_environment : gmap string string;
  bc_posts : list ActionPost;
  bc_summary : JobSummaryBuilder;
}.

(** [br_task]: the handle of the task, which gives what the task ends with. *)
Record BackgroundStepRuntime := mkRuntime {
  br_task : option (outcome string BackgroundStepCompletion);
  br_conclusion : option JobConclusion;
  br_explicitly_cancelled : bool;
  br_flushed : bool;
}.

(** The variables of the loop over the steps. *)
Record LoopState := mkLoop {
  ls_steps : gmap string JValue;
  ls_status : ExecutionStatus;
  ls_completed_steps : nat;
  ls_background : gmap string BackgroundStepRuntime;
  ls_background_order : list string;
}.

#[export] Instance BackgroundStepRuntime_updatable : Updatable BackgroundStepRuntime := λ r,
  mkRuntime (br_task r) (br_conclusion r) (br_explicitly_cancelled r) (br_flushed r).
#[export] Instance LoopState_updatable : Updatable LoopState := λ s,
  mkLoop (ls_steps s) (ls_status s) (ls_completed_steps s) (ls_background s) (ls_background_order s).

Definition loop_start : LoopState := mkLoop ∅ Success 0 ∅ [].

Context (hash_files : string → list string → outcome ExpressionError string).
Context (shell_split : string → option (list string)) (url_parse : string → option (string * string)).
Context (uuid_display : Uuid → string) (process_path : option string) (arch : string).
Context (oracle : Oracle) (nesting : nat).

(** The arguments of [execute_job]. *)
Context (job_id : Uuid) (event_job_id workflow_name : string) (job : PlannedJob) (run : RunSpec JValue)
  (completed_bases : gmap string JobConclusion) (completed_outputs : gmap string (gmap string string))
  (workspace run_dir : string) (environment : gmap string string) (reusable_inputs : JValue)
  (targeting : RunnerTargeting) (cache_mode : string).

Notation Environment := (gmap string string).
Notation Act := (JobEffects.Act Locals).
Notation perform := (perform oracle).
Notation send_new := (send_new oracle).
Notation step_started := (step_started oracle job_id).
Notation step_finished := (step_finished oracle job_id).
Notation execute_step := (execute_step hash_files shell_split uuid_display process_path oracle job_id workspace run_dir
  cache_mode nesting).

(** ** Background steps *)

Definition joined_name (rendered_job_name : string) : string := workflow_name +:+ " / " +:+ rendered_job_name.

(** The body of the task [start_background_step] spawns. *)
Definition background_body (step : PlannedStep) (context : EvaluationContext) (status : ExecutionStatus) : Act StepExecution :=
  run! slot := perform (ESlot (ps_id step)) in
  match slot with
  | SlotRefused error =>
      run! cancelled := perform ECancelled in
      if cancelled : bool then ret (mkStepExecution JobCancelled JobCancelled ∅ false) else bail error
  | SlotAcquired => execute_step workflow_name event_job_id step context status
  end.

(** A program with variables of its own, which does not fail: what it ends with is
    its result. *)
Definition in_task {A : Type} (own : Locals) (c : Act A) : Act (outcome string A * Locals) := λ t l,
  let '(t, own, result) := c t own in (t, l, Ok (result, own)).

Definition start_background_step (rendered_job_name : string) (step : PlannedStep) (job_environment : Environment)
    (context : EvaluationContext) (status : ExecutionStatus) : Act BackgroundStepRuntime :=
  perform (ESpawn (ps_id step)) ;>
  run! (result, own) := in_task (mkLocals job_environment [] (summary_new (joined_name rendered_job_name)) None)
                          (background_body step context status) in
  perform (EEnded (ps_id step) (is_ok result)) ;>
  let completion := omap_ok (λ execution, mkCompletion execution job_environment (lo_environment own) (lo_posts own)
                                            (lo_summary own)) result in
  ret (mkRuntime (Some completion) None false false).

(** [task.await??]: a panic of the task is an error of the job. *)
Definition join_background (id : string) (task : outcome string BackgroundStepCompletion) : Act BackgroundStepCompletion :=
  perform (EJoin id (is_ok task)) ;>
  lift (match task with
        | Panic => Err ("background step '" +:+ id +:+ "' task ended unexpectedly")
        | Ok _ | Err _ => task
        end).

Definition merge_completion (completion : BackgroundStepCompletion) : Act unit :=
  modify (λ l, l <| lo_environment := merge_background_environment process_path (lo_environment l)
                                        (bc_initial_environment completion) (bc_final_environment completion) |>
                 <| lo_posts := lo_posts l ++ bc_posts completion |>
                 <| lo_summary := summary_append (lo_summary l) (bc_summary completion) |>).

Definition record_completion (id : string) (runtime : BackgroundStepRuntime) (completion : BackgroundStepCompletion)
    (state : LoopState) : LoopState :=
  let execution := bc_execution completion in
  let runtime := runtime <| br_conclusion := Some (se_conclusion execution) |> in
  if br_flushed runtime then state <| ls_background := <[id := runtime]> (ls_background state) |>
  else
    state <| ls_background := <[id := runtime <| br_flushed := true |>]> (ls_background state) |>
          <| ls_completed_steps := (if se_ran execution then S (ls_completed_steps state) else ls_completed_steps state) |>
          <| ls_steps := <[id := step_json execution]> (ls_steps state) |>.

Definition recorded_conclusion (id : string) (state : LoopState) : JobConclusion :=
  default JobSuccess (ls_background state !! id ≫= br_conclusion).

Definition flush_one (id : string) (state : LoopState) : Act (LoopState * JobConclusion) :=
  match ls_background state !! id with
  | None => ret (state, JobSuccess)
  | Some runtime =>
      match br_task runtime with
      | None => ret (state, recorded_conclusion id state)
      | Some task =>
          run! completion := join_background id task in
          (if br_flushed runtime then ret () else merge_completion completion) ;>
          let state := record_completion id (runtime <| br_task := None |>) completion state in
          ret (state, recorded_conclusion id state)
      end
  end.

Fixpoint flush_background_steps (ids : list string) (state : LoopState) : Act (LoopState * list JobConclusion) :=
  match ids with
  | [] => ret (state, [])
  | id :: ids =>
      run! (state, conclusion) := flush_one id state in
      run! (state, conclusions) := flush_background_steps ids state in
      ret (state, conclusion :: conclusions)
  end.

Definition is_unflushed (state : LoopState) (id : string) : bool :=
  match ls_background state !! id with Some runtime => negb (br_flushed runtime) | None => false end.

Definition unflushed (state : LoopState) : list string :=
  base.filter (λ id, is_unflushed state id = true) (ls_background_order state).

(** ** The loop over the steps *)

Definition runs_in_background (kind : StepKind) : bool :=
  match kind with KCheckout _ | KRun _ _ | KUses _ _ => true | KWait _ | KWaitAll | KCancel _ => false end.

Definition spawn (id : string) (runtime : BackgroundStepRuntime) (state : LoopState) : LoopState :=
  state <| ls_background_order := ls_background_order state ++ [id] |>
        <| ls_background := <[id := runtime]> (ls_background state) |>.

Definition cancel_explicitly (id : string) (state : LoopState) : LoopState :=
  match ls_background state !! id with
  | Some runtime => state <| ls_background := <[id := runtime <| br_explicitly_cancelled := true |>]> (ls_background state) |>
  | None => state
  end.

Definition record_step (id : string) (execution : StepExecution) (state : LoopState) : LoopState :=
  state <| ls_completed_steps := (if se_ran execution then S (ls_completed_steps state) else ls_completed_steps state) |>
        <| ls_steps := <[id := step_json execution]> (ls_steps state) |>
        <| ls_status := status_after (se_conclusion execution) (ls_status state) |>.

(** The steps a control step waits for. *)
Definition target_ids (kind : StepKind) (state : LoopState) : list string :=
  match kind with
  | KWait step_ids => step_ids
  | KWaitAll => unflushed state
  | KCancel step_id => [step_id]
  | KCheckout _ | KRun _ _ | KUses _ _ => []
  end.

Definition is_cancel (kind : StepKind) : bool := match kind with KCancel _ => true | _ => false end.

(** [wait], [wait-all] and [cancel] *)
Definition control_step (rendered_job_name : string) (step : PlannedStep) (context : EvaluationContext) (state : LoopState)
    : Act LoopState :=
  let step_id := event_job_id +:+ "/" +:+ ps_id step in
  run! step_name := lift (render_text hash_files context (ps_name step)) in
  step_started step_id (joined_name step_name) ;>
  let targets := target_ids (ps_kind step) state in
  let state := if is_cancel (ps_kind step) then fold_left (λ state id, cancel_explicitly id state) targets state else state in
  run! (state, conclusions) := flush_background_steps targets state in
  let outcome := if is_cancel (ps_kind step) then JobSuccess else background_wait_conclusion conclusions in
  run! continue_on_error := lift (optional_condition hash_files "continue-on-error" context (ps_continue_on_error step)) in
  let conclusion := with_continue_on_error continue_on_error outcome in
  let state := record_step (ps_id step) (mkStepExecution conclusion outcome ∅ true) state in
  step_finished step_id (protocol_conclusion conclusion) (Some (if bool_decide (conclusion = JobSuccess) then 0 else 1)%Z) ;>
  ret state.

Definition refresh_token (message : string) : Act (option string) :=
  with_context message (ask (perform EWorkflowToken)).

Definition token_failure (what suffix : string) : string :=
  what +:+ " scoped workflow token for workflow '" +:+ workflow_name +:+ "' job '" +:+ pj_id job +:+ "'" +:+ suffix.

Definition job_context (variables : Environment) (job_environment : Environment) (steps : gmap string JValue)
    (status : ExecutionStatus) (github_token : option string) (managed_secrets : Environment)
    : outcome string EvaluationContext :=
  expression_context_with_variables arch run variables job completed_bases completed_outputs job_environment (JObject steps)
    reusable_inputs status workspace run_dir github_token managed_secrets.

(** One iteration; [true] leaves the loop. *)
Definition job_step (rendered_job_name : string) (variables managed_secrets : Environment) (step : PlannedStep)
    (state : LoopState) : Act (LoopState * bool) :=
  run! github_token := refresh_token (token_failure "refresh" "") in
  run! job_environment := get_environment in
  run! context := lift (job_context variables job_environment (ls_steps state) (ls_status state) github_token managed_secrets) in
  run! is_background := lift (optional_condition hash_files "background" context (ps_background step)) in
  if runs_in_background (ps_kind step) && is_background then
    run! runtime := start_background_step rendered_job_name step job_environment context (ls_status state) in
    ret (spawn (ps_id step) runtime state, false)
  else if negb (runs_in_background (ps_kind step)) then
    run! state := control_step rendered_job_name step context state in ret (state, false)
  else
    run! execution := execute_step workflow_name event_job_id step context (ls_status state) in
    let state := record_step (ps_id step) execution state in
    if bool_decide (ls_status state = Cancelled) then ret (state, true)
    else run! timed_out := perform EJobTimedOut in ret (state, timed_out).

Fixpoint run_steps (rendered_job_name : string) (variables managed_secrets : Environment) (steps : list PlannedStep)
    (state : LoopState) : Act LoopState :=
  match steps with
  | [] => ret state
  | step :: steps =>
      run! cancelled := perform ECancelled in
      if cancelled : bool then ret (state <| ls_status := Cancelled |>)
      else
        run! (state, stop) := job_step rendered_job_name variables managed_secrets step state in
        if stop : bool then ret state else run_steps rendered_job_name variables managed_secrets steps state
  end.

(** The conclusions of the background steps, without those that were cancelled on
    purpose. *)
Definition background_conclusions (state : LoopState) : list JobConclusion :=
  omap (λ id, runtime ← ls_background state !! id; conclusion ← br_conclusion runtime;
              if br_explicitly_cancelled runtime && bool_decide (conclusion = JobCancelled) then None else Some conclusion)
    (ls_background_order state).

Definition join_rest (state : LoopState) : Act LoopState :=
  run! (state, _) := flush_background_steps (unflushed state) state in
  let conclusion := background_wait_conclusion (background_conclusions state) in
  ret (state <| ls_status := status_after conclusion (ls_status state) |>).

(** ** Post phases *)

(** [true]: the phase ran. *)
Definition run_post (post : ActionPost) (status : ExecutionStatus) : Act (ExecutionStatus * bool) :=
  let context := set_status (po_context post) status in
  run! allowed := lift (map_err display_error (evaluate_condition hash_files context (po_condition post))) in
  if negb allowed then ret (status, false)
  else
    let step_id := po_step_id post +:+ "/post" in
    step_started step_id (workflow_name +:+ " / Post " +:+ po_name post) ;>
    run! execution := execute_node_action_phase uuid_display process_path oracle job_id workspace run_dir cache_mode
                        step_id "post" (po_action_directory post) (po_script post) None (po_environment post)
                        (po_state post) (po_name post +:+ " (post)") in
    step_finished step_id (protocol_conclusion (ap_conclusion execution)) (ap_exit_code execution) ;>
    let status := match ap_conclusion execution with
                  | JobFailure | JobTimedOut => Failure
                  | JobSuccess | JobCancelled | JobSkipped => status
                  end in
    ret (status, true).

(** [posts], last registered first. *)
Fixpoint run_posts (posts : list ActionPost) (status : ExecutionStatus) : Act ExecutionStatus :=
  match posts with
  | [] => ret status
  | post :: posts =>
      if bool_decide (status = Cancelled) then ret status
      else
        run! (status, ran) := run_post post status in
        if negb ran then run_posts posts status
        else
          run! timed_out := perform EJobTimedOut in
          if timed_out : bool then ret status else run_posts posts status
  end.

(** ** The end of a job *)

Definition deployment_of (rendered_url : string) : outcome string string :=
  reject_if (bool_decide (2048 < slen rendered_url) || has_nul_or_line_break rendered_url)
    "deployment environment URL exceeds the protocol boundary" ;?
  let? '(scheme, url) := ok_or (url_parse rendered_url) "deployment environment URL is invalid" in
  reject_if (negb (bool_decide (scheme ∈ ["http"; "https"]))) "deployment environment URL must use HTTP or HTTPS" ;?
  Ok url.

Definition report_deployment_url (environment_name : option string) (context : EvaluationContext) : Act unit :=
  match pj_deployment_environment job, environment_name with
  | Some deployment, Some environment_name =>
      match pe_url deployment with
      | None => ret ()
      | Some url =>
          run! rendered_url := lift (render_or hash_files "render deployment environment URL" context url) in
          if is_empty rendered_url then ret ()
          else
            run! url := lift (deployment_of rendered_url) in
            let markdown := "Environment: `" +:+ replace "`" "\`" environment_name +:+ "`" +:+ String lf (String lf
                            ("URL: " +:+ url +:+ String lf "")) in
            modify (λ l, l <| lo_deployment_url := Some url |>
                           <| lo_summary := summary_push "Deployment environment" markdown (lo_summary l) |>)
      end
  | _, _ => ret ()
  end.

Definition timed_out_execution (completed_steps : nat) : JobExecution := mkJobExecution JobTimedOut completed_steps ∅.

(** The steps, the background steps that remain, the post phases, the outputs. *)
Definition execute_steps (rendered_job_name : string) (variables managed_secrets : Environment)
    (environment_name : option string) : Act JobExecution :=
  run! state := run_steps rendered_job_name variables managed_secrets (pj_steps job) loop_start in
  run! state := join_rest state in
  run! timed_out := perform EJobTimedOut in
  if timed_out : bool then ret (timed_out_execution (ls_completed_steps state))
  else
    run! locals := get in
    run! status := run_posts (reverse (lo_posts locals)) (ls_status state) in
    run! timed_out := perform EJobTimedOut in
    if timed_out : bool then ret (timed_out_execution (ls_completed_steps state))
    else
      run! github_token := refresh_token (token_failure "refresh" " outputs") in
      run! job_environment := get_environment in
      run! output_context := lift (job_context variables job_environment (ls_steps state) status github_token managed_secrets) in
      report_deployment_url environment_name output_context ;>
      run! outputs := lift (render_environment hash_files (pj_outputs job) output_context) in
      run! continue_on_error := lift (optional_condition hash_files "job continue-on-error" output_context
                                        (pj_continue_on_error job)) in
      ret (mkJobExecution (with_continue_on_error continue_on_error (status_conclusion status)) (ls_completed_steps state)
             outputs).

(** [JobSummaryBuilder::finish], pushed when there is something to show. *)
Definition finish_summary : Act unit :=
  run! sequence := perform ESequence in
  run! locals := get in
  let summary := lo_summary locals in
  if is_nil (sb_steps summary) && negb (sb_omitted_steps summary) then ret ()
  else perform (EPushSummary sequence (sb_job_name summary) (sb_steps summary) (sb_omitted_steps summary)).

Definition prepare_workspace (job_name : string) : Act unit :=
  let step_id := event_job_id +:+ "/gitzero-prepare" in
  step_started step_id (workflow_name +:+ " / " +:+ job_name +:+ " / Prepare isolated workspace") ;>
  send_log oracle job_id step_id System ("Cache mode: " +:+ cache_mode +:+ String lf "") ;>
  run! prepared := perform (EPrepareDirectory workspace) in
  step_finished step_id (match prepared with Got _ => Conclusion.Success | Failed _ => Conclusion.Failure end)
    (match prepared with Got _ => Some 0%Z | Failed _ => None end) ;>
  with_context "create empty isolated job workspace" (of_answer prepared).

Definition timed_out_result (timed_out : bool) (result : outcome string JobExecution) : outcome string JobExecution :=
  match result with
  | Ok execution => Ok (if timed_out then timed_out_execution (je_completed_steps execution) else execution)
  | Err _ | Panic => result
  end.

Definition run_job (rendered_job_name : string) (variables managed_secrets : Environment) (environment_name : option string)
    (context : EvaluationContext) : Act JobExecution :=
  prepare_workspace rendered_job_name ;>
  run! timeout := lift (parse_timeout hash_files (pj_timeout_minutes job) context) in
  perform (EDeadline event_job_id (Some (default DEFAULT_JOB_TIMEOUT timeout))) ;>
  modify (λ l, l <| lo_summary := summary_new (joined_name rendered_job_name) |>) ;>
  run! result := attempt (execute_steps rendered_job_name variables managed_secrets environment_name) in
  run! timed_out := perform EJobTimedOut in
  finish_summary ;>
  lift (timed_out_result timed_out result).

(** ** [execute_job] *)

Definition job_variables (base : Environment) (temp_directory : string) : Environment :=
  with_variables base [("GITHUB_JOB", pj_base_id job); ("GITHUB_WORKSPACE", workspace); ("RUNNER_TEMP", temp_directory)].

Definition deployment_name (context : EvaluationContext) : outcome string (option string) :=
  match pj_deployment_environment job with
  | None => Ok None
  | Some deployment =>
      let? name := render_or hash_files "render deployment environment name" context (pe_name deployment) in
      reject_if (is_empty (trim name) || bool_decide (255 < slen name) || has_nul_or_line_break name)
        ("workflow '" +:+ workflow_name +:+ "' job '" +:+ pj_id job +:+ "' resolved to an invalid deployment environment name") ;?
      Ok (Some name)
  end.

Definition tracked_environment (environment_name : option string) : option string :=
  match pj_deployment_environment job with
  | Some deployment => if pe_deployment deployment then environment_name else None
  | None => None
  end.

(** What a deployment is reported to have ended with. *)
Definition deployment_conclusion (result : outcome string JobExecution) : Act Conclusion.Conclusion :=
  match result with
  | Ok execution => ret (protocol_conclusion (je_conclusion execution))
  | Err _ | Panic =>
      run! timed_out := perform EJobTimedOut in
      if timed_out : bool then ret Conclusion.TimedOut
      else run! cancelled := perform ECancelled in
           ret (if cancelled : bool then Conclusion.Cancelled else Conclusion.Failure)
  end.

Definition with_deployment (environment_name : option string) (c : Act JobExecution) : Act JobExecution :=
  match environment_name with
  | None => c
  | Some environment_name =>
      send_new (λ message_id, DeploymentStarted message_id job_id event_job_id environment_name) ;>
      run! result := attempt c in
      run! conclusion := deployment_conclusion result in
      run! locals := get in
      send_new (λ message_id, DeploymentFinished message_id job_id event_job_id conclusion (lo_deployment_url locals)) ;>
      lift result
  end.

(** From the condition of the job on. *)
Definition execute_allowed_job (temp_directory : string) (status : ExecutionStatus) (github_token : option string)
    (context : EvaluationContext) : Act JobExecution :=
  run! selector := lift (render_runner_selector hash_files (pj_runs_on job) context) in
  lift (map_err (λ _, "workflow '" +:+ workflow_name +:+ "' job '" +:+ pj_id job +:+ "' cannot run on this Mac agent")
    (ensure_runner_eligible selector (rt_labels targeting) (rt_group targeting))) ;>
  run! rendered_job_name := lift (render_text hash_files context (pj_name job)) in
  run! environment_name := lift (deployment_name context) in
  run! variables :=
    match environment_name with
    | Some name =>
        run! environment_variables := ask (perform (EEnvironmentVariables name)) in
        ret (merge_configuration_variables (run_variables run) environment_variables)
    | None => ret (run_variables run)
    end in
  run! managed_secrets := with_context
    ("load managed secrets for workflow '" +:+ workflow_name +:+ "' job '" +:+ pj_id job +:+ "'")
    (ask (perform (EManagedSecrets environment_name))) in
  lift (authorized_checkout_secret_values job managed_secrets github_token) ;>
  let job_environment := job_variables environment temp_directory in
  run! context := lift (job_context variables job_environment ∅ status github_token managed_secrets) in
  run! declared := lift (render_environment hash_files (pj_environment job) context) in
  let job_environment := job_variables
    (restore_default_environment (btree_extend job_environment declared) environment) temp_directory in
  run! context := lift (job_context variables job_environment ∅ status github_token managed_secrets) in
  set_environment job_environment ;>
  with_deployment (tracked_environment environment_name)
    (run_job rendered_job_name variables managed_secrets environment_name context).

Definition execute_job : Act JobExecution :=
  with_commands oracle (λ p, (p <| problem_matchers := register_workspace event_job_id workspace (problem_matchers p) |>, Ok ())) ;>
  run! nonce := perform EUuid in
  let temp_directory := join (join run_dir "_temp") ("job-" +:+ uuid_display nonce) in
  with_context ("create isolated job temp directory " +:+ temp_directory) (create_directory oracle temp_directory) ;>
  run! github_token := refresh_token (token_failure "issue" "") in
  run! status := lift (dependency_status (pj_needs job) completed_bases) in
  run! context := lift (expression_context arch run job completed_bases completed_outputs
                          (job_variables environment temp_directory) (JObject ∅) reusable_inputs status workspace run_dir
                          github_token) in
  run! allowed := lift (step_allows hash_files (pj_condition job) status context) in
  if negb allowed then
    run! name := lift (render_text hash_files context (pj_name job)) in
    report_skipped oracle job_id event_job_id (joined_name name) "Job condition evaluated to false." ;>
    ret job_skipped
  else execute_allowed_job temp_directory status github_token context.
End job.
