(* ===== verification/JobThreads.v ===== *)
(** * The threads of a job

    The background steps of a job run concurrently with its other steps.  The trace
    of [execute_job] has the effects of a task where it starts; here is which entry
    is of which thread, in which orders the entries of a trace are observed, and how
    a monitor of a trace becomes monitors of its threads, whatever the order. *)

From S2P Require Import Prelude RustStr OrdMap Yaml Traced Expression Evaluate Workflow Protocol Masking.
From S2P Require Import ProblemMatcher MatcherRegistry WorkflowCommands Scheduler JobContext Actions JobEffects.
From stdpp Require Import relations.

(** ** Threads and orders *)

(** The job itself, or the task of a background step. *)
Notation Thread := (option string) (only parsing).

Section threads.
Context `{CL : CaptureLib}.

(** The entries of a trace with their threads, from [current] on: those between the
    start and the end of a task are the task's. *)
Fixpoint threads (current : Thread) (trace : list Entry) : list (Thread * Entry) :=
  match trace with
  | [] => []
  | entry :: trace =>
      (current, entry) ::
      threads match en_effect entry with ESpawn id => Some id | EEnded _ _ => None | _ => current end trace
  end.

(** What the start of a task precedes, and what awaiting it follows. *)
Definition precedes (x y : Thread * Entry) : bool :=
  match x, y with
  | (None, entry), (Some id, _) => match en_effect entry with ESpawn id' => bool_decide (id' = id) | _ => false end
  | (Some id, _), (None, entry) => match en_effect entry with EJoin id' _ => bool_decide (id' = id) | _ => false end
  | _, _ => false
  end.

Definition independent (x y : Thread * Entry) : Prop := x.1 ≠ y.1 ∧ precedes x y = false ∧ precedes y x = false.

(** The orders in which the entries of a job may be observed: the order of each
    thread is kept, a task starts before its entries and is awaited after them, and
    all else may be exchanged. *)
Inductive exchange : list (Thread * Entry) → list (Thread * Entry) → Prop :=
  | exchange_at l x y r : independent x y → exchange (l ++ x :: y :: r) (l ++ y :: x :: r).

Definition observed : list (Thread * Entry) → list (Thread * Entry) → Prop := rtc exchange.

Definition of_thread (thread : Thread) (order : list (Thread * Entry)) : list Entry :=
  (base.filter (λ x, x.1 = thread) order).*2.

#[export] Instance independent_dec x y : Decision (independent x y).
Proof. apply _. Defined.

(** To exhibit an order: the entries at the given positions change places with those
    that follow them. *)
Definition exchange_once (k : nat) (order : list (Thread * Entry)) : option (list (Thread * Entry)) :=
  match drop k order with
  | x :: y :: r => if decide (independent x y) then Some (take k order ++ y :: x :: r) else None
  | _ => None
  end.

Fixpoint exchange_all (ks : list nat) (order : list (Thread * Entry)) : option (list (Thread * Entry)) :=
  match ks with [] => Some order | k :: ks => order ← exchange_once k order; exchange_all ks order end.

Lemma exchange_all_observed ks order order' : exchange_all ks order = Some order' → observed order order'.
Proof.
  revert order. induction ks as [|k ks IH]; intros order; cbn [exchange_all]; [by intros [= ->]; constructor|].
  intros (order1 & Hx & H)%bind_Some. eapply rtc_l; [|by apply IH]. unfold exchange_once in Hx.
  destruct (drop k order) as [|x [|y r]] eqn:E; [done..|]. case_decide; [|done]. injection Hx as <-.
  rewrite <-(take_drop k order) at 1. rewrite E. by constructor.
Qed.

(** What pairs of dependent entries make up is the same in every order. *)
Lemma observed_filter (P : Thread * Entry → Prop) `{!∀ x, Decision (P x)} order order' :
  (∀ x y, P x → P y → ¬ independent x y) → observed order order' → base.filter P order' = base.filter P order.
Proof.
  intros HP. induction 1 as [order|order order1 order2 Hx _ IH]; [done|]. rewrite IH. clear IH.
  destruct Hx as [l x y r Hi]. rewrite !filter_app, !filter_cons.
  destruct (decide (P x)) as [Hx|Hx], (decide (P y)) as [Hy|Hy]; try done. by destruct (HP x y Hx Hy).
Qed.

Lemma of_thread_observed thread order order' : observed order order' → of_thread thread order' = of_thread thread order.
Proof.
  intros H. unfold of_thread. f_equal. apply observed_filter; [|done]. intros x y Hx Hy [Hne _]. congruence.
Qed.

(** The life of the task of a step: its start, its entries, its end, and what awaits it. *)
Definition concerns (id : string) (x : Thread * Entry) : Prop :=
  match x with
  | (Some id', _) => id' = id
  | (None, entry) => match en_effect entry with ESpawn id' | EJoin id' _ => id' = id | _ => False end
  end.

#[export] Instance concerns_dec id x : Decision (concerns id x).
Proof. destruct x as [[id'|] [[] a]]; cbn; apply _. Defined.

Lemma concerns_observed id order order' :
  observed order order' → base.filter (concerns id) order' = base.filter (concerns id) order.
Proof.
  apply observed_filter. intros [[i|] [e a]] [[j|] [e' a']] Hx Hy (Hne & Hp & Hq); cbn in *; [congruence| | |done].
  - subst i. destruct e'; try done; subst; by rewrite bool_decide_true in Hp || rewrite bool_decide_true in Hq.
  - subst j. destruct e; try done; subst; by rewrite bool_decide_true in Hp || rewrite bool_decide_true in Hq.
Qed.

(** [true]: the task runs.  Its entries are between its start and its end, and it is
    awaited only when it does not run. *)
Definition check_life (running : bool) (x : Thread * Entry) : option bool :=
  match x with
  | (Some _, entry) =>
      if running then Some match en_effect entry with EEnded _ _ => false | _ => true end else None
  | (None, entry) =>
      match en_effect entry with
      | ESpawn _ => if running then None else Some true
      | EJoin _ _ => if running then None else Some false
      | _ => Some running
      end
  end.

Fixpoint lives (running : bool) (order : list (Thread * Entry)) : option bool :=
  match order with
  | [] => Some running
  | x :: order => running ← check_life running x; lives running order
  end.

(** ** Monitors of traces and of threads *)

Context {S T : Type} (check_main : S → Entry → option S) (check_task : T → Entry → option T) (fresh : T).

(** The state of the job, and that of the task that runs. *)
Definition check_threads (state : S * option (string * T)) (entry : Entry) : option (S * option (string * T)) :=
  match state with
  | (s, None) =>
      match en_effect entry with
      | EEnded _ _ => None
      | ESpawn id => s ← check_main s entry; Some (s, Some (id, fresh))
      | _ => s ← check_main s entry; Some (s, None)
      end
  | (s, Some (id, x)) =>
      match en_effect entry with
      | ESpawn _ | EJoin _ _ => None
      | EEnded id' _ => x ← check_task x entry; if decide (id' = id) then Some (s, None) else None
      | _ => x ← check_task x entry; Some (s, Some (id, x))
      end
  end.

(** A task ends where it began. *)
Hypothesis ended_fresh : ∀ x id ok a y, check_task x (mkEntry (EEnded id ok) a) = Some y → y = fresh.

Notation current state := (fst <$> snd state : Thread).

Definition task_state (state : S * option (string * T)) (id : string) : T :=
  match state.2 with Some (id', x) => if decide (id' = id) then x else fresh | None => fresh end.

Lemma of_thread_cons thread x order :
  of_thread thread (x :: order) = if decide (x.1 = thread) then x.2 :: of_thread thread order else of_thread thread order.
Proof. unfold of_thread. rewrite filter_cons. by case_decide. Qed.

Lemma check_threads_current state entry state' trace :
  check_threads state entry = Some state' →
  threads (current state) (entry :: trace) = (current state, entry) :: threads (current state') trace.
Proof.
  destruct state as [s [[id x]|]], entry as [e a]; cbn; destruct e; cbn; intros H;
    repeat (apply bind_Some in H as (? & _ & H)); repeat case_decide; by simplify_eq.
Qed.

Lemma check_threads_step state entry state' :
  check_threads state entry = Some state' →
  match current state with
  | None => check_main state.1 entry = Some state'.1 ∧ ∀ id, task_state state' id = task_state state id
  | Some id => state'.1 = state.1 ∧ check_task (task_state state id) entry = Some (task_state state' id) ∧
      ∀ other, other ≠ id → task_state state' other = task_state state other
  end.
Proof.
  destruct state as [s [[id x]|]], entry as [e a]; unfold task_state; cbn; intros H.
  - rewrite decide_True by done. destruct e; cbn in H; try done; apply bind_Some in H as (y & Hy & H);
      repeat case_decide; simplify_eq; cbn; rewrite ?decide_True by done; split_and!; try done;
      try (intros other Ho; by rewrite !decide_False by congruence).
    by rewrite Hy, (ended_fresh _ _ _ _ _ Hy).
  - destruct e; cbn in H; try done; apply bind_Some in H as (y & Hy & H); simplify_eq; cbn; split; try done.
    intros id. by case_decide.
Qed.

(** What a monitor of the trace says of the threads, one by one. *)
Lemma threads_monitored trace state state' :
  monitor check_threads state trace = Some state' →
  monitor check_main state.1 (of_thread None (threads (current state) trace)) = Some state'.1 ∧
  ∀ id, monitor check_task (task_state state id) (of_thread (Some id) (threads (current state) trace)) =
        Some (task_state state' id).
Proof.
  revert state. induction trace as [|entry trace IH]; intros state; cbn [monitor]; [by intros [= ->]|].
  intros (state1 & Hstep & [IH1 IH2]%IH)%bind_Some. rewrite (check_threads_current _ _ _ _ Hstep).
  apply check_threads_step in Hstep. setoid_rewrite of_thread_cons. cbn [fst snd].
  destruct (current state) as [running|].
  - destruct Hstep as (Hs & Ht & Ho). rewrite <-Hs. split; [done|]. intros id. case_decide as Hid.
    + injection Hid as <-. cbn [monitor]. rewrite Ht. apply IH2.
    + rewrite <-Ho by congruence. apply IH2.
  - destruct Hstep as [Hs Ho]. rewrite decide_True by done. cbn [monitor]. rewrite Hs. split; [exact IH1|].
    intros id. rewrite decide_False by done. rewrite <-Ho. apply IH2.
Qed.

Definition is_current (state : S * option (string * T)) (id : string) : bool := bool_decide (current state = Some id).

Lemma threads_live trace state state' id :
  monitor check_threads state trace = Some state' →
  lives (is_current state id) (base.filter (concerns id) (threads (current state) trace)) = Some (is_current state' id).
Proof.
  revert state. induction trace as [|entry trace IH]; intros state; cbn [monitor]; [by intros [= ->]|].
  intros (state1 & Hstep & IH1%IH)%bind_Some. rewrite (check_threads_current _ _ _ _ Hstep). rewrite filter_cons.
  destruct state as [s [[running x]|]], entry as [e a]; cbn [fst snd fmap option_fmap option_map] in *.
  - destruct (decide (concerns id (Some running, mkEntry e a))) as [Hc|Hc]; cbn in Hc.
    + subst running. cbn [lives]. unfold is_current at 1. cbn. rewrite bool_decide_true by done. cbn.
      destruct e; cbn in Hstep; try done; apply bind_Some in Hstep as (y & _ & Hy); repeat case_decide; simplify_eq;
        unfold is_current in IH1 at 1; cbn in IH1; by rewrite ?bool_decide_true in IH1 by done.
    + unfold is_current at 1. cbn. rewrite bool_decide_false by congruence.
      destruct e; cbn in Hstep; try done; apply bind_Some in Hstep as (y & _ & Hy); repeat case_decide; simplify_eq;
        unfold is_current in IH1 at 1; cbn in IH1; by rewrite ?bool_decide_false in IH1 by congruence.
  - destruct (decide (concerns id (None, mkEntry e a))) as [Hc|Hc].
    + destruct e; try done; cbn in Hc; subst; cbn in Hstep; apply bind_Some in Hstep as (y & _ & [= <-]);
        unfold is_current in IH1 at 1; cbn in *; by rewrite ?bool_decide_true in IH1 by done.
    + destruct e; cbn in Hstep; try done; apply bind_Some in Hstep as (y & _ & [= <-]); try done;
        unfold is_current in IH1 at 1; cbn in *; by rewrite bool_decide_false in IH1 by congruence.
Qed.

Lemma monitor_of_task (state : S) trace id state' :
  monitor check_threads (state, None) trace = Some (state', None) →
  monitor check_task fresh (of_thread (Some id) (threads None trace)) = Some fresh.
Proof. intros [_ H]%threads_monitored. exact (H id). Qed.
End threads.
