(* ===== verification/JobSafety.v ===== *)
(** * Monitors of the effects of a job

    A stack of open steps for each thread, a monitor that refuses processes and one
    that follows a deployment. *)

From S2P Require Import Prelude RustStr UnixPath OrdMap Yaml Expression Evaluate Workflow Matrix Scheduler.
From S2P Require Import RustText CommandFile Masking Protocol ProblemMatcher MatcherRegistry WorkflowCommands.
From S2P Require Import JobContext Actions Runners Traced JobEffects JobSteps JobRun JobThreads.

(** ** The stack of open steps *)

(** Steps that are reported to start and to finish nest. *)
Definition check_steps `{CL : CaptureLib} (open : list string) (entry : Entry) : option (list string) :=
  match en_effect entry with
  | ESend (StepStarted _ _ step_id _) => Some (step_id :: open)
  | ESend (StepFinished _ _ step_id _ _) =>
      match open with
      | last :: open => if bool_decide (last = step_id) then Some open else None
      | [] => None
      end
  | _ => Some open
  end.

(** The steps of a task: none is open at its end, unless that is an error. *)
Definition check_task_steps `{CL : CaptureLib} (open : list string) (entry : Entry) : option (list string) :=
  match en_effect entry with
  | EEnded _ ok => if ok && negb (is_nil open) then None else Some []
  | _ => check_steps open entry
  end.

(** The steps of the job itself; and whether every task that was awaited ended
    without an error. *)
Definition check_main_steps `{CL : CaptureLib} (state : list string * bool) (entry : Entry) : option (list string * bool) :=
  open ← check_steps state.1 entry;
  Some (open, match en_effect entry with EJoin _ ok => state.2 && ok | _ => state.2 end).

Definition check_job_steps `{CL : CaptureLib} := check_threads check_main_steps check_task_steps [].

(** ** Work: processes, checkouts and actions *)

Definition is_work `{CL : CaptureLib} (e : Effect) : bool :=
  match e with EProcess _ _ _ | ECheckout _ _ _ _ | EMaterialize _ _ => true | _ => false end.

Definition check_idle `{CL : CaptureLib} (s : unit) (entry : Entry) : option unit :=
  if is_work (en_effect entry) then None else Some tt.

(** ** The deployment of a job *)

(** [true]: a deployment was reported to have started, and not to have ended. *)
Definition check_deployment `{CL : CaptureLib} (open : bool) (entry : Entry) : option bool :=
  match entry with
  | mkEntry (ESend (DeploymentStarted _ _ _ _)) (Got _) => if open then None else Some true
  | mkEntry (ESend (DeploymentFinished _ _ _ _ _)) _ => if open then Some false else None
  | _ => Some open
  end.

(** No deployment is the business of a background step. *)
Definition reports_deployment `{CL : CaptureLib} (entry : Entry) : bool :=
  match en_effect entry with ESend (DeploymentStarted _ _ _ _ | DeploymentFinished _ _ _ _ _) => true | _ => false end.

Definition check_no_deployment `{CL : CaptureLib} (s : unit) (entry : Entry) : option unit :=
  if reports_deployment entry then None else Some ().

Definition check_job_deployments `{CL : CaptureLib} := check_threads check_deployment check_no_deployment ().

(** * What a job does, effect by effect

    The programs of [JobSteps] and [JobRun] under the monitors of the definitions above. *)

(** ** Kinds of effects *)

Definition is_step_message (message : AgentMessage) : bool :=
  match message with StepStarted _ _ _ _ | StepFinished _ _ _ _ _ => true | _ => false end.

Definition is_deployment_message (message : AgentMessage) : bool :=
  match message with DeploymentStarted _ _ _ _ | DeploymentFinished _ _ _ _ _ => true | _ => false end.

Definition is_plain `{CL : CaptureLib} (e : Effect) : bool :=
  match e with
  | ESend message => negb (is_step_message message) && negb (is_deployment_message message)
  | ESpawn _ | EEnded _ _ | EJoin _ _ => false
  | _ => negb (is_work e)
  end.

Section stays.
Context `{VL : ValueLib} `{EL : ExpressionLib} `{JL : !JsonLib} `{JI : !JsonInterop} `{CL : CaptureLib} {S : Type}.
Context (hash_files : string → list string → outcome ExpressionError string).
Context (shell_split : string → option (list string)) (url_parse : string → option (string * string)).
Context (uuid_display : Uuid → string) (process_path : option string) (arch : string).
Context (oracle : Oracle) (job_id : Uuid) (workspace run_dir cache_mode : string).
Context (check : S → Entry → option S).

(** A monitor that ignores plain effects. *)
Hypothesis check_plain : ∀ s e a, is_plain e = true → check s (mkEntry e a) = Some s.

Notation stays c := (stays (L:=Locals) check c).

Lemma stays_plain e : is_plain e = true → stays (perform oracle e).
Proof. intros He. apply stays_perform. intros s a. by apply check_plain. Qed.
Hint Extern 1 (Traced.stays _ (perform _ _)) => apply stays_plain; reflexivity : stays.

Ltac stays := repeat (cbv zeta; stays_step).

Lemma stays_of_answer {A} (a : Answer A) : stays (of_answer a).
Proof. apply stays_lift. Qed.
Hint Resolve stays_of_answer : stays.

Lemma stays_bail {A} message : stays (bail (A:=A) message).
Proof. apply stays_lift. Qed.
Hint Resolve stays_bail : stays.

Lemma stays_ask {A} (c : JobEffects.Act Locals (Answer A)) : stays c → stays (ask c).
Proof. intros Hc. unfold ask. stays. Qed.
Hint Resolve stays_ask : stays.

Lemma stays_send_log step_id stream data : stays (send_log oracle job_id step_id stream data).
Proof. unfold send_log, send. stays. Qed.
Hint Resolve stays_send_log : stays.

Lemma stays_get_environment : stays get_environment.
Proof. unfold get_environment. stays. Qed.
Hint Resolve stays_get_environment : stays.

Lemma stays_set_environment environment : stays (set_environment environment).
Proof. apply stays_modify. Qed.
Hint Resolve stays_set_environment : stays.

Lemma stays_create_directory path : stays (create_directory oracle path).
Proof. unfold create_directory. stays. Qed.
Hint Resolve stays_create_directory : stays.

Lemma stays_ensure_within root candidate : stays (ensure_within oracle root candidate).
Proof. unfold ensure_within. stays. Qed.
Hint Resolve stays_ensure_within : stays.

Lemma stays_read_file path : stays (read_file oracle path).
Proof. unfold read_file. stays. Qed.
Hint Resolve stays_read_file : stays.

Lemma stays_write_files files : stays (write_files oracle files).
Proof. induction files as [|[path content] files IH]; cbn [write_files]; stays. Qed.
Hint Resolve stays_write_files : stays.

Lemma stays_with_commands {A} (operation : cmd A) : stays (with_commands oracle operation).
Proof. unfold with_commands. stays. Qed.
Hint Resolve stays_with_commands : stays.

Lemma stays_capture_step_summary path name step_id : stays (capture_step_summary oracle job_id path name step_id).
Proof. unfold capture_step_summary. stays. Qed.
Hint Resolve stays_capture_step_summary : stays.

Lemma stays_capture_artifact_subjects declarations step_id :
  stays (capture_artifact_subjects oracle job_id declarations step_id).
Proof. unfold capture_artifact_subjects. stays. Qed.
Hint Resolve stays_capture_artifact_subjects : stays.

Lemma stays_apply_environment_file_of path : stays (apply_environment_file_of oracle path).
Proof. unfold apply_environment_file_of. stays. Qed.
Hint Resolve stays_apply_environment_file_of : stays.

Lemma stays_apply_path_file_of path : stays (apply_path_file_of process_path oracle path).
Proof. unfold apply_path_file_of. stays. Qed.
Hint Resolve stays_apply_path_file_of : stays.

Lemma stays_parse_command_file path : stays (parse_command_file oracle path).
Proof. unfold parse_command_file. stays. Qed.
Hint Resolve stays_parse_command_file : stays.

Lemma stays_send_logs step_id messages : stays (send_logs oracle job_id step_id messages).
Proof. induction messages; cbn [send_logs]; stays. Qed.
Hint Resolve stays_send_logs : stays.

Lemma stays_masked_outputs step_id outputs : stays (masked_outputs oracle job_id step_id outputs).
Proof. unfold masked_outputs. stays. Qed.
Hint Resolve stays_masked_outputs : stays.

Lemma stays_step_outputs step_id output_file : stays (step_outputs oracle job_id step_id output_file).
Proof. unfold step_outputs. stays. Qed.
Hint Resolve stays_step_outputs : stays.

Lemma stays_step_state step_id state_file : stays (step_state oracle step_id state_file).
Proof. unfold step_state. stays. Qed.
Hint Resolve stays_step_state : stays.

Lemma stays_artifact_files directory name : stays (artifact_files oracle directory name).
Proof. unfold artifact_files. stays. Qed.
Hint Resolve stays_artifact_files : stays.

(** ** With work *)

(** A monitor that ignores work, too. *)
Hypothesis check_work : ∀ s e a, is_work e = true → check s (mkEntry e a) = Some s.

Lemma stays_work e : is_work e = true → stays (perform oracle e).
Proof. intros He. apply stays_perform. intros s a. by apply check_work. Qed.
Hint Extern 1 (Traced.stays _ (perform _ _)) => apply stays_work; reflexivity : stays.

Lemma stays_execute_node_action_phase step_id phase action_directory script timeout action_environment state summary_name :
  stays (execute_node_action_phase uuid_display process_path oracle job_id workspace run_dir cache_mode step_id phase
           action_directory script timeout action_environment state summary_name).
Proof. unfold execute_node_action_phase. stays. Qed.
Hint Resolve stays_execute_node_action_phase : stays.

Lemma stays_push_post post : stays (push_post post).
Proof. apply stays_modify. Qed.
Hint Resolve stays_push_post : stays.

Lemma stays_execute_node_action step_id step_name action_directory runs action_environment action_context :
  stays (execute_node_action hash_files uuid_display process_path oracle job_id workspace run_dir cache_mode step_id step_name
           action_directory runs action_environment action_context).
Proof. unfold execute_node_action. stays. Qed.

Lemma stays_interrupted step_id : stays (interrupted oracle step_id).
Proof. unfold interrupted. stays. Qed.

Lemma stays_refresh_token message : stays (refresh_token oracle message).
Proof. unfold refresh_token. stays. Qed.

Lemma stays_finish_summary : stays (finish_summary oracle).
Proof. unfold finish_summary. stays. Qed.

Lemma stays_merge_completion completion : stays (merge_completion process_path completion).
Proof. apply stays_modify. Qed.

Lemma stays_report_deployment_url (job : PlannedJob) environment_name context :
  stays (report_deployment_url hash_files url_parse job environment_name context).
Proof. unfold report_deployment_url. stays. Qed.

Lemma stays_with_environment {A} environment (c : JobEffects.Act Locals A) :
  stays c → stays (with_environment environment c).
Proof.
  intros Hc s t l x Hx. destruct (Hc s t (l <| lo_environment := environment |>) x Hx) as (added & s' & Ht & Hm & HQ).
  unfold with_environment. destruct (c t _) as [[t' l'] r]. by exists added, s'.
Qed.
End stays.

#[export] Hint Resolve stays_of_answer stays_bail stays_ask stays_send_log stays_get_environment stays_set_environment
  stays_create_directory stays_ensure_within stays_read_file stays_write_files stays_with_commands
  stays_capture_step_summary stays_capture_artifact_subjects stays_apply_environment_file_of stays_apply_path_file_of
  stays_parse_command_file stays_send_logs stays_masked_outputs stays_step_outputs stays_step_state stays_artifact_files
  stays_execute_node_action_phase stays_push_post stays_execute_node_action stays_interrupted stays_refresh_token
  stays_finish_summary stays_with_environment stays_merge_completion stays_report_deployment_url : stays.
#[export] Hint Extern 2 (Traced.stays _ (perform _ _)) => eapply stays_plain; [|reflexivity] : stays.
#[export] Hint Extern 2 (Traced.stays _ (perform _ _)) => eapply stays_work; [|reflexivity] : stays.

(** ** Step messages

    For a monitor that ignores plain effects and work, and for which the messages
    of a step open and close it, every program of a job leads from a state back to
    it; the programs that end a step start where it is open. *)

Section nest.
Context `{VL : ValueLib} `{EL : ExpressionLib} `{JL : !JsonLib} `{JI : !JsonInterop} `{CL : CaptureLib} {S : Type}.
Context (hash_files : string → list string → outcome ExpressionError string).
Context (shell_split : string → option (list string)) (url_parse : string → option (string * string)).
Context (uuid_display : Uuid → string) (process_path : option string) (arch : string).
Context (oracle : Oracle) (job_id : Uuid) (run : RunSpec JValue) (workspace run_dir cache_mode : string).

Context (check : S → Entry → option S) (opened : string → S → S) (E F : S → Prop).
Hypothesis check_plain : ∀ s e a, is_plain e = true → check s (mkEntry e a) = Some s.
Hypothesis check_work : ∀ s e a, is_work e = true → check s (mkEntry e a) = Some s.
Hypothesis check_started : ∀ s m j step_id name a,
  check s (mkEntry (ESend (StepStarted m j step_id name)) a) = Some (opened step_id s).
Hypothesis check_finished : ∀ s m j step_id conclusion exit_code a,
  check (opened step_id s) (mkEntry (ESend (StepFinished m j step_id conclusion exit_code)) a) = Some s.
Hypothesis error_opened : ∀ step_id s, E s → E (opened step_id s).
Hypothesis panic_opened : ∀ step_id s, F s → F (opened step_id s).
Hint Resolve check_plain check_work : stays.
Hint Resolve error_opened panic_opened : moves.

Notation moves := (moves (L:=Locals) check E F).
Notation keeps c := (∀ s, E s → F s → moves s c s).
Notation opens step_id c := (∀ s, E s → F s → moves s c (opened step_id s)).
Notation closes step_id c := (∀ s, E s → F s → moves (opened step_id s) c s).

Lemma step_started_moves step_id name : opens step_id (step_started oracle job_id step_id name).
Proof.
  intros s HE HF. unfold step_started, send_new, send, ask.
  eapply moves_bind; [apply moves_perform; intros; by apply check_plain|]. intros message_id.
  eapply moves_bind; [by apply moves_perform|]. intros a. apply moves_lift; auto.
Qed.

Lemma step_finished_moves step_id conclusion exit_code :
  closes step_id (step_finished oracle job_id step_id conclusion exit_code).
Proof.
  intros s HE HF. unfold step_finished, send_new, send, ask.
  eapply moves_bind; [apply moves_perform; intros; by apply check_plain|]. intros message_id.
  eapply moves_bind; [apply moves_perform; intros; apply check_finished|]. intros a. by apply moves_lift.
Qed.

(** Walk through a program; the state between two of its parts is the one the
    first part leads to. *)
Ltac moves_step :=
  first
    [ apply moves_ret | apply moves_bail; solve [auto with moves] | apply moves_lift; solve [auto with moves]
    | apply moves_get | apply moves_modify
    | solve [eauto with moves] | apply stays_moves; [solve [auto with moves] | solve [auto with moves] | solve [eauto 4 with stays]]
    | apply moves_with_context | eapply moves_bind; [|intros ?] | case_match ].
Ltac moves := intros; repeat (cbv zeta; moves_step).

Hint Resolve step_started_moves step_finished_moves : moves.

Lemma report_skipped_moves step_id name reason :
  keeps (report_skipped oracle job_id step_id name reason).
Proof. unfold report_skipped. moves. Qed.
Hint Resolve report_skipped_moves : moves.

Lemma execute_checkout_moves step_id inputs timeout :
  closes step_id (execute_checkout oracle job_id step_id inputs timeout).
Proof. unfold execute_checkout. moves. Qed.
Hint Resolve execute_checkout_moves : moves.

Lemma execute_run_moves workflow_job_id step_id step_name shell script working_directory visible_environment
    step_context continue_on_error timeout :
  closes step_id (execute_run hash_files shell_split process_path oracle job_id workspace run_dir workflow_job_id step_id step_name
       shell script working_directory visible_environment step_context continue_on_error timeout).
Proof. unfold execute_run. moves. Qed.
Hint Resolve execute_run_moves : moves.

Lemma conclude_action_moves step_id continue_on_error execution :
  closes step_id (conclude_action oracle job_id step_id continue_on_error execution).
Proof. unfold conclude_action. moves. Qed.
Hint Resolve conclude_action_moves : moves.

Lemma moves_with_environment {A} s s' environment (c : JobEffects.Act Locals A) :
  moves s c s' → moves s (with_environment environment c) s'.
Proof.
  intros Hc t l x Hx. destruct (Hc t (l <| lo_environment := environment |>) x Hx) as (added & s'' & Ht & Hm & HQ).
  unfold with_environment. destruct (c t _) as [[t' l'] r]. exists added, s''.
  split_and!; [done | done|]. cbn in HQ |- *. by destruct r.
Qed.
Hint Resolve moves_with_environment : moves.

Section actions.
Context (exec : string → string → PlannedStep → EvaluationContext → ExecutionStatus → JobEffects.Act Locals StepExecution).
Hypothesis exec_moves : ∀ workflow_name workflow_job_id step context status,
  keeps (exec workflow_name workflow_job_id step context status).
Hint Resolve exec_moves : moves.

Lemma composite_steps_moves name parent_step_id source action_context steps recorded status :
  keeps (composite_steps exec name parent_step_id source action_context steps recorded status).
Proof. revert recorded status. induction steps as [|[index step] steps IH]; intros; cbn [composite_steps]; moves. Qed.
Hint Resolve composite_steps_moves : moves.

Lemma execute_composite_action_moves parent_step_id definition source visible_environment action_context :
  keeps (execute_composite_action hash_files exec parent_step_id definition source visible_environment action_context).
Proof. unfold execute_composite_action. moves. Qed.
Hint Resolve execute_composite_action_moves : moves.

Lemma execute_materialized_action_moves step_id step_name reference action supplied_inputs visible_environment context
    continue_on_error :
  closes step_id (execute_materialized_action hash_files uuid_display process_path oracle job_id workspace run_dir cache_mode exec step_id
       step_name reference action supplied_inputs visible_environment context continue_on_error).
Proof. unfold execute_materialized_action. moves. Qed.
Hint Resolve execute_materialized_action_moves : moves.

Lemma execute_action_step_moves step_id step_name action supplied_inputs visible_environment context
    continue_on_error timeout :
  closes step_id (execute_action_step hash_files uuid_display process_path oracle job_id workspace run_dir cache_mode exec step_id
       step_name action supplied_inputs visible_environment context continue_on_error timeout).
Proof. unfold execute_action_step. moves. Qed.
Hint Resolve execute_action_step_moves : moves.

Lemma execute_step_body_moves workflow_name workflow_job_id step context status :
  keeps (execute_step_body hash_files shell_split uuid_display process_path oracle job_id workspace run_dir cache_mode exec
       workflow_name workflow_job_id step context status).
Proof. unfold execute_step_body. moves. Qed.
End actions.

Lemma execute_step_moves nesting workflow_name workflow_job_id step context status :
  keeps (execute_step hash_files shell_split uuid_display process_path oracle job_id workspace run_dir cache_mode nesting
       workflow_name workflow_job_id step context status).
Proof.
  revert workflow_name workflow_job_id step context status.
  induction nesting as [|nesting IH]; intros; cbn [execute_step]; [moves|].
  by apply execute_step_body_moves.
Qed.
Hint Resolve execute_step_moves : moves.

(** ** The job *)

Section job.
Context (nesting : nat) (event_job_id workflow_name : string) (job : PlannedJob)
  (completed_bases : gmap string JobConclusion) (completed_outputs : gmap string (gmap string string))
  (environment : gmap string string) (reusable_inputs : JValue) (targeting : RunnerTargeting).

Notation background_body := (background_body hash_files shell_split uuid_display process_path oracle nesting job_id event_job_id
  workflow_name workspace run_dir cache_mode).
Notation start_background_step := (start_background_step hash_files shell_split uuid_display process_path oracle nesting job_id
  event_job_id workflow_name workspace run_dir cache_mode).

Lemma background_body_moves step context status : keeps (background_body step context status).
Proof. unfold JobRun.background_body. moves. Qed.

(** What a task does is between the entries of its start and of its end. *)
Lemma start_background_moves s s' rendered_job_name step job_environment context status :
  (∀ a, check s (mkEntry (ESpawn (ps_id step)) a) = Some s') →
  triple check (λ _ x, x = s') (background_body step context status)
    (λ r _ x, ∀ a, check x (mkEntry (EEnded (ps_id step) (is_ok r)) a) = Some s) →
  moves s (start_background_step rendered_job_name step job_environment context status) s.
Proof.
  intros Hspawn Hbody. unfold JobRun.start_background_step.
  eapply moves_bind; [by apply moves_perform|]. intros _.
  eapply (triple_bind check _ _ _ (λ r _ x, ∃ result own, r = Ok (result, own) ∧
    ∀ a, check x (mkEntry (EEnded (ps_id step) (is_ok result)) a) = Some s)).
  - intros t l x Hx. unfold in_task.
    destruct (Hbody t (mkLocals job_environment [] (summary_new (joined_name workflow_name rendered_job_name)) None) x Hx)
      as (added & x' & Ht & Hm & HQ).
    destruct (background_body step context status t _) as [[t' own] result]. exists added, x'. split_and!; [done..|].
    by exists result, own.
  - intros [result own] t l x (? & ? & [= <- <-] & Hended).
    refine (moves_bind check E F _ _ _ _ _ _ _ t l x eq_refl); [by apply (moves_perform _ _ _ _ _ x)|]. intros _.
    apply moves_ret.
  - by intros e l x (? & ? & ? & _).
  - by intros l x (? & ? & ? & _).
Qed.

(** How the tasks of background steps start and are awaited. *)
Hypothesis start_moves : ∀ rendered_job_name step job_environment context status,
  keeps (start_background_step rendered_job_name step job_environment context status).
Hypothesis join_moves : ∀ id task, keeps (join_background oracle id task).
Hint Resolve start_moves join_moves : moves.

Lemma flush_one_moves id state : keeps (flush_one process_path oracle id state).
Proof. unfold flush_one. moves. Qed.
Hint Resolve flush_one_moves : moves.

Lemma flush_background_steps_moves ids state : keeps (flush_background_steps process_path oracle ids state).
Proof. revert state. induction ids as [|id ids IH]; intros; cbn [flush_background_steps]; moves. Qed.
Hint Resolve flush_background_steps_moves : moves.

Lemma control_step_moves rendered_job_name step context state :
  keeps (control_step hash_files process_path oracle job_id event_job_id workflow_name rendered_job_name step context state).
Proof. unfold control_step. moves. Qed.
Hint Resolve control_step_moves : moves.

Lemma job_step_moves rendered_job_name variables managed_secrets step state :
  keeps (job_step hash_files shell_split uuid_display process_path arch oracle nesting job_id event_job_id workflow_name job
                run completed_bases completed_outputs workspace run_dir reusable_inputs cache_mode rendered_job_name variables
                managed_secrets step state).
Proof. unfold job_step. moves. Qed.
Hint Resolve job_step_moves : moves.

Lemma run_steps_moves rendered_job_name variables managed_secrets steps state :
  keeps (run_steps hash_files shell_split uuid_display process_path arch oracle nesting job_id event_job_id workflow_name
                job run completed_bases completed_outputs workspace run_dir reusable_inputs cache_mode rendered_job_name
                variables managed_secrets steps state).
Proof. revert state. induction steps as [|step steps IH]; intros; cbn [run_steps]; moves. Qed.
Hint Resolve run_steps_moves : moves.

Lemma join_rest_moves state : keeps (join_rest process_path oracle state).
Proof. unfold join_rest. moves. Qed.
Hint Resolve join_rest_moves : moves.

Lemma run_post_moves post status :
  keeps (run_post hash_files uuid_display process_path oracle job_id workflow_name workspace run_dir cache_mode post
                status).
Proof. unfold run_post. moves. Qed.
Hint Resolve run_post_moves : moves.

Lemma run_posts_moves posts status :
  keeps (run_posts hash_files uuid_display process_path oracle job_id workflow_name workspace run_dir cache_mode posts
                status).
Proof. revert status. induction posts as [|post posts IH]; intros; cbn [run_posts]; moves. Qed.
Hint Resolve run_posts_moves : moves.

Lemma execute_steps_moves rendered_job_name variables managed_secrets environment_name :
  keeps (execute_steps hash_files shell_split url_parse uuid_display process_path arch oracle nesting job_id event_job_id
                workflow_name job run completed_bases completed_outputs workspace run_dir reusable_inputs cache_mode
                rendered_job_name variables managed_secrets environment_name).
Proof. unfold execute_steps. moves. Qed.
Hint Resolve execute_steps_moves : moves.

Lemma prepare_workspace_moves job_name :
  keeps (prepare_workspace oracle job_id event_job_id workflow_name workspace cache_mode job_name).
Proof. unfold prepare_workspace. moves. Qed.
Hint Resolve prepare_workspace_moves : moves.

Lemma run_job_moves rendered_job_name variables managed_secrets environment_name context :
  keeps (run_job hash_files shell_split url_parse uuid_display process_path arch oracle nesting job_id event_job_id
                workflow_name job run completed_bases completed_outputs workspace run_dir reusable_inputs cache_mode
                rendered_job_name variables managed_secrets environment_name context).
Proof.
  intros s HE HF. unfold run_job. do 4 (eapply moves_bind; [solve [moves]|]; intros ?).
  eapply moves_attempt_bind; [solve [eauto with moves] | intros; moves |].
  intros e x HEx. eapply moves_bind; [apply moves_perform; intros; by apply check_plain|]. intros timed_out.
  eapply moves_bind; [|intros _; by apply moves_bail].
  unfold finish_summary. eapply moves_bind; [apply moves_perform; intros; by apply check_plain|]. intros sequence.
  eapply moves_bind; [apply moves_get|]. intros locals. cbv zeta.
  case_match; [apply moves_ret | apply moves_perform; intros; by apply check_plain].
Qed.
Hint Resolve run_job_moves : moves.

(** [execute_job], but for what is reported of its deployment. *)
Lemma execute_job_moves :
  (∀ tracked rendered_job_name variables managed_secrets environment_name context,
     keeps (with_deployment oracle job_id event_job_id tracked
       (run_job hash_files shell_split url_parse uuid_display process_path arch oracle nesting job_id event_job_id
          workflow_name job run completed_bases completed_outputs workspace run_dir reusable_inputs cache_mode
          rendered_job_name variables managed_secrets environment_name context))) →
  keeps (execute_job hash_files shell_split url_parse uuid_display process_path arch oracle nesting job_id event_job_id
                workflow_name job run completed_bases completed_outputs workspace run_dir environment reusable_inputs targeting
                cache_mode).
Proof. intros Hdeployment s HE. unfold execute_job, execute_allowed_job. moves. Qed.
End job.
End nest.
