(* ===== verification/JobMonitors.v ===== *)
(** * What a job reports

    The messages of a job under two monitors: those of its steps nest, thread by
    thread, and a deployment that was announced is concluded - in every order in
    which the effects of the job and of its background steps may happen. *)

From S2P Require Import Prelude RustStr UnixPath OrdMap Yaml Expression Evaluate Workflow Matrix Scheduler.
From S2P Require Import RustText CommandFile Masking Protocol ProblemMatcher MatcherRegistry WorkflowCommands.
From S2P Require Import JobContext Actions Runners Traced JobEffects JobSteps JobRun JobThreads JobSafety.

(** ** The two monitors *)

Section monitors.
Context `{VL : ValueLib} `{EL : ExpressionLib} `{JL : !JsonLib} `{JI : !JsonInterop} `{CL : CaptureLib}.
Context (hash_files : string → list string → outcome ExpressionError string).
Context (shell_split : string → option (list string)) (url_parse : string → option (string * string)).
Context (uuid_display : Uuid → string) (process_path : option string) (arch : string).
Context (oracle : Oracle) (nesting : nat) (job_id : Uuid) (event_job_id workflow_name : string) (job : PlannedJob)
  (run : RunSpec JValue) (completed_bases : gmap string JobConclusion)
  (completed_outputs : gmap string (gmap string string)) (workspace run_dir : string) (environment : gmap string string)
  (reusable_inputs : JValue) (targeting : RunnerTargeting) (cache_mode : string).

Notation run_job := (run_job hash_files shell_split url_parse uuid_display process_path arch oracle nesting job_id event_job_id
  workflow_name job run completed_bases completed_outputs workspace run_dir reusable_inputs cache_mode).
Notation execute_job := (execute_job hash_files shell_split url_parse uuid_display process_path arch oracle nesting job_id
  event_job_id workflow_name job run completed_bases completed_outputs workspace run_dir environment reusable_inputs targeting
  cache_mode).

Notation background_body := (background_body hash_files shell_split uuid_display process_path oracle nesting job_id event_job_id
  workflow_name workspace run_dir cache_mode).
Notation start_background_step := (start_background_step hash_files shell_split uuid_display process_path oracle nesting job_id
  event_job_id workflow_name workspace run_dir cache_mode).

(** A monitor of threads ignores what its two parts ignore. *)
Lemma check_threads_ignores {S T} (check_main : S → Entry → option S) (check_task : T → Entry → option T) fresh state e a :
  match e with ESpawn _ | EEnded _ _ | EJoin _ _ => false | _ => true end = true →
  (∀ s, check_main s (mkEntry e a) = Some s) → (∀ x, check_task x (mkEntry e a) = Some x) →
  check_threads check_main check_task fresh state (mkEntry e a) = Some state.
Proof. intros He Hm Ht. destruct state as [s [[id x]|]]; destruct e; try done; cbn; by rewrite ?Hm, ?Ht. Qed.

(** ** Steps *)

Notation StepsState := (list string * bool * option (string * list string))%type.

Definition opened_step (step_id : string) (state : StepsState) : StepsState :=
  match state with
  | (open, joined, None) => (step_id :: open, joined, None)
  | (main, Some (id, open)) => (main, Some (id, step_id :: open))
  end.

(** Between the steps of the job, and within the task of a background step. *)
Definition in_main (state : StepsState) : Prop := state.2 = None.
Definition in_task_of (main : list string * bool) (id : string) (state : StepsState) : Prop :=
  ∃ open, state = (main, Some (id, open)).

Lemma check_steps_ignores open e a : is_plain e = true ∨ is_work e = true → check_steps open (mkEntry e a) = Some open.
Proof. unfold check_steps. intros []; destruct e as [message| | | | | | | | | | | | | | | | | | | | | | | | | | | |]; try done; by destruct message. Qed.

Lemma check_job_steps_ignores state e a :
  is_plain e = true ∨ is_work e = true → check_job_steps state (mkEntry e a) = Some state.
Proof.
  intros He. apply check_threads_ignores.
  - destruct He; by destruct e.
  - intros [open joined]. unfold check_main_steps. cbn [fst snd]. rewrite check_steps_ignores by done.
    cbn [mbind option_bind en_effect]. destruct He; by destruct e.
  - intros open. unfold check_task_steps. rewrite check_steps_ignores by done. cbn [en_effect]. destruct He; by destruct e.
Qed.

Lemma check_job_steps_started state m j step_id name a :
  check_job_steps state (mkEntry (ESend (StepStarted m j step_id name)) a) = Some (opened_step step_id state).
Proof. by destruct state as [[open joined] [[id x]|]]. Qed.

Lemma check_job_steps_finished state m j step_id conclusion exit_code a :
  check_job_steps (opened_step step_id state) (mkEntry (ESend (StepFinished m j step_id conclusion exit_code)) a) = Some state.
Proof.
  destruct state as [[open joined] [[id x]|]]; cbn; unfold check_main_steps, check_task_steps, check_steps; cbn;
    by rewrite bool_decide_true.
Qed.

Lemma opened_in_main step_id state : in_main state → in_main (opened_step step_id state).
Proof. by destruct state as [[open joined] [[id x]|]]. Qed.

Lemma opened_in_task main id step_id state : in_task_of main id state → in_task_of main id (opened_step step_id state).
Proof. intros [open ->]. destruct main. by eexists. Qed.

Hint Resolve check_job_steps_ignores check_job_steps_started check_job_steps_finished opened_in_main opened_in_task : core.

Lemma start_steps_moves state rendered_job_name step job_environment context status :
  in_main state →
  moves check_job_steps in_main in_main state
    (start_background_step rendered_job_name step job_environment context status) state.
Proof.
  destruct state as [[open joined] current]. unfold in_main. cbn. intros ->.
  apply start_background_moves with (s' := (open, joined, Some (ps_id step, []))).
  - intros a. done.
  - assert (moves check_job_steps (in_task_of (open, joined) (ps_id step)) (in_task_of (open, joined) (ps_id step))
      (open, joined, Some (ps_id step, [])) (background_body step context status) (open, joined, Some (ps_id step, []))) as H.
    { apply background_body_moves with (opened := opened_step); auto; by eexists. }
    refine (triple_weaken _ _ _ _ _ _ H _ _); [done|].
    intros [execution|e|] _ x; [intros -> a | intros [stack ->] a..]; cbn; by rewrite decide_True.
Qed.

Lemma join_steps_moves state id task :
  in_main state → moves (L:=Locals) check_job_steps in_main in_main state (join_background oracle id task) state.
Proof.
  destruct state as [[open joined] current]. unfold in_main. cbn. intros ->. unfold join_background.
  eapply (moves_bind _ _ _ _ _ _ (open, joined && is_ok task, None)).
  - apply moves_perform. intros a. by unfold check_main_steps; cbn.
  - intros _. destruct task as [completion|e|]; cbn [is_ok].
    + rewrite andb_true_r. apply moves_ret.
    + by apply moves_bail.
    + by apply moves_bail.
Qed.

(** The messages of a deployment do not touch the stacks of steps. *)
Lemma send_deployment_moves state (message : Uuid → AgentMessage) :
  (∀ u, is_step_message (message u) = false) → in_main state →
  moves (L:=Locals) check_job_steps in_main in_main state (send_new oracle message) state.
Proof.
  intros Hm Hs. unfold send_new, send, ask. eapply moves_bind; [apply moves_perform; by auto|]. intros u.
  eapply moves_bind; [|intros; by apply moves_lift]. apply moves_perform. intros a.
  apply check_threads_ignores; [done|..]; specialize (Hm u).
  - intros [open joined]. by destruct (message u).
  - intros open. by destruct (message u).
Qed.

Lemma deployment_conclusion_stays {S} (check : S → Entry → option S) result :
  (∀ s e a, is_plain e = true → check s (mkEntry e a) = Some s) →
  stays (L:=Locals) check (deployment_conclusion oracle result).
Proof.
  intros Hplain. unfold deployment_conclusion.
  assert (∀ e, is_plain e = true → stays (L:=Locals) check (perform oracle e)) as Hp.
  { intros e He. apply stays_perform. intros s a. by apply Hplain. }
  destruct result; [apply stays_ret| |];
    (apply stays_bind; [by apply Hp|]; intros [];
     [apply stays_ret | apply stays_bind; [by apply Hp|]; intros ?; apply stays_ret]).
Qed.

Lemma deployment_conclusion_Ok result t l :
  (deployment_conclusion oracle result t l).2 =
  Ok match deployment_conclusion oracle result t l with (_, _, Ok c) => c | _ => Conclusion.Failure end.
Proof.
  unfold deployment_conclusion. destruct result; [done| |];
    (unfold bind, perform, ret; cbn; destruct (oracle _ EJobTimedOut); cbn; [done|]; by destruct (oracle _ ECancelled)).
Qed.

(** What follows the steps of a job with a deployment. *)
Definition conclude_deployment (result : outcome string JobExecution) : JobEffects.Act Locals JobExecution :=
  bind (deployment_conclusion oracle result) (λ conclusion, bind get (λ locals,
    bind (send_new oracle (λ message_id,
            DeploymentFinished message_id job_id event_job_id conclusion (lo_deployment_url locals)))
         (λ _, lift result))).

Lemma with_deployment_nests environment_name (c : JobEffects.Act Locals JobExecution) state :
  in_main state → moves check_job_steps in_main in_main state c state →
  moves check_job_steps in_main in_main state (with_deployment oracle job_id event_job_id environment_name c) state.
Proof.
  intros Hs Hc. unfold with_deployment. destruct environment_name as [name|]; [|done].
  eapply moves_bind; [by apply send_deployment_moves|]. intros _.
  assert (∀ x s' result, in_main x → moves (L:=Locals) check_job_steps in_main in_main x (lift result) s' →
    moves (L:=Locals) check_job_steps in_main in_main x (conclude_deployment result) s') as Hend.
  { intros x s' result Hx Hresult. eapply moves_bind.
    { apply stays_moves; [done..|]. apply deployment_conclusion_stays. auto. }
    intros conclusion. eapply moves_bind; [apply moves_get|]. intros locals.
    eapply moves_bind; [by apply send_deployment_moves|]. intros _. exact Hresult. }
  eapply moves_attempt_bind; [exact Hc | intros a; by apply Hend, moves_lift |].
  intros e x Hx. apply Hend; [done|]. by apply moves_bail.
Qed.

(** ** Deployments *)

Notation DeploymentState := (bool * option (string * unit))%type.

Lemma check_job_deployments_ignores (state : DeploymentState) e a :
  is_plain e = true ∨ is_work e = true → check_job_deployments state (mkEntry e a) = Some state.
Proof.
  intros He. apply check_threads_ignores.
  - destruct He; by destruct e.
  - intros open. unfold check_deployment.
    destruct He; destruct e as [message| | | | | | | | | | | | | | | | | | | | | | | | | | | |]; try done; by destruct message.
  - intros []. unfold check_no_deployment, reports_deployment. cbn [en_effect].
    destruct He; destruct e as [message| | | | | | | | | | | | | | | | | | | | | | | | | | | |]; try done; by destruct message.
Qed.

Lemma check_job_deployments_step (state : DeploymentState) message a :
  is_step_message message = true → check_job_deployments state (mkEntry (ESend message) a) = Some state.
Proof. intros Hm. apply check_threads_ignores; [done|..]; [intros open | intros []]; by destruct message. Qed.

Hint Resolve check_job_deployments_ignores check_job_deployments_step : core.

Lemma start_deployments_moves open rendered_job_name step job_environment context status :
  moves check_job_deployments (eq (open, None)) (eq (open, None)) (open, None)
    (start_background_step rendered_job_name step job_environment context status) (open, None).
Proof.
  apply start_background_moves with (s' := (open, Some (ps_id step, ()))).
  - intros a. done.
  - assert (moves check_job_deployments (eq (open, Some (ps_id step, ()))) (eq (open, Some (ps_id step, ())))
      (open, Some (ps_id step, ())) (background_body step context status) (open, Some (ps_id step, ()))) as H.
    { apply background_body_moves with (opened := λ _ s, s); auto. }
    refine (triple_weaken _ _ _ _ _ _ H _ _); [done|].
    intros [execution|e|] _ x; [intros -> a | intros <- a..]; cbn; by rewrite decide_True.
Qed.

Lemma join_deployments_moves open id task :
  moves (L:=Locals) check_job_deployments (eq (open, None)) (eq (open, None)) (open, None) (join_background oracle id task) (open, None).
Proof.
  unfold join_background. eapply moves_bind; [by apply moves_perform|]. intros _. apply moves_lift; done.
Qed.

(** What is sent after the deployment started. *)
Lemma deployment_finished_moves (message : Uuid → AgentMessage) :
  (∀ u, match message u with DeploymentFinished _ _ _ _ _ => True | _ => False end) →
  moves (L:=Locals) check_job_deployments (eq (false, None)) (λ _, True) (true, None) (send_new oracle message) (false, None).
Proof.
  intros Hm. unfold send_new, send, ask. eapply moves_bind; [apply moves_perform; by auto|]. intros u.
  eapply moves_bind; [|intros; by apply moves_lift]. apply moves_perform. intros a.
  specialize (Hm u). by destruct (message u).
Qed.

Lemma with_deployment_ends environment_name (c : JobEffects.Act Locals JobExecution) :
  (∀ open, moves check_job_deployments (eq (open, None)) (eq (open, None)) (open, None) c (open, None)) →
  moves check_job_deployments (eq (false, None)) (λ _, True) (false, None)
    (with_deployment oracle job_id event_job_id environment_name c) (false, None).
Proof.
  intros Hc. unfold with_deployment. destruct environment_name as [name|].
  2: { refine (triple_weaken check_job_deployments _ _ _ _ _ (Hc false) _ _); [done|]. by intros [] ? ? H. }
  assert (∀ result, moves (L:=Locals) check_job_deployments (eq (false, None)) (λ _, True) (true, None)
    (conclude_deployment result) (false, None)) as Hend.
  { intros result. eapply (moves_bind _ _ _ _ _ _ (true, None)).
    { intros t l x Hx.
      destruct (deployment_conclusion_stays check_job_deployments result
                  ltac:(auto) (true, None) t l x Hx) as (added & x' & ? & ? & ->).
      exists added, (true, None). split_and!; [done | done|]. by rewrite deployment_conclusion_Ok. }
    intros conclusion. eapply moves_bind; [apply moves_get|]. intros locals.
    eapply moves_bind; [by apply deployment_finished_moves|]. intros _. by apply moves_lift. }
  eapply (moves_bind _ _ _ _ _ _ (true, None)).
  { unfold send_new, send, ask. eapply moves_bind; [apply moves_perform; by auto|].
    intros u. eapply triple_bind with (R := λ r _ x, match r with
      | Ok (Got _) => x = (true, None) | Ok (Failed _) => x = (false, None) | Err _ | Panic => False end); [| |done|done].
    - apply triple_perform. intros _ s [[]|message] ->; by eexists.
    - intros [[]|message]; apply triple_lift; intros _ s ?; [done | by symmetry]. }
  intros _. eapply (moves_attempt_bind _ _ (eq (true, None))); [| intros a; apply Hend |].
  - refine (moves_weaken _ _ _ _ _ _ _ _ _ _ (Hc true)); [done|]. done.
  - intros e x <-. apply Hend.
Qed.

Lemma run_job_ends open rendered_job_name variables managed_secrets environment_name context :
  moves check_job_deployments (eq (open, None)) (eq (open, None)) (open, None)
    (run_job rendered_job_name variables managed_secrets environment_name context) (open, None).
Proof.
  apply run_job_moves with (opened := λ _ s, s); auto.
  - intros ? ? ? ? ? ? <- _. apply start_deployments_moves.
  - intros ? ? ? <- _. apply join_deployments_moves.
Qed.

(** ** The two properties *)

(** What [execute_job] does, in the order in which its threads start. *)
Definition job_trace (t : list Entry) (l : Locals) : list Entry := drop (length t) (execute_job t l).1.1.

Lemma job_steps_monitored t l :
  ∃ open joined, monitor check_job_steps ([], true, None) (job_trace t l) = Some (open, joined, None) ∧
    (is_ok (execute_job t l).2 = true → open = [] ∧ joined = true).
Proof.
  assert (moves check_job_steps in_main in_main ([], true, None) execute_job ([], true, None)) as H.
  { apply (execute_job_moves hash_files shell_split url_parse uuid_display process_path arch oracle job_id run workspace run_dir
             cache_mode check_job_steps opened_step); auto; [|done..].
    intros tracked name variables secrets environment_name context s Hs _. apply with_deployment_nests; [done|].
    apply run_job_moves with (opened := opened_step); auto using start_steps_moves, join_steps_moves. }
  destruct (H t l _ eq_refl) as (added & [[open joined] current] & Ht & Hm & HQ).
  exists open, joined. unfold job_trace. rewrite Ht, drop_app_length, Hm.
  destruct (execute_job t l).2; [by injection HQ as -> -> -> | unfold in_main in HQ; cbn in HQ; by subst..].
Qed.

Lemma job_deployments_monitored t l :
  ∃ open current, monitor check_job_deployments (false, None) (job_trace t l) = Some (open, current) ∧
    ((execute_job t l).2 ≠ Panic → open = false ∧ current = None).
Proof.
  assert (moves check_job_deployments (eq (false, None)) (λ _, True) (false, None) execute_job (false, None)) as H.
  { apply (execute_job_moves hash_files shell_split url_parse uuid_display process_path arch oracle job_id run workspace run_dir
             cache_mode check_job_deployments (λ _ s, s)); auto.
    intros tracked name variables secrets environment_name context s <- _. apply with_deployment_ends.
    intros open. apply run_job_ends. }
  destruct (H t l _ eq_refl) as (added & [open current] & Ht & Hm & HQ).
  exists open, current. unfold job_trace. rewrite Ht, drop_app_length, Hm. split; [done|].
  by destruct (execute_job t l).2; [injection HQ as -> ->| injection HQ as <- <- |].
Qed.

(** C23: The steps of a job are reported in pairs, thread by thread, in whatever order
    the effects of the job and of its background steps happen.  The messages of the
    job itself nest - each message that a step started is followed by the one that it
    finished, the steps of a composite action within the step that uses it - and so
    do those of each background step, none of which is left open at the end of its
    task unless the task ends with an error; when the job ends with a conclusion, no
    step of it is left open and every background step it awaited ended without an
    error.  A background step sends nothing before it starts nor after it ends, and is
    awaited only after its end. *)
Theorem step_messages_nest t l order :
  observed (threads None (job_trace t l)) order →
  (∃ open joined, monitor check_main_steps ([], true) (of_thread None order) = Some (open, joined) ∧
     (is_ok (execute_job t l).2 = true → open = [] ∧ joined = true)) ∧
  ∀ id, monitor check_task_steps [] (of_thread (Some id) order) = Some [] ∧
        lives false (base.filter (concerns id) order) = Some false.
Proof.
  intros Horder. destruct (job_steps_monitored t l) as (open & joined & Hm & Hok).
  assert (∀ x id ok a y, check_task_steps x (mkEntry (EEnded id ok) a) = Some y → y = []) as Hfresh.
  { intros x id ok a y. unfold check_task_steps. cbn. by destruct (ok && _); [|intros [= <-]]. }
  split.
  - exists open, joined. rewrite (of_thread_observed _ _ _ Horder). split; [|done].
    by apply threads_monitored in Hm as [Hm _].
  - intros id. rewrite (of_thread_observed _ _ _ Horder), (concerns_observed _ _ _ Horder).
    split; [by eapply monitor_of_task | exact (threads_live _ _ _ _ _ _ id Hm)].
Qed.

Lemma monitor_deployment_reports open trace :
  monitor check_deployment open trace = monitor check_deployment open (base.filter (λ entry, reports_deployment entry = true) trace).
Proof.
  revert open. induction trace as [|[e a] trace IH]; intros open; [done|]. rewrite filter_cons. case_decide as He.
  - cbn [monitor]. destruct (check_deployment open (mkEntry e a)); [apply IH | done].
  - rewrite <-IH. cbn [monitor]. assert (check_deployment open (mkEntry e a) = Some open) as ->; [|done].
    unfold reports_deployment in He. cbn in He. destruct e as [message| | | | | | | | | | | | | | | | | | | | | | | | | | | |]; try done.
    by destruct message.
Qed.

Lemma no_deployment_reports trace s :
  monitor check_no_deployment () trace = Some s → base.filter (λ entry, reports_deployment entry = true) trace = [].
Proof.
  induction trace as [|entry trace IH]; [done|]. cbn [monitor].
  assert (check_no_deployment () entry = if reports_deployment entry then None else Some ()) as -> by done.
  rewrite filter_cons. destruct (reports_deployment entry); [done|]. rewrite decide_False by done. exact IH.
Qed.

(** The deployments of an order are those of the job itself. *)
Lemma order_deployment_reports (order : list (Thread * Entry)) :
  (∀ id, base.filter (λ entry, reports_deployment entry = true) (of_thread (Some id) order) = []) →
  base.filter (λ entry, reports_deployment entry = true) order.*2 =
  base.filter (λ entry, reports_deployment entry = true) (of_thread None order).
Proof.
  induction order as [|[[id|] entry] order IH]; intros H; [done| |].
  - rewrite of_thread_cons. cbn [fst]. rewrite decide_False by done. rewrite fmap_cons, filter_cons. cbn [snd].
    pose proof (H id) as Hid. rewrite of_thread_cons, decide_True, filter_cons in Hid by done. cbn [snd] in Hid.
    destruct (decide (reports_deployment entry = true)); [done|]. apply IH. intros other. specialize (H other).
    rewrite of_thread_cons in H. cbn [fst snd] in H. case_decide; [|done]. by rewrite filter_cons, decide_False in H.
  - rewrite of_thread_cons. cbn [fst snd]. rewrite decide_True by done. rewrite fmap_cons, !filter_cons. cbn [snd].
    rewrite IH; [done|]. intros other. specialize (H other). rewrite of_thread_cons in H. cbn [fst] in H.
    by rewrite decide_False in H.
Qed.

(** C25: A job that announced a deployment concludes it, once, when [execute_job] returns:
    whether with a conclusion or with an error, and in whatever order the effects of
    the job and of its background steps happen; and it concludes none it did not
    announce.  (A job that panics, or whose future is dropped because a sibling ends
    with an error, returns nothing: [execute_base_group] and [execute_plan_inner] drop
    the futures that are in flight, and the deployment stays announced.) *)
Theorem deployments_are_concluded t l order :
  observed (threads None (job_trace t l)) order →
  ∃ open, monitor check_deployment false order.*2 = Some open ∧ ((execute_job t l).2 ≠ Panic → open = false).
Proof.
  intros Horder. destruct (job_deployments_monitored t l) as (open & current & Hm & Hok). exists open.
  split; [|intros Hpanic; by destruct (Hok Hpanic)].
  apply threads_monitored in Hm as [Hmain Htasks].
  2: { intros x id ok a y. unfold check_no_deployment. cbn. by intros [= <-]. }
  rewrite monitor_deployment_reports, order_deployment_reports.
  - by rewrite <-monitor_deployment_reports, (of_thread_observed _ _ _ Horder).
  - intros id. rewrite (of_thread_observed _ _ _ Horder). eapply no_deployment_reports, Htasks.
Qed.
End monitors.

(** * The execution of a job: properties

    What runs after a failure, the order of the post phases, what a successful
    conclusion says of the steps, and how background steps are joined. *)

(** ** Nothing runs after a failure *)

(** [None], or a condition that does not ask for the status. *)
Definition needs_success (step : PlannedStep) : bool :=
  match ps_condition step with Some condition => negb (contains_status_function condition) | None => true end.

Definition foreground (step : PlannedStep) : bool :=
  runs_in_background (ps_kind step) && negb (is_some (ps_background step)).

Lemma bind_lift_stays `{CL : CaptureLib} {L S A B} (check : S → Entry → option S) (c : outcome string A)
    (k : A → JobEffects.Act L B) :
  (∀ a, c = Ok a → stays check (k a)) → stays check (bind (lift c) k).
Proof.
  intros Hk s. apply (triple_bind check _ _ _ (λ r _ x, r = c ∧ x = s)); [by apply triple_lift| |by intros ? ? ? []|by intros ? ? []].
  intros a t l x [Ha ->]. by apply (Hk a).
Qed.

Section idle.
Context `{VL : ValueLib} `{EL : ExpressionLib} `{JL : !JsonLib} `{JI : !JsonInterop} `{CL : CaptureLib}.
Context (hash_files : string → list string → outcome ExpressionError string).
Context (shell_split : string → option (list string)).
Context (uuid_display : Uuid → string) (process_path : option string) (arch : string).
Context (oracle : Oracle) (nesting : nat) (job_id : Uuid) (event_job_id workflow_name : string) (job : PlannedJob)
  (run : RunSpec JValue) (completed_bases : gmap string JobConclusion)
  (completed_outputs : gmap string (gmap string string)) (workspace run_dir : string)
  (reusable_inputs : JValue) (cache_mode : string).

Notation idle := (stays (L:=Locals) check_idle).

Lemma check_idle_ignores s e a : is_work e = false → check_idle s (mkEntry e a) = Some s.
Proof. unfold check_idle. cbn. intros ->. by destruct s. Qed.

Lemma check_idle_plain s e a : is_plain e = true → check_idle s (mkEntry e a) = Some s.
Proof. intros H. apply check_idle_ignores. by destruct e. Qed.

Lemma idle_perform e : is_work e = false → idle (perform oracle e).
Proof. intros He. apply stays_perform. intros s a. by apply check_idle_ignores. Qed.

Lemma idle_send_new message : idle (send_new oracle message).
Proof.
  unfold send_new, send, ask. apply stays_bind; [by apply idle_perform|]. intros u.
  apply stays_bind; [by apply idle_perform|]. intros a. apply stays_of_answer.
Qed.

Lemma idle_report_skipped step_id name reason : idle (report_skipped oracle job_id step_id name reason).
Proof.
  unfold report_skipped, step_started, step_finished.
  apply stays_bind; [apply idle_send_new|]. intros _.
  apply stays_bind; [apply stays_send_log, check_idle_plain|]. intros _. apply idle_send_new.
Qed.

Lemma step_allows_after_failure (step : PlannedStep) status context allowed :
  needs_success step = true → status ≠ Success →
  step_allows hash_files (ps_condition step) status context = Ok allowed → allowed = false.
Proof.
  unfold needs_success, step_allows, condition_allows. intros Hn Hs.
  destruct (ps_condition step) as [condition|].
  - rewrite Hn, bool_decide_false by done. by intros [= <-].
  - rewrite bool_decide_false by done. by intros [= <-].
Qed.

Lemma idle_execute_step n workflow_name' workflow_job_id step context status :
  needs_success step = true → status ≠ Success →
  idle (execute_step hash_files shell_split uuid_display process_path oracle job_id workspace run_dir cache_mode n
          workflow_name' workflow_job_id step context status).
Proof.
  intros Hn Hs. destruct n as [|n]; [apply stays_lift|]. cbn [execute_step]. unfold execute_step_body.
  apply stays_bind; [apply stays_get_environment|]. intros environment.
  apply bind_lift_stays. intros [step_context visible] _. cbv zeta.
  apply bind_lift_stays. intros step_name _. apply bind_lift_stays. intros continue_on_error _.
  apply bind_lift_stays. intros timeout _. apply bind_lift_stays. intros allowed Ha.
  apply step_allows_after_failure in Ha as ->; [|done..]. cbn [negb].
  apply stays_bind; [apply idle_report_skipped|]. intros _. apply stays_ret.
Qed.

(** The result of such a step. *)
Lemma execute_step_skipped n workflow_name' workflow_job_id step context status :
  needs_success step = true → status ≠ Success →
  yields (execute_step hash_files shell_split uuid_display process_path oracle job_id workspace run_dir cache_mode n
          workflow_name' workflow_job_id step context status) (eq step_skipped).
Proof.
  intros Hn Hs. destruct n as [|n]; [by apply yields_lift|]. cbn [execute_step]. unfold execute_step_body.
  apply yields_then. intros environment. apply yields_then. intros [step_context visible]. cbv zeta.
  apply yields_then. intros step_name. apply yields_then. intros continue_on_error. apply yields_then. intros timeout.
  apply (yields_bind _ _ (λ allowed, allowed = false)).
  { apply yields_lift. intros allowed. by apply step_allows_after_failure. }
  intros allowed ->. cbn [negb]. apply yields_then. intros _. by apply yields_ret.
Qed.

Notation job_step := (job_step hash_files shell_split uuid_display process_path arch oracle nesting job_id event_job_id
  workflow_name job run completed_bases completed_outputs workspace run_dir reusable_inputs cache_mode).
Notation run_steps := (run_steps hash_files shell_split uuid_display process_path arch oracle nesting job_id event_job_id
  workflow_name job run completed_bases completed_outputs workspace run_dir reusable_inputs cache_mode).

Definition ordinary (step : PlannedStep) : Prop :=
  runs_in_background (ps_kind step) = true ∧ ps_background step = None ∧ needs_success step = true.

Lemma idle_job_step rendered_job_name variables managed_secrets step state :
  ordinary step → ls_status state ≠ Success →
  idle (job_step rendered_job_name variables managed_secrets step state).
Proof.
  intros (Hkind & Hbackground & Hn) Hs. unfold JobRun.job_step.
  apply stays_bind; [apply stays_refresh_token, check_idle_plain|]. intros token.
  apply stays_bind; [apply stays_get_environment|]. intros job_environment.
  apply bind_lift_stays. intros context _. apply bind_lift_stays. intros is_background Hb.
  rewrite Hbackground in Hb. injection Hb as <-. rewrite Hkind. cbn [andb negb].
  apply stays_bind; [by apply idle_execute_step|]. intros execution. cbv zeta.
  case_match; [apply stays_ret|]. apply stays_bind; [by apply idle_perform|]. intros timed_out. apply stays_ret.
Qed.

Lemma job_step_keeps_status rendered_job_name variables managed_secrets step state :
  ordinary step → ls_status state ≠ Success →
  yields (job_step rendered_job_name variables managed_secrets step state) (λ result, ls_status result.1 ≠ Success).
Proof.
  intros (Hkind & Hbackground & Hn) Hs. unfold JobRun.job_step.
  apply yields_then. intros token. apply yields_then. intros job_environment. apply yields_then. intros context.
  apply (yields_bind _ _ (λ b, b = false)).
  { apply yields_lift. intros b Hb. rewrite Hbackground in Hb. by injection Hb. }
  intros b ->. rewrite Hkind. cbn [andb negb].
  apply (yields_bind _ _ (eq step_skipped)); [by apply execute_step_skipped|]. intros execution <-. cbv zeta.
  case_match; [by apply yields_ret|]. apply yields_then. intros timed_out. by apply yields_ret.
Qed.

Lemma bind_yields_stays {S A B} (check : S → Entry → option S) (c : JobEffects.Act Locals A) (k : A → JobEffects.Act Locals B)
    (R : A → Prop) :
  stays check c → yields c R → (∀ a, R a → stays check (k a)) → stays check (bind c k).
Proof.
  intros Hc Hy Hk s.
  apply (triple_bind check _ _ _ (λ r _ x, match r with Ok a => R a | _ => True end ∧ x = s));
    [| |by intros ? ? ? []|by intros ? ? []].
  - intros t l x Hx. destruct (Hc s t l x Hx) as (added & x' & ? & ? & ?). exists added, x'.
    split; [done|]. split; [done|]. split; [|done]. specialize (Hy t l). by destruct (c t l).2.
  - intros a t l x [Ha ->]. by apply (Hk a).
Qed.

(** once a job has failed or was cancelled, its remaining steps start no
    process, no checkout and no action, unless their [if] asks for the status. *)
Theorem nothing_runs_after_a_failure rendered_job_name variables managed_secrets steps state t l :
  (∀ step, step ∈ steps → ordinary step) → ls_status state ≠ Success →
  monitor check_idle ()
    (drop (length t) (run_steps rendered_job_name variables managed_secrets steps state t l).1.1) = Some ().
Proof.
  intros Hsteps Hs.
  enough (idle (run_steps rendered_job_name variables managed_secrets steps state)) as H.
  { destruct (H () t l () eq_refl) as (added & [] & Ht & Hm & _). by rewrite Ht, drop_app_length. }
  revert state Hs. induction steps as [|step steps IH]; intros state Hs; cbn [JobRun.run_steps]; [apply stays_ret|].
  apply stays_bind; [by apply idle_perform|]. intros []; [apply stays_ret|].
  apply (bind_yields_stays _ _ _ (λ result, ls_status result.1 ≠ Success)).
  - apply idle_job_step; [apply Hsteps, list_elem_of_here | done].
  - apply job_step_keeps_status; [apply Hsteps, list_elem_of_here | done].
  - intros [state' []] Hs'; [apply stays_ret|]. apply IH; [|done]. intros other Hin. by apply Hsteps, list_elem_of_further.
Qed.
End idle.

(** ** The order of the post phases *)

(** What remains of a list after an element. *)
Fixpoint after (id : string) (ids : list string) : option (list string) :=
  match ids with
  | [] => None
  | x :: ids => if bool_decide (x = id) then Some ids else after id ids
  end.

(** Steps may start in this order, each at most once per occurrence. *)
Definition check_order `{CL : CaptureLib} (remaining : list string) (entry : Entry) : option (list string) :=
  match en_effect entry with
  | ESend (StepStarted _ _ step_id _) => after step_id remaining
  | _ => Some remaining
  end.

Section posts.
Context `{VL : ValueLib} `{EL : ExpressionLib} `{JL : !JsonLib} `{JI : !JsonInterop} `{CL : CaptureLib}.
Context (hash_files : string → list string → outcome ExpressionError string).
Context (uuid_display : Uuid → string) (process_path : option string).
Context (oracle : Oracle) (job_id : Uuid) (workflow_name workspace run_dir cache_mode : string).

Notation run_post := (run_post hash_files uuid_display process_path oracle job_id workflow_name workspace run_dir cache_mode).
Notation run_posts := (run_posts hash_files uuid_display process_path oracle job_id workflow_name workspace run_dir cache_mode).

Definition post_id (post : ActionPost) : string := po_step_id post +:+ "/post".

Lemma check_order_plain s e a : is_plain e = true → check_order s (mkEntry e a) = Some s.
Proof. unfold check_order. destruct e as [message| | | | | | | | | | | | | | | | | | | | | | | | | | | |]; by try destruct message. Qed.

Lemma check_order_work s e a : is_work e = true → check_order s (mkEntry e a) = Some s.
Proof. by destruct e. Qed.

Lemma check_order_quiet s e a :
  match e with ESend (StepStarted _ _ _ _) => false | _ => true end = true → check_order s (mkEntry e a) = Some s.
Proof. unfold check_order. destruct e as [message| | | | | | | | | | | | | | | | | | | | | | | | | | | |]; by try destruct message. Qed.

(** A post phase starts its own step and no other. *)
Lemma run_post_order post status rest :
  triple check_order (λ _ x, x = post_id post :: rest) (run_post post status)
    (λ r _ x, x = rest ∨ (∃ status', r = Ok (status', false)) ∧ x = post_id post :: rest ∨ is_ok r = false).
Proof.
  unfold JobRun.run_post.
  apply (triple_bind check_order _ _ _ (λ _ _ x, x = post_id post :: rest)); [by apply triple_lift| |by right; right..].
  intros []; cbn [negb].
  2: { apply triple_ret. intros _ x ->. right. left. split; [by eexists | done]. }
  cbv zeta.
  apply (triple_bind check_order _ _ _ (λ _ _ x, x = rest)); [|cbn|by right; right..].
  { unfold step_started, send_new, send, ask.
    apply (triple_bind check_order _ _ _ (λ r _ x, x = post_id post :: rest ∧ is_ok r = true)); [| |by intros ? ? ? []|by intros ? ? []].
    { apply triple_perform. intros _ x u ->. eexists. by rewrite check_order_plain. }
    intros u. apply (triple_bind check_order _ _ _ (λ _ _ x, x = rest)); [|intros a; by apply triple_lift|done|done].
    apply triple_perform. intros _ x a [-> _]. exists rest. unfold check_order. cbn.
    by rewrite bool_decide_true. }
  intros _. apply (triple_bind check_order _ _ _ (λ _ _ x, x = rest)); [|cbn|by right; right..].
  { apply stays_execute_node_action_phase; [apply check_order_plain | apply check_order_work]. }
  intros execution. apply (triple_bind check_order _ _ _ (λ _ _ x, x = rest)); [|cbn|by right; right..].
  { unfold step_finished, send_new, send, ask.
    apply stays_bind; [apply stays_plain; [apply check_order_plain | done]|]. intros u.
    apply stays_bind; [|intros a; apply stays_lift].
    apply stays_perform. intros s a. by apply check_order_quiet. }
  intros _. apply triple_ret. intros _ x ->. by left.
Qed.

Lemma after_is_suffix id ids rest : after id ids = Some rest → rest `suffix_of` ids.
Proof.
  induction ids as [|x ids IH]; cbn [after]; [done|].
  case_bool_decide; [intros [= ->] | intros H'%IH]; by apply suffix_cons_r.
Qed.

Lemma after_suffix id ids ids' rest :
  ids `suffix_of` ids' → after id ids = Some rest → ∃ rest', after id ids' = Some rest' ∧ rest `suffix_of` rest'.
Proof.
  intros [k ->] Hrest. induction k as [|x k IH]; [by exists rest|]. cbn [app after].
  case_bool_decide; [|done]. exists (k ++ ids). split; [done|].
  apply after_is_suffix in Hrest. by apply suffix_app_r.
Qed.

Lemma check_order_suffix ids ids' entry rest :
  ids `suffix_of` ids' → check_order ids entry = Some rest →
  ∃ rest', check_order ids' entry = Some rest' ∧ rest `suffix_of` rest'.
Proof.
  unfold check_order. intros Hs H.
  destruct (en_effect entry) as [message| | | | | | | | | | | | | | | | | | | | | | | | | | | |];
    try (injection H as <-; by eexists).
  destruct message; try (injection H as <-; by eexists). by eapply after_suffix.
Qed.

Lemma monitor_order_suffix ids ids' entries rest :
  ids `suffix_of` ids' → monitor check_order ids entries = Some rest → is_Some (monitor check_order ids' entries).
Proof.
  revert ids ids'. induction entries as [|entry entries IH]; intros ids ids' Hs; cbn; [by eexists|].
  destruct (check_order ids entry) as [ids1|] eqn:E; [|done]. cbn. intros H.
  destruct (check_order_suffix _ _ _ _ Hs E) as (ids1' & -> & Hs1). cbn. by eapply IH.
Qed.

(** the post phases of the actions of a job run in the reverse of the order in
    which the actions registered them, each at most once: the post steps that
    start are a subsequence of the reversed list. *)
Theorem posts_run_last_first registered status t l :
  ∃ rest, monitor check_order (post_id <$> reverse registered)
            (drop (length t) (run_posts (reverse registered) status t l).1.1) = Some rest.
Proof.
  generalize (reverse registered). intros posts. clear registered.
  enough (∃ added rest, (run_posts posts status t l).1.1 = t ++ added ∧
            monitor check_order (post_id <$> posts) added = Some rest) as (added & rest & -> & H).
  { rewrite drop_app_length. by exists rest. }
  revert status t l. induction posts as [|post posts IH]; intros status t l.
  { exists [], []. by rewrite app_nil_r. }
  cbn [JobRun.run_posts]. case_bool_decide.
  { exists [], (post_id <$> post :: posts). by rewrite app_nil_r. }
  rewrite fmap_cons.
  destruct (run_post_order post status (post_id <$> posts) t l _ eq_refl) as (added & x & Ht & Hm & Hx).
  unfold bind at 1. destruct (run_post post status t l) as [[t' l'] [[status' ran]|e|]]; cbn [fst snd] in *; subst t'.
  2-3: by exists added, x.
  destruct ran; cbn [negb].
  - destruct Hx as [-> | [[[? [=]] _] | [=]]].
    unfold bind at 1, perform. destruct (oracle (t ++ added) EJobTimedOut) eqn:Eo.
    + eexists (added ++ [_]), _. split; [by rewrite app_assoc|]. rewrite monitor_app, Hm. done.
    + destruct (IH status' ((t ++ added) ++ [mkEntry EJobTimedOut false]) l') as (added' & rest & Ht & Hm').
      rewrite Ht. exists (added ++ mkEntry EJobTimedOut false :: added'), rest.
      split; [by rewrite <-!app_assoc|]. rewrite monitor_app, Hm. exact Hm'.
  - destruct (IH status' (t ++ added) l') as (added' & rest & -> & Hm').
    destruct Hx as [-> | [[_ ->] | [=]]].
    + exists (added ++ added'), rest. split; [by rewrite app_assoc|]. by rewrite monitor_app, Hm.
    + destruct (monitor_order_suffix (post_id <$> posts) (post_id post :: (post_id <$> posts)) added' rest) as [rest' Hr];
        [by apply suffix_cons_r | done |].
      exists (added ++ added'), rest'. split; [by rewrite app_assoc|]. by rewrite monitor_app, Hm.
Qed.
End posts.
