(* ===== verification/JobOutcome.v ===== *)
(** * The conclusion of a job

    The invariant of the loop over the steps, and what the status at its end says
    of the steps that are recorded. *)

From S2P Require Import Prelude RustStr UnixPath OrdMap Yaml Expression Evaluate Workflow Matrix Scheduler.
From S2P Require Import RustText CommandFile Masking Protocol ProblemMatcher MatcherRegistry WorkflowCommands.
From S2P Require Import JobContext Actions Runners Traced JobEffects JobSteps JobRun JobSafety.

Definition fine (conclusion : JobConclusion) : Prop := conclusion = JobSuccess ∨ conclusion = JobSkipped.

Lemma status_after_Success conclusion status :
  status_after conclusion status = Success → status = Success ∧ fine conclusion.
Proof. unfold fine. destruct conclusion; cbn; naive_solver. Qed.

Lemma aggregate_fine conclusions :
  fine (background_wait_conclusion conclusions) → ∀ conclusion, conclusion ∈ conclusions → fine conclusion.
Proof.
  unfold background_wait_conclusion. cbv zeta. intros H conclusion Hin.
  assert (fine (aggregate_conclusions conclusions)) as Ha.
  { destruct (decide (aggregate_conclusions conclusions = JobSkipped)) as [E|E]; [by right|].
    by rewrite bool_decide_false in H. }
  clear H. unfold aggregate_conclusions, fine in *.
  destruct (decide (JobFailure ∈ conclusions)); [rewrite bool_decide_true in Ha by done; naive_solver|].
  rewrite bool_decide_false in Ha by done.
  destruct (decide (JobTimedOut ∈ conclusions)); [rewrite bool_decide_true in Ha by done; naive_solver|].
  rewrite bool_decide_false in Ha by done.
  destruct (decide (JobCancelled ∈ conclusions)); [rewrite bool_decide_true in Ha by done; naive_solver|].
  destruct conclusion; naive_solver.
Qed.

Section loop.
Context `{VL : ValueLib} `{EL : ExpressionLib} `{JL : !JsonLib} `{JI : !JsonInterop} `{CL : CaptureLib}.

(** [recorded] are the executions whose JSON is in the [steps] context; [seen] the
    ids of the steps so far. *)
Record loop_inv (seen : list string) (recorded : gmap string StepExecution) (state : LoopState) : Prop := {
  inv_steps : ls_steps state = step_json <$> recorded;
  inv_seen id : is_Some (recorded !! id) ∨ id ∈ ls_background_order state → id ∈ seen;
  inv_status id execution :
    ls_status state = Success → recorded !! id = Some execution → id ∉ ls_background_order state →
    fine (se_conclusion execution);
  inv_order id : id ∈ ls_background_order state ↔ is_Some (ls_background state !! id);
  inv_waiting id runtime :
    ls_background state !! id = Some runtime → br_flushed runtime = false →
    is_Some (br_task runtime) ∧ recorded !! id = None;
  inv_flushed id runtime :
    ls_background state !! id = Some runtime → br_flushed runtime = true →
    br_task runtime = None ∧
    ∃ execution, recorded !! id = Some execution ∧ br_conclusion runtime = Some (se_conclusion execution);
}.

Definition loop_ok (seen : list string) (state : LoopState) : Prop := ∃ recorded, loop_inv seen recorded state.

Lemma loop_start_ok : loop_ok [] loop_start.
Proof.
  exists ∅. split; cbn.
  - by rewrite fmap_empty.
  - intros id [[? H] | H]; [by rewrite lookup_empty in H | done].
  - intros id execution _ H. by rewrite lookup_empty in H.
  - intros id. rewrite lookup_empty. split; [by intros ?%elem_of_nil | by intros []].
  - intros id runtime H. by rewrite lookup_empty in H.
  - intros id runtime H. by rewrite lookup_empty in H.
Qed.

(** ** Steps of the loop *)

(** A task that just started: its handle has not been awaited. *)
Definition started (runtime : BackgroundStepRuntime) : Prop := is_Some (br_task runtime) ∧ br_flushed runtime = false.

Lemma spawn_ok seen state id runtime :
  loop_ok seen state → id ∉ seen → started runtime → loop_ok (id :: seen) (spawn id runtime state).
Proof.
  intros [recorded Hinv] Hfresh [Htask Hflushed]. exists recorded.
  assert (recorded !! id = None) as Hnone.
  { apply eq_None_not_Some. intros H. apply Hfresh, (inv_seen _ _ _ Hinv). by left. }
  unfold spawn. split; unfold_updates.
  - apply (inv_steps _ _ _ Hinv).
  - intros id' [H | [H | ->%list_elem_of_singleton]%elem_of_app].
    + apply list_elem_of_further, (inv_seen _ _ _ Hinv). by left.
    + apply list_elem_of_further, (inv_seen _ _ _ Hinv). by right.
    + apply list_elem_of_here.
  - intros id' execution Hs Hr Hin. apply (inv_status _ _ _ Hinv id'); [done..|].
    intros H. apply Hin, elem_of_app. by left.
  - intros id'. rewrite elem_of_app, list_elem_of_singleton, (inv_order _ _ _ Hinv), lookup_insert_is_Some. 
    destruct (decide (id = id')) as [->|Hne]; naive_solver.
  - intros id' r [[<- <-] | [Hne H]]%lookup_insert_Some Hf; [by split|].
    by apply (inv_waiting _ _ _ Hinv).
  - intros id' r [[<- <-] | [Hne H]]%lookup_insert_Some Hf; [congruence|].
    by apply (inv_flushed _ _ _ Hinv).
Qed.

Lemma record_step_ok seen state id execution :
  loop_ok seen state → id ∉ seen → loop_ok (id :: seen) (record_step id execution state).
Proof.
  intros [recorded Hinv] Hfresh. exists (<[id := execution]> recorded).
  assert (id ∉ ls_background_order state) as Horder.
  { intros H. apply Hfresh, (inv_seen _ _ _ Hinv). by right. }
  unfold record_step. split; unfold_updates.
  - by rewrite fmap_insert, (inv_steps _ _ _ Hinv).
  - intros id'. rewrite lookup_insert_is_Some. intros [[-> | [_ H]] | H]; [apply list_elem_of_here| |];
      apply list_elem_of_further, (inv_seen _ _ _ Hinv); auto.
  - intros id' execution' [Hs Hfine]%status_after_Success [[<- <-] | [Hne H]]%lookup_insert_Some Hin; [done|].
    by apply (inv_status _ _ _ Hinv id').
  - apply (inv_order _ _ _ Hinv).
  - intros id' runtime H Hf. destruct (inv_waiting _ _ _ Hinv id' runtime H Hf) as [? Hnone]. split; [done|].
    rewrite lookup_insert_ne; [done|]. intros <-. apply Horder, (inv_order _ _ _ Hinv). by eexists.
  - intros id' runtime H Hf. destruct (inv_flushed _ _ _ Hinv id' runtime H Hf) as (? & e & ? & ?). split; [done|].
    exists e. rewrite lookup_insert_ne; [done|]. intros <-. apply Horder, (inv_order _ _ _ Hinv). by eexists.
Qed.

Lemma cancel_explicitly_ok seen state id : loop_ok seen state → loop_ok seen (cancel_explicitly id state).
Proof.
  intros [recorded Hinv]. unfold cancel_explicitly.
  destruct (ls_background state !! id) as [runtime|] eqn:E; [|by exists recorded].
  exists recorded. split; unfold_updates; [apply (inv_steps _ _ _ Hinv) | apply (inv_seen _ _ _ Hinv) |
    apply (inv_status _ _ _ Hinv) | | |].
  - intros id'. rewrite (inv_order _ _ _ Hinv), lookup_insert_is_Some.
    destruct (decide (id = id')) as [->|]; [|naive_solver]. rewrite E. naive_solver.
  - intros id' r [[<- <-] | [_ H]]%lookup_insert_Some Hf; [|by apply (inv_waiting _ _ _ Hinv)].
    by apply (inv_waiting _ _ _ Hinv id runtime).
  - intros id' r [[<- <-] | [_ H]]%lookup_insert_Some Hf; [|by apply (inv_flushed _ _ _ Hinv)].
    by apply (inv_flushed _ _ _ Hinv id runtime).
Qed.

(** ** Joining *)

(** What joining keeps: the status, the order, the flags; flushed steps stay so. *)
Definition joined (state state' : LoopState) : Prop :=
  ls_status state' = ls_status state ∧ ls_background_order state' = ls_background_order state ∧
  (∀ id runtime, ls_background state !! id = Some runtime → ∃ runtime', ls_background state' !! id = Some runtime' ∧
     br_explicitly_cancelled runtime' = br_explicitly_cancelled runtime ∧
     (br_flushed runtime = true → runtime' = runtime)).

Lemma joined_refl state : joined state state.
Proof. split_and!; [done..|]. intros id runtime H. by exists runtime. Qed.

Lemma joined_trans a b c : joined a b → joined b c → joined a c.
Proof.
  intros (Hs & Ho & Hr) (Hs' & Ho' & Hr'). split_and!; [congruence..|].
  intros id runtime H. destruct (Hr _ _ H) as (r1 & H1 & He1 & Hf1). destruct (Hr' _ _ H1) as (r2 & H2 & He2 & Hf2).
  exists r2. split_and!; [done | congruence|]. intros Hf. rewrite <-(Hf1 Hf). apply Hf2. by rewrite Hf1.
Qed.

Definition is_flushed (state : LoopState) (id : string) : Prop :=
  ∀ runtime, ls_background state !! id = Some runtime → br_flushed runtime = true.

Lemma record_completion_ok seen state id runtime completion :
  loop_ok seen state → ls_background state !! id = Some runtime → br_flushed runtime = false →
  let state' := record_completion id (runtime <| br_task := None |>) completion state in
  loop_ok seen state' ∧ joined state state' ∧ is_flushed state' id.
Proof.
  intros [recorded Hinv] Hid Hf state'. subst state'.
  unfold record_completion. cbn [br_flushed set_field]. unfold_updates. rewrite Hf.
  assert (id ∈ ls_background_order state) as Horder by (apply (inv_order _ _ _ Hinv); by eexists).
  split_and!.
  - exists (<[id := bc_execution completion]> recorded). split; cbn.
    + by rewrite fmap_insert, (inv_steps _ _ _ Hinv).
    + intros id'. rewrite lookup_insert_is_Some. intros [[-> | [_ H]] | H]; apply (inv_seen _ _ _ Hinv); auto.
    + intros id' execution Hs [[<- <-] | [Hne H]]%lookup_insert_Some Hin; [done|].
      by apply (inv_status _ _ _ Hinv id').
    + intros id'. rewrite (inv_order _ _ _ Hinv), lookup_insert_is_Some.
      destruct (decide (id = id')) as [->|]; [|naive_solver]. rewrite Hid. naive_solver.
    + intros id' r [[<- <-] | [Hne H]]%lookup_insert_Some Hr; [done|].
      rewrite lookup_insert_ne by done. by apply (inv_waiting _ _ _ Hinv).
    + intros id' r [[<- <-] | [Hne H]]%lookup_insert_Some Hr.
      * split; [done|]. exists (bc_execution completion). by rewrite lookup_insert_eq.
      * rewrite lookup_insert_ne by done. by apply (inv_flushed _ _ _ Hinv).
  - split_and!; [done | done|]. intros id' r H. cbn.
    destruct (decide (id = id')) as [<-|Hne].
    + rewrite lookup_insert_eq. eexists. split; [done|]. rewrite Hid in H. injection H as <-. cbn. split; [done|]. by rewrite Hf.
    + rewrite lookup_insert_ne by done. by exists r.
  - intros r. cbn. rewrite lookup_insert_eq. by intros [= <-].
Qed.

(** ** The programs *)

Context (hash_files : string → list string → outcome ExpressionError string).
Context (shell_split : string → option (list string)).
Context (uuid_display : Uuid → string) (process_path : option string) (arch : string).
Context (oracle : Oracle) (nesting : nat) (job_id : Uuid) (event_job_id workflow_name : string) (job : PlannedJob)
  (run : RunSpec JValue) (completed_bases : gmap string JobConclusion)
  (completed_outputs : gmap string (gmap string string)) (workspace run_dir : string)
  (reusable_inputs : JValue) (cache_mode : string).

Notation flush_one := (flush_one process_path oracle).
Notation flush_background_steps := (flush_background_steps process_path oracle).
Notation control_step := (control_step hash_files process_path oracle job_id event_job_id workflow_name).
Notation job_step := (job_step hash_files shell_split uuid_display process_path arch oracle nesting job_id event_job_id
  workflow_name job run completed_bases completed_outputs workspace run_dir reusable_inputs cache_mode).
Notation run_steps := (run_steps hash_files shell_split uuid_display process_path arch oracle nesting job_id event_job_id
  workflow_name job run completed_bases completed_outputs workspace run_dir reusable_inputs cache_mode).
Notation join_rest := (join_rest process_path oracle).

Lemma is_flushed_joined state state' id : joined state state' → is_Some (ls_background state !! id) → is_flushed state id →
  is_flushed state' id.
Proof.
  intros (_ & _ & Hr) [runtime H] Hf r Hr'. destruct (Hr _ _ H) as (r' & H' & _ & Heq).
  specialize (Hf _ H). rewrite Heq in H' by done. congruence.
Qed.

Lemma flush_one_yields seen id state :
  loop_ok seen state →
  yields (flush_one id state)
    (λ result, loop_ok seen result.1 ∧ joined state result.1 ∧
               (is_Some (ls_background state !! id) → is_flushed result.1 id)).
Proof.
  intros Hok. unfold JobRun.flush_one. destruct (ls_background state !! id) as [runtime|] eqn:E.
  2: { apply yields_ret. split_and!; [done | apply joined_refl | by intros []]. }
  destruct Hok as [recorded Hinv].
  destruct (br_flushed runtime) eqn:Hf.
  - destruct (inv_flushed _ _ _ Hinv _ _ E Hf) as [-> _]. apply yields_ret.
    split_and!; [by exists recorded | apply joined_refl|]. intros _ r Hr. cbn in Hr. congruence.
  - destruct (inv_waiting _ _ _ Hinv _ _ E Hf) as [[task ->] _].
    apply yields_then. intros completion. apply yields_then. intros _. cbv zeta. apply yields_ret. cbn [fst].
    destruct (record_completion_ok seen state id runtime completion) as (? & ? & ?); [by exists recorded | done | done|].
    by split_and!.
Qed.

Lemma flush_background_steps_yields seen ids state :
  loop_ok seen state →
  yields (flush_background_steps ids state)
    (λ result, loop_ok seen result.1 ∧ joined state result.1 ∧
               ∀ id, id ∈ ids → is_Some (ls_background state !! id) → is_flushed result.1 id).
Proof.
  revert state. induction ids as [|id ids IH]; intros state Hok; cbn [JobRun.flush_background_steps].
  { apply yields_ret. split_and!; [done | apply joined_refl|]. by intros id ?%elem_of_nil. }
  eapply yields_bind; [by apply flush_one_yields|]. intros [state1 conclusion] (Hok1 & Hj1 & Hf1). cbn [fst] in *.
  eapply yields_bind; [by apply IH|]. intros [state2 conclusions] (Hok2 & Hj2 & Hf2). cbn [fst] in *.
  apply yields_ret. cbn [fst].
  assert (∀ other, is_Some (ls_background state !! other) → is_Some (ls_background state1 !! other)) as Hdom.
  { intros other [r Hr]. destruct Hj1 as (_ & _ & Hj1). destruct (Hj1 _ _ Hr) as (r' & ? & _). by eexists. }
  split_and!; [done | by eapply joined_trans|].
  intros other [-> | Hin]%elem_of_cons Hs; [|by apply Hf2; auto].
  apply (is_flushed_joined state1); [done | auto | auto].
Qed.

Lemma control_step_yields seen rendered_job_name step context state :
  loop_ok seen state → ps_id step ∉ seen →
  yields (control_step rendered_job_name step context state) (loop_ok (ps_id step :: seen)).
Proof.
  intros Hok Hfresh. unfold JobRun.control_step. cbv zeta. apply yields_then. intros step_name.
  apply yields_then. intros _.
  set (state1 := if is_cancel (ps_kind step) then _ else state).
  assert (loop_ok seen state1) as Hok1.
  { unfold state1. destruct (is_cancel _); [|done]. generalize (target_ids (ps_kind step) state). intros targets.
    clear state1. revert state Hok. induction targets as [|target targets IH]; intros state Hok; [done|].
    cbn [fold_left]. by apply IH, cancel_explicitly_ok. }
  eapply yields_bind; [by apply (flush_background_steps_yields seen)|]. intros [state2 conclusions] (Hok2 & _). cbn [fst] in Hok2.
  apply yields_then. intros continue_on_error. apply yields_then. intros _. apply yields_ret.
  by apply (record_step_ok seen).
Qed.

Lemma start_background_step_yields rendered_job_name step job_environment context status :
  yields (start_background_step hash_files shell_split uuid_display process_path oracle nesting job_id event_job_id
            workflow_name workspace run_dir cache_mode rendered_job_name step job_environment context status) started.
Proof.
  unfold start_background_step. apply yields_then. intros _. apply yields_then. intros [result own].
  apply yields_then. intros _. cbv zeta. apply yields_ret. by split; [eexists|].
Qed.

Lemma job_step_yields seen rendered_job_name variables managed_secrets step state :
  loop_ok seen state → ps_id step ∉ seen →
  yields (job_step rendered_job_name variables managed_secrets step state) (λ result, loop_ok (ps_id step :: seen) result.1).
Proof.
  intros Hok Hfresh. unfold JobRun.job_step.
  apply yields_then. intros token. apply yields_then. intros job_environment. apply yields_then. intros context.
  apply yields_then. intros is_background.
  destruct (runs_in_background (ps_kind step) && is_background).
  { eapply yields_bind; [apply start_background_step_yields|]. intros runtime Hstarted.
    apply yields_ret. by apply spawn_ok. }
  destruct (negb (runs_in_background (ps_kind step))).
  - eapply yields_bind; [by apply (control_step_yields seen)|]. intros state' Hok'. by apply yields_ret.
  - apply yields_then. intros execution. cbv zeta. pose proof (record_step_ok seen state (ps_id step) execution Hok Hfresh).
    case_match; [by apply yields_ret|]. apply yields_then. intros timed_out. by apply yields_ret.
Qed.

Lemma cancelled_ok seen state : loop_ok seen state → loop_ok seen (state <| ls_status := Cancelled |>).
Proof.
  intros [recorded Hinv]. exists recorded. split; unfold_updates; try apply Hinv. done.
Qed.

Lemma run_steps_yields seen rendered_job_name variables managed_secrets steps state :
  loop_ok seen state → NoDup (ps_id <$> steps) → (∀ step, step ∈ steps → ps_id step ∉ seen) →
  yields (run_steps rendered_job_name variables managed_secrets steps state) (λ state', ∃ seen', loop_ok seen' state').
Proof.
  revert seen state. induction steps as [|step steps IH]; intros seen state Hok Hnd Hfresh; cbn [JobRun.run_steps].
  { apply yields_ret. by exists seen. }
  rewrite fmap_cons in Hnd. apply NoDup_cons in Hnd as [Hnew Hnd].
  apply yields_then. intros []; [apply yields_ret; exists seen; by apply cancelled_ok|].
  eapply yields_bind; [apply (job_step_yields seen); [done | apply Hfresh, list_elem_of_here]|].
  intros [state' stop] Hok'. cbn [fst] in Hok'. destruct stop; [apply yields_ret; by eexists|].
  eapply (IH (ps_id step :: seen)); [done..|].
  intros other Hin [Heq | Hseen]%elem_of_cons.
  - apply Hnew. rewrite <-Heq. by apply list_elem_of_fmap_2.
  - by eapply Hfresh; [apply list_elem_of_further|].
Qed.

(** The steps of a job with its background steps joined. *)
Definition all_steps (rendered_job_name : string) (variables managed_secrets : gmap string string)
    : JobEffects.Act Locals LoopState :=
  bind (run_steps rendered_job_name variables managed_secrets (pj_steps job) loop_start) join_rest.

(** Every background step of [state] has been joined and recorded. *)
Definition background_steps_are_recorded (state : LoopState) : Prop :=
  ∀ id, id ∈ ls_background_order state →
    ∃ runtime, ls_background state !! id = Some runtime ∧ br_flushed runtime = true ∧ is_Some (ls_steps state !! id).

(** Every recorded step succeeded or was skipped, except background steps that a
    [cancel] step stopped. *)
Definition recorded_steps_are_fine (state : LoopState) : Prop :=
  ∀ id value, ls_steps state !! id = Some value →
    ∃ execution, value = step_json execution ∧
      (fine (se_conclusion execution) ∨
       se_conclusion execution = JobCancelled ∧
       ∃ runtime, ls_background state !! id = Some runtime ∧ br_explicitly_cancelled runtime = true).

Lemma all_steps_yields rendered_job_name variables managed_secrets :
  NoDup (ps_id <$> pj_steps job) →
  yields (all_steps rendered_job_name variables managed_secrets) (λ state,
    background_steps_are_recorded state ∧ (ls_status state = Success → recorded_steps_are_fine state)).
Proof.
  intros Hnd.
  unfold all_steps.
  eapply yields_bind; [apply (run_steps_yields []); [apply loop_start_ok | done | by intros ? _ ?%elem_of_nil]|].
  intros state1 [seen Hok1]. unfold JobRun.join_rest.
  eapply yields_bind; [by apply (flush_background_steps_yields seen)|]. intros [state2 conclusions] (Hok2 & Hj & Hf).
  cbn [fst] in *. cbv zeta. apply yields_ret.
  unfold background_steps_are_recorded, recorded_steps_are_fine. unfold_updates.
  destruct Hok1 as [recorded1 Hinv1]. destruct Hok2 as [recorded Hinv].
  assert (∀ id, id ∈ ls_background_order state2 → is_flushed state2 id) as Hall.
  { intros id Hid. pose proof Hj as (_ & Ho & _). rewrite Ho in Hid.
    pose proof Hid as [runtime Hrt]%(inv_order _ _ _ Hinv1).
    destruct (br_flushed runtime) eqn:Ef.
    - apply (is_flushed_joined state1); [done | by eexists|]. intros r Hr'. congruence.
    - apply Hf; [|by eexists]. unfold unflushed. apply list_elem_of_filter. split; [|done].
      unfold is_unflushed. by rewrite Hrt, Ef. }
  split.
  - intros id Hid. pose proof Hid as [runtime Hrt]%(inv_order _ _ _ Hinv). exists runtime.
    pose proof (Hall _ Hid _ Hrt) as Hfl. split_and!; [done | done|].
    destruct (inv_flushed _ _ _ Hinv _ _ Hrt Hfl) as (_ & execution & He & _).
    rewrite (inv_steps _ _ _ Hinv), lookup_fmap, He. by eexists.
  - intros [Hs Hb]%status_after_Success id value Hv.
    rewrite (inv_steps _ _ _ Hinv), lookup_fmap in Hv. destruct (recorded !! id) as [execution|] eqn:He; [|done].
    injection Hv as <-. exists execution. split; [done|].
    destruct (decide (id ∈ ls_background_order state2)) as [Hid|Hid]; [|left; by eapply (inv_status _ _ _ Hinv)].
    pose proof Hid as [runtime Hrt]%(inv_order _ _ _ Hinv).
    destruct (inv_flushed _ _ _ Hinv _ _ Hrt (Hall _ Hid _ Hrt)) as (_ & execution' & He' & Hc).
    assert (execution' = execution) as -> by congruence.
    destruct (br_explicitly_cancelled runtime && bool_decide (se_conclusion execution = JobCancelled)) eqn:Ec.
    { apply andb_true_iff in Ec as [Ec Hcc%bool_decide_eq_true]. right. split; [done|]. by exists runtime. }
    left. refine (aggregate_fine _ Hb _ _). unfold background_conclusions.
    apply list_elem_of_omap. exists id. split; [done|]. rewrite Hrt. cbn. rewrite Hc. cbn. by rewrite Ec.
Qed.

(** C24: At the end of a job every background step has been joined and recorded,
    and when the status is success then every recorded step succeeded or was
    skipped, except background steps that a [cancel] step stopped. *)
Theorem job_status_covers_every_step rendered_job_name variables managed_secrets t l t' l' state :
  NoDup (ps_id <$> pj_steps job) →
  all_steps rendered_job_name variables managed_secrets t l = (t', l', Ok state) →
  background_steps_are_recorded state ∧ (ls_status state = Success → recorded_steps_are_fine state).
Proof.
  intros Hnd. exact (yields_Ok _ _ _ _ _ _ _ (all_steps_yields rendered_job_name variables managed_secrets Hnd)).
Qed.
End loop.

(** * The environment of a background step at its join

    What [merge_background_environment] makes of the variables and the PATH a
    background step leaves: joined before anything else changed the job's
    environment, a background step has the effect of the same step run in the
    foreground. *)

Lemma additions_from_spec count prefix_length initial final additions :
  additions_from count prefix_length initial final = Some additions →
  ∃ n, prefix_length ≤ n < prefix_length + count ∧ additions = take n final ∧ retained_entries initial additions = drop n final.
Proof.
  revert prefix_length. induction count as [|count IH]; intros prefix_length; cbn [additions_from]; [done|].
  cbv zeta. case_bool_decide as E.
  - intros [= <-]. exists prefix_length. split_and!; [lia..|done|done].
  - intros (n & ? & ? & ?)%IH. exists n. split_and!; [lia..|done|done].
Qed.

(** The prefix found and what it leaves of the initial path make the final path. *)
Lemma deferred_path_additions_spec initial final additions :
  deferred_path_additions initial final = Some additions → additions ++ retained_entries initial additions = final.
Proof. intros (n & _ & -> & ->)%additions_from_spec. apply take_drop. Qed.

Lemma split_path_join path : sjoin ":" (split_path path) = path.
Proof. unfold split_path. destruct path; [done|]. cbn [is_empty]. apply sjoin_split. Qed.

(** ** Variables other than PATH *)

Lemma lookup_merge_variables environment initial final name :
  merge_variables environment initial final !! name =
  if bool_decide (name ≠ "PATH" ∧ is_Some (final !! name) ∧ initial !! name ≠ final !! name) then final !! name
  else environment !! name.
Proof.
  unfold merge_variables. rewrite lookup_btree_extend.
  set (l := base.filter _ (btree_iter final)).
  assert (∀ k v, (k, v) ∈ l ↔ (k ≠ "PATH" ∧ initial !! k ≠ Some v) ∧ final !! k = Some v) as Hl.
  { intros k v. subst l. by rewrite list_elem_of_filter, elem_of_btree_iter. }
  destruct (btree_collect l !! name) as [v|] eqn:E.
  - apply lookup_btree_collect_Some, Hl in E as [[Hp Hi] Hf]. rewrite Hf.
    rewrite bool_decide_eq_true_2; [done|]. split_and!; [done | by eexists | done].
  - rewrite bool_decide_eq_false_2; [done|]. intros (Hp & [v Hv] & Hi).
    apply not_elem_of_dom in E. apply E, elem_of_dom_btree_collect, list_elem_of_fmap.
    exists (name, v). split; [done|]. apply Hl. split_and!; congruence.
Qed.

Lemma lookup_merge_other process_path environment initial final name :
  name ≠ "PATH" →
  merge_background_environment process_path environment initial final !! name =
  if bool_decide (is_Some (final !! name) ∧ initial !! name ≠ final !! name) then final !! name else environment !! name.
Proof.
  intros Hp. unfold merge_background_environment.
  assert (merge_variables environment initial final !! name =
    if bool_decide (is_Some (final !! name) ∧ initial !! name ≠ final !! name) then final !! name else environment !! name) as He.
  { rewrite lookup_merge_variables.
    case_bool_decide as H1; case_bool_decide as H2; tauto. }
  cbv zeta. destruct (bool_decide (path_of_environment _ _ = _)); [done|].
  destruct (deferred_path_additions _ _); by rewrite lookup_insert_ne.
Qed.

(** ** PATH *)

Lemma lookup_merge_path process_path initial final :
  path_of_environment process_path initial ≠ default "" (final !! "PATH") →
  merge_background_environment process_path initial initial final !! "PATH" = Some (default "" (final !! "PATH")).
Proof.
  intros Hne. unfold merge_background_environment. rewrite bool_decide_eq_false_2 by done.
  destruct (deferred_path_additions _ _) as [additions|] eqn:Ed; rewrite lookup_insert_eq; [|done].
  apply deferred_path_additions_spec in Ed. f_equal.
  unfold path_of_environment at 1. rewrite lookup_merge_variables.
  rewrite bool_decide_eq_false_2 by tauto. change (sjoin ":" (additions ++
    retained_entries (split_path (path_of_environment process_path initial)) additions) = default "" (final !! "PATH")).
  rewrite Ed. apply split_path_join.
Qed.

(** The environment as a process sees it: a job environment without PATH leaves
    the PATH of the agent's own process. *)
Definition same_environment (process_path : option string) (a b : gmap string string) : Prop :=
  (∀ name, name ≠ "PATH" → a !! name = b !! name) ∧ path_of_environment process_path a = path_of_environment process_path b.

(** a background step that is joined before anything else changed the job's
    environment leaves the environment the same step leaves in the foreground,
    provided it removed no variable and left a PATH (or there was none). *)
Theorem background_merge_is_sequential process_path initial final :
  (∀ name, is_Some (initial !! name) → is_Some (final !! name)) →
  (final !! "PATH" = None → default "" process_path = "") →
  same_environment process_path (merge_background_environment process_path initial initial final) final.
Proof.
  intros Hkept Hpath. split.
  - intros name Hname. rewrite lookup_merge_other by done. specialize (Hkept name).
    case_bool_decide as H; [done|].
    destruct (initial !! name) as [v|] eqn:Ei, (final !! name) as [v'|] eqn:Ef; [|by destruct Hkept| |done].
    + destruct (decide (Some v = Some v')); [done|]. by destruct H; split; [eexists|].
    + by destruct H; split; [eexists|].
  - destruct (decide (path_of_environment process_path initial = default "" (final !! "PATH"))) as [E|E].
    + unfold merge_background_environment. rewrite bool_decide_eq_true_2 by done.
      unfold path_of_environment in *. rewrite lookup_merge_variables, bool_decide_eq_false_2 by tauto.
      rewrite E. destruct (final !! "PATH"); [done|]. by rewrite Hpath.
    + unfold path_of_environment at 1. rewrite lookup_merge_path by done.
      unfold path_of_environment. destruct (final !! "PATH"); [done|]. by rewrite Hpath.
Qed.

(** where neither the job nor the background step sets PATH and the agent's
    process has one, the join sets PATH to the empty string. *)
Theorem background_merge_clears_path process_path path initial final :
  process_path = Some path → path ≠ "" → initial !! "PATH" = None → final !! "PATH" = None →
  merge_background_environment process_path initial initial final !! "PATH" = Some "".
Proof.
  intros -> Hp Hi Hf. rewrite lookup_merge_path; rewrite Hf; [done|].
  unfold path_of_environment. by rewrite Hi.
Qed.

(** whatever other steps did to PATH meanwhile, an entry the background step
    added is in the job's PATH after the join and every entry of the job's PATH
    stays there, if the step's path is the one it began with after additions. *)
Theorem background_merge_keeps_paths process_path environment initial final additions :
  path_of_environment process_path initial ≠ default "" (final !! "PATH") →
  deferred_path_additions (split_path (path_of_environment process_path initial))
    (split_path (default "" (final !! "PATH"))) = Some additions →
  ∃ entries, merge_background_environment process_path environment initial final !! "PATH" = Some (sjoin ":" entries) ∧
    entries = additions ++ retained_entries (split_path (path_of_environment process_path environment)) additions ∧
    (∀ entry, entry ∈ entries ↔
       entry ∈ additions ∨ entry ∈ split_path (path_of_environment process_path environment)).
Proof.
  intros Hne Hd. eexists. unfold merge_background_environment. rewrite bool_decide_eq_false_2, Hd by done.
  rewrite lookup_insert_eq. split_and!; [|reflexivity|].
  - unfold path_of_environment. by rewrite lookup_merge_variables, bool_decide_eq_false_2 by tauto.
  - intros entry. unfold retained_entries. rewrite elem_of_app, list_elem_of_filter.
    destruct (decide (entry ∈ additions)); tauto.
Qed.
