(* ===== verification/BaseGroup.v ===== *)
(** * The instances of a base job (crates/gitzero-agent, executor.rs)

    [execute_base_group]: the condition of a base job, the concurrency scopes it
    opens or closes, its virtual or dynamic forms, and the instances of its
    matrix, which run concurrently.  The part before the instances is a function;
    the instances are a transition system whose events are what the surroundings
    decide (slots, leases, the ends of jobs, the cancellation of the run). *)

From S2P Require Import Prelude RustStr UnixPath OrdMap Yaml Expression Evaluate Workflow Matrix Protocol.
From S2P Require Import Expansion Scheduler JobContext Actions JobEffects JobSteps JobRun.

(** ** Concurrency scopes of called workflows *)

(** What [ConcurrencyClient::acquire] returns; a lease is known by its request. *)
Inductive Acquisition :=
  | Acquired (lease : Uuid)
  | AcquisitionCancelled (reason : string)
  | AcquisitionFailed (error : string).

(** [ActiveConcurrencyScopes], with the leases acquired and released so far. *)
Record Scopes := mkScopes {
  sc_active : gmap string Uuid;
  sc_acquired : list Uuid;
  sc_released : list Uuid;
}.

#[export] Instance Scopes_updatable : Updatable Scopes := λ s, mkScopes (sc_active s) (sc_acquired s) (sc_released s).

Definition Request : Type := string * bool * ConcurrencyQueue.

Section scopes.
Context `{VL : ValueLib} `{EL : ExpressionLib} `{JL : !JsonLib} `{JI : !JsonInterop}.
Context (hash_files : string → list string → outcome ExpressionError string).
Context (acquire : Scopes → string → Request → list Uuid → Acquisition) (release : Scopes → Uuid → outcome string unit).

(** The scopes among [scope_ids] that are active, taken out. *)
Definition remove_scopes (scope_ids : list string) (active : gmap string Uuid) : list Uuid * gmap string Uuid :=
  fold_left (λ '(leases, active) scope_id,
    match active !! scope_id with
    | Some lease => (leases ++ [lease], delete scope_id active)
    | None => (leases, active)
    end) scope_ids ([], active).

(** Every lease is released, the first error is kept. *)
Fixpoint release_leases (leases : list Uuid) (first_error : outcome string unit) (s : Scopes) : Scopes * outcome string unit :=
  match leases with
  | [] => (s, first_error)
  | lease :: leases =>
      let result := release s lease in
      release_leases leases (match first_error with Ok _ => result | Err _ | Panic => first_error end)
        (s <| sc_released := sc_released s ++ [lease] |>)
  end.

Definition release_concurrency_scopes (scope_ids : list string) (s : Scopes) : Scopes * outcome string unit :=
  let '(leases, active) := remove_scopes scope_ids (sc_active s) in
  release_leases leases (Ok tt) (s <| sc_active := active |>).

(** [release_concurrency_scopes(&acquired, active).await?; return result] *)
Definition hand_back {A : Type} (acquired : list string) (result : outcome string A) (s : Scopes) : Scopes * outcome string A :=
  let '(s, released) := release_concurrency_scopes acquired s in (s, released ;? result).

Definition scope_request (job : PlannedJob) (base_context : EvaluationContext) (scope : PlannedConcurrencyScope)
    : outcome string Request :=
  let? inputs := resolve_reusable_inputs hash_files (job <| pj_reusable_input_scopes := cs_reusable_input_scopes scope |>)
                   base_context in
  let? context := insert_json_root "inputs" inputs base_context in
  resolve_concurrency hash_files (cs_configuration scope) context (cs_id scope).

(** The cancellations of the scopes around a job. *)
Definition active_cancellations (scope_ids : list string) (s : Scopes) : list Uuid :=
  omap (λ scope_id, sc_active s !! scope_id) scope_ids.

Fixpoint acquire_scopes (job : PlannedJob) (base_context : EvaluationContext) (scopes : list PlannedConcurrencyScope)
    (acquired : list string) (s : Scopes) : Scopes * outcome string bool :=
  match scopes with
  | [] => (s, Ok true)
  | scope :: scopes =>
      if is_some (sc_active s !! cs_id scope) then
        hand_back acquired (Err ("concurrency scope '" +:+ cs_id scope +:+ "' was acquired more than once")) s
      else
        match scope_request job base_context scope with
        | Err error => hand_back acquired (Err error) s
        | Panic => (s, Panic)
        | Ok request =>
            match acquire s ("scope:" +:+ cs_id scope) request (active_cancellations (pj_concurrency_scope_ids job) s) with
            | AcquisitionCancelled _ => hand_back acquired (Ok false) s
            | AcquisitionFailed error => hand_back acquired (Err error) s
            | Acquired lease =>
                acquire_scopes job base_context scopes (acquired ++ [cs_id scope])
                  (s <| sc_active := <[cs_id scope := lease]> (sc_active s) |> <| sc_acquired := sc_acquired s ++ [lease] |>)
            end
        end
  end.

Definition acquire_concurrency_scopes (job : PlannedJob) (base_context : EvaluationContext) (s : Scopes)
    : Scopes * outcome string bool :=
  acquire_scopes job base_context (pj_concurrency_acquire job) [] s.

(** The cancellations the scheduler gives a base job. *)
Definition concurrency_scope_cancellations (jobs : list PlannedJob) (s : Scopes) : list Uuid :=
  active_cancellations (set_iter (list_to_set (concat (pj_concurrency_scope_ids <$> jobs)))) s.

(** ** Before the instances *)

Context (arch workflow_name : string) (plan_index : nat) (base_id : string) (run : RunSpec JValue).
Context (completed_bases : gmap string JobConclusion) (completed_outputs : gmap string (gmap string string))
  (completion_order : list string) (repository_dir run_dir : string) (environment : gmap string string).
Context (report_skipped : string → string → string → outcome string unit).

Definition base_template (instances : list PlannedJob) : outcome string PlannedJob :=
  let? first := ok_or (head instances) "base job has no instances" in
  Ok (first <| pj_matrix := ∅ |>).

(** The context of the condition and the inputs of the workflow. *)
Definition condition_context (template : PlannedJob) (status : ExecutionStatus) : outcome string (EvaluationContext * JValue) :=
  let? context := expression_context arch run template completed_bases completed_outputs environment (JObject ∅) (JObject ∅)
                    status repository_dir run_dir None in
  let? reusable_inputs := resolve_reusable_inputs hash_files template context in
  let? context := insert_json_root "inputs" reusable_inputs context in
  Ok (context, reusable_inputs).

Inductive Opening :=
  | OpenDone (execution : BaseExecution)
  | OpenInstances (instances : list PlannedJob) (reusable_inputs : JValue).

Definition empty_execution (conclusion : JobConclusion) : BaseExecution := mkExecution base_id conclusion 0 ∅ [].

Definition always (job : PlannedJob) : PlannedJob := job <| pj_condition := Some always_condition |>.

Definition skip_base_group (template : PlannedJob) (context : EvaluationContext) : outcome string Opening :=
  let? name := match render hash_files context (pj_name template) with
               | Ok name => Ok name
               | Err _ => Ok (pj_name template)
               | Panic => Panic
               end in
  report_skipped (pretty plan_index +:+ "/" +:+ base_id) (workflow_name +:+ " / " +:+ name)
    "Job condition evaluated to false before matrix expansion." ;?
  Ok (OpenDone (empty_execution JobSkipped)).

Definition expand_instances (instances : list PlannedJob) (what : string) (reusable_inputs : JValue)
    : outcome string (list PlannedJob) :=
  match instances with
  | [template] => expand_dynamic_matrix_job hash_files arch workflow_name template run completed_bases completed_outputs
                    repository_dir run_dir environment reusable_inputs
  | _ => Err (what +:+ " job '" +:+ base_id +:+ "' has multiple templates")
  end.

Definition open_virtual (template : PlannedJob) (virtual_job : PlannedVirtualJob) (context : EvaluationContext) (s : Scopes)
    : Scopes * outcome string Opening :=
  let execution := execute_virtual_job hash_files base_id virtual_job completed_bases completed_outputs completion_order context in
  let '(s, released) := release_concurrency_scopes (pj_concurrency_release template) s in
  (s, let? execution := execution in released ;? Ok (OpenDone execution)).

Definition open_instances (instances : list PlannedJob) (reusable_inputs : JValue) : outcome string Opening :=
  let? instances :=
    if is_some (head instances ≫= pj_dynamic_matrix) then expand_instances instances "dynamic matrix" reusable_inputs
    else Ok instances in
  let? _ := ok_or (head instances) "base job has no instances" in
  Ok (OpenInstances (always <$> instances) reusable_inputs).

Definition open_allowed (instances : list PlannedJob) (template : PlannedJob) (context : EvaluationContext)
    (reusable_inputs : JValue) (s : Scopes) : Scopes * outcome string Opening :=
  match pj_virtual_job template with
  | Some (ReusableDynamicCall plan inputs secrets outputs) =>
      (s, let? matrix_instances := expand_instances instances "dynamic reusable-call" reusable_inputs in
          let? jobs := map_err (λ _, "")           (* it is never an error *)
            (expand_dynamic_reusable_call template (always <$> matrix_instances) plan inputs secrets outputs) in
          Ok (OpenDone (mkExecution base_id JobSuccess 0 ∅ jobs)))
  | Some virtual_job => open_virtual template virtual_job context s
  | None => (s, open_instances instances reusable_inputs)
  end.

Definition open_base_group (instances : list PlannedJob) (s : Scopes) : Scopes * outcome string Opening :=
  match (let? template := base_template instances in
         let? status := dependency_status (pj_needs template) completed_bases in
         let? '(context, reusable_inputs) := condition_context template status in
         let? allowed := step_allows hash_files (pj_condition template) status context in
         Ok (template, context, reusable_inputs, allowed)) with
  | Err error => (s, Err error)
  | Panic => (s, Panic)
  | Ok (template, context, reusable_inputs, allowed) =>
      if negb allowed then (s, skip_base_group template context)
      else
        let '(s, acquired) := if is_nil (pj_concurrency_acquire template) then (s, Ok true)
                              else acquire_concurrency_scopes template context s in
        match acquired with
        | Err error => (s, Err error)
        | Panic => (s, Panic)
        | Ok false => (s, Ok (OpenDone (empty_execution JobCancelled)))
        | Ok true => open_allowed instances template context reusable_inputs s
        end
  end.
End scopes.

(** ** The instances *)

(** Where the future of an instance waits. *)
Inductive InstancePhase :=
  | Created
  | AwaitingMatrixSlot
  | AwaitingLease (request : Request)
  | AwaitingSlot (leased : bool)
  | Executing (leased : bool)
  | Releasing (concurrency_cancelled : bool) (result : outcome string JobExecution)
  | Ended (result : outcome string JobExecution)
  | Taken (execution : JobExecution).

Record Group := mkGroup {
  gr_phases : list InstancePhase;
  gr_cancelled : bool;                     (** [*cancel.borrow()] *)
  gr_fail_fast : bool;                     (** [*fail_fast.borrow()] *)
  gr_lease_cancelled : gset nat;           (** leases whose cancellation is set *)
  gr_leases : gset nat;                    (** instances that hold a lease *)
  gr_reported : list nat;                  (** instances reported as skipped *)
  gr_executed : list nat;                  (** instances that called [execute_job] *)
  gr_run_cancelled : bool;
  gr_error : option (outcome string Empty_set);      (** the first error taken *)
}.

#[export] Instance Group_updatable : Updatable Group := λ g,
  mkGroup (gr_phases g) (gr_cancelled g) (gr_fail_fast g) (gr_lease_cancelled g) (gr_leases g) (gr_reported g)
    (gr_executed g) (gr_run_cancelled g) (gr_error g).

Inductive GroupEvent :=
  | RunCancelled
  | LeaseCancelled (i : nat)
  | Polled (i : nat) (reported : outcome string unit)
  | MatrixSlot (i : nat) (reported : outcome string unit)
  | MatrixSlotCancelled (i : nat)
  | LeaseAnswered (i : nat) (answer : Acquisition)
  | ExecutionSlot (i : nat) (released reported : outcome string unit)
  | ExecutionSlotCancelled (i : nat) (released : outcome string unit)
  | JobEnded (i : nat) (result : outcome string JobExecution) (timed_out : bool)
  | LeaseReleased (i : nat) (released : outcome string unit) (timed_out : bool)
  | ResultTaken (i : nat).

Definition job_cancelled : JobExecution := mkJobExecution JobCancelled 0 ∅.
Definition job_timed_out : JobExecution := mkJobExecution JobTimedOut 0 ∅.

(** Phases in which the permit of the matrix is held. *)
Definition holds_matrix_slot (phase : InstancePhase) : bool :=
  match phase with
  | AwaitingLease _ | AwaitingSlot _ | Executing _ | Releasing _ _ => true
  | Created | AwaitingMatrixSlot | Ended _ | Taken _ => false
  end.

Definition matrix_slots_in_use (g : Group) : nat := length (base.filter (λ phase, holds_matrix_slot phase = true) (gr_phases g)).

Section instances.
Context `{VT : ValueTypes}.
Context (instances : list PlannedJob).
(** [resolve_job_concurrency] of an instance. *)
Context (concurrency : PlannedJob → outcome string (option Request)).

Definition matrix_parallelism : Z :=
  match head instances with
  | Some first => (1 `max` (default (Z.of_nat (length instances)) (pj_matrix_max_parallel first) `min` Z.of_nat (length instances)))%Z
  | None => 1
  end.

Definition group_start (cancelled : bool) : Group :=
  mkGroup (replicate (length instances) Created) cancelled false ∅ ∅ [] [] false None.

Definition goto (i : nat) (phase : InstancePhase) (g : Group) : Group :=
  g <| gr_phases := <[i := phase]> (gr_phases g) |>.

(** [report_skipped(...).await?; return Ok(skipped)] *)
Definition skip_instance (i : nat) (reported : outcome string unit) (g : Group) : Group :=
  match reported with
  | Ok _ => goto i (Ended (Ok job_skipped)) (g <| gr_reported := gr_reported g ++ [i] |>)
  | Err error => goto i (Ended (Err error)) g
  | Panic => goto i (Ended Panic) g
  end.

(** [if let Some(lease) = concurrency_lease { lease.release().await?; }] *)
Definition release_lease (i : nat) (leased : bool) (released : outcome string unit) (next : Group → Group) (g : Group) : Group :=
  if leased then
    let g := g <| gr_leases := gr_leases g ∖ {[i]} |> in
    match released with
    | Ok _ => next g
    | Err error => goto i (Ended (Err error)) g
    | Panic => goto i (Ended Panic) g
    end
  else next g.

Definition base_cancelled (g : Group) : bool := gr_cancelled g || gr_fail_fast g.

Definition effective_cancelled (i : nat) (leased : bool) (g : Group) : bool :=
  base_cancelled g || leased && bool_decide (i ∈ gr_lease_cancelled g).

(** The result of an instance from that of [execute_job]. *)
Definition instance_result (result : outcome string JobExecution) (timed_out concurrency_cancelled cancelled fail_fast : bool)
    : outcome string JobExecution :=
  match result with
  | Panic => Panic
  | Err error =>
      if timed_out then Ok job_timed_out
      else if concurrency_cancelled then Ok job_cancelled
      else if cancelled then Ok job_cancelled
      else if fail_fast && negb cancelled then Ok job_cancelled
      else Err error
  | Ok execution => Ok (if concurrency_cancelled then job_cancelled else execution)
  end.

Definition stops_matrix (conclusion : JobConclusion) : bool :=
  match conclusion with JobFailure | JobTimedOut => true | JobSuccess | JobCancelled | JobSkipped => false end.

(** What follows [execute_job] and the release of the lease. *)
Definition conclude_instance (i : nat) (job : PlannedJob) (concurrency_cancelled : bool) (result : outcome string JobExecution)
    (timed_out : bool) (g : Group) : Group :=
  let result := instance_result result timed_out concurrency_cancelled (gr_cancelled g) (gr_fail_fast g) in
  match result with
  | Ok execution =>
      let stops := stops_matrix (je_conclusion execution) && pj_matrix_fail_fast job in
      goto i (Ended result) (g <| gr_fail_fast := gr_fail_fast g || stops |>)
  | Err _ | Panic => goto i (Ended result) g
  end.

(** After the permit of the matrix: the concurrency group of the job. *)
Definition request_lease (i : nat) (job : PlannedJob) (g : Group) : Group :=
  match concurrency job with
  | Ok None => goto i (AwaitingSlot false) g
  | Ok (Some request) => goto i (AwaitingLease request) g
  | Err error => goto i (Ended (Err error)) g
  | Panic => goto i (Ended Panic) g
  end.

(** [let (instance_index, execution) = result?;] *)
Definition take_result (i : nat) (result : outcome string JobExecution) (g : Group) : Group :=
  match result with
  | Ok execution =>
      goto i (Taken execution)
        (g <| gr_run_cancelled := gr_run_cancelled g ||
                (bool_decide (je_conclusion execution = JobCancelled) && gr_cancelled g) |>)
  | Err error => g <| gr_error := Some (Err error) |>
  | Panic => g <| gr_error := Some Panic |>
  end.

Definition instance_event (event : GroupEvent) (i : nat) (job : PlannedJob) (phase : InstancePhase) (g : Group) : option Group :=
  match event, phase with
  | Polled _ reported, Created =>
      Some (if gr_cancelled g then goto i (Ended (Err "run cancelled")) g
            else if gr_fail_fast g then skip_instance i reported g
            else goto i AwaitingMatrixSlot g)
  | MatrixSlot _ reported, AwaitingMatrixSlot =>
      if bool_decide (Z.of_nat (matrix_slots_in_use g) < matrix_parallelism)%Z then
        Some (if gr_fail_fast g then skip_instance i reported g else request_lease i job g)
      else None
  | MatrixSlotCancelled _, AwaitingMatrixSlot =>
      if gr_cancelled g then Some (goto i (Ended (Ok job_cancelled)) g) else None
  | LeaseAnswered _ (Acquired _), AwaitingLease _ =>
      Some (goto i (AwaitingSlot true) (g <| gr_leases := gr_leases g ∪ {[i]} |>))
  | LeaseAnswered _ (AcquisitionCancelled _), AwaitingLease _ => Some (goto i (Ended (Ok job_cancelled)) g)
  | LeaseAnswered _ (AcquisitionFailed error), AwaitingLease _ => Some (goto i (Ended (Err error)) g)
  | LeaseCancelled _, (AwaitingSlot true | Executing true) =>
      if bool_decide (i ∈ gr_lease_cancelled g) then None
      else Some (g <| gr_lease_cancelled := gr_lease_cancelled g ∪ {[i]} |>)
  | ExecutionSlot _ released reported, AwaitingSlot leased =>
      Some (if gr_fail_fast g then release_lease i leased released (skip_instance i reported) g
            else goto i (Executing leased) (g <| gr_executed := gr_executed g ++ [i] |>))
  | ExecutionSlotCancelled _ released, AwaitingSlot leased =>
      if effective_cancelled i leased g
      then Some (release_lease i leased released (goto i (Ended (Ok job_cancelled))) g)
      else None
  | JobEnded _ result timed_out, Executing false => Some (conclude_instance i job false result timed_out g)
  | JobEnded _ result _, Executing true =>
      let concurrency_cancelled := bool_decide (i ∈ gr_lease_cancelled g) && negb (gr_cancelled g) && negb (gr_fail_fast g) in
      Some (goto i (Releasing concurrency_cancelled result) g)
  | LeaseReleased _ released timed_out, Releasing concurrency_cancelled result =>
      Some (release_lease i true released (conclude_instance i job concurrency_cancelled result timed_out) g)
  | ResultTaken _, Ended result => Some (take_result i result g)
  | _, _ => None
  end.

Definition event_instance (event : GroupEvent) : option nat :=
  match event with
  | RunCancelled => None
  | LeaseCancelled i | Polled i _ | MatrixSlot i _ | MatrixSlotCancelled i | LeaseAnswered i _ | ExecutionSlot i _ _
  | ExecutionSlotCancelled i _ | JobEnded i _ _ | LeaseReleased i _ _ | ResultTaken i => Some i
  end.

(** [None]: the event cannot happen. *)
Definition group_event (event : GroupEvent) (g : Group) : option Group :=
  if is_some (gr_error g) then None
  else
    match event_instance event with
    | None => if gr_cancelled g then None else Some (g <| gr_cancelled := true |>)
    | Some i =>
        job ← instances !! i;
        phase ← gr_phases g !! i;
        instance_event event i job phase g
    end.

Fixpoint group_events (events : list GroupEvent) (g : Group) : option Group :=
  match events with
  | [] => Some g
  | event :: events => g' ← group_event event g; group_events events g'
  end.

(** ** The end *)

Fixpoint taken (phases : list InstancePhase) : option (list JobExecution) :=
  match phases with
  | [] => Some []
  | Taken execution :: phases => executions ← taken phases; Some (execution :: executions)
  | _ :: _ => None
  end.

(** The results in the order of the instances. *)
Definition collect_executions (base_id : string) (executions : list JobExecution) : BaseExecution :=
  mkExecution base_id (aggregate_conclusions (je_conclusion <$> executions))
    (sum_list (je_completed_steps <$> executions))
    (fold_left (λ outputs execution, btree_extend outputs (je_outputs execution)) executions ∅) [].

Definition group_end (base_id : string) (g : Group) : option (outcome string BaseExecution) :=
  match gr_error g with
  | Some error => Some (omap_ok (λ e : Empty_set, match e with end) error)
  | None =>
      executions ← taken (gr_phases g);
      Some (if gr_run_cancelled g then Err "run cancelled" else Ok (collect_executions base_id executions))
  end.
End instances.
