(* ===== verification/BaseGroupProps.v ===== *)
(** * The instances of a base job: invariant

    Every event of an instance is one [transition] of its phase; the invariant of
    a group follows from what a transition may change. *)

From S2P Require Import Prelude RustStr UnixPath OrdMap Yaml Expression Evaluate Instances Workflow Matrix.
From S2P Require Import Expansion Scheduler Protocol JobContext Actions Traced JobEffects JobSteps JobRun.
From S2P Require Import BaseGroup.

(** ** Phases *)

Definition phase_leased (phase : InstancePhase) : bool :=
  match phase with
  | AwaitingSlot leased | Executing leased => leased
  | Releasing _ _ => true
  | Created | AwaitingMatrixSlot | AwaitingLease _ | Ended _ | Taken _ => false
  end.

Definition phase_rank (phase : InstancePhase) : nat :=
  match phase with
  | Created => 0 | AwaitingMatrixSlot => 1 | AwaitingLease _ => 2 | AwaitingSlot _ => 3
  | Executing _ => 4 | Releasing _ _ => 5 | Ended _ => 6 | Taken _ => 7
  end.

(** [execute_job] has been called for the instance. *)
Definition called_job (phase : InstancePhase) : bool :=
  match phase with Executing _ | Releasing _ _ => true | _ => false end.

Definition phase_result (phase : InstancePhase) : option JobExecution :=
  match phase with Ended (Ok execution) | Taken execution => Some execution | _ => None end.

Lemma filter_insert_length {A} (P : A → bool) (l : list A) i old new :
  l !! i = Some old →
  length (base.filter (λ x, P x = true) (<[i := new]> l)) + (if P old then 1 else 0) =
  length (base.filter (λ x, P x = true) l) + (if P new then 1 else 0).
Proof.
  revert i. induction l as [|x l IH]; intros i H; [done|].
  destruct i as [|i].
  - injection H as ->. change (<[0 := new]> (old :: l)) with (new :: l). rewrite !filter_cons.
    destruct (P old), (P new); repeat case_decide; cbn; congruence || lia.
  - specialize (IH i H). change (<[S i := new]> (x :: l)) with (x :: <[i := new]> l). rewrite !filter_cons.
    case_decide; cbn; lia.
Qed.

Section invariant.
Context `{VT : ValueTypes}.
Context (instances : list PlannedJob) (concurrency : PlannedJob → outcome string (option Request)).

Notation matrix_parallelism := (matrix_parallelism instances).
Notation instance_event := (instance_event instances concurrency).
Notation group_event := (group_event instances concurrency).
Notation group_events := (group_events instances concurrency).

Definition stops_group (job : PlannedJob) (phase : InstancePhase) : bool :=
  match phase_result phase with
  | Some execution => stops_matrix (je_conclusion execution) && pj_matrix_fail_fast job
  | None => false
  end.

Record group_inv (g : Group) : Prop := {
  inv_length : length (gr_phases g) = length instances;
  inv_slots : (Z.of_nat (matrix_slots_in_use g) ≤ matrix_parallelism)%Z;
  inv_leases i : i ∈ gr_leases g ↔ ∃ phase, gr_phases g !! i = Some phase ∧ phase_leased phase = true;
  inv_once : NoDup (gr_executed g);
  inv_executed i : i ∈ gr_executed g → ∃ phase, gr_phases g !! i = Some phase ∧ 4 ≤ phase_rank phase;
  inv_called i phase : gr_phases g !! i = Some phase → called_job phase = true → i ∈ gr_executed g;
  inv_results i phase execution :
    gr_phases g !! i = Some phase → phase_result phase = Some execution → i ∉ gr_executed g →
    execution = job_skipped ∨ execution = job_cancelled;
  inv_fail_fast : gr_fail_fast g = true ↔
    ∃ i job phase, instances !! i = Some job ∧ gr_phases g !! i = Some phase ∧ stops_group job phase = true;
}.

(** What an event of the instance [i] may change. *)
Record transition (i : nat) (job : PlannedJob) (old new : InstancePhase) (g g' : Group) : Prop := {
  tr_phases : gr_phases g' = <[i := new]> (gr_phases g);
  tr_rank : phase_rank old < phase_rank new;
  tr_slots : holds_matrix_slot new = true → holds_matrix_slot old = false → (Z.of_nat (matrix_slots_in_use g) < matrix_parallelism)%Z;
  tr_leases : gr_leases g' =
    if phase_leased new then gr_leases g ∪ {[i]} else if phase_leased old then gr_leases g ∖ {[i]} else gr_leases g;
  tr_executed : gr_executed g' = gr_executed g ++ (if called_job new && negb (called_job old) then [i] else []);
  tr_starts : called_job new = true → called_job old = false → gr_fail_fast g = false;
  tr_fail_fast : gr_fail_fast g' = gr_fail_fast g || stops_group job new;
  tr_kept : 6 ≤ phase_rank old → phase_result old = phase_result new;
  tr_result execution : phase_result new = Some execution → phase_rank old < 4 → execution = job_skipped ∨ execution = job_cancelled;
  tr_cancelled : gr_cancelled g' = gr_cancelled g;
  tr_lease_cancelled : gr_lease_cancelled g' = gr_lease_cancelled g;
  tr_error : gr_error g' = gr_error g;
}.

(** The other events of an instance: its lease is cancelled, or its error ends
    the group. *)
Definition noted (g g' : Group) : Prop :=
  (∃ i, i < length instances ∧ i ∉ gr_lease_cancelled g ∧ g' = g <| gr_lease_cancelled := gr_lease_cancelled g ∪ {[i]} |>) ∨
  (∃ error, g' = g <| gr_error := Some error |>).

Lemma leases_kept (leases : gset nat) i : i ∈ leases → leases = leases ∪ {[i]}.
Proof. intros H. apply leibniz_equiv. set_solver. Qed.

Lemma stops_group_none job phase : phase_result phase = None → stops_group job phase = false.
Proof. unfold stops_group. by intros ->. Qed.

Definition same_flags (g g0 : Group) : Prop :=
  gr_cancelled g0 = gr_cancelled g ∧ gr_lease_cancelled g0 = gr_lease_cancelled g ∧ gr_error g0 = gr_error g.

(** Transitions that move the phase and nothing a transition speaks of. *)
Lemma transition_goto i job old new g g0 :
  gr_phases g0 = gr_phases g → gr_leases g0 = gr_leases g → gr_executed g0 = gr_executed g →
  gr_fail_fast g0 = gr_fail_fast g → same_flags g g0 →
  phase_rank old < phase_rank new → called_job new = called_job old →
  (phase_leased old = true → i ∈ gr_leases g) → phase_leased new = phase_leased old →
  (holds_matrix_slot new = true → holds_matrix_slot old = false → (Z.of_nat (matrix_slots_in_use g) < matrix_parallelism)%Z) →
  stops_group job new = false → phase_rank old < 6 →
  (∀ execution, phase_result new = Some execution → phase_rank old < 4 → execution = job_skipped ∨ execution = job_cancelled) →
  transition i job old new g (goto i new g0).
Proof.
  intros Hp Hl He Hf (Hc & Hlc & Her) Hrank Hcalled Hin Hleased Hslots Hstops H6 Hresult.
  split; unfold goto; unfold_updates; rewrite ?Hp, ?Hl, ?He, ?Hf, ?Hc, ?Hlc, ?Her; try done.
  - rewrite Hleased. destruct (phase_leased old); [by apply leases_kept, Hin | done].
  - rewrite Hcalled. destruct (called_job old); by rewrite app_nil_r.
  - rewrite Hcalled. intros -> [=].
  - by rewrite Hstops, orb_false_r.
  - lia.
Qed.

Ltac plain := apply transition_goto; cbn; unfold_updates; cbn; try done; try lia; try set_solver.

Lemma transition_skip i job old reported g :
  phase_rank old < 4 → phase_leased old = false → ∃ new, transition i job old new g (skip_instance i reported g).
Proof.
  intros Hrank Hleased.
  assert (called_job old = false) as Hc by (by destruct old; cbn in *; try done; lia).
  destruct reported as [|error|]; [exists (Ended (Ok job_skipped)) | exists (Ended (Err error)) | exists (Ended Panic)];
    plain; rewrite ?Hc, ?Hleased; try done; intros ? [= <-]; by left.
Qed.

(** A transition that ends the instance, with its lease given back. *)
Lemma transition_end i job old result g g0 :
  gr_phases g0 = gr_phases g → gr_leases g0 = (if phase_leased old then gr_leases g ∖ {[i]} else gr_leases g) →
  gr_executed g0 = gr_executed g → gr_fail_fast g0 = gr_fail_fast g || stops_group job (Ended result) →
  same_flags g g0 → phase_rank old < 6 →
  (∀ execution, result = Ok execution → phase_rank old < 4 → execution = job_skipped ∨ execution = job_cancelled) →
  transition i job old (Ended result) g (goto i (Ended result) g0).
Proof.
  intros Hp Hl He Hf (Hc & Hlc & Her) Hrank Hresult.
  split; unfold goto; unfold_updates; rewrite ?Hp, ?Hl, ?He, ?Hf, ?Hc, ?Hlc, ?Her, ?app_nil_r; try done; try lia.
  destruct result; [|done..]. intros execution [= ->]. by apply Hresult.
Qed.

(** [next] ends the instance in a state that differs from [g] in what was given
    back only. *)
Definition ends (i : nat) (job : PlannedJob) (old : InstancePhase) (g : Group) (next : Group → Group) : Prop :=
  ∀ g0, gr_phases g0 = gr_phases g → gr_leases g0 = (if phase_leased old then gr_leases g ∖ {[i]} else gr_leases g) →
    gr_executed g0 = gr_executed g → gr_fail_fast g0 = gr_fail_fast g → same_flags g g0 →
    ∃ new, transition i job old new g (next g0).

Lemma ends_goto i job old result g :
  phase_rank old < 6 → (∀ execution, result = Ok execution → execution = job_skipped ∨ execution = job_cancelled) →
  ends i job old g (goto i (Ended result)).
Proof.
  intros Hrank Hresult g0 Hp Hl He Hf Hc. exists (Ended result). apply transition_end; try done; [|by eauto].
  rewrite Hf. unfold stops_group. cbn. destruct result as [execution| |]; cbn; rewrite ?orb_false_r; try done.
  destruct (Hresult execution eq_refl) as [-> | ->]; by rewrite orb_false_r.
Qed.

Lemma ends_skip i job old reported g : phase_rank old < 6 → ends i job old g (skip_instance i reported).
Proof.
  intros Hrank g0 Hp Hl He Hf Hc. destruct reported as [|error|]; cbn.
  - apply (ends_goto i job old (Ok job_skipped) g); unfold_updates; try done. intros ? [= <-]. by left.
  - by apply (ends_goto i job old (Err error) g).
  - by apply (ends_goto i job old Panic g).
Qed.

Lemma ends_conclude i job old concurrency_cancelled result timed_out g :
  4 ≤ phase_rank old < 6 → ends i job old g (conclude_instance i job concurrency_cancelled result timed_out).
Proof.
  intros Hrank g0 Hp Hl He Hf Hc. unfold conclude_instance. cbv zeta.
  destruct (instance_result _ _ _ _ _) as [execution|error|].
  - exists (Ended (Ok execution)). apply transition_end; unfold_updates; try done; try lia. by rewrite Hf.
  - exists (Ended (Err error)). apply transition_end; try done; try lia. unfold stops_group; cbn. by rewrite Hf, orb_false_r.
  - exists (Ended Panic). apply transition_end; try done; try lia. unfold stops_group; cbn. by rewrite Hf, orb_false_r.
Qed.

Lemma ends_release i job old leased released next g :
  phase_leased old = leased → phase_rank old < 6 → ends i job old g next →
  ∃ new, transition i job old new g (release_lease i leased released next g).
Proof.
  intros <- Hrank Hnext. unfold release_lease. destruct (phase_leased old) eqn:El.
  - cbv zeta. destruct released as [|error|].
    + apply Hnext; unfold_updates; rewrite ?El; done.
    + apply (ends_goto i job old (Err error) g); unfold_updates; rewrite ?El; done.
    + apply (ends_goto i job old Panic g); unfold_updates; rewrite ?El; done.
  - apply Hnext; rewrite ?El; done.
Qed.

Lemma ends_here i job old next g : phase_leased old = false → ends i job old g next → ∃ new, transition i job old new g (next g).
Proof. intros Hl Hnext. apply Hnext; by rewrite ?Hl. Qed.

Lemma request_lease_transition i job g :
  (Z.of_nat (matrix_slots_in_use g) < matrix_parallelism)%Z →
  ∃ new, transition i job AwaitingMatrixSlot new g (request_lease concurrency i job g).
Proof.
  intros Hslots. unfold request_lease. destruct (concurrency job) as [[request|]|error|].
  - eexists. by plain.
  - eexists. by plain.
  - apply ends_here, ends_goto; cbn; done || lia.
  - apply ends_here, ends_goto; cbn; done || lia.
Qed.

Lemma take_result_transition i job result g :
  group_inv g → instances !! i = Some job → gr_phases g !! i = Some (Ended result) →
  (∃ new, transition i job (Ended result) new g (take_result i result g)) ∨ noted g (take_result i result g).
Proof.
  intros Hinv Hjob Hphase. destruct result as [execution|error|]; [|right; right; by eexists..].
  left. exists (Taken execution). split; unfold take_result, goto; unfold_updates; rewrite ?app_nil_r; try done; try lia.
  destruct (stops_group job (Ended (Ok execution))) eqn:E; unfold stops_group in *; cbn in *; rewrite E.
  - rewrite orb_true_r. apply (inv_fail_fast _ Hinv). exists i, job, (Ended (Ok execution)). done.
  - by rewrite orb_false_r.
Qed.

Lemma instance_event_transition event i job phase g g' :
  group_inv g → instances !! i = Some job → gr_phases g !! i = Some phase →
  instance_event event i job phase g = Some g' → (∃ new, transition i job phase new g g') ∨ noted g g'.
Proof.
  intros Hinv Hjob Hphase H.
  assert (phase_leased phase = true → i ∈ gr_leases g) as Hleased.
  { intros Hl. apply (inv_leases _ Hinv). by exists phase. }
  destruct event, phase; try done; cbn [BaseGroup.instance_event] in H; try (by destruct answer).
  - right; left. destruct leased; [|done]. case_bool_decide; [done|]. injection H as <-.
    exists i. by apply lookup_lt_Some in Hjob.
  - right; left. destruct leased; [|done]. case_bool_decide; [done|]. injection H as <-.
    exists i. by apply lookup_lt_Some in Hjob.
  - left. injection H as <-. destruct (gr_cancelled g); [apply ends_here, ends_goto; cbn; done || lia|].
    destruct (gr_fail_fast g); [apply ends_here, ends_skip; cbn; done || lia|]. eexists. by plain.
  - left. case_bool_decide; [|done]. injection H as <-.
    destruct (gr_fail_fast g); [apply ends_here, ends_skip; cbn; done || lia|]. by apply request_lease_transition.
  - left. destruct (gr_cancelled g); [|done]. injection H as <-. apply ends_here, ends_goto; cbn; [done | lia |].
    intros ? [= <-]. by right.
  - left. destruct answer as [lease|reason|error]; injection H as <-.
    + exists (AwaitingSlot true). split; unfold goto; unfold_updates; rewrite ?app_nil_r, ?orb_false_r; try done; lia.
    + apply ends_here, ends_goto; cbn; [done | lia |]. intros ? [= <-]. by right.
    + apply ends_here, ends_goto; cbn; done || lia.
  - left. injection H as <-. destruct (gr_fail_fast g) eqn:Ef; [apply ends_release, ends_skip; cbn; done || lia|].
    exists (Executing leased). split; unfold goto; unfold_updates; rewrite ?orb_false_r; try done; try lia.
    destruct leased; [|done]. by apply leases_kept, Hleased.
  - left. destruct (effective_cancelled i leased g); [|done]. injection H as <-.
    apply ends_release, ends_goto; cbn; [done | lia | lia |]. intros ? [= <-]. by right.
  - left. destruct leased; injection H as <-.
    + eexists. by plain.
    + apply ends_here; [done|]. apply ends_conclude. cbn. lia.
  - left. injection H as <-.
    refine (ends_release i job (Releasing concurrency_cancelled result) true released
              (conclude_instance i job concurrency_cancelled result timed_out) g _ _ _); cbn; [done | lia |].
    apply ends_conclude. cbn. lia.
  - injection H as <-. by apply take_result_transition.
Qed.

(** ** A transition keeps the invariant *)

Lemma transition_lookup i job old new g g' j :
  transition i job old new g g' → gr_phases g !! i = Some old →
  gr_phases g' !! j = if bool_decide (j = i) then Some new else gr_phases g !! j.
Proof.
  intros Ht Hi. rewrite (tr_phases _ _ _ _ _ _ Ht). case_bool_decide as E.
  - subst. by rewrite list_lookup_insert_eq by (by apply lookup_lt_Some in Hi).
  - by rewrite list_lookup_insert_ne by done.
Qed.

Lemma transition_slots i job old new g g' :
  transition i job old new g g' → gr_phases g !! i = Some old →
  (Z.of_nat (matrix_slots_in_use g) ≤ matrix_parallelism)%Z → (Z.of_nat (matrix_slots_in_use g') ≤ matrix_parallelism)%Z.
Proof.
  intros Ht Hi Hle. pose proof (tr_slots _ _ _ _ _ _ Ht) as Hs. unfold matrix_slots_in_use in *.
  rewrite (tr_phases _ _ _ _ _ _ Ht).
  pose proof (filter_insert_length holds_matrix_slot _ _ _ new Hi) as Hc.
  destruct (holds_matrix_slot old), (holds_matrix_slot new); try specialize (Hs eq_refl eq_refl); lia.
Qed.

Lemma called_rank phase : called_job phase = true → 4 ≤ phase_rank phase < 6.
Proof. destruct phase; cbn; try done; lia. Qed.

Lemma result_rank phase execution : phase_result phase = Some execution → 6 ≤ phase_rank phase.
Proof. destruct phase; cbn; try done; lia. Qed.

Lemma called_between phase : called_job phase = false → phase_rank phase < 4 ∨ 6 ≤ phase_rank phase.
Proof. destruct phase; cbn; try done; lia. Qed.

Lemma transition_fail_fast i job old new g g' :
  group_inv g → instances !! i = Some job → gr_phases g !! i = Some old → transition i job old new g g' →
  gr_fail_fast g' = true ↔
    ∃ j job phase, instances !! j = Some job ∧ gr_phases g' !! j = Some phase ∧ stops_group job phase = true.
Proof.
  intros Hinv Hjob Hi Ht. rewrite (tr_fail_fast _ _ _ _ _ _ Ht), orb_true_iff, (inv_fail_fast _ Hinv).
  assert (stops_group job old = true → stops_group job new = true) as Hkept.
  { intros H. unfold stops_group in *. destruct (phase_result old) eqn:E; [|done].
    apply result_rank in E as Hr. by rewrite <-(tr_kept _ _ _ _ _ _ Ht Hr), E. }
  split.
  - intros [(j & job' & phase & Hj & Hp & Hs) | Hs].
    + destruct (decide (j = i)) as [->|Hne].
      * assert (job' = job) as -> by congruence. assert (phase = old) as -> by congruence.
        exists i, job, new. rewrite (transition_lookup _ _ _ _ _ _ _ Ht Hi), bool_decide_eq_true_2 by done. auto.
      * exists j, job', phase. by rewrite (transition_lookup _ _ _ _ _ _ _ Ht Hi), bool_decide_eq_false_2 by done.
    + exists i, job, new. by rewrite (transition_lookup _ _ _ _ _ _ _ Ht Hi), bool_decide_eq_true_2 by done.
  - intros (j & job' & phase & Hj & Hp & Hs). rewrite (transition_lookup _ _ _ _ _ _ _ Ht Hi) in Hp.
    case_bool_decide as E; [subst; right; congruence|]. left. by exists j, job', phase.
Qed.

Lemma elem_of_executed i job old new g g' j :
  transition i job old new g g' →
  j ∈ gr_executed g' ↔ j ∈ gr_executed g ∨ j = i ∧ called_job new = true ∧ called_job old = false.
Proof.
  intros Ht. rewrite (tr_executed _ _ _ _ _ _ Ht), elem_of_app.
  destruct (called_job new), (called_job old); cbn; rewrite ?list_elem_of_singleton, ?elem_of_nil; naive_solver.
Qed.

Lemma transition_inv i job old new g g' :
  group_inv g → instances !! i = Some job → gr_phases g !! i = Some old → transition i job old new g g' → group_inv g'.
Proof.
  intros Hinv Hjob Hi Ht. pose proof (λ j, transition_lookup _ _ _ _ _ _ j Ht Hi) as Hlookup.
  pose proof (λ j, elem_of_executed _ _ _ _ _ _ j Ht) as Hexecuted.
  split.
  - rewrite (tr_phases _ _ _ _ _ _ Ht), length_insert. apply Hinv.
  - by apply (transition_slots _ _ _ _ _ _ Ht Hi), Hinv.
  - intros j. rewrite Hlookup, (tr_leases _ _ _ _ _ _ Ht). pose proof (inv_leases _ Hinv j) as Hl.
    case_bool_decide as E.
    + subst j. destruct (phase_leased new) eqn:En.
      * split; [intros _; by exists new | set_solver].
      * split; [|intros (phase & [= <-] & ?); congruence]. intros Hin. exfalso.
        destruct (phase_leased old) eqn:Eo; [set_solver|]. apply Hl in Hin as (phase & ? & ?). congruence.
    + rewrite <-Hl. destruct (phase_leased new), (phase_leased old); set_solver.
  - rewrite (tr_executed _ _ _ _ _ _ Ht). apply NoDup_app. split_and!; [apply Hinv| |].
    + intros j Hj Hin. destruct (called_job new && negb (called_job old)) eqn:E; [|by apply elem_of_nil in Hin].
      apply list_elem_of_singleton in Hin as ->. apply andb_true_iff in E as [En Eo%negb_true_iff].
      apply (inv_executed _ Hinv) in Hj as (phase & Hp & Hr). assert (phase = old) as -> by congruence.
      apply called_rank in En. apply called_between in Eo. pose proof (tr_rank _ _ _ _ _ _ Ht). lia.
    + destruct (called_job new && negb (called_job old)); [apply NoDup_singleton | constructor].
  - intros j Hj. rewrite Hlookup. apply Hexecuted in Hj as [Hj | (-> & Hc & _)].
    + apply (inv_executed _ Hinv) in Hj as (phase & Hp & Hr). case_bool_decide as E; [|by exists phase].
      exists new. split; [done|]. subst j. assert (phase = old) as -> by congruence.
      pose proof (tr_rank _ _ _ _ _ _ Ht). lia.
    + rewrite bool_decide_eq_true_2 by done. exists new. split; [done|]. apply called_rank in Hc. lia.
  - intros j phase Hp Hc. rewrite Hlookup in Hp. apply Hexecuted. case_bool_decide as E.
    + injection Hp as <-. subst j. destruct (called_job old) eqn:Eo; [|by right].
      left. by apply (inv_called _ Hinv i old).
    + left. by apply (inv_called _ Hinv j phase).
  - intros j phase execution Hp Hr Hnot. rewrite Hlookup in Hp.
    assert (j ∉ gr_executed g) as Hnot' by (intros H; apply Hnot, Hexecuted; by left).
    case_bool_decide as E; [|by apply (inv_results _ Hinv j phase)].
    injection Hp as <-. subst j.
    destruct (called_job old) eqn:Eo; [by destruct Hnot'; apply (inv_called _ Hinv i old)|].
    apply called_between in Eo as [Eo | Eo]; [by apply (tr_result _ _ _ _ _ _ Ht)|].
    rewrite <-(tr_kept _ _ _ _ _ _ Ht Eo) in Hr. by apply (inv_results _ Hinv i old).
  - by apply (transition_fail_fast _ _ _ _ _ _ Hinv Hjob Hi Ht).
Qed.

Lemma noted_inv g g' : group_inv g → noted g g' → group_inv g'.
Proof. intros Hinv [(i & _ & _ & ->) | [error ->]]; destruct Hinv; by split. Qed.

Lemma group_event_cases event g g' :
  group_inv g → group_event event g = Some g' →
  gr_error g = None ∧
  ((gr_cancelled g = false ∧ g' = g <| gr_cancelled := true |>) ∨ noted g g' ∨
   ∃ i job old new, instances !! i = Some job ∧ gr_phases g !! i = Some old ∧ transition i job old new g g').
Proof.
  intros Hinv H. unfold BaseGroup.group_event in H. destruct (gr_error g); [done|]. cbn [is_some] in H. split; [done|].
  destruct (event_instance event) as [i|].
  - destruct (instances !! i) as [job|] eqn:Hjob; [|done]. destruct (gr_phases g !! i) as [phase|] eqn:Hp; [|done].
    cbn in H. destruct (instance_event_transition event i job phase g g' Hinv Hjob Hp H) as [[new Ht] | Hn]; [|by right; left].
    right; right. by exists i, job, phase, new.
  - left. destruct (gr_cancelled g); [done|]. by injection H as <-.
Qed.

Lemma group_event_inv event g g' : group_inv g → group_event event g = Some g' → group_inv g'.
Proof.
  intros Hinv H. destruct (group_event_cases _ _ _ Hinv H) as [_ [[_ ->] | [Hn | (i & job & old & new & ? & ? & Ht)]]].
  - destruct Hinv. by split.
  - by eapply noted_inv.
  - by eapply transition_inv.
Qed.

Lemma matrix_parallelism_pos : (1 ≤ matrix_parallelism)%Z.
Proof. unfold BaseGroup.matrix_parallelism. destruct (head instances); lia. Qed.

Lemma group_start_inv cancelled : group_inv (group_start instances cancelled).
Proof.
  unfold group_start. split; cbn.
  - apply length_replicate.
  - unfold matrix_slots_in_use. cbn. pose proof matrix_parallelism_pos.
    enough (base.filter (λ phase, holds_matrix_slot phase = true) (replicate (length instances) Created) = []) as -> by (cbn; lia).
    generalize (length instances). intros n. induction n as [|n IH]; [done|]. cbn [replicate]. by rewrite filter_cons.
  - intros i. split; [set_solver|]. intros (phase & [-> _]%lookup_replicate & [=]).
  - constructor.
  - intros i []%elem_of_nil.
  - intros i phase [-> _]%lookup_replicate [=].
  - intros i phase execution [-> _]%lookup_replicate [=].
  - split; [done|]. intros (i & job & phase & _ & [-> _]%lookup_replicate & [=]).
Qed.

Lemma group_events_inv events g g' : group_inv g → group_events events g = Some g' → group_inv g'.
Proof.
  revert g. induction events as [|event events IH]; intros g Hinv H; cbn in H; [by injection H as <-|].
  destruct (group_event event g) as [g1|] eqn:E; [|done]. cbn in H.
  by apply (IH g1); [eapply group_event_inv|].
Qed.

(** ** Limits *)

Notation reached cancelled events g := (group_events events (group_start instances cancelled) = Some g).

Lemma reached_inv cancelled events g : reached cancelled events g → group_inv g.
Proof. apply group_events_inv, group_start_inv. Qed.

Lemma fail_fast_starts_nothing events g g' :
  group_inv g → gr_fail_fast g = true → group_events events g = Some g' → gr_executed g' = gr_executed g.
Proof.
  revert g. induction events as [|event events IH]; intros g Hinv Hf H; cbn in H; [by injection H as <-|].
  destruct (group_event event g) as [g1|] eqn:E; [|done]. cbn in H.
  pose proof (group_event_inv _ _ _ Hinv E) as Hinv1.
  destruct (group_event_cases _ _ _ Hinv E) as [_ [[_ ->] | [[(? & _ & _ & ->) | [? ->]] | (i & job & old & new & ? & ? & Ht)]]].
  - by rewrite (IH _ Hinv1 Hf H).
  - by rewrite (IH _ Hinv1 Hf H).
  - by rewrite (IH _ Hinv1 Hf H).
  - rewrite (IH _ Hinv1); [|by rewrite (tr_fail_fast _ _ _ _ _ _ Ht), Hf | done].
    rewrite (tr_executed _ _ _ _ _ _ Ht). destruct (called_job new) eqn:En, (called_job old) eqn:Eo; try by rewrite app_nil_r.
    pose proof (tr_starts _ _ _ _ _ _ Ht En Eo). congruence.
Qed.

Lemma taken_lookup phases executions i :
  taken phases = Some executions → phases !! i = Taken <$> executions !! i.
Proof.
  revert executions i. induction phases as [|phase phases IH]; intros executions i H; cbn in H; [by injection H as <-|].
  destruct phase; try done. destruct (taken phases) as [rest|] eqn:E; [|done]. injection H as <-.
  destruct i as [|i]; [done|]. exact (IH rest i eq_refl).
Qed.

(** C11: however the instances of a base job interleave: the permits of the
    matrix are within [max-parallel]; no instance calls [execute_job] twice; the
    matrix is stopped exactly when an instance with fail-fast has failed or timed
    out, and no instance starts after that.  At the end no lease is held, and an
    instance that did not run is skipped or cancelled. *)
Theorem matrix_instances_run_within_limits cancelled events g :
  reached cancelled events g →
  (Z.of_nat (matrix_slots_in_use g) ≤ matrix_parallelism)%Z ∧
  NoDup (gr_executed g) ∧
  (gr_fail_fast g = true ↔
   ∃ i job phase, instances !! i = Some job ∧ gr_phases g !! i = Some phase ∧ stops_group job phase = true) ∧
  (∀ more g', gr_fail_fast g = true → group_events more g = Some g' → gr_executed g' = gr_executed g) ∧
  (∀ executions, taken (gr_phases g) = Some executions →
     gr_leases g = ∅ ∧
     ∀ i execution, executions !! i = Some execution → i ∉ gr_executed g → execution = job_skipped ∨ execution = job_cancelled).
Proof.
  intros H. pose proof (reached_inv _ _ _ H) as Hinv. split_and!.
  - apply Hinv.
  - apply Hinv.
  - apply Hinv.
  - intros more g'. by apply fail_fast_starts_nothing.
  - intros executions Ht. pose proof (λ i, taken_lookup _ _ i Ht) as Hl. split.
    + apply leibniz_equiv. intros i. split; [|set_solver].
      intros (phase & Hp & Hleased)%(inv_leases _ Hinv). rewrite Hl in Hp. by destruct (executions !! i); simplify_eq/=.
    + intros i execution He Hnot. apply (inv_results _ Hinv i (Taken execution)); [by rewrite Hl, He | done..].
Qed.

(** ** The end of a group *)

(** An event that moves an instance, not one that only cancels. *)
Definition moves (event : GroupEvent) : bool :=
  match event with RunCancelled | LeaseCancelled _ => false | _ => true end.

Lemma not_all_taken phases : taken phases = None → ∃ i phase, phases !! i = Some phase ∧ phase_rank phase < 7.
Proof.
  induction phases as [|phase phases IH]; cbn; [done|].
  destruct (decide (phase_rank phase < 7)) as [Hr|Hr]; [intros _; by exists 0, phase|].
  destruct phase; cbn in Hr; try lia. destruct (taken phases); [done|].
  intros _. destruct (IH eq_refl) as (i & other & Hi & Ho). by exists (S i), other.
Qed.

(** Every phase but the wait for a permit of the matrix can be left. *)
Lemma phase_can_move i job phase g :
  phase_rank phase < 7 → phase ≠ AwaitingMatrixSlot →
  ∃ event g', event_instance event = Some i ∧ moves event = true ∧ instance_event event i job phase g = Some g'.
Proof.
  intros Hr Hne. destruct phase as [| |request|leased|leased|cc result|result|execution]; cbn in Hr; try lia; [..| |].
  - by eexists (Polled i (Ok tt)), _.
  - done.
  - by eexists (LeaseAnswered i (Acquired 0%Z)), _.
  - by eexists (ExecutionSlot i (Ok tt) (Ok tt)), _.
  - destruct leased; by eexists (JobEnded i (Ok job_skipped) false), _.
  - by eexists (LeaseReleased i (Ok tt) false), _.
  - by eexists (ResultTaken i), _.
Qed.

Lemma held_slot phases :
  0 < length (base.filter (λ phase, holds_matrix_slot phase = true) phases) →
  ∃ i phase, phases !! i = Some phase ∧ holds_matrix_slot phase = true.
Proof.
  intros H. destruct (base.filter _ phases) as [|phase rest] eqn:E; [cbn in H; lia|].
  assert (phase ∈ base.filter (λ phase, holds_matrix_slot phase = true) phases) as [Hh Hin]%list_elem_of_filter
    by (rewrite E; apply list_elem_of_here).
  apply list_elem_of_lookup in Hin as [i Hi]. by exists i, phase.
Qed.

Lemma group_moves g :
  group_inv g → gr_error g = None → taken (gr_phases g) = None →
  ∃ event g', moves event = true ∧ group_event event g = Some g'.
Proof.
  intros Hinv Herror Hnot.
  assert (∀ i phase, gr_phases g !! i = Some phase → phase_rank phase < 7 → phase ≠ AwaitingMatrixSlot →
    ∃ event g', moves event = true ∧ group_event event g = Some g') as Hmove.
  { intros i phase Hp Hr Hne.
    destruct (lookup_lt_is_Some_2 instances i) as [job Hjob].
    { rewrite <-(inv_length _ Hinv). by eapply lookup_lt_Some. }
    destruct (phase_can_move i job phase g Hr Hne) as (event & g' & He & Hm & H). exists event, g'. split; [done|].
    unfold BaseGroup.group_event. by rewrite Herror, He, Hjob, Hp. }
  destruct (not_all_taken _ Hnot) as (i & phase & Hp & Hr).
  destruct (decide (phase_rank phase = 1)) as [H1|H1]; [|by apply (Hmove i phase); [..|intros ->]].
  assert (phase = AwaitingMatrixSlot) as -> by (destruct phase; cbn in H1; done || lia).
  destruct (decide (Z.of_nat (matrix_slots_in_use g) < matrix_parallelism)%Z) as [Hfree|Hfull].
  - destruct (lookup_lt_is_Some_2 instances i) as [job Hjob].
    { rewrite <-(inv_length _ Hinv). by eapply lookup_lt_Some. }
    eexists (MatrixSlot i (Ok tt)), _. split; [done|]. unfold BaseGroup.group_event. rewrite Herror. cbn [is_some event_instance].
    rewrite Hjob, Hp. cbn [mbind option_bind BaseGroup.instance_event]. by rewrite bool_decide_eq_true_2.
  - pose proof matrix_parallelism_pos. destruct (held_slot (gr_phases g)) as (j & other & Hj & Hh).
    { unfold matrix_slots_in_use in Hfull. lia. }
    apply (Hmove j other Hj); [destruct other; cbn in *; done || lia | by intros ->].
Qed.

(** What remains to happen. *)
Definition remaining (phases : list InstancePhase) : nat := sum_list ((λ phase, 7 - phase_rank phase) <$> phases).

Lemma remaining_insert phases i old new :
  phases !! i = Some old → phase_rank old < phase_rank new → remaining (<[i := new]> phases) < remaining phases.
Proof.
  unfold remaining. revert i. induction phases as [|phase phases IH]; intros i Hi Hr; [done|].
  assert (phase_rank new ≤ 7) by (destruct new; cbn; lia).
  destruct i as [|i].
  - injection Hi as ->. change (<[0 := new]> (old :: phases)) with (new :: phases). rewrite !fmap_cons. cbn [sum_list_with id]. lia.
  - specialize (IH i Hi Hr). change (<[S i := new]> (phase :: phases)) with (phase :: <[i := new]> phases).
    rewrite !fmap_cons. cbn [sum_list_with id]. lia.
Qed.

(** The leases that have not been cancelled yet, and the run. *)
Definition uncancelled (g : Group) : nat :=
  length (base.filter (λ i, i ∉ gr_lease_cancelled g) (seq 0 (length instances))) + (if gr_cancelled g then 0 else 1).

Definition measure (g : Group) : nat :=
  remaining (gr_phases g) + uncancelled g + (if is_some (gr_error g) then 0 else 1).

Lemma uncancelled_filter_le (s : gset nat) i (l : list nat) :
  length (base.filter (λ j, j ∉ s ∪ {[i]}) l) ≤ length (base.filter (λ j, j ∉ s) l).
Proof.
  induction l as [|j l IH]; [done|]. rewrite !filter_cons.
  destruct (decide (j ∉ s ∪ {[i]})) as [Hj|Hj], (decide (j ∉ s)) as [Hs|Hs]; cbn [length]; try lia.
  exfalso. apply Hj, elem_of_union_l. by apply dec_stable in Hs.
Qed.

Lemma filter_length_add (s : gset nat) i (l : list nat) :
  i ∈ l → i ∉ s →
  length (base.filter (λ j, j ∉ s ∪ {[i]}) l) < length (base.filter (λ j, j ∉ s) l).
Proof.
  intros Hi Hs. induction Hi as [i l | i j l Hi IH]; rewrite !filter_cons.
  - pose proof (uncancelled_filter_le s i l).
    destruct (decide (i ∉ s ∪ {[i]})) as [Hj|Hj]; [exfalso; apply Hj, elem_of_union_r, elem_of_singleton; done|].
    destruct (decide (i ∉ s)); [cbn [length]; lia | done].
  - specialize (IH Hs). destruct (decide (j ∉ s ∪ {[i]})) as [Hj|Hj], (decide (j ∉ s)) as [Hn|Hn]; cbn [length]; try lia.
    exfalso. apply Hj, elem_of_union_l. by apply dec_stable in Hn.
Qed.

Lemma group_event_measure event g g' : group_inv g → group_event event g = Some g' → measure g' < measure g.
Proof.
  intros Hinv H. unfold measure, uncancelled.
  destruct (group_event_cases _ _ _ Hinv H)
    as [He [[Hc ->] | [[(i & Hi & Hnot & ->) | [? ->]] | (i & job & old & new & _ & Hp & Ht)]]];
    unfold_updates; fold (remaining (gr_phases g)).
  - rewrite Hc. lia.
  - assert (i ∈ seq 0 (length instances)) as Hin by (apply elem_of_seq; lia).
    pose proof (filter_length_add (gr_lease_cancelled g) i _ Hin Hnot). lia.
  - rewrite He. cbn. lia.
  - rewrite (tr_phases _ _ _ _ _ _ Ht), (tr_cancelled _ _ _ _ _ _ Ht), (tr_lease_cancelled _ _ _ _ _ _ Ht), (tr_error _ _ _ _ _ _ Ht).
    pose proof (remaining_insert _ _ _ _ Hp (tr_rank _ _ _ _ _ _ Ht)). lia.
Qed.

Lemma measure_start cancelled : measure (group_start instances cancelled) ≤ 8 * length instances + 2.
Proof.
  unfold measure, uncancelled, group_start. cbn [gr_phases gr_lease_cancelled gr_cancelled gr_error is_some].
  assert (remaining (replicate (length instances) Created) = 7 * length instances) as ->.
  { unfold remaining. generalize (length instances). intros n. induction n as [|n IH]; [done|].
    cbn [replicate]. rewrite fmap_cons. cbn [sum_list_with id phase_rank]. rewrite IH. lia. }
  match goal with |- context [length ?l] =>
    lazymatch l with base.filter _ _ =>
      assert (length l ≤ length instances) by (etrans; [apply length_filter | by rewrite length_seq])
    end
  end.
  destruct cancelled; cbv iota beta; lia.
Qed.

Lemma events_measure events g g' : group_inv g → group_events events g = Some g' → length events + measure g' ≤ measure g.
Proof.
  revert g. induction events as [|event events IH]; intros g Hinv H; cbn in H; [injection H as <-; cbn; lia|].
  destruct (group_event event g) as [g1|] eqn:E; [|done]. cbn in H.
  pose proof (group_event_measure _ _ _ Hinv E). pose proof (IH g1 (group_event_inv _ _ _ Hinv E) H). cbn [length]. lia.
Qed.

(** the instances of a base job always end: as long as there is no result, an
    event other than a cancellation can happen (no instance waits for a permit that
    nobody gives back), and there are at most eight events for each instance, two
    more for the group. *)
Theorem matrix_groups_end base_id cancelled events g :
  reached cancelled events g →
  length events ≤ 8 * length instances + 2 ∧
  (group_end base_id g = None → ∃ event g', moves event = true ∧ group_event event g = Some g').
Proof.
  intros H. split.
  - pose proof (events_measure _ _ _ (group_start_inv cancelled) H). pose proof (measure_start cancelled). lia.
  - intros Hend. unfold group_end in Hend. pose proof (reached_inv _ _ _ H) as Hinv.
    destruct (gr_error g) eqn:He; [done|]. apply group_moves; [done..|]. by destruct (taken (gr_phases g)).
Qed.
End invariant.

(** * Base jobs and the scheduler

    What [execute_base_group] returns is one of the results the scheduler's model
    ([Scheduler.base_group]) lets a running base job have; and the concurrency
    scopes a gate opens are opened together or not at all. *)

Section refinement.
Context `{VL : ValueLib} `{EL : ExpressionLib} `{JL : !JsonLib} `{JI : !JsonInterop}.
Context (hash_files : string → list string → outcome ExpressionError string).
Context (acquire : Scopes → string → Request → list Uuid → Acquisition) (release : Scopes → Uuid → outcome string unit).
Context (arch workflow_name : string) (plan_index : nat) (run : RunSpec JValue).
Context (repository_dir run_dir : string) (environment : gmap string string).
Context (report_skipped : string → string → string → outcome string unit).

Notation base_group := (Scheduler.base_group hash_files).
Notation open_base r := (open_base_group hash_files acquire release arch workflow_name plan_index (rn_base_id r) run
  (rn_completed_bases r) (rn_completed_outputs r) (rn_completion_order r) repository_dir run_dir environment report_skipped).

Lemma always_matrix_instances (template : PlannedJob) combinations :
  always <$> matrix_instances template combinations = dynamic_instances template combinations.
Proof.
  unfold matrix_instances, dynamic_instances. rewrite <-list_fmap_compose. apply list_fmap_ext.
  intros _ [index matrix] _. reflexivity.
Qed.

Lemma expand_dynamic_matrix_job_Ok arch' name template run' bases outputs dir dir' env inputs jobs :
  expand_dynamic_matrix_job hash_files arch' name template run' bases outputs dir dir' env inputs = Ok jobs →
  ∃ combinations, jobs = matrix_instances template combinations.
Proof.
  unfold expand_dynamic_matrix_job. intros H.
  repeat (apply obind_Ok in H as (? & _ & H)). injection H as <-. by eexists.
Qed.

Lemma open_virtual_Ok base_id bases outputs order template virtual_job context s s' opening :
  open_virtual hash_files release base_id bases outputs order template virtual_job context s = (s', Ok opening) →
  ∃ execution, opening = OpenDone execution ∧
    execute_virtual_job hash_files base_id virtual_job bases outputs order context = Ok execution.
Proof.
  unfold open_virtual. destruct (release_concurrency_scopes _ _ _) as [s1 released]. intros [= _ H].
  apply obind_Ok in H as (execution & He & H). apply obind_Ok in H as (_ & _ & H). injection H as <-. by exists execution.
Qed.

Lemma open_instances_Ok base_id bases outputs name inputs instances opening :
  open_instances hash_files arch name base_id run bases outputs repository_dir run_dir environment instances inputs = Ok opening →
  ∃ instances', opening = OpenInstances instances' inputs.
Proof.
  unfold open_instances. intros H. apply obind_Ok in H as (instances' & _ & H). apply obind_Ok in H as (_ & _ & H).
  injection H as <-. by eexists.
Qed.

Lemma group_end_Ok base_id g execution :
  group_end base_id g = Some (Ok execution) → ∃ executions, execution = collect_executions base_id executions.
Proof.
  unfold group_end. destruct (gr_error g) as [[[]| |]|]; [done..|]. destruct (taken (gr_phases g)) as [executions|]; [|done].
  cbn. destruct (gr_run_cancelled g); [done|]. intros [= <-]. by exists executions.
Qed.

(** C8: what [execute_base_group] returns is a result the scheduler allows for the
    base job: before its instances, and with them whatever the order of their
    events. *)
Theorem base_groups_refine_the_scheduler r s s' opening :
  open_base r (rn_jobs r) s = (s', Ok opening) →
  match opening with
  | OpenDone execution => base_group r execution
  | OpenInstances instances _ =>
      ∀ concurrency cancelled events g execution,
        group_events instances concurrency events (group_start instances cancelled) = Some g →
        group_end (rn_base_id r) g = Some (Ok execution) → base_group r execution
  end.
Proof.
  intros H. unfold open_base_group in H.
  destruct (obind _ _) as [[[[template context] inputs] allowed]| |] eqn:E in H; [|done..].
  apply obind_Ok in E as (template' & Ht & E). apply obind_Ok in E as (status & Hs & E).
  apply obind_Ok in E as ([context' inputs'] & _ & E). apply obind_Ok in E as (allowed' & Ha & E). injection E as <- <- <- <-.
  unfold base_template in Ht. destruct (head (rn_jobs r)) as [first|] eqn:Hf; [|done]. injection Ht as <-.
  destruct allowed'; cbn [negb] in H.
  2: { injection H as _ H. unfold skip_base_group in H. apply obind_Ok in H as (name & _ & H).
       apply obind_Ok in H as (_ & _ & H). injection H as <-. by eapply group_skipped. }
  destruct (if is_nil _ then _ else _) as [s1 [[]| |]] eqn:Eacq in H; [|by injection H as _ <-; apply group_cancelled|done..].
  change (pj_condition (first <| pj_matrix := ∅ |>)) with (pj_condition first) in Ha. unfold step_allows in Ha.
  unfold open_allowed in H. change (pj_virtual_job (first <| pj_matrix := ∅ |>)) with (pj_virtual_job first) in H.
  destruct (pj_virtual_job first) as [virtual_job|] eqn:Ev.
  2: { injection H as _ H. apply open_instances_Ok in H as (instances & ->).
       intros concurrency cancelled events g execution _ Hend. apply group_end_Ok in Hend as [executions ->].
       by eapply group_jobs. }
  destruct virtual_job as [|jobs outputs|invocations max_parallel fail_fast|plan vinputs secrets outputs];
    try (apply open_virtual_Ok in H as (execution & -> & He); by eapply group_virtual).
  injection H as _ H. apply obind_Ok in H as (matrix & Hm & H). apply obind_Ok in H as (jobs & Hj & H). injection H as <-.
  unfold expand_instances in Hm. destruct (rn_jobs r) as [|template [|]] eqn:Ej; [done| |done].
  injection Hf as ->. apply expand_dynamic_matrix_job_Ok in Hm as [combinations ->]. rewrite always_matrix_instances in Hj.
  destruct (expand_dynamic_reusable_call _ _ _ _ _ _) as [jobs'| |] eqn:Ex in Hj; [|done..]. injection Hj as <-.
  by eapply group_dynamic.
Qed.
End refinement.

(** ** Concurrency scopes *)

Section scopes.
Context `{VL : ValueLib} `{EL : ExpressionLib} `{JL : !JsonLib} `{JI : !JsonInterop}.
Context (hash_files : string → list string → outcome ExpressionError string).
Context (acquire : Scopes → string → Request → list Uuid → Acquisition) (release : Scopes → Uuid → outcome string unit).

Notation acquire_scopes := (acquire_scopes hash_files acquire release).

Lemma release_leases_spec leases first_error s :
  let s' := (release_leases release leases first_error s).1 in
  sc_active s' = sc_active s ∧ sc_acquired s' = sc_acquired s ∧ sc_released s' = sc_released s ++ leases.
Proof.
  cbv zeta. revert first_error s. induction leases as [|lease leases IH]; intros first_error s; cbn [release_leases].
  - by rewrite app_nil_r.
  - cbv zeta. destruct (IH (match first_error with Ok _ => release s lease | _ => first_error end)
      (s <| sc_released := sc_released s ++ [lease] |>)) as (-> & -> & ->).
    unfold_updates. by rewrite <-app_assoc.
Qed.

(** The scopes [ids] with their leases, on top of [active]. *)
Definition scopes_over (ids : list string) (leases : list Uuid) (active : gmap string Uuid) : gmap string Uuid :=
  list_to_map (zip ids leases) ∪ active.

Lemma remove_scopes_over ids leases active acc :
  NoDup ids → length ids = length leases → (∀ id, id ∈ ids → active !! id = None) →
  fold_left (λ '(leases, active) scope_id,
    match active !! scope_id with
    | Some lease => (leases ++ [lease], delete scope_id active)
    | None => (leases, active)
    end) ids (acc, scopes_over ids leases active) = (acc ++ leases, active).
Proof.
  unfold scopes_over. revert leases acc. induction ids as [|id ids IH]; intros [|lease leases] acc Hnd Hlen Hnew; try done.
  - cbn. by rewrite app_nil_r, (left_id_L ∅ (∪)).
  - apply NoDup_cons in Hnd as [Hid Hnd]. 
    change (zip (id :: ids) (lease :: leases)) with ((id, lease) :: zip ids leases).
    rewrite list_to_map_cons, <-insert_union_l. cbn [fold_left]. rewrite lookup_insert_eq, delete_insert_id.
    2: { rewrite lookup_union, (Hnew id) by apply list_elem_of_here.
      rewrite (not_elem_of_list_to_map_1 (zip ids leases) id); [done|].
      intros Hin. apply Hid. rewrite fst_zip in Hin; [done|]. injection Hlen. lia. }
    rewrite IH; [by rewrite <-app_assoc | done | by injection Hlen | intros other Hin; by apply Hnew, list_elem_of_further].
Qed.

Lemma hand_back_over {A} ids leases active (result : outcome string A) s :
  NoDup ids → length ids = length leases → (∀ id, id ∈ ids → active !! id = None) → sc_active s = scopes_over ids leases active →
  let '(s', result') := hand_back release ids result s in
  sc_active s' = active ∧ sc_acquired s' = sc_acquired s ∧ sc_released s' = sc_released s ++ leases ∧
  (∀ a, result' = Ok a → result = Ok a).
Proof.
  intros Hnd Hlen Hnew Hactive. unfold hand_back, release_concurrency_scopes, remove_scopes.
  rewrite Hactive, remove_scopes_over by done. cbn [app].
  pose proof (release_leases_spec leases (Ok tt) (s <| sc_active := active |>)) as Hspec. cbv zeta in Hspec.
  destruct (release_leases _ _ _ _) as [s' released]. cbn [fst] in Hspec. destruct Hspec as (? & ? & ?).
  unfold_updates. split_and!; [done..|]. by destruct released.
Qed.

Lemma scopes_over_snoc ids leases active id lease :
  length ids = length leases → id ∉ ids →
  <[id := lease]> (scopes_over ids leases active) = scopes_over (ids ++ [id]) (leases ++ [lease]) active.
Proof.
  intros Hlen Hid. unfold scopes_over. rewrite insert_union_l, zip_with_app by done. cbn [zip_with].
  rewrite list_to_map_snoc; [done|]. rewrite fst_zip by lia. done.
Qed.

(** What acquiring [scopes] after [ids] comes to. *)
Definition acquired_over (ids : list string) (scopes : list PlannedConcurrencyScope) (s0 s' : Scopes)
    (result : outcome string bool) : Prop :=
  ∃ leases, sc_acquired s' = sc_acquired s0 ++ leases ∧
    match result with
    | Ok true => NoDup (ids ++ (cs_id <$> scopes)) ∧ length (ids ++ (cs_id <$> scopes)) = length leases ∧
        (∀ id, id ∈ ids ++ (cs_id <$> scopes) → sc_active s0 !! id = None) ∧
        sc_active s' = scopes_over (ids ++ (cs_id <$> scopes)) leases (sc_active s0) ∧ sc_released s' = sc_released s0
    | Ok false | Err _ => sc_active s' = sc_active s0 ∧ sc_released s' = sc_released s0 ++ leases
    | Panic => True
    end.

Lemma given_up ids leases scopes s0 s (result : outcome string bool) :
  NoDup ids → length ids = length leases → (∀ id, id ∈ ids → sc_active s0 !! id = None) →
  sc_active s = scopes_over ids leases (sc_active s0) → sc_acquired s = sc_acquired s0 ++ leases → sc_released s = sc_released s0 →
  result ≠ Ok true →
  let '(s', result') := hand_back release ids result s in acquired_over ids scopes s0 s' result'.
Proof.
  intros Hnd Hlen Hnew Hactive Hacquired Hreleased Hne.
  pose proof (hand_back_over ids leases (sc_active s0) result s Hnd Hlen Hnew Hactive) as H.
  destruct (hand_back release ids result s) as [s' result']. destruct H as (Ha & Hq & Hr & Hok).
  exists leases. rewrite Hq, Hacquired. split; [done|].
  destruct result' as [[]|error|]; [by destruct Hne; apply Hok| | |done]; by rewrite Ha, Hr, Hreleased.
Qed.

Lemma acquire_scopes_spec job context scopes ids leases s0 s :
  NoDup ids → length ids = length leases → (∀ id, id ∈ ids → sc_active s0 !! id = None) →
  sc_active s = scopes_over ids leases (sc_active s0) → sc_acquired s = sc_acquired s0 ++ leases → sc_released s = sc_released s0 →
  let '(s', result) := acquire_scopes job context scopes ids s in acquired_over ids scopes s0 s' result.
Proof.
  revert ids leases s. induction scopes as [|scope scopes IH]; intros ids leases s Hnd Hlen Hnew Hactive Hacquired Hreleased.
  { cbn. exists leases. by rewrite app_nil_r. }
  cbn [BaseGroup.acquire_scopes].
  pose proof (λ result, given_up ids leases (scope :: scopes) s0 s result Hnd Hlen Hnew Hactive Hacquired Hreleased) as Hgive.
  destruct (sc_active s !! cs_id scope) as [lease0|] eqn:El; cbn [is_some]; [by apply Hgive|].
  assert (cs_id scope ∉ ids ∧ sc_active s0 !! cs_id scope = None) as [Hid Hnone].
  { rewrite Hactive in El. unfold scopes_over in El. apply lookup_union_None in El as [El Hn]. split; [|done].
    apply not_elem_of_list_to_map in El. by rewrite fst_zip in El by lia. }
  destruct (scope_request hash_files job context scope) as [request|error|]; [|by apply Hgive|].
  2: { exists leases. by split. }
  destruct (acquire _ _ _ _) as [lease|reason|error]; [|by apply Hgive..].
  specialize (IH (ids ++ [cs_id scope]) (leases ++ [lease])
    (s <| sc_active := <[cs_id scope := lease]> (sc_active s) |> <| sc_acquired := sc_acquired s ++ [lease] |>)).
  assert (ids ++ (cs_id <$> scope :: scopes) = (ids ++ [cs_id scope]) ++ (cs_id <$> scopes)) as Hids
    by (by rewrite fmap_cons, <-app_assoc).
  unfold acquired_over in *. rewrite Hids. apply IH; unfold_updates.
  - apply NoDup_app. split_and!; [done | by intros ? ? ->%list_elem_of_singleton | apply NoDup_singleton].
  - rewrite !length_app. cbn. lia.
  - intros id [Hin | ->%list_elem_of_singleton]%elem_of_app; [by apply Hnew | done].
  - rewrite Hactive. by apply scopes_over_snoc.
  - by rewrite Hacquired, app_assoc.
  - done.
Qed.

(** the concurrency scopes a job opens are opened together or not at all: when
    it is told to go on, each of its scopes, none of which was open, holds a lease
    of its own and nothing else has changed; otherwise the scopes that are open are
    those that were, and every lease acquired on the way has been released. *)
Theorem concurrency_scopes_open_together job context s s' result :
  acquire_concurrency_scopes hash_files acquire release job context s = (s', result) → result ≠ Panic →
  ∃ leases, sc_acquired s' = sc_acquired s ++ leases ∧
    match result with
    | Ok true =>
      NoDup (cs_id <$> pj_concurrency_acquire job) ∧ length (cs_id <$> pj_concurrency_acquire job) = length leases ∧
      (∀ id, id ∈ cs_id <$> pj_concurrency_acquire job → sc_active s !! id = None) ∧
      sc_active s' = scopes_over (cs_id <$> pj_concurrency_acquire job) leases (sc_active s) ∧
      sc_released s' = sc_released s
    | Ok false | Err _ | Panic => sc_active s' = sc_active s ∧ sc_released s' = sc_released s ++ leases
    end.
Proof.
  unfold acquire_concurrency_scopes. intros H Hpanic.
  pose proof (acquire_scopes_spec job context (pj_concurrency_acquire job) [] [] s s) as Hspec.
  rewrite H in Hspec. destruct Hspec as (leases & Hacquired & Hspec).
  - constructor.
  - done.
  - by intros id ?%elem_of_nil.
  - unfold scopes_over. cbn. by rewrite (left_id_L ∅ (∪)).
  - by rewrite app_nil_r.
  - done.
  - exists leases. split; [done|]. by destruct result as [[]| |].
Qed.
End scopes.
