(* ===== verification/CheckSummary.v ===== *)
(** * The summary of a run (crates/gitzero-agent, executor.rs)

    What the check of a run shows: the status of the run and the summaries its
    steps wrote, cut to the size GitHub accepts. *)

From S2P Require Import Prelude RustStr RustText UnixPath.

Definition MAX_CHECK_SUMMARY_UTF16_UNITS : nat := 60 * 1000.

Record StepSummary := mkStepSummary { ss_name : string; ss_markdown : string }.

Record JobSummary := mkJobSummary {
  js_completed_order : Z;
  js_job_name : string;
  js_steps : list StepSummary;
  js_omitted_steps : bool;
}.

Definition newline : string := String lf "".

(** The lines that are not empty, on one line. *)
Fixpoint split_lines_from (line s : string) : list string :=
  match s with
  | EmptyString => [line]
  | String c r => if is_line_end c then line :: split_lines_from "" r else split_lines_from (line +:+ String c "") r
  end.

Definition summary_heading (value : string) : string :=
  sjoin " " (base.filter (λ line, is_empty line = false) (split_lines_from "" value)).

Definition truncation_marker : string :=
  newline +:+ newline +:+ "_Step summaries truncated to fit the GitHub Check limit._".

(** The characters that fit in the budget. *)
Definition truncate_utf16 (value : string) (maximum_units : nat) : string :=
  if bool_decide (utf16_len value ≤ maximum_units) then value
  else
    let budget := maximum_units - utf16_len truncation_marker in
    sconcat (utf16_prefix budget 0 (chars value)) +:+ truncation_marker.

Definition step_section (step : StepSummary) : string :=
  newline +:+ newline +:+ "### " +:+ summary_heading (ss_name step) +:+ newline +:+ newline +:+ ss_markdown step +:+
  (if ends_with newline (ss_markdown step) then "" else newline).

Definition omitted_notice : string :=
  newline +:+ "_Additional step summaries were omitted after GitHub's 20-summary job limit._" +:+ newline.

Definition job_section (job : JobSummary) : string :=
  newline +:+ newline +:+ "---" +:+ newline +:+ newline +:+ "## " +:+ summary_heading (js_job_name job) +:+
  sconcat (step_section <$> js_steps job) +:+ (if js_omitted_steps job then omitted_notice else "").

Definition completed_before (a b : JobSummary) : Prop := (js_completed_order a ≤ js_completed_order b)%Z.

#[export] Instance completed_before_dec : RelDecision completed_before.
Proof. intros a b. unfold completed_before. apply _. Defined.

#[export] Instance completed_before_total : Total completed_before.
Proof. intros a b. unfold completed_before. lia. Qed.

#[export] Instance completed_before_transitive : Transitive completed_before.
Proof. intros a b c. unfold completed_before. lia. Qed.

(** The whole text; [sort_by_key] is stable. *)
Definition check_summary_text (status : string) (jobs : list JobSummary) : string :=
  status +:+ sconcat (job_section <$> merge_sort completed_before jobs).

Definition compose_check_summary (status : string) (jobs : list JobSummary) : string :=
  truncate_utf16 (check_summary_text status jobs) MAX_CHECK_SUMMARY_UTF16_UNITS.

(** ** Characters of a valid text *)

(** A character that stands by itself, whatever follows. *)
Definition whole_char (c : string) : Prop := c ≠ "" ∧ ∀ r, chars (c +:+ r) = c :: chars r.

Lemma chars_whole cs r : Forall whole_char cs → chars (sconcat cs +:+ r) = cs ++ chars r.
Proof.
  induction 1 as [|c cs [_ Hc] _ IH]; [done|]. cbn [sconcat foldr].
  change (foldr _ "" cs) with (sconcat cs). rewrite sapp_assoc, Hc, IH. done.
Qed.

Lemma byte_in_spec lo hi c : byte_in lo hi c = true ↔ (lo ≤ N_of_ascii c ≤ hi)%N.
Proof. unfold byte_in. by rewrite andb_true_iff, !bool_decide_eq_true. Qed.

Lemma byte_out lo hi lo' hi' c :
  byte_in lo hi c = true → (hi < lo' ∨ hi' < lo)%N → byte_in lo' hi' c = false.
Proof. intros H Ho. apply not_true_is_false. rewrite byte_in_spec in *. lia. Qed.

Lemma whole_one a : byte_in 0 127 a = true → whole_char (String a "").
Proof.
  intros Ha. split; [done|]. intros r. rewrite sapp_cons, sapp_nil_l.
  assert (byte_in 192 223 a = false) as E1 by (eapply byte_out; [done | lia]).
  assert (byte_in 224 239 a = false) as E2 by (eapply byte_out; [done | lia]).
  assert (byte_in 240 247 a = false) as E3 by (eapply byte_out; [done | lia]).
  destruct r as [|b [|c [|d r]]]; cbn [chars]; by rewrite ?E1, ?E2, ?E3.
Qed.

Lemma whole_two a b : byte_in 192 223 a = true → whole_char (String a (String b "")).
Proof. intros Ha. split; [done|]. intros r. rewrite !sapp_cons, sapp_nil_l. cbn [chars]. by rewrite Ha. Qed.

Lemma whole_three a b c : byte_in 224 239 a = true → whole_char (String a (String b (String c ""))).
Proof.
  intros Ha. split; [done|]. intros r. rewrite !sapp_cons, sapp_nil_l. cbn [chars].
  assert (byte_in 192 223 a = false) as -> by (eapply byte_out; [done | lia]). by rewrite Ha.
Qed.

Lemma whole_four a b c d : byte_in 240 247 a = true → whole_char (String a (String b (String c (String d "")))).
Proof.
  intros Ha. split; [done|]. intros r. rewrite !sapp_cons, sapp_nil_l. cbn [chars].
  assert (byte_in 192 223 a = false) as -> by (eapply byte_out; [done | lia]).
  assert (byte_in 224 239 a = false) as -> by (eapply byte_out; [done | lia]). by rewrite Ha.
Qed.

Lemma byte_within lo hi lo' hi' c :
  byte_in lo hi c = true → (lo' ≤ lo)%N → (hi ≤ hi')%N → byte_in lo' hi' c = true.
Proof. rewrite !byte_in_spec. lia. Qed.

(** A text whose first character is [c]. *)
Lemma chars_prefix c s : whole_char c → Forall whole_char (chars s) ∧ sconcat (chars s) = s →
  Forall whole_char (chars (c +:+ s)) ∧ sconcat (chars (c +:+ s)) = c +:+ s.
Proof.
  intros Hc [Hs Heq]. destruct Hc as [Hne Hc]. rewrite Hc. split; [by constructor|].
  cbn [sconcat foldr]. change (foldr _ "" (chars s)) with (sconcat (chars s)). by rewrite Heq.
Qed.

Lemma valid_chars s : valid_utf8 s = true → Forall whole_char (chars s) ∧ sconcat (chars s) = s.
Proof.
  remember (slen s) as n eqn:Hn. revert s Hn. induction n as [n IH] using (well_founded_ind lt_wf).
  intros s ->. destruct s as [|a s]; [by repeat constructor|]. cbn [valid_utf8].
  assert (Hnext : ∀ c r, String a s = c +:+ r → whole_char c → valid_utf8 r = true →
    Forall whole_char (chars (String a s)) ∧ sconcat (chars (String a s)) = String a s).
  { intros c r Heq Hc Hr. rewrite Heq in *. apply chars_prefix; [done|]. eapply IH; [|done|done].
    rewrite slen_app. destruct Hc as [Hne _]. destruct c; [done|]. rewrite slen_string. lia. }
  destruct (byte_in 0 127 a) eqn:E1; [intros H; by apply (Hnext (String a "") s); [|apply whole_one|]|].
  destruct s as [|b s]; [done|].
  destruct (byte_in 194 223 a) eqn:E2.
  { intros [_ H]%andb_true_iff. apply (Hnext (String a (String b "")) s); [done | | done].
    apply whole_two. eapply byte_within; [done | lia | lia]. }
  destruct s as [|c s]; [done|].
  assert (Hthree : byte_in 224 239 a = true → valid_utf8 s = true →
    Forall whole_char (chars (String a (String b (String c s)))) ∧
    sconcat (chars (String a (String b (String c s)))) = String a (String b (String c s))).
  { intros Ha H. by apply (Hnext (String a (String b (String c ""))) s); [|apply whole_three|]. }
  destruct (byte_in 224 224 a) eqn:E3.
  { intros [_ H]%andb_true_iff. apply Hthree; [eapply byte_within; [done | lia | lia] | done]. }
  destruct (byte_in 237 237 a) eqn:E4.
  { intros [_ H]%andb_true_iff. apply Hthree; [eapply byte_within; [done | lia | lia] | done]. }
  destruct (byte_in 225 239 a) eqn:E5.
  { intros [_ H]%andb_true_iff. apply Hthree; [eapply byte_within; [done | lia | lia] | done]. }
  destruct s as [|d s]; [done|].
  assert (Hfour : byte_in 240 247 a = true → valid_utf8 s = true →
    Forall whole_char (chars (String a (String b (String c (String d s))))) ∧
    sconcat (chars (String a (String b (String c (String d s))))) = String a (String b (String c (String d s)))).
  { intros Ha H. by apply (Hnext (String a (String b (String c (String d "")))) s); [|apply whole_four|]. }
  destruct (byte_in 240 240 a) eqn:E6.
  { intros [_ H]%andb_true_iff. apply Hfour; [eapply byte_within; [done | lia | lia] | done]. }
  destruct (byte_in 241 243 a) eqn:E7.
  { intros [_ H]%andb_true_iff. apply Hfour; [eapply byte_within; [done | lia | lia] | done]. }
  destruct (byte_in 244 244 a) eqn:E8; [|done].
  intros [_ H]%andb_true_iff. apply Hfour; [eapply byte_within; [done | lia | lia] | done].
Qed.

Lemma sconcat_app l k : sconcat (l ++ k) = sconcat l +:+ sconcat k.
Proof.
  induction l as [|c l IH]; [done|]. cbn [app sconcat foldr].
  change (foldr _ "" (l ++ k)) with (sconcat (l ++ k)). by rewrite IH, sapp_assoc.
Qed.

Lemma utf16_prefix_fits maximum units cs :
  units ≤ maximum → units + sum_list (len_utf16 <$> utf16_prefix maximum units cs) ≤ maximum.
Proof.
  revert units. induction cs as [|c cs IH]; intros units Hu; cbn [utf16_prefix]; [cbn; lia|].
  case_bool_decide as Hlt; [cbn; lia|]. specialize (IH (units + len_utf16 c) ltac:(lia)).
  rewrite fmap_cons. cbn [sum_list sum_list_with] in *. unfold id in *. lia.
Qed.

(** The prefix is the longest that fits. *)
Lemma utf16_prefix_longest maximum units cs :
  ∃ rest, cs = utf16_prefix maximum units cs ++ rest ∧
    match rest with
    | [] => True
    | c :: _ => maximum < units + sum_list (len_utf16 <$> utf16_prefix maximum units cs) + len_utf16 c
    end.
Proof.
  revert units. induction cs as [|c cs IH]; intros units; cbn [utf16_prefix]; [by exists []|].
  case_bool_decide as Hlt; [exists (c :: cs); split; [done | cbn; lia]|].
  destruct (IH (units + len_utf16 c)) as (rest & Heq & Hrest). exists rest. split.
  - cbn [app]. by rewrite <- Heq.
  - destruct rest as [|d rest]; [done|]. rewrite fmap_cons. cbn [sum_list sum_list_with] in *. unfold id in *. lia.
Qed.

Lemma truncation_marker_fits : utf16_len truncation_marker ≤ MAX_CHECK_SUMMARY_UTF16_UNITS.
Proof.
  transitivity 100; [apply (bool_decide_unpack _); by vm_compute | unfold MAX_CHECK_SUMMARY_UTF16_UNITS; lia].
Qed.

Lemma utf16_prefix_whole maximum units cs : Forall whole_char cs → Forall whole_char (utf16_prefix maximum units cs).
Proof.
  intros H. destruct (utf16_prefix_longest maximum units cs) as (rest & Heq & _). rewrite Heq in H.
  by apply Forall_app in H as [? _].
Qed.

Lemma utf16_len_whole cs r :
  Forall whole_char cs → utf16_len (sconcat cs +:+ r) = sum_list (len_utf16 <$> cs) + utf16_len r.
Proof. intros H. unfold utf16_len. by rewrite (chars_whole _ _ H), fmap_app, sum_list_with_app. Qed.

(** C33: The summary of a run is at most 60,000 UTF-16 units long.  It is the whole
    text when that fits; otherwise it is the longest run of leading characters that
    leaves room for the notice of the truncation, and that notice. *)
Theorem check_summaries_fit status jobs :
  valid_utf8 (check_summary_text status jobs) = true →
  let summary := compose_check_summary status jobs in
  utf16_len summary ≤ MAX_CHECK_SUMMARY_UTF16_UNITS ∧
  (utf16_len (check_summary_text status jobs) ≤ MAX_CHECK_SUMMARY_UTF16_UNITS ∧ summary = check_summary_text status jobs ∨
   MAX_CHECK_SUMMARY_UTF16_UNITS < utf16_len (check_summary_text status jobs) ∧
   ∃ kept next dropped, check_summary_text status jobs = kept +:+ next +:+ dropped ∧
     summary = kept +:+ truncation_marker ∧ next ∈ chars (check_summary_text status jobs) ∧
     MAX_CHECK_SUMMARY_UTF16_UNITS < utf16_len kept + len_utf16 next + utf16_len truncation_marker).
Proof.
  intros [Hwhole Htext]%valid_chars summary. unfold summary, compose_check_summary, truncate_utf16.
  set (text := check_summary_text status jobs) in *. case_bool_decide as Hfits; [split; [done | by left]|].
  split.
  - rewrite utf16_len_whole by by apply utf16_prefix_whole. pose proof truncation_marker_fits.
    pose proof (utf16_prefix_fits (MAX_CHECK_SUMMARY_UTF16_UNITS - utf16_len truncation_marker) 0 (chars text)
      ltac:(lia)). lia.
  - right. split; [lia|].
    destruct (utf16_prefix_longest (MAX_CHECK_SUMMARY_UTF16_UNITS - utf16_len truncation_marker) 0 (chars text))
      as (rest & Heq & Hrest).
    pose proof (utf16_prefix_fits (MAX_CHECK_SUMMARY_UTF16_UNITS - utf16_len truncation_marker) 0 (chars text)
      ltac:(lia)) as Hsum.
    set (kept := utf16_prefix _ 0 (chars text)) in *. destruct rest as [|next rest].
    { rewrite app_nil_r in Heq. unfold utf16_len in Hfits. rewrite Heq in Hfits. lia. }
    exists (sconcat kept), next, (sconcat rest). split_and!.
    + rewrite <- Htext, Heq, sconcat_app. done.
    + done.
    + rewrite Heq. apply elem_of_app. right. apply list_elem_of_here.
    + rewrite <- (sapp_nil_r (sconcat kept)), utf16_len_whole.
      * pose proof truncation_marker_fits. change (utf16_len "") with 0. lia.
      * rewrite Heq in Hwhole. by apply Forall_app in Hwhole as [? _].
Qed.

(** ** A witness *)

Definition demo_summaries : list JobSummary :=
  [mkJobSummary 2 "test" [mkStepSummary "unit" "12 passed"] false;
   mkJobSummary 1 "build" [mkStepSummary "compile" ("ok" +:+ newline)] true].

Lemma check_summaries_fit_witness :
  starts_with ("Run finished" +:+ newline +:+ newline +:+ "---" +:+ newline +:+ newline +:+ "## build")
    (compose_check_summary "Run finished" demo_summaries) = true ∧
  let summary := compose_check_summary "Run finished" demo_summaries in
  utf16_len summary ≤ MAX_CHECK_SUMMARY_UTF16_UNITS ∧
  (utf16_len (check_summary_text "Run finished" demo_summaries) ≤ MAX_CHECK_SUMMARY_UTF16_UNITS ∧
     summary = check_summary_text "Run finished" demo_summaries ∨
   MAX_CHECK_SUMMARY_UTF16_UNITS < utf16_len (check_summary_text "Run finished" demo_summaries) ∧
   ∃ kept next dropped, check_summary_text "Run finished" demo_summaries = kept +:+ next +:+ dropped ∧
     summary = kept +:+ truncation_marker ∧ next ∈ chars (check_summary_text "Run finished" demo_summaries) ∧
     MAX_CHECK_SUMMARY_UTF16_UNITS < utf16_len kept + len_utf16 next + utf16_len truncation_marker).
Proof. split; [by vm_compute | by apply (check_summaries_fit "Run finished" demo_summaries)]. Defined.
