(* ===== verification/DeploymentPattern.v ===== *)
(** * Patterns of deployment branch policies (crates/gitzero-agent, executor.rs)

    [deployment_pattern_matches]: the matcher of the branch and tag patterns of a
    GitHub environment, a backtracking search over two arrays of characters that
    remembers the positions it has decided.  [reads] says what a pattern means,
    on the characters that are left; the matcher is proved to decide it. *)

From S2P Require Import Prelude RustStr OrdMap.

Definition MAX_DEPLOYMENT_BRANCH_PATTERN_BYTES : Z := 1024.

Definition is_nul_or_line_end (c : ascii) : bool :=
  bool_decide (c = nul) || bool_decide (c = lf) || bool_decide (c = cr).

(** [start <= end] of two characters: UTF-8 keeps the order of code points. *)
Definition char_le (a b : string) : bool := String.leb a b.

Definition is_char (c : string) (o : option string) : bool := bool_decide (o = Some c).

(** ** The matcher *)

(** The characters of a class from [index], with a mark on the escaped ones, and
    the index of the closing bracket or the end; [None] for an escape that ends
    the pattern.  The fuel is the number of characters of the pattern. *)
Fixpoint class_values (fuel : nat) (pattern : list string) (index : nat) (values : list (string * bool)) :
    outcome string (option (nat * list (string * bool))) :=
  match pattern !! index with
  | None => Ok (Some (index, values))
  | Some character =>
      if bool_decide (character = "]") then Ok (Some (index, values))
      else match fuel with
      | 0 => Panic
      | S fuel =>
          if bool_decide (character = "\")
          then match pattern !! S index with
               | Some escaped => class_values fuel pattern (S (S index)) (values ++ [(escaped, true)])
               | None => Ok None
               end
          else class_values fuel pattern (S index) (values ++ [(character, false)])
      end
  end.

(** The ranges and the single characters of a class; the fuel is their number. *)
Fixpoint class_matches (fuel : nat) (values : list (string * bool)) (value_index : nat) (value : string)
    (matched : bool) : outcome string bool :=
  match values !! value_index with
  | None => Ok matched
  | Some (first, _) =>
      match fuel with
      | 0 => Panic
      | S fuel =>
          match values !! (value_index + 2) with
          | Some (last, _) =>
              if bool_decide (values !! S value_index = Some ("-", false))
              then class_matches fuel values (value_index + 3) value
                     (matched || char_le first last && (char_le first value && char_le value last))
              else class_matches fuel values (S value_index) value (matched || bool_decide (first = value))
          | None => class_matches fuel values (S value_index) value (matched || bool_decide (first = value))
          end
      end
  end.

Definition character_class (pattern : list string) (start : nat) (value : string) :
    outcome string (option (nat * bool)) :=
  let index := S start in
  let negated := is_char "!" (pattern !! index) || is_char "^" (pattern !! index) in
  let index := if negated then S index else index in
  let? found := class_values (length pattern) pattern index [] in
  match found with
  | None => Ok None
  | Some (index, values) =>
      if bool_decide (length pattern ≤ index) || is_nil values then Ok None
      else let? matched := class_matches (length values) values 0 value false in
           Ok (Some (S index, if negated then negb matched else matched))
  end.

(** [while pattern.get(after_stars) == Some(&'*')] *)
Fixpoint skip_stars (l : list string) : list string :=
  match l with
  | c :: r => if bool_decide (c = "*") then skip_stars r else l
  | [] => []
  end.

Definition after_stars (pattern : list string) (pattern_index : nat) : nat :=
  length pattern - length (skip_stars (drop (S pattern_index) pattern)).

(** [position] of the next slash *)
Definition relative_slash (l : list string) : option nat :=
  fst <$> list_find (λ c, c = "/") l.

Definition Memo : Type := gmap (nat * nat) bool.

(** [a && b]: the second operand runs when the first is true. *)
Definition and_then (a : bool) (b : Memo → outcome string (bool * Memo)) (memo : Memo) : outcome string (bool * Memo) :=
  if a then b memo else Ok (false, memo).

Definition or_else (a b : Memo → outcome string (bool * Memo)) (memo : Memo) : outcome string (bool * Memo) :=
  let? ' (found, memo) := a memo in if found then Ok (true, memo) else b memo.

Section matcher.
Context (pattern candidate : list string).

Definition at_segment_start (candidate_index : nat) : bool :=
  bool_decide (candidate_index = 0) || is_char "/" (candidate !! (candidate_index - 1)).

Definition globstar_directory (pattern_index : nat) : bool :=
  bool_decide (pattern_index + 2 ≤ after_stars pattern pattern_index)
  && is_char "/" (pattern !! after_stars pattern pattern_index)
  && (bool_decide (pattern_index = 0) || is_char "/" (pattern !! (pattern_index - 1))).

Section node.
Context (recurse : nat → nat → Memo → outcome string (bool * Memo)) (pi ci : nat).

(** ['?'] and ['[']: the characters a wildcard of one character may take *)
Definition wildcard_takes (character : string) : bool :=
  negb (bool_decide (character = "/")) && negb (at_segment_start ci && bool_decide (character = ".")).

Definition match_literal (literal : string) (next : nat) : Memo → outcome string (bool * Memo) :=
  and_then (is_char literal (candidate !! ci)) (recurse next (S ci)).

Definition match_class (memo : Memo) : outcome string (bool * Memo) :=
  match candidate !! ci with
  | Some character =>
      if wildcard_takes character then
        let? class := character_class pattern pi character in
        match class with
        | Some (next_pattern, class_matches) => and_then class_matches (recurse next_pattern (S ci)) memo
        | None => Ok (false, memo)
        end
      else Ok (false, memo)
  | None => Ok (false, memo)
  end.

Definition match_directories (memo : Memo) : outcome string (bool * Memo) :=
  match candidate !! ci with
  | Some first =>
      if bool_decide (first = ".") && at_segment_start ci then Ok (false, memo)
      else match relative_slash (drop ci candidate) with
           | Some slash => recurse pi (ci + slash + 1) memo
           | None => Ok (false, memo)
           end
  | None => Ok (false, memo)
  end.

Definition match_stars : Memo → outcome string (bool * Memo) :=
  let after := after_stars pattern pi in
  if globstar_directory pi then or_else (recurse (S after) ci) match_directories
  else if at_segment_start ci && is_char "." (candidate !! ci) then λ memo, Ok (false, memo)
  else or_else (recurse after ci)
         (match candidate !! ci with
          | Some character => and_then (negb (bool_decide (character = "/"))) (recurse pi (S ci))
          | None => λ memo, Ok (false, memo)
          end).

Definition match_node (memo : Memo) : outcome string (bool * Memo) :=
  if bool_decide (pi = length pattern) then Ok (bool_decide (ci = length candidate), memo)
  else
    let? character := expect (pattern !! pi) in
    if bool_decide (character = "\") then
      match pattern !! S pi with
      | Some literal => match_literal literal (pi + 2) memo
      | None => Ok (false, memo)
      end
    else if bool_decide (character = "/") then match_literal "/" (S pi) memo
    else if bool_decide (character = "?") then
      match candidate !! ci with
      | Some character => and_then (wildcard_takes character) (recurse (S pi) (S ci)) memo
      | None => Ok (false, memo)
      end
    else if bool_decide (character = "[") then match_class memo
    else if bool_decide (character = "*") then match_stars memo
    else match_literal character (S pi) memo.
End node.

Fixpoint matches (fuel : nat) (pattern_index candidate_index : nat) (memo : Memo) : outcome string (bool * Memo) :=
  match memo !! (pattern_index, candidate_index) with
  | Some result => Ok (result, memo)
  | None =>
      match fuel with
      | 0 => Panic
      | S fuel =>
          let? ' (result, memo) := match_node (matches fuel) pattern_index candidate_index memo in
          Ok (result, <[(pattern_index, candidate_index) := result]> memo)
      end
  end.
End matcher.

(** Each call leaves fewer characters of the two, so their number is enough. *)
Definition deployment_pattern_matches (pattern candidate : string) : outcome string bool :=
  if is_empty pattern || bool_decide (MAX_DEPLOYMENT_BRANCH_PATTERN_BYTES < Z.of_nat (slen pattern))%Z
     || contains_byte is_nul_or_line_end pattern
  then Ok false
  else let? ' (result, _) :=
         matches (chars pattern) (chars candidate) (S (length (chars pattern) + length (chars candidate))) 0 0 ∅ in
       Ok result.

(** ** What a pattern means *)

(** The body of a class after its bracket and negation, and what follows it. *)
Fixpoint class_body (l : list string) : option (list (string * bool) * list string) :=
  match l with
  | [] => None
  | c :: r =>
      if bool_decide (c = "]") then Some ([], r)
      else if bool_decide (c = "\") then
        match r with
        | escaped :: r => '(values, rest) ← class_body r; Some ((escaped, true) :: values, rest)
        | [] => None
        end
      else '(values, rest) ← class_body r; Some ((c, false) :: values, rest)
  end.

(** A character of a class: alone, or between the ends of a range. *)
Inductive in_class (v : string) : list (string * bool) → Prop :=
  | in_range a ea b eb values :
      char_le a v = true → char_le v b = true → in_class v ((a, ea) :: ("-", false) :: (b, eb) :: values)
  | in_after_range a b values : in_class v values → in_class v (a :: ("-", false) :: b :: values)
  | in_single e values : (∀ b values', values ≠ ("-", false) :: b :: values') → in_class v ((v, e) :: values)
  | in_after a values :
      (∀ b values', values ≠ ("-", false) :: b :: values') → in_class v values → in_class v (a :: values).

(** The class that opens [l]: negated or not, not empty, and closed. *)
Definition class_opens (l : list string) (negated : bool) (values : list (string * bool)) (rest : list string) : Prop :=
  values ≠ [] ∧
  if negated then ∃ mark body, l = mark :: body ∧ (mark = "!" ∨ mark = "^") ∧ class_body body = Some (values, rest)
  else (∀ mark body, l = mark :: body → mark ≠ "!" ∧ mark ≠ "^") ∧ class_body l = Some (values, rest).

Definition special (c : string) : bool :=
  bool_decide (c = "\") || bool_decide (c = "?") || bool_decide (c = "[") || bool_decide (c = "*").

Definition slash (c : string) : bool := bool_decide (c = "/").

(** [**/] at the start of a directory of the pattern *)
Definition directories (opening : bool) (p : list string) : bool :=
  opening && is_char "*" (head p) && is_char "/" (head (skip_stars p)).

(** [reads opening p start r]: the pattern [p] accepts [r], where [opening] says
    that the pattern is at the start of one of its directories and [start] that
    the candidate is at the start of a segment, where wildcards do not take a dot. *)
Inductive reads : bool → list string → bool → list string → Prop :=
  | reads_end o s : reads o [] s []
  | reads_plain o c p s r :
      special c = false → reads (slash c) p (slash c) r → reads o (c :: p) s (c :: r)
  | reads_escaped o c p s r :
      reads (slash c) p (slash c) r → reads o ("\" :: c :: p) s (c :: r)
  | reads_any o c p s r :
      c ≠ "/" → (s = true → c ≠ ".") → reads false p false r → reads o ("?" :: p) s (c :: r)
  | reads_class o c p s r negated values rest :
      c ≠ "/" → (s = true → c ≠ ".") → class_opens p negated values rest →
      (if negated then ¬ in_class c values else in_class c values) →
      reads false rest false r → reads o ("[" :: p) s (c :: r)
  | reads_star o p s u r :
      directories o p = false → (s = true → head (u ++ r) ≠ Some ".") → "/" ∉ u →
      reads false (skip_stars p) (s && is_nil u) r → reads o ("*" :: p) s (u ++ r)
  | reads_here o p s r :
      directories o p = true → reads true (tail (skip_stars p)) s r → reads o ("*" :: p) s r
  | reads_below o p s d r :
      directories o p = true → (s = true → head (d ++ ["/"]) ≠ Some ".") → "/" ∉ d →
      reads o ("*" :: p) true r → reads o ("*" :: p) s (d ++ "/" :: r).

(** * The matcher of deployment patterns decides what the patterns mean

    [deployment_pattern_matches] of [DeploymentPattern]: it ends without a panic,
    what it remembers is right, and it answers [reads]. *)

(** ** Classes *)

Lemma char_le_trans a b c : char_le a b = true → char_le b c = true → char_le a c = true.
Proof.
  unfold char_le, String.leb. revert b c.
  induction a as [|x a IH]; intros [|y b] [|z c]; cbn [String.compare]; try done.
  unfold Ascii.compare. intros Hxy Hyz.
  destruct (N.compare_spec (N_of_ascii x) (N_of_ascii y)) as [Exy|Lxy|]; [| |done];
    destruct (N.compare_spec (N_of_ascii y) (N_of_ascii z)) as [Eyz|Lyz|]; [| |done| | |done];
    destruct (N.compare_spec (N_of_ascii x) (N_of_ascii z)); try lia; eauto.
Qed.

Lemma class_values_closed pattern fuel index values body rest :
  class_body (drop index pattern) = Some (body, rest) → length pattern ≤ fuel + index →
  index + length rest < length pattern ∧ drop (length pattern - length rest) pattern = rest ∧
  pattern !! (length pattern - S (length rest)) = Some "]" ∧
  class_values fuel pattern index values = Ok (Some (length pattern - S (length rest), values ++ body)).
Proof.
  revert index values body. induction fuel as [|fuel IH]; intros index values body Hbody Hfuel.
  { by rewrite drop_ge in Hbody by lia. }
  cbn [class_values]. destruct (pattern !! index) as [c|] eqn:Hc; cycle 1.
  { apply lookup_ge_None in Hc. by rewrite drop_ge in Hbody by lia. }
  pose proof (lookup_lt_Some _ _ _ Hc) as Hlt.
  rewrite (drop_S _ _ _ Hc) in Hbody. cbn [class_body] in Hbody.
  case_bool_decide as Hclose.
  { simplify_eq. rewrite app_nil_r, length_drop.
    replace (length pattern - S (length pattern - S index)) with index by lia.
    split_and!; [lia | f_equal; lia | done..]. }
  case_bool_decide as Hesc.
  - destruct (pattern !! S index) as [e|] eqn:He; cycle 1.
    { apply lookup_ge_None in He. by rewrite drop_ge in Hbody by lia. }
    rewrite (drop_S _ _ _ He) in Hbody.
    destruct (class_body (drop (S (S index)) pattern)) as [[body' rest']|] eqn:Hrec; simplify_eq/=.
    destruct (IH _ (values ++ [(e, true)]) _ Hrec ltac:(lia)) as (? & ? & ? & ->).
    rewrite <- app_assoc. split_and!; [lia | done..].
  - destruct (class_body (drop (S index) pattern)) as [[body' rest']|] eqn:Hrec; simplify_eq/=.
    destruct (IH _ (values ++ [(c, false)]) _ Hrec ltac:(lia)) as (? & ? & ? & ->).
    rewrite <- app_assoc. split_and!; [lia | done..].
Qed.

Lemma class_values_open pattern fuel index values :
  class_body (drop index pattern) = None → length pattern ≤ fuel + index →
  class_values fuel pattern index values = Ok None ∨
  ∃ i values', length pattern ≤ i ∧ class_values fuel pattern index values = Ok (Some (i, values')).
Proof.
  revert index values. induction fuel as [|fuel IH]; intros index values Hbody Hfuel.
  { cbn. rewrite (lookup_ge_None_2 pattern index) by lia. eauto with lia. }
  cbn [class_values]. destruct (pattern !! index) as [c|] eqn:Hc; cycle 1.
  { apply lookup_ge_None in Hc. eauto. }
  rewrite (drop_S _ _ _ Hc) in Hbody. cbn [class_body] in Hbody.
  case_bool_decide as Hclose; [done|]. case_bool_decide as Hesc.
  - destruct (pattern !! S index) as [e|] eqn:He; [|by left].
    rewrite (drop_S _ _ _ He) in Hbody.
    destruct (class_body (drop (S (S index)) pattern)) as [[]|] eqn:Hrec; simplify_eq/=.
    apply IH; [done | lia].
  - destruct (class_body (drop (S index) pattern)) as [[]|] eqn:Hrec; simplify_eq/=.
    apply IH; [done | lia].
Qed.

(** ** Members of a class *)

(** [in_class], for a class whose first characters are a range, or are not. *)
Lemma in_class_range v a ea b values :
  in_class v ((a, ea) :: ("-", false) :: b :: values) ↔
  char_le a v = true ∧ char_le v b.1 = true ∨ in_class v values.
Proof.
  destruct b as [b eb]. split.
  - inversion 1; simplify_eq; [by left | by right | naive_solver | naive_solver].
  - intros [[??]|?]; [by apply in_range | by apply in_after_range].
Qed.

Lemma in_class_one v a ea values :
  (∀ b values', values ≠ ("-", false) :: b :: values') →
  in_class v ((a, ea) :: values) ↔ a = v ∨ in_class v values.
Proof.
  intros Hno. split.
  - inversion 1; simplify_eq; naive_solver.
  - intros [->|?]; [by apply in_single | by apply in_after].
Qed.

Lemma class_matches_spec fuel values value_index value matched :
  length values ≤ fuel + value_index →
  ∃ b, class_matches fuel values value_index value matched = Ok b ∧
       (b = true ↔ matched = true ∨ in_class value (drop value_index values)).
Proof.
  revert value_index matched. induction fuel as [|fuel IH]; intros i matched Hfuel.
  { cbn [class_matches]. rewrite (lookup_ge_None_2 values i), drop_ge by lia.
    exists matched. split; [done|]. split; [by left | intros [|Hin]; [done | inversion Hin]]. }
  cbn [class_matches]. destruct (values !! i) as [[first e]|] eqn:Hi; cycle 1.
  { apply lookup_ge_None in Hi. rewrite drop_ge by lia.
    exists matched. split; [done|]. split; [by left | intros [|Hin]; [done | inversion Hin]]. }
  rewrite (drop_S _ _ _ Hi).
  assert (Hone : (∀ b values', drop (S i) values ≠ ("-", false) :: b :: values') →
    ∃ b, class_matches fuel values (S i) value (matched || bool_decide (first = value)) = Ok b ∧
      (b = true ↔ matched = true ∨ in_class value ((first, e) :: drop (S i) values))).
  { intros Hno. destruct (IH (S i) (matched || bool_decide (first = value)) ltac:(lia)) as (b & -> & Hb).
    exists b. split; [done|]. rewrite Hb, (in_class_one _ _ _ _ Hno), orb_true_iff, bool_decide_eq_true. tauto. }
  destruct (values !! (i + 2)) as [[last el]|] eqn:Hlast; cycle 1.
  { apply Hone. intros b values' Hd. apply (f_equal length) in Hd.
    apply lookup_ge_None in Hlast. rewrite length_drop in Hd. cbn in Hd. lia. }
  destruct (bool_decide_reflect (values !! S i = Some ("-", false))) as [Hdash|Hdash].
  - destruct (IH (i + 3) (matched || char_le first last && (char_le first value && char_le value last))
                ltac:(lia)) as (b & -> & Hb).
    exists b. split; [done|].
    rewrite (drop_S _ _ _ Hdash). replace (i + 2) with (S (S i)) in Hlast by lia.
    rewrite (drop_S _ _ _ Hlast). replace (S (S (S i))) with (i + 3) by lia.
    rewrite Hb, in_class_range, orb_true_iff, !andb_true_iff. cbn [fst].
    split; [naive_solver | intros [|[[??]|]]; eauto 6 using char_le_trans].
  - apply Hone. intros b values' Hd. apply Hdash.
    pose proof (lookup_drop values (S i) 0) as H0. rewrite Hd, Nat.add_0_r in H0. by rewrite <- H0.
Qed.

(** [character_class] answers for the class that opens after the bracket. *)
Lemma class_opens_det l negated values rest negated' values' rest' :
  class_opens l negated values rest → class_opens l negated' values' rest' →
  negated = negated' ∧ values = values' ∧ rest = rest'.
Proof. unfold class_opens. destruct negated, negated'; naive_solver. Qed.

Lemma character_class_spec pattern start value :
  ∃ class, character_class pattern start value = Ok class ∧
    match class with
    | Some (next, class_matches) =>
        start < next ≤ length pattern ∧ pattern !! (next - 1) = Some "]" ∧
        ∃ negated values, class_opens (drop (S start) pattern) negated values (drop next pattern) ∧
          (class_matches = true ↔ if negated then ¬ in_class value values else in_class value values)
    | None => ∀ negated values rest, ¬ class_opens (drop (S start) pattern) negated values rest
    end.
Proof.
  unfold character_class.
  set (negated := is_char "!" _ || is_char "^" _). set (index := if negated then _ else _).
  assert (Hopens : ∀ n values rest, class_opens (drop (S start) pattern) n values rest ↔
    n = negated ∧ values ≠ [] ∧ class_body (drop index pattern) = Some (values, rest)).
  { intros n values rest. unfold class_opens, index.
    destruct (pattern !! S start) as [mark|] eqn:Hmark.
    - assert (negated = true ∧ (mark = "!" ∨ mark = "^") ∨ negated = false ∧ mark ≠ "!" ∧ mark ≠ "^") as Hn.
      { unfold negated, is_char. repeat case_bool_decide; naive_solver. }
      destruct Hn as [[-> Hn]|[-> Hn]]; rewrite (drop_S _ _ _ Hmark); destruct n; naive_solver.
    - assert (negated = false) as -> by done.
      apply lookup_ge_None in Hmark. rewrite drop_ge by lia. destruct n; naive_solver. }
  destruct (class_body (drop index pattern)) as [[values rest]|] eqn:Hbody.
  - destruct (class_values_closed pattern (length pattern) index [] values rest Hbody ltac:(lia))
      as (Hlt & Hrest & Hclose & ->). cbn [obind app].
    rewrite bool_decide_eq_false_2 by lia. cbn [orb]. destruct values as [|v values].
    { eexists. split; [done|]. cbn. intros n values' rest'. rewrite Hopens. naive_solver. }
    cbn [is_nil]. destruct (class_matches_spec (length (v :: values)) (v :: values) 0 value false
      ltac:(lia)) as (b & -> & Hb). cbn [obind]. eexists. split; [done|]. cbn.
    rewrite Nat.sub_0_r. split_and!; [unfold index in Hlt; destruct negated; lia | lia | done |].
    replace (S (length pattern - S (length rest))) with (length pattern - length rest) by lia.
    exists negated, (v :: values). rewrite Hrest, Hopens. split; [done|].
    rewrite drop_0 in Hb. destruct negated; [|naive_solver]. rewrite negb_true_iff.
    assert (in_class value (v :: values) ↔ b = true) as -> by (rewrite Hb; naive_solver).
    by rewrite not_true_iff_false.
  - assert (Hnone : ∀ n values rest, ¬ class_opens (drop (S start) pattern) n values rest).
    { intros ???. rewrite Hopens. naive_solver. }
    destruct (class_values_open pattern (length pattern) index [] Hbody ltac:(lia)) as [->|(i & vs & Hi & ->)]; cbn.
    + by eexists.
    + rewrite bool_decide_eq_true_2 by done. by eexists.
Qed.

(** ** Stars *)

Lemma skip_stars_drop l :
  ∃ k, skip_stars l = drop k l ∧ k ≤ length l ∧
       (k = 0 ∨ l !! (k - 1) = Some "*") ∧ (1 ≤ k ↔ head l = Some "*").
Proof.
  induction l as [|c l (k & IH & Hk & Hlast & _)]; cbn [skip_stars].
  { exists 0. split_and!; [done | cbn; lia | by left | split; [lia | done]]. }
  case_bool_decide as Hc; subst.
  - exists (S k). cbn [drop length head]. split_and!; [done | lia | | split; [done | lia]].
    right. cbn. destruct k as [|k]; [done|]. destruct Hlast as [|Hlast]; [lia|].
    cbn in Hlast. by rewrite Nat.sub_0_r in Hlast.
  - exists 0. split_and!; [done | cbn; lia | by left |]. cbn. split; [lia | naive_solver].
Qed.

(** ** [reads], by the first character of the pattern *)

Lemma reads_nil_iff o s r : reads o [] s r ↔ r = [].
Proof. split; [by inversion 1 | intros ->; constructor]. Qed.

Lemma reads_plain_iff o c p s r :
  special c = false →
  reads o (c :: p) s r ↔ ∃ r', r = c :: r' ∧ reads (slash c) p (slash c) r'.
Proof.
  intros Hc. split.
  - inversion 1; subst; eauto; by vm_compute in Hc.
  - intros (r' & -> & Hr). by apply reads_plain.
Qed.

Lemma reads_escaped_iff o p s r :
  reads o ("\" :: p) s r ↔ ∃ c p' r', p = c :: p' ∧ r = c :: r' ∧ reads (slash c) p' (slash c) r'.
Proof.
  split.
  - inversion 1 as [|????? Hc| | | | | |]; subst; [by vm_compute in Hc | eauto 6].
  - intros (c & p' & r' & -> & -> & Hr). by apply reads_escaped.
Qed.

Lemma reads_any_iff o p s r :
  reads o ("?" :: p) s r ↔
  ∃ c r', r = c :: r' ∧ c ≠ "/" ∧ (s = true → c ≠ ".") ∧ reads false p false r'.
Proof.
  split.
  - inversion 1 as [|????? Hc| | | | | |]; subst; [by vm_compute in Hc | eauto 6].
  - intros (c & r' & -> & ? & ? & ?). by apply reads_any.
Qed.

Lemma reads_class_iff o p s r :
  reads o ("[" :: p) s r ↔
  ∃ c r' negated values rest, r = c :: r' ∧ c ≠ "/" ∧ (s = true → c ≠ ".") ∧
    class_opens p negated values rest ∧ (if negated then ¬ in_class c values else in_class c values) ∧
    reads false rest false r'.
Proof.
  split.
  - inversion 1 as [|????? Hc| | | | | |]; subst; [by vm_compute in Hc | eauto 12].
  - intros (c & r' & negated & values & rest & -> & ? & ? & ? & ? & ?). by eapply reads_class.
Qed.

(** A star takes nothing, or a character and then what it may. *)
Lemma reads_star_iff o p s r :
  directories o p = false →
  reads o ("*" :: p) s r ↔
  (s = true → head r ≠ Some ".") ∧
  (reads false (skip_stars p) s r ∨ ∃ c r', r = c :: r' ∧ c ≠ "/" ∧ reads o ("*" :: p) false r').
Proof.
  intros Hd. split.
  - inversion 1 as [|????? Hc| | | |???? r' _ Hdot Hu Hr| |]; subst; [by vm_compute in Hc | | congruence..].
    split; [done|]. destruct u as [|c u]; cbn in *.
    + left. by rewrite andb_true_r in Hr.
    + right. exists c, (u ++ r'). rewrite not_elem_of_cons in Hu. split_and!; [done | naive_solver |].
      apply reads_star; [done.. | naive_solver |]. by rewrite andb_false_r in Hr.
  - intros [Hdot [Hr|(c & r' & -> & Hc & Hr)]].
    + apply (reads_star o p s [] r); [done.. | set_solver |]. by rewrite andb_true_r.
    + inversion Hr as [|????? Hs| | | |???? r'' _ Hdot' Hu Hr'| |]; subst;
        [by vm_compute in Hs | | congruence..].
      apply (reads_star o p s (c :: u) r''); [done.. | |].
      * rewrite not_elem_of_cons. naive_solver.
      * by rewrite andb_false_r.
Qed.

(** [**/] takes no directory, or one and then what it may. *)
Lemma reads_directories_iff o p s r :
  directories o p = true →
  reads o ("*" :: p) s r ↔
  reads true (tail (skip_stars p)) s r ∨
  ∃ d r', r = d ++ "/" :: r' ∧ (s = true → head (d ++ ["/"]) ≠ Some ".") ∧ "/" ∉ d ∧ reads o ("*" :: p) true r'.
Proof.
  intros Hd. split.
  - inversion 1 as [|????? Hc| | | | | |]; subst; [by vm_compute in Hc | congruence | by left | right; eauto 8].
  - intros [Hr|(d & r' & -> & ? & ? & ?)]; [by apply reads_here | by apply reads_below].
Qed.

(** ** Positions *)

Section correctness.
Context (pattern candidate : list string).

Definition opening (pattern_index : nat) : bool :=
  bool_decide (pattern_index = 0) || is_char "/" (pattern !! (pattern_index - 1)).

(** The pattern from one index reads the candidate from the other. *)
Definition reads_at (pattern_index candidate_index : nat) : Prop :=
  reads (opening pattern_index) (drop pattern_index pattern)
        (at_segment_start candidate candidate_index) (drop candidate_index candidate).

Definition memo_ok (memo : Memo) : Prop :=
  ∀ i j b, memo !! (i, j) = Some b → (b = true ↔ reads_at i j).

(** A part of the search that ends and answers [P]. *)
Definition decides (search : Memo → outcome string (bool * Memo)) (P : Prop) : Prop :=
  ∀ memo, memo_ok memo → ∃ b memo', search memo = Ok (b, memo') ∧ memo_ok memo' ∧ (b = true ↔ P).

Lemma decides_iff search P Q : decides search P → (P ↔ Q) → decides search Q.
Proof. intros H HPQ memo Hm. destruct (H memo Hm) as (b & m & ? & ? & ?). exists b, m. naive_solver. Qed.

Lemma decides_const b (P : Prop) : (b = true ↔ P) → decides (λ memo, Ok (b, memo)) P.
Proof. intros Hb memo Hm. eauto. Qed.

Lemma decides_no (P : Prop) : ¬ P → decides (λ memo, Ok (false, memo)) P.
Proof. intros HP. apply decides_const. naive_solver. Qed.

Lemma decides_and_then b search P : (b = true → decides search P) → decides (and_then b search) (b = true ∧ P).
Proof.
  intros H. unfold and_then. destruct b; [|apply decides_no; naive_solver].
  eapply decides_iff; [by apply H | naive_solver].
Qed.

Lemma decides_or_else a b P Q : decides a P → decides b Q → decides (or_else a b) (P ∨ Q).
Proof.
  intros Ha Hb memo Hm. unfold or_else. destruct (Ha memo Hm) as (x & m & -> & Hm' & Hx).
  cbn [obind]. destruct x; [exists true, m; naive_solver|].
  destruct (Hb m Hm') as (y & m' & -> & ? & ?). exists y, m'. naive_solver.
Qed.

Lemma opening_next i c : pattern !! i = Some c → opening (S i) = slash c.
Proof.
  intros Hc. unfold opening. rewrite bool_decide_eq_false_2 by lia. cbn.
  rewrite Nat.sub_0_r, Hc. unfold is_char, slash. apply bool_decide_ext. naive_solver.
Qed.

Lemma start_next j c : candidate !! j = Some c → at_segment_start candidate (S j) = slash c.
Proof.
  intros Hc. unfold at_segment_start. rewrite bool_decide_eq_false_2 by lia. cbn.
  rewrite Nat.sub_0_r, Hc. unfold is_char, slash. apply bool_decide_ext. naive_solver.
Qed.

Lemma reads_at_next i j c d :
  pattern !! i = Some c → candidate !! j = Some d →
  reads_at (S i) (S j) = reads (slash c) (drop (S i) pattern) (slash d) (drop (S j) candidate).
Proof. intros Hc Hd. unfold reads_at. by rewrite (opening_next _ _ Hc), (start_next _ _ Hd). Qed.

Lemma candidate_cons j r' c r :
  drop j candidate = c :: r → candidate !! j = Some r' → c = r' ∧ r = drop (S j) candidate.
Proof. intros Hd Hc. rewrite (drop_S _ _ _ Hc) in Hd. naive_solver. Qed.

Lemma drop_none {A} (l : list A) j : l !! j = None → drop j l = [].
Proof. intros H. apply drop_ge. by apply lookup_ge_None. Qed.

(** ** The index after the stars *)

Lemma after_stars_spec i :
  pattern !! i = Some "*" →
  i < after_stars pattern i ≤ length pattern ∧
  drop (after_stars pattern i) pattern = skip_stars (drop (S i) pattern) ∧
  opening (after_stars pattern i) = false ∧
  globstar_directory pattern i = directories (opening i) (drop (S i) pattern).
Proof.
  intros Hi. pose proof (lookup_lt_Some _ _ _ Hi) as Hlt.
  destruct (skip_stars_drop (drop (S i) pattern)) as (k & Hskip & Hk & Hlast & Hhead).
  rewrite length_drop in Hk.
  assert (Hafter : after_stars pattern i = S i + k).
  { unfold after_stars. rewrite Hskip, drop_drop, length_drop. lia. }
  unfold globstar_directory, directories, opening at 1. rewrite Hafter, Hskip, drop_drop.
  split_and!; [lia | lia | done | |].
  - rewrite bool_decide_eq_false_2 by lia. cbn [orb].
    assert (pattern !! (S i + k - 1) = Some "*") as ->; [|done].
    destruct Hlast as [->|Hlast]; [by replace (S i + 0 - 1) with i by lia|].
    rewrite lookup_drop in Hlast. destruct k as [|k]; [by replace (S i + 0 - 1) with i by lia|].
    replace (S i + S k - 1) with (S i + (S k - 1)) by lia. done.
  - fold (opening i). assert (is_char "*" (head (drop (S i) pattern)) = bool_decide (i + 2 ≤ S i + k)) as ->.
    { unfold is_char. apply bool_decide_ext. rewrite <- Hhead. lia. }
    rewrite head_lookup, lookup_drop, Nat.add_0_r. by rewrite andb_comm, andb_assoc.
Qed.

Lemma relative_slash_spec l :
  match relative_slash l with
  | Some n => l !! n = Some "/" ∧ "/" ∉ take n l
  | None => "/" ∉ l
  end.
Proof.
  unfold relative_slash. destruct (list_find _ l) as [[n c]|] eqn:Hfind; cbn.
  - apply list_find_Some in Hfind as (Hn & -> & Hbefore). split; [done|].
    intros (j & Hj)%list_elem_of_lookup. apply lookup_take_Some in Hj as [Hj ?]. by eapply Hbefore.
  - apply list_find_None in Hfind. rewrite Forall_forall in Hfind. intros Hin. by eapply Hfind.
Qed.

(** Two cuts at the first slash are the same. *)
Lemma first_slash_unique (d d' r r' : list string) :
  d ++ "/" :: r = d' ++ "/" :: r' → "/" ∉ d → "/" ∉ d' → d = d' ∧ r = r'.
Proof.
  revert d'. induction d as [|c d IH]; intros [|c' d'] H Hd Hd'; simplify_eq/=; [done | set_solver.. |].
  rewrite not_elem_of_cons in Hd, Hd'. destruct (IH d') as [-> ->]; naive_solver.
Qed.

(** ** A node of the search *)

Section node.
Context (recurse : nat → nat → Memo → outcome string (bool * Memo)) (i j : nat).
Hypothesis candidate_left : j ≤ length candidate.
Hypothesis recurse_decides : ∀ i' j', i' ≤ length pattern → j' ≤ length candidate →
  i ≤ i' → j ≤ j' → i + j < i' + j' → decides (recurse i' j') (reads_at i' j').

Lemma wildcard_takes_true c :
  wildcard_takes candidate j c = true ↔ c ≠ "/" ∧ (at_segment_start candidate j = true → c ≠ ".").
Proof.
  unfold wildcard_takes. rewrite andb_true_iff, !negb_true_iff, andb_false_iff, !bool_decide_eq_false.
  destruct (at_segment_start candidate j); naive_solver.
Qed.

Lemma literal_decides c next :
  next ≤ length pattern → i ≤ next → pattern !! (next - 1) = Some c → 0 < next →
  decides (match_literal candidate recurse j c next)
    (∃ r, drop j candidate = c :: r ∧ reads (slash c) (drop next pattern) (slash c) r).
Proof.
  intros Hn Hi Hc Hpos. unfold match_literal.
  eapply decides_iff.
  - apply (decides_and_then _ _ (reads_at next (S j))). unfold is_char. intros Hj%bool_decide_eq_true.
    apply lookup_lt_Some in Hj. apply recurse_decides; lia.
  - unfold is_char. rewrite bool_decide_eq_true. split.
    + intros [Hj Hr]. exists (drop (S j) candidate). split; [by apply drop_S|].
      destruct next as [|n]; [lia|]. cbn in Hc. rewrite Nat.sub_0_r in Hc.
      by rewrite (reads_at_next n j c c) in Hr.
    + intros (r & Hd & Hr). assert (candidate !! j = Some c) as Hj.
      { pose proof (lookup_drop candidate j 0) as H. rewrite Hd, Nat.add_0_r in H. done. }
      split; [done|]. rewrite (drop_S _ _ _ Hj) in Hd. simplify_eq.
      destruct next as [|n]; [lia|]. cbn in Hc. rewrite Nat.sub_0_r in Hc.
      by rewrite (reads_at_next n j c c).
Qed.

(** A wildcard of one character, with the character it is tried on. *)
Lemma next_decides c next b :
  candidate !! j = Some c → i < next → next ≤ length pattern → opening next = false → c ≠ "/" →
  decides (and_then b (recurse next (S j)))
    (b = true ∧ reads false (drop next pattern) false (drop (S j) candidate)).
Proof.
  intros Hc ?? Hopen Hslash. eapply decides_iff.
  - apply (decides_and_then _ _ (reads_at next (S j))). intros _.
    apply lookup_lt_Some in Hc. apply recurse_decides; lia.
  - unfold reads_at. rewrite Hopen, (start_next _ _ Hc).
    unfold slash. by rewrite bool_decide_eq_false_2.
Qed.

Lemma any_decides :
  pattern !! i = Some "?" →
  decides (λ memo, match candidate !! j with
                   | Some c => and_then (wildcard_takes candidate j c) (recurse (S i) (S j)) memo
                   | None => Ok (false, memo)
                   end) (reads_at i j).
Proof.
  intros Hi. unfold reads_at. rewrite (drop_S _ _ _ Hi).
  destruct (candidate !! j) as [c|] eqn:Hc.
  - pose proof (lookup_lt_Some _ _ _ Hi).
    destruct (wildcard_takes candidate j c) eqn:Htakes.
    + apply wildcard_takes_true in Htakes as Ht. eapply decides_iff; [apply (next_decides c); [done | lia | lia | | tauto]|].
      * by rewrite (opening_next _ _ Hi).
      * rewrite reads_any_iff, (drop_S _ _ _ Hc). naive_solver.
    + apply decides_no. rewrite reads_any_iff, (drop_S _ _ _ Hc).
      intros (c' & r' & Heq & Hs & Hdot & _). simplify_eq.
      assert (wildcard_takes candidate j c' = true) by by apply wildcard_takes_true. congruence.
  - apply decides_no. rewrite reads_any_iff, (drop_none _ _ Hc). naive_solver.
Qed.

Lemma class_decides :
  pattern !! i = Some "[" → decides (match_class pattern candidate recurse i j) (reads_at i j).
Proof.
  intros Hi. unfold reads_at, match_class. rewrite (drop_S _ _ _ Hi).
  destruct (candidate !! j) as [c|] eqn:Hc; cycle 1.
  { apply decides_no. rewrite reads_class_iff, (drop_none _ _ Hc). naive_solver. }
  destruct (wildcard_takes candidate j c) eqn:Htakes; cycle 1.
  { apply decides_no. rewrite reads_class_iff, (drop_S _ _ _ Hc).
    intros (c' & r' & n & vs & rest & Heq & Hs & Hdot & _). simplify_eq.
    assert (wildcard_takes candidate j c' = true) by by apply wildcard_takes_true. congruence. }
  apply wildcard_takes_true in Htakes as [Hslash Hdot].
  destruct (character_class_spec pattern i c) as ([[next b]|] & -> & Hclass); cbn [obind].
  - destruct Hclass as (Hnext & Hlast & n & vs & Hopens & Hb).
    eapply decides_iff.
    + apply (next_decides c next b); [done | lia | lia | | done].
      unfold opening. by rewrite bool_decide_eq_false_2, Hlast by lia.
    + rewrite reads_class_iff, (drop_S _ _ _ Hc). split.
      * intros [Htrue Hr]. exists c, (drop (S j) candidate), n, vs, (drop next pattern). naive_solver.
      * intros (c' & r' & n' & vs' & rest & Heq & _ & _ & Hopens' & Hin & Hr). simplify_eq.
        destruct (class_opens_det _ _ _ _ _ _ _ Hopens Hopens') as (-> & -> & <-). naive_solver.
  - apply decides_no. rewrite reads_class_iff. intros (c' & r' & n & vs & rest & _ & _ & _ & Hopens & _).
    by eapply Hclass.
Qed.

Lemma directories_decides :
  pattern !! i = Some "*" →
  decides (match_directories candidate recurse i j)
    (∃ d r', drop j candidate = d ++ "/" :: r' ∧
       (at_segment_start candidate j = true → head (d ++ ["/"]) ≠ Some ".") ∧ "/" ∉ d ∧
       reads (opening i) (drop i pattern) true r').
Proof.
  intros Hi. pose proof (lookup_lt_Some _ _ _ Hi). unfold match_directories.
  destruct (candidate !! j) as [c|] eqn:Hc; cycle 1.
  { apply decides_no. rewrite (drop_none _ _ Hc). intros ([|] & r' & ? & _); done. }
  destruct (bool_decide (c = ".") && at_segment_start candidate j) eqn:Hdot.
  { apply andb_true_iff in Hdot as [->%bool_decide_eq_true ->]. apply decides_no.
    rewrite (drop_S _ _ _ Hc). intros ([|d0 d] & r' & Heq & Hd & _); simplify_eq/=. by apply Hd. }
  pose proof (relative_slash_spec (drop j candidate)) as Hfind.
  destruct (relative_slash (drop j candidate)) as [n|]; cycle 1.
  { apply decides_no. intros (d & r' & Heq & _). apply Hfind. rewrite Heq. set_solver. }
  destruct Hfind as [Hn Hbefore]. rewrite lookup_drop in Hn.
  pose proof (lookup_lt_Some _ _ _ Hn). replace (j + n + 1) with (S (j + n)) by lia.
  eapply decides_iff; [apply recurse_decides; lia|].
  unfold reads_at. rewrite (start_next _ _ Hn). change (slash "/") with true.
  assert (Hcut : drop j candidate = take n (drop j candidate) ++ "/" :: drop (S (j + n)) candidate).
  { rewrite <- (take_drop n (drop j candidate)) at 1. by rewrite drop_drop, (drop_S _ _ _ Hn). }
  split.
  - intros Hr. exists (take n (drop j candidate)), (drop (S (j + n)) candidate). split_and!; [done | | done..].
    intros Hs Hhead. rewrite Hs, andb_true_r in Hdot. apply bool_decide_eq_false in Hdot.
    rewrite (drop_S _ _ _ Hc) in Hhead. destruct n; cbn in Hhead; congruence.
  - intros (d & r' & Heq & _ & Hd & Hr). rewrite Hcut in Heq.
    apply first_slash_unique in Heq as [_ ->]; done.
Qed.

Lemma stars_decides :
  pattern !! i = Some "*" → decides (match_stars pattern candidate recurse i j) (reads_at i j).
Proof.
  intros Hi. destruct (after_stars_spec i Hi) as (Hafter & Hdrop & Hopen & Hglob).
  pose proof (directories_decides Hi) as Hdirs. unfold match_stars, reads_at.
  rewrite (drop_S _ _ _ Hi) in Hdirs |- *. rewrite Hglob.
  destruct (directories (opening i) (drop (S i) pattern)) eqn:Hd.
  - assert (Hslash : pattern !! after_stars pattern i = Some "/").
    { unfold globstar_directory, is_char in Hglob.
      clear - Hglob. repeat case_bool_decide; naive_solver. }
    pose proof (lookup_lt_Some _ _ _ Hslash).
    eapply decides_iff; [apply decides_or_else; [apply recurse_decides; lia | exact Hdirs]|].
    rewrite (reads_directories_iff _ _ _ _ Hd), <- Hdrop. unfold reads_at.
    by rewrite (opening_next _ _ Hslash), (drop_S _ _ _ Hslash).
  - destruct (at_segment_start candidate j && is_char "." (candidate !! j)) eqn:Hdot.
    { apply decides_no. rewrite (reads_star_iff _ _ _ _ Hd).
      apply andb_true_iff in Hdot as [Hs Hj]. apply bool_decide_eq_true in Hj.
      rewrite (drop_S _ _ _ Hj). naive_solver. }
    assert (Hnodot : at_segment_start candidate j = true → head (drop j candidate) ≠ Some ".").
    { intros Hs Hhead. rewrite Hs in Hdot. apply bool_decide_eq_false in Hdot.
      rewrite head_lookup, lookup_drop, Nat.add_0_r in Hhead. done. }
    eapply decides_iff.
    + apply decides_or_else; [apply recurse_decides; lia|].
      instantiate (1 := ∃ c r', drop j candidate = c :: r' ∧ c ≠ "/" ∧
                          reads (opening i) ("*" :: drop (S i) pattern) false r').
      destruct (candidate !! j) as [c|] eqn:Hc.
      * eapply decides_iff.
        -- apply (decides_and_then _ _ (reads_at i (S j))). intros _.
           pose proof (lookup_lt_Some _ _ _ Hi). apply lookup_lt_Some in Hc. apply recurse_decides; lia.
        -- rewrite negb_true_iff, bool_decide_eq_false. unfold reads_at.
           rewrite (start_next _ _ Hc), (drop_S _ _ _ Hi), (drop_S _ _ _ Hc).
           assert (Hfalse : c ≠ "/" → slash c = false) by (intros; by apply bool_decide_eq_false_2).
           split.
           ++ intros [Hs Hr]. rewrite (Hfalse Hs) in Hr. eauto.
           ++ intros (c' & r' & Heq & Hs & Hr). injection Heq as <- <-. by rewrite (Hfalse Hs).
      * apply decides_no. rewrite (drop_none _ _ Hc). naive_solver.
    + rewrite (reads_star_iff _ _ _ _ Hd). unfold reads_at. rewrite Hopen, Hdrop. naive_solver.
Qed.

Lemma node_decides :
  i ≤ length pattern →
  decides (match_node pattern candidate recurse i j) (reads_at i j).
Proof.
  intros Hi. unfold match_node.
  destruct (bool_decide_reflect (i = length pattern)) as [Heq|Hne].
  { apply decides_const. unfold reads_at. rewrite drop_ge, reads_nil_iff, bool_decide_eq_true by lia.
    rewrite <- length_zero_iff_nil, length_drop. lia. }
  destruct (lookup_lt_is_Some_2 pattern i ltac:(lia)) as [c Hc]. rewrite Hc. cbn [expect obind].
  pose proof (lookup_lt_Some _ _ _ Hc).
  assert (Hliteral : special c = false → decides (match_literal candidate recurse j c (S i)) (reads_at i j)).
  { intros Hs. eapply decides_iff; [apply literal_decides; [lia | lia | | lia]|].
    - by rewrite Nat.sub_1_r.
    - unfold reads_at. by rewrite (drop_S _ _ _ Hc), (reads_plain_iff _ _ _ _ _ Hs). }
  case_bool_decide; subst.
  { unfold reads_at. rewrite (drop_S _ _ _ Hc).
    destruct (pattern !! S i) as [e|] eqn:He.
    - pose proof (lookup_lt_Some _ _ _ He).
      eapply decides_iff; [apply (literal_decides e (i + 2)); [lia | lia | | lia]|].
      + by replace (i + 2 - 1) with (S i) by lia.
      + replace (i + 2) with (S (S i)) by lia. rewrite reads_escaped_iff, (drop_S _ _ _ He). naive_solver.
    - apply decides_no. rewrite reads_escaped_iff, (drop_none _ _ He). naive_solver. }
  case_bool_decide; [subst; by apply Hliteral|].
  case_bool_decide; [subst; by apply any_decides|].
  case_bool_decide; [subst; by apply class_decides|].
  case_bool_decide; [subst; by apply stars_decides|].
  apply Hliteral. unfold special. by rewrite !bool_decide_eq_false_2 by done.
Qed.
End node.

(** ** The search *)

Lemma matches_decides fuel i j :
  i ≤ length pattern → j ≤ length candidate → (length pattern - i) + (length candidate - j) < fuel →
  decides (matches pattern candidate fuel i j) (reads_at i j).
Proof.
  revert i j. induction fuel as [|fuel IH]; intros i j Hi Hj Hfuel memo Hm; [lia|].
  cbn [matches]. destruct (memo !! (i, j)) as [b|] eqn:Hb; [by eauto 6|].
  destruct (node_decides (matches pattern candidate fuel) i j) with (memo := memo)
    as (b & memo' & -> & Hm' & Hiff); [done | | done..|].
  { intros. apply IH; lia. }
  cbn [obind]. exists b, (<[(i, j) := b]> memo'). split_and!; [done | | done].
  intros i' j' b' [[? <-]|[? ?]]%lookup_insert_Some; [|by apply Hm'].
  by simplify_eq.
Qed.
End correctness.

Lemma chars_pattern_decides pattern candidate :
  ∃ b memo, matches pattern candidate (S (length pattern + length candidate)) 0 0 ∅ = Ok (b, memo) ∧
            (b = true ↔ reads true pattern true candidate).
Proof.
  destruct (matches_decides pattern candidate (S (length pattern + length candidate)) 0 0
    ltac:(lia) ltac:(lia) ltac:(lia) ∅) as (b & memo & -> & _ & Hb).
  { intros i j b Hb. by apply lookup_empty_Some in Hb. }
  eauto.
Qed.

(** C27: The matcher of deployment patterns ends without a panic and answers true
    exactly for a pattern within its limits whose reading accepts the candidate. *)
Theorem deployment_patterns_mean_their_reading pattern candidate :
  ∃ b, deployment_pattern_matches pattern candidate = Ok b ∧
    (b = true ↔
     pattern ≠ "" ∧ (Z.of_nat (slen pattern) ≤ MAX_DEPLOYMENT_BRANCH_PATTERN_BYTES)%Z ∧
     contains_byte is_nul_or_line_end pattern = false ∧
     reads true (chars pattern) true (chars candidate)).
Proof.
  unfold deployment_pattern_matches. destruct (_ || _ || _) eqn:Hguard.
  - exists false. split; [done|]. split; [done|]. intros (Hne & Hlen & Hfree & _).
    rewrite Hfree, orb_false_r, bool_decide_eq_false_2, orb_false_r in Hguard by lia. by destruct pattern.
  - apply orb_false_iff in Hguard as [[Hne Hlen%bool_decide_eq_false]%orb_false_iff Hfree].
    destruct (chars_pattern_decides (chars pattern) (chars candidate)) as (b & memo & -> & Hb).
    exists b. split; [done|]. rewrite Hb. split; [|naive_solver].
    intros Hr. split_and!; [by intros -> | lia | done..].
Qed.
