(* ===== verification/DeploymentPolicy.v ===== *)
(** * Requests to the GitHub API (crates/gitzero-agent, executor.rs)

    [github_api_get_json] and the programs that page through its answers.  The
    server is an arbitrary function that sees the requests made so far; decoding a
    body is the library's.  A program threads the requests it has made. *)

From S2P Require Import Prelude RustStr OrdMap RustText LogOutput DeploymentPattern.

(** The metadata of an environment; a protection rule is any JSON value, of which
    the code only sees whether there is one. *)
Record GitHubDeploymentBranchPolicySettings := mkBranchPolicySettings {
  protected_branches : bool;
  custom_branch_policies : bool;
}.

Record GitHubEnvironmentMetadata := mkEnvironmentMetadata {
  em_name : string;
  em_protection_rules : list string;
  em_deployment_branch_policy : option GitHubDeploymentBranchPolicySettings;
}.

Record DeploymentBranchPolicy := mkBranchPolicy { bp_name : string; bp_policy_type : string }.

Record DeploymentBranchPolicyPage := mkBranchPolicyPage {
  bpp_total_count : Z;
  bpp_branch_policies : list DeploymentBranchPolicy;
}.

Record GitHubBranch := mkBranch { gb_name : string; gb_protected : bool }.

Record ActionsVariable := mkActionsVariable { av_name : string; av_value : string }.

Record ActionsVariablePage := mkActionsVariablePage { avp_total_count : Z; avp_variables : list ActionsVariable }.

Record PullRequestFile := mkPullRequestFile { prf_filename : string }.

(** The endpoints, below the repository. *)
Inductive GitHubRequest :=
  | GetEnvironment (environment_name : string)
  | ListBranchPolicies (environment_name : string) (page : nat)
  | ListProtectedBranches
  | GetBranch (branch : string)
  | ListEnvironmentVariables (environment_name : string) (page : nat)
  | ListPullRequestFiles (number : Z) (page : nat).

Definition reply (request : GitHubRequest) : Type :=
  match request with
  | GetEnvironment _ => GitHubEnvironmentMetadata
  | ListBranchPolicies _ _ => DeploymentBranchPolicyPage
  | ListProtectedBranches => list GitHubBranch
  | GetBranch _ => GitHubBranch
  | ListEnvironmentVariables _ _ => ActionsVariablePage
  | ListPullRequestFiles _ _ => list PullRequestFile
  end.

(** What the transport gives: an error, the cancellation of the run, or a
    response whose body may fail to arrive. *)
Record Response := mkResponse {
  rs_success : bool;
  rs_status : string;
  rs_content_length : option Z;
  rs_body : option string;
}.

Inductive Exchange := TransportError | RunCancelled | Responded (response : Response).

Class GitHub := {
  exchange : list GitHubRequest → GitHubRequest → Exchange;
  decode : ∀ request, string → option (reply request);     (** [serde_json::from_slice] *)
}.

Definition MAX_GITHUB_API_RESPONSE_BYTES : Z := 10 * 1024 * 1024.

Definition ellipsis : string := String "226" (String "128" (String "166" "")).

Definition truncate_text (value : string) (maximum_chars : nat) : string :=
  let characters := chars value in
  let prefix := sconcat (take maximum_chars characters) in
  match drop maximum_chars characters with
  | _ :: _ => prefix +:+ ellipsis
  | [] => prefix
  end.

(** ** Programs *)

Section api.
Context `{GH : GitHub}.

Definition Api (A : Type) : Type := list GitHubRequest → list GitHubRequest * outcome string A.

Definition pure {A : Type} (c : outcome string A) : Api A := λ made, (made, c).

Definition api_bind {A B : Type} (c : Api A) (k : A → Api B) : Api B := λ made,
  match c made with
  | (made, Ok a) => k a made
  | (made, Err e) => (made, Err e)
  | (made, Panic) => (made, Panic)
  end.

Definition send_request (request : GitHubRequest) : Api Exchange := λ made,
  (made ++ [request], Ok (exchange made request)).

Definition checked_body (operation : string) (response : Response) : outcome string string :=
  let too_large := "GitHub API response for " +:+ operation +:+ " exceeded the size limit" in
  reject_if (match rs_content_length response with
             | Some length => bool_decide (MAX_GITHUB_API_RESPONSE_BYTES < length)%Z
             | None => false
             end) too_large ;?
  let? bytes := ok_or (rs_body response) ("read GitHub API response for " +:+ operation) in
  reject_if (bool_decide (MAX_GITHUB_API_RESPONSE_BYTES < Z.of_nat (slen bytes))%Z) too_large ;?
  reject_if (negb (rs_success response))
    ("GitHub API " +:+ operation +:+ " failed (" +:+ rs_status response +:+ "): " +:+
     truncate_text (from_utf8_lossy bytes) 4096) ;?
  Ok bytes.

Definition github_api_get_json (request : GitHubRequest) (operation : string) : Api (reply request) :=
  api_bind (send_request request) (λ exchange,
    pure (match exchange with
          | TransportError => Err operation
          | RunCancelled => Err ("run cancelled while attempting to " +:+ operation)
          | Responded response =>
              let? bytes := checked_body operation response in
              ok_or (decode request bytes) ("decode GitHub API " +:+ operation +:+ " response")
          end)).

(** A loop over pages with [break]: the body says whether to go on. *)
Fixpoint for_pages {S : Type} (body : nat → S → Api (bool * S)) (pages : list nat) (s : S) : Api S :=
  match pages with
  | [] => pure (Ok s)
  | page :: pages =>
      api_bind (body page s) (λ '(continue, s), if continue then for_pages body pages s else pure (Ok s))
  end.
End api.

Notation "'ask!' p ':=' c 'in' k" := (api_bind c (λ p, k))
  (at level 200, p pattern, c at level 100, k at level 200) : rust_scope.

(** ** What holds of every program *)

Section api_props.
Context `{GH : GitHub}.

(** [ensures c P n]: [c] never panics, makes at most [n] requests, and its result
    satisfies [P]. *)
Definition ensures {A : Type} (c : Api A) (P : A → Prop) (n : nat) : Prop :=
  ∀ made made' r, c made = (made', r) →
    (∃ more, made' = made ++ more ∧ length more ≤ n) ∧
    outcome_spec r P (λ _, True).

Lemma ensures_pure {A} (c : outcome string A) (P : A → Prop) :
  outcome_spec c P (λ _, True) → ensures (pure c) P 0.
Proof. intros H made made' r [= <- <-]. split; [exists []; by rewrite app_nil_r | done]. Qed.

Lemma ensures_weaken {A} (c : Api A) (P Q : A → Prop) n m :
  ensures c P n → (∀ a, P a → Q a) → n ≤ m → ensures c Q m.
Proof.
  intros H HPQ Hn made made' r Hc. destruct (H _ _ _ Hc) as [(more & ? & ?) Hr].
  split; [exists more; split; [done | lia]|]. destruct r; cbn in *; eauto.
Qed.

Lemma ensures_bind {A B} (c : Api A) (k : A → Api B) (P : A → Prop) (Q : B → Prop) n m :
  ensures c P n → (∀ a, P a → ensures (k a) Q m) → ensures (api_bind c k) Q (n + m).
Proof.
  intros Hc Hk made made' r. unfold api_bind. destruct (c made) as [mid [a|e|]] eqn:E;
    destruct (Hc _ _ _ E) as [(more & -> & Hmore) Hr]; cbn in Hr; [|intros [= <- <-] |done].
  - intros Hka. destruct (Hk a Hr _ _ _ Hka) as [(more' & -> & ?) ?].
    split; [|done]. exists (more ++ more'). rewrite app_assoc, length_app. split; [done | lia].
  - split; [exists more; split; [done | lia] | done].
Qed.

(** What the server has answered to a request, whenever it was made. *)
Definition reported (request : GitHubRequest) (a : reply request) : Prop :=
  ∃ made made' operation, github_api_get_json request operation made = (made', Ok a).

Lemma checked_body_no_panic operation response : checked_body operation response ≠ Panic.
Proof.
  unfold checked_body, ok_or. destruct (rs_content_length response), (rs_body response), (rs_success response);
    cbn; repeat (case_bool_decide; cbn); done.
Qed.

Lemma ensures_get request operation : ensures (github_api_get_json request operation) (reported request) 1.
Proof.
  intros made made' r Hget. split.
  - unfold github_api_get_json, api_bind, send_request in Hget. injection Hget as <- _. by exists [request].
  - destruct r as [a|e|]; cbn; [by exists made, made', operation | done |].
    unfold github_api_get_json, api_bind, send_request in Hget. injection Hget as _ Hr.
    destruct (exchange _ _) as [| |response]; [done..|].
    destruct (checked_body operation response) eqn:Hbody; cbn in Hr; [|done | by apply checked_body_no_panic in Hbody].
    by apply ok_or_Panic in Hr.
Qed.

(** A loop over pages keeps what its body keeps, with [n] requests for a page. *)
Lemma ensures_for_pages {S} (body : nat → S → Api (bool * S)) (P : S → Prop) n pages s :
  (∀ page s, P s → ensures (body page s) (λ r, P r.2) n) →
  P s → ensures (for_pages body pages s) P (n * length pages).
Proof.
  intros Hbody. revert s. induction pages as [|page pages IH]; intros s Hs; cbn [for_pages length].
  - rewrite Nat.mul_0_r. by apply ensures_pure.
  - replace (n * Datatypes.S (length pages)) with (n + n * length pages) by lia.
    eapply ensures_bind; [by apply Hbody|]. intros [continue s'] Hs'. cbn in Hs'.
    destruct continue; [by apply IH|]. eapply ensures_weaken; [by apply ensures_pure | done | lia].
Qed.
End api_props.

(** * Environments of deployments (crates/gitzero-agent, executor.rs)

    The checks a job with an [environment] passes before it sees the variables of
    the environment ([environment_variables_for_job]), and the files of a pull
    request: programs over the GitHub API. *)

Inductive DeploymentBranchPolicyMode := PolicyUnrestricted | PolicyProtectedBranches | PolicyCustom.

Definition MAX_PULL_REQUEST_FILES : nat := 3000.
Definition PULL_REQUEST_FILES_PER_PAGE : nat := 100.
Definition ENVIRONMENT_VARIABLE_PAGE_SIZE : nat := 30.
Definition MAX_ENVIRONMENT_VARIABLES : nat := 100.
Definition MAX_CONFIGURATION_VARIABLE_BYTES : Z := 48 * 1024.
Definition DEPLOYMENT_BRANCH_POLICY_PAGE_SIZE : nat := 100.
Definition MAX_DEPLOYMENT_BRANCH_POLICIES : nat := 1000.
Definition MAX_DEPLOYMENT_BRANCH_PATTERN_TOTAL_BYTES : Z := 256 * 1024.

Definition div_ceil (a b : nat) : nat := (a + b - 1) / b.

(** [1..=maximum_pages] *)
Definition pages_up_to (maximum_pages : nat) : list nat := seq 1 maximum_pages.

(** ** The metadata *)

Definition validate_environment_metadata (requested_name : string) (metadata : GitHubEnvironmentMetadata) :
    outcome string DeploymentBranchPolicyMode :=
  reject_if (negb (eq_ignore_ascii_case (em_name metadata) requested_name))
    ("GitHub returned environment '" +:+ em_name metadata +:+ "' while '" +:+ requested_name +:+ "' was requested") ;?
  reject_if (negb (is_nil (em_protection_rules metadata)))
    ("GitHub environment '" +:+ requested_name +:+ "' has reviewer, wait-timer, or custom deployment protection rules that GitZero cannot safely emulate") ;?
  match em_deployment_branch_policy metadata with
  | None => Ok PolicyUnrestricted
  | Some policy =>
      match protected_branches policy, custom_branch_policies policy with
      | true, false => Ok PolicyProtectedBranches
      | false, true => Ok PolicyCustom
      | _, _ => Err ("GitHub environment '" +:+ requested_name +:+ "' returned an invalid deployment branch policy")
      end
  end.

(** ** Branch policies *)

Definition deployment_policy_reference (github_ref : string) : outcome string (string * string) :=
  match strip_prefix "refs/heads/" github_ref with
  | Some (String _ _ as branch) => Ok ("branch", branch)
  | _ =>
      match strip_prefix "refs/tags/" github_ref with
      | Some (String _ _ as tag) => Ok ("tag", tag)
      | _ =>
          if starts_with "refs/pull/" github_ref then Ok ("branch", github_ref)
          else Err ("workflow ref '" +:+ github_ref +:+ "' cannot be evaluated against deployment branch policies")
      end
  end.

Record PolicyScan := mkPolicyScan {
  ps_received : nat;
  ps_pattern_bytes : Z;
  ps_matched : bool;
  ps_reported_total : option Z;
}.

Definition invalid_policy (policy : DeploymentBranchPolicy) : bool :=
  is_empty (bp_name policy)
  || bool_decide (MAX_DEPLOYMENT_BRANCH_PATTERN_BYTES < Z.of_nat (slen (bp_name policy)))%Z
  || contains_byte is_nul_or_line_end (bp_name policy)
  || negb (bool_decide (bp_policy_type policy = "branch") || bool_decide (bp_policy_type policy = "tag")).

Definition scan_policy (environment_name reference_type reference_name : string) (policy : DeploymentBranchPolicy)
    (scan : PolicyScan) : outcome string PolicyScan :=
  reject_if (invalid_policy policy)
    ("GitHub environment '" +:+ environment_name +:+ "' returned an invalid deployment branch policy") ;?
  let pattern_bytes := (ps_pattern_bytes scan + Z.of_nat (slen (bp_name policy)))%Z in
  reject_if (bool_decide (usize_max < pattern_bytes)%Z) "deployment branch policy size overflow" ;?
  reject_if (bool_decide (MAX_DEPLOYMENT_BRANCH_PATTERN_TOTAL_BYTES < pattern_bytes)%Z)
    ("GitHub environment '" +:+ environment_name +:+ "' deployment branch policies exceed the size limit") ;?
  let? matches :=
    if bool_decide (bp_policy_type policy = reference_type)
    then deployment_pattern_matches (bp_name policy) reference_name else Ok false in
  Ok (mkPolicyScan (S (ps_received scan)) pattern_bytes (ps_matched scan || matches) (ps_reported_total scan)).

Definition policy_page_checks (environment_name : string) (page : nat) (response : DeploymentBranchPolicyPage)
    (scan : PolicyScan) : outcome string unit :=
  let environment := "GitHub environment '" +:+ environment_name +:+ "'" in
  reject_if (bool_decide (Z.of_nat MAX_DEPLOYMENT_BRANCH_POLICIES < bpp_total_count response)%Z)
    (environment +:+ " reports more than " +:+ pretty MAX_DEPLOYMENT_BRANCH_POLICIES +:+ " deployment branch policies") ;?
  reject_if (match ps_reported_total scan with
             | Some total => negb (bool_decide (total = bpp_total_count response))
             | None => false
             end) (environment +:+ " changed its deployment branch policy count during pagination") ;?
  reject_if (bool_decide (DEPLOYMENT_BRANCH_POLICY_PAGE_SIZE < length (bpp_branch_policies response)))
    (environment +:+ " returned too many deployment branch policies on page " +:+ pretty page).

Definition scan_policy_page (environment_name reference_type reference_name : string) (page : nat)
    (response : DeploymentBranchPolicyPage) (scan : PolicyScan) : outcome string (bool * PolicyScan) :=
  policy_page_checks environment_name page response scan ;?
  let? scan := for_each (scan_policy environment_name reference_type reference_name) (bpp_branch_policies response)
    (mkPolicyScan (ps_received scan) (ps_pattern_bytes scan) (ps_matched scan) (Some (bpp_total_count response))) in
  Ok (negb (bool_decide (length (bpp_branch_policies response) < DEPLOYMENT_BRANCH_POLICY_PAGE_SIZE)
            || bool_decide (bpp_total_count response ≤ Z.of_nat (ps_received scan))%Z), scan).

Section programs.
Context `{GH : GitHub}.

Definition enforce_custom_branch_policy (environment_name github_ref : string) : Api unit :=
  ask! (reference_type, reference_name) := pure (deployment_policy_reference github_ref) in
  ask! scan := for_pages (λ page scan,
      ask! response := github_api_get_json (ListBranchPolicies environment_name page)
        ("list environment '" +:+ environment_name +:+ "' deployment branch policies page " +:+ pretty page) in
      pure (scan_policy_page environment_name reference_type reference_name page response scan))
    (pages_up_to (div_ceil MAX_DEPLOYMENT_BRANCH_POLICIES DEPLOYMENT_BRANCH_POLICY_PAGE_SIZE))
    (mkPolicyScan 0 0 false None) in
  let expected := default 0%Z (ps_reported_total scan) in
  pure (reject_if (negb (bool_decide (Z.of_nat (ps_received scan) = expected)))
          ("GitHub environment '" +:+ environment_name +:+ "' returned " +:+ pretty (ps_received scan) +:+ " of " +:+
           pretty expected +:+ " deployment branch policies") ;?
        reject_if (negb (ps_matched scan))
          ("GitHub environment '" +:+ environment_name +:+ "' deployment branch policies do not allow ref '" +:+
           github_ref +:+ "'")).

Definition check_selected_branch (environment_name branch : string) (selected : GitHubBranch) : outcome string unit :=
  reject_if (negb (bool_decide (gb_name selected = branch)))
    ("GitHub returned branch '" +:+ gb_name selected +:+ "' while '" +:+ branch +:+ "' was requested") ;?
  reject_if (negb (gb_protected selected))
    ("GitHub environment '" +:+ environment_name +:+ "' allows only protected branches, and branch '" +:+ branch +:+
     "' is not protected").

Definition enforce_protected_branch_policy (environment_name github_ref : string) : Api unit :=
  ask! protected := github_api_get_json ListProtectedBranches "list protected repository branches" in
  ask! _ := pure (
    reject_if (bool_decide (1 < length protected)) "GitHub returned too many protected repository branches" ;?
    reject_if (existsb (λ branch, negb (gb_protected branch)) protected)
      "GitHub returned an invalid protected repository branch") in
  if is_nil protected then pure (Ok tt)
  else
    ask! branch := pure (ok_or (strip_prefix "refs/heads/" github_ref)
      ("GitHub environment '" +:+ environment_name +:+ "' allows only protected branches, and ref '" +:+ github_ref +:+
       "' is not a repository branch")) in
    ask! _ := pure (reject_if (is_empty branch) "GitHub returned an invalid workflow ref") in
    ask! selected := github_api_get_json (GetBranch branch) ("get repository branch '" +:+ branch +:+ "'") in
    pure (check_selected_branch environment_name branch selected).

Definition enforce_environment_branch_policy (environment_name github_ref : string)
    (policy : DeploymentBranchPolicyMode) : Api unit :=
  match policy with
  | PolicyUnrestricted => pure (Ok tt)
  | PolicyProtectedBranches => enforce_protected_branch_policy environment_name github_ref
  | PolicyCustom => enforce_custom_branch_policy environment_name github_ref
  end.

(** ** The variables of an environment *)

Context (to_uppercase to_lowercase : string → string).       (** Unicode *)

Record VariableScan := mkVariableScan {
  vs_selected : gmap string string;
  vs_normalized_names : gset string;
}.

Definition insert_environment_variable (environment_name : string) (variable : ActionsVariable) (scan : VariableScan) :
    outcome string VariableScan :=
  reject_if (is_empty (av_name variable) || contains_byte is_nul_or_line_end (av_name variable)
             || bool_decide (MAX_CONFIGURATION_VARIABLE_BYTES < Z.of_nat (slen (av_value variable)))%Z)
    ("GitHub environment '" +:+ environment_name +:+ "' returned an invalid configuration variable") ;?
  let normalized := to_uppercase (av_name variable) in
  reject_if (bool_decide (normalized ∈ vs_normalized_names scan))
    ("GitHub environment '" +:+ environment_name +:+ "' returned duplicate variable '" +:+ av_name variable +:+ "'") ;?
  Ok (mkVariableScan (<[av_name variable := av_value variable]> (vs_selected scan))
                     ({[normalized]} ∪ vs_normalized_names scan)).

Definition scan_variable_page (environment_name : string) (page : nat) (response : ActionsVariablePage)
    (scan : VariableScan) : outcome string (bool * VariableScan) :=
  let environment := "GitHub environment '" +:+ environment_name +:+ "'" in
  reject_if (bool_decide (Z.of_nat MAX_ENVIRONMENT_VARIABLES < avp_total_count response)%Z)
    (environment +:+ " reports more than " +:+ pretty MAX_ENVIRONMENT_VARIABLES +:+ " variables") ;?
  reject_if (bool_decide (ENVIRONMENT_VARIABLE_PAGE_SIZE < length (avp_variables response)))
    (environment +:+ " returned too many variables on page " +:+ pretty page) ;?
  let? scan := for_each (insert_environment_variable environment_name) (avp_variables response) scan in
  Ok (negb (bool_decide (length (avp_variables response) < ENVIRONMENT_VARIABLE_PAGE_SIZE)
            || bool_decide (avp_total_count response ≤ Z.of_nat (size (vs_selected scan)))%Z), scan).

Definition fetch_github_environment_variables_from (environment_name github_ref : string) : Api (gmap string string) :=
  ask! metadata := github_api_get_json (GetEnvironment environment_name)
    ("get environment '" +:+ environment_name +:+ "'") in
  ask! branch_policy := pure (validate_environment_metadata environment_name metadata) in
  ask! _ := enforce_environment_branch_policy environment_name github_ref branch_policy in
  ask! scan := for_pages (λ page scan,
      ask! response := github_api_get_json (ListEnvironmentVariables environment_name page)
        ("list environment '" +:+ environment_name +:+ "' variables page " +:+ pretty page) in
      pure (scan_variable_page environment_name page response scan))
    (pages_up_to (div_ceil MAX_ENVIRONMENT_VARIABLES ENVIRONMENT_VARIABLE_PAGE_SIZE))
    (mkVariableScan ∅ ∅) in
  pure (Ok (vs_selected scan)).

(** The variables are kept for the other jobs of the run, by the name of the
    environment in lower case.  [token] is the answer to the request of a token. *)
Definition environment_variables_for_job (installation_id : Z) (token : outcome string string)
    (environment_name github_ref : string) (cache : gmap string (gmap string string)) :
    Api (gmap string (gmap string string) * gmap string string) :=
  let cache_key := to_lowercase environment_name in
  match cache !! cache_key with
  | Some variables => pure (Ok (cache, variables))
  | None =>
      ask! _ := pure (reject_if (bool_decide (installation_id = 0%Z))
        ("job references GitHub environment '" +:+ environment_name +:+
         "', but no GitHub App installation is available")) in
      ask! _ := pure (map_err (λ _, "issue environment-read token for GitHub environment '" +:+ environment_name +:+ "'")
                        token) in
      ask! variables := fetch_github_environment_variables_from environment_name github_ref in
      pure (Ok (<[cache_key := variables]> cache, variables))
  end.

(** ** The files of a pull request *)

Definition listed_files (number : Z) (page : nat) (exchange : Exchange) : outcome string (list PullRequestFile) :=
  match exchange with
  | TransportError => Err ("list pull request files page " +:+ pretty page)
  | RunCancelled => Err "run cancelled while listing pull request files"
  | Responded response =>
      reject_if (negb (rs_success response))
        ("GitHub API list pull request files page " +:+ pretty page +:+ " failed (" +:+ rs_status response +:+ "): " +:+
         truncate_text (default "response body unavailable" (rs_body response)) 4096) ;?
      ok_or (body ← rs_body response; decode (ListPullRequestFiles number page) body)
        ("decode pull request files page " +:+ pretty page)
  end.

Definition push_file (file : PullRequestFile) (paths : list string) : outcome string (list string) :=
  reject_if (is_empty (prf_filename file) || contains_byte is_nul_or_line_end (prf_filename file))
    "GitHub API returned an invalid pull request file path" ;?
  Ok (paths ++ [prf_filename file]).

Definition fetch_pull_request_changed_paths (number : Z) : Api (list string) :=
  for_pages (λ page paths,
      ask! exchange := send_request (ListPullRequestFiles number page) in
      ask! files := pure (listed_files number page exchange) in
      pure (reject_if (bool_decide (PULL_REQUEST_FILES_PER_PAGE < length files))
              ("GitHub API returned too many pull request files on page " +:+ pretty page) ;?
            let? paths := for_each push_file files paths in
            Ok (negb (bool_decide (length files < PULL_REQUEST_FILES_PER_PAGE)), paths)))
    (pages_up_to (MAX_PULL_REQUEST_FILES / PULL_REQUEST_FILES_PER_PAGE)) [].
End programs.

Definition validate_changed_paths (paths : list string) : outcome string unit :=
  reject_if (bool_decide (MAX_PULL_REQUEST_FILES < length paths))
    ("pull request changed-file list exceeds GitHub's " +:+ pretty MAX_PULL_REQUEST_FILES +:+ "-file filter limit") ;?
  reject_if (existsb (λ path, is_empty path || contains_byte is_nul_or_line_end path) paths)
    "pull request changed-file list contains an invalid path".

(** * Environments of deployments: properties

    The variables of an environment are only returned for a ref its policy allows,
    after a bounded number of requests. *)

Lemma outcome_spec_reject {E A} b (e : E) (k : outcome E A) (P : A → Prop) :
  (b = false → outcome_spec k P (λ _, True)) → outcome_spec (reject_if b e ;? k) P (λ _, True).
Proof. destruct b; cbn; auto. Qed.

Lemma deployment_pattern_matches_reads pattern candidate :
  ∃ b, deployment_pattern_matches pattern candidate = Ok b ∧
    (b = true → reads true (chars pattern) true (chars candidate)).
Proof.
  unfold deployment_pattern_matches. destruct (_ || _ || _); [by exists false|].
  destruct (chars_pattern_decides (chars pattern) (chars candidate)) as (b & memo & -> & Hb).
  exists b. naive_solver.
Qed.

Section policies.
Context `{GH : GitHub} (environment_name github_ref : string).

(** [policy] is one that the server lists and accepts the ref. *)
Definition listed (policy : DeploymentBranchPolicy) (total : Z) : Prop :=
  ∃ page response, reported (ListBranchPolicies environment_name page) response ∧
    policy ∈ bpp_branch_policies response ∧ bpp_total_count response = total.

Definition allows (policy : DeploymentBranchPolicy) : Prop :=
  ∃ reference_type reference_name,
    deployment_policy_reference github_ref = Ok (reference_type, reference_name) ∧
    bp_policy_type policy = reference_type ∧ reads true (chars (bp_name policy)) true (chars reference_name).

(** What the mode of an environment asks of the ref.  [PolicyCustom]: the server
    has listed as many policies as it reports, and one of them allows the ref. *)
Definition ref_allowed (mode : DeploymentBranchPolicyMode) : Prop :=
  match mode with
  | PolicyUnrestricted => True
  | PolicyProtectedBranches =>
      reported ListProtectedBranches [] ∨
      ∃ branch selected, github_ref = "refs/heads/" +:+ branch ∧ branch ≠ "" ∧
        reported (GetBranch branch) selected ∧ gb_name selected = branch ∧ gb_protected selected = true
  | PolicyCustom =>
      ∃ policies, (∀ policy, policy ∈ policies → listed policy (Z.of_nat (length policies))) ∧
        ∃ policy, policy ∈ policies ∧ allows policy
  end.

(** ** Custom policies *)

Section scan.
Context (reference_type reference_name : string).
Hypothesis Href : deployment_policy_reference github_ref = Ok (reference_type, reference_name).

Definition scanned (policies : list DeploymentBranchPolicy) (scan : PolicyScan) : Prop :=
  ps_received scan = length policies ∧ (ps_matched scan = true → ∃ policy, policy ∈ policies ∧ allows policy).

Lemma scan_policy_spec policies policy scan :
  scanned policies scan →
  outcome_spec (scan_policy environment_name reference_type reference_name policy scan)
    (λ scan', scanned (policies ++ [policy]) scan' ∧ ps_reported_total scan' = ps_reported_total scan) (λ _, True).
Proof.
  intros [Hreceived Hmatched]. unfold scan_policy. do 3 (apply outcome_spec_reject; intros _).
  apply outcome_spec_bind.
  assert (Hmatch : outcome_spec (if bool_decide (bp_policy_type policy = reference_type)
      then deployment_pattern_matches (bp_name policy) reference_name else Ok false)
    (λ b : bool, b = true → allows policy) (λ _, True)).
  { case_bool_decide as Htype; [|done].
    destruct (deployment_pattern_matches_reads (bp_name policy) reference_name) as (b & -> & Hb).
    intros Htrue. exists reference_type, reference_name. auto. }
  eapply outcome_spec_mono; [exact Hmatch | | done]. intros b Hb. cbn. split; [|done]. split; cbn.
  - rewrite length_app, Hreceived. cbn. lia.
  - intros [Hold|Hnew]%orb_true_iff; [destruct (Hmatched Hold) as (p & ? & ?); exists p | exists policy]; set_solver.
Qed.

Definition custom_inv (scan : PolicyScan) : Prop :=
  ∃ policies, scanned policies scan ∧
    ∀ policy, policy ∈ policies → ∃ total, ps_reported_total scan = Some total ∧ listed policy total.

Lemma scan_policy_page_spec page response scan :
  reported (ListBranchPolicies environment_name page) response → custom_inv scan →
  outcome_spec (scan_policy_page environment_name reference_type reference_name page response scan)
    (λ r, custom_inv r.2) (λ _, True).
Proof.
  intros Hreported (policies & Hscanned & Hlisted). unfold scan_policy_page, policy_page_checks.
  cbv zeta. rewrite obind_assoc. apply outcome_spec_reject. intros _. rewrite obind_assoc.
  apply outcome_spec_reject. intros Htotal. apply outcome_spec_reject. intros _. apply outcome_spec_bind.
  eapply outcome_spec_mono.
  - apply (outcome_spec_for_each _
      (λ seen scan', scanned (policies ++ seen) scan' ∧ ps_reported_total scan' = Some (bpp_total_count response))).
    + rewrite app_nil_r. split; [|done]. by destruct Hscanned.
    + intros seen policy rest s Heq [Hs Hs']. rewrite app_assoc.
      eapply outcome_spec_mono; [by apply scan_policy_spec | | done]. cbn. intros s' [? ->]. done.
  - intros scan' [Hscan' Htotal']. cbn. exists (policies ++ bpp_branch_policies response). split; [done|].
    intros policy [Hold|Hnew]%elem_of_app; exists (bpp_total_count response); (split; [done|]).
    + destruct (Hlisted policy Hold) as (total & Hsome & Hl). rewrite Hsome in Htotal.
      apply negb_false_iff, bool_decide_eq_true in Htotal. by subst.
    + by exists page, response.
  - done.
Qed.
End scan.

Lemma custom_policy_ensures :
  ensures (enforce_custom_branch_policy environment_name github_ref) (λ _, ref_allowed PolicyCustom) 10.
Proof.
  unfold enforce_custom_branch_policy. replace 10 with (0 + (10 + 0)) by done.
  apply ensures_bind with (P := λ r, deployment_policy_reference github_ref = Ok r).
  { apply ensures_pure. destruct (deployment_policy_reference github_ref) eqn:Href; [done..|].
    unfold deployment_policy_reference in Href. repeat case_match; done. }
  intros [reference_type reference_name] Href.
  eapply ensures_bind with (P := custom_inv).
  - apply (ensures_weaken _ custom_inv custom_inv (1 * 10) 10); [|done..].
    apply (ensures_for_pages _ _ 1 (pages_up_to 10)).
    + intros page scan Hscan. replace 1 with (1 + 0) by done.
      eapply ensures_bind; [apply ensures_get|]. intros response Hresponse.
      apply ensures_pure. by apply scan_policy_page_spec.
    + exists []. split; [by split|]. by intros ? ?%elem_of_nil.
  - intros scan (policies & [Hreceived Hmatched] & Hlisted). apply ensures_pure.
    apply outcome_spec_reject. intros Hcount%negb_false_iff%bool_decide_eq_true.
    destruct (ps_matched scan); cbn; [|done]. exists policies. split; [|by apply Hmatched].
    intros policy Hp. destruct (Hlisted policy Hp) as (total & Htotal & Hl).
    rewrite Htotal, Hreceived in Hcount. cbn in Hcount. by rewrite Hcount.
Qed.

(** ** Protected branches *)

Lemma protected_policy_ensures :
  ensures (enforce_protected_branch_policy environment_name github_ref) (λ _, ref_allowed PolicyProtectedBranches) 10.
Proof.
  apply (ensures_weaken _ (λ _, ref_allowed PolicyProtectedBranches) _ (1 + (0 + (0 + (0 + (1 + 0)))))); [|done | lia].
  unfold enforce_protected_branch_policy. eapply ensures_bind; [apply ensures_get|]. intros protected Hprotected.
  apply ensures_bind with (P := λ _, True).
  { apply ensures_pure. apply outcome_spec_reject. intros _. by destruct (existsb _ _). }
  intros _ _. destruct protected as [|b protected]; cbn [is_nil].
  { eapply ensures_weaken; [by apply ensures_pure with (P := λ _, True) | intros; by left | lia]. }
  apply ensures_bind with (P := λ branch, github_ref = "refs/heads/" +:+ branch).
  { apply ensures_pure. destruct (strip_prefix _ _) eqn:Hprefix; [by apply strip_prefix_Some | done]. }
  intros branch Hbranch. apply ensures_bind with (P := λ _, branch ≠ "").
  { apply ensures_pure. destruct branch; done. }
  intros _ Hne. eapply ensures_bind; [apply ensures_get|]. intros selected Hselected.
  apply ensures_pure. unfold check_selected_branch. apply outcome_spec_reject.
  intros Hname%negb_false_iff%bool_decide_eq_true.
  destruct (gb_protected selected) eqn:Hp; cbn; [|done]. right. exists branch, selected. done.
Qed.

Lemma branch_policy_ensures mode :
  ensures (enforce_environment_branch_policy environment_name github_ref mode) (λ _, ref_allowed mode) 10.
Proof.
  destruct mode; [|apply protected_policy_ensures | apply custom_policy_ensures].
  eapply ensures_weaken; [by apply ensures_pure with (P := λ _, True) | done | lia].
Qed.
End policies.

(** ** The variables *)

Section variables.
Context `{GH : GitHub} (to_uppercase to_lowercase : string → string).

Definition mode_of (mode : DeploymentBranchPolicyMode) : option GitHubDeploymentBranchPolicySettings :=
  match mode with
  | PolicyUnrestricted => None
  | PolicyProtectedBranches => Some (mkBranchPolicySettings true false)
  | PolicyCustom => Some (mkBranchPolicySettings false true)
  end.

Lemma validate_environment_metadata_spec name metadata :
  outcome_spec (validate_environment_metadata name metadata)
    (λ mode, eq_ignore_ascii_case (em_name metadata) name = true ∧ em_protection_rules metadata = [] ∧
             em_deployment_branch_policy metadata = mode_of mode) (λ _, True).
Proof.
  unfold validate_environment_metadata. apply outcome_spec_reject. intros Hname%negb_false_iff.
  apply outcome_spec_reject. intros Hrules%negb_false_iff. destruct (em_protection_rules metadata); [|done].
  destruct (em_deployment_branch_policy metadata) as [[[] []]|]; done.
Qed.

(** Variables that the server lists, with names that differ in more than case. *)
Definition variables_listed (environment_name : string) (variables : gmap string string) : Prop :=
  (∀ name value, variables !! name = Some value →
     name ≠ "" ∧ contains_byte is_nul_or_line_end name = false ∧
     (Z.of_nat (slen value) ≤ MAX_CONFIGURATION_VARIABLE_BYTES)%Z ∧
     ∃ page response, reported (ListEnvironmentVariables environment_name page) response ∧
       mkActionsVariable name value ∈ avp_variables response) ∧
  (∀ name name' : string, is_Some (variables !! name) → is_Some (variables !! name') →
     to_uppercase name = to_uppercase name' → name = name').

Definition variables_inv (environment_name : string) (scan : VariableScan) : Prop :=
  variables_listed environment_name (vs_selected scan) ∧
  (∀ name, is_Some (vs_selected scan !! name) → to_uppercase name ∈ vs_normalized_names scan).

Lemma scan_variable_page_spec environment_name page response scan :
  reported (ListEnvironmentVariables environment_name page) response → variables_inv environment_name scan →
  outcome_spec (scan_variable_page to_uppercase environment_name page response scan)
    (λ r, variables_inv environment_name r.2) (λ _, True).
Proof.
  intros Hreported Hscan. unfold scan_variable_page. cbv zeta.
  do 2 (apply outcome_spec_reject; intros _). apply outcome_spec_bind.
  eapply outcome_spec_mono; [|by intros ? H; exact H | done].
  apply (outcome_spec_for_each _ (λ _, variables_inv environment_name)); [done|].
  clear scan Hscan. intros seen [name value] rest scan Heq [[Hlisted Hdistinct] Hnames].
  unfold insert_environment_variable. cbn [av_name av_value].
  apply outcome_spec_reject. intros [[Hne Hfree]%orb_false_iff Hlen%bool_decide_eq_false]%orb_false_iff.
  apply outcome_spec_reject. intros Hfresh%bool_decide_eq_false. cbn. split; cbn; [split|].
  - intros n v [[<- <-]|[? Hv]]%lookup_insert_Some; [|by apply Hlisted].
    split_and!; [by intros -> | done | lia |]. exists page, response. split; [done|].
    rewrite Heq. set_solver.
  - intros n n' [v Hn] [v' Hn'] Hup. apply lookup_insert_Some in Hn, Hn'.
    destruct Hn as [[<- _]|[? Hn]], Hn' as [[<- _]|[? Hn']]; [done | | | by eauto]; exfalso; apply Hfresh;
      [rewrite Hup | rewrite <- Hup]; apply Hnames; eauto.
  - intros n [v [[<- _]|[? Hv]]%lookup_insert_Some]; [set_solver|]. apply elem_of_union_r, Hnames. eauto.
Qed.

(** What the variables of an environment require of the ref of the run. *)
Definition released (environment_name github_ref : string) (variables : gmap string string) : Prop :=
  (∃ metadata mode, reported (GetEnvironment environment_name) metadata ∧
     eq_ignore_ascii_case (em_name metadata) environment_name = true ∧ em_protection_rules metadata = [] ∧
     em_deployment_branch_policy metadata = mode_of mode ∧ ref_allowed environment_name github_ref mode) ∧
  variables_listed environment_name variables.

Lemma fetch_variables_ensures environment_name github_ref :
  ensures (fetch_github_environment_variables_from to_uppercase environment_name github_ref)
    (released environment_name github_ref) 15.
Proof.
  apply (ensures_weaken _ (released environment_name github_ref) _ (1 + (0 + (10 + (4 + 0))))); [|done | lia].
  unfold fetch_github_environment_variables_from.
  eapply ensures_bind; [apply ensures_get|]. intros metadata Hmetadata.
  eapply ensures_bind; [apply ensures_pure, validate_environment_metadata_spec|].
  intros mode (Hname & Hrules & Hmode).
  eapply ensures_bind; [apply branch_policy_ensures|]. intros [] Hallowed.
  apply ensures_bind with (P := variables_inv environment_name).
  - apply (ensures_weaken _ (variables_inv environment_name) _ (1 * 4)); [|done..].
    apply (ensures_for_pages _ _ 1 (pages_up_to 4)).
    + intros page scan Hscan. replace 1 with (1 + 0) by done.
      eapply ensures_bind; [apply ensures_get|]. intros response Hresponse.
      apply ensures_pure. by apply scan_variable_page_spec.
    + split; [split|]; cbn.
      * intros n v Hn. by apply lookup_empty_Some in Hn.
      * intros n n' [v Hn]. by apply lookup_empty_Some in Hn.
      * intros n [v Hn]. by apply lookup_empty_Some in Hn.
  - intros scan [Hlisted _]. apply ensures_pure. cbn. split; [|done].
    exists metadata, mode. done.
Qed.

(** C26: The variables of an environment reach a job only when the policy of that
    environment (or of one whose name is the same in lower case, fetched earlier in
    the run) allows the ref of the run: it has no protection rules; its custom
    policies are listed completely and one of them accepts the ref, or the ref is a
    protected branch or the repository has none.  The variables are among those the
    server lists, no two names differ in case only, and at most fifteen requests
    are made. *)
Theorem environment_variables_follow_the_policy installation_id token environment_name github_ref cache made made' r :
  map_Forall (λ key variables, ∃ name, to_lowercase name = key ∧ released name github_ref variables) cache →
  environment_variables_for_job to_uppercase to_lowercase installation_id token environment_name github_ref cache made
    = (made', r) →
  token ≠ Panic →
  (∃ more, made' = made ++ more ∧ length more ≤ 15) ∧
  outcome_spec r
    (λ '(cache', variables),
      map_Forall (λ key variables, ∃ name, to_lowercase name = key ∧ released name github_ref variables) cache' ∧
      cache' !! to_lowercase environment_name = Some variables ∧
      ∃ name, to_lowercase name = to_lowercase environment_name ∧ released name github_ref variables) (λ _, True).
Proof.
  intros Hcache Hrun Htoken. revert made made' r Hrun.
  fold (ensures (environment_variables_for_job to_uppercase to_lowercase installation_id token environment_name
    github_ref cache) (λ '(cache', variables),
      map_Forall (λ key variables, ∃ name, to_lowercase name = key ∧ released name github_ref variables) cache' ∧
      cache' !! to_lowercase environment_name = Some variables ∧
      ∃ name, to_lowercase name = to_lowercase environment_name ∧ released name github_ref variables) 15).
  unfold environment_variables_for_job. destruct (cache !! to_lowercase environment_name) as [variables|] eqn:Hhit.
  { eapply ensures_weaken; [apply ensures_pure | intros ? H; exact H | lia].
    cbn. split; [done|]. split; [done|]. by apply (Hcache (to_lowercase environment_name)). }
  change 15 with (0 + (0 + (15 + 0))).
  apply ensures_bind with (P := λ _, True). { apply ensures_pure. by destruct (bool_decide _). }
  intros _ _. apply ensures_bind with (P := λ _, True). { apply ensures_pure. by destruct token. }
  intros _ _. eapply ensures_bind; [apply fetch_variables_ensures|]. intros variables Hreleased.
  apply ensures_pure. cbn. split; [|split; [by rewrite lookup_insert_eq | eauto]].
  apply map_Forall_insert_2; [eauto | done].
Qed.
End variables.

(** ** A concrete environment *)

#[local] Instance demo_github : GitHub := {
  exchange := λ _ _, Responded (mkResponse true "200 OK" (Some 2%Z) (Some "{}"));
  decode := λ request _,
    match request return option (reply request) with
    | GetEnvironment _ =>
        Some (mkEnvironmentMetadata "Production" [] (Some (mkBranchPolicySettings false true)))
    | ListBranchPolicies _ _ =>
        Some (mkBranchPolicyPage 2 [mkBranchPolicy "v*" "tag"; mkBranchPolicy "release/**/[0-9]*" "branch"])
    | ListEnvironmentVariables _ _ => Some (mkActionsVariablePage 1 [mkActionsVariable "REGION" "eu"])
    | _ => None
    end;
}.

Definition demo_variables (github_ref : string) :
    list GitHubRequest * outcome string (gmap string (gmap string string) * gmap string string) :=
  environment_variables_for_job (string_map ascii_lower) to_ascii_lowercase 7 (Ok "token") "production" github_ref ∅ [].

Example demo_release_allowed :
  match (demo_variables "refs/heads/release/a/b/1x").2 with
  | Ok (_, variables) => variables !! "REGION" = Some "eu"
  | _ => False
  end.
Proof. by vm_compute. Qed.

Example demo_branch_refused :
  (demo_variables "refs/heads/main").2 =
  Err "GitHub environment 'production' deployment branch policies do not allow ref 'refs/heads/main'".
Proof. by vm_compute. Qed.

Lemma environment_variables_follow_the_policy_witness :
  is_ok (demo_variables "refs/heads/release/1").2 = true ∧
  (∃ more, (demo_variables "refs/heads/release/1").1 = [] ++ more ∧ length more ≤ 15) ∧
  outcome_spec (demo_variables "refs/heads/release/1").2
    (λ '(cache', variables),
      map_Forall (λ key variables, ∃ name, to_ascii_lowercase name = key ∧
        released (string_map ascii_lower) name "refs/heads/release/1" variables) cache' ∧
      cache' !! to_ascii_lowercase "production" = Some variables ∧
      ∃ name, to_ascii_lowercase name = to_ascii_lowercase "production" ∧
        released (string_map ascii_lower) name "refs/heads/release/1" variables) (λ _, True).
Proof.
  split; [by vm_compute|].
  apply (environment_variables_follow_the_policy (string_map ascii_lower) to_ascii_lowercase 7 (Ok "token")
    "production" "refs/heads/release/1" ∅ []).
  - intros key variables H. by apply lookup_empty_Some in H.
  - unfold demo_variables. apply surjective_pairing.
  - done.
Defined.
