(* ===== verification/ArtifactSubjects.v ===== *)
(** * Attested artifacts (crates/gitzero-agent, artifact_subject.rs)

    The subjects a job declares in [GITHUB_ARTIFACTS]: the lines of the file, the
    digests of files and images, the subjects of the job with their limits, and the
    list its steps read. *)

From S2P Require Import Prelude RustStr UnixPath OrdMap RustText LogOutput.

Definition MAX_ARTIFACTS_FILE_BYTES : Z := 1024 * 1024.
Definition MAX_ARTIFACT_SUBJECTS : nat := 500.

Inductive ArtifactSubjectKind := SubjectFile | SubjectOci.

Record ArtifactSubject := mkArtifactSubject {
  as_name : string;
  as_digest : string;
  as_kind : ArtifactSubjectKind;
}.

#[export] Instance ArtifactSubjectKind_eq_dec : EqDecision ArtifactSubjectKind.
Proof. solve_decision. Defined.
#[export] Instance ArtifactSubject_eq_dec : EqDecision ArtifactSubject.
Proof. solve_decision. Defined.

(** [subjects] is shared by the steps of a job, behind a lock. *)
Record ArtifactSubjects := mkArtifactSubjects {
  as_enabled : bool;
  as_workspace : string;
  as_subjects : gmap string ArtifactSubject;
}.

Definition artifact_subjects_new (enabled : bool) (workspace : string) : ArtifactSubjects :=
  mkArtifactSubjects enabled workspace ∅.

Record ArtifactSubjectFiles := mkSubjectFiles { sf_declarations : string; sf_list : string }.

Record ArtifactCapture := mkCapture { ac_added : nat; ac_total : nat }.

(** What [metadata] finds, links followed. *)
Inductive FileKind := RegularFile | Directory | OtherFile.
Inductive FileStatus := StatMissing | StatError | Stat (kind : FileKind) (length : Z).

(** The machine: files, digests, and the serializer of the list. *)
Class SubjectLib := {
  file_status : string → FileStatus;
  read_file : string → option string;
  write_file : string → string → bool;
  sha256_bytes : string → list Z;                          (** [Sha256::digest] *)
  subject_list_json : list ArtifactSubject → option string;
}.

Definition artifacts_file_enabled (value : option string) : bool :=
  match value with
  | Some value => eq_ignore_ascii_case value "1" || eq_ignore_ascii_case value "true"
                  || eq_ignore_ascii_case value "$true"
  | None => false
  end.

Definition starts_with_ignore_ascii_case (value prefix : string) : bool :=
  is_some (strip_prefix_ignore_ascii_case value prefix).

(** [line] holds the characters since the last break. *)
Fixpoint runner_lines_from (line s : string) : list string :=
  match s with
  | EmptyString => if is_empty line then [] else [line]
  | String c r =>
      if bool_decide (c = lf) then line :: runner_lines_from "" r
      else if bool_decide (c = cr)
      then line :: (match r with
                    | String d r' => if bool_decide (d = lf) then runner_lines_from "" r' else runner_lines_from "" r
                    | EmptyString => []
                    end)
      else runner_lines_from (line +:+ String c "") r
  end.

Definition runner_lines (value : string) : list string := runner_lines_from "" value.

(** [PathBuf::pop]: the root stays. *)
Definition pop (path : list Component) : list Component :=
  match last path with None | Some RootDir => path | Some _ => removelast path end.

Definition push_component (path : list Component) (component : Component) : list Component :=
  match component with
  | CurDir => path
  | ParentDir => pop path
  | RootDir => [RootDir]
  | Normal name => path ++ [Normal name]
  end.

Definition normalize_path (path : string) : string := path_of (fold_left push_component (components path) []).

Definition scheme_character (c : string) : bool :=
  char_ascii is_ascii_alphanumeric c || bool_decide (c = "+") || bool_decide (c = ".") || bool_decide (c = "-").

Definition has_uri_scheme (value : string) : bool :=
  match split_once_str "://" value with
  | None => false
  | Some (scheme, _) =>
      match chars scheme with
      | [] => false
      | first :: rest => char_ascii is_ascii_alphabetic first && forallb scheme_character rest
      end
  end.

Definition expected_hex_length (algorithm : string) : option nat :=
  if bool_decide (algorithm = "sha256") then Some 64
  else if bool_decide (algorithm = "sha384") then Some 96
  else if bool_decide (algorithm = "sha512") then Some 128
  else None.

Definition parse_oci (value : string) : option (string * string * string) :=
  '(reference, digest) ← rsplit_once "@" value;
  '(algorithm, hex) ← split_once ":" digest;
  if is_empty reference
     || negb (bool_decide (algorithm = "sha256") || bool_decide (algorithm = "sha384")
              || bool_decide (algorithm = "sha512"))
     || is_empty hex || negb (string_forall is_ascii_hexdigit hex)
  then None else Some (reference, algorithm, hex).

Definition oci_subject (reference algorithm hex : string) : outcome string ArtifactSubject :=
  let? expected := ok_or (expected_hex_length algorithm) "unsupported OCI digest algorithm" in
  reject_if (negb (bool_decide (slen hex = expected)))
    ("digest '" +:+ algorithm +:+ "' must be " +:+ pretty expected +:+ " hex characters, got " +:+ pretty (slen hex)) ;?
  Ok (mkArtifactSubject reference (algorithm +:+ ":" +:+ to_ascii_lowercase hex) SubjectOci).

(** [{byte:02x}] *)
Definition hex_digit (n : Z) : ascii := ascii_of_N (Z.to_N (if (n <? 10)%Z then 48 + n else 87 + n)%Z).
Definition hex_byte (byte : Z) : string :=
  String (hex_digit (Z.shiftr byte 4)) (String (hex_digit (Z.land byte 15)) "").

(** [left.encode_utf16().cmp(right.encode_utf16())] *)
Definition char_code (c : string) : Z :=
  let byte i := match sbyte c i with Some a => Z.of_N (N_of_ascii a) | None => 0%Z end in
  let tail i := Z.land (byte i) 63 in
  match slen c with
  | 1 => byte 0
  | 2 => Z.lor (Z.shiftl (Z.land (byte 0) 31) 6) (tail 1)
  | 3 => Z.lor (Z.shiftl (Z.land (byte 0) 15) 12) (Z.lor (Z.shiftl (tail 1) 6) (tail 2))
  | _ => Z.lor (Z.shiftl (Z.land (byte 0) 7) 18)
               (Z.lor (Z.shiftl (tail 1) 12) (Z.lor (Z.shiftl (tail 2) 6) (tail 3)))
  end.

Definition char_utf16 (c : string) : list Z :=
  let code := char_code c in
  if (code <? 65536)%Z then [code]
  else let above := (code - 65536)%Z in
       [Z.lor 55296 (Z.shiftr above 10); Z.lor 56320 (Z.land above 1023)].

Definition encode_utf16 (s : string) : list Z := chars s ≫= char_utf16.

Fixpoint units_le (a b : list Z) : bool :=
  match a, b with
  | [], _ => true
  | _ :: _, [] => false
  | x :: a, y :: b => (x <? y)%Z || ((x =? y)%Z && units_le a b)
  end.

Definition subject_le (left right : ArtifactSubject) : Prop :=
  units_le (encode_utf16 (as_name left)) (encode_utf16 (as_name right)) = true.

#[export] Instance subject_le_dec : RelDecision subject_le.
Proof. intros a b. unfold subject_le. apply _. Defined.

Section subjects.
Context `{SL : SubjectLib}.

Definition file_subject (workspace declared_path : string) : outcome string ArtifactSubject :=
  let path := if is_absolute declared_path then declared_path else normalize_path (join workspace declared_path) in
  match file_status path with
  | StatMissing =>
      Err (if is_absolute declared_path then "file '" +:+ declared_path +:+ "' does not exist"
           else "file '" +:+ declared_path +:+
                "' does not exist (relative paths are resolved against the workspace root '" +:+ workspace +:+ "')")
  | StatError => Err ("inspect '" +:+ path +:+ "'")
  | Stat Directory _ => Err ("'" +:+ declared_path +:+ "' is a directory, not a regular file")
  | Stat OtherFile _ => Err ("'" +:+ declared_path +:+ "' is not a regular file")
  | Stat RegularFile _ =>
      let? name := ok_or (file_name path) "artifact file path does not have a file name" in
      let? content := ok_or (read_file path) ("hash artifact file " +:+ path) in
      Ok (mkArtifactSubject name ("sha256:" +:+ sconcat (hex_byte <$> sha256_bytes content)) SubjectFile)
  end.

Definition parse_line (workspace line : string) : outcome string ArtifactSubject :=
  if contains_byte (λ c, bool_decide (c = "="%char)) line
  then Err "entries containing '=' are reserved and not permitted"
  else
  if starts_with_ignore_ascii_case line "file://" then
    let path := sdrop (slen "file://") line in
    if is_empty (trim path) then Err "file:// entries must include a path" else file_subject workspace path
  else if starts_with_ignore_ascii_case line "oci://" then
    let? ' (reference, algorithm, hex) :=
      ok_or (parse_oci (sdrop (slen "oci://") line))
            "oci:// entries must include an @sha{256,384,512}:<hex> digest" in
    oci_subject reference algorithm hex
  else if has_uri_scheme line then Err "unsupported URI scheme"
  else
    match parse_oci line with
    | Some (reference, algorithm, hex) =>
        if bool_decide (expected_hex_length algorithm = Some (slen hex)) then oci_subject reference algorithm hex
        else file_subject workspace line
    | None => file_subject workspace line
    end.

(** The declarations of the file, with the numbers of their lines. *)
Definition parse_declaration (workspace : string) (entry : nat * string) (parsed : list (nat * ArtifactSubject)) :
    outcome string (list (nat * ArtifactSubject)) :=
  let '(index, raw) := entry in
  let line := trim raw in
  if is_empty line || starts_with "#" line then Ok parsed
  else
    let? subject := map_err (λ _, "invalid $GITHUB_ARTIFACTS line " +:+ pretty (S index)) (parse_line workspace line) in
    Ok (parsed ++ [(S index, subject)]).

(** A byte order mark is not part of the text. *)
Definition byte_order_mark : string := String "239" (String "187" (String "191" "")).

Definition parse_declarations (workspace contents : string) : outcome string (list (nat * ArtifactSubject)) :=
  let contents := default contents (strip_prefix byte_order_mark contents) in
  for_each (parse_declaration workspace) (enumerate (runner_lines (from_utf8_lossy contents))) [].

(** The critical section: what was added before an error stays. *)
Fixpoint add_subjects (parsed : list (nat * ArtifactSubject)) (aggregate : gmap string ArtifactSubject) (added : nat) :
    gmap string ArtifactSubject * outcome string ArtifactCapture :=
  match parsed with
  | [] => (aggregate, Ok (mkCapture added (size aggregate)))
  | (line, subject) :: parsed =>
      match aggregate !! as_name subject with
      | Some existing =>
          if bool_decide (as_digest existing = as_digest subject) then add_subjects parsed aggregate added
          else (aggregate,
                Err ("invalid $GITHUB_ARTIFACTS line " +:+ pretty line +:+ ": subject '" +:+ as_name subject +:+
                     "' conflicts with digest '" +:+ as_digest existing +:+
                     "' already declared for that name (new digest '" +:+ as_digest subject +:+ "')"))
      | None =>
          if bool_decide (MAX_ARTIFACT_SUBJECTS ≤ size aggregate)
          then (aggregate, Err ("invalid $GITHUB_ARTIFACTS line " +:+ pretty line +:+ ": a job may declare at most " +:+
                                pretty MAX_ARTIFACT_SUBJECTS +:+ " artifact subjects"))
          else add_subjects parsed (<[as_name subject := subject]> aggregate) (S added)
      end
  end.

(** Before the lock is taken: the answer at once, or the declarations. *)
Inductive Declared := Unchanged | Declarations (parsed : list (nat * ArtifactSubject)).

Definition read_declarations (workspace path : string) : outcome string Declared :=
  match file_status path with
  | StatMissing => Ok Unchanged
  | StatError => Err ("inspect " +:+ path)
  | Stat _ length =>
      if (length =? 0)%Z then Ok Unchanged
      else if (MAX_ARTIFACTS_FILE_BYTES <? length)%Z
      then Err ("$GITHUB_ARTIFACTS file exceeds the " +:+ pretty (MAX_ARTIFACTS_FILE_BYTES / 1024)%Z +:+
                " KiB limit (" +:+ pretty (length / 1024)%Z +:+ " KiB)")
      else
        let? contents := ok_or (read_file path) ("read " +:+ path) in
        let? parsed := parse_declarations workspace contents in
        Ok (Declarations parsed)
  end.

Definition process (subjects : ArtifactSubjects) (path : string) : ArtifactSubjects * outcome string ArtifactCapture :=
  if negb (as_enabled subjects) then (subjects, Ok (mkCapture 0 0))
  else
    match read_declarations (as_workspace subjects) path with
    | Ok Unchanged => (subjects, Ok (mkCapture 0 (size (as_subjects subjects))))
    | Ok (Declarations parsed) =>
        let '(aggregate, result) := add_subjects parsed (as_subjects subjects) 0 in
        (mkArtifactSubjects (as_enabled subjects) (as_workspace subjects) aggregate, result)
    | Err e => (subjects, Err e)
    | Panic => (subjects, Panic)
    end.

(** [sort_by] is stable; the subjects come in the order of their names. *)
Definition ordered_subjects (subjects : gmap string ArtifactSubject) : list ArtifactSubject :=
  merge_sort subject_le (btree_values subjects).

(** The files a step is given, and what was written to them in order. *)
Definition initialize_files (subjects : ArtifactSubjects) (nonce directory prefix : string) :
    list (string * string) * outcome string ArtifactSubjectFiles :=
  let declarations := join directory (prefix +:+ "-" +:+ nonce +:+ "-artifacts.txt") in
  let list := join directory (prefix +:+ "-" +:+ nonce +:+ "-artifacts-list.json") in
  let files := mkSubjectFiles declarations list in
  if negb (write_file declarations "") then ([], Err ("initialize " +:+ declarations)) else
  if negb (write_file list "") then ([(declarations, "")], Err ("initialize " +:+ list)) else
  let written := [(declarations, ""); (list, "")] in
  if as_enabled subjects then
    match subject_list_json (ordered_subjects (as_subjects subjects)) with
    | None => (written, Err "serialize")
    | Some payload =>
        if write_file list payload then (written ++ [(list, payload)], Ok files)
        else (written, Err ("populate " +:+ list))
    end
  else (written, Ok files).
End subjects.

(** * Attested artifacts: properties

    The subjects of a job stay well formed, one digest for a name, and within
    their limit, whatever its steps declare. *)

(** ** Digests *)

Definition is_lower_hex (c : ascii) : bool := is_ascii_digit c || byte_in 97 102 c.

Definition lower_hex (length : nat) (s : string) : Prop := slen s = length ∧ string_forall is_lower_hex s = true.

(** What a recorded subject looks like. *)
Definition well_formed_subject (subject : ArtifactSubject) : Prop :=
  as_name subject ≠ "" ∧
  ∃ algorithm length hex,
    expected_hex_length algorithm = Some length ∧ as_digest subject = algorithm +:+ ":" +:+ hex ∧ lower_hex length hex ∧
    (as_kind subject = SubjectFile → algorithm = "sha256").

Lemma string_forall_map (p q : ascii → bool) f s :
  (∀ c, p c = true → q (f c) = true) → string_forall p s = true → string_forall q (string_map f s) = true.
Proof.
  intros Hpq. induction s as [|c s IH]; [done|]. cbn. rewrite !andb_true_iff. intros [? ?]. eauto.
Qed.

Lemma lower_of_hexdigit c : is_ascii_hexdigit c = true → is_lower_hex (ascii_lower c) = true.
Proof. destruct c as [[] [] [] [] [] [] [] []]; by vm_compute. Qed.

Lemma lowercase_hex s : string_forall is_ascii_hexdigit s = true → lower_hex (slen s) (to_ascii_lowercase s).
Proof.
  intros Hs. split; [apply slen_string_map|]. eapply string_forall_map; [apply lower_of_hexdigit | done].
Qed.

Lemma hex_digit_lower n : (0 ≤ n < 16)%Z → is_lower_hex (hex_digit n) = true.
Proof.
  intros Hn. assert (n ∈ seqZ 0 16) as Hin by by apply elem_of_seqZ.
  revert Hin. clear Hn. revert n. apply Forall_forall. by repeat constructor.
Qed.

Lemma hex_bytes bytes :
  Forall (λ b, 0 ≤ b < 256)%Z bytes → lower_hex (2 * length bytes) (sconcat (hex_byte <$> bytes)).
Proof.
  induction 1 as [|b bytes Hb _ [IHl IHf]]; [by split|]. cbn [fmap list_fmap sconcat foldr length].
  change (foldr _ "" (hex_byte <$> bytes)) with (sconcat (hex_byte <$> bytes)).
  assert (Hhi : (0 ≤ Z.shiftr b 4 < 16)%Z).
  { rewrite Z.shiftr_div_pow2 by lia. change (2 ^ 4)%Z with 16%Z.
    split; [apply Z.div_pos; lia | apply Z.div_lt_upper_bound; lia]. }
  assert (Hlo : (0 ≤ Z.land b 15 < 16)%Z).
  { change 15%Z with (Z.ones 4). rewrite Z.land_ones by lia. change (2 ^ 4)%Z with 16%Z.
    apply Z.mod_pos_bound. lia. }
  split.
  - rewrite slen_app, IHl. unfold slen, hex_byte. cbn [String.length]. lia.
  - rewrite string_forall_app, IHf. unfold hex_byte. cbn [string_forall].
    by rewrite !hex_digit_lower.
Qed.

Lemma oci_subject_well_formed reference algorithm hex subject :
  reference ≠ "" → string_forall is_ascii_hexdigit hex = true →
  oci_subject reference algorithm hex = Ok subject → well_formed_subject subject.
Proof.
  intros Hname Hhex H. unfold oci_subject in H. ok_inv. cbn. split; [done|].
  match goal with Hl : negb _ = false |- _ => apply negb_false_iff, bool_decide_eq_true in Hl as Hlen end.
  exists algorithm, (slen hex), (to_ascii_lowercase hex). cbn. split_and!; [congruence | done | | done].
  by apply lowercase_hex.
Qed.

Lemma parse_oci_spec value reference algorithm hex :
  parse_oci value = Some (reference, algorithm, hex) → reference ≠ "" ∧ string_forall is_ascii_hexdigit hex = true.
Proof.
  unfold parse_oci. destruct (rsplit_once "@" value) as [[? digest]|]; [|done]. cbn.
  destruct (split_once ":" digest) as [[? ?]|]; [|done]. cbn.
  destruct (_ || _ || _ || _) eqn:Hguard; [done|]. intros [= <- <- <-].
  apply orb_false_iff in Hguard as [[[Hempty _]%orb_false_iff _]%orb_false_iff Hhex%negb_false_iff].
  split; [by intros -> | done].
Qed.

Lemma path_name_not_empty path name : Normal name ∈ components path → name ≠ "".
Proof.
  unfold components. rewrite elem_of_app, list_elem_of_bind. intros [Hroot|([index part] & Hin & _)].
  - destruct (is_absolute path); [set_unfold; naive_solver | by apply elem_of_nil in Hroot].
  - unfold part_components in Hin. destruct part as [|c part]; cbn in Hin; [by apply elem_of_nil in Hin|].
    repeat case_bool_decide; destruct (_ && _) in Hin || idtac; set_unfold; naive_solver.
Qed.

Section props.
Context `{SL : SubjectLib}.
Hypothesis sha256_is_32_bytes : ∀ s, length (sha256_bytes s) = 32 ∧ Forall (λ b, 0 ≤ b < 256)%Z (sha256_bytes s).

Lemma file_subject_well_formed workspace path subject :
  file_subject workspace path = Ok subject → well_formed_subject subject.
Proof.
  unfold file_subject. set (full := if is_absolute path then _ else _).
  destruct (file_status full) as [| |[] ?]; try done. intros H. ok_inv. cbn.
  match goal with Hf : file_name full = Some ?n |- _ => rename Hf into Hname, n into name end. split.
  - unfold file_name in Hname. destruct (last (components full)) as [[| | |n]|] eqn:Hlast; simplify_eq.
    apply last_Some in Hlast as [l Hlast]. apply (path_name_not_empty full). rewrite Hlast. set_solver.
  - eexists "sha256", 64, _. split_and!; [done..| |done].
    match goal with |- lower_hex _ (sconcat (hex_byte <$> sha256_bytes ?c)) => pose proof (sha256_is_32_bytes c) as [Hl Hb] end.
    apply hex_bytes in Hb. by rewrite Hl in Hb.
Qed.

Lemma parse_line_well_formed workspace line subject :
  parse_line workspace line = Ok subject → well_formed_subject subject.
Proof.
  unfold parse_line. destruct (contains_byte _ _); [done|].
  destruct (starts_with_ignore_ascii_case line "file://").
  { destruct (is_empty _); [done|]. apply file_subject_well_formed. }
  destruct (starts_with_ignore_ascii_case line "oci://").
  { intros H. ok_inv. destruct x as [[reference algorithm] hex].
    apply parse_oci_spec in H0 as [? ?]. by eapply oci_subject_well_formed. }
  destruct (has_uri_scheme line); [done|].
  destruct (parse_oci line) as [[[reference algorithm] hex]|] eqn:Hoci; [|apply file_subject_well_formed].
  case_bool_decide; [|apply file_subject_well_formed].
  apply parse_oci_spec in Hoci as [? ?]. by apply oci_subject_well_formed.
Qed.

(** ** The declarations of a file *)

Lemma parse_line_no_panic workspace line : parse_line workspace line ≠ Panic.
Proof.
  unfold parse_line, file_subject, oci_subject, ok_or. intros H. repeat (case_match; simplify_eq/=);
    repeat (destruct (negb _) in H || destruct (is_empty _) in H || idtac; simplify_eq/=).
Qed.

Definition all_well_formed (parsed : list (nat * ArtifactSubject)) : Prop :=
  Forall (λ entry, well_formed_subject entry.2) parsed.

Lemma parse_declarations_spec workspace contents :
  outcome_spec (parse_declarations workspace contents) all_well_formed (λ _, True).
Proof.
  unfold parse_declarations. apply (outcome_spec_for_each _ (λ _, all_well_formed)); [constructor|].
  intros seen [index raw] rest parsed _ Hparsed. unfold parse_declaration.
  destruct (_ || _); [done|]. apply outcome_spec_bind.
  destruct (parse_line workspace (trim raw)) as [subject|e|] eqn:Hline; cbn; [|done|].
  - apply parse_line_well_formed in Hline. apply Forall_app. split; [done|]. by apply Forall_singleton.
  - by apply parse_line_no_panic in Hline.
Qed.

Lemma read_declarations_spec workspace path :
  outcome_spec (read_declarations workspace path)
    (λ declared, match declared with Unchanged => True | Declarations parsed => all_well_formed parsed end)
    (λ _, True).
Proof.
  unfold read_declarations. destruct (file_status path) as [| |kind length]; [done..|].
  destruct (length =? 0)%Z; [done|]. destruct (_ <? length)%Z; [done|].
  destruct (read_file path) as [contents|]; cbn [ok_or obind]; [|done].
  apply outcome_spec_bind. eapply outcome_spec_mono; [apply parse_declarations_spec | done..].
Qed.

(** ** The subjects of a job *)

Definition subjects_ok (subjects : gmap string ArtifactSubject) : Prop :=
  size subjects ≤ MAX_ARTIFACT_SUBJECTS ∧
  map_Forall (λ name subject, as_name subject = name ∧ well_formed_subject subject) subjects.

Lemma subjects_ok_empty : subjects_ok ∅.
Proof. split; [rewrite map_size_empty; lia | apply map_Forall_empty]. Qed.

Lemma add_subjects_spec parsed subjects added subjects' result :
  add_subjects parsed subjects added = (subjects', result) → subjects_ok subjects → all_well_formed parsed →
  subjects_ok subjects' ∧ subjects ⊆ subjects' ∧
  outcome_spec result (λ capture,
    ac_total capture = size subjects' ∧ ac_added capture + size subjects = added + size subjects' ∧
    ∀ line subject, (line, subject) ∈ parsed →
      ∃ recorded, subjects' !! as_name subject = Some recorded ∧ as_digest recorded = as_digest subject) (λ _, True).
Proof.
  revert subjects added. induction parsed as [|[line subject] parsed IH]; intros subjects added; cbn [add_subjects].
  { intros [= <- <-] Hok _. cbn. split_and!; [done..|]. by intros ?? ?%elem_of_nil. }
  intros Hadd Hok [Hsubject Hparsed]%Forall_cons. cbn in Hsubject.
  destruct (subjects !! as_name subject) as [existing|] eqn:Hexisting.
  - destruct (bool_decide_reflect (as_digest existing = as_digest subject)) as [Hsame|]; [|by simplify_eq].
    destruct (IH _ _ Hadd Hok Hparsed) as (Hok' & Hsub & Hresult). split_and!; [done..|].
    eapply outcome_spec_mono; [exact Hresult | | done]. intros capture (? & ? & Hall). split_and!; [done..|].
    intros l s [[= -> ->]|?]%elem_of_cons; [|by eauto].
    exists existing. split; [by eapply lookup_weaken | done].
  - destruct (bool_decide_reflect (MAX_ARTIFACT_SUBJECTS ≤ size subjects)) as [|Hroom]; [by simplify_eq|].
    destruct (IH _ _ Hadd) as (Hok' & Hsub & Hresult); [|done|].
    { destruct Hok as [Hsize Hall]. split.
      - rewrite map_size_insert_None by done. lia.
      - by apply map_Forall_insert_2. }
    split_and!; [done | |].
    { etransitivity; [by apply insert_subseteq | done]. }
    eapply outcome_spec_mono; [exact Hresult | | done]. intros capture (? & Hcount & Hall).
    rewrite map_size_insert_None in Hcount by done. split_and!; [done | lia |].
    intros l s [[= -> ->]|?]%elem_of_cons; [|by eauto].
    exists subject. split; [|done]. eapply lookup_weaken; [by apply lookup_insert_eq | done].
Qed.

(** C28: Whatever a step declares, the subjects of the job stay at most 500, each
    with a name, a digest of its algorithm's length in lower case hexadecimal, and
    recorded under its name; no subject recorded before is changed or removed, also
    when the step is refused.  When it is accepted the counts are those of the
    subjects, and every line it declares is recorded with that digest. *)
Theorem artifact_subjects_are_well_formed subjects path subjects' result :
  process subjects path = (subjects', result) → subjects_ok (as_subjects subjects) →
  subjects_ok (as_subjects subjects') ∧ as_subjects subjects ⊆ as_subjects subjects' ∧
  as_enabled subjects' = as_enabled subjects ∧ as_workspace subjects' = as_workspace subjects ∧
  outcome_spec result (λ capture,
    ac_added capture + size (as_subjects subjects) = size (as_subjects subjects') ∧
    (as_enabled subjects = true →
     ac_total capture = size (as_subjects subjects') ∧
     ∀ parsed line subject,
       read_declarations (as_workspace subjects) path = Ok (Declarations parsed) → (line, subject) ∈ parsed →
       ∃ recorded, as_subjects subjects' !! as_name subject = Some recorded ∧
                   as_digest recorded = as_digest subject)) (λ _, True).
Proof.
  intros Hprocess Hok. unfold process in Hprocess.
  destruct (as_enabled subjects) eqn:Henabled; cbn in Hprocess; cycle 1.
  { simplify_eq. cbn. rewrite Henabled. by split_and!. }
  pose proof (read_declarations_spec (as_workspace subjects) path) as Hread.
  destruct (read_declarations (as_workspace subjects) path) as [[|parsed]|e|]; cbn in Hread; [| | |done].
  - simplify_eq. cbn. by split_and!.
  - destruct (add_subjects parsed (as_subjects subjects) 0) as [aggregate result'] eqn:Hadd. simplify_eq. cbn.
    destruct (add_subjects_spec _ _ _ _ _ Hadd Hok Hread) as (Hok' & Hsub & Hresult).
    split_and!; [done..|]. eapply outcome_spec_mono; [exact Hresult | | done].
    intros capture (? & ? & Hall). split; [done|]. intros _. split; [done|].
    intros parsed' line subject [= <-]. by apply Hall.
  - simplify_eq. by split_and!.
Qed.
End props.

(** ** A concrete job *)

#[local] Instance demo_subjects_lib : SubjectLib := {
  file_status := λ path,
    if bool_decide (path = "/work/out/app.tar") then Stat RegularFile 3
    else if bool_decide (path = "/files/artifacts.txt") then Stat RegularFile 20
    else StatMissing;
  read_file := λ path,
    if bool_decide (path = "/files/artifacts.txt")
    then Some ("# built" +:+ String lf ("out/./x/../app.tar" +:+ String cr (String lf
         ("ghcr.io/o/app@sha256:" +:+ sconcat (replicate 64 "A")))))
    else Some "tar";
  write_file := λ _ _, true;
  sha256_bytes := λ _, replicate 32 171%Z;
  subject_list_json := λ _, Some "{}";
}.

Definition demo_subjects : ArtifactSubjects * outcome string ArtifactCapture :=
  process (artifact_subjects_new true "/work") "/files/artifacts.txt".

Lemma artifact_subjects_are_well_formed_witness :
  demo_subjects.2 = Ok (mkCapture 2 2) ∧
  as_subjects demo_subjects.1 !! "app.tar" =
    Some (mkArtifactSubject "app.tar" ("sha256:" +:+ sconcat (replicate 32 "ab")) SubjectFile) ∧
  subjects_ok (as_subjects demo_subjects.1).
Proof.
  split; [by vm_compute|]. split; [by vm_compute|].
  destruct (artifact_subjects_are_well_formed ltac:(intros s; split; [done | apply Forall_replicate; lia])
    (artifact_subjects_new true "/work") "/files/artifacts.txt" demo_subjects.1 demo_subjects.2) as [Hok _].
  - unfold demo_subjects. apply surjective_pairing.
  - apply subjects_ok_empty.
  - exact Hok.
Defined.
