(* ===== verification/GitObjects.v ===== *)
(** * Git names (crates/gitzero-agent, executor.rs)

    Object ids and refs, as the agent checks them before it hands them to git. *)

From S2P Require Import Prelude RustStr RustText Protocol.

Inductive GitObjectFormat := Sha1 | Sha256.

#[export] Instance GitObjectFormat_eq_dec : EqDecision GitObjectFormat.
Proof. solve_decision. Defined.

Definition from_object_id (object_id : string) : outcome string GitObjectFormat :=
  reject_if (negb (string_forall is_ascii_hexdigit object_id))
    "Git object ID must contain only hexadecimal characters" ;?
  if bool_decide (slen object_id = 40) then Ok Sha1
  else if bool_decide (slen object_id = 64) then Ok Sha256
  else Err "Git object ID must contain exactly 40 or 64 hexadecimal characters".

Definition validate_sha (value : string) : outcome string GitObjectFormat :=
  map_err (λ _, "invalid pull request snapshot object ID") (from_object_id value).

Definition validate_remote_commit (commit : string) : outcome string unit :=
  let? _ := from_object_id commit in Ok tt.

(** [character <= ' '], the delete character, or one git reserves in refs. *)
Definition invalid_ref_byte (c : ascii) : bool :=
  byte_in 0 32 c || bool_decide (c = "127"%char) ||
  bool_decide (c ∈ ["~"%char; "^"%char; ":"%char; "?"%char; "*"%char; "["%char; "\"%char]).

Definition valid_git_ref (value : string) : bool :=
  starts_with "refs/" value
  && bool_decide (Z.of_nat (slen value) ≤ 4096)%Z
  && negb (contains_byte invalid_ref_byte value)
  && negb (contains ".." value)
  && negb (contains "@{" value)
  && negb (contains "//" value)
  && negb (ends_with "." value)
  && negb (ends_with "/" value)
  && forallb (λ component,
       negb (is_empty component) && negb (starts_with "." component) && negb (ends_with ".lock" component))
     (split "/" value).

Section run.
Context {J : Type} (run : RunSpec J).

Definition validate_checkout_token_metadata : outcome string unit :=
  reject_if (negb (Bool.eqb (is_empty (run_checkout_token run))
                            (negb (is_some (run_checkout_token_expires_at_epoch_seconds run)))))
    "checkout token and expiry must either both be present or absent".

Definition validate_execution_ref : outcome string unit :=
  let pull_request := run_pull_request run in
  let merge_ref := "refs/pull/" +:+ pretty (prs_number pull_request) +:+ "/merge" in
  let base_ref := "refs/heads/" +:+ prs_base_ref pull_request in
  let valid := bool_decide (prs_execution_ref pull_request = merge_ref)
               || (bool_decide (prs_action pull_request = "closed")
                   && bool_decide (prs_execution_ref pull_request = base_ref)) in
  reject_if (negb valid || negb (valid_git_ref (prs_execution_ref pull_request)))
    "pull request execution ref must identify its merge ref or the base ref for a closed event".

(** The checks of a run before anything else is done. *)
Definition validate_run : outcome string GitObjectFormat :=
  let pull_request := run_pull_request run in
  let? head_object_format := validate_sha (prs_head_sha pull_request) in
  let differs := "pull request snapshot object IDs must use one Git object format" in
  let? base_object_format := validate_sha (prs_base_sha pull_request) in
  reject_if (negb (bool_decide (base_object_format = head_object_format))) differs ;?
  let? merge_object_format := validate_sha (prs_merge_sha pull_request) in
  reject_if (negb (bool_decide (merge_object_format = head_object_format))) differs ;?
  validate_execution_ref ;?
  validate_checkout_token_metadata ;?
  Ok head_object_format.
End run.
