(* ===== verification/CheckoutInputs.v ===== *)
(** * The inputs of actions/checkout (crates/gitzero-agent, executor.rs)

    What the built-in checkout accepts: the repository, the ref and the snapshot of
    the run it names, tokens and keys, options, the directory, and the inline
    configuration of git that carries the credentials. *)

From stdpp Require Import pretty.
From S2P Require Import Prelude RustStr UnixPath OrdMap RustText Protocol GitObjects.

Notation Environment := (gmap string string).

Definition MAX_CHECKOUT_FILTER_BYTES : Z := 1024.
Definition MAX_CHECKOUT_REF_BYTES : Z := 1024.
Definition MAX_SPARSE_CHECKOUT_PATTERNS : nat := 4096.
Definition MAX_SPARSE_CHECKOUT_BYTES : Z := 128 * 1024.
Definition MAX_CHECKOUT_SSH_KNOWN_HOSTS_BYTES : Z := 256 * 1024.
Definition MAX_CHECKOUT_SSH_USER_BYTES : Z := 64.

Definition longer_than (limit : Z) (s : string) : bool := bool_decide (limit < Z.of_nat (slen s))%Z.

Definition supported_inputs : list string :=
  ["clean"; "filter"; "fetch-depth"; "fetch-tags"; "github-server-url"; "lfs"; "ssh-key"; "ssh-known-hosts"; "ssh-strict";
   "ssh-user"; "show-progress"; "sparse-checkout"; "sparse-checkout-cone-mode"; "submodules"; "persist-credentials";
   "set-safe-directory"; "allow-unsafe-pr-checkout"; "token"; "path"; "repository"; "ref"].

(** The names in lower case; of two names that agree the later one counts, in the
    order of the names. *)
Definition lowercase_inputs (inputs : Environment) : Environment :=
  btree_collect ((λ '(name, value), (to_ascii_lowercase name, value)) <$> btree_iter inputs).

Definition check_supported (inputs : Environment) : outcome string unit :=
  match base.filter (λ name, name ∉ supported_inputs) (btree_keys inputs) with
  | [] => Ok tt
  | name :: _ => Err ("actions/checkout input '" +:+ name +:+ "' is not supported yet")
  end.

Definition checkout_boolean (inputs : Environment) (name : string) (default : bool) : outcome string bool :=
  match (λ value, to_ascii_lowercase (trim value)) <$> inputs !! name with
  | None => Ok default
  | Some value =>
      if bool_decide (value = "true") then Ok true
      else if bool_decide (value = "false") then Ok false
      else Err ("actions/checkout input '" +:+ name +:+ "' must be true or false")
  end.

(** [char::is_control]: U+0000 to U+001F and U+007F to U+009F. *)
Definition is_control (c : string) : bool :=
  match c with
  | String a EmptyString => byte_in 0 31 a || bool_decide (a = "127"%char)
  | String a (String b EmptyString) => bool_decide (a = "194"%char) && byte_in 128 159 b
  | _ => false
  end.

(** A value that is not empty once trimmed. *)
Definition trimmed (input : option string) : option string :=
  value ← input; if is_empty (trim value) then None else Some (trim value).

Definition checkout_filter (input : option string) : outcome string (option string) :=
  match trimmed input with
  | None => Ok None
  | Some filter =>
      reject_if (longer_than MAX_CHECKOUT_FILTER_BYTES filter || existsb is_control (chars filter))
        "actions/checkout filter is invalid or too large" ;?
      Ok (Some filter)
  end.

Definition checkout_sparse_patterns (input : option string) : outcome string (option (list string)) :=
  match input with
  | None => Ok None
  | Some input =>
      reject_if (longer_than MAX_SPARSE_CHECKOUT_BYTES input || contains_byte (λ c, bool_decide (c = nul)) input)
        "actions/checkout sparse-checkout input is invalid or too large" ;?
      let patterns := base.filter (λ pattern, is_empty pattern = false) (trim <$> lines input) in
      reject_if (bool_decide (MAX_SPARSE_CHECKOUT_PATTERNS < length patterns))
        "actions/checkout sparse-checkout contains too many patterns" ;?
      Ok (if is_nil patterns then None else Some patterns)
  end.

Definition checkout_submodules (input : option string) : outcome string string :=
  let submodules := to_ascii_lowercase (trim (default "false" input)) in
  reject_if (negb (bool_decide (submodules ∈ ["false"; "true"; "recursive"])))
    "actions/checkout submodules must be false, true, or recursive" ;?
  Ok submodules.

Definition checkout_fetch_depth (input : option string) : outcome string Z :=
  ok_or (parse_unsigned u32_max (trim (default "1" input)))
    "actions/checkout fetch-depth must be a nonnegative integer".

(** [trim_end_matches('/')] *)
Definition check_server_url (input : option string) : outcome string unit :=
  match input with
  | None => Ok tt
  | Some server_url =>
      let server_url := trim_end_bytes (λ c, bool_decide (c = "/"%char)) server_url in
      reject_if (negb (is_empty server_url) && negb (bool_decide (server_url = "https://github.com")))
        "actions/checkout github-server-url must be https://github.com"
  end.

(** ** The repository *)

Record CheckoutRepository := mkCheckoutRepository {
  cr_owner : string;
  cr_name : string;
  cr_clone_url : string;
  cr_same_repository : bool;
}.

Definition ssh_url (self : CheckoutRepository) (user : string) : string :=
  user +:+ "@github.com:" +:+ cr_owner self +:+ "/" +:+ cr_name self +:+ ".git".

Definition first_byte (p : ascii → bool) (s : string) : bool :=
  match sbyte s 0 with Some c => p c | None => false end.

Definition last_byte (p : ascii → bool) (s : string) : bool :=
  match sbyte s (slen s - 1) with Some c => p c | None => false end.

Definition validate_checkout_repository_owner (owner : string) : outcome string unit :=
  reject_if (is_empty owner || longer_than 39 owner
             || negb (string_forall (λ c, is_ascii_alphanumeric c || bool_decide (c = "-"%char)) owner)
             || negb (first_byte is_ascii_alphanumeric owner) || negb (last_byte is_ascii_alphanumeric owner))
    "actions/checkout repository owner is invalid".

Definition name_byte (c : ascii) : bool := is_ascii_alphanumeric c || bool_decide (c ∈ ["-"%char; "_"%char; "."%char]).

Definition validate_checkout_repository_name (name : string) : outcome string unit :=
  reject_if (is_empty name || longer_than 100 name || bool_decide (name = ".") || bool_decide (name = "..")
             || negb (string_forall name_byte name))
    "actions/checkout repository name is invalid".

Section run.
Context {J : Type} (run : RunSpec J).

Notation pull_request := (run_pull_request run).

Definition checkout_repository (input : option string) : outcome string CheckoutRepository :=
  let repository := run_repository run in
  let expected := rs_owner repository +:+ "/" +:+ rs_name repository in
  let selected := default expected (trim <$> input) in
  if eq_ignore_ascii_case selected expected
  then Ok (mkCheckoutRepository (rs_owner repository) (rs_name repository) (rs_clone_url repository) true)
  else
    let? ' (owner, name) :=
      ok_or ('(owner, name) ← split_once "/" selected;
             if contains_byte (λ c, bool_decide (c = "/"%char)) name then None else Some (owner, name))
        "actions/checkout repository must use owner/repository syntax" in
    validate_checkout_repository_owner owner ;?
    validate_checkout_repository_name name ;?
    Ok (mkCheckoutRepository owner name ("https://github.com/" +:+ owner +:+ "/" +:+ name +:+ ".git") false).

(** ** The snapshot of the run a ref names *)

Inductive CheckoutTarget := Execution | Head | Base.

#[export] Instance CheckoutTarget_eq_dec : EqDecision CheckoutTarget.
Proof. solve_decision. Defined.

Definition target_commit (target : CheckoutTarget) : string :=
  match target with
  | Execution => prs_merge_sha pull_request
  | Head => prs_head_sha pull_request
  | Base => prs_base_sha pull_request
  end.

Definition branch_ref (branch : string) : string := "refs/heads/" +:+ branch.

(** The ref of the head or of the base, by either of its names. *)
Definition names_branch (git_ref branch : string) : bool :=
  bool_decide (git_ref = branch) || bool_decide (git_ref = branch_ref branch).

Definition checkout_target (git_ref : string) : option CheckoutTarget :=
  if is_empty git_ref || eq_ignore_ascii_case git_ref (prs_merge_sha pull_request)
     || bool_decide (git_ref = prs_execution_ref pull_request)
  then Some Execution
  else if eq_ignore_ascii_case git_ref (prs_head_sha pull_request) || names_branch git_ref (prs_head_ref pull_request)
          || bool_decide (git_ref = "refs/pull/" +:+ pretty (prs_number pull_request) +:+ "/head")
  then Some Head
  else if eq_ignore_ascii_case git_ref (prs_base_sha pull_request) || names_branch git_ref (prs_base_ref pull_request)
  then Some Base
  else None.

Definition checkout_output_ref (input : option string) : string :=
  match trimmed input with
  | None => prs_execution_ref pull_request
  | Some git_ref =>
      if eq_ignore_ascii_case git_ref (prs_merge_sha pull_request)
         || eq_ignore_ascii_case git_ref (prs_head_sha pull_request)
         || eq_ignore_ascii_case git_ref (prs_base_sha pull_request)
      then "" else git_ref
  end.

Definition validate_checkout_branch (branch : string) : outcome string unit :=
  reject_if (starts_with "-" branch || bool_decide (branch = "HEAD") || negb (valid_git_ref (branch_ref branch)))
    "actions/checkout branch ref is invalid".

Definition checkout_local_branch (git_ref : string) (target : CheckoutTarget) : outcome string (option string) :=
  let branch :=
    if bool_decide (target = Head) && names_branch git_ref (prs_head_ref pull_request)
    then Some (prs_head_ref pull_request)
    else if (bool_decide (target = Base) && names_branch git_ref (prs_base_ref pull_request))
            || (bool_decide (target = Execution)
                && bool_decide (prs_execution_ref pull_request = branch_ref (prs_base_ref pull_request))
                && (is_empty git_ref || bool_decide (git_ref = prs_execution_ref pull_request)))
    then Some (prs_base_ref pull_request)
    else None in
  match branch with
  | None => Ok None
  | Some branch => validate_checkout_branch branch ;? Ok (Some branch)
  end.
End run.

(** ** Refs of other repositories *)

Definition reserved_ref_byte (c : ascii) : bool :=
  byte_in 0 31 c || bool_decide (c = "127"%char) ||
  bool_decide (c ∈ [" "%char; "~"%char; "^"%char; ":"%char; "?"%char; "*"%char; "["%char; "\"%char]).

Definition public_checkout_ref (input : string) : outcome string string :=
  let git_ref := if is_empty input then "HEAD" else input in
  reject_if (longer_than MAX_CHECKOUT_REF_BYTES git_ref || starts_with "-" git_ref
             || ends_with "/" git_ref || ends_with "." git_ref
             || contains ".." git_ref || contains "@{" git_ref || contains "//" git_ref
             || existsb (λ component, is_empty component || ends_with ".lock" component
                                      || contains_byte reserved_ref_byte component) (split "/" git_ref))
    "actions/checkout public repository ref is invalid" ;?
  Ok git_ref.

Definition public_checkout_output_ref (git_ref : string) (branch : option string) : string :=
  if is_ok (validate_remote_commit git_ref) then ""
  else if bool_decide (git_ref = "HEAD") then
    match branch with None => git_ref | Some branch => branch_ref branch end
  else git_ref.

(** The branch among the refs a remote advertises. *)
Definition head_line (line : string) : option string :=
  '(reference, target) ← split_once "009" line;
  if bool_decide (target = "HEAD") then strip_prefix "ref: refs/heads/" reference else None.

Definition advertises (expected line : string) : bool :=
  match split_once "009" line with
  | Some (_, reference) => bool_decide (reference = expected)
  | None => false
  end.

Definition parse_cross_repository_checkout_branch (git_ref advertised : string) : outcome string (option string) :=
  let branch :=
    if bool_decide (git_ref = "HEAD") then head (omap head_line (lines advertised))
    else if existsb (advertises (branch_ref git_ref)) (lines advertised) then Some git_ref else None in
  match branch with
  | None => Ok None
  | Some branch => validate_checkout_branch branch ;? Ok (Some branch)
  end.

(** ** Tokens and keys *)

Definition select_checkout_ssh_key (input : option string) (managed_secret_values : gset string) :
    outcome string (option string) :=
  match input with
  | None => Ok None
  | Some key =>
      if is_empty key then Ok None
      else if bool_decide (key ∈ managed_secret_values) then Ok (Some key)
      else Err "actions/checkout ssh-key must be empty or an exact managed secret value"
  end.

Definition select_checkout_token (input : option string) (builtin : string) (managed_secret_values : gset string) :
    outcome string string :=
  match input with
  | None => Ok builtin
  | Some token =>
      if is_empty token then Ok ""
      else if bool_decide (token = builtin) then Ok token
      else if bool_decide (token ∈ managed_secret_values) then Ok token
      else Err "actions/checkout token must be the built-in token, empty, or an exact managed secret value"
  end.

Inductive CrossRepositoryCheckoutAccess := AnonymousOnly | ManagedFallback | ExplicitManagedToken (token : string).

#[export] Instance CrossRepositoryCheckoutAccess_eq_dec : EqDecision CrossRepositoryCheckoutAccess.
Proof. solve_decision. Defined.

Definition select_cross_repository_checkout_access (input : option string) (builtin : string)
    (managed_secret_values : gset string) : outcome string CrossRepositoryCheckoutAccess :=
  match input with
  | None => Ok ManagedFallback
  | Some token =>
      if is_empty token then Ok AnonymousOnly
      else if bool_decide (token = builtin) then Ok ManagedFallback
      else if bool_decide (token ∈ managed_secret_values) then Ok (ExplicitManagedToken token)
      else Err "actions/checkout token for another repository must be the built-in token, empty, or an exact managed secret value"
  end.

(** ** The configuration of git *)

Definition CHECKOUT_HTTP_EXTRAHEADER : string := "http.https://github.com/.extraheader".
Definition CHECKOUT_SSH_INSTEAD_OF : string := "url.https://github.com/.insteadOf".
Definition CHECKOUT_SAFE_DIRECTORY : string := "safe.directory".
Definition MAX_INLINE_GIT_CONFIG_PARAMETERS : nat := 256.

Definition config_key (index : nat) : string := "GIT_CONFIG_KEY_" +:+ pretty index.
Definition config_value (index : nat) : string := "GIT_CONFIG_VALUE_" +:+ pretty index.

(** [AUTHORIZATION: basic ..] *)
Definition authorization (base64 : string → string) (token : string) : string :=
  "AUTHORIZATION: basic " +:+ base64 ("x-access-token:" +:+ token).

Definition config_count (environment : Environment) : outcome string Z :=
  match environment !! "GIT_CONFIG_COUNT" with
  | Some value => ok_or (parse_unsigned usize_max value) "GIT_CONFIG_COUNT must be a nonnegative integer"
  | None => Ok 0%Z
  end.

Definition config_entry (environment : Environment) (index : nat) : outcome string (string * string) :=
  let? key := ok_or (environment !! config_key index) "GIT_CONFIG_COUNT references a missing key" in
  let? value := ok_or (environment !! config_value index) "GIT_CONFIG_COUNT references a missing value" in
  Ok (key, value).

Definition managed_config_key (key : string) : bool :=
  eq_ignore_ascii_case key CHECKOUT_HTTP_EXTRAHEADER || eq_ignore_ascii_case key CHECKOUT_SSH_INSTEAD_OF.

Definition remove_config_entry (environment : Environment) (index : nat) : Environment :=
  delete (config_value index) (delete (config_key index) environment).

Definition insert_config_entry (environment : Environment) (indexed : nat * (string * string)) : Environment :=
  let '(index, (key, value)) := indexed in
  <[config_value index := value]> (<[config_key index := key]> environment).

Definition keep_config_entry (environment : Environment) (index : nat) (entries : list (string * string)) :
    outcome string (list (string * string)) :=
  let? ' (key, value) := config_entry environment index in
  Ok (if managed_config_key key then entries else entries ++ [(key, value)]).

(** What the checkout adds. *)
Definition credential_entries (base64 : string → string) (token : string) (rewrite_ssh_submodule_urls : bool) :
    list (string * string) :=
  (if is_empty token then [] else [(CHECKOUT_HTTP_EXTRAHEADER, authorization base64 token)]) ++
  (if rewrite_ssh_submodule_urls then [(CHECKOUT_SSH_INSTEAD_OF, "git@github.com:")] else []).

Definition configure_checkout_credentials (base64 : string → string) (environment : Environment) (token : string)
    (rewrite_ssh_submodule_urls : bool) : outcome string Environment :=
  let? count := config_count environment in
  reject_if (bool_decide (Z.of_nat (MAX_INLINE_GIT_CONFIG_PARAMETERS + 2) < count)%Z)
    "GIT_CONFIG_COUNT exceeds the checkout compatibility limit" ;?
  let count := Z.to_nat count in
  let? entries := for_each (keep_config_entry environment) (seq 0 count) [] in
  let added := credential_entries base64 token rewrite_ssh_submodule_urls in
  reject_if (bool_decide (MAX_INLINE_GIT_CONFIG_PARAMETERS + 2 < length entries + length added))
    "inline Git configuration leaves no room for checkout credentials" ;?
  let environment := delete "GIT_CONFIG_COUNT" environment in
  let environment := fold_left remove_config_entry (seq 0 (count `max` 2)) environment in
  let entries := entries ++ added in
  let environment := fold_left insert_config_entry (enumerate entries) environment in
  Ok (if is_nil entries then environment
      else <["GIT_CONFIG_COUNT" := pretty (length entries)]> environment).

Definition configure_checkout_ssh (environment : Environment) (command : option string) : Environment :=
  let environment := delete "GIT_SSH_COMMAND" environment in
  match command with Some command => <["GIT_SSH_COMMAND" := command]> environment | None => environment end.

(** ** The directory *)

Definition checkout_directory (workspace path : string) : outcome string string :=
  if is_empty path || bool_decide (path = ".") then Ok workspace
  else
    reject_if (is_absolute path
               || existsb (λ component, bool_decide (component = ParentDir) || bool_decide (component = RootDir))
                    (components path))
      "actions/checkout path must stay within the job workspace" ;?
    Ok (join workspace path).

(** * What the inputs of actions/checkout give

    The credentials git reads after the checkout configured them, the directory of
    the checkout, and the snapshots of the run a ref can name. *)

(** ** Numbers that are written and read *)

Lemma pretty_N_char_digit x : (x < 10)%N → is_ascii_digit (pretty_N_char x) = true ∧ digit_value (pretty_N_char x) = Z.of_N x.
Proof.
  intros H. assert (x ∈ (N.of_nat <$> seq 0 10)) as Hx.
  { apply list_elem_of_fmap. exists (N.to_nat x). split; [lia | apply elem_of_seq; lia]. }
  simpl in Hx. set_unfold in Hx. destruct_or?; by subst x.
Qed.

Lemma pretty_N_go_digits x s :
  (0 < x)%N → ∃ c r, pretty_N_go x s = String c r ∧ is_ascii_digit c = true.
Proof.
  revert s. induction (N.lt_wf_0 x) as [x _ IH]. intros s Hx. rewrite pretty_N_go_step by done.
  destruct (decide (x `div` 10 = 0)%N) as [->|Hne].
  - rewrite pretty_N_go_0. eexists _, _. split; [done|]. apply pretty_N_char_digit, N.mod_lt. done.
  - apply IH; [by apply N.div_lt | by apply N.neq_0_lt_0].
Qed.

Lemma parse_digits_pretty max x s : 
  (Z.of_N x ≤ max)%Z → parse_digits max 0 (pretty_N_go x s) = parse_digits max (Z.of_N x) s.
Proof.
  revert s. induction (N.lt_wf_0 x) as [x _ IH]. intros s Hx. destruct (decide (x = 0)%N) as [->|Hne]; [by rewrite pretty_N_go_0|].
  rewrite pretty_N_go_step by lia. pose proof (N.div_mod x 10 ltac:(done)) as Hdm.
  pose proof (N.mod_lt x 10 ltac:(done)) as Hlt. destruct (pretty_N_char_digit (x mod 10)%N Hlt) as [Hd Hv].
  assert (x `div` 10 < x)%N as Hsmall by (apply N.div_lt; lia).
  rewrite IH; [|done|lia]. cbn [parse_digits]. rewrite Hd, Hv.
  replace (Z.of_N (x / 10) * 10 + Z.of_N (x mod 10))%Z with (Z.of_N x) by lia. by rewrite bool_decide_true.
Qed.

Lemma parse_unsigned_pretty max (n : nat) : (Z.of_nat n ≤ max)%Z → parse_unsigned max (pretty n) = Some (Z.of_nat n).
Proof.
  intros Hn. unfold parse_unsigned, pretty, pretty_nat, pretty, pretty_N. case_decide as Hz.
  - assert (n = 0) as -> by (by destruct n). cbn. by rewrite bool_decide_true.
  - destruct (pretty_N_go_digits (N.of_nat n) "" ltac:(by apply N.neq_0_lt_0)) as (c & r & Heq & Hc). rewrite Heq.
    assert (match String c r with String "+" r0 => r0 | _ => String c r end = String c r) as ->.
    { by destruct c as [[] [] [] [] [] [] [] []]. }
    rewrite <- Heq, parse_digits_pretty by lia. cbn. f_equal. lia.
Qed.

(** ** The configuration git reads *)

(** [GIT_CONFIG_COUNT], [GIT_CONFIG_KEY_n] and [GIT_CONFIG_VALUE_n], as git does. *)
Definition git_config (environment : Environment) : outcome string (list (string * string)) :=
  let? count := config_count environment in
  traverse (config_entry environment) (seq 0 (Z.to_nat count)).

Definition unmanaged (entries : list (string * string)) : list (string * string) :=
  base.filter (λ entry, managed_config_key entry.1 = false) entries.

(** The variables of the inline configuration. *)
Definition config_name (name : string) : Prop :=
  name = "GIT_CONFIG_COUNT" ∨ ∃ index, name = config_key index ∨ name = config_value index.

Lemma config_key_inj i j : config_key i = config_key j → i = j.
Proof. intros H. apply (inj pretty). unfold config_key in H. by simplify_eq. Qed.

Lemma config_value_inj i j : config_value i = config_value j → i = j.
Proof. intros H. apply (inj pretty). unfold config_value in H. by simplify_eq. Qed.

Lemma config_key_value i j : config_key i ≠ config_value j.
Proof. done. Qed.

Lemma config_key_count i : config_key i ≠ "GIT_CONFIG_COUNT".
Proof. done. Qed.

Lemma config_value_count i : config_value i ≠ "GIT_CONFIG_COUNT".
Proof. done. Qed.

Lemma kept_entries environment indices kept entries :
  for_each (keep_config_entry environment) indices kept = Ok entries →
  ∃ all, traverse (config_entry environment) indices = Ok all ∧ entries = kept ++ unmanaged all.
Proof.
  revert kept. induction indices as [|i indices IH]; intros kept; cbn [for_each traverse].
  { intros [= <-]. exists []. by rewrite app_nil_r. }
  unfold keep_config_entry at 1. destruct (config_entry environment i) as [[key value]| |]; cbn [obind]; [|done..].
  intros (all & -> & ->)%IH. exists ((key, value) :: all). split; [done|].
  unfold unmanaged. rewrite filter_cons. cbn [fst].
  destruct (managed_config_key key) eqn:Hm; case_decide; try done. by rewrite <-app_assoc.
Qed.

(** ** What the loops over the entries leave *)

Lemma lookup_removed name indices environment :
  fold_left remove_config_entry indices environment !! name =
  if decide (Exists (λ i, name = config_key i ∨ name = config_value i) indices) then None else environment !! name.
Proof.
  revert environment. induction indices as [|i indices IH]; intros environment; cbn [fold_left].
  { case_decide as H; [by apply Exists_nil in H | done]. }
  rewrite IH. unfold remove_config_entry. destruct (decide (Exists _ indices)) as [Hin|Hout].
  { rewrite decide_True; [done | by right]. }
  destruct (decide (name = config_key i)) as [->|Hkey].
  { rewrite decide_True by (left; auto). by rewrite lookup_delete_ne, lookup_delete_eq. }
  destruct (decide (name = config_value i)) as [->|Hvalue].
  { rewrite decide_True by (left; auto). by rewrite lookup_delete_eq. }
  rewrite decide_False by (intros [[-> | ->]|]%Exists_cons; done). by rewrite !lookup_delete_ne.
Qed.

Lemma lookup_inserted n entries environment name :
  (∀ i, name ≠ config_key i ∧ name ≠ config_value i) →
  fold_left insert_config_entry (enumerate_from n entries) environment !! name = environment !! name.
Proof.
  intros Hname. revert n environment. induction entries as [|[key value] entries IH]; intros n environment; [done|].
  cbn [enumerate_from fold_left]. rewrite IH. destruct (Hname n). unfold insert_config_entry. by rewrite !lookup_insert_ne.
Qed.

Lemma lookup_inserted_entry n entries environment i entry :
  entries !! i = Some entry →
  let environment' := fold_left insert_config_entry (enumerate_from n entries) environment in
  environment' !! config_key (n + i) = Some entry.1 ∧ environment' !! config_value (n + i) = Some entry.2.
Proof.
  assert (∀ entries n environment j, j < n →
    let environment' := fold_left insert_config_entry (enumerate_from n entries) environment in
    environment' !! config_key j = environment !! config_key j ∧
    environment' !! config_value j = environment !! config_value j) as Hbelow.
  { clear. intros entries. induction entries as [|[key value] entries IH]; intros n environment j Hj; [done|].
    cbn [enumerate_from fold_left]. destruct (IH (S n) (insert_config_entry environment (n, (key, value))) j ltac:(lia))
      as [-> ->]. unfold insert_config_entry.
    assert (config_key n ≠ config_key j ∧ config_value n ≠ config_value j) as [??].
    { split; [intros ?%config_key_inj | intros ?%config_value_inj]; lia. }
    by rewrite !lookup_insert_ne. }
  revert n environment i. induction entries as [|[key value] entries IH]; intros n environment i; [done|].
  cbn [enumerate_from fold_left]. destruct i as [|i].
  - intros [= <-]. rewrite Nat.add_0_r.
    destruct (Hbelow entries (S n) (insert_config_entry environment (n, (key, value))) n ltac:(lia)) as [-> ->].
    unfold insert_config_entry. rewrite lookup_insert_ne, !lookup_insert_eq by done. done.
  - intros Hi. rewrite <-Nat.add_succ_comm. by apply IH.
Qed.

Lemma traverse_lookup {E A} (f : nat → outcome E A) (l : list A) n :
  (∀ i x, l !! i = Some x → f (n + i) = Ok x) → traverse f (seq n (length l)) = Ok l.
Proof.
  revert n. induction l as [|x l IH]; intros n H; [done|]. cbn [length seq traverse].
  pose proof (H 0 x eq_refl) as Hx. rewrite Nat.add_0_r in Hx. rewrite Hx. cbn [obind].
  rewrite IH; [done|]. intros i y Hi. rewrite Nat.add_succ_comm. by apply (H (S i)).
Qed.

Lemma git_config_written entries environment :
  (Z.of_nat (length entries) ≤ usize_max)%Z → environment !! "GIT_CONFIG_COUNT" = None →
  git_config (if is_nil entries then fold_left insert_config_entry (enumerate entries) environment
              else <["GIT_CONFIG_COUNT" := pretty (length entries)]>
                     (fold_left insert_config_entry (enumerate entries) environment)) = Ok entries.
Proof.
  intros Hlen Hnone. unfold git_config, config_count. destruct entries as [|entry entries]; cbn [is_nil].
  { cbn [enumerate_from fold_left]. by rewrite Hnone. }
  rewrite lookup_insert_eq, parse_unsigned_pretty by done. cbn [ok_or obind]. rewrite Nat2Z.id.
  apply traverse_lookup. intros i x Hi. unfold config_entry.
  destruct (lookup_inserted_entry 0 _ environment _ _ Hi) as [Hkey Hvalue].
  rewrite lookup_insert_ne, Hkey by done. cbn [ok_or obind].
  rewrite lookup_insert_ne, Hvalue by done. by destruct x.
Qed.

Lemma checkout_credentials_written base64 environment token rewrite_ssh_submodule_urls environment' :
  configure_checkout_credentials base64 environment token rewrite_ssh_submodule_urls = Ok environment' →
  ∃ entries, git_config environment = Ok entries ∧
    git_config environment' = Ok (unmanaged entries ++ credential_entries base64 token rewrite_ssh_submodule_urls) ∧
    ∀ name, ¬ config_name name → environment' !! name = environment !! name.
Proof.
  unfold configure_checkout_credentials. intros H.
  apply obind_Ok in H as (count & Hcount & H). apply obind_Ok in H as ([] & Hmax%reject_if_Ok & H).
  apply obind_Ok in H as (kept & Hkept & H). apply obind_Ok in H as ([] & Hlen%reject_if_Ok & H).
  apply kept_entries in Hkept as (all & Hall & ->). cbn [app] in *. injection H as <-.
  exists all. split_and!.
  - unfold git_config. by rewrite Hcount.
  - apply git_config_written.
    + apply bool_decide_eq_false in Hlen. rewrite length_app. unfold usize_max, MAX_INLINE_GIT_CONFIG_PARAMETERS in *. lia.
    + rewrite lookup_removed. destruct (decide _); [done|]. by rewrite lookup_delete_eq.
  - intros name Hname. assert (∀ i, name ≠ config_key i ∧ name ≠ config_value i) as Hindex.
    { intros i. split; intros ->; apply Hname; right; eauto. }
    assert (name ≠ "GIT_CONFIG_COUNT") as Hne by (intros ->; apply Hname; by left).
    assert (∀ entries m, fold_left insert_config_entry (enumerate entries) m !! name = m !! name) as Hinsert
      by (intros; by apply lookup_inserted).
    assert (fold_left remove_config_entry (seq 0 (Z.to_nat count `max` 2)) (delete "GIT_CONFIG_COUNT" environment) !! name
            = environment !! name) as Hremove.
    { rewrite lookup_removed, decide_False; [by rewrite lookup_delete_ne|].
      intros (i & _ & H)%Exists_exists. destruct (Hindex i). naive_solver. }
    case_match; [|rewrite lookup_insert_ne by done]; by rewrite Hinsert.
Qed.

(** C14: after the checkout configured its credentials, git reads the entries it read
    before, without those about the authorization and the rewriting of SSH URLs,
    followed by the ones the checkout adds; with an empty token and no rewriting
    nothing of earlier credentials is left.  No other variable is changed. *)
Theorem checkout_credentials_replace_earlier_ones base64 environment token rewrite_ssh_submodule_urls environment' :
  configure_checkout_credentials base64 environment token rewrite_ssh_submodule_urls = Ok environment' →
  ∃ entries, git_config environment = Ok entries ∧
    git_config environment' = Ok (unmanaged entries ++ credential_entries base64 token rewrite_ssh_submodule_urls) ∧
    ∀ name, ¬ config_name name → environment' !! name = environment !! name.
Proof. apply checkout_credentials_written. Qed.

(** One entry of the user and one of an earlier checkout. *)
Definition demo_configured : Environment :=
  list_to_map [("PATH", "/bin"); ("GIT_CONFIG_COUNT", "2"); ("GIT_CONFIG_KEY_0", "user.name"); ("GIT_CONFIG_VALUE_0", "octo");
               ("GIT_CONFIG_KEY_1", "http.https://github.com/.extraheader"); ("GIT_CONFIG_VALUE_1", "old")].

Definition demo_reconfigured : Environment :=
  match configure_checkout_credentials id demo_configured "new" true with Ok environment => environment | _ => ∅ end.

Example demo_reconfigured_reads :
  option_map length (match git_config demo_reconfigured with Ok entries => Some entries | _ => None end) = Some 3
  ∧ demo_reconfigured !! "GIT_CONFIG_VALUE_0" = Some "octo".
Proof. by vm_compute. Qed.

Lemma checkout_credentials_replace_earlier_ones_witness :
  ∃ entries, git_config demo_configured = Ok entries ∧
    git_config demo_reconfigured = Ok (unmanaged entries ++ credential_entries id "new" true) ∧
    ∀ name, ¬ config_name name → demo_reconfigured !! name = demo_configured !! name.
Proof.
  apply (checkout_credentials_replace_earlier_ones id demo_configured "new" true).
  assert (is_ok (configure_checkout_credentials id demo_configured "new" true) = true) as H by (by vm_compute).
  unfold demo_reconfigured. destruct (configure_checkout_credentials _ _ _ _); [done | by vm_compute in H..].
Defined.
