(* ===== verification/GitEffects.v ===== *)
(** * Effects of checkouts (crates/gitzero-agent, executor.rs)

    What checkouts and the materialization of remote repositories ask of their
    surroundings: git, files, tokens, logs and the locks of the shared caches.
    Every command is [git].  The programs are traced programs over these
    effects. *)

From S2P Require Import Prelude RustStr RustText UnixPath Protocol Masking ProblemMatcher MatcherRegistry.
From S2P Require Import WorkflowCommands LogOutput Yaml Expression Evaluate Workflow Scheduler JobContext Actions.
From S2P Require Import Traced JobEffects.

(** A [Command] of git: its arguments, its directory, and the variables it adds. *)
Record GitCommand := mkGit {
  git_arguments : list string;
  git_directory : option string;
  git_environment : gmap string string;
}.

Definition git (arguments : list string) : GitCommand := mkGit arguments None ∅.
Definition in_directory (directory : string) (command : GitCommand) : GitCommand :=
  mkGit (git_arguments command) (Some directory) (git_environment command).
Definition with_variables (variables : gmap string string) (command : GitCommand) : GitCommand :=
  mkGit (git_arguments command) (git_directory command) (variables ∪ git_environment command).
Definition with_variable (name value : string) (command : GitCommand) : GitCommand :=
  with_variables {[name := value]} command.

(** What [Command::output] gives: whether the process succeeded, its exit code
    unless a signal ended it, and what it wrote. *)
Record Output := mkOutput {
  out_success : bool;
  out_code : option Z;
  out_stdout : string;
  out_stderr : string;
}.

(** The answers of file operations that distinguish what is not there. *)
Inductive Found (A : Type) := NotFound | Unreadable (message : string) | Found_ (value : A).
Arguments NotFound {A}. Arguments Unreadable {A}. Arguments Found_ {A}.

(** [symlink_metadata] *)
Inductive FileType := TypeSymlink | TypeDirectory | TypeOther.

#[export] Instance FileType_eq_dec : EqDecision FileType.
Proof. solve_decision. Defined.

Inductive GitEffect :=
  | GUuid
  | GLog (step_id : string) (stream : LogStream) (data : string)
      (** a log chunk, with its message id and sequence number *)
  | GRun (step_id : string) (command : GitCommand) (timeout : option Z)     (** [run_process] *)
  | GCapture (command : GitCommand)                                         (** [run_process_capture_stdout] *)
  | GOutput (command : GitCommand)                                          (** [Command::output], [Command::status] *)
  | GExists (path : string)                                                 (** [try_exists] *)
  | GLength (path : string)                                                 (** [metadata], of which the length is read *)
  | GFileType (path : string)                                               (** [symlink_metadata] *)
  | GIsFile (path : string)                                                 (** [Path::is_file] *)
  | GCanonicalize (path : string)
  | GReadDirectory (path : string)                                          (** [read_dir]: the paths of its entries *)
  | GReadFile (path : string)
  | GWriteFile (path content : string)
  | GWritePrivate (path content : string)                                   (** [write_private_checkout_file] *)
  | GRestrict (path : string)                                               (** mode 0600 *)
  | GCopy (source target : string)
  | GRename (source target : string)
  | GRemoveFile (path : string)
  | GRemoveTree (path : string)                                             (** [remove_dir_all] *)
  | GCreateDirectory (path : string)                                        (** [create_dir] *)
  | GCreateDirectories (path : string)                                      (** [create_dir_all] *)
  | GWithin (root candidate : string)                                       (** [ensure_within] *)
  | GLock (cache : string)                                                  (** [remote_repository_lock(..).lock()] *)
  | GUnlock (cache : string)
  | GSourceToken (refresh : bool)                                           (** [repository_access.source_token] *)
  | GCachedToken (purpose : RepositoryTokenPurpose) (owner repository : string)
  | GRequestToken (purpose : RepositoryTokenPurpose) (owner repository : string) (refresh : bool).

Definition git_answer (e : GitEffect) : Type :=
  match e with
  | GUuid => string
  | GRun _ _ _ => ProcessResult
  | GCapture _ => Answer string
  | GOutput _ => Answer Output
  | GExists _ => Answer bool
  | GLength _ => Found Z
  | GFileType _ => Found FileType
  | GIsFile _ => bool
  | GCanonicalize _ => Answer string
  | GReadDirectory _ => Answer (list string)
  | GReadFile _ => Found string
  | GCopy _ _ => Found unit
  | GSourceToken _ => Answer (option string)
  | GCachedToken _ _ _ => option string
  | GRequestToken _ _ _ _ => Answer string
  | GLog _ _ _ | GWriteFile _ _ | GWritePrivate _ _ | GRestrict _ | GRename _ _ | GRemoveFile _ | GRemoveTree _
  | GCreateDirectory _ | GCreateDirectories _ | GWithin _ _ => Answer unit
  | GLock _ | GUnlock _ => unit
  end.

(** The variables of the job, which a checkout changes. *)
Notation GitOracle := (Traced.Oracle git_answer).
Notation GitEntry := (Traced.Entry git_answer).
Notation GitAct := (Traced.Act git_answer (gmap string string)).

(** ** Small programs *)

Section programs.
Context (oracle : GitOracle).

Notation perform := (perform oracle).

(** A message for an answer that is an error. *)
Definition ask_context {A : Type} (message : string) (c : GitAct (Answer A)) : GitAct A := with_context message (ask c).

Definition process_message (error : ProcessError) : string :=
  match error with
  | ProcessCancelled => "process cancelled"
  | ProcessTimedOut => "process timed out"
  | ProcessExit code => "process exited with code " +:+ pretty code
  | ProcessIo message => "process I/O failed: " +:+ message
  end.

(** [run_process(..).await?] *)
Definition run_git (step_id : string) (command : GitCommand) (timeout : option Z) : GitAct unit :=
  run! result := perform (GRun step_id command timeout) in
  match result with Exited _ => ret () | Broken error => bail (process_message error) end.

Definition run_git_for (context step_id : string) (command : GitCommand) (timeout : option Z) : GitAct unit :=
  with_context context (run_git step_id command timeout).

Definition output_of (context : string) (command : GitCommand) : GitAct Output :=
  ask_context context (perform (GOutput command)).

(** The text a process wrote, trimmed. *)
Definition trimmed_stdout (output : Output) : string := trim (from_utf8_lossy (out_stdout output)).
Definition trimmed_stderr (output : Output) : string := trim (from_utf8_lossy (out_stderr output)).

Definition git_output (operation : string) (command : GitCommand) : GitAct string :=
  run! output := output_of operation command in
  if negb (out_success output) then bail (operation +:+ " failed: " +:+ trimmed_stderr output)
  else if negb (valid_utf8 (out_stdout output)) then bail "Git output was not UTF-8"
  else ret (trim (out_stdout output)).

(** [lock().await], and the guard that is dropped at the end of the scope. *)
Definition locked {A : Type} (cache : string) (c : GitAct A) : GitAct A := λ t l,
  let '(t, l, _) := perform (GLock cache) t l in
  let '(t, l, r) := c t l in
  let '(t, l, _) := perform (GUnlock cache) t l in
  (t, l, r).
End programs.
