(* ===== verification/Materialize.v ===== *)
(** * Remote repositories (crates/gitzero-agent, executor.rs)

    The shared caches of remote repositories, the commits refs resolve to, and the
    checkouts made from them: [materialize_remote_repository] and the programs it
    calls, and [materialize_action]. *)

From S2P Require Import Prelude RustStr RustText UnixPath Protocol Masking LogOutput Workflow Scheduler Traced.
From S2P Require Import JobEffects Actions GitObjects CheckoutInputs GitEffects.

Inductive RemoteRepositoryMaterializationScope := ScopeSharedSource | CheckoutAnonymous | CheckoutManaged | CheckoutSsh.

#[export] Instance RemoteRepositoryMaterializationScope_eq_dec : EqDecision RemoteRepositoryMaterializationScope.
Proof. solve_decision. Defined.

Definition directory_name (scope : RemoteRepositoryMaterializationScope) : string :=
  match scope with
  | ScopeSharedSource => "shared-source"
  | CheckoutAnonymous => "checkout-anonymous"
  | CheckoutManaged => "checkout-managed"
  | CheckoutSsh => "checkout-ssh"
  end.

Definition line_end : string := String lf "".

Section materialize.
(** [STANDARD.encode] and [URL_SAFE_NO_PAD.encode] *)
Context (base64 base64_url : string → string).
Context (oracle : GitOracle).

Notation perform := (perform oracle).
Notation run_git_for := (run_git_for oracle).
Notation output_of := (output_of oracle).
Notation git_output := (git_output oracle).

(** ** Paths *)

Definition remote_repository_resolution_path (run_dir owner repository git_ref : string) : string :=
  join (join (join (join run_dir "_action-resolutions") owner) repository) (base64_url git_ref).

(** [Path::parent] as a path. *)
Definition parent_path (path : string) : option string := path_of <$> parent path.

(** [with_file_name] *)
Definition with_file_name (path name : string) : string :=
  match parent_path path with Some parent => join parent name | None => name end.

Definition remote_repository_canonical_ref_path (resolution : string) : outcome string string :=
  let? name := ok_or (file_name resolution) "remote resolution path must have a file name" in
  Ok (with_file_name resolution (name +:+ ".ref")).

Definition remote_repository_cache_path (run_dir owner repository : string) : outcome string string :=
  let? work_root := ok_or (parent_path run_dir) "run directory must have a work-root parent" in
  Ok (join (join (join work_root "_action-cache") owner) (repository +:+ ".git")).

Definition materialization_path (run_dir step_id : string) (scope : RemoteRepositoryMaterializationScope)
    (owner repository git_ref : string) : string :=
  let job := match rsplit_once "/" step_id with Some (job, _) => job | None => "job" end in
  join (join (join (join (join (join run_dir "_actions") (sanitize_id job)) (directory_name scope)) owner) repository)
       (base64_url git_ref).

(** ** Git *)

Definition configure_git_init (format : GitObjectFormat) (command : GitCommand) : GitCommand :=
  match format with
  | Sha1 => command
  | Sha256 => mkGit (git_arguments command ++ ["--object-format=sha256"]) (git_directory command) (git_environment command)
  end.

Definition configure_git_init_object_format (command : GitCommand) (object_id : string) : outcome string GitCommand :=
  let? format := from_object_id object_id in Ok (configure_git_init format command).

Definition configure_remote_repository_access (command : GitCommand) (checkout_token : option string)
    (checkout_environment : option Environment) : GitCommand :=
  let command := with_variable "GIT_TERMINAL_PROMPT" "0" command in
  let command := match checkout_environment with
                 | Some environment => with_variables environment command
                 | None => command
                 end in
  match checkout_token with
  | None => command
  | Some token =>
      with_variable "GIT_CONFIG_VALUE_0" (authorization base64 token)
        (with_variable "GIT_CONFIG_KEY_0" "http.https://github.com/.extraheader"
          (with_variable "GIT_CONFIG_COUNT" "1" command))
  end.

Definition in_git_directory (cache : string) (arguments : list string) : GitCommand :=
  git ("--git-dir" :: cache :: arguments).

(** The object ids a remote advertises; a symbolic ref is not one. *)
Definition advertised_object_id (output : string) : option string :=
  head (base.filter (λ object_id, starts_with "ref: " object_id = false)
         (omap (λ line, fst <$> split_once "009" line) (lines output))).

Definition remote_repository_object_format (git_ref remote : string) (checkout_token : option string)
    (checkout_environment : option Environment) : GitAct GitObjectFormat :=
  match from_object_id git_ref with
  | Ok object_format => ret object_format
  | _ =>
      let refs := if starts_with "refs/" git_ref then [git_ref]
                  else [branch_ref git_ref; "refs/tags/" +:+ git_ref] in
      let command := configure_remote_repository_access (git (["ls-remote"; "--quiet"; remote; "HEAD"] ++ refs))
                       checkout_token checkout_environment in
      run! output := ask_context ("detect Git object format for remote ref " +:+ git_ref) (perform (GCapture command)) in
      run! object_id := lift (ok_or (advertised_object_id output) "remote did not advertise HEAD or the selected ref") in
      lift (map_err (λ _, "remote advertised an unsupported Git object format") (from_object_id object_id))
  end.

(** ** The cache of a repository *)

Definition remote_repository_cache_is_valid (cache remote : string) : GitAct bool :=
  run! exists_ := ask (perform (GExists cache)) in
  if negb exists_ then ret false
  else
    run! bare := output_of "inspect shared remote repository cache"
      (in_git_directory cache ["rev-parse"; "--is-bare-repository"]) in
    if negb (out_success bare) || negb (bool_decide (trimmed_stdout bare = "true")) then ret false
    else
      run! configured_remote := output_of "inspect shared remote repository cache remote"
        (in_git_directory cache ["config"; "--get"; "remote.origin.url"]) in
      if negb (out_success configured_remote) || negb (bool_decide (trimmed_stdout configured_remote = remote))
      then ret false
      else
        run! has_refs := output_of "inspect shared remote repository cache refs"
          (in_git_directory cache ["show-ref"; "--quiet"]) in
        ret (out_success has_refs).

Definition prepare_directory (path : string) : GitAct unit :=
  run! exists_ := ask (perform (GExists path)) in
  (if exists_ : bool then ask_context ("clear run directory " +:+ path) (perform (GRemoveTree path)) else ret ()) ;>
  ask_context ("create run directory " +:+ path) (perform (GCreateDirectories path)).

Definition ensure_remote_repository_cache (step_id cache remote git_ref object_format_remote : string)
    (checkout_token : option string) (checkout_environment : option Environment) : GitAct unit :=
  run! valid := remote_repository_cache_is_valid cache remote in
  if valid : bool then ret ()
  else
    run! object_format :=
      remote_repository_object_format git_ref object_format_remote checkout_token checkout_environment in
    prepare_directory cache ;>
    run_git_for "initialize shared remote repository cache" step_id
      (in_directory cache (configure_git_init object_format (git ["init"; "--bare"; "--quiet"]))) None ;>
    run_git_for "configure shared remote repository cache" step_id
      (in_directory cache (git ["remote"; "add"; "origin"; remote])) None.

(** ** Resolutions *)

Definition read_cached_remote_resolution (cache resolution : string) : GitAct (option string) :=
  run! file := perform (GReadFile resolution) in
  match file with
  | NotFound => ret None
  | Unreadable _ => bail "read cached remote resolution"
  | Found_ commit =>
      let commit := trim commit in
      if negb (is_ok (validate_remote_commit commit)) then ret None
      else
        run! exists_ := output_of "inspect cached remote commit"
          (in_git_directory cache ["cat-file"; "-e"; commit +:+ "^{commit}"]) in
        ret (if out_success exists_ then Some commit else None)
  end.

(** [split(3, '\t')]: the second field and the rest after it. *)
Definition merge_fields (line : string) : option (string * string) :=
  '(_, rest) ← split_once "009" line; split_once "009" rest.

Definition qualified_name (description : string) (prefixes : string * string) : option string :=
  let '(prefix, qualified_prefix) := prefixes in
  value ← strip_prefix prefix description;
  '(name, _) ← split_once_str "' of " value;
  if is_empty name then None else Some (qualified_prefix +:+ name).

(** The ref a line of [FETCH_HEAD] names. *)
Definition fetched_name (line : string) : option string :=
  '(merge_marker, description) ← merge_fields line;
  if is_empty merge_marker
  then head (omap (qualified_name description) [("branch '", "refs/heads/"); ("tag '", "refs/tags/")])
  else None.

Definition symbolic_head (line : string) : option string :=
  line ← strip_prefix "ref: " line;
  '(reference, name) ← split_once "009" line;
  if bool_decide (name = "HEAD") then Some reference else None.

Definition fetched_remote_canonical_ref (cache git_ref fetch_remote : string) (checkout_token : option string)
    (checkout_environment : option Environment) : GitAct string :=
  if is_ok (validate_remote_commit git_ref) || starts_with "refs/" git_ref then ret git_ref
  else
    run! file := perform (GReadFile (join cache "FETCH_HEAD")) in
    match file with
    | NotFound | Unreadable _ => bail "read fetched remote ref identity"
    | Found_ source =>
        match head (omap fetched_name (lines source)) with
        | Some name => ret name
        | None =>
            if bool_decide (git_ref = "HEAD") then
              run! output := ask_context "resolve remote HEAD identity" (perform (GCapture
                (configure_remote_repository_access
                  (in_git_directory cache ["ls-remote"; "--quiet"; "--symref"; fetch_remote; "HEAD"])
                  checkout_token checkout_environment))) in
              ret (default git_ref (head (omap symbolic_head (lines output))))
            else ret git_ref
        end
    end.

Definition read_cached_remote_canonical_ref (run_dir owner repository git_ref : string) : GitAct (option string) :=
  run! path := lift (remote_repository_canonical_ref_path
                       (remote_repository_resolution_path run_dir owner repository git_ref)) in
  run! file := perform (GReadFile path) in
  match file with
  | NotFound => ret None
  | Unreadable _ => bail ("read canonical remote ref " +:+ path)
  | Found_ value =>
      let value := trim value in
      ret (if is_empty value || contains_byte (λ c, bool_decide (c ∈ [nul; lf; cr])) value then None else Some value)
  end.

(** ** [materialize_remote_repository_with_fetch] *)

(** The commit of a ref that no earlier materialization of the run resolved. *)
Definition fetch_remote_commit (step_id owner repository git_ref fetch_remote cache resolution : string)
    (checkout_token : option string) (checkout_environment : option Environment) : GitAct string :=
  run_git_for ("fetch remote repository " +:+ owner +:+ "/" +:+ repository +:+ "@" +:+ git_ref) step_id
    (configure_remote_repository_access
      (in_git_directory cache ["fetch"; "--quiet"; "--no-tags"; "--depth=1"; "--force"; fetch_remote; git_ref])
      checkout_token checkout_environment) None ;>
  run! resolved := git_output "resolve fetched remote commit"
    (in_git_directory cache ["rev-parse"; "--verify"; "FETCH_HEAD^{commit}"]) in
  lift (validate_remote_commit resolved) ;>
  run! canonical_ref := fetched_remote_canonical_ref cache git_ref fetch_remote checkout_token checkout_environment in
  match parent_path resolution with
  | Some parent => ask (perform (GCreateDirectories parent))
  | None => ret ()
  end ;>
  ask_context ("write remote resolution " +:+ resolution) (perform (GWriteFile resolution (resolved +:+ line_end))) ;>
  run! canonical_ref_path := lift (remote_repository_canonical_ref_path resolution) in
  ask_context ("write canonical remote ref " +:+ canonical_ref_path)
    (perform (GWriteFile canonical_ref_path (canonical_ref +:+ line_end))) ;>
  ret resolved.

(** A resolution that was found is only used by a caller that can reach the remote. *)
Definition probe_access (step_id owner repository fetch_remote cache : string) (checkout_token : option string)
    (checkout_environment : option Environment) : GitAct unit :=
  run_git_for ("verify selected access to " +:+ owner +:+ "/" +:+ repository) step_id
    (configure_remote_repository_access (in_git_directory cache ["ls-remote"; "--quiet"; fetch_remote; "HEAD"])
      checkout_token checkout_environment) None.

(** A clone of the cache at the commit, moved to its place when it is complete. *)
Definition publish_checkout (step_id cache commit checkout : string) : GitAct unit :=
  run_git_for "retain resolved remote commit" step_id
    (in_git_directory cache ["update-ref"; "refs/heads/gitzero-cache/" +:+ commit; commit]) None ;>
  run! checkout_parent := lift (ok_or (parent_path checkout) "action checkout has parent") in
  ask (perform (GCreateDirectories checkout_parent)) ;>
  run! uuid := perform GUuid in
  let temporary := join checkout_parent (".checkout-" +:+ uuid) in
  run_git_for "materialize cached remote repository" step_id
    (with_variable "GIT_TERMINAL_PROMPT" "0"
      (git ["clone"; "--quiet"; "--shared"; "--no-checkout"; cache; temporary])) None ;>
  run_git_for "checkout cached remote commit" step_id
    (in_directory temporary (git ["checkout"; "--quiet"; "--detach"; commit])) None ;>
  ask_context ("publish action checkout " +:+ checkout) (perform (GRename temporary checkout)).

(** What is done under the lock of the cache. *)
Definition materialize_locked (step_id owner repository git_ref cache_remote fetch_remote : string)
    (checkout_token : option string) (checkout_environment : option Environment) (run_dir cache checkout : string) :
    GitAct string :=
  run! exists_ := ask (perform (GExists checkout)) in
  if exists_ : bool then ret checkout
  else
    ensure_remote_repository_cache step_id cache cache_remote git_ref
      (if bool_decide (fetch_remote = "origin") then cache_remote else fetch_remote) checkout_token checkout_environment ;>
    let resolution := remote_repository_resolution_path run_dir owner repository git_ref in
    run! cached := read_cached_remote_resolution cache resolution in
    run! commit :=
      match cached with
      | Some commit =>
          (if negb (is_some checkout_token) || is_some checkout_environment
           then probe_access step_id owner repository fetch_remote cache checkout_token checkout_environment
           else ret ()) ;>
          ret commit
      | None => fetch_remote_commit step_id owner repository git_ref fetch_remote cache resolution
                  checkout_token checkout_environment
      end in
    publish_checkout step_id cache commit checkout ;>
    ret checkout.

Definition materialize_remote_repository_with_fetch (step_id owner repository git_ref cache_remote fetch_remote : string)
    (scope : RemoteRepositoryMaterializationScope) (checkout_token : option string)
    (checkout_environment : option Environment) (run_dir : string) : GitAct string :=
  let checkout := materialization_path run_dir step_id scope owner repository git_ref in
  run! exists_ := ask (perform (GExists checkout)) in
  if exists_ : bool then ret checkout
  else
    run! cache := lift (remote_repository_cache_path run_dir owner repository) in
    locked oracle cache (materialize_locked step_id owner repository git_ref cache_remote fetch_remote
      checkout_token checkout_environment run_dir cache checkout).

Definition materialize_remote_repository (step_id owner repository git_ref remote : string)
    (scope : RemoteRepositoryMaterializationScope) (checkout_token : option string) (run_dir : string) : GitAct string :=
  materialize_remote_repository_with_fetch step_id owner repository git_ref remote "origin" scope checkout_token None run_dir.

(** ** Access to repositories *)

Section run.
Context {J : Type} (run : RunSpec J).

Definition is_run_repository (owner repository : string) : bool :=
  eq_ignore_ascii_case owner (rs_owner (run_repository run)) &&
  eq_ignore_ascii_case repository (rs_name (run_repository run)).

(** The repository of the run with its source token; another one anonymously, or
    with a token of the run, and then with a token that is asked for. *)
Definition materialize_remote_repository_with_shared_access (step_id owner repository git_ref remote run_dir : string) :
    GitAct string :=
  let same_repository := is_run_repository owner repository in
  let name := owner +:+ "/" +:+ repository +:+ "@" +:+ git_ref in
  run! cached_token :=
    if same_repository then ask (perform (GSourceToken false))
    else perform (GCachedToken SharedSource owner repository) in
  run! first := attempt (materialize_remote_repository step_id owner repository git_ref remote ScopeSharedSource
                           cached_token run_dir) in
  match first with
  | Ok checkout => ret checkout
  | Panic => lift Panic
  | Err first_error =>
      run! token :=
        if same_repository then
          run! token := ask (perform (GSourceToken true)) in
          lift (ok_or token ("fetch " +:+ name +:+ " without usable source-repository access: " +:+ first_error))
        else
          ask_context ("fetch " +:+ name +:+ " without usable shared-repository access: " +:+ first_error)
            (perform (GRequestToken SharedSource owner repository (is_some cached_token))) in
      materialize_remote_repository step_id owner repository git_ref remote ScopeSharedSource (Some token) run_dir
  end.

Definition ensure_within (root candidate : string) : GitAct unit := ask (perform (GWithin root candidate)).

Definition materialize_action (step_id : string) (reference : ActionReference) (workspace run_dir : string) :
    GitAct MaterializedAction :=
  match reference with
  | Local path =>
      let directory := join workspace path in
      ensure_within workspace directory ;>
      ret (mkMaterialized directory (source_for_run run))
  | SelfRepository path =>
      let source := source_for_run run in
      run! checkout := materialize_remote_repository_with_shared_access step_id (src_owner source) (src_repository source)
        (src_git_ref source) (rs_clone_url (run_repository run)) run_dir in
      let directory := join checkout path in
      ensure_within checkout directory ;>
      ret (mkMaterialized directory source)
  | Remote owner repository path git_ref =>
      let remote := if is_run_repository owner repository then rs_clone_url (run_repository run)
                    else "https://github.com/" +:+ owner +:+ "/" +:+ repository +:+ ".git" in
      run! checkout := materialize_remote_repository_with_shared_access step_id owner repository git_ref remote run_dir in
      let directory := if is_empty path then checkout else join checkout path in
      ensure_within checkout directory ;>
      run! resolved_sha := git_output "resolve action commit"
        (git ["-C"; checkout; "rev-parse"; "--verify"; "HEAD^{commit}"]) in
      lift (validate_remote_commit resolved_sha) ;>
      ret (mkMaterialized directory (mkSource owner repository resolved_sha))
  end.
End run.
End materialize.
