(* ===== verification/Checkout.v ===== *)
(** * actions/checkout (crates/gitzero-agent, executor.rs)

    The built-in checkout: credentials, the pinned commit, the commands of git that
    bring it into the workspace, and their verification. *)

From S2P Require Import Prelude RustStr UnixPath OrdMap Yaml Expression Evaluate Instances Workflow Scheduler.
From S2P Require Import RustText Masking Protocol LogOutput JobContext Actions Traced JobEffects GitObjects.
From S2P Require Import CheckoutInputs GitEffects Materialize.

(** ** Programs over the variables of the job *)

Section checkout.
Context (base64 base64_url shell_quote : string → string).   (** [STANDARD], [URL_SAFE_NO_PAD], [shell_words::quote] *)
Context (oracle : GitOracle).

Notation perform := (perform oracle).
Notation run_git := (run_git oracle).
Notation run_git_for := (run_git_for oracle).
Notation output_of := (output_of oracle).
Notation git_output := (git_output oracle).

Definition get_variables : GitAct Environment := get.
Definition set_variables (environment : Environment) : GitAct unit := modify (λ _, environment).

(** ** SSH *)

Record CheckoutSshCredentials := mkSshCredentials {
  ssh_user : string;
  ssh_command : string;
  ssh_environment : Environment;
}.

Definition GITHUB_SSH_RSA_KNOWN_HOST : string :=
  "github.com ssh-rsa AAAAB3NzaC1yc2EAAAADAQABAAABgQCj7ndNxQowgcQnjshcLrqPEiiphnt+VTTvDP6mHBL9j1aNUkY4Ue1gvwnGLVlOhGeYrnZaMgRK6+PKCUXaDbC7qtbW8gIkhL7aGCsOr/C56SJMy/BCZfxd1nWzAOxSDPgVsmerOBYfNqltV9/hWCqBywINIR+5dIg6JTJ72pcEpEjcYgXkE2YEFXV1JHnsKgbLWNlhScqb2UmyRkQyytRLtL+38TGxkxCflmO+5Z8CSSNY7GidjMIZ7Q4zMjA2n1nGrlTDkzwDCsw+wqFPGQA179cnfGWOWRVruj16z6XyvxvjJwbz0wQZ75XK5tKSb7FNyeIEs4TT4jk+S4dhPeAUC5y+bDYirYgM4GC7uEnztnZyaVWQ7B381AK4Qdrwt51ZqExKbQpTUNn+EjqoTwvqNj4kqx5QUCI0ThS/YkOxJCXmPUWZbhjpCg56i+2aB6CmK2JGhn57K5mj0MNdBXA4/WnwH6XoPWJzK5Nyu2zB3nAZp+S5hpQs+p1vN1/wsjk=".

Definition user_byte (c : ascii) : bool := is_ascii_alphanumeric c || bool_decide (c ∈ ["-"%char; "_"%char; "."%char]).

(** The inputs about SSH: whether host keys are checked, the user, the known hosts,
    and the key when there is one. *)
Definition checkout_ssh_inputs (inputs : Environment) (managed_secret_values : gset string) :
    outcome string (bool * string * string * option string) :=
  let? strict := checkout_boolean inputs "ssh-strict" true in
  let user := default "git" (trimmed (inputs !! "ssh-user")) in
  reject_if (longer_than MAX_CHECKOUT_SSH_USER_BYTES user || starts_with "-" user || negb (string_forall user_byte user))
    "actions/checkout ssh-user is invalid" ;?
  let known_hosts := default "" (inputs !! "ssh-known-hosts") in
  reject_if (longer_than MAX_CHECKOUT_SSH_KNOWN_HOSTS_BYTES known_hosts
             || contains_byte (λ c, bool_decide (c = nul)) known_hosts)
    "actions/checkout ssh-known-hosts is invalid or too large" ;?
  let? key := select_checkout_ssh_key (inputs !! "ssh-key") managed_secret_values in
  reject_if (match key with Some key => contains_byte (λ c, bool_decide (c = nul)) key | None => false end)
    "actions/checkout ssh-key is invalid" ;?
  Ok (strict, user, known_hosts, key).

Definition known_hosts_contents (known_hosts : string) : string :=
  known_hosts +:+ line_end +:+ "# Begin implicitly added github.com" +:+ line_end +:+ GITHUB_SSH_RSA_KNOWN_HOST +:+ line_end
  +:+ "# End implicitly added github.com" +:+ line_end.

Definition ssh_command_line (strict : bool) (ssh key_path known_hosts_path : string) : string :=
  shell_quote ssh +:+ " -i " +:+ shell_quote key_path +:+
  (if strict then " -o StrictHostKeyChecking=yes -o CheckHostIP=no" else "") +:+
  " -o " +:+ shell_quote ("UserKnownHostsFile=" +:+ known_hosts_path).

(** The first of the system's clients that is a file. *)
Fixpoint find_ssh (paths : list string) : GitAct (option string) :=
  match paths with
  | [] => ret None
  | path :: paths => run! is_file := perform (GIsFile path) in if is_file : bool then ret (Some path) else find_ssh paths
  end.

Definition write_ssh_files (key known_hosts key_path known_hosts_path : string) : GitAct unit :=
  ask_context "write actions/checkout SSH key" (perform (GWritePrivate key_path (trim key +:+ line_end))) ;>
  run! written := attempt (ask (perform (GWritePrivate known_hosts_path (known_hosts_contents known_hosts)))) in
  match written with
  | Ok _ => ret ()
  | Err _ => perform (GRemoveFile key_path) ;> bail "write actions/checkout SSH known hosts"
  | Panic => lift Panic
  end.

Definition checkout_ssh_credentials (inputs : Environment) (managed_secret_values : gset string) (environment : Environment) :
    GitAct (option CheckoutSshCredentials) :=
  run! (strict, user, known_hosts, key) := lift (checkout_ssh_inputs inputs managed_secret_values) in
  match key with
  | None => ret None
  | Some key =>
      run! runner_temp := lift (ok_or (environment !! "RUNNER_TEMP")
        "RUNNER_TEMP is not available for actions/checkout SSH credentials") in
      let credential_directory := join runner_temp "_checkout-credentials" in
      ask_context "create actions/checkout SSH credential directory" (perform (GCreateDirectories credential_directory)) ;>
      run! nonce := perform GUuid in
      let key_path := join credential_directory (nonce +:+ ".key") in
      let known_hosts_path := join credential_directory (nonce +:+ ".known_hosts") in
      write_ssh_files key known_hosts key_path known_hosts_path ;>
      run! ssh := find_ssh ["/usr/bin/ssh"; "/bin/ssh"] in
      run! ssh := lift (ok_or ssh "actions/checkout SSH authentication requires the system ssh client") in
      let command := ssh_command_line strict ssh key_path known_hosts_path in
      ret (Some (mkSshCredentials user command {["GIT_SSH_COMMAND" := command]}))
  end.

(** ** Repositories other than that of the run *)

Record CrossRepositoryCheckoutRefResolution := mkRefResolution { rr_commit : string; rr_branch : option string }.

(** [serde_json], of a resolution. *)
Context (encode_resolution : CrossRepositoryCheckoutRefResolution → option string).
Context (decode_resolution : string → option CrossRepositoryCheckoutRefResolution).

Definition usable_resolution (git_ref commit : string) (resolution : CrossRepositoryCheckoutRefResolution) : bool :=
  eq_ignore_ascii_case (rr_commit resolution) commit &&
  match rr_branch resolution with
  | Some branch => is_ok (validate_checkout_branch branch)
                   && negb (negb (bool_decide (git_ref = "HEAD")) && negb (bool_decide (branch = git_ref)))
  | None => true
  end.

Definition read_cross_repository_checkout_ref_resolution (path git_ref commit : string) : GitAct (option (option string)) :=
  run! metadata := perform (GLength path) in
  match metadata with
  | NotFound => ret None
  | Unreadable _ => bail "inspect cached checkout ref resolution"
  | Found_ length =>
      if bool_decide (MAX_CHECKOUT_REF_BYTES * 2 < length)%Z then ret None
      else
        run! file := perform (GReadFile path) in
        match file with
        | NotFound | Unreadable _ => bail "read cached checkout ref resolution"
        | Found_ source =>
            ret (resolution ← decode_resolution source;
                 if usable_resolution git_ref commit resolution then Some (rr_branch resolution) else None)
        end
  end.

(** [with_extension], of a path that ends in its file name. *)
Definition with_extension (path new : string) : string :=
  match extension path with
  | Some old => stake (slen path - slen old) path +:+ new
  | None => path +:+ "." +:+ new
  end.

Definition write_cross_repository_checkout_ref_resolution (path commit : string) (branch : option string) :
    GitAct unit :=
  run! source := lift (ok_or (encode_resolution (mkRefResolution commit branch)) "serialize") in
  run! uuid := perform GUuid in
  let temporary := with_extension path ("checkout-ref-" +:+ uuid) in
  ask_context "write temporary checkout ref resolution" (perform (GWriteFile temporary source)) ;>
  run! renamed := perform (GRename temporary path) in
  match renamed with
  | Got _ => ret ()
  | Failed _ => perform (GRemoveFile temporary) ;> bail "publish checkout ref resolution"
  end.

(** The branch of a ref that is neither a commit nor fully qualified: it is asked
    of the remote once, and kept for the commit it was asked for. *)
Definition resolve_checkout_branch (repository : CheckoutRepository) (git_ref commit checkout_remote resolution_path : string)
    (checkout_token : option string) (ssh_credentials : option CheckoutSshCredentials) : GitAct (option string) :=
  let resolution := with_extension resolution_path "checkout-ref" in
  run! cached := read_cross_repository_checkout_ref_resolution resolution git_ref commit in
  match cached with
  | Some branch => ret branch
  | None =>
      let arguments :=
        if bool_decide (git_ref = "HEAD") then ["ls-remote"; "--symref"; checkout_remote; "HEAD"]
        else ["ls-remote"; "--heads"; "--tags"; checkout_remote; branch_ref git_ref; "refs/tags/" +:+ git_ref] in
      run! environment := lift (match ssh_credentials with
        | Some credentials => Ok (configure_checkout_ssh ∅ (Some (ssh_command credentials)))
        | None => configure_checkout_credentials base64 ∅ (default "" checkout_token) false
        end) in
      run! advertised := ask_context ("resolve actions/checkout branch identity for " +:+ cr_owner repository +:+ "/" +:+
          cr_name repository +:+ "@" +:+ git_ref)
        (perform (GCapture (with_variable "GIT_TERMINAL_PROMPT" "0" (with_variables environment (git arguments))))) in
      run! branch := lift (parse_cross_repository_checkout_branch git_ref advertised) in
      lift (reject_if (bool_decide (git_ref = "HEAD") && negb (is_some branch))
        ("actions/checkout could not resolve the default branch for " +:+ cr_owner repository +:+ "/" +:+
         cr_name repository)) ;>
      write_cross_repository_checkout_ref_resolution resolution commit branch ;>
      ret branch
  end.

Definition cross_repository_checkout_branch (repository : CheckoutRepository) (git_ref commit checkout_remote : string)
    (checkout_token : option string) (ssh_credentials : option CheckoutSshCredentials) (run_dir : string) :
    GitAct (option string) :=
  match strip_prefix "refs/heads/" git_ref with
  | Some branch => lift (validate_checkout_branch branch) ;> ret (Some branch)
  | None =>
      if starts_with "refs/" git_ref || is_ok (validate_remote_commit git_ref) then ret None
      else
        let resolution_path :=
          remote_repository_resolution_path base64_url run_dir (cr_owner repository) (cr_name repository) git_ref in
        run! cached := read_cross_repository_checkout_ref_resolution (with_extension resolution_path "checkout-ref")
                         git_ref commit in
        match cached with
        | Some branch => ret branch
        | None =>
            run! cache := lift (remote_repository_cache_path run_dir (cr_owner repository) (cr_name repository)) in
            locked oracle cache (resolve_checkout_branch repository git_ref commit checkout_remote resolution_path
              checkout_token ssh_credentials)
        end
  end.

Definition finish_cross_repository_checkout (snapshot : string) (token : option string) :
    GitAct (string * string * option string) :=
  run! commit := git_output "resolve cross-repository checkout commit"
    (in_directory snapshot (git ["rev-parse"; "--verify"; "HEAD^{commit}"])) in
  lift (validate_remote_commit commit) ;>
  ret (commit, snapshot, token).
End checkout.

(** * The steps of actions/checkout (crates/gitzero-agent, executor.rs)

    The snapshot of another repository, the directory of the checkout, its git
    configuration and the commands that check the pinned commit out and verify it:
    [execute_checkout_step]. *)

Section checkout.
Context (base64 base64_url : string → string).
Context (process_home : option string).                       (** [HOME] of the agent *)
Context (oracle : GitOracle).

Notation perform := (perform oracle).
Notation run_git_for := (run_git_for oracle).
Notation output_of := (output_of oracle).
Notation git_output := (git_output oracle).

(** ** The snapshot of another repository *)

Section snapshot.
Context {J : Type} (run : RunSpec J) (step_id run_dir : string) (repository : CheckoutRepository) (git_ref : string).

Definition repository_at : string := cr_owner repository +:+ "/" +:+ cr_name repository +:+ "@" +:+ git_ref.

Definition materialize_checkout (scope : RemoteRepositoryMaterializationScope) (token : option string) : GitAct string :=
  materialize_remote_repository base64 base64_url oracle step_id (cr_owner repository) (cr_name repository) git_ref
    (cr_clone_url repository) scope token run_dir.

(** After an anonymous attempt failed: a token the run holds, or one that is asked for. *)
Definition materialize_with_managed_token (anonymous_error : string) : GitAct (string * string * option string) :=
  run! cached := perform (GCachedToken Checkout (cr_owner repository) (cr_name repository)) in
  run! first :=
    match cached with
    | Some token => run! snapshot := attempt (materialize_checkout CheckoutManaged (Some token)) in ret (Some snapshot)
    | None => ret None
    end in
  match cached, first with
  | Some token, Some (Ok snapshot) => finish_cross_repository_checkout oracle snapshot (Some token)
  | _, Some Panic => lift Panic
  | _, _ =>
      run! token := ask_context ("checkout " +:+ repository_at +:+ " without anonymous access: " +:+ anonymous_error)
        (perform (GRequestToken Checkout (cr_owner repository) (cr_name repository) (is_some cached))) in
      run! snapshot := with_context ("checkout private repository " +:+ repository_at)
        (materialize_checkout CheckoutManaged (Some token)) in
      finish_cross_repository_checkout oracle snapshot (Some token)
  end.

Definition materialize_cross_repository_checkout_snapshot (access : CrossRepositoryCheckoutAccess) :
    GitAct (string * string * option string) :=
  match access with
  | ExplicitManagedToken token =>
      run! snapshot := with_context ("checkout repository " +:+ repository_at +:+ " with an explicit managed secret credential")
        (materialize_checkout CheckoutManaged (Some token)) in
      finish_cross_repository_checkout oracle snapshot (Some token)
  | AnonymousOnly | ManagedFallback =>
      run! anonymous := attempt (materialize_checkout CheckoutAnonymous None) in
      match anonymous with
      | Ok snapshot => finish_cross_repository_checkout oracle snapshot None
      | Panic => lift Panic
      | Err error =>
          if bool_decide (access = AnonymousOnly) then bail ("checkout repository " +:+ repository_at +:+ " anonymously")
          else if negb (eq_ignore_ascii_case (cr_owner repository) (rs_owner (run_repository run)))
          then bail ("checkout repository " +:+ repository_at +:+
                     " anonymously; managed private checkout requires the caller owner " +:+ rs_owner (run_repository run))
          else materialize_with_managed_token error
      end
  end.
End snapshot.

(** ** The directory of the checkout *)

(** No component below the workspace is a symbolic link; [current] is the path
    walked so far. *)
Fixpoint refuse_links (current : string) (components : list Component) : GitAct unit :=
  match components with
  | [] => ret ()
  | component :: components =>
      let current := join current (component_str component) in
      run! metadata := perform (GFileType current) in
      match metadata with
      | Found_ TypeSymlink => bail "actions/checkout path traverses a symbolic link"
      | Found_ _ => refuse_links current components
      | NotFound => ret ()
      | Unreadable _ => bail "inspect actions/checkout path"
      end
  end.

Definition validate_checkout_directory (workspace directory : string) : GitAct string :=
  run! relative := lift (ok_or (strip_components (components workspace) (components directory))
    "actions/checkout path escapes the job workspace") in
  run! workspace := ask_context "canonicalize job workspace" (perform (GCanonicalize workspace)) in
  refuse_links workspace relative ;>
  ret (if is_nil relative then workspace else join workspace (path_of relative)).

Definition git_repository_exists (directory : string) (environment : Environment) : GitAct bool :=
  run! exists_ := ask (perform (GExists directory)) in
  if negb exists_ then ret false
  else
    let git_directory := join directory ".git" in
    run! metadata := perform (GFileType git_directory) in
    match metadata with
    | NotFound => ret false
    | Unreadable _ => bail "inspect checkout Git directory"
    | Found_ file_type =>
        if negb (bool_decide (file_type = TypeDirectory)) then ret false
        else
          run! expected := ask_context "canonicalize checkout Git directory" (perform (GCanonicalize git_directory)) in
          run! output := perform (GOutput (with_variables environment
            (in_directory directory (git ["rev-parse"; "--absolute-git-dir"])))) in
          match output with
          | Failed _ => ret false
          | Got output =>
              if negb (out_success output) then ret false
              else
                run! actual := perform (GCanonicalize (trimmed_stdout output)) in
                ret (match actual with
                     | Got actual => bool_decide (components actual = components expected)
                     | Failed _ => false
                     end)
          end
    end.

Definition git_repository_object_format (directory : string) (environment : Environment) : GitAct GitObjectFormat :=
  run! output := output_of "inspect checkout repository object format" (with_variables environment
    (in_directory directory (git ["config"; "--local"; "--get"; "extensions.objectFormat"]))) in
  if out_success output then
    if bool_decide (trimmed_stdout output = "sha1") then ret Sha1
    else if bool_decide (trimmed_stdout output = "sha256") then ret Sha256
    else bail "checkout repository uses an unsupported Git object format"
  else if bool_decide (out_code output = Some 1%Z) && is_empty (out_stderr output) then ret Sha1
  else bail ("inspect checkout repository object format: " +:+ trimmed_stderr output).

(** A failing [symlink_metadata] is an error here. *)
Definition file_type_of (path : string) : GitAct FileType :=
  run! metadata := perform (GFileType path) in
  match metadata with
  | Found_ file_type => ret file_type
  | NotFound => bail "No such file or directory"
  | Unreadable message => bail message
  end.

Fixpoint remove_entries (entries : list string) : GitAct unit :=
  match entries with
  | [] => ret ()
  | path :: entries =>
      run! file_type := file_type_of path in
      (if bool_decide (file_type = TypeDirectory) then ask (perform (GRemoveTree path))
       else ask (perform (GRemoveFile path))) ;>
      remove_entries entries
  end.

Definition clear_checkout_directory (directory : string) : GitAct unit :=
  run! exists_ := ask (perform (GExists directory)) in
  if negb exists_ then ret ()
  else
    run! file_type := file_type_of directory in
    if negb (bool_decide (file_type = TypeDirectory)) then ask (perform (GRemoveFile directory))
    else
      run! entries := ask_context ("read checkout directory " +:+ directory) (perform (GReadDirectory directory)) in
      remove_entries entries.

(** ** Configuration of git for the checkout *)

(** [SensitiveDirectoryGuard]: the directory is removed when the guard is dropped,
    however the program ends. *)
Definition guarded {A : Type} (directory : string) (c : GitAct A) : GitAct A := λ t l,
  let '(t, l, r) := c t l in
  let '(t, l, _) := perform (GRemoveTree directory) t l in
  (t, l, r).

Definition non_empty (value : option string) : option string :=
  value ← value; if is_empty value then None else Some value.

(** The file the user configured, or the one in the home directory. *)
Definition original_git_config (environment : Environment) : option string :=
  match non_empty (environment !! "GIT_CONFIG_GLOBAL") with
  | Some path => Some path
  | None =>
      match non_empty (environment !! "HOME") with
      | Some home => Some (join home ".gitconfig")
      | None => (λ home, join home ".gitconfig") <$> non_empty process_home
      end
  end.

Definition copy_git_config (environment : Environment) (temporary_config : string) : GitAct unit :=
  run! copied :=
    match original_git_config environment with
    | None => ret false
    | Some original_config =>
        run! copied := perform (GCopy original_config temporary_config) in
        match copied with
        | Found_ _ => ret true
        | NotFound => ret false
        | Unreadable _ =>
            bail ("copy global Git configuration " +:+ original_config +:+ " for actions/checkout")
        end
    end in
  (if copied : bool then ret ()
   else ask_context "create actions/checkout temporary global Git configuration"
          (perform (GWritePrivate temporary_config ""))) ;>
  ask_context "restrict actions/checkout temporary global Git configuration" (perform (GRestrict temporary_config)).

(** The variables with a home of their own, in which the directory is safe. *)
Definition add_safe_directory (environment : Environment) (directory temporary_home : string) : GitAct Environment :=
  let temporary_config := join temporary_home ".gitconfig" in
  copy_git_config environment temporary_config ;>
  let environment := <["GIT_CONFIG_GLOBAL" := temporary_config]> (<["HOME" := temporary_home]> environment) in
  run! output := output_of "run Git while configuring actions/checkout safe.directory"
    (with_variables environment (git ["config"; "--global"; "--add"; CHECKOUT_SAFE_DIRECTORY; directory])) in
  if out_success output then ret environment
  else bail ("configure actions/checkout safe.directory: " +:+ trimmed_stderr output).

(** The guard lives as long as the rest of the checkout, [k]. *)
Definition configure_checkout_safe_directory {A : Type} (environment : Environment) (directory run_dir : string)
    (enabled : bool) (k : Environment → GitAct A) : GitAct A :=
  if negb enabled then k environment
  else
    let runner_temp := default (join run_dir "_temp") (non_empty (environment !! "RUNNER_TEMP")) in
    ask_context "create actions/checkout temporary directory" (perform (GCreateDirectories runner_temp)) ;>
    run! uuid := perform GUuid in
    let temporary_home := join runner_temp ("checkout-global-" +:+ uuid) in
    ask_context "create actions/checkout temporary Git home" (perform (GCreateDirectory temporary_home)) ;>
    guarded temporary_home (run! environment := add_safe_directory environment directory temporary_home in k environment).
End checkout.
