(* ===== verification/CheckoutRun.v ===== *)
(** * [execute_checkout_step] (crates/gitzero-agent, executor.rs)

    The whole checkout: its options, the commit it pins, the commands of git in the
    order they run, and the checks on what they left. *)

From S2P Require Import Prelude RustStr RustText UnixPath OrdMap Yaml Expression Evaluate Instances Protocol.
From S2P Require Import Masking LogOutput Workflow Scheduler JobContext Traced JobEffects Actions GitObjects.
From S2P Require Import CheckoutInputs GitEffects Materialize Checkout.

Record CheckoutOptions := mkCheckoutOptions {
  op_clean : bool;
  op_fetch_tags : bool;
  op_lfs : bool;
  op_show_progress : bool;
  op_persist_credentials : bool;
  op_set_safe_directory : bool;
  op_sparse_checkout_cone_mode : bool;
  op_sparse_checkout : option (list string);
  op_filter : option string;
  op_fetch_depth : Z;
  op_submodules : string;
}.

(** The options, in the order in which they are checked. *)
Definition checkout_options (inputs : Environment) : outcome string CheckoutOptions :=
  let? clean := checkout_boolean inputs "clean" true in
  let? fetch_tags := checkout_boolean inputs "fetch-tags" false in
  let? lfs := checkout_boolean inputs "lfs" false in
  let? show_progress := checkout_boolean inputs "show-progress" true in
  let? persist_credentials := checkout_boolean inputs "persist-credentials" true in
  let? set_safe_directory := checkout_boolean inputs "set-safe-directory" true in
  let? _ := checkout_boolean inputs "allow-unsafe-pr-checkout" false in
  let? sparse_checkout_cone_mode := checkout_boolean inputs "sparse-checkout-cone-mode" true in
  let? sparse_checkout := checkout_sparse_patterns (inputs !! "sparse-checkout") in
  let? filter := checkout_filter (inputs !! "filter") in
  let? fetch_depth := checkout_fetch_depth (inputs !! "fetch-depth") in
  let? submodules := checkout_submodules (inputs !! "submodules") in
  Ok (mkCheckoutOptions clean fetch_tags lfs show_progress persist_credentials set_safe_directory
        sparse_checkout_cone_mode sparse_checkout filter fetch_depth submodules).

Definition fetch_filter (options : CheckoutOptions) : option string :=
  match op_filter options with
  | Some filter => Some filter
  | None => match op_sparse_checkout options with Some _ => Some "blob:none" | None => None end
  end.

(** What is checked out: the commit, a local repository that has it, the value of
    the output [ref], the branch HEAD is to be on, and a token that was obtained. *)
Record Selection := mkSelection {
  se_expected_sha : string;
  se_immutable_snapshot : option string;
  se_output_ref : string;
  se_checkout_branch : option string;
  se_managed_token : option string;
}.

Section commands.
Context (oracle : GitOracle) (step_id directory : string) (variables : Environment) (timeout : option Z).

Notation perform := (perform oracle).

Definition at_checkout (arguments : list string) : GitCommand :=
  with_variables variables (in_directory directory (git arguments)).

Definition unattended (command : GitCommand) : GitCommand := with_variable "GIT_TERMINAL_PROMPT" "0" command.

Definition run_checkout (context : string) (command : GitCommand) : GitAct unit :=
  run_git_for oracle context step_id command timeout.

Definition output_checkout (context : string) (arguments : list string) : GitAct Output :=
  output_of oracle context (at_checkout arguments).

Definition progress (show_progress : bool) : string := if show_progress then "--progress" else "--quiet".

(** ** An initialized repository *)

Definition initialize_checkout (expected_sha : string) : GitAct bool :=
  run! existing := git_repository_exists oracle directory variables in
  run! existing :=
    if existing : bool then
      run! format := git_repository_object_format oracle directory variables in
      run! expected := lift (from_object_id expected_sha) in
      ret (bool_decide (format = expected))
    else ret false in
  (if existing : bool then ret ()
   else
     clear_checkout_directory oracle directory ;>
     ask_context ("create checkout directory " +:+ directory) (perform (GCreateDirectories directory)) ;>
     run! init := lift (configure_git_init_object_format (git ["init"; "--quiet"]) expected_sha) in
     run_checkout "initialize checkout repository" (with_variables variables (in_directory directory init))) ;>
  ret existing.

Definition configure_origin (checkout_remote : string) : GitAct unit :=
  run! origin := output_checkout "inspect checkout origin" ["remote"; "get-url"; "origin"] in
  run_checkout "configure checkout origin"
    (at_checkout ["remote"; if out_success origin then "set-url" else "add"; "origin"; checkout_remote]).

Definition clean_checkout : GitAct unit :=
  run! head_ := output_checkout "inspect existing checkout HEAD" ["rev-parse"; "--verify"; "HEAD"] in
  (if out_success head_ then run_checkout "clean checkout workspace" (at_checkout ["reset"; "--hard"; "HEAD"])
   else ret ()) ;>
  run_checkout "clean checkout workspace" (at_checkout ["clean"; "-ffdx"]).

(** ** Fetching *)

Definition filter_unavailable (immutable_snapshot : option string) : string :=
  (if is_some immutable_snapshot
   then "Filtered exact-SHA fetch was unavailable; using the immutable run snapshot."
   else "Filtered exact-SHA fetch was unavailable; retrying the authenticated snapshot without a filter.")
  +:+ line_end.

(** [true]: the filtered fetch succeeded. *)
Definition fetch_filtered (expected_sha : string) (immutable_snapshot filter : option string) (show_progress : bool) :
    GitAct bool :=
  match filter with
  | None => ret false
  | Some filter =>
      run! result := perform (GRun step_id (unattended (at_checkout
        ["-c"; "protocol.version=2"; "fetch"; "--no-tags"; "--no-recurse-submodules"; "--depth=1"; progress show_progress;
         "--filter=" +:+ filter; "origin"; expected_sha])) timeout) in
      match result with
      | Exited _ => ret true
      | Broken (ProcessExit _) =>
          ask (perform (GLog step_id System (filter_unavailable immutable_snapshot))) ;> ret false
      | Broken error => bail (process_message error)
      end
  end.

Definition fetch_exact_checkout_commit (expected_sha : string) (immutable_snapshot filter : option string)
    (show_progress : bool) : GitAct unit :=
  run! fetched := fetch_filtered expected_sha immutable_snapshot filter show_progress in
  if fetched : bool then ret ()
  else run_checkout "fetch exact authenticated pull-request snapshot into job workspace" (unattended (at_checkout
         ["fetch"; "--no-tags"; "--depth=1"; progress show_progress; default "origin" immutable_snapshot; expected_sha])).

Definition clear_worktree_configuration : GitAct unit :=
  run! output := output_of oracle "clear sparse-checkout worktree configuration"
    (in_directory directory (git ["config"; "--local"; "--unset-all"; "extensions.worktreeConfig"])) in
  if negb (out_success output) && negb (bool_decide (out_code output = Some 5%Z))
  then bail "failed to clear sparse-checkout worktree configuration" else ret ().

Definition configure_sparse_checkout (patterns : option (list string)) (cone_mode : bool) : GitAct unit :=
  run! inspected := output_of oracle "inspect sparse-checkout configuration"
    (in_directory directory (git ["config"; "--bool"; "--get"; "core.sparseCheckout"])) in
  let sparse_enabled := eq_ignore_ascii_case (out_stdout inspected) ("true" +:+ line_end) in
  let context := "configure actions/checkout sparse working tree" in
  match patterns with
  | Some patterns =>
      run_checkout context (at_checkout
        (["sparse-checkout"; "set"; if cone_mode then "--cone" else "--no-cone"; "--"] ++ patterns))
  | None =>
      if sparse_enabled then
        run_checkout context (at_checkout ["sparse-checkout"; "disable"]) ;> clear_worktree_configuration
      else ret ()
  end.

(** All branches, and the refs of the pull request when its merge is checked out. *)
Definition all_refs {J : Type} (run : RunSpec J) (same_repository : bool) : list string :=
  let number := pretty (prs_number (run_pull_request run)) in
  let pull name := "+refs/pull/" +:+ number +:+ "/" +:+ name +:+ ":refs/remotes/pull/" +:+ number +:+ "/" +:+ name in
  "+refs/heads/*:refs/remotes/origin/*" ::
  (if same_repository && bool_decide (prs_execution_ref (run_pull_request run) = "refs/pull/" +:+ number +:+ "/merge")
   then [pull "head"; pull "merge"] else []).

Definition fetch_more {J : Type} (run : RunSpec J) (same_repository : bool) (expected_sha : string) (options : CheckoutOptions) :
    GitAct unit :=
  let depth := op_fetch_depth options in
  if negb (bool_decide (depth = 0 ∨ 1 < depth)%Z || op_fetch_tags options) then ret ()
  else
    run! shallow :=
      if bool_decide (depth = 0%Z) then
        run! output := output_checkout "inspect checkout depth" ["rev-parse"; "--is-shallow-repository"] in
        ret (out_success output && bool_decide (trimmed_stdout output = "true"))
      else ret false in
    run_checkout "apply actions/checkout fetch options" (unattended (at_checkout
      (["fetch"; progress (op_show_progress options)] ++
       match fetch_filter options with Some filter => ["--filter=" +:+ filter] | None => [] end ++
       (if op_fetch_tags options then ["--tags"] else []) ++
       (if shallow : bool then ["--unshallow"]
        else if bool_decide (1 < depth)%Z then ["--deepen=" +:+ pretty (depth - 1)%Z] else []) ++
       ["origin"] ++
       (if bool_decide (depth = 0%Z) then all_refs run same_repository
        else if bool_decide (1 < depth)%Z then [expected_sha] else [])))).

(** ** Checking out *)

Definition remote_tracking_ref (branch : string) : string := "refs/remotes/origin/" +:+ branch.

Definition attach_branch (branch expected_sha : string) : GitAct unit :=
  run_checkout "pin checkout remote-tracking branch"
    (at_checkout ["update-ref"; remote_tracking_ref branch; expected_sha]) ;>
  run_checkout "checkout exact pinned repository branch"
    (at_checkout ["checkout"; "--quiet"; "--force"; "-B"; branch; remote_tracking_ref branch]) ;>
  run_checkout "configure checkout branch upstream"
    (at_checkout ["branch"; "--quiet"; "--set-upstream-to=" +:+ remote_tracking_ref branch; "--"; branch]).

Definition detach_head (expected_sha : string) : GitAct unit :=
  run_checkout "checkout exact pinned repository snapshot"
    (at_checkout ["checkout"; "--quiet"; "--detach"; "--force"; expected_sha]).

(** HEAD is on the branch, or on none. *)
Definition verify_branch (checkout_branch : option string) : GitAct unit :=
  let context := if is_some checkout_branch then "verify actions/checkout branch"
                 else "verify actions/checkout detached HEAD" in
  run! symbolic_head := output_checkout context ["symbolic-ref"; "--quiet"; "--short"; "HEAD"] in
  let actual_branch := trimmed_stdout symbolic_head in
  match checkout_branch with
  | Some expected_branch =>
      if negb (out_success symbolic_head) || negb (bool_decide (actual_branch = expected_branch))
      then bail ("actions/checkout branch verification failed: expected " +:+ expected_branch +:+ ", got " +:+ actual_branch)
      else ret ()
  | None =>
      if out_success symbolic_head
      then bail ("actions/checkout detached-HEAD verification failed: attached to " +:+ actual_branch)
      else ret ()
  end.

Definition update_submodules (submodules : string) (fetch_depth : Z) : GitAct unit :=
  let recursive := if bool_decide (submodules = "recursive") then ["--recursive"] else [] in
  run_checkout "synchronize checkout submodules" (unattended (at_checkout (["submodule"; "sync"] ++ recursive))) ;>
  run_checkout "initialize checkout submodules" (unattended (at_checkout
    (["-c"; "protocol.version=2"; "submodule"; "update"; "--init"; "--force"] ++
     (if bool_decide (0 < fetch_depth)%Z then ["--depth=" +:+ pretty fetch_depth] else []) ++ recursive))) ;>
  run_checkout "disable automatic garbage collection in checkout submodules" (at_checkout
    (["submodule"; "foreach"] ++ recursive ++ ["git"; "config"; "--local"; "gc.auto"; "0"])).

Definition verify_head (expected_sha : string) : GitAct unit :=
  run! output := output_checkout "verify actions/checkout HEAD" ["rev-parse"; "HEAD"] in
  if negb (out_success output) || negb (eq_ignore_ascii_case (trimmed_stdout output) expected_sha)
  then bail ("actions/checkout verification failed: expected " +:+ expected_sha +:+ ", got " +:+ trimmed_stdout output)
  else ret ().

(** From the configured directory to the verified checkout. *)
Definition check_out {J : Type} (run : RunSpec J) (same_repository : bool) (checkout_remote : string) (selection : Selection)
    (options : CheckoutOptions) : GitAct Environment :=
  let expected_sha := se_expected_sha selection in
  run! existing_repository := initialize_checkout expected_sha in
  configure_origin checkout_remote ;>
  (if op_clean options && existing_repository then clean_checkout else ret ()) ;>
  fetch_exact_checkout_commit expected_sha (se_immutable_snapshot selection) (fetch_filter options)
    (op_show_progress options) ;>
  configure_sparse_checkout (op_sparse_checkout options) (op_sparse_checkout_cone_mode options) ;>
  fetch_more run same_repository expected_sha options ;>
  match se_checkout_branch selection with
  | Some branch => attach_branch branch expected_sha
  | None => detach_head expected_sha
  end ;>
  verify_branch (se_checkout_branch selection) ;>
  (if op_lfs options then run_checkout "pull Git LFS objects" (at_checkout ["lfs"; "pull"]) else ret ()) ;>
  (if bool_decide (op_submodules options = "false") then ret ()
   else update_submodules (op_submodules options) (op_fetch_depth options)) ;>
  verify_head expected_sha ;>
  ret (<["ref" := se_output_ref selection]> {["commit" := expected_sha]}).
End commands.

(** ** The commit that is pinned, and the whole step *)

Section checkout.
Context `{VL : ValueLib} `{EL : ExpressionLib} `{JL : !JsonLib} `{JI : !JsonInterop}.
Context (hash_files : string → list string → outcome ExpressionError string).
Context (base64 base64_url shell_quote : string → string).
Context (process_home : option string).
Context (encode_resolution : CrossRepositoryCheckoutRefResolution → option string).
Context (decode_resolution : string → option CrossRepositoryCheckoutRefResolution).
Context (oracle : GitOracle).
Context {J : Type} (run : RunSpec J) (step_id source_repository_dir workspace run_dir : string) (timeout : option Z).

(** One of the snapshots the run is about; only the merge is in the repository of
    the run. *)
Definition select_snapshot (ref_input : option string) (requested_ref : string) : outcome string Selection :=
  let? target := ok_or (checkout_target run requested_ref)
    "actions/checkout ref must identify an authenticated pull-request merge, head, or base snapshot" in
  let? checkout_branch := checkout_local_branch run requested_ref target in
  Ok (mkSelection (target_commit run target)
        (if bool_decide (target = Execution) then Some source_repository_dir else None)
        (checkout_output_ref run ref_input) checkout_branch None).

(** The commit a ref of another repository has. *)
Definition select_other_repository (repository : CheckoutRepository) (requested_ref checkout_remote : string)
    (ssh_credentials : option CheckoutSshCredentials) (access : option CrossRepositoryCheckoutAccess) : GitAct Selection :=
  run! git_ref := lift (public_checkout_ref requested_ref) in
  run! (commit, snapshot, token) :=
    match ssh_credentials with
    | Some credentials =>
        run! snapshot := with_context ("checkout repository " +:+ repository_at repository git_ref +:+
                                       " with an explicit managed SSH key")
          (materialize_remote_repository_with_fetch base64 base64_url oracle step_id (cr_owner repository) (cr_name repository)
             git_ref (cr_clone_url repository) checkout_remote CheckoutSsh None (Some (ssh_environment credentials)) run_dir) in
        run! (commit, snapshot, _) := finish_cross_repository_checkout oracle snapshot None in
        ret (commit, snapshot, None)
    | None =>
        run! access := lift (expect access) in
        materialize_cross_repository_checkout_snapshot base64 base64_url oracle run step_id run_dir repository git_ref access
    end in
  run! checkout_branch := cross_repository_checkout_branch base64 base64_url oracle encode_resolution decode_resolution
    repository git_ref commit checkout_remote token ssh_credentials run_dir in
  ret (mkSelection commit (Some snapshot) (public_checkout_output_ref git_ref checkout_branch) checkout_branch token).

(** The variables with which git runs: the credentials, and whether LFS files are
    left alone. *)
Definition configure_checkout_environment (environment : Environment) (options : CheckoutOptions) (checkout_token : string)
    (ssh_credentials : option CheckoutSshCredentials) : outcome string Environment :=
  let rewrite_ssh_submodule_urls := negb (bool_decide (op_submodules options = "false")) && negb (is_some ssh_credentials) in
  let? environment := configure_checkout_credentials base64 environment checkout_token rewrite_ssh_submodule_urls in
  let environment := configure_checkout_ssh environment (ssh_command <$> ssh_credentials) in
  Ok (if op_lfs options then delete "GIT_LFS_SKIP_SMUDGE" environment
      else <["GIT_LFS_SKIP_SMUDGE" := "1"]> environment).

(** What the job keeps of the credentials. *)
Definition persist_checkout_credentials (environment : Environment) (options : CheckoutOptions) (checkout_token : string)
    (ssh_credentials : option CheckoutSshCredentials) : outcome string Environment :=
  let persist := op_persist_credentials options in
  let rewrite_ssh_submodule_urls := negb (bool_decide (op_submodules options = "false")) && negb (is_some ssh_credentials) in
  let? environment := configure_checkout_credentials base64 environment (if persist then checkout_token else "")
    (persist && rewrite_ssh_submodule_urls) in
  Ok (configure_checkout_ssh environment (if persist then ssh_command <$> ssh_credentials else None)).

Definition execute_checkout_step_with_repository (inputs : Environment) (builtin_token : string)
    (repository : CheckoutRepository) (checkout_secret_values : gset string) : GitAct Environment :=
  run! environment := get_variables in
  run! ssh_credentials := with_context "configure actions/checkout SSH credentials"
    (checkout_ssh_credentials shell_quote oracle inputs checkout_secret_values environment) in
  let managed_here := cr_same_repository repository || is_some ssh_credentials in
  run! access := lift (if managed_here then Ok None
    else omap_ok Some (select_cross_repository_checkout_access (inputs !! "token") builtin_token checkout_secret_values)) in
  let requested_ref := trim (default "" (inputs !! "ref")) in
  lift (check_server_url (inputs !! "github-server-url")) ;>
  run! directory := lift (checkout_directory workspace (default "" (inputs !! "path"))) in
  run! safe_checkout_directory := validate_checkout_directory oracle workspace directory in
  run! options := lift (checkout_options inputs) in
  let checkout_remote := match ssh_credentials with
                         | Some credentials => ssh_url repository (ssh_user credentials)
                         | None => cr_clone_url repository
                         end in
  run! selection :=
    if cr_same_repository repository then lift (select_snapshot (inputs !! "ref") requested_ref)
    else select_other_repository repository requested_ref checkout_remote ssh_credentials access in
  run! checkout_token := lift (if managed_here
    then select_checkout_token (inputs !! "token") builtin_token checkout_secret_values
    else Ok (default "" (se_managed_token selection))) in
  configure_checkout_safe_directory process_home oracle environment safe_checkout_directory run_dir
    (op_set_safe_directory options) (λ checkout_environment,
      run! checkout_environment :=
        lift (configure_checkout_environment checkout_environment options checkout_token ssh_credentials) in
      run! persisted := lift (persist_checkout_credentials environment options checkout_token ssh_credentials) in
      set_variables persisted ;>
      check_out oracle step_id directory checkout_environment timeout run (cr_same_repository repository) checkout_remote
        selection options).

Definition builtin_token (context : EvaluationContext) : outcome string string :=
  let? token := map_err display_error (evaluate_json hash_files context "github.token") in
  match token with
  | JString token => Ok token
  | JNull => Ok ""
  | _ => Err "github.token must resolve to a string or null"
  end.

Definition execute_checkout_step (inputs : Environment) (context : EvaluationContext) (checkout_secret_values : gset string) :
    GitAct Environment :=
  run! token := lift (builtin_token context) in
  run! inputs := lift (let? inputs := render_environment hash_files inputs context in Ok (lowercase_inputs inputs)) in
  lift (check_supported inputs) ;>
  run! repository := lift (checkout_repository run (inputs !! "repository")) in
  execute_checkout_step_with_repository inputs token repository checkout_secret_values.
End checkout.
