(* ===== verification/CheckoutSafety.v ===== *)
(** * The credentials of a checkout

    Every command of git that a checkout runs carries only credentials it may use,
    or is one of those that look at the local repository and contact no remote: a
    monitor of the trace refuses the others, and the programs of [Materialize],
    [Checkout] and [CheckoutRun] pass it. *)

From S2P Require Import Prelude RustStr RustText UnixPath OrdMap Yaml Expression Evaluate Instances Protocol.
From S2P Require Import Masking LogOutput Workflow Scheduler JobContext Traced JobEffects Actions GitObjects.
From S2P Require Import CheckoutInputs GitEffects Materialize Checkout CheckoutRun.

(** ** The credentials of a command *)

Definition is_extraheader (entry : string * string) : bool := eq_ignore_ascii_case entry.1 CHECKOUT_HTTP_EXTRAHEADER.

(** The headers git would send, by its inline configuration. *)
Definition credentials (variables : Environment) : list string :=
  match git_config variables with
  | Ok entries => (base.filter (λ entry, is_extraheader entry = true) entries).*2
  | Err _ | Panic => []
  end.

Section monitor.
Context (base64 : string → string).

(** Headers of tokens that may be used. *)
Definition authorized (tokens : gset string) (variables : Environment) : Prop :=
  ∀ header, header ∈ credentials variables → ∃ token, token ∈ tokens ∧ header = authorization base64 token.

#[export] Instance authorized_dec tokens variables : Decision (authorized tokens variables).
Proof.
  refine (cast_if (decide (Forall (λ header, Exists (λ token, header = authorization base64 token) (elements tokens))
                             (credentials variables)))).
  - abstract (intros header Hin; rewrite Forall_forall in f; specialize (f header Hin);
              apply Exists_exists in f as (token & ?%elem_of_elements & ?); eauto).
  - abstract (intros H; apply n, Forall_forall; intros header (token & ? & ?)%H; apply Exists_exists;
              exists token; by rewrite elem_of_elements).
Defined.

(** Subcommands of git that read or write the local repository and its configuration
    and contact no remote, whatever their variables. *)
Definition local_subcommand (arguments : list string) : bool :=
  match arguments with
  | subcommand :: arguments =>
      bool_decide (subcommand ∈ ["rev-parse"; "config"; "show-ref"; "cat-file"; "symbolic-ref"]) ||
      bool_decide (subcommand = "remote") && bool_decide (head arguments = Some "get-url")
  | [] => false
  end.

(** After the option that names the repository. *)
Definition stays_local (arguments : list string) : bool :=
  match arguments with
  | option :: _ :: rest => if bool_decide (option = "--git-dir") then local_subcommand rest else local_subcommand arguments
  | _ => local_subcommand arguments
  end.

(** Every command of git is judged: [run_process] and its like always by their
    credentials, [Command::output] unless the command stays local.

    The tokens that may be used grow with those the control plane grants for the
    checkout of the repository, which are asked for only when [may_ask]. *)
Definition check_credentials (may_ask : bool) (owner name : string) (tokens : gset string) (entry : GitEntry) :
    option (gset string) :=
  let asks purpose o n := may_ask && bool_decide (purpose = Checkout) && bool_decide (o = owner) && bool_decide (n = name) in
  match entry with
  | mkEntry (GRun _ command _) _ | mkEntry (GCapture command) _ =>
      if decide (authorized tokens (git_environment command)) then Some tokens else None
  | mkEntry (GOutput command) _ =>
      if stays_local (git_arguments command) || bool_decide (authorized tokens (git_environment command))
      then Some tokens else None
  | mkEntry (GCachedToken purpose o n) token =>
      if asks purpose o n then Some (match token with Some token => {[token]} ∪ tokens | None => tokens end) else None
  | mkEntry (GRequestToken purpose o n _) token =>
      if asks purpose o n then Some (match token with Got token => {[token]} ∪ tokens | Failed _ => tokens end) else None
  | mkEntry (GSourceToken _) _ => None
  | _ => Some tokens
  end.
End monitor.

(** ** Configurations without credentials, and with those of one token *)

Lemma git_config_agree a b :
  (∀ name, config_name name → a !! name = b !! name) → git_config a = git_config b.
Proof.
  intros H. unfold git_config, config_count. rewrite (H "GIT_CONFIG_COUNT") by (by left).
  assert (∀ i, config_entry a i = config_entry b i) as Hentry.
  { intros i. unfold config_entry. rewrite (H (config_key i)) by (right; eauto).
    by rewrite (H (config_value i)) by (right; eauto). }
  match goal with |- obind ?c _ = obind _ _ => destruct c as [count| |]; [|done..] end. cbn [obind].
  induction (seq 0 (Z.to_nat count)) as [|i indices IH]; [done|]. cbn [traverse]. by rewrite Hentry, IH.
Qed.

Lemma credentials_agree a b : (∀ name, config_name name → a !! name = b !! name) → credentials a = credentials b.
Proof. intros H. unfold credentials. by rewrite (git_config_agree a b H). Qed.

Lemma config_name_prefix name : config_name name → starts_with "GIT_CONFIG_" name = true.
Proof. by intros [-> | (i & [-> | ->])]. Qed.

(** Variables whose names git does not read. *)
Lemma credentials_insert name value variables :
  starts_with "GIT_CONFIG_" name = false → credentials (<[name := value]> variables) = credentials variables.
Proof.
  intros H. apply credentials_agree. intros other Hother%config_name_prefix.
  apply lookup_insert_ne. congruence.
Qed.

Lemma credentials_delete name variables :
  starts_with "GIT_CONFIG_" name = false → credentials (delete name variables) = credentials variables.
Proof.
  intros H. apply credentials_agree. intros other Hother%config_name_prefix.
  apply lookup_delete_ne. congruence.
Qed.

Lemma credentials_none variables : variables !! "GIT_CONFIG_COUNT" = None → credentials variables = [].
Proof. intros H. unfold credentials, git_config, config_count. by rewrite H. Qed.

Lemma extraheader_managed entry : is_extraheader entry = true → managed_config_key entry.1 = true.
Proof. unfold is_extraheader, managed_config_key. by intros ->. Qed.

(** The configuration a checkout wrote. *)
Lemma credentials_configured base64 environment token rewrite environment' :
  configure_checkout_credentials base64 environment token rewrite = Ok environment' →
  credentials environment' = if is_empty token then [] else [authorization base64 token].
Proof.
  intros (entries & _ & Hconfig & _)%checkout_credentials_written. unfold credentials. rewrite Hconfig.
  rewrite filter_app. assert (base.filter (λ entry, is_extraheader entry = true) (unmanaged entries) = []) as ->.
  { clear Hconfig. unfold unmanaged. induction entries as [|entry entries IH]; [done|]. rewrite filter_cons.
    case_decide as Hm; [|exact IH]. rewrite filter_cons, decide_False; [exact IH|].
    intros He%extraheader_managed. congruence. }
  cbn [app]. unfold credential_entries. destruct (is_empty token), rewrite; done.
Qed.

(** ** Programs that pass the monitor *)

Section passes.
Context (base64 base64_url : string → string) (oracle : GitOracle).
Context (may_ask : bool) (owner name : string) (tokens : gset string).

Notation check := (check_credentials base64 may_ask owner name).
Notation stays_at c := (stays_at (L:=Environment) check tokens c).

(** Effects that neither run git nor ask for a token. *)
Definition is_local (e : GitEffect) : bool :=
  match e with
  | GRun _ _ _ | GCapture _ | GOutput _ | GSourceToken _ | GCachedToken _ _ _ | GRequestToken _ _ _ _ => false
  | _ => true
  end.

Lemma stays_at_local e : is_local e = true → stays_at (perform oracle e).
Proof. intros H. apply stays_at_perform. intros a. by destruct e. Qed.
Hint Extern 1 (Traced.stays_at _ _ (perform _ _)) => apply stays_at_local; reflexivity : stays_at.

Ltac stays_at := repeat (cbv zeta; stays_at_step).

Lemma stays_at_ask {A} (c : GitAct (Answer A)) : stays_at c → stays_at (ask c).
Proof. intros Hc. unfold ask, of_answer. stays_at. Qed.

Lemma stays_at_ask_context {A} message (c : GitAct (Answer A)) : stays_at c → stays_at (ask_context message c).
Proof. intros Hc. unfold ask_context, ask, of_answer. stays_at. Qed.
Hint Resolve stays_at_ask stays_at_ask_context : stays_at.

Lemma stays_at_output command : stays_local (git_arguments command) = true → stays_at (perform oracle (GOutput command)).
Proof. intros H. apply (stays_at_perform (answer := git_answer)). intros a. cbn -[stays_local]. by rewrite H. Qed.
Hint Extern 1 (Traced.stays_at _ _ (perform _ (GOutput _))) => apply stays_at_output; reflexivity : stays_at.

Lemma stays_at_output_of context command :
  stays_local (git_arguments command) = true → stays_at (output_of oracle context command).
Proof. intros H. unfold output_of. apply stays_at_ask_context. by apply stays_at_output. Qed.
Hint Extern 1 (Traced.stays_at _ _ (output_of _ _ _)) => apply stays_at_output_of; reflexivity : stays_at.

Lemma stays_at_git_output operation command :
  stays_local (git_arguments command) = true → stays_at (git_output oracle operation command).
Proof. intros H. unfold git_output. apply stays_at_bind; [by apply stays_at_output_of|]. intros output. stays_at. Qed.
Hint Extern 1 (Traced.stays_at _ _ (git_output _ _ _)) => apply stays_at_git_output; reflexivity : stays_at.

Lemma stays_at_run step_id command timeout :
  authorized base64 tokens (git_environment command) → stays_at (perform oracle (GRun step_id command timeout)).
Proof. intros H. apply (stays_at_perform (answer := git_answer)). intros a. cbn. by rewrite decide_True. Qed.

Lemma stays_at_capture command :
  authorized base64 tokens (git_environment command) → stays_at (perform oracle (GCapture command)).
Proof. intros H. apply (stays_at_perform (answer := git_answer)). intros a. cbn. by rewrite decide_True. Qed.
Hint Resolve stays_at_run stays_at_capture : stays_at.

Lemma stays_at_run_git_for context step_id command timeout :
  authorized base64 tokens (git_environment command) → stays_at (run_git_for oracle context step_id command timeout).
Proof. intros H. unfold run_git_for, run_git. stays_at. Qed.
Hint Resolve stays_at_run_git_for : stays_at.

Lemma stays_at_locked {A} cache (c : GitAct A) : stays_at c → stays_at (locked oracle cache c).
Proof.
  intros Hc t l s ->. unfold locked. cbn [perform].
  destruct (Hc (t ++ [mkEntry (GLock cache) (oracle t (GLock cache))]) l tokens eq_refl) as (added & s' & Ht & Hm & ->).
  destruct (c _ l) as [[t1 l1] r]; cbn [fst snd] in *; subst.
  eexists ([_] ++ added ++ [_]), tokens. rewrite <-!app_assoc. split; [done|]. split; [|done].
  rewrite monitor_app. change (monitor check tokens [_]) with (Some tokens). cbn [mbind option_bind]. by rewrite monitor_app, Hm.
Qed.
Hint Resolve stays_at_locked : stays_at.

(** ** Configurations that are authorized *)

Lemma authorized_empty : authorized base64 tokens ∅.
Proof. intros header. rewrite credentials_none by done. by intros ?%elem_of_nil. Qed.

Lemma authorized_none variables : variables !! "GIT_CONFIG_COUNT" = None → authorized base64 tokens variables.
Proof. intros H header. rewrite credentials_none by done. by intros ?%elem_of_nil. Qed.

Lemma authorized_insert variable value variables :
  starts_with "GIT_CONFIG_" variable = false →
  authorized base64 tokens variables → authorized base64 tokens (<[variable := value]> variables).
Proof. intros H Ha header. rewrite credentials_insert by done. apply Ha. Qed.

Lemma authorized_token token variables :
  token ∈ tokens → (∀ header, header ∈ credentials variables → header = authorization base64 token) →
  authorized base64 tokens variables.
Proof. intros Hin Hc header ->%Hc. eauto. Qed.

Definition may_use (token : option string) : Prop := match token with Some token => token ∈ tokens | None => True end.

Definition plain_variables (variables : option Environment) : Prop :=
  match variables with Some variables => variables !! "GIT_CONFIG_COUNT" = None | None => True end.

(** The variables of a command that has none yet. *)
Definition bare (command : GitCommand) : Prop := git_environment command = ∅.

Lemma with_variable_environment variable value command :
  git_environment (with_variable variable value command) = <[variable := value]> (git_environment command).
Proof. unfold with_variable, with_variables. cbn. by rewrite insert_union_singleton_l. Qed.

(** One header, and nothing else. *)
Lemma credentials_one header variables :
  variables !! "GIT_CONFIG_COUNT" = Some "1" → variables !! "GIT_CONFIG_KEY_0" = Some "http.https://github.com/.extraheader" →
  variables !! "GIT_CONFIG_VALUE_0" = Some header → credentials variables = [header].
Proof.
  intros Hcount Hkey Hvalue. unfold credentials, git_config, config_count. rewrite Hcount.
  change (ok_or (parse_unsigned usize_max "1") "GIT_CONFIG_COUNT must be a nonnegative integer") with (Ok (E:=string) 1%Z).
  cbn [obind]. change (seq 0 (Z.to_nat 1)) with [0]. cbn [traverse]. unfold config_entry.
  change (config_key 0) with "GIT_CONFIG_KEY_0". change (config_value 0) with "GIT_CONFIG_VALUE_0".
  rewrite Hkey, Hvalue. cbn. done.
Qed.

Lemma remote_access_authorized command token environment :
  bare command → may_use token → plain_variables environment →
  authorized base64 tokens (git_environment (configure_remote_repository_access base64 command token environment)).
Proof.
  intros Hbare Htoken Henv. unfold configure_remote_repository_access.
  set (base := match environment with Some _ => _ | None => _ end).
  assert (git_environment base !! "GIT_CONFIG_COUNT" = None) as Hbase.
  { assert (git_environment (with_variable "GIT_TERMINAL_PROMPT" "0" command) !! "GIT_CONFIG_COUNT" = None) as H.
    { rewrite with_variable_environment, Hbare. done. }
    subst base. destruct environment as [environment|]; [|done]. cbn [with_variables git_environment].
    by rewrite lookup_union_r. }
  destruct token as [token|]; [|by apply authorized_none].
  apply (authorized_token token); [done|]. intros header. rewrite !with_variable_environment.
  rewrite (credentials_one (authorization base64 token)); [by intros ->%list_elem_of_singleton| | |].
  - by do 2 rewrite lookup_insert_ne by done; rewrite lookup_insert_eq.
  - by rewrite lookup_insert_ne, lookup_insert_eq by done.
  - by rewrite lookup_insert_eq.
Qed.

Hint Extern 1 (authorized _ _ (git_environment (configure_remote_repository_access _ _ _ _))) =>
  apply remote_access_authorized; [reflexivity | assumption | assumption] : stays_at.
Hint Extern 1 (authorized _ _ (git_environment (in_directory _ (configure_git_init ?format _)))) =>
  apply authorized_none; destruct format; reflexivity : stays_at.
Hint Extern 2 (authorized _ _ (git_environment _)) => apply authorized_none; reflexivity : stays_at.

(** ** Materialization *)

Section materialize.
Context (token : option string) (variables : option Environment).
Hypothesis Htoken : may_use token.
Hypothesis Hvariables : plain_variables variables.

Lemma stays_at_object_format git_ref remote :
  stays_at (remote_repository_object_format base64 oracle git_ref remote token variables).
Proof. unfold remote_repository_object_format. stays_at. Qed.
Hint Resolve stays_at_object_format : stays_at.

Lemma stays_at_cache_is_valid cache remote : stays_at (remote_repository_cache_is_valid oracle cache remote).
Proof. unfold remote_repository_cache_is_valid. stays_at. Qed.
Hint Resolve stays_at_cache_is_valid : stays_at.

Lemma stays_at_ensure_cache step_id cache remote git_ref format_remote :
  stays_at (ensure_remote_repository_cache base64 oracle step_id cache remote git_ref format_remote token variables).
Proof.
  unfold ensure_remote_repository_cache, prepare_directory. stays_at.
Qed.
Hint Resolve stays_at_ensure_cache : stays_at.

Lemma stays_at_read_resolution cache resolution : stays_at (read_cached_remote_resolution oracle cache resolution).
Proof. unfold read_cached_remote_resolution. stays_at. Qed.
Hint Resolve stays_at_read_resolution : stays_at.

Lemma stays_at_canonical_ref cache git_ref fetch_remote :
  stays_at (fetched_remote_canonical_ref base64 oracle cache git_ref fetch_remote token variables).
Proof. unfold fetched_remote_canonical_ref. stays_at. Qed.
Hint Resolve stays_at_canonical_ref : stays_at.

Lemma stays_at_fetch_commit step_id o n git_ref fetch_remote cache resolution :
  stays_at (fetch_remote_commit base64 oracle step_id o n git_ref fetch_remote cache resolution token variables).
Proof. unfold fetch_remote_commit. stays_at. Qed.
Hint Resolve stays_at_fetch_commit : stays_at.

Lemma stays_at_probe step_id o n fetch_remote cache :
  stays_at (probe_access base64 oracle step_id o n fetch_remote cache token variables).
Proof. unfold probe_access. stays_at. Qed.
Hint Resolve stays_at_probe : stays_at.

Lemma stays_at_publish step_id cache commit checkout : stays_at (publish_checkout oracle step_id cache commit checkout).
Proof. unfold publish_checkout. stays_at. Qed.
Hint Resolve stays_at_publish : stays_at.

Lemma stays_at_materialize_locked step_id o n git_ref cache_remote fetch_remote run_dir cache checkout :
  stays_at (materialize_locked base64 base64_url oracle step_id o n git_ref cache_remote fetch_remote token variables
    run_dir cache checkout).
Proof. unfold materialize_locked. stays_at. Qed.
Hint Resolve stays_at_materialize_locked : stays_at.

Lemma stays_at_materialize step_id o n git_ref cache_remote fetch_remote scope run_dir :
  stays_at (materialize_remote_repository_with_fetch base64 base64_url oracle step_id o n git_ref cache_remote fetch_remote
    scope token variables run_dir).
Proof. unfold materialize_remote_repository_with_fetch. stays_at. Qed.
End materialize.
Hint Resolve stays_at_materialize : stays_at.

(** ** The commands of the checkout *)

Section commands.
Context (step_id directory : string) (variables : Environment) (timeout : option Z).
Hypothesis Hvariables : authorized base64 tokens variables.

Lemma at_checkout_authorized arguments :
  authorized base64 tokens (git_environment (at_checkout directory variables arguments)).
Proof. unfold at_checkout, with_variables. cbn. by rewrite map_union_empty. Qed.

Lemma unattended_authorized command :
  authorized base64 tokens (git_environment command) → authorized base64 tokens (git_environment (unattended command)).
Proof. intros H. unfold unattended. rewrite with_variable_environment. by apply authorized_insert. Qed.

Lemma init_authorized object_id command :
  configure_git_init_object_format (git ["init"; "--quiet"]) object_id = Ok command →
  authorized base64 tokens (git_environment (with_variables variables (in_directory directory command))).
Proof. intros (format & _ & [= <-])%obind_Ok. destruct format; cbn; by rewrite map_union_empty. Qed.
Hint Resolve at_checkout_authorized unattended_authorized init_authorized : stays_at.

Lemma stays_at_run_checkout context command :
  authorized base64 tokens (git_environment command) → stays_at (run_checkout oracle step_id timeout context command).
Proof. apply stays_at_run_git_for. Qed.
Hint Resolve stays_at_run_checkout : stays_at.

Lemma stays_at_output_checkout context arguments :
  stays_local arguments = true → stays_at (output_checkout oracle directory variables context arguments).
Proof. intros H. unfold output_checkout. by apply stays_at_output_of. Qed.
Hint Extern 1 (Traced.stays_at _ _ (output_checkout _ _ _ _ _)) => apply stays_at_output_checkout; reflexivity : stays_at.

Lemma stays_at_file_type_of path : stays_at (file_type_of oracle path).
Proof. unfold file_type_of. stays_at. Qed.
Hint Resolve stays_at_file_type_of : stays_at.

Lemma stays_at_remove_entries entries : stays_at (remove_entries oracle entries).
Proof. induction entries; cbn [remove_entries]; stays_at. Qed.
Hint Resolve stays_at_remove_entries : stays_at.

Lemma stays_at_clear path : stays_at (clear_checkout_directory oracle path).
Proof. unfold clear_checkout_directory. stays_at. Qed.
Hint Resolve stays_at_clear : stays_at.

Lemma stays_at_repository_exists path environment : stays_at (git_repository_exists oracle path environment).
Proof. unfold git_repository_exists. stays_at. Qed.

Lemma stays_at_repository_format path environment : stays_at (git_repository_object_format oracle path environment).
Proof. unfold git_repository_object_format. stays_at. Qed.
Hint Resolve stays_at_repository_exists stays_at_repository_format : stays_at.

Lemma stays_at_initialize expected_sha : stays_at (initialize_checkout oracle step_id directory variables timeout expected_sha).
Proof.
  unfold initialize_checkout. stays_at.
Qed.
Hint Resolve stays_at_initialize : stays_at.

Lemma stays_at_fetch_filtered expected_sha snapshot filter show_progress :
  stays_at (fetch_filtered oracle step_id directory variables timeout expected_sha snapshot filter show_progress).
Proof. unfold fetch_filtered. stays_at. Qed.
Hint Resolve stays_at_fetch_filtered : stays_at.

Lemma stays_at_fetch_exact expected_sha snapshot filter show_progress :
  stays_at (fetch_exact_checkout_commit oracle step_id directory variables timeout expected_sha snapshot filter show_progress).
Proof. unfold fetch_exact_checkout_commit. stays_at. Qed.
Hint Resolve stays_at_fetch_exact : stays_at.

Lemma stays_at_sparse patterns cone_mode :
  stays_at (configure_sparse_checkout oracle step_id directory variables timeout patterns cone_mode).
Proof. unfold configure_sparse_checkout, clear_worktree_configuration. stays_at. Qed.

Lemma stays_at_fetch_more {J} (run : RunSpec J) same_repository expected_sha options :
  stays_at (fetch_more oracle step_id directory variables timeout run same_repository expected_sha options).
Proof. unfold fetch_more. stays_at. Qed.

Lemma stays_at_submodules submodules depth :
  stays_at (update_submodules oracle step_id directory variables timeout submodules depth).
Proof. unfold update_submodules. stays_at. Qed.
Hint Resolve stays_at_sparse stays_at_fetch_more stays_at_submodules : stays_at.

Lemma stays_at_check_out {J} (run : RunSpec J) same_repository checkout_remote selection options :
  stays_at (check_out oracle step_id directory variables timeout run same_repository checkout_remote selection options).
Proof.
  unfold check_out, configure_origin, clean_checkout, attach_branch, detach_head, verify_branch, verify_head. stays_at.
Qed.
End commands.

(** ** The preparation of the checkout *)

Lemma stays_at_write_ssh_files key known_hosts key_path known_hosts_path :
  stays_at (write_ssh_files oracle key known_hosts key_path known_hosts_path).
Proof. unfold write_ssh_files. stays_at. Qed.

Lemma stays_at_find_ssh paths : stays_at (find_ssh oracle paths).
Proof. induction paths; cbn [find_ssh]; stays_at. Qed.
Hint Resolve stays_at_write_ssh_files stays_at_find_ssh : stays_at.

Lemma stays_at_ssh_credentials shell_quote inputs secrets environment :
  stays_at (checkout_ssh_credentials shell_quote oracle inputs secrets environment).
Proof. unfold checkout_ssh_credentials. stays_at. Qed.

Lemma stays_at_refuse_links current path : stays_at (refuse_links oracle current path).
Proof. revert current; induction path; intros current; cbn [refuse_links]; stays_at. Qed.
Hint Resolve stays_at_refuse_links : stays_at.

Lemma stays_at_validate_directory workspace directory : stays_at (validate_checkout_directory oracle workspace directory).
Proof. unfold validate_checkout_directory. stays_at. Qed.

Lemma stays_at_finish snapshot token : stays_at (finish_cross_repository_checkout oracle snapshot token).
Proof. unfold finish_cross_repository_checkout. stays_at. Qed.

Lemma stays_at_add_safe_directory process_home environment directory temporary_home :
  stays_at (add_safe_directory process_home oracle environment directory temporary_home).
Proof. unfold add_safe_directory, copy_git_config. stays_at. Qed.

Section branch.
Context (encode_resolution : CrossRepositoryCheckoutRefResolution → option string).
Context (decode_resolution : string → option CrossRepositoryCheckoutRefResolution).
Context (token : option string) (ssh_credentials : option CheckoutSshCredentials).
Hypothesis Htoken : may_use token.

Lemma stays_at_read_ref path git_ref commit :
  stays_at (read_cross_repository_checkout_ref_resolution oracle decode_resolution path git_ref commit).
Proof. unfold read_cross_repository_checkout_ref_resolution. stays_at. Qed.

Lemma stays_at_write_ref path commit branch :
  stays_at (write_cross_repository_checkout_ref_resolution oracle encode_resolution path commit branch).
Proof. unfold write_cross_repository_checkout_ref_resolution. stays_at. Qed.
Hint Resolve stays_at_read_ref stays_at_write_ref : stays_at.

Lemma configured_authorized environment rewrite environment' :
  configure_checkout_credentials base64 environment (default "" token) rewrite = Ok environment' →
  authorized base64 tokens environment'.
Proof.
  intros Hc%credentials_configured header. rewrite Hc. destruct token as [token'|]; [|by intros ?%elem_of_nil].
  change (default "" (Some token')) with token'. destruct (is_empty token'); [by intros ?%elem_of_nil|]. intros ->%list_elem_of_singleton. by exists token'.
Qed.

Lemma branch_variables_authorized environment arguments :
  match ssh_credentials with
  | Some credentials => Ok (configure_checkout_ssh ∅ (Some (ssh_command credentials)))
  | None => configure_checkout_credentials base64 ∅ (default "" token) false
  end = Ok environment →
  authorized base64 tokens (git_environment (with_variable "GIT_TERMINAL_PROMPT" "0"
    (with_variables environment (git arguments)))).
Proof.
  intros H. rewrite with_variable_environment. apply authorized_insert; [done|].
  cbn [with_variables git_environment git]. rewrite map_union_empty. destruct ssh_credentials as [credentials|].
  - injection H as <-. by apply authorized_none.
  - by apply configured_authorized in H.
Qed.

Lemma stays_at_resolve_branch repository git_ref commit checkout_remote path :
  stays_at (resolve_checkout_branch base64 oracle encode_resolution decode_resolution repository git_ref commit
    checkout_remote path token ssh_credentials).
Proof.
  unfold resolve_checkout_branch. cbv zeta. apply stays_at_bind; [apply stays_at_read_ref|]. intros [cached|]; [stays_at|].
  apply stays_at_bind_lift. intros environment Henvironment.
  apply stays_at_bind; [apply stays_at_ask_context, stays_at_capture; by apply branch_variables_authorized|].
  intros advertised. stays_at.
Qed.
Hint Resolve stays_at_resolve_branch : stays_at.

Lemma stays_at_checkout_branch repository git_ref commit checkout_remote run_dir :
  stays_at (cross_repository_checkout_branch base64 base64_url oracle encode_resolution decode_resolution repository git_ref
    commit checkout_remote token ssh_credentials run_dir).
Proof. unfold cross_repository_checkout_branch. stays_at. Qed.
End branch.

Lemma triple_guarded {A} directory (c : GitAct A) (Q : outcome string A → Environment → gset string → Prop) s :
  triple check (λ _ x, x = s) c Q → triple check (λ _ x, x = s) (guarded oracle directory c) Q.
Proof.
  intros Hc t l x Hx. destruct (Hc t l x Hx) as (added & s' & Ht & Hm & HQ). unfold guarded.
  destruct (c t l) as [[t1 l1] r]; cbn [fst snd] in *; subst.
  eexists (added ++ [_]), s'. rewrite app_assoc. split; [done|]. by rewrite monitor_app, Hm.
Qed.
End passes.
