(* ===== verification/CheckoutCredentials.v ===== *)
(** * Which credentials a checkout uses

    From its inputs to the trace of its effects: the built-in token stays with the
    repository of the run, and tokens for other repositories are either named by
    the workflow or granted. *)

From S2P Require Import Prelude RustStr RustText UnixPath OrdMap Yaml Expression Evaluate Instances Protocol.
From S2P Require Import Masking LogOutput Workflow Scheduler JobContext Traced JobEffects Actions GitObjects.
From S2P Require Import CheckoutInputs GitEffects Materialize Checkout CheckoutRun CheckoutSafety.

Section credentials.
Context (base64 base64_url shell_quote : string → string).
Context (process_home : option string).
Context (encode_resolution : CrossRepositoryCheckoutRefResolution → option string).
Context (decode_resolution : string → option CrossRepositoryCheckoutRefResolution).
Context (oracle : GitOracle).
Context {J : Type} (run : RunSpec J) (step_id source_repository_dir workspace run_dir : string) (timeout : option Z).
Context (inputs : Environment) (builtin : string) (repository : CheckoutRepository) (secrets : gset string).

(** The checkout uses the token of its inputs: it is of the repository of the run, or
    over SSH. *)
Definition uses_own_token : bool := cr_same_repository repository || negb (is_empty (default "" (inputs !! "ssh-key"))).

(** The [token] input leaves the choice to the agent, and the repository has the
    owner of the run's. *)
Definition may_ask : bool :=
  negb uses_own_token &&
  match inputs !! "token" with None => true | Some token => negb (is_empty token) && bool_decide (token = builtin) end &&
  eq_ignore_ascii_case (cr_owner repository) (rs_owner (run_repository run)).

(** The tokens that may be used without asking. *)
Definition own_tokens : gset string := if uses_own_token then {[""; builtin]} ∪ secrets else secrets.

Notation check := (check_credentials base64 may_ask (cr_owner repository) (cr_name repository)).
Notation Act := (Traced.Act git_answer Environment).

(** ** What the preparation yields *)

Definition ssh_agrees (credentials : option CheckoutSshCredentials) : Prop :=
  is_some credentials = negb (is_empty (default "" (inputs !! "ssh-key"))) ∧
  match credentials with Some credentials => plain_variables (Some (ssh_environment credentials)) | None => True end.

Lemma ssh_key_given strict user known_hosts key :
  checkout_ssh_inputs inputs secrets = Ok (strict, user, known_hosts, key) →
  is_some key = negb (is_empty (default "" (inputs !! "ssh-key"))).
Proof.
  unfold checkout_ssh_inputs, select_checkout_ssh_key. intros H. ok_inv.
  destruct (inputs !! "ssh-key") as [input|]; simplify_eq/=; [|by ok_inv]. unfold id in *.
  destruct (is_empty input); [by ok_inv|]. case_bool_decide; by ok_inv.
Qed.

Lemma ssh_credentials_yields environment :
  yields (checkout_ssh_credentials shell_quote oracle inputs secrets environment) ssh_agrees.
Proof.
  unfold checkout_ssh_credentials. eapply yields_bind; [apply yields_lift; intros a Ha; exact Ha|].
  intros [[[strict user] known_hosts] key] Hkey%ssh_key_given. unfold ssh_agrees.
  destruct key as [key|]; [|by apply yields_ret]. do 6 (apply yields_then; intros ?).
  apply yields_ret. rewrite <-Hkey. done.
Qed.

Lemma select_token_own token :
  uses_own_token = true → select_checkout_token (inputs !! "token") builtin secrets = Ok token → token ∈ own_tokens.
Proof.
  unfold own_tokens, select_checkout_token. intros ->. destruct (inputs !! "token") as [input|]; [|intros [= <-]; set_solver].
  destruct (is_empty input); [intros [= <-]; set_solver|]. repeat case_bool_decide; intros [= <-]; set_solver.
Qed.

Lemma select_access_own access :
  uses_own_token = false → select_cross_repository_checkout_access (inputs !! "token") builtin secrets = Ok access →
  (∀ token, access = ExplicitManagedToken token → token ∈ own_tokens) ∧
  (access = ManagedFallback → may_ask = eq_ignore_ascii_case (cr_owner repository) (rs_owner (run_repository run))).
Proof.
  unfold own_tokens, may_ask, select_cross_repository_checkout_access. intros ->.
  destruct (inputs !! "token") as [input|]; [|by intros [= <-]].
  destruct (is_empty input); [by intros [= <-]|]. repeat case_bool_decide; intros [= <-]; [by subst|].
  split; [by intros ? [= <-] | done].
Qed.

(** ** The snapshot of another repository *)

(** A program that may ask for tokens, and may use the one it returns. *)
Definition obtains {A : Type} (token_of : A → option string) (tokens : gset string) (c : Act A) : Prop :=
  triple check (λ _ x, x = tokens) c (λ r _ x, tokens ⊆ x ∧ ∀ a, r = Ok a → may_use x (token_of a)).

Lemma obtains_stays {A} (token_of : A → option string) tokens (c : Act A) :
  stays_at check tokens c → yields c (λ a, may_use tokens (token_of a)) → obtains token_of tokens c.
Proof.
  intros Hc Hy t l x Hx. destruct (Hc t l x Hx) as (added & x' & Ht & Hm & ->). exists added, tokens. split_and!; try done.
  intros a Ha. specialize (Hy t l). by rewrite Ha in Hy.
Qed.

Lemma obtains_weaken {A} (token_of : A → option string) tokens tokens' (c : Act A) :
  tokens ⊆ tokens' → obtains token_of tokens' c →
  triple check (λ _ x, x = tokens') c (λ r _ x, tokens ⊆ x ∧ ∀ a, r = Ok a → may_use x (token_of a)).
Proof. intros Hsub Hc. refine (triple_weaken check _ _ _ _ _ Hc _ _); [done|]. intros r l x [??]. split; [set_solver | done]. Qed.

Lemma obtains_bind {A B} (token_of : B → option string) tokens (c : Act A) (k : A → Act B) :
  stays_at check tokens c → (∀ a, obtains token_of tokens (k a)) → obtains token_of tokens (bind c k).
Proof. intros Hc Hk. apply (triple_stays_bind _ _ _ _ (λ _, True)); [done | apply yields_any | intros a _; apply Hk | by split..]. Qed.

Lemma obtains_fails {A} (token_of : A → option string) tokens (c : outcome string A) :
  is_ok c = false → obtains token_of tokens (lift c).
Proof. intros H. apply triple_lift. intros _ x ->. split; [done|]. by intros a ->. Qed.

Definition snapshot_token (found : string * string * option string) : option string := found.2.

Lemma finish_obtains tokens snapshot token :
  may_use tokens token → obtains snapshot_token tokens (finish_cross_repository_checkout oracle snapshot token).
Proof.
  intros Htoken. apply obtains_stays; [apply stays_at_finish|]. unfold finish_cross_repository_checkout.
  do 2 (apply yields_then; intros ?). by apply yields_ret.
Qed.

Section snapshot.
Context (git_ref : string).

Notation materialize := (materialize_checkout base64 base64_url oracle step_id run_dir repository git_ref).

Lemma materialize_stays tokens scope token : may_use tokens token → stays_at check tokens (materialize scope token).
Proof. intros H. by apply stays_at_materialize. Qed.

Lemma managed_obtains tokens error :
  may_ask = true →
  obtains snapshot_token tokens (materialize_with_managed_token base64 base64_url oracle step_id run_dir repository git_ref error).
Proof.
  intros Hmay. unfold materialize_with_managed_token.
  set (more := λ token : option string, match token with Some token => {[token]} ∪ tokens | None => tokens end).
  apply (triple_bind check _ _ _ (λ r _ x, ∃ token, r = Ok token ∧ x = more token)).
  { apply (Traced.triple_perform (answer := git_answer)). intros _ x token ->. exists (more token). split; [|by exists token].
    unfold check_credentials. rewrite Hmay, !bool_decide_true by done. done. }
  2-3: by intros; destruct_and?; naive_solver.
  intros cached. apply (triple_pre check (λ _ x, x = more cached)); [|by intros ? ? (? & [= <-] & ->)].
  assert (tokens ⊆ more cached) as Hmore by (destruct cached; set_solver). apply obtains_weaken; [done|].
  apply obtains_bind.
  { destruct cached as [token|]; [|apply stays_at_lift]. apply stays_at_bind; [|intros; apply stays_at_lift].
    apply stays_at_attempt, materialize_stays. cbn. set_solver. }
  assert (obtains snapshot_token (more cached)
    (run! token := ask_context ("checkout " +:+ repository_at repository git_ref +:+ " without anonymous access: " +:+ error)
        (perform oracle (GRequestToken Checkout (cr_owner repository) (cr_name repository) (is_some cached))) in
     run! snapshot := with_context ("checkout private repository " +:+ repository_at repository git_ref)
        (materialize CheckoutManaged (Some token)) in
     finish_cross_repository_checkout oracle snapshot (Some token))) as Hask.
  { apply (triple_bind check _ _ _ (λ r _ x, more cached ⊆ x ∧ ∀ token, r = Ok token → token ∈ x)).
    - apply triple_with_context.
      apply (triple_bind check _ _ _ (λ r _ x, ∃ answer, r = Ok answer ∧ more cached ⊆ x ∧ ∀ token, answer = Got token → token ∈ x)).
      + apply (Traced.triple_perform (answer := git_answer)). intros _ x answer ->.
        exists (match answer with Got token => {[token]} ∪ more cached | Failed _ => more cached end). split.
        * unfold check_credentials. rewrite Hmay, !bool_decide_true by done. done.
        * exists answer. split_and!; [done | destruct answer; set_solver | intros token ->; set_solver].
      + intros answer. apply triple_lift. intros _ x (? & [= <-] & Hx & Ht). destruct answer; cbn; split; try done.
        intros token [= <-]. by apply Ht.
      + by intros ? ? ? (? & ? & _).
      + by intros ? ? (? & ? & _).
    - intros token t l x (Hx & Ht). specialize (Ht token eq_refl).
      apply (obtains_weaken snapshot_token (more cached) x); [done | | done].
      apply obtains_bind; [by apply stays_at_with_context, materialize_stays|]. intros snapshot. by apply finish_obtains.
    - intros e _ x [? _]. by split.
    - intros _ x [? _]. by split. }
  intros first. destruct cached as [token|], first as [[snapshot|e|]|]; try exact Hask; try by apply obtains_fails.
  apply finish_obtains. cbn. set_solver.
Qed.

Lemma snapshot_obtains tokens access :
  own_tokens ⊆ tokens →
  (∀ token, access = ExplicitManagedToken token → token ∈ own_tokens) →
  (access = ManagedFallback → may_ask = eq_ignore_ascii_case (cr_owner repository) (rs_owner (run_repository run))) →
  obtains snapshot_token tokens
    (materialize_cross_repository_checkout_snapshot base64 base64_url oracle run step_id run_dir repository git_ref access).
Proof.
  intros Hown Hexplicit Hmay. unfold materialize_cross_repository_checkout_snapshot.
  destruct access as [| |token].
  3: { assert (token ∈ tokens) by auto.
       apply obtains_bind; [by apply stays_at_with_context, materialize_stays|]. intros. by apply finish_obtains. }
  all: apply obtains_bind; [by apply stays_at_attempt, materialize_stays|]; intros [snapshot|e|];
    [by apply finish_obtains | | by apply obtains_fails].
  - by apply obtains_fails.
  - rewrite bool_decide_false by done. destruct (eq_ignore_ascii_case _ _) eqn:Howner; cbn [negb].
    + apply managed_obtains. auto.
    + by apply obtains_fails.
Qed.
End snapshot.

(** ** The whole checkout *)

Notation fine := (λ (_ : outcome string Environment) (_ : Environment) (_ : gset string), True).

Lemma triple_any_bind {A} tokens (c : Act A) (k : A → Act Environment) (R : A → Prop) :
  stays_at check tokens c → yields c R → (∀ a, R a → triple check (λ _ x, x = tokens) (k a) fine) →
  triple check (λ _ x, x = tokens) (bind c k) fine.
Proof. intros Hc HR Hk. by apply (triple_stays_bind _ _ _ _ R). Qed.

Lemma triple_any_then {A} tokens (c : Act A) (k : A → Act Environment) :
  stays_at check tokens c → (∀ a, triple check (λ _ x, x = tokens) (k a) fine) →
  triple check (λ _ x, x = tokens) (bind c k) fine.
Proof. intros Hc Hk. apply (triple_any_bind _ _ _ (λ _, True)); [done | apply yields_any | by intros]. Qed.

Lemma other_repository_obtains tokens requested_ref checkout_remote ssh_credentials access :
  own_tokens ⊆ tokens → ssh_agrees ssh_credentials →
  (∀ access', access = Some access' → uses_own_token = false ∧
     select_cross_repository_checkout_access (inputs !! "token") builtin secrets = Ok access') →
  obtains se_managed_token tokens
    (select_other_repository base64 base64_url encode_resolution decode_resolution oracle run step_id run_dir repository
       requested_ref checkout_remote ssh_credentials access).
Proof.
  intros Hown [_ Hplain] Haccess. unfold select_other_repository.
  apply obtains_bind; [apply stays_at_lift|]. intros git_ref.
  apply (triple_bind check _ _ _ (λ r _ x, tokens ⊆ x ∧ ∀ a, r = Ok a → may_use x (snapshot_token a))).
  2: { intros [[commit snapshot] token] t l x (Hx & Ht). specialize (Ht _ eq_refl). cbn in Ht.
       apply (obtains_weaken se_managed_token tokens x); [done | | done].
       apply obtains_stays; [apply stays_at_bind; [by apply stays_at_checkout_branch | intros; apply stays_at_lift]|].
       apply yields_then. intros branch. by apply yields_ret. }
  2-3: by intros; destruct_and?; split.
  destruct ssh_credentials as [credentials|].
  - apply obtains_bind; [apply stays_at_with_context; by apply stays_at_materialize|]. intros snapshot.
    apply obtains_bind; [apply stays_at_finish|]. intros [[commit found] token]. apply obtains_stays; [apply stays_at_lift|].
    by apply yields_ret.
  - destruct access as [access|]; [|by apply (obtains_fails snapshot_token _ Panic)].
    destruct (Haccess access eq_refl) as [Huses Hselect]. destruct (select_access_own access Huses Hselect) as [Hexplicit Hmay].
    exact (snapshot_obtains git_ref tokens access Hown Hexplicit Hmay).
Qed.

(** The configurations of the checkout and of the job carry the selected token. *)
Lemma checkout_environment_authorized tokens environment options token ssh_credentials environment' :
  may_use tokens token →
  configure_checkout_environment base64 environment options (default "" token) ssh_credentials = Ok environment' →
  authorized base64 tokens environment'.
Proof.
  intros Htoken. unfold configure_checkout_environment. intros (configured & Hc & [= <-])%obind_Ok.
  assert (authorized base64 tokens configured) as Ha by (by eapply configured_authorized).
  assert (authorized base64 tokens (configure_checkout_ssh configured (ssh_command <$> ssh_credentials))) as Hssh.
  { intros header. unfold configure_checkout_ssh. destruct (ssh_command <$> ssh_credentials).
    - rewrite credentials_insert, credentials_delete by done. apply Ha.
    - rewrite credentials_delete by done. apply Ha. }
  destruct (op_lfs options); intros header.
  - rewrite credentials_delete by done. apply Hssh.
  - rewrite credentials_insert by done. apply Hssh.
Qed.

(** From the selected commit and token to the end. *)
Definition rest_of_checkout (environment : Environment) (directory : string) (options : CheckoutOptions) (selection : Selection)
    (checkout_token : string) (ssh_credentials : option CheckoutSshCredentials) (checkout_remote : string)
    (checkout_environment : Environment) : Act Environment :=
  run! checkout_environment :=
    lift (configure_checkout_environment base64 checkout_environment options checkout_token ssh_credentials) in
  run! persisted := lift (persist_checkout_credentials base64 environment options checkout_token ssh_credentials) in
  set_variables persisted ;>
  check_out oracle step_id directory checkout_environment timeout run (cr_same_repository repository) checkout_remote
    selection options.

Lemma rest_passes tokens environment directory options selection token ssh_credentials checkout_remote environment' :
  may_use tokens token →
  stays_at check tokens
    (rest_of_checkout environment directory options selection (default "" token) ssh_credentials checkout_remote environment').
Proof.
  intros Htoken. apply stays_at_bind_lift. intros checkout_environment Henv.
  apply stays_at_bind_lift. intros persisted _. apply stays_at_bind; [apply stays_at_modify|]. intros _.
  by eapply stays_at_check_out, checkout_environment_authorized.
Qed.

Lemma finish_passes tokens environment safe_directory directory options selection token ssh_credentials checkout_remote :
  may_use tokens token →
  triple check (λ _ x, x = tokens)
    (configure_checkout_safe_directory process_home oracle environment safe_directory run_dir (op_set_safe_directory options)
      (rest_of_checkout environment directory options selection (default "" token) ssh_credentials checkout_remote)) fine.
Proof.
  intros Htoken.
  assert (∀ environment', triple check (λ _ x, x = tokens)
    (rest_of_checkout environment directory options selection (default "" token) ssh_credentials checkout_remote environment') fine)
    as Hk by (intros; by eapply triple_weaken; [by apply rest_passes | |]).
  unfold configure_checkout_safe_directory. destruct (op_set_safe_directory options); cbn [negb]; [|apply Hk].
  apply triple_any_then; [by apply stays_at_ask_context, stays_at_local|]. intros _.
  apply triple_any_then; [by apply stays_at_local|]. intros uuid.
  apply triple_any_then; [by apply stays_at_ask_context, stays_at_local|]. intros _.
  apply triple_guarded, triple_any_then; [apply stays_at_add_safe_directory | apply Hk].
Qed.

(** The rest once the preparation is done: the commit, the token and the commands. *)
Lemma selected_passes environment ssh_credentials access directory safe_directory options checkout_remote :
  ssh_agrees ssh_credentials →
  (∀ access', access = Some access' → uses_own_token = false ∧
     select_cross_repository_checkout_access (inputs !! "token") builtin secrets = Ok access') →
  triple check (λ _ x, x = own_tokens)
    (run! selection :=
       if cr_same_repository repository
       then lift (select_snapshot run source_repository_dir (inputs !! "ref") (trim (default "" (inputs !! "ref"))))
       else select_other_repository base64 base64_url encode_resolution decode_resolution oracle run step_id run_dir repository
              (trim (default "" (inputs !! "ref"))) checkout_remote ssh_credentials access in
     run! checkout_token := lift (if cr_same_repository repository || is_some ssh_credentials
       then select_checkout_token (inputs !! "token") builtin secrets
       else Ok (default "" (se_managed_token selection))) in
     configure_checkout_safe_directory process_home oracle environment safe_directory run_dir (op_set_safe_directory options)
       (rest_of_checkout environment directory options selection checkout_token ssh_credentials checkout_remote)) fine.
Proof.
  intros Hssh Haccess.
  assert (uses_own_token = cr_same_repository repository || is_some ssh_credentials) as Huses.
  { unfold uses_own_token. destruct Hssh as [-> _]. done. }
  apply (triple_bind check _ _ _ (λ r _ x, own_tokens ⊆ x ∧ ∀ selection, r = Ok selection →
    cr_same_repository repository = false → may_use x (se_managed_token selection))); [| | done..].
  - destruct (cr_same_repository repository) eqn:Hsame.
    + apply triple_lift. by intros _ x ->.
    + refine (triple_weaken check _ _ _ _ _ (other_repository_obtains own_tokens _ _ _ _ _ Hssh Haccess) _ _); [done..|].
      intros r _ x [? H]. split; [done|]. auto.
  - intros selection t l x [Hown Hselection]. rewrite <-Huses. destruct uses_own_token eqn:Hu.
    + destruct (select_checkout_token (inputs !! "token") builtin secrets) as [token| |] eqn:Htoken; try by eexists [], x; rewrite app_nil_r.
      apply (finish_passes x environment safe_directory directory options selection (Some token)); [|done].
      apply Hown. by apply select_token_own.
    + apply (finish_passes x environment safe_directory directory options selection (se_managed_token selection)); [|done].
      apply Hselection; [done|]. by destruct (cr_same_repository repository).
Qed.

(** C13: A checkout uses no credentials but its own.  Whatever git, the file system
    and the control plane answer, and however the step ends, every command of git
    carries, in the configuration git reads from its variables, only authorization
    headers of tokens that may be used - but for those whose subcommand contacts no
    remote ([stays_local]: they read or configure a repository on disk, and before
    the step has configured itself still see what an earlier step left).  Those
    tokens are the built-in token and the secrets of the workflow for the repository
    of the run or a checkout over SSH, only the secrets otherwise - and the tokens
    the control plane hands out, which are asked for exactly this repository, only
    when the workflow named no token of its own and the owner is that of the run. *)
Theorem checkouts_use_authorized_credentials t l :
  ∃ tokens, monitor check own_tokens (drop (length t)
      (execute_checkout_step_with_repository base64 base64_url shell_quote process_home encode_resolution decode_resolution
         oracle run step_id source_repository_dir workspace run_dir timeout inputs builtin repository secrets t l).1.1)
    = Some tokens.
Proof.
  match goal with |- context[(?c t l).1.1] => enough (triple check (λ _ x, x = own_tokens) c fine) as H end.
  { by destruct (triple_accepts check own_tokens _ fine t l H) as (tokens & Ht & _); exists tokens. }
  unfold execute_checkout_step_with_repository. cbv zeta.
  apply triple_any_then; [apply stays_at_get|]. intros environment.
  apply (triple_any_bind _ _ _ ssh_agrees);
    [apply stays_at_with_context, stays_at_ssh_credentials | apply yields_with_context, ssh_credentials_yields|].
  intros ssh_credentials Hssh.
  apply (triple_any_bind _ _ _ (λ access, ∀ access', access = Some access' → uses_own_token = false ∧
    select_cross_repository_checkout_access (inputs !! "token") builtin secrets = Ok access')); [apply stays_at_lift | |].
  { unfold uses_own_token. destruct Hssh as [<- _]. apply yields_lift. intros access.
    destruct (_ || _); [by intros [= <-]|]. intros (a & Ha & ->)%omap_ok_Ok access' [= <-]. done. }
  intros access Haccess. apply triple_any_then; [apply stays_at_lift|]. intros _.
  apply triple_any_then; [apply stays_at_lift|]. intros directory.
  apply triple_any_then; [apply stays_at_validate_directory|]. intros safe_directory.
  apply triple_any_then; [apply stays_at_lift|]. intros options.
  by apply selected_passes.
Qed.
End credentials.
