(* ===== verification/CheckoutProps.v ===== *)
(** * What a checkout leaves

    When the step succeeds: the commit it checked out is the one it selected, git
    said so last, and the directory is one of the workspace. *)

From S2P Require Import Prelude RustStr RustText UnixPath OrdMap Yaml Expression Evaluate Instances Protocol.
From S2P Require Import Masking LogOutput Workflow Scheduler JobContext Traced JobEffects Actions GitObjects.
From S2P Require Import CheckoutInputs GitEffects Materialize Checkout CheckoutRun.

(** ** Paths below a directory *)

Definition is_normal (component : Component) : bool := match component with Normal _ => true | _ => false end.

Lemma split_app c a b : split c (a +:+ String c b) = split c a ++ split c b.
Proof.
  induction a as [|x a IH]; [rewrite sapp_nil_l; cbn [split]; by rewrite bool_decide_true|]. rewrite sapp_cons. cbn [split]. rewrite IH.
  case_bool_decide; [done|]. destruct (split c a) as [|p ps] eqn:E; [by apply split_nonempty in E | done].
Qed.

Lemma enumerate_from_app {A} n (a b : list A) :
  enumerate_from n (a ++ b) = enumerate_from n a ++ enumerate_from (n + length a) b.
Proof.
  revert n. induction a as [|x a IH]; intros n; cbn; [by rewrite Nat.add_0_r|]. by rewrite IH, Nat.add_succ_r.
Qed.

(** Components that are not the first of a relative path: a dot is skipped. *)
Lemma part_components_later absolute n part :
  0 < n → part_components absolute (n, part) =
  if bool_decide (part = "..") then [ParentDir] else if is_empty part || bool_decide (part = ".") then [] else [Normal part].
Proof.
  intros Hn. unfold part_components. destruct part as [|c part]; [done|]. cbn [is_empty orb].
  rewrite (bool_decide_false (n = 0)) by lia. cbn [andb].
  destruct (decide (String c part = ".")) as [->|Hdot]; [done|].
  by rewrite !(bool_decide_false (String c part = ".") Hdot).
Qed.

Definition later_components (parts : list string) : list Component :=
  parts ≫= λ part, if bool_decide (part = "..") then [ParentDir]
                   else if is_empty part || bool_decide (part = ".") then [] else [Normal part].

Lemma enumerate_later absolute n parts :
  0 < n → enumerate_from n parts ≫= part_components absolute = later_components parts.
Proof.
  revert n. induction parts as [|part parts IH]; intros n Hn; [done|].
  cbn [enumerate_from mbind list_bind]. rewrite part_components_later, IH by lia. done.
Qed.

(** A relative path that does not climb stays normal below a directory. *)
Lemma later_components_normal path :
  is_absolute path = false → ParentDir ∉ components path → Forall (λ c, is_normal c = true) (later_components (split "/" path)).
Proof.
  unfold components. intros -> Hup. cbn [app] in Hup. revert Hup. generalize 0 as n, (split "/" path) as parts.
  intros n parts. revert n. induction parts as [|part parts IH]; intros n Hup; [constructor|].
  cbn [enumerate_from mbind list_bind] in Hup. apply not_elem_of_app in Hup as [Hpart Hparts].
  apply Forall_app. split; [|exact (IH _ Hparts)]. unfold part_components in Hpart.
  destruct part as [|c part]; [by constructor|]. cbn [is_empty orb] in *.
  repeat case_bool_decide; repeat constructor; try congruence; exfalso; apply Hpart; by left.
Qed.

Lemma components_split base rest :
  base ≠ "" → components (base +:+ String "/" rest) = components base ++ later_components (split "/" rest).
Proof.
  intros Hbase. unfold components. rewrite split_app, enumerate_from_app, bind_app.
  assert (is_absolute (base +:+ String "/" rest) = is_absolute base) as ->.
  { unfold is_absolute. destruct base as [|c base]; [done|]. rewrite sapp_cons. unfold starts_with. cbn [strip_prefix]. by case_bool_decide. }
  rewrite (enumerate_later _ (0 + length _)); [by rewrite app_assoc|].
  destruct (split "/" base) eqn:E; [by apply split_nonempty in E | cbn; lia].
Qed.

Lemma components_slash base : base ≠ "" → components (base +:+ "/") = components base.
Proof. intros H. rewrite components_split by done. cbn. by rewrite app_nil_r. Qed.

Lemma ends_with_slash s : ends_with "/" s = true → ∃ before, s = before +:+ "/".
Proof.
  unfold ends_with, strip_suffix. destruct (strip_prefix (srev "/") (srev s)) as [r|] eqn:E; [|done]. intros _.
  apply strip_prefix_Some in E. exists (srev r). rewrite <-(srev_involutive s), E, srev_app. done.
Qed.

Lemma components_join base path :
  base ≠ "" → is_absolute path = false →
  components (join base path) = components base ++ later_components (split "/" path).
Proof.
  intros Hbase Hpath. unfold join. rewrite Hpath.
  destruct (is_empty base) eqn:Hempty; [by destruct base|]. cbn [orb].
  destruct (ends_with "/" base) eqn:Hend; [|by apply components_split].
  apply ends_with_slash in Hend as [before ->]. rewrite sapp_assoc. change ("/" +:+ path) with (String "/" path).
  destruct (decide (before = "")) as [->|Hbefore].
  - rewrite !sapp_nil_l. unfold components. cbn [is_absolute]. change (is_absolute (String "/" path)) with true.
    change (split "/" (String "/" path)) with ("" :: split "/" path). cbn [enumerate_from mbind list_bind].
    rewrite enumerate_later by lia. done.
  - by rewrite components_split, components_slash by done.
Qed.

(** ** Programs, one part after the other *)

Section checkout.
Context (base64 base64_url shell_quote : string → string).
Context (process_home : option string).
Context (encode_resolution : CrossRepositoryCheckoutRefResolution → option string).
Context (decode_resolution : string → option CrossRepositoryCheckoutRefResolution).
Context (oracle : GitOracle).
Context {J : Type} (run : RunSpec J) (step_id source_repository_dir workspace run_dir : string) (timeout : option Z).

Notation Act := (Traced.Act git_answer Environment).

(** The entry in which git names the commit of HEAD. *)
Definition says_head (directory sha : string) (entry : GitEntry) : Prop :=
  ∃ variables output,
    entry = mkEntry (answer := git_answer) (GOutput (mkGit ["rev-parse"; "HEAD"] (Some directory) variables)) (Got output) ∧
    out_success output = true ∧ eq_ignore_ascii_case (trimmed_stdout output) sha = true.

Lemma ask_context_runs {A} message (c : Act (Answer A)) t l t' l' a :
  ask_context message c t l = (t', l', Ok a) → c t l = (t', l', Ok (Got a)).
Proof. by intros H%with_context_runs%ask_runs. Qed.

Lemma verify_head_runs directory variables sha t l t' l' a :
  verify_head oracle directory variables sha t l = (t', l', Ok a) →
  ∃ entry, t' = t ++ [entry] ∧ says_head directory sha entry.
Proof.
  unfold verify_head, output_checkout, output_of. intros H. runs H.
  apply ask_context_runs, (perform_runs (answer := git_answer) oracle (GOutput _)) in H0 as [-> ->].
  destruct (negb (out_success a0) || _) eqn:Hsays; [done|]. injection H as <- <-.
  apply orb_false_iff in Hsays as [Hs%negb_false_iff Hh%negb_false_iff].
  eexists. split; [done|]. eexists _, a0. split; [|done]. unfold at_checkout, with_variables. cbn. done.
Qed.

Lemma check_out_runs same_repository directory variables checkout_remote selection options t l t' l' outputs :
  check_out oracle step_id directory variables timeout run same_repository checkout_remote selection options t l
    = (t', l', Ok outputs) →
  outputs !! "commit" = Some (se_expected_sha selection) ∧
  ∃ before entry, t' = before ++ [entry] ∧ says_head directory (se_expected_sha selection) entry.
Proof.
  unfold check_out. intros H. do 11 runs H. injection H as <- <- <-.
  apply verify_head_runs in H10 as (entry & -> & Hsays).
  split; [by rewrite lookup_insert_ne, lookup_singleton_eq by done | eauto].
Qed.

(** The temporary home is removed last. *)
Definition then_removed (t t' : list GitEntry) : Prop :=
  t' = t ∨ ∃ home answer, t' = t ++ [mkEntry (answer := git_answer) (GRemoveTree home) answer].

Lemma safe_directory_runs {A} environment directory enabled (k : Environment → Act A) t l t' l' a :
  configure_checkout_safe_directory process_home oracle environment directory run_dir enabled k t l = (t', l', Ok a) →
  ∃ environment' t0 l0 t1, k environment' t0 l0 = (t1, l', Ok a) ∧ then_removed t1 t'.
Proof.
  unfold configure_checkout_safe_directory. destruct enabled; cbn [negb].
  - intros H. runs H. runs H. runs H. unfold guarded in H.
    destruct (bind _ _ _ _) as [[t4 l4] r] eqn:Hk. cbn in H. injection H as <- <- ->. runs Hk.
    exists a3, t3, l3, t4. split; [done|]. right. eauto.
  - intros H. exists environment, t, l, t'. split; [done | by left].
Qed.

(** ** The selected commit *)

Lemma finish_yields snapshot token :
  yields (finish_cross_repository_checkout oracle snapshot token) (λ found, validate_remote_commit found.1.1 = Ok tt).
Proof.
  unfold finish_cross_repository_checkout. apply yields_then. intros commit.
  apply (yields_bind _ _ (λ _, validate_remote_commit commit = Ok tt)); [by apply yields_lift; intros []|]. intros [] Hc. by apply yields_ret.
Qed.

Lemma snapshot_yields repository git_ref access :
  yields (materialize_cross_repository_checkout_snapshot base64 base64_url oracle run step_id run_dir repository git_ref access)
    (λ found, validate_remote_commit found.1.1 = Ok tt).
Proof.
  unfold materialize_cross_repository_checkout_snapshot, materialize_with_managed_token.
  repeat first [apply finish_yields | apply yields_then; intros ? | apply yields_lift; by intros | case_match].
Qed.

Lemma other_repository_yields repository requested_ref checkout_remote ssh_credentials access :
  yields (select_other_repository base64 base64_url encode_resolution decode_resolution oracle run step_id run_dir repository
            requested_ref checkout_remote ssh_credentials access)
    (λ selection, validate_remote_commit (se_expected_sha selection) = Ok tt).
Proof.
  unfold select_other_repository. apply yields_then. intros git_ref.
  apply (yields_bind _ _ (λ found, validate_remote_commit found.1.1 = Ok tt)).
  - case_match; [|apply yields_then; intros; apply snapshot_yields]. apply yields_then. intros snapshot.
    eapply yields_bind; [apply finish_yields|]. intros [[commit found] token] Hc. by apply yields_ret.
  - intros [[commit snapshot] token] Hc. apply yields_then. intros branch. by apply yields_ret.
Qed.

Lemma select_snapshot_commit ref_input requested_ref selection :
  select_snapshot run source_repository_dir ref_input requested_ref = Ok selection →
  ∃ target, checkout_target run requested_ref = Some target ∧ se_expected_sha selection = target_commit run target.
Proof.
  unfold select_snapshot. intros (target & Ht & H)%obind_Ok. apply obind_Ok in H as (branch & _ & [= <-]).
  destruct (checkout_target run requested_ref) as [t|]; [|done]. injection Ht as ->. eauto.
Qed.

(** A directory of the workspace. *)
Lemma checkout_directory_below path directory :
  workspace ≠ "" → checkout_directory workspace path = Ok directory →
  ∃ names, components directory = components workspace ++ names ∧ Forall (λ c, is_normal c = true) names.
Proof.
  intros Hworkspace. unfold checkout_directory. destruct (is_empty path || _).
  { intros [= <-]. exists []. by rewrite app_nil_r. }
  intros (_ & [Habs Hup]%reject_if_Ok%orb_false_iff & [= <-])%obind_Ok.
  exists (later_components (split "/" path)). split; [by apply components_join|].
  apply later_components_normal; [done|]. intros Hin.
  assert (existsb (λ component, bool_decide (component = ParentDir) || bool_decide (component = RootDir)) (components path) = true)
    as Hex by (apply existsb_exists; exists ParentDir; split; [by apply list_elem_of_In | done]).
  by rewrite Hex in Hup.
Qed.

(** C12: A checkout that succeeds leaves the commit it pinned.  Its output [commit] is,
    for the repository of the run, the commit of the pull request - merge, head or
    base - that the input [ref] names, and otherwise a full object id; the directory is
    the workspace or below it, by ordinary names only; and the last thing that happened,
    but for the removal of the temporary home, is that git named exactly that commit
    as HEAD of that directory. *)
Theorem checkout_pins_the_commit inputs builtin repository secrets t l t' l' outputs :
  workspace ≠ "" →
  execute_checkout_step_with_repository base64 base64_url shell_quote process_home encode_resolution decode_resolution
    oracle run step_id source_repository_dir workspace run_dir timeout inputs builtin repository secrets t l
    = (t', l', Ok outputs) →
  ∃ sha directory names before entry,
    outputs !! "commit" = Some sha ∧
    (if cr_same_repository repository
     then ∃ target, checkout_target run (trim (default "" (inputs !! "ref"))) = Some target ∧ sha = target_commit run target
     else validate_remote_commit sha = Ok tt) ∧
    (components directory = components workspace ++ names ∧ Forall (λ c, is_normal c = true) names) ∧
    says_head directory sha entry ∧ then_removed (before ++ [entry]) t'.
Proof.
  intros Hworkspace H. unfold execute_checkout_step_with_repository in H. do 9 runs H. cbv zeta in *.
  apply safe_directory_runs in H as (environment & t0' & l0' & t1' & Hrest & Hremoved). do 3 runs Hrest.
  apply check_out_runs in Hrest as (Hcommit & before & entry & -> & Hsays).
  apply lift_runs in H4 as (_ & _ & Hdirectory). destruct (checkout_directory_below _ _ Hworkspace Hdirectory) as (names & Hnames).
  exists (se_expected_sha a6), a3, names, before, entry. split_and!; try done; [|apply Hnames..].
  destruct (cr_same_repository repository).
  - apply lift_runs in H7 as (_ & _ & Hselect). by eapply select_snapshot_commit.
  - exact (yields_Ok _ _ _ _ _ _ _ (other_repository_yields _ _ _ _ _) H7).
Qed.
End checkout.

(** ** A checkout of the merge commit *)

Definition demo_commit : string := "0123456789abcdef0123456789abcdef01234567".

Definition demo_checkout_run : RunSpec unit :=
  mkRun unit 7%Z "w" 1%Z 0%Z (mkRepository "octo" "app" "https://github.com/octo/app.git")
    (mkPullRequest 12%Z "opened" "h" "b" demo_commit "refs/pull/12/merge" "topic" "main")
    None tt "t" None "2022-11-28" false None ∅ ∅.

Definition demo_checkout_repository : CheckoutRepository :=
  mkCheckoutRepository "octo" "app" "https://github.com/octo/app.git" true.

(** No file is there yet, HEAD is detached, and git succeeds otherwise. *)
Definition demo_git_oracle : GitOracle := λ t e,
  match e with
  | GUuid => "u"
  | GRun _ _ _ => Exited 0
  | GOutput command =>
      Got (mkOutput (negb (bool_decide ("symbolic-ref" ∈ git_arguments command))) (Some 0%Z) (demo_commit +:+ line_end) "")
  | GExists _ => Got false
  | GCanonicalize path => Got path
  | GLength _ | GFileType _ | GReadFile _ | GCopy _ _ => NotFound
  | GIsFile _ => false
  | GCachedToken _ _ _ => None
  | GLock _ | GUnlock _ => tt
  | GReadDirectory _ => Got []
  | GCapture _ | GRequestToken _ _ _ _ => Got ""
  | GSourceToken _ => Got None
  | GLog _ _ _ | GWriteFile _ _ | GWritePrivate _ _ | GRestrict _ | GRename _ _ | GRemoveFile _ | GRemoveTree _
  | GCreateDirectory _ | GCreateDirectories _ | GWithin _ _ => Got tt
  end.

Definition demo_inputs : Environment := {["path" := "code"]}.

Definition demo_checkout : list GitEntry * Environment * outcome string Environment :=
  execute_checkout_step_with_repository id id id (Some "/home") (λ _, None) (λ _, None) demo_git_oracle demo_checkout_run
    "step" "/source" "/work" "/run" None demo_inputs "token" demo_checkout_repository ∅ [] ∅.

Definition demo_outputs : Environment := match demo_checkout.2 with Ok outputs => outputs | _ => ∅ end.

Example demo_checkout_succeeds : is_ok demo_checkout.2 = true.
Proof. by vm_compute. Qed.

Example demo_checkout_ref : demo_outputs !! "ref" = Some "refs/pull/12/merge".
Proof. by vm_compute. Qed.

Lemma checkout_pins_the_commit_witness :
  ∃ sha directory names before entry,
    demo_outputs !! "commit" = Some sha ∧
    (if cr_same_repository demo_checkout_repository
     then ∃ target, checkout_target demo_checkout_run (trim (default "" (demo_inputs !! "ref"))) = Some target ∧
                    sha = target_commit demo_checkout_run target
     else validate_remote_commit sha = Ok tt) ∧
    (components directory = components "/work" ++ names ∧ Forall (λ c, is_normal c = true) names) ∧
    says_head directory sha entry ∧ then_removed (before ++ [entry]) demo_checkout.1.1.
Proof.
  apply (checkout_pins_the_commit id id id (Some "/home") (λ _, None) (λ _, None) demo_git_oracle demo_checkout_run
    "step" "/source" "/work" "/run" None demo_inputs "token" demo_checkout_repository ∅ [] ∅
    demo_checkout.1.1 demo_checkout.1.2 demo_outputs); [done|].
  assert (is_ok demo_checkout.2 = true) as H by (by vm_compute). unfold demo_outputs. fold demo_checkout.
  destruct demo_checkout as [[t l] [outputs|e|]]; [done | by vm_compute in H..].
Defined.
