(* ===== verification/Catalog.v ===== *)
(** * The catalog of reusable workflows (crates/gitzero-agent, executor.rs)

    [resolve_reusable_workflow_catalog]: from the workflows of the repository, the
    workflows of other repositories that the ones to run call, directly or not;
    and the identities that their jobs report. *)

From S2P Require Import Prelude RustStr UnixPath OrdMap Yaml Expression Evaluate Instances Workflow Compile.
From S2P Require Import Reusable Expansion Linking RustText Protocol JobContext Actions GitObjects.

Inductive ReusableWorkflowOrigin := OriginLocal | OriginRemote (source : ActionRepositorySource).

Section data.
Context `{VL : ValueLib}.

Record ReusableWorkflowSource := mkWorkflowSource {
  ws_workflow : Workflow;
  ws_origin : ReusableWorkflowOrigin;
  ws_identity : PlannedWorkflowIdentity;
}.

Record ReusableWorkflowCatalog := mkCatalog {
  ca_workflows : gmap string Workflow;
  ca_identities : gmap string PlannedWorkflowIdentity;
}.
End data.

(** ** Identities *)

Definition run_repository_name {J : Type} (run : RunSpec J) : string :=
  rs_owner (run_repository run) +:+ "/" +:+ rs_name (run_repository run).

Definition local_workflow_identity {J : Type} (run : RunSpec J) (path : string) : PlannedWorkflowIdentity := {|
  id_workflow_ref := run_repository_name run +:+ "/" +:+ path +:+ "@" +:+ prs_execution_ref (run_pull_request run);
  id_workflow_sha := prs_merge_sha (run_pull_request run);
  id_workflow_repository := run_repository_name run;
  id_workflow_file_path := path;
|}.

Definition remote_workflow_identity (reference : RemoteReusableWorkflowReference) (source : ActionRepositorySource)
    (canonical_ref : string) : PlannedWorkflowIdentity := {|
  id_workflow_ref := rw_owner reference +:+ "/" +:+ rw_repository reference +:+ "/" +:+ rw_path reference +:+ "@" +:+
                     canonical_ref;
  id_workflow_sha := src_git_ref source;
  id_workflow_repository := rw_owner reference +:+ "/" +:+ rw_repository reference;
  id_workflow_file_path := rw_path reference;
|}.

(** ** References *)

Definition local_reusable_reference_path (source : string) : option (outcome string string) :=
  (λ path,
    if is_workflow_path path then Ok (replace_byte "\" "/" path)
    else Err ("reusable workflow path '" +:+ source +:+ "' must name a file directly in .github/workflows"))
  <$> local_reference source.

Section self_repository.
Context `{VL : ValueLib}.

(** The actions a workflow names within its own repository. *)
Fixpoint resolve_workflow_step_self_repository_actions (source : ActionRepositorySource) (step : Step) :
    outcome string Step :=
  let? uses :=
    match s_uses step with
    | Some action =>
        if starts_with "$/" action then
          let? reference := parse_reference action in
          match reference with
          | SelfRepository path => Ok (Some (canonical_reference source path))
          | Local _ | Remote _ _ _ _ => Panic
          end
        else Ok (Some action)
    | None => Ok None
    end in
  let? parallel :=
    match s_parallel step with
    | Some children =>
        let? children := traverse (resolve_workflow_step_self_repository_actions source) children in
        Ok (Some children)
    | None => Ok None
    end in
  Ok (mkStep (s_id step) (s_name step) (s_run step) uses (s_shell step) (s_working_directory step) (s_env step)
        (s_with step) (s_condition step) (s_continue_on_error step) (s_timeout_minutes step) (s_background step)
        (s_wait step) (s_cancel step) parallel (s_extra step)).

Definition resolve_workflow_self_repository_actions (workflow : Workflow) (source : ActionRepositorySource) :
    outcome string Workflow :=
  let? jobs := traverse (λ '(job_id, job),
    let? steps := traverse (resolve_workflow_step_self_repository_actions source) (j_steps job) in
    Ok (job_id, job <| j_steps := steps |>)) (w_jobs workflow) in
  Ok (workflow <| w_jobs := jobs |>).
End self_repository.

(** ** Loading *)

(** What loading asks of git, the file system and the parser. *)
Class RemoteLib `{VL : ValueLib} := {
  materialize_remote_repository : string → string → string → string → outcome string string;
      (** owner, repository, ref and URL to the directory of a checkout *)
  ensure_within : string → string → outcome string unit;
  read_to_string : string → outcome string string;
  parse_workflow : string → outcome string Workflow;
  git_head : string → outcome string string;
  cached_canonical_ref : string → string → string → outcome string (option string);
}.

Section catalog.
Context `{RL : RemoteLib} {J : Type} (run : RunSpec J).

Definition load_remote_reusable_workflow (reference : RemoteReusableWorkflowReference) :
    outcome string (Workflow * ActionRepositorySource * string) :=
  let same_repository := eq_ignore_ascii_case (rw_owner reference) (rs_owner (run_repository run))
                         && eq_ignore_ascii_case (rw_repository reference) (rs_name (run_repository run)) in
  let remote := if same_repository then rs_clone_url (run_repository run)
                else "https://github.com/" +:+ rw_owner reference +:+ "/" +:+ rw_repository reference +:+ ".git" in
  let? checkout := materialize_remote_repository (rw_owner reference) (rw_repository reference)
                     (rw_git_ref reference) remote in
  let path := join checkout (rw_path reference) in
  ensure_within checkout path ;?
  let? source := map_err (λ _, "read reusable workflow " +:+ path) (read_to_string path) in
  let? workflow := map_err (λ _, "parse reusable workflow " +:+ path) (parse_workflow source) in
  let? resolved_sha := git_head checkout in
  validate_remote_commit resolved_sha ;?
  let? canonical_ref := cached_canonical_ref (rw_owner reference) (rw_repository reference) (rw_git_ref reference) in
  Ok (workflow, source_from_remote reference resolved_sha, default (rw_git_ref reference) canonical_ref).

(** ** The worklist *)

Record CatalogState := mkCatalogState {
  ct_sources : gmap string ReusableWorkflowSource;
  ct_pending : list string;
  ct_processed : gset string;
  ct_reachable_calls : gset string;
}.

(** The calls of a workflow with the ids of their jobs. *)
Definition calls_of (workflow : Workflow) : list (string * string) :=
  omap (λ '(job_id, job), (λ uses, (job_id, uses)) <$> j_uses job) (w_jobs workflow).

(** [jobs.get_mut(&job_id).expect(..).uses = Some(target)] in the source [source_key]. *)
Definition retarget (source_key job_id target : string) (sources : gmap string ReusableWorkflowSource) :
    outcome string (gmap string ReusableWorkflowSource) :=
  let? source := expect (sources !! source_key) in
  let? jobs := expect (index_update job_id (λ job, job <| j_uses := Some target |>) (w_jobs (ws_workflow source))) in
  Ok (<[source_key := mkWorkflowSource (ws_workflow source <| w_jobs := jobs |>) (ws_origin source)
                        (ws_identity source)]> sources).

(** The key a call refers to, and where to load it from when it is remote. *)
Definition call_target (source_key source_name : string) (origin : ReusableWorkflowOrigin) (job_id uses : string)
    (sources : gmap string ReusableWorkflowSource) :
    outcome string (gmap string ReusableWorkflowSource * string * option RemoteReusableWorkflowReference) :=
  let context := "resolve reusable workflow called by '" +:+ source_name +:+ "' job '" +:+ job_id +:+ "'" in
  match local_reusable_reference_path uses with
  | Some local_path =>
      let? path := map_err (λ _, context) local_path in
      match origin with
      | OriginLocal => Ok (sources, path, None)
      | OriginRemote remote =>
          let target := canonical_reference remote path in
          let? sources := retarget source_key job_id target sources in
          let? reference := parse_remote_workflow target in
          Ok (sources, target, Some reference)
      end
  | None =>
      let? reference := map_err (λ _, context) (parse_remote_workflow uses) in
      Ok (sources, uses, Some reference)
  end.

Definition load_source (target : string) (remote : RemoteReusableWorkflowReference) :
    outcome string ReusableWorkflowSource :=
  let? '(workflow, resolved_source, canonical_ref) :=
    map_err (λ _, "load remote reusable workflow '" +:+ target +:+ "'") (load_remote_reusable_workflow remote) in
  let? workflow := resolve_workflow_self_repository_actions workflow resolved_source in
  Ok (mkWorkflowSource workflow (OriginRemote resolved_source)
        (remote_workflow_identity remote resolved_source canonical_ref)).

Definition catalog_call (source_key source_name : string) (origin : ReusableWorkflowOrigin) (call : string * string)
    (st : CatalogState) : outcome string CatalogState :=
  let '(job_id, uses) := call in
  let? ' (sources, target, remote) := call_target source_key source_name origin job_id uses (ct_sources st) in
  let reachable_calls := {[target]} ∪ ct_reachable_calls st in
  reject_if (bool_decide (MAX_UNIQUE_REUSABLE_WORKFLOWS < size reachable_calls))
    ("workflow tree calls more than " +:+ pretty MAX_UNIQUE_REUSABLE_WORKFLOWS +:+ " unique reusable workflows") ;?
  match sources !! target, remote with
  | Some _, _ => Ok (mkCatalogState sources (ct_pending st ++ [target]) (ct_processed st) reachable_calls)
  | None, None => Ok (mkCatalogState sources (ct_pending st) (ct_processed st) reachable_calls)
  | None, Some remote =>
      let? source := load_source target remote in
      Ok (mkCatalogState (<[target := source]> sources) (ct_pending st ++ [target]) (ct_processed st) reachable_calls)
  end.

(** One turn of the loop, on the source it popped. *)
Definition catalog_turn (source_key : string) (st : CatalogState) : outcome string CatalogState :=
  if bool_decide (source_key ∈ ct_processed st) then Ok st
  else
    let st := mkCatalogState (ct_sources st) (ct_pending st) ({[source_key]} ∪ ct_processed st)
                (ct_reachable_calls st) in
    match ct_sources st !! source_key with
    | None => Ok st
    | Some source =>
        for_each (catalog_call source_key (w_name (ws_workflow source)) (ws_origin source))
          (calls_of (ws_workflow source)) st
    end.

Fixpoint catalog_loop (fuel : nat) (st : CatalogState) : outcome string CatalogState :=
  match ct_pending st with
  | [] => Ok st
  | source_key :: pending =>
      match fuel with
      | 0 => Panic
      | S fuel =>
          let? st := catalog_turn source_key
                       (mkCatalogState (ct_sources st) pending (ct_processed st) (ct_reachable_calls st)) in
          catalog_loop fuel st
      end
  end.

Definition local_sources (local_workflows : gmap string Workflow) : gmap string ReusableWorkflowSource :=
  map_imap (λ key workflow, Some (mkWorkflowSource workflow OriginLocal (local_workflow_identity run key)))
    local_workflows.

Definition resolve_reusable_workflow_catalog (fuel : nat) (local_workflows : gmap string Workflow)
    (roots : list string) : outcome string ReusableWorkflowCatalog :=
  let? st := catalog_loop fuel (mkCatalogState (local_sources local_workflows) roots ∅ ∅) in
  Ok (mkCatalog (ws_workflow <$> ct_sources st) (ws_identity <$> ct_sources st)).
End catalog.

(** * The catalog of reusable workflows: properties

    The worklist of [resolve_reusable_workflow_catalog] ends, none of its [expect]s
    fails, and the catalog is closed under the calls of the workflows it reaches:
    those of other repositories call nothing by a local name any more. *)

#[local] Arguments calls_of : simpl never.

(** ** References *)

Lemma split_dot location repository rest :
  split "/" location = "." :: repository :: rest → ∃ r, location = "./" +:+ r.
Proof.
  destruct location as [|a location]; [done|]. cbn [split].
  case_bool_decide; [done|]. destruct (split "/" location) as [|p ps] eqn:Hsplit; [done|].
  intros [= -> -> ->]. destruct location as [|b location]; [done|]. cbn [split] in Hsplit.
  case_bool_decide; [subst; by exists location | by destruct (split "/" location)].
Qed.

Lemma rsplit_once_app c s a b : rsplit_once c s = Some (a, b) → ∃ r, s = a +:+ r.
Proof.
  unfold rsplit_once. destruct (split_once c (srev s)) as [[x y]|] eqn:H; [|done]. cbn. intros [= <- <-].
  assert (Hs : ∃ l, srev s = l +:+ y).
  { revert x H. induction (srev s) as [|d t IH]; intros x; cbn [split_once]; [done|].
    case_bool_decide; [intros [= <- <-]; by exists (String d "")|].
    destruct (split_once c t) as [[x' y']|] eqn:Ht; [|done]. cbn. intros [= <- <-].
    destruct (IH _ eq_refl) as [l ->]. by exists (String d l). }
  destruct Hs as [l Hl]. exists (srev l). by rewrite <- srev_app, <- Hl, srev_involutive.
Qed.

Lemma parse_remote_owner source location git_ref owner repository path at_ref :
  parse_remote source location git_ref = Ok (Remote owner repository path at_ref) →
  valid_component owner = true ∧ (owner = "." → ∃ r, location = "./" +:+ r).
Proof.
  unfold parse_remote. destruct (invalid_action_ref git_ref); [done|]. cbn [reject_if obind].
  assert (Hfirst : (match split "/" location with
                    | [] => ("", "", []) | [owner] => (owner, "", [])
                    | owner :: repository :: rest => (owner, repository, rest)
                    end).1.1 = "." → valid_component (match split "/" location with
                    | [] => ("", "", []) | [owner] => (owner, "", [])
                    | owner :: repository :: rest => (owner, repository, rest)
                    end).1.2 = true → ∃ r, location = "./" +:+ r).
  { destruct (split "/" location) as [|o [|r rest]] eqn:Hsplit; cbn; [done..|]. intros -> _. by eapply split_dot. }
  destruct (match split "/" location with [] => _ | _ => _ end) as [[o r] rest]. cbn in Hfirst.
  destruct (validate_repository_component o "owner") as [[]| |] eqn:Ho; [|done..].
  destruct (validate_repository_component r "repository") as [[]| |] eqn:Hr; [|done..].
  apply validate_repository_component_Ok in Ho, Hr. cbn [obind].
  destruct (if is_empty (sjoin "/" rest) then _ else _) as [[]| |]; [|done..]. intros [= <- <- _ _].
  split; [done | intros Hdot; by apply Hfirst].
Qed.

Lemma parse_remote_workflow_spec source reference :
  parse_remote_workflow source = Ok reference →
  local_reference source = None ∧ valid_component (rw_owner reference) = true ∧ rw_owner reference ≠ ".".
Proof.
  unfold parse_remote_workflow. destruct (parse_reference source) as [r| |] eqn:Hparse; [|done..]. cbn [obind].
  destruct r as [| |owner repository path git_ref]; [done..|]. intros H. ok_inv. cbn.
  unfold parse_reference in Hparse. unfold local_reference.
  destruct (strip_prefix "./" source) eqn:Hdot; [ok_inv; done|].
  destruct (strip_prefix "$/" source) eqn:Hdollar; [ok_inv; done|]. split; [done|].
  destruct (starts_with "docker://" source); [done|].
  destruct (rsplit_once "@" source) as [[location at_ref]|] eqn:Hsplit; [|done]. cbn in Hparse.
  apply parse_remote_owner in Hparse as [Hvalid Howner]. split; [done|]. intros Hdots.
  destruct (Howner Hdots) as [r ->]. apply rsplit_once_app in Hsplit as [tl ->].
  assert (strip_prefix "./" (("./" +:+ r) +:+ tl) = Some (r +:+ tl)); [|congruence].
  apply strip_prefix_Some. by rewrite sapp_assoc.
Qed.

(** ** The actions of a repository *)

Fixpoint step_resolved `{VL : ValueLib} (step : Step) : bool :=
  match s_uses step with Some action => negb (starts_with "$/" action) | None => true end
  && match s_parallel step with Some children => forallb step_resolved children | None => true end.

(** No step of the workflow names an action of its own repository. *)
Definition workflow_resolved `{VL : ValueLib} (workflow : Workflow) : Prop :=
  ∀ job_id job step, (job_id, job) ∈ w_jobs workflow → step ∈ j_steps job → step_resolved step = true.

Definition nameable (source : ActionRepositorySource) : Prop :=
  valid_component (src_owner source) = true ∧ src_owner source ≠ ".".

Lemma canonical_not_local source path :
  nameable source →
  local_reference (canonical_reference source path) = None ∧
  starts_with "$/" (canonical_reference source path) = false.
Proof.
  intros [Hvalid Hdot]. unfold local_reference, starts_with, canonical_reference.
  change ("/" +:+ src_repository source +:+ "/" +:+ path +:+ "@" +:+ src_git_ref source)
    with (String "/" (src_repository source +:+ "/" +:+ path +:+ "@" +:+ src_git_ref source)).
  destruct (owner_prefixes (src_owner source)
    (src_repository source +:+ "/" +:+ path +:+ "@" +:+ src_git_ref source) Hvalid Hdot) as (-> & -> & _). done.
Qed.

Lemma outcome_spec_traverse {A B} (f : A → outcome string B) (P : B → Prop) l :
  (∀ x, x ∈ l → outcome_spec (f x) P (λ _, True)) → outcome_spec (traverse f l) (Forall P) (λ _, True).
Proof.
  induction l as [|x l IH]; intros H; cbn [traverse]; [constructor|].
  apply outcome_spec_bind. eapply outcome_spec_mono; [apply H, list_elem_of_here | | done].
  intros y Hy. apply outcome_spec_bind. eapply outcome_spec_mono; [apply IH | | done].
  - intros z Hz. by apply H, list_elem_of_further.
  - intros ys Hys. by constructor.
Qed.

Lemma self_repository_reference action :
  starts_with "$/" action = true →
  outcome_spec (parse_reference action) (λ reference, ∃ path, reference = SelfRepository path) (λ _, True).
Proof.
  intros [rest ->]%starts_with_true. unfold parse_reference.
  assert (strip_prefix "./" ("$/" +:+ rest) = None) as -> by done.
  assert (strip_prefix "$/" ("$/" +:+ rest) = Some rest) as -> by by apply strip_prefix_Some.
  cbv zeta. destruct (validate_relative_path _) as [[]| |] eqn:Hp; cbn; [by eexists | done|].
  by apply reject_if_Panic in Hp.
Qed.

Lemma resolve_step_spec `{VL : ValueLib} source :
  nameable source → ∀ step,
  outcome_spec (resolve_workflow_step_self_repository_actions source step) (λ s, step_resolved s = true) (λ _, True).
Proof.
  intros Hsource. fix IH 1. intros step. destruct step as [id name run uses shell wd env w c coe t bg wait ca parallel extra].
  cbn [resolve_workflow_step_self_repository_actions s_uses s_parallel]. apply outcome_spec_bind.
  assert (Huses : outcome_spec
    (match uses with
     | Some action =>
         if starts_with "$/" action then
           let? reference := parse_reference action in
           match reference with
           | SelfRepository path => Ok (Some (canonical_reference source path))
           | Local _ | Remote _ _ _ _ => Panic
           end
         else Ok (Some action)
     | None => Ok None
     end : outcome string (option string))
    (λ uses, match uses with Some action => starts_with "$/" action = false | None => True end) (λ _, True)).
  { destruct uses as [action|]; [|done]. destruct (starts_with "$/" action) eqn:Hself; [|done].
    apply outcome_spec_bind. eapply outcome_spec_mono; [by apply self_repository_reference | | done].
    intros r [path ->]. by apply canonical_not_local. }
  eapply outcome_spec_mono; [exact Huses | | done]. clear Huses. intros uses' Huses. apply outcome_spec_bind.
  assert (Hparallel : outcome_spec
    (match parallel with
     | Some children =>
         let? children := traverse (resolve_workflow_step_self_repository_actions source) children in
         Ok (Some children)
     | None => Ok None
     end) (λ parallel, match parallel with Some l => forallb step_resolved l = true | None => True end) (λ _, True)).
  { destruct parallel as [children|]; [|done]. apply outcome_spec_bind.
    assert (Hchildren : outcome_spec (traverse (resolve_workflow_step_self_repository_actions source) children)
      (λ l, forallb step_resolved l = true) (λ _, True)).
    { induction children as [|child children IHl]; cbn [traverse]; [done|].
      apply outcome_spec_bind. eapply outcome_spec_mono; [apply IH | | done]. intros child' Hchild.
      apply outcome_spec_bind. eapply outcome_spec_mono; [apply IHl | | done]. intros l Hl.
      cbn. by rewrite Hchild. }
    eapply outcome_spec_mono; [exact Hchildren | done..]. }
  eapply outcome_spec_mono; [exact Hparallel | | done]. intros parallel' Hp. cbn.
  destruct uses'; rewrite ?Huses; by destruct parallel'.
Qed.

Lemma resolve_workflow_spec `{VL : ValueLib} workflow source :
  nameable source →
  outcome_spec (resolve_workflow_self_repository_actions workflow source)
    (λ w, workflow_resolved w ∧ (w_jobs w).*1 = (w_jobs workflow).*1) (λ _, True).
Proof.
  intros Hsource. unfold resolve_workflow_self_repository_actions. apply outcome_spec_bind.
  assert (Hjobs : ∀ jobs : list (string * Job), outcome_spec
    (traverse (λ '(job_id, job),
       let? steps := traverse (resolve_workflow_step_self_repository_actions source) (j_steps job) in
       Ok (job_id, job <| j_steps := steps |>)) jobs)
    (λ l, Forall (λ entry, Forall (λ s, step_resolved s = true) (j_steps entry.2)) l ∧ l.*1 = jobs.*1) (λ _, True)).
  { induction jobs as [|[job_id job] jobs IH]; cbn [traverse]; [by split|].
    apply outcome_spec_bind. apply outcome_spec_bind.
    eapply outcome_spec_mono; [apply outcome_spec_traverse; intros; by apply resolve_step_spec | | done].
    intros steps Hsteps. cbn [obind outcome_spec]. apply outcome_spec_bind.
    eapply outcome_spec_mono; [exact IH | | done]. intros l [Hl Hkeys]. cbn. split; [|by rewrite Hkeys].
    by constructor. }
  eapply outcome_spec_mono; [apply Hjobs | | done]. intros l [Hl Hkeys]. cbn. split; [|done].
  intros job_id job step Hjob Hstep. rewrite Forall_forall in Hl. specialize (Hl _ Hjob). cbn in Hl.
  rewrite Forall_forall in Hl. by apply Hl.
Qed.

(** ** The worklist *)

Section worklist.
Context `{RL : RemoteLib} {J : Type} (run : RunSpec J).

(** The outside never panics, and the parser gives the jobs of a workflow
    distinct keys. *)
Class RemoteLaws : Prop := {
  parse_workflow_keys : ∀ text workflow, parse_workflow text = Ok workflow → NoDup (w_jobs workflow).*1;
  remote_no_panic : ∀ o r g u, materialize_remote_repository o r g u ≠ Panic;
  within_no_panic : ∀ a b, ensure_within a b ≠ Panic;
  read_no_panic : ∀ path, read_to_string path ≠ Panic;
  parse_no_panic : ∀ text, parse_workflow text ≠ Panic;
  head_no_panic : ∀ directory, git_head directory ≠ Panic;
  canonical_no_panic : ∀ o r g, cached_canonical_ref o r g ≠ Panic;
}.
Context `{LAWS : RemoteLaws}.
Context (local_workflows : gmap string Workflow) (roots : list string).

(** What the catalog says of a workflow of another repository. *)
Definition remote_source (key : string) (source : ReusableWorkflowSource) : Prop :=
  ∃ reference repository canonical_ref,
    parse_remote_workflow key = Ok reference ∧ ws_origin source = OriginRemote repository ∧
    src_owner repository = rw_owner reference ∧ src_repository repository = rw_repository reference ∧
    validate_remote_commit (src_git_ref repository) = Ok tt ∧
    ws_identity source = remote_workflow_identity reference repository canonical_ref ∧
    workflow_resolved (ws_workflow source) ∧ NoDup (w_jobs (ws_workflow source)).*1.

Lemma from_object_id_no_panic id : from_object_id id ≠ Panic.
Proof. unfold from_object_id. destruct (negb _); [done|]. cbn. repeat case_bool_decide; done. Qed.

Lemma load_remote_spec reference :
  outcome_spec (load_remote_reusable_workflow run reference)
    (λ '(workflow, source, canonical_ref),
       src_owner source = rw_owner reference ∧ src_repository source = rw_repository reference ∧
       validate_remote_commit (src_git_ref source) = Ok tt ∧ NoDup (w_jobs workflow).*1) (λ _, True).
Proof.
  unfold load_remote_reusable_workflow. cbv zeta.
  destruct (materialize_remote_repository _ _ _ _) as [checkout| |] eqn:E1; cbn [obind];
    [| done | by apply remote_no_panic in E1].
  destruct (ensure_within _ _) as [[]| |] eqn:E2; cbn [obind]; [| done | by apply within_no_panic in E2].
  destruct (read_to_string _) as [text| |] eqn:E3; cbn [map_err obind]; [| done | by apply read_no_panic in E3].
  destruct (parse_workflow text) as [workflow| |] eqn:E4; cbn [map_err obind]; [| done | by apply parse_no_panic in E4].
  destruct (git_head checkout) as [sha| |] eqn:E5; cbn [obind]; [| done | by apply head_no_panic in E5].
  destruct (validate_remote_commit sha) as [[]| |] eqn:E6; cbn [obind]; [| done |].
  - destruct (cached_canonical_ref _ _ _) as [c| |] eqn:E7; cbn; [| done | by apply canonical_no_panic in E7].
    split_and!; [done.. |]. by eapply parse_workflow_keys.
  - unfold validate_remote_commit in E6. destruct (from_object_id sha) eqn:E7; [done..|].
    by apply from_object_id_no_panic in E7.
Qed.

Lemma load_source_spec key reference :
  parse_remote_workflow key = Ok reference →
  outcome_spec (load_source run key reference) (remote_source key) (λ _, True).
Proof.
  intros Hparse. unfold load_source. pose proof (load_remote_spec reference) as Hload.
  destruct (load_remote_reusable_workflow run reference) as [[[workflow source] canonical_ref]| |]; cbn in Hload |- *;
    [|done..].
  destruct Hload as (Ho & Hr & Hsha & Hkeys). apply outcome_spec_bind.
  destruct (parse_remote_workflow_spec _ _ Hparse) as (_ & Hvalid & Hdot).
  eapply outcome_spec_mono; [apply resolve_workflow_spec | | done].
  { split; by rewrite Ho. }
  intros workflow' [Hresolved Hkeys']. cbn. exists reference, source, canonical_ref.
  split_and!; [done..|]. cbn. by rewrite Hkeys'.
Qed.

(** *** The invariant *)

(** A key that has been popped or will be. *)
Definition seen (st : CatalogState) (key : string) : Prop := key ∈ ct_processed st ∨ key ∈ ct_pending st.

(** A call that refers to what the catalog holds. *)
Definition closed_call (st : CatalogState) (origin : ReusableWorkflowOrigin) (uses : string) : Prop :=
  match local_reference uses with
  | Some path =>
      origin = OriginLocal ∧ is_workflow_path path = true ∧
      (is_Some (local_workflows !! replace_byte "\" "/" path) → seen st (replace_byte "\" "/" path))
  | None => is_Some (ct_sources st !! uses) ∧ seen st uses
  end.

Definition closed_source (st : CatalogState) (source : ReusableWorkflowSource) : Prop :=
  ∀ job_id uses, (job_id, uses) ∈ calls_of (ws_workflow source) → closed_call st (ws_origin source) uses.

(** Every processed source is closed, except the one that is being processed. *)
Record catalog_ok (busy : option string) (st : CatalogState) : Prop := {
  co_local : ∀ key workflow, local_workflows !! key = Some workflow →
    ct_sources st !! key = Some (mkWorkflowSource workflow OriginLocal (local_workflow_identity run key));
  co_remote : ∀ key source, ct_sources st !! key = Some source → local_workflows !! key = None →
    remote_source key source;
  co_reached : ∀ key, seen st key → key ∈ roots ∨ key ∈ ct_reachable_calls st;
  co_roots : ∀ root, root ∈ roots → seen st root;
  co_present : ∀ key, seen st key → is_Some (ct_sources st !! key);
  co_size : size (ct_reachable_calls st) ≤ MAX_UNIQUE_REUSABLE_WORKFLOWS;
  co_closed : ∀ key source, key ∈ ct_processed st → ct_sources st !! key = Some source → busy ≠ Some key →
    closed_source st source;
}.

Lemma calls_of_elem workflow job_id uses :
  (job_id, uses) ∈ calls_of workflow ↔ ∃ job, (job_id, job) ∈ w_jobs workflow ∧ j_uses job = Some uses.
Proof.
  unfold calls_of. rewrite list_elem_of_omap. split.
  - intros ([id job] & Hin & Hcall). destruct (j_uses job) eqn:E; simplify_eq/=. eauto.
  - intros (job & Hin & Huses). exists (job_id, job). by rewrite Huses.
Qed.

(** The state only grows. *)
Record extends (st st' : CatalogState) : Prop := {
  ex_sources : ∀ key, is_Some (ct_sources st !! key) → is_Some (ct_sources st' !! key);
  ex_seen : ∀ key, seen st key → seen st' key;
}.

Lemma closed_call_extends st st' origin uses :
  extends st st' → closed_call st origin uses → closed_call st' origin uses.
Proof.
  intros [Hs Hseen]. unfold closed_call. destruct (local_reference uses).
  - intros (? & ? & H). split_and!; [done..|]. auto.
  - intros [? ?]. auto.
Qed.

Lemma local_source_remote key source st busy :
  catalog_ok busy st → ct_sources st !! key = Some source →
  (ws_origin source = OriginLocal ∧ local_workflows !! key = Some (ws_workflow source)) ∨
  (local_workflows !! key = None ∧ remote_source key source).
Proof.
  intros Hok Hsource. destruct (local_workflows !! key) as [workflow|] eqn:Hlocal.
  - left. apply (co_local _ _ Hok) in Hlocal. rewrite Hlocal in Hsource. by simplify_eq.
  - right. split; [done|]. by apply (co_remote _ _ Hok).
Qed.

(** *** One call *)

(** The use that stands in the workflow after its call was looked at. *)
Definition resolved_use (origin : ReusableWorkflowOrigin) (uses target : string)
    (remote : option RemoteReusableWorkflowReference) : Prop :=
  match local_reference uses with
  | Some path =>
      origin = OriginLocal ∧ is_workflow_path path = true ∧ target = replace_byte "\" "/" path ∧ remote = None
  | None => target = uses ∧ ∃ reference, remote = Some reference ∧ parse_remote_workflow target = Ok reference
  end.

(** [source'] is [source] with the call of [job_id] looked at. *)
Definition call_settled (source source' : ReusableWorkflowSource) (job_id uses target : string)
    (remote : option RemoteReusableWorkflowReference) : Prop :=
  ws_origin source' = ws_origin source ∧ ws_identity source' = ws_identity source ∧
  (w_jobs (ws_workflow source')).*1 = (w_jobs (ws_workflow source)).*1 ∧
  (ws_origin source = OriginLocal → source' = source) ∧
  (workflow_resolved (ws_workflow source) → workflow_resolved (ws_workflow source')) ∧
  (∀ call, call ∈ calls_of (ws_workflow source) → call.1 ≠ job_id → call ∈ calls_of (ws_workflow source')) ∧
  ∃ final, resolved_use (ws_origin source) final target remote ∧
    ∀ job uses', (job, uses') ∈ calls_of (ws_workflow source') →
      ((job, uses') ∈ calls_of (ws_workflow source) ∧ (job, uses') ≠ (job_id, uses)) ∨ uses' = final.

Lemma call_settled_same source job_id uses target remote :
  resolved_use (ws_origin source) uses target remote → call_settled source source job_id uses target remote.
Proof.
  intros Huse. split_and!; [done..|]. exists uses. split; [done|]. intros job uses' Hcall.
  destruct (decide (uses' = uses)) as [->|]; [by right | left; naive_solver].
Qed.

Lemma index_update_other job_id f jobs jobs' k j :
  index_update job_id f jobs = Some jobs' → (k, j) ∈ jobs → k ≠ job_id → (k, j) ∈ jobs'.
Proof.
  revert jobs'. induction jobs as [|[k0 j0] jobs IH]; intros jobs'; cbn [index_update]; [done|].
  case_bool_decide as Hk.
  - intros [= <-] Hin Hne. set_solver.
  - intros (l & Hl & ->)%fmap_Some [?|Hin]%elem_of_cons Hne; [set_solver|].
    apply list_elem_of_further. by apply IH.
Qed.

Lemma retarget_spec key source job_id uses target sources :
  sources !! key = Some source → (job_id, uses) ∈ calls_of (ws_workflow source) →
  NoDup (w_jobs (ws_workflow source)).*1 →
  ∃ source', retarget key job_id target sources = Ok (<[key := source']> sources) ∧
    ws_origin source' = ws_origin source ∧ ws_identity source' = ws_identity source ∧
    (w_jobs (ws_workflow source')).*1 = (w_jobs (ws_workflow source)).*1 ∧
    (workflow_resolved (ws_workflow source) → workflow_resolved (ws_workflow source')) ∧
    (∀ call, call ∈ calls_of (ws_workflow source) → call.1 ≠ job_id → call ∈ calls_of (ws_workflow source')) ∧
    ∀ job uses', (job, uses') ∈ calls_of (ws_workflow source') →
      ((job, uses') ∈ calls_of (ws_workflow source) ∧ (job, uses') ≠ (job_id, uses)) ∨ uses' = target.
Proof.
  intros Hsource Hcall Hkeys. unfold retarget. rewrite Hsource. cbn [expect obind].
  apply calls_of_elem in Hcall as (job0 & Hjob0 & Huses).
  set (f := λ job : Job, job <| j_uses := Some target |>).
  destruct (index_update_Some job_id f (w_jobs (ws_workflow source))) as [jobs Hjobs].
  { apply list_elem_of_fmap. by exists (job_id, job0). }
  rewrite Hjobs. cbn [expect obind]. eexists. split; [done|]. cbn.
  pose proof (index_update_keys _ _ _ _ Hjobs) as Hkeys'.
  split_and!; [done | done | done | | |].
  - intros Hresolved id job step Hjob Hstep.
    destruct (index_update_elem _ _ _ _ _ _ Hjobs Hjob) as (j & Hj & [->|[-> ->]]); by eapply Hresolved.
  - intros [id uses'] (job & Hjob & Huses')%calls_of_elem Hne. apply calls_of_elem. exists job.
    split; [|done]. by eapply index_update_other.
  - intros id uses' (job & Hjob & Huses')%calls_of_elem. cbn in Hjob.
    destruct (decide (id = job_id)) as [->|Hne].
    + right. destruct (index_update_elem _ _ _ _ _ _ Hjobs Hjob) as (j & Hj & Hor).
      destruct Hor as [->|[_ ->]]; [|by injection Huses'].
      assert (∃ j', (job_id, f j') ∈ jobs) as [j' Hj'].
      { clear - Hjobs. revert jobs Hjobs. induction (w_jobs (ws_workflow source)) as [|[k j] l IH]; intros jobs;
          cbn [index_update]; [done|]. case_bool_decide as Hk.
        - intros [= <-]. subst. exists j. apply list_elem_of_here.
        - intros (l' & Hl & ->)%fmap_Some. destruct (IH l' Hl) as [j' ?]. exists j'. by apply list_elem_of_further. }
      assert (NoDup jobs.*1) as Hnd by by rewrite Hkeys'.
      assert (j = f j') as Heq.
      { clear - Hnd Hj' Hjob. induction jobs as [|[k x] l IH]; [by apply elem_of_nil in Hjob|].
        cbn in Hnd. apply NoDup_cons in Hnd as [Hk Hnd].
        apply elem_of_cons in Hjob, Hj'. destruct Hjob as [Heq|Hjob], Hj' as [Heq'|Hj']; simplify_eq; [done | | |by apply IH].
        - destruct Hk. apply list_elem_of_fmap. by exists (k, f j').
        - destruct Hk. apply list_elem_of_fmap. by exists (k, j). }
      rewrite Heq in Huses'. by injection Huses'.
    + left. split; [|naive_solver]. destruct (index_update_elem _ _ _ _ _ _ Hjobs Hjob) as (j & Hj & [->|[-> _]]); [|done].
      apply calls_of_elem. eauto.
Qed.

Lemma parse_remote_workflow_no_panic source : parse_remote_workflow source ≠ Panic.
Proof.
  unfold parse_remote_workflow. pose proof (parse_reference_spec source) as H.
  destruct (parse_reference source) as [[]| |]; cbn in H |- *; [done | done | | done | done].
  destruct (starts_with "refs/" git_ref); [done|]. cbn. by destruct (names_workflow_file path).
Qed.

Lemma call_target_spec key source name job_id uses sources :
  sources !! key = Some source → (job_id, uses) ∈ calls_of (ws_workflow source) →
  (ws_origin source ≠ OriginLocal → NoDup (w_jobs (ws_workflow source)).*1) →
  outcome_spec (call_target key name (ws_origin source) job_id uses sources)
    (λ '(sources', target, remote), ∃ source',
       sources' = <[key := source']> sources ∧ call_settled source source' job_id uses target remote) (λ _, True).
Proof.
  intros Hsource Hcall Hkeys. unfold call_target, local_reusable_reference_path.
  destruct (local_reference uses) as [path|] eqn:Hlocal; cbn [fmap option_fmap option_map].
  - destruct (is_workflow_path path) eqn:Hpath; cbn [map_err obind]; [|done].
    destruct (ws_origin source) as [|repository] eqn:Horigin.
    + cbn. exists source. rewrite insert_id by done. split; [done|].
      apply call_settled_same. unfold resolved_use. by rewrite Hlocal.
    + destruct (retarget_spec key source job_id uses
        (canonical_reference repository (replace_byte "\" "/" path)) sources Hsource Hcall (Hkeys ltac:(done)))
        as (source' & -> & ? & ? & ? & ? & ? & Hcalls). cbn [obind].
      destruct (parse_remote_workflow _) as [reference| |] eqn:Hparse; cbn; [|done|].
      * exists source'. split; [done|]. split_and!; [congruence | done | done | congruence | done | done |].
        eexists. split; [|exact Hcalls].
        unfold resolved_use. rewrite (proj1 (parse_remote_workflow_spec _ _ Hparse)). eauto.
      * by apply parse_remote_workflow_no_panic in Hparse.
  - destruct (parse_remote_workflow uses) as [reference| |] eqn:Hparse; cbn; [|done|].
    + exists source. rewrite insert_id by done. split; [done|].
      apply call_settled_same. unfold resolved_use. rewrite Hlocal. eauto.
    + by apply parse_remote_workflow_no_panic in Hparse.
Qed.

(** *** One source *)

Definition turning (key : string) (source : ReusableWorkflowSource) (done_ : list (string * string))
    (st : CatalogState) : Prop :=
  catalog_ok (Some key) st ∧ key ∈ ct_processed st ∧
  ∃ source', ct_sources st !! key = Some source' ∧ ws_origin source' = ws_origin source ∧
    (ws_origin source = OriginLocal → source' = source) ∧
    (∀ call, call ∈ calls_of (ws_workflow source) → call.1 ∉ done_.*1 → call ∈ calls_of (ws_workflow source')) ∧
    ∀ job_id uses, (job_id, uses) ∈ calls_of (ws_workflow source') →
      closed_call st (ws_origin source) uses ∨
      ((job_id, uses) ∈ calls_of (ws_workflow source) ∧ (job_id, uses) ∉ done_).

Lemma remote_source_settled key source source' job_id uses target remote :
  remote_source key source → call_settled source source' job_id uses target remote → remote_source key source'.
Proof.
  intros (reference & repository & c & Hp & Ho & ? & ? & ? & Hid & Hres & Hnd) (Ho' & Hid' & Hkeys & _ & Hres' & _ & _).
  exists reference, repository, c. rewrite Ho', Hid', Hkeys. auto 10.
Qed.

(** The state after a call, but for a source that is loaded. *)
Lemma settle_ok key source source' st job_id uses target remote :
  catalog_ok (Some key) st → key ∈ ct_processed st → ct_sources st !! key = Some source →
  call_settled source source' job_id uses target remote →
  size ({[target]} ∪ ct_reachable_calls st) ≤ MAX_UNIQUE_REUSABLE_WORKFLOWS →
  let st' := mkCatalogState (<[key := source']> (ct_sources st)) (ct_pending st) (ct_processed st)
               ({[target]} ∪ ct_reachable_calls st) in
  catalog_ok (Some key) st' ∧ extends st st'.
Proof.
  intros Hok Hkey Hsource Hsettled Hsize st'.
  assert (Hext : extends st st').
  { split; [|done]. intros k Hk. cbn. destruct (decide (k = key)) as [->|].
    - rewrite lookup_insert_eq. by eexists.
    - by rewrite lookup_insert_ne. }
  split; [|done]. split; cbn.
  - intros k workflow Hlocal. pose proof (co_local _ _ Hok k workflow Hlocal) as Hk.
    destruct (decide (k = key)) as [->|]; [|by rewrite lookup_insert_ne].
    rewrite lookup_insert_eq. destruct Hsettled as (_ & _ & _ & Hsame & _).
    rewrite Hk in Hsource. simplify_eq. by rewrite Hsame.
  - intros k s [[<- <-]|[? Hk]]%lookup_insert_Some Hlocal; [|by apply (co_remote _ _ Hok)].
    eapply remote_source_settled; [by apply (co_remote _ _ Hok) | done].
  - intros k Hk. destruct (co_reached _ _ Hok k Hk); set_solver.
  - apply (co_roots _ _ Hok).
  - intros k Hk. apply (ex_sources _ _ Hext), (co_present _ _ Hok), Hk.
  - done.
  - intros k s Hk [[<- <-]|[? Hs]]%lookup_insert_Some Hbusy; [congruence|].
    intros j u Hcall. eapply closed_call_extends; [done|]. by eapply (co_closed _ _ Hok).
Qed.

Lemma push_ok key st target :
  catalog_ok (Some key) st → is_Some (ct_sources st !! target) → target ∈ ct_reachable_calls st →
  let st' := mkCatalogState (ct_sources st) (ct_pending st ++ [target]) (ct_processed st) (ct_reachable_calls st) in
  catalog_ok (Some key) st' ∧ extends st st' ∧ seen st' target.
Proof.
  intros Hok Htarget Hreach st'.
  assert (Hext : extends st st'). { split; [done|]. intros k [?|?]; [by left | right; cbn; set_solver]. }
  split; [|split; [done | right; cbn; set_solver]]. split; cbn.
  - apply (co_local _ _ Hok).
  - apply (co_remote _ _ Hok).
  - intros k [Hk|Hk]; [apply (co_reached _ _ Hok); by left|]. cbn in Hk.
    apply elem_of_app in Hk as [Hk| ->%list_elem_of_singleton]; [|by right].
    apply (co_reached _ _ Hok). by right.
  - intros root Hroot. apply (ex_seen _ _ Hext), (co_roots _ _ Hok), Hroot.
  - intros k [Hk|Hk]; [apply (co_present _ _ Hok); by left|]. cbn in Hk.
    apply elem_of_app in Hk as [Hk| ->%list_elem_of_singleton]; [|done].
    apply (co_present _ _ Hok). by right.
  - apply (co_size _ _ Hok).
  - intros k s Hk Hs Hbusy j u Hcall. eapply closed_call_extends; [done|]. by eapply (co_closed _ _ Hok).
Qed.

Lemma load_ok key st target source :
  catalog_ok (Some key) st → ct_sources st !! target = None → remote_source target source →
  let st' := mkCatalogState (<[target := source]> (ct_sources st)) (ct_pending st) (ct_processed st)
               (ct_reachable_calls st) in
  catalog_ok (Some key) st' ∧ extends st st'.
Proof.
  intros Hok Hnone Hremote st'.
  assert (Hext : extends st st').
  { split; [|done]. intros k Hk. cbn. destruct (decide (k = target)) as [->|].
    - rewrite lookup_insert_eq. by eexists.
    - by rewrite lookup_insert_ne. }
  split; [|done]. split; cbn.
  - intros k workflow Hlocal. pose proof (co_local _ _ Hok k workflow Hlocal) as Hk.
    rewrite lookup_insert_ne; [done | congruence].
  - intros k s [[<- <-]|[? Hk]]%lookup_insert_Some Hlocal; [done | by apply (co_remote _ _ Hok)].
  - apply (co_reached _ _ Hok).
  - apply (co_roots _ _ Hok).
  - intros k Hk. apply (ex_sources _ _ Hext), (co_present _ _ Hok), Hk.
  - apply (co_size _ _ Hok).
  - intros k s Hk [[<- <-]|[? Hs]]%lookup_insert_Some Hbusy.
    + destruct (co_present _ _ Hok target) as [? ?]; [by left | congruence].
    + intros j u Hcall. eapply closed_call_extends; [done|]. by eapply (co_closed _ _ Hok).
Qed.

Lemma calls_of_keys workflow : NoDup (w_jobs workflow).*1 → NoDup (calls_of workflow).*1.
Proof.
  unfold calls_of. induction (w_jobs workflow) as [|[id job] jobs IH]; cbn; [constructor|].
  intros [Hid Hnd]%NoDup_cons. destruct (j_uses job); cbn; [|by apply IH].
  apply NoDup_cons. split; [|by apply IH]. intros ([k u] & -> & Hin)%list_elem_of_fmap. apply Hid.
  apply list_elem_of_omap in Hin as ([k' j'] & Hin & Heq). destruct (j_uses j'); simplify_eq/=.
  apply list_elem_of_fmap. by exists (k, j').
Qed.

Lemma remote_source_keys key source : remote_source key source → NoDup (w_jobs (ws_workflow source)).*1.
Proof. by intros (? & ? & ? & _ & _ & _ & _ & _ & _ & _ & ?). Qed.

(** A settled call is closed once its target is in the catalog and seen. *)
Lemma resolved_closed st origin final target remote :
  resolved_use origin final target remote → is_Some (ct_sources st !! target) → seen st target →
  closed_call st origin final.
Proof.
  unfold resolved_use, closed_call. destruct (local_reference final) as [path|].
  - intros (? & ? & -> & _) _ ?. done.
  - intros (-> & _) ? ?. done.
Qed.

Lemma catalog_call_spec key source name st done_ call rest :
  calls_of (ws_workflow source) = done_ ++ call :: rest →
  (ws_origin source ≠ OriginLocal → NoDup (w_jobs (ws_workflow source)).*1) →
  turning key source done_ st →
  outcome_spec (catalog_call run key name (ws_origin source) call st)
    (λ st', turning key source (done_ ++ [call]) st' ∧ ct_processed st' = ct_processed st) (λ _, True).
Proof.
  intros Hcalls Hnd (Hok & Hkey & source1 & Hsource1 & Horigin & Hsame & Hleft & Hopen).
  destruct call as [job_id uses]. unfold catalog_call.
  assert (Hnew : (job_id, uses) ∈ calls_of (ws_workflow source1)).
  { destruct (ws_origin source) eqn:Ho.
    - rewrite Hsame by done. rewrite Hcalls. set_solver.
    - apply Hleft; [rewrite Hcalls; set_solver|]. specialize (Hnd ltac:(done)). apply calls_of_keys in Hnd.
      rewrite Hcalls, fmap_app, NoDup_app in Hnd. destruct Hnd as (_ & Hnot & _).
      intros Hin. eapply Hnot; [done|]. cbn. apply list_elem_of_here. }
  rewrite <- Horigin.
  pose proof (call_target_spec key source1 name job_id uses (ct_sources st) Hsource1 Hnew) as Htarget.
  destruct (call_target key name (ws_origin source1) job_id uses (ct_sources st)) as [[[sources target] remote]| |];
    cbn [obind outcome_spec] in Htarget |- *; [|done |].
  2: { apply Htarget. intros Ho. destruct (local_source_remote _ _ _ _ Hok Hsource1) as [[? _]|[_ ?]]; [congruence|].
       by eapply remote_source_keys. }
  destruct Htarget as (source2 & -> & Hsettled).
  { intros Ho. destruct (local_source_remote _ _ _ _ Hok Hsource1) as [[? _]|[_ ?]]; [congruence|].
    by eapply remote_source_keys. }
  destruct (bool_decide_reflect (MAX_UNIQUE_REUSABLE_WORKFLOWS < size ({[target]} ∪ ct_reachable_calls st)))
    as [|Hsize]; cbn [reject_if obind outcome_spec]; [done|].
  destruct (settle_ok key source1 source2 st job_id uses target remote Hok Hkey Hsource1 Hsettled ltac:(lia))
    as [Hok1 Hext1].
  set (st1 := mkCatalogState (<[key := source2]> (ct_sources st)) (ct_pending st) (ct_processed st)
                ({[target]} ∪ ct_reachable_calls st)) in *.
  change (<[key := source2]> (ct_sources st)) with (ct_sources st1).
  assert (Hdone : ∀ st', ct_sources st' !! key = Some source2 → catalog_ok (Some key) st' → extends st1 st' →
    ct_processed st' = ct_processed st →
    (∀ final, resolved_use (ws_origin source1) final target remote → closed_call st' (ws_origin source1) final) →
    turning key source (done_ ++ [(job_id, uses)]) st' ∧ ct_processed st' = ct_processed st).
  { intros st' Hkey' Hok' Hext Hprocessed Hfinal. split; [|done]. split; [done|]. split; [by rewrite Hprocessed|].
    destruct Hsettled as (Ho2 & _ & _ & Hlocal & _ & Hother & final & Huse & Hcalls2).
    exists source2. split_and!; [done | congruence | | |].
    - intros Ho. rewrite Hlocal, Hsame; congruence.
    - intros c Hc Hnot. rewrite fmap_app in Hnot. cbn in Hnot. apply Hother; [apply Hleft|]; set_solver.
    - intros j u Hcall. rewrite <- Horigin. apply Hcalls2 in Hcall as [[Hold Hne]| ->]; [|left; by apply Hfinal].
      destruct (Hopen j u Hold) as [Hc|[Hin Hnot]].
      + left. rewrite Horigin. eapply closed_call_extends; [exact Hext|]. by eapply closed_call_extends.
      + right. split; [done|]. rewrite elem_of_app, list_elem_of_singleton. naive_solver. }
  destruct (ct_sources st1 !! target) as [present|] eqn:Hpresent; [|destruct remote as [reference|]].
  - destruct (push_ok key st1 target Hok1 ltac:(by eexists)) as (Hok2 & Hext2 & Hseen); [set_solver|].
    apply Hdone; [apply lookup_insert_eq | done | done | done |].
    intros final Huse. by eapply resolved_closed; [done | by eexists | done].
  - assert (Hparse : parse_remote_workflow target = Ok reference).
    { destruct Hsettled as (_ & _ & _ & _ & _ & _ & final & Huse & _). unfold resolved_use in Huse.
      destruct (local_reference final); naive_solver. }
    pose proof (load_source_spec target reference Hparse) as Hload.
    destruct (load_source run target reference) as [loaded| |]; cbn [obind outcome_spec] in Hload |- *; [|done..].
    destruct (load_ok key st1 target loaded Hok1 Hpresent Hload) as [Hok2 Hext2].
    set (st2 := mkCatalogState (<[target := loaded]> (ct_sources st1)) (ct_pending st1) (ct_processed st1)
                  (ct_reachable_calls st1)) in *.
    destruct (push_ok key st2 target Hok2) as (Hok3 & Hext3 & Hseen);
      [cbn; rewrite lookup_insert_eq; by eexists | cbn; set_solver |].
    apply Hdone.
    + cbn. rewrite lookup_insert_ne; [apply lookup_insert_eq|]. intros ->. cbn in Hpresent.
      by rewrite lookup_insert_eq in Hpresent.
    + done.
    + destruct Hext2, Hext3. split; auto.
    + done.
    + intros final Huse. eapply resolved_closed; [done | cbn; rewrite lookup_insert_eq; by eexists | done].
  - apply Hdone; [apply lookup_insert_eq | done | done | done |]. intros final Huse.
    unfold resolved_use in Huse. unfold closed_call. destruct (local_reference final) as [path|]; [|naive_solver].
    destruct Huse as (? & ? & -> & _). split_and!; [done..|]. intros [w Hw].
    apply (co_local _ _ Hok1) in Hw. congruence.
Qed.

(** *** A turn *)

Definition popped (st : CatalogState) (pending : list string) : CatalogState :=
  mkCatalogState (ct_sources st) pending (ct_processed st) (ct_reachable_calls st).

Lemma begin_turn key pending st source :
  catalog_ok None st → ct_pending st = key :: pending → ct_sources st !! key = Some source →
  let st' := mkCatalogState (ct_sources st) pending ({[key]} ∪ ct_processed st) (ct_reachable_calls st) in
  catalog_ok (Some key) st' ∧ (∀ k, seen st k ↔ seen st' k).
Proof.
  intros Hok Hpending Hsource st'.
  assert (Hseen : ∀ k, seen st k ↔ seen st' k).
  { intros k. unfold seen. cbn. rewrite Hpending. set_solver. }
  split; [|done]. split; cbn.
  - apply (co_local _ _ Hok).
  - apply (co_remote _ _ Hok).
  - intros k Hk. apply (co_reached _ _ Hok). by apply Hseen.
  - intros r Hr. apply Hseen, (co_roots _ _ Hok), Hr.
  - intros k Hk. apply (co_present _ _ Hok). by apply Hseen.
  - apply (co_size _ _ Hok).
  - intros k s [->%elem_of_singleton|Hk]%elem_of_union Hs Hbusy; [congruence|].
    intros j u Hcall. eapply closed_call_extends; [|by eapply (co_closed _ _ Hok)].
    split; [done | by intros ? ?%Hseen].
Qed.

Lemma catalog_turn_spec key pending st :
  catalog_ok None st → ct_pending st = key :: pending →
  outcome_spec (catalog_turn run key (popped st pending))
    (λ st', catalog_ok None st' ∧
       (ct_processed st' = ct_processed st ∧ ct_pending st' = pending ∨
        ct_processed st' = {[key]} ∪ ct_processed st ∧ key ∉ ct_processed st)) (λ _, True).
Proof.
  intros Hok Hpending. unfold catalog_turn. cbn [popped ct_processed].
  assert (Hkey : seen st key). { right. rewrite Hpending. apply list_elem_of_here. }
  case_bool_decide as Hprocessed.
  - cbn. split; [|by left].
    assert (Hseen : ∀ k, seen st k ↔ seen (popped st pending) k).
    { intros k. unfold seen, popped. cbn. rewrite Hpending. set_solver. }
    destruct Hok. split; cbn; try done.
    + intros k Hk. by apply co_reached0, Hseen.
    + intros r Hr. by apply Hseen, co_roots0.
    + intros k Hk. by apply co_present0, Hseen.
    + intros k s Hk Hs Hb j u Hcall. eapply closed_call_extends; [|by eapply co_closed0].
      split; [done | by intros ? ?%Hseen].
  - cbv zeta. cbn [ct_sources ct_pending ct_reachable_calls popped].
    destruct (co_present _ _ Hok key Hkey) as [source Hsource]. rewrite Hsource.
    destruct (begin_turn key pending st source Hok Hpending Hsource) as [Hok' _].
    set (st1 := mkCatalogState (ct_sources st) pending ({[key]} ∪ ct_processed st) (ct_reachable_calls st)) in *.
    assert (Hkey1 : key ∈ ct_processed st1) by (cbn; set_solver).
    eapply outcome_spec_mono.
    + apply (outcome_spec_for_each _
        (λ seen_calls st', turning key source seen_calls st' ∧ ct_processed st' = ct_processed st1)).
      * split; [|done]. split; [done|]. split; [done|]. exists source. split_and!; [done..| |].
        -- done.
        -- intros j u Hcall. right. split; [done | by intros ?%elem_of_nil].
      * intros seen_calls call rest s Hcalls [Hturning Hp]. eapply outcome_spec_mono.
        -- eapply catalog_call_spec; [done | | done]. intros Ho.
           destruct (local_source_remote _ _ _ _ Hok Hsource) as [[? _]|[_ ?]]; [congruence|].
           by eapply remote_source_keys.
        -- cbn. intros s' [? ->]. done.
        -- done.
    + intros st' [(Hok2 & Hk2 & source' & Hs' & Ho' & _ & _ & Hclosed) Hp]. cbn in Hp. split; [|right; by rewrite Hp].
      destruct Hok2. split; try done. intros k s Hk Hs _.
      destruct (decide (k = key)) as [->|Hne]; [|apply (co_closed0 k s); [done | done | congruence]].
      rewrite Hs' in Hs. simplify_eq. intros j u Hcall. rewrite Ho'.
      destruct (Hclosed j u Hcall) as [|[Hin Hnot]]; [done|]. by destruct Hnot.
    + done.
Qed.

(** *** The loop *)

Definition key_bound : gset string := list_to_set roots.

(** What is left to pop: lexicographically, new keys and then the queue. *)
Definition keys_left (st : CatalogState) : nat :=
  size key_bound + MAX_UNIQUE_REUSABLE_WORKFLOWS - size (ct_processed st).

Lemma processed_bound st busy :
  catalog_ok busy st → size (ct_processed st) ≤ size key_bound + MAX_UNIQUE_REUSABLE_WORKFLOWS.
Proof.
  intros Hok. transitivity (size (key_bound ∪ ct_reachable_calls st)).
  - apply subseteq_size. intros k Hk. destruct (co_reached _ _ Hok k ltac:(by left)); [|set_solver].
    apply elem_of_union_l. by apply elem_of_list_to_set.
  - rewrite size_union_alt. pose proof (co_size _ _ Hok).
    assert (size (ct_reachable_calls st ∖ key_bound) ≤ size (ct_reachable_calls st)); [|lia].
    apply subseteq_size. set_solver.
Qed.

Definition finished (st : CatalogState) : Prop := catalog_ok None st ∧ ct_pending st = [].

Lemma catalog_loop_ends st :
  catalog_ok None st → ∃ n, ∀ fuel, n ≤ fuel → outcome_spec (catalog_loop run fuel st) finished (λ _, True).
Proof.
  remember (keys_left st) as left eqn:Hleft. revert st Hleft.
  induction left as [left IHleft] using (well_founded_ind lt_wf). intros st.
  remember (length (ct_pending st)) as len eqn:Hlen. revert st Hlen.
  induction len as [len IHlen] using (well_founded_ind lt_wf). intros st Hlen Hleft Hok.
  destruct (ct_pending st) as [|key pending] eqn:Hpending.
  { exists 0. intros fuel _. destruct fuel; cbn [catalog_loop]; rewrite Hpending; by split. }
  pose proof (catalog_turn_spec key pending st Hok Hpending) as Hturn.
  destruct (catalog_turn run key (popped st pending)) as [st'| |] eqn:Hrun; cbn in Hturn; [| |done].
  - destruct Hturn as [Hok' Hprogress].
    assert (∃ n, ∀ fuel, n ≤ fuel → outcome_spec (catalog_loop run fuel st') finished (λ _, True)) as [n Hn].
    { destruct Hprogress as [[Hp Hq]|[Hp Hnew]].
      - eapply (IHlen (length pending)); [subst; cbn; lia | by rewrite Hq | | done].
        unfold keys_left in *. by rewrite Hp.
      - eapply (IHleft (keys_left st')); [|done..]. pose proof (processed_bound _ _ Hok').
        subst. unfold keys_left. rewrite Hp in *. rewrite size_union, size_singleton in * by set_solver. lia. }
    exists (S n). intros [|fuel] Hfuel; [lia|]. cbn [catalog_loop]. rewrite Hpending.
    change (mkCatalogState _ pending _ _) with (popped st pending). rewrite Hrun. cbn [obind]. apply Hn. lia.
  - exists 1. intros [|fuel] Hfuel; [lia|]. cbn [catalog_loop]. rewrite Hpending.
    change (mkCatalogState _ pending _ _) with (popped st pending). by rewrite Hrun.
Qed.

Lemma start_ok : (∀ root, root ∈ roots → is_Some (local_workflows !! root)) →
  catalog_ok None (mkCatalogState (local_sources run local_workflows) roots ∅ ∅).
Proof.
  intros Hroots. assert (Hlocal : ∀ k, local_sources run local_workflows !! k =
    (λ workflow, mkWorkflowSource workflow OriginLocal (local_workflow_identity run k)) <$> local_workflows !! k).
  { intros k. unfold local_sources. rewrite map_lookup_imap. by destruct (local_workflows !! k). }
  split; cbn.
  - intros k w Hw. by rewrite Hlocal, Hw.
  - intros k s Hs Hn. by rewrite Hlocal, Hn in Hs.
  - intros k [Hk|Hk]; [set_solver | by left].
  - intros r Hr. by right.
  - intros k [Hk|Hk]; [set_solver|]. rewrite Hlocal. destruct (Hroots k Hk) as [w ->]. by eexists.
  - rewrite size_empty. lia.
  - intros k s Hk. set_solver.
Qed.

(** The workflows a run can reach. *)
Inductive reached (catalog : ReusableWorkflowCatalog) : string → Prop :=
  | reached_root root : root ∈ roots → reached catalog root
  | reached_call key workflow job_id uses target :
      reached catalog key → ca_workflows catalog !! key = Some workflow →
      (job_id, uses) ∈ calls_of workflow →
      target = match local_reference uses with Some path => replace_byte "\" "/" path | None => uses end →
      is_Some (local_workflows !! target) ∨ local_reference uses = None →
      reached catalog target.

Definition catalog_of (st : CatalogState) : ReusableWorkflowCatalog :=
  mkCatalog (ws_workflow <$> ct_sources st) (ws_identity <$> ct_sources st).

Lemma catalog_lookup st key workflow :
  ca_workflows (catalog_of st) !! key = Some workflow →
  ∃ source, ct_sources st !! key = Some source ∧ workflow = ws_workflow source ∧
    ca_identities (catalog_of st) !! key = Some (ws_identity source).
Proof.
  cbn. rewrite !lookup_fmap. destruct (ct_sources st !! key) as [source|]; [|done]. intros [= <-]. eauto.
Qed.

Lemma reached_processed st key : finished st → reached (catalog_of st) key → key ∈ ct_processed st.
Proof.
  intros [Hok Hpending].
  assert (Hseen : ∀ k, seen st k → k ∈ ct_processed st).
  { intros k [Hk|Hk]; [done|]. rewrite Hpending in Hk. by apply elem_of_nil in Hk. }
  induction 1 as [root Hroot|key workflow job_id uses target _ IH Hw Hcall -> Hor]; apply Hseen;
    [by apply (co_roots _ _ Hok)|].
  apply catalog_lookup in Hw as (source & Hs & -> & _).
  pose proof (co_closed _ _ Hok key source IH Hs ltac:(done) job_id uses Hcall) as Hc. unfold closed_call in Hc.
  destruct (local_reference uses) as [path|]; [|by destruct Hc].
  destruct Hc as (_ & _ & Hc). destruct Hor; [by apply Hc | done].
Qed.

(** The catalog of a run: what it says of the repository's own workflows, of the
    calls of those that are reached, and of the workflows of other repositories. *)
Record catalog_closed (catalog : ReusableWorkflowCatalog) : Prop := {
  cc_local : ∀ key workflow, local_workflows !! key = Some workflow →
    ca_workflows catalog !! key = Some workflow ∧
    ca_identities catalog !! key = Some (local_workflow_identity run key);
  cc_calls : ∀ key workflow job_id uses, reached catalog key → ca_workflows catalog !! key = Some workflow →
    (job_id, uses) ∈ calls_of workflow →
    match local_reference uses with
    | Some path => local_workflows !! key = Some workflow ∧ is_workflow_path path = true
    | None => is_Some (ca_workflows catalog !! uses)
    end;
  cc_reached : ∃ keys : gset string, size keys ≤ MAX_UNIQUE_REUSABLE_WORKFLOWS ∧
    ∀ key, reached catalog key → is_Some (ca_workflows catalog !! key) ∧ (key ∈ roots ∨ key ∈ keys);
  cc_remote : ∀ key workflow, ca_workflows catalog !! key = Some workflow → local_workflows !! key = None →
    workflow_resolved workflow ∧
    ∃ reference repository canonical_ref, parse_remote_workflow key = Ok reference ∧
      src_owner repository = rw_owner reference ∧ src_repository repository = rw_repository reference ∧
      validate_remote_commit (src_git_ref repository) = Ok tt ∧
      ca_identities catalog !! key = Some (remote_workflow_identity reference repository canonical_ref);
}.

End worklist.

(** ** A concrete catalog

    The run's workflow calls one of another repository, which calls another of
    its own. *)

Section witness.
#[local] Existing Instances demo_values demo_value_lib.

Definition demo_step_uses (action : string) : Step :=
  mkStep None None None (Some action) None None ∅ ∅ None None None None None None None ∅.

Definition demo_caller_of (uses : string) (steps : list Step) : Workflow :=
  mkWorkflow "w" VNull ∅ demo_defaults None None None
    [("call", demo_source_job [] None <| j_uses := Some uses |>);
     ("job", demo_source_job [] None <| j_steps := steps |>)] ∅.

Definition demo_sha : string := sconcat (replicate 40 "a").

#[local] Instance demo_remotes : RemoteLib := {
  materialize_remote_repository := λ _ _ _ _, Ok "/checkout";
  ensure_within := λ _ _, Ok tt;
  read_to_string := λ path, Ok path;
  parse_workflow := λ text,
    if ends_with "build.yml" text
    then Ok (demo_caller_of "./.github/workflows/sign.yml" [demo_step_uses "$/actions/pack"])
    else Ok (mkWorkflow "sign" VNull ∅ demo_defaults None None None [("job", demo_source_job [] None)] ∅);
  git_head := λ _, Ok demo_sha;
  cached_canonical_ref := λ _ _ _, Ok (Some "refs/tags/v1");
}.

Definition demo_catalog_run : RunSpec unit :=
  mkRun unit 7%Z "w" 1%Z 0%Z (mkRepository "octo" "app" "https://github.com/octo/app.git")
    (mkPullRequest 12%Z "opened" "h" "b" "m" "refs/pull/12/merge" "topic" "main")
    None tt "t" None "2022-11-28" false None ∅ ∅.

Definition demo_locals : gmap string Workflow :=
  {[".github/workflows/ci.yml" := demo_caller_of "octo/tools/.github/workflows/build.yml@v1" []]}.

Definition demo_catalog : outcome string ReusableWorkflowCatalog :=
  resolve_reusable_workflow_catalog demo_catalog_run 10 demo_locals [".github/workflows/ci.yml"].

Example demo_catalog_keys :
  omap_ok (λ catalog, btree_keys (ca_workflows catalog)) demo_catalog =
  Ok [".github/workflows/ci.yml"; "octo/tools/.github/workflows/build.yml@v1";
      "octo/tools/.github/workflows/sign.yml@" +:+ demo_sha].
Proof. by vm_compute. Qed.

Lemma demo_remote_laws : RemoteLaws.
Proof.
  split; try done.
  - intros text workflow. cbn. destruct (ends_with "build.yml" text); intros [= <-];
      apply (bool_decide_unpack _); by vm_compute.
  - intros text. cbn. by destruct (ends_with "build.yml" text).
Qed.

End witness.
