(* ===== verification/JobDemo.v ===== *)
(** * The execution of a job: witnesses

    A job with a background step that a later step cancels, run by an oracle that
    answers every effect, and small inputs at which the theorems on contexts,
    actions and runners apply. *)

From S2P Require Import Prelude RustStr RustText UnixPath OrdMap Yaml Instances Workflow Matrix Dependencies.
From S2P Require Import Protocol Masking ProblemMatcher MatcherRegistry WorkflowCommands WorkflowCommandsProps.
From S2P Require Import CommandFile Expression Evaluate Scheduler JobContext Actions Runners Expansion Traced.
From S2P Require Import JobEffects JobSteps JobRun JobThreads JobSafety JobMonitors JobOutcome BaseGroup BaseGroupProps.

#[local] Existing Instances demo_values demo_value_lib demo_expressions.

Definition demo_leaf (v : JValue) : Evaluation :=
  match v with JString s => EvString s | JBool b => EvBoolean b | _ => EvObject [] end.

Definition demo_json_leaf (v : Evaluation) : JValue :=
  match v with EvString s => JString s | EvBoolean b => JBool b | _ => JObject ∅ end.

(** Objects of texts and booleans. *)
#[local] Instance demo_job_json : JsonLib := {|
  eval_of_json := λ v,
    match v with
    | JString s => Some (EvString s)
    | JObject m => Some (EvObject (prod_map id demo_leaf <$> btree_iter m))
    | _ => None
    end;
  json_of_eval := λ v,
    match v with
    | EvString s => Some (JString s)
    | EvObject l => Some (JObject (btree_collect (prod_map id demo_json_leaf <$> l)))
    | _ => None
    end;
  to_string_pretty := λ v, match v with JString s => Some s | _ => None end;
  json_from_str := λ s, Some (JString s);
|}.

#[local] Instance demo_interop : JsonInterop := {|
  json_value s := JString s;
  jnum_of_u64 n := n;
  jnum_display := pretty;
  yaml_of_json v := match v with JString s => Ok (VString s) | _ => Ok VNull end;
|}.

(** ** A run and a job *)

Definition demo_run : RunSpec JValue :=
  mkRun JValue 7%Z "w" 1%Z 0%Z (mkRepository "octo" "app" "https://github.com/octo/app.git")
    (mkPullRequest 12%Z "opened" "h" "b" "m" "refs/pull/12/merge" "topic" "main")
    None JNull "t" None "2022-11-28" false None ∅ ∅.

Definition demo_step (id : string) (background : option string) (kind : StepKind) : PlannedStep :=
  mkPlannedStep id id id ∅ None None None None background kind.

Definition demo_run_step (id : string) : PlannedStep := demo_step id None (KRun "bash" "make").

(** [serve] runs in the background until [stop] cancels it. *)
Definition demo_steps : list PlannedStep :=
  [demo_run_step "build"; demo_step "serve" (Some "success()") (KRun "bash" "serve");
   demo_run_step "test"; demo_step "stop" None (KCancel "serve")].

Definition demo_planned : PlannedJob :=
  mkPlannedJob "job" "job" "Job" "ci.yml" None [] ∅ None (VString "macos-latest") [] [] None ∅ None true None None None
    None None (mkPermissions ∅ ∅) None [] [] [] None ∅ ∅ demo_steps.

(** Every file is empty, the process of [serve] ends cancelled, every other one
    ends with [code]. *)
Definition demo_oracle (code : Z) : Oracle := λ t e,
  match e with
  | ESend _ | ECreateDirectory _ | EPrepareDirectory _ | EWithin _ _ | EWriteFile _ _ => Got tt
  | EUuid => 9%Z
  | ESequence => Z.of_nat (length t)
  | ECancelled | EJobTimedOut | EStepTimedOut _ => false
  | EDeadline _ _ | EUnlock _ | EPushSummary _ _ _ _ | ESpawn _ | EEnded _ _ | EJoin _ _ => tt
  | ESlot _ => SlotAcquired
  | EWorkflowToken => Got (Some "token")
  | EManagedSecrets _ | EEnvironmentVariables _ => Got ∅
  | EReadFile _ => Got ""
  | EReadSummary _ => SummaryMissing
  | EArtifactFiles _ _ => Got (mkArtifactFiles "declarations" "list")
  | EArtifactSubjects _ => Got (0, 0)
  | ELock => demo_processor
  | EProcess step_id _ _ =>
      if bool_decide (step_id = "plan/job/serve") then Broken ProcessCancelled
      else if bool_decide (code = 0)%Z then Exited 0 else Broken (ProcessExit code)
  | ECheckout _ _ _ _ => Failed "no checkout"
  | EMaterialize _ _ => Failed "no action"
  | ELoadDefinition _ => Failed "no action"
  end.

Definition demo_shell_split (s : string) : option (list string) := Some (split " " s).

Definition demo_locals : Locals := mkLocals ∅ [] (summary_new "Job") None.

Definition demo_end : list Entry * Locals * outcome string LoopState :=
  all_steps demo_hash_files demo_shell_split (λ _, "u") None "aarch64" (demo_oracle 0) 1 7%Z "plan/job" "CI"
    demo_planned demo_run ∅ ∅ "/run/work" "/run" (JObject ∅) "none" "Job" ∅ ∅ [] demo_locals.

Lemma demo_end_ok :
  match demo_end.2 with
  | Ok state => bool_decide (ls_status state = Success ∧ ls_background_order state = ["serve"] ∧ ls_completed_steps state = 4)
  | Err _ | Panic => false
  end = true.
Proof. vm_compute. reflexivity. Qed.

Lemma job_status_covers_every_step_witness :
  NoDup (ps_id <$> pj_steps demo_planned) ∧
  ∃ t l state, demo_end = (t, l, Ok state) ∧ ls_status state = Success ∧ ls_background_order state = ["serve"] ∧
    background_steps_are_recorded state ∧ (ls_status state = Success → recorded_steps_are_fine state).
Proof.
  assert (NoDup (ps_id <$> pj_steps demo_planned)) as Hnd by (apply (bool_decide_unpack _); vm_compute; exact I).
  split; [exact Hnd|].
  pose proof demo_end_ok as H. destruct demo_end as [[t l] [state| |]] eqn:E; [|discriminate H|discriminate H].
  apply bool_decide_eq_true in H as (Hs & Ho & _). exists t, l, state.
  split; [reflexivity|]. split; [exact Hs|]. split; [exact Ho|].
  exact (job_status_covers_every_step demo_hash_files demo_shell_split (λ _, "u") None "aarch64" (demo_oracle 0) 1 7%Z
    "plan/job" "CI" demo_planned demo_run ∅ ∅ "/run/work" "/run" (JObject ∅) "none" "Job" ∅ ∅ [] demo_locals t l state Hnd E).
Defined.

(** ** Overlapping steps *)

(** The same job with a deployment. *)
Definition demo_deploying : PlannedJob :=
  demo_planned <| pj_deployment_environment := Some (mkPlannedEnvironment "production" None true) |>.

Notation demo_job_trace := (job_trace demo_hash_files demo_shell_split (λ _, None) (λ _, "u") None "aarch64" (demo_oracle 0) 1 7%Z
  "plan/job" "CI" demo_deploying demo_run ∅ ∅ "/run/work" "/run" ∅ (JObject ∅)
  (runner_targeting (default_runner_labels "aarch64") None) "none" [] demo_locals).

Definition step_ends (step_id : string) (entry : Entry) : bool :=
  match en_effect entry with ESend (StepFinished _ _ id _ _) => bool_decide (id = step_id) | _ => false end.

Definition step_starts (step_id : string) (entry : Entry) : bool :=
  match en_effect entry with ESend (StepStarted _ _ id _) => bool_decide (id = step_id) | _ => false end.

(** The end of [serve] is seen after the start of [test]: each of the entries from
    the first on changes places with those up to the second. *)
Definition demo_exchanges (trace : list Entry) : list nat :=
  match list_find (λ entry, step_ends "plan/job/serve" entry = true) trace,
        list_find (λ entry, step_starts "plan/job/test" entry = true) trace with
  | Some (i, _), Some (j, _) => seq (S i) (j - S i) ++ seq i (j - S i)
  | _, _ => []
  end.

Definition demo_order : list (Thread * Entry) :=
  default [] (exchange_all (demo_exchanges demo_job_trace) (threads None demo_job_trace)).

Lemma demo_order_exists :
  is_some (exchange_all (demo_exchanges demo_job_trace) (threads None demo_job_trace)) = true.
Proof. vm_compute. reflexivity. Qed.

Lemma demo_order_observed : observed (threads None demo_job_trace) demo_order.
Proof.
  apply (exchange_all_observed (demo_exchanges demo_job_trace)). pose proof demo_order_exists as H. unfold demo_order.
  destruct (exchange_all _ _); [reflexivity | discriminate H].
Qed.

(** Taken together the messages of this order do not nest. *)
Example demo_order_overlaps : monitor check_steps [] demo_order.*2 = None.
Proof. vm_compute. reflexivity. Qed.

Lemma step_messages_nest_witness :
  observed (threads None demo_job_trace) demo_order ∧ monitor check_steps [] demo_order.*2 = None ∧
  (∃ open joined, monitor check_main_steps ([], true) (of_thread None demo_order) = Some (open, joined) ∧
     (is_ok (execute_job demo_hash_files demo_shell_split (λ _, None) (λ _, "u") None "aarch64" (demo_oracle 0) 1 7%Z
        "plan/job" "CI" demo_deploying demo_run ∅ ∅ "/run/work" "/run" ∅ (JObject ∅)
        (runner_targeting (default_runner_labels "aarch64") None) "none" [] demo_locals).2 = true → open = [] ∧ joined = true)) ∧
  ∀ id, monitor check_task_steps [] (of_thread (Some id) demo_order) = Some [] ∧
        lives false (base.filter (concerns id) demo_order) = Some false.
Proof.
  split; [exact demo_order_observed|]. split; [exact demo_order_overlaps|].
  exact (step_messages_nest demo_hash_files demo_shell_split (λ _, None) (λ _, "u") None "aarch64" (demo_oracle 0) 1 7%Z
    "plan/job" "CI" demo_deploying demo_run ∅ ∅ "/run/work" "/run" ∅ (JObject ∅)
    (runner_targeting (default_runner_labels "aarch64") None) "none" [] demo_locals demo_order demo_order_observed).
Defined.

Lemma deployments_are_concluded_witness :
  observed (threads None demo_job_trace) demo_order ∧
  length (base.filter (λ entry, reports_deployment entry = true) demo_order.*2) = 2 ∧
  ∃ open, monitor check_deployment false demo_order.*2 = Some open ∧
    ((execute_job demo_hash_files demo_shell_split (λ _, None) (λ _, "u") None "aarch64" (demo_oracle 0) 1 7%Z
        "plan/job" "CI" demo_deploying demo_run ∅ ∅ "/run/work" "/run" ∅ (JObject ∅)
        (runner_targeting (default_runner_labels "aarch64") None) "none" [] demo_locals).2 ≠ Panic → open = false).
Proof.
  split; [exact demo_order_observed|]. split; [vm_compute; reflexivity|].
  exact (deployments_are_concluded demo_hash_files demo_shell_split (λ _, None) (λ _, "u") None "aarch64" (demo_oracle 0) 1 7%Z
    "plan/job" "CI" demo_deploying demo_run ∅ ∅ "/run/work" "/run" ∅ (JObject ∅)
    (runner_targeting (default_runner_labels "aarch64") None) "none" [] demo_locals demo_order demo_order_observed).
Defined.

(** ** After a failure *)

(** What is left of a job that failed: two steps without a status function. *)
Definition demo_rest : list PlannedStep := [demo_run_step "package"; demo_run_step "publish"].

Definition demo_failed : LoopState := mkLoop ∅ Failure 1 ∅ [].

Lemma nothing_runs_after_a_failure_witness :
  (∀ step, step ∈ demo_rest → ordinary step) ∧ ls_status demo_failed ≠ Success ∧
  monitor check_idle ()
    (drop 0 (run_steps demo_hash_files demo_shell_split (λ _, "u") None "aarch64" (demo_oracle 0) 1 7%Z "plan/job" "CI"
       demo_planned demo_run ∅ ∅ "/run/work" "/run" (JObject ∅) "none" "Job" ∅ ∅ demo_rest demo_failed [] demo_locals).1.1)
  = Some ().
Proof.
  assert (∀ step, step ∈ demo_rest → ordinary step) as Hsteps.
  { intros step. unfold demo_rest. rewrite !elem_of_cons, elem_of_nil.
    intros [-> | [-> | []]]; repeat split; reflexivity. }
  assert (ls_status demo_failed ≠ Success) as Hs by discriminate.
  split; [exact Hsteps|]. split; [exact Hs|].
  exact (nothing_runs_after_a_failure demo_hash_files demo_shell_split (λ _, "u") None "aarch64" (demo_oracle 0) 1 7%Z
    "plan/job" "CI" demo_planned demo_run ∅ ∅ "/run/work" "/run" (JObject ∅) "none" "Job" ∅ ∅ demo_rest demo_failed
    [] demo_locals Hsteps Hs).
Defined.

(** Both steps are reported as skipped: the state above is one the loop takes through. *)
Example demo_rest_is_skipped :
  match (run_steps demo_hash_files demo_shell_split (λ _, "u") None "aarch64" (demo_oracle 0) 1 7%Z "plan/job" "CI"
           demo_planned demo_run ∅ ∅ "/run/work" "/run" (JObject ∅) "none" "Job" ∅ ∅ demo_rest demo_failed [] demo_locals).2 with
  | Ok state => bool_decide (ls_completed_steps state = 1 ∧ size (ls_steps state) = 2)
  | Err _ | Panic => false
  end = true.
Proof. vm_compute. reflexivity. Qed.

(** ** Joins *)

Definition demo_initial : gmap string string := <["PATH" := "/usr/bin:/bin"]> (<["CI" := "true"]> ∅).
Definition demo_final : gmap string string :=
  <["PATH" := "/opt/tool:/usr/bin:/bin"]> (<["CI" := "true"]> (<["TOOL" := "1"]> ∅)).

Lemma background_merge_is_sequential_witness :
  (∀ name, is_Some (demo_initial !! name) → is_Some (demo_final !! name)) ∧
  (demo_final !! "PATH" = None → default "" (Some "/bin") = "") ∧
  same_environment (Some "/bin") (merge_background_environment (Some "/bin") demo_initial demo_initial demo_final) demo_final.
Proof.
  assert (∀ name, is_Some (demo_initial !! name) → is_Some (demo_final !! name)) as Hkept.
  { intros name [v Hv]. unfold demo_initial in Hv. unfold demo_final.
    apply lookup_insert_Some in Hv as [[<- _] | [Hn Hv]]; [by rewrite lookup_insert_eq|].
    rewrite (lookup_insert_ne _ "PATH" name) by exact Hn.
    apply lookup_insert_Some in Hv as [[<- _] | [_ Hv]]; [by rewrite lookup_insert_eq|].
    rewrite lookup_empty in Hv. discriminate Hv. }
  assert (demo_final !! "PATH" = None → default "" (Some "/bin") = "") as Hpath by (intros H; discriminate H).
  split; [exact Hkept|]. split; [exact Hpath|].
  exact (background_merge_is_sequential (Some "/bin") demo_initial demo_final Hkept Hpath).
Defined.

Example demo_merge_clears_path :
  merge_background_environment (Some "/bin") ∅ ∅ ∅ !! "PATH" = Some "".
Proof. vm_compute. reflexivity. Qed.

(** ** Secrets, references and runners *)

Definition demo_scope : PlannedReusableSecretScope := mkSecretScope false {["TOKEN" := "DEPLOY_KEY"]} {["TOKEN"]}.

Definition demo_called : PlannedJob :=
  mkPlannedJob "call:job" "call:job" "Job" "called.yml" None [] ∅ None (VString "macos-latest") [] [demo_scope] None ∅ None
    true None None None None None (mkPermissions ∅ ∅) None [] [] [] None ∅ ∅ demo_steps.

Definition demo_secrets : gmap string string := <["DEPLOY_KEY" := "k"]> (<["OTHER" := "o"]> {["GITHUB_TOKEN" := "t"]}).

(** Two calls: the second maps a secret the first one does not pass. *)
Definition demo_nested_scope : PlannedReusableSecretScope :=
  mkSecretScope false {["INNER" := "token"; "LOST" := "OTHER"]} {["inner"]}.

Example demo_secrets_are_passed_down :
  match resolve_reusable_secrets (demo_called <| pj_reusable_secret_scopes := [demo_scope; demo_nested_scope] |>) demo_secrets with
  | Ok resolved => bool_decide (resolved = {["GITHUB_TOKEN" := "t"; "INNER" := "k"]})
  | Err _ | Panic => false
  end = true.
Proof. vm_compute. reflexivity. Qed.

(** A job for a GPU agent in a plan of its own. *)
Definition demo_gpu_plan : ExecutionPlan :=
  mkExecutionPlan "CI" "ci.yml" None
    [mkPlannedJob "gpu" "gpu" "GPU" "ci.yml" None [] ∅ None (VSequence [VString "self-hosted"; VString "gpu"]) [] [] None ∅
       None true None None None None None (mkPermissions ∅ ∅) None [] [] [] None ∅ ∅ []].

Definition demo_agent : RunnerTargeting := runner_targeting (default_runner_labels "aarch64") None.

Lemma rejected_runs_have_an_ineligible_job_witness :
  ∃ requirements, statically_resolvable_runner_requirements demo_hash_files "aarch64" demo_run "/run/repository" "/run"
                    [demo_gpu_plan] = Ok requirements ∧
    runner_satisfies_requirements requirements demo_agent = false ∧
    length requirements ≤ MAX_RUNNER_REQUIREMENTS ∧
    (runner_satisfies_requirements requirements demo_agent = false →
     ∃ plan owner job selector, plan ∈ [demo_gpu_plan] ∧ job_within plan owner job ∧
       selects demo_hash_files "aarch64" demo_run "/run/repository" "/run" owner job selector ∧
       eligible demo_agent selector = false).
Proof.
  assert (match statically_resolvable_runner_requirements demo_hash_files "aarch64" demo_run "/run/repository" "/run"
                  [demo_gpu_plan] with
          | Ok requirements => negb (runner_satisfies_requirements requirements demo_agent)
          | Err _ | Panic => false end = true) as H by (vm_compute; reflexivity).
  destruct (statically_resolvable_runner_requirements demo_hash_files "aarch64" demo_run "/run/repository" "/run"
              [demo_gpu_plan]) as [requirements| |] eqn:E; [|discriminate H|discriminate H].
  apply negb_true_iff in H. exists requirements. split; [reflexivity|]. split; [exact H|].
  exact (rejected_runs_have_an_ineligible_job demo_hash_files "aarch64" demo_run "/run/repository" "/run" [demo_gpu_plan]
           requirements demo_agent E).
Defined.

(** ** The instances of a base job *)

(** Two instances of a matrix with [max-parallel: 1] and fail-fast. *)
Definition demo_instance (id : string) : PlannedJob :=
  mkPlannedJob id "job" "Job" "ci.yml" None [] ∅ None (VString "macos-latest") [] [] None ∅ None true (Some 1%Z) None None
    None None (mkPermissions ∅ ∅) None [] [] [] None ∅ ∅ demo_steps.

Definition demo_instances : list PlannedJob := [demo_instance "job[1]"; demo_instance "job[2]"].

Definition no_concurrency (job : PlannedJob) : outcome string (option Request) := Ok None.

Definition demo_failure : JobExecution := mkJobExecution JobFailure 2 {["x" := "1"]}.

(** The first instance fails while the second waits for its turn. *)
Definition demo_events : list GroupEvent :=
  [Polled 0 (Ok tt); Polled 1 (Ok tt); MatrixSlot 0 (Ok tt); ExecutionSlot 0 (Ok tt) (Ok tt);
   JobEnded 0 (Ok demo_failure) false; MatrixSlot 1 (Ok tt); ResultTaken 1; ResultTaken 0].

Definition demo_group_end : option Group :=
  group_events demo_instances no_concurrency demo_events (group_start demo_instances false).

Lemma demo_group_end_ok :
  match demo_group_end with
  | Some g => bool_decide (gr_executed g = [0] ∧ gr_reported g = [1] ∧ gr_fail_fast g = true)
  | None => false
  end = true.
Proof. vm_compute. reflexivity. Qed.

Lemma matrix_instances_run_within_limits_witness :
  ∃ g, group_events demo_instances no_concurrency demo_events (group_start demo_instances false) = Some g ∧
    gr_executed g = [0] ∧
    (Z.of_nat (matrix_slots_in_use g) ≤ matrix_parallelism demo_instances)%Z ∧
    NoDup (gr_executed g) ∧
    (gr_fail_fast g = true ↔
     ∃ i job phase, demo_instances !! i = Some job ∧ gr_phases g !! i = Some phase ∧ stops_group job phase = true) ∧
    (∀ more g', gr_fail_fast g = true → group_events demo_instances no_concurrency more g = Some g' →
       gr_executed g' = gr_executed g) ∧
    (∀ executions, taken (gr_phases g) = Some executions →
       gr_leases g = ∅ ∧
       ∀ i execution, executions !! i = Some execution → i ∉ gr_executed g → execution = job_skipped ∨ execution = job_cancelled).
Proof.
  pose proof demo_group_end_ok as H. unfold demo_group_end in H.
  destruct (group_events demo_instances no_concurrency demo_events (group_start demo_instances false)) as [g|] eqn:E;
    [|discriminate H].
  apply bool_decide_eq_true in H as (He & _ & _). exists g. split; [reflexivity|]. split; [exact He|].
  exact (matrix_instances_run_within_limits demo_instances no_concurrency false demo_events g E).
Defined.

(** The same group before its last two events. *)
Definition demo_some_events : list GroupEvent := take 6 demo_events.

Lemma matrix_groups_end_witness :
  ∃ g, group_events demo_instances no_concurrency demo_some_events (group_start demo_instances false) = Some g ∧
    group_end "job" g = None ∧
    length demo_some_events ≤ 8 * length demo_instances + 2 ∧
    (group_end "job" g = None → ∃ event g', moves event = true ∧ group_event demo_instances no_concurrency event g = Some g').
Proof.
  assert (match group_events demo_instances no_concurrency demo_some_events (group_start demo_instances false) with
          | Some g => negb (is_some (group_end "job" g)) | None => false end = true) as H by (vm_compute; reflexivity).
  destruct (group_events demo_instances no_concurrency demo_some_events (group_start demo_instances false)) as [g|] eqn:E;
    [|discriminate H].
  destruct (group_end "job" g) as [result|] eqn:Ee; [discriminate H|]. exists g. split; [reflexivity|]. split; [exact Ee|].
  exact (matrix_groups_end demo_instances no_concurrency "job" false demo_some_events g E).
Defined.

Definition demo_running : Running := mkRunning "job" demo_instances [] ∅ ∅ [].

(** The second scope of a gate is refused. *)
Definition demo_acquire (s : Scopes) (unit_id : string) (request : Request) (cancellations : list Uuid) : Acquisition :=
  if bool_decide (unit_id = "scope:deploy") then Acquired 5%Z else AcquisitionCancelled "superseded".

Definition demo_release (s : Scopes) (lease : Uuid) : outcome string unit := Ok tt.

Definition demo_scopes : Scopes := mkScopes {["other" := 3%Z]} [3%Z] [].

Lemma base_groups_refine_the_scheduler_witness :
  ∃ s' opening,
    open_base_group demo_hash_files demo_acquire demo_release "aarch64" "CI" 0 (rn_base_id demo_running) demo_run
      (rn_completed_bases demo_running) (rn_completed_outputs demo_running) (rn_completion_order demo_running)
      "/run/repository" "/run" ∅ (λ _ _ _, Ok tt) (rn_jobs demo_running) demo_scopes = (s', Ok opening) ∧
    match opening with
    | OpenDone execution => base_group demo_hash_files demo_running execution
    | OpenInstances instances _ =>
        ∀ concurrency cancelled events g execution,
          group_events instances concurrency events (group_start instances cancelled) = Some g →
          group_end (rn_base_id demo_running) g = Some (Ok execution) → base_group demo_hash_files demo_running execution
    end.
Proof.
  assert (match (open_base_group demo_hash_files demo_acquire demo_release "aarch64" "CI" 0 (rn_base_id demo_running) demo_run
      (rn_completed_bases demo_running) (rn_completed_outputs demo_running) (rn_completion_order demo_running)
      "/run/repository" "/run" ∅ (λ _ _ _, Ok tt) (rn_jobs demo_running) demo_scopes).2 with
          | Ok (OpenInstances instances _) => bool_decide (length instances = 2)
          | _ => false end = true) as H by (vm_compute; reflexivity).
  destruct (open_base_group demo_hash_files demo_acquire demo_release "aarch64" "CI" 0 (rn_base_id demo_running) demo_run
      (rn_completed_bases demo_running) (rn_completed_outputs demo_running) (rn_completion_order demo_running)
      "/run/repository" "/run" ∅ (λ _ _ _, Ok tt) (rn_jobs demo_running) demo_scopes) as [s' [opening| |]] eqn:E;
    [|discriminate H|discriminate H].
  exists s', opening. split; [reflexivity|].
  exact (base_groups_refine_the_scheduler demo_hash_files demo_acquire demo_release "aarch64" "CI" 0 demo_run
    "/run/repository" "/run" ∅ (λ _ _ _, Ok tt) demo_running demo_scopes s' opening E).
Defined.

Definition demo_gate : PlannedJob :=
  mkPlannedJob "gate" "gate" "Gate" "ci.yml" None [] ∅ None VNull [] [] None ∅ None true None None None
    None None (mkPermissions ∅ ∅) None []
    [mkConcurrencyScope "deploy" (mkPlannedConcurrency "production" "${{ github.missing }}" QueueSingle) [];
     mkConcurrencyScope "nested" (mkPlannedConcurrency "staging" "${{ github.missing }}" QueueSingle) []]
    [] None ∅ ∅ [].

Definition demo_gate_context : EvaluationContext := demo_context "s".

Lemma concurrency_scopes_open_together_witness :
  ∃ s', acquire_concurrency_scopes demo_hash_files demo_acquire demo_release demo_gate demo_gate_context demo_scopes =
      (s', Ok false) ∧ Ok false ≠ Panic (E := string) ∧
    ∃ leases, sc_acquired s' = sc_acquired demo_scopes ++ leases ∧ sc_active s' = sc_active demo_scopes ∧
      sc_released s' = sc_released demo_scopes ++ leases.
Proof.
  assert (match (acquire_concurrency_scopes demo_hash_files demo_acquire demo_release demo_gate demo_gate_context demo_scopes).2 with
          | Ok false => true | _ => false end = true) as H by (vm_compute; reflexivity).
  destruct (acquire_concurrency_scopes demo_hash_files demo_acquire demo_release demo_gate demo_gate_context demo_scopes)
    as [s' [[]| |]] eqn:E; try discriminate H.
  assert (Ok false ≠ Panic (E := string)) as Hpanic by discriminate.
  exists s'. split; [reflexivity|]. split; [exact Hpanic|].
  exact (concurrency_scopes_open_together demo_hash_files demo_acquire demo_release demo_gate demo_gate_context demo_scopes s'
    (Ok false) E Hpanic).
Defined.
