(* ===== verification/RunExecution.v ===== *)
(** * A run (crates/gitzero-agent, executor.rs)

    [Executor::execute_with_services]: the services of a run, its checkout, the
    discovery of its workflows, their execution, and the report that ends it; and
    [execute_plan], the concurrency of one workflow.  A run is a traced program
    over effects with arbitrary answers.  Its plans run concurrently: an answer
    says which of those running ends next, and how. *)

From S2P Require Import Prelude RustStr RustText UnixPath OrdMap Yaml Expression Evaluate Templates Workflow Triggers.
From S2P Require Import Reusable Linking Protocol Masking LogOutput Scheduler JobContext Actions Runners Traced JobEffects GitObjects BaseGroup.
From S2P Require Import CheckoutInputs GitEffects Materialize Catalog Identities CheckSummary DeploymentPolicy.

(** [ExecutorConfig], as far as a run reads it. *)
Record ExecutorConfig := mkExecutorConfig {
  cfg_work_root : string;
  cfg_runner_name : string;
  cfg_keep_failed_workspaces : bool;
}.

(** ** Effects *)

(** The directory listing: the names, and the error that ended it if one did. *)
Definition Listing : Type := list string * option string.

Inductive RunEffect `{VT : ValueTypes} `{EL : ExpressionLib} :=
  | RUuid
  | RSend (message : AgentMessage)                                    (** to the masking relay *)
  | RPrepareDirectory (path : string)                                 (** [prepare_directory] *)
  | RCreateDirectories (path : string)
  | RRemoveTree (path : string)
  | RStartCache (uploads repository scope runtime_token : string)     (** [CacheService::start]: its URL *)
  | RStopCache
  | RStartArtifacts (directory runtime_token run_backend_id job_backend_id : string)
  | RStopArtifacts
  | RStartRelay (secrets : list string)
  | RJoinRelay                                                        (** [relay.await]: its result, unless it panicked *)
  | RSourceToken (refresh : bool)
  | RClearTokens
  | RRun (step_id : string) (command : GitCommand)
  | ROutput (command : GitCommand)
  | RReadDirectory (path : string)
  | RReadFile (path : string)
  | RWriteJson (path : string) (value : JValue)
  | RChangedPaths (token : option string)                             (** [fetch_pull_request_changed_paths] *)
  | RNextPlan (running : list (nat * ExecutionPlan)) (environment : Environment)
      (** [running_plans.next()]: one of those running, and the result of its [execute_plan] *)
  | RCancelled                                                        (** [*cancel.borrow()] *)
  | RTakeSummaries.

Definition run_answer `{VT : ValueTypes} `{EL : ExpressionLib} (e : RunEffect) : Type :=
  match e with
  | RUuid => Uuid
  | RSend _ | RPrepareDirectory _ | RCreateDirectories _ | RRemoveTree _ | RStopCache | RStopArtifacts | RWriteJson _ _ =>
      Answer unit
  | RStartCache _ _ _ _ | RStartArtifacts _ _ _ _ | RReadFile _ => Answer string
  | RStartRelay _ | RClearTokens => unit
  | RJoinRelay => Answer (Answer unit)
  | RSourceToken _ => Answer (option string)
  | RRun _ _ => ProcessResult
  | ROutput _ => Answer Output
  | RReadDirectory _ => Found Listing
  | RChangedPaths _ => Answer (list string)
  | RNextPlan _ _ => nat * Answer PlanExecution
  | RCancelled => bool
  | RTakeSummaries => list JobSummary
  end.

Notation RunOracle := (Traced.Oracle run_answer).
Notation RunEntry := (Traced.Entry run_answer).
Notation RunAct := (Traced.Act run_answer unit).

(** [#[error(..)]] of [WorkflowError] *)
Definition display_workflow_error (e : WorkflowError) : string :=
  match e with
  | InvalidYaml message => "invalid workflow YAML: " +:+ message
  | Incompatible workflow job reason =>
      "workflow '" +:+ workflow +:+ "' job '" +:+ job +:+ "' is not compatible: " +:+ reason
  | UnsupportedWorkflow workflow reason => "workflow '" +:+ workflow +:+ "' is not compatible: " +:+ reason
  end.

(** ** The result of the plans *)

(** What the loop over the plans has counted. *)
Record Tally := mkTally {
  ta_completed_steps : nat;
  ta_failed_jobs : list string;
  ta_timed_out_jobs : list string;
  ta_cancelled_jobs : list string;
  ta_workflow_errors : list string;
}.

Definition PlanResult : Type := string * Answer PlanExecution.

Definition count_result (tally : Tally) (result : PlanResult) : Tally :=
  match result.2 with
  | Got plan =>
      mkTally (ta_completed_steps tally + pe_completed_steps plan) (ta_failed_jobs tally ++ pe_failed_jobs plan)
        (ta_timed_out_jobs tally ++ pe_timed_out_jobs plan) (ta_cancelled_jobs tally ++ pe_cancelled_jobs plan)
        (ta_workflow_errors tally)
  | Failed error =>
      mkTally (ta_completed_steps tally) (ta_failed_jobs tally) (ta_timed_out_jobs tally) (ta_cancelled_jobs tally)
        (ta_workflow_errors tally ++ [result.1 +:+ ": " +:+ error])
  end.

Definition tally_results (results : list PlanResult) : Tally := fold_left count_result results (mkTally 0 [] [] [] []).

Inductive ExecutionDisposition :=
  | Completed (conclusion : Conclusion.Conclusion) (summary : string)
  | Rejected (requirements : list RunnerRequirement).

(** The errors that are told apart afterwards; the others are their messages. *)
Inductive RunFailure := RunTimedOut (jobs : string) | RunConcurrencyCancelled (jobs : string).

Definition sorted_list (separator : string) (names : list string) : string := sjoin separator (merge_sort string_le names).

(** The checks after the loop, in their order. *)
Definition judge (cancelled : bool) (tally : Tally) : outcome string (ExecutionDisposition + RunFailure) :=
  if cancelled then Err "run cancelled"
  else if negb (is_nil (ta_workflow_errors tally))
  then Err ("workflow execution errors: " +:+ sorted_list "; " (ta_workflow_errors tally))
  else if negb (is_nil (ta_failed_jobs tally))
  then Err ("workflow jobs failed: " +:+ sorted_list ", " (ta_failed_jobs tally))
  else if negb (is_nil (ta_timed_out_jobs tally)) then Ok (inr (RunTimedOut (sorted_list ", " (ta_timed_out_jobs tally))))
  else if negb (is_nil (ta_cancelled_jobs tally))
  then Ok (inr (RunConcurrencyCancelled (sorted_list ", " (ta_cancelled_jobs tally))))
  else Ok (inl (Completed Conclusion.Success
                  ("GitZero completed " +:+ pretty (ta_completed_steps tally) +:+ " step(s) successfully."))).

Definition cancelled_plan_execution `{VT : ValueTypes} (plan : ExecutionPlan) : PlanExecution :=
  mkPlanExecution 0 [] [] [ep_workflow_name plan].

(** ** The concurrency of one workflow *)

Inductive PlanEffect :=
  | PAcquire (unit_id group : string) (cancel_in_progress : bool) (queue : ConcurrencyQueue)   (** [concurrency.acquire] *)
  | PExecute (lease : option Uuid)              (** [execute_plan_inner], also cancelled with the lease *)
  | PLeaseCancelled (lease : Uuid)              (** [*lease_cancel.borrow()] *)
  | PCancelled                                  (** [*cancel.borrow()] *)
  | PRelease (lease : Uuid).

Definition plan_answer (e : PlanEffect) : Type :=
  match e with
  | PAcquire _ _ _ _ => Acquisition
  | PExecute _ => Answer PlanExecution
  | PLeaseCancelled _ | PCancelled => bool
  | PRelease _ => Answer unit
  end.

Notation PlanOracle := (Traced.Oracle plan_answer).
Notation PlanAct := (Traced.Act plan_answer unit).

Section plan.
Context `{VL : ValueLib} `{EL : ExpressionLib} `{JL : !JsonLib} `{JI : !JsonInterop}.
Context (hash_files : string → list string → outcome ExpressionError string) (arch : string).
Context (run : RunSpec JValue) (repository_dir run_dir : string) (oracle : PlanOracle).

Notation perform := (perform oracle).

(** The group of the workflow, in the context of its first job. *)
Definition plan_concurrency (plan : ExecutionPlan) (configuration : PlannedConcurrency) (environment : Environment) :
    outcome string (string * bool * ConcurrencyQueue) :=
  let? template := ok_or (head (ep_jobs plan)) "workflow concurrency requires at least one planned job" in
  let plan_environment := btree_extend environment (github_workflow_environment run plan) in
  let? context := expression_context arch run template ∅ ∅ plan_environment (JObject ∅) (JObject ∅) Expression.Success
                    repository_dir run_dir None in
  let? context := insert_json_root "inputs" (JObject ∅) context in
  resolve_concurrency hash_files configuration context (ep_workflow_name plan).

(** The lease is released before the result is looked at; a plan whose lease was
    taken away counts as cancelled unless the whole run was. *)
Definition execute_with_lease (plan : ExecutionPlan) (lease : Uuid) : PlanAct PlanExecution :=
  run! execution := perform (PExecute (Some lease)) in
  run! lease_cancelled := perform (PLeaseCancelled lease) in
  run! concurrency_cancelled :=
    if lease_cancelled : bool then run! cancelled := perform PCancelled in ret (negb cancelled) else ret false in
  run! release := perform (PRelease lease) in
  if concurrency_cancelled : bool then ret (cancelled_plan_execution plan)
  else
    match execution with
    | Got execution => of_answer release ;> ret execution
    | Failed error => bail error
    end.

Definition execute_plan (plan : ExecutionPlan) (environment : Environment) : PlanAct PlanExecution :=
  match ep_concurrency plan with
  | None => ask (perform (PExecute None))
  | Some configuration =>
      run! (group, cancel_in_progress, queue) := lift (plan_concurrency plan configuration environment) in
      run! acquisition := perform (PAcquire ("workflow:" +:+ ep_workflow_path plan) group cancel_in_progress queue) in
      match acquisition with
      | Acquired lease => execute_with_lease plan lease
      | AcquisitionCancelled _ => ret (cancelled_plan_execution plan)
      | AcquisitionFailed error => bail error
      end
  end.
End plan.

Section run.
Context `{VL : ValueLib} `{EL : ExpressionLib} `{JL : !JsonLib} `{JI : !JsonInterop} `{TC : !TemplateContract}.
Context `{RX : RegexLib} `{RL : !RemoteLib}.
Context (hash_files : string → list string → outcome ExpressionError string).
Context (base64 base64_url : string → string) (arch : string) (uuid_text uuid_simple : Uuid → string).
Context (catalog_fuel : nat).
Context (config : ExecutorConfig) (runner_targeting : RunnerTargeting) (run : RunSpec JValue).
Context (oracle : RunOracle).

Notation perform := (perform oracle).

Definition run_dir : string := join (cfg_work_root config) (uuid_text (run_id run)).
Definition repository_dir : string := join run_dir "repository".

(** [context]: the display of an error is that of the whole chain. *)
Definition in_context {A : Type} (message : string) (c : RunAct A) : RunAct A := λ t l,
  let '(t, l, r) := c t l in (t, l, map_err (λ e, message +:+ ": " +:+ e) r).

Definition send (message : Uuid → AgentMessage) : RunAct unit :=
  run! message_id := perform RUuid in
  in_context "control plane event channel closed" (ask (perform (RSend (message message_id)))).

(** ** The checkout of the run *)

Definition CHECKOUT_STEP : string := "gitzero-checkout".

Definition run_git_in (context : string) (command : GitCommand) : RunAct unit :=
  in_context context
    (run! result := perform (RRun CHECKOUT_STEP (in_directory repository_dir command)) in
     match result with Exited _ => ret () | Broken error => bail (process_message error) end).

Definition fetch_merge (checkout_token : option string) : GitCommand :=
  let fetch := with_variable "GIT_TERMINAL_PROMPT" "0"
    (git ["fetch"; "--quiet"; "--no-tags"; "--depth=1"; "origin"; prs_merge_sha (run_pull_request run)]) in
  match checkout_token with
  | Some checkout_token =>
      with_variable "GIT_CONFIG_VALUE_0" (authorization base64 checkout_token)
        (with_variable "GIT_CONFIG_KEY_0" CHECKOUT_HTTP_EXTRAHEADER (with_variable "GIT_CONFIG_COUNT" "1" fetch))
  | None => fetch
  end.

Definition checkout (checkout_token : option string) : RunAct unit :=
  let merge_sha := prs_merge_sha (run_pull_request run) in
  send (λ id, StepStarted id (run_id run) CHECKOUT_STEP "Checkout repository") ;>
  run! initialize := lift (configure_git_init_object_format (git ["init"; "--quiet"]) merge_sha) in
  run_git_in "initialize repository" initialize ;>
  run_git_in "configure repository remote" (git ["remote"; "add"; "origin"; rs_clone_url (run_repository run)]) ;>
  run_git_in "fetch exact pull request merge snapshot" (fetch_merge checkout_token) ;>
  run_git_in "checkout pull request merge snapshot" (git ["checkout"; "--quiet"; "--detach"; "FETCH_HEAD"]) ;>
  run! output := in_context "verify checkout"
    (ask (perform (ROutput (in_directory repository_dir (git ["rev-parse"; "HEAD"]))))) in
  let actual := trimmed_stdout output in
  lift (reject_if (negb (out_success output) || negb (eq_ignore_ascii_case actual merge_sha))
    ("checkout verification failed: expected " +:+ merge_sha +:+ ", got " +:+ actual)) ;>
  send (λ id, StepFinished id (run_id run) CHECKOUT_STEP Conclusion.Success (Some 0%Z)).

(** ** Discovery *)

Definition is_workflow_file (path : string) : bool :=
  match extension path with Some extension => bool_decide (extension = "yml" ∨ extension = "yaml") | None => false end.

(** The files of one directory: their paths are ordered as their names are. *)
Definition workflow_paths (directory : string) (names : list string) : list string :=
  merge_sort string_le (base.filter (λ path, is_workflow_file path = true) (join directory <$> names)).

Fixpoint read_workflows (paths : list string) : RunAct (list (string * Workflow)) :=
  match paths with
  | [] => ret []
  | path :: paths =>
      run! source := in_context ("read workflow " +:+ path) (ask (perform (RReadFile path))) in
      run! workflow := in_context ("parse " +:+ path) (lift (parse_workflow source)) in
      run! workflows := read_workflows paths in
      ret ((path, workflow) :: workflows)
  end.

(** Only when a trigger asks for them. *)
Definition changed_paths (workflows : list (string * Workflow)) : RunAct (option (list string)) :=
  if existsb (λ entry : string * Workflow, requires_pull_request_changed_paths entry.2) workflows then
    run! paths :=
      match run_changed_paths run with
      | Some paths => ret paths
      | None =>
          run! source_token := ask (perform (RSourceToken false)) in
          ask (perform (RChangedPaths source_token))
      end in
    lift (validate_changed_paths paths) ;>
    ret (Some paths)
  else ret None.

(** [strip_prefix(repository_dir).expect(..)], with slashes *)
Definition workflow_key (path : string) : outcome string string :=
  let? relative := expect (strip_components (components repository_dir) (components path)) in
  Ok (replace_byte "\" "/" (from_utf8_lossy (path_of relative))).

Definition keyed (entry : string * Workflow) : outcome string (string * Workflow) :=
  let? key := workflow_key entry.1 in Ok (key, entry.2).

Definition matching_path (paths : option (list string)) (entry : string * Workflow) : outcome string (list string) :=
  let? matches := map_err display_workflow_error
    (matches_pull_request entry.2 (prs_action (run_pull_request run)) (prs_base_ref (run_pull_request run)) paths) in
  Ok (if matches : bool then [entry.1] else []).

Definition compile_root (catalog : ReusableWorkflowCatalog) (entry : string * string) : outcome string ExecutionPlan :=
  let '(path, key) := entry in
  let? workflow := expect (ca_workflows catalog !! key) in
  let? plan := map_err (λ e, "compile " +:+ path +:+ ": " +:+ display_workflow_error e)
                 (compile_with_reusables (ca_workflows catalog) workflow key) in
  hydrate_plan_workflow_identities (ca_identities catalog) plan.

(** From the parsed files to the plans. *)
Definition plan_workflows (workflows : list (string * Workflow)) (paths : option (list string)) :
    outcome string (list ExecutionPlan) :=
  let? local_reusable_workflows := omap_ok btree_collect (traverse keyed workflows) in
  let? matching := omap_ok mjoin (traverse (matching_path paths) workflows) in
  let? root_keys := traverse workflow_key matching in
  let? catalog := resolve_reusable_workflow_catalog run catalog_fuel local_reusable_workflows root_keys in
  traverse (compile_root catalog) (zip matching root_keys).

Definition discover_workflows : RunAct (list ExecutionPlan) :=
  let directory := join repository_dir ".github/workflows" in
  run! entries := perform (RReadDirectory directory) in
  match entries with
  | NotFound => ret []
  | Unreadable error => bail ("read workflow directory: " +:+ error)
  | Found_ (names, ended) =>
      lift (match ended with Some error => Err error | None => Ok tt end) ;>
      run! workflows := read_workflows (workflow_paths directory names) in
      run! paths := changed_paths workflows in
      lift (plan_workflows workflows paths)
  end.

(** ** Execution *)

(** [running_plans], until none is left. *)
Fixpoint await_plans (count : nat) (running : list (nat * ExecutionPlan)) (environment : Environment) :
    RunAct (list PlanResult) :=
  match count with
  | 0 => ret []
  | S count =>
      run! (choice, result) := perform (RNextPlan running environment) in
      let position := choice `mod` length running in
      match running !! position with
      | None => ret []
      | Some (_, plan) =>
          run! results := await_plans count (delete position running) environment in
          ret ((ep_workflow_name plan, result) :: results)
      end
  end.

(** [CacheService::environment], [ArtifactService::environment] *)
Definition cache_environment (base_url runtime_token : string) : Environment :=
  btree_collect [("ACTIONS_CACHE_URL", base_url); ("ACTIONS_RUNTIME_TOKEN", runtime_token); ("ACTIONS_CACHE_SERVICE_V2", "")].

Definition artifact_environment (base_url runtime_token : string) : Environment :=
  btree_collect [("ACTIONS_RESULTS_URL", base_url); ("ACTIONS_RUNTIME_URL", base_url); ("ACTIONS_RUNTIME_TOKEN", runtime_token)].

(** [github_environment], with the event it writes. *)
Definition written_github_environment (tool_cache : string) : RunAct Environment :=
  ask (perform (RWriteJson (join run_dir "event.json") (github_event run))) ;>
  ret (github_environment arch run repository_dir run_dir tool_cache (cfg_runner_name config)).

(** The [async] block: what the services are up for. *)
Definition execution (cache_url artifact_url runtime_token : string) : RunAct (ExecutionDisposition + RunFailure) :=
  run! source_token := ask (perform (RSourceToken false)) in
  checkout source_token ;>
  run! plans := discover_workflows in
  run! requirements :=
    lift (statically_resolvable_runner_requirements hash_files arch run repository_dir run_dir plans) in
  if negb (runner_satisfies_requirements requirements runner_targeting) then ret (inl (Rejected requirements))
  else
    send (λ id, JobStarted id (run_id run)) ;>
    if is_nil plans then
      ret (inl (Completed Conclusion.Neutral "No workflows matched this pull_request activity at the execution SHA."))
    else
      let tool_cache := join (cfg_work_root config) "_toolcache" in
      ask (perform (RCreateDirectories tool_cache)) ;>
      run! defaults := written_github_environment tool_cache in
      let defaults := btree_extend (btree_extend defaults (cache_environment cache_url runtime_token))
                        (artifact_environment artifact_url runtime_token) in
      let environment := btree_extend (run_environment run) defaults in
      run! results := await_plans (length plans) (enumerate plans) environment in
      run! cancelled := perform RCancelled in
      lift (judge cancelled (tally_results results)).

(** ** The services *)

Definition quoted (text : string) : string := String "034" (text +:+ String "034" "").

Definition actions_runtime_token (run_backend_id job_backend_id : string) (first second : Uuid) : string :=
  let header := base64_url ("{" +:+ quoted "alg" +:+ ":" +:+ quoted "none" +:+ "," +:+ quoted "typ" +:+ ":" +:+ quoted "JWT" +:+ "}") in
  let payload := base64_url ("{" +:+ quoted "scp" +:+ ":" +:+
                   quoted ("Actions.Results:" +:+ run_backend_id +:+ ":" +:+ job_backend_id) +:+ "}") in
  header +:+ "." +:+ payload +:+ "." +:+ uuid_simple first +:+ uuid_simple second.

(** The cache service is stopped when the artifact service does not start. *)
Definition start_services : RunAct (string * string * string) :=
  run! job_backend := perform RUuid in
  run! first := perform RUuid in
  run! second := perform RUuid in
  let run_backend_id := uuid_text (run_id run) in
  let job_backend_id := uuid_text job_backend in
  let runtime_token := actions_runtime_token run_backend_id job_backend_id first second in
  run! cache_url := ask (perform (RStartCache (join run_dir "_cache-uploads") (repository_name run)
                          (prs_execution_ref (run_pull_request run)) runtime_token)) in
  run! artifacts := perform (RStartArtifacts (join run_dir "_workflow-artifacts") runtime_token run_backend_id job_backend_id) in
  match artifacts with
  | Got artifact_url => ret (cache_url, artifact_url, runtime_token)
  | Failed error => perform RStopCache ;> bail ("start workflow artifact service: " +:+ error)
  end.

(** The services are shut down whatever the result; the first error counts, a run
    that timed out or was cancelled by concurrency being one. *)
Definition stop_services {A : Type} (result : outcome string (A + RunFailure)) : RunAct (outcome string (A + RunFailure)) :=
  run! artifact_shutdown := perform RStopArtifacts in
  run! cache_shutdown := perform RStopCache in
  ret (match result, artifact_shutdown, cache_shutdown with
       | Ok (inl _), Failed error, _ => Err ("shut down workflow artifact service: " +:+ error)
       | Ok (inl _), Got _, Failed error => Err ("shut down workflow cache service: " +:+ error)
       | result, _, _ => result
       end).

(** The conclusion and the summary of a run that was not rejected. *)
Definition conclude (result : outcome string (Conclusion.Conclusion * string + RunFailure)) :
    RunAct (Conclusion.Conclusion * string) :=
  match result with
  | Ok (inl concluded) => ret concluded
  | Panic => lift Panic
  | Err _ | Ok (inr _) =>
      run! cancelled := perform RCancelled in
      ret (if cancelled : bool then (Conclusion.Cancelled, "Run cancelled.")
           else match result with
                | Ok (inr (RunTimedOut jobs)) => (Conclusion.TimedOut, "workflow jobs timed out: " +:+ jobs)
                | Ok (inr (RunConcurrencyCancelled jobs)) =>
                    (Conclusion.Cancelled, "workflow jobs cancelled by concurrency: " +:+ jobs)
                | Err error => (Conclusion.Failure, error)
                | Ok (inl concluded) => concluded
                | Panic => (Conclusion.Failure, "")
                end)
  end.

(** [relay.await.context(..)?] and the two results it leaves. *)
Definition join_relay (sent : outcome string unit) : RunAct unit :=
  run! relay_result := in_context "join event masking relay" (ask (perform RJoinRelay)) in
  lift sent ;>
  of_answer relay_result.

Definition report_rejected (requirements : list RunnerRequirement) : RunAct unit :=
  run! sent := attempt (send (λ id, JobRejected id (run_id run) requirements
    "This Mac does not satisfy every statically resolvable runner selector.")) in
  perform (RRemoveTree run_dir) ;>
  join_relay sent.

(** A run directory is kept only when the configuration keeps those of runs that did
    not succeed. *)
Definition is_success (conclusion : Conclusion.Conclusion) : bool :=
  match conclusion with Conclusion.Success => true | _ => false end.

Definition report_finished (conclusion : Conclusion.Conclusion) (summary : string) : RunAct unit :=
  run! summaries := perform RTakeSummaries in
  run! sent := attempt (send (λ id, JobFinished id (run_id run) conclusion (compose_check_summary summary summaries) [])) in
  (if is_success conclusion || negb (cfg_keep_failed_workspaces config)
   then perform (RRemoveTree run_dir) ;> ret () else ret ()) ;>
  join_relay sent.

Definition report (result : outcome string (ExecutionDisposition + RunFailure)) : RunAct unit :=
  match result with
  | Ok (inl (Rejected requirements)) => report_rejected requirements
  | Ok (inl (Completed conclusion summary)) => run! concluded := conclude (Ok (inl (conclusion, summary))) in
      report_finished concluded.1 concluded.2
  | Ok (inr failure) => run! concluded := conclude (Ok (inr failure)) in report_finished concluded.1 concluded.2
  | Err error => run! concluded := conclude (Err error) in report_finished concluded.1 concluded.2
  | Panic => lift Panic
  end.

Definition execute_with_services : RunAct unit :=
  lift (validate_run run) ;>
  ask (perform (RPrepareDirectory run_dir)) ;>
  ask (perform (RCreateDirectories repository_dir)) ;>
  run! (cache_url, artifact_url, runtime_token) := start_services in
  let secrets := secret_values base64 (run_checkout_token run) (run_environment run) ++ [runtime_token] in
  perform (RStartRelay secrets) ;>
  run! result := attempt (execution cache_url artifact_url runtime_token) in
  run! result := stop_services result in
  perform RClearTokens ;>
  report result.
End run.
