(* ===== verification/Agent.v ===== *)
(** * The agent (crates/gitzero-agent, main.rs)

    The entry point: the checks of its arguments, the address it connects to, and
    the jobs it runs.  What happens to the jobs is a transition system: an event is
    a message of the control plane, a tick of the heartbeat, a step of the task of a
    job, or the end of the connection. *)

From S2P Require Import Prelude RustStr RustText Protocol.

(** ** Arguments *)

Record Limits := mkLimits {
  li_max_parallelism : Z;
  li_cache_max_bytes : Z;
  li_cache_max_entry_bytes : Z;
  li_artifact_max_bytes : Z;
  li_artifact_max_entry_bytes : Z;
}.

Definition check_arguments (args : Limits) : outcome string unit :=
  reject_if (negb (bool_decide (1 ≤ li_max_parallelism args ≤ 64)%Z)) "--max-parallelism must be between 1 and 64" ;?
  reject_if (bool_decide (li_cache_max_entry_bytes args = 0%Z)
             || bool_decide (li_cache_max_bytes args < li_cache_max_entry_bytes args)%Z)
    "--cache-max-bytes must be at least --cache-max-entry-bytes, and both must be positive" ;?
  reject_if (bool_decide (li_artifact_max_entry_bytes args = 0%Z)
             || bool_decide (li_artifact_max_bytes args < li_artifact_max_entry_bytes args)%Z)
    "--artifact-max-bytes must be at least --artifact-max-entry-bytes, and both must be positive".

(** The assertions of [Executor::new]; the number is that of its execution slots. *)
Definition executor_new (config : Limits) : outcome string nat :=
  if negb (bool_decide (1 ≤ li_max_parallelism config ≤ 64)%Z) then Panic
  else if negb (bool_decide (0 < li_artifact_max_entry_bytes config)%Z &&
                bool_decide (li_artifact_max_entry_bytes config ≤ li_artifact_max_bytes config)%Z) then Panic
  else if negb (bool_decide (0 < li_cache_max_entry_bytes config)%Z &&
                bool_decide (li_cache_max_entry_bytes config ≤ li_cache_max_bytes config)%Z) then Panic
  else Ok (Z.to_nat (li_max_parallelism config)).

(** The delays between connections, in seconds. *)
Definition next_retry (retry : Z) : Z := (retry * 2) `min` 30.

Definition retry_delay (attempt : nat) : Z := Nat.iter attempt next_retry 1%Z.

(** ** The address *)

Definition unreserved (c : ascii) : bool :=
  is_ascii_alphanumeric c || bool_decide (c ∈ ["-"%char; "_"%char; "."%char; "~"%char]).

(** [{byte:02X}] *)
Definition upper_hex (n : N) : ascii := if decide (n < 10)%N then ascii_of_N (48 + n) else ascii_of_N (55 + n).

Fixpoint url_component (value : string) : string :=
  match value with
  | EmptyString => EmptyString
  | String c value =>
      if unreserved c then String c (url_component value)
      else String "%" (String (upper_hex (N_of_ascii c / 16)) (String (upper_hex (N_of_ascii c mod 16)) (url_component value)))
  end.

Fixpoint trim_slashes (s : string) : string :=
  match s with
  | EmptyString => EmptyString
  | String c s =>
      match trim_slashes s with
      | EmptyString => if bool_decide (c = "/"%char) then EmptyString else String c EmptyString
      | rest => String c rest
      end
  end.

Definition websocket_url (control_plane workspace_id agent_id : string) : outcome string string :=
  let base := trim_slashes control_plane in
  let? base :=
    match strip_prefix "https://" base with
    | Some rest => Ok ("wss://" +:+ rest)
    | None =>
        match strip_prefix "http://" base with
        | Some rest => Ok ("ws://" +:+ rest)
        | None =>
            if starts_with "ws://" base || starts_with "wss://" base then Ok base
            else Err "control plane URL must start with http://, https://, ws://, or wss://"
        end
    end in
  Ok (base +:+ "/v1/workspaces/" +:+ url_component workspace_id +:+ "/connect?role=agent&agent_id=" +:+ url_component agent_id).

(** ** Jobs *)

(** A task holds its permit until its body ends, and is finished only then. *)
Inductive TaskStatus := Holding | Leaving | Finished.

#[export] Instance TaskStatus_eq_dec : EqDecision TaskStatus.
Proof. solve_decision. Defined.

Record RunningJob := mkRunningJob { rj_cancelled : bool; rj_status : TaskStatus }.

#[export] Instance RunningJob_eq_dec : EqDecision RunningJob.
Proof. solve_decision. Defined.


(** What a message means for the clients of [Concurrency] and [RepositoryAccess]. *)
Inductive Delivery :=
  | DeliverGranted (request_id : Uuid)
  | DeliverCancelled (request_id : Uuid) (reason : string)
  | DeliverToken (request_id : Uuid) (token : RepositoryToken) (expires_at_epoch_seconds : Z)
  | DeliverDenied (request_id : Uuid) (reason : string)
  | DeliverSecrets (request_id : Uuid) (secrets : SecretMap)
  | DeliverSecretsDenied (request_id : Uuid) (reason : string)
  | DeliverCancelConcurrency      (** [concurrency.cancel_all()] *)
  | DeliverCancelAccess.          (** [repository_access.cancel_all()] *)

Record Agent := mkAgent {
  ag_running : gmap Uuid RunningJob;
  ag_permits : nat;                      (** available in the semaphore *)
  ag_deliveries : list Delivery;
  ag_heartbeats : list (list Uuid);      (** the jobs each heartbeat names *)
}.

Definition agent_new (max_parallelism : nat) : Agent := mkAgent ∅ max_parallelism [] [].

Definition reap_finished (running : gmap Uuid RunningJob) : gmap Uuid RunningJob :=
  base.filter (λ entry, rj_status entry.2 ≠ Finished) running.

Definition with_running (f : gmap Uuid RunningJob → gmap Uuid RunningJob) (agent : Agent) : Agent :=
  mkAgent (f (ag_running agent)) (ag_permits agent) (ag_deliveries agent) (ag_heartbeats agent).

Definition hand_over (delivery : Delivery) (agent : Agent) : Agent :=
  mkAgent (ag_running agent) (ag_permits agent) (ag_deliveries agent ++ [delivery]) (ag_heartbeats agent).

(** [RunJob]: an assignment of a job that runs is ignored; one beyond the capacity is
    an error, which ends the connection. *)
Definition assign_job (job_id : Uuid) (agent : Agent) : Agent * outcome string unit :=
  let running := reap_finished (ag_running agent) in
  match running !! job_id with
  | Some _ => (with_running (λ _, running) agent, Ok tt)
  | None =>
      match ag_permits agent with
      | 0 => (with_running (λ _, running) agent, Err "control plane assigned more jobs than agent capacity")
      | S permits =>
          (mkAgent (<[job_id := mkRunningJob false Holding]> running) permits (ag_deliveries agent) (ag_heartbeats agent), Ok tt)
      end
  end.

Definition cancel (job : RunningJob) : RunningJob := mkRunningJob true (rj_status job).

Section messages.
Context {J : Type}.

Definition handle_server_message (message : ServerMessage J) (agent : Agent) : Agent * outcome string unit :=
  match message with
  | Welcome protocol_version _ =>
      (agent, reject_if (negb (bool_decide (protocol_version = PROTOCOL_VERSION)))
        ("protocol mismatch: control plane=" +:+ pretty protocol_version +:+ ", agent=" +:+ pretty PROTOCOL_VERSION))
  | RunJob job => assign_job (run_id job) agent
  | CancelJob job_id _ => (with_running (alter cancel job_id) agent, Ok tt)
  | ConcurrencyGranted request_id => (hand_over (DeliverGranted request_id) agent, Ok tt)
  | ConcurrencyCancelled request_id reason => (hand_over (DeliverCancelled request_id reason) agent, Ok tt)
  | RepositoryTokenGranted request_id token expires | WorkflowTokenGranted request_id token expires =>
      (hand_over (DeliverToken request_id token expires) agent, Ok tt)
  | RepositoryTokenDenied request_id reason | WorkflowTokenDenied request_id reason =>
      (hand_over (DeliverDenied request_id reason) agent, Ok tt)
  | SecretGranted request_id secrets => (hand_over (DeliverSecrets request_id secrets) agent, Ok tt)
  | SecretDenied request_id reason => (hand_over (DeliverSecretsDenied request_id reason) agent, Ok tt)
  | Ack _ | ServerError _ _ => (agent, Ok tt)
  end.
End messages.

(** The branch of the heartbeat: the jobs it names, in no order. *)
Definition heartbeat (agent : Agent) : Agent :=
  let running := reap_finished (ag_running agent) in
  mkAgent running (ag_permits agent) (ag_deliveries agent) (ag_heartbeats agent ++ [(map_to_list running).*1]).

Definition holding (job : RunningJob) : bool :=
  match rj_status job with Holding => true | Leaving | Finished => false end.

(** Jobs whose task still holds its permit. *)
Definition holders (running : gmap Uuid RunningJob) : nat :=
  size (base.filter (λ entry : Uuid * RunningJob, holding entry.2 = true) running).

(** The clients are told, every job is cancelled and waited for, or aborted: its
    permit comes back either way. *)
Definition stop_all (agent : Agent) : Agent :=
  mkAgent ∅ (ag_permits agent + holders (ag_running agent)) (ag_deliveries agent ++ [DeliverCancelConcurrency; DeliverCancelAccess])
    (ag_heartbeats agent).

(** The end of the body of a task, and that of the task. *)
Definition task_left (job_id : Uuid) (agent : Agent) : Agent :=
  match ag_running agent !! job_id with
  | Some (mkRunningJob cancelled Holding) =>
      mkAgent (<[job_id := mkRunningJob cancelled Leaving]> (ag_running agent)) (S (ag_permits agent)) (ag_deliveries agent)
        (ag_heartbeats agent)
  | _ => agent
  end.

Definition task_finished (job_id : Uuid) (agent : Agent) : Agent :=
  match ag_running agent !! job_id with
  | Some (mkRunningJob cancelled Leaving) => with_running <[job_id := mkRunningJob cancelled Finished]> agent
  | _ => agent
  end.

(** What a task sends itself when the run returns an error. *)
Definition crash_report (message_id job_id : Uuid) (result : outcome string unit) : list AgentMessage :=
  match result with
  | Err error => [JobFinished message_id job_id Conclusion.Failure ("Agent execution error: " +:+ error) []]
  | Ok _ | Panic => []
  end.

Inductive AgentEvent (J : Type) :=
  | Received (message : ServerMessage J)
  | HeartbeatDue
  | TaskLeft (job_id : Uuid)
  | TaskFinished (job_id : Uuid)
  | Disconnected.
Arguments Received {J}. Arguments HeartbeatDue {J}. Arguments TaskLeft {J}. Arguments TaskFinished {J}.
Arguments Disconnected {J}.

(** An error of a message ends the connection. *)
Definition agent_event {J : Type} (agent : Agent) (event : AgentEvent J) : Agent :=
  match event with
  | Received message =>
      match handle_server_message message agent with
      | (agent, Ok _) => agent
      | (agent, _) => stop_all agent
      end
  | HeartbeatDue => heartbeat agent
  | TaskLeft job_id => task_left job_id agent
  | TaskFinished job_id => task_finished job_id agent
  | Disconnected => stop_all agent
  end.

Definition agent_run {J : Type} (max_parallelism : nat) (events : list (AgentEvent J)) : Agent :=
  fold_left agent_event events (agent_new max_parallelism).

(** ** Lemmas *)

Lemma holders_insert_new job_id job running :
  running !! job_id = None →
  holders (<[job_id := job]> running) = (if holding job then 1 else 0) + holders running.
Proof.
  intros Hnone. unfold holders. destruct (holding job) eqn:Hjob.
  - rewrite map_filter_insert_True by done. rewrite map_size_insert_None; [done|].
    apply map_lookup_filter_None. by left.
  - rewrite map_filter_insert_False by (cbn; by rewrite Hjob). by rewrite delete_id.
Qed.

(** A job whose task keeps or gives up its permit. *)
Lemma holders_insert_old job_id old job running :
  running !! job_id = Some old →
  holders (<[job_id := job]> running) + (if holding old then 1 else 0) = (if holding job then 1 else 0) + holders running.
Proof.
  intros Hold. assert (delete job_id running !! job_id = None) as Hnone by apply lookup_delete_eq.
  rewrite <-(insert_delete_id running job_id old Hold) at 2. rewrite <-(insert_delete_eq running job_id job).
  rewrite !holders_insert_new by done. lia.
Qed.

Lemma holders_reap running : holders (reap_finished running) = holders running.
Proof.
  unfold holders, reap_finished. rewrite map_filter_filter_l; [done|]. intros job_id [cancelled status] _ Hholding. cbn in *.
  by destruct status.
Qed.

Lemma holders_cancel job_id running : holders (alter cancel job_id running) = holders running.
Proof.
  destruct (running !! job_id) as [job|] eqn:Hjob; [|by rewrite alter_id by (by intros ?; rewrite Hjob)].
  assert (alter cancel job_id running = <[job_id := cancel job]> running) as -> by (apply map_eq; intros other;
    destruct (decide (other = job_id)) as [->|]; [by rewrite lookup_alter_eq, lookup_insert_eq, Hjob | by rewrite lookup_alter_ne, lookup_insert_ne]).
  pose proof (holders_insert_old job_id job (cancel job) running Hjob) as H.
  change (holding (cancel job)) with (holding job) in H. lia.
Qed.

(** The permits that are out are those of the tasks that hold one. *)
Definition within_capacity (max_parallelism : nat) (agent : Agent) : Prop :=
  holders (ag_running agent) + ag_permits agent = max_parallelism ∧ Forall (λ jobs, NoDup jobs) (ag_heartbeats agent).

Lemma stop_all_within max agent : within_capacity max agent → within_capacity max (stop_all agent).
Proof. intros [H ?]. split; [cbn; change (holders ∅) with 0; lia | done]. Qed.

Lemma assign_job_within max job_id agent : within_capacity max agent → within_capacity max (assign_job job_id agent).1.
Proof.
  intros [H Hbeats]. unfold assign_job. cbv zeta.
  destruct (reap_finished (ag_running agent) !! job_id) eqn:Hjob.
  - split; [|done]. cbn [fst with_running ag_running ag_permits]. by rewrite holders_reap.
  - destruct (ag_permits agent) as [|permits] eqn:Hpermits; (split; [|done]); cbn [fst with_running ag_running ag_permits].
    + rewrite holders_reap. lia.
    + rewrite holders_insert_new, holders_reap by exact Hjob.
      change (1 + holders (ag_running agent) + permits = max). lia.
Qed.

Lemma handle_within {J} max (message : ServerMessage J) agent :
  within_capacity max agent → within_capacity max (handle_server_message message agent).1.
Proof.
  intros H. destruct message; try exact H; [by apply assign_job_within|].
  destruct H as [H ?]. split; [cbn; by rewrite holders_cancel | done].
Qed.

Lemma agent_event_within {J} max agent (event : AgentEvent J) :
  within_capacity max agent → within_capacity max (agent_event agent event).
Proof.
  intros H. destruct event as [message| |job_id|job_id|]; cbn [agent_event].
  - pose proof (handle_within max message agent H) as Hm. destruct (handle_server_message message agent) as [agent' [?|e|]]; cbn in Hm;
      [done | by apply stop_all_within..].
  - destruct H as [H Hbeats]. split; [cbn; by rewrite holders_reap|]. cbn. apply Forall_app. split; [done|].
    repeat constructor. apply NoDup_fst_map_to_list.
  - unfold task_left. destruct (ag_running agent !! job_id) as [[cancelled []]|] eqn:Hjob; try done. destruct H as [H ?]. split; [|done].
    cbn. pose proof (holders_insert_old job_id _ (mkRunningJob cancelled Leaving) _ Hjob) as Hh. cbn in Hh. lia.
  - unfold task_finished. destruct (ag_running agent !! job_id) as [[cancelled []]|] eqn:Hjob; try done. destruct H as [H ?]. split; [|done].
    cbn. pose proof (holders_insert_old job_id _ (mkRunningJob cancelled Finished) _ Hjob) as Hh. cbn in Hh. lia.
  - by apply stop_all_within.
Qed.

(** C31: The agent runs no more jobs than it has permits.  After any messages of the
    control plane, heartbeats, steps of tasks and disconnections, in any order, the
    tasks that hold a permit and the permits left are together exactly its
    parallelism - none is lost when a job ends, is cancelled, is reaped or is stopped
    with the connection, and an assignment beyond the capacity starts nothing; no
    heartbeat names a job twice. *)
Theorem agent_runs_within_capacity {J} max_parallelism (events : list (AgentEvent J)) :
  within_capacity max_parallelism (agent_run max_parallelism events).
Proof.
  unfold agent_run. assert (within_capacity max_parallelism (agent_new max_parallelism)) as H by (split; [done | constructor]).
  revert H. generalize (agent_new max_parallelism). induction events as [|event events IH]; intros agent H; [done|].
  cbn [fold_left]. by apply IH, agent_event_within.
Qed.

(** Arguments that are accepted satisfy the assertions of the executor. *)
Lemma checked_arguments_run args :
  (0 ≤ li_cache_max_entry_bytes args)%Z → (0 ≤ li_artifact_max_entry_bytes args)%Z →
  check_arguments args = Ok tt → executor_new args = Ok (Z.to_nat (li_max_parallelism args)).
Proof.
  intros Hc Ha H. unfold check_arguments in H. apply obind_Ok in H as (_ & H1%reject_if_Ok & H).
  apply obind_Ok in H as (_ & [H2 H3]%reject_if_Ok%orb_false_iff & [H4 H5]%reject_if_Ok%orb_false_iff).
  apply negb_false_iff in H1. apply bool_decide_eq_false in H2, H3, H4, H5. unfold executor_new.
  rewrite H1. rewrite !bool_decide_true by lia. done.
Qed.

(** The delays double up to thirty seconds, and stay there. *)
Lemma retry_delay_exact attempt : retry_delay attempt = Z.min (2 ^ Z.of_nat attempt) 30.
Proof.
  unfold retry_delay. induction attempt as [|attempt IH]; [done|]. change (Nat.iter (S attempt) next_retry 1%Z) with (next_retry (Nat.iter attempt next_retry 1%Z)). rewrite IH. unfold next_retry.
  rewrite Nat2Z.inj_succ, Z.pow_succ_r by lia. pose proof (Z.pow_pos_nonneg 2 (Z.of_nat attempt)). lia.
Qed.

(** ** Components of the address *)

Definition hex_value (c : ascii) : option N :=
  if byte_in 48 57 c then Some (N_of_ascii c - 48)%N else if byte_in 65 70 c then Some (N_of_ascii c - 55)%N else None.

(** Percent-decoding, as a server does it. *)
Fixpoint percent_decode (s : string) : option string :=
  match s with
  | EmptyString => Some EmptyString
  | String c s1 =>
      if bool_decide (c = "%"%char) then
        match s1 with
        | String high (String low s3) =>
            high ← hex_value high; low ← hex_value low; rest ← percent_decode s3;
            Some (String (ascii_of_N (high * 16 + low)) rest)
        | _ => None
        end
      else rest ← percent_decode s1; Some (String c rest)
  end.

Lemma escaped_byte c :
  match hex_value (upper_hex (N_of_ascii c / 16)), hex_value (upper_hex (N_of_ascii c mod 16)) with
  | Some high, Some low => ascii_of_N (high * 16 + low) = c
  | _, _ => False
  end ∧ unreserved (upper_hex (N_of_ascii c / 16)) = true ∧ unreserved (upper_hex (N_of_ascii c mod 16)) = true.
Proof. destruct c as [[] [] [] [] [] [] [] []]; vm_compute; done. Qed.

Lemma unreserved_percent c : unreserved c = true → c ≠ "%"%char.
Proof. by intros H ->. Qed.

(** A component of the address survives the server's decoding, whatever its bytes,
    and cannot be read as anything else: only letters, digits, [-], [_], [.], [~] and
    percent escapes are in it. *)
Theorem url_component_roundtrip value :
  percent_decode (url_component value) = Some value ∧
  string_forall (λ c, unreserved c || bool_decide (c = "%"%char)) (url_component value) = true.
Proof.
  induction value as [|c value [IH IHc]]; [done|]. cbn [url_component]. destruct (unreserved c) eqn:Hc.
  - split.
    + cbn [percent_decode]. rewrite bool_decide_false by (by apply unreserved_percent). by rewrite IH.
    + cbn. by rewrite Hc.
  - destruct (escaped_byte c) as (Hbyte & Hhigh & Hlow). split.
    + cbn [percent_decode]. rewrite bool_decide_true by done.
      destruct (hex_value (upper_hex (N_of_ascii c / 16))) as [high|]; [|done].
      destruct (hex_value (upper_hex (N_of_ascii c mod 16))) as [low|]; [|done]. cbn. by rewrite IH; cbn; rewrite Hbyte.
    + cbn. by rewrite Hhigh, Hlow.
Qed.

Example demo_url :
  websocket_url "https://ci.example.com/" "acme/42" "mini 1" =
  Ok "wss://ci.example.com/v1/workspaces/acme%2F42/connect?role=agent&agent_id=mini%201".
Proof. by vm_compute. Qed.
