(* ===== verification/RunProps.v ===== *)
(** * Runs: properties

    What a run reports and when, as a monitor of its trace; the result of its plans
    in whatever order they end; and the lease of a workflow. *)

From S2P Require Import Prelude RustStr RustText UnixPath OrdMap Yaml Expression Evaluate Templates Workflow Triggers.
From S2P Require Import Reusable Linking Protocol Masking Scheduler JobContext Actions Runners Traced JobEffects GitObjects BaseGroup.
From S2P Require Import CheckoutInputs GitEffects Materialize Catalog Identities CheckSummary DeploymentPolicy RunExecution Agent.

(** ** The lease of a workflow *)

Inductive LeaseState := LeaseFresh | LeaseHeld (lease : Uuid) | LeaseOver.

(** [concurrent]: the workflow has a concurrency group.  Then it executes only
    under a lease, and nothing follows the release. *)
Definition check_lease (concurrent : bool) (state : LeaseState) (entry : Traced.Entry plan_answer) : option LeaseState :=
  match entry, state with
  | mkEntry (PAcquire _ _ _ _) (Acquired lease), LeaseFresh => if concurrent then Some (LeaseHeld lease) else None
  | mkEntry (PAcquire _ _ _ _) _, LeaseFresh => if concurrent then Some LeaseOver else None
  | mkEntry (PExecute None) _, LeaseFresh => if concurrent then None else Some LeaseOver
  | mkEntry (PExecute (Some lease)) _, LeaseHeld held => if decide (lease = held) then Some state else None
  | mkEntry (PLeaseCancelled lease) _, LeaseHeld held => if decide (lease = held) then Some state else None
  | mkEntry PCancelled _, LeaseHeld _ => Some state
  | mkEntry (PRelease lease) _, LeaseHeld held => if decide (lease = held) then Some LeaseOver else None
  | _, _ => None
  end.

Definition lease_free (state : LeaseState) : Prop := match state with LeaseHeld _ => False | LeaseFresh | LeaseOver => True end.

Section lease.
Context `{VL : ValueLib} `{EL : ExpressionLib} `{JL : !JsonLib} `{JI : !JsonInterop}.
Context (hash_files : string → list string → outcome ExpressionError string) (arch : string).
Context (run : RunSpec JValue) (repository_dir run_dir : string) (oracle : PlanOracle).
Context (concurrent : bool).

Notation moves := (moves (L:=unit) (check_lease concurrent) lease_free lease_free).
Notation perform_moves := (Traced.moves_perform (answer := plan_answer) (check_lease concurrent)).

Lemma execute_with_lease_moves plan lease :
  moves (LeaseHeld lease) (execute_with_lease oracle plan lease) LeaseOver.
Proof.
  unfold execute_with_lease.
  eapply moves_bind; [apply perform_moves; intros a; cbn; by rewrite decide_True|]. intros execution.
  eapply moves_bind; [apply perform_moves; intros a; cbn; by rewrite decide_True|]. intros cancelled.
  eapply moves_bind.
  { destruct cancelled; [|apply moves_ret]. eapply moves_bind; [by apply perform_moves|]. intros. apply moves_ret. }
  intros concurrency_cancelled.
  eapply moves_bind; [apply perform_moves; intros a; cbn; by rewrite decide_True|]. intros release.
  destruct concurrency_cancelled; [apply moves_ret|]. destruct execution; [|by apply moves_bail].
  eapply moves_bind; [by apply moves_lift|]. intros. apply moves_ret.
Qed.
End lease.

(** C10: The lease of a workflow with a concurrency group is given back.  Whatever the
    control plane answers and however the plan ends: it executes only while it holds
    the lease that was granted, releases exactly that lease, once, and does nothing
    after; without a lease nothing of it executes, and at the end no lease is held. *)
Theorem workflow_leases_are_released `{VL : ValueLib} `{EL : ExpressionLib} `{JL : !JsonLib} `{JI : !JsonInterop}
    hash_files arch run repository_dir run_dir oracle plan environment t l :
  ∃ state,
    monitor (check_lease (is_some (ep_concurrency plan))) LeaseFresh (drop (length t)
      (execute_plan hash_files arch run repository_dir run_dir oracle plan environment t l).1.1) = Some state ∧
    lease_free state.
Proof.
  match goal with |- context[(?c t l).1.1] =>
    enough (triple (check_lease (is_some (ep_concurrency plan))) (λ _ x, x = LeaseFresh) c (λ _ _ x, lease_free x)) as H end.
  { exact (triple_accepts _ _ _ _ t l H). }
  unfold execute_plan. destruct (ep_concurrency plan) as [configuration|]; cbn [is_some].
  - apply (triple_bind _ _ _ _ (λ _ _ x, x = LeaseFresh)); [by apply triple_lift | | by intros ? ? ? -> | by intros ? ? ->].
    intros [[group cancel_in_progress] queue].
    apply (triple_bind _ _ _ _ (λ r _ x, ∃ acquisition, r = Ok acquisition ∧
      x = match acquisition with Acquired lease => LeaseHeld lease | _ => LeaseOver end)).
    + apply (Traced.triple_perform (answer := plan_answer)). intros _ x [lease|reason|error] ->;
        (eexists; split; [reflexivity | by eexists]).
    + intros [lease|reason|error].
      * refine (triple_weaken _ _ _ _ _ _ (execute_with_lease_moves oracle true plan lease) _ _); [by intros _ x (? & [= <-] & ->)|].
        by intros [a|e|] _ x; [intros -> | |].
      * apply triple_ret. by intros _ x (? & [= <-] & ->).
      * apply triple_lift. by intros _ x (? & [= <-] & ->).
    + by intros e _ x (? & ? & _).
    + by intros _ x (? & ? & _).
  - unfold ask. apply (triple_bind _ _ _ _ (λ _ _ x, x = LeaseOver)); [| | by intros ? ? ? -> | by intros ? ? ->].
    + apply (Traced.triple_perform (answer := plan_answer)). intros _ x a ->. by eexists.
    + intros a. apply triple_lift. by intros _ x ->.
Qed.

(** ** The order in which plans end *)

(** The fields of a tally, as sums over the results. *)
Definition got_plans (results : list PlanResult) : list PlanExecution :=
  omap (λ result : PlanResult, match result.2 with Got plan => Some plan | Failed _ => None end) results.

Definition got_errors (results : list PlanResult) : list string :=
  omap (λ result : PlanResult, match result.2 with Got _ => None | Failed error => Some (result.1 +:+ ": " +:+ error) end) results.

Definition total_steps (plans : list PlanExecution) : nat := sum_list (pe_completed_steps <$> plans).

Lemma tally_from results start :
  fold_left count_result results start =
  mkTally (ta_completed_steps start + total_steps (got_plans results))
    (ta_failed_jobs start ++ (got_plans results ≫= pe_failed_jobs))
    (ta_timed_out_jobs start ++ (got_plans results ≫= pe_timed_out_jobs))
    (ta_cancelled_jobs start ++ (got_plans results ≫= pe_cancelled_jobs))
    (ta_workflow_errors start ++ got_errors results).
Proof.
  revert start. induction results as [|[name [plan|error]] results IH]; intros start.
  - destruct start. cbn. by rewrite Nat.add_0_r, !app_nil_r.
  - change (fold_left count_result ((name, Got plan) :: results) start)
      with (fold_left count_result results (count_result start (name, Got plan))).
    rewrite IH. cbn. by rewrite <-!app_assoc, Nat.add_assoc.
  - change (fold_left count_result ((name, Failed error) :: results) start)
      with (fold_left count_result results (count_result start (name, Failed error))).
    rewrite IH. cbn. by rewrite <-!app_assoc.
Qed.

Lemma tally_results_spec results :
  tally_results results =
  mkTally (total_steps (got_plans results)) (got_plans results ≫= pe_failed_jobs) (got_plans results ≫= pe_timed_out_jobs)
    (got_plans results ≫= pe_cancelled_jobs) (got_errors results).
Proof. apply tally_from. Qed.

Lemma is_nil_app {A} (l k : list A) : is_nil (l ++ k) = is_nil l && is_nil k.
Proof. by destruct l. Qed.

(** What plans amount to: the worst of their ends. *)
Inductive Verdict := AllWell | SomeCancelled | SomeTimedOut | SomeFailed.

#[export] Instance Verdict_eq_dec : EqDecision Verdict.
Proof. solve_decision. Defined.

Definition verdict_of (answer : Answer PlanExecution) : Verdict :=
  match answer with
  | Failed _ => SomeFailed
  | Got plan =>
      if negb (is_nil (pe_failed_jobs plan)) then SomeFailed
      else if negb (is_nil (pe_timed_out_jobs plan)) then SomeTimedOut
      else if negb (is_nil (pe_cancelled_jobs plan)) then SomeCancelled
      else AllWell
  end.

Definition worse (a b : Verdict) : Verdict :=
  match a, b with
  | SomeFailed, _ | _, SomeFailed => SomeFailed
  | SomeTimedOut, _ | _, SomeTimedOut => SomeTimedOut
  | SomeCancelled, _ | _, SomeCancelled => SomeCancelled
  | AllWell, AllWell => AllWell
  end.

Lemma worse_assoc a b c : worse (worse a b) c = worse a (worse b c).
Proof. by destruct a, b, c. Qed.

Lemma worse_well a : worse a AllWell = a.
Proof. by destruct a. Qed.

Lemma well_worse a : worse AllWell a = a.
Proof. by destruct a. Qed.

Definition verdict_all (results : list PlanResult) : Verdict :=
  foldr (λ (result : PlanResult) verdict, worse (verdict_of result.2) verdict) AllWell results.

Definition tally_verdict (tally : Tally) : Verdict :=
  if negb (is_nil (ta_workflow_errors tally)) then SomeFailed
  else if negb (is_nil (ta_failed_jobs tally)) then SomeFailed
  else if negb (is_nil (ta_timed_out_jobs tally)) then SomeTimedOut
  else if negb (is_nil (ta_cancelled_jobs tally)) then SomeCancelled
  else AllWell.

Lemma tally_verdict_all results : tally_verdict (tally_results results) = verdict_all results.
Proof.
  rewrite tally_results_spec. unfold tally_verdict.
  cbn [ta_workflow_errors ta_failed_jobs ta_timed_out_jobs ta_cancelled_jobs].
  induction results as [|[name [plan|error]] results IH]; [done| |done].
  change (verdict_all ((name, Got plan) :: results)) with (worse (verdict_of (Got plan)) (verdict_all results)).
  rewrite <-IH. cbn. rewrite !is_nil_app.
  destruct (is_nil (pe_failed_jobs plan)), (is_nil (pe_timed_out_jobs plan)), (is_nil (pe_cancelled_jobs plan)); cbn;
    by repeat destruct (is_nil _).
Qed.

Lemma sorted_list_perm separator names names' : names ≡ₚ names' → sorted_list separator names = sorted_list separator names'.
Proof.
  intros Hp. unfold sorted_list. f_equal. pose proof string_le_antisym. pose proof string_le_trans.
  apply (Sorted_unique string_le); [apply Sorted_merge_sort, _..|]. by rewrite !merge_sort_Permutation.
Qed.

Lemma is_nil_perm {A} (l k : list A) : l ≡ₚ k → is_nil l = is_nil k.
Proof. intros Hp. destruct l, k; [done | by apply Permutation_nil_cons in Hp | by apply symmetry, Permutation_nil_cons in Hp | done]. Qed.

(** C9: The result of a run does not depend on the order in which its plans end: the
    conclusion, and every byte of its summary - the jobs and errors it lists and the
    number of steps - are those of any other order of the same results. *)
Theorem results_are_order_independent cancelled results results' :
  results ≡ₚ results' → judge cancelled (tally_results results) = judge cancelled (tally_results results').
Proof.
  intros Hp. rewrite !tally_results_spec.
  assert (got_plans results ≡ₚ got_plans results') as Hplans by (unfold got_plans; by rewrite Hp).
  assert (got_errors results ≡ₚ got_errors results') as Herrors by (unfold got_errors; by rewrite Hp).
  assert (total_steps (got_plans results) = total_steps (got_plans results')) as -> by (unfold total_steps; by rewrite Hplans).
  unfold judge. cbn [ta_workflow_errors ta_failed_jobs ta_timed_out_jobs ta_cancelled_jobs ta_completed_steps].
  rewrite (is_nil_perm _ _ Herrors), (sorted_list_perm "; " _ _ Herrors).
  assert (∀ field : PlanExecution → list string, got_plans results ≫= field ≡ₚ got_plans results' ≫= field) as Hfield
    by (intros field; by rewrite Hplans).
  rewrite (is_nil_perm _ _ (Hfield pe_failed_jobs)), (sorted_list_perm ", " _ _ (Hfield pe_failed_jobs)).
  rewrite (is_nil_perm _ _ (Hfield pe_timed_out_jobs)), (sorted_list_perm ", " _ _ (Hfield pe_timed_out_jobs)).
  by rewrite (is_nil_perm _ _ (Hfield pe_cancelled_jobs)), (sorted_list_perm ", " _ _ (Hfield pe_cancelled_jobs)).
Qed.

Definition demo_results : list PlanResult :=
  [("ci", Got (mkPlanExecution 3 ["ci / test"] [] [])); ("docs", Got (mkPlanExecution 1 ["docs / build"] [] []))].

Example demo_judged :
  judge false (tally_results demo_results) = Err "workflow jobs failed: ci / test, docs / build".
Proof. by vm_compute. Qed.

Lemma results_are_order_independent_witness :
  judge false (tally_results demo_results) = judge false (tally_results (reverse demo_results)).
Proof. apply (results_are_order_independent false demo_results (reverse demo_results)). by rewrite reverse_Permutation. Defined.

(** ** What a run reports *)

(** The plans: not started, or some are left and those that ended did so. *)
Inductive PlansState := NotRun | Ran (pending : nat) (verdict : Verdict).

(** [rs_cancelled]: the run was seen to be cancelled; [rs_broken]: a service did
    not stop. *)
Record RunState := mkRunState {
  rs_verified : bool;
  rs_started : bool;
  rs_plans : PlansState;
  rs_cancelled : bool;
  rs_broken : bool;
}.

Inductive RunPhase :=
  | Preparing | CacheUp | ServicesUp
  | Serving (state : RunState)          (** the relay takes messages *)
  | ArtifactsDown (state : RunState) | ServicesDown (state : RunState)
  | TokensCleared (state : RunState)
  | Reported | Relayed.

(** The conclusions a run may report: without plans that it failed or had nothing
    to do, otherwise what its plans amount to - unless it was cancelled, or a
    service did not stop after plans that ended well. *)
Definition may_conclude (conclusion : Conclusion.Conclusion) (state : RunState) : bool :=
  match rs_plans state, conclusion with
  | NotRun, Conclusion.Failure => true
  | NotRun, Conclusion.Neutral => rs_started state
  | NotRun, Conclusion.Cancelled => rs_cancelled state
  | Ran 0 verdict, Conclusion.Success => rs_started state && bool_decide (verdict = AllWell)
  | Ran 0 verdict, Conclusion.TimedOut => bool_decide (verdict = SomeTimedOut)
  | Ran 0 verdict, Conclusion.Cancelled => rs_cancelled state || bool_decide (verdict = SomeCancelled)
  | Ran 0 verdict, Conclusion.Failure =>
      rs_cancelled state || bool_decide (verdict = SomeFailed) || rs_broken state && bool_decide (verdict = AllWell)
  | _, _ => false
  end.

Definition next_plans (running : nat) (answer : Answer PlanExecution) (plans : PlansState) : option PlansState :=
  match plans, running with
  | NotRun, S pending => Some (Ran pending (verdict_of answer))
  | Ran pending verdict, S pending' =>
      if bool_decide (pending = S pending') then Some (Ran pending' (worse verdict (verdict_of answer))) else None
  | _, 0 => None
  end.

(** What an answer adds to a state. *)
Definition note_cancelled (cancelled : bool) (state : RunState) : RunState :=
  mkRunState (rs_verified state) (rs_started state) (rs_plans state) (rs_cancelled state || cancelled) (rs_broken state).

Definition note_stopped (stopped : Answer unit) (state : RunState) : RunState :=
  mkRunState (rs_verified state) (rs_started state) (rs_plans state) (rs_cancelled state)
    (rs_broken state || match stopped with Got _ => false | Failed _ => true end).

Section monitor.
Context `{VT : ValueTypes} `{EL : ExpressionLib}.
Context (run : RunSpec JValue) (run_dir : string).

(** HEAD of the checkout is the merge commit. *)
Definition verifies (command : GitCommand) (output : Answer Output) : bool :=
  match output with
  | Got output =>
      bool_decide (git_arguments command = ["rev-parse"; "HEAD"]) && out_success output &&
      eq_ignore_ascii_case (trimmed_stdout output) (prs_merge_sha (run_pull_request run))
  | Failed _ => false
  end.

Definition check_message (message : AgentMessage) (phase : RunPhase) : option RunPhase :=
  match message, phase with
  | JobStarted _ job_id, Serving (mkRunState verified started plans cancelled broken) =>
      if bool_decide (job_id = run_id run) && verified && negb started
      then Some (Serving (mkRunState verified true plans cancelled broken)) else None
  | (StepStarted _ job_id _ _ | StepFinished _ job_id _ _ _), Serving state =>
      if bool_decide (job_id = run_id run) then Some phase else None
  | JobRejected _ job_id _ _, TokensCleared (mkRunState _ started plans _ _) =>
      if bool_decide (job_id = run_id run) && negb started && match plans with NotRun => true | _ => false end
      then Some Reported else None
  | JobFinished _ job_id conclusion _ _, TokensCleared state =>
      if bool_decide (job_id = run_id run) && may_conclude conclusion state then Some Reported else None
  | _, _ => None
  end.

Definition check_run (phase : RunPhase) (entry : RunEntry) : option RunPhase :=
  match entry with
  | mkEntry RUuid _ => Some phase
  | mkEntry RCancelled cancelled =>
      match phase with
      | Serving state => Some (Serving (note_cancelled cancelled state))
      | TokensCleared state => Some (TokensCleared (note_cancelled cancelled state))
      | _ => None
      end
  | mkEntry (RSend message) _ => check_message message phase
  | mkEntry (RPrepareDirectory _) _ => match phase with Preparing => Some Preparing | _ => None end
  | mkEntry (RCreateDirectories _) _ => match phase with Preparing | Serving _ => Some phase | _ => None end
  | mkEntry (RStartCache _ _ _ _) started =>
      match phase, started with Preparing, Got _ => Some CacheUp | Preparing, Failed _ => Some Preparing | _, _ => None end
  | mkEntry (RStartArtifacts _ _ _ _) started =>
      match phase, started with CacheUp, Got _ => Some ServicesUp | CacheUp, Failed _ => Some CacheUp | _, _ => None end
  | mkEntry RStopCache stopped =>
      match phase with
      | CacheUp => Some Preparing
      | ArtifactsDown state => Some (ServicesDown (note_stopped stopped state))
      | _ => None
      end
  | mkEntry RStopArtifacts stopped =>
      match phase with Serving state => Some (ArtifactsDown (note_stopped stopped state)) | _ => None end
  | mkEntry (RStartRelay _) _ =>
      match phase with ServicesUp => Some (Serving (mkRunState false false NotRun false false)) | _ => None end
  | mkEntry RClearTokens _ => match phase with ServicesDown state => Some (TokensCleared state) | _ => None end
  | mkEntry (ROutput command) output =>
      match phase with
      | Serving (mkRunState verified started plans cancelled broken) =>
          Some (Serving (mkRunState (verified || verifies command output) started plans cancelled broken))
      | _ => None
      end
  | mkEntry (RNextPlan running _) (_, answer) =>
      match phase with
      | Serving (mkRunState verified true plans cancelled broken) =>
          plans ← next_plans (length running) answer plans;
          Some (Serving (mkRunState verified true plans cancelled broken))
      | _ => None
      end
  | mkEntry (RSourceToken _) _ | mkEntry (RRun _ _) _ | mkEntry (RReadDirectory _) _ | mkEntry (RReadFile _) _
  | mkEntry (RWriteJson _ _) _ | mkEntry (RChangedPaths _) _ =>
      match phase with Serving _ => Some phase | _ => None end
  | mkEntry RTakeSummaries _ => match phase with TokensCleared _ => Some phase | _ => None end
  | mkEntry (RRemoveTree path) _ =>
      match phase with Reported => if bool_decide (path = run_dir) then Some Reported else None | _ => None end
  | mkEntry RJoinRelay _ => match phase with Reported => Some Relayed | _ => None end
  end.
End monitor.

(** Where a run can end. *)
Definition run_ended (result : outcome string unit) (phase : RunPhase) : Prop :=
  match result with
  | Ok _ => phase = Relayed
  | Err _ => phase = Preparing ∨ phase = Relayed
  | Panic => ∃ state, phase = Serving state
  end.

Section passes.
Context `{VL : ValueLib} `{EL : ExpressionLib} `{JL : !JsonLib} `{JI : !JsonInterop} `{TC : !TemplateContract}.
Context `{RX : RegexLib} `{RL : !RemoteLib}.
Context (hash_files : string → list string → outcome ExpressionError string).
Context (base64 base64_url : string → string) (arch : string) (uuid_text uuid_simple : Uuid → string).
Context (catalog_fuel : nat).
Context (config : ExecutorConfig) (runner_targeting : RunnerTargeting) (run : RunSpec JValue).
Context (oracle : RunOracle).

Notation check := (check_run run (run_dir uuid_text config run)).
Notation Act := (Traced.Act run_answer unit).
Notation stays_at := (Traced.stays_at (L:=unit) check).

(** Effects a run may have whenever the relay takes messages. *)
Definition while_serving (e : RunEffect) : bool :=
  match e with
  | RUuid | RCreateDirectories _ | RSourceToken _ | RRun _ _ | RReadDirectory _ | RReadFile _ | RWriteJson _ _
  | RChangedPaths _ => true
  | _ => false
  end.

Lemma stays_at_serving e state : while_serving e = true → stays_at (Serving state) (perform oracle e).
Proof. intros H. apply (Traced.stays_at_perform (answer := run_answer)). intros a. by destruct e. Qed.
Hint Extern 1 (Traced.stays_at _ (Serving _) (perform _ _)) => apply stays_at_serving; reflexivity : stays_at.

Ltac stays_at := repeat (cbv zeta; stays_at_step).

Lemma triple_in_context {A} (P : unit → RunPhase → Prop) message (c : Act A) (Q : outcome string A → unit → RunPhase → Prop) :
  triple check P c (λ r, Q (map_err (λ e, message +:+ ": " +:+ e) r)) → triple check P (in_context message c) Q.
Proof.
  intros Hc t l s Hs. destruct (Hc t l s Hs) as (added & s' & Ht & Hm & HQ). unfold in_context.
  destruct (c t l) as [[t1 l1] r]; cbn [fst snd] in *; subst; by exists added, s'.
Qed.

Lemma stays_at_in_context {A} message (c : Act A) phase : stays_at phase c → stays_at phase (in_context message c).
Proof. intros H. by apply triple_in_context. Qed.

Lemma stays_at_ask_run {A} (c : Act (Answer A)) phase : stays_at phase c → stays_at phase (ask c).
Proof. intros Hc. unfold ask, of_answer. apply stays_at_bind; [done|]. intros. apply stays_at_lift. Qed.
Hint Resolve stays_at_in_context stays_at_ask_run : stays_at.

(** A message: its id, and the entry the monitor judges. *)
Lemma triple_send message phase phase' :
  (∀ id, check_message run (message id) phase = Some phase') →
  triple check (λ _ x, x = phase) (send oracle message) (λ r _ x, x = phase' ∧ r ≠ Panic).
Proof.
  intros H. apply (triple_bind _ _ _ _ (λ r _ x, x = phase ∧ is_ok r = true)).
  - apply (Traced.triple_perform (answer := run_answer)). intros _ x id ->. by exists phase.
  - intros id. apply triple_in_context. unfold ask.
    apply (triple_bind _ _ _ _ (λ r _ x, x = phase' ∧ is_ok r = true)).
    + apply (Traced.triple_perform (answer := run_answer)). intros _ x a [-> _]. exists phase'. split; [apply H | done].
    + intros a. apply triple_lift. intros _ x [-> _]. by destruct a.
    + by intros e _ x [_ ?].
    + by intros _ x [_ ?].
  - by intros e _ x [_ ?].
  - by intros _ x [_ ?].
Qed.

Lemma stays_at_step_message message state :
  (∀ id, check_message run (message id) (Serving state) = Some (Serving state)) →
  stays_at (Serving state) (send oracle message).
Proof.
  intros H. refine (triple_weaken _ _ _ _ _ _ (triple_send message _ _ H) _ _); [done|]. by intros r _ x [-> _].
Qed.

(** ** The checkout, and the discovery of the workflows *)

Definition before_start (verified : bool) : RunPhase := Serving (mkRunState verified false NotRun false false).

Definition not_started (phase : RunPhase) : Prop := ∃ verified, phase = before_start verified.

Notation moves := (moves (L:=unit) check not_started not_started).

Lemma moves_stays {A} verified (c : Act A) : stays_at (before_start verified) c → moves (before_start verified) c (before_start verified).
Proof.
  intros H. refine (triple_weaken _ _ _ _ _ _ H _ _); [done|]. intros [a|e|] _ x ->; [done|..]; by exists verified.
Qed.

Lemma stays_at_run_git context command state :
  stays_at (Serving state) (run_git_in uuid_text config run oracle context command).
Proof. unfold run_git_in. apply stays_at_in_context. stays_at. Qed.

Lemma checkout_moves token :
  moves (before_start false) (checkout base64 uuid_text config run oracle token) (before_start true).
Proof.
  unfold checkout. cbv zeta.
  eapply moves_bind; [apply moves_stays, stays_at_step_message; intros id; cbn; by rewrite bool_decide_true|]. intros _.
  eapply moves_bind; [apply moves_stays, stays_at_lift|]. intros initialize.
  do 4 (eapply moves_bind; [apply moves_stays, stays_at_run_git|]; intros _).
  apply (triple_bind _ _ _ _ (λ r _ x, match r with
    | Ok output => x = before_start (verifies run (git ["rev-parse"; "HEAD"]) (Got output))
    | Err _ | Panic => not_started x end)); [| | done..].
  - apply triple_in_context. unfold ask. apply (triple_bind _ _ _ _ (λ r _ x, ∃ output, r = Ok output ∧
      x = before_start (verifies run (git ["rev-parse"; "HEAD"]) output))).
    + apply (Traced.triple_perform (answer := run_answer)). intros _ x output ->. eexists. split; [reflexivity|]. by eexists.
    + intros [output|error]; apply triple_lift; intros _ x (? & [= <-] & ->); [done | by eexists].
    + by intros e _ x (? & ? & _).
    + by intros _ x (? & ? & _).
  - intros output. destruct (_ || _) eqn:Hrejected.
    + apply (triple_bind _ _ _ _ (λ r _ x, is_ok r = false ∧ not_started x)); [|by intros ? ? ? ? [? _] | by intros ? ? ? [_ ?] | by intros ? ? [_ ?]].
      apply triple_lift. intros _ x ->. split; [done | by eexists].
    + assert (verifies run (git ["rev-parse"; "HEAD"]) (Got output) = true) as ->.
      { apply orb_false_iff in Hrejected as [Hs%negb_false_iff Hh%negb_false_iff]. cbn. by rewrite Hs, Hh. }
      eapply moves_bind; [apply moves_stays, stays_at_lift|]. intros _.
      apply moves_stays, stays_at_step_message. intros id. cbn. by rewrite bool_decide_true.
Qed.

Lemma stays_at_read_workflows paths state : stays_at (Serving state) (read_workflows oracle paths).
Proof. induction paths; cbn [read_workflows]; stays_at. Qed.

Lemma stays_at_changed_paths workflows state : stays_at (Serving state) (changed_paths run oracle workflows).
Proof. unfold changed_paths. stays_at. Qed.
Hint Resolve stays_at_read_workflows stays_at_changed_paths : stays_at.

Lemma stays_at_discover state : stays_at (Serving state) (discover_workflows uuid_text catalog_fuel config run oracle).
Proof. unfold discover_workflows. stays_at. Qed.

(** ** The plans *)

Definition running_plans (plans : PlansState) : RunPhase := Serving (mkRunState true true plans false false).

(** Plans of which [count] are left, and what those that ended amount to. *)
Definition left_of (plans : PlansState) (count : nat) (verdict : Verdict) : Prop :=
  match plans with NotRun => count ≠ 0 ∧ verdict = AllWell | Ran pending verdict' => pending = count ∧ verdict' = verdict end.

Lemma await_plans_runs count running environment plans verdict :
  length running = count → left_of plans count verdict →
  triple check (λ _ x, x = running_plans plans) (await_plans oracle count running environment)
    (λ r _ x, ∃ results, r = Ok results ∧ x = running_plans (Ran 0 (worse verdict (verdict_all results)))).
Proof.
  revert running plans verdict. induction count as [|count IH]; intros running plans verdict Hlength Hplans; cbn [await_plans].
  - destruct plans as [|pending verdict']; [by destruct Hplans|]. destruct Hplans as [-> ->].
    apply triple_ret. intros _ x ->. exists []. cbn. by rewrite worse_well.
  - apply (triple_bind _ _ _ _ (λ r _ x, ∃ choice answer, r = Ok (choice, answer) ∧
      x = running_plans (Ran count (worse verdict (verdict_of answer))))).
    + apply (Traced.triple_perform (answer := run_answer)). intros _ x [choice answer] ->.
      exists (running_plans (Ran count (worse verdict (verdict_of answer)))). split; [|by eexists _, _].
      cbn. rewrite Hlength. unfold next_plans.
      destruct plans as [|pending verdict']; [by destruct Hplans as [_ ->]; destruct (verdict_of answer)|].
      destruct Hplans as [-> ->]. by rewrite bool_decide_true.
    + intros [choice answer]. assert (is_Some (running !! (choice `mod` length running))) as [[index plan] Hplan].
      { apply lookup_lt_is_Some. apply Nat.mod_upper_bound. by rewrite Hlength. }
      rewrite Hplan. apply (triple_pre check (λ _ x, x = running_plans (Ran count (worse verdict (verdict_of answer))))).
      2: { by intros _ x (? & ? & [= <- <-] & ->). }
      eapply triple_bind; [apply (IH _ _ (worse verdict (verdict_of answer))); [|done] | | by intros ? ? ? (? & ? & _) | by intros ? ? (? & ? & _)].
      * rewrite length_delete by (by eexists). rewrite Hlength. lia.
      * intros results. apply triple_ret. intros _ x (? & [= <-] & ->). eexists. split; [done|].
        by rewrite worse_assoc.
    + by intros e _ x (? & ? & ? & _).
    + by intros _ x (? & ? & ? & _).
Qed.

(** ** While the services are up *)

Definition serving (phase : RunPhase) : Prop := ∃ state, phase = Serving state ∧ may_conclude Conclusion.Failure state = true.

(** What the result of the execution says of the state it leaves. *)
Definition executed (result : outcome string (ExecutionDisposition + RunFailure)) (state : RunState) : Prop :=
  match result with
  | Ok (inl (Completed conclusion _)) =>
      (conclusion = Conclusion.Success ∨ conclusion = Conclusion.Neutral) ∧ may_conclude conclusion state = true
  | Ok (inl (Rejected _)) => rs_started state = false ∧ rs_plans state = NotRun
  | Ok (inr (RunTimedOut _)) => may_conclude Conclusion.TimedOut state = true
  | Ok (inr (RunConcurrencyCancelled _)) => may_conclude Conclusion.Cancelled state = true
  | Err _ => may_conclude Conclusion.Failure state = true
  | Panic => True
  end.

Notation executes c := (λ phase : RunPhase, triple check (λ _ x, x = phase) c (λ r _ x, ∃ state, x = Serving state ∧ executed r state)).

Lemma executed_settled (r : outcome string (ExecutionDisposition + RunFailure)) state :
  may_conclude Conclusion.Failure state = true → is_ok r = false → executed r state.
Proof. by destruct r. Qed.

(** The checks after the loop follow what the plans amount to. *)
Lemma judge_executed cancelled results :
  executed (judge cancelled (tally_results results)) (mkRunState true true (Ran 0 (verdict_all results)) cancelled false).
Proof.
  rewrite <-tally_verdict_all. unfold judge, tally_verdict. destruct cancelled; [done|].
  do 4 (destruct (is_nil _); cbn [negb]; [|done]). split; [by left | done].
Qed.

(** A prefix that stays, or moves on, before the rest. *)
Lemma executes_then {A} (c : Act A) (k : A → Act (ExecutionDisposition + RunFailure)) phase phase' :
  Traced.moves check serving serving phase c phase' → (∀ a, executes (k a) phase') → executes (bind c k) phase.
Proof.
  intros Hc Hk. eapply triple_bind; [exact Hc | exact Hk | |].
  - intros e _ x (state & -> & ?). exists state. by split; [|apply executed_settled].
  - intros _ x (state & -> & ?). exists state. by split; [|apply executed_settled].
Qed.

Lemma executes_stays {A} (c : Act A) (k : A → Act (ExecutionDisposition + RunFailure)) state :
  may_conclude Conclusion.Failure state = true →
  stays_at (Serving state) c → (∀ a, executes (k a) (Serving state)) → executes (bind c k) (Serving state).
Proof.
  intros Hs Hc Hk. apply (executes_then _ _ _ (Serving state)); [|done]. refine (triple_weaken _ _ _ _ _ _ Hc _ _); [done|].
  intros [a|e|] _ x ->; [done|..]; by exists state.
Qed.

Lemma execution_executes cache_url artifact_url runtime_token :
  executes (execution hash_files base64 arch uuid_text catalog_fuel config runner_targeting run oracle
              cache_url artifact_url runtime_token) (before_start false).
Proof.
  unfold execution. cbv zeta. apply executes_stays; [done | stays_at|]. intros source_token.
  apply (executes_then _ _ _ (before_start true)).
  { eapply moves_weaken; [| |apply checkout_moves]; intros x (verified & ->); by eexists. }
  intros _. apply executes_stays; [done | apply stays_at_discover|]. intros plans.
  apply executes_stays; [done | apply stays_at_lift|]. intros requirements.
  destruct (negb _). { apply triple_ret. intros _ x ->. by eexists. }
  apply (executes_then _ _ _ (running_plans NotRun)).
  { refine (triple_weaken _ _ _ _ _ _ (triple_send _ _ (running_plans NotRun) _) _ _); [|done|].
    - intros id. cbn. by rewrite bool_decide_true.
    - intros [a|e|] _ x [-> ?]; [done | by eexists | done]. }
  intros _. destruct (is_nil plans) eqn:Hplans. { apply triple_ret. intros _ x ->. eexists. split; [done|]. split; [by right | done]. }
  apply executes_stays; [done | stays_at|]. intros _.
  apply executes_stays; [done | unfold written_github_environment; stays_at|]. intros defaults.
  eapply triple_bind.
  - apply (await_plans_runs _ _ _ NotRun AllWell).
    + by rewrite <-(length_fmap snd), enumerate_from_snd.
    + split; [|done]. by destruct plans.
  - intros results. apply (triple_bind _ _ _ _ (λ r _ x, ∃ cancelled, r = Ok cancelled ∧
      x = Serving (mkRunState true true (Ran 0 (verdict_all results)) cancelled false))).
    + apply (Traced.triple_perform (answer := run_answer)). intros _ x cancelled (? & [= <-] & ->).
      rewrite well_worse. eexists. split; [done|]. by exists cancelled.
    + intros cancelled. apply triple_lift. intros _ x (? & [= <-] & ->). eexists. split; [done|]. apply judge_executed.
    + by intros e _ x (? & ? & _).
    + by intros _ x (? & ? & _).
  - by intros e _ x (? & ? & _).
  - by intros _ x (? & ? & _).
Qed.

(** ** The services, and the report *)

(** One effect whose answer decides what follows. *)
Lemma triple_effect {B} (e : RunEffect) (k : run_answer e → Act B) phase (next : run_answer e → RunPhase)
    (Q : outcome string B → unit → RunPhase → Prop) :
  (∀ a, check_run run (run_dir uuid_text config run) phase (mkEntry e a) = Some (next a)) →
  (∀ a, triple check (λ _ x, x = next a) (k a) Q) →
  triple check (λ _ x, x = phase) (bind (perform oracle e) k) Q.
Proof.
  intros He Hk. apply (triple_bind _ _ _ _ (λ r _ x, ∃ a, r = Ok a ∧ x = next a)).
  - apply (Traced.triple_perform (answer := run_answer)). intros _ x a ->. exists (next a). split; [apply He | by eexists].
  - intros a. refine (triple_pre _ _ _ _ _ (Hk a) _). by intros _ x (? & [= <-] & ->).
  - by intros ? ? x (? & ? & _).
  - by intros ? x (? & ? & _).
Qed.

Definition started_services (result : outcome string (string * string * string)) (phase : RunPhase) : Prop :=
  match result with Ok _ => phase = ServicesUp | Err _ => phase = Preparing | Panic => False end.

Lemma start_services_runs :
  triple check (λ _ x, x = Preparing) (start_services base64_url uuid_text uuid_simple config run oracle)
    (λ r _ x, started_services r x).
Proof.
  unfold start_services. do 3 (apply (triple_effect RUuid _ _ (λ _, Preparing)); [done|]; intros ?). cbv zeta.
  unfold ask. apply (triple_bind _ _ _ _ (λ r _ x, match r with Ok _ => x = CacheUp | Err _ => x = Preparing | Panic => False end));
    [| | done..].
  - apply (triple_effect (RStartCache _ _ _ _) _ _ (λ started : Answer string, match started with Got _ => CacheUp | Failed _ => Preparing end)).
    + by intros [].
    + intros [url|error]; apply triple_lift; by intros _ x ->.
  - intros cache_url. apply (triple_effect (RStartArtifacts _ _ _ _) _ _ (λ started : Answer string, match started with Got _ => ServicesUp | Failed _ => CacheUp end)).
    { by intros []. }
    intros [artifact_url|error]; [apply triple_ret; by intros _ x ->|].
    apply (triple_effect RStopCache _ _ (λ _, Preparing)); [done|]. intros _. apply triple_lift. by intros _ x ->.
Qed.

(** What may be reported may still be reported when more is noted. *)
Lemma may_conclude_cancelled conclusion cancelled state :
  may_conclude conclusion state = true → may_conclude conclusion (note_cancelled cancelled state) = true.
Proof.
  unfold may_conclude, note_cancelled. cbn.
  destruct (rs_plans state) as [|[|?] ?], conclusion; try done; by destruct (rs_cancelled state), cancelled.
Qed.

Lemma may_conclude_stopped conclusion stopped state :
  may_conclude conclusion state = true → may_conclude conclusion (note_stopped stopped state) = true.
Proof.
  unfold may_conclude, note_stopped. cbn.
  destruct (rs_plans state) as [|[|?] verdict], conclusion; try done.
  by destruct verdict, (rs_cancelled state), (rs_broken state).
Qed.

(** Where a conclusion may be reported a failure may, once a service did not stop. *)
Lemma may_conclude_broken conclusion state :
  conclusion = Conclusion.Success ∨ conclusion = Conclusion.Neutral → rs_broken state = true →
  may_conclude conclusion state = true → may_conclude Conclusion.Failure state = true.
Proof.
  unfold may_conclude. intros Hc ->. destruct (rs_plans state) as [|[|?] verdict]; [done| |by destruct Hc as [-> | ->]].
  destruct Hc as [-> | ->]; [|done]. intros [_ ->%bool_decide_eq_true]%andb_prop. cbn. by rewrite !orb_true_r.
Qed.

Lemma executed_stopped result stopped state : executed result state → executed result (note_stopped stopped state).
Proof. destruct result as [[[conclusion summary|requirements]|[jobs|jobs]]|e|]; cbn; naive_solver auto using may_conclude_stopped. Qed.

Lemma executed_stop_failure disposition error state :
  executed (Ok (inl disposition)) state → rs_broken state = true → executed (Err error) state.
Proof.
  intros He Hb. destruct disposition as [conclusion summary|requirements].
  - destruct He as [Hc He]. by apply (may_conclude_broken conclusion).
  - destruct He as [_ He]. cbn. unfold may_conclude. by rewrite He.
Qed.

Lemma stop_services_runs result state :
  result ≠ Panic → executed result state →
  triple check (λ _ x, x = Serving state) (stop_services oracle result)
    (λ r _ x, ∃ result' state', r = Ok result' ∧ x = ServicesDown state' ∧ result' ≠ Panic ∧ executed result' state').
Proof.
  intros Hpanic Hresult. unfold stop_services.
  apply (triple_effect RStopArtifacts _ _ (λ a, ArtifactsDown (note_stopped a state))); [done|]. intros artifact_shutdown.
  apply (triple_effect RStopCache _ _ (λ a, ServicesDown (note_stopped a (note_stopped artifact_shutdown state)))); [done|].
  intros cache_shutdown. apply triple_ret. intros _ x ->.
  set (state' := note_stopped cache_shutdown (note_stopped artifact_shutdown state)).
  assert (executed result state') as Hresult' by (by apply executed_stopped, executed_stopped).
  eexists _, state'. split; [reflexivity|]. split; [done|].
  destruct result as [[disposition|failure]|e|]; [|done..].
  destruct artifact_shutdown as [[]|error]; [destruct cache_shutdown as [[]|error]; [done|]|]; (split; [done|]);
    apply (executed_stop_failure disposition); try done; cbn; by rewrite ?orb_true_r.
Qed.

Lemma join_relay_runs sent :
  sent ≠ Panic → triple check (λ _ x, x = Reported) (join_relay oracle sent) (λ r _ x, x = Relayed ∧ r ≠ Panic).
Proof.
  intros Hsent. unfold join_relay. apply (triple_bind _ _ _ _ (λ r _ x, x = Relayed ∧ r ≠ Panic)).
  - apply triple_in_context. unfold ask. apply (triple_effect RJoinRelay _ _ (λ _, Relayed)); [done|].
    intros [result|error]; apply triple_lift; by intros _ x ->.
  - intros relay_result. apply (triple_bind _ _ _ _ (λ r _ x, x = Relayed ∧ r ≠ Panic)).
    + apply triple_lift. by intros _ x [-> _].
    + intros []. apply triple_lift. intros _ x [-> _]. by destruct relay_result.
    + by intros e _ x [-> _].
    + by intros _ x [_ ?].
  - by intros e _ x [-> _].
  - by intros _ x [_ ?].
Qed.

(** A report, and what follows it. *)
Lemma report_message_runs {B} message (k : outcome string unit → Act B) phase Q :
  (∀ id, check_message run (message id) phase = Some Reported) →
  (∀ sent, sent ≠ Panic → triple check (λ _ x, x = Reported) (k sent) Q) →
  triple check (λ _ x, x = phase) (bind (attempt (send oracle message)) k) Q.
Proof.
  intros Hmessage Hk. apply (triple_bind _ _ _ _ (λ r _ x, ∃ sent, r = Ok sent ∧ sent ≠ Panic ∧ x = Reported)).
  - apply triple_attempt. refine (triple_weaken _ _ _ _ _ _ (triple_send message phase Reported Hmessage) _ _); [done|].
    intros [a|e|] _ x [-> ?]; [by eexists.. | done].
  - intros sent t l x (? & [= <-] & Hsent & ->). exact (Hk sent Hsent t l Reported eq_refl).
  - by intros ? ? x (? & ? & _).
  - by intros ? x (? & ? & _).
Qed.

Lemma report_finished_runs conclusion summary state :
  may_conclude conclusion state = true →
  triple check (λ _ x, x = TokensCleared state) (report_finished uuid_text config run oracle conclusion summary)
    (λ r _ x, x = Relayed ∧ r ≠ Panic).
Proof.
  intros Hmay. unfold report_finished. apply (triple_effect RTakeSummaries _ _ (λ _, TokensCleared state)); [done|].
  intros summaries. apply report_message_runs.
  { intros id. cbn. by rewrite bool_decide_true, Hmay. }
  intros sent Hsent. apply (triple_bind _ _ _ _ (λ r _ x, x = Reported ∧ is_ok r = true)).
  - destruct (_ || _); [|apply triple_ret; by intros _ x ->].
    apply (triple_effect (RRemoveTree _) _ _ (λ _, Reported)); [intros a; cbn; by rewrite bool_decide_true|].
    intros _. apply triple_ret. by intros _ x ->.
  - intros []. refine (triple_pre _ _ _ _ _ (join_relay_runs sent Hsent) _). by intros _ x [-> _].
  - by intros e _ x [_ ?].
  - by intros _ x [_ ?].
Qed.

Lemma report_rejected_runs requirements state :
  rs_started state = false → rs_plans state = NotRun →
  triple check (λ _ x, x = TokensCleared state) (report_rejected uuid_text config run oracle requirements)
    (λ r _ x, x = Relayed ∧ r ≠ Panic).
Proof.
  destruct state as [verified started plans]. cbn. intros -> ->. unfold report_rejected. apply report_message_runs.
  { intros id. cbn. by rewrite bool_decide_true. }
  intros sent Hsent. apply (triple_effect (RRemoveTree _) _ _ (λ _, Reported)); [intros a; cbn; by rewrite bool_decide_true|].
  intros []; by apply join_relay_runs.
Qed.

(** What is concluded may be reported. *)
Lemma conclude_runs result state :
  result ≠ Panic →
  match result with
  | Ok (inl (conclusion, _)) => may_conclude conclusion state = true
  | Ok (inr failure) => executed (Ok (inr failure)) state
  | Err e => executed (Err e) state
  | Panic => True
  end →
  triple check (λ _ x, x = TokensCleared state) (conclude oracle result)
    (λ r _ x, ∃ state' concluded, x = TokensCleared state' ∧ r = Ok concluded ∧ may_conclude concluded.1 state' = true).
Proof.
  intros Hpanic Hresult. unfold conclude.
  assert (∀ conclusion cancelled, may_conclude conclusion state = true →
    conclusion = Conclusion.TimedOut ∨ conclusion = Conclusion.Cancelled ∨ conclusion = Conclusion.Failure →
    may_conclude (if cancelled : bool then Conclusion.Cancelled else conclusion) (note_cancelled cancelled state) = true)
    as Hother.
  { intros conclusion [] Hmay Hc; [|by apply may_conclude_cancelled].
    unfold may_conclude, note_cancelled in *. cbn. rewrite orb_true_r.
    destruct (rs_plans state) as [|[|?] ?]; [done..|]. by destruct Hc as [-> | [-> | ->]]. }
  destruct result as [[[conclusion summary]|failure]|e|]; [| | |done].
  - apply triple_ret. intros _ x ->. by eexists _, (conclusion, summary).
  - apply (triple_effect RCancelled _ _ (λ cancelled, TokensCleared (note_cancelled cancelled state))); [done|].
    intros cancelled. apply triple_ret. intros _ x ->. eexists _, _. split; [done|]. split; [done|].
    destruct failure; [pose proof (Hother Conclusion.TimedOut cancelled Hresult) | pose proof (Hother Conclusion.Cancelled cancelled Hresult)];
      destruct cancelled; auto.
  - apply (triple_effect RCancelled _ _ (λ cancelled, TokensCleared (note_cancelled cancelled state))); [done|].
    intros cancelled. apply triple_ret. intros _ x ->. eexists _, _. split; [done|]. split; [done|].
    pose proof (Hother Conclusion.Failure cancelled Hresult). destruct cancelled; auto.
Qed.

Lemma concluded_runs result state :
  result ≠ Panic →
  match result with
  | Ok (inl (conclusion, _)) => may_conclude conclusion state = true
  | Ok (inr failure) => executed (Ok (inr failure)) state
  | Err e => executed (Err e) state
  | Panic => True
  end →
  triple check (λ _ x, x = TokensCleared state)
    (run! concluded := conclude oracle result in report_finished uuid_text config run oracle concluded.1 concluded.2)
    (λ r _ x, x = Relayed ∧ r ≠ Panic).
Proof.
  intros Hpanic Hresult.
  eapply triple_bind; [by apply conclude_runs | | by intros e ? x (? & ? & _ & ? & _) | by intros ? x (? & ? & _ & ? & _)].
  intros concluded t l x (state' & ? & -> & [= <-] & Hmay). exact (report_finished_runs _ _ _ Hmay t l _ eq_refl).
Qed.

Lemma report_runs result state :
  result ≠ Panic → executed result state →
  triple check (λ _ x, x = TokensCleared state) (report uuid_text config run oracle result)
    (λ r _ x, x = Relayed ∧ r ≠ Panic).
Proof.
  intros Hpanic Hresult. unfold report.
  destruct result as [[[conclusion summary|requirements]|failure]|e|]; [| | | |done].
  - destruct Hresult as [_ Hresult]. by apply concluded_runs.
  - destruct Hresult. by apply report_rejected_runs.
  - by apply concluded_runs.
  - by apply concluded_runs.
Qed.

Lemma validate_sha_total value : validate_sha value ≠ Panic.
Proof.
  unfold validate_sha, from_object_id. intros H%map_err_Panic. revert H. apply obind_no_panic; [apply reject_if_Panic|].
  intros. by repeat case_match.
Qed.

Lemma validate_run_total : validate_run run ≠ Panic.
Proof.
  unfold validate_run, validate_execution_ref, validate_checkout_token_metadata.
  repeat first [apply reject_if_Panic | apply validate_sha_total | apply obind_no_panic; [|intros] | done].
Qed.

(** The execution keeps its services up, and they are stopped after it. *)
Lemma served_runs cache_url artifact_url runtime_token :
  triple check (λ _ x, x = before_start false)
    (run! result := attempt (execution hash_files base64 arch uuid_text catalog_fuel config runner_targeting run oracle
                       cache_url artifact_url runtime_token) in
     run! result := stop_services oracle result in
     perform oracle RClearTokens ;>
     report uuid_text config run oracle result)
    (λ r _ x, run_ended r x).
Proof.
  apply (triple_bind _ _ _ _ (λ r _ x, ∃ state, x = Serving state ∧
    match r with Ok result => result ≠ Panic ∧ executed result state | Err _ => False | Panic => True end)).
  - apply triple_attempt. refine (triple_weaken _ _ _ _ _ _ (execution_executes _ _ _) _ _); [done|].
    intros [a|e|] _ x (state & -> & H); by exists state.
  - intros result t l x (state & -> & Hpanic & Hresult). revert t l. 
    enough (triple check (λ _ x, x = Serving state)
      (run! result := stop_services oracle result in perform oracle RClearTokens ;> report uuid_text config run oracle result)
      (λ r _ x, run_ended r x)) as H by (intros t l; by apply H).
    eapply triple_bind; [by apply stop_services_runs | | by intros e ? x (? & ? & ? & _) | by intros ? x (? & ? & ? & _)].
    intros stopped t l x (? & state' & [= <-] & -> & Hpanic' & Hresult'). revert t l.
    enough (triple check (λ _ x, x = ServicesDown state') (perform oracle RClearTokens ;> report uuid_text config run oracle stopped)
      (λ r _ x, run_ended r x)) as H by (intros t l; by apply H).
    apply (triple_effect RClearTokens _ _ (λ _, TokensCleared state')); [done|]. intros [].
    refine (triple_weaken _ _ _ _ _ _ (report_runs stopped state' Hpanic' Hresult') _ _); [done|].
    intros [a|e|] _ x [-> ?]; [done | by right | done].
  - by intros e _ x (state & _ & ?).
  - intros _ x (state & -> & _). by exists state.
Qed.

(** Before the relay takes messages: an error leaves nothing behind. *)
Lemma prepares {A} (c : Act A) (k : A → Act unit) phase :
  triple check (λ _ x, x = Preparing) c (λ r _ x, match r with Ok _ => x = phase | Err _ => x = Preparing | Panic => False end) →
  (∀ a, triple check (λ _ x, x = phase) (k a) (λ r _ x, run_ended r x)) →
  triple check (λ _ x, x = Preparing) (bind c k) (λ r _ x, run_ended r x).
Proof.
  intros Hc Hk. eapply triple_bind; [exact Hc | intros a; exact (Hk a) | |].
  - intros e _ x ->. by left.
  - by intros.
Qed.

Notation whole_run :=
  (execute_with_services hash_files base64 base64_url arch uuid_text uuid_simple catalog_fuel config runner_targeting run oracle).

Lemma run_passes : triple check (λ _ x, x = Preparing) whole_run (λ r _ x, run_ended r x).
Proof.
  unfold execute_with_services. cbv zeta.
  apply (prepares _ _ Preparing); [|intros format].
  { apply triple_lift. intros _ x ->. pose proof validate_run_total. by destruct (validate_run run). }
  apply (prepares _ _ Preparing); [|intros _].
  { apply (triple_effect (RPrepareDirectory _) _ _ (λ _, Preparing)); [done|]. intros []; apply triple_lift; by intros _ x ->. }
  apply (prepares _ _ Preparing); [|intros _].
  { apply (triple_effect (RCreateDirectories _) _ _ (λ _, Preparing)); [done|]. intros []; apply triple_lift; by intros _ x ->. }
  apply (prepares _ _ ServicesUp); [apply start_services_runs|]. intros [[cache_url artifact_url] runtime_token].
  apply (triple_effect (RStartRelay _) _ _ (λ _, before_start false)); [done|]. intros []. apply served_runs.
Qed.

(** C3: A run reports exactly once, and what it reports is true.  Whatever the services,
    git, the file system, the plans and the control plane answer: every message carries
    the id of the run; the run is announced as started only after git named the merge
    commit as HEAD of its checkout; a report is sent only when both services are stopped
    and the tokens are dropped, and nothing but the removal of the run's own directory
    follows it; a run that is rejected never started nor ran a plan; plans run only after
    the start, each is waited for before the report, and the conclusion is what they
    amount to - failure when a plan or a job failed, else a timeout when a job timed out,
    else cancelled when a job was, else success - unless the run was cancelled, or a
    service did not stop after plans that ended well.  The run ends reported,
    or with an error before its services were up; only a panic of its execution leaves it
    without a report. *)
Theorem runs_report_once_and_truly t l :
  ∃ phase, monitor check Preparing (drop (length t) (whole_run t l).1.1) = Some phase ∧ run_ended (whole_run t l).2 phase.
Proof. exact (triple_accepts _ _ _ _ t l run_passes). Qed.

(** ** Every run is reported *)

Definition is_report (job_id : Uuid) (message : AgentMessage) : bool :=
  match message with
  | JobFinished _ id _ _ _ | JobRejected _ id _ _ => bool_decide (id = job_id)
  | _ => false
  end.

Definition sent_messages (trace : list RunEntry) : list AgentMessage :=
  omap (λ entry : RunEntry, match en_effect entry with RSend message => Some message | _ => None end) trace.

Definition unreported (phase : RunPhase) : bool := match phase with Reported | Relayed => false | _ => true end.

Lemma step_reports phase entry phase' :
  check phase entry = Some phase' → unreported phase = true →
  unreported phase' = true ∨ ∃ message, message ∈ sent_messages [entry] ∧ is_report (run_id run) message = true.
Proof.
  destruct entry as [e a]. intros Hstep Hphase. destruct e; cbn in Hstep; try (left; repeat case_match; simplify_eq; done).
  2: { left. destruct a as [choice answer]. repeat case_match; try done. by apply bind_Some in Hstep as (plans' & _ & [= <-]). }
  destruct message; cbn in Hstep; try done; try (left; repeat case_match; simplify_eq; done).
  all: right; eexists; (split; [by left|]); destruct phase as [| | | | | |[? ? ?]| |]; try done; cbn.
  all: destruct (bool_decide (job_id = run_id run)); [done|]; done.
Qed.

Lemma relayed_reports trace phase :
  monitor check phase trace = Some Relayed → unreported phase = true →
  ∃ message, message ∈ sent_messages trace ∧ is_report (run_id run) message = true.
Proof.
  revert phase. induction trace as [|entry trace IH]; intros phase; cbn [monitor]; [by intros [= ->]|].
  intros (phase' & Hstep & Hrest)%bind_Some Hphase. unfold sent_messages. rewrite (omap_app _ [entry] trace).
  destruct (step_reports _ _ _ Hstep Hphase) as [Hphase'|(message & Hin & Hm)].
  - destruct (IH _ Hrest Hphase') as (message & Hin & Hm). exists message. split; [by apply elem_of_app; right | done].
  - exists message. split; [by apply elem_of_app; left | done].
Qed.

(** C4: No run goes unreported.  Whatever happens in it, unless it panics, a final report
    with the id of the run is sent: by the run itself to its relay, or by the agent
    when the run returns an error. *)
Theorem every_run_is_reported message_id t l :
  (whole_run t l).2 = Panic ∨
  ∃ message, message ∈ sent_messages (drop (length t) (whole_run t l).1.1) ++
                       crash_report message_id (run_id run) (whole_run t l).2 ∧
             is_report (run_id run) message = true.
Proof.
  destruct (triple_accepts _ _ _ _ t l run_passes) as (phase & Hmonitor & Hended).
  destruct (whole_run t l).2 as [[]|error|]; [right | right | by left].
  - cbn in Hended. subst phase. destruct (relayed_reports _ _ Hmonitor eq_refl) as (message & Hin & Hm).
    exists message. split; [by apply elem_of_app; left | done].
  - eexists. split; [apply elem_of_app; right; by left|]. cbn. by rewrite bool_decide_true.
Qed.
End passes.
